(* ===== verification/_CoqProject ===== *)
-Q . S2P
Prelude.v
Program.v
Validate.v
Context.v
Execute.v
Kernel.v
Record.v
Passes.v
Schedule.v
Transform.v
Frontend.v
Compose.v
FlushPlan.v
Session.v
Handles.v
Empbc.v
Bits.v
Bytes.v
Block.v
NumericKernels.v
UInt.v
SInt.v
Aes128.v
AesSpec.v
Words.v
Sha256.v
Sha256Spec.v
Keccak.v
KeccakSpec.v
Crh.v
AesNi.v
TestMode.v
Hash.v
Prg.v
Garble.v
Network.v
Sort.v
Simd.v
Analysis.v
FloatTraits.v
Float.v
ClearSession.v
Gf2.v
F2k.v
Transpose.v
TransposeTiers.v
SessionId.v
Residues.v
HashToCurve.v
Ec.v
Io.v
Net.v
