(* ===== verification/Prelude.v ===== *)
(** * emp-tool: a verification development

    emp-tool is a header library in three layers, all under src/emp-tool/: a
    Boolean-circuit IR with its executors and transformations (ir/), circuits and
    typed values written against an abstract context (circuits/), and a runtime of
    cryptographic kernels and channels (runtime/).  This development models the
    three layers as executable Rocq definitions, translated from the source call by
    call, and proves what makes them correct.

    ** How the parts fit together

    A circuit body is generic over a [BooleanContext]: it calls and, xor and not on
    wires and nothing else.  The same body is run on plain bits, recorded as a
    [BooleanProgram], hashed, counted, buffered in a session, or executed by a
    protocol.  The development follows that: a kernel is a tree of gate calls
    ([Kernel]), a context is a class with laws ([Context]), and the meaning of a
    program is [Program.eval_program].  Everything that makes, stores, transforms or
    runs a program is compared with it.

    - The IR.  [Program] (ir/program.h, visit.h): the data, its reference meaning.
      [Validate] (ir/validate.h): validation decides well-formedness.  [Context]
      (ir/context/concept.h, clear.h, count.h): the contract of contexts.  [Execute]
      (ir/execute.h): replay.  [Kernel]: bodies as gate trees, their value [keval] on
      bits, and that every lawful context computes it.  [Record] (ir/context/record.h,
      digest.h): recording and digesting.  [Passes] (ir/passes.h), [Analysis]
      (ir/analysis.h), [Schedule] (ir/schedule.h), [Transform] (ir/transform.h),
      [Simd] (ir/simd.h), [Empbc] (ir/empbc.h): analyses, batched replay, wire
      compaction, instance batches and the file format.
    - Frontend and sessions.  [Frontend] (ir/artifact.h, circuits/frontend/circuit_fn.h):
      compiled circuits.  [Compose] (ir/context/compose.h, circuits/frontend/compose.h):
      hierarchical circuits and their flattening.  [FlushPlan] and [Session]
      (ir/session/): the buffering session whose flush plans, runs and rebinds the
      pending gates, with the handle counts of its values, its input batches and a
      client that may do anything the interface offers, and [Handles] the wire
      objects that keep those counts (ir/session/chunk_recorder.h).  [ClearSession]
      (ir/session/clear_session.h, ir/wire_value.h): the plaintext session.
    - Circuits.  [Bits] and [Bytes] give wires a value; [NumericKernels], [UInt],
      [SInt], [FloatTraits], [Float] (circuits/ headers of those names); [Network] and
      [Sort] (circuits/sort.h); [Aes128], [Sha256], [Keccak] (circuits/crypto/), each
      with the standard it is compared with in [AesSpec], [Sha256Spec], [KeccakSpec].
    - Runtime.  [Block] (runtime/core/block.hpp, utils.hpp), [Crh] (runtime/crypto/aes.hpp,
      prp.h, ccrh.h, mitccrh.h), [AesNi] (runtime/crypto/aes.hpp instruction by
      instruction, for x86 with and without VAES and for aarch64), [TestMode] (runtime/core/test_mode.h), [Prg] (runtime/crypto/prg.h),
      [Garble] (runtime/execution/), [Gf2] and [F2k] (runtime/crypto/f2k.h, f2k.hpp),
      [Transpose] and [TransposeTiers] (runtime/core/transpose.hpp instruction by
      instruction), [SessionId] (runtime/crypto/session_id.h), [Hash]
      (runtime/crypto/hash.h, ro.h), [Residues], [HashToCurve] and [Ec]
      (runtime/crypto/ec.h, ec.cpp), [Io] (runtime/io/io_channel.h, trace_io.h), whose
      points are those of [Ec],
      [Net] (runtime/io/net_io_channel.h, tls_io_channel.h).

    Interfaces between components are classes with laws: [LawfulContext] between
    kernels and executors, [TileKernel] between the vector code of [AesNi] and the
    hashes of [Crh], [LawfulHash] between a hash algorithm and [HashT], [LawfulTransport]
    between a transport and [IOChannel] ([TraceIO] and the staged sockets of [Net] are
    instances, [Net.LawfulSocket] is what the latter ask of a socket), [LawfulCodec]
    between value families and sessions, [FloatSuite] between [Float_T] and the
    recorded floating-point circuits.  OpenSSL's big numbers, curve and points are
    [LawfulBigNum], [LawfulCurve], [LawfulBigNumBytes] and [LawfulPoints]: what its
    manual says of the calls, with toy instances that show the laws can hold.

    ** Conventions

    A failed [expecting] ends the process: computations return an [outcome], a value,
    [Fatal] with the message, or [Undef] for undefined behaviour (an access out of
    range).  Theorems keep the three apart; a theorem that gives [Ret] excludes the
    other two.  Machine integers are [N] or [Z] with wrap-around written out ([u32],
    [u64]).  A mutable object is a record passed along.  A loop that is not structural
    has fuel; the bound is stated where the fuel is chosen and the theorems show it is
    enough: the bytes wanted for a receive, the bytes left for a packed transfer, ten
    turns for the normalization of a half, the gates of a chunk for the marking of a
    flush.  Drawing a scalar in test mode repeats until a draw is below the order: any
    fuel above the index of the first such draw gives that draw.  Retry loops run along
    the list of answers the state still holds.

    ** What the theorems show

    - Well-formedness: validation accepts exactly the well-formed programs; loading a
      file gives one or ends the process; recorders and transformations produce one.
    - Meaning: replay, scheduled and batched replay, compaction, recording, compiled and
      composed circuits all compute [eval_program]; files round-trip.
    - Sessions: through every sequence of operations a wire in scope of the buffering
      session is without a bit only where it waits for a batch not finished or hangs on
      what a checkpoint was told to drop, and what is revealed is what the gates say; the
      counts it goes by are the wire objects there are, whatever is copied, moved or assigned.
    - Circuits: the value types compute arithmetic of their width for all inputs, with
      the documented results for zero divisors of the unsigned (a signed quotient is
      claimed where it is defined); AES, CTR, SHA-256 and SHA3-256 equal
      the standards for every message; sorting sorts and permutes.
    - Runtime: every vector tier of the AES, GF(2^128) and transposition kernels
      computes the same reference functions; the hash streams of garbling use each key
      and tweak once; garbled gates open to the right label; PRG draws are slices of one
      counter stream; test-mode seeds never repeat under any interleaving of threads whose
      tokens differ; buffering
      does not change a digest; oracle messages are injective in the calls; session
      identifiers derived from one parent are distinct; hashing to the curve is
      RFC 9380's; points stay on the curve and survive their encoding, and nothing
      off the curve and no point at infinity is read from the wire.
    - Channels: counters, rounds and transcripts follow the calls; two endpoints agree;
      tracing is transparent; network channels lose and reorder nothing however the
      system splits the work; a pair of endpoints that obeys the flush contract never
      deadlocks and receives what unbuffered channels would give.

    Where the code departs from its comments a lemma shows the departure
    ([Net.tls_sync_stuck], [Prg.reseed_stale], [TestMode.reset_race], [TestMode.token_reused],
    [UInt.mod_exp_truncates], [Passes.layout_pass_const_overcount],
    [Empbc.load_empbc_ignores_padding], [Transpose.odd_rows]).

    ** Not modelled

    Opening sockets and listeners (runtime/io/tcp_socket.h, the constructors of the
    channels), the arithmetic inside OpenSSL, the embedded asset files and their
    loaders (ir/assets, ir/builtins), the thread pool, timing and printing helpers, the compile-time tier macros of simd_tier.h beyond
    the lanes they select, the command-line tool (tools/), the benchmarks, the tests
    and third_party/.  They are I/O, generated data, or calls into libraries. *)

From stdpp Require Export base list strings pretty numbers gmap.
From Stdlib Require Export Lia.

Declare Scope emp_scope.
Delimit Scope emp_scope with emp.
Open Scope emp_scope.

(** ** Outcomes

    [error()] / [expecting()] (runtime/core/error.h) end the process with a
    message; an out-of-range vector access is undefined behaviour.  A piece of
    C++ code therefore has three outcomes, and the theorems of the development
    keep them apart: [Ret] a value, [Fatal] with the message given to
    [error()], [Undef] for undefined behaviour. *)
Inductive outcome (A : Type) : Type :=
  | Ret (a : A)
  | Fatal (msg : string)
  | Undef.
Arguments Ret {A} a.
Arguments Fatal {A} msg.
Arguments Undef {A}.

#[export] Instance outcome_ret : MRet outcome := @Ret.
#[export] Instance outcome_bind : MBind outcome := λ A B f m,
  match m with Ret a => f a | Fatal msg => Fatal msg | Undef => Undef end.
#[export] Instance outcome_fmap : FMap outcome := λ A B f m,
  match m with Ret a => Ret (f a) | Fatal msg => Fatal msg | Undef => Undef end.

(** [expecting(condition, message)]: continue, or end the process. *)
Definition expecting (b : bool) (msg : string) : outcome unit :=
  if b then Ret tt else Fatal msg.

(** The state of a context threaded through an outcome. *)
Definition ST (C A : Type) : Type := C → outcome (A * C).
#[export] Instance ST_ret C : MRet (ST C) := λ A a c, Ret (a, c).
#[export] Instance ST_bind C : MBind (ST C) := λ A B f m c,
  '(a, c') ← m c; f a c'.
Definition lift {C A} (m : outcome A) : ST C A := λ c, a ← m; Ret (a, c).

(** [owp E m Q]: [m] does not run into undefined behaviour, ends the process
    only with a message allowed by [E], and its result, when there is one,
    satisfies [Q].  [wp] is the same for a computation over a context. *)
Definition owp {A} (E : string → Prop) (m : outcome A) (Q : A → Prop) : Prop :=
  match m with Ret a => Q a | Fatal msg => E msg | Undef => False end.
Definition wp {C A} (E : string → Prop) (m : ST C A) (c : C) (Q : A → C → Prop) : Prop :=
  owp E (m c) (λ '(a, c'), Q a c').

Section wp.
Context (E : string → Prop).

Lemma owp_bind {A B} (m : outcome A) (f : A → outcome B) Q :
  owp E m (λ a, owp E (f a) Q) → owp E (m ≫= f) Q.
Proof. by destruct m. Qed.
Lemma owp_mono {A} (m : outcome A) (P Q : A → Prop) :
  owp E m P → (∀ a, P a → Q a) → owp E m Q.
Proof. destruct m; simpl; auto. Qed.
Lemma owp_Ret {A} (m : outcome A) a (Q : A → Prop) : m = Ret a → Q a → owp E m Q.
Proof. by intros ->. Qed.

Lemma wp_ret {C A} (a : A) (c : C) (Q : A → C → Prop) : Q a c → wp E (mret a) c Q.
Proof. done. Qed.
Lemma wp_bind {C A B} (m : ST C A) (f : A → ST C B) c Q :
  wp E m c (λ a c', wp E (f a) c' Q) → wp E (m ≫= f) c Q.
Proof.
  unfold wp, mbind, ST_bind. intros H. apply owp_bind. eapply owp_mono; [exact H|].
  by intros [a c'].
Qed.
Lemma wp_mono {C A} (m : ST C A) c (P Q : A → C → Prop) :
  wp E m c P → (∀ a c', P a c' → Q a c') → wp E m c Q.
Proof. intros H HPQ. eapply owp_mono; [exact H|]. intros [a c']. apply HPQ. Qed.
Lemma wp_expecting {C} b msg (c : C) (Q : unit → C → Prop) :
  (b = true → Q tt c) → (b = false → E msg) → wp E (lift (expecting b msg)) c Q.
Proof. unfold wp, lift, expecting. destruct b; simpl; auto. Qed.
Lemma wp_lift_Ret {C A} (m : outcome A) a (c : C) (Q : A → C → Prop) :
  m = Ret a → Q a c → wp E (lift m) c Q.
Proof. unfold wp, lift. by intros ->. Qed.

Lemma owp_err_mono {A} (E' : string → Prop) (m : outcome A) (Q : A → Prop) :
  owp E m Q → (∀ msg, E msg → E' msg) → owp E' m Q.
Proof. destruct m; simpl; auto. Qed.

(** Without fatal errors a computation returns. *)
Lemma wp_total {C A} (m : ST C A) c (Q : A → C → Prop) :
  wp E m c Q → (∀ msg, ¬ E msg) → ∃ a c', m c = Ret (a, c') ∧ Q a c'.
Proof. unfold wp. destruct (m c) as [[a c']| |]; simpl; naive_solver. Qed.
End wp.

(** ** Machine integers

    [uintN_t] values are natural numbers below [2^N]; the code's wrap-around
    is written out with these functions. *)
Definition u8  (n : N) : N := (n `mod` 2 ^ 8)%N.
Definition u16 (n : N) : N := (n `mod` 2 ^ 16)%N.
Definition u32 (n : N) : N := (n `mod` 2 ^ 32)%N.
Definition u64 (n : N) : N := (n `mod` 2 ^ 64)%N.
Definition UINT32_MAX : N := 4294967295%N.

Lemma u32_small n : (n < 2 ^ 32)%N → u32 n = n.
Proof. apply N.mod_small. Qed.
Lemma u64_small n : (n < 2 ^ 64)%N → u64 n = n.
Proof. apply N.mod_small. Qed.
Lemma u8_lt n : (u8 n < 2 ^ 8)%N.
Proof. by apply N.mod_lt. Qed.
Lemma u16_lt n : (u16 n < 2 ^ 16)%N.
Proof. by apply N.mod_lt. Qed.
Lemma u32_lt n : (u32 n < 2 ^ 32)%N.
Proof. by apply N.mod_lt. Qed.
Lemma u64_lt n : (u64 n < 2 ^ 64)%N.
Proof. by apply N.mod_lt. Qed.

(** ** Vectors

    A [std::vector] is a list indexed by [size_t]; reading or writing past
    the end is undefined behaviour. *)
Definition vlen {A} (v : list A) : N := N.of_nat (length v).
Definition vget {A} (v : list A) (i : N) : outcome A :=
  match v !! N.to_nat i with Some a => Ret a | None => Undef end.
Definition vset {A} (v : list A) (i : N) (a : A) : outcome (list A) :=
  if decide (N.to_nat i < length v) then Ret (<[N.to_nat i := a]> v) else Undef.
Definition vmake {A} (n : N) (a : A) : list A := replicate (N.to_nat n) a.
(** [v.resize(n)] on a vector that only grows. *)
Definition vgrow {A} (v : list A) (n : N) (a : A) : list A :=
  v ++ replicate (N.to_nat n - length v) a.
(** The index sequence of [for (i = lo; i < lo + n; ++i)]. *)
Definition range (lo n : N) : list N := N.of_nat <$> seq (N.to_nat lo) (N.to_nat n).

(** A [for] loop over a list, with the fatal errors of its body. *)
Fixpoint foldO {S A} (f : S → A → outcome S) (s : S) (l : list A) : outcome S :=
  match l with
  | [] => Ret s
  | a :: l => s' ← f s a; foldO f s' l
  end.
(** A [for] loop whose body acts on a context. *)
Fixpoint foldST {C S A} (f : S → A → ST C S) (s : S) (l : list A) : ST C S :=
  match l with
  | [] => mret s
  | a :: l => s' ← f s a; foldST f s' l
  end.
Definition is_nil {A} (l : list A) : bool := match l with [] => true | _ => false end.
(** Element-wise [vget]: gather the elements of [v] at the indices [idx]. *)
Definition vgather {A} (v : list A) (idx : list N) : outcome (list A) :=
  foldO (λ acc i, a ← vget v i; Ret (acc ++ [a])) [] idx.

Lemma expecting_Ret b msg u : expecting b msg = Ret u ↔ b = true.
Proof. destruct u, b; by unfold expecting; split. Qed.
Lemma expecting_not_Undef b msg : expecting b msg ≠ Undef.
Proof. by destruct b. Qed.

Lemma bind_Ret {A B} (m : outcome A) (f : A → outcome B) b :
  (m ≫= f) = Ret b ↔ ∃ a, m = Ret a ∧ f a = Ret b.
Proof. destruct m; naive_solver. Qed.

(** A guard followed by the rest of the function. *)
Lemma expecting_bind_Ret {A} b msg (m : outcome A) x :
  (expecting b msg;; m) = Ret x ↔ b = true ∧ m = Ret x.
Proof. destruct b; simpl; split; [auto|by intros [_ ?]|done|by intros [? _]]. Qed.

Lemma bind_not_Undef {A B} (m : outcome A) (f : A → outcome B) :
  m ≠ Undef → (∀ a, m = Ret a → f a ≠ Undef) → (m ≫= f) ≠ Undef.
Proof. destruct m; naive_solver. Qed.

Section outcome_lemmas.
Context {S A : Type}.
Implicit Types (s : S) (l : list A).

Lemma foldO_app (f : S → A → outcome S) s l1 l2 :
  foldO f s (l1 ++ l2) = s' ← foldO f s l1; foldO f s' l2.
Proof. revert s; induction l1 as [|a l1 IH]; intros s; simpl; [done|].
       destruct (f s a); simpl; auto. Qed.

(** The rule for loops that always complete. *)
Lemma foldO_inv (f : S → A → outcome S) l (P : list A → S → Prop) s :
  P [] s →
  (∀ don a todo s, l = don ++ a :: todo → P don s →
     ∃ s', f s a = Ret s' ∧ P (don ++ [a]) s') →
  ∃ s', foldO f s l = Ret s' ∧ P l s'.
Proof.
  intros H0 Hstep.
  assert (∀ don todo s, l = don ++ todo → P don s →
    ∃ s', foldO f s todo = Ret s' ∧ P l s') as H; [|by apply (H [])].
  intros don todo. revert don. induction todo as [|a todo IH]; intros don s1 Hl HP.
  - rewrite app_nil_r in Hl. subst. by exists s1.
  - destruct (Hstep _ _ _ _ Hl HP) as (s2 & Hf & HP2). simpl. rewrite Hf. simpl.
    apply (IH (don ++ [a])); [by rewrite <- app_assoc|done].
Qed.

(** The rule for loops that may stop with an error: what holds of the
    state when the loop does complete. *)
Lemma foldO_Ret_inv (f : S → A → outcome S) l (P : list A → S → Prop) s s' :
  P [] s →
  (∀ don a todo s s', l = don ++ a :: todo → P don s → f s a = Ret s' →
     P (don ++ [a]) s') →
  foldO f s l = Ret s' → P l s'.
Proof.
  intros H0 Hstep.
  assert (∀ don todo s, l = don ++ todo → P don s → foldO f s todo = Ret s' → P l s')
    as H; [|by apply (H [])].
  intros don todo. revert don. induction todo as [|a todo IH]; intros don s1 Hl HP.
  - rewrite app_nil_r in Hl. subst. simpl. by intros [= ->].
  - simpl. rewrite bind_Ret. intros (s2 & Hf & Hrest).
    apply (IH (don ++ [a]) s2); [by rewrite <- app_assoc|by eapply Hstep|done].
Qed.

Lemma foldO_not_Undef (f : S → A → outcome S) l (P : list A → S → Prop) s :
  P [] s →
  (∀ don a todo s, l = don ++ a :: todo → P don s →
     f s a ≠ Undef ∧ ∀ s', f s a = Ret s' → P (don ++ [a]) s') →
  foldO f s l ≠ Undef.
Proof.
  intros H0 Hstep.
  assert (∀ don todo s, l = don ++ todo → P don s → foldO f s todo ≠ Undef)
    as H; [|by apply (H [])].
  intros don todo. revert don. induction todo as [|a todo IH]; intros don s1 Hl HP; [done|].
  simpl. destruct (Hstep _ _ _ _ Hl HP) as [Hu Hn].
  apply bind_not_Undef; [done|]. intros s2 Hf.
  apply (IH (don ++ [a])); [by rewrite <- app_assoc|by apply Hn].
Qed.
End outcome_lemmas.

(** The loop rule for [owp] and, for a loop over a context, for [wp]. *)
Lemma owp_foldO {S A} (E : string → Prop) (f : S → A → outcome S) (l : list A)
    (P : list A → S → Prop) s (Q : S → Prop) :
  P [] s →
  (∀ don a todo s, l = don ++ a :: todo → P don s → owp E (f s a) (P (don ++ [a]))) →
  (∀ s, P l s → Q s) →
  owp E (foldO f s l) Q.
Proof.
  intros H0 Hstep HQ.
  assert (∀ don todo s, l = don ++ todo → P don s → owp E (foldO f s todo) Q)
    as H; [|by apply (H [])].
  intros don todo. revert don. induction todo as [|a todo IH]; intros don s1 Hl HP.
  - rewrite app_nil_r in Hl. subst. by apply HQ.
  - simpl. apply owp_bind. eapply owp_mono; [by eapply Hstep|]. intros s2 HP2. simpl in *.
    apply (IH (don ++ [a])); [by rewrite <- app_assoc|done].
Qed.
Lemma wp_foldST {C S A} (E : string → Prop) (f : S → A → ST C S) l
    (P : list A → S → C → Prop) s c (Q : S → C → Prop) :
  P [] s c →
  (∀ don a todo s c, l = don ++ a :: todo → P don s c →
     wp E (f s a) c (P (don ++ [a]))) →
  (∀ s c, P l s c → Q s c) →
  wp E (foldST f s l) c Q.
Proof.
  intros H0 Hstep HQ.
  assert (∀ don todo s c, l = don ++ todo → P don s c → wp E (foldST f s todo) c Q)
    as H; [|by apply (H [])].
  intros don todo. revert don. induction todo as [|a todo IH]; intros don s1 c1 Hl HP.
  - rewrite app_nil_r in Hl. subst. apply HQ. done.
  - simpl. apply wp_bind. eapply wp_mono; [by eapply Hstep|]. intros s2 c2 HP2. simpl in *.
    apply (IH (don ++ [a])); [by rewrite <- app_assoc|done].
Qed.

(** *** Relating two computations

    [orel R m1 m2]: both return related results, or both end with an error
    (possibly with different messages), or both are undefined. *)
Definition orel {A1 A2} (R : A1 → A2 → Prop) (m1 : outcome A1) (m2 : outcome A2) : Prop :=
  match m1, m2 with
  | Ret a1, Ret a2 => R a1 a2
  | Fatal _, Fatal _ => True
  | Undef, Undef => True
  | _, _ => False
  end.
Lemma orel_bind {A1 A2 B1 B2} (R : A1 → A2 → Prop) (RB : B1 → B2 → Prop) m1 m2
    (f1 : A1 → outcome B1) (f2 : A2 → outcome B2) :
  orel R m1 m2 → (∀ a1 a2, R a1 a2 → orel RB (f1 a1) (f2 a2)) →
  orel RB (m1 ≫= f1) (m2 ≫= f2).
Proof. destruct m1, m2; simpl; try done. auto. Qed.
Lemma orel_refl {A} (m : outcome A) : orel eq m m.
Proof. by destruct m. Qed.
Lemma orel_foldO {A S1 S2} (R : S1 → S2 → Prop) (f1 : S1 → A → outcome S1)
    (f2 : S2 → A → outcome S2) l s1 s2 :
  R s1 s2 → (∀ a s1 s2, R s1 s2 → orel R (f1 s1 a) (f2 s2 a)) →
  orel R (foldO f1 s1 l) (foldO f2 s2 l).
Proof.
  intros Hs Hf. revert s1 s2 Hs. induction l as [|a l IH]; intros s1 s2 Hs; simpl; [done|].
  eapply orel_bind; [by apply Hf|auto].
Qed.

(** *** Vectors *)
Section vectors.
Context {A : Type}.
Implicit Types (v : list A) (a : A) (i n : N).

Lemma vget_Ret v i a : vget v i = Ret a ↔ v !! N.to_nat i = Some a.
Proof. unfold vget. destruct (v !! _); naive_solver. Qed.

Lemma vget_lt v i : (i < vlen v)%N → ∃ a, vget v i = Ret a.
Proof.
  unfold vlen. intros Hi. destruct (lookup_lt_is_Some_2 v (N.to_nat i)) as [a Ha]; [lia|].
  exists a. by apply vget_Ret.
Qed.

Lemma vget_not_Undef v i : (i < vlen v)%N → vget v i ≠ Undef.
Proof. intros [a ->]%vget_lt. done. Qed.

Lemma vset_lt v i a : (i < vlen v)%N → vset v i a = Ret (<[N.to_nat i := a]> v).
Proof. unfold vlen, vset. intros. rewrite decide_True; [done|lia]. Qed.

Lemma vset_Ret v i a v' :
  vset v i a = Ret v' ↔ (i < vlen v)%N ∧ v' = <[N.to_nat i := a]> v.
Proof. unfold vset, vlen. case_decide; naive_solver lia. Qed.

Lemma vlen_vmake n a : vlen (vmake n a) = n.
Proof. unfold vlen, vmake. rewrite length_replicate. lia. Qed.

Lemma vlen_insert v k a : vlen (<[k := a]> v) = vlen v.
Proof. unfold vlen. by rewrite length_insert. Qed.

Lemma vlen_app v1 v2 : vlen (v1 ++ v2) = (vlen v1 + vlen v2)%N.
Proof. unfold vlen. rewrite length_app. lia. Qed.

Lemma vlen_vgrow v n a : vlen (vgrow v n a) = N.max (vlen v) n.
Proof. unfold vlen, vgrow. rewrite length_app, length_replicate. lia. Qed.

Lemma vgather_Ret v idx vals :
  vgather v idx = Ret vals ↔ Forall2 (λ i a, v !! N.to_nat i = Some a) idx vals.
Proof.
  unfold vgather. assert (∀ acc, foldO (λ acc i, a ← vget v i; Ret (acc ++ [a])) acc idx
    = Ret vals ↔ ∃ tl, vals = acc ++ tl ∧ Forall2 (λ i a, v !! N.to_nat i = Some a) idx tl)
    as H; [|rewrite H; naive_solver].
  induction idx as [|i idx IH]; intros acc; simpl.
  - split; [intros [= ->]; exists []; by rewrite app_nil_r|].
    intros (tl & -> & ->%Forall2_nil_inv_l). by rewrite app_nil_r.
  - rewrite bind_Ret. split.
    + intros (acc' & (a & Ha%vget_Ret & [= <-])%bind_Ret & Hrest).
      apply IH in Hrest as (tl & -> & Hf). exists (a :: tl).
      rewrite <- app_assoc. split; [done|by constructor].
    + intros (tl & -> & Hf). apply Forall2_cons_inv_l in Hf as (a & tl' & Ha & Hf & ->).
      exists (acc ++ [a]). split.
      * apply bind_Ret. exists a. by rewrite vget_Ret.
      * apply IH. exists tl'. by rewrite <- app_assoc.
Qed.
End vectors.

Lemma vlen_fmap {A B} (f : A → B) v : vlen (f <$> v) = vlen v.
Proof. unfold vlen. by rewrite length_fmap. Qed.

Lemma range_length lo n : length (range lo n) = N.to_nat n.
Proof. unfold range. by rewrite length_fmap, length_seq. Qed.
Lemma range_lookup lo n k i :
  range lo n !! k = Some i ↔ (k < N.to_nat n)%nat ∧ i = (lo + N.of_nat k)%N.
Proof.
  unfold range. rewrite list_lookup_fmap. split.
  - intros (j & Hj & ->)%fmap_Some. rewrite lookup_seq in Hj. lia.
  - intros [? ->]. apply fmap_Some. exists (N.to_nat lo + k)%nat. rewrite lookup_seq. lia.
Qed.
Lemma range_succ lo n : range lo (n + 1) = range lo n ++ [(lo + n)%N].
Proof.
  unfold range. replace (N.to_nat (n + 1)) with (N.to_nat n + 1)%nat by lia.
  rewrite seq_app, fmap_app. simpl. repeat f_equal. lia.
Qed.
Lemma elem_of_range lo n i : i ∈ range lo n ↔ (lo ≤ i < lo + n)%N.
Proof.
  rewrite list_elem_of_lookup. setoid_rewrite range_lookup. split; [intros (k&?); lia|].
  intros. exists (N.to_nat (i - lo)). lia.
Qed.
Lemma NoDup_range lo n : NoDup (range lo n).
Proof. unfold range. apply NoDup_fmap_2; [apply _|apply NoDup_seq]. Qed.

(** The rule for [for (i = 0; i < v.size(); ++i) ... v[i] ...]: the invariant
    speaks of the elements already visited. *)
Lemma foldO_index_inv {St A} (f : St → N → outcome St) (l : list A) (P : list A → St → Prop) s :
  P [] s →
  (∀ don a todo s, l = don ++ a :: todo → P don s →
     ∃ s', f s (vlen don) = Ret s' ∧ P (don ++ [a]) s') →
  ∃ s', foldO f s (range 0 (vlen l)) = Ret s' ∧ P l s'.
Proof.
  intros H0 Hstep.
  destruct (foldO_inv f (range 0 (vlen l)) (λ don s, P (take (length don) l) s) s)
    as (s' & Hf & HP); [done| |].
  - intros don i todo s1 Heq HP.
    assert (range 0 (vlen l) !! length don = Some i) as [Hk ->]%range_lookup
      by (rewrite Heq; by apply list_lookup_middle).
    unfold vlen in Hk. destruct (lookup_lt_is_Some_2 l (length don)) as [a Ha]; [lia|].
    destruct (Hstep (take (length don) l) a (drop (S (length don)) l) s1)
      as (s2 & Hf & HP2); [by rewrite take_drop_middle|done|].
    exists s2. split.
    + rewrite <- Hf. f_equal. unfold vlen. rewrite length_take. lia.
    + rewrite length_app. simpl. rewrite Nat.add_1_r, (take_S_r _ _ _ Ha). done.
  - exists s'. split; [done|]. rewrite range_length, take_ge in HP; [done|unfold vlen; lia].
Qed.
(** The rule for [for (i = 0; i < n; ++i)]. *)
Lemma foldO_range_inv {St} (f : St → N → outcome St) (n : N) (P : N → St → Prop) s :
  P 0%N s →
  (∀ i s, (i < n)%N → P i s → ∃ s', f s i = Ret s' ∧ P (i + 1)%N s') →
  ∃ s', foldO f s (range 0 n) = Ret s' ∧ P n s'.
Proof.
  intros H0 Hstep.
  destruct (foldO_inv f (range 0 n) (λ don s, P (vlen don) s) s) as (s' & Hf & HP); [done| |].
  - intros don i todo s1 Heq HP.
    assert (range 0 n !! length don = Some i) as [Hk Hi]%range_lookup
      by (rewrite Heq; by apply list_lookup_middle).
    destruct (Hstep i s1) as (s2 & ? & HP2); [lia| |].
    + unfold vlen in HP. by rewrite Hi, N.add_0_l.
    + exists s2. split; [done|]. rewrite vlen_app. unfold vlen at 1. simpl.
      replace (N.of_nat (length don)) with i by lia. done.
  - exists s'. split; [done|]. unfold vlen in HP. by rewrite range_length, N2Nat.id in HP.
Qed.
Lemma vget_middle {A} (don : list A) a todo : vget (don ++ a :: todo) (vlen don) = Ret a.
Proof. apply vget_Ret. unfold vlen. rewrite Nat2N.id. by apply list_lookup_middle. Qed.

(** *** Arrays indexed by wire

    [vspec n P v]: [v] has [n] entries and entry [w] satisfies [P w]. *)
Definition vspec {X} (n : N) (P : N → X → Prop) (v : list X) : Prop :=
  vlen v = n ∧ ∀ w, (w < n)%N → ∃ x, vget v w = Ret x ∧ P w x.
Section vspec.
Context {X : Type}.
Implicit Types (v : list X) (x : X) (P Q : N → X → Prop).

Lemma vspec_make n P x : (∀ w, (w < n)%N → P w x) → vspec n P (vmake n x).
Proof.
  intros H. split; [apply vlen_vmake|]. intros w Hw. exists x. split; [|auto].
  apply vget_Ret. unfold vmake. apply lookup_replicate_2. lia.
Qed.
Lemma vspec_get n P v w : vspec n P v → (w < n)%N → ∃ x, vget v w = Ret x ∧ P w x.
Proof. intros [_ H]. apply H. Qed.
Lemma vspec_impl n P Q v :
  vspec n P v → (∀ w x, (w < n)%N → P w x → Q w x) → vspec n Q v.
Proof. intros [Hl H] HQ. split; [done|]. intros w Hw. destruct (H w Hw) as (x & ? & ?). eauto. Qed.
Lemma vspec_set n P Q v i x :
  vspec n P v → (i < n)%N → Q i x → (∀ w y, (w < n)%N → w ≠ i → P w y → Q w y) →
  ∃ v', vset v i x = Ret v' ∧ vspec n Q v'.
Proof.
  intros [Hl H] Hi Hx HQ. exists (<[N.to_nat i := x]> v).
  split; [apply vset_lt; lia|]. split; [by rewrite vlen_insert|]. intros w Hw.
  unfold vlen in Hl. destruct (decide (w = i)) as [->|Hne].
  - exists x. split; [|done]. apply vget_Ret. apply list_lookup_insert_eq. lia.
  - destruct (H w Hw) as (y & Hy & HP). exists y. split; [|auto].
    rewrite vget_Ret in Hy |- *. rewrite list_lookup_insert_ne by lia. done.
Qed.
Lemma vspec_lookup n P v w x : vspec n P v → v !! N.to_nat w = Some x → P w x.
Proof.
  intros [Hl H] Hw. destruct (H w) as (y & Hy%vget_Ret & HP).
  - apply lookup_lt_Some in Hw. unfold vlen in Hl. lia.
  - congruence.
Qed.
End vspec.

(** Automation shared by the files: bring the arithmetic of booleans and
    vectors into a form [lia] understands. *)
Create HintDb emp.
Create Rewrite HintDb vlen.
#[export] Hint Rewrite @vlen_vmake @vlen_insert @vlen_app @vlen_vgrow @vlen_fmap : vlen.
Ltac vlen := autorewrite with vlen in *.
Ltac bool_arith := repeat match goal with
  | H : context [bool_decide] |- _ => rewrite ?bool_decide_eq_true, ?bool_decide_eq_false in H
  | H : (_ <? _)%N = _ |- _ => first [apply N.ltb_lt in H | apply N.ltb_ge in H]
  | H : (_ <=? _)%N = _ |- _ => first [apply N.leb_le in H | apply N.leb_gt in H]
  | H : (_ =? _)%N = _ |- _ => first [apply N.eqb_eq in H | apply N.eqb_neq in H]
  | H : negb _ = true |- _ => apply negb_true_iff in H
  | H : negb _ = false |- _ => apply negb_false_iff in H
  | H : (_ && _)%bool = true |- _ => apply andb_true_iff in H as [? ?]
  | H : (_ || _)%bool = false |- _ => apply orb_false_iff in H as [? ?]
  end.

(** ** Bits of bounded numbers *)
Lemma testbit_above n v i : (v < 2 ^ n)%N → (n ≤ i)%N → N.testbit v i = false.
Proof.
  intros Hv Hi. destruct (decide (v = 0)%N) as [->|]; [apply N.bits_0|].
  apply N.bits_above_log2. eapply N.lt_le_trans; [|exact Hi]. apply N.log2_lt_pow2; lia.
Qed.
Lemma lt_pow2_bits v n : (∀ i, (n ≤ i)%N → N.testbit v i = false) → (v < 2 ^ n)%N.
Proof.
  intros H. replace v with (v mod 2 ^ n)%N; [by apply N.mod_lt, N.pow_nonzero|].
  apply N.bits_inj. intros i. destruct (N.ltb_spec i n).
  - by rewrite N.mod_pow2_bits_low.
  - rewrite N.mod_pow2_bits_high by done. by rewrite H.
Qed.
Lemma lor_lt a b n : (a < 2 ^ n)%N → (b < 2 ^ n)%N → (N.lor a b < 2 ^ n)%N.
Proof.
  intros Ha Hb. apply lt_pow2_bits. intros i Hi.
  by rewrite N.lor_spec, (testbit_above n a), (testbit_above n b).
Qed.
