(* ===== verification/Program.v ===== *)
(** * The Boolean-circuit IR (ir/program.h, ir/visit.h)

    The data types of the IR, the queries on them, and the reference meaning of
    a program: gates are run in emission order over a finite map from wire ids
    to bits.  [eval_program] is the specification every executor, transform and
    recorder of the development is compared with. *)

From S2P Require Import Prelude.

(** [enum class Op : uint8_t]. *)
Inductive Op : Type := And | Xor | Not | Const0 | Const1.
#[export] Instance Op_eq_dec : EqDecision Op.
Proof. solve_decision. Defined.

(** The numeric value of the enumeration, which is also the on-disk code. *)
Definition op_code (o : Op) : N :=
  match o with And => 0 | Xor => 1 | Not => 2 | Const0 => 3 | Const1 => 4 end.
(** [(Op)b] for a byte [b <= Const1]. *)
Definition op_of_code (b : N) : Op :=
  match b with 0%N => And | 1%N => Xor | 2%N => Not | 3%N => Const0 | _ => Const1 end.

Record Gate : Type := MkGate { in0 : N; in1 : N; out : N; op : Op }.
#[export] Instance Gate_eq_dec : EqDecision Gate.
Proof. solve_decision. Defined.

Definition is_and (g : Gate) : bool := match op g with And => true | _ => false end.
Definition is_xor (g : Gate) : bool := match op g with Xor => true | _ => false end.
Definition is_not (g : Gate) : bool := match op g with Not => true | _ => false end.
Definition is_const (g : Gate) : bool :=
  match op g with Const0 | Const1 => true | _ => false end.
Definition is_linear (g : Gate) : bool :=
  match op g with Xor | Not => true | _ => false end.

(** [enum class WireReuse : uint8_t]. *)
Inductive WireReuse : Type := ReuseNone | ReuseLinear | ReuseFull.
#[export] Instance WireReuse_eq_dec : EqDecision WireReuse.
Proof. solve_decision. Defined.
Definition reuse_code (r : WireReuse) : N :=
  match r with ReuseNone => 0 | ReuseLinear => 1 | ReuseFull => 2 end.
Definition reuse_of_code (b : N) : WireReuse :=
  match b with 0%N => ReuseNone | 1%N => ReuseLinear | _ => ReuseFull end.

Record BooleanProgram : Type := MkProgram {
  num_wires : N;
  num_inputs : N;
  wire_reuse : WireReuse;
  gates : list Gate;
  outputs : list N }.
#[export] Instance BooleanProgram_eq_dec : EqDecision BooleanProgram.
Proof. solve_decision. Defined.

Definition total_input_bits (p : BooleanProgram) : N := num_inputs p.
Definition total_output_bits (p : BooleanProgram) : N := u32 (vlen (outputs p)).
Definition num_gate (p : BooleanProgram) : N := u32 (vlen (gates p)).

(** The [uint32_t] fields of a program hold 32-bit values. *)
Definition gate_u32 (g : Gate) : Prop :=
  (in0 g < 2 ^ 32)%N ∧ (in1 g < 2 ^ 32)%N ∧ (out g < 2 ^ 32)%N.
Definition prog_u32 (p : BooleanProgram) : Prop :=
  (num_wires p < 2 ^ 32)%N ∧ (num_inputs p < 2 ^ 32)%N ∧
  Forall gate_u32 (gates p) ∧ Forall (λ w, (w < 2 ^ 32)%N) (outputs p).

(** The operand wires a gate reads: [in1] of a Not and both operands of a
    constant are unused. *)
Definition reads (g : Gate) : list N :=
  match op g with
  | And | Xor => [in0 g; in1 g]
  | Not => [in0 g]
  | Const0 | Const1 => []
  end.

(** ** Reference semantics *)
Definition gate_val (env : gmap N bool) (g : Gate) : option bool :=
  match op g with
  | And => a ← env !! in0 g; b ← env !! in1 g; Some (a && b)
  | Xor => a ← env !! in0 g; b ← env !! in1 g; Some (xorb a b)
  | Not => a ← env !! in0 g; Some (negb a)
  | Const0 => Some false
  | Const1 => Some true
  end.

Fixpoint sem_gates (gs : list Gate) (env : gmap N bool) : option (gmap N bool) :=
  match gs with
  | [] => Some env
  | g :: gs => v ← gate_val env g; sem_gates gs (<[out g := v]> env)
  end.

Definition init_env (ins : list bool) : gmap N bool :=
  list_to_map (zip (range 0 (vlen ins)) ins).

Definition eval_program (p : BooleanProgram) (ins : list bool) : option (list bool) :=
  env ← sem_gates (gates p) (init_env ins);
  mapM (env !!.) (outputs p).

(** [for_each_gate]: walk the gates in order, dispatching each to the visitor's
    method.  The visitor is a record of its four methods over its own state. *)
Record Visitor (S : Type) : Type := MkVisitor {
  v_and : N → N → N → S → outcome S;
  v_xor : N → N → N → S → outcome S;
  v_not : N → N → S → outcome S;
  v_const : N → bool → S → outcome S }.
Arguments v_and {S}. Arguments v_xor {S}. Arguments v_not {S}. Arguments v_const {S}.
Arguments MkVisitor {S}.

Definition visit_gate {S} (v : Visitor S) (s : S) (g : Gate) : outcome S :=
  match op g with
  | And => v_and v (out g) (in0 g) (in1 g) s
  | Xor => v_xor v (out g) (in0 g) (in1 g) s
  | Not => v_not v (out g) (in0 g) s
  | Const0 => v_const v (out g) false s
  | Const1 => v_const v (out g) true s
  end.
Definition for_each_gate {S} (p : BooleanProgram) (v : Visitor S) (s : S) : outcome S :=
  foldO (visit_gate v) s (gates p).

(** ** Basic facts *)
Lemma op_of_code_code o : op_of_code (op_code o) = o.
Proof. by destruct o. Qed.
Lemma op_code_of_code b : (b ≤ 4)%N → op_code (op_of_code b) = b.
Proof.
  intros. assert (b = 0 ∨ b = 1 ∨ b = 2 ∨ b = 3 ∨ b = 4)%N as H' by lia.
  repeat (destruct H' as [H'|H']; [by subst|]). by subst.
Qed.
Lemma reuse_of_code_code r : reuse_of_code (reuse_code r) = r.
Proof. by destruct r. Qed.

Lemma sem_gates_app gs1 gs2 env :
  sem_gates (gs1 ++ gs2) env = env' ← sem_gates gs1 env; sem_gates gs2 env'.
Proof.
  revert env; induction gs1 as [|g gs1 IH]; intros env; simpl; [done|].
  destruct (gate_val env g); simpl; auto.
Qed.
Lemma sem_gates_snoc gs g env env' :
  sem_gates (gs ++ [g]) env = Some env' ↔
    ∃ env1 v, sem_gates gs env = Some env1 ∧ gate_val env1 g = Some v ∧
      env' = <[out g := v]> env1.
Proof.
  rewrite sem_gates_app, bind_Some. simpl. setoid_rewrite bind_Some. split.
  - intros (e1 & He & v & Hv & [= <-]). by exists e1, v.
  - intros (e1 & v & He & Hv & ->). exists e1. split; [done|]. by exists v.
Qed.

Lemma init_env_lookup ins w : init_env ins !! w = ins !! N.to_nat w.
Proof.
  unfold init_env. apply option_eq. intros b. rewrite <- elem_of_list_to_map.
  - rewrite elem_of_lookup_zip_with. setoid_rewrite range_lookup.
    split; [intros (i & x & y & [= <- <-] & [_ ->] & Hy); by rewrite N.add_0_l, Nat2N.id|].
    intros Hy. exists (N.to_nat w), w, b. pose proof (lookup_lt_Some _ _ _ Hy).
    unfold vlen. repeat split; [lia|lia|done].
  - rewrite fst_zip; [|rewrite range_length; unfold vlen; lia].
    apply NoDup_range.
Qed.
Lemma init_env_Some ins w : is_Some (init_env ins !! w) ↔ (w < vlen ins)%N.
Proof. rewrite init_env_lookup, lookup_lt_is_Some. unfold vlen. lia. Qed.

Lemma gate_val_Some env g :
  (∀ w, w ∈ reads g → is_Some (env !! w)) → is_Some (gate_val env g).
Proof.
  unfold reads, gate_val. intros H.
  destruct (op g); try by eexists.
  - destruct (H (in0 g)) as [a ->]; [set_solver|].
    destruct (H (in1 g)) as [b ->]; [set_solver|]. by eexists.
  - destruct (H (in0 g)) as [a ->]; [set_solver|].
    destruct (H (in1 g)) as [b ->]; [set_solver|]. by eexists.
  - destruct (H (in0 g)) as [a ->]; [set_solver|]. by eexists.
Qed.
(** A gate's value depends only on the wires it reads, through any renaming. *)
Lemma gate_val_rename env env' g g' (f : N → N) :
  op g' = op g →
  (∀ w, w ∈ reads g → env' !! f w = env !! w) →
  (op g ≠ Const0 → op g ≠ Const1 → in0 g' = f (in0 g)) →
  (op g = And ∨ op g = Xor → in1 g' = f (in1 g)) →
  gate_val env' g' = gate_val env g.
Proof.
  unfold reads, gate_val. intros ->.
  destruct (op g); intros Hr H0 H1; try done;
    rewrite H0 by done; rewrite ?H1 by auto; rewrite !Hr by set_solver; done.
Qed.
