(* ===== verification/Validate.v ===== *)
(** * Program validation (ir/validate.h)

    [validate_program] with its two modes (dense and wire-reusing programs),
    and the theorem that it accepts exactly the well-formed programs
    ([wf_program]) without ever running into undefined behaviour, whatever the
    program.  Every later component assumes [wf_program] only. *)

From S2P Require Import Prelude Program.

(** " (gate i, wire w)" of the two [at] lambdas. *)
Definition at_ (gi w : N) : string :=
  " (gate " +:+ pretty gi +:+ ", wire " +:+ pretty w +:+ ")".

(** The [default:] arm of the source's switch is for a raw byte cast to [Op];
    a value of [Op] is one of the five constructors. *)
Definition validate_gate_operands (g : Gate) (gi : N) : outcome unit :=
  match op g with
  | And | Xor | Not =>
      expecting (negb (is_not g) || (in1 g =? 0)%N)
        ("validate_program: Not gate has non-canonical in1 (must be 0)" +:+ at_ gi (in1 g))
  | Const0 | Const1 =>
      expecting ((in0 g =? 0)%N && (in1 g =? 0)%N)
        ("validate_program: const gate has non-canonical operands (must be 0)" +:+ at_ gi (out g))
  end.

Section validate.
Context (p : BooleanProgram).
#[local] Abbreviation NW := (num_wires p).
#[local] Abbreviation NI := (num_inputs p).

(** [w < num_inputs || written[w - num_inputs]]: the vector is read only
    when the first test fails. *)
Definition is_written (written : list bool) (w : N) : outcome bool :=
  if (w <? NI)%N then Ret true else vget written (w - NI)%N.

(** The two [chk_read] lambdas; [verb] is "written" or "defined". *)
Definition chk_read (verb : string) (written : list bool) (gi w : N) (what : string)
    : outcome unit :=
  expecting (w <? NW)%N ("validate_program: " +:+ what +:+ " index out of range" +:+ at_ gi w);;
  b ← is_written written w;
  expecting b ("validate_program: " +:+ what +:+ " read before " +:+ verb +:+ at_ gi w).

Definition chk_operands (verb : string) (written : list bool) (gi : N) (g : Gate)
    : outcome unit :=
  match op g with
  | And | Xor =>
      chk_read verb written gi (in0 g) "gate in0";;
      chk_read verb written gi (in1 g) "gate in1"
  | Not => chk_read verb written gi (in0 g) "gate in0"
  | Const0 | Const1 => Ret tt
  end.

(** One iteration of the gate loop of a reuse program. *)
Definition validate_step_reuse (s : list bool * N) (g : Gate) : outcome (list bool * N) :=
  let '(written, gi) := s in
  validate_gate_operands g gi;;
  chk_operands "written" written gi g;;
  expecting (out g <? NW)%N "validate_program: gate out index out of range";;
  expecting (NI <=? out g)%N "validate_program: gate writes an input wire";;
  written' ← vset written (out g - NI)%N true;
  Ret (written', (gi + 1)%N).

(** One iteration of the gate loop of a dense program. *)
Definition validate_step_dense (s : list bool * N) (g : Gate) : outcome (list bool * N) :=
  let '(defined, gi) := s in
  validate_gate_operands g gi;;
  chk_operands "defined" defined gi g;;
  expecting (out g <? NW)%N "validate_program: gate out index out of range";;
  expecting (NI <=? out g)%N "validate_program: gate writes an input wire";;
  d ← vget defined (out g - NI)%N;
  expecting (negb d) "validate_program: wire defined more than once";;
  defined' ← vset defined (out g - NI)%N true;
  Ret (defined', (gi + 1)%N).

Definition validate_output (msg : string) (written : list bool) (_ : unit) (w : N)
    : outcome unit :=
  expecting (w <? NW)%N "validate_program: output index out of range";;
  b ← is_written written w;
  expecting b msg.

Definition validate_program : outcome unit :=
  expecting (NI <=? NW)%N "validate_program: num_inputs exceeds num_wires";;
  match wire_reuse p with
  | ReuseLinear | ReuseFull =>
      expecting (NW <=? NI + vlen (gates p))%N
        "validate_program: reuse program num_wires exceeds num_inputs + num_gates";;
      '(written, _) ← foldO validate_step_reuse (vmake (NW - NI) false, 0%N) (gates p);
      foldO (validate_output "validate_program: output wire never written" written)
        tt (outputs p)
  | ReuseNone =>
      expecting (vlen (gates p) =? NW - NI)%N
        "validate_program: num_wires must equal num_inputs + num_gates (dense program)";;
      '(defined, _) ← foldO validate_step_dense (vmake (NW - NI) false, 0%N) (gates p);
      foldO (validate_output "validate_program: output wire never defined" defined)
        tt (outputs p)
  end.

(** ** What validation promises *)
Definition canonical (g : Gate) : Prop :=
  match op g with
  | And | Xor => True
  | Not => in1 g = 0%N
  | Const0 | Const1 => in0 g = 0%N ∧ in1 g = 0%N
  end.
Definition defined_by (don : list Gate) (w : N) : Prop := (w < NI)%N ∨ w ∈ out <$> don.
(** Gate [g] may follow the gates [don]. *)
Record wf_gate (don : list Gate) (g : Gate) : Prop := {
  wf_canonical : canonical g;
  wf_reads : ∀ w, w ∈ reads g → (w < NW)%N ∧ defined_by don w;
  wf_out : (NI ≤ out g < NW)%N;
  wf_once : wire_reuse p = ReuseNone → out g ∉ out <$> don }.
Record wf_program : Prop := {
  wf_inputs : (NI ≤ NW)%N;
  wf_count : match wire_reuse p with
             | ReuseNone => NW = (NI + vlen (gates p))%N
             | _ => (NW ≤ NI + vlen (gates p))%N
             end;
  wf_gates : ∀ don g todo, gates p = don ++ g :: todo → wf_gate don g;
  wf_outputs : Forall (λ w, (w < NW)%N ∧ defined_by (gates p) w) (outputs p) }.

(** ** Refinement *)
(** [written] holds the set of non-input wires produced so far. *)
Definition marks (written : list bool) (don : list Gate) : Prop :=
  vlen written = (NW - NI)%N ∧
  ∀ w, (NI ≤ w < NW)%N → written !! N.to_nat (w - NI) = Some (bool_decide (w ∈ out <$> don)).

Lemma marks_nil : marks (vmake (NW - NI) false) [].
Proof.
  split; [apply vlen_vmake|]. intros w Hw. unfold vmake.
  rewrite lookup_replicate_2 by lia. done.
Qed.
Lemma marks_snoc written don g :
  (NI ≤ out g < NW)%N → marks written don →
  marks (<[N.to_nat (out g - NI) := true]> written) (don ++ [g]).
Proof.
  intros Hg [Hl Hm]. split; [by vlen|]. intros w Hw. unfold vlen in Hl.
  rewrite fmap_app. destruct (decide (w = out g)) as [->|Hne].
  - rewrite list_lookup_insert_eq by lia.
    rewrite bool_decide_eq_true_2 by set_solver. done.
  - rewrite list_lookup_insert_ne by lia. rewrite Hm by done. f_equal.
    apply bool_decide_ext. set_solver.
Qed.

Lemma is_written_Ret written don w :
  marks written don → (w < NW)%N → ∃ b, is_written written w = Ret b ∧ (b = true ↔ defined_by don w).
Proof.
  intros [Hl Hm] Hw. unfold is_written, defined_by. destruct (N.ltb_spec w NI).
  - exists true. naive_solver.
  - exists (bool_decide (w ∈ out <$> don)). rewrite bool_decide_eq_true.
    split; [apply vget_Ret, Hm; lia|]. split; [auto|]. intros [?|?]; [lia|done].
Qed.

Lemma chk_read_not_Undef verb written don gi w what :
  marks written don → chk_read verb written gi w what ≠ Undef.
Proof.
  intros Hm. apply bind_not_Undef; [apply expecting_not_Undef|].
  intros [] Hw%expecting_Ret. bool_arith.
  destruct (is_written_Ret _ _ w Hm Hw) as (b & -> & _). apply expecting_not_Undef.
Qed.
Lemma chk_read_Ret verb written don gi w what u :
  marks written don →
  chk_read verb written gi w what = Ret u ↔ (w < NW)%N ∧ defined_by don w.
Proof.
  intros Hm. unfold chk_read. rewrite bind_Ret. setoid_rewrite expecting_Ret.
  setoid_rewrite N.ltb_lt. split.
  - intros ([] & Hw & Hr). destruct (is_written_Ret _ _ w Hm Hw) as (b & Hb & Hd).
    rewrite Hb in Hr. simpl in Hr. apply expecting_Ret in Hr. tauto.
  - intros [Hw Hd]. exists tt. split; [done|].
    destruct (is_written_Ret _ _ w Hm Hw) as (b & -> & Hb). simpl. apply expecting_Ret. tauto.
Qed.

Lemma chk_operands_not_Undef verb written don gi g :
  marks written don → chk_operands verb written gi g ≠ Undef.
Proof.
  intros Hm. unfold chk_operands.
  destruct (op g); [apply bind_not_Undef; [|intros _ _]..| | |];
    by eauto using chk_read_not_Undef.
Qed.
Lemma chk_operands_Ret verb written don gi g u :
  marks written don →
  chk_operands verb written gi g = Ret u ↔
    ∀ w, w ∈ reads g → (w < NW)%N ∧ defined_by don w.
Proof.
  intros Hm. unfold chk_operands, reads.
  assert (∀ w1 w2 s1 s2, (chk_read verb written gi w1 s1;; chk_read verb written gi w2 s2) = Ret u ↔
    ∀ w, w ∈ [w1; w2] → (w < NW)%N ∧ defined_by don w) as Hbin.
  { intros w1 w2 s1 s2. rewrite bind_Ret. setoid_rewrite chk_read_Ret; [|done..]. split.
    - intros (_ & H1 & H2) w. rewrite !elem_of_cons, elem_of_nil. intros [->|[->|[]]]; done.
    - intros H. exists tt. split; apply H; set_solver. }
  destruct (op g); [apply Hbin|apply Hbin| | |].
  - rewrite chk_read_Ret by done. split; [|intros H; apply H; set_solver].
    intros H w ->%list_elem_of_singleton. done.
  - destruct u. split; [|done]. intros _ w []%elem_of_nil.
  - destruct u. split; [|done]. intros _ w []%elem_of_nil.
Qed.

Lemma validate_gate_operands_Ret g gi u : validate_gate_operands g gi = Ret u ↔ canonical g.
Proof.
  unfold validate_gate_operands, canonical, is_not.
  destruct (op g); rewrite expecting_Ret; simpl; rewrite ?andb_true_iff, ?N.eqb_eq; tauto.
Qed.
Lemma validate_gate_operands_not_Undef g gi : validate_gate_operands g gi ≠ Undef.
Proof. unfold validate_gate_operands. destruct (op g); apply expecting_not_Undef. Qed.

Lemma validate_step_reuse_Ret written gi don g s' :
  wire_reuse p ≠ ReuseNone → marks written don →
  validate_step_reuse (written, gi) g = Ret s' ↔
    wf_gate don g ∧ s' = (<[N.to_nat (out g - NI) := true]> written, (gi + 1)%N).
Proof.
  intros Hmode Hm. simpl. repeat setoid_rewrite bind_Ret.
  setoid_rewrite validate_gate_operands_Ret. setoid_rewrite chk_operands_Ret; [|done].
  setoid_rewrite expecting_Ret. setoid_rewrite N.ltb_lt. setoid_rewrite N.leb_le. split.
  - intros ([] & Hc & [] & Hr & [] & Hlt & [] & Hge & v & [_ ->]%vset_Ret & [= <-]).
    split; [|done]. split; done.
  - intros [[Hc Hr Ho _] ->]. exists tt. split; [done|]. exists tt. split; [done|].
    exists tt. split; [lia|]. exists tt. split; [lia|]. destruct Hm as [Hl _].
    eexists. split; [apply vset_lt; lia|done].
Qed.

Lemma validate_step_dense_Ret defined gi don g s' :
  wire_reuse p = ReuseNone → marks defined don →
  validate_step_dense (defined, gi) g = Ret s' ↔
    wf_gate don g ∧ s' = (<[N.to_nat (out g - NI) := true]> defined, (gi + 1)%N).
Proof.
  intros Hmode Hm. simpl. repeat setoid_rewrite bind_Ret.
  setoid_rewrite validate_gate_operands_Ret. setoid_rewrite chk_operands_Ret; [|done].
  setoid_rewrite expecting_Ret. setoid_rewrite N.ltb_lt. setoid_rewrite N.leb_le.
  destruct Hm as [Hl Hm]. split.
  - intros ([] & Hc & [] & Hr & [] & Hlt & [] & Hge & d & Hd%vget_Ret & [] & Hn &
      v & [_ ->]%vset_Ret & [= <-]).
    split; [|done]. split; [done..|]. intros _ Hin. rewrite Hm in Hd by lia.
    rewrite bool_decide_eq_true_2 in Hd by done. by simplify_eq/=.
  - intros [[Hc Hr Ho Hone] ->]. exists tt. split; [done|]. exists tt. split; [done|].
    exists tt. split; [lia|]. exists tt. split; [lia|].
    exists false. split; [apply vget_Ret; rewrite Hm by lia;
      by rewrite bool_decide_eq_false_2 by auto|].
    exists tt. split; [done|]. eexists. split; [apply vset_lt; lia|done].
Qed.

Lemma validate_output_Ret msg written don w u :
  marks written don →
  validate_output msg written () w = Ret u ↔ (w < NW)%N ∧ defined_by don w.
Proof.
  intros Hm. unfold validate_output. rewrite bind_Ret. setoid_rewrite expecting_Ret.
  setoid_rewrite N.ltb_lt. split.
  - intros ([] & Hw & Hr). destruct (is_written_Ret _ _ w Hm Hw) as (b & Hb & Hd).
    rewrite Hb in Hr. simpl in Hr. apply expecting_Ret in Hr. tauto.
  - intros [Hw Hd]. exists tt. split; [done|].
    destruct (is_written_Ret _ _ w Hm Hw) as (b & -> & Hb). simpl. apply expecting_Ret. tauto.
Qed.
Lemma validate_output_not_Undef msg written don w :
  marks written don → validate_output msg written () w ≠ Undef.
Proof.
  intros Hm. apply bind_not_Undef; [apply expecting_not_Undef|].
  intros [] Hw%expecting_Ret. bool_arith.
  destruct (is_written_Ret _ _ w Hm Hw) as (b & -> & _). apply expecting_not_Undef.
Qed.

(** The gate loop, for a step function that is one of the two above. *)
Section gate_loop.
Context (step : list bool * N → Gate → outcome (list bool * N)).
Context (step_Ret : ∀ written gi don g s', marks written don →
  step (written, gi) g = Ret s' ↔
    wf_gate don g ∧ s' = (<[N.to_nat (out g - NI) := true]> written, (gi + 1)%N)).
Context (step_not_Undef : ∀ written gi don g, marks written don →
  step (written, gi) g ≠ Undef).
Let init : list bool * N := (vmake (NW - NI) false, 0%N).

Lemma gate_loop_Ret s' :
  foldO step init (gates p) = Ret s' →
  marks s'.1 (gates p) ∧ ∀ don g todo, gates p = don ++ g :: todo → wf_gate don g.
Proof.
  intros H. pattern (gates p), s'.
  apply (foldO_Ret_inv step (gates p) _ init s'); [|clear s' H|done].
  - split; [apply marks_nil|]. by intros [] ? ? ?.
  - intros don g todo [w gi] s' Hg [Hm Hw] Hs. apply (step_Ret _ _ don) in Hs as [Hwf ->]; [|done].
    split; [apply marks_snoc; [apply Hwf|done]|].
    intros don' g' todo' Heq. destruct todo' as [|g2 todo' _] using rev_ind.
    + apply app_inj_tail in Heq as [-> ->]. done.
    + rewrite app_comm_cons, app_assoc in Heq. apply app_inj_tail in Heq as [-> _]. eauto.
Qed.
Lemma gate_loop_complete :
  (∀ don g todo, gates p = don ++ g :: todo → wf_gate don g) →
  ∃ s', foldO step init (gates p) = Ret s' ∧ marks s'.1 (gates p).
Proof.
  intros Hwf. apply (foldO_inv step (gates p) (λ don s, marks s.1 don)); [apply marks_nil|].
  intros don g todo [w gi] Hg Hm. specialize (Hwf _ _ _ Hg).
  eexists. split; [apply (step_Ret _ _ don); [done|by split]|].
  apply marks_snoc; [apply Hwf|done].
Qed.
Lemma gate_loop_not_Undef : foldO step init (gates p) ≠ Undef.
Proof.
  apply (foldO_not_Undef step (gates p) (λ don s, marks s.1 don)); [apply marks_nil|].
  intros don g todo [w gi] Hg Hm. split; [by eapply step_not_Undef|].
  intros s' [Hwf ->]%(step_Ret _ _ don); [|done]. apply marks_snoc; [apply Hwf|done].
Qed.
End gate_loop.

Lemma outputs_loop_Ret msg written u :
  marks written (gates p) →
  foldO (validate_output msg written) () (outputs p) = Ret u ↔
    Forall (λ w, (w < NW)%N ∧ defined_by (gates p) w) (outputs p).
Proof.
  intros Hm. destruct u. induction (outputs p) as [|w ws IH]; simpl; [naive_solver|].
  rewrite Forall_cons, <- IH, bind_Ret. split.
  - intros ([] & Hw & Hr). by apply (validate_output_Ret _ _ _ _ _ Hm) in Hw.
  - intros [Hw Hr]. exists tt. split; [|done]. by apply (validate_output_Ret _ _ _ _ _ Hm).
Qed.
Lemma outputs_loop_not_Undef msg written :
  marks written (gates p) →
  foldO (validate_output msg written) () (outputs p) ≠ Undef.
Proof.
  intros Hm. apply (foldO_not_Undef _ _ (λ _ _, True)); [done|].
  intros ???[] _ _. split; [|done]. by eapply validate_output_not_Undef.
Qed.

Lemma validate_step_reuse_not_Undef written gi don g :
  marks written don → validate_step_reuse (written, gi) g ≠ Undef.
Proof.
  intros Hm. repeat (apply bind_not_Undef; [|intros ? ?]);
    eauto using validate_gate_operands_not_Undef, chk_operands_not_Undef, expecting_not_Undef.
  - rewrite vset_lt; [done|]. destruct Hm as [-> _].
    repeat match goal with H : expecting _ _ = Ret _ |- _ => apply expecting_Ret in H end.
    bool_arith. lia.
Qed.
Lemma validate_step_dense_not_Undef defined gi don g :
  marks defined don → validate_step_dense (defined, gi) g ≠ Undef.
Proof.
  intros Hm. repeat (apply bind_not_Undef; [|intros ? ?]);
    eauto using validate_gate_operands_not_Undef, chk_operands_not_Undef, expecting_not_Undef;
    try done; repeat match goal with H : expecting _ _ = Ret _ |- _ => apply expecting_Ret in H end;
    bool_arith; destruct Hm as [Hl _].
  - apply vget_not_Undef. lia.
  - rewrite vset_lt; [done|]. lia.
Qed.
End validate.

Lemma validate_reuse_Ret p :
  wire_reuse p ≠ ReuseNone → (num_inputs p ≤ num_wires p)%N →
  (('(written, _) ← foldO (validate_step_reuse p)
      (vmake (num_wires p - num_inputs p) false, 0%N) (gates p);
    foldO (validate_output p "validate_program: output wire never written" written)
      tt (outputs p)) = Ret tt ↔
   (∀ don g todo, gates p = don ++ g :: todo → wf_gate p don g) ∧
   Forall (λ w, (w < num_wires p)%N ∧ defined_by p (gates p) w) (outputs p)).
Proof.
  intros Hmode Hni.
  pose proof (validate_step_reuse_Ret p) as Hstep. rewrite bind_Ret. split.
  - intros ([written gi] & Hg & Ho).
    apply gate_loop_Ret in Hg as [Hm Hwf]; [|intros; by apply Hstep].
    split; [done|]. by apply outputs_loop_Ret in Ho.
  - intros [Hwf Ho]. edestruct (gate_loop_complete p (validate_step_reuse p))
      as ([written gi] & Hg & Hm); [intros; by apply Hstep|done|].
    eexists. split; [exact Hg|]. by apply outputs_loop_Ret.
Qed.
Lemma validate_dense_Ret p :
  wire_reuse p = ReuseNone → (num_inputs p ≤ num_wires p)%N →
  (('(defined, _) ← foldO (validate_step_dense p)
      (vmake (num_wires p - num_inputs p) false, 0%N) (gates p);
    foldO (validate_output p "validate_program: output wire never defined" defined)
      tt (outputs p)) = Ret tt ↔
   (∀ don g todo, gates p = don ++ g :: todo → wf_gate p don g) ∧
   Forall (λ w, (w < num_wires p)%N ∧ defined_by p (gates p) w) (outputs p)).
Proof.
  intros Hmode Hni.
  pose proof (validate_step_dense_Ret p) as Hstep. rewrite bind_Ret. split.
  - intros ([written gi] & Hg & Ho).
    apply gate_loop_Ret in Hg as [Hm Hwf]; [|intros; by apply Hstep].
    split; [done|]. by apply outputs_loop_Ret in Ho.
  - intros [Hwf Ho]. edestruct (gate_loop_complete p (validate_step_dense p))
      as ([written gi] & Hg & Hm); [intros; by apply Hstep|done|].
    eexists. split; [exact Hg|]. by apply outputs_loop_Ret.
Qed.

(** Acceptance is exactly well-formedness; this is what other files use. *)
Lemma validate_wf p : validate_program p = Ret tt ↔ wf_program p.
Proof.
  unfold validate_program. rewrite expecting_bind_Ret, N.leb_le.
  assert (∀ m, m = wire_reuse p → m ≠ ReuseNone →
    ((num_inputs p ≤ num_wires p)%N ∧
     (expecting (num_wires p <=? num_inputs p + vlen (gates p))%N
       "validate_program: reuse program num_wires exceeds num_inputs + num_gates";;
      '(written, _) ← foldO (validate_step_reuse p)
        (vmake (num_wires p - num_inputs p) false, 0%N) (gates p);
      foldO (validate_output p "validate_program: output wire never written" written)
        tt (outputs p)) = Ret tt) ↔ wf_program p) as Hreuse.
  { intros m Hm Hn. rewrite expecting_bind_Ret, N.leb_le. subst m. split.
    - intros (Hni & Hc & [Hg Ho]%validate_reuse_Ret); [|done..].
      split; [done| |done..]. by destruct (wire_reuse p).
    - intros [Hni Hc Hg Ho]. split; [done|]. split; [by destruct (wire_reuse p)|].
      by apply validate_reuse_Ret. }
  destruct (wire_reuse p) eqn:Hmode; [|apply (Hreuse _ eq_refl); congruence..].
  rewrite expecting_bind_Ret, N.eqb_eq. split.
  - intros (Hni & Hc & [Hg Ho]%validate_dense_Ret); [|done..].
    split; rewrite ?Hmode; (done || lia).
  - intros [Hni Hc Hg Ho]. rewrite Hmode in Hc. split; [done|]. split; [lia|].
    by apply validate_dense_Ret.
Qed.

Lemma validate_not_Undef p : validate_program p ≠ Undef.
Proof.
  apply bind_not_Undef; [apply expecting_not_Undef|]. intros _ _.
  destruct (wire_reuse p) eqn:Hmode;
    (apply bind_not_Undef; [apply expecting_not_Undef|]; intros _ _; apply bind_not_Undef;
     [|intros [written gi] Hg]).
  - eapply gate_loop_not_Undef; [by intros; apply validate_step_dense_Ret|].
    intros. by eapply validate_step_dense_not_Undef.
  - apply gate_loop_Ret in Hg as [Hm _]; [|by intros; apply validate_step_dense_Ret].
    by apply outputs_loop_not_Undef.
  - eapply gate_loop_not_Undef; [by intros; apply validate_step_reuse_Ret; [congruence|]|].
    intros. by eapply validate_step_reuse_not_Undef.
  - apply gate_loop_Ret in Hg as [Hm _]; [|by intros; apply validate_step_reuse_Ret; [congruence|]].
    by apply outputs_loop_not_Undef.
  - eapply gate_loop_not_Undef; [by intros; apply validate_step_reuse_Ret; [congruence|]|].
    intros. by eapply validate_step_reuse_not_Undef.
  - apply gate_loop_Ret in Hg as [Hm _]; [|by intros; apply validate_step_reuse_Ret; [congruence|]].
    by apply outputs_loop_not_Undef.
Qed.

#[export] Instance wf_program_dec p : Decision (wf_program p).
Proof.
  refine (match validate_program p as o return validate_program p = o → _ with
    | Ret tt => λ H, left (proj1 (validate_wf p) H)
    | _ => λ H, right _ end eq_refl);
  intros Hwf%validate_wf; congruence.
Defined.

(** *** The SSA shape

    Gate [k] defines wire [ni + k] and reads only earlier wires.  This is what
    the recorders emit; it is enough for validation. *)
Definition dense_gate (ni : N) (k : nat) (g : Gate) : Prop :=
  canonical g ∧ out g = (ni + N.of_nat k)%N ∧ ∀ w, w ∈ reads g → (w < out g)%N.
Definition ssa (ni : N) (gs : list Gate) : Prop :=
  ∀ k g, gs !! k = Some g → dense_gate ni k g.

Lemma ssa_nil ni : ssa ni [].
Proof. by intros k g ?. Qed.
Lemma ssa_snoc ni gs g : ssa ni gs → dense_gate ni (length gs) g → ssa ni (gs ++ [g]).
Proof.
  intros Hs Hg k g' [Hk|[Hle Hk]]%lookup_app_Some; [by apply Hs|].
  apply list_lookup_singleton_Some in Hk as [? <-].
  by replace k with (length gs) by lia.
Qed.
Lemma ssa_outs ni gs w : ssa ni gs → w ∈ out <$> gs ↔ (ni ≤ w < ni + vlen gs)%N.
Proof.
  intros Hg. rewrite list_elem_of_fmap. unfold vlen. split.
  - intros (g & -> & [k Hk]%list_elem_of_lookup). destruct (Hg _ _ Hk) as (_ & -> & _).
    apply lookup_lt_Some in Hk. lia.
  - intros Hw. destruct (lookup_lt_is_Some_2 gs (N.to_nat (w - ni))) as [g Hk]; [lia|].
    exists g. destruct (Hg _ _ Hk) as (_ & -> & _). split; [lia|].
    apply list_elem_of_lookup. eauto.
Qed.
Lemma ssa_app ni gs gs' : ssa ni (gs ++ gs') → ssa ni gs.
Proof. intros Hg k g Hk. apply Hg. by apply lookup_app_l_Some. Qed.

Lemma ssa_wf p :
  wire_reuse p = ReuseNone → num_wires p = (num_inputs p + vlen (gates p))%N →
  ssa (num_inputs p) (gates p) → Forall (λ w, (w < num_wires p)%N) (outputs p) →
  wf_program p.
Proof.
  intros Hd Hn Hg Ho. split; [lia|by rewrite Hd| |].
  - intros don g todo Heq. assert (gates p !! length don = Some g) as Hk
      by (rewrite Heq; by apply list_lookup_middle).
    destruct (Hg _ _ Hk) as (Hc & Hout & Hr). rewrite Heq in Hg. apply ssa_app in Hg.
    apply lookup_lt_Some in Hk. unfold vlen in Hn.
    split; [done| |lia|].
    + intros w Hw. specialize (Hr w Hw). split; [lia|]. unfold defined_by.
      rewrite (ssa_outs _ _ _ Hg). unfold vlen. lia.
    + intros _. rewrite (ssa_outs _ _ _ Hg). unfold vlen. lia.
  - eapply Forall_impl; [exact Ho|]. intros w Hw. simpl in Hw. split; [done|].
    unfold defined_by. rewrite (ssa_outs _ _ _ Hg). lia.
Qed.
Lemma ssa_u32 p :
  num_wires p = (num_inputs p + vlen (gates p))%N → (num_wires p < 2 ^ 32)%N →
  ssa (num_inputs p) (gates p) → Forall (λ w, (w < num_wires p)%N) (outputs p) →
  prog_u32 p.
Proof.
  intros Hn Hu Hg Ho. split; [done|]. split; [lia|]. split.
  - apply Forall_lookup. intros k g Hk. destruct (Hg _ _ Hk) as (Hc & Hout & Hr).
    apply lookup_lt_Some in Hk. unfold vlen in Hn. unfold canonical, reads, gate_u32 in *.
    assert (out g < 2 ^ 32)%N by lia.
    assert (∀ w, (w < out g)%N → (w < 2 ^ 32)%N) as Hw by (intros; lia).
    destruct (op g); (split_and!; [| |lia]); try (apply Hw, Hr; set_solver);
      destruct_and?; lia.
  - eapply Forall_impl; [exact Ho|]. simpl. intros w Hw. lia.
Qed.

(** ** The property *)

(** C1: [validate_program] accepts a program exactly when it is well formed
    (every read sees an input or an earlier gate's output, every gate writes an
    in-range non-input wire, dense programs define each wire once and all
    counts agree), and for any other program it ends with a diagnostic, never
    with an out-of-range access to its bookkeeping vector. *)
Theorem validate_program_correct p :
  (validate_program p = Ret tt ∧ wf_program p) ∨
  (∃ msg, validate_program p = Fatal msg ∧ ¬ wf_program p).
Proof.
  pose proof (validate_not_Undef p) as Hu. pose proof (validate_wf p) as Hwf.
  destruct (validate_program p) as [[]|msg|]; [left|right|done].
  - split; [done|by apply Hwf].
  - exists msg. split; [done|]. intros [=]%Hwf.
Qed.
