(* ===== verification/Context.v ===== *)
(** * Boolean contexts (ir/context/concept.h, clear.h, count.h)

    The [BooleanContext] contract as a type class, the law a context must obey
    to be a faithful executor ([LawfulContext]), and the two contexts that need
    no wire ids: [ClearCtx] (plaintext bits) and [CountCtx] (gate counts). *)

From S2P Require Import Prelude.

(** ** The contract *)
Class BooleanContext (C W : Type) : Type := {
  public_bit : bool → ST C W;
  and_gate : W → W → ST C W;
  xor_gate : W → W → ST C W;
  not_gate : W → ST C W }.
Class BulkBooleanContext (C W : Type) `{BooleanContext C W} : Type := {
  and_many : list W → list W → ST C (list W) }.

(** A context is lawful when its wires denote bits and every gate computes its
    Boolean function on them.  [ctx_ext] orders the states of the context as
    gates are emitted; a wire keeps its meaning as the context grows.  The only
    failures allowed are the ones named by [ctx_err]. *)
Class LawfulContext (C W : Type) `{BooleanContext C W} : Type := {
  ctx_wf : C → Prop;
  ctx_ext : C → C → Prop;
  ctx_err : string → Prop;
  denotes : C → W → bool → Prop;
  ctx_ext_preorder :: PreOrder ctx_ext;
  denotes_mono c c' w b : ctx_ext c c' → denotes c w b → denotes c' w b;
  public_bit_law c v : ctx_wf c →
    wp ctx_err (public_bit v) c (λ w c', ctx_wf c' ∧ ctx_ext c c' ∧ denotes c' w v);
  and_gate_law c a b x y : ctx_wf c → denotes c a x → denotes c b y →
    wp ctx_err (and_gate a b) c (λ w c', ctx_wf c' ∧ ctx_ext c c' ∧ denotes c' w (x && y));
  xor_gate_law c a b x y : ctx_wf c → denotes c a x → denotes c b y →
    wp ctx_err (xor_gate a b) c (λ w c', ctx_wf c' ∧ ctx_ext c c' ∧ denotes c' w (xorb x y));
  not_gate_law c a x : ctx_wf c → denotes c a x →
    wp ctx_err (not_gate a) c (λ w c', ctx_wf c' ∧ ctx_ext c c' ∧ denotes c' w (negb x)) }.

(** The bulk operation agrees with a loop over the scalar gate. *)
Class LawfulBulk (C W : Type) `{LawfulContext C W, !BulkBooleanContext C W} : Prop := {
  and_many_law c l1 l2 xs ys : ctx_wf c →
    Forall2 (denotes c) l1 xs → Forall2 (denotes c) l2 ys → length l1 = length l2 →
    wp ctx_err (and_many l1 l2) c (λ ws c',
      ctx_wf c' ∧ ctx_ext c c' ∧ Forall2 (denotes c') ws (zip_with andb xs ys)) }.

Section lawful.
Context `{LawfulContext C W}.
Implicit Types (c : C) (w : W).

Lemma Forall2_denotes_mono c c' ws bs :
  ctx_ext c c' → Forall2 (denotes c) ws bs → Forall2 (denotes c') ws bs.
Proof. intros Hext Hf. eapply Forall2_impl; [exact Hf|]. intros w b. by apply denotes_mono. Qed.
End lawful.
#[export] Hint Resolve denotes_mono Forall2_denotes_mono : emp.

(** ** ClearCtx

    [Wire = uint8_t] holding 0 or 1. *)
Module ClearCtx.
Definition Wire : Type := N.
Definition State : Type := unit.

Definition public_bit (v : bool) : ST State Wire := mret (if v then 1 else 0)%N.
Definition and_gate (a b : Wire) : ST State Wire := mret (N.land a b).
Definition xor_gate (a b : Wire) : ST State Wire := mret (N.lxor a b).
Definition not_gate (a : Wire) : ST State Wire := mret (N.lxor a 1).
(** [for i < n: o[i] = a[i] & b[i]]. *)
Definition and_many (a b : list Wire) : ST State (list Wire) :=
  mret (zip_with N.land a b).

#[global] Instance context : BooleanContext State Wire :=
  Build_BooleanContext State Wire public_bit and_gate xor_gate not_gate.
#[global] Instance bulk : BulkBooleanContext State Wire :=
  Build_BulkBooleanContext State Wire context and_many.

(** A wire is a 0/1 byte. *)
Definition wire_is (w : Wire) (b : bool) : Prop := w = (if b then 1 else 0)%N.

#[global] Program Instance lawful : LawfulContext State Wire := {
  ctx_wf _ := True; ctx_ext _ _ := True; ctx_err _ := False;
  denotes _ := wire_is }.
Next Obligation. done. Qed.
Next Obligation. intros c v _. done. Qed.
Next Obligation. unfold wire_is. intros c ?? x y _ -> ->. by destruct x, y. Qed.
Next Obligation. unfold wire_is. intros c ?? x y _ -> ->. by destruct x, y. Qed.
Next Obligation. unfold wire_is. intros c ? x _ ->. by destruct x. Qed.

#[global] Instance lawful_bulk : LawfulBulk State Wire.
Proof.
  split. intros c l1 l2 xs ys _ H1 H2 Hlen. split; [done|]. split; [done|].
  revert l2 ys H2 Hlen. induction H1 as [|a x l1 xs Ha H1 IH]; intros [|b l2] ys H2 Hlen;
    inversion H2; simplify_eq/=; constructor; [|by apply IH].
  unfold wire_is in *. subst. destruct x; by match goal with y : bool |- _ => destruct y end.
Qed.
End ClearCtx.

(** ** CountCtx

    Counts the gate calls; a constant is counted the first time it is asked
    for, like [RecordCtx] emits it once.  The counters are [uint64_t]. *)
Module CountCtx.
Record State : Type := MkState {
  ands : N; xors : N; nots : N; consts : N; c0_seen : bool; c1_seen : bool }.
Definition init : State := MkState 0 0 0 0 false false.

Definition public_bit (v : bool) : ST State N := λ s,
  let seen := if v then c1_seen s else c0_seen s in
  Ret (0%N, if seen then s else
    MkState (ands s) (xors s) (nots s) (u64 (consts s + 1))
      (if v then c0_seen s else true) (if v then true else c1_seen s)).
Definition and_gate (_ _ : N) : ST State N := λ s,
  Ret (0%N, MkState (u64 (ands s + 1)) (xors s) (nots s) (consts s) (c0_seen s) (c1_seen s)).
Definition xor_gate (_ _ : N) : ST State N := λ s,
  Ret (0%N, MkState (ands s) (u64 (xors s + 1)) (nots s) (consts s) (c0_seen s) (c1_seen s)).
Definition not_gate (_ : N) : ST State N := λ s,
  Ret (0%N, MkState (ands s) (xors s) (u64 (nots s + 1)) (consts s) (c0_seen s) (c1_seen s)).
Definition total (s : State) : N := u64 (ands s + xors s + nots s + consts s).

#[global] Instance context : BooleanContext State N :=
  Build_BooleanContext State N public_bit and_gate xor_gate not_gate.
End CountCtx.
