(* ===== verification/Execute.v ===== *)
(** * Program replay (ir/execute.h)

    The slot-level executor [execute_program_slots], its bridge from any
    [BooleanContext], and the theorem the IR rests on: replaying a well-formed
    program through any lawful context computes [eval_program], never touches
    memory out of range, and does not depend on what a reused workspace holds. *)

From S2P Require Import Prelude Program Validate Context.

(** [CircuitScratch<Wire>] is its wire vector; [ensure(n)] grows it. *)
Definition ensure {W} `{Inhabited W} (wires : list W) (n : N) : list W := vgrow wires n inhabitant.

(** A [Dispatcher] realizes each operation on slots: it is given the operand
    slots' values and yields the new value of the output slot. *)
Record Dispatcher (C W : Type) : Type := MkDispatcher {
  d_and : W → W → ST C W;
  d_xor : W → W → ST C W;
  d_not : W → ST C W;
  d_const : bool → ST C W }.
Arguments d_and {C W}. Arguments d_xor {C W}. Arguments d_not {C W}. Arguments d_const {C W}.
Arguments MkDispatcher {C W}.

(** [struct Bridge]: from wire ids to slots.  Its state is the wire array and
    the dispatcher's context. *)
Section bridge.
Context {C W : Type} (d : Dispatcher C W).
Definition slot_write (o : N) (m : ST C W) (w : list W) (c : C) : outcome (list W * C) :=
  '(a, c') ← m c; w' ← vset w o a; Ret (w', c').
Definition Bridge : Visitor (list W * C) :=
  MkVisitor
    (λ o a b '(w, c), x ← vget w a; y ← vget w b; slot_write o (d_and d x y) w c)
    (λ o a b '(w, c), x ← vget w a; y ← vget w b; slot_write o (d_xor d x y) w c)
    (λ o a '(w, c), x ← vget w a; slot_write o (d_not d x) w c)
    (λ o v '(w, c), slot_write o (d_const d v) w c).
End bridge.

(** Copy [inputs] into the slots [0, num_in). *)
Definition seed_inputs {W} (w inputs : list W) : outcome (list W) :=
  foldO (λ w '(i, a), vset w i a) w (zip (range 0 (vlen inputs)) inputs).

(** [circuit::execute_program]: result is the outputs and the scratch array,
    which the caller may reuse. *)
Definition execute_program_slots {C W} `{Inhabited W} (p : BooleanProgram) (inputs : list W)
    (num_out : N) (scratch : list W) (d : Dispatcher C W) : ST C (list W * list W) := λ c,
  expecting (vlen inputs =? num_inputs p)%N "execute_program: input count != program num_inputs";;
  expecting (num_out =? vlen (outputs p))%N "execute_program: output count != program outputs";;
  w0 ← seed_inputs (ensure scratch (num_wires p)) inputs;
  '(w, c') ← for_each_gate p (Bridge d) (w0, c);
  outs ← vgather w (outputs p);
  Ret ((outs, w), c').

(** [ProgramWorkspace<Wire>]. *)
Record ProgramWorkspace (W : Type) : Type := MkWorkspace {
  ws_scratch : list W;
  ws_out : list W;
  ws_tmp_inputs : list W;
  ws_ba : list W; ws_bb : list W; ws_bo : list W;
  ws_bouts : list N }.
Arguments ws_scratch {W}. Arguments ws_out {W}. Arguments ws_tmp_inputs {W}.
Arguments ws_ba {W}. Arguments ws_bb {W}. Arguments ws_bo {W}. Arguments ws_bouts {W}.
Arguments MkWorkspace {W}.
Definition empty_workspace {W} : ProgramWorkspace W := MkWorkspace [] [] [] [] [] [] [].

(** [CtxReplayAdapter]: drive the slot executor from a context. *)
Definition CtxReplayAdapter {C W} `{BooleanContext C W} : Dispatcher C W :=
  MkDispatcher and_gate xor_gate not_gate public_bit.

(** The workspace form of [execute_program]: the outputs are left in [ws_out]. *)
Definition execute_program_ws {C W} `{BooleanContext C W, Inhabited W} (p : BooleanProgram)
    (inputs : list W) (ws : ProgramWorkspace W) : ST C (ProgramWorkspace W) :=
  '(outs, scratch) ← execute_program_slots p inputs (vlen (outputs p)) (ws_scratch ws)
                       CtxReplayAdapter;
  mret (MkWorkspace scratch outs (ws_tmp_inputs ws) (ws_ba ws) (ws_bb ws) (ws_bo ws) (ws_bouts ws)).
(** The convenience form: a one-shot workspace. *)
Definition execute_program {C W} `{BooleanContext C W, Inhabited W} (p : BooleanProgram)
    (inputs : list W) : ST C (list W) :=
  ws ← execute_program_ws p inputs empty_workspace; mret (ws_out ws).

(** ** Well-formed programs have a meaning *)
Section meaning.
Context (p : BooleanProgram) (Hwf : wf_program p).

(** The environment after the gates [don] defines the inputs and their outputs. *)
Lemma sem_gates_defined ins don todo :
  gates p = don ++ todo → vlen ins = num_inputs p →
  ∃ env, sem_gates don (init_env ins) = Some env ∧
    ∀ w, is_Some (env !! w) ↔ defined_by p don w.
Proof.
  revert todo. induction don as [|g don IH] using rev_ind; intros todo Hg Hins.
  - exists (init_env ins). split; [done|]. intros w. rewrite init_env_Some, Hins.
    unfold defined_by. set_solver.
  - rewrite <- app_assoc in Hg. destruct (IH _ Hg Hins) as (env & Henv & Hdef).
    destruct (wf_gates _ Hwf _ _ _ Hg) as [_ Hr _ _].
    destruct (gate_val_Some env g) as [v Hv].
    { intros w Hw. apply Hdef, Hr, Hw. }
    exists (<[out g := v]> env). split; [apply sem_gates_snoc; eauto|].
    intros w. rewrite lookup_insert_is_Some, Hdef. unfold defined_by.
    rewrite fmap_app. destruct (decide (out g = w)); set_solver.
Qed.

Lemma eval_program_total ins :
  vlen ins = num_inputs p →
  ∃ outs, eval_program p ins = Some outs ∧ length outs = length (outputs p).
Proof.
  intros Hins. destruct (sem_gates_defined ins (gates p) []) as (env & Henv & Hdef);
    [by rewrite app_nil_r|done|].
  unfold eval_program. rewrite Henv. simpl.
  destruct (mapM (env !!.) (outputs p)) as [outs|] eqn:Ho.
  - exists outs. split; [done|]. by rewrite <- (length_mapM _ _ _ Ho).
  - exfalso. apply mapM_None in Ho. apply Exists_exists in Ho as (w & Hw & Hn).
    pose proof (wf_outputs _ Hwf) as Hwo. rewrite Forall_forall in Hwo.
    destruct (Hwo w) as [_ Hd]; [done|]. apply Hdef in Hd as [b Hb]. congruence.
Qed.
End meaning.

Section execute.
Context `{LawfulContext C W, Inhabited W}.
Implicit Types (c : C) (buf : list W) (env : gmap N bool).

(** The wire array represents the environment of the reference semantics. *)
Definition slots_denote c buf env : Prop :=
  ∀ w b, env !! w = Some b → ∃ a, buf !! N.to_nat w = Some a ∧ denotes c a b.

Lemma slots_denote_get c buf env w b :
  slots_denote c buf env → env !! w = Some b → ∃ a, vget buf w = Ret a ∧ denotes c a b.
Proof. intros Hs (a & Ha & Hd)%Hs. exists a. by rewrite vget_Ret. Qed.

Lemma slots_denote_insert c c' buf env o a b :
  slots_denote c buf env → ctx_ext c c' → denotes c' a b → (o < vlen buf)%N →
  slots_denote c' (<[N.to_nat o := a]> buf) (<[o := b]> env).
Proof.
  intros Hs Hext Ha Ho w b'. unfold vlen in Ho. destruct (decide (o = w)) as [->|Hne].
  - rewrite lookup_insert_eq. intros [= <-]. exists a. by rewrite list_lookup_insert_eq by lia.
  - rewrite lookup_insert_ne by done. intros (a' & Ha' & Hd)%Hs. exists a'.
    rewrite list_lookup_insert_ne by lia. eauto using denotes_mono.
Qed.

(** One gate: if its operands are defined, its slot gets its value. *)
Lemma visit_gate_ok c buf env g v :
  ctx_wf c → slots_denote c buf env → (out g < vlen buf)%N → gate_val env g = Some v →
  owp ctx_err (visit_gate (Bridge CtxReplayAdapter) (buf, c) g) (λ '(buf', c'),
    ctx_wf c' ∧ ctx_ext c c' ∧ vlen buf' = vlen buf ∧
    slots_denote c' buf' (<[out g := v]> env)).
Proof.
  intros Hc Hs Ho Hv.
  assert (∀ m, wp ctx_err m c (λ w c', ctx_wf c' ∧ ctx_ext c c' ∧ denotes c' w v) →
    owp ctx_err (slot_write (out g) m buf c) (λ '(buf', c'),
      ctx_wf c' ∧ ctx_ext c c' ∧ vlen buf' = vlen buf ∧
      slots_denote c' buf' (<[out g := v]> env))) as Hwrite.
  { intros m Hm. unfold slot_write. apply owp_bind. eapply owp_mono; [exact Hm|].
    intros [a c'] (Hc' & Hext & Hd). rewrite vset_lt by done. simpl.
    split; [done|]. split; [done|]. split; [apply vlen_insert|].
    by eapply slots_denote_insert. }
  unfold visit_gate, gate_val in *. simpl. destruct (op g).
  - apply bind_Some in Hv as (x & Hx & (y & Hy & [= <-])%bind_Some).
    destruct (slots_denote_get _ _ _ _ _ Hs Hx) as (a & -> & Ha).
    destruct (slots_denote_get _ _ _ _ _ Hs Hy) as (b & -> & Hb). by apply Hwrite, and_gate_law.
  - apply bind_Some in Hv as (x & Hx & (y & Hy & [= <-])%bind_Some).
    destruct (slots_denote_get _ _ _ _ _ Hs Hx) as (a & -> & Ha).
    destruct (slots_denote_get _ _ _ _ _ Hs Hy) as (b & -> & Hb). by apply Hwrite, xor_gate_law.
  - apply bind_Some in Hv as (x & Hx & [= <-]).
    destruct (slots_denote_get _ _ _ _ _ Hs Hx) as (a & -> & Ha). by apply Hwrite, not_gate_law.
  - simplify_eq. by apply Hwrite, public_bit_law.
  - simplify_eq. by apply Hwrite, public_bit_law.
Qed.

Lemma seed_inputs_ok buf inputs :
  (vlen inputs ≤ vlen buf)%N →
  ∃ buf', seed_inputs buf inputs = Ret buf' ∧ vlen buf' = vlen buf ∧
    ∀ k a, inputs !! k = Some a → buf' !! k = Some a.
Proof.
  intros Hlen. unfold seed_inputs.
  destruct (foldO_inv (λ w '(i, a), vset w i a) (zip (range 0 (vlen inputs)) inputs)
    (λ don w, vlen w = vlen buf ∧ ∀ k a, k < length don → inputs !! k = Some a → w !! k = Some a)
    buf) as (buf' & Hf & Hl & Hk).
  - split; [done|]. intros. simpl in *. lia.
  - intros don [i a] todo w Hz [Hl Hw].
    assert (zip (range 0 (vlen inputs)) inputs !! length don = Some (i, a)) as Hi
      by (rewrite Hz; by apply list_lookup_middle).
    apply lookup_zip_with_Some in Hi as (i' & a' & [= <- <-] & [_ ->]%range_lookup & Ha).
    pose proof (lookup_lt_Some _ _ _ Ha). unfold vlen in Hlen, Hl.
    eexists. split; [apply vset_lt; unfold vlen; lia|]. split; [vlen; done|].
    intros k a'. rewrite length_app. simpl. intros Hk Ha'.
    destruct (decide (k = length don)) as [->|].
    + replace (N.to_nat (0 + N.of_nat (length don))) with (length don) by lia.
      rewrite list_lookup_insert_eq by lia. congruence.
    + rewrite list_lookup_insert_ne by lia. apply Hw; [lia|done].
  - exists buf'. split; [done|]. split; [done|]. intros k a Ha. apply Hk; [|done].
    apply lookup_lt_Some in Ha. rewrite length_zip, range_length. unfold vlen. lia.
Qed.

Lemma for_each_gate_ok p c buf ins :
  wf_program p → ctx_wf c → vlen ins = num_inputs p → (num_wires p ≤ vlen buf)%N →
  slots_denote c buf (init_env ins) →
  owp ctx_err (for_each_gate p (Bridge CtxReplayAdapter) (buf, c)) (λ '(buf', c'),
    ctx_wf c' ∧ ctx_ext c c' ∧
    ∃ env, sem_gates (gates p) (init_env ins) = Some env ∧ slots_denote c' buf' env).
Proof.
  intros Hwf Hc Hins Hbuf Hs. unfold for_each_gate.
  apply owp_foldO with (P := λ don '(buf', c'), ctx_wf c' ∧ ctx_ext c c' ∧
    vlen buf' = vlen buf ∧
    ∃ env, sem_gates don (init_env ins) = Some env ∧ slots_denote c' buf' env).
  - split; [done|]. split; [reflexivity|]. split; [done|]. by eexists.
  - intros don g todo [buf1 c1] Hg (Hc1 & Hext & Hl & env & Henv & Hs1).
    destruct (sem_gates_defined p Hwf ins don (g :: todo)) as (env' & Henv' & Hdef); [done..|].
    rewrite Henv in Henv'. injection Henv' as <-. destruct (wf_gates _ Hwf _ _ _ Hg) as [_ Hr Ho _].
    destruct (gate_val_Some env g) as [v Hv]; [intros w Hw; apply Hdef, Hr, Hw|].
    eapply owp_mono; [apply (visit_gate_ok _ _ env); [done|done|lia|done]|].
    intros [buf2 c2] (Hc2 & Hext2 & Hl2 & Hs2). split; [done|].
    split; [by etrans|]. split; [congruence|]. eexists. split; [|done].
    apply sem_gates_snoc. eauto.
  - intros [buf' c'] (?&?&?&?). eauto.
Qed.

Lemma gather_outputs c buf env outs os :
  slots_denote c buf env → mapM (env !!.) os = Some outs →
  ∃ ws, vgather buf os = Ret ws ∧ Forall2 (denotes c) ws outs.
Proof.
  intros Hs Hm%mapM_Some. 
  assert (∃ ws, Forall2 (λ i a, buf !! N.to_nat i = Some a) os ws ∧ Forall2 (denotes c) ws outs)
    as (ws & Hws & Hd); [|exists ws; by rewrite vgather_Ret].
  induction Hm as [|o b os outs Hob Hm (ws & IH1 & IH2)]; [by exists []|].
  apply Hs in Hob as (a & Ha & Hd). exists (a :: ws). split; by constructor.
Qed.

(** The replay lemma, for any scratch array. *)
Lemma execute_program_slots_ok p c inputs ins scratch :
  wf_program p → ctx_wf c → vlen inputs = num_inputs p → Forall2 (denotes c) inputs ins →
  wp ctx_err (execute_program_slots p inputs (vlen (outputs p)) scratch CtxReplayAdapter) c
    (λ '(ws, _) c', ctx_wf c' ∧ ctx_ext c c' ∧
      ∃ outs, eval_program p ins = Some outs ∧ Forall2 (denotes c') ws outs).
Proof.
  intros Hwf Hc Hin Hd. unfold wp, execute_program_slots.
  rewrite Hin, !N.eqb_refl. simpl.
  assert (vlen ins = num_inputs p) as Hins.
  { unfold vlen. rewrite <- (Forall2_length _ _ _ Hd). done. }
  destruct (seed_inputs_ok (ensure scratch (num_wires p)) inputs) as (buf & -> & Hl & Hk).
  { unfold ensure. vlen. pose proof (wf_inputs _ Hwf). lia. }
  simpl. apply owp_bind. eapply owp_mono.
  { apply (for_each_gate_ok p c buf ins Hwf Hc Hins).
    - rewrite Hl. unfold ensure. vlen. lia.
    - intros w b Hb. rewrite init_env_lookup in Hb.
      destruct (Forall2_lookup_r _ _ _ _ _ Hd Hb) as (a & Ha & Hab). eauto. }
  intros [buf' c'] (Hc' & Hext & env & Henv & Hs).
  destruct (eval_program_total p Hwf ins Hins) as (outs & Houts & _).
  pose proof Houts as Heval. unfold eval_program in Heval. rewrite Henv in Heval. simpl in Heval.
  destruct (gather_outputs _ _ _ _ _ Hs Heval) as (ws & -> & Hws). simpl. eauto.
Qed.

Lemma execute_program_ok p c inputs ins :
  wf_program p → ctx_wf c → vlen inputs = num_inputs p → Forall2 (denotes c) inputs ins →
  wp ctx_err (execute_program p inputs) c (λ ws c', ctx_wf c' ∧ ctx_ext c c' ∧
    ∃ outs, eval_program p ins = Some outs ∧ Forall2 (denotes c') ws outs).
Proof.
  intros Hwf Hc Hin Hd. unfold execute_program, execute_program_ws.
  do 2 apply wp_bind. eapply wp_mono; [by apply (execute_program_slots_ok _ _ _ ins)|].
  intros [ws scr] c' HQ. done.
Qed.
End execute.

(** ** Property *)

(** C3: replay is correct.  On every lawful context, for every well-formed
    program (dense or with reused wires) and every workspace, however large and
    whatever it holds, [execute_program] runs without out-of-range access and
    leaves in [ws.out] wires that denote [eval_program] of the inputs; a wrong
    number of inputs ends the process with a diagnostic before any gate. *)
Theorem execute_program_correct {C W : Type} {HB : BooleanContext C W} {HL : LawfulContext C W}
    {HI : Inhabited W} p (c : C) (inputs : list W) (ins : list bool) (ws : ProgramWorkspace W) :
  wf_program p → ctx_wf c → Forall2 (denotes c) inputs ins →
  if (vlen inputs =? num_inputs p)%N then
    wp ctx_err (execute_program_ws p inputs ws) c (λ ws' c', ctx_wf c' ∧ ctx_ext c c' ∧
      ∃ outs, eval_program p ins = Some outs ∧ Forall2 (denotes c') (ws_out ws') outs)
  else execute_program_ws p inputs ws c =
         Fatal "execute_program: input count != program num_inputs".
Proof.
  intros Hwf Hc Hins. destruct (N.eqb_spec (vlen inputs) (num_inputs p)) as [Hlen|Hlen].
  - unfold execute_program_ws. apply wp_bind.
    eapply wp_mono; [by apply (execute_program_slots_ok _ _ _ ins)|].
    intros [outs scr] c' HQ. exact HQ.
  - unfold execute_program_ws, mbind, ST_bind, execute_program_slots.
    by rewrite (proj2 (N.eqb_neq _ _) Hlen).
Qed.

(** A program that writes wire 2 twice. *)
Definition reuse_sample : BooleanProgram :=
  MkProgram 4 2 ReuseFull [MkGate 0 1 2 And; MkGate 2 0 3 Xor; MkGate 3 0 2 Not] [2; 3]%N.
Lemma execute_program_correct_witness :
  ∃ ws' c', execute_program_ws (C := ClearCtx.State) (W := ClearCtx.Wire) reuse_sample [1; 0]%N
      empty_workspace tt = Ret (ws', c') ∧
    ∃ outs, eval_program reuse_sample [true; false] = Some outs ∧
      Forall2 ClearCtx.wire_is (ws_out ws') outs.
Proof.
  assert (wf_program reuse_sample) as Hwf by (by apply validate_wf).
  pose proof (execute_program_correct reuse_sample tt [1; 0]%N [true; false] empty_workspace Hwf) as H.
  destruct (wp_total _ _ _ _ (H ltac:(done) ltac:(repeat constructor))) as (ws' & c' & Hr & _ & _ & Ho);
    [by intros msg []|].
  exists ws', c'. done.
Defined.
