(* ===== verification/Kernel.v ===== *)
(** * Circuit kernels as programs over a context

    A kernel of the source is [template<BooleanContext Ctx> k(Ctx&, wires...)].
    Its model is a tree of the gate calls it makes ([Kernel]), written with the
    monad's notation, polymorphic in the wire type.  [interp] runs a kernel on a
    context; [keval] runs it on plain bits.

    [krel] is the parametricity relation: two instances of the same source body
    at related wires make the same calls on related wires.  The fundamental
    theorem [interp_keval] then reduces every question about a kernel on a
    lawful context to its evaluation on bits. *)

From S2P Require Import Prelude Program Validate Context Execute.

(** [KFatal] is a failed [expecting] of the kernel itself; [KRun] is
    [frontend::run] of a compiled program on the kernel's context. *)
Inductive Kernel (W A : Type) : Type :=
  | KRet (a : A)
  | KFatal (msg : string)
  | KPub (v : bool) (k : W → Kernel W A)
  | KAnd (a b : W) (k : W → Kernel W A)
  | KXor (a b : W) (k : W → Kernel W A)
  | KNot (a : W) (k : W → Kernel W A)
  | KRun (p : BooleanProgram) (ins : list W) (k : list W → Kernel W A).
Arguments KRet {W A}. Arguments KFatal {W A}. Arguments KPub {W A}. Arguments KAnd {W A}.
Arguments KXor {W A}. Arguments KNot {W A}. Arguments KRun {W A}.

#[export] Instance Kernel_ret W : MRet (Kernel W) := λ A a, KRet a.
Fixpoint kbind {W A B} (f : A → Kernel W B) (m : Kernel W A) : Kernel W B :=
  match m with
  | KRet a => f a
  | KFatal msg => KFatal msg
  | KPub v k => KPub v (λ w, kbind f (k w))
  | KAnd a b k => KAnd a b (λ w, kbind f (k w))
  | KXor a b k => KXor a b (λ w, kbind f (k w))
  | KNot a k => KNot a (λ w, kbind f (k w))
  | KRun p ins k => KRun p ins (λ ws, kbind f (k ws))
  end.
#[export] Instance Kernel_bind W : MBind (Kernel W) := λ A B, kbind.

(** The calls of the context, as kernels. *)
Definition kpub {W} (v : bool) : Kernel W W := KPub v KRet.
Definition kand {W} (a b : W) : Kernel W W := KAnd a b KRet.
Definition kxor {W} (a b : W) : Kernel W W := KXor a b KRet.
Definition knot {W} (a : W) : Kernel W W := KNot a KRet.
Definition krun {W} (p : BooleanProgram) (ins : list W) : Kernel W (list W) := KRun p ins KRet.
Definition kexpect {W} (b : bool) (msg : string) : Kernel W unit :=
  if b then KRet tt else KFatal msg.
(** A loop that collects one wire per element. *)
Fixpoint kmap {W A B} (f : A → Kernel W B) (l : list A) : Kernel W (list B) :=
  match l with [] => mret [] | a :: l => b ← f a; bs ← kmap f l; mret (b :: bs) end.
Fixpoint kmap2 {W A B D} (f : A → B → Kernel W D) (l : list A) (l' : list B) : Kernel W (list D) :=
  match l, l' with
  | a :: l, b :: l' => d ← f a b; ds ← kmap2 f l l'; mret (d :: ds)
  | _, _ => mret []
  end.
Fixpoint kfold {W A S} (f : S → A → Kernel W S) (s : S) (l : list A) : Kernel W S :=
  match l with [] => mret s | a :: l => s' ← f s a; kfold f s' l end.

(** ** Running a kernel *)
Fixpoint interp {C W A} `{BooleanContext C W, Inhabited W} (m : Kernel W A) : ST C A :=
  match m with
  | KRet a => mret a
  | KFatal msg => lift (Fatal msg)
  | KPub v k => w ← public_bit v; interp (k w)
  | KAnd a b k => w ← and_gate a b; interp (k w)
  | KXor a b k => w ← xor_gate a b; interp (k w)
  | KNot a k => w ← not_gate a; interp (k w)
  | KRun p ins k => ws ← execute_program p ins; interp (k ws)
  end.

(** On bits; a replayed program means [eval_program]. *)
Fixpoint keval {A} (m : Kernel bool A) : outcome A :=
  match m with
  | KRet a => Ret a
  | KFatal msg => Fatal msg
  | KPub v k => keval (k v)
  | KAnd a b k => keval (k (a && b))
  | KXor a b k => keval (k (xorb a b))
  | KNot a k => keval (k (negb a))
  | KRun p ins k =>
      expecting (vlen ins =? num_inputs p)%N "execute_program: input count != program num_inputs";;
      match eval_program p ins with Some outs => keval (k outs) | None => Undef end
  end.

Lemma keval_bind {A B} (m : Kernel bool A) (f : A → Kernel bool B) :
  keval (m ≫= f) = a ← keval m; keval (f a).
Proof.
  unfold mbind at 1, Kernel_bind.
  induction m as [a|msg|v k IH|a b k IH|a b k IH|a k IH|p ins k IH]; simpl; auto.
  destruct (expecting _ _); simpl; [|done..]. destruct (eval_program p ins); simpl; auto.
Qed.
(** The same for the form [simpl] leaves. *)
Lemma keval_kbind {A B} (m : Kernel bool A) (f : A → Kernel bool B) :
  keval (kbind f m) = a ← keval m; keval (f a).
Proof. apply keval_bind. Qed.
Lemma keval_fold {A S} (f : S → A → Kernel bool S) s l :
  keval (kfold f s l) = foldO (λ s a, keval (f s a)) s l.
Proof.
  revert s; induction l as [|a l IH]; intros s; simpl; [done|].
  rewrite keval_bind. destruct (keval (f s a)); simpl; auto.
Qed.

(** A loop that maps a kernel over a list. *)
Lemma keval_kmap_all {A B D} (f : B → Kernel bool D) (g : A → B) (h : A → D) l :
  Forall (λ x, keval (f (g x)) = Ret (h x)) l → keval (kmap f (g <$> l)) = Ret (h <$> l).
Proof.
  induction 1 as [|x l Hx _ IH]; [done|]. cbn [fmap list_fmap kmap].
  rewrite keval_bind, Hx. cbn [mbind outcome_bind]. by rewrite keval_bind, IH.
Qed.
Lemma keval_kmap_in {A D} (f : A → Kernel bool D) (h : A → D) l :
  (∀ x, x ∈ l → keval (f x) = Ret (h x)) → keval (kmap f l) = Ret (h <$> l).
Proof.
  intros H. rewrite <- (list_fmap_id l) at 1. apply keval_kmap_all, Forall_forall, H.
Qed.

(** ** Parametricity *)
Section krel.
Context {W1 W2 : Type}.
Definition wrel : Type := W1 → W2 → Prop.
Definition wsub (R R' : wrel) : Prop := ∀ x y, R x y → R' x y.

(** The relation on wires may grow while the kernel runs; [RA] relates the
    results at the final relation. *)
Inductive krel {A1 A2} (RA : wrel → A1 → A2 → Prop) (R : wrel) :
    Kernel W1 A1 → Kernel W2 A2 → Prop :=
  | krel_ret a1 a2 : RA R a1 a2 → krel RA R (KRet a1) (KRet a2)
  | krel_fatal msg : krel RA R (KFatal msg) (KFatal msg)
  | krel_pub v k1 k2 :
      (∀ R' w1 w2, wsub R R' → R' w1 w2 → krel RA R' (k1 w1) (k2 w2)) →
      krel RA R (KPub v k1) (KPub v k2)
  | krel_and a1 a2 b1 b2 k1 k2 : R a1 a2 → R b1 b2 →
      (∀ R' w1 w2, wsub R R' → R' w1 w2 → krel RA R' (k1 w1) (k2 w2)) →
      krel RA R (KAnd a1 b1 k1) (KAnd a2 b2 k2)
  | krel_xor a1 a2 b1 b2 k1 k2 : R a1 a2 → R b1 b2 →
      (∀ R' w1 w2, wsub R R' → R' w1 w2 → krel RA R' (k1 w1) (k2 w2)) →
      krel RA R (KXor a1 b1 k1) (KXor a2 b2 k2)
  | krel_not a1 a2 k1 k2 : R a1 a2 →
      (∀ R' w1 w2, wsub R R' → R' w1 w2 → krel RA R' (k1 w1) (k2 w2)) →
      krel RA R (KNot a1 k1) (KNot a2 k2)
  | krel_run p ins1 ins2 k1 k2 : wf_program p → Forall2 R ins1 ins2 →
      (∀ R' ws1 ws2, wsub R R' → Forall2 R' ws1 ws2 → krel RA R' (k1 ws1) (k2 ws2)) →
      krel RA R (KRun p ins1 k1) (KRun p ins2 k2).

#[export] Instance wsub_preorder : PreOrder wsub.
Proof. split; [by intros R x y|intros R1 R2 R3 H1 H2 x y Hxy; by apply H2, H1]. Qed.

Lemma Forall2_wsub R R' l1 l2 : wsub R R' → Forall2 R l1 l2 → Forall2 R' l1 l2.
Proof. intros Hs Hf. eapply Forall2_impl; [exact Hf|exact Hs]. Qed.

Lemma krel_bind {A1 A2 B1 B2} (RA : wrel → A1 → A2 → Prop) (RB : wrel → B1 → B2 → Prop)
    R m1 m2 (f1 : A1 → Kernel W1 B1) (f2 : A2 → Kernel W2 B2) :
  krel RA R m1 m2 →
  (∀ R' a1 a2, wsub R R' → RA R' a1 a2 → krel RB R' (f1 a1) (f2 a2)) →
  krel RB R (m1 ≫= f1) (m2 ≫= f2).
Proof.
  unfold mbind, Kernel_bind. intros Hm Hf.
  induction Hm as [R a1 a2 Ha|R msg|R v k1 k2 Hk IH|R a1 a2 b1 b2 k1 k2 Ha Hb Hk IH
    |R a1 a2 b1 b2 k1 k2 Ha Hb Hk IH|R a1 a2 k1 k2 Ha Hk IH|R p i1 i2 k1 k2 Hp Hi Hk IH]; simpl.
  - by apply Hf.
  - constructor.
  - constructor. intros. apply IH; [done..|]. intros. apply Hf; [by etrans|done].
  - constructor; [done..|]. intros. apply IH; [done..|]. intros. apply Hf; [by etrans|done].
  - constructor; [done..|]. intros. apply IH; [done..|]. intros. apply Hf; [by etrans|done].
  - constructor; [done..|]. intros. apply IH; [done..|]. intros. apply Hf; [by etrans|done].
  - constructor; [done..|]. intros. apply IH; [done..|]. intros. apply Hf; [by etrans|done].
Qed.

(** Standard relations on results. *)
Definition RW : wrel → W1 → W2 → Prop := λ R, R.
Definition RL : wrel → list W1 → list W2 → Prop := λ R, Forall2 R.
Definition ROpt : wrel → option W1 → option W2 → Prop := λ R, option_Forall2 R.
Definition REq {A} : wrel → A → A → Prop := λ _, eq.
Definition RPair {A1 A2 B1 B2} (RA : wrel → A1 → A2 → Prop) (RB : wrel → B1 → B2 → Prop) :
    wrel → A1 * B1 → A2 * B2 → Prop :=
  λ R x y, RA R x.1 y.1 ∧ RB R x.2 y.2.
(** A relation on results that survives the growth of the wire relation. *)
Class Mono {A1 A2} (RA : wrel → A1 → A2 → Prop) : Prop :=
  mono R R' a1 a2 : wsub R R' → RA R a1 a2 → RA R' a1 a2.
#[export] Instance RW_mono : Mono RW.
Proof. intros R R' a1 a2 Hs. apply Hs. Qed.
#[export] Instance RL_mono : Mono RL.
Proof. intros R R' a1 a2 Hs. by apply Forall2_wsub. Qed.
#[export] Instance ROpt_mono : Mono ROpt.
Proof. intros R R' a1 a2 Hs []; constructor. by apply Hs. Qed.
#[export] Instance REq_mono {A} : Mono (@REq A).
Proof. by intros R R' a1 a2 _ ?. Qed.
#[export] Instance RPair_mono {A1 A2 B1 B2} (RA : wrel → A1 → A2 → Prop)
    (RB : wrel → B1 → B2 → Prop) : Mono RA → Mono RB → Mono (RPair RA RB).
Proof. intros HA HB R R' ?? Hs []. split; [by eapply HA|by eapply HB]. Qed.

Lemma krel_kpub R v : krel RW R (kpub v) (kpub v).
Proof. constructor. intros. by constructor. Qed.
Lemma krel_kand (R : wrel) a1 a2 b1 b2 : R a1 a2 → R b1 b2 → krel RW R (kand a1 b1) (kand a2 b2).
Proof. intros. constructor; [done..|]. intros. by constructor. Qed.
Lemma krel_kxor (R : wrel) a1 a2 b1 b2 : R a1 a2 → R b1 b2 → krel RW R (kxor a1 b1) (kxor a2 b2).
Proof. intros. constructor; [done..|]. intros. by constructor. Qed.
Lemma krel_knot (R : wrel) a1 a2 : R a1 a2 → krel RW R (knot a1) (knot a2).
Proof. intros. constructor; [done..|]. intros. by constructor. Qed.
Lemma krel_krun (R : wrel) p l1 l2 :
  wf_program p → Forall2 R l1 l2 → krel RL R (krun p l1) (krun p l2).
Proof. intros. constructor; [done..|]. intros. by constructor. Qed.
Lemma krel_kexpect R b msg : krel REq R (kexpect b msg) (kexpect b msg).
Proof. destruct b; by constructor. Qed.

Lemma krel_kmap {A1 A2 B1 B2} (RA : wrel → A1 → A2 → Prop) (RB : wrel → B1 → B2 → Prop)
    `{!Mono RA} `{!Mono RB} R (f1 : A1 → Kernel W1 B1) (f2 : A2 → Kernel W2 B2) l1 l2 :
  Forall2 (RA R) l1 l2 →
  (∀ R' x y, wsub R R' → RA R' x y → krel RB R' (f1 x) (f2 y)) →
  krel (λ R, Forall2 (RB R)) R (kmap f1 l1) (kmap f2 l2).
Proof.
  intros Hl. revert R Hl. induction l1 as [|x l1 IH] in l2 |- *; intros R Hl Hf;
    inversion Hl as [|? y ? l2' Hxy Hl']; subst; simpl; [by constructor; constructor|].
  eapply krel_bind; [by apply (Hf R)|]. intros R' b1 b2 Hs Hb.
  eapply krel_bind; [apply IH|].
  - eapply Forall2_impl; [exact Hl'|]. intros ? ?. by eapply mono.
  - intros R2 u v Hs2. apply Hf. by etrans.
  - intros R2 bs1 bs2 Hs2 Hbs. constructor. constructor; [by eapply mono|done].
Qed.
Lemma krel_kmap2 {A1 A2 B1 B2 D1 D2} (RA : wrel → A1 → A2 → Prop) (RB : wrel → B1 → B2 → Prop)
    (RD : wrel → D1 → D2 → Prop) `{!Mono RA} `{!Mono RB} `{!Mono RD} R
    (f1 : A1 → B1 → Kernel W1 D1) (f2 : A2 → B2 → Kernel W2 D2) l1 l2 l1' l2' :
  Forall2 (RA R) l1 l2 → Forall2 (RB R) l1' l2' →
  (∀ R' x y x' y', wsub R R' → RA R' x y → RB R' x' y' → krel RD R' (f1 x x') (f2 y y')) →
  krel (λ R, Forall2 (RD R)) R (kmap2 f1 l1 l1') (kmap2 f2 l2 l2').
Proof.
  intros Hl. revert R Hl l1' l2'. induction l1 as [|x l1 IH] in l2 |- *; intros R Hl l1' l2' Hl2 Hf;
    inversion Hl as [|? y ? l2t Hxy Hlt]; subst; simpl; [by constructor; constructor|].
  destruct Hl2 as [|x' y' l1' l2' Hxy' Hlt']; [by constructor; constructor|].
  eapply krel_bind; [by apply (Hf R)|]. intros R' b1 b2 Hs Hb.
  eapply krel_bind; [apply IH|].
  - eapply Forall2_impl; [exact Hlt|]. intros ? ?. by eapply mono.
  - eapply Forall2_impl; [exact Hlt'|]. intros ? ?. by eapply mono.
  - intros R2 u v u' v' Hs2. apply Hf. by etrans.
  - intros R2 bs1 bs2 Hs2 Hbs. constructor. constructor; [by eapply mono|done].
Qed.
Lemma krel_kfold {A1 A2 S1 S2} (RA : wrel → A1 → A2 → Prop) (RS : wrel → S1 → S2 → Prop)
    `{!Mono RA} R (f1 : S1 → A1 → Kernel W1 S1) (f2 : S2 → A2 → Kernel W2 S2) s1 s2 l1 l2 :
  RS R s1 s2 → Forall2 (RA R) l1 l2 →
  (∀ R' s1 s2 x y, wsub R R' → RS R' s1 s2 → RA R' x y → krel RS R' (f1 s1 x) (f2 s2 y)) →
  krel RS R (kfold f1 s1 l1) (kfold f2 s2 l2).
Proof.
  intros Hs Hl. revert R s1 s2 Hs Hl. induction l1 as [|x l1 IH] in l2 |- *; intros R s1 s2 Hs Hl Hf;
    inversion Hl as [|? y ? l2' Hxy Hl']; subst; simpl; [by constructor|].
  eapply krel_bind; [by apply Hf|]. intros R' t1 t2 Hs' Ht. apply IH; [done| |].
  - eapply Forall2_impl; [exact Hl'|]. intros ? ?. by eapply mono.
  - intros R2 u1 u2 u v Hs2. apply Hf. by etrans.
Qed.
End krel.
Arguments wrel : clear implicits.

(** Prove [krel] goals: decompose the kernel call by call, keeping every
    hypothesis about wires at the current relation. *)
Create HintDb kparam.
#[export] Hint Extern 2 (RL _ _ _) => unfold RL : kparam.
#[export] Hint Extern 2 (RW _ _ _) => unfold RW : kparam.
#[export] Hint Extern 2 (ROpt _ _ _) => unfold ROpt : kparam.
#[export] Hint Resolve krel_kpub krel_kand krel_kxor krel_knot krel_krun krel_kexpect : kparam.
Ltac kmono := repeat match goal with
  | Hs : wsub ?R ?R', H : ?R ?x ?y |- _ => apply Hs in H
  | Hs : wsub ?R ?R', H : RW ?R ?x ?y |- _ => apply Hs in H
  | Hs : wsub ?R ?R', H : Forall2 ?R ?l1 ?l2 |- _ => apply (Forall2_wsub _ _ _ _ Hs) in H
  | Hs : wsub ?R ?R', H : RL ?R ?l1 ?l2 |- _ => apply (Forall2_wsub _ _ _ _ Hs) in H
  | Hs : wsub ?R ?R', H : option_Forall2 ?R ?l1 ?l2 |- _ => apply (ROpt_mono _ _ _ _ Hs) in H
  end.

(** Run through a kernel's body; the results' relation is left to [kauto]'s
    caller when it is not closed by [eauto]. *)
Ltac kdestruct := repeat match goal with
  | H : RPair _ _ _ ?x ?y |- _ => destruct x, y, H as [? ?]; cbn beta iota delta [fst snd] in *
  | H : RW _ _ _ |- _ => unfold RW in H
  | H : Forall2 (RW ?R) ?l1 ?l2 |- _ => change (Forall2 R l1 l2) in H
  | H : RL _ _ _ |- _ => unfold RL in H
  | H : ROpt _ _ _ |- _ => unfold ROpt in H
  | H : REq _ _ _ |- _ => unfold REq in H; subst
  end.
Ltac kcall rule :=
  apply rule; [solve [eauto with kparam]..|
    let R' := fresh "R" in let Hs := fresh "Hs" in
    intros R' ? ? Hs ?; kmono; clear Hs].
Ltac kstep := lazymatch goal with
  | |- krel _ _ (mbind _ _) (mbind _ _) =>
      eapply krel_bind; [solve [eauto with kparam]|
        let R' := fresh "R" in let Hs := fresh "Hs" in let Ha := fresh "Ha" in
        intros R' ? ? Hs Ha; kmono; clear Hs; kdestruct]
  | |- krel ?RA ?R (Kernel_bind _ _ _ ?f ?m) (Kernel_bind _ _ _ ?g ?n) =>
      change (krel RA R (m ≫= f) (n ≫= g))
  | |- krel ?RA ?R (kbind ?f ?m) (kbind ?g ?n) => change (krel RA R (m ≫= f) (n ≫= g))
  | |- krel _ _ (KXor _ _ _) (KXor _ _ _) => kcall krel_xor
  | |- krel _ _ (KAnd _ _ _) (KAnd _ _ _) => kcall krel_and
  | |- krel _ _ (KNot _ _) (KNot _ _) => kcall krel_not
  | |- krel _ _ (KPub _ _) (KPub _ _) => kcall krel_pub
  | |- krel _ _ (mret _) (mret _) => apply krel_ret
  | |- krel _ _ (KRet _) (KRet _) => apply krel_ret
  | |- krel _ _ (if ?b then _ else _) (if ?b then _ else _) => destruct b
  end.
Ltac kauto := repeat kstep; try solve [eauto with kparam];
  try solve [repeat first [split|constructor]; simpl; eauto].

(** ** The fundamental theorem

    On a lawful context a kernel computes, on its wires, what its bit instance
    evaluates to; it fails only where the context may fail or where the bit
    instance fails with the same message. *)
Section fundamental.
Context `{LawfulContext C W, Inhabited W}.

Lemma interp_step {A B} (E : string → Prop) (m : ST C B) (f : B → ST C A) c
    (P : C → B → Prop) (Q : C → A → Prop) :
  wp ctx_err m c (λ b c', ctx_wf c' ∧ ctx_ext c c' ∧ P c' b) →
  (∀ msg, ctx_err msg → E msg) →
  (∀ b c', ctx_wf c' → ctx_ext c c' → P c' b →
     wp E (f b) c' (λ a c'', ctx_wf c'' ∧ ctx_ext c' c'' ∧ Q c'' a)) →
  wp E (m ≫= f) c (λ a c', ctx_wf c' ∧ ctx_ext c c' ∧ Q c' a).
Proof.
  intros Hm HE Hf. apply wp_bind.
  eapply wp_mono; [eapply owp_err_mono; [exact Hm|exact HE]|].
  intros b c1 (Hc1 & Hext & HP). eapply wp_mono; [by apply Hf|].
  intros a c2 (? & ? & ?). split; [done|]. split; [by etrans|done].
Qed.

Lemma denotes_wsub c c' : ctx_ext c c' → wsub (denotes c) (denotes c').
Proof. intros ? x y. by apply denotes_mono. Qed.

Lemma interp_keval {A B} (RA : wrel W bool → A → B → Prop) (m : Kernel W A)
    (mb : Kernel bool B) c :
  krel RA (denotes c) m mb → ctx_wf c →
  wp (λ msg, ctx_err msg ∨ keval mb = Fatal msg) (interp m) c (λ a c',
    ctx_wf c' ∧ ctx_ext c c' ∧ ∃ b, keval mb = Ret b ∧ RA (denotes c') a b).
Proof.
  intros Hrel. remember (denotes c) as R eqn:HR. revert c HR.
  induction Hrel as [R a1 a2 Ha|R msg|R v k1 k2 Hk IH|R a1 a2 b1 b2 k1 k2 Ha Hb Hk IH
    |R a1 a2 b1 b2 k1 k2 Ha Hb Hk IH|R a1 a2 k1 k2 Ha Hk IH|R p i1 i2 k1 k2 Hp Hi Hk IH];
    intros c -> Hc; simpl.
  - apply wp_ret. split; [done|]. split; [reflexivity|]. eauto.
  - right. done.
  - eapply interp_step; [by apply public_bit_law|auto|].
    intros w c' Hc' Hext Hw. eapply IH; eauto using denotes_wsub.
  - eapply interp_step; [by apply and_gate_law|auto|].
    intros w c' Hc' Hext Hw. eapply IH; eauto using denotes_wsub.
  - eapply interp_step; [by apply xor_gate_law|auto|].
    intros w c' Hc' Hext Hw. eapply IH; eauto using denotes_wsub.
  - eapply interp_step; [by apply not_gate_law|auto|].
    intros w c' Hc' Hext Hw. eapply IH; eauto using denotes_wsub.
  - destruct (N.eqb_spec (vlen i1) (num_inputs p)) as [Hlen|Hlen].
    + assert (vlen i2 = num_inputs p) as Hlen2.
      { rewrite <- Hlen. unfold vlen. by rewrite (Forall2_length _ _ _ Hi). }
      rewrite Hlen2, N.eqb_refl. simpl.
      eapply interp_step; [by apply (execute_program_ok _ _ _ i2)|auto|].
      intros ws c' Hc' Hext (outs & Hev & Hws). rewrite Hev.
      eapply IH; eauto using denotes_wsub.
    + assert (vlen i2 ≠ num_inputs p) as Hlen2.
      { unfold vlen in *. by rewrite <- (Forall2_length _ _ _ Hi). }
      apply N.eqb_neq in Hlen, Hlen2. rewrite Hlen2. unfold execute_program, execute_program_ws,
        execute_program_slots, wp, mbind, ST_bind. rewrite Hlen. simpl. by right.
Qed.

(** The usual form: the bit instance evaluates to [b]. *)
Lemma interp_Ret {A B} (RA : wrel W bool → A → B → Prop) (m : Kernel W A)
    (mb : Kernel bool B) c b :
  krel RA (denotes c) m mb → ctx_wf c → keval mb = Ret b →
  wp ctx_err (interp m) c (λ a c', ctx_wf c' ∧ ctx_ext c c' ∧ RA (denotes c') a b).
Proof.
  intros Hr Hc Hb. pose proof (interp_keval RA m mb c Hr Hc) as Hw.
  rewrite Hb in Hw. eapply wp_mono; [eapply owp_err_mono; [exact Hw|]|].
  - intros msg [?|?]; done.
  - intros a c' (? & ? & b' & [= <-] & ?). done.
Qed.
End fundamental.

(** ** Simulation between contexts

    Two contexts with the same wires that agree gate by gate agree on every
    kernel, replayed programs included. *)
Section simulation.
Context {C1 C2 W : Type} `{BooleanContext C1 W, BooleanContext C2 W, Inhabited W}.
Context (S : C1 → C2 → Prop).

Definition same_result {A} (x : A * C1) (y : A * C2) : Prop := x.1 = y.1 ∧ S x.2 y.2.
Record Simulates : Prop := {
  sim_pub v s1 s2 : S s1 s2 → orel same_result (public_bit v s1) (public_bit v s2);
  sim_and (a b : W) s1 s2 : S s1 s2 → orel same_result (and_gate a b s1) (and_gate a b s2);
  sim_xor (a b : W) s1 s2 : S s1 s2 → orel same_result (xor_gate a b s1) (xor_gate a b s2);
  sim_not (a : W) s1 s2 : S s1 s2 → orel same_result (not_gate a s1) (not_gate a s2) }.
Context (Hsim : Simulates).

Lemma slot_write_sim o (m1 : ST C1 W) (m2 : ST C2 W) (w : list W) s1 s2 :
  orel same_result (m1 s1) (m2 s2) →
  orel same_result (slot_write o m1 w s1) (slot_write o m2 w s2).
Proof.
  intros Hm. unfold slot_write. eapply orel_bind; [exact Hm|].
  intros [a1 c1] [a2 c2] [Ha Hc]. simpl in *. subst.
  eapply orel_bind; [apply orel_refl|]. by intros w' ? <-.
Qed.
Lemma visit_gate_sim (g : Gate) (x : list W * C1) (y : list W * C2) :
  same_result x y →
  orel same_result (visit_gate (Bridge CtxReplayAdapter) x g)
    (visit_gate (Bridge CtxReplayAdapter) y g).
Proof.
  destruct x as [w s1], y as [w' s2]. intros [Hw Hs]. simpl in *. subst w'.
  unfold visit_gate. simpl. destruct (op g).
  - eapply orel_bind; [apply orel_refl|]. intros a ? <-.
    eapply orel_bind; [apply orel_refl|]. intros b ? <-. by apply slot_write_sim, Hsim.
  - eapply orel_bind; [apply orel_refl|]. intros a ? <-.
    eapply orel_bind; [apply orel_refl|]. intros b ? <-. by apply slot_write_sim, Hsim.
  - eapply orel_bind; [apply orel_refl|]. intros a ? <-. by apply slot_write_sim, Hsim.
  - by apply slot_write_sim, Hsim.
  - by apply slot_write_sim, Hsim.
Qed.
Lemma execute_program_sim p (ins : list W) s1 s2 :
  S s1 s2 → orel same_result (execute_program p ins s1) (execute_program p ins s2).
Proof.
  intros Hs. unfold execute_program, execute_program_ws, mbind, ST_bind.
  apply (orel_bind same_result); [apply (orel_bind same_result)|].
  - unfold execute_program_slots.
    eapply orel_bind; [apply orel_refl|]. intros _ _ _.
    eapply orel_bind; [apply orel_refl|]. intros _ _ _.
    eapply orel_bind; [apply orel_refl|]. intros w0 ? <-.
    eapply (orel_bind same_result); [apply (orel_foldO same_result); [done|]|].
    { intros g x y. apply visit_gate_sim. }
    intros [w1 c1] [w2 c2] [Hw Hc]. simpl in *. subst.
    eapply orel_bind; [apply orel_refl|]. by intros outs ? <-.
  - intros [[o1 k1] c1] [[o2 k2] c2] [Hws Hc]. simpl in *. by simplify_eq.
  - intros [ws1 c1] [ws2 c2] [Hws Hc]. simpl in *. by subst.
Qed.

Lemma interp_sim {A} (m : Kernel W A) s1 s2 :
  S s1 s2 → orel same_result (interp m s1) (interp m s2).
Proof.
  revert s1 s2. induction m as [a|msg|v k IH|a b k IH|a b k IH|a k IH|p ins k IH];
    intros s1 s2 Hs; simpl; [done|done|..];
    (eapply orel_bind; [by first [apply Hsim|apply execute_program_sim]|]);
    intros [w1 c1] [w2 c2] [Hw Hc]; simpl in *; subst; by apply IH.
Qed.
End simulation.

(** ** Correctness of a kernel on every lawful context

    [computes1 RA k pre post]: on any lawful context, if [a] denotes bits [x]
    with [pre x], the kernel leaves wires denoting some [z] with [post x z]
    (through the result relation [RA]), failing only where the context itself
    fails.  [computes2] is the same for two operands. *)
Section computes.
Context {A : Type → Type} (RA : ∀ W1 W2, wrel W1 W2 → A W1 → A W2 → Prop).

Definition computes1 (k : ∀ W, list W → Kernel W (A W)) (pre : list bool → Prop)
    (post : list bool → A bool → Prop) : Prop :=
  ∀ (C W : Type) (HB : BooleanContext C W) (HL : LawfulContext C W) (HI : Inhabited W) (c : C) (a : list W) (x : list bool),
    ctx_wf c → Forall2 (denotes c) a x → pre x →
    wp ctx_err (interp (k W a)) c (λ r c', ctx_wf c' ∧ ctx_ext c c' ∧
      ∃ z, RA W bool (denotes c') r z ∧ post x z).
Definition computes2 (k : ∀ W, list W → list W → Kernel W (A W))
    (pre : list bool → list bool → Prop) (post : list bool → list bool → A bool → Prop) : Prop :=
  ∀ (C W : Type) (HB : BooleanContext C W) (HL : LawfulContext C W) (HI : Inhabited W) (c : C) (a b : list W) (x y : list bool),
    ctx_wf c → Forall2 (denotes c) a x → Forall2 (denotes c) b y → pre x y →
    wp ctx_err (interp (k W a b)) c (λ r c', ctx_wf c' ∧ ctx_ext c c' ∧
      ∃ z, RA W bool (denotes c') r z ∧ post x y z).

Lemma computes1_intro k (pre : list bool → Prop) (post : list bool → A bool → Prop) :
  (∀ W1 W2 (R : wrel W1 W2) a1 a2, Forall2 R a1 a2 → krel (RA W1 W2) R (k W1 a1) (k W2 a2)) →
  (∀ x, pre x → ∃ z, keval (k bool x) = Ret z ∧ post x z) →
  computes1 k pre post.
Proof.
  intros Hpar Hev C W Hb Hl Hi c a x Hc Ha Hpre. destruct (Hev x Hpre) as (z & Hz & Hpost).
  eapply wp_mono; [eapply interp_Ret; [by apply Hpar|done|exact Hz]|].
  intros r c' (? & ? & ?). eauto.
Qed.
Lemma computes2_intro k (pre : list bool → list bool → Prop)
    (post : list bool → list bool → A bool → Prop) :
  (∀ W1 W2 (R : wrel W1 W2) a1 a2 b1 b2, Forall2 R a1 a2 → Forall2 R b1 b2 →
     krel (RA W1 W2) R (k W1 a1 b1) (k W2 a2 b2)) →
  (∀ x y, pre x y → ∃ z, keval (k bool x y) = Ret z ∧ post x y z) →
  computes2 k pre post.
Proof.
  intros Hpar Hev C W Hb Hl Hi c a b x y Hc Ha Hb' Hpre.
  destruct (Hev x y Hpre) as (z & Hz & Hpost).
  eapply wp_mono; [eapply interp_Ret; [by apply Hpar|done|exact Hz]|].
  intros r c' (? & ? & ?). eauto.
Qed.

Definition computes3 (k : ∀ W, list W → list W → list W → Kernel W (A W))
    (pre : list bool → list bool → list bool → Prop)
    (post : list bool → list bool → list bool → A bool → Prop) : Prop :=
  ∀ (C W : Type) (HB : BooleanContext C W) (HL : LawfulContext C W) (HI : Inhabited W)
    (c : C) (a b d : list W) (x y u : list bool),
    ctx_wf c → Forall2 (denotes c) a x → Forall2 (denotes c) b y → Forall2 (denotes c) d u →
    pre x y u →
    wp ctx_err (interp (k W a b d)) c (λ r c', ctx_wf c' ∧ ctx_ext c c' ∧
      ∃ z, RA W bool (denotes c') r z ∧ post x y u z).
Lemma computes3_intro k (pre : list bool → list bool → list bool → Prop)
    (post : list bool → list bool → list bool → A bool → Prop) :
  (∀ W1 W2 (R : wrel W1 W2) a1 a2 b1 b2 d1 d2,
     Forall2 R a1 a2 → Forall2 R b1 b2 → Forall2 R d1 d2 →
     krel (RA W1 W2) R (k W1 a1 b1 d1) (k W2 a2 b2 d2)) →
  (∀ x y u, pre x y u → ∃ z, keval (k bool x y u) = Ret z ∧ post x y u z) →
  computes3 k pre post.
Proof.
  intros Hpar Hev C W Hb Hl Hi c a b d x y u Hc Ha Hb' Hd Hpre.
  destruct (Hev x y u Hpre) as (z & Hz & Hpost).
  eapply wp_mono; [eapply interp_Ret; [by apply Hpar|done|exact Hz]|].
  intros r c' (? & ? & ?). eauto.
Qed.
End computes.
