(* ===== verification/Record.v ===== *)
(** * Recording contexts (ir/context/record.h, ir/context/digest.h)

    [RecordCtx] emits the IR of a kernel, [DigestCtx] folds the same gate stream
    into an FNV hash.  [RecordCtx] is a lawful context for every choice of input
    bits, so a recorded kernel validates and evaluates to what the kernel
    computes on bits; and the two contexts simulate each other, so a streamed
    digest equals the digest of the recorded program. *)

From S2P Require Import Prelude Program Validate Context Execute Kernel.

Module RecordCtx.
(** [c0] / [c1]: the constant wires, [None] for the source's -1. *)
Record State : Type := MkState {
  prog : BooleanProgram;
  next_id : N;
  num_inputs : N;
  c0 : option N;
  c1 : option N;
  inputs_closed : bool }.
Definition init : State := MkState (MkProgram 0 0 ReuseNone [] []) 0 0 None None false.

Definition push (g : Gate) (s : State) : State :=
  let p := prog s in
  MkState (MkProgram (num_wires p) (Program.num_inputs p) (wire_reuse p) (gates p ++ [g]) (outputs p))
    (next_id s) (num_inputs s) (c0 s) (c1 s) (inputs_closed s).

Definition alloc_ : ST State N := λ s,
  expecting (negb (next_id s =? UINT32_MAX)%N) "RecordCtx: wire id overflow";;
  Ret (next_id s, MkState (prog s) (u32 (next_id s + 1)) (num_inputs s) (c0 s) (c1 s) true).

Definition external_input (n : N) : ST State N := λ s,
  expecting (negb (inputs_closed s))
    "RecordCtx::external_input: called after a gate was emitted";;
  expecting (negb (n =? 0)%N) "RecordCtx::external_input: zero-width argument";;
  expecting (n <=? UINT32_MAX - next_id s)%N "RecordCtx::external_input: wire id overflow";;
  expecting (n <=? UINT32_MAX - num_inputs s)%N "RecordCtx::external_input: num_inputs overflow";;
  Ret (next_id s, MkState (prog s) (u32 (next_id s + u32 n)) (u32 (num_inputs s + u32 n))
                    (c0 s) (c1 s) (inputs_closed s)).

(** Allocate an output id and push the gate. *)
Definition emit (mk : N → Gate) : ST State N :=
  λ s, '(o, s') ← alloc_ s; Ret (o, push (mk o) s').

Definition set_const (v : bool) (w : N) (s : State) : State :=
  MkState (prog s) (next_id s) (num_inputs s)
    (if v then c0 s else Some w) (if v then Some w else c1 s) (inputs_closed s).
Definition public_bit (v : bool) : ST State N := λ s,
  match (if v then c1 s else c0 s) with
  | Some w => Ret (w, s)
  | None =>
      '(o, s') ← emit (λ o, MkGate 0 0 o (if v then Const1 else Const0)) s;
      Ret (o, set_const v o s')
  end.
Definition and_gate (a b : N) : ST State N := emit (λ o, MkGate a b o And).
Definition xor_gate (a b : N) : ST State N := emit (λ o, MkGate a b o Xor).
Definition not_gate (a : N) : ST State N := emit (λ o, MkGate a 0 o Not).

(** The program as [finish] leaves it. *)
Definition finished (outs : list N) (s : State) : BooleanProgram :=
  MkProgram (next_id s) (num_inputs s) (wire_reuse (prog s)) (gates (prog s)) outs.
Definition finish (outs : list N) (s : State) : outcome BooleanProgram :=
  validate_program (finished outs s);; Ret (finished outs s).

#[global] Instance context : BooleanContext State N :=
  Build_BooleanContext State N public_bit and_gate xor_gate not_gate.

(** ** The invariant

    The gates are in SSA form: gate [k] defines wire [num_inputs + k] and
    reads only earlier wires; all ids are 32-bit. *)
Record Inv (s : State) : Prop := {
  inv_next : next_id s = (num_inputs s + vlen (gates (prog s)))%N;
  inv_u32 : (next_id s ≤ UINT32_MAX)%N;
  inv_dense : wire_reuse (prog s) = ReuseNone;
  inv_gates : ssa (num_inputs s) (gates (prog s)) }.

Lemma Inv_init : Inv init.
Proof. by split. Qed.
Lemma Inv_outs s w :
  Inv s → w ∈ out <$> gates (prog s) ↔ (num_inputs s ≤ w < next_id s)%N.
Proof. intros [Hn _ _ Hg]. rewrite Hn. by apply ssa_outs. Qed.

(** The SSA shape is enough for validation. *)
Lemma Inv_wf s outs :
  Inv s → Forall (λ w, (w < next_id s)%N) outs → wf_program (finished outs s).
Proof. intros [Hn Hu Hd Hg] Ho. by apply ssa_wf. Qed.
Lemma Inv_u32 s outs :
  Inv s → Forall (λ w, (w < next_id s)%N) outs → prog_u32 (finished outs s).
Proof.
  intros [Hn Hu Hd Hg] Ho. unfold UINT32_MAX in Hu. apply ssa_u32; [done| |done..].
  simpl. lia.
Qed.

(** Emitting a canonical gate over allocated wires. *)
Lemma emit_ok mk (s : State) (Q : N → State → Prop) (E : string → Prop) :
  Inv s → E "RecordCtx: wire id overflow" →
  (∀ g, g = mk (next_id s) → out g = next_id s ∧ canonical g ∧
    ∀ w, w ∈ reads g → (w < next_id s)%N) →
  (∀ s', Inv s' → gates (prog s') = gates (prog s) ++ [mk (next_id s)] →
     next_id s' = (next_id s + 1)%N → num_inputs s' = num_inputs s →
     c0 s' = c0 s → c1 s' = c1 s → inputs_closed s' = true → Q (next_id s) s') →
  wp E (emit mk) s Q.
Proof.
  intros [Hn Hu Hd Hg] HE Hmk HQ. unfold wp, emit, alloc_.
  destruct (N.eqb_spec (next_id s) UINT32_MAX) as [|Hne]; simpl; [done|].
  unfold UINT32_MAX in *. rewrite u32_small by lia.
  destruct (Hmk _ eq_refl) as (Hout & Hc & Hr).
  apply HQ; simpl; try done. split; simpl.
  - rewrite vlen_app. unfold vlen in *. simpl. lia.
  - unfold UINT32_MAX. lia.
  - done.
  - apply ssa_snoc; [done|]. split; [done|]. unfold vlen in Hn.
    split; [lia|]. intros w Hw. rewrite Hout. by apply Hr.
Qed.

(** ** The recorder is a lawful context *)
Section lawful.
Context (ins : list bool).

Definition env_of (s : State) : option (gmap N bool) :=
  sem_gates (gates (prog s)) (init_env ins).
Definition wire_denotes (s : State) (w : N) (b : bool) : Prop :=
  ∃ env, env_of s = Some env ∧ env !! w = Some b.
Record WF (s : State) : Prop := {
  wf_inv : Inv s;
  wf_ins : num_inputs s = vlen ins;
  wf_c0 : ∀ w, c0 s = Some w → wire_denotes s w false;
  wf_c1 : ∀ w, c1 s = Some w → wire_denotes s w true }.

Lemma wire_denotes_lt s w b : WF s → wire_denotes s w b → (w < next_id s)%N.
Proof.
  intros [Hinv Hins _ _] (env & Henv & Hw). pose proof (Inv_wf s [] Hinv) as Hwf.
  destruct (sem_gates_defined _ (Hwf ltac:(constructor)) ins (gates (prog s)) [])
    as (env' & Henv' & Hdef); [by rewrite app_nil_r|done|].
  unfold env_of in Henv. rewrite Henv in Henv'. injection Henv' as <-.
  assert (is_Some (env !! w)) as Hs by eauto. apply Hdef in Hs. unfold defined_by in Hs.
  simpl in Hs. rewrite Inv_outs in Hs by done. pose proof (inv_next _ Hinv). lia.
Qed.

(** A gate computing [v] extends the environment with its output wire. *)
Lemma emit_denotes mk (v : bool) (s : State) :
  WF s →
  (∀ g, g = mk (next_id s) → out g = next_id s ∧ canonical g ∧
    (∀ w, w ∈ reads g → ∃ b, wire_denotes s w b) ∧
    ∀ env, env_of s = Some env → gate_val env g = Some v) →
  wp (λ msg, msg = "RecordCtx: wire id overflow") (emit mk) s (λ w s',
    WF s' ∧ (∀ w b, wire_denotes s w b → wire_denotes s' w b) ∧ wire_denotes s' w v).
Proof.
  intros Hs Hmk. pose proof Hs as [Hinv Hins Hc0 Hc1].
  destruct (Hmk _ eq_refl) as (Hout & Hcan & Hr & Hv).
  apply emit_ok; [done|done| |].
  { intros g ->. split_and!; [done..|]. intros w [b Hb]%Hr. by eapply wire_denotes_lt. }
  intros s' Hinv' Hg' Hn' Hi' H0 H1 _.
  destruct (sem_gates_defined (finished [] s) (Inv_wf s [] Hinv ltac:(constructor))
    ins (gates (prog s)) []) as (env & Henv & Hdef); [by rewrite app_nil_r|done|].
  assert (env_of s' = Some (<[next_id s := v]> env)) as Henv'.
  { unfold env_of. rewrite Hg'. apply sem_gates_snoc. exists env, v.
    rewrite Hout. split_and!; [done|by apply Hv|done]. }
  assert (∀ w b, wire_denotes s w b → wire_denotes s' w b) as Hmono.
  { intros w b Hw. pose proof (wire_denotes_lt _ _ _ Hs Hw) as Hlt.
    destruct Hw as (env1 & Henv1 & Hw). unfold env_of in Henv1. rewrite Henv in Henv1.
    injection Henv1 as <-. eexists. split; [exact Henv'|].
    rewrite lookup_insert_ne by lia. done. }
  split; [|split; [done|]].
  - split; [done|congruence|intros w; rewrite H0; eauto|intros w; rewrite H1; eauto].
  - eexists. split; [exact Henv'|]. by rewrite lookup_insert_eq.
Qed.

Lemma wire_denotes_env s w b env :
  env_of s = Some env → wire_denotes s w b → env !! w = Some b.
Proof. intros He (env' & He' & ?). by simplify_eq. Qed.

#[global] Program Instance lawful : LawfulContext State N := {
  ctx_wf := WF;
  ctx_ext s s' := ∀ w b, wire_denotes s w b → wire_denotes s' w b;
  ctx_err msg := msg = "RecordCtx: wire id overflow";
  denotes := wire_denotes }.
Next Obligation. split; [by intros s|]. intros s1 s2 s3 H1 H2 w b Hw. auto. Qed.
Next Obligation. auto. Qed.
Next Obligation.
  intros s v Hs. change (Context.public_bit v) with (public_bit v). unfold wp, public_bit.
  destruct (if v then c1 s else c0 s) as [w|] eqn:Hc.
  - simpl. split; [done|]. split; [done|].
    destruct v; [by apply (wf_c1 _ Hs)|by apply (wf_c0 _ Hs)].
  - apply owp_bind. eapply owp_mono; [apply (emit_denotes _ v s Hs)|].
    + intros g ->. simpl. unfold canonical. simpl. destruct v; set_solver.
    + intros [o s'] (Hs' & Hm & Hd). simpl.
      assert (∀ w b, wire_denotes (set_const v o s') w b ↔ wire_denotes s' w b) as Hiff by done.
      split; [|split; [exact Hm|exact Hd]]. destruct Hs' as [Hi Hn H0 H1].
      destruct Hi. split; [done|done|..]; intros w; rewrite Hiff; simpl; destruct v;
        auto; by intros [= <-].
Qed.
Next Obligation.
  intros s a b x y Hs Ha Hb. apply emit_denotes; [done|]. intros g ->. simpl.
  split_and!; [done..| |].
  - intros w Hw. set_unfold in Hw. destruct Hw as [->|[->|[]]]; eauto.
  - intros env He. unfold gate_val. simpl.
    by rewrite (wire_denotes_env _ _ _ _ He Ha), (wire_denotes_env _ _ _ _ He Hb).
Qed.
Next Obligation.
  intros s a b x y Hs Ha Hb. apply emit_denotes; [done|]. intros g ->. simpl.
  split_and!; [done..| |].
  - intros w Hw. set_unfold in Hw. destruct Hw as [->|[->|[]]]; eauto.
  - intros env He. unfold gate_val. simpl.
    by rewrite (wire_denotes_env _ _ _ _ He Ha), (wire_denotes_env _ _ _ _ He Hb).
Qed.
Next Obligation.
  intros s a x Hs Ha. apply emit_denotes; [done|]. intros g ->. simpl.
  split_and!; [done..| |].
  - intros w Hw. set_unfold in Hw. destruct Hw as [->|[]]; eauto.
  - intros env He. unfold gate_val. simpl. by rewrite (wire_denotes_env _ _ _ _ He Ha).
Qed.
End lawful.
End RecordCtx.

(** ** DigestCtx

    FNV-1a over the gate stream, with the recorder's wire numbering. *)
Module DigestCtx.
Record State : Type := MkState {
  digest : N;
  next_id : N;
  c0 : option N;
  c1 : option N }.
Definition FNV_OFFSET : N := 1469598103934665603.
Definition FNV_PRIME : N := 1099511628211.
Definition init : State := MkState FNV_OFFSET 0 None None.

(** [mix_]: xor, then multiply in [uint64_t]. *)
Definition mix (h x : N) : N := u64 (N.lxor h x * FNV_PRIME).

Definition external_input (n : N) : ST State N := λ d,
  expecting (negb (n =? 0)%N) "DigestCtx::external_input: zero-width argument";;
  expecting (n <=? UINT32_MAX - next_id d)%N "DigestCtx::external_input: wire id overflow";;
  Ret (next_id d, MkState (mix (mix (digest d) 14) n) (u32 (next_id d + u32 n)) (c0 d) (c1 d)).

Definition emit_ (o a b : N) : ST State N := λ d,
  expecting (negb (next_id d =? UINT32_MAX)%N) "DigestCtx: wire id overflow";;
  let out := next_id d in
  Ret (out, MkState (mix (mix (mix (mix (digest d) o) a) b) out) (u32 (next_id d + 1))
              (c0 d) (c1 d)).

Definition public_bit (v : bool) : ST State N := λ d,
  match (if v then c1 d else c0 d) with
  | Some w => Ret (w, d)
  | None =>
      '(o, d') ← emit_ (3 + (if v then 1 else 0)) 0 0 d;
      Ret (o, MkState (digest d') (next_id d')
                (if v then c0 d' else Some o) (if v then Some o else c1 d'))
  end.
Definition and_gate (a b : N) : ST State N := emit_ 0 a b.
Definition xor_gate (a b : N) : ST State N := emit_ 1 a b.
Definition not_gate (a : N) : ST State N := emit_ 2 a 0.

#[global] Instance context : BooleanContext State N :=
  Build_BooleanContext State N public_bit and_gate xor_gate not_gate.

Definition mix_gate (h : N) (g : Gate) : N :=
  mix (mix (mix (mix h (op_code (op g))) (in0 g)) (in1 g)) (out g).
Definition digest_program (p : BooleanProgram) : N :=
  foldl mix_gate (mix (mix FNV_OFFSET 14) (Program.num_inputs p)) (gates p).

Definition digest_source {A} (num_inputs : N) (body : list N → Kernel N A) : outcome N :=
  '(base, d) ← external_input num_inputs init;
  '(_, d') ← interp (body (range base num_inputs)) d;
  Ret (digest d').
End DigestCtx.

(** Recording a body: reserve the inputs, run it, finish on its results. *)
Definition record_source (num_inputs : N) (body : list N → Kernel N (list N)) :
    outcome BooleanProgram :=
  '(base, s) ← RecordCtx.external_input num_inputs RecordCtx.init;
  '(outs, s') ← interp (body (range base num_inputs)) s;
  RecordCtx.finish outs s'.

(** ** The two contexts simulate each other *)
Section digest_record.
Import DigestCtx.

Definition same_stream (d : DigestCtx.State) (s : RecordCtx.State) : Prop :=
  digest d = digest_program (RecordCtx.finished [] s) ∧
  next_id d = RecordCtx.next_id s ∧ c0 d = RecordCtx.c0 s ∧ c1 d = RecordCtx.c1 s.

Lemma emit_sim mk o a b d s :
  same_stream d s →
  mk (RecordCtx.next_id s) = MkGate a b (RecordCtx.next_id s) (op_of_code o) →
  (o ≤ 4)%N →
  orel (same_result same_stream) (emit_ o a b d) (RecordCtx.emit mk s).
Proof.
  intros (Hd & Hn & H0 & H1) Hmk Ho. unfold emit_, RecordCtx.emit, RecordCtx.alloc_.
  rewrite Hn. destruct (RecordCtx.next_id s =? UINT32_MAX)%N; simpl; [done|].
  split; [done|]. split_and!; simpl; [|done..].
  unfold digest_program in *. simpl in *. rewrite foldl_app, Hmk. simpl.
  unfold mix_gate at 1. simpl. by rewrite op_code_of_code, Hd.
Qed.

Lemma digest_simulates : Simulates (W := N) same_stream.
Proof.
  split.
  - intros v d s Hs. pose proof Hs as (Hd & Hn & H0 & H1). simpl.
    unfold public_bit, RecordCtx.public_bit.
    replace (if v then c1 d else c0 d) with (if v then RecordCtx.c1 s else RecordCtx.c0 s)
      by (destruct v; congruence).
    destruct (if v then RecordCtx.c1 s else RecordCtx.c0 s) as [w|]; [done|].
    eapply orel_bind; [apply emit_sim; [done|by destruct v|destruct v; lia]|].
    intros [o1 d1] [o2 s2] [Ho (Hd1 & Hn1 & H01 & H11)]. simpl in *. subst o2.
    split; [done|]. split_and!; simpl; [done|done|destruct v; congruence..].
  - intros a b d s Hs. by apply emit_sim.
  - intros a b d s Hs. by apply emit_sim.
  - intros a d s Hs. by apply emit_sim.
Qed.

Lemma external_input_sim n :
  orel (same_result same_stream) (external_input n init)
    (RecordCtx.external_input n RecordCtx.init).
Proof.
  unfold external_input, RecordCtx.external_input. simpl.
  destruct (N.eqb_spec n 0) as [|Hn]; simpl; [done|].
  rewrite N.sub_0_r. destruct (N.leb_spec n UINT32_MAX) as [Hle|]; simpl; [|done].
  split; [done|]. unfold UINT32_MAX in Hle. split_and!; [|done..]. simpl.
  unfold digest_program. simpl. by rewrite !u32_small by (rewrite ?u32_small; lia).
Qed.
End digest_record.

(** the digest of a circuit body streamed through [DigestCtx] is the digest
    of the program [RecordCtx] records from the same body: whenever recording
    succeeds, [digest_source] returns, and equals [digest_program]. *)
Theorem digest_source_program n body p :
  record_source n body = Ret p →
  DigestCtx.digest_source n body = Ret (DigestCtx.digest_program p).
Proof.
  unfold record_source, DigestCtx.digest_source. intros Hp.
  apply bind_Ret in Hp as ([base s] & Hi & ([outs s'] & Hb & Hf)%bind_Ret).
  unfold RecordCtx.finish in Hf. apply bind_Ret in Hf as ([] & _ & [= <-]).
  pose proof (external_input_sim n) as Hsim. rewrite Hi in Hsim.
  destruct (DigestCtx.external_input n DigestCtx.init) as [[base' d]| |]; simpl in Hsim; try done.
  destruct Hsim as [? Hsd]. simpl in *. subst base'.
  pose proof (interp_sim _ digest_simulates (body (range base n)) _ _ Hsd) as Hsim2.
  rewrite Hb in Hsim2. destruct (interp _ d) as [[outs' d']| |]; simpl in Hsim2; try done.
  destruct Hsim2 as [_ (Hd & _)]. simpl in *. by rewrite Hd.
Qed.

(** ** What a recorded body computes *)

(** A kernel body that is one template for all wire types. *)
Class Parametric {A : Type → Type} (RA : ∀ W1 W2, wrel W1 W2 → A W1 → A W2 → Prop)
    (body : ∀ W, list W → Kernel W (A W)) : Prop :=
  parametric W1 W2 (R : wrel W1 W2) l1 l2 :
    Forall2 R l1 l2 → krel (RA W1 W2) R (body W1 l1) (body W2 l2).

(** The recorder after [n] inputs. *)
Definition reserved (n : N) : RecordCtx.State :=
  RecordCtx.MkState (MkProgram 0 0 ReuseNone [] []) n n None None false.

Lemma reserved_WF ins : (vlen ins ≤ UINT32_MAX)%N → RecordCtx.WF ins (reserved (vlen ins)).
Proof.
  intros Hn. split; simpl; [|done|done|done]. split; simpl; [|done|done|done].
  unfold vlen; simpl; lia.
Qed.
Lemma reserved_denotes ins :
  Forall2 (RecordCtx.wire_denotes ins (reserved (vlen ins))) (range 0 (vlen ins)) ins.
Proof.
  apply Forall2_lookup. intros k. destruct (range 0 (vlen ins) !! k) as [w|] eqn:Hw.
  - apply range_lookup in Hw as [Hk ->]. unfold vlen in Hk.
    destruct (lookup_lt_is_Some_2 ins k) as [b Hb]; [lia|]. rewrite Hb. constructor.
    exists (init_env ins). split; [done|]. rewrite init_env_lookup.
    by rewrite N.add_0_l, Nat2N.id.
  - apply lookup_ge_None in Hw. rewrite range_length in Hw. unfold vlen in Hw.
    rewrite lookup_ge_None_2 by lia. constructor.
Qed.

Lemma wire_denotes_lt_all ins s ws bs :
  RecordCtx.WF ins s → Forall2 (RecordCtx.wire_denotes ins s) ws bs →
  Forall (λ w, (w < RecordCtx.next_id s)%N) ws.
Proof.
  intros Hs. induction 1; constructor; [|done]. by eapply RecordCtx.wire_denotes_lt.
Qed.

(** What finishing on wires that denote [bs] gives. *)
Lemma finish_ok ins s ws bs :
  RecordCtx.WF ins s → Forall2 (RecordCtx.wire_denotes ins s) ws bs →
  RecordCtx.finish ws s = Ret (RecordCtx.finished ws s) ∧
  wf_program (RecordCtx.finished ws s) ∧ prog_u32 (RecordCtx.finished ws s) ∧
  eval_program (RecordCtx.finished ws s) ins = Some bs.
Proof.
  intros Hs Hd. pose proof (wire_denotes_lt_all _ _ _ _ Hs Hd) as Hlt.
  pose proof (RecordCtx.wf_inv _ _ Hs) as Hinv.
  pose proof (RecordCtx.Inv_wf s ws Hinv Hlt) as Hwf.
  split_and!; [|done|by apply RecordCtx.Inv_u32|].
  - unfold RecordCtx.finish. by rewrite (proj2 (validate_wf _) Hwf).
  - destruct (sem_gates_defined _ Hwf ins (gates (RecordCtx.prog s)) [])
      as (env & Henv & _); [by rewrite app_nil_r|symmetry; apply (RecordCtx.wf_ins _ _ Hs)|].
    unfold eval_program. simpl. rewrite Henv. simpl. apply mapM_Some.
    eapply Forall2_impl; [exact Hd|]. intros w b Hw. by eapply RecordCtx.wire_denotes_env.
Qed.

Lemma record_body_ok n body ws s :
  (n ≤ UINT32_MAX)%N →
  Parametric (A := list) (@RL) body →
  interp (body N (range 0 n)) (reserved n) = Ret (ws, s) →
  ∃ p, RecordCtx.finish ws s = Ret p ∧ num_inputs p = n ∧ wf_program p ∧ prog_u32 p ∧
    (outputs p = ws ∧ wire_reuse p = ReuseNone) ∧
    ∀ ins, vlen ins = n →
      ∃ bs, keval (body bool ins) = Ret bs ∧ eval_program p ins = Some bs.
Proof.
  intros Hn Hpar Hrun.
  assert (∀ ins, vlen ins = n → ∃ bs, keval (body bool ins) = Ret bs ∧
    RecordCtx.WF ins s ∧ Forall2 (RecordCtx.wire_denotes ins s) ws bs) as Hall.
  { intros ins Hins. subst n.
    pose proof (interp_keval (C := RecordCtx.State) (H0 := RecordCtx.lawful ins) RL
      (body N (range 0 (vlen ins))) (body bool ins) (reserved (vlen ins))
      (parametric _ _ _ _ _ (reserved_denotes ins)) (reserved_WF ins Hn)) as Hw.
    unfold wp in Hw. rewrite Hrun in Hw. destruct Hw as (Hwf & _ & bs & Hk & Hd). eauto. }
  exists (RecordCtx.finished ws s).
  destruct (Hall (vmake n false)) as (bs & _ & Hwf & Hd); [apply vlen_vmake|].
  destruct (finish_ok _ _ _ _ Hwf Hd) as (Hf & Hp & Hu & _).
  split_and!; [done| |done|done|done| |].
  - simpl. rewrite (RecordCtx.wf_ins _ _ Hwf). apply vlen_vmake.
  - apply (RecordCtx.wf_inv _ _ Hwf).
  - intros ins Hins. destruct (Hall ins Hins) as (bs' & Hk & Hwf' & Hd').
    exists bs'. split; [done|]. by apply (finish_ok _ _ _ _ Hwf' Hd').
Qed.

(** C2: recording is correct.  When [RecordCtx] records a kernel body, the
    finished program validates, has 32-bit fields, and evaluates on every input
    to the bits the body computes on plaintext. *)
Theorem record_source_correct n body p :
  Parametric (A := list) (@RL) body →
  record_source n (body N) = Ret p →
  num_inputs p = n ∧ wf_program p ∧ prog_u32 p ∧
  ∀ ins, vlen ins = n → ∃ bs, keval (body bool ins) = Ret bs ∧ eval_program p ins = Some bs.
Proof.
  intros Hpar Hp. unfold record_source, RecordCtx.external_input in Hp. simpl in Hp.
  apply bind_Ret in Hp as ([base s0] & Hi & ([ws s] & Hb & Hf)%bind_Ret).
  rewrite !expecting_bind_Ret in Hi. destruct Hi as (Hz & Hle & _ & [= <- <-]).
  bool_arith. unfold UINT32_MAX in Hle.
  rewrite !(u32_small (0 + _)), !u32_small in Hb by (rewrite ?u32_small; lia).
  rewrite ?N.add_0_l in Hb.
  destruct (record_body_ok n body ws s) as (p' & Hf' & ? & ? & ? & _ & HQ); [unfold UINT32_MAX; lia|done|done|].
  rewrite Hf in Hf'. by injection Hf' as <-.
Qed.

(** A small body: [c = a & b; c ^ a]. *)
Definition sample_body W (l : list W) : Kernel W (list W) :=
  match l with
  | [a; b] => c ← kand a b; d ← kxor c a; mret [d]
  | _ => mret []
  end.
#[global] Instance sample_body_parametric : Parametric (A := list) (@RL) sample_body.
Proof.
  intros W1 W2 R l1 l2 Hl. unfold sample_body.
  destruct Hl as [|a1 a2 l1 l2 Ha [|b1 b2 l1' l2' Hb []]]; kauto; repeat constructor; done.
Qed.
Definition sample_program : BooleanProgram :=
  MkProgram 4 2 ReuseNone [MkGate 0 1 2 And; MkGate 2 0 3 Xor] [3%N].

Lemma digest_source_program_witness :
  DigestCtx.digest_source 2 (sample_body N) = Ret (DigestCtx.digest_program sample_program).
Proof. apply digest_source_program. reflexivity. Defined.
Lemma record_source_correct_witness :
  wf_program sample_program ∧ eval_program sample_program [true; false] = Some [true].
Proof.
  destruct (record_source_correct 2 sample_body sample_program) as (_ & Hwf & _ & Hev);
    [apply _|reflexivity|].
  split; [exact Hwf|]. destruct (Hev [true; false] eq_refl) as (bs & [= <-] & He). exact He.
Defined.
