(* ===== verification/Passes.v ===== *)
(** * Analysis passes (ir/passes.h)

    Counting, liveness, AND-depth scheduling and layout of a dense program.
    Each pass is translated with its per-wire arrays; the theorems say that on
    every well-formed dense program the pass completes and that its arrays hold
    the graph facts they are named after. *)

From S2P Require Import Prelude Program Validate Context Execute.

Definition require_dense (p : BooleanProgram) (who : string) : outcome unit :=
  expecting (bool_decide (wire_reuse p = ReuseNone))
    (who +:+ ": requires a dense (WireReuse::None) program").

(** ** count_pass *)
Record CountStats : Type := MkCountStats {
  num_and : N; num_xor : N; num_not : N; num_const : N;
  num_input_bits : N; num_output_bits : N;
  stat_num_wire : N; stat_num_gate : N }.

(** The counters are [int64_t]; a program in memory has far fewer gates. *)
Definition count_gate (s : CountStats) (g : Gate) : CountStats :=
  let '(MkCountStats a x n c i o w k) := s in
  match op g with
  | And => MkCountStats (a + 1) x n c i o w k
  | Xor => MkCountStats a (x + 1) n c i o w k
  | Not => MkCountStats a x (n + 1) c i o w k
  | Const0 | Const1 => MkCountStats a x n (c + 1) i o w k
  end%N.
Definition count_pass (p : BooleanProgram) : CountStats :=
  foldl count_gate
    (MkCountStats 0 0 0 0 (total_input_bits p) (total_output_bits p) (num_wires p) (num_gate p))
    (gates p).

(** ** liveness_pass: [None] is the source's -1. *)
Record LivenessStats : Type := MkLiveness {
  last_use : list (option N);
  first_def : list (option N) }.

Definition liveness_step (p : BooleanProgram) (s : LivenessStats) (gi : N) :
    outcome LivenessStats :=
  g ← vget (gates p) gi;
  fd ← vset (first_def s) (out g) (Some gi);
  if is_const g then Ret (MkLiveness (last_use s) fd) else
  lu ← vset (last_use s) (in0 g) (Some gi);
  if is_not g then Ret (MkLiveness lu fd) else
  lu' ← vset lu (in1 g) (Some gi);
  Ret (MkLiveness lu' fd).
Definition liveness_pass (p : BooleanProgram) : outcome LivenessStats :=
  require_dense p "liveness_pass";;
  foldO (liveness_step p) (MkLiveness (vmake (num_wires p) None) (vmake (num_wires p) None))
    (range 0 (num_gate p)).

(** ** schedule_pass *)
Definition INT_MAX : N := 2147483647.
(** [1 + x] on a non-negative [int]; overflow is undefined. *)
Definition int_succ (x : N) : outcome N :=
  if (x <? INT_MAX)%N then Ret (x + 1)%N else Undef.

Record LevelInfo : Type := MkLevelInfo { and_gate_indices : list (list N); depth : N }.
Record ScheduleStats : Type := MkSchedule { wire_level : list N; levels : LevelInfo }.

Definition gate_level (wl : list N) (g : Gate) : outcome N :=
  match op g with
  | Const0 | Const1 => Ret 0%N
  | Not => vget wl (in0 g)
  | Xor => a ← vget wl (in0 g); b ← vget wl (in1 g); Ret (N.max a b)
  | And => a ← vget wl (in0 g); b ← vget wl (in1 g); int_succ (N.max a b)
  end.
Definition level_step (p : BooleanProgram) (s : list N * N) (gi : N) : outcome (list N * N) :=
  let '(wl, d) := s in
  g ← vget (gates p) gi;
  lv ← gate_level wl g;
  wl' ← vset wl (out g) lv;
  Ret (wl', N.max d lv).
(** [levels[wire_level[g.out]].push_back(gi)] for the And gates. *)
Definition group_step (p : BooleanProgram) (wl : list N) (lists : list (list N)) (gi : N) :
    outcome (list (list N)) :=
  g ← vget (gates p) gi;
  if is_and g then
    lv ← vget wl (out g);
    l ← vget lists lv;
    vset lists lv (l ++ [gi])
  else Ret lists.
Definition schedule_pass (p : BooleanProgram) : outcome ScheduleStats :=
  require_dense p "schedule_pass";;
  '(wl, d) ← foldO (level_step p) (vmake (num_wires p) 0%N, 0%N) (range 0 (num_gate p));
  d1 ← int_succ d;
  lists ← foldO (group_step p wl) (vmake d1 []) (range 0 (num_gate p));
  Ret (MkSchedule wl (MkLevelInfo lists d)).

(** ** layout_pass *)
Record LayoutStats : Type := MkLayout {
  frees : list (list N);
  reachable_wire : N;
  reachable_gate : N;
  reachable_and : N }.

(** [if (w < num_wires) mark[w] = 1] over the outputs. *)
Definition mark_outputs (p : BooleanProgram) (marks : list bool) : outcome (list bool) :=
  foldO (λ (m : list bool) (w : N), if (w <? num_wires p)%N then vset m w true else Ret m) marks (outputs p).

(** [frees[last_use[w]].push_back(w)] for the wires that are read and not
    [keep]; make_compact has the same loop with its own [keep]. *)
Definition frees_step (last_use : list (option N)) (keep : list bool)
    (fr : list (list N)) (w : N) : outcome (list (list N)) :=
  lu ← vget last_use w;
  match lu with
  | None => Ret fr
  | Some gi =>
      k ← vget keep w;
      if (k : bool) then Ret fr else
      l ← vget fr gi; vset fr gi (l ++ [w])
  end.

(** [visit]: mark and push a wire once.  The stack's top is its head. *)
Definition visit (s : list bool * list N) (v : N) : outcome (list bool * list N) :=
  let '(reach, stack) := s in
  r ← vget reach v;
  if (r : bool) then Ret (reach, stack) else
  reach' ← vset reach v true; Ret (reach', v :: stack).
(** One turn of the worklist loop on the popped wire [w]. *)
Definition reach_step (p : BooleanProgram) (live : LivenessStats) (w : N)
    (s : list bool * list N) : outcome (list bool * list N) :=
  pg ← vget (first_def live) w;
  match pg with
  | None => Ret s
  | Some gi =>
      g ← vget (gates p) gi;
      s ← visit s (in0 g);
      if is_not g || is_const g then Ret s else visit s (in1 g)
  end.
(** [while (!stack.empty())]; [None] when the fuel runs out. *)
Fixpoint reach_loop (fuel : nat) (p : BooleanProgram) (live : LivenessStats)
    (s : list bool * list N) : option (outcome (list bool)) :=
  match fuel, s with
  | _, (reach, []) => Some (Ret reach)
  | O, _ => None
  | S fuel, (reach, w :: stack) =>
      match reach_step p live w (reach, stack) with
      | Ret s' => reach_loop fuel p live s'
      | Fatal msg => Some (Fatal msg)
      | Undef => Some Undef
      end
  end.
(** Each turn pops one wire and a wire is pushed once, so [num_wires] turns
    are enough ([reach_loop_spec]). *)
Definition reach_fuel (p : BooleanProgram) : nat := N.to_nat (num_wires p).

Definition count_reached (p : BooleanProgram) (reach : list bool) (s : N * N) (g : Gate) :
    outcome (N * N) :=
  let '(rg, ra) := s in
  r ← vget reach (out g);
  if (r : bool) then Ret (rg + 1, if is_and g then ra + 1 else ra)%N else Ret (rg, ra).

Definition seed_reach (p : BooleanProgram) : outcome (list bool * list N) :=
  foldO (λ (s : list bool * list N) (w : N), if (w <? num_wires p)%N then visit s w else Ret s)
    (vmake (num_wires p) false, []) (outputs p).

Definition layout_pass (p : BooleanProgram) (live : LivenessStats) : outcome LayoutStats :=
  require_dense p "layout_pass";;
  is_output ← mark_outputs p (vmake (num_wires p) false);
  fr ← foldO (frees_step (last_use live) is_output) (vmake (num_gate p) []) (range 0 (num_wires p));
  s ← seed_reach p;
  match reach_loop (reach_fuel p) p live s with
  | None => Undef
  | Some m =>
      reach ← m;
      '(rg, ra) ← foldO (count_reached p reach) (0%N, 0%N) (gates p);
      Ret (MkLayout fr (vlen (filter (λ b : bool, b = true) reach)) rg ra)
  end.

(** ** What the passes compute *)

(** [o] is the index of the last gate that reads [w]. *)
Definition is_last_read (gs : list Gate) (w : N) (o : option N) : Prop :=
  match o with
  | None => ∀ g, g ∈ gs → w ∉ reads g
  | Some i => (∃ g, gs !! N.to_nat i = Some g ∧ w ∈ reads g) ∧
      ∀ k g, gs !! k = Some g → w ∈ reads g → (k ≤ N.to_nat i)%nat
  end.
(** [o] is the index of the gate that defines [w]. *)
Definition is_def (gs : list Gate) (w : N) (o : option N) : Prop :=
  match o with
  | None => w ∉ out <$> gs
  | Some i => ∃ g, gs !! N.to_nat i = Some g ∧ out g = w
  end.

Lemma lookup_here {A} (l : list A) x : (l ++ [x]) !! N.to_nat (vlen l) = Some x.
Proof. unfold vlen. rewrite Nat2N.id. by apply list_lookup_middle. Qed.
Lemma is_last_read_here gs g w :
  w ∈ reads g → is_last_read (gs ++ [g]) w (Some (vlen gs)).
Proof.
  intros Hr. split; [exists g; by rewrite lookup_here|].
  intros k g' Hk _. apply lookup_lt_Some in Hk. rewrite length_app in Hk. unfold vlen.
  simpl in Hk. lia.
Qed.
Lemma is_last_read_keep gs g w o :
  w ∉ reads g → is_last_read gs w o → is_last_read (gs ++ [g]) w o.
Proof.
  intros Hr Ho. destruct o as [i|]; simpl in *.
  - destruct Ho as [(g' & Hg' & Hr') Hmax]. split.
    + exists g'. split; [by apply lookup_app_l_Some|done].
    + intros k g2 [Hk|[_ Hk]]%lookup_app_Some Hr2; [by eapply Hmax|].
      apply list_lookup_singleton_Some in Hk as [_ <-]. done.
  - intros g' [Hg'|Hg']%elem_of_app; [by apply Ho|]. set_solver.
Qed.
Lemma is_def_here gs g : is_def (gs ++ [g]) (out g) (Some (vlen gs)).
Proof. exists g. by rewrite lookup_here. Qed.
Lemma is_def_keep gs g w o : w ≠ out g → is_def gs w o → is_def (gs ++ [g]) w o.
Proof.
  intros Hne Ho. destruct o as [i|]; simpl in *.
  - destruct Ho as (g' & Hg' & <-). exists g'. split; [by apply lookup_app_l_Some|done].
  - rewrite fmap_app. set_solver.
Qed.

(** The level of a wire is the largest number of And gates on a path to it. *)
Inductive and_path (gs : list Gate) : N → nat → Prop :=
  | path_start w : and_path gs w 0
  | path_step g w n : g ∈ gs → w ∈ reads g → and_path gs w n →
      and_path gs (out g) (if is_and g then S n else n).

Section dense.
Context (p : BooleanProgram) (Hwf : wf_program p).
Context (Hdense : wire_reuse p = ReuseNone) (Hsmall : (num_wires p < 2 ^ 32)%N).

Lemma dense_count : num_wires p = (num_inputs p + vlen (gates p))%N.
Proof. pose proof (wf_count _ Hwf) as H. by rewrite Hdense in H. Qed.
Lemma num_gate_dense : num_gate p = vlen (gates p).
Proof. unfold num_gate. pose proof dense_count. apply u32_small. lia. Qed.
Lemma require_dense_ok who : require_dense p who = Ret tt.
Proof. unfold require_dense. by rewrite bool_decide_eq_true_2. Qed.

Lemma gate_at don g todo :
  gates p = don ++ g :: todo → vget (gates p) (vlen don) = Ret g.
Proof. intros ->. apply vget_middle. Qed.
Lemma gate_out_lt don g todo : gates p = don ++ g :: todo → (out g < num_wires p)%N.
Proof. intros Hg. by destruct (wf_gates _ Hwf _ _ _ Hg) as [_ _ [_ ?] _]. Qed.
Lemma gate_reads_lt don g todo w :
  gates p = don ++ g :: todo → w ∈ reads g → (w < num_wires p)%N.
Proof. intros Hg Hw. destruct (wf_gates _ Hwf _ _ _ Hg) as [_ Hr _ _]. by apply Hr. Qed.

(** *** Liveness *)
Definition liveness_spec (gs : list Gate) (s : LivenessStats) : Prop :=
  vspec (num_wires p) (is_last_read gs) (last_use s) ∧
  vspec (num_wires p) (is_def gs) (first_def s).

(** Writing index [vlen don] for the operand [w] of the gate [g]. *)
Definition lu_spec don (g : Gate) (seen : list N) : list (option N) → Prop :=
  vspec (num_wires p) (λ v o, if decide (v ∈ seen) then o = Some (vlen don)
                              else is_last_read don v o).
Lemma lu_spec_set don g seen w lu :
  (w < num_wires p)%N → lu_spec don g seen lu →
  ∃ lu', vset lu w (Some (vlen don)) = Ret lu' ∧ lu_spec don g (w :: seen) lu'.
Proof.
  intros Hw Hlu. eapply vspec_set; [exact Hlu|done| |].
  - by rewrite decide_True by set_solver.
  - simpl. intros v o _ Hne Hv. repeat case_decide; try done; set_solver.
Qed.
Lemma lu_spec_done don g seen lu :
  (∀ w, w ∈ seen ↔ w ∈ reads g) → lu_spec don g seen lu →
  vspec (num_wires p) (is_last_read (don ++ [g])) lu.
Proof.
  intros Hiff Hlu. eapply vspec_impl; [exact Hlu|]. simpl. intros w o _ Ho.
  case_decide as Hin; [subst; by apply is_last_read_here, Hiff|].
  apply is_last_read_keep; [by rewrite <- Hiff|done].
Qed.

Lemma liveness_step_ok don g todo s :
  gates p = don ++ g :: todo → liveness_spec don s →
  ∃ s', liveness_step p s (vlen don) = Ret s' ∧ liveness_spec (don ++ [g]) s'.
Proof.
  intros Hg [Hlu Hfd]. unfold liveness_step. rewrite (gate_at _ _ _ Hg). simpl.
  destruct (vspec_set _ _ (is_def (don ++ [g])) _ (out g) (Some (vlen don)) Hfd)
    as (fd & -> & Hfd'); [by eapply gate_out_lt|apply is_def_here|
      intros; by apply is_def_keep|].
  assert (lu_spec don g [] (last_use s)) as Hlu0.
  { eapply vspec_impl; [exact Hlu|]. intros. rewrite decide_False by set_solver. done. }
  pose proof (λ w, gate_reads_lt don g todo w Hg) as Hlt.
  simpl. unfold is_const, is_not, reads in *. destruct (op g) eqn:Hop.
  1-2: destruct (lu_spec_set don g [] (in0 g) _ ltac:(apply Hlt; set_solver) Hlu0)
      as (lu1 & -> & Hlu1); simpl;
    destruct (lu_spec_set don g _ (in1 g) _ ltac:(apply Hlt; set_solver) Hlu1)
      as (lu2 & -> & Hlu2); simpl; eexists; (split; [done|]); split; [|done];
    eapply lu_spec_done; [|exact Hlu2]; unfold reads; rewrite Hop; set_solver.
  - destruct (lu_spec_set don g [] (in0 g) _ ltac:(apply Hlt; set_solver) Hlu0)
      as (lu1 & -> & Hlu1). simpl. eexists. split; [done|]. split; [|done].
    eapply lu_spec_done; [|exact Hlu1]. unfold reads. rewrite Hop. set_solver.
  - eexists. split; [done|]. split; [|done]. eapply lu_spec_done; [|exact Hlu0].
    unfold reads. by rewrite Hop.
  - eexists. split; [done|]. split; [|done]. eapply lu_spec_done; [|exact Hlu0].
    unfold reads. by rewrite Hop.
Qed.
Lemma liveness_pass_ok : ∃ s, liveness_pass p = Ret s ∧ liveness_spec (gates p) s.
Proof.
  unfold liveness_pass. rewrite require_dense_ok, num_gate_dense. simpl.
  apply foldO_index_inv; [|apply liveness_step_ok].
  split; apply vspec_make; simpl; [by intros w _ g ?%elem_of_nil|by intros w _ ?%elem_of_nil].
Qed.

(** *** AND-depth *)
Definition level_of (gs : list Gate) (w : N) (lv : N) : Prop :=
  and_path gs w (N.to_nat lv) ∧ ∀ n, and_path gs w n → (n ≤ N.to_nat lv)%nat.

Lemma and_path_mono gs gs' w n : gs ⊆ gs' → and_path gs w n → and_path gs' w n.
Proof. intros Hs. induction 1; [constructor|]. eapply path_step; eauto. Qed.

(** No gate reads the wire of a later one. *)
Lemma dense_fresh don g todo :
  gates p = don ++ g :: todo → ∀ g' r, g' ∈ don ++ [g] → r ∈ reads g' → r ≠ out g.
Proof.
  clear Hsmall. intros Hg. destruct (wf_gates _ Hwf _ _ _ Hg) as [_ Hr Ho Hn]. specialize (Hn Hdense).
  intros g' r [Hg'|Hg']%elem_of_app Hrr ->.
  - apply list_elem_of_split in Hg' as (l1 & l2 & ->).
    rewrite <- app_assoc in Hg. destruct (wf_gates _ Hwf _ _ _ Hg) as [_ Hr' _ _].
    destruct (Hr' _ Hrr) as [_ [?|Hd]]; [lia|]. apply Hn. rewrite fmap_app. set_solver.
  - apply list_elem_of_singleton in Hg' as ->. destruct (Hr _ Hrr) as [_ [?|?]]; [lia|done].
Qed.

(** A later gate does not change the paths of the wires before it. *)
Lemma and_path_snoc don g todo w n :
  gates p = don ++ g :: todo → and_path (don ++ [g]) w n →
  (w ≠ out g → and_path don w n) ∧
  (w = out g → n = 0%nat ∨ ∃ r m, r ∈ reads g ∧ and_path don r m ∧
     n = if is_and g then S m else m).
Proof.
  intros Hg Hp. destruct (wf_gates _ Hwf _ _ _ Hg) as [_ Hr Ho Hn].
  specialize (Hn Hdense).
  pose proof (dense_fresh _ _ _ Hg) as Hfresh.
  induction Hp as [w|g' r n Hg' Hrr Hp [IH _]].
  - split; [intros; constructor|by left].
  - specialize (IH (Hfresh _ _ Hg' Hrr)). apply elem_of_app in Hg' as [Hg'|Hg'].
    + split; [by intros _; eapply path_step|]. intros Heq. destruct Hn. rewrite <- Heq.
      apply list_elem_of_fmap. eauto.
    + apply list_elem_of_singleton in Hg' as ->. split; [done|]. eauto 6.
Qed.

(** The largest level among the operands, plus one for an And. *)
Lemma level_of_snoc don g todo lv :
  gates p = don ++ g :: todo →
  (∀ r n, r ∈ reads g → and_path don r n → (if is_and g then S n else n) ≤ N.to_nat lv)%nat →
  (lv = 0%N ∨ ∃ r m, r ∈ reads g ∧ and_path don r m ∧
     N.to_nat lv = if is_and g then S m else m) →
  level_of (don ++ [g]) (out g) lv.
Proof.
  intros Hg Hub Hex. split.
  - destruct Hex as [->|(r & m & Hr & Hp & ->)]; [constructor|]. eapply path_step; [set_solver|done|].
    eapply and_path_mono; [|done]. set_solver.
  - intros n Hn. apply (and_path_snoc _ _ todo) in Hn as [_ Hn]; [|done].
    destruct (Hn eq_refl) as [->|(r & m & Hr & Hp & ->)]; [lia|]. by eapply Hub.
Qed.
Lemma level_of_keep don g todo w lv :
  gates p = don ++ g :: todo → w ≠ out g → level_of don w lv → level_of (don ++ [g]) w lv.
Proof.
  intros Hg Hne [Hp Hub]. split; [eapply and_path_mono; [|done]; set_solver|].
  intros n Hn. apply (and_path_snoc _ _ todo) in Hn as [Hn _]; [|done]. auto.
Qed.

Definition levels_spec (gs : list Gate) (wl : list N) : Prop :=
  vspec (num_wires p) (λ w lv, level_of gs w lv ∧ (lv ≤ vlen gs)%N) wl.
Definition depth_spec (gs : list Gate) (d : N) : Prop :=
  (∀ w n, and_path gs w n → (n ≤ N.to_nat d)%nat) ∧
  (∃ w, and_path gs w (N.to_nat d)) ∧ (d ≤ vlen gs)%N.

Lemma gate_level_ok don g todo wl :
  gates p = don ++ g :: todo → (vlen (gates p) < INT_MAX)%N → levels_spec don wl →
  ∃ lv, gate_level wl g = Ret lv ∧ level_of (don ++ [g]) (out g) lv ∧
    (lv ≤ vlen (don ++ [g]))%N.
Proof.
  intros Hg Hint Hwl.
  assert (∀ w, w ∈ reads g → ∃ lv, vget wl w = Ret lv ∧ level_of don w lv ∧
    (lv ≤ vlen don)%N) as Hget.
  { intros w Hw. apply (vspec_get _ _ _ _ Hwl). by eapply gate_reads_lt. }
  pose proof (λ lv, level_of_snoc don g todo lv Hg) as Hlv.
  assert (vlen don < INT_MAX)%N as Hdon by (rewrite Hg in Hint; unfold vlen in *;
    rewrite length_app in Hint; lia).
  rewrite vlen_app. revert Hlv Hget. unfold gate_level, reads, is_and.
  destruct (op g); intros Hlv Hget; simpl in Hlv.
  - destruct (Hget (in0 g)) as (a & -> & [Ha Hau] & Hal); [set_solver|].
    destruct (Hget (in1 g)) as (b & -> & [Hb Hbu] & Hbl); [set_solver|]. simpl.
    unfold int_succ. destruct (N.ltb_spec (N.max a b) INT_MAX); [|lia].
    eexists. split; [done|]. split; [|unfold vlen at 2; simpl; lia]. apply Hlv.
    + set_unfold. intros r n [->|[->|[]]] Hn; [apply Hau in Hn|apply Hbu in Hn]; lia.
    + right. destruct (N.max_spec a b) as [[_ ->]|[_ ->]];
        [exists (in1 g), (N.to_nat b)|exists (in0 g), (N.to_nat a)];
        (split; [set_solver|]); (split; [done|lia]).
  - destruct (Hget (in0 g)) as (a & -> & [Ha Hau] & Hal); [set_solver|].
    destruct (Hget (in1 g)) as (b & -> & [Hb Hbu] & Hbl); [set_solver|]. simpl.
    eexists. split; [done|]. split; [|lia]. apply Hlv.
    + set_unfold. intros r n [->|[->|[]]] Hn; [apply Hau in Hn|apply Hbu in Hn]; lia.
    + right. destruct (N.max_spec a b) as [[_ ->]|[_ ->]];
        [exists (in1 g), (N.to_nat b)|exists (in0 g), (N.to_nat a)];
        (split; [set_solver|]); (split; [done|lia]).
  - destruct (Hget (in0 g)) as (a & -> & [Ha Hau] & Hal); [set_solver|].
    eexists. split; [done|]. split; [|lia]. apply Hlv.
    + set_unfold. intros r n [->|[]] Hn. by apply Hau.
    + right. eexists _, _. split; [|split; [exact Ha|lia]]. set_solver.
  - eexists. split; [done|]. split; [|lia]. apply Hlv; [set_solver|by left].
  - eexists. split; [done|]. split; [|lia]. apply Hlv; [set_solver|by left].
Qed.

Lemma level_step_ok don g todo s :
  gates p = don ++ g :: todo → (vlen (gates p) < INT_MAX)%N →
  levels_spec don s.1 ∧ depth_spec don s.2 →
  ∃ s', level_step p s (vlen don) = Ret s' ∧
    levels_spec (don ++ [g]) s'.1 ∧ depth_spec (don ++ [g]) s'.2.
Proof.
  destruct s as [wl d]. simpl. intros Hg Hint [Hwl (Hub & (w0 & Hw0) & Hd)].
  rewrite (gate_at _ _ _ Hg). simpl.
  destruct (gate_level_ok _ _ _ _ Hg Hint Hwl) as (lv & -> & Hlv & Hle). simpl.
  destruct (vspec_set _ _ (λ w lv, level_of (don ++ [g]) w lv ∧ (lv ≤ vlen (don ++ [g]))%N)
    _ (out g) lv Hwl) as (wl' & -> & Hwl'); [by eapply gate_out_lt|done| |].
  { intros w lv' _ Hne [Hl ?]. split; [by eapply level_of_keep|]. rewrite vlen_app. lia. }
  simpl. eexists. split; [done|]. split; [done|]. simpl. destruct Hlv as [Hp Hmax]. split_and!.
  - intros w n Hn. destruct (decide (w = out g)) as [->|Hne]; [apply Hmax in Hn; lia|].
    apply (and_path_snoc _ _ todo) in Hn as [Hn _]; [|done]. apply Hub in Hn; [lia|done].
  - destruct (N.max_spec d lv) as [[_ ->]|[_ ->]]; [by exists (out g)|exists w0].
    eapply and_path_mono; [|done]. set_solver.
  - rewrite vlen_app in *. lia.
Qed.

(** The gates of level [lv] with property [f] among the first [n] gates, in
    order, and the loop that groups them. *)
Definition sel_at (f : Gate → bool) (wl : list N) (lv gi : N) : bool :=
  match gates p !! N.to_nat gi with
  | Some g => f g && bool_decide (wl !! N.to_nat (out g) = Some lv)
  | None => false
  end.
Definition sels_at (f : Gate → bool) (wl : list N) (lv n : N) : list N :=
  filter (λ gi, sel_at f wl lv gi = true) (range 0 n).
Definition group_by (f : Gate → bool) (wl : list N) (lists : list (list N)) (gi : N) :
    outcome (list (list N)) :=
  g ← vget (gates p) gi;
  if f g then
    lv ← vget wl (out g);
    l ← vget lists lv;
    vset lists lv (l ++ [gi])
  else Ret lists.
Lemma sels_at_succ f wl lv don g todo :
  gates p = don ++ g :: todo →
  sels_at f wl lv (vlen (don ++ [g])) = sels_at f wl lv (vlen don) ++
    (if f g && bool_decide (wl !! N.to_nat (out g) = Some lv) then [vlen don] else []).
Proof.
  intros Hg. pose proof (gate_at _ _ _ Hg) as Hat. apply vget_Ret in Hat.
  assert (sel_at f wl lv (vlen don) =
    f g && bool_decide (wl !! N.to_nat (out g) = Some lv)) as Hval
    by (unfold sel_at; by rewrite Hat).
  unfold sels_at. rewrite vlen_app. change (vlen [g]) with 1%N.
  rewrite range_succ, filter_app. f_equal. rewrite filter_cons, filter_nil, N.add_0_l, Hval.
  destruct (f g && _); [by rewrite decide_True|by rewrite decide_False].
Qed.

Lemma group_ok f wl d :
  levels_spec (gates p) wl → depth_spec (gates p) d → (d < INT_MAX)%N →
  ∃ lists, foldO (group_by f wl) (vmake (d + 1) []) (range 0 (vlen (gates p))) = Ret lists ∧
    vspec (d + 1) (λ lv l, l = sels_at f wl lv (vlen (gates p))) lists.
Proof.
  clear Hsmall. intros Hwl [Hub _] Hd. apply (foldO_index_inv (group_by f wl) (gates p)
    (λ don, vspec (d + 1) (λ lv l, l = sels_at f wl lv (vlen don)))).
  { by apply vspec_make. }
  intros don g todo lists Hg Hl. unfold group_by. rewrite (gate_at _ _ _ Hg). simpl.
  assert (∀ lv, bool_decide (wl !! N.to_nat (out g) = Some lv) = true ∧ f g = true ∨
    sels_at f wl lv (vlen (don ++ [g])) = sels_at f wl lv (vlen don)) as Hnone.
  { intros lv. rewrite (sels_at_succ _ _ _ _ _ _ Hg). destruct (f g), (bool_decide _);
      rewrite ?app_nil_r; auto. }
  destruct (f g) eqn:Ha.
  2:{ eexists. split; [done|]. eapply vspec_impl; [exact Hl|]. simpl. intros lv l _ ->.
      destruct (Hnone lv) as [[_ ?]|?]; done. }
  destruct (vspec_get _ _ _ (out g) Hwl) as (lv & Hv & [Hp _] & _);
    [by eapply gate_out_lt|]. rewrite Hv. apply vget_Ret in Hv. simpl.
  assert (lv < d + 1)%N as Hlt by (apply Hub in Hp; lia).
  destruct (vspec_get _ _ _ lv Hl Hlt) as (l & -> & ->). simpl.
  eapply vspec_set; [exact Hl|done| |].
  - rewrite (sels_at_succ _ _ _ _ _ _ Hg), Ha, bool_decide_eq_true_2 by done. done.
  - simpl. intros lv' l _ Hne ->. destruct (Hnone lv') as [[Hb _]|?]; [|done].
    apply bool_decide_eq_true in Hb. congruence.
Qed.
(** The And gates of level [lv]. *)
Definition ands_at : list N → N → N → list N := sels_at is_and.

Lemma schedule_pass_ok :
  (vlen (gates p) < INT_MAX)%N →
  ∃ wl lists d, schedule_pass p = Ret (MkSchedule wl (MkLevelInfo lists d)) ∧
    levels_spec (gates p) wl ∧ depth_spec (gates p) d ∧
    vspec (d + 1) (λ lv l, l = ands_at wl lv (vlen (gates p))) lists.
Proof.
  intros Hint. unfold schedule_pass. rewrite require_dense_ok, num_gate_dense. simpl.
  destruct (foldO_index_inv (level_step p) (gates p)
    (λ don s, levels_spec don s.1 ∧ depth_spec don s.2) (vmake (num_wires p) 0%N, 0%N))
    as ([wl d] & -> & Hwl & Hd).
  - assert (∀ w n, and_path [] w n → n = 0%nat) as H0.
    { intros w n []; [done|]. by exfalso; eapply not_elem_of_nil. }
    split; simpl.
    + apply vspec_make. intros w _. split; [|done]. split; [constructor|]. by intros n ->%H0.
    + split; [by intros w n ->%H0|]. split; [exists 0%N; constructor|done].
  - intros. by eapply level_step_ok.
  - simpl in *. pose proof Hd as (_ & _ & Hle). unfold int_succ.
    destruct (N.ltb_spec d INT_MAX); [|lia]. simpl.
    destruct (group_ok is_and wl d Hwl Hd) as (lists & Hg & Hl); [done|].
    change (group_by is_and wl) with (group_step p wl) in Hg. rewrite Hg. simpl. eauto 10.
Qed.
End dense.

(** *** The frees lists *)
Section frees.
Context (NW ng : N) (lu : list (option N)) (keep : list bool).
Context (P : N → option N → Prop) (Q : N → bool → Prop).
Context (Hlu : vspec NW P lu) (Hkeep : vspec NW Q keep).
Context (Hng : ∀ w gi, P w (Some gi) → (gi < ng)%N).

(** List [l] of gate [gi] when the wires below [n] were visited. *)
Definition frees_spec (n gi : N) (l : list N) : Prop :=
  NoDup l ∧ ∀ w, w ∈ l ↔ (w < n)%N ∧ vget lu w = Ret (Some gi) ∧ vget keep w = Ret false.

Lemma frees_spec_same n gi l :
  frees_spec n gi l → ¬ (vget lu n = Ret (Some gi) ∧ vget keep n = Ret false) →
  frees_spec (n + 1) gi l.
Proof.
  intros [Hn Hl] Hno. split; [done|]. intros w. rewrite Hl. split; [intros (?&?&?); split; [lia|done]|].
  intros (Hw & ? & ?). split; [|done]. destruct (decide (w = n)) as [->|]; [tauto|lia].
Qed.
Lemma frees_step_ok fr n :
  (n < NW)%N → vspec ng (frees_spec n) fr →
  ∃ fr', frees_step lu keep fr n = Ret fr' ∧ vspec ng (frees_spec (n + 1)) fr'.
Proof.
  intros Hn Hfr. unfold frees_step.
  destruct (vspec_get _ _ _ n Hlu Hn) as (o & Ho & HP). rewrite Ho. simpl.
  destruct o as [gi|].
  2:{ eexists. split; [done|]. eapply vspec_impl; [exact Hfr|]. intros gi l _ Hl.
      apply frees_spec_same; [done|]. rewrite Ho. naive_solver. }
  destruct (vspec_get _ _ _ n Hkeep Hn) as (k & Hk & _). rewrite Hk. simpl. destruct k.
  { eexists. split; [done|]. eapply vspec_impl; [exact Hfr|]. intros gi' l _ Hl.
    apply frees_spec_same; [done|]. rewrite Hk. naive_solver. }
  pose proof (Hng _ _ HP) as Hgi.
  destruct (vspec_get _ _ _ gi Hfr Hgi) as (l & -> & Hnd & Hl). simpl.
  eapply vspec_set; [exact Hfr|done| |].
  - split.
    + apply NoDup_app. split; [done|]. split; [|apply NoDup_singleton].
      intros w Hw ->%list_elem_of_singleton. apply Hl in Hw. lia.
    + intros w. rewrite elem_of_app, Hl, list_elem_of_singleton. split.
      * intros [(?&?&?)| ->]; (split; [lia|done]).
      * intros (? & ? & ?). destruct (decide (w = n)) as [->|]; [by right|left]. split; [lia|done].
  - intros gi' l' _ Hne Hl'. apply frees_spec_same; [done|]. rewrite Ho. intros [[=] _]. done.
Qed.
Lemma frees_ok :
  ∃ fr, foldO (frees_step lu keep) (vmake ng []) (range 0 NW) = Ret fr ∧
    vspec ng (frees_spec NW) fr.
Proof.
  apply (foldO_range_inv (frees_step lu keep) NW (λ n, vspec ng (frees_spec n))).
  - apply vspec_make. intros gi _. split; [constructor|]. intros w. rewrite elem_of_nil.
    split; [done|]. lia.
  - intros n fr. apply frees_step_ok.
Qed.
End frees.

(** *** The reachability worklist *)
#[local] Arguments visit : simpl never.
Section reach.
Context (p : BooleanProgram) (Hwf : wf_program p).
Context (Hdense : wire_reuse p = ReuseNone).
Context (live : LivenessStats) (Hlive : vspec (num_wires p) (is_def (gates p)) (first_def live)).
#[local] Abbreviation NW := (num_wires p).

(** The walk's edges: it follows [in0] of every gate, and [in1] of the
    two-operand gates. *)
Definition walk_edge (w v : N) : Prop :=
  ∃ g, g ∈ gates p ∧ out g = w ∧
    (v = in0 g ∨ (is_not g || is_const g = false ∧ v = in1 g)).
Definition walk_reach (w : N) : Prop := ∃ o, o ∈ outputs p ∧ rtc walk_edge o w.

Definition marked (reach : list bool) (w : N) : Prop := vget reach w = Ret true.
Definition unmarked (reach : list bool) : nat := length (filter (λ b : bool, b = false) reach).

Lemma unmarked_set reach i :
  reach !! i = Some false → S (unmarked (<[i := true]> reach)) = unmarked reach.
Proof.
  unfold unmarked. revert i. induction reach as [|b reach IH]; intros [|i] Hi; simplify_eq/=.
  - done.
  - specialize (IH _ Hi). rewrite !filter_cons. case_decide; simpl; lia.
Qed.

(** The loop invariant, and the measure that [visit] preserves. *)
Record RInv (s : list bool * list N) : Prop := {
  ri_len : vlen s.1 = NW;
  ri_reach : ∀ w, marked s.1 w → walk_reach w;
  ri_stack : ∀ w, w ∈ s.2 → marked s.1 w }.
Definition measure (s : list bool * list N) : nat := (unmarked s.1 + length s.2)%nat.

Lemma visit_ok s v :
  RInv s → (v < NW)%N → walk_reach v →
  ∃ s', visit s v = Ret s' ∧ RInv s' ∧ measure s' = measure s ∧ marked s'.1 v ∧
    (∀ w, marked s.1 w → marked s'.1 w) ∧ (∀ w, w ∈ s.2 → w ∈ s'.2) ∧
    (∀ w, marked s'.1 w → w ∈ s'.2 ∨ marked s.1 w).
Proof.
  destruct s as [reach stack]. intros [Hl Hr Hs] Hv Hw. simpl in *.
  destruct (vget_lt reach v) as [b Hb]; [lia|]. unfold visit. rewrite Hb. simpl. destruct b.
  { eexists. split; [done|]. split; [by split|]. simpl. auto 10. }
  pose proof Hb as Hb'. apply vget_Ret in Hb'. pose proof (lookup_lt_Some _ _ _ Hb') as Hlt.
  rewrite vset_lt by lia. simpl. eexists. split; [done|].
  assert (∀ w, marked (<[N.to_nat v:=true]> reach) w ↔ w = v ∨ marked reach w) as Hm.
  { intros w. unfold marked. rewrite !vget_Ret. destruct (decide (w = v)) as [->|Hne].
    - rewrite list_lookup_insert_eq by done. naive_solver.
    - rewrite list_lookup_insert_ne by lia. naive_solver. }
  split; [split; simpl|simpl; split_and!].
  - by rewrite vlen_insert.
  - intros w [->|?]%Hm; auto.
  - intros w [->|Hin]%elem_of_cons; apply Hm; auto.
  - unfold measure. simpl. pose proof (unmarked_set _ _ Hb'). lia.
  - apply Hm. by left.
  - intros w ?. apply Hm. by right.
  - intros w ?. by apply elem_of_cons; right.
  - intros w [->|?]%Hm; [left; by apply elem_of_cons; left|by right].
Qed.

(** A marked wire off the stack has all its successors marked. *)
Definition closed_off (s : list bool * list N) : Prop :=
  ∀ w v, marked s.1 w → w ∉ s.2 → walk_edge w v → marked s.1 v.

Lemma gate_in g : g ∈ gates p → ∃ don todo, gates p = don ++ g :: todo.
Proof. intros (?&?&?)%list_elem_of_split. eauto. Qed.
Lemma walk_operand_lt g :
  g ∈ gates p → (in0 g < NW)%N ∧ (is_not g || is_const g = false → (in1 g < NW)%N).
Proof.
  intros (don & todo & Hg)%gate_in. destruct (wf_gates _ Hwf _ _ _ Hg) as [Hc Hr Ho _].
  unfold canonical, reads, is_not, is_const in *.
  destruct (op g); simpl; (split; [|try done; intros _]);
    try (apply Hr; set_solver); destruct_and?; lia.
Qed.
Lemma def_unique g g' :
  g ∈ gates p → g' ∈ gates p → out g = out g' → g = g'.
Proof.
  intros [i Hi]%list_elem_of_lookup [j Hj]%list_elem_of_lookup Ho.
  assert (∀ i j g g', gates p !! i = Some g → gates p !! j = Some g' → out g = out g' →
    (j < i)%nat → False) as Hlt.
  { clear -Hwf Hdense. intros i j g g' Hi Hj Ho Hlt. pose proof (list_elem_of_split_length _ _ _ Hi)
      as (l1 & l2 & Hg & Hlen). destruct (wf_gates _ Hwf _ _ _ Hg) as [_ _ _ Hn].
    apply (Hn Hdense). rewrite Ho. apply list_elem_of_fmap. exists g'. split; [done|].
    apply list_elem_of_lookup. exists j. rewrite Hg in Hj. by rewrite lookup_app_l in Hj by lia. }
  destruct (lt_eq_lt_dec i j) as [[?| ->]|?]; [exfalso; eauto|congruence|exfalso; eauto].
Qed.

Lemma reach_step_ok w reach stack :
  RInv (reach, w :: stack) → closed_off (reach, w :: stack) → (w < NW)%N →
  ∃ s', reach_step p live w (reach, stack) = Ret s' ∧ RInv s' ∧ closed_off s' ∧
    S (measure s') = measure (reach, w :: stack) ∧ (∀ v, marked reach v → marked s'.1 v).
Proof.
  intros [Hl Hr Hs] Hcl Hw. simpl in *. unfold reach_step.
  assert (marked reach w) as Hmw by (apply Hs; set_solver).
  assert (RInv (reach, stack)) as Hinv by (split; simpl; auto; intros; apply Hs; set_solver).
  destruct (vspec_get _ _ _ w Hlive Hw) as (o & -> & Hdef). simpl. destruct o as [gi|].
  2:{ eexists. split; [done|]. split; [done|]. split; [|unfold measure; simpl; split; [lia|done]].
      intros x v Hx Hxs He. destruct (decide (x = w)) as [->|Hne].
      - destruct He as (g & Hg & <- & _). destruct Hdef. apply list_elem_of_fmap. eauto.
      - apply (Hcl x v); [done|set_solver|done]. }
  destruct Hdef as (g & Hgi & Ho). assert (g ∈ gates p) as Hg by (apply list_elem_of_lookup; eauto).
  rewrite (proj2 (vget_Ret _ _ _) Hgi). simpl.
  destruct (walk_operand_lt g Hg) as [H0 H1]. apply Hr in Hmw as (o & Hout & Hrtc).
  destruct (visit_ok (reach, stack) (in0 g)) as (s1 & -> & Hi1 & Hm1 & Hv1 & Hk1 & Hst1 & Hb1);
    [done|done|exists o; split; [done|]; eapply rtc_r; [done|]; exists g; auto|].
  simpl in *. destruct (is_not g || is_const g) eqn:Hun.
  - eexists. split; [done|]. split; [done|]. split; [|unfold measure in *; simpl in *; split; [lia|done]].
    intros x v Hx Hxs He. destruct (Hb1 _ Hx) as [?|Hx1]; [done|].
    destruct (decide (x = w)) as [->|Hne].
    + destruct He as (g' & Hg' & Ho' & Hv). assert (g' = g) as -> by (apply def_unique; congruence).
      destruct Hv as [->|[? ->]]; [done|congruence].
    + apply Hk1, (Hcl x v); [done|set_solver|done].
  - destruct (visit_ok s1 (in1 g)) as (s2 & -> & Hi2 & Hm2 & Hv2 & Hk2 & Hst2 & Hb2);
      [done|auto|exists o; split; [done|]; eapply rtc_r; [done|]; exists g; auto|].
    eexists. split; [done|]. split; [done|]. split; [|unfold measure in *; simpl in *; split; [lia|auto]].
    intros x v Hx Hxs He. destruct (Hb2 _ Hx) as [?|Hx1]; [done|].
    destruct (Hb1 _ Hx1) as [?|Hx0]; [destruct Hxs; auto|].
    destruct (decide (x = w)) as [->|Hne].
    + destruct He as (g' & Hg' & Ho' & Hv). assert (g' = g) as -> by (apply def_unique; congruence).
      destruct Hv as [->|[_ ->]]; auto.
    + apply Hk2, Hk1, (Hcl x v); [done|set_solver|done].
Qed.

Lemma reach_loop_ok fuel s :
  RInv s → closed_off s → (measure s ≤ fuel)%nat →
  ∃ reach, reach_loop fuel p live s = Some (Ret reach) ∧ RInv (reach, []) ∧
    closed_off (reach, []) ∧ ∀ v, marked s.1 v → marked reach v.
Proof.
  revert s. induction fuel as [|fuel IH]; intros [reach stack] Hi Hc Hm.
  - destruct stack; [|unfold measure in Hm; simpl in Hm; lia]. simpl. eauto 10.
  - destruct stack as [|w stack]; [simpl; eauto 10|]. simpl.
    assert (w < NW)%N as Hw.
    { pose proof (ri_stack _ Hi w ltac:(set_solver)) as Hmk. simpl in Hmk.
      apply vget_Ret, lookup_lt_Some in Hmk. pose proof (ri_len _ Hi). unfold vlen in *.
      simpl in *. lia. }
    destruct (reach_step_ok w reach stack Hi Hc Hw) as (s' & -> & Hi' & Hc' & Hm' & Hk).
    destruct (IH s' Hi' Hc') as (r & Hrl & Hri & Hrc & Hrk); [lia|].
    exists r. split; [done|]. split; [done|]. split; [done|]. auto.
Qed.
End reach.

(** *** The whole pass *)
Lemma is_last_read_unique gs w o o' : is_last_read gs w o → is_last_read gs w o' → o = o'.
Proof.
  destruct o as [i|], o' as [j|]; simpl; [|..|done].
  - intros [(g & Hg & Hr) Hi] [(g' & Hg' & Hr') Hj].
    specialize (Hi _ _ Hg' Hr'). specialize (Hj _ _ Hg Hr). f_equal. lia.
  - intros [(g & Hg%list_elem_of_lookup_2 & Hr) _] Hno. by destruct (Hno _ Hg).
  - intros Hno [(g & Hg%list_elem_of_lookup_2 & Hr) _]. by destruct (Hno _ Hg).
Qed.

(** [reach] marks exactly the wires the walk reaches from the outputs. *)
Definition reach_spec (p : BooleanProgram) (reach : list bool) : Prop :=
  vlen reach = num_wires p ∧
  ∀ w, (w < num_wires p)%N → (reach !! N.to_nat w = Some true ↔ walk_reach p w).

Section layout.
Context (p : BooleanProgram) (Hwf : wf_program p).
Context (Hdense : wire_reuse p = ReuseNone) (Hsmall : (num_wires p < 2 ^ 32)%N).
Context (live : LivenessStats) (Hlive : liveness_spec p (gates p) live).

Lemma mark_outputs_ok :
  ∃ m, mark_outputs p (vmake (num_wires p) false) = Ret m ∧
    vspec (num_wires p) (λ w b, b = bool_decide (w ∈ outputs p)) m.
Proof.
  refine (foldO_inv _ (outputs p)
    (λ don : list N, vspec (num_wires p) (λ w b, b = bool_decide (w ∈ don))) _ _ _).
  - apply vspec_make. intros. by rewrite bool_decide_eq_false_2 by apply not_elem_of_nil.
  - intros don w todo m Ho Hm. pose proof (wf_outputs _ Hwf) as Hout. rewrite Ho in Hout.
    apply Forall_app in Hout as [_ [[Hw _] _]%Forall_cons]. destruct (N.ltb_spec w (num_wires p)); [|lia].
    eapply vspec_set; [exact Hm|done| |].
    + by rewrite bool_decide_eq_true_2 by set_solver.
    + simpl. intros v b _ Hne ->. apply bool_decide_ext. set_solver.
Qed.

Lemma seed_reach_ok :
  ∃ s, seed_reach p = Ret s ∧ RInv p s ∧ closed_off p s ∧
    (measure s ≤ reach_fuel p)%nat ∧ ∀ o, o ∈ outputs p → marked s.1 o.
Proof.
  destruct (foldO_inv (λ (s : list bool * list N) (w : N),
    if (w <? num_wires p)%N then visit s w else Ret s) (outputs p) (λ don s,
    RInv p s ∧ (∀ w, marked s.1 w → w ∈ s.2) ∧ measure s = reach_fuel p ∧
    ∀ o, o ∈ don → marked s.1 o) (vmake (num_wires p) false, []))
    as (s & Hs & Hi & Hst & Hm & Ho); simpl.
  - assert (∀ w, ¬ marked (vmake (num_wires p) false) w) as Hno.
    { intros w Hw. apply vget_Ret in Hw. apply lookup_replicate in Hw as [[=] _]. }
    split_and!.
    + split; simpl; [by vlen|naive_solver|set_solver].
    + naive_solver.
    + unfold measure, unmarked, reach_fuel, vmake. simpl.
      assert (∀ n, length (filter (λ b : bool, b = false) (replicate n false)) = n) as ->; [|lia].
      induction n as [|n IH]; [done|]. change (replicate (S n) false) with (false :: replicate n false).
      rewrite filter_cons, decide_True by done. simpl. by f_equal.
    + set_solver.
  - intros don w todo s Hout (Hi & Hst & Hm & Ho).
    pose proof (wf_outputs _ Hwf) as Hwo. rewrite Hout in Hwo.
    apply Forall_app in Hwo as [_ [[Hw _] _]%Forall_cons].
    destruct (N.ltb_spec w (num_wires p)); [|lia].
    destruct (visit_ok p s w) as (s' & -> & Hi' & Hm' & Hv & Hk & Hst' & Hb); [done..| |].
    { exists w. split; [rewrite Hout; set_solver|done]. }
    exists s'. split; [done|]. split_and!; [done| |congruence|].
    + intros x Hx. destruct (Hb x Hx); auto.
    + intros o [?| ->%list_elem_of_singleton]%elem_of_app; auto.
  - exists s. split; [done|]. split; [done|]. split; [|split; [lia|done]].
    intros w v Hw Hn. destruct Hn. auto.
Qed.

Lemma reach_ok :
  ∃ s reach, seed_reach p = Ret s ∧ reach_loop (reach_fuel p) p live s = Some (Ret reach) ∧
    reach_spec p reach.
Proof.
  destruct seed_reach_ok as (s & Hs & Hi & Hc & Hm & Ho).
  destruct (reach_loop_ok p Hwf Hdense live (proj2 Hlive) _ s Hi Hc Hm)
    as (reach & Hr & Hri & Hrc & Hk).
  exists s, reach. split; [done|]. split; [done|]. split; [apply Hri|].
  intros w Hw. rewrite <- vget_Ret. split; [apply Hri|]. intros (o & Hout & Hrtc).
  assert (marked reach o) as Hmo by auto. clear Hout. induction Hrtc as [|o v w He _ IH]; [done|].
  apply IH; [done|]. apply (Hrc o v); [done|apply not_elem_of_nil|done].
Qed.

Lemma count_reached_ok reach :
  reach_spec p reach →
  foldO (count_reached p reach) (0%N, 0%N) (gates p) =
    Ret (vlen (filter (λ g, reach !! N.to_nat (out g) = Some true) (gates p)),
         vlen (filter (λ g, is_and g = true ∧ reach !! N.to_nat (out g) = Some true) (gates p))).
Proof.
  intros [Hl Hr]. destruct (foldO_inv (count_reached p reach) (gates p) (λ don s,
    s = (vlen (filter (λ g, reach !! N.to_nat (out g) = Some true) don),
         vlen (filter (λ g, is_and g = true ∧ reach !! N.to_nat (out g) = Some true) don)))
    (0%N, 0%N)) as (s & Hs & ->); [done| |done].
  intros don g todo s Hg ->. simpl.
  destruct (vget_lt reach (out g)) as [b Hb]; [rewrite Hl; by eapply gate_out_lt|].
  rewrite Hb. apply vget_Ret in Hb. simpl.
  rewrite !filter_app, !vlen_app, !filter_cons, !filter_nil.
  destruct b; eexists; (split; [done|]).
  - rewrite decide_True by done. destruct (is_and g).
    + by rewrite decide_True.
    + rewrite decide_False by naive_solver. f_equal; unfold vlen; simpl; lia.
  - rewrite !decide_False by naive_solver. f_equal; unfold vlen; simpl; lia.
Qed.
End layout.

(** ** Counting by replay *)
Definition count_op (f : Gate → bool) (gs : list Gate) : N := vlen (filter (λ g, f g = true) gs).
Definition has_op (o : Op) (gs : list Gate) : bool := existsb (λ g, bool_decide (op g = o)) gs.

Lemma count_op_snoc f gs g :
  count_op f (gs ++ [g]) = (count_op f gs + if f g then 1 else 0)%N.
Proof.
  unfold count_op. rewrite filter_app, vlen_app, filter_cons, filter_nil. by destruct (f g).
Qed.
Lemma has_op_snoc o gs g : has_op o (gs ++ [g]) = has_op o gs || bool_decide (op g = o).
Proof. unfold has_op. rewrite existsb_app. simpl. by rewrite orb_false_r. Qed.
Lemma count_op_le f gs : (count_op f gs ≤ vlen gs)%N.
Proof. unfold count_op, vlen. pose proof (length_filter (λ g, f g = true) gs). lia. Qed.

Lemma count_pass_eq p :
  count_pass p = MkCountStats (count_op is_and (gates p)) (count_op is_xor (gates p))
    (count_op is_not (gates p)) (count_op is_const (gates p))
    (total_input_bits p) (total_output_bits p) (num_wires p) (num_gate p).
Proof.
  unfold count_pass. induction (gates p) as [|g gs IH] using rev_ind; [done|].
  rewrite foldl_app, IH. simpl. rewrite !count_op_snoc.
  destruct g as [i0 i1 o []]; simpl; by rewrite ?N.add_0_r.
Qed.

(** The counters after the gates [gs] were replayed from [CountCtx.init]. *)
Definition count_state (gs : list Gate) : CountCtx.State :=
  CountCtx.MkState (count_op is_and gs) (count_op is_xor gs) (count_op is_not gs)
    ((if has_op Const0 gs then 1 else 0) + (if has_op Const1 gs then 1 else 0))
    (has_op Const0 gs) (has_op Const1 gs).

Lemma count_gate_replay (w : list N) don g :
  (vlen don < 2 ^ 63)%N → (out g < vlen w)%N → (∀ v, v ∈ reads g → (v < vlen w)%N) →
  ∃ w', visit_gate (Bridge CtxReplayAdapter) (w, count_state don) g =
      Ret (w', count_state (don ++ [g])) ∧ vlen w' = vlen w.
Proof.
  intros Hd Ho Hr. exists (<[N.to_nat (out g) := 0%N]> w). split; [|apply vlen_insert].
  pose proof (count_op_le is_and don). pose proof (count_op_le is_xor don).
  pose proof (count_op_le is_not don).
  assert (∀ v, v ∈ reads g → ∃ x, vget w v = Ret x) as Hget by (intros v Hv; by apply vget_lt, Hr).
  unfold count_state. rewrite !count_op_snoc, !has_op_snoc.
  destruct g as [i0 i1 o []]; unfold visit_gate, reads in *; simpl in *.
  - destruct (Hget i0) as [a ->]; [set_solver|]. destruct (Hget i1) as [b ->]; [set_solver|].
    unfold slot_write. simpl. rewrite vset_lt by done. simpl.
    rewrite u64_small, !orb_false_r, ?N.add_0_r by lia. done.
  - destruct (Hget i0) as [a ->]; [set_solver|]. destruct (Hget i1) as [b ->]; [set_solver|].
    unfold slot_write. simpl. rewrite vset_lt by done. simpl.
    rewrite u64_small, !orb_false_r, ?N.add_0_r by lia. done.
  - destruct (Hget i0) as [a ->]; [set_solver|].
    unfold slot_write. simpl. rewrite vset_lt by done. simpl.
    rewrite u64_small, !orb_false_r, ?N.add_0_r by lia. done.
  - unfold slot_write. simpl. rewrite vset_lt by done. simpl.
    destruct (has_op Const0 don), (has_op Const1 don); simpl; by rewrite ?N.add_0_r.
  - unfold slot_write. simpl. rewrite vset_lt by done. simpl.
    destruct (has_op Const0 don), (has_op Const1 don); simpl; by rewrite ?N.add_0_r.
Qed.

(** ** Properties *)

(** [layout_pass] on the result of [liveness_pass]. *)
Definition layout_spec (p : BooleanProgram) (lay : LayoutStats) (reach : list bool) : Prop :=
  length (frees lay) = length (gates p) ∧
  (∀ gi l, frees lay !! gi = Some l → NoDup l ∧ ∀ w, w ∈ l ↔
     (w < num_wires p)%N ∧ is_last_read (gates p) w (Some (N.of_nat gi)) ∧ w ∉ outputs p) ∧
  reach_spec p reach ∧
  reachable_wire lay = vlen (filter (λ b : bool, b = true) reach) ∧
  reachable_gate lay = vlen (filter (λ g, reach !! N.to_nat (out g) = Some true) (gates p)) ∧
  reachable_and lay =
    vlen (filter (λ g, is_and g = true ∧ reach !! N.to_nat (out g) = Some true) (gates p)).
Lemma layout_pass_ok p live : wf_program p → wire_reuse p = ReuseNone → (num_wires p < 2 ^ 32)%N →
  liveness_spec p (gates p) live →
  ∃ lay reach, layout_pass p live = Ret lay ∧ layout_spec p lay reach.
Proof.
  intros Hwf Hd Hs Hlive.
  pose proof Hlive as [Hlu Hfd].
  destruct (mark_outputs_ok p Hwf Hd Hs live Hlive) as (m & Hm & Hmo).
  destruct (frees_ok (num_wires p) (vlen (gates p)) (last_use live) m _ _ Hlu Hmo)
    as (fr & Hfr & Hfrs).
  { intros w gi [(g & Hg%lookup_lt_Some & _) _]. unfold vlen. lia. }
  destruct (reach_ok p Hwf Hd Hs live Hlive) as (s & reach & Hsr & Hrl & Hreach).
  eexists _, reach. split.
  { unfold layout_pass. rewrite require_dense_ok, num_gate_dense, Hm by done. simpl.
    rewrite Hfr. simpl. rewrite Hsr. simpl. rewrite Hrl. simpl.
    erewrite count_reached_ok by done. simpl. done. }
  unfold layout_spec.
  split_and!; simpl; [destruct Hfrs as [Hlen _]; unfold vlen in Hlen; lia| |done..].
  - intros gi l Hl. rewrite <- (Nat2N.id gi) in Hl. pose proof (vspec_lookup _ _ _ _ _ Hfrs Hl) as [Hnd Hin].
    split; [done|]. intros w. rewrite Hin. 
    assert ((w < num_wires p)%N → ∃ o, vget (last_use live) w = Ret o ∧ is_last_read (gates p) w o)
      as Ho by (intros; by apply (vspec_get _ _ _ w Hlu)).
    assert ((w < num_wires p)%N → ∃ b, vget m w = Ret b ∧ b = bool_decide (w ∈ outputs p))
      as Hb by (intros; by apply (vspec_get _ _ _ w Hmo)).
    split.
    + intros (Hw & H1 & H2). destruct (Ho Hw) as (o & Hgo & HP). destruct (Hb Hw) as (b & Hgb & Hbd).
      split; [done|]. rewrite Hgo in H1. injection H1 as ->.
      split; [done|]. rewrite Hgb in H2. injection H2 as ->.
      symmetry in Hbd. by apply bool_decide_eq_false in Hbd.
    + intros (Hw & H1 & H2). destruct (Ho Hw) as (o & Hgo & HP). destruct (Hb Hw) as (b & Hgb & Hbd).
      split; [done|]. split; [rewrite Hgo; f_equal; by eapply is_last_read_unique|].
      rewrite Hgb, Hbd. by rewrite bool_decide_eq_false_2.
Qed.

(** liveness and layout.  On every well-formed dense program both passes
    complete; [last_use] and [first_def] are the index of the last reader and of
    the producer of each wire; the [frees] list of a gate holds, without
    duplicates, exactly the wires whose last read is that gate and that are not
    outputs; and the reachability counts are those of the wires that the walk
    from the outputs reaches, the worklist loop ending within its bound. *)
Theorem layout_pass_correct p :
  wf_program p → wire_reuse p = ReuseNone → (num_wires p < 2 ^ 32)%N →
  ∃ live lay reach,
    liveness_pass p = Ret live ∧ layout_pass p live = Ret lay ∧
    (∀ w, (w < num_wires p)%N → ∃ lu fd,
       last_use live !! N.to_nat w = Some lu ∧ is_last_read (gates p) w lu ∧
       first_def live !! N.to_nat w = Some fd ∧ is_def (gates p) w fd) ∧
    length (frees lay) = length (gates p) ∧
    (∀ gi l, frees lay !! gi = Some l → NoDup l ∧ ∀ w, w ∈ l ↔
       (w < num_wires p)%N ∧ is_last_read (gates p) w (Some (N.of_nat gi)) ∧ w ∉ outputs p) ∧
    reach_spec p reach ∧
    reachable_wire lay = vlen (filter (λ b : bool, b = true) reach) ∧
    reachable_gate lay = vlen (filter (λ g, reach !! N.to_nat (out g) = Some true) (gates p)) ∧
    reachable_and lay =
      vlen (filter (λ g, is_and g = true ∧ reach !! N.to_nat (out g) = Some true) (gates p)).
Proof.
  intros Hwf Hd Hs. destruct (liveness_pass_ok p Hwf Hd Hs) as (live & Hlp & Hlive).
  destruct (layout_pass_ok p live Hwf Hd Hs Hlive) as (lay & reach & Hlay & Hspec).
  exists live, lay, reach. split; [done|]. split; [done|]. split; [|done].
  destruct Hlive as [Hlu Hfd].
  intros w Hw. destruct (vspec_get _ _ _ w Hlu Hw) as (lu & ?%vget_Ret & ?).
  destruct (vspec_get _ _ _ w Hfd Hw) as (fd & ?%vget_Ret & ?). eauto 10.
Qed.

(** AND-depth scheduling.  On every well-formed dense program with fewer
    than 2^31 - 1 gates, [schedule_pass] completes without [int] overflow; a
    wire's level is the largest number of And gates on a path to it; [depth] is
    the largest level; and list [l] of [and_gate_indices] holds, in order, the
    And gates of level [l]. *)
Theorem schedule_pass_correct p :
  wf_program p → wire_reuse p = ReuseNone → (num_wires p < 2 ^ 32)%N →
  (vlen (gates p) < INT_MAX)%N →
  ∃ s, schedule_pass p = Ret s ∧
    (∀ w lv, wire_level s !! N.to_nat w = Some lv → level_of (gates p) w lv) ∧
    (∀ w n, and_path (gates p) w n → (n ≤ N.to_nat (depth (levels s)))%nat) ∧
    (∃ w, and_path (gates p) w (N.to_nat (depth (levels s)))) ∧
    vlen (and_gate_indices (levels s)) = (depth (levels s) + 1)%N ∧
    ∀ lv l, and_gate_indices (levels s) !! N.to_nat lv = Some l →
      l = ands_at p (wire_level s) lv (vlen (gates p)).
Proof.
  intros Hwf Hd Hs Hi.
  destruct (schedule_pass_ok p Hwf Hd Hs Hi) as (wl & lists & d & Hsp & Hwl & (Hub & Hex & _) & Hl).
  eexists. split; [exact Hsp|]. simpl. split_and!; [|done..|apply Hl|].
  - intros w lv Hw. by apply (vspec_lookup _ _ _ _ _ Hwl) in Hw as [? _].
  - intros lv l Hlv. by apply (vspec_lookup _ _ _ _ _ Hl) in Hlv.
Qed.

(** The walk enters wire 0 from every constant gate (its unused [in0] is 0), so
    the output-rooted counts can include a wire and a gate that no output
    depends on: here gate 0, although the only output is gate 1's constant. *)
Definition const_walk_program : BooleanProgram :=
  MkProgram 2 0 ReuseNone [MkGate 0 0 0 Const0; MkGate 0 0 1 Const1] [1%N].
Lemma layout_pass_const_overcount :
  ∃ live lay, liveness_pass const_walk_program = Ret live ∧
    layout_pass const_walk_program live = Ret lay ∧
    reachable_gate lay = 2%N ∧
    ∀ g w, g ∈ gates const_walk_program → w ∉ reads g.
Proof.
  eexists _, _. split; [vm_compute; reflexivity|]. split; [vm_compute; reflexivity|].
  split; [done|]. intros g w [->|[->|[]%elem_of_nil]%elem_of_cons]%elem_of_cons; apply not_elem_of_nil.
Qed.

(** [CountCtx] and [count_pass] agree.  Replaying any well-formed program
    through [CountCtx] succeeds and leaves the counts of [count_pass], except
    that each of the two constants is counted once; and [count_pass] classifies
    every gate exactly once. *)
Theorem count_pass_replay p (ins : list N) :
  wf_program p → vlen ins = num_inputs p → (vlen (gates p) < 2 ^ 63)%N →
  let st := count_pass p in
  (∃ outs c, execute_program p ins CountCtx.init = Ret (outs, c) ∧
     CountCtx.ands c = num_and st ∧ CountCtx.xors c = num_xor st ∧
     CountCtx.nots c = num_not st ∧
     CountCtx.consts c = ((if has_op Const0 (gates p) then 1 else 0) +
                          (if has_op Const1 (gates p) then 1 else 0))%N) ∧
  (num_and st + num_xor st + num_not st + num_const st = vlen (gates p))%N.
Proof.
  intros Hwf Hins Hlen. rewrite count_pass_eq. simpl. split.
  - destruct (seed_inputs_ok (ensure (W := N) [] (num_wires p)) ins) as (w0 & Hw0 & Hl0 & _).
    { unfold ensure. vlen. pose proof (wf_inputs _ Hwf). lia. }
    assert (vlen w0 = num_wires p) as Hl by (rewrite Hl0; unfold ensure; vlen; unfold vlen; simpl; lia).
    destruct (foldO_inv (visit_gate (Bridge CtxReplayAdapter)) (gates p)
      (λ don s, vlen s.1 = num_wires p ∧ s.2 = count_state don) (w0, CountCtx.init))
      as ([w c] & Hf & Hlw & Hc); [done| |].
    { intros don g todo [w c] Hg [Hlw Hc]. simpl in *. subst c.
      destruct (wf_gates _ Hwf _ _ _ Hg) as [_ Hr [_ Ho] _].
      destruct (count_gate_replay w don g) as (w' & Hv & Hw').
      - rewrite Hg, vlen_app in Hlen. lia.
      - by rewrite Hlw.
      - intros v Hv. rewrite Hlw. by apply Hr.
      - exists (w', count_state (don ++ [g])). split; [done|]. simpl. split; [congruence|done]. }
    assert (∃ outs, vgather w (outputs p) = Ret outs) as [outs Houts].
    { destruct (foldO_inv (λ acc i, a ← vget w i; Ret (acc ++ [a])) (outputs p) (λ _ _, True) [])
        as (o & Ho & _); [done| |by exists o].
      intros don i todo acc Ho _. pose proof (wf_outputs _ Hwf) as Hwo. rewrite Ho in Hwo.
      apply Forall_app in Hwo as [_ [[Hi _] _]%Forall_cons].
      destruct (vget_lt w i) as [a ->]; [simpl in *; lia|]. simpl. eauto. }
    exists outs, c. split; [|simpl in Hc; by subst].
    unfold execute_program, execute_program_ws, mbind, ST_bind, execute_program_slots.
    rewrite Hins, !N.eqb_refl. simpl. rewrite Hw0. simpl. unfold for_each_gate.
    rewrite Hf. simpl in *. rewrite Houts. simpl. done.
  - clear. induction (gates p) as [|g gs IH] using rev_ind; [done|].
    rewrite !count_op_snoc, vlen_app, <- IH. change (vlen [g]) with 1%N.
    destruct g as [i0 i1 o []]; simpl; lia.
Qed.

Definition sample_dense : BooleanProgram :=
  MkProgram 5 2 ReuseNone [MkGate 0 1 2 And; MkGate 2 0 3 Xor; MkGate 3 2 4 And] [4%N].
Lemma sample_dense_wf : wf_program sample_dense.
Proof. by apply validate_wf. Qed.

Lemma layout_pass_correct_witness :
  ∃ live lay, liveness_pass sample_dense = Ret live ∧ layout_pass sample_dense live = Ret lay.
Proof.
  destruct (layout_pass_correct sample_dense sample_dense_wf eq_refl eq_refl)
    as (live & lay & _ & H1 & H2 & _).
  exists live, lay. split; [exact H1|exact H2].
Defined.
Lemma schedule_pass_correct_witness :
  ∃ s, schedule_pass sample_dense = Ret s ∧
    vlen (and_gate_indices (levels s)) = (depth (levels s) + 1)%N.
Proof.
  destruct (schedule_pass_correct sample_dense sample_dense_wf eq_refl eq_refl eq_refl)
    as (s & H1 & _ & _ & _ & H2 & _).
  exists s. split; [exact H1|exact H2].
Defined.

Lemma count_pass_replay_witness :
  num_and (count_pass sample_dense) = 2%N ∧
  ∃ outs c, execute_program sample_dense [0; 0]%N CountCtx.init = Ret (outs, c) ∧
    CountCtx.ands c = num_and (count_pass sample_dense).
Proof.
  split; [reflexivity|].
  destruct (count_pass_replay sample_dense [0; 0]%N sample_dense_wf eq_refl eq_refl)
    as [(outs & c & H1 & H2 & _) _].
  exists outs, c. split; [exact H1|exact H2].
Defined.
