(* ===== verification/Schedule.v ===== *)
(** * Scheduled bulk replay (ir/schedule.h)

    [make_scheduled_plan] groups a dense program's gates by AND-depth;
    [scheduled_execute_program] replays it level by level with one [and_many]
    per level.  The theorem: on every lawful bulk context it computes what the
    scalar replay computes, whatever the workspace held before. *)

From S2P Require Import Prelude Program Validate Context Execute Kernel Record Passes.

Record ScheduledPlan : Type := MkPlan {
  bucket : list (list N);
  plan_depth : N;
  plan_num_inputs : N; plan_num_wires : N; plan_num_gates : N; plan_digest : N }.

(** [bucket[wire_level[gates[gi].out]].push_back(gi)]. *)
Definition bucket_step (p : BooleanProgram) (wl : list N) (bs : list (list N)) (gi : N) :
    outcome (list (list N)) :=
  g ← vget (gates p) gi;
  lv ← vget wl (out g);
  l ← vget bs lv;
  vset bs lv (l ++ [gi]).
Definition make_scheduled_plan (p : BooleanProgram) : outcome ScheduledPlan :=
  sched ← schedule_pass p;
  let d := depth (levels sched) in
  bs ← foldO (bucket_step p (wire_level sched)) (vmake (d + 1) []) (range 0 (vlen (gates p)));
  Ret (MkPlan bs d (num_inputs p) (num_wires p) (vlen (gates p)) (DigestCtx.digest_program p)).

Section schedule.
Context {C W : Type} `{BulkBooleanContext C W, Inhabited W}.

(** The operands and output ids of a bucket's And gates. *)
Definition and_operands (p : BooleanProgram) (w : list W) (b : list N) :
    outcome (list W * list W * list N) :=
  foldO (λ '(ba, bb, bouts) gi,
    g ← vget (gates p) gi;
    if is_and g then
      x ← vget w (in0 g); y ← vget w (in1 g);
      Ret (ba ++ [x], bb ++ [y], bouts ++ [out g])
    else Ret (ba, bb, bouts)) ([], [], []) b.
(** [w[bouts[k]] = bo[k]] for every [k]. *)
Definition scatter (w : list W) (bouts : list N) (bo : list W) : outcome (list W) :=
  foldO (λ w '(k, o), x ← vget bo k; vset w o x) w (zip (range 0 (vlen bouts)) bouts).
(** The second loop over a bucket: everything but the And gates. *)
Definition linear_gate (p : BooleanProgram) (s : list W * C) (gi : N) : outcome (list W * C) :=
  let '(w, c) := s in
  g ← vget (gates p) gi;
  match op g with
  | And => Ret (w, c)
  | Xor => x ← vget w (in0 g); y ← vget w (in1 g); slot_write (out g) (xor_gate x y) w c
  | Not => x ← vget w (in0 g); slot_write (out g) (not_gate x) w c
  | Const0 => slot_write (out g) (public_bit false) w c
  | Const1 => slot_write (out g) (public_bit true) w c
  end.
(** One level: its And gates in one batch, then its linear gates. *)
Definition run_level (p : BooleanProgram) (plan : ScheduledPlan) (s : ProgramWorkspace W * C)
    (lv : N) : outcome (ProgramWorkspace W * C) :=
  let '(ws, c) := s in
  b ← vget (bucket plan) lv;
  '(ba, bb, bouts) ← and_operands p (ws_scratch ws) b;
  '(bo, w, c) ← (if is_nil ba then Ret (ws_bo ws, ws_scratch ws, c) else
    '(bo, c) ← and_many ba bb c;
    w ← scatter (ws_scratch ws) bouts bo;
    Ret (bo, w, c));
  '(w, c) ← foldO (linear_gate p) (w, c) b;
  Ret (MkWorkspace w (ws_out ws) (ws_tmp_inputs ws) ba bb bo bouts, c).

(** [debug] is whether the [#ifndef NDEBUG] digest guard is compiled in. *)
Definition scheduled_execute_ws (debug : bool) (p : BooleanProgram) (plan : ScheduledPlan)
    (inputs : list W) (ws : ProgramWorkspace W) : ST C (ProgramWorkspace W) := λ c,
  require_dense p "scheduled_execute_program";;
  expecting (vlen inputs =? num_inputs p)%N
    "scheduled_execute_program: input count != program num_inputs";;
  expecting ((plan_num_inputs plan =? num_inputs p) && (plan_num_wires plan =? num_wires p) &&
      (plan_num_gates plan =? vlen (gates p)))%N
    "scheduled_execute_program: plan does not match program (stale plan?)";;
  (if debug then
     expecting (plan_digest plan =? DigestCtx.digest_program p)%N
       "scheduled_execute_program: plan digest mismatch (stale plan for a different program)"
   else Ret tt);;
  w ← seed_inputs (ensure (ws_scratch ws) (num_wires p)) inputs;
  '(ws, c) ← foldO (run_level p plan)
    (MkWorkspace w (ws_out ws) (ws_tmp_inputs ws) (ws_ba ws) (ws_bb ws) (ws_bo ws) (ws_bouts ws), c)
    (range 0 (plan_depth plan + 1));
  outs ← vgather (ws_scratch ws) (outputs p);
  Ret (MkWorkspace (ws_scratch ws) outs (ws_tmp_inputs ws) (ws_ba ws) (ws_bb ws) (ws_bo ws)
         (ws_bouts ws), c).
(** The convenience forms: a fresh workspace, and also a one-shot plan. *)
Definition scheduled_execute_plan (debug : bool) (p : BooleanProgram) (plan : ScheduledPlan)
    (inputs : list W) : ST C (list W) :=
  ws ← scheduled_execute_ws debug p plan inputs empty_workspace; mret (ws_out ws).
Definition scheduled_execute_program (debug : bool) (p : BooleanProgram) (inputs : list W) :
    ST C (list W) :=
  plan ← lift (make_scheduled_plan p);
  scheduled_execute_plan debug p plan inputs.
End schedule.

(** ** The final environment of a dense program

    Every wire is defined once, so the environment after the last gate gives
    every gate's operands and result. *)
Section dense_env.
Context (p : BooleanProgram) (Hwf : wf_program p) (Hdense : wire_reuse p = ReuseNone).

Lemma dense_env ins env :
  vlen ins = num_inputs p → sem_gates (gates p) (init_env ins) = Some env →
  (∀ g, g ∈ gates p → ∃ v, gate_val env g = Some v ∧ env !! out g = Some v) ∧
  (∀ w, (w < num_inputs p)%N → env !! w = ins !! N.to_nat w).
Proof.
  intros Hins. assert (∀ don todo env, gates p = don ++ todo →
    sem_gates don (init_env ins) = Some env →
    (∀ g, g ∈ don → ∃ v, gate_val env g = Some v ∧ env !! out g = Some v) ∧
    (∀ w, (w < num_inputs p)%N → env !! w = ins !! N.to_nat w)) as H;
    [|apply (H _ []); by rewrite app_nil_r].
  induction don as [|g don IH] using rev_ind; intros todo e Hg He.
  - simpl in He. simplify_eq. split; [by intros g ?%elem_of_nil|]. intros w _. apply init_env_lookup.
  - rewrite <- app_assoc in Hg. simpl in Hg. apply sem_gates_snoc in He as (e1 & v & He1 & Hv & ->).
    destruct (IH _ _ Hg He1) as [IHg IHi].
    destruct (wf_gates _ Hwf _ _ _ Hg) as [_ _ Ho Hn]. specialize (Hn Hdense).
    assert (∀ g', g' ∈ don ++ [g] → gate_val (<[out g:=v]> e1) g' = gate_val e1 g') as Hsame.
    { intros g' Hg'. apply (gate_val_rename _ _ _ _ id); [done| |done..].
      intros r Hr. simpl. rewrite lookup_insert_ne; [done|]. intros Heq. symmetry in Heq.
      exact (dense_fresh p Hwf Hdense _ _ _ Hg _ _ Hg' Hr Heq). }
    split.
    + intros g' [Hg'|Hg'%list_elem_of_singleton]%elem_of_app.
      * rewrite Hsame by set_solver. destruct (IHg _ Hg') as (v' & ? & ?). exists v'.
        split; [done|]. rewrite lookup_insert_ne; [done|]. intros Heq. apply Hn. rewrite Heq.
        apply list_elem_of_fmap. eauto.
      * subst. exists v. rewrite Hsame by set_solver. by rewrite lookup_insert_eq.
    + intros w Hw. rewrite lookup_insert_ne by lia. by apply IHi.
Qed.

(** Every wire that is not an input is the output of a gate. *)
Lemma wf_defined x : (num_inputs p ≤ x < num_wires p)%N → ∃ j g, gates p !! j = Some g ∧ x = out g.
Proof.
  intros Hx. pose proof (wf_count _ Hwf) as Hc. rewrite Hdense in Hc.
  assert (∀ don todo, gates p = don ++ todo → NoDup (out <$> don)) as Hnd.
  { induction don as [|g don IH] using rev_ind; intros todo Hg; [constructor|].
    rewrite <- app_assoc in Hg. rewrite fmap_app. apply NoDup_app. split; [by eapply IH|].
    destruct (wf_gates _ Hwf _ _ _ Hg) as [_ _ _ Hn]. split; [|apply NoDup_singleton].
    intros y Hy ->%list_elem_of_singleton. by apply (Hn Hdense). }
  assert (out <$> gates p ≡ₚ range (num_inputs p) (vlen (gates p))) as Hperm.
  { apply submseteq_length_Permutation.
    - apply NoDup_submseteq; [apply (Hnd _ []); by rewrite app_nil_r|].
      intros y (g & -> & (l1 & l2 & Hg)%list_elem_of_split)%list_elem_of_fmap.
      destruct (wf_gates _ Hwf _ _ _ Hg) as [_ _ Ho _]. apply elem_of_range. lia.
    - rewrite range_length, length_fmap. unfold vlen. lia. }
  assert (x ∈ out <$> gates p) as (g & -> & (j & Hj)%list_elem_of_lookup)%list_elem_of_fmap
    by (rewrite Hperm; apply elem_of_range; lia). eauto.
Qed.

(** An And is one level above its operands; a linear gate is not below them. *)
Lemma level_operand (wl : list N) w g lw lg :
  (∀ w lv, wl !! N.to_nat w = Some lv → level_of (gates p) w lv) →
  g ∈ gates p → w ∈ reads g → wl !! N.to_nat w = Some lw → wl !! N.to_nat (out g) = Some lg →
  if is_and g then (lw < lg)%N else (lw ≤ lg)%N.
Proof.
  intros Hwl Hg Hw [Hp _]%Hwl [_ Hub]%Hwl.
  specialize (Hub _ (path_step _ _ _ _ Hg Hw Hp)). destruct (is_and g); lia.
Qed.
End dense_env.

(** In an increasing sequence everything smaller than an element precedes it. *)
Lemma filter_range_before (f : N → bool) n pre gi post j :
  filter (λ i, f i = true) (range 0 n) = pre ++ gi :: post →
  f j = true → (j < gi)%N → j ∈ pre.
Proof.
  intros Heq Hj Hlt. revert pre post Heq. induction n as [|n IH] using N.peano_ind; intros pre post Heq.
  - by destruct pre.
  - rewrite <- N.add_1_r, range_succ, filter_app, filter_cons, filter_nil in Heq.
    rewrite N.add_0_l in Heq. case_decide as Hn; [|rewrite app_nil_r in Heq; eauto].
    destruct post as [|z post _] using rev_ind.
    + apply app_inj_tail in Heq as [<- <-]. apply list_elem_of_filter. split; [done|].
      apply elem_of_range. lia.
    + rewrite app_comm_cons, app_assoc in Heq. apply app_inj_tail in Heq as [Heq _]. eauto.
Qed.

(** ** The plan *)
Record plan_ok (p : BooleanProgram) (wl : list N) (plan : ScheduledPlan) : Prop := {
  ok_levels : ∀ w lv, wl !! N.to_nat w = Some lv → level_of (gates p) w lv;
  ok_wires : vlen wl = num_wires p;
  ok_bound : ∀ w lv, wl !! N.to_nat w = Some lv → (lv ≤ plan_depth plan)%N;
  ok_bucket : vspec (plan_depth plan + 1)
    (λ lv l, l = sels_at p (λ _, true) wl lv (vlen (gates p))) (bucket plan);
  ok_dims : plan_num_inputs plan = num_inputs p ∧ plan_num_wires plan = num_wires p ∧
    plan_num_gates plan = vlen (gates p) ∧ plan_digest plan = DigestCtx.digest_program p }.

Lemma make_scheduled_plan_ok p :
  wf_program p → wire_reuse p = ReuseNone → (num_wires p < 2 ^ 32)%N →
  (vlen (gates p) < INT_MAX)%N →
  ∃ plan wl, make_scheduled_plan p = Ret plan ∧ plan_ok p wl plan.
Proof.
  intros Hwf Hd Hs Hi. unfold make_scheduled_plan.
  destruct (schedule_pass_ok p Hwf Hd Hs Hi) as (wl & lists & d & -> & Hwl & Hdep & _). simpl.
  assert (d < INT_MAX)%N by (destruct Hdep as (_ & _ & ?); lia).
  destruct (group_ok p Hwf (λ _, true) wl d Hwl Hdep) as (bs & Hbs & Hb); [done|].
  change (group_by p (λ _, true) wl) with (bucket_step p wl) in Hbs. rewrite Hbs.
  eexists _, wl. split; [done|].
  assert (∀ w lv, wl !! N.to_nat w = Some lv → level_of (gates p) w lv) as Hlv.
  { intros w lv Hw. by apply (vspec_lookup _ _ _ _ _ Hwl) in Hw as [? _]. }
  split; simpl; [done|apply Hwl| |done|done].
  intros w lv [Hp _]%Hlv. apply (proj1 Hdep) in Hp. lia.
Qed.

(** ** The replay *)
Section replay.
Context {C W : Type} {HB : BooleanContext C W} {HL : LawfulContext C W}
  {HBu : BulkBooleanContext C W} {HLB : LawfulBulk C W} {HI : Inhabited W}.
Context (p : BooleanProgram) (Hwf : wf_program p) (Hdense : wire_reuse p = ReuseNone).
Context (wl : list N) (plan : ScheduledPlan) (Hplan : plan_ok p wl plan).
Context (env : gmap N bool).
Context (Henv : ∀ g, g ∈ gates p → ∃ v, gate_val env g = Some v ∧ env !! out g = Some v).

(** The wires of [D] hold their final value. *)
Definition holds (D : N → Prop) (w : list W) (c : C) : Prop :=
  ctx_wf c ∧ (num_wires p ≤ vlen w)%N ∧
  ∀ x b, D x → env !! x = Some b → ∃ a, vget w x = Ret a ∧ denotes c a b.

Lemma holds_set D w c c' g a v :
  holds D w c → ctx_ext c c' → ctx_wf c' → g ∈ gates p → env !! out g = Some v →
  denotes c' a v →
  ∃ w', vset w (out g) a = Ret w' ∧ holds (λ x, D x ∨ x = out g) w' c'.
Proof.
  intros (_ & Hl & Hs) Hext Hc' Hg Hv Ha.
  assert (out g < num_wires p)%N as Ho.
  { apply list_elem_of_split in Hg as (l1 & l2 & Hg). by eapply gate_out_lt. }
  exists (<[N.to_nat (out g) := a]> w). split; [apply vset_lt; lia|].
  split; [done|]. split; [by rewrite vlen_insert|]. unfold vlen in Hl.
  intros x b Hx Hb. destruct (decide (x = out g)) as [->|Hne].
  - exists a. rewrite vget_Ret, list_lookup_insert_eq by lia. by simplify_eq.
  - destruct Hx as [Hx|]; [|done]. destruct (Hs x b Hx Hb) as (a' & Ha' & Hd). exists a'.
    rewrite vget_Ret in Ha' |- *. rewrite list_lookup_insert_ne by lia. eauto using denotes_mono.
Qed.
Lemma holds_weaken (D D' : N → Prop) w c : holds D w c → (∀ x, D' x → D x) → holds D' w c.
Proof. intros (? & ? & Hs) HD. split; [done|]. split; [done|]. intros x b Hx. by apply Hs, HD. Qed.
Lemma operand_value g r : g ∈ gates p → r ∈ reads g → is_Some (env !! r).
Proof.
  intros Hg Hr. destruct (Henv g Hg) as (v & Hv & _). unfold reads, gate_val in *.
  destruct (op g); set_unfold; repeat match goal with
    | H : _ ∨ _ |- _ => destruct H as [H|H] | H : False |- _ => destruct H
    | H : (_ ≫= _) = Some _ |- _ => apply bind_Some in H as (? & ? & H) end; subst; eauto.
Qed.
Lemma holds_operand (D : N → Prop) w c g r :
  holds D w c → g ∈ gates p → r ∈ reads g → D r →
  ∃ a b, vget w r = Ret a ∧ env !! r = Some b ∧ denotes c a b.
Proof.
  intros (_ & _ & Hs) Hg Hr HD. destruct (operand_value g r Hg Hr) as [b Hb].
  destruct (Hs r b HD Hb) as (a & ? & ?). eauto.
Qed.

(** *** The And batch *)
Lemma scatter_ok D w c gs bo vs :
  holds D w c → Forall2 (denotes c) bo vs →
  Forall2 (λ g v, g ∈ gates p ∧ env !! out g = Some v) gs vs →
  ∃ w', scatter w (out <$> gs) bo = Ret w' ∧ holds (λ x, D x ∨ x ∈ out <$> gs) w' c.
Proof.
  intros Hh Hbo Hgs. unfold scatter. pose proof (Forall2_length _ _ _ Hgs) as Hlg.
  destruct (foldO_inv (λ (w : list W) '(k, o), x ← vget bo k; vset w o x)
    (zip (range 0 (vlen (out <$> gs))) (out <$> gs))
    (λ don w, holds (λ x, D x ∨ x ∈ out <$> take (length don) gs) w c) w) as (w' & Hw' & Hh').
  - eapply holds_weaken; [exact Hh|]. intros x [?|?%elem_of_nil]; done.
  - intros don [k o] todo w1 Hz Hh1.
    assert (zip (range 0 (vlen (out <$> gs))) (out <$> gs) !! length don = Some (k, o)) as Hi
      by (rewrite Hz; by apply list_lookup_middle).
    apply lookup_zip_with_Some in Hi as (k' & o' & [= <- <-] & [_ ->]%range_lookup & Ho).
    rewrite list_lookup_fmap in Ho. apply fmap_Some in Ho as (g & Hg & ->).
    destruct (Forall2_lookup_l _ _ _ _ _ Hgs Hg) as (v & Hv & Hgp & Hgv).
    destruct (Forall2_lookup_r _ _ _ _ _ Hbo Hv) as (a & Ha & Hd).
    rewrite N.add_0_l. rewrite (proj2 (vget_Ret bo (N.of_nat (length don)) a))
      by (by rewrite Nat2N.id). simpl.
    destruct (holds_set _ _ _ c g a v Hh1) as (w2 & Hw2 & Hh2); [done|apply Hh|done..|].
    exists w2. split; [done|]. eapply holds_weaken; [exact Hh2|].
    intros x. rewrite length_app, Nat.add_1_r, (take_S_r _ _ _ Hg), fmap_app. set_solver.
  - exists w'. split; [done|]. eapply holds_weaken; [exact Hh'|]. intros x.
    rewrite length_zip, range_length, take_ge; [done|]. unfold vlen. rewrite length_fmap. lia.
Qed.

(** What [and_operands] collects from a bucket whose And operands are ready. *)
Record and_batch (c : C) (b : list N) (gs : list Gate) (ba bb : list W) (xs ys : list bool) : Prop := {
  ab_a : Forall2 (denotes c) ba xs;
  ab_b : Forall2 (denotes c) bb ys;
  ab_len : length ba = length bb;
  ab_v : Forall2 (λ g v, g ∈ gates p ∧ env !! out g = Some v) gs (zip_with andb xs ys);
  ab_all : ∀ gi g, gi ∈ b → gates p !! N.to_nat gi = Some g → is_and g = true → g ∈ gs }.

Lemma and_operands_ok D w c b :
  holds D w c →
  (∀ gi, gi ∈ b → ∃ g, gates p !! N.to_nat gi = Some g ∧
     (is_and g = true → ∀ r, r ∈ reads g → D r)) →
  ∃ gs ba bb xs ys, and_operands p w b = Ret (ba, bb, out <$> gs) ∧ and_batch c b gs ba bb xs ys.
Proof.
  intros Hh Hb. unfold and_operands.
  match goal with |- context [foldO ?f ([], [], []) b] => set (f' := f) end.
  destruct (foldO_inv f' b (λ don s, ∃ gs xs ys, s.2 = out <$> gs ∧
    and_batch c don gs s.1.1 s.1.2 xs ys) ([], [], []))
    as ([[ba bb] bouts] & Hf & gs & xs & ys & Ho & HB'); [| |simpl in *; subst; eauto 10].
  - exists [], [], []. split; [done|]. split; simpl; [constructor..|]. by intros ?? ?%elem_of_nil.
  - intros don gi todo [[ba bb] bouts] Heq (gs & xs & ys & Ho & Hab). simpl in Ho, Hab. subst bouts.
    destruct (Hb gi) as (g & Hg & Hr); [rewrite Heq; set_solver|]. unfold f'.
    rewrite (proj2 (vget_Ret _ _ _) Hg). simpl. pose proof (list_elem_of_lookup_2 _ _ _ Hg) as Hgp.
    destruct (is_and g) eqn:Ha.
    + assert (op g = And) as Hop by (unfold is_and in Ha; by destruct (op g)).
      destruct (holds_operand D w c g (in0 g) Hh Hgp) as (a & x & Hwa & Hx & Hda);
        [unfold reads; rewrite Hop; set_solver|apply Hr; [done|unfold reads; rewrite Hop; set_solver]|].
      destruct (holds_operand D w c g (in1 g) Hh Hgp) as (a' & y & Hwb & Hy & Hdb);
        [unfold reads; rewrite Hop; set_solver|apply Hr; [done|unfold reads; rewrite Hop; set_solver]|].
      rewrite Hwa, Hwb. simpl. eexists. split; [done|]. simpl.
      exists (gs ++ [g]), (xs ++ [x]), (ys ++ [y]). split; [by rewrite fmap_app|].
      destruct Hab as [H1 H2 H3 H4 H5].
      split; [by apply Forall2_app; [|constructor]|by apply Forall2_app; [|constructor]|
        rewrite !length_app; simpl; lia| |].
      * rewrite zip_with_app.
        { apply Forall2_app; [done|]. constructor; [|constructor]. split; [done|].
          destruct (Henv g Hgp) as (v & Hv & Hov). unfold gate_val in Hv. rewrite Hop, Hx, Hy in Hv.
          simpl in Hv. by simplify_eq. }
        apply Forall2_length in H1, H2. lia.
      * intros gi' g' [Hin|Hin%list_elem_of_singleton]%elem_of_app Hg' Ha'; [set_solver|].
        subst. simplify_eq. set_solver.
    + eexists. split; [done|]. exists gs, xs, ys. split; [done|]. destruct Hab as [H1 H2 H3 H4 H5].
      split; [done..|]. intros gi' g' [Hin|Hin%list_elem_of_singleton]%elem_of_app Hg' Ha'; [eauto|].
      subst. simplify_eq. congruence.
Qed.

(** *** The linear gates *)
Lemma linear_gate_ok D w c gi g :
  holds D w c → gates p !! N.to_nat gi = Some g → (∀ r, r ∈ reads g → D r) →
  (is_and g = true → D (out g)) →
  owp ctx_err (linear_gate p (w, c) gi) (λ '(w', c'), ctx_ext c c' ∧ holds (λ x, D x ∨ x = out g) w' c').
Proof.
  intros Hh Hg Hr Hand. pose proof (list_elem_of_lookup_2 _ _ _ Hg) as Hgp.
  unfold linear_gate. rewrite (proj2 (vget_Ret _ _ _) Hg). simpl.
  destruct (Henv g Hgp) as (v & Hv & Hov). unfold is_and in Hand.
  assert (∀ m, wp ctx_err m c (λ w c', ctx_wf c' ∧ ctx_ext c c' ∧ denotes c' w v) →
    owp ctx_err (slot_write (out g) m w c)
      (λ '(w', c'), ctx_ext c c' ∧ holds (λ x, D x ∨ x = out g) w' c')) as Hwrite.
  { intros m Hm. unfold slot_write. apply owp_bind. eapply owp_mono; [exact Hm|].
    intros [a c'] (Hc' & Hext & Hd).
    destruct (holds_set _ _ _ _ g a v Hh Hext Hc' Hgp Hov Hd) as (w' & -> & Hh'). done. }
  pose proof (proj1 Hh) as Hc.
  assert (∀ r, r ∈ reads g → ∃ a b, vget w r = Ret a ∧ env !! r = Some b ∧ denotes c a b) as Hget.
  { intros r Hin. by apply (holds_operand D w c g r Hh Hgp Hin), Hr. }
  unfold reads, gate_val in *. destruct (op g).
  - split; [reflexivity|]. eapply holds_weaken; [exact Hh|]. intros x [?| ->]; auto.
  - destruct (Hget (in0 g)) as (a & x & -> & Hx & Ha); [set_solver|].
    destruct (Hget (in1 g)) as (b & y & -> & Hy & Hb); [set_solver|].
    rewrite Hx, Hy in Hv. simpl in Hv |- *. simplify_eq. by apply Hwrite, xor_gate_law.
  - destruct (Hget (in0 g)) as (a & x & -> & Hx & Ha); [set_solver|].
    rewrite Hx in Hv. simpl in Hv |- *. simplify_eq. by apply Hwrite, not_gate_law.
  - simplify_eq. by apply Hwrite, public_bit_law.
  - simplify_eq. by apply Hwrite, public_bit_law.
Qed.

(** *** A level *)
(** The inputs and the wires below level [lv]. *)
Definition below (lv x : N) : Prop :=
  (x < num_inputs p)%N ∨ ∃ l, wl !! N.to_nat x = Some l ∧ (l < lv)%N.

Lemma bucket_elem lv b gi :
  vget (bucket plan) lv = Ret b → (lv ≤ plan_depth plan)%N → gi ∈ b →
  ∃ g, gates p !! N.to_nat gi = Some g ∧ wl !! N.to_nat (out g) = Some lv.
Proof.
  intros Hb Hlv Hgi. apply vget_Ret in Hb.
  apply (vspec_lookup _ _ _ _ _ (ok_bucket _ _ _ Hplan)) in Hb as ->.
  unfold sels_at in Hgi. apply list_elem_of_filter in Hgi as [Hs _].
  unfold sel_at in Hs. destruct (gates p !! N.to_nat gi) as [g|]; [|done].
  exists g. split; [done|]. simpl in Hs. by apply bool_decide_eq_true in Hs.
Qed.
Lemma wire_level_get x : (x < num_wires p)%N → ∃ l, wl !! N.to_nat x = Some l.
Proof.
  intros Hx. apply lookup_lt_is_Some. pose proof (ok_wires _ _ _ Hplan) as Hl. unfold vlen in Hl. lia.
Qed.
(** An operand is below the level, or, for a linear gate only, produced by an
    earlier gate of the same level. *)
Lemma operand_below lv b pre gi post g r :
  vget (bucket plan) lv = Ret b → (lv ≤ plan_depth plan)%N → b = pre ++ gi :: post →
  gates p !! N.to_nat gi = Some g → r ∈ reads g →
  below lv r ∨ is_and g = false ∧
    ∃ gj g', gj ∈ pre ∧ gates p !! N.to_nat gj = Some g' ∧ r = out g'.
Proof.
  intros Hb Hlv Heq Hg Hr.
  destruct (bucket_elem lv b gi Hb Hlv) as (g0 & Hg0 & Hlg); [rewrite Heq; set_solver|].
  rewrite Hg in Hg0. injection Hg0 as <-.
  pose proof (take_drop_middle _ _ _ Hg) as Hsplit. symmetry in Hsplit.
  destruct (wf_gates _ Hwf _ _ _ Hsplit) as [_ Hrd _ _]. destruct (Hrd r Hr) as [Hrw Hdef].
  destruct (wire_level_get r Hrw) as [lr Hlr].
  pose proof (level_operand p wl r g lr lv (ok_levels _ _ _ Hplan) (list_elem_of_lookup_2 _ _ _ Hg)
    Hr Hlr Hlg) as Hle.
  destruct Hdef as [Hin|Hdef]; [by left; left|].
  destruct (decide (lr < lv)%N) as [Hlt|Hge]; [left; right; eauto|].
  right. destruct (is_and g); [lia|]. split; [done|]. assert (lr = lv) as -> by lia.
  apply list_elem_of_fmap in Hdef as (g' & -> & (j & Hj)%list_elem_of_lookup).
  apply lookup_take_Some in Hj as [Hj Hjlt].
  exists (N.of_nat j), g'. rewrite Nat2N.id. split; [|done].
  pose proof Hb as Hb'. apply vget_Ret in Hb'.
  apply (vspec_lookup _ _ _ _ _ (ok_bucket _ _ _ Hplan)) in Hb'. rewrite Heq in Hb'.
  symmetry in Hb'. eapply (filter_range_before _ _ _ _ _ _ Hb'); [|lia].
  unfold sel_at. rewrite Nat2N.id, Hj. simpl. by apply bool_decide_eq_true.
Qed.

(** A wire up to the level is an input, below the level, or the output of one of
    the level's gates. *)
Lemma below_succ lv b x :
  vget (bucket plan) lv = Ret b → below (lv + 1) x →
  below lv x ∨ ∃ gj g, gj ∈ b ∧ gates p !! N.to_nat gj = Some g ∧ x = out g.
Proof.
  intros Hb [?|(l & Hl & Hlt)]; [by left; left|].
  destruct (decide (l < lv)%N); [left; right; eauto|]. assert (l = lv) as -> by lia.
  destruct (decide (x < num_inputs p)%N); [by left; left|].
  destruct (wf_defined p Hwf Hdense x) as (j & g & Hj & ->).
  { split; [lia|]. apply lookup_lt_Some in Hl. pose proof (ok_wires _ _ _ Hplan) as Hl'.
    unfold vlen in Hl'. lia. }
  right. exists (N.of_nat j), g. rewrite Nat2N.id. split; [|done].
  apply vget_Ret in Hb. apply (vspec_lookup _ _ _ _ _ (ok_bucket _ _ _ Hplan)) in Hb as ->.
  apply list_elem_of_filter. unfold sel_at. rewrite Nat2N.id, Hj. split.
  - simpl. by apply bool_decide_eq_true.
  - apply elem_of_range. apply lookup_lt_Some in Hj. unfold vlen. lia.
Qed.

Lemma run_level_ok lv ws c :
  (lv ≤ plan_depth plan)%N → holds (below lv) (ws_scratch ws) c →
  owp ctx_err (run_level p plan (ws, c) lv) (λ '(ws', c'),
    ctx_ext c c' ∧ holds (below (lv + 1)) (ws_scratch ws') c').
Proof.
  intros Hlv Hh. unfold run_level.
  destruct (vspec_get _ _ _ lv (ok_bucket _ _ _ Hplan)) as (b & Hb & _); [lia|]. rewrite Hb. simpl.
  destruct (and_operands_ok _ _ _ b Hh) as (gs & ba & bb & xs & ys & -> & [Ha Hb' Hlab Hv Hall]).
  { intros gi Hgi. destruct (bucket_elem lv b gi Hb Hlv Hgi) as (g & Hg & _). exists g.
    split; [done|]. intros Hand r Hr. apply list_elem_of_split in Hgi as (pre & post & Heq).
    destruct (operand_below lv b pre gi post g r Hb Hlv Heq Hg Hr) as [?|[? _]]; [done|congruence]. }
  simpl. apply owp_bind.
  apply (owp_mono _ _ (λ '(bo, w, c1), ctx_ext c c1 ∧ holds (λ x, below lv x ∨ x ∈ out <$> gs) w c1)).
  { destruct ba as [|a ba]; simpl.
    - split; [reflexivity|]. eapply holds_weaken; [exact Hh|].
      intros x [?|Hx]; [done|]. assert (gs = []) as ->; [|by apply elem_of_nil in Hx].
      inversion Ha; subst. by inversion Hv.
    - apply owp_bind. eapply owp_mono; [eapply and_many_law; [apply Hh|done..]|].
      intros [bo c1] (Hc1 & Hext & Hbo).
      destruct (scatter_ok (below lv) (ws_scratch ws) c1 gs bo (zip_with andb xs ys)) as (w' & -> & Hw');
        [|done..|done].
      destruct Hh as (_ & Hl & Hs). split; [done|]. split; [done|]. intros x v Hx Hxv.
      destruct (Hs x v Hx Hxv) as (a' & ? & ?). exists a'. eauto using denotes_mono. }
  intros [[bo w] c1] [Hext Hw]. apply owp_bind.
  apply owp_foldO with (P := λ don '(w, c'), ctx_ext c c' ∧
    holds (λ x, (below lv x ∨ x ∈ out <$> gs) ∨
      ∃ gj g, gj ∈ don ∧ gates p !! N.to_nat gj = Some g ∧ x = out g) w c').
  - split; [done|]. eapply holds_weaken; [exact Hw|]. intros x [?|(gj & g & ?%elem_of_nil & _)]; done.
  - intros don gi todo [w1 c2] Heq [Hext1 Hw1].
    destruct (bucket_elem lv b gi Hb Hlv) as (g & Hg & _); [rewrite Heq; set_solver|].
    eapply owp_mono; [apply (linear_gate_ok _ w1 c2 gi g Hw1 Hg)|].
    + intros r Hr. destruct (operand_below lv b don gi todo g r Hb Hlv Heq Hg Hr)
        as [?|(_ & gj & g' & ? & ? & ?)]; eauto 10.
    + intros Hand. left; right. apply list_elem_of_fmap. exists g. split; [done|].
      eapply Hall; [|done..]. rewrite Heq. set_solver.
    + intros [w2 c3] [Hext2 Hw2]. split; [by etrans|]. eapply holds_weaken; [exact Hw2|].
      intros x [?|(gj & g' & [Hin| ->%list_elem_of_singleton]%elem_of_app & Hg' & ->)]; eauto 10.
      rewrite Hg in Hg'. injection Hg' as <-. by right.
  - intros [w1 c2] [Hext1 Hw1]. split; [done|]. simpl. eapply holds_weaken; [exact Hw1|].
    intros x [?|?]%(below_succ lv b); [by left; left|by right|done].
Qed.

Lemma level_loop_ok ws c :
  holds (below 0) (ws_scratch ws) c →
  owp ctx_err (foldO (run_level p plan) (ws, c) (range 0 (plan_depth plan + 1))) (λ '(ws', c'),
    ctx_ext c c' ∧ holds (λ x, (x < num_wires p)%N) (ws_scratch ws') c').
Proof.
  intros Hh. apply owp_foldO with (P := λ don '(ws', c'), ctx_ext c c' ∧
    holds (below (vlen don)) (ws_scratch ws') c').
  - split; [reflexivity|]. exact Hh.
  - intros don lv todo [ws1 c1] Heq [Hext Hh1].
    assert (range 0 (plan_depth plan + 1) !! length don = Some lv) as [Hk Hi]%range_lookup
      by (rewrite Heq; by apply list_lookup_middle).
    assert (vlen don = lv) as Hv by (unfold vlen; lia). rewrite Hv in Hh1.
    eapply owp_mono; [apply run_level_ok; [lia|done]|].
    intros [ws2 c2] [Hext2 Hh2]. split; [by etrans|]. rewrite vlen_app, Hv. done.
  - intros [ws1 c1] [Hext Hh1]. split; [done|]. eapply holds_weaken; [exact Hh1|].
    intros x Hx. right. destruct (wire_level_get x Hx) as [l Hl]. exists l. split; [done|].
    pose proof (ok_bound _ _ _ Hplan _ _ Hl). unfold vlen. rewrite range_length. lia.
Qed.
End replay.

Section main.
Context {C W : Type} {HB : BooleanContext C W} {HL : LawfulContext C W}
  {HBu : BulkBooleanContext C W} {HLB : LawfulBulk C W} {HI : Inhabited W}.

Lemma scheduled_execute_ok debug p wl plan c inputs ins ws :
  wf_program p → wire_reuse p = ReuseNone → plan_ok p wl plan →
  ctx_wf c → vlen inputs = num_inputs p → Forall2 (denotes c) inputs ins →
  wp ctx_err (scheduled_execute_ws debug p plan inputs ws) c (λ ws' c',
    ctx_wf c' ∧ ctx_ext c c' ∧
    ∃ outs, eval_program p ins = Some outs ∧ Forall2 (denotes c') (ws_out ws') outs).
Proof.
  intros Hwf Hd Hplan Hc Hin Hins. unfold wp, scheduled_execute_ws.
  destruct (ok_dims _ _ _ Hplan) as (-> & -> & -> & ->).
  unfold require_dense. rewrite bool_decide_eq_true_2 by done. rewrite Hin, !N.eqb_refl. simpl.
  assert ((if debug then Ret tt else Ret tt) = Ret tt) as -> by (by destruct debug). simpl.
  destruct (seed_inputs_ok (ensure (ws_scratch ws) (num_wires p)) inputs) as (buf & -> & Hl & Hk).
  { unfold ensure. vlen. pose proof (wf_inputs _ Hwf). lia. }
  simpl.
  assert (vlen ins = num_inputs p) as Hlen by (unfold vlen; by rewrite <- (Forall2_length _ _ _ Hins)).
  destruct (sem_gates_defined p Hwf ins (gates p) []) as (env & Henv & Hdef);
    [by rewrite app_nil_r|done|].
  destruct (dense_env p Hwf Hd ins env Hlen Henv) as [Hg Hi].
  apply owp_bind. eapply owp_mono.
  { apply (level_loop_ok p Hwf Hd wl plan Hplan env Hg). split; [done|].
    split; [simpl; rewrite Hl; unfold ensure; vlen; lia|]. simpl.
    intros x b [Hx|(l & _ & ?)] Hb; [|lia]. rewrite Hi in Hb by done.
    destruct (Forall2_lookup_r _ _ _ _ _ Hins Hb) as (a & Ha & Hab). exists a.
    split; [|done]. apply vget_Ret. by apply Hk. }
  intros [ws' c'] [Hext (Hc' & _ & Hs)].
  destruct (eval_program_total p Hwf ins Hlen) as (outs & Houts & _).
  pose proof Houts as Hev. unfold eval_program in Hev. rewrite Henv in Hev. simpl in Hev.
  assert (∃ os, vgather (ws_scratch ws') (outputs p) = Ret os ∧ Forall2 (denotes c') os outs)
    as (os & -> & Hos).
  { apply (gather_outputs _ _ env); [|done]. intros w b Hb.
    assert (w < num_wires p)%N as Hw.
    { destruct (proj1 (Hdef w) (mk_is_Some _ _ Hb)) as [?|(g & -> & (l1 & l2 & Hgs)%list_elem_of_split)%list_elem_of_fmap];
        [pose proof (wf_inputs _ Hwf); lia|by eapply gate_out_lt]. }
    destruct (Hs w b Hw Hb) as (a & Ha & Hd'). exists a. by rewrite <- vget_Ret. }
  simpl. eauto.
Qed.
End main.

(** ** Properties *)

(** C12: scheduled replay is correct.  For every well-formed dense program with
    fewer than 2^31 - 1 gates a plan is made, and on every lawful bulk context,
    with any workspace, in debug and release builds, replaying level by level
    with one [and_many] per AND-depth level reads no unset wire and gives outputs
    that denote [eval_program], the meaning the scalar [execute_program] has. *)
Theorem scheduled_execute_correct {C W : Type} {HB : BooleanContext C W} {HL : LawfulContext C W}
    {HBu : BulkBooleanContext C W} {HLB : LawfulBulk C W} {HI : Inhabited W}
    debug p (c : C) (inputs : list W) (ins : list bool) :
  wf_program p → wire_reuse p = ReuseNone → (num_wires p < 2 ^ 32)%N →
  (vlen (gates p) < INT_MAX)%N →
  ctx_wf c → vlen inputs = num_inputs p → Forall2 (denotes c) inputs ins →
  ∃ plan, make_scheduled_plan p = Ret plan ∧ ∀ ws,
    wp ctx_err (scheduled_execute_ws debug p plan inputs ws) c (λ ws' c',
      ctx_wf c' ∧ ctx_ext c c' ∧
      ∃ outs, eval_program p ins = Some outs ∧ Forall2 (denotes c') (ws_out ws') outs).
Proof.
  intros Hwf Hd Hs Hi Hc Hin Hins.
  destruct (make_scheduled_plan_ok p Hwf Hd Hs Hi) as (plan & wl & Hp & Hok).
  exists plan. split; [done|]. intros ws. by eapply scheduled_execute_ok.
Qed.

(** the guards of scheduled replay.  A reuse program, a wrong number of
    inputs, a plan whose dimensions differ from the program's and, in a debug
    build, a plan with another digest each end the process with their message,
    before any gate reaches the context. *)
Theorem scheduled_execute_guards {C W : Type} {HB : BooleanContext C W}
    {HBu : BulkBooleanContext C W} {HI : Inhabited W} debug p plan (inputs : list W) ws (c : C) :
  let r := scheduled_execute_ws debug p plan inputs ws c in
  (wire_reuse p ≠ ReuseNone →
     r = Fatal "scheduled_execute_program: requires a dense (WireReuse::None) program") ∧
  (wire_reuse p = ReuseNone →
   (vlen inputs ≠ num_inputs p →
      r = Fatal "scheduled_execute_program: input count != program num_inputs") ∧
   (vlen inputs = num_inputs p →
    ((plan_num_inputs plan, plan_num_wires plan, plan_num_gates plan) ≠
       (num_inputs p, num_wires p, vlen (gates p)) →
       r = Fatal "scheduled_execute_program: plan does not match program (stale plan?)") ∧
    ((plan_num_inputs plan, plan_num_wires plan, plan_num_gates plan) =
       (num_inputs p, num_wires p, vlen (gates p)) →
     debug = true → plan_digest plan ≠ DigestCtx.digest_program p →
       r = Fatal "scheduled_execute_program: plan digest mismatch (stale plan for a different program)"))).
Proof.
  cbv zeta. unfold scheduled_execute_ws, require_dense.
  split; [intros; by rewrite bool_decide_eq_false_2|]. intros Hd.
  rewrite bool_decide_eq_true_2 by done. cbn [expecting mbind outcome_bind].
  split; [intros Hn%N.eqb_neq; by rewrite Hn|]. intros ->.
  rewrite N.eqb_refl. cbn [expecting mbind outcome_bind]. split.
  - intros Hne. destruct (N.eqb_spec (plan_num_inputs plan) (num_inputs p)); [|done].
    destruct (N.eqb_spec (plan_num_wires plan) (num_wires p)); [|done].
    destruct (N.eqb_spec (plan_num_gates plan) (vlen (gates p))); [congruence|done].
  - intros [= -> -> ->] -> Hn%N.eqb_neq. rewrite !N.eqb_refl. simpl. by rewrite Hn.
Qed.

Lemma scheduled_execute_correct_witness :
  ∃ plan ws' c', make_scheduled_plan sample_dense = Ret plan ∧
    scheduled_execute_ws (C := ClearCtx.State) (W := ClearCtx.Wire) true sample_dense plan
      [1; 1]%N empty_workspace tt = Ret (ws', c') ∧
    ∃ outs, eval_program sample_dense [true; true] = Some outs ∧
      Forall2 ClearCtx.wire_is (ws_out ws') outs.
Proof.
  destruct (scheduled_execute_correct true sample_dense tt [1; 1]%N [true; true]
    sample_dense_wf eq_refl eq_refl eq_refl) as (plan & Hp & Hws); [done..|repeat constructor|].
  destruct (wp_total _ _ _ _ (Hws empty_workspace)) as (ws' & c' & Hr & _ & _ & Ho);
    [by intros msg []|].
  exists plan, ws', c'. done.
Defined.
