(* ===== verification/Transform.v ===== *)
(** * Wire-id compaction (ir/transform.h)

    [make_compact] rewrites a dense program so that dead wires' ids are
    recycled; [uncompact] is the inverse relabelling.  Both keep the gate
    sequence and the function computed; a Linear result never overwrites the
    output of an And gate. *)

From S2P Require Import Prelude Program Validate Context Execute Passes.

(** ** make_compact *)
Record CompactResult : Type := MkCompactResult { res_prog : BooleanProgram; res_nid : list N }.

(** [persist]: inputs, outputs and, for Linear, And outputs. *)
Definition persist_marks (dense : BooleanProgram) (target : WireReuse) : outcome (list bool) :=
  m0 ← foldO (λ m i, vset m i true) (vmake (num_wires dense) false) (range 0 (num_inputs dense));
  m1 ← mark_outputs dense m0;
  if bool_decide (target = ReuseLinear) then
    foldO (λ m g, if is_and g then vset m (out g) true else Ret m) m1 (gates dense)
  else Ret m1.

Record CompactState : Type := MkCompact {
  cs_nid : list N;
  cs_next : N;
  cs_free : list N;        (* LIFO: the top is the head *)
  cs_gates : list Gate }.

Definition compact_step (dense : BooleanProgram) (persist : list bool) (frees : list (list N))
    (s : CompactState) (gi : N) : outcome CompactState :=
  g ← vget (gates dense) gi;
  k ← vget persist (out g);
  let '(o, next, freelist) :=
    match (k : bool), cs_free s with
    | false, o :: freelist => (o, cs_next s, freelist)
    | _, freelist => (cs_next s, u32 (cs_next s + 1), freelist)
    end in
  nid ← vset (cs_nid s) (out g) o;
  i0 ← (if is_const g then Ret 0%N else vget nid (in0 g));
  i1 ← (if is_const g || is_not g then Ret 0%N else vget nid (in1 g));
  fl ← vget frees gi;
  freelist' ← foldO (λ fr w, c ← vget nid w; Ret (c :: fr)) freelist fl;
  Ret (MkCompact nid next freelist' (cs_gates s ++ [MkGate i0 i1 o (op g)])).

Definition make_compact (dense : BooleanProgram) (target : WireReuse) : outcome CompactResult :=
  expecting (bool_decide (target ≠ ReuseNone))
    "make_compact: target must be WireReuse::Linear or WireReuse::Full";;
  expecting (bool_decide (wire_reuse dense = ReuseNone))
    "make_compact: input must be a dense (WireReuse::None) program";;
  validate_program dense;;
  live ← liveness_pass dense;
  persist ← persist_marks dense target;
  frees ← foldO (frees_step (last_use live) persist) (vmake (num_gate dense) [])
            (range 0 (num_wires dense));
  '(nid, next) ← foldO (λ '(nid, next) i, nid' ← vset nid i next; Ret (nid', u32 (next + 1)))
                   (vmake (num_wires dense) UINT32_MAX, 0%N) (range 0 (num_inputs dense));
  s ← foldO (compact_step dense persist frees) (MkCompact nid next [] [])
        (range 0 (num_gate dense));
  outs ← vgather (cs_nid s) (outputs dense);
  let prog := MkProgram (cs_next s) (num_inputs dense) target (cs_gates s) outs in
  validate_program prog;;
  Ret (MkCompactResult prog (cs_nid s)).

(** ** uncompact *)
Definition uncompact_step (s : list N * N * list Gate) (g : Gate) : outcome (list N * N * list Gate) :=
  let '(cur, next, gs) := s in
  i0 ← (if is_const g then Ret 0%N else vget cur (in0 g));
  i1 ← (if is_const g || is_not g then Ret 0%N else vget cur (in1 g));
  cur' ← vset cur (out g) next;
  Ret (cur', u32 (next + 1), gs ++ [MkGate i0 i1 next (op g)]).

Definition uncompact (src : BooleanProgram) : outcome BooleanProgram :=
  validate_program src;;
  '(cur, next) ← foldO (λ '(cur, next) i, cur' ← vset cur i next; Ret (cur', u32 (next + 1)))
                   (vmake (num_wires src) UINT32_MAX, 0%N) (range 0 (num_inputs src));
  '(cur, next, gs) ← foldO uncompact_step (cur, next, []) (gates src);
  outs ← vgather cur (outputs src);
  let d := MkProgram next (num_inputs src) ReuseNone gs outs in
  validate_program d;;
  Ret d.

(** ** Shared facts *)

(** Numbering the inputs: wire [i] gets id [i]. *)
Lemma number_inputs_ok ni nw :
  (ni ≤ nw)%N → (nw < 2 ^ 32)%N →
  ∃ ids, foldO (λ '(ids, next) i, ids' ← vset ids i next; Ret (ids', u32 (next + 1)))
      (vmake nw UINT32_MAX, 0%N) (range 0 ni) = Ret (ids, ni) ∧
    vlen ids = nw ∧ ∀ w, (w < ni)%N → vget ids w = Ret w.
Proof.
  intros Hle Hu.
  destruct (foldO_range_inv (λ '(ids, next) i, ids' ← vset ids i next; Ret (ids', u32 (next + 1)))
    ni (λ k '(ids, next), next = k ∧ vspec nw (λ w c, (w < k)%N → c = w) ids)
    (vmake nw UINT32_MAX, 0%N)) as ([ids next] & Hf & -> & Hids).
  - split; [done|]. apply vspec_make. lia.
  - intros i [ids next] Hi [-> Hids].
    destruct (vspec_set _ _ (λ w c, (w < i + 1)%N → c = w) _ i i Hids)
      as (ids' & -> & Hids'); [lia|done|intros; lia|].
    simpl. eexists. split; [done|]. simpl. rewrite u32_small by lia. done.
  - exists ids. split; [done|]. split; [apply Hids|]. intros w Hw.
    destruct (vspec_get _ _ _ w Hids) as (c & -> & ->); [lia|done|done].
Qed.

(** Relabelled operands: constants read nothing, Not reads [in0]. *)
Lemma relabel_operands (ids : list N) g (Q : N → N → Prop) :
  (∀ w, w ∈ reads g → ∃ c, vget ids w = Ret c ∧ Q w c) →
  ∃ i0 i1,
    (if is_const g then Ret 0%N else vget ids (in0 g)) = Ret i0 ∧
    (if is_const g || is_not g then Ret 0%N else vget ids (in1 g)) = Ret i1 ∧
    (∀ o, canonical (MkGate i0 i1 o (op g)) ∧
       ∀ c, c ∈ reads (MkGate i0 i1 o (op g)) → ∃ w, w ∈ reads g ∧ vget ids w = Ret c ∧ Q w c) ∧
    (∀ (e e' : gmap N bool) o,
       (∀ w c, w ∈ reads g → vget ids w = Ret c → e' !! c = e !! w) →
       gate_val e' (MkGate i0 i1 o (op g)) = gate_val e g).
Proof.
  intros Hq. destruct g as [a b o0 []]; unfold reads, canonical, gate_val in *; simpl in *.
  - destruct (Hq a) as (c & Hc & Qc); [set_solver|]. destruct (Hq b) as (d & Hd & Qd); [set_solver|].
    exists c, d. split_and!; [done..| |].
    + intros _. split; [done|]. intros x [->| ->%list_elem_of_singleton]%elem_of_cons;
        eexists; (split; [|by split]); set_solver.
    + intros e e' _ He. rewrite (He a c), (He b d) by (done || set_solver). done.
  - destruct (Hq a) as (c & Hc & Qc); [set_solver|]. destruct (Hq b) as (d & Hd & Qd); [set_solver|].
    exists c, d. split_and!; [done..| |].
    + intros _. split; [done|]. intros x [->| ->%list_elem_of_singleton]%elem_of_cons;
        eexists; (split; [|by split]); set_solver.
    + intros e e' _ He. rewrite (He a c), (He b d) by (done || set_solver). done.
  - destruct (Hq a) as (c & Hc & Qc); [set_solver|].
    exists c, 0%N. split_and!; [done..| |].
    + intros _. split; [done|]. intros x ->%list_elem_of_singleton. eexists. split; [|by split]. set_solver.
    + intros e e' _ He. rewrite (He a c) by (done || set_solver). done.
  - exists 0%N, 0%N. split_and!; [done..| |done]. intros _. split; [done|]. by intros c ?%elem_of_nil.
  - exists 0%N, 0%N. split_and!; [done..| |done]. intros _. split; [done|]. by intros c ?%elem_of_nil.
Qed.

(** [sem_at p don ins env]: the reference semantics after the gates [don]. *)
Definition sem_at (don : list Gate) (ins : list bool) (env : gmap N bool) : Prop :=
  sem_gates don (init_env ins) = Some env.
(** Environment [e'] holds, under the ids [ids], what [e] holds for the wires in [D]. *)
Definition env_renamed (D : N → Prop) (ids : list N) (e e' : gmap N bool) : Prop :=
  ∀ w c, D w → vget ids w = Ret c → e' !! c = e !! w.

Lemma outputs_renamed (D : N → Prop) ids e e' os os' outs :
  env_renamed D ids e e' → Forall D os → vgather ids os = Ret os' →
  mapM (e !!.) os = Some outs → mapM (e' !!.) os' = Some outs.
Proof.
  intros Hr HD Hg%vgather_Ret. revert outs HD.
  induction Hg as [|w c os os' Hw Hg IH]; intros outs HD Hm; [done|].
  apply Forall_cons in HD as [Hd HD]. simpl in *. apply bind_Some in Hm as (b & Hb & (bs & Hbs & Ho)%bind_Some).
  rewrite (Hr w c), Hb by (done || by apply vget_Ret). simpl. by rewrite (IH bs).
Qed.

Lemma defined_by_snoc p don g w :
  defined_by p (don ++ [g]) w ↔ defined_by p don w ∨ w = out g.
Proof. unfold defined_by. rewrite fmap_app. simpl. set_solver. Qed.
Lemma vget_set {A} (v v' : list A) i x w :
  vset v i x = Ret v' → vget v' w = if decide (w = i) then Ret x else vget v w.
Proof.
  intros [Hi ->]%vset_Ret. unfold vget, vlen in *. case_decide as Hd.
  - subst. rewrite list_lookup_insert_eq by lia. done.
  - rewrite list_lookup_insert_ne by lia. done.
Qed.

(** An environment extended by fresh ids bound to outputs. *)
Lemma bind_outputs_env (cids os : list N) (eu e : gmap N bool) outs w :
  NoDup cids → vlen cids = vlen os → mapM (eu !!.) os = Some outs →
  ((w ∉ cids) ∧ ((list_to_map (zip cids outs) ∪ e) : gmap N bool) !! w = e !! w) ∨
  ∃ k o, cids !! k = Some w ∧ os !! k = Some o ∧ is_Some (eu !! o) ∧
    ((list_to_map (zip cids outs) ∪ e) : gmap N bool) !! w = eu !! o.
Proof.
  intros Hnd Hlen Hm. pose proof (length_mapM _ _ _ Hm) as Hl. apply mapM_Some in Hm.
  unfold vlen in Hlen. assert ((zip cids outs).*1 = cids) as Hf by (apply fst_zip; lia).
  destruct (decide (w ∈ cids)) as [Hw|Hw].
  - right. apply list_elem_of_lookup in Hw as [k Hk]. pose proof (lookup_lt_Some _ _ _ Hk).
    destruct (lookup_lt_is_Some_2 os k) as [o Ho]; [lia|].
    destruct (Forall2_lookup_l _ _ _ _ _ Hm Ho) as (b & Hb & He).
    exists k, o. split_and!; [done|done|eauto|]. rewrite He. apply lookup_union_Some_l.
    apply elem_of_list_to_map_1; [by rewrite Hf|]. apply list_elem_of_lookup. exists k.
    apply lookup_zip_with_Some. eauto.
  - left. split; [done|]. apply lookup_union_r. apply not_elem_of_list_to_map_1. by rewrite Hf.
Qed.


(** ** Renumbering gates

    A renumbering keeps an id map, the next dense id and the gates emitted so
    far.  [FInv ni D M (map, next, gs)]: the gates are in SSA form after [ni]
    inputs, the map is defined on [D], and for every input the dense gates hold,
    under the map, what the meaning [M] gives the wires in [D]. *)
Record FInv (ni : N) (D : N → Prop) (M : list bool → option (gmap N bool))
    (s : list N * N * list Gate) : Prop := {
  fi_next : s.1.2 = (ni + vlen s.2)%N;
  fi_ssa : ssa ni s.2;
  fi_def : ∀ w, D w → ∃ c, vget s.1.1 w = Ret c ∧ (c < s.1.2)%N;
  fi_sem : ∀ ins, vlen ins = ni → ∃ e e', M ins = Some e ∧ sem_at s.2 ins e' ∧
    (∀ w, D w → is_Some (e !! w)) ∧ env_renamed D s.1.1 e e' }.

Lemma FInv_ext ni (D D' : N → Prop) (M M' : list bool → option (gmap N bool)) s :
  (∀ w, D' w → D w) → (∀ ins, M' ins = M ins) → FInv ni D M s → FInv ni D' M' s.
Proof.
  intros HD HM [Hn Hssa Hdef Hsem]. split; [done|done|auto|].
  intros ins Hins. destruct (Hsem ins Hins) as (e & e' & He & He' & Hd & Hr).
  exists e, e'. rewrite HM. split_and!; [done|done|auto|]. intros w c Hw. by apply Hr, HD.
Qed.

(** A gate renumbered: [m] updated at its output. *)
Definition gate_meaning (M : list bool → option (gmap N bool)) (g : Gate) (ins : list bool) :
    option (gmap N bool) :=
  e ← M ins; v ← gate_val e g; Some (<[out g := v]> e).
Lemma uncompact_step_ok ni D M g m next gs :
  FInv ni D M (m, next, gs) → (∀ w, w ∈ reads g → D w) → (out g < vlen m)%N →
  (next + 1 < 2 ^ 32)%N →
  ∃ m' ng, uncompact_step (m, next, gs) g = Ret (m', (next + 1)%N, gs ++ [ng]) ∧
    op ng = op g ∧ vlen m' = vlen m ∧
    FInv ni (λ w, D w ∨ w = out g) (gate_meaning M g) (m', (next + 1)%N, gs ++ [ng]).
Proof.
  intros [Hn Hssa Hdef Hsem] Hr Ho Hov. simpl in *.
  destruct (relabel_operands m g (λ _ c, (c < next)%N)) as (i0 & i1 & -> & -> & Hnew & Hval);
    [auto|]. simpl.
  assert (∃ m', vset m (out g) next = Ret m') as [m' Hset] by (eexists; by apply vset_lt).
  rewrite Hset, u32_small by lia. simpl. exists m', (MkGate i0 i1 next (op g)). split; [done|].
  assert (∀ w, vget m' w = if decide (w = out g) then Ret next else vget m w) as Hget
    by (intros; by apply vget_set).
  destruct (Hnew next) as [Hcan Hreads]. split; [done|].
  split; [apply vset_Ret in Hset as [_ ->]; apply vlen_insert|]. split; simpl.
  - rewrite vlen_app, Hn. unfold vlen. simpl. lia.
  - apply ssa_snoc; [done|]. split; [done|]. unfold vlen in *. simpl. split; [lia|].
    intros c (w & _ & _ & Hc)%Hreads. done.
  - intros w Hw. rewrite Hget. case_decide; [eexists; split; [done|lia]|].
    destruct Hw as [Hw|]; [|done]. destruct (Hdef w Hw) as (c & -> & Hc). eexists. split; [done|lia].
  - intros ins Hins. destruct (Hsem ins Hins) as (e & e' & He & He' & Hd & Hren).
    destruct (gate_val_Some e g) as [v Hv]; [auto|].
    exists (<[out g := v]> e), (<[next := v]> e'). split_and!.
    + unfold gate_meaning. rewrite He. simpl. by rewrite Hv.
    + apply sem_gates_snoc. exists e', v. split; [done|]. split; [|done].
      rewrite (Hval e e' next); [done|]. intros w c Hw Hc. apply Hren; auto.
    + intros w Hw. apply lookup_insert_is_Some. destruct (decide (out g = w)); [by left|right].
      split; [done|]. destruct Hw as [?| ->]; [auto|done].
    + intros w c Hw Hc. rewrite Hget in Hc. case_decide as Heq.
      * simplify_eq. by rewrite !lookup_insert_eq.
      * destruct Hw as [Hw|]; [|done].
        destruct (Hdef w Hw) as (c' & Hc' & Hlt). rewrite Hc in Hc'. injection Hc' as ->.
        rewrite !lookup_insert_ne by (done || lia). by apply Hren.
Qed.

(** All the gates of a well-formed program, from a map of its inputs. *)
Lemma uncompact_gates_ok ni src M m next gs :
  wf_program src → vlen m = num_wires src → (next + vlen (gates src) < 2 ^ 32)%N →
  FInv ni (λ w, (w < num_inputs src)%N) M (m, next, gs) →
  ∃ m' ext, foldO uncompact_step (m, next, gs) (gates src) =
      Ret (m', (next + vlen (gates src))%N, gs ++ ext) ∧
    op <$> ext = op <$> gates src ∧
    FInv ni (defined_by src (gates src)) (λ ins, e ← M ins; sem_gates (gates src) e)
      (m', (next + vlen (gates src))%N, gs ++ ext).
Proof.
  intros Hwf Hm Hov H0.
  destruct (foldO_inv uncompact_step (gates src) (λ don s, vlen s.1.1 = num_wires src ∧
    s.1.2 = (next + vlen don)%N ∧ (∃ ext, s.2 = gs ++ ext ∧ op <$> ext = op <$> don) ∧
    FInv ni (defined_by src don) (λ ins, e ← M ins; sem_gates don e) s) (m, next, gs))
    as ([[m' next'] gs'] & Hf & _ & Hn & (ext & Hgs & Hop) & Hinv).
  - split; [done|]. split; [simpl; unfold vlen; simpl; lia|].
    split; [exists []; by rewrite app_nil_r|]. eapply FInv_ext; [| |exact H0].
    + intros w [?|?%elem_of_nil]; done.
    + intros ins. by destruct (M ins).
  - intros don g todo [[m1 n1] gs1] Hg (Hl & Hn1 & (ext & Hgs1 & Hop) & Hinv). simpl in *. subst n1 gs1.
    destruct (wf_gates _ Hwf _ _ _ Hg) as [_ Hr [_ Ho] _].
    assert (vlen don + 1 ≤ vlen (gates src))%N.
    { rewrite Hg, vlen_app. unfold vlen at 3. simpl. lia. }
    destruct (uncompact_step_ok _ _ _ g _ _ _ Hinv) as (m2 & ng & Hstep & Hng & Hl2 & Hinv2);
      [intros w Hw; by apply Hr|lia|lia|].
    eexists. split; [exact Hstep|]. simpl. split; [lia|].
    split; [rewrite vlen_app; unfold vlen at 3; simpl; lia|].
    split; [exists (ext ++ [ng]); rewrite <- app_assoc, !fmap_app, Hop; simpl; by rewrite Hng|].
    eapply FInv_ext; [| |exact Hinv2].
    + intros w. apply defined_by_snoc.
    + intros ins. unfold gate_meaning. destruct (M ins) as [e|]; [|done]. simpl.
      rewrite sem_gates_app. simpl. by destruct (sem_gates don e).
  - simpl in *. subst. eauto.
Qed.

(** ** uncompact *)
Section uncompact.
Context (src : BooleanProgram) (Hwf : wf_program src).
Context (Hu : (num_inputs src + vlen (gates src) < 2 ^ 32)%N).
#[local] Abbreviation NI := (num_inputs src).

Lemma uncompact_ok :
  ∃ d, uncompact src = Ret d ∧ wf_program d ∧ prog_u32 d ∧ wire_reuse d = ReuseNone ∧
    num_inputs d = NI ∧ op <$> gates d = op <$> gates src ∧
    (∀ k g, gates d !! k = Some g → out g = (NI + N.of_nat k)%N) ∧
    ∀ ins, vlen ins = NI → eval_program d ins = eval_program src ins.
Proof.
  assert (num_wires src < 2 ^ 32)%N as Hnw.
  { pose proof (wf_count _ Hwf). destruct (wire_reuse src); lia. }
  destruct (number_inputs_ok NI (num_wires src)) as (cur0 & Hc0 & Hl0 & Hi0);
    [apply Hwf|done|].
  destruct (uncompact_gates_ok NI src (λ ins, Some (init_env ins)) cur0 NI []) as
    (cur & gs & Hf & Hop & [Hn Hssa Hdef Hsem]); [done|done|done| |].
  { split; simpl; [unfold vlen; simpl; lia|done| |].
    - intros w Hw. rewrite Hi0 by done. eauto.
    - intros ins Hins. eexists _, _. split; [done|]. split; [done|]. split.
      + intros w Hw. apply init_env_Some. by rewrite Hins.
      + intros w c Hw Hc. rewrite Hi0 in Hc by done. by injection Hc as ->. }
  cbn [app fst snd] in *. set (next := (NI + vlen (gates src))%N) in *.
  pose proof (wf_outputs _ Hwf) as Hout.
  assert (vlen gs = vlen (gates src)) as Hl.
  { unfold vlen. by rewrite <- (length_fmap op gs), Hop, length_fmap. }
  assert (∃ outs, vgather cur (outputs src) = Ret outs ∧ Forall (λ w, (w < next)%N) outs)
    as (outs & Houts & Hob).
  { clear -Hout Hdef. induction Hout as [|w ws [_ Hw] _ (outs & Ho & Hb)]; [by exists []|].
    destruct (Hdef w Hw) as (c & Hc & Hlt). exists (c :: outs). split; [|by constructor].
    apply vgather_Ret. apply vgather_Ret in Ho. constructor; [by apply vget_Ret|done]. }
  set (d := MkProgram next NI ReuseNone gs outs).
  assert (num_wires d = NI + vlen (gates d))%N as Hnd by (simpl; by rewrite Hl).
  assert (wf_program d) as Hwd by (by apply ssa_wf).
  exists d. split_and!; [|done|apply ssa_u32; [done|simpl; lia|done..]|done..| |].
  - unfold uncompact. rewrite (proj2 (validate_wf _) Hwf). simpl. rewrite Hc0. simpl.
    rewrite Hf. simpl. rewrite Houts. simpl. change (MkProgram next NI ReuseNone gs outs) with d.
    by rewrite (proj2 (validate_wf _) Hwd).
  - intros k g Hk. by destruct (Hssa _ _ Hk) as (_ & ? & _).
  - intros ins Hins. destruct (Hsem ins Hins) as (e & e' & He & He' & _ & Hren). simpl in He.
    unfold eval_program. rewrite He. simpl. unfold sem_at in He'. rewrite He'. simpl.
    destruct (eval_program_total src Hwf ins Hins) as (bs & Hbs & _).
    unfold eval_program in Hbs. rewrite He in Hbs. simpl in Hbs. rewrite Hbs.
    eapply outputs_renamed; [exact Hren| |exact Houts|exact Hbs].
    eapply Forall_impl; [exact Hout|]. by intros w [_ ?].
Qed.
End uncompact.

(** ** make_compact *)

(** A loop that marks the keys of a list's elements. *)
Lemma mark_loop_ok {A} n (c : A → bool) (key : A → N) l m (P : N → Prop) :
  vspec n (λ w b, b = true ↔ P w) m →
  (∀ a, a ∈ l → c a = true → (key a < n)%N) →
  ∃ m', foldO (λ m a, if c a then vset m (key a) true else Ret m) m l = Ret m' ∧
    vspec n (λ w b, b = true ↔ P w ∨ ∃ a, a ∈ l ∧ c a = true ∧ key a = w) m'.
Proof.
  intros Hm Hk.
  apply (foldO_inv _ l (λ don, vspec n (λ w b, b = true ↔ P w ∨ ∃ a, a ∈ don ∧ c a = true ∧ key a = w))).
  { eapply vspec_impl; [exact Hm|]. simpl. intros w b _ ->. set_solver. }
  intros don a todo m1 -> Hm1. destruct (c a) eqn:Hc.
  - eapply vspec_set; [exact Hm1|apply Hk; [set_solver|done]| |].
    + split; [|done]. intros _. right. exists a. set_solver.
    + simpl. intros w b _ Hne ->. split; [intros [?|(x&?&?&?)]; set_solver|].
      intros [?|(x & [?| ->%list_elem_of_singleton]%elem_of_app & ? & ?)]; [auto| |congruence]. eauto.
  - eexists. split; [done|]. eapply vspec_impl; [exact Hm1|]. simpl. intros w b _ ->.
    split; [intros [?|(x&?&?&?)]; set_solver|].
    intros [?|(x & [?| ->%list_elem_of_singleton]%elem_of_app & ? & ?)]; [auto| |congruence]. eauto.
Qed.

Section compact.
Context (dense : BooleanProgram) (Hwf : wf_program dense).
Context (Hdense : wire_reuse dense = ReuseNone) (Hsmall : (num_wires dense < 2 ^ 32)%N).
Context (target : WireReuse).
#[local] Abbreviation NI := (num_inputs dense).
#[local] Abbreviation NW := (num_wires dense).

(** The wires whose id is never recycled. *)
Definition persists (w : N) : Prop :=
  (w < NI)%N ∨ w ∈ outputs dense ∨
  (target = ReuseLinear ∧ ∃ g, g ∈ gates dense ∧ is_and g = true ∧ out g = w).

Lemma gate_out_in g : g ∈ gates dense → (NI ≤ out g < NW)%N.
Proof. intros (don & todo & Hg)%list_elem_of_split. apply (wf_gates _ Hwf _ _ _ Hg). Qed.

Lemma persist_marks_ok :
  ∃ m, persist_marks dense target = Ret m ∧ vspec NW (λ w b, b = true ↔ persists w) m.
Proof.
  unfold persist_marks, mark_outputs. pose proof (wf_inputs _ Hwf) as Hle.
  destruct (mark_loop_ok NW (λ _ : N, true) (λ i, i) (range 0 NI) (vmake NW false) (λ _, False))
    as (m0 & Hf0 & Hm0).
  { apply vspec_make. done. }
  { intros i Hi%elem_of_range _. lia. }
  cbv beta iota in Hf0. rewrite Hf0. simpl.
  destruct (mark_loop_ok NW (λ w, (w <? NW)%N) (λ w, w) (outputs dense) m0 _ Hm0)
    as (m1 & -> & Hm1); [intros a _ ?%N.ltb_lt; done|]. simpl.
  assert (vspec NW (λ w b, b = true ↔ (w < NI)%N ∨ w ∈ outputs dense) m1) as Hm1'.
  { eapply vspec_impl; [exact Hm1|]. simpl. intros w b Hw ->. split.
    - intros [[[]|(a & Ha%elem_of_range & _ & <-)]|(a & Ha & _ & <-)]; [left; lia|by right].
    - intros [Hi|Ho].
      + left. right. exists w. rewrite elem_of_range. split; [lia|done].
      + right. exists w. rewrite N.ltb_lt. done. }
  case_bool_decide as Ht.
  - destruct (mark_loop_ok NW is_and out (gates dense) m1 _ Hm1') as (m2 & -> & Hm2).
    { intros g Hg _. by apply gate_out_in. }
    eexists. split; [done|]. eapply vspec_impl; [exact Hm2|]. simpl. intros w b _ ->.
    unfold persists. naive_solver.
  - eexists. split; [done|]. eapply vspec_impl; [exact Hm1'|]. simpl. intros w b _ ->.
    unfold persists. naive_solver.
Qed.

(** The wires whose last reader is among the first [n] gates and whose id may
    be recycled; and the wires that hold a value after the gates [don]. *)
Definition freed (n : N) (w : N) : Prop :=
  ¬ persists w ∧ ∃ j, is_last_read (gates dense) w (Some j) ∧ (j < n)%N.
Definition alive (don : list Gate) (w : N) : Prop :=
  defined_by dense don w ∧ ¬ freed (vlen don) w.

Lemma alive_reads don g todo w :
  gates dense = don ++ g :: todo → w ∈ reads g → alive don w.
Proof.
  intros Hg Hw. destruct (wf_gates _ Hwf _ _ _ Hg) as [_ Hr _ _]. split; [by apply Hr|].
  intros [_ (j & [_ Hmax] & Hj)].
  assert (gates dense !! length don = Some g) as Hk by (rewrite Hg; by apply list_lookup_middle).
  specialize (Hmax _ _ Hk Hw). unfold vlen in Hj. lia.
Qed.
Lemma alive_snoc don g todo w :
  gates dense = don ++ g :: todo → alive (don ++ [g]) w →
  (alive don w ∧ w ≠ out g ∧ ¬ (¬ persists w ∧ is_last_read (gates dense) w (Some (vlen don)))) ∨
  w = out g.
Proof.
  intros Hg [Hd Hnf]. apply defined_by_snoc in Hd as [Hd|]; [left|by right].
  rewrite vlen_app in Hnf. change (vlen [g]) with 1%N in Hnf. split_and!.
  - split; [done|]. intros [Hp (j & Hl & Hj)]. apply Hnf. split; [done|].
    exists j. split; [done|lia].
  - intros ->. destruct (wf_gates _ Hwf _ _ _ Hg) as [_ _ Ho Hn].
    destruct Hd as [?|?]; [lia|]. by apply (Hn Hdense).
  - intros [Hp Hl]. apply Hnf. split; [done|]. exists (vlen don). split; [done|lia].
Qed.
Lemma alive_persists don w : defined_by dense don w → persists w → alive don w.
Proof. intros Hd Hp. split; [done|]. by intros [? _]. Qed.

Record CInv (don : list Gate) (s : CompactState) : Prop := {
  ci_nid : vlen (cs_nid s) = NW;
  ci_next : (NI ≤ cs_next s ≤ NI + vlen don)%N;
  ci_alive : ∀ w, alive don w → ∃ c, vget (cs_nid s) w = Ret c ∧ (c < cs_next s)%N ∧
    (c ∉ cs_free s) ∧ ((c < NI)%N ∧ (w < NI)%N ∨ c ∈ out <$> cs_gates s);
  ci_inj : ∀ w w' c, alive don w → alive don w' →
    vget (cs_nid s) w = Ret c → vget (cs_nid s) w' = Ret c → w = w';
  ci_free : NoDup (cs_free s) ∧ ∀ c, c ∈ cs_free s → c ∈ out <$> cs_gates s;
  ci_ops : op <$> cs_gates s = op <$> don;
  ci_gates : ∀ don' g' todo', cs_gates s = don' ++ g' :: todo' →
    canonical g' ∧ (NI ≤ out g' < cs_next s)%N ∧
    ∀ c, c ∈ reads g' → (c < cs_next s)%N ∧ ((c < NI)%N ∨ c ∈ out <$> don');
  ci_pin : ∀ k g g', don !! k = Some g → cs_gates s !! k = Some g' →
    persists (out g) → vget (cs_nid s) (out g) = Ret (out g');
  ci_once : ∀ i j gi' gj' g, cs_gates s !! i = Some gi' → cs_gates s !! j = Some gj' →
    don !! i = Some g → persists (out g) → (i < j)%nat → out gj' ≠ out gi';
  ci_sem : ∀ ins, vlen ins = NI → ∃ e e', sem_at don ins e ∧ sem_at (cs_gates s) ins e' ∧
    env_renamed (alive don) (cs_nid s) e e' }.

Lemma CInv_out_bounds don s c : CInv don s → c ∈ out <$> cs_gates s → (NI ≤ c < cs_next s)%N.
Proof.
  intros Hi (g & -> & (l1 & l2 & Hg)%list_elem_of_split)%list_elem_of_fmap.
  by apply (ci_gates _ _ Hi) in Hg as (_ & ? & _).
Qed.

(** Choosing the output slot. *)
Lemma pick_slot_ok don s (k : bool) todo g :
  gates dense = don ++ g :: todo → CInv don s →
  ∃ o next freelist,
    (match k, cs_free s with
     | false, o :: freelist => (o, cs_next s, freelist)
     | _, freelist => (cs_next s, u32 (cs_next s + 1), freelist)
     end) = (o, next, freelist) ∧
    (cs_next s ≤ next ≤ cs_next s + 1)%N ∧ (NI ≤ o < next)%N ∧
    freelist ⊆ cs_free s ∧ NoDup freelist ∧ (o ∉ freelist) ∧
    (∀ w c, alive don w → vget (cs_nid s) w = Ret c → c ≠ o).
Proof.
  intros Hg Hi. pose proof (ci_next _ _ Hi) as Hn. destruct (ci_free _ _ Hi) as [Hnd Hfo].
  assert (cs_next s + 1 < 2 ^ 32)%N as Hov.
  { pose proof (wf_count _ Hwf) as Hc. rewrite Hdense, Hg, vlen_app in Hc.
    unfold vlen in *. simpl in Hc. lia. }
  assert (∃ o next freelist, (o, next, freelist) = (cs_next s, (cs_next s + 1)%N, cs_free s) ∧
    (cs_next s ≤ next ≤ cs_next s + 1)%N ∧ (NI ≤ o < next)%N ∧
    freelist ⊆ cs_free s ∧ NoDup freelist ∧ (o ∉ freelist) ∧
    (∀ w c, alive don w → vget (cs_nid s) w = Ret c → c ≠ o)) as Hfresh.
  { eexists _, _, _. split; [done|]. split_and!; try done; try lia.
    - intros Hin%Hfo. apply (CInv_out_bounds don) in Hin; [lia|done].
    - intros w c Hw Hc ->. destruct (ci_alive _ _ Hi w Hw) as (c' & Hc' & Hlt & _).
      rewrite Hc in Hc'. injection Hc' as <-. lia. }
  rewrite u32_small by done. destruct k.
  { destruct Hfresh as (o & next & fl & Heq & H). exists o, next, fl. by destruct (cs_free s). }
  destruct (cs_free s) as [|o freelist] eqn:Hf.
  { destruct Hfresh as (o & next & fl & Heq & H). by exists o, next, fl. }
  exists o, (cs_next s), freelist. split; [done|]. apply NoDup_cons in Hnd as [Ho Hnd].
  pose proof (CInv_out_bounds don s o Hi (Hfo o ltac:(set_solver))).
  split_and!; try done; try lia; [set_solver|].
  intros w c Hw Hc ->. destruct (ci_alive _ _ Hi w Hw) as (c' & Hc' & _ & Hnf & _).
  rewrite Hc in Hc'. injection Hc' as <-. rewrite Hf in Hnf. set_solver.
Qed.

(** Recycling the ids of the wires in [fl]. *)
Lemma recycle_ok (nid : list N) fl fr :
  (∀ w, w ∈ fl → ∃ c, vget nid w = Ret c ∧ c ∉ fr) →
  (∀ w w' c, w ∈ fl → w' ∈ fl → vget nid w = Ret c → vget nid w' = Ret c → w = w') →
  NoDup fl → NoDup fr →
  ∃ fr', foldO (λ fr w, c ← vget nid w; Ret (c :: fr)) fr fl = Ret fr' ∧ NoDup fr' ∧
    ∀ c, c ∈ fr' ↔ c ∈ fr ∨ ∃ w, w ∈ fl ∧ vget nid w = Ret c.
Proof.
  revert fr. induction fl as [|w fl IH]; intros fr Hget Hinj Hnd Hfr; simpl.
  { exists fr. split; [done|]. split; [done|]. set_solver. }
  apply NoDup_cons in Hnd as [Hw Hnd]. destruct (Hget w) as (c & Hc & Hnc); [set_solver|].
  rewrite Hc. simpl. destruct (IH (c :: fr)) as (fr' & Hf & Hn' & Hin').
  - intros w' Hw'. destruct (Hget w') as (c' & Hc' & Hnc'); [set_solver|].
    exists c'. split; [done|]. intros [->|?]%elem_of_cons; [|done].
    apply Hw. rewrite (Hinj w w' c) by (done || set_solver). done.
  - intros w1 w2 c' H1 H2. apply Hinj; set_solver.
  - done.
  - by constructor.
  - exists fr'. split; [done|]. split; [done|]. intros c'. rewrite Hin', elem_of_cons. split.
    + intros [[->|?]|(w' & ? & ?)]; [right; exists w; set_solver|by left|right; exists w'; set_solver].
    + intros [?|(w' & [->|?]%elem_of_cons & Hc')]; [auto| |eauto].
      rewrite Hc in Hc'. injection Hc' as ->. auto.
Qed.

Context (persist : list bool) (Hpersist : vspec NW (λ w b, b = true ↔ persists w) persist).
Context (frees : list (list N)).
Context (Hfrees : vspec (vlen (gates dense)) (λ gi l, NoDup l ∧ ∀ w, w ∈ l ↔
  (w < NW)%N ∧ is_last_read (gates dense) w (Some gi) ∧ ¬ persists w) frees).

(** The wires freed by gate [g] are alive before it. *)
Lemma freed_alive don g todo w :
  gates dense = don ++ g :: todo → is_last_read (gates dense) w (Some (vlen don)) →
  alive don w ∧ w ≠ out g.
Proof.
  intros Hg [(g' & Hg' & Hr) _].
  assert (g' = g) as ->.
  { rewrite Hg in Hg'. unfold vlen in Hg'. rewrite Nat2N.id, list_lookup_middle in Hg' by done. congruence. }
  split; [by eapply alive_reads|]. intros ->.
  destruct (wf_gates _ Hwf _ _ _ Hg) as [_ Hrd Ho Hn]. destruct (Hrd _ Hr) as [_ [?|?]]; [lia|].
  by apply (Hn Hdense).
Qed.

(** The state after gate [g] was given slot [o]: the clauses of the invariant. *)
Section placed.
Context (don : list Gate) (g : Gate) (todo : list Gate) (s : CompactState) (o next i0 i1 : N) (nid freelist' : list N).
#[local] Abbreviation g' := (MkGate i0 i1 o (op g)).
Context (Hg : gates dense = don ++ g :: todo) (Hi : CInv don s).
Context (Hnext : (cs_next s ≤ next ≤ cs_next s + 1)%N) (Ho : (NI ≤ o < next)%N).
Context (Hno : ∀ w c, alive don w → vget (cs_nid s) w = Ret c → c ≠ o).
Context (Hset : vset (cs_nid s) (out g) o = Ret nid).
Context (Hrel : canonical g' ∧ ∀ c, c ∈ reads g' → ∃ w, w ∈ reads g ∧ vget nid w = Ret c ∧ True).
Context (Hval : ∀ (e e' : gmap N bool),
  (∀ w c, w ∈ reads g → vget nid w = Ret c → e' !! c = e !! w) → gate_val e' g' = gate_val e g).
Context (Hnd : NoDup freelist').
Context (Hfree : ∀ c, c ∈ freelist' → c ≠ o ∧ (c ∈ cs_free s ∨ ∃ w, alive don w ∧ vget (cs_nid s) w = Ret c ∧
  ¬ persists w ∧ is_last_read (gates dense) w (Some (vlen don)))).

Lemma placed_get w : vget nid w = if decide (w = out g) then Ret o else vget (cs_nid s) w.
Proof. by apply vget_set. Qed.
Lemma placed_reads w : w ∈ reads g → alive don w ∧ w ≠ out g.
Proof.
  intros Hw. split; [by eapply alive_reads|]. intros ->.
  destruct (wf_gates _ Hwf _ _ _ Hg) as [_ Hr Hob Hn]. destruct (Hr _ Hw) as [_ [?|?]]; [lia|]. by apply (Hn Hdense).
Qed.
Lemma placed_length : length (cs_gates s) = length don.
Proof. by rewrite <- (length_fmap op (cs_gates s)), (ci_ops _ _ Hi), length_fmap. Qed.
Lemma done_persists k g1 : don !! k = Some g1 → persists (out g1) → alive don (out g1).
Proof.
  intros Hk. apply alive_persists. right. apply list_elem_of_fmap. exists g1.
  split; [done|]. apply list_elem_of_lookup. eauto.
Qed.
Lemma done_ne k g1 : don !! k = Some g1 → out g1 ≠ out g.
Proof.
  intros Hk Heq. destruct (wf_gates _ Hwf _ _ _ Hg) as [_ _ _ Hn]. apply (Hn Hdense).
  rewrite <- Heq. apply list_elem_of_fmap. exists g1. split; [done|]. apply list_elem_of_lookup. eauto.
Qed.

Lemma placed_alive w : alive (don ++ [g]) w → ∃ c, vget nid w = Ret c ∧ (c < next)%N ∧
  (c ∉ freelist') ∧ ((c < NI)%N ∧ (w < NI)%N ∨ c ∈ out <$> cs_gates s ++ [g']).
Proof.
  intros Hw. rewrite placed_get, fmap_app. simpl. case_decide as Hd.
  { exists o. split; [done|]. split; [lia|]. split; [|right; set_solver]. intros Hin. by destruct (Hfree _ Hin). }
  destruct (alive_snoc _ _ _ _ Hg Hw) as [(Ha & _ & Hnf)|]; [|done].
  destruct (ci_alive _ _ Hi w Ha) as (c & Hc & Hlt & Hnfr & Hor). exists c. split; [done|].
  split; [lia|]. split; [|destruct Hor; [by left|right; set_solver]].
  intros [_ [?|(w' & Ha' & Hc' & Hp & Hl)]]%Hfree; [done|].
  apply Hnf. by rewrite (ci_inj _ _ Hi w w' c) by done.
Qed.
Lemma placed_inj w w' c : alive (don ++ [g]) w → alive (don ++ [g]) w' → vget nid w = Ret c → vget nid w' = Ret c → w = w'.
Proof.
  intros Hw Hw'. rewrite !placed_get.
  destruct (alive_snoc _ _ _ _ Hg Hw) as [(Ha & Hne & _)| ->];
    destruct (alive_snoc _ _ _ _ Hg Hw') as [(Ha' & Hne' & _)| ->];
    repeat case_decide; try done; intros; simplify_eq; [by eapply (ci_inj _ _ Hi)|..]; exfalso; by eapply Hno.
Qed.
Lemma placed_free c : c ∈ freelist' → c ∈ out <$> cs_gates s ++ [g'].
Proof.
  intros [_ Hc]%Hfree. rewrite fmap_app. apply elem_of_app. left.
  destruct Hc as [Hc|(w & Ha & Hc & Hp & _)]; [by apply (ci_free _ _ Hi)|].
  destruct (ci_alive _ _ Hi w Ha) as (c' & Hc' & _ & _ & Hor). rewrite Hc in Hc'. injection Hc' as <-.
  destruct Hor as [[_ Hlt]|?]; [|done]. destruct Hp. by left.
Qed.
Lemma placed_gates don' g1 todo' : cs_gates s ++ [g'] = don' ++ g1 :: todo' →
  canonical g1 ∧ (NI ≤ out g1 < next)%N ∧ ∀ c, c ∈ reads g1 → (c < next)%N ∧ ((c < NI)%N ∨ c ∈ out <$> don').
Proof.
  intros Heq. destruct Hrel as [Hcan Hreads]. destruct todo' as [|g2 todo' _] using rev_ind.
  - apply app_inj_tail in Heq as [<- <-]. split; [done|]. simpl. split; [lia|].
    intros c (w & [Ha Hne]%placed_reads & Hc & _)%Hreads. rewrite placed_get, decide_False in Hc by done.
    destruct (ci_alive _ _ Hi w Ha) as (c' & Hc' & Hlt & _ & Hor). rewrite Hc in Hc'. injection Hc' as <-.
    split; [lia|]. destruct Hor as [[? _]|?]; auto.
  - rewrite app_comm_cons, app_assoc in Heq. apply app_inj_tail in Heq as [Heq _].
    apply (ci_gates _ _ Hi) in Heq as (? & ? & Hrs). split; [done|]. split; [lia|].
    intros c Hc. destruct (Hrs c Hc). split; [lia|done].
Qed.
Lemma placed_pin k g1 g1' : (don ++ [g]) !! k = Some g1 → (cs_gates s ++ [g']) !! k = Some g1' →
  persists (out g1) → vget nid (out g1) = Ret (out g1').
Proof.
  pose proof placed_length as Hlg. intros [Hk|[Hk Hg1]]%lookup_app_Some Hk' Hp.
  - rewrite lookup_app_l in Hk' by (apply lookup_lt_Some in Hk; lia).
    rewrite placed_get, decide_False; [by eapply (ci_pin _ _ Hi)|by eapply done_ne].
  - apply list_lookup_singleton_Some in Hg1 as [? <-].
    rewrite lookup_app_r in Hk' by lia. replace (k - length (cs_gates s))%nat with 0%nat in Hk' by lia.
    simpl in Hk'. injection Hk' as <-. by rewrite placed_get, decide_True.
Qed.
Lemma placed_once i j gi' gj' g1 : (cs_gates s ++ [g']) !! i = Some gi' → (cs_gates s ++ [g']) !! j = Some gj' →
  (don ++ [g]) !! i = Some g1 → persists (out g1) → (i < j)%nat → out gj' ≠ out gi'.
Proof.
  pose proof placed_length as Hlg. intros Hi' Hj' Hd Hp Hlt. apply lookup_app_Some in Hj' as [Hj'|[Hj Hj']].
  - pose proof (lookup_lt_Some _ _ _ Hj').
    rewrite lookup_app_l in Hi' by lia. rewrite lookup_app_l in Hd by lia. by eapply (ci_once _ _ Hi).
  - apply list_lookup_singleton_Some in Hj' as [Hz <-]. simpl.
    rewrite lookup_app_l in Hi' by lia. rewrite lookup_app_l in Hd by lia. intros ->.
    apply (Hno (out g1) (out gi')); [by eapply done_persists|by eapply (ci_pin _ _ Hi)|done].
Qed.
Lemma placed_sem ins : vlen ins = NI → ∃ e e', sem_at (don ++ [g]) ins e ∧ sem_at (cs_gates s ++ [g']) ins e' ∧
  env_renamed (alive (don ++ [g])) nid e e'.
Proof.
  intros Hins. destruct (ci_sem _ _ Hi ins Hins) as (e & e' & He & He' & Hren).
  destruct (gate_val_Some e g) as [v Hv].
  { destruct (sem_gates_defined dense Hwf ins don (g :: todo) Hg Hins) as (e1 & He1 & Hd).
    unfold sem_at in He. simplify_eq. intros w Hw. apply Hd. by apply placed_reads. }
  exists (<[out g := v]> e), (<[o := v]> e'). split_and!.
  - apply sem_gates_snoc. eauto.
  - apply sem_gates_snoc. exists e', v. split; [done|]. split; [|done].
    rewrite (Hval e e'); [done|]. intros w c Hw Hc. apply placed_reads in Hw as [Ha Hne].
    rewrite placed_get, decide_False in Hc by done. by apply Hren.
  - intros w c Hw Hc. rewrite placed_get in Hc. case_decide as Hd.
    + simplify_eq. by rewrite !lookup_insert_eq.
    + destruct (alive_snoc _ _ _ _ Hg Hw) as [(Ha & _ & _)|]; [|done].
      rewrite !lookup_insert_ne by (done || (intros <-; by eapply Hno)). by apply Hren.
Qed.

Lemma compact_state_ok : CInv (don ++ [g]) (MkCompact nid next freelist' (cs_gates s ++ [g'])).
Proof.
  pose proof (ci_next _ _ Hi). split; simpl;
    [| |exact placed_alive|exact placed_inj|split; [exact Hnd|exact placed_free]| |exact placed_gates|exact placed_pin
    |exact placed_once|exact placed_sem].
  - pose proof Hset as [_ ->]%vset_Ret. rewrite vlen_insert. apply (ci_nid _ _ Hi).
  - rewrite vlen_app. change (vlen [g]) with 1%N. lia.
  - by rewrite !fmap_app, (ci_ops _ _ Hi).
Qed.
End placed.

Lemma compact_step_ok don g todo s :
  gates dense = don ++ g :: todo → CInv don s →
  ∃ s', compact_step dense persist frees s (vlen don) = Ret s' ∧ CInv (don ++ [g]) s'.
Proof.
  intros Hg Hi. unfold compact_step. rewrite (gate_at _ _ _ _ Hg). simpl.
  pose proof (wf_gates _ Hwf _ _ _ Hg) as [_ Hr [Hlo Ho] Hn].
  destruct (vspec_get _ _ _ (out g) Hpersist Ho) as (k & -> & _). simpl.
  destruct (pick_slot_ok don s k todo g Hg Hi)
    as (o & next & fl & -> & Hnext & Hob & Hsub & Hnd & Hof & Hno).
  assert (∃ nid, vset (cs_nid s) (out g) o = Ret nid) as [nid Hset].
  { eexists. apply vset_lt. by rewrite (ci_nid _ _ Hi). }
  rewrite Hset. simpl.
  assert (∀ w, w ≠ out g → vget nid w = vget (cs_nid s) w) as Hget.
  { intros w Hne. rewrite (vget_set _ _ _ _ w Hset). by rewrite decide_False. }
  assert (∀ w, alive don w → ∃ c, vget (cs_nid s) w = Ret c ∧ c ∉ cs_free s) as Hal.
  { intros w Ha. destruct (ci_alive _ _ Hi w Ha) as (c & ? & _ & ? & _). eauto. }
  destruct (relabel_operands nid g (λ _ _, True)) as (i0 & i1 & -> & -> & Hnew & Hval).
  { intros w Hw. destruct (Hal w) as (c & Hc & _); [by eapply alive_reads|].
    exists c. split; [|done]. rewrite Hget; [done|]. intros ->.
    destruct (Hr _ Hw) as [_ [?|?]]; [lia|]. by apply (Hn Hdense). }
  simpl. destruct (vspec_get _ _ _ (vlen don) Hfrees) as (l & -> & Hndl & Hl).
  { rewrite Hg, vlen_app. unfold vlen. simpl. lia. }
  assert (∀ w, w ∈ l → alive don w ∧ w ≠ out g) as Hla.
  { intros w (_ & Hlr & _)%Hl. by eapply freed_alive. }
  simpl. destruct (recycle_ok nid l fl) as (fr' & -> & Hndf & Hin).
  - intros w [Ha Hne]%Hla. rewrite Hget by done. destruct (Hal w Ha) as (c & Hc & Hnf).
    exists c. split; [done|]. by intros ?%Hsub.
  - intros w w' c [Ha Hne]%Hla [Ha' Hne']%Hla. rewrite !Hget by done. by apply (ci_inj _ _ Hi).
  - done.
  - done.
  - simpl. eexists. split; [done|]. eapply compact_state_ok; try done.
    { intros e e' He. by apply Hval. }
    intros c [Hc|(w & Hw & Hc)]%Hin.
    + split; [by intros ->|]. left. by apply Hsub.
    + pose proof (Hla w Hw) as [Ha Hne]. rewrite Hget in Hc by done. split; [by eapply Hno|].
      right. exists w. apply Hl in Hw as (_ & ? & ?). done.
Qed.
End compact.

Section make_compact.
Context (dense : BooleanProgram) (Hwf : wf_program dense).
Context (Hdense : wire_reuse dense = ReuseNone) (Hsmall : (num_wires dense < 2 ^ 32)%N).
Context (target : WireReuse) (Htarget : target ≠ ReuseNone).
#[local] Abbreviation NI := (num_inputs dense).
#[local] Abbreviation NW := (num_wires dense).

Lemma CInv_init nid :
  vlen nid = NW → (∀ w, (w < NI)%N → vget nid w = Ret w) →
  CInv dense target [] (MkCompact nid NI [] []).
Proof.
  intros Hl Hi. assert (∀ w, alive dense target [] w → (w < NI)%N) as Ha.
  { intros w [[?|?%elem_of_nil] _]; done. }
  split; simpl; try done; try lia.
  - intros w Hw%Ha. exists w. split; [auto|]. split; [done|]. split; [apply not_elem_of_nil|auto].
  - intros w w' c Hw%Ha Hw'%Ha. rewrite !Hi by done. congruence.
  - split; [constructor|]. by intros c ?%elem_of_nil.
  - intros don' g' todo' Heq. by destruct don'.
  - intros ins Hins. eexists _, _. split; [done|]. split; [done|].
    intros w c Hw%Ha. rewrite Hi by done. by intros [= ->].
Qed.

(** The lists of freed wires, as the program has them. *)
Lemma compact_frees_ok lu m fr :
  vspec NW (λ w o, is_last_read (gates dense) w o) lu → vspec NW (λ w b, b = true ↔ persists dense target w) m →
  vspec (vlen (gates dense)) (frees_spec lu m NW) fr →
  vspec (vlen (gates dense)) (λ gi l, NoDup l ∧ ∀ w, w ∈ l ↔
    (w < NW)%N ∧ is_last_read (gates dense) w (Some gi) ∧ ¬ persists dense target w) fr.
Proof.
  intros Hlu Hmp Hfrs. eapply vspec_impl; [exact Hfrs|]. intros gi l _ [Hnd Hl]. split; [done|].
  intros w. rewrite Hl.
  split; intros (Hw & H1 & H2);
    destruct (vspec_get _ _ _ w Hlu Hw) as (o & Ho & HP);
    destruct (vspec_get _ _ _ w Hmp Hw) as (b & Hb & HQ).
  - rewrite Ho in H1. injection H1 as ->. rewrite Hb in H2. injection H2 as ->.
    split; [done|]. split; [done|]. by intros ?%HQ.
  - split; [done|]. rewrite Ho, Hb. split; [f_equal; by eapply is_last_read_unique|].
    destruct b; [|done]. by destruct H2; apply HQ.
Qed.

(** The program made of a finished state. *)
Section finished.
Context (s : CompactState) (Hinv : CInv dense target (gates dense) s).
Lemma outputs_alive w : w ∈ outputs dense → alive dense target (gates dense) w.
Proof.
  intros Hw. pose proof (wf_outputs _ Hwf) as Hout. rewrite Forall_forall in Hout.
  apply alive_persists; [by apply Hout|]. by right; left.
Qed.
Lemma compact_outputs_ok : ∃ outs, vgather (cs_nid s) (outputs dense) = Ret outs ∧
  Forall (λ c, (c < cs_next s)%N ∧ ((c < NI)%N ∨ c ∈ out <$> cs_gates s)) outs.
Proof.
  pose proof outputs_alive as Hoa. induction (outputs dense) as [|w ws IH]; [by exists []|].
  destruct IH as (outs & Ho & Hb); [intros; apply Hoa; set_solver|].
  destruct (ci_alive _ _ _ _ Hinv w) as (c & Hc & Hlt & _ & Hor); [apply Hoa; set_solver|].
  exists (c :: outs). split.
  - apply vgather_Ret. apply vgather_Ret in Ho. constructor; [by apply vget_Ret|done].
  - constructor; [|done]. split; [done|]. destruct Hor as [[]|]; auto.
Qed.
Lemma compact_length : vlen (cs_gates s) = vlen (gates dense).
Proof. unfold vlen. by rewrite <- (length_fmap op (cs_gates s)), (ci_ops _ _ _ _ Hinv), length_fmap. Qed.
Context (outs : list N) (Houts : vgather (cs_nid s) (outputs dense) = Ret outs).
#[local] Abbreviation prog := (MkProgram (cs_next s) NI target (cs_gates s) outs).
Lemma compact_wf :
  Forall (λ c, (c < cs_next s)%N ∧ ((c < NI)%N ∨ c ∈ out <$> cs_gates s)) outs → wf_program prog.
Proof.
  intros Hob. pose proof (ci_next _ _ _ _ Hinv). pose proof compact_length. split; simpl; [lia| | |done].
  - destruct target; [done|lia|lia].
  - intros don g todo Heq. destruct (ci_gates _ _ _ _ Hinv _ _ _ Heq) as (Hc & Hb & Hrd).
    split; simpl; [done|done|done|]. by intros ?.
Qed.
Lemma compact_eval ins : vlen ins = NI → eval_program prog ins = eval_program dense ins.
Proof.
  intros Hins. destruct (ci_sem _ _ _ _ Hinv ins Hins) as (e & e' & He & He' & Hren).
  unfold eval_program. rewrite He. simpl. rewrite He'. simpl.
  destruct (eval_program_total dense Hwf ins Hins) as (bs & Hbs & _).
  unfold eval_program in Hbs. rewrite He in Hbs. simpl in Hbs. rewrite Hbs.
  eapply outputs_renamed; [exact Hren| |exact Houts|exact Hbs]. apply Forall_forall, outputs_alive.
Qed.
End finished.

Lemma make_compact_ok :
  ∃ r, make_compact dense target = Ret r ∧ wf_program (res_prog r) ∧
    wire_reuse (res_prog r) = target ∧ num_inputs (res_prog r) = NI ∧
    (num_wires (res_prog r) ≤ NW)%N ∧ op <$> gates (res_prog r) = op <$> gates dense ∧
    (∀ ins, vlen ins = NI → eval_program (res_prog r) ins = eval_program dense ins) ∧
    (∀ i j g gi gj, gates dense !! i = Some g → persists dense target (out g) →
       gates (res_prog r) !! i = Some gi → gates (res_prog r) !! j = Some gj →
       (i < j)%nat → out gj ≠ out gi).
Proof.
  destruct (liveness_pass_ok dense Hwf Hdense Hsmall) as (live & Hlive & Hlu & Hfd).
  destruct (persist_marks_ok dense Hwf Hsmall target) as (m & Hm & Hmp).
  destruct (frees_ok NW (vlen (gates dense)) (last_use live) m _ _ Hlu Hmp) as (fr & Hfr & Hfrs).
  { intros w gi [(g & Hg%lookup_lt_Some & _) _]. unfold vlen. lia. }
  pose proof (compact_frees_ok _ _ _ Hlu Hmp Hfrs) as Hfr'.
  destruct (number_inputs_ok NI NW) as (nid0 & Hn0 & Hl0 & Hi0); [apply Hwf|done|].
  destruct (foldO_index_inv (compact_step dense m fr) (gates dense) (CInv dense target)
    (MkCompact nid0 NI [] [])) as (s & Hs & Hinv); [by apply CInv_init| |].
  { intros. by eapply compact_step_ok. }
  pose proof (dense_count _ Hwf Hdense) as Hcnt. pose proof (ci_next _ _ _ _ Hinv) as Hnx.
  destruct (compact_outputs_ok s Hinv) as (outs & Houts & Hob). pose proof (compact_length s Hinv) as Hlen.
  pose proof (compact_wf s Hinv outs Hob) as Hwp. set (prog := MkProgram _ _ _ _ _) in *.
  exists (MkCompactResult prog (cs_nid s)). split_and!; simpl; try done; try lia.
  - unfold make_compact. rewrite bool_decide_eq_true_2 by done. simpl.
    rewrite bool_decide_eq_true_2 by done. simpl. rewrite (proj2 (validate_wf _) Hwf). simpl.
    rewrite Hlive. simpl. rewrite Hm. simpl. rewrite num_gate_dense, Hfr by done. simpl.
    rewrite Hn0. simpl. rewrite Hs. simpl. rewrite Houts. simpl.
    change (MkProgram (cs_next s) NI target (cs_gates s) outs) with prog.
    by rewrite (proj2 (validate_wf _) Hwp).
  - apply (ci_ops _ _ _ _ Hinv).
  - by apply compact_eval.
  - intros i j g gi gj Hi Hp Hgi Hgj Hlt. by eapply (ci_once _ _ _ _ Hinv).
Qed.
End make_compact.

(** ** Properties *)

(** C4: [make_compact] is correct.  For every program and target it either
    refuses (and then the target is None, the input is not dense, or the input
    is not well formed) or returns a well-formed program of the requested reuse
    level with the same inputs, the same sequence of operations, no more wires,
    and the same function; the id of an input, of an output and, for Linear, of
    an And output is never overwritten by a later gate. *)
Theorem make_compact_correct dense target :
  (num_wires dense < 2 ^ 32)%N →
  match make_compact dense target with
  | Ret r =>
      wf_program dense ∧ wf_program (res_prog r) ∧ wire_reuse (res_prog r) = target ∧
      num_inputs (res_prog r) = num_inputs dense ∧
      (num_wires (res_prog r) ≤ num_wires dense)%N ∧
      op <$> gates (res_prog r) = op <$> gates dense ∧
      (∀ ins, vlen ins = num_inputs dense →
         eval_program (res_prog r) ins = eval_program dense ins) ∧
      (∀ i j g gi gj, gates dense !! i = Some g →
         out g ∈ outputs dense ∨ (target = ReuseLinear ∧ op g = And) →
         gates (res_prog r) !! i = Some gi → gates (res_prog r) !! j = Some gj →
         (i < j)%nat → out gj ≠ out gi)
  | Fatal _ => target = ReuseNone ∨ wire_reuse dense ≠ ReuseNone ∨ ¬ wf_program dense
  | Undef => False
  end.
Proof.
  intros Hu. destruct (decide (target = ReuseNone)) as [->|Ht].
  { unfold make_compact. rewrite (bool_decide_eq_false_2 (ReuseNone ≠ ReuseNone)) by (intros H; by apply H).
    by left. }
  destruct (decide (wire_reuse dense = ReuseNone)) as [Hd|Hd].
  2:{ unfold make_compact. rewrite (bool_decide_eq_true_2 (target ≠ ReuseNone)) by done. simpl.
      rewrite bool_decide_eq_false_2 by done. by right; left. }
  destruct (decide (wf_program dense)) as [Hwf|Hwf].
  - destruct (make_compact_ok dense Hwf Hd Hu target Ht) as (r & -> & H1 & H2 & H3 & H4 & H5 & H6 & H7).
    split_and!; try done. intros i j g gi gj Hi Hp. apply (H7 i j g gi gj Hi).
    destruct Hp as [?|[-> Hop]]; [by right; left|]. right. right. split; [done|].
    exists g. split; [apply list_elem_of_lookup; eauto|]. unfold is_and. by rewrite Hop.
  - unfold make_compact. rewrite (bool_decide_eq_true_2 (target ≠ ReuseNone)) by done. simpl.
    rewrite bool_decide_eq_true_2 by done. simpl.
    pose proof (validate_wf dense) as Hv. pose proof (validate_not_Undef dense) as Hn.
    destruct (validate_program dense) as [[]| |]; simpl; [|by right; right|done].
    by destruct Hwf; apply Hv.
Qed.

(** [uncompact] is correct.  On any program whose dense form fits in 32-bit
    ids it refuses exactly the ill-formed ones, and otherwise returns a
    well-formed dense program whose gate [k] defines wire [num_inputs + k], with
    the same sequence of operations and the same function. *)
Theorem uncompact_correct src :
  (num_inputs src + vlen (gates src) < 2 ^ 32)%N →
  match uncompact src with
  | Ret d =>
      wf_program src ∧ wf_program d ∧ prog_u32 d ∧ wire_reuse d = ReuseNone ∧
      num_inputs d = num_inputs src ∧ op <$> gates d = op <$> gates src ∧
      (∀ k g, gates d !! k = Some g → out g = (num_inputs src + N.of_nat k)%N) ∧
      ∀ ins, vlen ins = num_inputs src → eval_program d ins = eval_program src ins
  | Fatal _ => ¬ wf_program src
  | Undef => False
  end.
Proof.
  intros Hu. destruct (decide (wf_program src)) as [Hwf|Hwf].
  - destruct (uncompact_ok src Hwf Hu) as (d & -> & Hd). done.
  - unfold uncompact. pose proof (validate_wf src) as Hv. pose proof (validate_not_Undef src) as Hn.
    destruct (validate_program src) as [[]| |]; simpl; [|done|done]. by destruct Hwf; apply Hv.
Qed.

(** A dense program whose third gate can reuse a slot. *)
Definition compact_sample : BooleanProgram :=
  MkProgram 7 2 ReuseNone
    [MkGate 0 1 2 Xor; MkGate 2 1 3 And; MkGate 3 0 4 Xor; MkGate 4 3 5 And; MkGate 5 0 6 Not]
    [6%N].
Lemma make_compact_correct_witness :
  match make_compact compact_sample ReuseFull with
  | Ret r => num_wires (res_prog r) = 6%N ∧
      eval_program (res_prog r) [true; false] = eval_program compact_sample [true; false]
  | _ => False
  end.
Proof.
  pose proof (make_compact_correct compact_sample ReuseFull eq_refl) as H.
  destruct (make_compact compact_sample ReuseFull) as [r| |] eqn:E;
    [|vm_compute in E; discriminate E..].
  split.
  - vm_compute in E. injection E as <-. reflexivity.
  - destruct H as (_ & _ & _ & _ & _ & _ & H & _). apply H. reflexivity.
Defined.
Lemma uncompact_correct_witness :
  match uncompact (MkProgram 3 2 ReuseFull [MkGate 0 1 2 Xor; MkGate 2 0 2 And] [2%N]) with
  | Ret d => num_wires d = 4%N ∧ wf_program d
  | _ => False
  end.
Proof.
  pose proof (uncompact_correct
    (MkProgram 3 2 ReuseFull [MkGate 0 1 2 Xor; MkGate 2 0 2 And] [2%N]) eq_refl) as H.
  destruct (uncompact _) as [d| |] eqn:E; [|vm_compute in E; discriminate E..].
  split.
  - vm_compute in E. injection E as <-. reflexivity.
  - destruct H as (_ & H & _). exact H.
Defined.
