(* ===== verification/Frontend.v ===== *)
(** * The circuit frontend (ir/artifact.h, circuits/frontend/circuit_fn.h)

    [compile] records a body over typed arguments into a [Circuit]: a validated
    program with its signature; [run] replays it on any context.  An argument or
    result value is the list of its wires, a body is a kernel over the argument
    bundles, and the declared value types are their widths.  The theorems: a
    compiled circuit, also compacted, run on any lawful context computes what
    the body computes on plaintext. *)

From S2P Require Import Prelude Program Validate Context Execute Kernel Record Passes Transform.

Record CircuitSignature : Type := MkSignature { arg_widths : list N; return_width : N }.
Definition total_input_bits (s : CircuitSignature) : N := foldl (λ s w, u64 (s + w)) 0%N (arg_widths s).
Record CircuitArtifact : Type := MkArtifact { program : BooleanProgram; signature : CircuitSignature }.

Definition validate_artifact (a : CircuitArtifact) : outcome unit :=
  validate_program (program a);;
  let ins := total_input_bits (signature a) in
  expecting (ins <=? UINT32_MAX)%N "validate_artifact: total_input_bits exceeds UINT32_MAX";;
  expecting (ins =? num_inputs (program a))%N
    "validate_artifact: sum(arg_widths) != program.num_inputs";;
  expecting (return_width (signature a) =? vlen (outputs (program a)))%N
    "validate_artifact: return_width != program.outputs size".

(** The constructor of [Circuit<RetV, ArgVs...>]; [want] and [ret] are the
    declared widths. *)
Definition Circuit (want : list N) (ret : N) (a : CircuitArtifact) : outcome CircuitArtifact :=
  validate_artifact a;;
  let s := signature a in
  expecting (vlen (arg_widths s) =? vlen want)%N
    "Circuit: artifact signature arity != declared value types";;
  foldO (λ _ '(i, w), x ← vget (arg_widths s) i;
      expecting (x =? w)%N "Circuit: artifact argument width != declared value width")
    tt (zip (range 0 (vlen want)) want);;
  expecting (return_width s =? ret)%N "Circuit: artifact return width != declared value width";;
  Ret a.

(** ** compile *)
(** One argument from a freshly reserved input window. *)
Definition make_rec_arg (width : N) : ST RecordCtx.State (list N) :=
  base ← RecordCtx.external_input width;
  mret ((λ i, u32 (base + i)) <$> range 0 width).
Fixpoint make_rec_args (widths : list N) : ST RecordCtx.State (list (list N)) :=
  match widths with
  | [] => mret []
  | w :: ws => a ← make_rec_arg w; rest ← make_rec_args ws; mret (a :: rest)
  end.

Definition Body (W : Type) : Type := list (list W) → Kernel W (list W).

Definition compile (widths : list N) (body : Body N) : outcome CircuitArtifact :=
  '(args, s) ← make_rec_args widths RecordCtx.init;
  '(ret, s) ← interp (body args) s;
  prog ← RecordCtx.finish ret s;
  let ret_width := u32 (vlen ret) in
  Circuit widths ret_width (MkArtifact prog (MkSignature widths ret_width)).
Definition compile_at (level : WireReuse) (widths : list N) (body : Body N) :
    outcome CircuitArtifact :=
  dense ← compile widths body;
  r ← make_compact (program dense) level;
  Circuit widths (return_width (signature dense)) (MkArtifact (res_prog r) (signature dense)).
Definition compile_linear (widths : list N) (body : Body N) : outcome CircuitArtifact :=
  compile_at ReuseLinear widths body.

(** ** run

    The branch for contexts that inline; on a [ComposeCtx] see Compose. *)
Definition run_inputs {W} (c : CircuitArtifact) (args : list (list W)) : outcome (list W) :=
  expecting (vlen (arg_widths (signature c)) =? vlen args)%N
    "frontend::run: argument count != circuit arity (stale artifact?)";;
  let inputs := concat args in
  expecting (u32 (vlen inputs) =? num_inputs (program c))%N
    "frontend::run: total argument width != circuit input count";;
  Ret inputs.
Definition run {C W} `{BooleanContext C W, Inhabited W} (c : CircuitArtifact) (args : list (list W)) :
    ST C (list W) :=
  inputs ← lift (run_inputs c args);
  execute_program (program c) inputs.

(** ** The reserved inputs *)
Fixpoint slices {A} (widths : list N) (l : list A) : list (list A) :=
  match widths with
  | [] => []
  | w :: ws => take (N.to_nat w) l :: slices ws (drop (N.to_nat w) l)
  end.
Definition sumN (l : list N) : N := foldr N.add 0%N l.

Lemma slices_concat {A} (args : list (list A)) : slices (vlen <$> args) (concat args) = args.
Proof.
  induction args as [|a args IH]; [done|]. rewrite fmap_cons. cbn [slices concat].
  assert (N.to_nat (vlen a) = length a) as -> by (unfold vlen; lia).
  by rewrite take_app_length, drop_app_length, IH.
Qed.
Lemma concat_slices {A} widths (l : list A) : vlen l = sumN widths → concat (slices widths l) = l.
Proof.
  revert l. induction widths as [|w ws IH]; intros l Hl; simpl in *; [by destruct l|].
  rewrite IH; [apply take_drop|]. unfold vlen in *. rewrite length_drop. lia.
Qed.
Lemma vlen_concat {A} (args : list (list A)) : vlen (concat args) = sumN (vlen <$> args).
Proof.
  induction args as [|a args IH]; [done|]. rewrite fmap_cons. simpl. rewrite vlen_app, IH. done.
Qed.
Lemma length_slices {A} widths (l : list A) : length (slices widths l) = length widths.
Proof. revert l. induction widths; intros l; simpl; auto. Qed.
Lemma widths_slices {A} widths (l : list A) : vlen l = sumN widths → vlen <$> slices widths l = widths.
Proof.
  revert l. induction widths as [|w ws IH]; intros l Hl; [done|]. simpl in *.
  rewrite IH by (unfold vlen in *; rewrite length_drop; lia).
  f_equal. unfold vlen in *. rewrite length_take. lia.
Qed.
Lemma Forall2_slices {A B} (R : A → B → Prop) widths l1 l2 :
  Forall2 R l1 l2 → Forall2 (Forall2 R) (slices widths l1) (slices widths l2).
Proof.
  revert l1 l2. induction widths as [|w ws IH]; intros l1 l2 Hl; simpl; constructor.
  - by apply Forall2_take.
  - by apply IH, Forall2_drop.
Qed.
Lemma Forall2_concat_wires {A B} (R : A → B → Prop) l1 l2 :
  Forall2 (Forall2 R) l1 l2 → Forall2 R (concat l1) (concat l2).
Proof. induction 1; simpl; [constructor|]. by apply Forall2_app. Qed.

Lemma take_range (n base k : N) : (n ≤ k)%N → take (N.to_nat n) (range base k) = range base n.
Proof.
  intros H. apply list_eq. intros i. destruct (decide (i < N.to_nat n)%nat) as [Hi|Hi].
  - rewrite lookup_take_lt by done. apply option_eq. intros x. rewrite !range_lookup. lia.
  - rewrite !lookup_ge_None_2; [done|rewrite range_length|rewrite length_take, range_length]; lia.
Qed.
Lemma drop_range (n base k : N) : (n ≤ k)%N → drop (N.to_nat n) (range base k) = range (base + n) (k - n).
Proof.
  intros H. apply list_eq. intros i. rewrite lookup_drop. apply option_eq. intros x.
  rewrite !range_lookup. lia.
Qed.

Lemma external_input_reserved base w :
  (base + w ≤ UINT32_MAX)%N → w ≠ 0%N →
  RecordCtx.external_input w (reserved base) = Ret (base, reserved (base + w)).
Proof.
  intros Hs Hw%N.eqb_neq. unfold UINT32_MAX in Hs. unfold RecordCtx.external_input, reserved. simpl.
  rewrite Hw. unfold UINT32_MAX. rewrite (proj2 (N.leb_le w _)) by lia. simpl.
  by rewrite (u32_small w), (u32_small (base + w)) by lia.
Qed.
(** Reserving the windows one by one reserves the whole input range. *)
Lemma make_rec_args_from base widths :
  (base + sumN widths ≤ UINT32_MAX)%N → Forall (λ w, w ≠ 0%N) widths →
  make_rec_args widths (reserved base) =
    Ret (slices widths (range base (sumN widths)), reserved (base + sumN widths)).
Proof.
  revert base. induction widths as [|w ws IH]; intros base Hs Hw; cbn [make_rec_args sumN foldr] in *.
  - by rewrite N.add_0_r.
  - apply Forall_cons in Hw as [Hw Hws]. fold (sumN ws) in *. unfold UINT32_MAX in *.
    unfold mbind, ST_bind, make_rec_arg, mbind, ST_bind.
    rewrite external_input_reserved by (done || (unfold UINT32_MAX; lia)).
    cbn [mbind outcome_bind mret ST_ret].
    rewrite IH by (done || lia). cbn [mbind outcome_bind mret ST_ret slices]. rewrite take_range, drop_range by lia.
    replace (w + sumN ws - w)%N with (sumN ws) by lia.
    replace (base + w + sumN ws)%N with (base + (w + sumN ws))%N by lia.
    assert ((λ i, u32 (base + i)) <$> range 0 w = range base w) as ->; [|done].
    apply list_eq. intros i. apply option_eq. intros x.
    rewrite list_lookup_fmap, fmap_Some. setoid_rewrite range_lookup. split.
    + intros (y & [? ->] & ->). rewrite u32_small by lia. split; lia.
    + intros [? ->]. eexists. split; [done|]. rewrite u32_small by lia. lia.
Qed.

(** ** Artifacts and circuits *)
Lemma foldl_u64_sum l (acc : N) :
  foldl (λ s w, u64 (s + w)) acc l = (if decide (l = []) then acc else u64 (acc + sumN l)).
Proof.
  revert acc. induction l as [|w l IH]; intros acc; [done|]. cbn [foldl]. rewrite IH.
  rewrite (decide_False (P := w :: l = [])) by done. cbn [sumN foldr]. fold (sumN l). case_decide as Hl.
  - subst. simpl. by rewrite N.add_0_r.
  - unfold u64. rewrite N.Div0.add_mod_idemp_l. f_equal. lia.
Qed.
Lemma total_input_bits_small s :
  (sumN (arg_widths s) < 2 ^ 64)%N → total_input_bits s = sumN (arg_widths s).
Proof.
  intros H. unfold total_input_bits. rewrite foldl_u64_sum. case_decide as Hl; [by rewrite Hl|].
  rewrite N.add_0_l. by apply u64_small.
Qed.

(** What a circuit's construction establishes. *)
Record circuit_ok (widths : list N) (ret : N) (c : CircuitArtifact) : Prop := {
  c_wf : wf_program (program c);
  c_widths : arg_widths (signature c) = widths;
  c_ins : num_inputs (program c) = sumN widths;
  c_u32 : (sumN widths ≤ UINT32_MAX)%N;
  c_ret : return_width (signature c) = ret ∧ vlen (outputs (program c)) = ret }.

Lemma width_checks want s :
  (∃ u, foldO (λ _ '(i, w), x ← vget (arg_widths s) i;
      expecting (x =? w)%N "Circuit: artifact argument width != declared value width")
    tt (zip (range 0 (vlen want)) want) = Ret u) →
  vlen (arg_widths s) = vlen want → arg_widths s = want.
Proof.
  intros [u Hu] Hlen. apply list_eq_same_length with (n := length want); [done| |].
  { unfold vlen in Hlen. lia. }
  intros i x y Hi Hx Hy.
  assert (∀ k j w, zip (range 0 (vlen want)) want !! k = Some (j, w) → vget (arg_widths s) j = Ret w) as Hall.
  { revert Hu. generalize (zip (range 0 (vlen want)) want) as l. clear.
    intros l Hu k j w Hk. revert k Hk. induction l as [|[j' w'] l IH]; intros k Hk; [done|].
    simpl in Hu. apply bind_Ret in Hu as (u' & Hu1 & Hu2).
    apply bind_Ret in Hu1 as (x & Hx & Hxw%expecting_Ret%N.eqb_eq). destruct u'.
    destruct k as [|k]; [by simplify_eq/=|by eapply IH]. }
  specialize (Hall i (N.of_nat i) y). rewrite lookup_zip_with_Some in Hall.
  specialize (Hall ltac:(eexists _, _; split; [done|]; split; [apply range_lookup; unfold vlen; lia|done])).
  apply vget_Ret in Hall. rewrite Nat2N.id in Hall. congruence.
Qed.
Lemma width_checks_ok want :
  foldO (λ _ '(i, w), x ← vget want i;
      expecting (x =? w)%N "Circuit: artifact argument width != declared value width")
    tt (zip (range 0 (vlen want)) want) = Ret tt.
Proof.
  destruct (foldO_inv (λ (_ : unit) '(i, w), x ← vget want i;
      expecting (x =? w)%N "Circuit: artifact argument width != declared value width")
    (zip (range 0 (vlen want)) want) (λ _ _, True) tt) as ([] & Hu & _); [done| |done].
  intros don [i w] todo [] Hz _.
  assert (zip (range 0 (vlen want)) want !! length don = Some (i, w)) as Hi
    by (rewrite Hz; by apply list_lookup_middle).
  apply lookup_zip_with_Some in Hi as (i' & w' & [= <- <-] & [_ ->]%range_lookup & Hw).
  rewrite (proj2 (vget_Ret _ _ w)) by (by rewrite N.add_0_l, Nat2N.id). simpl.
  rewrite N.eqb_refl. by exists tt.
Qed.

Lemma Circuit_ok want ret a :
  circuit_ok want ret a → Circuit want ret a = Ret a.
Proof.
  intros [Hwf Hw Hi Hu [Hr Ho]]. unfold Circuit, validate_artifact.
  rewrite (proj2 (validate_wf _) Hwf). cbn [mbind outcome_bind].
  rewrite total_input_bits_small; rewrite Hw; [|unfold UINT32_MAX in Hu; lia].
  rewrite (proj2 (N.leb_le _ _) Hu), Hi, N.eqb_refl, Hr, Ho, N.eqb_refl. cbn [expecting mbind outcome_bind].
  rewrite N.eqb_refl. cbn [expecting mbind outcome_bind]. by rewrite width_checks_ok.
Qed.
Lemma Circuit_Ret want ret a c :
  (sumN (arg_widths (signature a)) < 2 ^ 64)%N →
  Circuit want ret a = Ret c → c = a ∧ circuit_ok want ret a.
Proof.
  intros Hs Hc. unfold Circuit, validate_artifact in Hc. rewrite total_input_bits_small in Hc by done.
  apply bind_Ret in Hc as ([] & Hv & Hc).
  apply bind_Ret in Hv as ([] & Hwf%validate_wf & Hv).
  rewrite !expecting_bind_Ret, expecting_Ret in Hv. destruct Hv as (Hmax & Hi & Ho).
  rewrite expecting_bind_Ret in Hc. destruct Hc as [Hlen Hc].
  apply bind_Ret in Hc as (u & Hf & Hc). rewrite expecting_bind_Ret in Hc. destruct Hc as [Hr [= <-]].
  bool_arith. pose proof (width_checks want _ (ex_intro _ u Hf) Hlen) as Hw.
  split; [done|]. split; [done|done| | |].
  - by rewrite <- Hw.
  - by rewrite <- Hw.
  - split; [done|]. congruence.
Qed.

(** ** Recording and running *)
(** A body that is one template for all wire types. *)
Class ParametricBody (body : ∀ W, Body W) : Prop :=
  parametric_body W1 W2 (R : wrel W1 W2) as1 as2 :
    Forall2 (Forall2 R) as1 as2 → krel RL R (body W1 as1) (body W2 as2).

Definition flat (widths : list N) (body : ∀ W, Body W) : ∀ W, list W → Kernel W (list W) :=
  λ W l, body W (slices widths l).
#[global] Instance flat_parametric widths body :
  ParametricBody body → Parametric (A := list) (@RL) (flat widths body).
Proof. intros Hp W1 W2 R l1 l2 Hl. by apply Hp, Forall2_slices. Qed.

(** Failures of recording: running out of wire ids, or the body's own. *)
Definition record_err (widths : list N) (body : ∀ W, Body W) (msg : string) : Prop :=
  msg = "RecordCtx: wire id overflow" ∨
  ∃ ins, vlen ins = sumN widths ∧ keval (flat widths body bool ins) = Fatal msg.

(** The circuit computes the body. *)
Definition implements (widths : list N) (body : ∀ W, Body W) (p : BooleanProgram) : Prop :=
  ∀ args : list (list bool), vlen <$> args = widths →
    ∃ bs, keval (body bool args) = Ret bs ∧ eval_program p (concat args) = Some bs.

Section compile.
Context (widths : list N) (body : ∀ W, Body W) {Hpar : ParametricBody body}.
Context (Hpos : Forall (λ w, w ≠ 0%N) widths) (Hsum : (sumN widths ≤ UINT32_MAX)%N).
(** The static type of the result: [ret] wires. *)
Context (ret : N) (Hret : (ret < 2 ^ 31)%N).
Context (Hwidth : ∀ args bs, vlen <$> args = widths → keval (body bool args) = Ret bs → vlen bs = ret).

Lemma record_flat :
  owp (record_err widths body)
    (interp (flat widths body N (range 0 (sumN widths))) (reserved (sumN widths))) (λ _, True).
Proof.
  set (ins := vmake (sumN widths) false). assert (vlen ins = sumN widths) as Hins by apply vlen_vmake.
  rewrite <- Hins. eapply owp_mono; [eapply owp_err_mono; [apply (interp_keval (C := RecordCtx.State)
    (H0 := RecordCtx.lawful ins) RL _ (flat widths body bool ins))|]|done].
  - apply (parametric (body := flat widths body)). apply reserved_denotes.
  - apply reserved_WF. by rewrite Hins.
  - intros msg [?|?]; [by left|right; eauto].
Qed.

Lemma implements_width p : implements widths body p → vlen (outputs p) = ret.
Proof.
  intros Himp. destruct (Himp (slices widths (vmake (sumN widths) false))) as (bs & Hk & He);
    [apply widths_slices, vlen_vmake|].
  apply Hwidth in Hk; [|apply widths_slices, vlen_vmake].
  unfold eval_program in He. destruct (sem_gates _ _); [|done]. simpl in He.
  apply length_mapM in He. unfold vlen in *. lia.
Qed.
Definition compiled (c : CircuitArtifact) : Prop :=
  circuit_ok widths ret c ∧ implements widths body (program c).
Lemma compile_ok :
  owp (record_err widths body) (compile widths (body N)) (λ c,
    compiled c ∧ wire_reuse (program c) = ReuseNone ∧ (num_wires (program c) < 2 ^ 32)%N).
Proof.
  unfold compile. change RecordCtx.init with (reserved 0).
  rewrite (make_rec_args_from 0 widths Hsum Hpos).
  cbn [mbind outcome_bind]. rewrite N.add_0_l. fold (flat widths body N (range 0 (sumN widths))).
  pose proof record_flat as Hrec.
  destruct (interp (flat widths body N (range 0 (sumN widths))) (reserved (sumN widths)))
    as [[ws s]| |] eqn:Hrun; [|done..]. clear Hrec. cbn [mbind outcome_bind].
  destruct (record_body_ok (sumN widths) (flat widths body) ws s Hsum _ Hrun)
    as (p & Hf & Hn & Hwf & (Hw & _) & [Ho Hd] & Hev).
  rewrite Hf. cbn [mbind outcome_bind].
  assert (implements widths body p) as Himp.
  { intros args Hargs. destruct (Hev (concat args)) as (bs & Hk & He); [by rewrite vlen_concat, Hargs|].
    exists bs. split; [|done]. unfold flat in Hk. by rewrite <- Hargs, slices_concat in Hk. }
  pose proof (implements_width p Himp) as Hws. rewrite Ho in Hws.
  rewrite u32_small by lia. rewrite Hws.
  assert (circuit_ok widths ret (MkArtifact p (MkSignature widths ret))) as Hok
    by (split; simpl; [done..|split; congruence]).
  rewrite (Circuit_ok _ _ _ Hok). done.
Qed.

Lemma compile_at_ok level :
  level ≠ ReuseNone →
  owp (record_err widths body) (compile_at level widths (body N)) (λ c,
    compiled c ∧ wire_reuse (program c) = level).
Proof.
  intros Hl. unfold compile_at. apply owp_bind. eapply owp_mono; [apply compile_ok|].
  intros c ([[Hwf Hcw Hi Hu [Hr Ho]] Himp] & Hd & Hs).
  destruct (make_compact_ok (program c) Hwf Hd Hs level Hl)
    as (r & Hmc & Hwf' & Hlev & Hn & _ & _ & Hev & _).
  rewrite Hmc. cbn [mbind outcome_bind]. rewrite Hr.
  assert (implements widths body (res_prog r)) as Himp'.
  { intros args Hargs. destruct (Himp args Hargs) as (bs & Hk & He). exists bs.
    split; [done|]. rewrite Hev; [done|]. by rewrite vlen_concat, Hargs, Hi. }
  assert (circuit_ok widths ret (MkArtifact (res_prog r) (signature c))) as Hok.
  { split; simpl; [done|done|congruence|done|]. split; [done|]. by apply implements_width. }
  rewrite (Circuit_ok _ _ _ Hok). done.
Qed.

(** Running a compiled circuit on live values. *)
Lemma run_ok {C W : Type} {HB : BooleanContext C W} {HL : LawfulContext C W} {HI : Inhabited W}
    c (s : C) (args : list (list W)) (bits : list (list bool)) :
  compiled c → ctx_wf s → vlen <$> args = widths → Forall2 (Forall2 (denotes s)) args bits →
  wp ctx_err (run c args) s (λ ws s', ctx_wf s' ∧ ctx_ext s s' ∧
    ∃ bs, keval (body bool bits) = Ret bs ∧ Forall2 (denotes s') ws bs).
Proof.
  intros [[Hwf Hcw Hi Hu _] Himp] Hs Hargs Hd. unfold run, run_inputs. rewrite Hcw.
  assert (vlen widths = vlen args) as -> by (rewrite <- Hargs; apply vlen_fmap).
  rewrite N.eqb_refl, vlen_concat, Hargs, Hi. unfold UINT32_MAX in Hu.
  rewrite u32_small, N.eqb_refl by lia. cbn [expecting mbind outcome_bind].
  assert (vlen <$> bits = widths) as Hbits.
  { rewrite <- Hargs. clear -Hd. induction Hd as [|x y l k Hxy Hd IH]; [done|].
    rewrite !fmap_cons, IH. f_equal. unfold vlen. by rewrite (Forall2_length _ _ _ Hxy). }
  destruct (Himp bits Hbits) as (bs & Hk & He).
  apply wp_bind. eapply wp_lift_Ret; [done|].
  eapply wp_mono; [apply (execute_program_ok _ _ _ (concat bits)); [done|done| |]|].
  - by rewrite vlen_concat, Hargs, Hi.
  - by apply Forall2_concat_wires.
  - intros ws s' (? & ? & outs & Ho & Hf). rewrite He in Ho. simplify_eq. eauto.
Qed.
End compile.

(** ** Properties *)

(** A circuit is accepted exactly when its program is well formed and its
    signature is that of the program and of the declared value types; anything
    else ends the process with a diagnostic, never undefined behaviour. *)
Theorem circuit_constructor_exact want ret a :
  (sumN (arg_widths (signature a)) < 2 ^ 64)%N →
  (Circuit want ret a = Ret a ↔ circuit_ok want ret a) ∧
  (∀ c, Circuit want ret a = Ret c → c = a) ∧ Circuit want ret a ≠ Undef.
Proof.
  intros Hs. split; [|split].
  - split; [by intros [_ H]%Circuit_Ret|apply Circuit_ok].
  - by intros c [H _]%Circuit_Ret.
  - unfold Circuit, validate_artifact. apply bind_not_Undef.
    + apply bind_not_Undef; [apply validate_not_Undef|]. intros _ _.
      repeat first [apply expecting_not_Undef | apply bind_not_Undef | intros _ _].
    + intros _ _. apply bind_not_Undef; [apply expecting_not_Undef|]. intros [] Hlen%expecting_Ret.
      apply bind_not_Undef; [|intros _ _; by apply bind_not_Undef; [apply expecting_not_Undef|]].
      apply (foldO_not_Undef _ _ (λ _ _, True)); [done|].
      intros don [i w] todo [] Hz _. split; [|done].
      assert ((i, w) ∈ zip (range 0 (vlen want)) want) as Hi by (rewrite Hz; set_solver).
      apply elem_of_zip_l, elem_of_range in Hi. apply N.eqb_eq in Hlen.
      apply bind_not_Undef; [apply vget_not_Undef; lia|]. intros x _. apply expecting_not_Undef.
Qed.

(** C5: compiling once is running everywhere.  For a body that is one template
    for all contexts, over arguments of positive widths that fit the 32-bit wire
    space, [compile] and [compile_linear] either run out of wire ids, fail with
    the body's own diagnostic, or give a circuit that, replayed by [run] on any
    lawful context, leaves wires denoting exactly the bits the body computes on
    plaintext, failing only where the context itself fails. *)
Theorem compile_run_correct widths ret (body : ∀ W, Body W) :
  ParametricBody body → Forall (λ w, w ≠ 0%N) widths → (sumN widths ≤ UINT32_MAX)%N →
  (ret < 2 ^ 31)%N →
  (∀ args bs, vlen <$> args = widths → keval (body bool args) = Ret bs → vlen bs = ret) →
  let correct (c : CircuitArtifact) :=
    ∀ (C W : Type) (HB : BooleanContext C W) (HL : LawfulContext C W) (HI : Inhabited W)
      (s : C) (args : list (list W)) (bits : list (list bool)),
      ctx_wf s → vlen <$> args = widths → Forall2 (Forall2 (denotes s)) args bits →
      wp ctx_err (run c args) s (λ ws s', ctx_wf s' ∧ ctx_ext s s' ∧
        ∃ bs, keval (body bool bits) = Ret bs ∧ Forall2 (denotes s') ws bs) in
  owp (record_err widths body) (compile widths (body N))
    (λ c, wire_reuse (program c) = ReuseNone ∧ correct c) ∧
  owp (record_err widths body) (compile_linear widths (body N))
    (λ c, wire_reuse (program c) = ReuseLinear ∧ correct c).
Proof.
  intros Hp Hpos Hsum Hret Hw correct. split.
  - eapply owp_mono; [by eapply compile_ok|]. intros c (Hc & Hd & _). split; [done|].
    intros C W HB HL HI s args bits. by eapply run_ok.
  - eapply owp_mono; [by eapply compile_at_ok|]. intros c (Hc & Hd). split; [done|].
    intros C W HB HL HI s args bits. by eapply run_ok.
Qed.

Definition pair_body W (args : list (list W)) : Kernel W (list W) :=
  match args with
  | [[a; b]; [c]] => x ← kand a b; y ← kxor x c; mret [y]
  | _ => mret []
  end.
#[global] Instance pair_body_parametric : ParametricBody pair_body.
Proof.
  intros W1 W2 R as1 as2 Has. unfold pair_body.
  destruct Has as [|x1 x2 as1 as2 [|a1 a2 ?? Ha [|b1 b2 ?? Hb []]]
    [|y1 y2 ?? [|c1 c2 ?? Hc []] []]]; kauto; repeat constructor; done.
Qed.
Lemma compile_run_correct_witness :
  ∃ c, compile_linear [2; 1]%N (pair_body N) = Ret c ∧
    ∃ ws s', run (C := ClearCtx.State) (W := ClearCtx.Wire) c [[1; 1]; [0]]%N tt = Ret (ws, s') ∧
      Forall2 ClearCtx.wire_is ws [true].
Proof.
  destruct (compile_run_correct [2; 1]%N 1%N pair_body _) as [_ H]; [repeat constructor; discriminate|vm_compute; discriminate|reflexivity| |].
  { intros args bs Ha Hb. destruct args as [|[|a [|b [|]]] [|[|c [|]] [|]]];
      rewrite ?fmap_cons in Ha; unfold vlen in Ha; simpl length in Ha; try discriminate Ha;
      try (exfalso; injection Ha; lia). simpl in Hb. by simplify_eq. }
  unfold compile_linear in H. destruct (compile_at _ _ _) as [c| |] eqn:Hc; [|by vm_compute in Hc..].
  exists c. split; [exact Hc|]. destruct H as [_ H].
  destruct (wp_total _ _ _ _ (H ClearCtx.State ClearCtx.Wire ClearCtx.context ClearCtx.lawful _ tt [[1; 1]; [0]]%N [[true; true]; [false]]
    ltac:(done) ltac:(done) ltac:(repeat constructor))) as (ws & s' & Hr & _ & _ & bs & Hk & Hd); [by intros msg []|].
  exists ws, s'. split; [exact Hr|]. injection Hk as <-. exact Hd.
Defined.
Lemma circuit_constructor_exact_witness :
  ¬ circuit_ok [1]%N 1 (MkArtifact (MkProgram 2 2 ReuseNone [] [0%N]) (MkSignature [2]%N 1)).
Proof.
  intros Hok. destruct (circuit_constructor_exact [1]%N 1
    (MkArtifact (MkProgram 2 2 ReuseNone [] [0%N]) (MkSignature [2]%N 1)) eq_refl) as [[_ H] _].
  apply H in Hok. vm_compute in Hok. discriminate.
Defined.
