(* ===== verification/Compose.v ===== *)
(** * Hierarchical circuits (ir/context/compose.h, circuits/frontend/compose.h)

    [ComposeCtx] records glue gates and opaque unit calls; [flatten_compose]
    inlines the units into a flat dense program.  A plan has a meaning of its
    own ([eval_plan]: a unit call applies the unit's meaning), a recorded plan
    means what the body computes on plaintext, and flattening keeps the meaning. *)

From S2P Require Import Prelude Program Validate Context Execute Kernel Record Passes Transform Frontend.

(** [(int)n]: conversion of a [size_t] to [int]. *)
Definition s32 (n : N) : Z := ((Z.of_N n + 2 ^ 31) mod 2 ^ 32 - 2 ^ 31)%Z.

Record ComposeInstance : Type := MkInstance {
  unit_prog : BooleanProgram; in_ids : list N; out_ids : list N }.
(** A glue gate when [ev_instance < 0], else a call of that instance. *)
Record ComposeEvent : Type := MkEvent { ev_gate : Gate; ev_instance : Z }.
Record ComposePlan : Type := MkComposePlan {
  cp_num_inputs : N; cp_num_wires : N;
  events : list ComposeEvent; instances : list ComposeInstance; cp_outputs : list N }.
Definition default_gate : Gate := MkGate 0 0 0 And.

Module ComposeCtx.
Record State : Type := MkState {
  evs : list ComposeEvent; insts : list ComposeInstance;
  next_id : N; num_inputs : N; c0 : option N; c1 : option N; inputs_closed : bool }.
Definition init : State := MkState [] [] 0 0 None None false.

Definition alloc_ : ST State N := λ s,
  expecting (negb (next_id s =? UINT32_MAX)%N) "ComposeCtx: wire id overflow";;
  Ret (next_id s, MkState (evs s) (insts s) (u32 (next_id s + 1)) (num_inputs s) (c0 s) (c1 s) true).
Definition external_input (n : N) : ST State N := λ s,
  expecting (negb (inputs_closed s))
    "ComposeCtx::external_input: called after a gate/call was emitted";;
  expecting (negb (n =? 0)%N) "ComposeCtx::external_input: zero-width argument";;
  expecting (n <=? UINT32_MAX - next_id s)%N "ComposeCtx::external_input: wire id overflow";;
  Ret (next_id s, MkState (evs s) (insts s) (u32 (next_id s + u32 n)) (u32 (num_inputs s + u32 n))
                    (c0 s) (c1 s) (inputs_closed s)).
Definition emit_ (g : Gate) (s : State) : State :=
  MkState (evs s ++ [MkEvent g (-1)]) (insts s) (next_id s) (num_inputs s) (c0 s) (c1 s)
    (inputs_closed s).
Definition alloc_emit (mk : N → Gate) : ST State N :=
  λ s, '(o, s') ← alloc_ s; Ret (o, emit_ (mk o) s').
Definition set_const (v : bool) (w : N) (s : State) : State :=
  MkState (evs s) (insts s) (next_id s) (num_inputs s)
    (if v then c0 s else Some w) (if v then Some w else c1 s) (inputs_closed s).
Definition public_bit (v : bool) : ST State N := λ s,
  match (if v then c1 s else c0 s) with
  | Some w => Ret (w, s)
  | None =>
      '(o, s') ← alloc_emit (λ o, MkGate 0 0 o (if v then Const1 else Const0)) s;
      Ret (o, set_const v o s')
  end.
Definition and_gate (a b : N) : ST State N := alloc_emit (λ o, MkGate a b o And).
Definition xor_gate (a b : N) : ST State N := alloc_emit (λ o, MkGate a b o Xor).
Definition not_gate (a : N) : ST State N := alloc_emit (λ o, MkGate a 0 o Not).

(** [n] fresh output ids. *)
Fixpoint alloc_many (n : nat) : ST State (list N) :=
  match n with O => mret [] | S n => o ← alloc_; os ← alloc_many n; mret (o :: os) end.
(** Record one opaque call; only the reference and the wiring are kept.  The
    unit handle is never null in the model. *)
Definition call_unit (u : BooleanProgram) (ins : list N) : ST State (list N) := λ s,
  let s := MkState (evs s) (insts s) (next_id s) (num_inputs s) (c0 s) (c1 s) true in
  expecting (vlen ins =? Program.num_inputs u)%N
    "ComposeCtx::call_unit: argument width != unit num_inputs";;
  '(outs, s) ← alloc_many (length (outputs u)) s;
  let idx := s32 (vlen (insts s)) in
  Ret (outs, MkState (evs s ++ [MkEvent default_gate idx]) (insts s ++ [MkInstance u ins outs])
               (next_id s) (num_inputs s) (c0 s) (c1 s) (inputs_closed s)).
Definition finish (outs : list N) (s : State) : ComposePlan :=
  MkComposePlan (num_inputs s) (next_id s) (evs s) (insts s) outs.

(** A body on this context: [run] of a compiled circuit is [call_unit]. *)
Fixpoint interp {A} (m : Kernel N A) : ST State A :=
  match m with
  | KRet a => mret a
  | KFatal msg => lift (Fatal msg)
  | KPub v k => w ← public_bit v; interp (k w)
  | KAnd a b k => w ← and_gate a b; interp (k w)
  | KXor a b k => w ← xor_gate a b; interp (k w)
  | KNot a k => w ← not_gate a; interp (k w)
  | KRun p ins k => ws ← call_unit p ins; interp (k ws)
  end.
End ComposeCtx.

(** [frontend::compose]. *)
Definition make_compose_arg (width : N) : ST ComposeCtx.State (list N) :=
  base ← ComposeCtx.external_input width;
  mret ((λ i, u32 (base + i)) <$> range 0 width).
Fixpoint make_compose_args (widths : list N) : ST ComposeCtx.State (list (list N)) :=
  match widths with
  | [] => mret []
  | w :: ws => a ← make_compose_arg w; rest ← make_compose_args ws; mret (a :: rest)
  end.
Definition compose (widths : list N) (body : Body N) : outcome ComposePlan :=
  '(args, s) ← make_compose_args widths ComposeCtx.init;
  '(ret, s) ← ComposeCtx.interp (body args) s;
  Ret (ComposeCtx.finish ret s).

(** ** flatten_compose *)
(** One gate, renumbered through an id map: the glue gates and the gates of a
    unit are treated alike. *)
Definition flatten_gate (s : list N * N * list Gate) (g : Gate) : outcome (list N * N * list Gate) :=
  let '(map, next, gs) := s in
  i0 ← (if is_const g then Ret 0%N else vget map (in0 g));
  i1 ← (if is_const g || is_not g then Ret 0%N else vget map (in1 g));
  map' ← vset map (out g) next;
  Ret (map', u32 (next + 1), gs ++ [MkGate i0 i1 next (op g)]).
Definition flatten_unit (inst : ComposeInstance) (s : list N * N * list Gate) :
    outcome (list N * N * list Gate) :=
  let '(cmap, next, gs) := s in
  let u := unit_prog inst in
  umap ← foldO (λ umap j, c ← vget (in_ids inst) j; d ← vget cmap c; vset umap j d)
           (vmake (num_wires u) UINT32_MAX) (range 0 (num_inputs u));
  '(umap, next, gs) ← foldO flatten_gate (umap, next, gs) (gates u);
  cmap ← foldO (λ cmap k, c ← vget (out_ids inst) k; o ← vget (outputs u) k; d ← vget umap o;
                  vset cmap c d) cmap (range 0 (vlen (outputs u)));
  Ret (cmap, next, gs).
Definition flatten_event (plan : ComposePlan) (s : list N * N * list Gate) (ev : ComposeEvent) :
    outcome (list N * N * list Gate) :=
  if (ev_instance ev <? 0)%Z then flatten_gate s (ev_gate ev)
  else inst ← vget (instances plan) (Z.to_N (ev_instance ev)); flatten_unit inst s.
Definition flatten_compose (plan : ComposePlan) : outcome BooleanProgram :=
  '(cmap, next) ← foldO (λ '(cmap, next) c, cmap' ← vset cmap c next; Ret (cmap', u32 (next + 1)))
    (vmake (cp_num_wires plan) UINT32_MAX, 0%N) (range 0 (cp_num_inputs plan));
  '(cmap, next, gs) ← foldO (flatten_event plan) (cmap, next, []) (events plan);
  outs ← vgather cmap (cp_outputs plan);
  let d := MkProgram next (cp_num_inputs plan) ReuseNone gs outs in
  validate_program d;;
  Ret d.

(** ** The meaning of a plan *)
Definition event_sem (insts : list ComposeInstance) (env : gmap N bool) (ev : ComposeEvent) :
    option (gmap N bool) :=
  if (ev_instance ev <? 0)%Z then
    v ← gate_val env (ev_gate ev); Some (<[out (ev_gate ev) := v]> env)
  else
    inst ← insts !! Z.to_nat (ev_instance ev);
    ins ← mapM (env !!.) (in_ids inst);
    outs ← eval_program (unit_prog inst) ins;
    Some (list_to_map (zip (out_ids inst) outs) ∪ env).
Fixpoint sem_events (insts : list ComposeInstance) (evs : list ComposeEvent) (env : gmap N bool) :
    option (gmap N bool) :=
  match evs with
  | [] => Some env
  | ev :: evs => env' ← event_sem insts env ev; sem_events insts evs env'
  end.
Definition eval_plan (plan : ComposePlan) (ins : list bool) : option (list bool) :=
  env ← sem_events (instances plan) (events plan) (init_env ins);
  mapM (env !!.) (cp_outputs plan).

(** ** Well-formed plans *)
Section wf_plan.
Context (ni : N) (insts : list ComposeInstance) (nw : N).

Definition event_outs (ev : ComposeEvent) : list N :=
  if (ev_instance ev <? 0)%Z then [out (ev_gate ev)]
  else match insts !! Z.to_nat (ev_instance ev) with Some inst => out_ids inst | None => [] end.
(** The wires that hold a value after the events [don]. *)
Definition plan_defined (don : list ComposeEvent) (w : N) : Prop :=
  (w < ni)%N ∨ ∃ ev, ev ∈ don ∧ w ∈ event_outs ev.

Record wf_instance (D : N → Prop) (inst : ComposeInstance) : Prop := {
  wi_unit : wf_program (unit_prog inst);
  wi_ins : vlen (in_ids inst) = num_inputs (unit_prog inst) ∧ Forall D (in_ids inst);
  wi_outs : vlen (out_ids inst) = vlen (outputs (unit_prog inst)) ∧ NoDup (out_ids inst) ∧
    Forall (λ w, (w < nw)%N) (out_ids inst) }.
Definition wf_event (don : list ComposeEvent) (ev : ComposeEvent) : Prop :=
  if (ev_instance ev <? 0)%Z then
    Forall (plan_defined don) (reads (ev_gate ev)) ∧ (out (ev_gate ev) < nw)%N
  else ∃ inst, insts !! Z.to_nat (ev_instance ev) = Some inst ∧ wf_instance (plan_defined don) inst.
(** The gates an event flattens to. *)
Definition event_gates (ev : ComposeEvent) : N :=
  if (ev_instance ev <? 0)%Z then 1
  else match insts !! Z.to_nat (ev_instance ev) with
       | Some inst => vlen (gates (unit_prog inst)) | None => 0 end.

Lemma plan_defined_snoc don ev w :
  plan_defined (don ++ [ev]) w ↔ plan_defined don w ∨ w ∈ event_outs ev.
Proof. unfold plan_defined. set_solver. Qed.
End wf_plan.

Record wf_plan (plan : ComposePlan) : Prop := {
  wp_inputs : (cp_num_inputs plan ≤ cp_num_wires plan < 2 ^ 32)%N;
  wp_events : ∀ don ev todo, events plan = don ++ ev :: todo →
    wf_event (cp_num_inputs plan) (instances plan) (cp_num_wires plan) don ev;
  wp_outputs : Forall (plan_defined (cp_num_inputs plan) (instances plan) (events plan))
    (cp_outputs plan) }.
Definition plan_gates (plan : ComposePlan) : N :=
  sumN (event_gates (instances plan) <$> events plan).

(** ** Flattening *)
Lemma sem_gates_frame gs env env' w :
  sem_gates gs env = Some env' → w ∉ out <$> gs → env' !! w = env !! w.
Proof.
  revert env. induction gs as [|g gs IH]; intros env; simpl; [by intros [= ->]|].
  intros (v & _ & Hg)%bind_Some Hw. rewrite (IH _ Hg) by set_solver.
  rewrite lookup_insert_ne; [done|set_solver].
Qed.
(** Gates appended in SSA form do not disturb the earlier wires. *)
Lemma ssa_extend_env ni gs ext ins e1 e2 c :
  ssa ni (gs ++ ext) → sem_at gs ins e1 → sem_at (gs ++ ext) ins e2 →
  (c < ni + vlen gs)%N → e2 !! c = e1 !! c.
Proof.
  unfold sem_at. intros Hssa H1 H2 Hc. rewrite sem_gates_app, H1 in H2. simpl in H2.
  eapply sem_gates_frame; [exact H2|]. intros (g & -> & [k Hk]%list_elem_of_lookup)%list_elem_of_fmap.
  destruct (Hssa (length gs + k)%nat g) as (_ & Ho & _).
  { rewrite lookup_app_r by lia. rewrite <- Hk. f_equal. lia. }
  unfold vlen in Hc. lia.
Qed.
Lemma mapM_total {A B} (f : A → option B) l : Forall (λ a, is_Some (f a)) l → is_Some (mapM f l).
Proof. apply mapM_is_Some_2. Qed.

Section flatten.
Context (ni : N).

(** A unit's inputs alias the wired composition ids. *)
Lemma unit_inputs_ok D M inst nw cmap next gs :
  FInv ni D M (cmap, next, gs) → wf_instance nw D inst →
  let u := unit_prog inst in
  ∃ umap, foldO (λ umap j, c ← vget (in_ids inst) j; d ← vget cmap c; vset umap j d)
      (vmake (num_wires u) UINT32_MAX) (range 0 (num_inputs u)) = Ret umap ∧
    vlen umap = num_wires u ∧
    FInv ni (λ j, (j < num_inputs u)%N)
      (λ ins, e ← M ins; bs ← mapM (e !!.) (in_ids inst); Some (init_env bs)) (umap, next, gs).
Proof.
  intros [Hn Hssa Hdef Hsem] [Hu [Hlen Hins] _] u. cbn [fst snd] in *.
  pose proof (wf_inputs _ Hu) as Hiw. fold u in Hu, Hiw, Hlen.
  assert (∀ j, (j < num_inputs u)%N → ∃ c d, in_ids inst !! N.to_nat j = Some c ∧ D c ∧
    vget cmap c = Ret d ∧ (d < next)%N) as Hin.
  { intros j Hj. unfold vlen in Hlen.
    destruct (lookup_lt_is_Some_2 (in_ids inst) (N.to_nat j)) as [c Hc]; [lia|].
    pose proof (Forall_lookup_1 _ _ _ _ Hins Hc) as HD. destruct (Hdef c HD) as (d & ? & ?).
    exists c, d. done. }
  destruct (foldO_range_inv (λ umap j, c ← vget (in_ids inst) j; d ← vget cmap c; vset umap j d)
    (num_inputs u) (λ k, vspec (num_wires u) (λ j d, (j < k)%N →
      ∃ c, in_ids inst !! N.to_nat j = Some c ∧ vget cmap c = Ret d))
    (vmake (num_wires u) UINT32_MAX)) as (umap & Hf & Humap).
  - apply vspec_make. lia.
  - intros j v Hj Hv. destruct (Hin j Hj) as (c & d & Hc & _ & Hd & _).
    rewrite (proj2 (vget_Ret _ _ c) Hc). simpl. rewrite Hd. simpl.
    eapply vspec_set; [exact Hv|lia|by eauto|].
    intros w y _ Hne Hy Hlt. apply Hy. lia.
  - exists umap. split; [done|]. split; [apply Humap|].
    assert (∀ j d, (j < num_inputs u)%N → vget umap j = Ret d →
      ∃ c, in_ids inst !! N.to_nat j = Some c ∧ D c ∧ vget cmap c = Ret d ∧ (d < next)%N) as Hget.
    { intros j d Hj Hd%vget_Ret. destruct (Hin j Hj) as (c & d' & Hc & HD & Hcd & Hlt).
      destruct (vspec_lookup _ _ _ _ _ Humap Hd Hj) as (c' & Hc' & Hcd'). rewrite Hc in Hc'. injection Hc' as <-. rewrite Hcd in Hcd'. injection Hcd' as ->. eauto. }
    split; simpl; [done|done| |].
    + intros j Hj. destruct (vspec_get _ _ _ j Humap) as (d & Hd & _);
        [lia|].
      exists d. split; [done|]. by destruct (Hget j d Hj Hd) as (c & _ & _ & _ & ?).
    + intros ins Hi. destruct (Hsem ins Hi) as (e & e' & He & He' & Hd & Hren).
      destruct (mapM_total (e !!.) (in_ids inst)) as [bs Hbs].
      { eapply Forall_impl; [exact Hins|]. auto. }
      exists (init_env bs), e'. rewrite He. cbn [mbind option_bind]. rewrite Hbs.
      split; [done|]. split; [done|]. pose proof (length_mapM _ _ _ Hbs) as Hl. split.
      * intros j Hj. apply init_env_Some. unfold vlen in *. lia.
      * intros j d Hj Hjd. destruct (Hget j d Hj Hjd) as (c & Hc & HD & Hcd & _).
        rewrite (Hren c d HD Hcd), init_env_lookup. apply mapM_Some in Hbs.
        destruct (Forall2_lookup_l _ _ _ _ _ Hbs Hc) as (b & -> & ->). done.
Qed.

(** The unit's outputs are bound to the fresh composition ids. *)
Lemma unit_outputs_ok (cids os cmap umap : list N) nw :
  vlen cids = vlen os → NoDup cids → Forall (λ w, (w < nw)%N) cids → vlen cmap = nw →
  (∀ o, o ∈ os → ∃ d, vget umap o = Ret d) →
  ∃ cmap', foldO (λ cmap k, c ← vget cids k; o ← vget os k; d ← vget umap o; vset cmap c d)
      cmap (range 0 (vlen os)) = Ret cmap' ∧ vlen cmap' = nw ∧
    (∀ w, w ∉ cids → vget cmap' w = vget cmap w) ∧
    ∀ k c o, cids !! k = Some c → os !! k = Some o → vget cmap' c = vget umap o.
Proof.
  intros Hlen Hnd Hlt Hcm Hum. unfold vlen in Hlen.
  destruct (foldO_range_inv
    (λ cmap k, c ← vget cids k; o ← vget os k; d ← vget umap o; vset cmap c d) (vlen os)
    (λ n cm, vlen cm = nw ∧ (∀ w, w ∉ cids → vget cm w = vget cmap w) ∧
      ∀ k c o, (k < N.to_nat n)%nat → cids !! k = Some c → os !! k = Some o →
        vget cm c = vget umap o) cmap) as (cm & Hf & Hl & Hno & Hk).
  - split; [done|]. split; [done|]. intros; lia.
  - intros i cm Hi (Hl & Hno & Hk). unfold vlen in Hi.
    destruct (lookup_lt_is_Some_2 cids (N.to_nat i)) as [c Hc]; [lia|].
    destruct (lookup_lt_is_Some_2 os (N.to_nat i)) as [o Ho]; [lia|].
    destruct (Hum o) as [d Hd]; [apply list_elem_of_lookup; eauto|].
    rewrite (proj2 (vget_Ret _ _ c) Hc). simpl. rewrite (proj2 (vget_Ret _ _ o) Ho). simpl.
    rewrite Hd. simpl. pose proof (Forall_lookup_1 _ _ _ _ Hlt Hc) as Hcl. simpl in Hcl.
    assert (∃ cm', vset cm c d = Ret cm') as [cm' Hset] by (eexists; apply vset_lt; lia).
    exists cm'. split; [done|]. pose proof (proj1 (vset_Ret _ _ _ _) Hset) as [_ Heq].
    split; [by rewrite Heq, vlen_insert|]. split.
    + intros w Hw. rewrite (vget_set _ _ _ _ w Hset), decide_False; [auto|].
      intros ->. apply Hw, list_elem_of_lookup. eauto.
    + intros k c' o' Hlk Hc' Ho'. rewrite (vget_set _ _ _ _ c' Hset). case_decide as He.
      * subst c'. pose proof (NoDup_lookup _ _ _ _ Hnd Hc Hc') as <-. congruence.
      * apply (Hk k); [|done|done]. destruct (decide (k = N.to_nat i)); [congruence|lia].
  - exists cm. split; [done|]. split; [done|]. split; [done|]. intros k c o Hc Ho.
    apply (Hk k); [|done|done]. apply lookup_lt_Some in Ho. unfold vlen. lia.
Qed.

Definition instance_sem (inst : ComposeInstance) (e : gmap N bool) : option (gmap N bool) :=
  ins ← mapM (e !!.) (in_ids inst);
  outs ← eval_program (unit_prog inst) ins;
  Some (list_to_map (zip (out_ids inst) outs) ∪ e).

Lemma flatten_unit_ok D M inst nw cmap next gs :
  FInv ni D M (cmap, next, gs) → wf_instance nw D inst → vlen cmap = nw →
  (next + vlen (gates (unit_prog inst)) < 2 ^ 32)%N →
  ∃ cmap' ext, flatten_unit inst (cmap, next, gs) =
      Ret (cmap', (next + vlen (gates (unit_prog inst)))%N, gs ++ ext) ∧ vlen cmap' = nw ∧
    FInv ni (λ w, D w ∨ w ∈ out_ids inst) (λ ins, e ← M ins; instance_sem inst e)
      (cmap', (next + vlen (gates (unit_prog inst)))%N, gs ++ ext).
Proof.
  intros HF Hwi Hcm Hov. destruct (unit_inputs_ok _ _ _ _ _ _ _ HF Hwi) as (umap & Hl & Hul & HU).
  destruct (uncompact_gates_ok ni (unit_prog inst) _ umap next gs (wi_unit _ _ _ Hwi) Hul Hov HU)
    as (umap' & ext & Hg & _ & HU').
  destruct Hwi as [Hu [Hil Hins] (Hol & Hnd & Hob)].
  set (u := unit_prog inst) in *. set (next' := (next + vlen (gates u))%N) in *.
  destruct HF as [Hn Hssa Hdef Hsem], HU' as [Hn' Hssa' Hdef' Hsem']. cbn [fst snd] in *.
  assert (∀ o, o ∈ outputs u → defined_by u (gates u) o) as Hod.
  { intros o Ho. pose proof (wf_outputs _ Hu) as Hwo. rewrite Forall_forall in Hwo. by apply Hwo. }
  destruct (unit_outputs_ok (out_ids inst) (outputs u) cmap umap' nw) as (cmap' & Hs & Hcl & Hno & Hk);
    [done..| |].
  { intros o Ho. destruct (Hdef' o) as (d & ? & _); [auto|]. eauto. }
  exists cmap', ext. split.
  { unfold flatten_unit. fold u. rewrite Hl. cbn [mbind outcome_bind].
    change flatten_gate with uncompact_step. rewrite Hg. cbn [mbind outcome_bind]. by rewrite Hs. }
  split; [done|]. split; cbn [fst snd]; [done|done| |].
  - intros w Hw. destruct (decide (w ∈ out_ids inst)) as [Hin|Hnin].
    + apply list_elem_of_lookup in Hin as [k Hc]. unfold vlen in Hol.
      destruct (lookup_lt_is_Some_2 (outputs u) k) as [o Ho]; [apply lookup_lt_Some in Hc; lia|].
      rewrite (Hk k w o) by done. apply Hdef', Hod, list_elem_of_lookup. eauto.
    + rewrite Hno by done. destruct Hw as [Hw|]; [|done].
      destruct (Hdef w Hw) as (c & -> & Hc). exists c. split; [done|lia].
  - intros ins Hi. destruct (Hsem ins Hi) as (e & e1 & He & He1 & Hd & Hren).
    destruct (Hsem' ins Hi) as (eu & e2 & Heu & He2 & Hdu & Hrenu).
    rewrite He in Heu |- *. cbn [mbind option_bind] in Heu |- *. unfold instance_sem.
    apply bind_Some in Heu as (e0 & (bs & Hbs & [= <-])%bind_Some & Heu).
    rewrite Hbs. cbn [mbind option_bind]. unfold eval_program. fold u. rewrite Heu. cbn [mbind option_bind].
    destruct (mapM_total (eu !!.) (outputs u)) as [outs Houts]; [apply Forall_forall; auto|].
    rewrite Houts. cbn [mbind option_bind]. eexists _, e2. split; [done|]. split; [done|].
    pose proof (λ w, bind_outputs_env (out_ids inst) (outputs u) eu e outs w Hnd Hol Houts) as Hb.
    split.
    + intros w Hw. destruct (Hb w) as [[Hnin ->]|(k & o & _ & _ & Hso & ->)]; [|done].
      destruct Hw as [Hw|]; [auto|done].
    + intros w c Hw Hc. destruct (Hb w) as [[Hnin ->]|(k & o & Hkw & Hko & _ & ->)].
      * rewrite Hno in Hc by done. destruct Hw as [Hw|]; [|done].
        rewrite <- (Hren w c Hw Hc). eapply ssa_extend_env; [done..|].
        destruct (Hdef w Hw) as (c' & Hc' & ?). rewrite Hc in Hc'. injection Hc' as ->. lia.
      * rewrite (Hk k w o Hkw Hko) in Hc. apply Hrenu; [|done].
        apply Hod, list_elem_of_lookup. eauto.
Qed.

End flatten.

Lemma flatten_event_ok plan don ev todo M cmap next gs :
  wf_plan plan → events plan = don ++ ev :: todo →
  let ni := cp_num_inputs plan in
  vlen cmap = cp_num_wires plan → (next + event_gates (instances plan) ev < 2 ^ 32)%N →
  FInv ni (plan_defined ni (instances plan) don) M (cmap, next, gs) →
  ∃ cmap' gs', flatten_event plan (cmap, next, gs) ev =
      Ret (cmap', (next + event_gates (instances plan) ev)%N, gs') ∧
    vlen cmap' = cp_num_wires plan ∧
    FInv ni (plan_defined ni (instances plan) (don ++ [ev]))
      (λ ins, e ← M ins; event_sem (instances plan) e ev)
      (cmap', (next + event_gates (instances plan) ev)%N, gs').
Proof.
  intros [_ Hev _] Heq ni Hcm Hov HF. specialize (Hev _ _ _ Heq).
  unfold wf_event, event_gates, flatten_event in *. destruct (ev_instance ev <? 0)%Z eqn:Hz.
  - destruct Hev as [Hr Ho]. rewrite Forall_forall in Hr.
    destruct (uncompact_step_ok _ _ _ (ev_gate ev) _ _ _ HF) as (m' & ng & Hs & _ & Hl & HF');
      [done|lia|lia|].
    eexists m', _. split; [exact Hs|]. split; [lia|]. eapply FInv_ext; [| |exact HF'].
    + intros w Hw%plan_defined_snoc. unfold event_outs in Hw. rewrite Hz in Hw. set_solver.
    + intros ins. unfold gate_meaning, event_sem. by rewrite Hz.
  - destruct Hev as (inst & Hi & Hwi). rewrite Hi in Hov |- *.
    destruct (flatten_unit_ok _ _ _ _ _ _ _ _ HF Hwi Hcm Hov) as (m' & ext & Hs & Hl & HF').
    exists m', (gs ++ ext). split.
    { rewrite (proj2 (vget_Ret _ _ inst)); [by cbn [mbind outcome_bind]|].
      rewrite <- Hi. f_equal. lia. }
    split; [done|]. eapply FInv_ext; [| |exact HF'].
    + intros w Hw%plan_defined_snoc. unfold event_outs in Hw. by rewrite Hz, Hi in Hw.
    + intros ins. cbn beta. destruct (M ins) as [e|]; [|done]. cbn [mbind option_bind].
      unfold event_sem, instance_sem. rewrite Hz, Hi. done.
Qed.

Lemma sem_events_snoc insts evs ev env :
  sem_events insts (evs ++ [ev]) env = e ← sem_events insts evs env; event_sem insts e ev.
Proof.
  revert env. induction evs as [|ev' evs IH]; intros env; simpl.
  - by destruct (event_sem insts env ev).
  - destruct (event_sem insts env ev'); simpl; auto.
Qed.
Lemma sumN_snoc l x : sumN (l ++ [x]) = (sumN l + x)%N.
Proof. induction l as [|y l IH]; simpl; [lia|]. rewrite IH. lia. Qed.
Lemma sumN_app l k : sumN (l ++ k) = (sumN l + sumN k)%N.
Proof. induction l as [|y l IH]; simpl; [lia|]. rewrite IH. lia. Qed.

Lemma flatten_events_ok plan :
  wf_plan plan → (cp_num_inputs plan + plan_gates plan < 2 ^ 32)%N →
  ∃ cmap0 cmap gs, foldO (λ '(cmap, next) c, cmap' ← vset cmap c next; Ret (cmap', u32 (next + 1)))
      (vmake (cp_num_wires plan) UINT32_MAX, 0%N) (range 0 (cp_num_inputs plan)) =
        Ret (cmap0, cp_num_inputs plan) ∧
    foldO (flatten_event plan) (cmap0, cp_num_inputs plan, []) (events plan) =
      Ret (cmap, (cp_num_inputs plan + plan_gates plan)%N, gs) ∧
    FInv (cp_num_inputs plan) (plan_defined (cp_num_inputs plan) (instances plan) (events plan))
      (λ ins, sem_events (instances plan) (events plan) (init_env ins))
      (cmap, (cp_num_inputs plan + plan_gates plan)%N, gs).
Proof.
  intros Hwf Hov. pose proof (wp_inputs _ Hwf) as Hin. set (ni := cp_num_inputs plan) in *.
  destruct (number_inputs_ok ni (cp_num_wires plan)) as (cmap0 & Hc0 & Hl0 & Hi0); [lia|lia|].
  set (I := λ don (s : list N * N * list Gate), vlen s.1.1 = cp_num_wires plan ∧
    s.1.2 = (ni + sumN (event_gates (instances plan) <$> don))%N ∧
    FInv ni (plan_defined ni (instances plan) don)
      (λ ins, sem_events (instances plan) don (init_env ins)) s).
  destruct (foldO_inv (flatten_event plan) (events plan) I (cmap0, ni, []))
    as ([[cmap next] gs] & Hf & _ & Hn & HF).
  - split; [done|]. split; [simpl; lia|]. split; simpl; [unfold vlen; simpl; lia|done| |].
    + intros w [Hw|(? & ?%elem_of_nil & _)]; [|done]. rewrite Hi0 by done. eauto.
    + intros ins Hins. eexists _, _. split; [done|]. split; [done|]. split.
      * intros w [Hw|(? & ?%elem_of_nil & _)]; [|done]. apply init_env_Some. lia.
      * intros w c [Hw|(? & ?%elem_of_nil & _)] Hc; [|done]. rewrite Hi0 in Hc by done. by injection Hc as ->.
  - intros don ev todo [[cm n] gs] Heq (Hcm & Hn & HF). cbn [fst snd] in *.
    assert (n + event_gates (instances plan) ev < 2 ^ 32)%N as Hb.
    { revert Hov. unfold plan_gates. rewrite Heq, fmap_app, sumN_app. simpl. lia. }
    destruct (flatten_event_ok plan don ev todo _ _ _ _ Hwf Heq Hcm Hb HF)
      as (cm' & gs' & Hs & Hcm' & HF').
    eexists. split; [exact Hs|]. split; [done|]. cbn [fst snd]. split.
    + rewrite fmap_app, sumN_app. simpl. lia.
    + eapply FInv_ext; [done| |exact HF']. intros ins. apply sem_events_snoc.
  - cbn [fst snd] in Hn. subst next. by exists cmap0, cmap, gs.
Qed.

Lemma flatten_ok plan :
  wf_plan plan → (cp_num_inputs plan + plan_gates plan < 2 ^ 32)%N →
  ∃ d, flatten_compose plan = Ret d ∧ wf_program d ∧ wire_reuse d = ReuseNone ∧
    num_inputs d = cp_num_inputs plan ∧ vlen (gates d) = plan_gates plan ∧
    ∀ ins, vlen ins = cp_num_inputs plan →
      ∃ bs, eval_program d ins = Some bs ∧ eval_plan plan ins = Some bs.
Proof.
  intros Hwf Hov. destruct (flatten_events_ok plan Hwf Hov)
    as (cmap0 & cmap & gs & H0 & Hf & [Hn Hssa Hdef Hsem]). cbn [fst snd] in *.
  pose proof (wp_outputs _ Hwf) as Hout.
  assert (∃ outs, vgather cmap (cp_outputs plan) = Ret outs ∧
    Forall (λ w, (w < cp_num_inputs plan + plan_gates plan)%N) outs) as (outs & Houts & Hob).
  { clear -Hout Hdef. induction Hout as [|w ws Hw _ (outs & Ho & Hb)]; [by exists []|].
    destruct (Hdef w Hw) as (c & Hc & Hlt). exists (c :: outs). split; [|by constructor].
    apply vgather_Ret. apply vgather_Ret in Ho. constructor; [by apply vget_Ret|done]. }
  set (d := MkProgram (cp_num_inputs plan + plan_gates plan) (cp_num_inputs plan) ReuseNone gs outs).
  assert (wf_program d) as Hwd by (by apply ssa_wf).
  exists d. split_and!; [|done..|simpl; lia|].
  - unfold flatten_compose. rewrite H0. cbn [mbind outcome_bind]. rewrite Hf.
    cbn [mbind outcome_bind]. rewrite Houts. cbn [mbind outcome_bind]. fold d.
    by rewrite (proj2 (validate_wf _) Hwd).
  - intros ins Hins. destruct (Hsem ins Hins) as (e & e' & He & He' & Hd & Hren).
    destruct (mapM_total (e !!.) (cp_outputs plan)) as [bs Hbs].
    { eapply Forall_impl; [exact Hout|]. auto. }
    exists bs. unfold eval_program, eval_plan. rewrite He. cbn [mbind option_bind]. split; [|done].
    unfold sem_at in He'. simpl. rewrite He'. cbn [mbind option_bind].
    by eapply outputs_renamed.
Qed.

(** ** Recording a composition *)
Module ComposeRec.
Import ComposeCtx.

(** The plan the recorder would leave. *)
Definition plan_of (s : State) (outs : list N) : ComposePlan := finish outs s.
Definition env_of (ins : list bool) (s : State) : option (gmap N bool) :=
  sem_events (insts s) (evs s) (init_env ins).
Definition wire_denotes (ins : list bool) (s : State) (w : N) (b : bool) : Prop :=
  ∃ env, env_of ins s = Some env ∧ env !! w = Some b.

(** Every id below [next_id] holds a value. *)
Record WF (ins : list bool) (s : State) : Prop := {
  wf_plan_of : wf_plan (plan_of s []);
  wf_next : (next_id s ≤ UINT32_MAX)%N;
  wf_ins : num_inputs s = vlen ins;
  wf_env : ∃ env, env_of ins s = Some env ∧ ∀ w, is_Some (env !! w) ↔ (w < next_id s)%N;
  wf_dense : ∀ w, (w < next_id s)%N → plan_defined (num_inputs s) (insts s) (evs s) w;
  wf_c0 : ∀ w, c0 s = Some w → wire_denotes ins s w false;
  wf_c1 : ∀ w, c1 s = Some w → wire_denotes ins s w true }.
Definition ext (ins : list bool) (s s' : State) : Prop :=
  wsub (wire_denotes ins s) (wire_denotes ins s').

(** Growing the instance table does not change the earlier events. *)
Lemma event_outs_grow insts extra ev w :
  w ∈ event_outs insts ev → w ∈ event_outs (insts ++ extra) ev.
Proof.
  unfold event_outs. destruct (_ <? 0)%Z; [done|].
  destruct (insts !! _) as [i|] eqn:Hi; [|by intros ?%elem_of_nil].
  by rewrite (lookup_app_l_Some _ _ _ _ Hi).
Qed.
Lemma plan_defined_grow ni insts extra don w :
  plan_defined ni insts don w → plan_defined ni (insts ++ extra) don w.
Proof.
  intros [?|(ev & ? & ?)]; [by left|right]. exists ev. split; [done|]. by apply event_outs_grow.
Qed.
Lemma wf_event_grow ni insts extra nw nw' don ev :
  (nw ≤ nw')%N → wf_event ni insts nw don ev → wf_event ni (insts ++ extra) nw' don ev.
Proof.
  unfold wf_event. intros Hle. destruct (_ <? 0)%Z.
  - intros [Hr Ho]. split; [|lia]. eapply Forall_impl; [exact Hr|]. intros w.
    apply plan_defined_grow.
  - intros (i & Hi & [Hu [Hl Hins] (Hl' & Hnd & Hlt)]). exists i.
    split; [by apply lookup_app_l_Some|]. split; [done| |].
    + split; [done|]. eapply Forall_impl; [exact Hins|]. intros w. apply plan_defined_grow.
    + split; [done|]. split; [done|]. eapply Forall_impl; [exact Hlt|]. simpl. lia.
Qed.
Lemma event_sem_grow insts extra env ev env' :
  event_sem insts env ev = Some env' → event_sem (insts ++ extra) env ev = Some env'.
Proof.
  unfold event_sem. destruct (_ <? 0)%Z; [done|].
  intros (i & Hi & He)%bind_Some. by rewrite (lookup_app_l_Some _ _ _ _ Hi).
Qed.
Lemma sem_events_grow insts extra evs env env' :
  sem_events insts evs env = Some env' → sem_events (insts ++ extra) evs env = Some env'.
Proof.
  revert env. induction evs as [|ev evs IH]; intros env; simpl; [done|].
  intros (e & He & Hs)%bind_Some. rewrite (event_sem_grow _ _ _ _ _ He). simpl. auto.
Qed.

(** One recorded event: its outputs are the ids [next_id ..], and it extends the
    environment by them. *)
Lemma record_event_ok ins s s' ev extra n (newenv : gmap N bool) env :
  WF ins s → env_of ins s = Some env →
  evs s' = evs s ++ [ev] → insts s' = insts s ++ extra → num_inputs s' = num_inputs s →
  next_id s' = (next_id s + n)%N → (next_id s' ≤ UINT32_MAX)%N →
  c0 s' = c0 s → c1 s' = c1 s →
  wf_event (num_inputs s) (insts s') (next_id s') (evs s) ev →
  (∀ w, (next_id s ≤ w < next_id s + n)%N → w ∈ event_outs (insts s') ev) →
  event_sem (insts s') env ev = Some newenv →
  (∀ w, (w < next_id s)%N → newenv !! w = env !! w) →
  (∀ w, is_Some (newenv !! w) ↔ (w < next_id s')%N) →
  WF ins s' ∧ ext ins s s' ∧ env_of ins s' = Some newenv.
Proof.
  intros [[Hin Hevs _] Hnx Hi (env0 & He0 & Hdom) Hdense H0 H1] He Hev Hins Hni Hn Hmax Hc0 Hc1
    Hwfe Hout Hsem Hold Hnew. rewrite He in He0. injection He0 as <-. simpl in *.
  assert (env_of ins s' = Some newenv) as He'.
  { unfold env_of. rewrite Hev, sem_events_snoc, Hins. unfold env_of in He.
    rewrite (sem_events_grow _ _ _ _ _ He), <- Hins. done. }
  assert (ext ins s s') as Hext.
  { intros w b (env1 & H & Hw). rewrite He in H. injection H as <-. exists newenv. split; [done|].
    rewrite Hold; [done|]. apply Hdom. eauto. }
  split; [|done]. split; [|done|congruence|eauto| |..].
  - split; simpl; [unfold UINT32_MAX in *; lia| |constructor].
    intros don ev' todo Heq. rewrite Hni. rewrite Hev in Heq.
    destruct todo as [|ev2 todo _] using rev_ind.
    + apply app_inj_tail in Heq as [<- <-]. done.
    + rewrite app_comm_cons, app_assoc in Heq. apply app_inj_tail in Heq as [Heq _].
      rewrite Hins. eapply wf_event_grow; [|by eapply Hevs]. lia.
  - intros w Hw. rewrite Hev, Hni. apply plan_defined_snoc.
    destruct (decide (w < next_id s)%N); [left|right; apply Hout; lia].
    rewrite Hins. by apply plan_defined_grow, Hdense.
  - intros w. rewrite Hc0. intros ?%H0. by apply Hext.
  - intros w. rewrite Hc1. intros ?%H1. by apply Hext.
Qed.

(** The wires of gates and calls denote defined ids. *)
Lemma denotes_env ins s w b env :
  env_of ins s = Some env → wire_denotes ins s w b → env !! w = Some b.
Proof. intros He (env' & He' & ?). by simplify_eq. Qed.
Lemma denotes_lt ins s w b : WF ins s → wire_denotes ins s w b → (w < next_id s)%N.
Proof.
  intros [_ _ _ (env & He & Hdom) _ _ _] (env' & He' & Hw). simplify_eq. apply Hdom. eauto.
Qed.

(** Only the number of wires may fail while recording. *)
Lemma alloc_Ret s o s' :
  alloc_ s = Ret (o, s') → (next_id s ≤ UINT32_MAX)%N →
  o = next_id s ∧ s' = MkState (evs s) (insts s) (next_id s + 1) (num_inputs s) (c0 s) (c1 s) true ∧
  (next_id s + 1 ≤ UINT32_MAX)%N.
Proof.
  unfold alloc_. rewrite expecting_bind_Ret. intros [Hn [= <- <-]] Hle.
  apply negb_true_iff, N.eqb_neq in Hn. unfold UINT32_MAX in *. rewrite u32_small by lia.
  split; [done|]. split; [done|lia].
Qed.
Lemma alloc_many_Ret n s os s' :
  alloc_many n s = Ret (os, s') → (next_id s ≤ UINT32_MAX)%N → inputs_closed s = true →
  os = range (next_id s) (N.of_nat n) ∧ (next_id s + N.of_nat n ≤ UINT32_MAX)%N ∧
  s' = MkState (evs s) (insts s) (next_id s + N.of_nat n) (num_inputs s) (c0 s) (c1 s) true.
Proof.
  revert s os. induction n as [|n IH]; intros s os; simpl.
  - intros [= <- <-] Hle Hc. split; [done|]. rewrite N.add_0_r. split; [done|].
    destruct s; simpl in *. by subst.
  - intros ([o s1] & Ha & Hr)%bind_Ret Hle _. destruct (alloc_Ret _ _ _ Ha Hle) as (-> & -> & Hle1).
    apply bind_Ret in Hr as ([os1 s2] & Hm & Hr). injection Hr as <- <-.
    destruct (IH _ _ Hm) as (-> & Hle2 & ->); [done|done|]. cbn [next_id evs insts num_inputs c0 c1] in *.
    split_and!; [|lia|f_equal; lia].
    unfold range. replace (N.to_nat (N.of_nat (S n))) with (S n) by lia. simpl.
    replace (N.to_nat (N.of_nat n)) with n by lia.
    replace (N.to_nat (next_id s + 1)) with (S (N.to_nat (next_id s))) by lia. f_equal. lia.
Qed.

Lemma alloc_emit_ok ins s mk v o s' :
  WF ins s → alloc_emit mk s = Ret (o, s') →
  (∀ g, g = mk (next_id s) → out g = next_id s ∧
    (∀ w, w ∈ reads g → ∃ b, wire_denotes ins s w b) ∧
    ∀ env, env_of ins s = Some env → gate_val env g = Some v) →
  WF ins s' ∧ ext ins s s' ∧ wire_denotes ins s' o v ∧ c0 s' = c0 s ∧ c1 s' = c1 s ∧
    insts s' = insts s.
Proof.
  intros Hs Ha Hmk. unfold alloc_emit in Ha. apply bind_Ret in Ha as ([o1 s1] & Ha & [= <- <-]).
  pose proof (wf_next _ _ Hs) as Hnx. destruct (alloc_Ret _ _ _ Ha Hnx) as (-> & -> & Hle).
  destruct (Hmk _ eq_refl) as (Ho & Hr & Hv). pose proof (wf_env _ _ Hs) as (env & He & Hdom).
  set (s' := emit_ (mk (next_id s)) _).
  destruct (record_event_ok ins s s' (MkEvent (mk (next_id s)) (-1)) [] 1
    (<[next_id s := v]> env) env) as (Hs' & Hext & He'); try done; simpl.
  - by rewrite app_nil_r.
  - unfold wf_event. simpl. rewrite Ho. split; [|lia]. apply Forall_forall. intros w [b Hw]%Hr.
    eapply wf_dense; [done|]. by eapply denotes_lt.
  - intros w Hw. unfold event_outs. simpl. rewrite Ho. set_unfold. lia.
  - unfold event_sem. simpl. by rewrite (Hv _ He), Ho.
  - intros w Hw. by rewrite lookup_insert_ne by lia.
  - intros w. rewrite lookup_insert_is_Some, Hdom. lia.
  - split; [done|]. split; [done|]. split; [|done].
    exists (<[next_id s := v]> env). split; [done|]. by rewrite lookup_insert_eq.
Qed.

(** Binding the values of a unit's outputs to the ids they got. *)
Lemma bound_outputs (start n : N) (bs : list bool) (env : gmap N bool) :
  length bs = N.to_nat n →
  let newenv := list_to_map (zip (range start n) bs) ∪ env in
  (∀ k w b, range start n !! k = Some w → bs !! k = Some b → newenv !! w = Some b) ∧
  (∀ w, w ∈ range start n → is_Some (newenv !! w)) ∧
  ∀ w, (w < start)%N ∨ (start + n ≤ w)%N → newenv !! w = env !! w.
Proof.
  intros Hl newenv. assert ((zip (range start n) bs).*1 = range start n) as Hfst
    by (apply fst_zip; rewrite range_length; lia).
  assert (∀ k w b, range start n !! k = Some w → bs !! k = Some b → newenv !! w = Some b) as Hget.
  { intros k w b Hk Hb. apply lookup_union_Some_l, elem_of_list_to_map_1; [rewrite Hfst; apply NoDup_range|].
    apply list_elem_of_lookup. exists k. apply lookup_zip_with_Some. eauto. }
  split; [done|]. split.
  - intros w (k & Hk)%list_elem_of_lookup.
    destruct (lookup_lt_is_Some_2 bs k) as [b Hb]; [apply range_lookup in Hk; lia|]. rewrite (Hget k w b); eauto.
  - intros w Hw. apply lookup_union_r, not_elem_of_list_to_map_1. rewrite Hfst, elem_of_range. lia.
Qed.

Lemma call_unit_ok ins s u ws bits outs s' :
  WF ins s → wf_program u → Forall2 (wire_denotes ins s) ws bits →
  call_unit u ws s = Ret (outs, s') → (vlen (insts s') ≤ 2 ^ 31)%N →
  WF ins s' ∧ ext ins s s' ∧ vlen ws = Program.num_inputs u ∧
    ∃ bs, eval_program u bits = Some bs ∧ Forall2 (wire_denotes ins s') outs bs.
Proof.
  intros Hs Hu Hws Hc Hmax. unfold call_unit in Hc. rewrite expecting_bind_Ret in Hc.
  destruct Hc as [Hl%N.eqb_eq Hc]. apply bind_Ret in Hc as ([os s1] & Ha & Hc).
  pose proof (wf_next _ _ Hs) as Hnx. destruct (alloc_many_Ret _ _ _ _ Ha Hnx eq_refl) as (-> & Hle & ->).
  cbn [next_id evs insts num_inputs c0 c1 inputs_closed] in *. set (n := N.of_nat (length (outputs u))) in *.
  pose proof (f_equal (λ r, match r with Ret (o, _) => o | _ => [] end) Hc) as Houts. cbn beta iota in Houts.
  subst outs. injection Hc as Hs'. pose proof (wf_env _ _ Hs) as (env & He & Hdom).
  assert (vlen bits = Program.num_inputs u) as Hbl by (unfold vlen in *; by rewrite <- (Forall2_length _ _ _ Hws)).
  destruct (eval_program_total u Hu bits Hbl) as (bs & Hbs & Hbslen).
  assert (mapM (env !!.) ws = Some bits) as Hread.
  { apply mapM_Some. eapply Forall2_impl; [exact Hws|]. intros w b. by apply denotes_env. }
  assert (∀ w, w ∈ range (next_id s) n ↔ (next_id s ≤ w < next_id s + n)%N) as Hrange by (intros; apply elem_of_range).
  assert (s32 (vlen (insts s)) = Z.of_N (vlen (insts s))) as Hidx.
  { rewrite <- Hs' in Hmax. simpl in Hmax. rewrite vlen_app in Hmax. unfold vlen in Hmax |- *. simpl in Hmax.
    unfold s32. rewrite Z.mod_small by lia. lia. }
  set (inst := MkInstance u ws (range (next_id s) n)).
  assert (insts s' !! N.to_nat (vlen (insts s)) = Some inst) as Hinst.
  { rewrite <- Hs'. simpl. unfold vlen. rewrite Nat2N.id. by apply list_lookup_middle. }
  set (ev := MkEvent default_gate (s32 (vlen (insts s)))).
  assert ((ev_instance ev <? 0)%Z = false) as Hneg by (simpl; rewrite Hidx; lia).
  assert (Z.to_nat (ev_instance ev) = N.to_nat (vlen (insts s))) as Hto by (simpl; rewrite Hidx; lia).
  set (newenv := list_to_map (zip (range (next_id s) n) bs) ∪ env).
  assert (length bs = N.to_nat n) as Hbn by (subst n; unfold vlen in Hbslen; lia).
  destruct (bound_outputs (next_id s) n bs env Hbn) as (Hget & Hin & Hold). fold newenv in Hget, Hin, Hold.
  destruct (record_event_ok ins s s' ev [inst] n newenv env) as (Hwf' & Hext & He'); try done.
  1-7: rewrite <- Hs'; done.
  - unfold wf_event. rewrite Hneg, Hto. exists inst. split; [done|]. split; simpl; [done| |].
    + split; [done|]. apply Forall_forall. intros w (k & Hk)%list_elem_of_lookup.
      destruct (Forall2_lookup_l _ _ _ _ _ Hws Hk) as (b & _ & Hw).
      rewrite <- Hs'. simpl. apply plan_defined_grow. eapply wf_dense; [done|]. by eapply denotes_lt.
    + split; [unfold vlen; rewrite range_length; lia|]. split; [apply NoDup_range|].
      apply Forall_forall. intros w Hw%Hrange. rewrite <- Hs'. simpl. lia.
  - intros w Hw. unfold event_outs. rewrite Hneg, Hto, Hinst. simpl. by apply Hrange.
  - unfold event_sem. rewrite Hneg, Hto, Hinst. simpl. rewrite Hread. simpl. by rewrite Hbs.
  - intros w Hw. apply Hold. by left.
  - intros w. rewrite <- Hs'. simpl.
    destruct (decide (next_id s ≤ w < next_id s + n)%N) as [Hw|Hw]; [|rewrite Hold, Hdom by lia; lia].
    split; [lia|]. intros _. by apply Hin, Hrange.
  - split; [done|]. split; [done|]. split; [done|]. exists bs. split; [done|].
    apply Forall2_same_length_lookup_2; [rewrite range_length; lia|].
    intros k w b Hk Hb. exists newenv. split; [done|]. by eapply Hget.
Qed.

Lemma insts_mono {A} (m : Kernel N A) s a s' :
  interp m s = Ret (a, s') → (vlen (insts s) ≤ vlen (insts s'))%N.
Proof.
  assert (∀ mk s o s', alloc_emit mk s = Ret (o, s') → insts s' = insts s) as Hemit.
  { intros mk t o t' ([o1 t1] & Ha & [= _ <-])%bind_Ret.
    unfold alloc_ in Ha. rewrite expecting_bind_Ret in Ha. by destruct Ha as [_ [= _ <-]]. }
  assert (∀ n s os s', alloc_many n s = Ret (os, s') → insts s' = insts s) as Hmany.
  { induction n as [|n IH]; intros t os t'; [by intros [= _ <-]|].
    intros ([o1 t1] & Ha & ([os2 t2] & Hm & Hr)%bind_Ret)%bind_Ret.
    injection Hr as _ <-. rewrite (IH _ _ _ Hm).
    unfold alloc_ in Ha. rewrite expecting_bind_Ret in Ha. by destruct Ha as [_ [= _ <-]]. }
  revert s. induction m as [b|msg|v k IH|x y k IH|x y k IH|x k IH|p l k IH]; intros s Hr; simpl in Hr;
    [by injection Hr as _ <-|done|apply bind_Ret in Hr as ([w t] & Hw & Hr);
      (etrans; [|by eapply IH])..].
  - unfold public_bit in Hw. destruct (if v then c1 s else c0 s); [by injection Hw as _ <-|].
    apply bind_Ret in Hw as ([o t1] & Ha & [= _ <-]). simpl. by rewrite (Hemit _ _ _ _ Ha).
  - by rewrite (Hemit _ _ _ _ Hw).
  - by rewrite (Hemit _ _ _ _ Hw).
  - by rewrite (Hemit _ _ _ _ Hw).
  - unfold call_unit in Hw. rewrite expecting_bind_Ret in Hw. destruct Hw as [_ Hw].
    apply bind_Ret in Hw as ([os t1] & Ha & Hw). pose proof (Hmany _ _ _ _ Ha) as Hi. simpl in Hi.
    injection Hw as _ <-. simpl. rewrite Hi, vlen_app. lia.
Qed.

Lemma public_bit_ok ins s v w s' :
  WF ins s → public_bit v s = Ret (w, s') →
  WF ins s' ∧ ext ins s s' ∧ wire_denotes ins s' w v.
Proof.
  intros Hs Hp. unfold public_bit in Hp. destruct (if v then c1 s else c0 s) as [o|] eqn:Hc.
  - injection Hp as <- <-. split; [done|]. split; [by intros ? ?|].
    destruct v; [by apply (wf_c1 _ _ Hs)|by apply (wf_c0 _ _ Hs)].
  - apply bind_Ret in Hp as ([o s1] & Ha & [= <- <-]).
    destruct (alloc_emit_ok ins s _ v o s1 Hs Ha) as (Hs1 & Hext & Hd & _).
    { intros g ->. destruct v; simpl; (split; [done|]; split; [by intros w ?%elem_of_nil|done]). }
    split; [|done]. destruct Hs1 as [Hp Hnx Hi He Hdn H0 H1]. split; [done..| |];
      intros w'; destruct v; simpl; first [exact (H0 w') | exact (H1 w') | by intros [= <-]].
Qed.

(** A body recorded from a state whose wires denote bits. *)
Lemma interp_ok {A B} (RA : wrel N bool → A → B → Prop) ins (m : Kernel N A) (mb : Kernel bool B)
    s a s' :
  krel RA (wire_denotes ins s) m mb → WF ins s → interp m s = Ret (a, s') →
  (vlen (insts s') ≤ 2 ^ 31)%N →
  WF ins s' ∧ ∃ b, keval mb = Ret b ∧ RA (wire_denotes ins s') a b.
Proof.
  intros Hrel. remember (wire_denotes ins s) as R eqn:HR. revert s HR.
  induction Hrel as [R a1 a2 Ha|R msg|R v k1 k2 Hk IH|R a1 a2 b1 b2 k1 k2 Ha Hb Hk IH
    |R a1 a2 b1 b2 k1 k2 Ha Hb Hk IH|R a1 a2 k1 k2 Ha Hk IH|R p i1 i2 k1 k2 Hp Hi Hk IH];
    intros s -> Hs Hr Hmax; simpl in Hr.
  - injection Hr as <- <-. split; [done|]. exists a2. done.
  - done.
  - apply bind_Ret in Hr as ([w t] & Hw & Hr). destruct (public_bit_ok _ _ _ _ _ Hs Hw) as (Ht & He & Hd).
    by eapply IH.
  - apply bind_Ret in Hr as ([w t] & Hw & Hr).
    destruct (alloc_emit_ok ins s _ (a2 && b2) w t Hs Hw) as (Ht & He & Hd & _); [|by eapply IH].
    intros g ->. simpl. split; [done|]. split.
    + intros w' Hw'. set_unfold in Hw'. destruct Hw' as [->|[->|[]]]; eauto.
    + intros env Henv. unfold gate_val. simpl.
      by rewrite (denotes_env _ _ _ _ _ Henv Ha), (denotes_env _ _ _ _ _ Henv Hb).
  - apply bind_Ret in Hr as ([w t] & Hw & Hr).
    destruct (alloc_emit_ok ins s _ (xorb a2 b2) w t Hs Hw) as (Ht & He & Hd & _); [|by eapply IH].
    intros g ->. simpl. split; [done|]. split.
    + intros w' Hw'. set_unfold in Hw'. destruct Hw' as [->|[->|[]]]; eauto.
    + intros env Henv. unfold gate_val. simpl.
      by rewrite (denotes_env _ _ _ _ _ Henv Ha), (denotes_env _ _ _ _ _ Henv Hb).
  - apply bind_Ret in Hr as ([w t] & Hw & Hr).
    destruct (alloc_emit_ok ins s _ (negb a2) w t Hs Hw) as (Ht & He & Hd & _); [|by eapply IH].
    intros g ->. simpl. split; [done|]. split.
    + intros w' Hw'. set_unfold in Hw'. destruct Hw' as [->|[]]; eauto.
    + intros env Henv. unfold gate_val. simpl. by rewrite (denotes_env _ _ _ _ _ Henv Ha).
  - apply bind_Ret in Hr as ([ws t] & Hw & Hr). pose proof (insts_mono _ _ _ _ Hr) as Hm.
    destruct (call_unit_ok ins s p i1 i2 ws t Hs Hp Hi Hw) as (Ht & He & Hl & bs & Hbs & Hd); [lia|].
    simpl. assert (vlen i2 = Program.num_inputs p) as Hl2
      by (unfold vlen in *; by rewrite <- (Forall2_length _ _ _ Hi)).
    rewrite Hl2, N.eqb_refl, Hbs. cbn [expecting mbind outcome_bind]. by eapply IH.
Qed.
End ComposeRec.

(** Reserving the arguments. *)
Definition compose_reserved (n : N) : ComposeCtx.State :=
  ComposeCtx.MkState [] [] n n None None false.
Lemma make_compose_args_Ret base widths args s :
  make_compose_args widths (compose_reserved base) = Ret (args, s) → (base ≤ UINT32_MAX)%N →
  args = slices widths (range base (sumN widths)) ∧ s = compose_reserved (base + sumN widths) ∧
  (base + sumN widths ≤ UINT32_MAX)%N.
Proof.
  revert base args. induction widths as [|w ws IH]; intros base args; cbn [make_compose_args sumN foldr].
  - intros [= <- <-] Hb. rewrite N.add_0_r. done.
  - fold (sumN ws). unfold mbind at 1, ST_bind at 1. intros ([a s1] & Ha & Hr)%bind_Ret Hb.
    unfold make_compose_arg, mbind, ST_bind in Ha. apply bind_Ret in Ha as ([b0 s0] & He & Ha).
    unfold ComposeCtx.external_input, compose_reserved in He. rewrite !expecting_bind_Ret in He. simpl in He.
    destruct He as (_ & Hz & Hle & He). bool_arith. unfold UINT32_MAX in *.
    rewrite (u32_small w), !(u32_small (base + w)) in He by lia.
    injection He as <- <-. injection Ha as <- <-.
    unfold mbind, ST_bind in Hr. apply bind_Ret in Hr as ([rest s2] & Hr & Hs). injection Hs as <- <-.
    destruct (IH _ _ Hr) as (-> & -> & Hle2); [lia|]. split_and!; [|f_equal; lia|lia].
    cbn [slices]. rewrite take_range, drop_range by lia.
    replace (w + sumN ws - w)%N with (sumN ws) by lia. f_equal.
    apply list_eq. intros i. apply option_eq. intros x.
    rewrite list_lookup_fmap, fmap_Some. setoid_rewrite range_lookup. split.
    + intros (y & [? ->] & ->). rewrite u32_small by lia. split; lia.
    + intros [? ->]. eexists. split; [done|]. rewrite u32_small by lia. lia.
Qed.

Lemma compose_reserved_WF ins :
  (vlen ins ≤ UINT32_MAX)%N → ComposeRec.WF ins (compose_reserved (vlen ins)).
Proof.
  intros Hn. split; simpl; try done.
  - split; simpl; [unfold UINT32_MAX in Hn; lia|by intros [|]|constructor].
  - exists (init_env ins). split; [done|]. intros w. apply init_env_Some.
  - intros w Hw. by left.
Qed.
Lemma compose_reserved_denotes ins :
  Forall2 (ComposeRec.wire_denotes ins (compose_reserved (vlen ins))) (range 0 (vlen ins)) ins.
Proof.
  apply Forall2_same_length_lookup_2; [rewrite range_length; unfold vlen; lia|].
  intros k w b [_ ->]%range_lookup Hb. exists (init_env ins). split; [done|].
  by rewrite init_env_lookup, N.add_0_l, Nat2N.id.
Qed.

Lemma compose_ok widths (body : ∀ W, Body W) plan args :
  ParametricBody body → compose widths (body N) = Ret plan →
  (vlen (instances plan) ≤ 2 ^ 31)%N → vlen <$> args = widths →
  wf_plan plan ∧ cp_num_inputs plan = sumN widths ∧
  ∃ bs, keval (body bool args) = Ret bs ∧ eval_plan plan (concat args) = Some bs.
Proof.
  intros Hpar Hc Hmax Hargs. unfold compose in Hc. apply bind_Ret in Hc as ([as_ s0] & Ha & Hc).
  apply bind_Ret in Hc as ([ws s] & Hr & [= <-]). simpl in Hmax.
  destruct (make_compose_args_Ret 0 widths as_ s0 Ha) as (-> & -> & Hle); [done|].
  rewrite N.add_0_l in *. set (ins := concat args).
  assert (vlen ins = sumN widths) as Hins by (unfold ins; by rewrite vlen_concat, Hargs).
  rewrite <- Hins in Hr, Hle. destruct (ComposeRec.interp_ok RL ins (body N (slices widths (range 0 (vlen ins))))
    (body bool args) (compose_reserved (vlen ins)) ws s) as (Hs & bs & Hk & Hd); [|by apply compose_reserved_WF|done|done|].
  { apply Hpar. replace args with (slices widths ins) by (unfold ins; rewrite <- Hargs; apply slices_concat).
    apply Forall2_slices, compose_reserved_denotes. }
  pose proof (ComposeRec.wf_plan_of _ _ Hs) as [Hi He _]. simpl in *. unfold RL in Hd. split_and!.
  - split; simpl; [done|done|]. apply Forall_forall. intros w (k & Hk')%list_elem_of_lookup.
    destruct (Forall2_lookup_l _ _ _ _ _ Hd Hk') as (b & _ & Hw).
    eapply ComposeRec.wf_dense; [done|]. by eapply ComposeRec.denotes_lt.
  - by rewrite (ComposeRec.wf_ins _ _ Hs), Hins.
  - exists bs. split; [done|]. destruct (ComposeRec.wf_env _ _ Hs) as (env & Henv & _).
    unfold eval_plan. simpl. unfold ComposeRec.env_of in Henv. rewrite Henv. simpl.
    apply mapM_Some. eapply Forall2_impl; [exact Hd|]. intros w b Hw. by eapply ComposeRec.denotes_env.
Qed.

(** ** Properties *)

(** C11: flattening is correct.  Every well-formed plan whose flat form fits
    32-bit ids flattens, without a diagnostic or an out-of-range access, to a
    well-formed dense program with one gate per glue gate and per unit gate, which
    computes what the plan means, unit calls included. *)
Theorem flatten_compose_correct plan :
  wf_plan plan → (cp_num_inputs plan + plan_gates plan < 2 ^ 32)%N →
  ∃ d, flatten_compose plan = Ret d ∧ wf_program d ∧ wire_reuse d = ReuseNone ∧
    num_inputs d = cp_num_inputs plan ∧ vlen (gates d) = plan_gates plan ∧
    ∀ ins, vlen ins = cp_num_inputs plan →
      ∃ bs, eval_program d ins = Some bs ∧ eval_plan plan ins = Some bs.
Proof. apply flatten_ok. Qed.

(** C10: hierarchical recording refines direct evaluation.  When [compose] of a
    body that is one template for all contexts returns a plan with at most 2^31
    unit calls, and the plan's inputs together with the gates of its flattened form
    (each unit's counted once per call) number below 2^32, so that flattening stays
    within its 32-bit ids, the plan is well formed, and for all argument bits it
    means what the body computes on plaintext; so does its flattened program. *)
Theorem compose_correct widths (body : ∀ W, Body W) plan :
  ParametricBody body → compose widths (body N) = Ret plan →
  (vlen (instances plan) ≤ 2 ^ 31)%N → (cp_num_inputs plan + plan_gates plan < 2 ^ 32)%N →
  wf_plan plan ∧ ∃ d, flatten_compose plan = Ret d ∧ wf_program d ∧
    ∀ args : list (list bool), vlen <$> args = widths →
      ∃ bs, keval (body bool args) = Ret bs ∧ eval_plan plan (concat args) = Some bs ∧
        eval_program d (concat args) = Some bs.
Proof.
  intros Hpar Hc Hmax Hov.
  assert (wf_plan plan ∧ cp_num_inputs plan = sumN widths) as [Hwf Hn].
  { destruct (compose_ok widths body plan (slices widths (vmake (sumN widths) false)) Hpar Hc Hmax)
      as (? & ? & _); [apply widths_slices, vlen_vmake|done]. }
  split; [done|]. destruct (flatten_ok plan Hwf Hov) as (d & Hd & Hwd & _ & _ & _ & Hev).
  exists d. split; [done|]. split; [done|]. intros args Hargs.
  destruct (compose_ok widths body plan args Hpar Hc Hmax Hargs) as (_ & _ & bs & Hk & Hp).
  exists bs. split; [done|]. split; [done|].
  destruct (Hev (concat args)) as (bs' & He & Hp'); [by rewrite vlen_concat, Hargs|]. congruence.
Qed.

(** A composition of one glue gate and two calls of a unit. *)
Definition unit_sample : BooleanProgram := MkProgram 3 2 ReuseNone [MkGate 0 1 2 And] [2%N].
Definition compose_sample W (args : list (list W)) : Kernel W (list W) :=
  match args with
  | [[a; b]] => c ← kxor a b; d ← krun unit_sample [a; c]; krun unit_sample (b :: d)
  | _ => mret []
  end.
Lemma unit_sample_wf : wf_program unit_sample.
Proof. apply validate_wf. reflexivity. Qed.
#[global] Instance compose_sample_parametric : ParametricBody compose_sample.
Proof.
  intros W1 W2 R as1 as2 Has. unfold compose_sample. pose proof unit_sample_wf.
  destruct Has as [|x1 x2 ?? [|a1 a2 ?? Ha [|b1 b2 ?? Hb []]] []];
    try (kauto; constructor; fail).
Qed.
Definition compose_plan_sample : ComposePlan :=
  MkComposePlan 2 5
    [MkEvent (MkGate 0 1 2 Xor) (-1); MkEvent default_gate 0; MkEvent default_gate 1]
    [MkInstance unit_sample [0; 2]%N [3%N]; MkInstance unit_sample [1; 3]%N [4%N]] [4%N].
Lemma compose_correct_witness :
  ∃ d, flatten_compose compose_plan_sample = Ret d ∧ vlen (gates d) = 3%N ∧
    eval_program d [true; true] = Some [false].
Proof.
  destruct (compose_correct [2%N] compose_sample compose_plan_sample) as (_ & d & Hd & _ & H);
    [apply _|reflexivity|vm_compute; discriminate|reflexivity|].
  exists d. split; [exact Hd|]. split; [vm_compute in Hd; by injection Hd as <-|].
  destruct (H [[true; true]] eq_refl) as (bs & [= <-] & _ & He). exact He.
Defined.
Lemma compose_plan_sample_wf : wf_plan compose_plan_sample.
Proof.
  split; [vm_compute; split; [intros|]; done| |].
  - intros don ev todo Heq.
    destruct don as [|? [|? [|? [|]]]]; simplify_eq/=; unfold wf_event; simpl.
    + split; [|lia]. repeat constructor; left; simpl; lia.
    + eexists. split; [done|]. split; simpl; [apply unit_sample_wf|split; [done|]|split; [done|]].
      * constructor; [left; simpl; lia|]. constructor; [|done]. right. eexists. split; [by left|]. by left.
      * split; [apply NoDup_singleton|]. constructor; [lia|done].
    + eexists. split; [done|]. split; simpl; [apply unit_sample_wf|split; [done|]|split; [done|]].
      * constructor; [left; simpl; lia|]. constructor; [|done]. right. eexists.
        split; [right; by left|]. by left.
      * split; [apply NoDup_singleton|]. constructor; [lia|done].
  - constructor; [|done]. right. eexists. split; [do 2 right; by left|]. by left.
Qed.
Lemma flatten_compose_correct_witness :
  ∃ d, flatten_compose compose_plan_sample = Ret d ∧ wf_program d ∧ vlen (gates d) = 3%N.
Proof.
  destruct (flatten_compose_correct compose_plan_sample compose_plan_sample_wf) as (d & Hd & Hwf & _ & _ & Hg & _);
    [reflexivity|].
  exists d. split; [exact Hd|]. split; [exact Hwf|exact Hg].
Defined.
