(* ===== verification/FlushPlan.v ===== *)
(** * Planning the flush of a recorded chunk (ir/session/flush_plan.h)

    [plan_flush] turns the gates recorded since the last flush into a compact
    dense program: it keeps the gates the kept wires depend on, makes the
    materialized operands the program's inputs and renumbers the rest.  Its
    specification is the meaning of the chunk over the carried bits
    ([chunk_env]): a gate with a missing operand has no value. *)

From S2P Require Import Prelude Program Validate Context Execute Passes Transform.

Record FlushPlan : Type := MkFlushPlan {
  fp_prog : BooleanProgram; input_ids : list N; output_ids : list N; fp_ok : bool }.

(** [(int)v.size()]; a negative count makes the following allocations fail. *)
Definition int_size {A} (v : list A) : outcome N :=
  if (vlen v <? 2 ^ 31)%N then Ret (vlen v) else Undef.

Section plan_flush.
Context (chunk_gates : list Gate) (keep_ids : list N) (is_materialized : N → bool).

Definition wire_to_gate : gmap N N :=
  foldl (λ m '(gi, g), <[out g := gi]> m) ∅ (zip (range 0 (vlen chunk_gates)) chunk_gates).
Definition chunk_local (w : N) : bool := bool_decide (is_Some (wire_to_gate !! w)).

(** The operands pushed for a gate; the top of the stack is the head. *)
Definition push_operands (g : Gate) (stack : list N) : list N :=
  if is_const g then stack
  else if is_not g then in0 g :: stack else in1 g :: in0 g :: stack.
(** [while (!stack.empty())]: every iteration takes one unit of fuel. *)
Fixpoint mark_needed (fuel : nat) (needed : list bool) (stack : list N) : outcome (list bool) :=
  match stack with
  | [] => Ret needed
  | w :: stack =>
      match fuel with
      | O => Undef
      | S fuel =>
          match wire_to_gate !! w with
          | None => mark_needed fuel needed stack
          | Some gi =>
              n ← vget needed gi;
              if (n : bool) then mark_needed fuel needed stack
              else
                needed' ← vset needed gi true;
                g ← vget chunk_gates gi;
                mark_needed fuel needed' (push_operands g stack)
          end
      end
  end.
Definition mark_fuel : nat := length keep_ids + 2 * length chunk_gates.

Definition note_input (s : gmap N N * list N * bool) (v : N) : gmap N N * list N * bool :=
  let '(remap, ids, ok) := s in
  if chunk_local v then s
  else if bool_decide (is_Some (remap !! v)) then s
  else if negb (is_materialized v) then (remap, ids, false)
  else (<[v := u32 (vlen ids)]> remap, ids ++ [v], ok).
Definition note_gate (needed : list bool) (s : gmap N N * list N * bool) (gi : N) :
    outcome (gmap N N * list N * bool) :=
  n ← vget needed gi;
  if (n : bool) then
    g ← vget chunk_gates gi;
    Ret (if is_const g then s
         else let s := note_input s (in0 g) in if is_not g then s else note_input s (in1 g))
  else Ret s.

(** [remap[v]] reads 0 for a missing key. *)
Definition compact_gate (needed : list bool) (s : gmap N N * N * list Gate) (gi : N) :
    outcome (gmap N N * N * list Gate) :=
  let '(remap, cid, gs) := s in
  n ← vget needed gi;
  if (n : bool) then
    g ← vget chunk_gates gi;
    let remap := <[out g := cid]> remap in
    let ni0 := if is_const g then 0%N else default 0%N (remap !! in0 g) in
    let ni1 := if is_const g || is_not g then 0%N else default 0%N (remap !! in1 g) in
    Ret (remap, u32 (cid + 1), gs ++ [MkGate ni0 ni1 cid (op g)])
  else Ret s.

Definition emit_output (remap : gmap N N) (s : gset N * list N * list N) (id : N) :
    gset N * list N * list N :=
  let '(emitted, outs, ids) := s in
  if negb (chunk_local id) then s
  else if bool_decide (id ∈ emitted) then s
  else ({[id]} ∪ emitted, outs ++ [default 0%N (remap !! id)], ids ++ [id]).

Definition plan_flush : outcome FlushPlan :=
  G ← int_size chunk_gates;
  let roots := foldl (λ st id, if chunk_local id then id :: st else st) [] keep_ids in
  needed ← mark_needed mark_fuel (vmake G false) roots;
  '(remap, ids, ok) ← foldO (note_gate needed) (∅, [], true) (range 0 G);
  let ni := u32 (vlen ids) in
  '(remap, cid, gs) ← foldO (compact_gate needed) (remap, ni, []) (range 0 G);
  let '(_, outs, oids) := foldl (emit_output remap) (∅, [], []) keep_ids in
  Ret (MkFlushPlan (MkProgram cid ni ReuseNone gs outs) ids oids ok).
End plan_flush.

(** ** The meaning of a chunk *)
Definition chunk_step (e : gmap N bool) (g : Gate) : gmap N bool :=
  match gate_val e g with Some v => <[out g := v]> e | None => e end.
Definition chunk_env (gs : list Gate) (car : gmap N bool) : gmap N bool := foldl chunk_step car gs.

(** A chunk in recording order: outputs are fresh, a chunk-local operand is the
    output of an earlier gate, ids are below [M]. *)
Record chunk_wf (M : N) (gs : list Gate) : Prop := {
  cw_fresh : ∀ don g todo, gs = don ++ g :: todo → out g ∉ out <$> don;
  cw_reads : ∀ don g todo w, gs = don ++ g :: todo → w ∈ reads g → w ∈ out <$> gs → w ∈ out <$> don;
  cw_ids : ∀ g, g ∈ gs → (out g < M)%N ∧ ∀ w, w ∈ reads g → (w < M)%N }.

Lemma chunk_step_ne e g w : w ≠ out g → chunk_step e g !! w = e !! w.
Proof. intros Hw. unfold chunk_step. destruct (gate_val e g); [|done]. by apply lookup_insert_ne. Qed.
Lemma chunk_env_frame gs car w : w ∉ out <$> gs → chunk_env gs car !! w = car !! w.
Proof.
  unfold chunk_env. revert car. induction gs as [|g gs IH]; intros car Hw; [done|]. simpl.
  rewrite IH by set_solver. apply chunk_step_ne. set_solver.
Qed.
Lemma chunk_env_app gs gs' car : chunk_env (gs ++ gs') car = chunk_env gs' (chunk_env gs car).
Proof. unfold chunk_env. apply foldl_app. Qed.

Lemma NoDup_bounded (l : list N) M : NoDup l → Forall (λ w, (w < M)%N) l → (vlen l ≤ M)%N.
Proof.
  intros Hn Hl. assert (l ⊆+ range 0 M) as Hs%submseteq_length.
  { apply NoDup_submseteq; [done|]. intros w Hw. apply elem_of_range.
    rewrite Forall_forall in Hl. specialize (Hl w Hw). simpl in Hl. lia. }
  rewrite range_length in Hs. unfold vlen. lia.
Qed.

(** The elements of a list in the order they first occur. *)
Fixpoint firsts {A} `{EqDecision A} (l : list A) : list A :=
  match l with [] => [] | x :: l => x :: filter (λ y, y ≠ x) (firsts l) end.
Section firsts.
Context {A} `{!EqDecision A}.
Implicit Types (l : list A).
Lemma elem_of_firsts x l : x ∈ firsts l ↔ x ∈ l.
Proof.
  induction l as [|y l IH]; [done|]. cbn [firsts]. rewrite !elem_of_cons, list_elem_of_filter, IH.
  destruct (decide (x = y)); naive_solver.
Qed.
Lemma NoDup_firsts l : NoDup (firsts l).
Proof.
  induction l as [|y l IH]; constructor; [|by apply NoDup_filter].
  rewrite list_elem_of_filter. by intros [? _].
Qed.
Lemma firsts_snoc l x : firsts (l ++ [x]) = firsts l ++ (if decide (x ∈ l) then [] else [x]).
Proof.
  induction l as [|y l IH]; [done|]. cbn [firsts app]. rewrite IH, filter_app. f_equal. f_equal.
  destruct (decide (x = y)) as [->|Hne].
  - rewrite (decide_True (P := y ∈ y :: l)) by set_solver. case_decide; [done|].
    by rewrite filter_cons_False by (intros Hn; by apply Hn).
  - destruct (decide (x ∈ l)) as [Hx|Hx].
    + by rewrite decide_True by set_solver.
    + rewrite decide_False by set_solver. by rewrite filter_cons_True.
Qed.
End firsts.

Section chunk.
Context (M : N) (gs : list Gate) (Hwf : chunk_wf M gs).
Context (car : gmap N bool) (Hdisj : ∀ w, w ∈ out <$> gs → car !! w = None).

Lemma chunk_outs_NoDup : NoDup (out <$> gs).
Proof.
  apply NoDup_alt. intros i j w Hi Hj.
  assert (∀ i j, (i < j)%nat → (out <$> gs) !! i = Some w → (out <$> gs) !! j = Some w → False) as H.
  { clear i j Hi Hj. intros i j Hlt Hi Hj. rewrite list_lookup_fmap in Hj.
    apply fmap_Some in Hj as (g & Hg & ->). pose proof (take_drop_middle _ _ _ Hg) as Hsplit.
    apply (cw_fresh _ _ Hwf (take j gs) g (drop (S j) gs)); [done|].
    rewrite list_lookup_fmap in Hi. apply fmap_Some in Hi as (g' & Hg' & ->).
    apply list_elem_of_fmap. exists g'. split; [done|]. apply list_elem_of_lookup. exists i.
    by rewrite lookup_take_lt by done. }
  destruct (lt_eq_lt_dec i j) as [[?| ->]|?]; [by exfalso; eapply H|done|by exfalso; eapply H].
Qed.

(** The value of a gate's output is the gate's value when it was recorded. *)
Lemma chunk_env_at don g todo :
  gs = don ++ g :: todo → chunk_env gs car !! out g = gate_val (chunk_env don car) g.
Proof.
  intros Hg. rewrite Hg, chunk_env_app. simpl. fold (chunk_env todo (chunk_step (chunk_env don car) g)).
  change (foldl chunk_step ?e todo) with (chunk_env todo e).
  rewrite chunk_env_frame.
  - unfold chunk_step. destruct (gate_val (chunk_env don car) g); [by rewrite lookup_insert_eq|].
    rewrite chunk_env_frame by (by eapply cw_fresh). apply Hdisj. rewrite Hg. set_solver.
  - pose proof chunk_outs_NoDup as Hn. rewrite Hg, fmap_app, fmap_cons in Hn.
    apply NoDup_app in Hn as (_ & _ & Hn). by apply NoDup_cons in Hn as [? _].
Qed.
(** Operands have their value already. *)
Lemma chunk_env_read don g todo w :
  gs = don ++ g :: todo → w ∈ reads g → chunk_env don car !! w = chunk_env gs car !! w.
Proof.
  intros Hg Hw. rewrite Hg at 1. rewrite chunk_env_app. symmetry. apply chunk_env_frame.
  intros Hin. assert (w ∈ out <$> don) as Hd.
  { eapply cw_reads; [done..|]. rewrite Hg, fmap_app. set_solver. }
  pose proof chunk_outs_NoDup as Hn. rewrite Hg, fmap_app in Hn.
  apply NoDup_app in Hn as (_ & Hn & _). by eapply Hn.
Qed.

Lemma wire_to_gate_lookup w gi :
  wire_to_gate gs !! w = Some gi ↔ ∃ g, gs !! N.to_nat gi = Some g ∧ out g = w.
Proof.
  unfold wire_to_gate.
  assert (∀ l (m : gmap N N), (∀ gi g, (gi, g) ∈ l → gs !! N.to_nat gi = Some g) → 
    (∀ w gi, m !! w = Some gi → ∃ g, gs !! N.to_nat gi = Some g ∧ out g = w) →
    ∀ w gi, foldl (λ m '(gi, g), <[out g := gi]> m) m l !! w = Some gi →
      ∃ g, gs !! N.to_nat gi = Some g ∧ out g = w) as Hsound.
  { induction l as [|[i g] l IH]; intros m Hl Hm w' gi'; simpl; [apply Hm|].
    apply IH; [intros; apply Hl; by right|]. intros w2 gi2. rewrite lookup_insert_Some.
    intros [[<- <-]|[_ ?]]; [|auto]. exists g. split; [|done]. apply Hl. by left. }
  assert (∀ l (m : gmap N N), is_Some (m !! w) ∨ (∃ gi g, (gi, g) ∈ l ∧ out g = w) →
    is_Some (foldl (λ m '(gi, g), <[out g := gi]> m) m l !! w)) as Htotal.
  { induction l as [|[i g] l IH]; intros m Hl; simpl.
    - destruct Hl as [?|(? & ? & ?%elem_of_nil & _)]; done.
    - apply IH. destruct Hl as [Hm|(gi' & g' & [[= -> ->]|Hin]%elem_of_cons & Ho)].
      + left. rewrite lookup_insert_is_Some'. by right.
      + left. rewrite lookup_insert_is_Some'. by left.
      + right. eauto. }
  assert (∀ gi g, (gi, g) ∈ zip (range 0 (vlen gs)) gs ↔ gs !! N.to_nat gi = Some g) as Hzip.
  { intros i g. rewrite list_elem_of_lookup. setoid_rewrite lookup_zip_with_Some.
    setoid_rewrite range_lookup. split.
    - intros (k & x & y & [= -> ->] & [_ ->] & Hk). by rewrite N.add_0_l, Nat2N.id.
    - intros Hk. exists (N.to_nat i), i, g. pose proof (lookup_lt_Some _ _ _ Hk). unfold vlen. split_and!; [done|lia..|done]. }
  split.
  - apply Hsound; [intros; by apply Hzip|]. intros ??. by rewrite lookup_empty.
  - intros (g & Hg & Ho). destruct (Htotal (zip (range 0 (vlen gs)) gs) ∅) as [gi' Hgi'].
    { right. exists gi, g. by rewrite Hzip. }
    rewrite Hgi'. destruct (Hsound (zip (range 0 (vlen gs)) gs) ∅) with (w := w) (gi := gi')
      as (g' & Hg' & Ho'); [intros; by apply Hzip|intros ??; by rewrite lookup_empty|done|].
    f_equal. pose proof chunk_outs_NoDup as Hn.
    assert (N.to_nat gi' = N.to_nat gi); [|lia]. eapply NoDup_lookup; [exact Hn|..].
    + rewrite list_lookup_fmap, Hg'. simpl. by rewrite Ho'.
    + rewrite list_lookup_fmap, Hg. simpl. by rewrite Ho.
Qed.
Lemma chunk_local_spec w : chunk_local gs w = true ↔ w ∈ out <$> gs.
Proof.
  unfold chunk_local. rewrite bool_decide_eq_true, list_elem_of_fmap. split.
  - intros [gi (g & Hg & Ho)%wire_to_gate_lookup]. exists g. split; [done|].
    apply list_elem_of_lookup. eauto.
  - intros (g & Ho & [k Hk]%list_elem_of_lookup). exists (N.of_nat k).
    apply wire_to_gate_lookup. exists g. by rewrite Nat2N.id.
Qed.
End chunk.

(** ** Reachability from the kept wires *)
Section reach.
Context (M : N) (gs : list Gate) (Hwf : chunk_wf M gs) (keep : list N).

(** The wires some kept chunk wire depends on. *)
Inductive required : N → Prop :=
  | required_keep w : w ∈ keep → w ∈ out <$> gs → required w
  | required_op g w : g ∈ gs → required (out g) → w ∈ reads g → required w.

Definition marked (needed : list bool) (w : N) : Prop :=
  ∃ gi g, gs !! N.to_nat gi = Some g ∧ out g = w ∧ vget needed gi = Ret true.

Lemma push_operands_elem g stack w : w ∈ push_operands g stack ↔ w ∈ reads g ∨ w ∈ stack.
Proof. unfold push_operands, reads, is_const, is_not. destruct (op g); set_solver. Qed.

(** What the marking loop maintains: only required wires are marked or stacked,
    and what they need is marked or stacked. *)
Record reach_inv (needed : list bool) (stack : list N) : Prop := {
  ri_len : vlen needed = vlen gs;
  ri_stack : ∀ w, w ∈ stack → required w;
  ri_marked : ∀ w, marked needed w → required w;
  ri_keep : ∀ w, w ∈ keep → w ∈ out <$> gs → marked needed w ∨ w ∈ stack;
  ri_op : ∀ g w, g ∈ gs → marked needed (out g) → w ∈ reads g → w ∈ out <$> gs →
    marked needed w ∨ w ∈ stack }.

Lemma reach_inv_drop needed w stack :
  reach_inv needed (w :: stack) → (w ∈ out <$> gs → marked needed w) → reach_inv needed stack.
Proof.
  intros [Hl Hs Hm Hk Ho] Hw. split; [done|..].
  - intros x Hx. apply Hs. by right.
  - done.
  - intros x Hx Hxo. destruct (Hk x Hx Hxo) as [?|[->|?]%elem_of_cons]; auto.
  - intros g x Hg Hmg Hx Hxo. destruct (Ho g x Hg Hmg Hx Hxo) as [?|[->|?]%elem_of_cons]; auto.
Qed.
Definition unmarked (needed : list bool) : nat := length (filter (λ b, b = false) needed).
Lemma needed_unmarked_set needed i needed' :
  vget needed i = Ret false → vset needed i true = Ret needed' →
  unmarked needed = S (unmarked needed').
Proof.
  intros Hi%vget_Ret [_ ->]%vset_Ret. pose proof (take_drop_middle _ _ _ Hi) as Heq.
  rewrite <- Heq at 1. rewrite insert_take_drop by (by apply lookup_lt_Some in Hi).
  unfold unmarked. rewrite !filter_app, !length_app, !filter_cons. simpl. lia.
Qed.

Lemma mark_needed_ok fuel needed stack :
  reach_inv needed stack → (length stack + 2 * unmarked needed ≤ fuel)%nat →
  ∃ needed', mark_needed gs fuel needed stack = Ret needed' ∧ reach_inv needed' [].
Proof.
  revert needed stack. induction fuel as [|fuel IH]; intros needed [|w stack] Hi Hf;
    try (by exists needed); [simpl in Hf; lia|]. simpl in *.
  destruct (wire_to_gate gs !! w) as [gi|] eqn:Hw.
  - pose proof Hw as (g & Hg & Ho)%(wire_to_gate_lookup M gs Hwf). 
    destruct (vget_lt needed gi) as [n Hn].
    { rewrite (ri_len _ _ Hi). apply lookup_lt_Some in Hg. unfold vlen. lia. }
    rewrite Hn. simpl. destruct n.
    + apply IH; [|lia]. eapply reach_inv_drop; [done|]. intros _. by exists gi, g.
    + assert (∃ needed', vset needed gi true = Ret needed') as [needed' Hset].
      { eexists. apply vset_lt. apply vget_Ret, lookup_lt_Some in Hn. unfold vlen. lia. }
      rewrite Hset. simpl. rewrite (proj2 (vget_Ret _ _ g) Hg). simpl.
      pose proof (needed_unmarked_set _ _ _ Hn Hset) as Hu.
      assert (∀ x, marked needed' x ↔ marked needed x ∨ x = w) as Hmk.
      { intros x. unfold marked. setoid_rewrite (vget_set _ _ _ _ _ Hset). split.
        - intros (gi' & g' & Hg' & Ho' & Hb). case_decide; [|left; by exists gi', g'].
          right. subst gi'. congruence.
        - intros [(gi' & g' & Hg' & Ho' & Hb)| ->].
          + exists gi', g'. split; [done|]. split; [done|]. by case_decide.
          + exists gi, g. split; [done|]. split; [done|]. by rewrite decide_True. }
      apply IH.
      * destruct Hi as [Hl Hs Hm Hk Hop]. assert (required w) as Hrw by (apply Hs; by left).
        assert (g ∈ gs) as Hgin by (apply list_elem_of_lookup; eauto).
        split.
        -- apply vset_Ret in Hset as [_ ->]. by rewrite vlen_insert.
        -- intros x [Hx|Hx]%push_operands_elem; [|apply Hs; by right].
           eapply required_op; [exact Hgin|by rewrite Ho|done].
        -- intros x [?| ->]%Hmk; auto.
        -- intros x Hx Hxo. rewrite Hmk, push_operands_elem.
           destruct (Hk x Hx Hxo) as [?|[->|?]%elem_of_cons]; auto.
        -- intros g' x Hg' Hmg Hx Hxo. rewrite Hmk, push_operands_elem. apply Hmk in Hmg as [Hmg|Hmg].
           ++ destruct (Hop g' x Hg' Hmg Hx Hxo) as [?|[->|?]%elem_of_cons]; auto.
           ++ assert (g' = g) as ->; [|auto]. apply list_elem_of_lookup in Hg' as [k Hk'].
              pose proof (chunk_outs_NoDup M gs Hwf) as Hnd.
              assert (k = N.to_nat gi) as ->; [|congruence].
              eapply NoDup_lookup; [exact Hnd|rewrite list_lookup_fmap, Hk'; simpl; by rewrite Hmg|].
              rewrite list_lookup_fmap, Hg. simpl. by rewrite Ho.
      * assert (length (push_operands g stack) ≤ 2 + length stack)%nat.
        { unfold push_operands. destruct (is_const g), (is_not g); simpl; lia. }
        lia.
  - apply IH; [|lia]. eapply reach_inv_drop; [done|]. intros Hl.
    apply (chunk_local_spec M gs Hwf) in Hl. unfold chunk_local in Hl.
    apply bool_decide_eq_true in Hl as [? ?]. congruence.
Qed.

Lemma reach_complete needed :
  reach_inv needed [] → ∀ w, w ∈ out <$> gs → marked needed w ↔ required w.
Proof.
  intros [Hl _ Hm Hk Ho] w Hw. split; [apply Hm|]. intros Hr.
  induction Hr as [w Hkeep _|g w Hg Hr IH Hrd].
  - destruct (Hk w Hkeep Hw) as [?|?%elem_of_nil]; done.
  - destruct (Ho g w Hg) as [?|?%elem_of_nil]; try done.
    apply IH. apply list_elem_of_fmap. eauto.
Qed.

Lemma roots_elem st w :
  w ∈ foldl (λ st id, if chunk_local gs id then id :: st else st) st keep ↔
    (w ∈ keep ∧ w ∈ out <$> gs) ∨ w ∈ st.
Proof.
  clear -Hwf. revert st. induction keep as [|id k IH]; intros st; simpl; [set_solver|].
  rewrite IH. pose proof (chunk_local_spec M gs Hwf id) as Hl.
  destruct (chunk_local gs id); rewrite ?elem_of_cons; [|naive_solver].
  assert (id ∈ out <$> gs) by (by apply Hl). naive_solver.
Qed.
Lemma roots_length st :
  (length (foldl (λ st id, if chunk_local gs id then id :: st else st) st keep) ≤
    length keep + length st)%nat.
Proof.
  clear -keep. revert st. induction keep as [|id k IH]; intros st; simpl; [lia|].
  etrans; [apply IH|]. destruct (chunk_local gs id); simpl; lia.
Qed.

(** The marking loop ends within its fuel and marks the required gates. *)
Lemma needed_ok :
  ∃ needed, mark_needed gs (mark_fuel gs keep) (vmake (vlen gs) false)
      (foldl (λ st id, if chunk_local gs id then id :: st else st) [] keep) = Ret needed ∧
    vlen needed = vlen gs ∧
    ∀ gi g, gs !! N.to_nat gi = Some g → ∃ b, vget needed gi = Ret b ∧ (b = true ↔ required (out g)).
Proof.
  destruct (mark_needed_ok (mark_fuel gs keep) (vmake (vlen gs) false)
    (foldl (λ st id, if chunk_local gs id then id :: st else st) [] keep)) as (needed & Hm & Hi).
  - assert (∀ w, ¬ marked (vmake (vlen gs) false) w) as Hno.
    { intros w (gi & g & _ & _ & Hb%vget_Ret). by apply lookup_replicate in Hb as [? _]. }
    split; [apply vlen_vmake|..].
    + intros w [[Hk Ho]|?%elem_of_nil]%roots_elem; [|done]. by apply required_keep.
    + by intros w ?%Hno.
    + intros w Hk Ho. right. apply roots_elem. by left.
    + by intros g w _ ?%Hno.
  - assert (unmarked (vmake (vlen gs) false) = length gs) as Hu.
    { unfold unmarked, vmake, vlen. rewrite Nat2N.id. clear. induction (length gs); [done|].
      cbn [replicate]. rewrite filter_cons_True by done. simpl. lia. }
    rewrite Hu. pose proof (roots_length []). unfold mark_fuel. simpl in *. lia.
  - exists needed. split; [done|]. split; [apply Hi|]. intros gi g Hg.
    destruct (vget_lt needed gi) as [b Hb].
    { rewrite (ri_len _ _ Hi). apply lookup_lt_Some in Hg. unfold vlen. lia. }
    exists b. split; [done|]. rewrite <- (reach_complete needed Hi) by
      (apply list_elem_of_fmap; exists g; split; [done|]; apply list_elem_of_lookup; eauto).
    split; [intros ->; by exists gi, g|]. intros (gi' & g' & Hg' & Ho & Hb').
    assert (N.to_nat gi' = N.to_nat gi) as He; [|assert (gi' = gi) by lia; congruence].
    apply (NoDup_lookup _ _ _ (out g) (chunk_outs_NoDup M gs Hwf)).
    + rewrite list_lookup_fmap, Hg'. simpl. by rewrite Ho.
    + by rewrite list_lookup_fmap, Hg.
Qed.
End reach.

(** ** Inputs, compaction, outputs *)
Section compact.
Context (M : N) (gs : list Gate) (Hwf : chunk_wf M gs) (keep : list N).
Context (car : gmap N bool) (Hdisj : ∀ w, w ∈ out <$> gs → car !! w = None).
Context (mat : N → bool) (Hmat : ∀ w, mat w = true ↔ is_Some (car !! w)).
Context (HM : (M ≤ UINT32_MAX)%N).
Context (needed : list bool) (Hneeded : ∀ gi g, gs !! N.to_nat gi = Some g →
  ∃ b, vget needed gi = Ret b ∧ (b = true ↔ required gs keep (out g))).
#[local] Abbreviation req := (required gs keep).

Lemma needed_at don g todo :
  gs = don ++ g :: todo → ∃ b, vget needed (vlen don) = Ret b ∧ (b = true ↔ req (out g)).
Proof.
  intros Hg. apply Hneeded. rewrite Hg. unfold vlen. rewrite Nat2N.id. by apply list_lookup_middle.
Qed.
Lemma gate_in_chunk don g todo : gs = don ++ g :: todo → vget gs (vlen don) = Ret g.
Proof. intros ->. apply vget_middle. Qed.

(** An operand of a required gate that no gate of the chunk computes. *)
Definition external (w : N) : Prop :=
  (w ∉ out <$> gs) ∧ ∃ g, g ∈ gs ∧ req (out g) ∧ w ∈ reads g.
Record inputs_inv (C : N → Prop) (s : gmap N N * list N * bool) : Prop := {
  ii_remap : ∀ w c, s.1.1 !! w = Some c ↔ s.1.2 !! N.to_nat c = Some w;
  ii_nodup : NoDup s.1.2;
  ii_ids : ∀ w, w ∈ s.1.2 → external w ∧ mat w = true;
  ii_cover : ∀ w, C w → w ∉ out <$> gs → w ∈ s.1.2 ∨ (s.2 = false ∧ mat w = false);
  ii_bad : s.2 = false → ∃ w, external w ∧ mat w = false }.

Lemma external_lt w : external w → (w < M)%N.
Proof. intros (_ & g & Hg & _ & Hw). by apply (cw_ids _ _ Hwf g Hg). Qed.
Lemma inputs_bound C s : inputs_inv C s → (vlen s.1.2 + vlen gs ≤ M)%N.
Proof.
  intros [_ Hn Hi _ _]. assert (vlen (s.1.2 ++ (out <$> gs)) ≤ M)%N as Hb.
  - apply NoDup_bounded.
    + apply NoDup_app. split; [done|]. split; [|exact (chunk_outs_NoDup M gs Hwf)].
      intros w Hw. by destruct (Hi w Hw) as [[? _] _].
    + apply Forall_app. split; apply Forall_forall.
      * intros w Hw. by apply external_lt, Hi.
      * intros w (g & -> & Hg)%list_elem_of_fmap. by apply (cw_ids _ _ Hwf).
  - rewrite vlen_app, vlen_fmap in Hb. done.
Qed.

Lemma note_input_ok C s v :
  inputs_inv C s → (∃ g, g ∈ gs ∧ req (out g) ∧ v ∈ reads g) →
  inputs_inv (λ w, C w ∨ w = v) (note_input gs mat s v).
Proof.
  intros Hi Hv. pose proof (inputs_bound _ _ Hi) as Hb. destruct s as [[remap ids] ok].
  destruct Hi as [Hr Hn Hids Hc Hbad]. cbn [fst snd] in *. unfold note_input.
  destruct (chunk_local gs v) eqn:Hl.
  - apply (chunk_local_spec M gs Hwf) in Hl. split; cbn [fst snd]; try done.
    intros w [?| ->] Hw; [auto|done].
  - assert (v ∉ out <$> gs) as Hvo.
    { intros ?%(chunk_local_spec M gs Hwf). congruence. }
    case_bool_decide as Hs; [|destruct (mat v) eqn:Hm; simpl].
    + split; cbn [fst snd]; try done. intros w [?| ->] Hw; [auto|].
      destruct Hs as [c Hc'%Hr]. left. apply list_elem_of_lookup. eauto.
    + assert (remap !! v = None) as Hnone by (by apply eq_None_not_Some).
      rewrite u32_small by (unfold UINT32_MAX in HM; lia).
      assert (v ∉ ids) as Hvn.
      { intros [k Hk]%list_elem_of_lookup.
        rewrite <- (Nat2N.id k), <- Hr in Hk. congruence. }
      split; cbn [fst snd].
      * intros w c. rewrite lookup_insert_Some, Hr. unfold vlen. split.
        -- intros [[<- <-]|[Hne Hw]]; [rewrite Nat2N.id; by apply list_lookup_middle|by apply lookup_app_l_Some].
        -- intros [Hw|[Hge Hw]]%lookup_app_Some.
           ++ right. split; [|done]. intros <-. apply Hvn, list_elem_of_lookup. eauto.
           ++ apply list_lookup_singleton_Some in Hw as [? <-]. left. split; [done|lia].
      * apply NoDup_app. split; [done|]. split; [|apply NoDup_singleton].
        intros w Hw ->%list_elem_of_singleton. done.
      * intros w [Hw|Hw%list_elem_of_singleton]%elem_of_app; [auto|]. subst w. by split; [split|].
      * intros w [Hw| ->] Hwo; [destruct (Hc w Hw Hwo)|]; set_solver.
      * done.
    + split; cbn [fst snd]; try done.
      * intros w [Hw| ->] Hwo; [destruct (Hc w Hw Hwo) as [?|[_ ?]]|]; auto.
      * intros _. exists v. by split; [split|].
Qed.

Lemma inputs_ok :
  ∃ s, foldO (note_gate gs mat needed) (∅, [], true) (range 0 (vlen gs)) = Ret s ∧
    inputs_inv (λ w, ∃ g, g ∈ gs ∧ req (out g) ∧ w ∈ reads g) s.
Proof.
  apply (foldO_index_inv _ gs (λ don, inputs_inv (λ w, ∃ g, g ∈ don ∧ req (out g) ∧ w ∈ reads g))).
  - split; cbn [fst snd]; try done.
    + constructor.
    + by intros w ?%elem_of_nil.
    + by intros w (? & ?%elem_of_nil & _).
  - intros don g todo s Hg Hi. destruct (needed_at _ _ _ Hg) as (b & Hb & Hreq).
    assert (∀ C C' s, (∀ w, C' w → C w) → inputs_inv C s → inputs_inv C' s) as Hweak.
    { intros C C' s' HC [H1 H2 H3 H4 H5]. split; auto. }
    unfold note_gate. rewrite Hb. cbn [mbind outcome_bind]. destruct b.
    + rewrite (gate_in_chunk _ _ _ Hg). cbn [mbind outcome_bind]. eexists. split; [done|].
      assert (req (out g)) as Hr by (by apply Hreq). assert (g ∈ gs) as Hgin by (rewrite Hg; set_solver).
      assert (∀ v, v ∈ reads g → ∃ g, g ∈ gs ∧ req (out g) ∧ v ∈ reads g) as Hv by eauto.
      unfold reads, is_const, is_not in *. destruct (op g) eqn:Hop;
        (eapply Hweak; [|first [by repeat (apply note_input_ok; [|apply Hv; set_solver])|exact Hi]]);
        cbn beta; intros w (g' & [?| ->%list_elem_of_singleton]%elem_of_app & Hr' & Hw); rewrite ?Hop in Hw;
        try set_solver; eauto 6; by apply elem_of_nil in Hw.
    + eexists. split; [done|]. eapply Hweak; [|exact Hi]. cbn beta.
      intros w (g' & [?| ->%list_elem_of_singleton]%elem_of_app & Hr' & Hw); [eauto|].
      apply Hreq in Hr'. done.
Qed.

(** *** The order of inputs and gates

    The gates the plan keeps among the first ones recorded. *)
Definition kept_gates (don : list Gate) : list Gate :=
  omap id (imap (λ i g, if default false (needed !! i) then Some g else None) don).
Lemma kept_gates_snoc don g todo b : gs = don ++ g :: todo → vget needed (vlen don) = Ret b →
  kept_gates (don ++ [g]) = kept_gates don ++ (if b then [g] else []).
Proof.
  intros _ Hb%vget_Ret. unfold kept_gates. rewrite imap_app, omap_app. f_equal. cbn.
  unfold vlen in Hb. rewrite Nat2N.id in Hb. rewrite Nat.add_0_r, Hb. by destruct b.
Qed.
Lemma kept_gates_spec don todo : gs = don ++ todo →
  kept_gates don `sublist_of` don ∧ ∀ g, g ∈ kept_gates don ↔ g ∈ don ∧ req (out g).
Proof.
  revert todo. induction don as [|g don IH] using rev_ind; intros todo Hg.
  { split; [done|]. intros g. split; [by intros ?%elem_of_nil|by intros [?%elem_of_nil _]]. }
  rewrite <- app_assoc in Hg. cbn [app] in Hg. destruct (IH _ Hg) as [Hs Hi].
  destruct (needed_at _ _ _ Hg) as (b & Hb & Hreq). rewrite (kept_gates_snoc _ _ _ _ Hg Hb). split.
  - apply sublist_app; [done|]. destruct b; [done|apply sublist_nil_l].
  - intros g'. rewrite !elem_of_app, Hi. destruct b; rewrite ?list_elem_of_singleton, ?elem_of_nil; naive_solver.
Qed.

(** A gate of the program is its chunk gate over the program's wires [ws]. *)
Definition compacts (ws : list N) (ni : N) (k : nat) (g ng : Gate) : Prop :=
  op ng = op g ∧ out ng = (ni + N.of_nat k)%N ∧
  if is_const g then in0 ng = 0%N ∧ in1 ng = 0%N
  else ws !! N.to_nat (in0 ng) = Some (in0 g) ∧
       if is_not g then in1 ng = 0%N else ws !! N.to_nat (in1 ng) = Some (in1 g).
Lemma compacts_app ws ws' ni k g ng : compacts ws ni k g ng → compacts (ws ++ ws') ni k g ng.
Proof.
  intros (? & ? & H). split; [done|]. split; [done|]. destruct (is_const g), (is_not g);
    naive_solver eauto using lookup_app_l_Some.
Qed.

(** Every required gate has a value when all the external operands have one. *)
Section values.
Context (ids : list N) (Hids : ∀ w, external w → w ∈ ids).
Context (Hcar : ∀ w, w ∈ ids → is_Some (car !! w)) (Hidx : ∀ w, w ∈ ids → w ∉ out <$> gs).
Context (HidsND : NoDup ids) (Hbound : (vlen ids + vlen gs ≤ M)%N).
Context (ins : list bool) (Hins : mapM (car !!.) ids = Some ins).

Definition placed (don : list Gate) (w : N) : Prop :=
  w ∈ ids ∨ ∃ g, g ∈ don ∧ req (out g) ∧ out g = w.
Record compact_inv (don : list Gate) (s : gmap N N * N * list Gate) : Prop := {
  ki_cid : s.1.2 = (vlen ids + vlen s.2)%N;
  ki_len : (vlen s.2 ≤ vlen don)%N;
  ki_ssa : ssa (vlen ids) s.2;
  ki_env : ∃ e', sem_at s.2 ins e' ∧ ∀ w, placed don w → ∃ c b, s.1.1 !! w = Some c ∧
    (c < s.1.2)%N ∧ chunk_env don car !! w = Some b ∧ e' !! c = Some b }.

Lemma placed_snoc don g w :
  placed (don ++ [g]) w ↔ placed don w ∨ (req (out g) ∧ w = out g).
Proof. unfold placed. split; [intros [?|(g' & ? & ? & ?)]; set_solver|].
  intros [[?|(g' & ? & ? & ?)]|[? ->]]; [by left|right; exists g'; set_solver|right; exists g; set_solver]. Qed.
Lemma placed_fresh don g todo : gs = don ++ g :: todo → ¬ placed don (out g).
Proof.
  intros Hg [Hw|(g' & Hg' & _ & Ho)].
  - apply (Hidx _ Hw). rewrite Hg. set_solver.
  - apply (cw_fresh _ _ Hwf _ _ _ Hg). apply list_elem_of_fmap. eauto.
Qed.
Lemma placed_read don g todo w :
  gs = don ++ g :: todo → req (out g) → w ∈ reads g → placed don w.
Proof.
  intros Hg Hr Hw. assert (g ∈ gs) as Hgin by (rewrite Hg; set_solver).
  destruct (decide (w ∈ out <$> gs)) as [Hl|Hl].
  - right. pose proof (cw_reads _ _ Hwf _ _ _ _ Hg Hw Hl) as (g' & -> & Hg')%list_elem_of_fmap.
    exists g'. split; [done|]. split; [|done]. by eapply required_op.
  - left. apply Hids. split; [done|]. eauto.
Qed.

Lemma compact_gate_ok don g todo s :
  gs = don ++ g :: todo → compact_inv don s →
  ∃ s', compact_gate gs needed s (vlen don) = Ret s' ∧ compact_inv (don ++ [g]) s'.
Proof.
  intros Hg [Hcid Hlen Hssa (e' & He' & Hp)]. destruct (needed_at _ _ _ Hg) as (b & Hb & Hreq).
  destruct s as [[remap cid] og]. cbn [fst snd] in *. unfold compact_gate. rewrite Hb.
  cbn [mbind outcome_bind]. pose proof (placed_fresh _ _ _ Hg) as Hfresh.
  assert (∀ w, w ≠ out g → chunk_env (don ++ [g]) car !! w = chunk_env don car !! w) as Hframe.
  { intros w Hw. rewrite chunk_env_app. by apply chunk_step_ne. }
  destruct b.
  - rewrite (gate_in_chunk _ _ _ Hg). cbn [mbind outcome_bind].
    assert (req (out g)) as Hr by (by apply Hreq).
    set (ng := MkGate _ _ _ _). eexists. split; [done|].
    assert (∀ w, w ∈ reads g → ∃ c b, <[out g := cid]> remap !! w = Some c ∧ (c < cid)%N ∧
      chunk_env don car !! w = Some b ∧ e' !! c = Some b) as Hread.
    { intros w Hw. pose proof (placed_read _ _ _ _ Hg Hr Hw) as Hpw.
      destruct (Hp w Hpw) as (c & b & Hc & ?). exists c, b. split; [|done].
      rewrite lookup_insert_ne; [done|]. intros <-. done. }
    destruct (gate_val_Some (chunk_env don car) g) as [v Hv].
    { intros w Hw. destruct (Hread w Hw) as (c & b & _ & _ & -> & _). eauto. }
    assert (canonical ng ∧ (∀ c, c ∈ reads ng → (c < cid)%N) ∧ gate_val e' ng = Some v) as (Hcan & Hrd & Hval).
    { clear -Hread Hv. destruct g as [a0 a1 o []]; unfold ng, canonical, reads, gate_val in *; simpl in *;
        try (destruct (Hread a0) as (c0 & b0 & -> & ? & Hb0 & He0); [set_solver|]);
        try (destruct (Hread a1) as (c1 & b1 & -> & ? & Hb1 & He1); [set_solver|]);
        simpl; rewrite ?Hb0, ?Hb1 in Hv; rewrite ?He0, ?He1;
        (split; [done|]; split; [|done]); intros c Hc; set_unfold in Hc; naive_solver. }
    assert (vlen don + 1 ≤ vlen gs)%N as Hdl by (rewrite Hg, vlen_app; unfold vlen; simpl; lia).
    split; cbn [fst snd].
    + rewrite vlen_app, u32_small by (unfold UINT32_MAX in HM; lia). unfold vlen at 3. simpl. lia.
    + rewrite !vlen_app. unfold vlen at 2 4. simpl. lia.
    + apply ssa_snoc; [done|]. split; [done|]. simpl. unfold vlen in *. split; [lia|done].
    + exists (<[cid := v]> e'). split; [apply sem_gates_snoc; by exists e', v|].
      intros w [Hw|[_ ->]]%placed_snoc.
      * destruct (Hp w Hw) as (c & b & Hc & Hlt & Hcb & He). assert (w ≠ out g) by (by intros ->).
        exists c, b. rewrite !lookup_insert_ne by (done || lia). split; [done|].
        split; [rewrite u32_small by (unfold UINT32_MAX in HM; lia); lia|]. by rewrite Hframe.
      * exists cid, v. rewrite !lookup_insert_eq. split; [done|].
        split; [rewrite u32_small by (unfold UINT32_MAX in HM; lia); lia|]. split; [|done].
        rewrite chunk_env_app. simpl. unfold chunk_step. by rewrite Hv, lookup_insert_eq.
  - eexists. split; [done|]. split; cbn [fst snd]; [done| |done|].
    + rewrite vlen_app. lia.
    + exists e'. split; [done|]. intros w [Hw|[Hr _]]%placed_snoc; [|by apply Hreq in Hr].
      destruct (Hp w Hw) as (c & b & Hc & Hlt & Hcb & He). exists c, b. rewrite Hframe; [done|]. by intros ->.
Qed.

Lemma compact_ok remap0 :
  (∀ w c, remap0 !! w = Some c ↔ ids !! N.to_nat c = Some w) →
  ∃ s, foldO (compact_gate gs needed) (remap0, vlen ids, []) (range 0 (vlen gs)) = Ret s ∧
    compact_inv gs s.
Proof.
  intros Hr. apply (foldO_index_inv _ gs compact_inv); [|intros; by eapply compact_gate_ok].
  split; cbn [fst snd]; try done; [unfold vlen; simpl; lia|].
  exists (init_env ins). split; [done|]. intros w [Hw|(? & ?%elem_of_nil & _)]; [|done].
  apply list_elem_of_lookup in Hw as [k Hk]. exists (N.of_nat k).
  apply mapM_Some in Hins. destruct (Forall2_lookup_l _ _ _ _ _ Hins Hk) as (b & Hb & Hcb).
  exists b. rewrite Hr, Nat2N.id, init_env_lookup, Nat2N.id. split_and!; try done.
  apply lookup_lt_Some in Hk. unfold vlen. lia.
Qed.
(** The wires of the program so far, and its gates over them. *)
Abbreviation ws don := (ids ++ (out <$> kept_gates don)).
Record shape_inv (don : list Gate) (s : gmap N N * N * list Gate) : Prop := {
  si_remap : ∀ w c, s.1.1 !! w = Some c ↔ ws don !! N.to_nat c = Some w;
  si_cid : s.1.2 = vlen (ws don);
  si_len : length s.2 = length (kept_gates don);
  si_gates : ∀ k g ng, kept_gates don !! k = Some g → s.2 !! k = Some ng →
    compacts (ws don) (vlen ids) k g ng }.
Lemma placed_ws don todo w : gs = don ++ todo → placed don w ↔ w ∈ ws don.
Proof.
  intros Hg. destruct (kept_gates_spec don todo Hg) as [_ Hk].
  unfold placed. rewrite elem_of_app, list_elem_of_fmap. setoid_rewrite Hk. naive_solver.
Qed.
Lemma shape_gate_ok don g todo s : gs = don ++ g :: todo → shape_inv don s →
  ∃ s', compact_gate gs needed s (vlen don) = Ret s' ∧ shape_inv (don ++ [g]) s'.
Proof.
  intros Hg [Hr Hc Hl Hgs]. destruct (needed_at _ _ _ Hg) as (b & Hb & Hreq).
  destruct s as [[remap cid] og]. cbn [fst snd] in *. unfold compact_gate. rewrite Hb. cbn [mbind outcome_bind].
  pose proof (kept_gates_snoc _ _ _ _ Hg Hb) as Hks. destruct b.
  2: { eexists. split; [done|]. split; cbn [fst snd]; by rewrite Hks, app_nil_r. }
  rewrite (gate_in_chunk _ _ _ Hg). cbn [mbind outcome_bind]. set (ng := MkGate _ _ _ _). eexists. split; [done|].
  assert (ws (don ++ [g]) = ws don ++ [out g]) as Hws by (by rewrite Hks, fmap_app, (assoc_L (++))).
  pose proof (placed_fresh _ _ _ Hg) as Hfresh. rewrite (placed_ws don (g :: todo)) in Hfresh by done.
  assert (∀ w, w ∈ reads g → ws don !! N.to_nat (default 0%N (<[out g := cid]> remap !! w)) = Some w) as Hread.
  { intros w Hw. assert (w ∈ ws don) as Hin.
    { apply (placed_ws don (g :: todo)); [done|]. by eapply placed_read; [|apply Hreq|]. }
    pose proof Hin as [k Hk]%list_elem_of_lookup. rewrite <- (Nat2N.id k) in Hk. apply Hr in Hk as Hrw.
    rewrite lookup_insert_ne by (by intros <-). by rewrite Hrw. }
  assert (u32 (cid + 1) = cid + 1)%N as Hu.
  { assert (vlen (ws don) ≤ vlen ids + vlen don)%N.
    { rewrite vlen_app, vlen_fmap. destruct (kept_gates_spec don (g :: todo) Hg) as [Hs%sublist_length _]. unfold vlen. lia. }
    assert (vlen don + 1 ≤ vlen gs)%N by (rewrite Hg, vlen_app; unfold vlen; simpl; lia).
    apply u32_small. unfold UINT32_MAX in HM. lia. }
  split; cbn [fst snd]; rewrite ?Hws, ?Hu.
  - intros w c. rewrite lookup_insert_Some, Hr. split.
    + intros [[<- <-]|[_ ?]]; [|by apply lookup_app_l_Some]. rewrite Hc. unfold vlen. rewrite Nat2N.id.
      by apply list_lookup_middle.
    + intros [Hw|[Hge Hw]]%lookup_app_Some.
      * right. split; [|done]. intros <-. by apply Hfresh; eapply list_elem_of_lookup_2.
      * apply list_lookup_singleton_Some in Hw as [Hz <-]. left. split; [done|]. rewrite Hc. unfold vlen. lia.
  - rewrite vlen_app, Hc. done.
  - rewrite Hks, !length_app, Hl. done.
  - rewrite Hks. intros k g' ng' [Hk|[Hge Hk]]%lookup_app_Some Hng.
    + apply compacts_app. apply (Hgs k); [done|]. rewrite lookup_app_l in Hng; [done|].
      rewrite Hl. by eapply lookup_lt_Some.
    + apply list_lookup_singleton_Some in Hk as [Hz <-]. rewrite lookup_app_r in Hng by lia.
      apply list_lookup_singleton_Some in Hng as [_ <-]. apply compacts_app.
      assert (k = length (kept_gates don)) as -> by lia. unfold compacts, ng. cbn [op out in0 in1].
      split; [done|]. split; [rewrite Hc, vlen_app, vlen_fmap; unfold vlen; lia|].
      unfold reads in Hread. destruct g as [a0 a1 o []]; unfold is_const, is_not; cbn in *; split; try done; apply Hread; set_solver.
Qed.
Lemma shape_ok remap0 s : (∀ w c, remap0 !! w = Some c ↔ ids !! N.to_nat c = Some w) →
  foldO (compact_gate gs needed) (remap0, vlen ids, []) (range 0 (vlen gs)) = Ret s → shape_inv gs s.
Proof.
  intros Hr Hs. destruct (foldO_index_inv (compact_gate gs needed) gs shape_inv (remap0, vlen ids, []))
    as (s' & Hs' & Ho); [| |rewrite Hs in Hs'; injection Hs' as <-; exact Ho].
  - split; cbn [fst snd]; rewrite ?app_nil_r; done.
  - intros. by eapply shape_gate_ok.
Qed.
End values.

(** The compaction loop always completes. *)
Lemma compact_total s :
  ∃ s', foldO (compact_gate gs needed) s (range 0 (vlen gs)) = Ret s'.
Proof.
  destruct (foldO_index_inv (compact_gate gs needed) gs (λ _ _, True) s) as (s' & ? & _); eauto.
  intros don g todo [[remap cid] og] Hg _. destruct (needed_at _ _ _ Hg) as (b & Hb & _).
  unfold compact_gate. rewrite Hb. cbn [mbind outcome_bind].
  destruct b; [|eauto]. rewrite (gate_in_chunk _ _ _ Hg). cbn [mbind outcome_bind]. eauto.
Qed.

(** The outputs are the chunk's wires among those kept, in the order of the list. *)
Lemma emit_outputs_ok remap l :
  let oids := firsts (filter (λ w, w ∈ out <$> gs) l) in
  ∃ emitted, foldl (emit_output gs remap) (∅, [], []) l =
      (emitted, (λ id, default 0%N (remap !! id)) <$> oids, oids) ∧ ∀ w, w ∈ emitted ↔ w ∈ oids.
Proof.
  induction l as [|id l IH] using rev_ind; [exists ∅; set_solver|]. cbv zeta in *.
  destruct IH as (em & Heq & Hem). rewrite foldl_app, Heq, filter_app. cbn [foldl].
  pose proof (chunk_local_spec M gs Hwf id) as Hl. unfold emit_output. destruct (chunk_local gs id); cbn [negb].
  - rewrite filter_cons_True by (by apply Hl). rewrite filter_nil, firsts_snoc.
    case_bool_decide as Hin; rewrite Hem, elem_of_firsts in Hin.
    + rewrite decide_True by done. rewrite !app_nil_r. by exists em.
    + rewrite decide_False by done. eexists. split; [by rewrite fmap_app|]. set_solver.
  - rewrite filter_cons_False by (intros ?%Hl; done). rewrite filter_nil, app_nil_r. by exists em.
Qed.

(** The inputs are the operands of kept gates that the chunk does not compute. *)
Definition inputs_order (rs : list N) (s : gmap N N * list N * bool) : Prop :=
  s.2 = true → s.1.2 = firsts (filter (λ w, w ∉ out <$> gs) rs) ∧ ∀ w, is_Some (s.1.1 !! w) ↔ w ∈ s.1.2.
Lemma note_input_order rs s v : inputs_order rs s → inputs_order (rs ++ [v]) (note_input gs mat s v).
Proof.
  intros Hs. destruct s as [[remap ids] ok]. unfold inputs_order in *. cbn [fst snd] in Hs. unfold note_input.
  pose proof (chunk_local_spec M gs Hwf v) as Hl. destruct (chunk_local gs v); cbn [fst snd].
  { intros [-> Hr]%Hs. rewrite filter_app, filter_cons_False, filter_nil, app_nil_r; [done|].
    intros Hn. by apply Hn, Hl. }
  assert (v ∉ out <$> gs) as Hv by (by intros ?%Hl).
  case_bool_decide as Hin; [|destruct (mat v)]; cbn [negb fst snd]; [| |done];
    intros [Hids Hr]%Hs; rewrite filter_app, filter_cons_True, filter_nil, firsts_snoc by done;
    rewrite Hr, Hids, elem_of_firsts in Hin.
  - by rewrite decide_True, app_nil_r by done.
  - rewrite decide_False by done. split; [by rewrite Hids|]. intros w.
    rewrite lookup_insert_is_Some, Hr, elem_of_app, list_elem_of_singleton.
    destruct (decide (v = w)); naive_solver.
Qed.
Lemma inputs_order_ok s : foldO (note_gate gs mat needed) (∅, [], true) (range 0 (vlen gs)) = Ret s →
  inputs_order (kept_gates gs ≫= reads) s.
Proof.
  intros Hs. destruct (foldO_index_inv (note_gate gs mat needed) gs
    (λ don s, inputs_order (kept_gates don ≫= reads) s) (∅, [], true)) as (s' & Hs' & Ho); [| |rewrite Hs in Hs'; injection Hs' as <-; exact Ho].
  - intros _. split; [done|]. intros w. cbn [fst snd]. rewrite lookup_empty, elem_of_nil. by split; [intros [? ?]|].
  - intros don g todo s0 Hg Hi. destruct (needed_at _ _ _ Hg) as (b & Hb & _).
    unfold note_gate. rewrite Hb, (kept_gates_snoc _ _ _ _ Hg Hb). cbn [mbind outcome_bind]. destruct b.
    + rewrite (gate_in_chunk _ _ _ Hg). cbn [mbind outcome_bind]. eexists. split; [done|].
      rewrite bind_app. cbn [mbind list_bind app]. unfold reads at 2, is_const, is_not. rewrite app_nil_r.
      destruct (op g); rewrite ?app_nil_r; auto using note_input_order;
        rewrite (app_assoc _ [in0 g] [in1 g] : (_ ++ [in0 g; in1 g]) = _); auto using note_input_order.
    + eexists. split; [done|]. by rewrite app_nil_r.
Qed.

End compact.

(** The program of a plan, gate by gate: the gates some kept wire needs and no others, in
    the order they were recorded, over wires that stand for the inputs, in the order the
    gates first read them, and then for the gates' outputs. *)
Definition plan_shape (gs : list Gate) (keep : list N) (plan : FlushPlan) : Prop :=
  ∃ ks, ks `sublist_of` gs ∧ (∀ g, g ∈ ks ↔ g ∈ gs ∧ required gs keep (out g)) ∧
    input_ids plan = firsts (filter (λ w, w ∉ out <$> gs) (ks ≫= reads)) ∧
    let ws := input_ids plan ++ (out <$> ks) in
    num_wires (fp_prog plan) = vlen ws ∧ length (gates (fp_prog plan)) = length ks ∧
    (∀ k g ng, ks !! k = Some g → gates (fp_prog plan) !! k = Some ng →
       compacts ws (vlen (input_ids plan)) k g ng) ∧
    Forall2 (λ c w, ws !! N.to_nat c = Some w) (outputs (fp_prog plan)) (output_ids plan).

(** What a flush plan promises. *)
Record plan_spec (gs : list Gate) (keep : list N) (car : gmap N bool) (plan : FlushPlan) : Prop := {
  ps_outs : NoDup (output_ids plan) ∧
    ∀ w, w ∈ output_ids plan ↔ w ∈ keep ∧ w ∈ out <$> gs;
  ps_ok : fp_ok plan = true ↔ ∀ w, w ∈ output_ids plan → is_Some (chunk_env gs car !! w);
  ps_prog : fp_ok plan = true → wf_program (fp_prog plan) ∧ ssa (vlen (input_ids plan)) (gates (fp_prog plan)) ∧
    num_inputs (fp_prog plan) = vlen (input_ids plan) ∧ wire_reuse (fp_prog plan) = ReuseNone ∧
    (vlen (gates (fp_prog plan)) ≤ vlen gs)%N;
  ps_sem : fp_ok plan = true → NoDup (input_ids plan) ∧ ∃ ins outs,
    mapM (car !!.) (input_ids plan) = Some ins ∧ eval_program (fp_prog plan) ins = Some outs ∧
    mapM (chunk_env gs car !!.) (output_ids plan) = Some outs;
  ps_order : output_ids plan = firsts (filter (λ w, w ∈ out <$> gs) keep);
  ps_shape : fp_ok plan = true → plan_shape gs keep plan }.

(** When every kept chunk wire has a bit, so has every wire it needs. *)
Lemma required_defined M gs keep car :
  chunk_wf M gs → (∀ w, w ∈ out <$> gs → car !! w = None) →
  (∀ w, w ∈ keep → w ∈ out <$> gs → is_Some (chunk_env gs car !! w)) →
  ∀ x, required gs keep x → is_Some (chunk_env gs car !! x).
Proof.
  intros Hwf Hdisj Hall. induction 1 as [x Hk Hx|g' x Hg' _ IH Hx]; [by apply Hall|].
  apply list_elem_of_split in Hg' as (don & todo & Hsp).
  rewrite (chunk_env_at M gs Hwf car Hdisj _ _ _ Hsp) in IH.
  rewrite <- (chunk_env_read M gs Hwf car Hdisj _ _ _ _ Hsp Hx). clear -IH Hx.
  destruct IH as [v Hv]. unfold gate_val, reads in *. destruct (op g'); set_unfold in Hx; [..|done|done].
  - apply bind_Some in Hv as (a & Ha & (b & Hb & _)%bind_Some). naive_solver.
  - apply bind_Some in Hv as (a & Ha & (b & Hb & _)%bind_Some). naive_solver.
  - apply bind_Some in Hv as (a & Ha & _). naive_solver.
Qed.

(** The outputs of the compacted program hold the bits of the kept wires. *)
Lemma outputs_placed (remap : gmap N N) (cid : N) (env e' : gmap N bool) oids :
  (∀ w, w ∈ oids → ∃ c b, remap !! w = Some c ∧ (c < cid)%N ∧ env !! w = Some b ∧ e' !! c = Some b) →
  ∃ outs, mapM (env !!.) oids = Some outs ∧
    mapM (e' !!.) ((λ id, default 0%N (remap !! id)) <$> oids) = Some outs ∧
    Forall (λ c, (c < cid)%N) ((λ id, default 0%N (remap !! id)) <$> oids).
Proof.
  induction oids as [|w oids IH]; intros Hall; [by exists []|].
  destruct (Hall w) as (c & b & Hc & Hlt & Hb & He); [by left|].
  destruct IH as (outs & H1 & H2 & H3); [intros; apply Hall; by right|].
  exists (b :: outs). rewrite fmap_cons. simpl. rewrite Hb, Hc. simpl. rewrite He. simpl. rewrite H1, H2.
  split; [done|]. split; [done|]. by constructor.
Qed.

Lemma plan_flush_ok M gs keep car mat :
  chunk_wf M gs → (∀ w, w ∈ out <$> gs → car !! w = None) →
  (∀ w, mat w = true ↔ is_Some (car !! w)) → (M ≤ UINT32_MAX)%N → (vlen gs < 2 ^ 31)%N →
  ∃ plan, plan_flush gs keep mat = Ret plan ∧ plan_spec gs keep car plan.
Proof.
  intros Hwf Hdisj Hmat HM Hlen. destruct (needed_ok M gs Hwf keep) as (needed & Hm & _ & Hneeded).
  destruct (inputs_ok M gs Hwf keep car Hdisj mat Hmat HM needed Hneeded) as ([[remap0 ids] ok] & Hin & Hinv).
  pose proof (inputs_bound _ _ Hwf _ _ _ _ Hinv) as Hbound.
  pose proof Hinv as [Hr Hnd Hids Hcov Hbad]. cbn [fst snd] in *.
  unfold plan_flush, int_size. rewrite (proj2 (N.ltb_lt _ _) Hlen). cbn [mbind outcome_bind].
  rewrite Hm. cbn [mbind outcome_bind]. rewrite Hin. cbn [mbind outcome_bind].
  rewrite u32_small by (unfold UINT32_MAX in HM; lia).
  destruct (compact_total M gs Hwf keep car Hdisj needed Hneeded (remap0, vlen ids, [])) as ([[remap cid] og] & Hc).
  rewrite Hc. cbn [mbind outcome_bind].
  destruct (emit_outputs_ok M gs Hwf keep car Hdisj mat Hmat HM needed Hneeded remap keep) as (em & -> & _).
  set (oids := firsts _). eexists. split; [done|]. pose proof (NoDup_firsts (filter (λ w, w ∈ out <$> gs) keep)) as Hond.
  assert (∀ w, w ∈ oids ↔ w ∈ keep ∧ w ∈ out <$> gs) as Ho.
  { intros w. unfold oids. rewrite elem_of_firsts, list_elem_of_filter. naive_solver. }
  assert (ok = true → ∃ ins outs, mapM (car !!.) ids = Some ins ∧ compact_inv gs keep car ids ins gs (remap, cid, og) ∧
    mapM (chunk_env gs car !!.) oids = Some outs ∧
    ∃ e', sem_at og ins e' ∧ mapM (e' !!.) ((λ id, default 0%N (remap !! id)) <$> oids) = Some outs ∧
      Forall (λ c, (c < cid)%N) ((λ id, default 0%N (remap !! id)) <$> oids)) as Hok.
  { intros ->. assert (∀ w, w ∈ ids → is_Some (car !! w)) as Hcar by (intros w Hw; by apply Hmat, Hids).
    destruct (mapM_is_Some_2 (car !!.) ids) as [ins Hins]; [by apply Forall_forall|].
    assert (∀ w, external gs keep w → w ∈ ids) as Hext.
    { intros w [Hw Hg]. destruct (Hcov w Hg Hw) as [?|[? _]]; done. }
    destruct (compact_ok M gs Hwf keep car Hdisj mat Hmat HM needed Hneeded ids) with (ins := ins) (remap0 := remap0)
      as ([[remap' cid'] og'] & Hc' & Hk); [|done|intros w Hw; by apply Hids|done..|].
    { intros w [Hw Hg]. destruct (Hcov w Hg Hw) as [?|[? _]]; done. }
    rewrite Hc in Hc'. injection Hc' as <- <- <-. destruct (ki_env _ _ _ _ _ _ _ Hk) as (e' & He' & Hp).
    cbn [fst snd] in *. destruct (outputs_placed remap cid (chunk_env gs car) e' oids) as (outs & H1 & H2 & H3).
    { intros w [Hwk (g & -> & Hg)%list_elem_of_fmap]%Ho. apply Hp. right. exists g. split; [done|]. split; [|done].
      apply required_keep; [done|]. apply list_elem_of_fmap. eauto. }
    exists ins, outs. eauto 10. }
  split; cbn [fp_prog input_ids output_ids fp_ok num_inputs gates wire_reuse].
  - done.
  - split.
    + intros H w Hw. destruct (Hok H) as (ins & outs & _ & _ & Houts & _).
      apply list_elem_of_lookup in Hw as [k Hk]. apply mapM_Some in Houts.
      destruct (Forall2_lookup_l _ _ _ _ _ Houts Hk) as (b & _ & ?). eauto.
    + intros Hall. destruct ok; [done|]. exfalso. destruct (Hbad eq_refl) as (w & (Hw & g & Hg & Hrq & Hrd) & Hmw).
      destruct (required_defined M gs keep car) with (x := w) as [b Hb]; [done..| |by eapply required_op|].
      { intros x ? ?. by apply Hall, Ho. }
      rewrite chunk_env_frame in Hb by done. assert (mat w = true) by (apply Hmat; eauto). congruence.
  - intros H. destruct (Hok H) as (ins & outs & _ & [Hcid Hl Hssa _] & _ & e' & _ & _ & Hlt). cbn [fst snd] in *.
    split_and!; [|done..]. by apply ssa_wf.
  - intros H. split; [done|]. destruct (Hok H) as (ins & outs & Hi & _ & Houts & e' & He' & Hm' & _).
    exists ins, outs. split; [done|]. split; [|done]. unfold eval_program. simpl. unfold sem_at in He'.
    by rewrite He'.
  - done.
  - intros H. destruct (Hok H) as (ins & _ & Hi & [Hcid _ _ _] & _). cbn [fst snd] in *.
    assert (∀ w, external gs keep w → w ∈ ids) as Hext by (intros w [Hw Hg]; destruct (Hcov w Hg Hw) as [?|[? _]]; congruence).
    assert (∀ w, w ∈ ids → w ∉ out <$> gs) as Hidx by (intros w Hw; by apply Hids).
    assert (shape_inv needed ids gs (remap, cid, og)) as [Hsr Hsc Hsl Hsg].
    { apply (shape_ok M gs Hwf keep car Hdisj mat Hmat HM needed Hneeded ids) with (ins := ins) (remap0 := remap0); try done.
      intros w Hw. by apply Hmat, Hids. }
    destruct (inputs_order_ok M gs Hwf keep car Hdisj mat Hmat needed Hneeded _ Hin H) as [Hio _]. cbn [fst snd] in *.
    destruct (kept_gates_spec M gs Hwf keep car Hdisj mat Hmat needed Hneeded gs []) as [Hs Hi']; [by rewrite app_nil_r|].
    exists (kept_gates needed gs). cbn [fp_prog input_ids output_ids num_wires outputs gates].
    split; [done|]. split; [done|]. split; [done|]. cbv zeta. split; [done|]. split; [done|]. split; [done|].
    apply Forall2_fmap_l, Forall_Forall2_diag, Forall_forall. intros w Hw.
    apply Ho in Hw as [Hwk (g & -> & Hg)%list_elem_of_fmap].
    assert (out g ∈ ids ++ (out <$> kept_gates needed gs)) as [k Hk]%list_elem_of_lookup.
    { apply elem_of_app. right. apply list_elem_of_fmap_2, Hi'. split; [done|].
      apply required_keep; [done|by apply list_elem_of_fmap_2]. }
    rewrite <- (Nat2N.id k) in Hk. pose proof Hk as Hc'%Hsr. cbn [fst snd] in Hc'. unfold compose. by rewrite Hc'.
Qed.

(** ** Property *)

(** C9: flush planning is correct.  For any chunk of fewer than 2^31 gates recorded
    with fresh 32-bit ids, any keep list and any set of carried bits, [plan_flush]
    terminates within its work list bound and returns a plan.  Its outputs are the
    chunk's wires among those kept, each once, in keep order.  The plan is rejected
    exactly when some kept chunk wire has no value (a stale operand); otherwise its
    gates are the chunk gates that a kept wire depends on and no others, in recording
    order; its inputs are the operands of these that the chunk does not compute, in
    the order they are first read; the program is well formed, dense and canonical,
    and each of its gates and outputs names the wire it stands for; and on the carried
    bits it computes the value of every kept chunk wire. *)
Theorem plan_flush_correct M gs keep car mat :
  chunk_wf M gs → (∀ w, w ∈ out <$> gs → car !! w = None) →
  (∀ w, mat w = true ↔ is_Some (car !! w)) → (M ≤ UINT32_MAX)%N → (vlen gs < 2 ^ 31)%N →
  ∃ plan, plan_flush gs keep mat = Ret plan ∧
    (fp_ok plan = true ↔ ∀ w, w ∈ keep → w ∈ out <$> gs → is_Some (chunk_env gs car !! w)) ∧
    output_ids plan = firsts (filter (λ w, w ∈ out <$> gs) keep) ∧
    (fp_ok plan = true → wf_program (fp_prog plan) ∧
      num_inputs (fp_prog plan) = vlen (input_ids plan) ∧ wire_reuse (fp_prog plan) = ReuseNone ∧
      (∀ k g, gates (fp_prog plan) !! k = Some g →
         out g = (num_inputs (fp_prog plan) + N.of_nat k)%N) ∧
      plan_shape gs keep plan ∧
      ∃ ins outs, mapM (car !!.) (input_ids plan) = Some ins ∧
        eval_program (fp_prog plan) ins = Some outs ∧
        mapM (chunk_env gs car !!.) (output_ids plan) = Some outs).
Proof.
  intros H1 H2 H3 H4 H5. destruct (plan_flush_ok M gs keep car mat H1 H2 H3 H4 H5)
    as (plan & Hp & [[Hn Ho] Hok Hprog Hsem Hord Hshape]).
  exists plan. split; [done|]. split.
  { rewrite Hok. split; intros H w; [intros ??; apply H, Ho; done|intros [??]%Ho; auto]. }
  split; [done|]. intros Hk. destruct (Hprog Hk) as (Hw & Hssa & Hni & Hru & _).
  split_and!; [done..| |by apply Hshape|by apply Hsem].
  intros k g Hg. rewrite Hni. by destruct (Hssa k g Hg) as (_ & ? & _).
Qed.

(** Two carried bits 1 and 2; wire 5 is dead, wire 6 depends on 4. *)
Definition chunk_sample : list Gate :=
  [MkGate 1 2 4 And; MkGate 4 9 5 Xor; MkGate 4 0 6 Not].
Definition carried_sample : gmap N bool := {[ 1%N := true; 2%N := false ]}.
Lemma chunk_sample_wf : chunk_wf 10 chunk_sample.
Proof.
  unfold chunk_sample. split.
  - intros don g todo Hg. destruct don as [|? [|? [|? [|]]]]; simplify_eq/=; simpl;
      rewrite ?elem_of_cons, ?elem_of_nil; naive_solver.
  - intros don g todo w Hg. destruct don as [|? [|? [|? [|]]]]; simplify_eq/=;
      cbv [reads op in0 in1 out]; rewrite ?elem_of_cons, ?elem_of_nil; naive_solver.
  - intros g. rewrite !elem_of_cons, elem_of_nil. intros [->|[->|[->|[]]]]; (split; [reflexivity|]); intros w;
      cbv [reads op in0 in1 out]; rewrite ?elem_of_cons, ?elem_of_nil; naive_solver lia.
Qed.
Lemma plan_flush_correct_witness :
  ∃ plan, plan_flush chunk_sample [6%N] (λ w, bool_decide (is_Some (carried_sample !! w))) = Ret plan ∧
    fp_prog plan = MkProgram 4 2 ReuseNone [MkGate 0 1 2 And; MkGate 2 0 3 Not] [3%N] ∧
    eval_program (fp_prog plan) [true; false] = Some [true].
Proof.
  destruct (plan_flush_correct 10 chunk_sample [6%N] carried_sample
    (λ w, bool_decide (is_Some (carried_sample !! w))) chunk_sample_wf) as (plan & Hp & Hok & _ & H).
  - intros w. unfold chunk_sample. simpl. rewrite !elem_of_cons, elem_of_nil.
    intros [->|[->|[->|[]]]]; reflexivity.
  - intros w. apply bool_decide_eq_true.
  - vm_compute. discriminate.
  - reflexivity.
  - exists plan. split; [exact Hp|]. vm_compute in Hp. injection Hp as <-. split; [reflexivity|].
    destruct (H eq_refl) as (_ & _ & _ & _ & _ & ins & outs & Hi & He & Ho).
    vm_compute in Hi. injection Hi as <-. vm_compute in Ho. injection Ho as <-. exact He.
Defined.
