(* ===== verification/Session.v ===== *)
(** * Chunked sessions (ir/session/chunk_recorder.h, ir/session/chunked_session.h)

    [ChunkRecorderCtx] records gates as pending wire ids and counts the handles
    that reference each id; [ChunkedSession] authenticates inputs, runs the
    pending chunk through a protocol back end and reveals values.  The protocol
    behind the session is the class [Backend], with the documented behaviour of
    its hooks as the laws of [LawfulBackend]: what it carries for an id is a bit.
    [step] is what a client may do, over a [Config]: the session, the input batches the
    client holds, and the ids that are without a bit for good.

    Handle counts are unbounded integers (an [int] count would need 2^31 live
    handles of one wire to overflow); pins and unpins of the temporaries inside
    one operation cancel and are not modelled; the wire objects are in [Handles]. *)

From S2P Require Import Prelude Program Validate Context Execute Kernel Passes Transform FlushPlan.

(** ** The recorder *)
Module ChunkRecorder.
Record State : Type := MkState {
  rc_ : list Z; next_id_ : N; chunk_gates_ : list Gate; pending_ : gset N;
  const0_ : option N; const1_ : option N }.

Definition construct (g_chunk_rec : bool) : outcome State :=
  expecting (negb g_chunk_rec)
    "ChunkRecorderCtx: another chunked-session recorder is already active; one must be destroyed before another records (use separate processes for concurrent sessions)";;
  Ret (MkState [0%Z] 1 [] ∅ None None).
Definition destroy (checks : bool) (s : State) : outcome unit :=
  if checks then
    foldO (λ _ id, c ← vget (rc_ s) id;
      expecting (c =? 0)%Z "ChunkRecorderCtx: destroyed while a value still holds a recorder wire (a value outlived its recorder — RAII lifetime violation)")
      tt (range 1 (vlen (rc_ s) - 1))
  else Ret tt.

Definition set_rc (rc : list Z) (s : State) : State :=
  MkState rc (next_id_ s) (chunk_gates_ s) (pending_ s) (const0_ s) (const1_ s).
(** [chunk_pin] / [chunk_unpin] with the active recorder. *)
Definition chunk_adjust (checks : bool) (d : Z) (id : N) (s : State) : outcome State :=
  if (id =? 0)%N then Ret s
  else
    (if checks then expecting (id <? vlen (rc_ s))%N
       "ChunkRecorderCtx: wire id out of range for the active recorder (a value outlived its recorder?)"
     else Ret tt);;
    c ← vget (rc_ s) id;
    rc ← vset (rc_ s) id (c + d)%Z;
    Ret (set_rc rc s).
Definition chunk_pin (checks : bool) : N → State → outcome State := chunk_adjust checks 1.
Definition chunk_unpin (checks : bool) : N → State → outcome State := chunk_adjust checks (-1).

Definition alloc_id_ : ST State N := λ s,
  expecting (negb (next_id_ s =? UINT32_MAX)%N) "ChunkRecorderCtx: recorder wire id overflow";;
  Ret (next_id_ s, MkState (rc_ s ++ [0%Z]) (u32 (next_id_ s + 1)) (chunk_gates_ s) (pending_ s)
                     (const0_ s) (const1_ s)).
Definition push_gate (g : Gate) (s : State) : State :=
  MkState (rc_ s) (next_id_ s) (chunk_gates_ s ++ [g]) ({[out g]} ∪ pending_ s) (const0_ s) (const1_ s).
Definition record_ (mk : N → Gate) : ST State N := λ s, '(o, s) ← alloc_id_ s; Ret (o, push_gate (mk o) s).
Definition set_const (v : bool) (o : N) (s : State) : State :=
  MkState (rc_ s) (next_id_ s) (chunk_gates_ s) (pending_ s)
    (if v then const0_ s else Some o) (if v then Some o else const1_ s).
(** The returned [Wire] is a new handle: it pins its id. *)
Definition pinned (checks : bool) (m : ST State N) : ST State N := λ s,
  '(o, s) ← m s; s ← chunk_pin checks o s; Ret (o, s).
Definition require_allocated_ (a : N) (s : State) : outcome unit :=
  expecting (a <? next_id_ s)%N
    "ChunkRecorderCtx: operand id was never allocated (corrupt wire)".

Section gates.
Context (checks : bool).
Definition public_bit (v : bool) : ST State N := pinned checks (λ s,
  match (if v then const1_ s else const0_ s) with
  | Some w => Ret (w, s)
  | None =>
      '(o, s) ← record_ (λ o, MkGate 0 0 o (if v then Const1 else Const0)) s;
      Ret (o, set_const v o s)
  end).
Definition and_gate (a b : N) : ST State N := pinned checks (λ s,
  require_allocated_ a s;; require_allocated_ b s;; record_ (λ o, MkGate a b o And) s).
Definition xor_gate (a b : N) : ST State N := pinned checks (λ s,
  require_allocated_ a s;; require_allocated_ b s;; record_ (λ o, MkGate a b o Xor) s).
Definition not_gate (a : N) : ST State N := pinned checks (λ s,
  require_allocated_ a s;; record_ (λ o, MkGate a 0 o Not) s).
End gates.

Fixpoint reserve_ids (n : nat) : ST State (list N) :=
  match n with O => mret [] | S n => i ← alloc_id_; ids ← reserve_ids n; mret (i :: ids) end.
Definition is_pending (s : State) (id : N) : bool := bool_decide (id ∈ pending_ s).
Definition in_scope (s : State) (id : N) : bool :=
  match rc_ s !! N.to_nat id with Some c => (0 <? c)%Z | None => false end.
Definition live_pending_ids (s : State) : list N :=
  filter (λ o, in_scope s o = true) (out <$> chunk_gates_ s).
Definition drop_chunk (s : State) : State := MkState (rc_ s) (next_id_ s) [] ∅ None None.
(** Wrap raw ids in handles. *)
Definition pin_all (checks : bool) (ids : list N) (s : State) : outcome State :=
  foldO (λ s id, chunk_pin checks id s) s ids.

(** *** The invariant, over the carried bits *)
Record Inv (car : gmap N bool) (s : State) : Prop := {
  inv_next : (1 ≤ next_id_ s ≤ UINT32_MAX)%N;
  inv_rc : vlen (rc_ s) = next_id_ s;
  inv_chunk : chunk_wf (next_id_ s) (chunk_gates_ s);
  inv_pos : ∀ g, g ∈ chunk_gates_ s → (0 < out g)%N;
  inv_pending : ∀ w, w ∈ pending_ s ↔ w ∈ out <$> chunk_gates_ s;
  inv_carried : ∀ w, is_Some (car !! w) → (w < next_id_ s)%N ∧ w ∉ out <$> chunk_gates_ s;
  inv_const : (∀ w, const0_ s = Some w → MkGate 0 0 w Const0 ∈ chunk_gates_ s) ∧
    (∀ w, const1_ s = Some w → MkGate 0 0 w Const1 ∈ chunk_gates_ s) }.
(** What an id means: carried bits and pending gates. *)
Definition val (car : gmap N bool) (s : State) (w : N) : option bool := chunk_env (chunk_gates_ s) car !! w.

(** Counts are never negative, and every wire in scope has a value. *)
Definition nonneg (s : State) : Prop := ∀ w k, rc_ s !! N.to_nat w = Some k → (0 ≤ k)%Z.
Record Safe (car : gmap N bool) (s : State) : Prop := {
  safe_inv : Inv car s;
  safe_nonneg : nonneg s;
  safe_scope : ∀ w, in_scope s w = true → is_Some (val car s w) }.

Lemma Inv_disjoint car s : Inv car s → ∀ w, w ∈ out <$> chunk_gates_ s → car !! w = None.
Proof. intros Hi w Hw. apply eq_None_not_Some. intros Hs. by apply (inv_carried _ _ Hi) in Hs as [_ ?]. Qed.
Lemma val_lt car s w : Inv car s → is_Some (val car s w) → (w < next_id_ s)%N.
Proof.
  intros Hi Hs. destruct (decide (w ∈ out <$> chunk_gates_ s)) as [Hw|Hw].
  - apply list_elem_of_fmap in Hw as (g & -> & Hg). by apply (cw_ids _ _ (inv_chunk _ _ Hi)).
  - unfold val in Hs. rewrite chunk_env_frame in Hs by done. by apply (inv_carried _ _ Hi).
Qed.

(** The invariant asks only which ids are carried, and holds for fewer. *)
Lemma Inv_sub car car' s : Inv car s → (∀ w, is_Some (car' !! w) → is_Some (car !! w)) → Inv car' s.
Proof. intros [Hn Hr Hg Hp Hq Hk Ho] Hc. split; [done..| |done]. intros w Hw. by apply Hk, Hc. Qed.
(** A pending gate has computed its output from its operands. *)
Lemma gate_val_reads e e' g : (∀ w, w ∈ reads g → e' !! w = e !! w) → gate_val e' g = gate_val e g.
Proof.
  intros Hr. unfold gate_val, reads in *. destruct (op g); try done; rewrite ?(Hr (in0 g)), ?(Hr (in1 g)) by set_solver; done.
Qed.
Lemma val_gate car s g :
  Inv car s → g ∈ chunk_gates_ s → val car s (out g) = gate_val (chunk_env (chunk_gates_ s) car) g.
Proof.
  intros Hi (don & todo & Hg)%list_elem_of_split. unfold val.
  rewrite (chunk_env_at _ _ (inv_chunk _ _ Hi) car (Inv_disjoint _ _ Hi) don g todo Hg).
  apply gate_val_reads. intros w Hw. exact (chunk_env_read _ _ (inv_chunk _ _ Hi) car (Inv_disjoint _ _ Hi) don g todo w Hg Hw).
Qed.
Lemma val_const car s (v : bool) w :
  Inv car s → (if v then const1_ s else const0_ s) = Some w → val car s w = Some v.
Proof.
  intros Hi Hc. destruct (inv_const _ _ Hi) as [H0 H1].
  destruct v; [apply H1 in Hc|apply H0 in Hc]; exact (val_gate car s _ Hi Hc).
Qed.

(** Handle counts do not matter to the invariant. *)
Lemma Inv_set_rc car s rc : Inv car s → vlen rc = next_id_ s → Inv car (set_rc rc s).
Proof. intros [] ?. by split. Qed.

Lemma chunk_adjust_ok checks d id s :
  (0 < id)%N → (id < vlen (rc_ s))%N → ∃ rc, chunk_adjust checks d id s = Ret (set_rc rc s) ∧
    vlen rc = vlen (rc_ s) ∧
    ∀ w, rc !! N.to_nat w = if decide (w = id) then (λ c, (c + d)%Z) <$> (rc_ s !! N.to_nat w) else rc_ s !! N.to_nat w.
Proof.
  intros Hp Hl. unfold chunk_adjust. rewrite (proj2 (N.eqb_neq _ _)) by lia.
  rewrite (proj2 (N.ltb_lt _ _) Hl). destruct (vget_lt (rc_ s) id Hl) as [c Hc].
  assert (∃ rc, vset (rc_ s) id (c + d)%Z = Ret rc) as [rc Hset] by (eexists; by apply vset_lt).
  exists rc. split; [by destruct checks; simpl; rewrite Hc; simpl; rewrite Hset|].
  pose proof (proj1 (vset_Ret _ _ _ _) Hset) as [_ ->]. split; [apply vlen_insert|].
  intros w. apply vget_Ret in Hc. case_decide as Hw.
  - subst. rewrite list_lookup_insert_eq by (by apply lookup_lt_Some in Hc). by rewrite Hc.
  - rewrite list_lookup_insert_ne by lia. done.
Qed.

(** Recording a gate over allocated operands. *)
Lemma record_ok car mk s (Q : N → State → Prop) (E : string → Prop) :
  Inv car s → E "ChunkRecorderCtx: recorder wire id overflow" →
  (∀ g, g = mk (next_id_ s) → out g = next_id_ s ∧ ∀ w, w ∈ reads g → (w < next_id_ s)%N) →
  (∀ s', Inv car s' → next_id_ s' = (next_id_ s + 1)%N → rc_ s' = rc_ s ++ [0%Z] →
     (∀ w, w ≠ next_id_ s → val car s' w = val car s w) →
     val car s' (next_id_ s) = gate_val (chunk_env (chunk_gates_ s) car) (mk (next_id_ s)) →
     mk (next_id_ s) ∈ chunk_gates_ s' → const0_ s' = const0_ s → const1_ s' = const1_ s → Q (next_id_ s) s') →
  wp E (record_ mk) s Q.
Proof.
  intros Hi HE Hmk HQ. pose proof Hi as [Hn Hrc Hcw Hpos Hpend Hcar [Hc0 Hc1]].
  unfold wp, record_, alloc_id_. destruct (N.eqb_spec (next_id_ s) UINT32_MAX) as [|Hne]; [done|].
  cbn [negb expecting mbind outcome_bind]. unfold UINT32_MAX in *. rewrite u32_small by lia.
  destruct (Hmk _ eq_refl) as [Ho Hr]. set (g := mk (next_id_ s)) in *.
  assert (next_id_ s ∉ out <$> chunk_gates_ s) as Hfresh.
  { intros (g' & Heq & Hg')%list_elem_of_fmap. apply (cw_ids _ _ Hcw) in Hg' as [? _]. lia. }
  assert (car !! next_id_ s = None) as Hcn.
  { apply eq_None_not_Some. intros Hs. apply Hcar in Hs as [? _]. lia. }
  assert (∀ w, w ≠ next_id_ s → chunk_env (chunk_gates_ s ++ [g]) car !! w = chunk_env (chunk_gates_ s) car !! w) as Hval.
  { intros w Hw. rewrite chunk_env_app. apply chunk_step_ne. by rewrite Ho. }
  apply HQ; unfold val; cbn [chunk_gates_ push_gate next_id_ rc_ const0_ const1_]; try done.
  - split; cbn [chunk_gates_ push_gate next_id_ rc_ const0_ const1_ pending_].
    + unfold UINT32_MAX. lia.
    + rewrite vlen_app, Hrc. done.
    + split.
      * intros don g' todo Heq. destruct todo as [|g2 todo _] using rev_ind.
        -- apply app_inj_tail in Heq as [<- <-]. by rewrite Ho.
        -- rewrite app_comm_cons, app_assoc in Heq. apply app_inj_tail in Heq as [Heq _].
           by eapply cw_fresh.
      * intros don g' todo w Heq Hw Hin. rewrite fmap_app in Hin. simpl in Hin.
        destruct todo as [|g2 todo _] using rev_ind.
        -- apply app_inj_tail in Heq as [<- <-]. apply Hr in Hw. rewrite Ho in Hin. set_unfold.
           destruct Hin as [?|[->|[]]]; [done|lia].
        -- rewrite app_comm_cons, app_assoc in Heq. apply app_inj_tail in Heq as [Heq _].
           eapply (cw_reads _ _ Hcw); [exact Heq|done|].
           assert (w < next_id_ s)%N by (eapply (cw_ids _ _ Hcw g'); [rewrite Heq; set_solver|done]).
           rewrite Ho in Hin. set_unfold. destruct Hin as [?|[->|[]]]; [done|lia].
      * intros g' [Hg'| ->%list_elem_of_singleton]%elem_of_app.
        -- destruct (cw_ids _ _ Hcw g' Hg') as [H1 H2]. split; [lia|]. intros w Hw. apply H2 in Hw. lia.
        -- rewrite Ho. split; [lia|]. intros w Hw%Hr. lia.
    + intros g' [Hg'| ->%list_elem_of_singleton]%elem_of_app; [by apply Hpos|]. lia.
    + intros w. rewrite fmap_app, elem_of_union, Hpend, elem_of_app, elem_of_singleton. simpl.
      rewrite Ho, list_elem_of_singleton. tauto.
    + intros w Hw. destruct (Hcar w Hw) as [H1 H2]. split; [lia|]. rewrite fmap_app. simpl. rewrite Ho.
      set_unfold. intros [?|[->|[]]]; [naive_solver|lia].
    + split; intros w Hw; apply elem_of_app; left; auto.
  - rewrite chunk_env_app. simpl. unfold chunk_step.
    destruct (gate_val (chunk_env (chunk_gates_ s) car) g); [by rewrite Ho, lookup_insert_eq|].
    by rewrite chunk_env_frame.
  - set_solver.
Qed.

(** *** The recorder is a lawful context over any carried bits *)
Section lawful.
Context (checks : bool) (car : gmap N bool).
Definition wire_denotes (s : State) (w : N) (b : bool) : Prop := val car s w = Some b.
Definition overflow_err (msg : string) : Prop := msg = "ChunkRecorderCtx: recorder wire id overflow".
#[global] Instance context : BooleanContext State N :=
  Build_BooleanContext State N (public_bit checks) (and_gate checks) (xor_gate checks) (not_gate checks).

Lemma pinned_denotes (m : ST State N) s (P : State → Prop) b :
  wp overflow_err m s (λ w s', Safe car s' ∧ P s' ∧ wire_denotes s' w b) →
  (∀ s' rc, P s' → P (set_rc rc s')) →
  wp overflow_err (pinned checks m) s (λ w s', Safe car s' ∧ P s' ∧ wire_denotes s' w b).
Proof.
  intros Hm HP. unfold wp, pinned. apply owp_bind. eapply owp_mono; [exact Hm|].
  intros [o s'] ([Hi Hnn Hsc] & Hp & Hd). assert (o < next_id_ s')%N as Ho by (apply (val_lt car); [done|by rewrite Hd]).
  destruct (decide (o = 0%N)) as [->|Hz]; [by split|].
  destruct (chunk_adjust_ok checks 1 o s') as (rc & Heq & Hl & Hrc); [lia|rewrite (inv_rc _ _ Hi); lia|].
  unfold chunk_pin. rewrite Heq. cbn. split; [|split; [by apply HP|done]]. split.
  - apply Inv_set_rc; [done|]. by rewrite Hl, (inv_rc _ _ Hi).
  - intros w k. cbn [rc_ set_rc]. rewrite Hrc. case_decide; [|by apply Hnn].
    intros (k0 & Hk0 & ->)%fmap_Some. apply Hnn in Hk0. lia.
  - intros w. unfold in_scope. cbn [rc_ set_rc]. rewrite Hrc. case_decide as Hw; [|apply Hsc].
    intros _. subst w. change (is_Some (val car s' o)). unfold wire_denotes in Hd. rewrite Hd. eauto.
Qed.
(** A fresh id with no handle. *)
Lemma safe_alloc car' s s' :
  Inv car' s' → nonneg s → rc_ s' = rc_ s ++ [0%Z] →
  (∀ w, in_scope s w = true → is_Some (val car' s' w)) → Safe car' s'.
Proof.
  intros Hi Hnn Hrc Hsc. split; [done| |].
  - intros w k. rewrite Hrc. intros [Hk|[_ [_ <-]%list_lookup_singleton_Some]]%lookup_app_Some; [by eapply Hnn|lia].
  - intros w. unfold in_scope. rewrite Hrc. destruct ((rc_ s ++ [0%Z]) !! N.to_nat w) as [k|] eqn:Hk; [|done].
    intros Hpos. apply Hsc. unfold in_scope.
    apply lookup_app_Some in Hk as [->|[_ [_ <-]%list_lookup_singleton_Some]]; [done|lia].
Qed.
Lemma record_denotes mk s b :
  Safe car s →
  (∀ g, g = mk (next_id_ s) → out g = next_id_ s ∧ (∀ w, w ∈ reads g → is_Some (val car s w)) ∧
    gate_val (chunk_env (chunk_gates_ s) car) g = Some b) →
  wp overflow_err (record_ mk) s (λ w s', Safe car s' ∧
    ((∀ x y, wire_denotes s x y → wire_denotes s' x y) ∧ wire_denotes s' w b ∧ mk w ∈ chunk_gates_ s' ∧
     const0_ s' = const0_ s ∧ const1_ s' = const1_ s)).
Proof.
  intros [Hi Hnn Hsc] Hmk. destruct (Hmk _ eq_refl) as (Ho & Hr & Hv). apply (record_ok car); [done|done| |].
  - intros g ->. split; [done|]. intros w Hw%Hr. apply (val_lt car s) in Hw; [lia|done].
  - intros s' Hi' Hn' Hrc Hold Hnew Hin H0 H1.
    assert (∀ x, is_Some (val car s x) → val car s' x = val car s x) as Hkeep.
    { intros x Hx. apply Hold. apply (val_lt car s) in Hx; [lia|done]. }
    split; [eapply safe_alloc; try done; intros w Hw%Hsc; by rewrite Hkeep|]. split; [|split; [|split; [exact Hin|done]]].
    + intros x y Hx. unfold wire_denotes in *. rewrite Hkeep; [done|eauto].
    + unfold wire_denotes. by rewrite Hnew.
Qed.
Lemma require_allocated_Ret s a b : Safe car s → wire_denotes s a b → require_allocated_ a s = Ret tt.
Proof.
  intros [Hi _ _] Ha. unfold require_allocated_.
  assert (a < next_id_ s)%N as Hl by (apply (val_lt car s); [done|by rewrite Ha]).
  by rewrite (proj2 (N.ltb_lt _ _) Hl).
Qed.

#[global] Program Instance lawful : LawfulContext State N := {
  ctx_wf := Safe car;
  ctx_ext s s' := ∀ w b, wire_denotes s w b → wire_denotes s' w b;
  ctx_err := overflow_err;
  denotes := wire_denotes }.
Next Obligation. split; [by intros s|]. intros s1 s2 s3 H1 H2 w b Hw. auto. Qed.
Next Obligation. auto. Qed.
Next Obligation.
  intros s v Hs. apply (pinned_denotes _ _ (λ s', ∀ w b, wire_denotes s w b → wire_denotes s' w b)); [|done].
  destruct (if v then const1_ s else const0_ s) as [o|] eqn:Hc.
  - unfold wp. rewrite Hc. split; [done|]. split; [done|]. apply val_const; [apply Hs|done].
  - unfold wp. rewrite Hc. apply owp_bind. eapply owp_mono; [apply (record_denotes _ _ v Hs)|].
    + intros g ->. destruct v; simpl; (split; [done|]; split; [by intros w ?%elem_of_nil|done]).
    + intros [o s'] (Hi' & Hext & Hd & Hin & H0 & H1). split; [|split; [exact Hext|exact Hd]].
      destruct Hi' as [[? ? ? ? ? ? [Hk0 Hk1]] Hnn Hsc]. split; [|exact Hnn|exact Hsc]. split; try done.
      split; intros w; destruct v; cbn [const0_ const1_ set_const chunk_gates_];
        first [apply Hk0 | apply Hk1 | intros [= <-]; exact Hin].
Qed.
Next Obligation.
  intros s a b x y Hs Ha Hb. apply (pinned_denotes _ _ (λ s', ∀ w b, wire_denotes s w b → wire_denotes s' w b)); [|done].
  unfold wp. rewrite (require_allocated_Ret _ _ _ Hs Ha), (require_allocated_Ret _ _ _ Hs Hb). cbn [mbind outcome_bind].
  eapply owp_mono; [apply (record_denotes _ _ (x && y) Hs)|].
  - intros g ->. simpl. split; [done|]. split.
    + intros w Hw. set_unfold in Hw. destruct Hw as [->|[->|[]]]; [by rewrite Ha|by rewrite Hb].
    + unfold gate_val. simpl. unfold wire_denotes, val in Ha, Hb. by rewrite Ha, Hb.
  - intros [o s'] (? & ? & ? & _). done.
Qed.
Next Obligation.
  intros s a b x y Hs Ha Hb. apply (pinned_denotes _ _ (λ s', ∀ w b, wire_denotes s w b → wire_denotes s' w b)); [|done].
  unfold wp. rewrite (require_allocated_Ret _ _ _ Hs Ha), (require_allocated_Ret _ _ _ Hs Hb). cbn [mbind outcome_bind].
  eapply owp_mono; [apply (record_denotes _ _ (xorb x y) Hs)|].
  - intros g ->. simpl. split; [done|]. split.
    + intros w Hw. set_unfold in Hw. destruct Hw as [->|[->|[]]]; [by rewrite Ha|by rewrite Hb].
    + unfold gate_val. simpl. unfold wire_denotes, val in Ha, Hb. by rewrite Ha, Hb.
  - intros [o s'] (? & ? & ? & _). done.
Qed.
Next Obligation.
  intros s a x Hs Ha. apply (pinned_denotes _ _ (λ s', ∀ w b, wire_denotes s w b → wire_denotes s' w b)); [|done].
  unfold wp. rewrite (require_allocated_Ret _ _ _ Hs Ha). cbn [mbind outcome_bind].
  eapply owp_mono; [apply (record_denotes _ _ (negb x) Hs)|].
  - intros g ->. simpl. split; [done|]. split.
    + intros w Hw. set_unfold in Hw. destruct Hw as [->|[]]. by rewrite Ha.
    + unfold gate_val. simpl. unfold wire_denotes, val in Ha. by rewrite Ha.
  - intros [o s'] (? & ? & ? & _). done.
Qed.
End lawful.

(** *** Reserving ids and pinning them *)
Lemma reserve_ids_ok car n s :
  Inv car s →
  wp overflow_err (reserve_ids n) s (λ ids s', Inv car s' ∧ ids = range (next_id_ s) (N.of_nat n) ∧
    next_id_ s' = (next_id_ s + N.of_nat n)%N ∧ chunk_gates_ s' = chunk_gates_ s ∧
    (∀ w, (w < next_id_ s)%N → rc_ s' !! N.to_nat w = rc_ s !! N.to_nat w) ∧
    ∀ w, (next_id_ s ≤ w < next_id_ s')%N → rc_ s' !! N.to_nat w = Some 0%Z).
Proof.
  revert s. induction n as [|n IH]; intros s Hi.
  - split; [done|]. split; [done|]. split; [lia|]. split; [done|]. split; [done|]. intros w Hw. lia.
  - cbn [reserve_ids]. unfold wp, mbind at 1, ST_bind at 1. unfold alloc_id_ at 1.
    destruct (N.eqb_spec (next_id_ s) UINT32_MAX) as [|Hne]; [done|]. cbn [negb expecting mbind outcome_bind].
    pose proof Hi as [Hn Hrc Hcw Hpos Hpend Hcar Hc]. unfold UINT32_MAX in *. rewrite u32_small by lia.
    set (s1 := MkState _ _ _ _ _ _). assert (Inv car s1) as Hi1.
    { split; cbn [next_id_ rc_ chunk_gates_ pending_ const0_ const1_ s1]; try done.
      - unfold UINT32_MAX. lia.
      - rewrite vlen_app, Hrc. done.
      - destruct Hcw as [H1 H2 H3]. split; [done|done|]. intros g Hg. destruct (H3 g Hg) as [H4 H5].
        split; [lia|]. intros w Hw%H5. lia.
      - intros w [H1 H2]%Hcar. split; [lia|done]. }
    apply owp_bind. eapply owp_mono; [exact (IH s1 Hi1)|].
    intros [ids s'] (Hi' & -> & Hn' & Hg' & Hrc1 & Hrc2). cbn [mret ST_ret owp].
    cbn [next_id_ rc_ chunk_gates_ s1] in *. split; [done|]. split; [|split; [lia|]; split; [done|]; split].
    + unfold range. replace (N.to_nat (N.of_nat (S n))) with (S n) by lia. simpl.
      replace (N.to_nat (N.of_nat n)) with n by lia.
      replace (N.to_nat (next_id_ s + 1)) with (S (N.to_nat (next_id_ s))) by lia. f_equal. lia.
    + intros w Hw. rewrite Hrc1 by lia. apply lookup_app_l. unfold vlen in Hrc. lia.
    + intros w Hw. destruct (decide (w = next_id_ s)) as [->|].
      * rewrite Hrc1 by lia. unfold vlen in Hrc. rewrite lookup_app_r by lia.
        by replace (N.to_nat (next_id_ s) - length (rc_ s))%nat with 0%nat by lia.
      * apply Hrc2. lia.
Qed.
Lemma pin_all_ok checks car ids s :
  Inv car s → Forall (λ w, (0 < w < next_id_ s)%N) ids → (∀ w c, rc_ s !! N.to_nat w = Some c → (0 ≤ c)%Z) →
  ∃ rc, pin_all checks ids s = Ret (set_rc rc s) ∧ vlen rc = vlen (rc_ s) ∧
    (∀ w c, rc !! N.to_nat w = Some c → (0 ≤ c)%Z) ∧
    ∀ w, in_scope (set_rc rc s) w = true ↔ w ∈ ids ∨ in_scope s w = true.
Proof.
  intros Hi Hids Hnn. unfold pin_all. revert s Hi Hids Hnn. induction ids as [|id ids IH]; intros s Hi Hids Hnn.
  - exists (rc_ s). split; [by destruct s|]. split; [done|]. split; [done|]. intros w. destruct s. set_solver.
  - apply Forall_cons in Hids as [Hid Hids].
    destruct (chunk_adjust_ok checks 1 id s) as (rc & Heq & Hl & Hrc); [lia|rewrite (inv_rc _ _ Hi); lia|].
    cbn [foldO]. unfold chunk_pin at 2. rewrite Heq. cbn [mbind outcome_bind].
    assert (vlen rc = next_id_ s) as Hlr by (by rewrite Hl, (inv_rc _ _ Hi)).
    destruct (IH (set_rc rc s)) as (rc' & -> & Hl' & Hnn' & Hsc); [by apply Inv_set_rc|done| |].
    { intros w c. cbn [rc_ set_rc]. rewrite Hrc. case_decide; [|by apply Hnn].
      intros (c0 & Hc0 & ->)%fmap_Some. apply Hnn in Hc0. lia. }
    exists rc'. split; [done|]. split; [cbn in Hl'; lia|]. split; [done|].
    intros w. unfold in_scope at 1. cbn [rc_ set_rc] in *. unfold in_scope in Hsc. cbn [rc_ set_rc] in Hsc.
    rewrite Hsc, elem_of_cons. unfold in_scope. rewrite Hrc. case_decide as Hw; [|tauto]. subst w.
    destruct (lookup_lt_is_Some_2 (rc_ s) (N.to_nat id)) as [c Hc].
    { pose proof (inv_rc _ _ Hi) as Hv. unfold vlen in Hv. lia. }
    rewrite Hc. simpl. pose proof (Hnn _ _ Hc). assert ((0 <? c + 1)%Z = true) as -> by lia. tauto.
Qed.
End ChunkRecorder.

(** ** The protocol behind a session

    The hooks [ChunkedSession] calls on its derived class.  [carried] is what
    the protocol state means for each id; the laws are the hooks' documented
    behaviour. *)
Class Backend (D : Type) : Type := {
  authenticate_into_ : Z → list bool → list N → D → outcome D;
  batch_authenticate_into_ : list Z → list (list bool) → list (list N) → D → outcome D;
  run_program_into_ : BooleanProgram → list N → list N → D → outcome D;
  decode_ : list N → Z → D → outcome (list bool * D);
  validate_recipient_ : Z → D → outcome unit;
  is_materialized_ : D → N → bool;
  prune_carried_ : (N → bool) → D → outcome D;
  materialize_deferred_inputs_ : D → outcome D;
  kCountsAndsInternally : bool }.
Definition bind_ids (ids : list N) (bits : list bool) (m : gmap N bool) : gmap N bool :=
  list_to_map (zip ids bits) ∪ m.
Class LawfulBackend (D : Type) `{Backend D} : Type := {
  carried : D → gmap N bool;
  settled : D → Prop;
  learns : Z → bool;
  back_err : string → Prop;
  authenticate_law o bits ids d : length bits = length ids →
    owp back_err (authenticate_into_ o bits ids d) (λ d', carried d' = bind_ids ids bits (carried d));
  batch_authenticate_law os bs il d : Forall2 (λ b i, length b = length i) bs il → length os = length bs →
    owp back_err (batch_authenticate_into_ os bs il d)
      (λ d', carried d' = foldl (λ m '(i, b), bind_ids i b m) (carried d) (zip il bs));
  run_law p ii oi d ins outs : settled d → wf_program p → mapM (carried d !!.) ii = Some ins →
    eval_program p ins = Some outs → length oi = length outs →
    owp back_err (run_program_into_ p ii oi d) (λ d', settled d' ∧ carried d' = bind_ids oi outs (carried d));
  decode_law ids r d bits : settled d → mapM (carried d !!.) ids = Some bits →
    owp back_err (decode_ ids r d) (λ '(res, d'), settled d' ∧ carried d' = carried d ∧
      res = if learns r then bits else []);
  validate_law r d : owp back_err (validate_recipient_ r d) (λ _, True);
  is_materialized_law d w : settled d → is_materialized_ d w = true ↔ is_Some (carried d !! w);
  prune_law keep d : settled d → owp back_err (prune_carried_ keep d)
    (λ d', settled d' ∧ ∀ w, carried d' !! w = if keep w then carried d !! w else None);
  materialize_law d : owp back_err (materialize_deferred_inputs_ d)
    (λ d', settled d' ∧ carried d' = carried d) }.

(** ** The session *)
Module ChunkedSession.
Section session.
Context {D : Type} {HB : Backend D} (checks : bool).

Record State : Type := MkState { ctx_ : ChunkRecorder.State; back_ : D; num_and_ : N }.
(** A typed value: the context it is bound to and its wire ids. *)
Record Value : Type := MkValue { v_context : N; v_ids : list N }.
Context (me : N).

Definition set_ctx (c : ChunkRecorder.State) (s : State) : State := MkState c (back_ s) (num_and_ s).
Definition set_back (d : D) (s : State) : State := MkState (ctx_ s) d (num_and_ s).
Definition from_ids_ (ids : list N) (s : State) : outcome (Value * State) :=
  c ← ChunkRecorder.pin_all checks ids (ctx_ s); Ret (MkValue me ids, set_ctx c s).
Definition value_ids_ (v : Value) : outcome (list N) :=
  expecting (v_context v =? me)%N "ChunkedSession: value is bound to a different session's context";;
  Ret (v_ids v).
Definition append_ids_ (dst : list N) (v : Value) : outcome (list N) := ids ← value_ids_ v; Ret (dst ++ ids).
Definition append_arg_ids_ (s : State) (dst : list N) (v : Value) : outcome (list N) :=
  ids ← value_ids_ v;
  foldO (λ _ id, expecting (is_materialized_ (back_ s) id)
    "ChunkedSession::run: argument is unflushed — checkpoint it first") tt ids;;
  Ret (dst ++ ids).
Definition count_ands_ (p : BooleanProgram) (s : State) : State :=
  if kCountsAndsInternally then s
  else MkState (ctx_ s) (back_ s) (foldl (λ n g, if is_and g then u64 (n + 1) else n) (num_and_ s) (gates p)).
Definition settle_deferred_inputs_ (s : State) : outcome State :=
  d ← materialize_deferred_inputs_ (back_ s); Ret (set_back d s).
Definition drop_chunk (s : State) : State := set_ctx (ChunkRecorder.drop_chunk (ctx_ s)) s.

Definition flush_ (keep_ids : list N) (s : State) : outcome State :=
  s ← settle_deferred_inputs_ s;
  foldO (λ _ id, expecting (ChunkRecorder.is_pending (ctx_ s) id || is_materialized_ (back_ s) id)
    "ChunkedSession: keep/reveal wire is stale") tt keep_ids;;
  if negb (existsb (ChunkRecorder.is_pending (ctx_ s)) keep_ids) then Ret (drop_chunk s)
  else
    plan ← plan_flush (ChunkRecorder.chunk_gates_ (ctx_ s)) keep_ids (is_materialized_ (back_ s));
    expecting (fp_ok plan)
      "ChunkedSession::flush: gate operand has no carried state (stale wire)";;
    d ← run_program_into_ (fp_prog plan) (input_ids plan) (output_ids plan) (back_ s);
    Ret (drop_chunk (count_ands_ (fp_prog plan) (set_back d s))).

Definition reserve (n : nat) (s : State) : outcome (list N * State) :=
  '(ids, c) ← ChunkRecorder.reserve_ids n (ctx_ s); Ret (ids, set_ctx c s).
Definition input (owner : Z) (bits : list bool) (s : State) : outcome (Value * State) :=
  '(ids, s) ← reserve (length bits) s;
  d ← authenticate_into_ owner bits ids (back_ s);
  from_ids_ ids (set_back d s).

(** The batch of inputs of several owners. *)
Record InputBatch : Type := MkBatch {
  owners_ : list Z; bits_ : list (list bool); ids_ : list (list N); finished_ : bool }.
Definition input_batch : InputBatch := MkBatch [] [] [] false.
Definition batch_add (owner : Z) (bits : list bool) (b : InputBatch) (s : State) :
    outcome (Value * InputBatch * State) :=
  expecting (negb (finished_ b)) "ChunkedSession::input_batch: add() after finish()";;
  '(ids, s) ← reserve (length bits) s;
  let b := MkBatch (owners_ b ++ [owner]) (bits_ b ++ [bits]) (ids_ b ++ [ids]) (finished_ b) in
  '(v, s) ← from_ids_ ids s;
  Ret (v, b, s).
Definition batch_finish (b : InputBatch) (s : State) : outcome (InputBatch * State) :=
  expecting (negb (finished_ b)) "ChunkedSession::input_batch: finish() called twice";;
  d ← batch_authenticate_into_ (owners_ b) (bits_ b) (ids_ b) (back_ s);
  Ret (MkBatch (owners_ b) (bits_ b) (ids_ b) true, set_back d s).
(** Moving a batch: the new object, and what the moved-from object is. *)
Definition batch_move (b : InputBatch) : InputBatch * InputBatch := (b, MkBatch [] [] [] true).
Definition batch_destroy (b : InputBatch) : outcome unit :=
  expecting (finished_ b || is_nil (owners_ b))
    "ChunkedSession::input_batch: destroyed without finish() — inputs were reserved but never authenticated".

Definition reveal (v : Value) (recipient : Z) (keep : list Value) (s : State) :
    outcome (option (list bool) * State) :=
  validate_recipient_ recipient (back_ s);;
  let live := ChunkRecorder.live_pending_ids (ctx_ s) in
  vids ← value_ids_ v;
  keep_ids ← foldO append_ids_ (live ++ vids) keep;
  s ← flush_ keep_ids s;
  '(bits, d) ← decode_ vids recipient (back_ s);
  Ret (if decide (length bits = length (v_ids v)) then Some bits else None, set_back d s).

(** [checkpoint()] keeps what is in scope; [checkpoint(keep...)] the given values. *)
Definition checkpoint (keep : list Value) (s : State) : outcome State :=
  match keep with
  | [] =>
      s ← flush_ (ChunkRecorder.live_pending_ids (ctx_ s)) s;
      d ← prune_carried_ (ChunkRecorder.in_scope (ctx_ s)) (back_ s);
      Ret (set_back d s)
  | _ =>
      keep_ids ← foldO append_ids_ [] keep;
      s ← flush_ keep_ids s;
      d ← prune_carried_ (λ id, bool_decide (id ∈ keep_ids)) (back_ s);
      Ret (set_back d s)
  end.

Definition run_program_ (p : BooleanProgram) (in_ids : list N) (s : State) : outcome (Value * State) :=
  '(out_ids, s) ← reserve (length (outputs p)) s;
  d ← run_program_into_ p in_ids out_ids (back_ s);
  from_ids_ out_ids (count_ands_ p (set_back d s)).
Definition run (p : BooleanProgram) (args : list Value) (s : State) : outcome (Value * State) :=
  s ← settle_deferred_inputs_ s;
  in_ids ← foldO (append_arg_ids_ s) [] args;
  expecting (u32 (vlen in_ids) =? num_inputs p)%N
    "ChunkedSession::run: total argument width != circuit input count";;
  run_program_ p in_ids s.
Definition run_artifact (ret_width : N) (p : BooleanProgram) (args : list Value) (s : State) :
    outcome (Value * State) :=
  s ← settle_deferred_inputs_ s;
  in_ids ← foldO (append_arg_ids_ s) [] args;
  expecting (u32 (vlen in_ids) =? num_inputs p)%N
    "ChunkedSession::run_artifact: total argument width != program num_inputs";;
  expecting (u32 ret_width =? vlen (outputs p))%N
    "ChunkedSession::run_artifact: RetV width != program output count";;
  run_program_ p in_ids s.
End session.
Arguments State D : clear implicits.
End ChunkedSession.

(** ** Correctness *)
Section correct.
Context {D : Type} {HB : Backend D} {HL : LawfulBackend D} (checks : bool) (me : N).
Import ChunkRecorder ChunkedSession.
#[local] Abbreviation St := (ChunkedSession.State D).

(** The bit a wire of the session means. *)
Definition meaning (s : St) (w : N) : option bool := val (carried (back_ s)) (ctx_ s) w.
Record SInv (s : St) : Prop := {
  si_rec : Inv (carried (back_ s)) (ctx_ s);
  si_rc : nonneg (ctx_ s);
  si_len : (vlen (chunk_gates_ (ctx_ s)) < 2 ^ 31)%N }.
(** Every handle in scope has a bit: no stale wires. *)
Definition scope_safe (s : St) : Prop := ∀ w, in_scope (ctx_ s) w = true → is_Some (meaning s w).
Definition stale_err (msg : string) : Prop :=
  msg = "ChunkedSession: keep/reveal wire is stale" ∨
  msg = "ChunkedSession::flush: gate operand has no carried state (stale wire)".

Lemma bind_ids_lookup ids bits (m : gmap N bool) w :
  NoDup ids → length bits = length ids →
  ((w ∉ ids) ∧ bind_ids ids bits m !! w = m !! w) ∨
  ∃ k b, ids !! k = Some w ∧ bits !! k = Some b ∧ bind_ids ids bits m !! w = Some b.
Proof.
  intros Hn Hl. assert ((zip ids bits).*1 = ids) as Hf by (apply fst_zip; lia).
  unfold bind_ids. destruct (decide (w ∈ ids)) as [Hw|Hw].
  - right. apply list_elem_of_lookup in Hw as [k Hk]. pose proof (lookup_lt_Some _ _ _ Hk).
    destruct (lookup_lt_is_Some_2 bits k) as [b Hb]; [lia|]. exists k, b. split_and!; [done|done|].
    apply lookup_union_Some_l, elem_of_list_to_map_1; [by rewrite Hf|].
    apply list_elem_of_lookup. exists k. apply lookup_zip_with_Some. eauto.
  - left. split; [done|]. apply lookup_union_r, not_elem_of_list_to_map_1. by rewrite Hf.
Qed.

(** After a flush the pending chunk is gone and only carried bits remain. *)
Lemma Inv_drop car car' c :
  Inv car c → (∀ w, is_Some (car' !! w) → is_Some (val car c w)) →
  Inv car' (ChunkRecorder.drop_chunk c) ∧ ∀ w, val car' (ChunkRecorder.drop_chunk c) w = car' !! w.
Proof.
  intros Hi Hc. split; [|done]. pose proof Hi as [Hn Hrc Hcw Hpos Hpend Hcar Hk].
  split; cbn [next_id_ rc_ chunk_gates_ pending_ const0_ const1_ ChunkRecorder.drop_chunk]; try done.
  - split; [by intros [|]|by intros [|]|]. by intros g ?%elem_of_nil.
  - by intros g ?%elem_of_nil.
  - intros w. set_solver.
  - intros w Hw%Hc. split; [by apply (val_lt car c) in Hw|]. by intros ?%elem_of_nil.
Qed.

Lemma stale_check (s : St) keep :
  foldO (λ _ id, expecting (is_pending (ctx_ s) id || is_materialized_ (back_ s) id)
    "ChunkedSession: keep/reveal wire is stale") tt keep =
  if forallb (λ id, is_pending (ctx_ s) id || is_materialized_ (back_ s) id) keep then Ret tt
  else Fatal "ChunkedSession: keep/reveal wire is stale".
Proof. induction keep as [|id keep IH]; [done|]. simpl. destruct (_ || _); [|done]. simpl. by rewrite IH. Qed.

(** What a flush leaves: an empty chunk, the kept wires and those carried before it
    with their bits, and no others. *)
Definition flushed (keep : list N) (s s' : St) : Prop :=
  SInv s' ∧ settled (back_ s') ∧ ctx_ s' = ChunkRecorder.drop_chunk (ctx_ s) ∧
  (∀ w, w ∈ keep → is_Some (meaning s w)) ∧
  (∀ w, w ∈ keep ∨ is_Some (carried (back_ s) !! w) → meaning s' w = meaning s w) ∧
  ∀ w, is_Some (meaning s' w) → is_Some (meaning s w).

Lemma carried_meaning (s : St) w : SInv s → is_Some (carried (back_ s) !! w) → meaning s w = carried (back_ s) !! w.
Proof. intros [Hi _ _] Hw. apply chunk_env_frame. by apply (inv_carried _ _ Hi). Qed.

Lemma flushed_intro keep (s s' : St) :
  SInv s → settled (back_ s') → ctx_ s' = ChunkRecorder.drop_chunk (ctx_ s) →
  (∀ w, w ∈ keep → is_Some (meaning s w)) →
  (∀ w, w ∈ keep ∨ is_Some (carried (back_ s) !! w) → carried (back_ s') !! w = meaning s w) →
  (∀ w, is_Some (carried (back_ s') !! w) → is_Some (meaning s w)) → flushed keep s s'.
Proof.
  intros [Hi Hnn _] Hs Hctx Hk Hv Hsub. destruct (Inv_drop _ _ _ Hi Hsub) as [Hi' Hv'].
  assert (∀ w, meaning s' w = carried (back_ s') !! w) as Hm by (intros w; unfold meaning; by rewrite Hctx).
  split; [split; rewrite Hctx; [done|done|simpl; unfold vlen; simpl; lia]|].
  split_and!; [done|done|done|..]; intros w; rewrite Hm; auto.
Qed.

(** The check of the kept wires: a stale one has no bit, and past the check each is
    pending or carried. *)
Lemma stale_none (s : St) d keep :
  SInv s → (∀ w, is_materialized_ d w = true ↔ is_Some (carried (back_ s) !! w)) →
  forallb (λ id, is_pending (ctx_ s) id || is_materialized_ d id) keep = false →
  ∃ w, w ∈ keep ∧ meaning s w = None.
Proof.
  intros [Hi _ _] Hmat. induction keep as [|id keep IH]; [done|]. simpl. intros [Hst|Hst]%andb_false_iff.
  - exists id. split; [by left|]. apply orb_false_iff in Hst as [Hp Hm].
    unfold meaning, val. rewrite chunk_env_frame.
    + apply eq_None_not_Some. intros Hs%Hmat. congruence.
    + intros Ho. apply (inv_pending _ _ Hi) in Ho. by apply bool_decide_eq_false in Hp.
  - destruct (IH Hst) as (w & ? & ?). exists w. split; [by right|done].
Qed.
Lemma kept_placed (s : St) d keep w :
  SInv s → (∀ w, is_materialized_ d w = true ↔ is_Some (carried (back_ s) !! w)) →
  forallb (λ id, is_pending (ctx_ s) id || is_materialized_ d id) keep = true → w ∈ keep →
  w ∈ out <$> chunk_gates_ (ctx_ s) ∨ is_Some (carried (back_ s) !! w).
Proof.
  intros [Hi _ _] Hmat Hst Hw. apply forallb_forall with (x := w) in Hst; [|by apply list_elem_of_In].
  apply orb_true_iff in Hst as [Hp%bool_decide_eq_true|Hm%Hmat]; [left|by right].
  by apply (inv_pending _ _ Hi).
Qed.

(** Binding the outputs of the flushed program. *)
Lemma bind_outputs_ok (s : St) ids outs w :
  NoDup ids → mapM (λ w, val (carried (back_ s)) (ctx_ s) w) ids = Some outs →
  bind_ids ids outs (carried (back_ s)) !! w = if decide (w ∈ ids) then meaning s w else carried (back_ s) !! w.
Proof.
  intros Hnd Hval. pose proof (length_mapM _ _ _ Hval) as Hl. apply mapM_Some in Hval.
  destruct (bind_ids_lookup ids outs (carried (back_ s)) w Hnd) as [[Hn ->]|(k & b & Hk & Hb & ->)]; [lia| |].
  - by rewrite decide_False.
  - rewrite decide_True by (apply list_elem_of_lookup; eauto).
    destruct (Forall2_lookup_l _ _ _ _ _ Hval Hk) as (b' & Hb' & Hbv). simplify_eq.
    unfold meaning. by rewrite Hbv.
Qed.

(** The flush: it settles exactly the kept wires, with their bits, or reports a
    stale one. *)
Lemma flush_ok keep (s : St) :
  SInv s →
  owp (λ msg, back_err msg ∨ (stale_err msg ∧ ∃ w, w ∈ keep ∧ meaning s w = None)) (flush_ keep s) (flushed keep s).
Proof.
  intros Hs. pose proof Hs as [Hi Hnn Hlen]. unfold flush_, settle_deferred_inputs_. apply owp_bind, owp_bind.
  eapply owp_mono; [eapply owp_err_mono; [apply materialize_law|by left]|].
  intros d (Hd & Hcar). cbn [owp]. set (s1 := set_back d s).
  assert (∀ w, is_materialized_ d w = true ↔ is_Some (carried (back_ s) !! w)) as Hmat.
  { intros w. rewrite is_materialized_law by done. by rewrite Hcar. }
  rewrite stale_check. cbn [back_ ctx_ set_back s1].
  destruct (forallb _ keep) eqn:Hst; cbn [mbind outcome_bind owp].
  2:{ right. split; [by left|]. by eapply stale_none. }
  pose proof (λ w, kept_placed s d keep w Hs Hmat Hst) as Hkeep.
  destruct (existsb (is_pending (ctx_ s)) keep) eqn:Hex; cbn [negb owp].
  - destruct (plan_flush_ok (next_id_ (ctx_ s)) (chunk_gates_ (ctx_ s)) keep (carried (back_ s)) (is_materialized_ d))
      as (plan & -> & [[Hond Hoel] Hok Hprog Hsem]); [apply Hi|by apply Inv_disjoint|done|apply Hi|done|].
    cbn [mbind outcome_bind]. destruct (fp_ok plan) eqn:Hpok; cbn [expecting mbind outcome_bind owp].
    2:{ right. split; [by right|].
        destruct (decide (Exists (λ w, meaning s w = None) (output_ids plan))) as [(w & Hw & Hv)%Exists_exists|Hno].
        - exists w. split; [by apply Hoel|done].
        - apply not_Exists_Forall in Hno; [|intros ?; apply _]. rewrite Forall_forall in Hno.
          assert (false = true); [|done]. apply Hok. intros w Hw%Hno. by apply not_eq_None_Some. }
    destruct (Hsem eq_refl) as (_ & ins & outs & Hins & Hev & Hval).
    destruct (Hprog eq_refl) as (Hwf & _). apply owp_bind.
    eapply owp_mono; [eapply owp_err_mono; [eapply (run_law _ _ _ _ ins outs); [done|done|by rewrite Hcar|done|]|by left]|].
    { by rewrite (length_mapM _ _ _ Hval). }
    intros d' (Hd' & Hcar'). rewrite Hcar in Hcar'. cbn [owp].
    assert (∀ w, carried d' !! w = if decide (w ∈ output_ids plan) then meaning s w else carried (back_ s) !! w) as Hlk.
    { intros w. rewrite Hcar'. by apply bind_outputs_ok. }
    unfold s1. change (set_back d' (set_back d s)) with (set_back d' s).
    set (s' := drop_chunk (count_ands_ (fp_prog plan) (set_back d' s))).
    assert (back_ s' = d' ∧ ctx_ s' = ChunkRecorder.drop_chunk (ctx_ s)) as [Hback Hctx].
    { unfold s', count_ands_. by destruct kCountsAndsInternally. }
    apply flushed_intro; rewrite ?Hback; try done; intros w Hw.
    + destruct (Hkeep w Hw) as [Ho|Hc]; [|by rewrite carried_meaning]. apply Hok; [done|]. by apply Hoel.
    + rewrite Hlk. case_decide as Ho; [done|]. symmetry. apply carried_meaning; [done|].
      destruct Hw as [Hw|Hw]; [|done]. destruct (Hkeep w Hw) as [Hout|]; [|done]. destruct Ho. by apply Hoel.
    + rewrite Hlk in Hw. case_decide; [done|]. by rewrite carried_meaning.
  - assert (∀ w, w ∈ keep → is_Some (carried (back_ s) !! w)) as Hall.
    { intros w Hw. destruct (Hkeep w Hw) as [Ho|]; [|done]. exfalso.
      assert (existsb (is_pending (ctx_ s)) keep = true); [|congruence].
      apply existsb_exists. exists w. split; [by apply list_elem_of_In|].
      apply bool_decide_eq_true. by apply (inv_pending _ _ Hi). }
    assert (carried (back_ (drop_chunk s1)) = carried (back_ s)) as E by done.
    apply flushed_intro; rewrite ?E; try done; intros w Hw.
    + rewrite carried_meaning; auto.
    + symmetry. apply carried_meaning; [done|]. destruct Hw; auto.
    + by rewrite carried_meaning.
Qed.

(** ** Fresh values: reserved ids that the back end gives bits to *)
Lemma mapM_agree {A B} (f g : A → option B) l : (∀ x, x ∈ l → f x = g x) → mapM f l = mapM g l.
Proof. induction l as [|x l IH]; intros H; [done|]. simpl. rewrite (H x), IH; [done|set_solver..]. Qed.
Lemma bind_ids_mapM ids bits (m : gmap N bool) :
  NoDup ids → length bits = length ids → mapM (bind_ids ids bits m !!.) ids = Some bits.
Proof.
  intros Hn Hl. apply mapM_Some. apply Forall2_same_length_lookup_2; [done|]. intros k w b Hk Hb.
  destruct (bind_ids_lookup ids bits m w Hn Hl) as [[Hw _]|(k' & b' & Hk' & Hb' & ->)].
  - destruct Hw. by eapply list_elem_of_lookup_2.
  - pose proof (NoDup_lookup _ _ _ _ Hn Hk Hk') as <-. congruence.
Qed.
Lemma bind_ids_app i j b b' (m : gmap N bool) :
  NoDup (i ++ j) → length b = length i → bind_ids j b' (bind_ids i b m) = bind_ids (i ++ j) (b ++ b') m.
Proof.
  intros (_ & Hd & _)%NoDup_app Hl. unfold bind_ids. rewrite zip_with_app by done. rewrite list_to_map_app, map_union_assoc.
  f_equal. apply map_union_comm, map_disjoint_spec. intros w x y Hx Hy.
  apply elem_of_list_to_map_2, elem_of_zip_l in Hx, Hy. by apply (Hd w).
Qed.
Lemma bind_all il bs (m : gmap N bool) :
  NoDup (concat il) → Forall2 (λ (b : list bool) (i : list N), length b = length i) bs il →
  foldl (λ m '(i, b), bind_ids i b m) m (zip il bs) = bind_ids (concat il) (concat bs) m.
Proof.
  intros Hn Hf. revert m Hn. induction Hf as [|b i bs il Hl _ IH]; intros m Hn; cbn [concat zip zip_with foldl] in *.
  - unfold bind_ids. cbn. by rewrite map_empty_union.
  - rewrite IH, bind_ids_app; [done|done|done|]. by apply NoDup_app in Hn as (_ & _ & ?).
Qed.
Lemma chunk_env_agree gs (X : N → Prop) car car' :
  (∀ w, ¬ X w → car' !! w = car !! w) →
  (∀ g, g ∈ gs → ¬ X (out g) ∧ ∀ w, w ∈ reads g → ¬ X w) →
  ∀ w, ¬ X w → chunk_env gs car' !! w = chunk_env gs car !! w.
Proof.
  unfold chunk_env. revert car car'. induction gs as [|g gs IH]; intros car car' Hc Hg w Hw; [by apply Hc|].
  simpl. apply IH; [|intros; apply Hg; by right|done]. clear w Hw. intros w Hw.
  destruct (Hg g) as [Ho Hr]; [by left|].
  assert (gate_val car' g = gate_val car g) as Hv.
  { unfold gate_val, reads in *. destruct (op g); try done;
      rewrite ?(Hc (in0 g)), ?(Hc (in1 g)) by (apply Hr; set_solver); done. }
  unfold chunk_step. rewrite Hv. destruct (gate_val car g); [|by apply Hc].
  destruct (decide (w = out g)) as [->|]; [by rewrite !lookup_insert_eq|].
  rewrite !lookup_insert_ne by done. by apply Hc.
Qed.

Section fresh.
Context (car : gmap N bool) (c : ChunkRecorder.State) (bits : list bool) (c1 : ChunkRecorder.State).
Context (Hinv : Inv car c) (Hnn : nonneg c) (Hi1 : Inv car c1) (Hn1 : next_id_ c1 = (next_id_ c + vlen bits)%N).
Context (Hg1 : chunk_gates_ c1 = chunk_gates_ c).
Context (Hrc1 : ∀ w, (w < next_id_ c)%N → rc_ c1 !! N.to_nat w = rc_ c !! N.to_nat w).
Context (Hrc2 : ∀ w, (next_id_ c ≤ w < next_id_ c1)%N → rc_ c1 !! N.to_nat w = Some 0%Z).
#[local] Abbreviation ids := (range (next_id_ c) (vlen bits)).
#[local] Abbreviation car' := (bind_ids ids bits car).

Lemma fresh_ids w : w ∈ ids ↔ (next_id_ c ≤ w < next_id_ c1)%N.
Proof. rewrite elem_of_range. lia. Qed.
Lemma fresh_length : length bits = length ids.
Proof. rewrite range_length. unfold vlen. lia. Qed.
Lemma fresh_carried w : w ∉ ids → car' !! w = car !! w.
Proof.
  intros Hw. destruct (bind_ids_lookup ids bits car w (NoDup_range _ _) fresh_length) as [[_ ?]|(k & b & Hk & _)]; [done|].
  destruct Hw. apply list_elem_of_lookup. eauto.
Qed.
Lemma fresh_chunk g : g ∈ chunk_gates_ c → (out g ∉ ids) ∧ ∀ w, w ∈ reads g → w ∉ ids.
Proof.
  intros Hg. destruct (cw_ids _ _ (inv_chunk _ _ Hinv) g Hg) as [H1 H2].
  split; [rewrite fresh_ids; lia|]. intros w Hw%H2. rewrite fresh_ids. lia.
Qed.
Lemma fresh_env w : w ∉ ids → chunk_env (chunk_gates_ c) car' !! w = chunk_env (chunk_gates_ c) car !! w.
Proof. apply (chunk_env_agree _ (λ w, w ∈ ids)); [apply fresh_carried|apply fresh_chunk]. Qed.
Lemma fresh_old w : is_Some (val car c w) → w ∉ ids.
Proof. intros Hw. apply (val_lt car c) in Hw; [|done]. rewrite fresh_ids. lia. Qed.
Lemma fresh_inv : Inv car' c1.
Proof.
  pose proof Hi1 as [Ha Hb Hc Hd He Hf Hk]. rewrite Hg1 in *.
  pose proof (inv_next _ _ Hinv) as Hnx. split; rewrite ?Hg1; try done.
  intros w Hw. destruct (decide (w ∈ ids)) as [Hin|Hin].
  - split; [apply fresh_ids in Hin; lia|]. intros (g & -> & Hg)%list_elem_of_fmap. by apply (fresh_chunk g Hg).
  - apply Hf. by rewrite <- fresh_carried.
Qed.
Lemma fresh_rc_length w k : rc_ c1 !! N.to_nat w = Some k → (w < next_id_ c1)%N.
Proof. intros Hk%lookup_lt_Some. pose proof (inv_rc _ _ Hi1) as Hv. unfold vlen in Hv. lia. Qed.
Lemma fresh_nonneg : nonneg c1.
Proof.
  intros w k Hk. destruct (decide (w < next_id_ c)%N) as [Hlt|Hge].
  - rewrite Hrc1 in Hk by done. by eapply Hnn.
  - pose proof (fresh_rc_length w k Hk). rewrite Hrc2 in Hk by lia. by simplify_eq.
Qed.
Lemma fresh_scope w : in_scope c1 w = in_scope c w.
Proof.
  unfold in_scope. destruct (decide (w < next_id_ c)%N) as [Hlt|Hge]; [by rewrite Hrc1|].
  rewrite (lookup_ge_None_2 (rc_ c)).
  2:{ pose proof (inv_rc _ _ Hinv) as Hv. unfold vlen in Hv. lia. }
  destruct (rc_ c1 !! N.to_nat w) eqn:Hk; [|done]. pose proof (fresh_rc_length w _ Hk).
  rewrite Hrc2 in Hk by lia. by simplify_eq.
Qed.
(** The bits are there, and the old ones are still. *)
Lemma fresh_bits rc : mapM (val car' (set_rc rc c1)) ids = Some bits.
Proof.
  rewrite <- (bind_ids_mapM ids bits car (NoDup_range _ _) fresh_length). apply mapM_agree. intros w Hw.
  unfold val. cbn [chunk_gates_ set_rc]. rewrite Hg1. apply chunk_env_frame.
  intros (g & -> & Hg)%list_elem_of_fmap. by apply (fresh_chunk g Hg).
Qed.
Lemma fresh_kept rc w : is_Some (val car c w) → val car' (set_rc rc c1) w = val car c w.
Proof. intros Hw. unfold val. cbn [chunk_gates_ set_rc]. rewrite Hg1. by apply fresh_env, fresh_old. Qed.

Lemma fresh_pin :
  ∃ rc, pin_all checks ids c1 = Ret (set_rc rc c1) ∧ nonneg (set_rc rc c1) ∧ Inv car' (set_rc rc c1) ∧
    ∀ w, in_scope (set_rc rc c1) w = true ↔ w ∈ ids ∨ in_scope c w = true.
Proof.
  destruct (pin_all_ok checks car' ids c1 fresh_inv) as (rc & Hpin & Hl & Hnn2 & Hsc2); [|apply fresh_nonneg|].
  { apply Forall_forall. intros w Hw%fresh_ids. pose proof (inv_next _ _ Hinv). lia. }
  exists rc. split; [done|]. split; [done|]. split.
  - apply Inv_set_rc; [apply fresh_inv|]. by rewrite Hl, (inv_rc _ _ Hi1).
  - intros w. rewrite Hsc2. by rewrite fresh_scope.
Qed.
(** Wires in scope still have their values, the new ones theirs. *)
Lemma fresh_safe rc :
  (∀ w, in_scope c w = true → is_Some (val car c w)) →
  nonneg (set_rc rc c1) → Inv car' (set_rc rc c1) →
  (∀ w, in_scope (set_rc rc c1) w = true ↔ w ∈ ids ∨ in_scope c w = true) → Safe car' (set_rc rc c1).
Proof.
  intros Hsc Hnn' Hi' Hsc'. split; [done..|]. intros w [Hw|Hw]%Hsc'.
  - apply list_elem_of_lookup in Hw as [k Hk]. pose proof (fresh_bits rc) as Hm. apply mapM_Some in Hm.
    destruct (Forall2_lookup_l _ _ _ _ _ Hm Hk) as (b & _ & ->). eauto.
  - apply Hsc in Hw. by rewrite fresh_kept.
Qed.
End fresh.

(** ** Ids that have no bit yet, or never will

    [covered X]: the carried bits, and some bit for each id of [X]. *)
Definition covered (X : gset N) (s : St) : gmap N bool := carried (back_ s) ∪ gset_to_gmap false X.
(** Every wire in scope has a bit as far as the ids of [X] have; those, and the null
    id, have none. *)
Record SafeS (X : gset N) (s : St) : Prop := {
  ss_safe : Safe (covered X s) (ctx_ s);
  ss_none : ∀ w, w = 0%N ∨ w ∈ X → carried (back_ s) !! w = None;
  ss_len : (vlen (chunk_gates_ (ctx_ s)) < 2 ^ 31)%N }.
(** [w] comes from an id of [X] through gates of [gs]. *)
Inductive waits (gs : list Gate) (X : gset N) : N → Prop :=
  | waits_id w : w ∈ X → waits gs X w
  | waits_gate g w : g ∈ gs → w ∈ reads g → waits gs X w → waits gs X (out g).

Lemma covered_Some X s w : is_Some (covered X s !! w) ↔ is_Some (carried (back_ s) !! w) ∨ w ∈ X.
Proof.
  unfold covered, is_Some. setoid_rewrite lookup_union_Some_raw. setoid_rewrite lookup_gset_to_gmap_Some.
  split; [naive_solver|]. intros [[b Hb]|Hw]; [eauto|].
  destruct (carried (back_ s) !! w) as [b|] eqn:Hb; [eauto|]. exists false. naive_solver.
Qed.
Lemma SafeS_Inv X s : SafeS X s → Inv (carried (back_ s)) (ctx_ s).
Proof. intros Hs. eapply Inv_sub; [apply (ss_safe _ _ Hs)|]. intros w Hw. apply covered_Some. by left. Qed.
Lemma SafeS_SInv X s : SafeS X s → SInv s.
Proof. intros Hs. split; [by eapply SafeS_Inv|apply (ss_safe _ _ Hs)|apply Hs]. Qed.
Lemma SafeS_id X s w : SafeS X s → w = 0%N ∨ w ∈ X → (w < next_id_ (ctx_ s))%N ∧ w ∉ out <$> chunk_gates_ (ctx_ s).
Proof.
  intros Hs Hw. pose proof (safe_inv _ _ (ss_safe _ _ Hs)) as Hi. destruct Hw as [->|Hw].
  - split; [pose proof (inv_next _ _ Hi); lia|]. intros (g & Ho & Hg)%list_elem_of_fmap.
    apply (inv_pos _ _ Hi) in Hg. lia.
  - apply (inv_carried _ _ Hi), covered_Some. by right.
Qed.
Lemma SafeS_none X s w : SafeS X s → w = 0%N ∨ w ∈ X → meaning s w = None.
Proof.
  intros Hs Hw. unfold meaning, val. rewrite chunk_env_frame; [by apply (ss_none _ _ Hs)|].
  by apply (SafeS_id X).
Qed.

(** Values are defined from what is carried. *)
Lemma gate_val_None e g w : w ∈ reads g → e !! w = None → gate_val e g = None.
Proof.
  intros Hw He. apply eq_None_not_Some. intros [v Hv]. unfold gate_val, reads in *.
  destruct (op g); [| | |by apply elem_of_nil in Hw..]; repeat (apply bind_Some in Hv as (? & ? & Hv));
    set_unfold; naive_solver.
Qed.
Lemma env_defined gs car car' :
  (∀ w, is_Some (car !! w) → is_Some (car' !! w)) →
  ∀ w, is_Some (chunk_env gs car !! w) → is_Some (chunk_env gs car' !! w).
Proof.
  unfold chunk_env. revert car car'. induction gs as [|g gs IH]; intros car car' Hc; [done|]. simpl. apply IH. clear IH.
  intros w. unfold chunk_step. destruct (gate_val car g) as [v|] eqn:Hv.
  - destruct (gate_val_Some car' g) as [v' ->].
    { intros r Hr. apply Hc, not_eq_None_Some. intros He. by rewrite (gate_val_None car g r Hr He) in Hv. }
    destruct (decide (w = out g)) as [->|]; [by rewrite !lookup_insert_eq|]. rewrite !lookup_insert_ne by done. apply Hc.
  - intros Hw%Hc. destruct (gate_val car' g) as [v'|]; [|done].
    destruct (decide (w = out g)) as [->|]; [by rewrite lookup_insert_eq|]. by rewrite lookup_insert_ne by done.
Qed.
Lemma Safe_dom car car' c : (∀ w, is_Some (car !! w) ↔ is_Some (car' !! w)) → Safe car c → Safe car' c.
Proof.
  intros Hd [Hi Hnn Hsc]. split; [|done|].
  - eapply Inv_sub; [done|]. intros w. by rewrite Hd.
  - intros w Hw%Hsc. eapply env_defined; [|exact Hw]. intros x. by rewrite Hd.
Qed.

(** What has no bit but would have one waits on an id of [X], and has none. *)
Lemma waits_mono gs gs' X w : gs ⊆ gs' → waits gs X w → waits gs' X w.
Proof. intros Hg. induction 1 as [w Hw|g w Hin Hr _ IH]; [by apply waits_id|]. eapply waits_gate; [by apply Hg|done..]. Qed.
Lemma env_waits gs X s w :
  is_Some (chunk_env gs (covered X s) !! w) → chunk_env gs (carried (back_ s)) !! w = None → waits gs X w.
Proof.
  revert w. induction gs as [|g gs IH] using rev_ind; intros w.
  { intros [[? Hs]|Hw]%covered_Some Hn; [cbn in Hn; congruence|by apply waits_id]. }
  rewrite !chunk_env_app. cbn [chunk_env foldl]. change (foldl chunk_step ?c gs) with (chunk_env gs c).
  assert (gs ⊆ gs ++ [g]) as Hg by set_solver. intros Hs Hn.
  destruct (decide (w = out g)) as [->|Hne].
  2:{ rewrite chunk_step_ne in Hs, Hn by done. eapply waits_mono; [exact Hg|]. by apply IH. }
  unfold chunk_step in Hs, Hn.
  destruct (gate_val (chunk_env gs (carried (back_ s))) g) eqn:Hv; [by rewrite lookup_insert_eq in Hn|].
  destruct (gate_val (chunk_env gs (covered X s)) g) eqn:Hv'; [|eapply waits_mono; [exact Hg|]; by apply IH].
  destruct (decide (Forall (λ r, is_Some (chunk_env gs (carried (back_ s)) !! r)) (reads g))) as [Hall|Hsome].
  - rewrite Forall_forall in Hall. by destruct (gate_val_Some _ g Hall) as [? ?]; simplify_eq.
  - apply not_Forall_Exists, Exists_exists in Hsome as (r & Hr & Hn'); [|intros ?; apply _].
    apply (waits_gate _ _ g r); [set_solver|done|]. eapply waits_mono; [exact Hg|]. apply IH.
    + apply not_eq_None_Some. intros He. by rewrite (gate_val_None _ g r Hr He) in Hv'.
    + by apply eq_None_not_Some.
Qed.
Lemma waits_none X s w : SafeS X s → waits (chunk_gates_ (ctx_ s)) X w → meaning s w = None.
Proof.
  intros Hs. induction 1 as [w Hw|g w Hg Hr _ IH]; [apply (SafeS_none X); auto|].
  unfold meaning. rewrite (val_gate _ _ g (SafeS_Inv X s Hs) Hg). by eapply gate_val_None.
Qed.
Lemma scope_waits X s w :
  SafeS X s → in_scope (ctx_ s) w = true → meaning s w = None ↔ waits (chunk_gates_ (ctx_ s)) X w.
Proof.
  intros Hs Hw. split; [|by apply waits_none]. apply env_waits. by apply (safe_scope _ _ (ss_safe _ _ Hs)).
Qed.

(** ** The operations *)
(** Wires in scope stay, with the bits they have. *)
Definition extends (s s' : St) : Prop :=
  (∀ w, in_scope (ctx_ s) w = true → in_scope (ctx_ s') w = true) ∧
  (∀ w, in_scope (ctx_ s) w = true → is_Some (meaning s w) → meaning s' w = meaning s w).
Definition session_err (msg : string) : Prop := back_err msg ∨ overflow_err msg.
Definition foreign_err (msg : string) : Prop := msg = "ChunkedSession: value is bound to a different session's context".
(** What a flush of [ids] for the values [vs] can fail with. *)
Definition wire_err (s : St) (vs : list Value) (ids : list N) (msg : string) : Prop :=
  session_err msg ∨ (foreign_err msg ∧ ∃ v, v ∈ vs ∧ v_context v ≠ me) ∨
  (stale_err msg ∧ ∃ w, w ∈ ids ∧ meaning s w = None).

Lemma value_ids_eq v :
  value_ids_ me v = if (v_context v =? me)%N then Ret (v_ids v)
    else Fatal "ChunkedSession: value is bound to a different session's context".
Proof. unfold value_ids_. by destruct (v_context v =? me)%N. Qed.
Lemma append_ids_all vs dst :
  foldO (append_ids_ me) dst vs =
  if forallb (λ v, v_context v =? me)%N vs then Ret (dst ++ concat (v_ids <$> vs))
  else Fatal "ChunkedSession: value is bound to a different session's context".
Proof.
  revert dst. induction vs as [|v vs IH]; intros dst; cbn [foldO forallb fmap list_fmap concat]; [by rewrite app_nil_r|].
  unfold append_ids_ at 2. rewrite value_ids_eq. destruct (v_context v =? me)%N; [|done].
  cbn [mbind outcome_bind andb]. by rewrite IH, <- app_assoc.
Qed.
Lemma foreign_exists vs : forallb (λ v, v_context v =? me)%N vs = false → ∃ v, v ∈ vs ∧ v_context v ≠ me.
Proof.
  induction vs as [|v vs IH]; [done|]. cbn [forallb]. destruct (N.eqb_spec (v_context v) me) as [|Hne].
  - intros (x & ? & ?)%IH. exists x. split; [by right|done].
  - exists v. split; [by left|done].
Qed.

Lemma bind_ids_Some ids bits (m : gmap N bool) w :
  NoDup ids → length bits = length ids → is_Some (bind_ids ids bits m !! w) ↔ w ∈ ids ∨ is_Some (m !! w).
Proof.
  intros Hn Hl. destruct (bind_ids_lookup ids bits m w Hn Hl) as [[Hw ->]|(k & b & Hk & _ & ->)]; [naive_solver|].
  split; [|by eauto]. intros _. left. by eapply list_elem_of_lookup_2.
Qed.
Lemma covered_bind X s s' ids bits :
  carried (back_ s') = bind_ids ids bits (carried (back_ s)) → covered X s' = bind_ids ids bits (covered X s).
Proof. unfold covered. intros ->. unfold bind_ids. by rewrite map_union_assoc. Qed.

(** New ids bound by the back end and wrapped in a value. *)
Lemma new_value_ok X (s : St) bits (f : list N → D → outcome D) (P : D → Prop) (h : D → St → St) :
  SafeS X s → (∀ d s, ctx_ (h d s) = ctx_ s ∧ back_ (h d s) = d) →
  (∀ ids, ids = range (next_id_ (ctx_ s)) (vlen bits) → owp back_err (f ids (back_ s))
    (λ d', P d' ∧ carried d' = bind_ids ids bits (carried (back_ s)))) →
  owp session_err ('(ids, s) ← reserve (length bits) s; d ← f ids (back_ s);
      from_ids_ checks me ids (h d s)) (λ '(v, s'),
    SafeS X s' ∧ extends s s' ∧ v_context v = me ∧ Forall (λ w, in_scope (ctx_ s') w = true) (v_ids v) ∧
    P (back_ s') ∧ mapM (meaning s') (v_ids v) = Some bits).
Proof.
  intros Hs Hh Hf. pose proof (ss_safe _ _ Hs) as [Hi Hnn Hsc]. unfold reserve. apply owp_bind, owp_bind.
  eapply owp_mono; [eapply owp_err_mono; [apply (reserve_ids_ok (covered X s) (length bits)); apply Hi|by right]|].
  intros [ids c1] (Hi1 & Hids & Hn1 & Hg1 & Hrc1 & Hrc2). cbn [owp]. change (N.of_nat (length bits)) with (vlen bits) in *.
  apply owp_bind. cbn [back_ set_ctx]. eapply owp_mono; [eapply owp_err_mono; [by apply Hf|by left]|].
  intros d (Hd & Hcar). destruct (fresh_pin (covered X s) (ctx_ s) bits c1) as (rc & Hp & Hnn' & Hi' & Hsc'); [done..|].
  unfold from_ids_. destruct (Hh d (set_ctx c1 s)) as [-> Hb]. cbn [ctx_ set_ctx]. rewrite Hids, Hp. cbn [mbind outcome_bind owp].
  rewrite <- Hids in *. set (s' := set_ctx (set_rc rc c1) _).
  assert (back_ s' = d ∧ ctx_ s' = set_rc rc c1) as [Hb' Hc'] by done.
  assert (Inv (carried (back_ s)) (ctx_ s)) as Hir by by eapply SafeS_Inv.
  split; [split|split; [split|split; [done|split; [|split; [by rewrite Hb'|]]]]].
  - rewrite (covered_bind X s s' ids bits), Hc' by (by rewrite Hb'). rewrite Hids in *. by apply (fresh_safe _ _ _ _ Hi Hn1 Hg1).
  - intros w Hw. rewrite Hb', Hcar, Hids. rewrite (fresh_carried (carried (back_ s)) (ctx_ s) bits c1 Hn1); [by apply (ss_none _ _ Hs)|].
    apply (SafeS_id X s w Hs) in Hw as [Hw _]. rewrite elem_of_range. lia.
  - rewrite Hc'. cbn [chunk_gates_ set_rc]. rewrite Hg1. apply Hs.
  - intros w Hw. rewrite Hc'. apply Hsc'. by right.
  - intros w _ Hw. unfold meaning. rewrite Hb', Hc', Hcar, Hids. by apply (fresh_kept _ _ _ _ Hir Hn1 Hg1).
  - apply Forall_forall. intros w Hw. rewrite Hc'. apply Hsc'. by left.
  - unfold meaning. rewrite Hb', Hc', Hcar. cbn [v_ids]. rewrite Hids. by apply (fresh_bits _ _ _ _ Hir Hn1 Hg1).
Qed.

Lemma input_ok X owner bits s :
  SafeS X s →
  owp session_err (input checks me owner bits s) (λ '(v, s'),
    SafeS X s' ∧ extends s s' ∧ v_context v = me ∧ Forall (λ w, in_scope (ctx_ s') w = true) (v_ids v) ∧
    mapM (meaning s') (v_ids v) = Some bits).
Proof.
  intros Hs. eapply owp_mono; [apply (new_value_ok X s bits (authenticate_into_ owner bits) (λ _, True) set_back Hs)|].
  - done.
  - intros ids ->. eapply owp_mono; [apply authenticate_law|]; [|by intros d ->].
    rewrite range_length. unfold vlen. lia.
  - intros [v s'] (? & ? & ? & ? & _ & ?). done.
Qed.

(** New ids that wait for their bits. *)
Lemma batch_add_ok X owner bits b s :
  SafeS X s →
  owp (λ msg, overflow_err msg ∨ finished_ b = true) (batch_add checks me owner bits b s) (λ '(v, b', s'),
    let ids := range (next_id_ (ctx_ s)) (vlen bits) in
    finished_ b = false ∧ b' = MkBatch (owners_ b ++ [owner]) (bits_ b ++ [bits]) (ids_ b ++ [ids]) false ∧
    v = MkValue me ids ∧ SafeS (list_to_set ids ∪ X) s' ∧ extends s s' ∧ back_ s' = back_ s).
Proof.
  intros Hs. pose proof (ss_safe _ _ Hs) as [Hi Hnn Hsc]. unfold batch_add.
  destruct (finished_ b) eqn:Hf; [by right|]. cbn [negb expecting mbind outcome_bind]. unfold reserve. apply owp_bind, owp_bind.
  eapply owp_mono; [eapply owp_err_mono; [apply (reserve_ids_ok (covered X s) (length bits)); apply Hi|by left]|].
  intros [ids c1] (Hi1 & Hids & Hn1 & Hg1 & Hrc1 & Hrc2). cbn [owp]. change (N.of_nat (length bits)) with (vlen bits) in *.
  destruct (fresh_pin (covered X s) (ctx_ s) bits c1) as (rc & Hp & Hnn' & Hi' & Hsc'); [done..|].
  unfold from_ids_. cbn [ctx_ set_ctx]. rewrite Hids, Hp. cbn [mbind outcome_bind owp].
  rewrite <- Hids in *. set (s' := set_ctx (set_rc rc c1) _). assert (length bits = length ids) as Hl.
  { rewrite Hids, range_length. unfold vlen. lia. }
  assert (∀ w, w ∈ ids → (next_id_ (ctx_ s) ≤ w)%N) as Hge by (intros w; rewrite Hids, elem_of_range; lia).
  split_and!; try done; [split|split].
  - eapply Safe_dom; [|rewrite Hids in Hi', Hsc'; by apply (fresh_safe _ _ bits c1 Hi Hn1 Hg1 rc)].
    intros w. rewrite <- Hids, bind_ids_Some; [|rewrite Hids; apply NoDup_range|done]. rewrite !covered_Some. cbn. set_solver.
  - intros w Hw. cbn. destruct (decide (w ∈ ids)) as [Hin|Hin]; [|apply (ss_none _ _ Hs); set_solver].
    apply eq_None_not_Some. intros Hc%(inv_carried _ _ (SafeS_Inv X s Hs)). apply Hge in Hin. lia.
  - cbn. rewrite Hg1. apply Hs.
  - intros w Hw. apply Hsc'. by right.
  - intros w _ _. unfold meaning, val. cbn. by rewrite Hg1.
Qed.

(** The implicit keep set. *)
Lemma live_pending_elem c w :
  w ∈ live_pending_ids c ↔ in_scope c w = true ∧ w ∈ out <$> chunk_gates_ c.
Proof. unfold live_pending_ids. by rewrite list_elem_of_filter. Qed.
Lemma in_scope_rc c c' w : rc_ c' = rc_ c → in_scope c' w = in_scope c w.
Proof. unfold in_scope. by intros ->. Qed.
Lemma scope_lt X s w : SafeS X s → in_scope (ctx_ s) w = true → (w < next_id_ (ctx_ s))%N.
Proof.
  intros Hs Hw. eapply (val_lt (covered X s)); [apply (ss_safe _ _ Hs)|]. by apply (safe_scope _ _ (ss_safe _ _ Hs)).
Qed.

(** With the chunk gone, the ids in scope are carried or in [X]. *)
Lemma settled_safe X s :
  SInv s → chunk_gates_ (ctx_ s) = [] →
  (∀ w, w = 0%N ∨ w ∈ X → carried (back_ s) !! w = None) → (∀ w, w ∈ X → w < next_id_ (ctx_ s))%N →
  (∀ w, in_scope (ctx_ s) w = true → is_Some (carried (back_ s) !! w) ∨ w ∈ X) → SafeS X s.
Proof.
  intros [Hi Hnn Hl] Hg Hno Hlt Hsc. split; [|done|done]. split; [|done|].
  - destruct Hi as [Hn Hr Hgs Hp Hq Hk Ho]. split; try done. intros w [Hw|Hw]%covered_Some; [by apply Hk|].
    rewrite Hg. split; [by apply Hlt|by apply not_elem_of_nil].
  - intros w Hw. unfold val. rewrite Hg. apply covered_Some. by apply Hsc.
Qed.
Lemma flushed_same keep s s' w :
  SInv s → flushed keep s s' → w ∈ keep ∨ w ∉ out <$> chunk_gates_ (ctx_ s) → meaning s' w = meaning s w.
Proof.
  intros Hs (_ & _ & _ & _ & Hm & Hsub) [Hw|Hw]; [by apply Hm; left|].
  destruct (carried (back_ s) !! w) as [b|] eqn:Hb; [apply Hm; right; eauto|].
  assert (meaning s w = None) as Hn by (unfold meaning, val; by rewrite chunk_env_frame).
  rewrite Hn. apply eq_None_not_Some. intros Hs'%Hsub. rewrite Hn in Hs'. by destruct Hs'.
Qed.
(** What a flush that keeps the ids [keep] leaves, where the back end has then let go
    of the wires that [kept] does not name. *)
Lemma flushed_safe keep (kept : N → bool) X Y s s1 s' :
  SafeS X s → flushed keep s s1 → SInv s' → ctx_ s' = ctx_ s1 →
  (∀ w, carried (back_ s') !! w = if kept w then carried (back_ s1) !! w else None) →
  X ⊆ Y → (∀ w, w ∈ Y → (w < next_id_ (ctx_ s))%N ∧ (w ∈ X ∨ kept w = false)) →
  (∀ w, in_scope (ctx_ s) w = true → kept w = true → w ∈ keep ∨ w ∉ out <$> chunk_gates_ (ctx_ s)) →
  (∀ w, in_scope (ctx_ s) w = true → kept w = false → w ∈ Y) → SafeS Y s'.
Proof.
  intros Hs Hf Hs' Hctx Hcar HXY HY Hkept Hno. pose proof (SafeS_SInv _ _ Hs) as Hsi.
  pose proof Hf as (Hs1 & _ & Hch & Hk & _ & Hsub).
  assert (∀ w, meaning s1 w = carried (back_ s1) !! w) as Hm1 by (intros w; unfold meaning, val; by rewrite Hch).
  assert (∀ w, w = 0%N ∨ w ∈ X → carried (back_ s1) !! w = None) as Hn1.
  { intros w Hw. rewrite <- Hm1. apply eq_None_not_Some. intros Hx%Hsub. by rewrite (SafeS_none X s w Hs Hw) in Hx; destruct Hx. }
  apply settled_safe; rewrite ?Hctx, ?Hch; try done.
  - intros w Hw. rewrite Hcar. destruct (kept w) eqn:Hkw; [|done]. apply Hn1. destruct Hw as [|Hw]; [by left|right].
    destruct (HY w Hw) as [_ [?|?]]; [done|congruence].
  - intros w Hw. by apply HY.
  - intros w Hw. rewrite (in_scope_rc (ctx_ s)) in Hw by done. destruct (kept w) eqn:Hkw; [|right; by apply Hno].
    rewrite Hcar, Hkw. destruct (decide (w ∈ X)); [right; by apply HXY|left].
    rewrite <- Hm1, (flushed_same keep s s1 w Hsi Hf) by auto. destruct (Hkept w Hw Hkw) as [|Ho]; [by apply Hk|].
    pose proof (safe_scope _ _ (ss_safe _ _ Hs) w Hw) as Hv. unfold val in Hv. rewrite chunk_env_frame in Hv by done.
    apply covered_Some in Hv as [Hv|]; [|done]. by rewrite carried_meaning.
Qed.

(** A flush that keeps at least the live pending wires. *)
Lemma reveal_flushed keep X s s1 :
  SafeS X s → (∀ w, w ∈ live_pending_ids (ctx_ s) → w ∈ keep) → flushed keep s s1 → SafeS X s1 ∧ extends s s1.
Proof.
  intros Hs Hl Hf. pose proof Hf as (Hs1 & _ & Hch & _).
  assert (∀ w, in_scope (ctx_ s) w = true → w ∈ keep ∨ w ∉ out <$> chunk_gates_ (ctx_ s)) as Hk.
  { intros w Hw. destruct (decide (w ∈ out <$> chunk_gates_ (ctx_ s))); [left|by right]. by apply Hl, live_pending_elem. }
  split; [|split].
  - apply (flushed_safe keep (λ _, true) X X s s1); try done; [|by auto]. intros w Hw. split; [by apply (SafeS_id X s); auto|by left].
  - intros w. by rewrite Hch.
  - intros w Hw _. apply (flushed_same keep); [by eapply SafeS_SInv|done|by apply Hk].
Qed.
Lemma flush_err vs ids s msg :
  back_err msg ∨ (stale_err msg ∧ ∃ w, w ∈ ids ∧ meaning s w = None) → wire_err s vs ids msg.
Proof. intros [?|?]; [by left; left|by right; right]. Qed.

(** The ids a reveal settles. *)
Definition reveal_ids (v : Value) (keep : list Value) (s : St) : list N :=
  live_pending_ids (ctx_ s) ++ v_ids v ++ concat (v_ids <$> keep).
Lemma reveal_ok X v recipient keep s :
  SafeS X s →
  owp (wire_err s (v :: keep) (reveal_ids v keep s)) (reveal me v recipient keep s) (λ '(res, s'),
    SafeS X s' ∧ extends s s' ∧ chunk_gates_ (ctx_ s') = [] ∧
    (∀ w, w ∈ reveal_ids v keep s → is_Some (meaning s w) ∧ meaning s' w = meaning s w) ∧
    ∃ bits, mapM (meaning s) (v_ids v) = Some bits ∧ (v_ids v ≠ [] →
      res = if learns recipient then Some bits else None)).
Proof.
  intros Hs. unfold reveal. apply owp_bind.
  eapply owp_mono; [eapply owp_err_mono; [apply validate_law|by left; left]|]. intros _ _.
  rewrite value_ids_eq. destruct (N.eqb_spec (v_context v) me) as [Hv|Hv]; cbn [mbind outcome_bind owp].
  2:{ right. left. split; [done|]. exists v. split; [by left|done]. }
  rewrite append_ids_all. destruct (forallb _ keep) eqn:Hkeep; cbn [mbind outcome_bind owp].
  2:{ right. left. split; [done|]. destruct (foreign_exists keep Hkeep) as (x & ? & ?). exists x. split; [by right|done]. }
  rewrite <- app_assoc. fold (reveal_ids v keep s). apply owp_bind.
  eapply owp_mono; [eapply owp_err_mono; [apply (flush_ok (reveal_ids v keep s) s (SafeS_SInv _ _ Hs))|apply flush_err]|].
  intros s1 Hf. destruct (reveal_flushed (reveal_ids v keep s) X s s1 Hs) as [Hs1 [Hsc Hm]];
    [intros w Hw; apply elem_of_app; by left|done|].
  pose proof Hf as (_ & Hset & Hch & Hk & Hsame & _).
  assert (∀ w, w ∈ reveal_ids v keep s → is_Some (meaning s w) ∧ meaning s1 w = meaning s w) as Hall by auto.
  destruct (mapM_is_Some_2 (meaning s) (v_ids v)) as [bits Hbits].
  { apply Forall_forall. intros w Hw. apply Hk. unfold reveal_ids. set_solver. }
  assert (mapM (carried (back_ s1) !!.) (v_ids v) = Some bits) as Hb2.
  { rewrite <- Hbits. apply mapM_agree. intros w Hw. rewrite <- (proj2 (Hall w ltac:(unfold reveal_ids; set_solver))).
    unfold meaning, val. by rewrite Hch. }
  apply owp_bind. eapply owp_mono; [eapply owp_err_mono; [by eapply decode_law|by left; left]|].
  intros [res d] (Hd & Hcar & ->). cbn [owp].
  assert (∀ w, meaning (set_back d s1) w = meaning s1 w) as Hmd by (intros w; unfold meaning; cbn; by rewrite Hcar).
  split; [|split; [split; [exact Hsc|]|split; [cbn; by rewrite Hch|split]]].
  - destruct Hs1 as [Hsf Hno Hl]. unfold covered in *. split; cbn [back_ ctx_ set_back]; unfold covered; cbn [back_ set_back]; by rewrite ?Hcar.
  - intros w Hw. rewrite Hmd. by apply Hm.
  - intros w Hw. rewrite Hmd. by apply Hall.
  - exists bits. split; [done|]. intros Hne. pose proof (length_mapM _ _ _ Hbits) as Hlen.
    destruct (learns recipient); [by rewrite decide_True by lia|]. rewrite decide_False; [done|].
    destruct (v_ids v); [done|]. simpl. lia.
Qed.

(** The wires a checkpoint keeps, and those in scope that it drops. *)
Definition checkpoint_keeps (keep : list Value) (s : St) (w : N) : bool :=
  match keep with [] => in_scope (ctx_ s) w | _ => bool_decide (w ∈ concat (v_ids <$> keep)) end.
Definition checkpoint_ids (keep : list Value) (s : St) : list N :=
  match keep with [] => live_pending_ids (ctx_ s) | _ => concat (v_ids <$> keep) end.
Definition dropped (keep : list Value) (X : gset N) (s : St) : gset N :=
  list_to_set (filter (λ w, in_scope (ctx_ s) w = true ∧ checkpoint_keeps keep s w = false ∧ w ∉ X)
    (range 0 (next_id_ (ctx_ s)))).
(** What a checkpoint leaves. *)
Definition checkpointed (keep : list Value) (X : gset N) (s s' : St) : Prop :=
  SafeS (dropped keep X s ∪ X) s' ∧ rc_ (ctx_ s') = rc_ (ctx_ s) ∧ chunk_gates_ (ctx_ s') = [] ∧
  (∀ w, w ∈ checkpoint_ids keep s → is_Some (meaning s w)) ∧
  ∀ w, meaning s' w = if checkpoint_keeps keep s w then meaning s w else None.
Lemma flush_prune_ok X keep s (f : St → N → bool) :
  SafeS X s → (∀ s1 w, rc_ (ctx_ s1) = rc_ (ctx_ s) → f s1 w = checkpoint_keeps keep s w) →
  owp (wire_err s keep (checkpoint_ids keep s))
    (s ← flush_ (checkpoint_ids keep s) s; d ← prune_carried_ (f s) (back_ s); Ret (set_back d s)) (checkpointed keep X s).
Proof.
  intros Hs Hfk. pose proof (SafeS_SInv _ _ Hs) as Hsi. apply owp_bind.
  eapply owp_mono; [eapply owp_err_mono; [apply (flush_ok _ s Hsi)|apply flush_err]|].
  intros s1 Hf. pose proof Hf as (Hs1 & Hset & Hch & Hk & _ & Hsub). apply owp_bind.
  eapply owp_mono; [eapply owp_err_mono; [by apply prune_law|by left; left]|]. intros d (Hd & Hcar). cbn [owp].
  assert (∀ w, f s1 w = checkpoint_keeps keep s w) as Hfk1 by (intros w; apply Hfk; by rewrite Hch).
  assert (∀ w, checkpoint_keeps keep s w = true → w ∈ checkpoint_ids keep s ∨ w ∉ out <$> chunk_gates_ (ctx_ s)) as Hplaced.
  { intros w. unfold checkpoint_keeps, checkpoint_ids. destruct keep; [|intros ?%bool_decide_eq_true; by left].
    intros Hw. rewrite live_pending_elem. destruct (decide (w ∈ out <$> chunk_gates_ (ctx_ s))); auto. }
  assert (Inv (carried d) (ctx_ s1)) as Hid.
  { eapply Inv_sub; [apply Hs1|]. intros w. rewrite Hcar. by destruct (f s1 w); [|intros [? ?]]. }
  assert (∀ w, meaning (set_back d s1) w = carried d !! w) as Hmd by (intros w; unfold meaning, val; cbn; by rewrite Hch).
  assert (∀ w, meaning s1 w = carried (back_ s1) !! w) as Hm1 by (intros w; unfold meaning, val; by rewrite Hch).
  split; [|split; [cbn; by rewrite Hch|split; [cbn; by rewrite Hch|split; [exact Hk|]]]].
  - apply (flushed_safe (checkpoint_ids keep s) (checkpoint_keeps keep s) X _ s s1); try done.
    + split; [exact Hid|apply Hs1|apply Hs1].
    + intros w. cbn [back_ set_back]. by rewrite Hcar, Hfk1.
    + set_solver.
    + intros w [Hw|Hw]%elem_of_union.
      * unfold dropped in Hw. apply elem_of_list_to_set, list_elem_of_filter in Hw as [(_ & ? & _) Hr%elem_of_range].
        split; [lia|by right].
      * split; [by apply (SafeS_id X s); auto|by left].
    + intros w _. apply Hplaced.
    + intros w Hw Hkw. destruct (decide (w ∈ X)); [set_solver|]. apply elem_of_union. left.
      apply elem_of_list_to_set, list_elem_of_filter. split; [done|]. apply elem_of_range.
      pose proof (scope_lt X s w Hs Hw). lia.
  - intros w. rewrite Hmd, Hcar, Hfk1. destruct (checkpoint_keeps keep s w) eqn:Hkw; [|done].
    rewrite <- Hm1. apply (flushed_same (checkpoint_ids keep s)); auto.
Qed.
Lemma checkpoint_ok X keep s :
  SafeS X s → owp (wire_err s keep (checkpoint_ids keep s)) (checkpoint me keep s) (checkpointed keep X s).
Proof.
  intros Hs. unfold checkpoint. destruct keep as [|v keep].
  { apply (flush_prune_ok X [] s (λ s, in_scope (ctx_ s)) Hs). intros s1 w. apply in_scope_rc. }
  rewrite append_ids_all. destruct (forallb _ _) eqn:Hkeep; cbn [mbind outcome_bind owp app].
  - by apply (flush_prune_ok X (v :: keep) s (λ _ id, bool_decide (id ∈ concat (v_ids <$> v :: keep))) Hs).
  - right. left. split; [done|]. by apply foreign_exists.
Qed.

(** Settling deferred inputs changes no bit. *)
Lemma settle_ok X s :
  SafeS X s → owp back_err (settle_deferred_inputs_ s) (λ s',
    SafeS X s' ∧ settled (back_ s') ∧ ctx_ s' = ctx_ s ∧ carried (back_ s') = carried (back_ s)).
Proof.
  intros [Hs Hno Hl]. unfold settle_deferred_inputs_. apply owp_bind.
  eapply owp_mono; [apply materialize_law|]. intros d (Hd & Hcar). cbn [owp].
  split; [|done]. unfold covered in *. split; cbn [back_ ctx_ set_back]; unfold covered; cbn [back_ set_back]; by rewrite ?Hcar.
Qed.
Lemma count_ands_parts p (s : St) : ctx_ (count_ands_ p s) = ctx_ s ∧ back_ (count_ands_ p s) = back_ s.
Proof. unfold count_ands_. by destruct kCountsAndsInternally. Qed.

(** The arguments of a replay are of this session and settled. *)
Lemma arg_ids_ok s args dst :
  (∃ msg, foldO (append_arg_ids_ me s) dst args = Fatal msg) ∨
  (foldO (append_arg_ids_ me s) dst args = Ret (dst ++ concat (v_ids <$> args)) ∧
   Forall (λ w, is_materialized_ (back_ s) w = true) (concat (v_ids <$> args))).
Proof.
  assert (∀ ids, (∃ msg, foldO (λ _ id, expecting (is_materialized_ (back_ s) id)
      "ChunkedSession::run: argument is unflushed — checkpoint it first") tt ids = Fatal msg) ∨
    (foldO (λ _ id, expecting (is_materialized_ (back_ s) id)
      "ChunkedSession::run: argument is unflushed — checkpoint it first") tt ids = Ret tt ∧
     Forall (λ w, is_materialized_ (back_ s) w = true) ids)) as Hcheck.
  { induction ids as [|id ids IHi]; simpl; [by right|].
    destruct (is_materialized_ (back_ s) id) eqn:Hm; simpl; [|by left; eexists].
    destruct IHi as [?|[-> ?]]; [by left|right]. split; [done|]. by constructor. }
  revert dst. induction args as [|v args IH]; intros dst; cbn [foldO fmap list_fmap concat].
  - right. by rewrite app_nil_r.
  - assert (append_arg_ids_ me s dst v = (ids ← value_ids_ me v; foldO (λ _ id, expecting (is_materialized_ (back_ s) id)
      "ChunkedSession::run: argument is unflushed — checkpoint it first") tt ids;; Ret (dst ++ ids))) as -> by done.
    rewrite value_ids_eq. destruct (v_context v =? me)%N; [|left; by eexists]. cbn [mbind outcome_bind]. destruct (Hcheck (v_ids v)) as [[msg ->]|[-> Hm]]; [left; by eexists|]. cbn [mbind outcome_bind].
    destruct (IH (dst ++ v_ids v)) as [?|[-> Hm']]; [by left|right].
    rewrite <- app_assoc. split; [done|]. by apply Forall_app.
Qed.

(** Replaying a compiled program over settled values. *)
Definition replayed (X : gset N) (p : BooleanProgram) (args : list Value) (s s' : St) (v : Value) : Prop :=
  SafeS X s' ∧ extends s s' ∧ v_context v = me ∧ Forall (λ w, in_scope (ctx_ s') w = true) (v_ids v) ∧
  ∃ bits outs, mapM (meaning s) (concat (v_ids <$> args)) = Some bits ∧
    eval_program p bits = Some outs ∧ mapM (meaning s') (v_ids v) = Some outs.
Lemma run_program__ok X p s ids bits :
  SafeS X s → settled (back_ s) → wf_program p → vlen ids = num_inputs p →
  mapM (carried (back_ s) !!.) ids = Some bits →
  owp session_err (run_program_ checks me p ids s) (λ '(v, s'),
    SafeS X s' ∧ extends s s' ∧ v_context v = me ∧ Forall (λ w, in_scope (ctx_ s') w = true) (v_ids v) ∧
    ∃ outs, eval_program p bits = Some outs ∧ mapM (meaning s') (v_ids v) = Some outs).
Proof.
  intros Hs Hset Hwf Hn Hbits. pose proof (length_mapM _ _ _ Hbits) as Hlen.
  destruct (eval_program_total p Hwf bits) as (outs & Hev & Hol); [unfold vlen in *; lia|].
  unfold run_program_. eapply owp_mono.
  - rewrite <- Hol. apply (new_value_ok X s outs (run_program_into_ p ids) (λ d, True)
      (λ d s, count_ands_ p (set_back d s)) Hs).
    + intros d t. destruct (count_ands_parts p (set_back d t)) as [-> ->]. done.
    + intros o ->. eapply owp_mono; [eapply run_law; [done|done|done|done|]|].
      * rewrite range_length. unfold vlen. lia.
      * by intros d [_ ->].
  - intros [v s'] (? & ? & ? & ? & _ & ?). split_and!; try done. by exists outs.
Qed.
(** Both replays: [k] is what is checked between gathering the arguments and running. *)
Lemma replay_args_ok X p args s (k : list N → outcome (Value * St) → outcome (Value * St)) :
  SafeS X s → wf_program p → (vlen (concat (v_ids <$> args)) < 2 ^ 32)%N →
  (∀ ids m, u32 (vlen ids) = num_inputs p ∧ k ids m = m ∨ ∃ msg, k ids m = Fatal msg) →
  owp (λ _, True) (s ← settle_deferred_inputs_ s; in_ids ← foldO (append_arg_ids_ me s) [] args;
      k in_ids (run_program_ checks me p in_ids s)) (λ '(v, s'), replayed X p args s s' v).
Proof.
  intros Hs Hwf Hu Hk. apply owp_bind. eapply owp_mono; [eapply owp_err_mono; [by apply settle_ok|done]|].
  intros s1 (Hs1 & Hset & Hctx & Hcar). apply owp_bind.
  destruct (arg_ids_ok s1 args []) as [[msg ->]|[-> Hmat]]; [done|]. cbn [owp app].
  set (ids := concat (v_ids <$> args)) in *. destruct (Hk ids (run_program_ checks me p ids s1)) as [[Hn ->]|[msg ->]]; [|done].
  assert (∀ w, meaning s1 w = meaning s w) as Hm1 by (intros w; unfold meaning; by rewrite Hctx, Hcar).
  assert (Forall (λ w, is_Some (carried (back_ s1) !! w)) ids) as Hall.
  { eapply Forall_impl; [exact Hmat|]. intros w. by apply is_materialized_law. }
  destruct (mapM_is_Some_2 (carried (back_ s1) !!.) ids Hall) as [bits Hbits].
  eapply owp_mono; [eapply owp_err_mono; [apply (run_program__ok X p s1 ids bits)|done]|]; try done.
  { by rewrite u32_small in Hn by lia. }
  intros [v s'] (Hs' & [Hsc Hm] & Hv & Hf & outs & Hev & Hout). rewrite Hctx in Hsc, Hm.
  split; [done|]. split; [split; [done|]|split; [done|split; [done|exists bits, outs; split; [|done]]]].
  - intros w Hw Hb. rewrite <- Hm1 in *. by apply Hm.
  - rewrite <- Hbits. apply mapM_agree. intros w Hw. rewrite Forall_forall in Hall. rewrite <- Hm1.
    apply carried_meaning; [by eapply SafeS_SInv|by apply Hall].
Qed.
Lemma session_run_ok X p args s :
  SafeS X s → wf_program p → (vlen (concat (v_ids <$> args)) < 2 ^ 32)%N →
  owp (λ _, True) (run checks me p args s) (λ '(v, s'), replayed X p args s s' v).
Proof.
  intros Hs Hwf Hu. apply (replay_args_ok X p args s (λ ids m, expecting (u32 (vlen ids) =? num_inputs p)%N _;; m) Hs Hwf Hu).
  intros ids m. destruct (N.eqb_spec (u32 (vlen ids)) (num_inputs p)); [by left|right; by eexists].
Qed.
Lemma run_artifact_ok X n p args s :
  SafeS X s → wf_program p → (vlen (concat (v_ids <$> args)) < 2 ^ 32)%N →
  owp (λ _, True) (run_artifact checks me n p args s) (λ '(v, s'), replayed X p args s s' v).
Proof.
  intros Hs Hwf Hu. apply (replay_args_ok X p args s (λ ids m, expecting (u32 (vlen ids) =? num_inputs p)%N _;;
    expecting (u32 n =? vlen (outputs p))%N _;; m) Hs Hwf Hu).
  intros ids m. destruct (N.eqb_spec (u32 (vlen ids)) (num_inputs p)); [|right; by eexists].
  destruct (u32 n =? vlen (outputs p))%N; [by left|right; by eexists].
Qed.

(** Copying and destroying handles. *)
Lemma SafeS_set_rc X s rc :
  SafeS X s → vlen rc = vlen (rc_ (ctx_ s)) → nonneg (set_rc rc (ctx_ s)) →
  (∀ w, in_scope (set_rc rc (ctx_ s)) w = true → in_scope (ctx_ s) w = true) → SafeS X (set_ctx (set_rc rc (ctx_ s)) s).
Proof.
  intros [[Hi Hnn Hsc] Hno Hl] Hlr Hnn' Hsub. split; [split; [|done|]|done|done].
  - apply Inv_set_rc; [done|]. by rewrite Hlr, (inv_rc _ _ Hi).
  - intros w Hw. apply Hsc. by apply Hsub.
Qed.
Lemma copy_ok X s id :
  SafeS X s → in_scope (ctx_ s) id = true → id ≠ 0%N →
  ∃ rc, chunk_pin checks id (ctx_ s) = Ret (set_rc rc (ctx_ s)) ∧ SafeS X (set_ctx (set_rc rc (ctx_ s)) s).
Proof.
  intros Hs Hid Hz. pose proof (ss_safe _ _ Hs) as [Hi Hnn Hsc].
  destruct (pin_all_ok checks (covered X s) [id] (ctx_ s) Hi) as (rc & Hp & Hlr & Hnn' & Hs'); [|done|].
  { constructor; [|done]. pose proof (scope_lt X s id Hs Hid). lia. }
  unfold pin_all in Hp. cbn [foldO] in Hp. destruct (chunk_pin checks id (ctx_ s)) as [c| |] eqn:Hc; [|done..].
  injection Hp as ->. exists rc. split; [done|]. apply SafeS_set_rc; try done.
  intros w Hw. apply Hs' in Hw as [->%list_elem_of_singleton|]; done.
Qed.
Lemma destroy_ok X s id :
  SafeS X s → in_scope (ctx_ s) id = true → id ≠ 0%N →
  ∃ rc, chunk_unpin checks id (ctx_ s) = Ret (set_rc rc (ctx_ s)) ∧ SafeS X (set_ctx (set_rc rc (ctx_ s)) s).
Proof.
  intros Hs Hid Hz. pose proof (ss_safe _ _ Hs) as [Hi Hnn Hsc]. pose proof (scope_lt X s id Hs Hid).
  destruct (chunk_adjust_ok checks (-1) id (ctx_ s)) as (rc & Heq & Hlr & Hrc);
    [lia|rewrite (inv_rc _ _ Hi); lia|].
  exists rc. split; [done|]. apply SafeS_set_rc; try done.
  - intros w k. cbn. rewrite Hrc. case_decide as Hw; [|by apply Hnn]. subst w.
    intros (k0 & Hk0 & ->)%fmap_Some. unfold in_scope in Hid. rewrite Hk0 in Hid. lia.
  - intros w. unfold in_scope. cbn [rc_ set_rc]. rewrite Hrc. case_decide; [|done].
    destruct (rc_ (ctx_ s) !! N.to_nat w); [|done]. simpl. lia.
Qed.

(** Recording only appends to the chunk. *)
Definition appends (c c' : ChunkRecorder.State) : Prop :=
  ∃ gs, chunk_gates_ c' = chunk_gates_ c ++ gs ∧ Forall (λ g, next_id_ c ≤ out g)%N gs.
Lemma adjust_gates d i c c' : chunk_adjust checks d i c = Ret c' → chunk_gates_ c' = chunk_gates_ c.
Proof.
  unfold chunk_adjust. destruct (i =? 0)%N; [by intros [= <-]|].
  intros (_ & _ & (x & _ & (rc & _ & [= <-])%bind_Ret)%bind_Ret)%bind_Ret. done.
Qed.
Lemma pinned_appends m c w c' :
  (∀ o c1, m c = Ret (o, c1) → appends c c1) → pinned checks m c = Ret (w, c') → appends c c'.
Proof.
  intros Hm ([o c1] & Ho & (c2 & Hp & [= <- <-])%bind_Ret)%bind_Ret. destruct (Hm o c1 Ho) as (gs & Hg & Hf).
  exists gs. split; [|done]. rewrite <- Hg. by eapply adjust_gates.
Qed.
Lemma record_appends mk c o c' : (∀ o, out (mk o) = o) → record_ mk c = Ret (o, c') → appends c c'.
Proof.
  intros Hmk ([i c1] & (_ & _ & [= <- <-])%bind_Ret & [= <- <-])%bind_Ret. eexists. split; [done|].
  constructor; [|done]. by rewrite Hmk.
Qed.
Lemma public_bit_appends v c w c' : public_bit checks v c = Ret (w, c') → appends c c'.
Proof.
  apply pinned_appends. intros o c1. destruct (if v then const1_ c else const0_ c).
  - intros [= _ <-]. exists []. by rewrite app_nil_r.
  - intros ([i c2] & Hr & [= <- <-])%bind_Ret. by apply record_appends in Hr.
Qed.
Lemma gate_appends mk ids c w c' :
  (∀ o, out (mk o) = o) →
  pinned checks (λ s, foldr (λ i k, require_allocated_ i s;; k) (record_ mk s) ids) c = Ret (w, c') → appends c c'.
Proof.
  intros Hmk. apply pinned_appends. intros o c1. induction ids as [|i ids IH]; cbn [foldr]; [by apply record_appends|].
  intros (_ & _ & Hr)%bind_Ret. by apply IH.
Qed.
Lemma appends_meaning X s c w :
  SafeS X s → appends (ctx_ s) c → (w < next_id_ (ctx_ s))%N → meaning (set_ctx c s) w = meaning s w.
Proof.
  intros Hs (gs & Hg & Hf) Hw. unfold meaning, val. cbn [ctx_ set_ctx back_]. rewrite Hg, chunk_env_app.
  apply chunk_env_frame. intros (g & -> & Hin)%list_elem_of_fmap. rewrite Forall_forall in Hf. apply Hf in Hin. lia.
Qed.
(** A recorded gate keeps the session safe. *)
Lemma gate_step_ok X s (m : ST ChunkRecorder.State N) b w c :
  SafeS X s → m (ctx_ s) = Ret (w, c) → (vlen (chunk_gates_ c) < 2 ^ 31)%N → appends (ctx_ s) c →
  wp overflow_err m (ctx_ s) (λ w c', Safe (covered X s) c' ∧
    (∀ x y, ChunkRecorder.wire_denotes (covered X s) (ctx_ s) x y → ChunkRecorder.wire_denotes (covered X s) c' x y) ∧
    ChunkRecorder.wire_denotes (covered X s) c' w b) →
  SafeS X (set_ctx c s) ∧ ∀ x, in_scope (ctx_ s) x = true → meaning (set_ctx c s) x = meaning s x.
Proof.
  intros Hs Hm Hl Ha Hw. unfold wp in Hw. rewrite Hm in Hw. destruct Hw as (Hc & _ & _). split.
  - split; [exact Hc|apply Hs|done].
  - intros x Hx. apply (appends_meaning X); [done..|]. by apply (scope_lt X).
Qed.

(** ** The client's session

    Next to the session: the input batches the client has, and the ids that have no bit
    for good, which are the null id once there is a null wire and those that an explicit
    checkpoint dropped under a handle. *)
Record Config : Type := MkConfig { sess : St; batches : list InputBatch; lost : gset N }.
(** The ids whose inputs wait for their batch to be finished. *)
Definition pending_of (b : InputBatch) : list N := if finished_ b then [] else concat (ids_ b).
Definition awaited (bs : list InputBatch) : list N := concat (pending_of <$> bs).
Definition unsettled (c : Config) : gset N := list_to_set (awaited (batches c)) ∪ lost c.
Definition with_sess (s : St) (c : Config) : Config := MkConfig s (batches c) (lost c).
(** An operand: a wire in scope, or a null one. *)
Definition usable (c : Config) (a : N) : Prop :=
  in_scope (ctx_ (sess c)) a = true ∨ (a = 0%N ∧ 0%N ∈ lost c).

Definition batch_ok (b : InputBatch) : Prop :=
  length (owners_ b) = length (bits_ b) ∧ Forall2 (λ (x : list bool) (i : list N), length x = length i) (bits_ b) (ids_ b).
Record ConfigOk (c : Config) : Prop := {
  co_safe : SafeS (unsettled c) (sess c);
  co_batches : Forall batch_ok (batches c);
  co_nodup : NoDup (awaited (batches c));
  co_apart : ∀ w, w ∈ awaited (batches c) → w ≠ 0%N ∧ w ∉ lost c }.

Lemma awaited_insert bs k b b' :
  bs !! k = Some b → awaited (<[k:=b']> bs) ≡ₚ pending_of b' ++ awaited (delete k bs).
Proof.
  intros Hk. pose proof (lookup_lt_Some _ _ _ Hk) as Hl. unfold awaited.
  rewrite insert_take_drop, delete_take_drop, !fmap_app, fmap_cons, !concat_app by done. cbn [concat].
  apply Permutation_app_swap_app.
Qed.
Lemma awaited_lookup bs k b : bs !! k = Some b → awaited bs ≡ₚ pending_of b ++ awaited (delete k bs).
Proof. intros Hk. rewrite <- (list_insert_id bs k b Hk) at 1. by apply (awaited_insert bs k b). Qed.
Lemma awaited_snoc bs b : awaited (bs ++ [b]) = awaited bs ++ pending_of b.
Proof. unfold awaited. rewrite fmap_app, concat_app. cbn. by rewrite app_nil_r. Qed.
(** Only the ids that are waited for count. *)
Lemma ConfigOk_batches s bs bs' l :
  ConfigOk (MkConfig s bs l) → awaited bs' ≡ₚ awaited bs → Forall batch_ok bs' → ConfigOk (MkConfig s bs' l).
Proof.
  intros [Hs _ Hn Ha] Hp Hb. unfold unsettled in *. cbn [sess batches lost] in *. split; cbn [sess batches lost]; unfold unsettled; cbn [sess batches lost].
  - by rewrite (list_to_set_perm_L _ _ Hp).
  - done.
  - by rewrite Hp.
  - intros w. rewrite Hp. apply Ha.
Qed.
Lemma awaited_lt c w : ConfigOk c → w ∈ awaited (batches c) → (0 < w < next_id_ (ctx_ (sess c)))%N.
Proof.
  intros Hc Hw. destruct (co_apart _ Hc w Hw) as [Hz _].
  destruct (SafeS_id _ _ w (co_safe _ Hc)) as [? _]; [right; apply elem_of_union; left; by apply elem_of_list_to_set|]. lia.
Qed.

(** Adding to a batch. *)
Lemma step_add_ok c k b owner bits v b' s' :
  ConfigOk c → batches c !! k = Some b → batch_add checks me owner bits b (sess c) = Ret (v, b', s') →
  ConfigOk (MkConfig s' (<[k:=b']> (batches c)) (lost c)) ∧ extends (sess c) s'.
Proof.
  intros Hc Hk He. pose proof Hc as [Hs Hb Hn Ha]. pose proof (batch_add_ok _ owner bits b (sess c) Hs) as Hw. rewrite He in Hw.
  destruct Hw as (Hf & -> & -> & Hs' & Hext & Hback). set (ids := range _ _) in *.
  destruct (proj1 (Forall_lookup _ _) Hb k b Hk) as [Ho Hbi].
  assert (∀ w, w ∈ ids → next_id_ (ctx_ (sess c)) ≤ w)%N as Hge by (intros w Hw%elem_of_range; lia).
  assert (awaited (<[k:=MkBatch (owners_ b ++ [owner]) (bits_ b ++ [bits]) (ids_ b ++ [ids]) false]> (batches c)) ≡ₚ
    ids ++ awaited (batches c)) as Hp.
  { rewrite (awaited_insert _ _ _ _ Hk), (awaited_lookup _ _ _ Hk). unfold pending_of. cbn [finished_ ids_]. rewrite Hf.
    rewrite concat_app. cbn [concat]. rewrite app_nil_r, <- app_assoc. apply Permutation_app_swap_app. }
  split; [|done]. split; unfold unsettled; cbn [sess batches lost].
  - rewrite (list_to_set_perm_L _ _ Hp), list_to_set_app_L, <- union_assoc_L. exact Hs'.
  - apply Forall_insert; [done|]. split; cbn [owners_ bits_ ids_]; [rewrite !length_app; cbn; lia|].
    apply Forall2_app; [done|]. constructor; [|done]. unfold ids. rewrite range_length. unfold vlen. lia.
  - rewrite Hp. apply NoDup_app. split; [apply NoDup_range|]. split; [|done].
    intros w Hw%Hge Hw'%(awaited_lt c w Hc). lia.
  - intros w. rewrite Hp, elem_of_app. intros [Hw|Hw]; [|by apply Ha]. apply Hge in Hw.
    pose proof (inv_next _ _ (SafeS_Inv _ _ Hs)). split; [lia|]. intros Hl.
    destruct (SafeS_id _ _ w Hs) as [? _]; [right; by apply elem_of_union_r|]. lia.
Qed.

(** Bits that are there stay when more become known. *)
Lemma env_mono M gs (car car' : gmap N bool) :
  chunk_wf M gs → (∀ w, w ∈ out <$> gs → car !! w = None) → car ⊆ car' → chunk_env gs car ⊆ chunk_env gs car'.
Proof.
  intros Hwf Hd Hc. apply map_subseteq_spec.
  assert (∀ don todo, gs = don ++ todo → ∀ w b, chunk_env don car !! w = Some b → chunk_env don car' !! w = Some b) as H.
  2:{ intros w b. apply (H gs []). by rewrite app_nil_r. }
  induction don as [|g don IH] using rev_ind; intros todo Hg w b; [by apply map_subseteq_spec|].
  rewrite <- app_assoc in Hg. cbn [app] in Hg. specialize (IH _ Hg). rewrite !chunk_env_app. cbn [chunk_env foldl].
  change (foldl chunk_step ?e don) with (chunk_env don e).
  destruct (decide (w = out g)) as [->|Hne]; [|rewrite !chunk_step_ne by done; apply IH]. unfold chunk_step.
  assert (chunk_env don car !! out g = None) as Hn.
  { rewrite chunk_env_frame; [apply Hd; rewrite Hg; set_solver|by eapply cw_fresh]. }
  destruct (gate_val (chunk_env don car) g) as [v|] eqn:Hv; [|congruence].
  rewrite (gate_val_reads (chunk_env don car) (chunk_env don car') g), Hv by
    (intros r Hr; destruct (chunk_env don car !! r) eqn:He; [by apply IH|by rewrite (gate_val_None _ g r Hr He) in Hv]).
  by rewrite !lookup_insert_eq.
Qed.

(** Finishing a batch: its ids get exactly its bits. *)
Lemma batch_finish_ok c k b :
  ConfigOk c → batches c !! k = Some b →
  owp (λ msg, back_err msg ∨ finished_ b = true) (batch_finish b (sess c)) (λ '(b', s'),
    ConfigOk (MkConfig s' (<[k:=b']> (batches c)) (lost c)) ∧ ctx_ s' = ctx_ (sess c) ∧
    mapM (meaning s') (concat (ids_ b)) = Some (concat (bits_ b)) ∧
    ∀ w, is_Some (meaning (sess c) w) → meaning s' w = meaning (sess c) w).
Proof.
  intros Hc Hk. pose proof Hc as [Hs Hb Hn Ha]. destruct (proj1 (Forall_lookup _ _) Hb k b Hk) as [Ho Hbi].
  unfold batch_finish. destruct (finished_ b) eqn:Hf; [by right|]. cbn [negb expecting mbind outcome_bind]. apply owp_bind.
  eapply owp_mono; [eapply owp_err_mono; [by apply batch_authenticate_law|by left]|]. intros d Hcar. cbn [owp].
  pose proof (awaited_lookup _ _ _ Hk) as Hp. pose proof (awaited_insert _ k b (MkBatch (owners_ b) (bits_ b) (ids_ b) true) Hk) as Hp'.
  unfold pending_of at 1 in Hp. rewrite Hf in Hp. cbn [app pending_of finished_] in Hp'. rewrite Hp in Hn.
  apply NoDup_app in Hn as (Hni & Hdis & Hnr). rewrite (bind_all _ _ _ Hni Hbi) in Hcar.
  assert (length (concat (bits_ b)) = length (concat (ids_ b))) as Hl.
  { clear -Hbi. induction Hbi; [done|]. cbn [concat]. rewrite !length_app. congruence. }
  assert (∀ w, w ∈ concat (ids_ b) → w ∈ awaited (batches c)) as Hin by (intros w ?; rewrite Hp; set_solver).
  assert (∀ w, w ∈ concat (ids_ b) → carried (back_ (sess c)) !! w = None) as Hno.
  { intros w Hw. apply (ss_none _ _ Hs). right. apply elem_of_union_l, elem_of_list_to_set. auto. }
  assert (carried (back_ (sess c)) ⊆ carried d) as Hsub.
  { apply map_subseteq_spec. intros w x Hw. rewrite Hcar.
    destruct (bind_ids_lookup _ _ (carried (back_ (sess c))) w Hni Hl) as [[_ ->]|(i & y & Hi & _)]; [done|].
    apply list_elem_of_lookup_2, Hno in Hi. congruence. }
  split; [split; unfold unsettled; cbn [sess batches lost]|split; [done|split]].
  - rewrite (list_to_set_perm_L _ _ Hp'). split; [| |apply Hs].
    + eapply Safe_dom; [|apply (ss_safe _ _ Hs)]. intros w. unfold unsettled.
      rewrite !covered_Some, (list_to_set_perm_L _ _ Hp). cbn. rewrite Hcar, bind_ids_Some by done. set_solver.
    + intros w Hw. cbn. rewrite Hcar.
      destruct (bind_ids_lookup _ _ (carried (back_ (sess c))) w Hni Hl) as [[_ ->]|(i & y & Hi & _)].
      * apply (ss_none _ _ Hs). unfold unsettled. rewrite (list_to_set_perm_L _ _ Hp). set_solver.
      * apply list_elem_of_lookup_2 in Hi. exfalso. destruct (Ha w) as [? ?]; [by apply Hin|]. specialize (Hdis w Hi). set_solver.
  - apply Forall_insert; [done|]. by split.
  - by rewrite Hp'.
  - intros w. rewrite Hp'. intros Hw. apply Ha. rewrite Hp. set_solver.
  - rewrite <- (bind_ids_mapM _ _ (carried (back_ (sess c))) Hni Hl). apply mapM_agree. intros w Hw.
    unfold meaning, val. cbn. rewrite Hcar. apply chunk_env_frame. apply (SafeS_id _ _ w Hs). right.
    apply elem_of_union_l, elem_of_list_to_set. auto.
  - intros w [x Hx]. rewrite Hx. revert Hx. unfold meaning, val. cbn [back_ ctx_ set_back]. apply map_subseteq_spec.
    eapply env_mono; [apply (SafeS_Inv _ _ Hs)|by apply (Inv_disjoint _ _ (SafeS_Inv _ _ Hs))|done].
Qed.

(** ** Client steps

    What a program can do with a session: feed inputs at once or through batches it
    fills, moves and finishes, run gates on wires it holds, copy and destroy handles,
    reveal and checkpoint with any values named to keep, and replay compiled circuits
    and raw programs. *)
Inductive step (c : Config) : Config → Prop :=
  | step_input owner bits v s' :
      input checks me owner bits (sess c) = Ret (v, s') → step c (with_sess s' c)
  | step_batch : step c (MkConfig (sess c) (batches c ++ [input_batch]) (lost c))
  | step_batch_add k b owner bits v b' s' : batches c !! k = Some b →
      batch_add checks me owner bits b (sess c) = Ret (v, b', s') → step c (MkConfig s' (<[k:=b']> (batches c)) (lost c))
  | step_batch_move k b : batches c !! k = Some b →
      step c (MkConfig (sess c) (<[k:=(batch_move b).2]> (batches c) ++ [(batch_move b).1]) (lost c))
  | step_batch_finish k b b' s' : batches c !! k = Some b →
      batch_finish b (sess c) = Ret (b', s') → step c (MkConfig s' (<[k:=b']> (batches c)) (lost c))
  | step_batch_destroy k b : batches c !! k = Some b →
      batch_destroy b = Ret tt → step c (MkConfig (sess c) (delete k (batches c)) (lost c))
  | step_public_bit b w r :
      public_bit checks b (ctx_ (sess c)) = Ret (w, r) → step c (with_sess (set_ctx r (sess c)) c)
  | step_null : step c (MkConfig (sess c) (batches c) ({[0%N]} ∪ lost c))
  | step_and a b w r : usable c a → usable c b →
      and_gate checks a b (ctx_ (sess c)) = Ret (w, r) → step c (with_sess (set_ctx r (sess c)) c)
  | step_xor a b w r : usable c a → usable c b →
      xor_gate checks a b (ctx_ (sess c)) = Ret (w, r) → step c (with_sess (set_ctx r (sess c)) c)
  | step_not a w r : usable c a →
      not_gate checks a (ctx_ (sess c)) = Ret (w, r) → step c (with_sess (set_ctx r (sess c)) c)
  | step_copy a r : in_scope (ctx_ (sess c)) a = true → a ≠ 0%N →
      chunk_pin checks a (ctx_ (sess c)) = Ret r → step c (with_sess (set_ctx r (sess c)) c)
  | step_destroy a r : in_scope (ctx_ (sess c)) a = true → a ≠ 0%N →
      chunk_unpin checks a (ctx_ (sess c)) = Ret r → step c (with_sess (set_ctx r (sess c)) c)
  | step_reveal v recipient keep res s' :
      reveal me v recipient keep (sess c) = Ret (res, s') → step c (with_sess s' c)
  | step_checkpoint keep s' : checkpoint me keep (sess c) = Ret s' →
      step c (MkConfig s' (batches c) (dropped keep (unsettled c) (sess c) ∪ lost c))
  | step_run p args v s' : wf_program p → (vlen (concat (v_ids <$> args)) < 2 ^ 32)%N →
      run checks me p args (sess c) = Ret (v, s') → step c (with_sess s' c)
  | step_run_artifact n p args v s' : wf_program p → (vlen (concat (v_ids <$> args)) < 2 ^ 32)%N →
      run_artifact checks me n p args (sess c) = Ret (v, s') → step c (with_sess s' c).

Lemma usable_denotes c a : ConfigOk c → usable c a →
  ∃ b, ChunkRecorder.wire_denotes (covered (unsettled c) (sess c)) (ctx_ (sess c)) a b.
Proof.
  intros Hc. pose proof (co_safe _ Hc) as Hs. intros [Ha|[-> Hl]]; [by apply (safe_scope _ _ (ss_safe _ _ Hs))|].
  unfold ChunkRecorder.wire_denotes, val. rewrite chunk_env_frame by (apply (SafeS_id (unsettled c)); auto).
  apply covered_Some. right. by apply elem_of_union_r.
Qed.
Lemma ConfigOk_sess c s : ConfigOk c → SafeS (unsettled c) s → ConfigOk (with_sess s c).
Proof. intros [? ? ? ?] Hs. by split. Qed.
(** One more id that is lost for good. *)
Lemma ConfigOk_null c : ConfigOk c → ConfigOk (MkConfig (sess c) (batches c) ({[0%N]} ∪ lost c)).
Proof.
  intros [Hs Hb Hn Ha]. split; unfold unsettled; cbn [sess batches lost]; try done.
  - replace (list_to_set (awaited (batches c)) ∪ ({[0%N]} ∪ lost c)) with ({[0%N]} ∪ unsettled c) by (unfold unsettled; set_solver).
    pose proof (ss_safe _ _ Hs) as [Hi Hnn Hsc]. split; [split; [|done|]| |apply Hs].
    + destruct Hi as [H1 H2 H3 H4 H5 H6 H7]. split; try done.
      intros w [Hw|[->%elem_of_singleton|Hw]%elem_of_union]%covered_Some; [|apply (SafeS_id _ _ _ Hs); by left|];
        apply H6, covered_Some; auto.
    + intros w Hw%Hsc. eapply env_defined; [|exact Hw]. intros x. rewrite !covered_Some. set_solver.
    + intros w Hw. apply (ss_none _ _ Hs). set_solver.
  - intros w Hw%Ha. set_solver.
Qed.
Lemma ConfigOk_checkpoint c keep s' :
  ConfigOk c → checkpointed keep (unsettled c) (sess c) s' →
  ConfigOk (MkConfig s' (batches c) (dropped keep (unsettled c) (sess c) ∪ lost c)).
Proof.
  intros [Hs Hb Hn Ha] (Hs' & _). split; unfold unsettled in *; cbn [sess batches lost]; try done.
  - by rewrite union_assoc_L, (union_comm_L (list_to_set _)), <- union_assoc_L.
  - intros w Hw. destruct (Ha w Hw) as [? ?]. split; [done|]. intros [Hd|]%elem_of_union; [|done].
    unfold dropped in Hd. apply elem_of_list_to_set, list_elem_of_filter in Hd as [(_ & _ & Hx) _].
    apply Hx, elem_of_union_l. by apply elem_of_list_to_set.
Qed.
(** What a step leaves of the bits: those of the wires that stay in scope and are not lost. *)
Definition keeps_bits (c c' : Config) : Prop := ∀ w,
  in_scope (ctx_ (sess c)) w = true → is_Some (meaning (sess c) w) → w ∉ lost c' →
  meaning (sess c') w = meaning (sess c) w.
Lemma extends_ok c s : ConfigOk c → SafeS (unsettled c) s → extends (sess c) s → ConfigOk (with_sess s c) ∧ keeps_bits c (with_sess s c).
Proof. intros Hc Hs [_ Hm]. split; [by apply ConfigOk_sess|]. intros w Hw Hb _. by apply Hm. Qed.
Lemma record_gate_ok c (m : ST ChunkRecorder.State N) b w r :
  ConfigOk c → m (ctx_ (sess c)) = Ret (w, r) → (vlen (chunk_gates_ r) < 2 ^ 31)%N → appends (ctx_ (sess c)) r →
  wp overflow_err m (ctx_ (sess c)) (λ w c', Safe (covered (unsettled c) (sess c)) c' ∧
    (∀ x y, ChunkRecorder.wire_denotes (covered (unsettled c) (sess c)) (ctx_ (sess c)) x y →
       ChunkRecorder.wire_denotes (covered (unsettled c) (sess c)) c' x y) ∧
    ChunkRecorder.wire_denotes (covered (unsettled c) (sess c)) c' w b) →
  ConfigOk (with_sess (set_ctx r (sess c)) c) ∧ keeps_bits c (with_sess (set_ctx r (sess c)) c).
Proof.
  intros Hc Hm Hl Ha Hw. destruct (gate_step_ok (unsettled c) (sess c) m b w r (co_safe _ Hc) Hm Hl Ha Hw) as [Hs Hk].
  split; [by apply ConfigOk_sess|]. intros x Hx _ _. by apply Hk.
Qed.
Lemma handle_ok c rc : ConfigOk c → SafeS (unsettled c) (set_ctx (set_rc rc (ctx_ (sess c))) (sess c)) →
  ConfigOk (with_sess (set_ctx (set_rc rc (ctx_ (sess c))) (sess c)) c) ∧ keeps_bits c (with_sess (set_ctx (set_rc rc (ctx_ (sess c))) (sess c)) c).
Proof. intros Hc Hs. split; [by apply ConfigOk_sess|done]. Qed.

Lemma batch_step_ok c c' :
  ConfigOk c →
  (∃ k b, batches c !! k = Some b ∧
    ((∃ owner bits v b' s', batch_add checks me owner bits b (sess c) = Ret (v, b', s') ∧ c' = MkConfig s' (<[k:=b']> (batches c)) (lost c)) ∨
     c' = MkConfig (sess c) (<[k:=(batch_move b).2]> (batches c) ++ [(batch_move b).1]) (lost c) ∨
     (∃ b' s', batch_finish b (sess c) = Ret (b', s') ∧ c' = MkConfig s' (<[k:=b']> (batches c)) (lost c)) ∨
     (batch_destroy b = Ret tt ∧ c' = MkConfig (sess c) (delete k (batches c)) (lost c)))) →
  ConfigOk c' ∧ keeps_bits c c'.
Proof.
  intros Hc (k & b & Hk & Hst). pose proof (proj1 (Forall_lookup _ _) (co_batches _ Hc) k b Hk) as Hb.
  assert (c = MkConfig (sess c) (batches c) (lost c)) as Heta by by destruct c.
  destruct Hst as [(owner & bits & v & b' & s' & He & ->)|[->|[(b' & s' & He & ->)|[Hd ->]]]].
  - destruct (step_add_ok c k b owner bits v b' s' Hc Hk He) as [? [_ Hm]]. split; [done|]. intros w Hw Hx _. by apply Hm.
  - split; [|done]. eapply ConfigOk_batches; [by rewrite <- Heta| |].
    + rewrite awaited_snoc, (awaited_insert _ _ _ _ Hk), (awaited_lookup _ _ _ Hk). cbn. by rewrite Permutation_app_comm.
    + apply Forall_app. split; [apply Forall_insert; [apply Hc|by split]|by constructor].
  - pose proof (batch_finish_ok c k b Hc Hk) as Hf. rewrite He in Hf. destruct Hf as (? & _ & _ & Hm).
    split; [done|]. intros w _ Hx _. by apply Hm.
  - split; [|done]. eapply ConfigOk_batches; [by rewrite <- Heta| |by apply Forall_delete, Hc].
    rewrite (awaited_lookup _ _ _ Hk). unfold batch_destroy in Hd. apply expecting_Ret, orb_true_iff in Hd.
    assert (pending_of b = []) as ->; [|done]. unfold pending_of. destruct (finished_ b); [done|].
    destruct Hd as [|Ho]; [done|]. destruct Hb as [Hl Hf]. destruct (owners_ b); [|done].
    destruct (bits_ b); [|done]. by inversion Hf.
Qed.

Lemma step_ok c c' :
  ConfigOk c → step c c' → (vlen (chunk_gates_ (ctx_ (sess c'))) < 2 ^ 31)%N → ConfigOk c' ∧ keeps_bits c c'.
Proof.
  intros Hc Hst Hl. pose proof (co_safe _ Hc) as Hs.
  pose (L := ChunkRecorder.lawful checks (covered (unsettled c) (sess c))).
  destruct Hst as [owner bits v s' H| |k b owner bits v b' s' Hk H|k b Hk|k b b' s' Hk H|k b Hk H|b w r H|
    |a b w r Ha Hb H|a b w r Ha Hb H|a w r Ha H|a r Ha Hz H|a r Ha Hz H|v recipient keep res s' H|keep s' H|p args v s' Hwf Hu H|n p args v s' Hwf Hu H];
    cbn [sess with_sess ctx_ set_ctx] in Hl.
  - pose proof (input_ok _ owner bits _ Hs) as Hw. rewrite H in Hw. destruct Hw as (? & ? & _). by apply extends_ok.
  - split; [|done]. apply (ConfigOk_batches _ (batches c)); [by destruct c| |].
    + by rewrite awaited_snoc, app_nil_r.
    + apply Forall_app. split; [apply Hc|]. by repeat constructor.
  - apply batch_step_ok; [done|]. exists k, b. split; [done|]. left. eauto 10.
  - apply batch_step_ok; [done|]. exists k, b. split; [done|]. by right; left.
  - apply batch_step_ok; [done|]. exists k, b. split; [done|]. right; right; left. eauto.
  - apply batch_step_ok; [done|]. exists k, b. split; [done|]. by right; right; right.
  - eapply record_gate_ok; [done|exact H|done|by eapply public_bit_appends|]. apply (public_bit_law (LawfulContext := L)), Hs.
  - split; [by apply ConfigOk_null|done].
  - destruct (usable_denotes c a Hc Ha) as [x Hx], (usable_denotes c b Hc Hb) as [y Hy].
    eapply record_gate_ok; [done|exact H|done|by apply (gate_appends (λ o, MkGate a b o And) [a; b] _ w)|].
    by apply (and_gate_law (LawfulContext := L) _ _ _ x y); [apply Hs|..].
  - destruct (usable_denotes c a Hc Ha) as [x Hx], (usable_denotes c b Hc Hb) as [y Hy].
    eapply record_gate_ok; [done|exact H|done|by apply (gate_appends (λ o, MkGate a b o Xor) [a; b] _ w)|].
    by apply (xor_gate_law (LawfulContext := L) _ _ _ x y); [apply Hs|..].
  - destruct (usable_denotes c a Hc Ha) as [x Hx].
    eapply record_gate_ok; [done|exact H|done|by apply (gate_appends (λ o, MkGate a 0 o Not) [a] _ w)|].
    by apply (not_gate_law (LawfulContext := L) _ _ x); [apply Hs|..].
  - destruct (copy_ok _ _ a Hs Ha Hz) as (rc & Hp & Hs'). rewrite H in Hp. injection Hp as ->. by apply handle_ok.
  - destruct (destroy_ok _ _ a Hs Ha Hz) as (rc & Hp & Hs'). rewrite H in Hp. injection Hp as ->. by apply handle_ok.
  - pose proof (reveal_ok _ v recipient keep _ Hs) as Hw. rewrite H in Hw. destruct Hw as (? & ? & _). by apply extends_ok.
  - pose proof (checkpoint_ok _ keep _ Hs) as Hw. rewrite H in Hw. split; [by apply ConfigOk_checkpoint|].
    destruct Hw as (_ & _ & _ & _ & Hm). intros w Hw [x Hx] Hno. cbn [lost sess] in *. rewrite Hm.
    destruct (checkpoint_keeps keep (sess c) w) eqn:Hkw; [done|]. destruct Hno. apply elem_of_union_l.
    apply elem_of_list_to_set, list_elem_of_filter. split; [split; [done|split; [done|]]|].
    + intros Hu. by rewrite (SafeS_none _ _ w Hs) in Hx by auto.
    + apply elem_of_range. pose proof (scope_lt _ _ w Hs Hw). lia.
  - pose proof (session_run_ok _ p args _ Hs Hwf Hu) as Hw. rewrite H in Hw. destruct Hw as (? & ? & _). by apply extends_ok.
  - pose proof (run_artifact_ok _ n p args _ Hs Hwf Hu) as Hw. rewrite H in Hw. destruct Hw as (? & ? & _). by apply extends_ok.
Qed.
End correct.
Arguments Config D : clear implicits.

(** ** Properties *)
Section properties.
Context {D : Type} {HB : Backend D} {HL : LawfulBackend D} (checks : bool) (me : N).
Import ChunkRecorder ChunkedSession.

(** A fresh session over a back end in state [d]. *)
Definition fresh_session (d : D) : outcome (ChunkedSession.State D) :=
  c ← construct false; Ret (ChunkedSession.MkState c d 0).
(** Steps whose pending chunk fits an [int]. *)
Definition bounded_step (c c' : Config D) : Prop :=
  step checks me c c' ∧ (vlen (chunk_gates_ (ctx_ (sess c'))) < 2 ^ 31)%N.
Definition reachable (c : Config D) : Prop :=
  ∃ d s0, carried d = ∅ ∧ fresh_session d = Ret s0 ∧ rtc bounded_step (MkConfig s0 [] ∅) c.

Lemma fresh_ok d s : carried d = ∅ → fresh_session d = Ret s → ConfigOk (MkConfig s [] ∅).
Proof.
  intros Hd [= <-]. assert (∀ w, in_scope (ChunkRecorder.MkState [0%Z] 1 [] ∅ None None) w = false) as Hsc.
  { intros w. unfold in_scope. cbn. destruct ([0%Z] !! N.to_nat w) as [k|] eqn:Hk; [|done].
    by apply list_lookup_singleton_Some in Hk as [_ <-]. }
  split; [|done|by constructor|by intros w ?%elem_of_nil]. unfold unsettled. cbn [sess batches lost].
  split; [split| |done].
  - split; cbn; try done; [split; [by intros [|]|by intros [|]|by intros g ?%elem_of_nil]|
      by intros g ?%elem_of_nil|intros w; set_solver|].
    intros w [Hw|Hw]%covered_Some; [cbn in Hw; rewrite Hd, lookup_empty in Hw; by destruct Hw|set_solver].
  - intros w k Hk. cbn in Hk. by apply list_lookup_singleton_Some in Hk as [_ <-].
  - intros w Hw. cbn [ctx_] in Hw. by rewrite Hsc in Hw.
  - intros w _. cbn. by rewrite Hd, lookup_empty.
Qed.
Lemma reachable_ok c : reachable c → ConfigOk c.
Proof.
  intros (d & s0 & Hd & H0 & Hr). pose proof (fresh_ok d s0 Hd H0) as Hc. clear -Hr Hc.
  induction Hr as [c|c1 c2 c3 [Hst Hl] _ IH]; [done|]. apply IH. by apply (step_ok checks me c1 c2).
Qed.
Lemma step_lost c c' w :
  step checks me c c' → w ∈ lost c' → w ∈ lost c ∨ w = 0%N ∨
    (in_scope (ctx_ (sess c)) w = true ∧ ∃ keep s', checkpoint me keep (sess c) = Ret s' ∧ keep ≠ [] ∧ w ∉ concat (v_ids <$> keep)).
Proof.
  intros Hst Hw. destruct Hst; cbn [lost with_sess] in Hw; try by left.
  - apply elem_of_union in Hw as [->%elem_of_singleton|]; auto.
  - apply elem_of_union in Hw as [Hw|]; [|by left]. right. right. unfold dropped in Hw.
    apply elem_of_list_to_set, list_elem_of_filter in Hw as [(Hs & Hk & _) _]. split; [done|]. exists keep, s'.
    split; [done|]. unfold checkpoint_keeps in Hk. destruct keep; [congruence|]. split; [done|]. by apply bool_decide_eq_false in Hk.
Qed.
End properties.

(** C6: scope-tracked liveness is sound.  Take a client over any lawful back end that
    feeds inputs at once or by batches it adds to, moves and finishes as it likes,
    applies gates to the wires it holds (null ones included), copies and destroys
    handles, reveals and checkpoints, with or without values to keep, and replays
    circuits.  In every state it can reach no handle count is negative, and a wire in
    scope is without a bit exactly when it comes, through pending gates, from an id with
    none: an input of a batch not finished yet, the null id, or a wire that an earlier
    checkpoint with a list of values dropped although in scope.  Pending and carried ids
    are disjoint.  Finishing a batch gives its inputs exactly the bits added and changes
    no bit there is, and fails only for the back end or when done twice.  Every further
    step leaves the bit of each wire in scope unchanged, except where a checkpoint that
    names other values drops it. *)
Theorem session_invariant {D} {HB : Backend D} {HL : LawfulBackend D} checks me (c : Config D) :
  reachable checks me c → let s := sess c in
  (∀ w k, ChunkRecorder.rc_ (ChunkedSession.ctx_ s) !! N.to_nat w = Some k → (0 ≤ k)%Z) ∧
  (∀ w, ChunkRecorder.in_scope (ChunkedSession.ctx_ s) w = true →
     meaning s w = None ↔ waits (ChunkRecorder.chunk_gates_ (ChunkedSession.ctx_ s)) (unsettled c) w) ∧
  (∀ w, w ∈ unsettled c → meaning s w = None) ∧
  (∀ w, w ∈ ChunkRecorder.pending_ (ChunkedSession.ctx_ s) → carried (ChunkedSession.back_ s) !! w = None) ∧
  (∀ k b, batches c !! k = Some b →
     owp (λ msg, back_err msg ∨ ChunkedSession.finished_ b = true) (ChunkedSession.batch_finish b s) (λ '(_, s'),
       mapM (meaning s') (concat (ChunkedSession.ids_ b)) = Some (concat (ChunkedSession.bits_ b)) ∧
       ∀ w, is_Some (meaning s w) → meaning s' w = meaning s w)) ∧
  ∀ c', bounded_step checks me c c' →
    (∀ w, ChunkRecorder.in_scope (ChunkedSession.ctx_ s) w = true → is_Some (meaning s w) → w ∉ lost c' →
       meaning (sess c') w = meaning s w) ∧
    ∀ w, w ∈ lost c' → w ∈ lost c ∨ w = 0%N ∨ (ChunkRecorder.in_scope (ChunkedSession.ctx_ s) w = true ∧
      ∃ keep s', ChunkedSession.checkpoint me keep s = Ret s' ∧ keep ≠ [] ∧ w ∉ concat (ChunkedSession.v_ids <$> keep)).
Proof.
  intros Hr s. pose proof (reachable_ok checks me c Hr) as Hc. pose proof (co_safe _ Hc) as Hs.
  split; [apply (ss_safe _ _ Hs)|]. split; [intros w; by apply scope_waits|].
  split; [intros w Hw; apply (SafeS_none _ _ _ Hs); by right|]. split; [|split].
  - intros w Hw. apply (ChunkRecorder.Inv_disjoint _ _ (SafeS_Inv _ _ Hs)). by apply (ChunkRecorder.inv_pending _ _ (SafeS_Inv _ _ Hs)).
  - intros k b Hk. eapply owp_mono; [by eapply batch_finish_ok|]. by intros [b' s'] (_ & _ & ? & ?).
  - intros c' [Hst Hl]. split; [|intros w; by apply (step_lost checks)]. by destruct (step_ok checks me c c' Hc Hst Hl).
Qed.

(** C7: a session reveals what its wires mean.  In every state a client can reach, with
    or without values to keep, a reveal settles the pending wires in scope, the value and
    the values kept, each with its bit, and leaves the bits of every wire in scope; a
    recipient that learns the value gets exactly its bits and the others nothing.  It
    fails only where the back end or the id space does, for a value of another session, or
    as stale when one of those wires has no bit, and then it never returns.  A
    checkpoint likewise leaves nothing pending, and exactly the wires kept keep a bit,
    theirs: those in scope, or where values are named those of the values. *)
Theorem session_reveal_correct {D} {HB : Backend D} {HL : LawfulBackend D} checks me (c : Config D) v recipient keep :
  reachable checks me c → let s := sess c in
  owp (wire_err me s (v :: keep) (reveal_ids v keep s)) (ChunkedSession.reveal me v recipient keep s) (λ '(res, s'),
    (∃ bits, mapM (meaning s) (ChunkedSession.v_ids v) = Some bits ∧
      (ChunkedSession.v_ids v ≠ [] → res = if learns recipient then Some bits else None)) ∧
    ChunkRecorder.chunk_gates_ (ChunkedSession.ctx_ s') = [] ∧
    (∀ w, w ∈ reveal_ids v keep s → is_Some (meaning s w) ∧ meaning s' w = meaning s w) ∧
    ∀ w, ChunkRecorder.in_scope (ChunkedSession.ctx_ s) w = true → is_Some (meaning s w) → meaning s' w = meaning s w) ∧
  owp (wire_err me s keep (checkpoint_ids keep s)) (ChunkedSession.checkpoint me keep s) (λ s',
    ChunkRecorder.chunk_gates_ (ChunkedSession.ctx_ s') = [] ∧
    (∀ w, w ∈ checkpoint_ids keep s → is_Some (meaning s w)) ∧
    ∀ w, meaning s' w = if checkpoint_keeps keep s w then meaning s w else None).
Proof.
  intros Hr s. pose proof (co_safe _ (reachable_ok checks me c Hr)) as Hs. split.
  - eapply owp_mono; [by apply (reveal_ok me (unsettled c))|]. by intros [res s'] (_ & [_ ?] & ? & ? & ?).
  - eapply owp_mono; [by apply (checkpoint_ok me (unsettled c))|]. by intros s' (_ & _ & ? & ? & ?).
Qed.

(** stale wires are always detected.  With an explicit keep list, a flush
    that returns has given every kept wire its bit and changed no carried bit;
    if some kept wire has no bit (it was dropped by an earlier checkpoint, or
    depends on one that was), the flush ends the process with the stale-wire
    diagnostic or a back-end error, and never runs a program on it. *)
Theorem flush_exact {D} {HB : Backend D} {HL : LawfulBackend D} keep (s : ChunkedSession.State D) :
  SInv s →
  match ChunkedSession.flush_ keep s with
  | Ret s' => (∀ w, w ∈ keep → is_Some (meaning s w) ∧ meaning s' w = meaning s w) ∧
      ∀ w, is_Some (carried (ChunkedSession.back_ s) !! w) → meaning s' w = meaning s w
  | Fatal msg => back_err msg ∨ (stale_err msg ∧ ∃ w, w ∈ keep ∧ meaning s w = None)
  | Undef => False
  end.
Proof.
  intros Hs. pose proof (flush_ok keep s Hs) as Hf. unfold owp in Hf.
  destruct (ChunkedSession.flush_ keep s) as [s'| |]; [|done..].
  destruct Hf as (_ & _ & _ & Hd & Hm & _). split; [|auto]. auto.
Qed.

(** *** The ideal back end: carried bits in the clear *)
Abbreviation Ideal := (gmap N bool).
Definition ideal_gather (ids : list N) (d : Ideal) : outcome (list bool) :=
  match mapM (d !!.) ids with Some bs => Ret bs | None => Undef end.
#[export] Instance ideal_backend : Backend Ideal := {
  authenticate_into_ _ bits ids d := Ret (bind_ids ids bits d);
  batch_authenticate_into_ _ bs il d := Ret (foldl (λ m '(i, b), bind_ids i b m) d (zip il bs));
  run_program_into_ p ii oi d :=
    ins ← ideal_gather ii d;
    match eval_program p ins with Some outs => Ret (bind_ids oi outs d) | None => Undef end;
  decode_ ids r d := bs ← ideal_gather ids d; Ret (if (0 <=? r)%Z then bs else [], d);
  validate_recipient_ r _ := expecting (-1 <=? r)%Z "reveal: bad recipient";
  is_materialized_ d w := bool_decide (is_Some (d !! w));
  prune_carried_ keep d := Ret (filter (λ '(w, _), keep w = true) d);
  materialize_deferred_inputs_ d := Ret d;
  kCountsAndsInternally := false }.
#[export] Program Instance ideal_lawful : LawfulBackend Ideal := {
  carried d := d; settled _ := True; learns r := (0 <=? r)%Z;
  back_err msg := msg = "reveal: bad recipient" }.
Next Obligation. done. Qed.
Next Obligation. done. Qed.
Next Obligation. intros p ii oi d ins outs _ _ Hi He _. simpl. unfold ideal_gather. rewrite Hi. simpl. by rewrite He. Qed.
Next Obligation. intros ids r d bits _ Hb. simpl. unfold ideal_gather. by rewrite Hb. Qed.
Next Obligation. intros r d. simpl. by destruct (-1 <=? r)%Z. Qed.
Next Obligation. intros d w _. apply bool_decide_eq_true. Qed.
Next Obligation.
  intros keep d _. simpl. split; [done|]. intros w. rewrite map_lookup_filter.
  destruct (d !! w); simpl; [|by destruct (keep w)]. destruct (keep w) eqn:Hk; case_guard; simpl; congruence.
Qed.
Next Obligation. done. Qed.

(** A client that feeds two bits, opens a batch with one more and records a gate on it. *)
Definition client_sample : outcome (Config Ideal) :=
  s ← fresh_session ∅;
  '(_, s) ← ChunkedSession.input true 7 1 [true; false] s;
  '(_, b, s) ← ChunkedSession.batch_add true 7 2 [true] ChunkedSession.input_batch s;
  '(_, r) ← ChunkRecorder.and_gate true 1 3 (ChunkedSession.ctx_ s);
  Ret (MkConfig (ChunkedSession.set_ctx r s) [b] ∅).
(** And finishes the batch. *)
Definition finished_sample : outcome (Config Ideal) :=
  c ← client_sample;
  match batches c with
  | [b] => '(b, s) ← ChunkedSession.batch_finish b (sess c); Ret (MkConfig s [b] ∅)
  | _ => Undef
  end.
Lemma client_sample_reachable c : client_sample = Ret c → reachable true 7 c.
Proof.
  unfold client_sample. intros (s0 & H0 & H)%bind_Ret. exists ∅, s0. split; [done|]. split; [done|].
  apply bind_Ret in H as ([v s1] & H1 & H). apply bind_Ret in H as ([[v' b] s2] & H2 & H).
  apply bind_Ret in H as ([w r] & H3 & H). injection H as <-. injection H0 as <-.
  pose proof (step_input true 7 (MkConfig _ [] ∅) _ _ _ _ H1) as S1.
  pose proof (step_batch (D := Ideal) true 7 (MkConfig s1 [] ∅)) as S2.
  pose proof (step_batch_add true 7 (MkConfig s1 [ChunkedSession.input_batch] ∅) 0 _ _ _ _ _ _ eq_refl H2) as S3.
  pose proof (λ Ha Hb, step_and true 7 (MkConfig s2 [b] ∅) 1 3 w r Ha Hb H3) as S4.
  vm_compute in H1. injection H1 as <- <-. pose proof H2 as E2. vm_compute in E2. injection E2 as <- <- <-.
  specialize (S4 (or_introl eq_refl) (or_introl eq_refl)).
  vm_compute in H3. injection H3 as <- <-.
  eapply rtc_l; [split; [exact S1|done]|]. eapply rtc_l; [split; [exact S2|done]|].
  eapply rtc_l; [split; [exact S3|done]|]. apply rtc_once. by split.
Qed.
Lemma finished_sample_reachable c : finished_sample = Ret c → reachable true 7 c.
Proof.
  unfold finished_sample. intros (c0 & H0 & H)%bind_Ret. pose proof (client_sample_reachable c0 H0) as (d & s & Hd & Hs & Hr).
  exists d, s. split; [done|]. split; [done|]. etrans; [exact Hr|]. destruct (batches c0) as [|b [|]] eqn:Hb; [done| |done].
  apply bind_Ret in H as ([b' s'] & Hf & [= <-]). assert (lost c0 = ∅) as Hl by (vm_compute in H0; by injection H0 as <-).
  apply rtc_once. split.
  - replace [b'] with (<[0%nat:=b']> (batches c0)) by by rewrite Hb. rewrite <- Hl.
    by eapply (step_batch_finish _ _ _ 0); [rewrite Hb|].
  - vm_compute in H0. injection H0 as <-. injection Hb as <-. vm_compute in Hf. by injection Hf as _ <-.
Qed.
Lemma session_invariant_witness :
  ∃ c, client_sample = Ret c ∧ meaning (sess c) 1 = Some true ∧
    waits (ChunkRecorder.chunk_gates_ (ChunkedSession.ctx_ (sess c))) (unsettled c) 4.
Proof.
  destruct client_sample as [c| |] eqn:Hc; [|vm_compute in Hc; discriminate Hc..]. exists c. split; [reflexivity|].
  destruct (session_invariant true 7 c (client_sample_reachable c Hc)) as (_ & H & _).
  split; [vm_compute in Hc; injection Hc as <-; vm_compute; reflexivity|].
  apply H; vm_compute in Hc; injection Hc as <-; vm_compute; reflexivity.
Defined.
Lemma session_reveal_correct_witness :
  ∃ c, finished_sample = Ret c ∧
    match ChunkedSession.reveal 7 (ChunkedSession.MkValue 7 [4%N]) 0 [] (sess c) with
    | Ret (res, _) => res = Some [true] | _ => False end.
Proof.
  destruct finished_sample as [c| |] eqn:Hc; [|vm_compute in Hc; discriminate Hc..]. exists c. split; [reflexivity|].
  pose proof (session_reveal_correct true 7 c (ChunkedSession.MkValue 7 [4%N]) 0 [] (finished_sample_reachable c Hc)) as [H _].
  vm_compute in Hc. injection Hc as <-. unfold owp in H.
  destruct (ChunkedSession.reveal _ _ _ _ _) as [[res s']| |] eqn:He; [|vm_compute in He; discriminate He..].
  destruct H as ((bits & Hb & Hr) & _). vm_compute in Hb. injection Hb as <-. rewrite Hr; [reflexivity|discriminate].
Defined.
Lemma flush_exact_witness :
  ∃ c, client_sample = Ret c ∧ ∀ s', ChunkedSession.flush_ [4%N] (sess c) ≠ Ret s'.
Proof.
  destruct client_sample as [c| |] eqn:Hc; [|vm_compute in Hc; discriminate Hc..]. exists c. split; [reflexivity|].
  pose proof (flush_exact [4%N] (sess c) (SafeS_SInv _ _ (co_safe _ (reachable_ok true 7 c (client_sample_reachable c Hc))))) as H.
  intros s' Heq. rewrite Heq in H. destruct H as [H _].
  destruct (H 4%N) as [[b Hb] _]; [apply list_elem_of_singleton; reflexivity|].
  vm_compute in Hc. injection Hc as <-. vm_compute in Hb. discriminate Hb.
Defined.
