(* ===== verification/Handles.v ===== *)
(** * Wire handles (ir/session/chunk_recorder.h)

    [ChunkWire] is the C++ object a value of a session holds: four bytes of wire id,
    whose constructors, assignments and destructor keep the recorder's count table.
    Here the objects live at addresses, with what aliasing that allows (an object
    assigned to itself, or moved from and used again), next to the recorder of
    [Session]; and the counts are compared with the objects there are. *)

From S2P Require Import Prelude Program Execute Kernel Transform FlushPlan Session.

Module ChunkWire.
Import ChunkRecorder.
(** The live objects with their [id], and the active recorder. *)
Record Heap := MkHeap { objs : gmap N N; rec_ : State }.

Section ops.
Context (checks : bool).
(** The id of a live object; a place where an object may be made. *)
Definition id_ (a : N) (h : Heap) : outcome N :=
  match objs h !! a with Some i => Ret i | None => Undef end.
Definition vacant (a : N) (h : Heap) : outcome unit :=
  match objs h !! a with Some _ => Undef | None => Ret tt end.
Definition put (a i : N) (h : Heap) : Heap := MkHeap (<[a := i]> (objs h)) (rec_ h).
Definition pin (i : N) (h : Heap) : outcome Heap := s ← chunk_pin checks i (rec_ h); Ret (MkHeap (objs h) s).
Definition unpin (i : N) (h : Heap) : outcome Heap := s ← chunk_unpin checks i (rec_ h); Ret (MkHeap (objs h) s).

Definition new_null (a : N) (h : Heap) : outcome Heap := vacant a h;; Ret (put a 0 h).
Definition new_id (a i : N) (h : Heap) : outcome Heap := vacant a h;; pin i (put a i h).
Definition new_copy (a o : N) (h : Heap) : outcome Heap := vacant a h;; i ← id_ o h; pin i (put a i h).
Definition new_move (a o : N) (h : Heap) : outcome Heap := vacant a h;; i ← id_ o h; Ret (put o 0 (put a i h)).
Definition assign_copy (a o : N) (h : Heap) : outcome Heap :=
  i ← id_ a h; j ← id_ o h;
  if negb (i =? j)%N then h ← unpin i h; j ← id_ o h; let h := put a j h in pin j h else Ret h.
Definition assign_move (a o : N) (h : Heap) : outcome Heap :=
  i ← id_ a h; id_ o h;;
  if negb (a =? o)%N then h ← unpin i h; j ← id_ o h; Ret (put o 0 (put a j h)) else Ret h.
Definition destruct_ (a : N) (h : Heap) : outcome Heap :=
  i ← id_ a h; h ← unpin i h; Ret (MkHeap (delete a (objs h)) (rec_ h)).
(** A call that returns a wire: the object is made in the caller's place. *)
Definition result (a : N) (m : ST State N) (h : Heap) : outcome Heap :=
  vacant a h;; '(o, s) ← m (rec_ h); Ret (put a o (MkHeap (objs h) s)).

Inductive op :=
  | NewNull (a : N) | NewId (a i : N) | NewCopy (a o : N) | NewMove (a o : N)
  | AssignCopy (a o : N) | AssignMove (a o : N) | Destruct (a : N)
  | PublicBit (a : N) (v : bool) | AndGate (a x y : N) | XorGate (a x y : N) | NotGate (a x : N)
  | ReserveIds (n : nat) | DropChunk.
Definition exec (h : Heap) (o : op) : outcome Heap :=
  match o with
  | NewNull a => new_null a h | NewId a i => new_id a i h
  | NewCopy a o => new_copy a o h | NewMove a o => new_move a o h
  | AssignCopy a o => assign_copy a o h | AssignMove a o => assign_move a o h
  | Destruct a => destruct_ a h
  | PublicBit a v => result a (public_bit checks v) h
  | AndGate a x y => i ← id_ x h; j ← id_ y h; result a (and_gate checks i j) h
  | XorGate a x y => i ← id_ x h; j ← id_ y h; result a (xor_gate checks i j) h
  | NotGate a x => i ← id_ x h; result a (not_gate checks i) h
  | ReserveIds n => '(_, s) ← reserve_ids n (rec_ h); Ret (MkHeap (objs h) s)
  | DropChunk => Ret (MkHeap (objs h) (drop_chunk (rec_ h)))
  end.
End ops.
End ChunkWire.

(** ** Counting the objects that hold an id *)
Definition handles (i : N) (m : gmap N N) : nat := size (filter (λ p, p.2 = i) m).
Definition one (i j : N) : nat := if decide (i = j) then 1%nat else 0%nat.

Lemma handles_insert a i m j : m !! a = None → handles j (<[a := i]> m) = (handles j m + one i j)%nat.
Proof.
  intros Ha. unfold handles, one. case_decide as Hi.
  - rewrite map_filter_insert_True by done. rewrite map_size_insert_None; [lia|].
    apply map_lookup_filter_None. by left.
  - rewrite map_filter_insert_False by done. rewrite delete_id by done. lia.
Qed.
Lemma handles_delete a i m j : m !! a = Some i → handles j m = (handles j (delete a m) + one i j)%nat.
Proof.
  intros Ha. rewrite <- (handles_insert a) by apply lookup_delete_eq. by rewrite insert_delete_id.
Qed.
Lemma handles_update a i k m j : m !! a = Some i → (handles j (<[a := k]> m) + one i j = handles j m + one k j)%nat.
Proof.
  intros Ha. rewrite <- insert_delete_eq, handles_insert by apply lookup_delete_eq.
  rewrite (handles_delete a i m j Ha). lia.
Qed.
Lemma handles_pos i m : (0 < handles i m)%nat ↔ ∃ a, m !! a = Some i.
Proof.
  unfold handles. rewrite <- Nat.neq_0_lt_0, map_size_non_empty_iff. split.
  - intros (a & j & Hj)%map_choose. apply map_lookup_filter_Some in Hj as [Ha Hj]. cbn in Hj. subst j. eauto.
  - intros [a Ha] He. apply (f_equal (lookup a)) in He. rewrite lookup_empty in He.
    apply map_lookup_filter_None in He as [He|He]; [congruence|]. by apply (He i).
Qed.

(** ** The counts are those of the objects *)
Section counts.
Context (checks : bool).
Import ChunkRecorder ChunkWire.
Record counted (m : gmap N N) (s : State) : Prop := {
  cn_next : (1 ≤ next_id_ s ≤ UINT32_MAX)%N;
  cn_len : vlen (rc_ s) = next_id_ s;
  cn_rc : ∀ j, (0 < j < next_id_ s)%N → rc_ s !! N.to_nat j = Some (Z.of_nat (handles j m));
  cn_ids : ∀ a i, m !! a = Some i → (i < next_id_ s)%N;
  cn_const : ∀ i, const0_ s = Some i ∨ const1_ s = Some i → (i < next_id_ s)%N }.

(** A pin or an unpin, with the change of the objects it goes with. *)
Lemma adjust_counted m m' d i s :
  counted m s → (i < next_id_ s)%N →
  (∀ j, (0 < j)%N → Z.of_nat (handles j m') = (Z.of_nat (handles j m) + d * Z.of_nat (one i j))%Z) →
  (∀ a j, m' !! a = Some j → (j < next_id_ s)%N) →
  ∃ s', chunk_adjust checks d i s = Ret s' ∧ counted m' s' ∧ next_id_ s' = next_id_ s.
Proof.
  intros [Hn Hl Hrc Hids Hc] Hi Hm Hm'. destruct (decide (i = 0%N)) as [->|Hz].
  { exists s. split; [done|]. split; [|done]. split; try done. intros j Hj. rewrite Hrc by done. f_equal.
    rewrite Hm by lia. unfold one. rewrite decide_False by lia. lia. }
  destruct (chunk_adjust_ok checks d i s) as (rc & Heq & Hl' & Hrc'); [lia|lia|].
  exists (set_rc rc s). split; [done|]. split; [|done]. split; cbn [next_id_ rc_ const0_ const1_ set_rc]; try done; [lia|].
  intros j Hj. rewrite Hrc', Hrc by done. unfold one in Hm. specialize (Hm j ltac:(lia)).
  case_decide as Hji; case_decide as Hij; try congruence; simpl; f_equal; lia.
Qed.

(** Objects that hold nothing do not count. *)
Lemma null_counted m m' s :
  counted m s → (∀ j, (0 < j)%N → handles j m' = handles j m) → (∀ a j, m' !! a = Some j → (j < next_id_ s)%N) → counted m' s.
Proof. intros [Hn Hl Hrc Hids Hc] Hm Hm'. split; try done. intros j Hj. by rewrite Hrc, Hm by lia. Qed.

(** A fresh id has no objects. *)
Lemma alloc_counted m s :
  counted m s → owp overflow_err (alloc_id_ s) (λ '(o, s'), counted m s' ∧ (0 < o)%N ∧ next_id_ s' = (o + 1)%N ∧
    next_id_ s = o ∧ const0_ s' = const0_ s ∧ const1_ s' = const1_ s).
Proof.
  intros [Hn Hl Hrc Hids Hc]. unfold alloc_id_. destruct (N.eqb_spec (next_id_ s) UINT32_MAX) as [?|Hne]; [done|].
  cbn [negb expecting mbind outcome_bind owp]. unfold UINT32_MAX in *.
  assert (u32 (next_id_ s + 1) = next_id_ s + 1)%N as Hu by (apply u32_small; lia).
  split; [|cbn [next_id_ const0_ const1_]; split_and!; try done; lia].
  split; cbn [next_id_ rc_ const0_ const1_]; rewrite ?Hu; unfold UINT32_MAX; [lia| | | |].
  - rewrite vlen_app, Hl. done.
  - intros j Hj. destruct (decide (j = next_id_ s)) as [->|Hj'].
    + rewrite lookup_app_r by (unfold vlen in Hl; lia).
      replace (N.to_nat (next_id_ s) - length (rc_ s))%nat with 0%nat by (unfold vlen in Hl; lia). simpl. do 2 f_equal.
      destruct (decide (0 < handles (next_id_ s) m)%nat) as [[a Ha%Hids]%handles_pos|]; lia.
    + rewrite lookup_app_l by (unfold vlen in Hl; lia). apply Hrc. lia.
  - intros a i Ha%Hids. lia.
  - intros i Hi%Hc. lia.
Qed.
Lemma record_counted m mk s :
  counted m s → owp overflow_err (record_ mk s) (λ '(o, s'), counted m s' ∧ (0 < o < next_id_ s')%N).
Proof.
  intros Hs. unfold record_. apply owp_bind. eapply owp_mono; [by apply alloc_counted|].
  intros [o s'] ([Hn Hl Hrc Hids Hc] & Ho & Hn' & _). cbn [owp]. split; [by split|]. cbn [next_id_ push_gate]. lia.
Qed.
Lemma reserve_counted n m s : counted m s → owp overflow_err (reserve_ids n s) (λ '(_, s'), counted m s').
Proof.
  revert s. induction n as [|n IH]; intros s Hs; [done|]. cbn [reserve_ids]. apply owp_bind.
  eapply owp_mono; [by apply alloc_counted|]. intros [o s'] [Hs' _]. apply owp_bind.
  eapply owp_mono; [by apply IH|]. by intros [ids s''] Hs''.
Qed.

(** A gate call whose recording keeps the counts returns a wire that is counted. *)
Lemma result_counted a m (f : ST State N) s :
  counted m s → m !! a = None →
  owp overflow_err (f s) (λ '(o, s'), counted m s' ∧ (o < next_id_ s')%N) →
  owp overflow_err (result a (pinned checks f) (MkHeap m s)) (λ h', counted (objs h') (rec_ h')).
Proof.
  intros Hs Ha Hf. unfold result, vacant, pinned, chunk_pin. cbn [objs rec_]. rewrite Ha. cbn [mbind outcome_bind].
  apply owp_bind, owp_bind. eapply owp_mono; [exact Hf|]. intros [o s'] [Hs' Ho]. cbn [owp].
  destruct (adjust_counted m (<[a := o]> m) 1 o s' Hs' Ho) as (s'' & -> & Hs'' & Hn); [| |exact Hs''].
  - intros j _. rewrite handles_insert by done. lia.
  - intros b j [[<- <-]|[_ Hb]]%lookup_insert_Some; [done|by eapply cn_ids].
Qed.
End counts.

(** ** Operations *)
Section exec.
Context (checks : bool).
Import ChunkRecorder ChunkWire.
Definition ok_heap (h : Heap) : Prop := counted (objs h) (rec_ h).
(** What C++ asks of a program: objects are made in free places, and only live ones
    are used; ids are wrapped by the session, which has reserved them. *)
Definition legal (h : Heap) (o : op) : Prop :=
  match o with
  | NewNull a | PublicBit a _ => objs h !! a = None
  | NewId a i => objs h !! a = None ∧ (i < next_id_ (rec_ h))%N
  | NewCopy a o | NewMove a o | NotGate a o => objs h !! a = None ∧ is_Some (objs h !! o)
  | AssignCopy a o | AssignMove a o => is_Some (objs h !! a) ∧ is_Some (objs h !! o)
  | Destruct a => is_Some (objs h !! a)
  | AndGate a x y | XorGate a x y => objs h !! a = None ∧ is_Some (objs h !! x) ∧ is_Some (objs h !! y)
  | ReserveIds _ | DropChunk => True
  end.

Lemma id_live a i h : objs h !! a = Some i → id_ a h = Ret i.
Proof. unfold id_. by intros ->. Qed.
Lemma vacant_free a h : objs h !! a = None → vacant a h = Ret tt.
Proof. unfold vacant. by intros ->. Qed.
Lemma live_small h a i : ok_heap h → objs h !! a = Some i → (i < next_id_ (rec_ h))%N.
Proof. intros Hh. by apply cn_ids. Qed.

(** Making an object that holds [i]. *)
Lemma pin_new_ok a i h :
  ok_heap h → objs h !! a = None → (i < next_id_ (rec_ h))%N →
  ∃ h', pin checks i (put a i h) = Ret h' ∧ ok_heap h' ∧ objs h' = <[a := i]> (objs h).
Proof.
  intros Hh Ha Hi. unfold pin, chunk_pin. cbn [rec_ objs put].
  destruct (adjust_counted checks (objs h) (<[a := i]> (objs h)) 1 i (rec_ h) Hh Hi) as (s' & -> & Hs' & _).
  - intros j _. rewrite handles_insert by done. lia.
  - intros b j [[<- <-]|[_ Hb]]%lookup_insert_Some; [done|by eapply live_small].
  - by exists (MkHeap (<[a := i]> (objs h)) s').
Qed.
(** Releasing what [a] holds: the counts are those of the other objects. *)
Lemma unpin_ok a i h :
  ok_heap h → objs h !! a = Some i →
  ∃ s', unpin checks i h = Ret (MkHeap (objs h) s') ∧ counted (delete a (objs h)) s' ∧ next_id_ s' = next_id_ (rec_ h).
Proof.
  intros Hh Ha. unfold unpin, chunk_unpin.
  destruct (adjust_counted checks (objs h) (delete a (objs h)) (-1) i (rec_ h) Hh) as (s' & -> & Hs' & Hn).
  - by eapply live_small.
  - intros j _. rewrite (handles_delete a i (objs h) j Ha). lia.
  - intros b j [_ Hb]%lookup_delete_Some. by eapply live_small.
  - by exists s'.
Qed.
(** Taking what [o] holds, in a place that counts for nothing. *)
Lemma steal_counted a o i m s :
  counted m s → m !! a = None → m !! o = Some i → a ≠ o → counted (<[o := 0%N]> (<[a := i]> m)) s.
Proof.
  intros Hm Ha Ho Hne. eapply null_counted; [exact Hm| |].
  - intros j Hj. assert (<[a := i]> m !! o = Some i) as Ho' by by rewrite lookup_insert_ne.
    pose proof (handles_update o i 0 _ j Ho') as Hu. rewrite (handles_insert a i m j Ha) in Hu.
    assert (one 0 j = 0%nat) by (unfold one; rewrite decide_False by lia; done). lia.
  - pose proof (cn_next _ _ Hm). pose proof (cn_ids _ _ Hm).
    intros b j [[<- <-]|[_ [[<- <-]|[_ Hb]]%lookup_insert_Some]]%lookup_insert_Some; [lia|eauto..].
Qed.

Lemma assign_copy_ok a o h : ok_heap h → is_Some (objs h !! a) → is_Some (objs h !! o) →
  ∃ h', assign_copy checks a o h = Ret h' ∧ ok_heap h' ∧ ∃ j, objs h !! o = Some j ∧ objs h' = <[a := j]> (objs h).
Proof.
  intros Hh [i Ha] [j Ho]. unfold assign_copy. rewrite (id_live _ _ _ Ha), (id_live _ _ _ Ho). cbn [mbind outcome_bind].
  destruct (N.eqb_spec i j) as [->|Hij]; cbn [negb].
  { exists h. split; [done|]. split; [done|]. exists j. by rewrite insert_id. }
  destruct (unpin_ok a i h Hh Ha) as (s' & -> & Hs' & Hn). cbn [mbind outcome_bind]. unfold id_. cbn [objs]. rewrite Ho.
  cbn [mbind outcome_bind]. destruct (pin_new_ok a j (MkHeap (delete a (objs h)) s') Hs') as (h' & Hp & Hh' & Hobj).
  { apply lookup_delete_eq. }
  { cbn [rec_]. rewrite Hn. by eapply live_small. }
  unfold put in *. cbn [objs rec_] in *. rewrite insert_delete_eq in Hp, Hobj. rewrite Hp. eauto 10.
Qed.
Lemma assign_move_ok a o h : ok_heap h → is_Some (objs h !! a) → is_Some (objs h !! o) →
  ∃ h', assign_move checks a o h = Ret h' ∧ ok_heap h'.
Proof.
  intros Hh [i Ha] [j Ho]. unfold assign_move. rewrite (id_live _ _ _ Ha), (id_live _ _ _ Ho). cbn [mbind outcome_bind].
  destruct (N.eqb_spec a o) as [->|Hne]; cbn [negb]; [by exists h|].
  destruct (unpin_ok a i h Hh Ha) as (s' & -> & Hs' & Hn). cbn [mbind outcome_bind]. unfold id_. cbn [objs]. rewrite Ho.
  cbn [mbind outcome_bind]. eexists. split; [done|]. unfold ok_heap. cbn [put objs rec_].
  rewrite <- (insert_delete_eq (objs h)). apply steal_counted; [done|apply lookup_delete_eq| |done].
  by rewrite lookup_delete_ne.
Qed.

(** A gate over operands that are allocated. *)
Lemma gate_ok a ids mk h :
  ok_heap h → objs h !! a = None → Forall (λ i, i < next_id_ (rec_ h))%N ids →
  owp overflow_err (result a (pinned checks (λ s, foldr (λ i k, require_allocated_ i s;; k) (record_ mk s) ids)) h) ok_heap.
Proof.
  destruct h as [m s]. intros Hh Ha Hi. apply result_counted; [done..|]. cbn [rec_] in Hi.
  induction Hi as [|i ids Hi _ IH]; cbn [foldr].
  - eapply owp_mono; [by apply record_counted|]. intros [w s'] [? ?]. split; [done|lia].
  - assert (require_allocated_ i s = Ret tt) as -> by (apply expecting_Ret; by apply N.ltb_lt). exact IH.
Qed.

Lemma exec_ok o h : ok_heap h → legal h o → owp overflow_err (exec checks h o) ok_heap.
Proof.
  intros Hh. destruct o as [a|a i|a o|a o|a o|a o|a|a v|a x y|a x y|a x|n|]; cbn [legal exec].
  - intros Ha. unfold new_null. rewrite vacant_free by done. cbn [mbind outcome_bind owp].
    apply (null_counted (objs h) (<[a := 0%N]> (objs h)) (rec_ h) Hh).
    + intros j Hj. rewrite handles_insert by done. unfold one. rewrite decide_False by lia. lia.
    + pose proof (cn_next _ _ Hh). intros b j [[<- <-]|[_ Hb]]%lookup_insert_Some; [cbn; lia|by eapply live_small].
  - intros [Ha Hi]. unfold new_id. rewrite vacant_free by done. cbn [mbind outcome_bind].
    by destruct (pin_new_ok a i h Hh Ha Hi) as (h' & -> & Hh' & _).
  - intros [Ha [i Ho]]. unfold new_copy. rewrite vacant_free, (id_live _ _ _ Ho) by done. cbn [mbind outcome_bind].
    destruct (pin_new_ok a i h Hh Ha) as (h' & -> & Hh' & _); [by eapply live_small|done].
  - intros [Ha [i Ho]]. unfold new_move. rewrite vacant_free, (id_live _ _ _ Ho) by done. cbn [mbind outcome_bind owp].
    apply steal_counted; [done..|]. congruence.
  - intros [Ha Ho]. by destruct (assign_copy_ok a o h Hh Ha Ho) as (h' & -> & Hh' & _).
  - intros [Ha Ho]. by destruct (assign_move_ok a o h Hh Ha Ho) as (h' & -> & Hh').
  - intros [i Ha]. unfold destruct_. rewrite (id_live _ _ _ Ha). cbn [mbind outcome_bind].
    by destruct (unpin_ok a i h Hh Ha) as (s' & -> & Hs' & _).
  - intros Ha. destruct h as [m s]. apply result_counted; [done..|].
    assert (∀ mk v, owp overflow_err ('(o, s) ← record_ mk s; Ret (o, set_const v o s))
      (λ '(o, s'), counted m s' ∧ (o < next_id_ s')%N)) as Hrec.
    { intros mk v'. apply owp_bind. eapply owp_mono; [by apply record_counted|]. intros [w s'] [[Hn Hl Hr Hi Hc] Ho].
      cbn [owp next_id_ set_const]. split; [|lia]. split; try done. intros i. cbn [next_id_ const0_ const1_ set_const].
      destruct v'; intros [H|H]; try (injection H as <-; lia); apply Hc; auto. }
    destruct v; [destruct (const1_ s) as [w|] eqn:Hw|destruct (const0_ s) as [w|] eqn:Hw]; try apply Hrec;
      (cbn [owp]; split; [exact Hh|apply (cn_const _ _ Hh); auto]).
  - intros (Ha & [i Hx] & [j Hy]). rewrite (id_live _ _ _ Hx), (id_live _ _ _ Hy).
    apply (gate_ok a [i; j] (λ o, MkGate i j o And) h Hh Ha). eauto using live_small.
  - intros (Ha & [i Hx] & [j Hy]). rewrite (id_live _ _ _ Hx), (id_live _ _ _ Hy).
    apply (gate_ok a [i; j] (λ o, MkGate i j o Xor) h Hh Ha). eauto using live_small.
  - intros (Ha & [i Hx]). rewrite (id_live _ _ _ Hx).
    apply (gate_ok a [i] (λ o, MkGate i 0 o Not) h Hh Ha). eauto using live_small.
  - intros _. apply owp_bind. eapply owp_mono; [apply reserve_counted, Hh|]. by intros [ids s'] Hs'.
  - intros _. cbn [owp]. destruct Hh as [Hn Hl Hr Hi _]. split; try done. cbn. by intros i [?|?].
Qed.
End exec.

(** ** Programs *)
Section programs.
Context (checks : bool).
Import ChunkRecorder ChunkWire.
Definition start (s : State) : Heap := MkHeap ∅ s.
Definition exec_all (ops : list op) (h : Heap) : outcome Heap := foldO (exec checks) h ops.

Lemma start_ok s : construct false = Ret s → ok_heap (start s).
Proof.
  intros [= <-]. split; cbn [start objs rec_ next_id_ rc_ const0_ const1_].
  - done.
  - done.
  - intros j Hj. lia.
  - intros a i Ha. by rewrite lookup_empty in Ha.
  - by intros i [?|?].
Qed.
Lemma counted_scope m s i : counted m s → (0 < i)%N → in_scope s i = true ↔ ∃ a, m !! a = Some i.
Proof.
  intros Hm Hi. rewrite <- handles_pos. unfold in_scope. destruct (decide (i < next_id_ s)%N) as [Hlt|Hge].
  - rewrite (cn_rc _ _ Hm) by lia. lia.
  - rewrite lookup_ge_None_2 by (pose proof (cn_len _ _ Hm) as Hl; unfold vlen in Hl; lia).
    split; [done|]. intros [a Ha%(cn_ids _ _ Hm)]%handles_pos. lia.
Qed.

(** What a program that went on did was legal. *)
Lemma id_Ret a i h : id_ a h = Ret i → objs h !! a = Some i.
Proof. unfold id_. destruct (objs h !! a); [by intros [= ->]|done]. Qed.
Lemma vacant_Ret a h u : vacant a h = Ret u → objs h !! a = None.
Proof. unfold vacant. by destruct (objs h !! a). Qed.
Lemma pin_in_range i h h' : pin checks i h = Ret h' → i = 0%N ∨ (i < vlen (rc_ (rec_ h)))%N.
Proof.
  intros H. destruct (decide (i = 0%N)) as [|Hz]; [by left|right]. unfold pin, chunk_pin, chunk_adjust in H.
  rewrite (proj2 (N.eqb_neq _ _) Hz) in H. apply bind_Ret in H as (s & H & _). apply bind_Ret in H as (_ & _ & H).
  apply bind_Ret in H as (c & Hc & _). apply vget_Ret, lookup_lt_Some in Hc. unfold vlen. lia.
Qed.
Lemma exec_legal h o h' : ok_heap h → exec checks h o = Ret h' → legal h o.
Proof.
  intros Hh He. destruct o; cbn [exec legal] in *; try done;
    unfold new_null, new_id, new_copy, new_move, assign_copy, assign_move, destruct_, result in He;
    repeat match goal with H : _ ≫= _ = Ret _ |- _ => apply bind_Ret in H as (? & ? & ?) end;
    repeat match goal with
      | H : vacant _ _ = Ret _ |- _ => apply vacant_Ret in H
      | H : id_ _ _ = Ret _ |- _ => apply id_Ret in H
      end; eauto.
  split; [done|]. destruct (pin_in_range i (put a i h) h') as [->|Hi]; [done|pose proof (cn_next _ _ Hh); lia|].
  cbn [rec_ put] in Hi. by rewrite (cn_len _ _ Hh) in Hi.
Qed.
Lemma exec_all_ok ops h h' : ok_heap h → exec_all ops h = Ret h' → ok_heap h'.
Proof.
  revert h. induction ops as [|o ops IH]; intros h Hh He; [by injection He as <-|].
  apply bind_Ret in He as (h1 & He & Hr). apply (IH h1); [|done].
  pose proof (exec_ok checks o h Hh (exec_legal _ _ _ Hh He)) as Ho. by rewrite He in Ho.
Qed.

(** The check when the recorder goes. *)
Lemma destroy_counted m s :
  counted m s → if decide (map_Forall (λ _ i, i = 0%N) m) then destroy true s = Ret tt else ∃ msg, destroy true s = Fatal msg.
Proof.
  intros Hm. unfold destroy. set (f := λ (_ : unit) id, c ← vget (rc_ s) id; expecting (c =? 0)%Z _).
  assert (∀ l, Forall (λ i, 0 < i < next_id_ s)%N l →
    foldO f tt l = Ret tt ∧ Forall (λ i, handles i m = 0%nat) l ∨ (∃ msg, foldO f tt l = Fatal msg) ∧ Exists (λ i, (0 < i)%N ∧ handles i m ≠ 0%nat) l) as Hl.
  { induction 1 as [|i l Hi _ IH]; [by left|]. cbn [foldO].
    assert (∃ msg, f tt i = expecting (Z.of_nat (handles i m) =? 0)%Z msg) as [msg ->].
    { unfold f. rewrite (proj2 (vget_Ret _ _ _) (cn_rc _ _ Hm i Hi)). by eexists. }
    destruct (Z.eqb_spec (Z.of_nat (handles i m)) 0) as [H0|H0]; cbn [expecting mbind outcome_bind].
    - destruct IH as [[-> ?]|[? ?]]; [left|right]; (split; [done|]); [constructor; [lia|done]|by right].
    - right. split; [by eexists|]. left. lia. }
  destruct (Hl (range 1 (vlen (rc_ s) - 1))) as [[-> Hz]|[He Hx]].
  { apply Forall_forall. intros i Hi%elem_of_range. rewrite (cn_len _ _ Hm) in Hi. lia. }
  - rewrite decide_True; [done|]. intros a i Ha. destruct (decide (i = 0%N)) as [|Hi]; [done|exfalso].
    rewrite Forall_forall in Hz. assert (0 < handles i m)%nat as Hp by (apply handles_pos; eauto).
    rewrite (Hz i) in Hp; [lia|]. apply elem_of_range. rewrite (cn_len _ _ Hm). pose proof (cn_ids _ _ Hm a i Ha). lia.
  - rewrite decide_False; [done|]. intros Hall. apply Exists_exists in Hx as (i & _ & Hi & Hh).
    assert (∃ a, m !! a = Some i) as [a Ha] by (apply handles_pos; lia). apply Hall in Ha. lia.
Qed.
End programs.

(** ** Handle operations are steps of the session *)
Section steps.
Context {D : Type} {HB : Backend D} (checks : bool) (me : N).
Import ChunkRecorder ChunkedSession ChunkWire.
(** The operations of client code, with gates on wires that hold something. *)
Definition client (h : Heap) (o : op) : Prop :=
  match o with
  | NewId _ _ | ReserveIds _ | DropChunk => False
  | AndGate _ x y | XorGate _ x y => objs h !! x ≠ Some 0%N ∧ objs h !! y ≠ Some 0%N
  | NotGate _ x => objs h !! x ≠ Some 0%N
  | _ => True
  end.

(** The client's session with another recorder. *)
Definition with_rec (r : ChunkRecorder.State) (f : Config D) : Config D := with_sess (set_ctx r (sess f)) f.
Lemma with_rec_self (f : Config D) : with_rec (ctx_ (sess f)) f = f.
Proof. by destruct f as [[] ? ?]. Qed.
Lemma adjust_null d c c' : chunk_adjust checks d 0 c = Ret c' → c' = c.
Proof. by intros [= <-]. Qed.
Abbreviation steps := (rtc (bounded_step (D := D) checks me)).

Lemma pin_steps (s : Config D) m i c a :
  counted m (ctx_ (sess s)) → m !! a = Some i → chunk_pin checks i (ctx_ (sess s)) = Ret c →
  (vlen (chunk_gates_ c) < 2 ^ 31)%N → steps s (with_rec c s).
Proof.
  intros Hm Ha Hp Hl. destruct (decide (i = 0%N)) as [->|Hi].
  - apply (adjust_null 1) in Hp as ->. by rewrite with_rec_self.
  - apply rtc_once. split; [|done]. eapply step_copy; [|exact Hi|exact Hp].
    apply (counted_scope m); [done|lia|eauto].
Qed.
Lemma unpin_steps (s : Config D) m i c a :
  counted m (ctx_ (sess s)) → m !! a = Some i → chunk_unpin checks i (ctx_ (sess s)) = Ret c →
  (vlen (chunk_gates_ c) < 2 ^ 31)%N → steps s (with_rec c s).
Proof.
  intros Hm Ha Hp Hl. destruct (decide (i = 0%N)) as [->|Hi].
  - apply (adjust_null (-1)) in Hp as ->. by rewrite with_rec_self.
  - apply rtc_once. split; [|done]. eapply step_destroy; [|exact Hi|exact Hp].
    apply (counted_scope m); [done|lia|eauto].
Qed.
Lemma operand_scope h x i : ok_heap h → objs h !! x = Some i → objs h !! x ≠ Some 0%N → in_scope (rec_ h) i = true.
Proof.
  intros Hh Hx Hz. apply (counted_scope (objs h)); [done| |eauto]. destruct (decide (i = 0%N)) as [->|]; [congruence|lia].
Qed.
Lemma result_inv a (m : ST ChunkRecorder.State N) h h' :
  result a m h = Ret h' → ∃ o c, m (rec_ h) = Ret (o, c) ∧ rec_ h' = c.
Proof. intros (_ & _ & ([o c] & Hm & [= <-])%bind_Ret)%bind_Ret. eauto. Qed.

(** An unpin of what [a] holds, followed by what keeps the gates. *)
Lemma release_steps (s : Config D) h a i h1 :
  ctx_ (sess s) = rec_ h → ok_heap h → objs h !! a = Some i → unpin checks i h = Ret h1 →
  (vlen (chunk_gates_ (rec_ h)) < 2 ^ 31)%N → steps s (with_rec (rec_ h1) s) ∧ chunk_gates_ (rec_ h1) = chunk_gates_ (rec_ h).
Proof.
  intros Hs Hh Ha (c & Hc & [= <-])%bind_Ret Hl. cbn [rec_]. pose proof (adjust_gates checks _ _ _ _ Hc) as Hg.
  split; [|done]. eapply (unpin_steps s (objs h)); rewrite ?Hs; [done..|by rewrite Hg].
Qed.

Lemma exec_steps (s : Config D) h o h' :
  ctx_ (sess s) = rec_ h → ok_heap h → (vlen (chunk_gates_ (rec_ h)) < 2 ^ 31)%N → (vlen (chunk_gates_ (rec_ h')) < 2 ^ 31)%N →
  client h o → exec checks h o = Ret h' → steps s (with_rec (rec_ h') s).
Proof.
  intros Hs Hh Hl Hl' Hcl He. pose proof (exec_legal checks _ _ _ Hh He) as Hleg.
  destruct o as [a|a i|a o|a o|a o|a o|a|a v|a x y|a x y|a x|n|]; cbn [exec legal client] in *; try done.
  - apply bind_Ret in He as (_ & _ & [= <-]). cbn [put rec_]. by rewrite <- Hs, with_rec_self.
  - apply bind_Ret in He as (_ & _ & (i & Hi%id_Ret & (c & Hp & [= <-])%bind_Ret)%bind_Ret).
    cbn [put rec_] in *. eapply (pin_steps s (objs h)); rewrite ?Hs; done.
  - apply bind_Ret in He as (_ & _ & (i & Hi & [= <-])%bind_Ret). cbn [put rec_]. by rewrite <- Hs, with_rec_self.
  - apply bind_Ret in He as (i & Hi%id_Ret & (j & Hj%id_Ret & He)%bind_Ret).
    destruct (N.eqb_spec i j) as [->|Hij]; cbn [negb] in He; [injection He as <-; by rewrite <- Hs, with_rec_self|].
    apply bind_Ret in He as (h1 & Hu & (j' & Hj' & (c & Hp & [= <-])%bind_Ret)%bind_Ret).
    destruct (release_steps s h a i h1 Hs Hh Hi Hu Hl) as [Hst Hg]. etrans; [exact Hst|].
    destruct (unpin_ok checks a i h Hh Hi) as (s' & Hu' & Hs' & _). rewrite Hu in Hu'. injection Hu' as ->.
    unfold id_ in Hj'. cbn [objs] in Hj'. rewrite Hj in Hj'. injection Hj' as <-. cbn [put rec_ objs] in *.
    assert (a ≠ o) by congruence.
    eapply (pin_steps (with_rec s' s) (delete a (objs h)) j c o); [exact Hs'|by rewrite lookup_delete_ne|exact Hp|exact Hl'].
  - apply bind_Ret in He as (i & Hi%id_Ret & (j & Hj%id_Ret & He)%bind_Ret).
    destruct (N.eqb_spec a o) as [->|Hne]; cbn [negb] in He; [injection He as <-; by rewrite <- Hs, with_rec_self|].
    apply bind_Ret in He as (h1 & Hu & (j' & Hj' & [= <-])%bind_Ret). cbn [put rec_].
    by destruct (release_steps s h a i h1 Hs Hh Hi Hu Hl).
  - apply bind_Ret in He as (i & Hi%id_Ret & (h1 & Hu & [= <-])%bind_Ret). cbn [rec_].
    by destruct (release_steps s h a i h1 Hs Hh Hi Hu Hl).
  - apply result_inv in He as (w & c & Hc & Heq). rewrite Heq in *. apply rtc_once. split; [|done].
    eapply step_public_bit. rewrite Hs. exact Hc.
  - apply bind_Ret in He as (i & Hi%id_Ret & (j & Hj%id_Ret & (w & c & Hc & Heq)%result_inv)%bind_Ret).
    rewrite Heq in *. destruct Hcl as [Hx Hy]. apply rtc_once. split; [|done].
    apply (step_and _ _ _ i j w); rewrite ?Hs; [left; rewrite Hs; by apply (operand_scope h x)|left; rewrite Hs; by apply (operand_scope h y)|exact Hc].
  - apply bind_Ret in He as (i & Hi%id_Ret & (j & Hj%id_Ret & (w & c & Hc & Heq)%result_inv)%bind_Ret).
    rewrite Heq in *. destruct Hcl as [Hx Hy]. apply rtc_once. split; [|done].
    apply (step_xor _ _ _ i j w); rewrite ?Hs; [left; rewrite Hs; by apply (operand_scope h x)|left; rewrite Hs; by apply (operand_scope h y)|exact Hc].
  - apply bind_Ret in He as (i & Hi%id_Ret & (w & c & Hc & Heq)%result_inv).
    rewrite Heq in *. apply rtc_once. split; [|done].
    apply (step_not _ _ _ i w); rewrite ?Hs; [left; rewrite Hs; by apply (operand_scope h x)|exact Hc].
Qed.
End steps.

(** ** Property *)

(** C8: The count table is exact.  Whatever a program did with its wires, from a new
    recorder on and as far as it went on: an id is in scope exactly when some live object
    holds it, and its count is the number of those objects, through copies, moves,
    assignments of either kind and destruction; an object assigned to itself is left
    alone.  Every further operation that uses only live objects goes through or
    ends the process for want of ids: no access leaves the table.  The check
    of the recorder's destructor passes exactly when no object holds a wire.  And client
    operations are steps of the session, so what holds of every reachable session holds of
    a program that manages its wires by scope. *)
Theorem wire_counts_exact {D} {HB : Backend D} checks ops s0 h :
  ChunkRecorder.construct false = Ret s0 → exec_all checks ops (start s0) = Ret h →
  let m := ChunkWire.objs h in let c := ChunkWire.rec_ h in
  (∀ i, (0 < i)%N → ChunkRecorder.in_scope c i = true ↔ ∃ a, m !! a = Some i) ∧
  (∀ i, (0 < i < ChunkRecorder.next_id_ c)%N → ChunkRecorder.rc_ c !! N.to_nat i = Some (Z.of_nat (handles i m))) ∧
  (∀ a, is_Some (m !! a) → ChunkWire.assign_copy checks a a h = Ret h ∧ ChunkWire.assign_move checks a a h = Ret h) ∧
  (∀ o, legal h o → owp ChunkRecorder.overflow_err (ChunkWire.exec checks h o) (λ _, True)) ∧
  (if decide (map_Forall (λ _ i, i = 0%N) m) then ChunkRecorder.destroy true c = Ret tt
   else ∃ msg, ChunkRecorder.destroy true c = Fatal msg) ∧
  ∀ me (s : Config D) o h', ChunkedSession.ctx_ (sess s) = c →
    (vlen (ChunkRecorder.chunk_gates_ c) < 2 ^ 31)%N → (vlen (ChunkRecorder.chunk_gates_ (ChunkWire.rec_ h')) < 2 ^ 31)%N →
    client h o → ChunkWire.exec checks h o = Ret h' →
    rtc (bounded_step checks me) s (with_sess (ChunkedSession.set_ctx (ChunkWire.rec_ h') (sess s)) s).
Proof.
  intros H0 Hr m c. assert (ok_heap h) as Hh by (eapply exec_all_ok; [by apply start_ok|exact Hr]).
  split_and!.
  - intros i Hi. by apply counted_scope.
  - apply (cn_rc _ _ Hh).
  - intros a [i Ha]. unfold ChunkWire.assign_copy, ChunkWire.assign_move. rewrite (id_live _ _ _ Ha).
    cbn [mbind outcome_bind]. by rewrite !N.eqb_refl.
  - intros o Ho. eapply owp_mono; [by apply exec_ok|done].
  - by apply destroy_counted.
  - intros me s o h' Hs Hl Hl' Hc He. by eapply exec_steps.
Qed.

(** Two wires, one copied over the other, one moved into a third place. *)
Definition handle_sample : list ChunkWire.op :=
  [ChunkWire.PublicBit 1 true; ChunkWire.PublicBit 2 false; ChunkWire.XorGate 3 1 2;
   ChunkWire.AssignCopy 1 3; ChunkWire.NewMove 4 2; ChunkWire.AssignMove 4 3; ChunkWire.Destruct 2]%N.
Lemma wire_counts_exact_witness :
  ∃ s0, ChunkRecorder.construct false = Ret s0 ∧
  match exec_all true handle_sample (start s0) with
  | Ret h => ChunkRecorder.rc_ (ChunkWire.rec_ h) = [0; 0; 0; 2]%Z ∧
      (ChunkRecorder.in_scope (ChunkWire.rec_ h) 3 = true ↔ ∃ a, ChunkWire.objs h !! a = Some 3%N)
  | _ => False
  end.
Proof.
  set (s0 := ChunkRecorder.MkState [0%Z] 1 [] ∅ None None). exists s0. split; [reflexivity|].
  assert (match exec_all true handle_sample (start s0) with Ret h => ChunkRecorder.rc_ (ChunkWire.rec_ h) | _ => [] end = [0; 0; 0; 2]%Z) as Hrc
    by (vm_compute; reflexivity).
  destruct (exec_all true handle_sample (start s0)) as [h| |] eqn:He; [|discriminate Hrc..]. split; [exact Hrc|].
  destruct (wire_counts_exact (D := Ideal) true handle_sample s0 h eq_refl He) as [H _]. apply H. reflexivity.
Defined.
