(* ===== verification/Empbc.v ===== *)
(** * The persisted circuit format (ir/empbc.h)

    Byte-level writers and the bounds-checked reader of [.empbc] files.  The
    round trip: loading what was saved gives the program back; and loading is
    safe on every byte string: it never reads out of range and whatever it
    returns is a well-formed program with 32-bit fields.

    [load_empbc_file] and [save_empbc_file] wrap these in stdio calls and are
    not modelled. *)

From S2P Require Import Prelude Program Validate.

Definition MAGIC : list N := [69; 77; 80; 66]%N.    (* 'E' 'M' 'P' 'B' *)
Definition VERSION : N := 1.
Definition HEADER_LEN : N := 24.

(** ** Writers *)
Definition put_u8 (b : list N) (v : N) : list N := b ++ [u8 v].
Definition put_u16 (b : list N) (v : N) : list N :=
  b ++ [N.land v 255; N.land (N.shiftr v 8) 255].
Definition put_u32 (b : list N) (v : N) : list N :=
  foldl (λ b i, b ++ [N.land (N.shiftr v (8 * i)) 255]) b (range 0 4).
Definition put_idx (b : list N) (v iw : N) : list N :=
  if (iw =? 2)%N then put_u16 b (u16 v) else put_u32 b v.

Definition put_gate (iw : N) (b : list N) (g : Gate) : list N :=
  let b := put_idx b (in0 g) iw in
  let b := put_idx b (in1 g) iw in
  let b := put_idx b (out g) iw in
  let b := put_u8 b (op_code (op g)) in
  let b := put_u8 b 0 in
  if (iw =? 4)%N then put_u8 (put_u8 b 0) 0 else b.

Definition save_empbc (p : BooleanProgram) : outcome (list N) :=
  validate_program p;;
  let iw := if (num_wires p <=? 65535)%N then 2%N else 4%N in
  let b := foldl put_u8 [] MAGIC in
  let b := put_u16 b VERSION in
  let b := put_u8 b iw in
  let b := put_u8 b (reuse_code (wire_reuse p)) in
  let b := put_u32 b (num_wires p) in
  let b := put_u32 b (num_inputs p) in
  let b := put_u32 b (u32 (vlen (outputs p))) in
  let b := put_u32 b (u32 (vlen (gates p))) in
  let b := foldl (put_gate iw) b (gates p) in
  Ret (foldl (λ b o, put_idx b o iw) b (outputs p)).

(** ** [struct Reader]: its state is the position. *)
Module Reader.
Section reader.
Context (bytes : list N).
#[local] Abbreviation n := (vlen bytes).

Definition need (k : N) (pos : N) : outcome unit :=
  expecting ((pos <=? n)%N && (k <=? n - pos)%N) "empbc: truncated file".
Definition u8 : ST N N := λ pos,
  need 1 pos;; b ← vget bytes pos; Ret (b, (pos + 1)%N).
Definition u16 : ST N N := λ pos,
  need 2 pos;;
  b0 ← vget bytes pos; b1 ← vget bytes (pos + 1)%N;
  Ret (N.lor b0 (N.shiftl b1 8), (pos + 2)%N).
Definition u32 : ST N N := λ pos,
  need 4 pos;;
  b0 ← vget bytes pos; b1 ← vget bytes (pos + 1)%N;
  b2 ← vget bytes (pos + 2)%N; b3 ← vget bytes (pos + 3)%N;
  Ret (N.lor (N.lor (N.lor b0 (N.shiftl b1 8)) (N.shiftl b2 16)) (N.shiftl b3 24),
       (pos + 4)%N).
Definition idx (iw : N) : ST N N := if (iw =? 2)%N then u16 else u32.

Definition gate (iw : N) : ST N Gate :=
  in0 ← idx iw;
  in1 ← idx iw;
  out ← idx iw;
  op ← u8;
  lift (expecting (op <=? 4)%N "empbc: unknown op code");;
  u8;;
  (if (iw =? 4)%N then u8;; u8;; mret tt else mret tt);;
  mret (MkGate in0 in1 out (op_of_code op)).
End reader.
End Reader.

Definition load_header (bytes : list N) : ST N (BooleanProgram * N * N * N) :=
  foldST (λ (_ : unit) m, b ← Reader.u8 bytes; lift (expecting (b =? m)%N "empbc: bad magic"))
    tt MAGIC;;
  version ← Reader.u16 bytes;
  lift (expecting (version =? VERSION)%N "empbc: unsupported version");;
  iw ← Reader.u8 bytes;
  lift (expecting ((iw =? 2)%N || (iw =? 4)%N) "empbc: bad index_width");;
  flags ← Reader.u8 bytes;
  lift (expecting (N.land flags 4294967292 =? 0)%N "empbc: unknown flags bits set");;
  lift (expecting (negb (N.land flags 3 =? 3)%N) "empbc: reserved wire_reuse value");;
  nw ← Reader.u32 bytes;
  ni ← Reader.u32 bytes;
  num_outputs ← Reader.u32 bytes;
  num_gates ← Reader.u32 bytes;
  mret (MkProgram nw ni (reuse_of_code (N.land flags 3)) [] [], iw, num_outputs, num_gates).

(** The records after the header. *)
Definition load_body (bytes : list N) (p0 : BooleanProgram) (iw num_outputs num_gates pos : N) :
    outcome BooleanProgram :=
  let grec := (4 * iw)%N in
  let expect := u64 (HEADER_LEN + u64 (num_gates * grec) + u64 (num_outputs * iw)) in
  expecting (expect =? vlen bytes)%N "empbc: declared sizes do not match file length";;
  '(gs, pos) ← foldST (λ gs (_ : N), g ← Reader.gate bytes iw; mret (gs ++ [g]))
                 [] (range 0 num_gates) pos;
  '(outs, _) ← foldST (λ os (_ : N), o ← Reader.idx bytes iw; mret (os ++ [o]))
                 [] (range 0 num_outputs) pos;
  let p := MkProgram (num_wires p0) (num_inputs p0) (wire_reuse p0) gs outs in
  validate_program p;;
  Ret p.
Definition load_empbc (bytes : list N) : outcome BooleanProgram :=
  '(p0, iw, num_outputs, num_gates, pos) ← load_header bytes 0%N;
  load_body bytes p0 iw num_outputs num_gates pos.

(** ** Bytes of an integer *)
Lemma testbit_byte v i : N.testbit (N.land v 255) i = (i <? 8)%N && N.testbit v i.
Proof.
  change 255%N with (N.ones 8). rewrite N.land_spec. destruct (N.ltb_spec i 8).
  - rewrite N.ones_spec_low by done. by rewrite andb_true_r.
  - rewrite N.ones_spec_high by done. by rewrite andb_false_r.
Qed.
Lemma testbit_shiftl_byte v k i :
  N.testbit (N.shiftl (N.land v 255) k) i = (k <=? i)%N && (i <? k + 8)%N && N.testbit v (i - k).
Proof.
  destruct (N.leb_spec k i); simpl.
  - rewrite N.shiftl_spec_high by lia. rewrite testbit_byte.
    destruct (N.ltb_spec (i - k) 8), (N.ltb_spec i (k + 8)); done || lia.
  - by rewrite N.shiftl_spec_low.
Qed.

Lemma join_u16 v :
  (v < 2 ^ 16)%N → N.lor (N.land v 255) (N.shiftl (N.land (N.shiftr v 8) 255) 8) = v.
Proof.
  intros Hv. apply N.bits_inj. intros i.
  rewrite N.lor_spec, testbit_byte, testbit_shiftl_byte, N.shiftr_spec by lia.
  destruct (N.ltb_spec i 8), (N.leb_spec 8 i), (N.ltb_spec i (8 + 8)); simpl; try lia;
    rewrite ?orb_false_r; try done.
  - by replace (i - 8 + 8)%N with i by lia.
  - symmetry. apply (testbit_above 16); [done|lia].
Qed.
Lemma join_u32 v :
  (v < 2 ^ 32)%N →
  N.lor (N.lor (N.lor (N.land (N.shiftr v (8 * 0)) 255) (N.shiftl (N.land (N.shiftr v (8 * 1)) 255) 8))
    (N.shiftl (N.land (N.shiftr v (8 * 2)) 255) 16)) (N.shiftl (N.land (N.shiftr v (8 * 3)) 255) 24) = v.
Proof.
  intros Hv. apply N.bits_inj. intros i.
  rewrite !N.lor_spec, testbit_byte, !testbit_shiftl_byte, !N.shiftr_spec by lia.
  simpl. rewrite N.add_0_r.
  destruct (N.ltb_spec i 8), (N.leb_spec 8 i), (N.ltb_spec i (8 + 8)), (N.leb_spec 16 i),
    (N.ltb_spec i (16 + 8)), (N.leb_spec 24 i), (N.ltb_spec i (24 + 8)); simpl; try lia;
    rewrite ?orb_false_r; try done; try (f_equal; lia).
  symmetry. apply (testbit_above 32); [done|lia].
Qed.

(** ** Writers append *)
Lemma put_u16_app b v : put_u16 b v = b ++ put_u16 [] v.
Proof. done. Qed.
Lemma put_u32_app b v : put_u32 b v = b ++ put_u32 [] v.
Proof. unfold put_u32. simpl. by rewrite <- !app_assoc. Qed.
Lemma put_idx_app b v iw : put_idx b v iw = b ++ put_idx [] v iw.
Proof. unfold put_idx. destruct (iw =? 2)%N; [done|apply put_u32_app]. Qed.
Lemma put_gate_app iw b g : put_gate iw b g = b ++ put_gate iw [] g.
Proof.
  unfold put_gate. rewrite (put_idx_app (put_idx (put_idx b _ _) _ _)), (put_idx_app (put_idx b _ _)),
    (put_idx_app b). symmetry.
  rewrite (put_idx_app (put_idx (put_idx [] _ _) _ _)), (put_idx_app (put_idx [] _ _)). symmetry.
  unfold put_u8. destruct (iw =? 4)%N; by rewrite <- !app_assoc.
Qed.
Lemma foldl_app_enc {A} (f : list N → A → list N) l b :
  (∀ b a, f b a = b ++ f [] a) → foldl f b l = b ++ concat (f [] <$> l).
Proof.
  intros Hf. revert b. induction l as [|a l IH]; intros b; simpl; [by rewrite app_nil_r|].
  rewrite IH, (Hf b a). by rewrite <- app_assoc.
Qed.

(** ** Readers consume *)
Definition Reads {A} (rd : list N → ST N A) (bs : list N) (a : A) : Prop :=
  ∀ pre post, rd (pre ++ bs ++ post) (vlen pre) = Ret (a, vlen (pre ++ bs)).

Lemma Reads_bind {A B} (rd : list N → ST N A) (rd' : A → list N → ST N B) bs bs' a b :
  Reads rd bs a → Reads (rd' a) bs' b →
  Reads (λ bytes, x ← rd bytes; rd' x bytes) (bs ++ bs') b.
Proof.
  intros H1 H2 pre post. unfold mbind, ST_bind. rewrite <- app_assoc, H1. simpl.
  rewrite (app_assoc pre bs), H2. by rewrite <- !app_assoc.
Qed.
Lemma Reads_ret {A} (a : A) : Reads (λ _, mret a) [] a.
Proof. intros pre post. by rewrite app_nil_r. Qed.
Lemma Reads_lift {A} (m : outcome A) a : m = Ret a → Reads (λ _, lift m) [] a.
Proof. intros -> pre post. by rewrite app_nil_r. Qed.

Lemma Reads_bind_lift {A B} (m : outcome A) (rd' : A → list N → ST N B) a bs b :
  m = Ret a → Reads (rd' a) bs b → Reads (λ bytes, x ← lift m; rd' x bytes) bs b.
Proof. intros -> H pre post. apply H. Qed.

Lemma vget_pre {A} (pre : list A) l k x :
  l !! N.to_nat k = Some x → vget (pre ++ l) (vlen pre + k) = Ret x.
Proof.
  intros Hl. apply vget_Ret. unfold vlen. rewrite lookup_app_r by lia. rewrite <- Hl. f_equal. lia.
Qed.
Lemma need_ok pre bs post : Reader.need (pre ++ bs ++ post) (vlen bs) (vlen pre) = Ret tt.
Proof.
  unfold Reader.need. rewrite !vlen_app.
  destruct (N.leb_spec (vlen pre) (vlen pre + (vlen bs + vlen post))); [|lia].
  by destruct (N.leb_spec (vlen bs) (vlen pre + (vlen bs + vlen post) - vlen pre)); [|lia].
Qed.
Lemma vget_pre0 {A} (pre : list A) l x : vget (pre ++ x :: l) (vlen pre) = Ret x.
Proof. apply vget_middle. Qed.
Lemma vget_pre1 {A} (pre : list A) l a x : vget (pre ++ a :: x :: l) (vlen pre + 1) = Ret x.
Proof. by apply vget_pre. Qed.
Lemma vget_pre2 {A} (pre : list A) l a b x : vget (pre ++ a :: b :: x :: l) (vlen pre + 2) = Ret x.
Proof. by apply vget_pre. Qed.
Lemma vget_pre3 {A} (pre : list A) l a b c x :
  vget (pre ++ a :: b :: c :: x :: l) (vlen pre + 3) = Ret x.
Proof. by apply vget_pre. Qed.
Lemma Reads_u8 x : Reads Reader.u8 [x] x.
Proof.
  intros pre post. unfold Reader.u8. pose proof (need_ok pre [x] post) as Hn.
  change (vlen [x]) with 1%N in Hn. rewrite Hn. simpl.
  by rewrite vget_pre0, vlen_app.
Qed.
Lemma Reads_u16 v : (v < 2 ^ 16)%N → Reads Reader.u16 (put_u16 [] v) v.
Proof.
  intros Hv. unfold put_u16. intros pre post. unfold Reader.u16.
  set (bs := [] ++ _). pose proof (need_ok pre bs post) as Hn. change (vlen bs) with 2%N in Hn.
  rewrite Hn, vlen_app. subst bs. simpl.
  rewrite vget_pre0, vget_pre1. simpl. by rewrite join_u16.
Qed.
Lemma Reads_u32 v : (v < 2 ^ 32)%N → Reads Reader.u32 (put_u32 [] v) v.
Proof.
  intros Hv. change (put_u32 [] v) with ([N.land (N.shiftr v (8 * 0)) 255;
    N.land (N.shiftr v (8 * 1)) 255; N.land (N.shiftr v (8 * 2)) 255;
    N.land (N.shiftr v (8 * 3)) 255]). intros pre post. unfold Reader.u32.
  set (bs := _ :: _). pose proof (need_ok pre bs post) as Hn. change (vlen bs) with 4%N in Hn.
  rewrite Hn, vlen_app. subst bs. cbn [app].
  rewrite vget_pre0, vget_pre1, vget_pre2, vget_pre3.
  pose proof (join_u32 v Hv) as Hj. simpl in *. by rewrite Hj.
Qed.
Lemma Reads_idx v iw :
  (v < 2 ^ 32)%N → (iw = 2%N → v < 2 ^ 16)%N → Reads (λ bytes, Reader.idx bytes iw) (put_idx [] v iw) v.
Proof.
  intros Hv H2. unfold Reader.idx, put_idx. destruct (N.eqb_spec iw 2) as [->|].
  - unfold u16. rewrite N.mod_small by auto. apply Reads_u16. auto.
  - by apply Reads_u32.
Qed.

Definition fits (iw v : N) : Prop := (v < 2 ^ 32)%N ∧ (iw = 2%N → v < 2 ^ 16)%N.
Lemma Reads_gate g iw :
  iw = 2%N ∨ iw = 4%N → fits iw (in0 g) → fits iw (in1 g) → fits iw (out g) →
  Reads (λ bytes, Reader.gate bytes iw) (put_gate iw [] g) g.
Proof.
  intros Hiw [] [] []. unfold Reader.gate.
  assert (put_gate iw [] g = put_idx [] (in0 g) iw ++ put_idx [] (in1 g) iw ++ put_idx [] (out g) iw ++
    [op_code (op g)] ++ [] ++ [0%N] ++ (if (iw =? 4)%N then [0%N] ++ [0%N] ++ [] else []) ++ []) as ->.
  { unfold put_gate, put_u8.
    rewrite (put_idx_app (put_idx (put_idx [] _ _) _ _)), (put_idx_app (put_idx [] _ _)).
    rewrite !app_nil_r. destruct (op g), (iw =? 4)%N; by rewrite <- !app_assoc. }
  repeat (eapply Reads_bind; [by first [apply Reads_idx|apply Reads_u8]|]).
  eapply Reads_bind; [apply (Reads_lift _ tt); by destruct (op g)|].
  eapply Reads_bind; [apply Reads_u8|]. rewrite op_of_code_code.
  eapply Reads_bind; [|by destruct g; apply Reads_ret].
  destruct (iw =? 4)%N; [|apply Reads_ret].
  eapply Reads_bind; [apply Reads_u8|]. eapply Reads_bind; [apply Reads_u8|apply Reads_ret].
Qed.

(** Reading a sequence of records. *)
Lemma Reads_loop {A} (rd : list N → ST N A) (enc : A → list N) (l : list A) (idxs : list N) acc :
  length idxs = length l → Forall (λ a, Reads rd (enc a) a) l →
  Reads (λ bytes, foldST (λ acc (_ : N), a ← rd bytes; mret (acc ++ [a])) acc idxs)
    (concat (enc <$> l)) (acc ++ l).
Proof.
  intros Hlen Hl. revert acc idxs Hlen. induction Hl as [|a l Ha Hl IH]; intros acc [|i idxs] Hlen; try done.
  - rewrite app_nil_r. apply Reads_ret.
  - simpl. apply Reads_bind with (acc ++ [a]).
    + rewrite <- (app_nil_r (enc a)). apply Reads_bind with a; [done|apply Reads_ret].
    + replace (acc ++ a :: l) with ((acc ++ [a]) ++ l) by (by rewrite <- app_assoc).
      apply IH. simpl in Hlen. lia.
Qed.

Definition enc_header (p : BooleanProgram) (iw : N) : list N :=
  MAGIC ++ put_u16 [] VERSION ++ [iw] ++ [reuse_code (wire_reuse p)] ++ put_u32 [] (num_wires p) ++
  put_u32 [] (num_inputs p) ++ put_u32 [] (u32 (vlen (outputs p))) ++
  put_u32 [] (u32 (vlen (gates p))).

Lemma Reads_header p iw :
  prog_u32 p → iw = 2%N ∨ iw = 4%N →
  Reads load_header (enc_header p iw)
    (MkProgram (num_wires p) (num_inputs p) (wire_reuse p) [] [], iw,
     u32 (vlen (outputs p)), u32 (vlen (gates p))).
Proof.
  intros (Hnw & Hni & _) Hiw. unfold load_header, enc_header.
  eapply (Reads_bind _ _ MAGIC _ tt).
  { replace MAGIC with (concat ((λ m, [m]) <$> MAGIC)) at 2 by done.
    unfold MAGIC. simpl. 
    repeat (eapply (Reads_bind _ _ [_] _ tt);
      [eapply (Reads_bind _ _ [_] [] _ tt); [apply Reads_u8|by apply Reads_lift]|]).
    apply Reads_ret. }
  eapply Reads_bind; [by apply Reads_u16|].
  eapply Reads_bind_lift; [done|].
  eapply (Reads_bind _ _ [iw]); [apply Reads_u8|].
  eapply (Reads_bind_lift _ _ tt); [by destruct Hiw as [->| ->]|].
  eapply (Reads_bind _ _ [_]); [apply Reads_u8|].
  eapply (Reads_bind_lift _ _ tt); [by destruct (wire_reuse p)|].
  eapply (Reads_bind_lift _ _ tt); [by destruct (wire_reuse p)|].
  eapply Reads_bind; [by apply Reads_u32|]. eapply Reads_bind; [by apply Reads_u32|].
  eapply Reads_bind; [apply Reads_u32, u32_lt|].
  rewrite <- (app_nil_r (put_u32 [] (u32 (vlen (gates p))))).
  eapply Reads_bind; [apply Reads_u32, u32_lt|].
  destruct (wire_reuse p); apply Reads_ret.
Qed.

(** A valid program's ids fit the index width that [save_empbc] chooses. *)
Lemma wf_fits p iw :
  wf_program p → prog_u32 p → (iw = 2%N → num_wires p ≤ 65535)%N →
  Forall (λ g, fits iw (in0 g) ∧ fits iw (in1 g) ∧ fits iw (out g)) (gates p) ∧
  Forall (fits iw) (outputs p).
Proof.
  intros Hwf (_ & _ & Hg & Ho) Hiw.
  assert (∀ w, (w < 2 ^ 32)%N → (w < num_wires p)%N ∨ w = 0%N → fits iw w) as Hfit.
  { intros w Hw Hor. split; [done|]. intros ->. specialize (Hiw eq_refl). lia. }
  split.
  - apply Forall_forall. intros g Hin. rewrite Forall_forall in Hg. destruct (Hg g Hin) as (H0 & H1 & H2).
    apply list_elem_of_split in Hin as (don & todo & Heq).
    destruct (wf_gates _ Hwf _ _ _ Heq) as [Hc Hr [_ Hout] _]. unfold canonical, reads in *.
    assert (∀ w, w ∈ reads g → (w < num_wires p)%N) as Hlt by (intros; by apply Hr).
    unfold reads in Hlt. split_and!; apply Hfit; try done; [| |by left].
    + destruct (op g); [left; apply Hlt; set_solver..|right; tauto|right; tauto].
    + destruct (op g); [left; apply Hlt; set_solver..|by right|right; tauto|right; tauto].
  - apply Forall_forall. intros w Hin. rewrite Forall_forall in Ho.
    pose proof (wf_outputs _ Hwf) as Hwo. rewrite Forall_forall in Hwo.
    apply Hfit; [auto|left]. by apply Hwo.
Qed.

Lemma save_empbc_eq p :
  wf_program p →
  let iw := if (num_wires p <=? 65535)%N then 2%N else 4%N in
  save_empbc p = Ret (enc_header p iw ++ concat (put_gate iw [] <$> gates p) ++
    concat ((λ o, put_idx [] o iw) <$> outputs p)).
Proof.
  intros Hwf iw. unfold save_empbc. rewrite (proj2 (validate_wf _) Hwf). cbv zeta. simpl mbind.
  fold iw. f_equal. rewrite (foldl_app_enc (λ b o, put_idx b o iw)) by (intros; apply put_idx_app).
  rewrite (foldl_app_enc (put_gate iw)) by (intros; apply put_gate_app).
  rewrite <- app_assoc. f_equal. unfold enc_header.
  rewrite (put_u32_app (put_u32 (put_u32 (put_u32 _ _) _) _)), (put_u32_app (put_u32 (put_u32 _ _) _)),
    (put_u32_app (put_u32 _ _)), (put_u32_app (put_u8 _ _)).
  assert (u8 iw = iw) as Hiw by (subst iw; by case_match).
  assert (u8 (reuse_code (wire_reuse p)) = reuse_code (wire_reuse p)) as Hr by (by destruct (wire_reuse p)).
  unfold put_u8 at 1 2. rewrite Hiw, Hr. by rewrite <- !app_assoc.
Qed.

Lemma length_put_idx iw v : iw = 2%N ∨ iw = 4%N → vlen (put_idx [] v iw) = iw.
Proof. by intros [->| ->]. Qed.
Lemma length_put_gate iw g : iw = 2%N ∨ iw = 4%N → vlen (put_gate iw [] g) = (4 * iw)%N.
Proof. by intros [->| ->]. Qed.
Lemma vlen_concat_const {A} (f : A → list N) l k :
  (∀ a, vlen (f a) = k) → vlen (concat (f <$> l)) = (vlen l * k)%N.
Proof.
  intros Hf. induction l as [|a l IH]; [done|]. rewrite fmap_cons. cbn [concat].
  rewrite vlen_app, IH, Hf. unfold vlen. cbn [length]. lia.
Qed.

Lemma Ret_inj {A} (a b : A) : Ret a = Ret b → a = b.
Proof. congruence. Qed.
Lemma load_save p bs :
  prog_u32 p → (vlen (gates p) < 2 ^ 32)%N → (vlen (outputs p) < 2 ^ 32)%N →
  save_empbc p = Ret bs → load_empbc bs = Ret p.
Proof.
  intros Hu Hng Hno Hs. assert (wf_program p) as Hwf.
  { unfold save_empbc in Hs. apply bind_Ret in Hs as ([] & Hv & _). by apply validate_wf. }
  rewrite save_empbc_eq in Hs by done. set (iw := if (num_wires p <=? 65535)%N then 2%N else 4%N) in Hs. apply Ret_inj in Hs as <-.
  assert (iw = 2%N ∨ iw = 4%N) as Hiw by (subst iw; case_match; auto).
  destruct (wf_fits p iw Hwf Hu) as [Hfg Hfo].
  { subst iw. destruct (N.leb_spec (num_wires p) 65535); [done|]. intros [=]. }
  clearbody iw. unfold load_empbc.
  epose proof (Reads_header p iw Hu Hiw [] _) as Hh. rewrite !app_nil_l in Hh.
  change (vlen []) with 0%N in Hh.
  rewrite Hh. cbn [mbind outcome_bind]. unfold load_body.
  rewrite (u32_small (vlen (outputs p))), (u32_small (vlen (gates p))) by done.
  assert (vlen (enc_header p iw) = HEADER_LEN) as Hhl by done.
  rewrite !vlen_app, (vlen_concat_const (put_gate iw []) _ (4 * iw)) by (intros; by apply length_put_gate).
  rewrite (vlen_concat_const _ _ iw) by (intros; by apply length_put_idx). rewrite Hhl.
  rewrite (u64_small (_ * (4 * iw))), (u64_small (_ * iw)) by (destruct Hiw; subst; lia).
  rewrite u64_small by (unfold HEADER_LEN; destruct Hiw; subst; lia).
  rewrite <- N.add_assoc, N.eqb_refl. cbn [expecting mbind outcome_bind].
  pose proof (Reads_loop (λ bytes, Reader.gate bytes iw) (put_gate iw []) (gates p)
    (range 0 (vlen (gates p))) []) as Hg.
  rewrite (Hg ltac:(rewrite range_length; unfold vlen; lia)).
  2:{ eapply Forall_impl; [exact Hfg|]. intros g (?&?&?). by apply Reads_gate. }
  cbn [mbind outcome_bind]. clear Hg.
  pose proof (Reads_loop (λ bytes, Reader.idx bytes iw) (λ o, put_idx [] o iw) (outputs p)
    (range 0 (vlen (outputs p))) [] ltac:(rewrite range_length; unfold vlen; lia)) as Ho.
  specialize (Ho ltac:(eapply Forall_impl; [exact Hfo|]; intros g [? ?]; by apply Reads_idx)
    (enc_header p iw ++ concat (put_gate iw [] <$> gates p)) []).
  rewrite app_nil_r, <- app_assoc in Ho. rewrite Ho. cbn [mbind outcome_bind].
  rewrite !app_nil_l. destruct p as [nw ni wr gs os]. simpl.
  by rewrite (proj2 (validate_wf _) Hwf).
Qed.

(** ** Safety on arbitrary bytes *)
Lemma shiftl_lt b k n : (b < 2 ^ 8)%N → (8 + k ≤ n)%N → (N.shiftl b k < 2 ^ n)%N.
Proof.
  intros Hb Hk. rewrite N.shiftl_mul_pow2.
  apply N.lt_le_trans with (2 ^ 8 * 2 ^ k)%N; [by apply N.mul_lt_mono_pos_r; [lia|]|].
  rewrite <- N.pow_add_r. by apply N.pow_le_mono_r.
Qed.

Section load_safe.
Context (bytes : list N) (Hbytes : Forall (λ b, (b < 2 ^ 8)%N) bytes).
#[local] Abbreviation safe := (wp (λ _, True)).

Lemma need_safe k pos (Q : unit → Prop) :
  ((pos + k ≤ vlen bytes)%N → Q tt) → owp (λ _, True) (Reader.need bytes k pos) Q.
Proof.
  unfold Reader.need. destruct (N.leb_spec pos (vlen bytes)); simpl; [|done].
  destruct (N.leb_spec k (vlen bytes - pos)); simpl; [|done]. intros HQ. apply HQ. lia.
Qed.
Lemma byte_at pos : (pos < vlen bytes)%N → ∃ b, vget bytes pos = Ret b ∧ (b < 2 ^ 8)%N.
Proof.
  intros [b Hb]%vget_lt. exists b. split; [done|]. apply vget_Ret in Hb.
  rewrite Forall_lookup in Hbytes. by eapply Hbytes.
Qed.
Lemma u8_safe pos : safe (Reader.u8 bytes) pos (λ v _, (v < 2 ^ 8)%N).
Proof.
  apply owp_bind, need_safe. intros Hp. destruct (byte_at pos) as (b & -> & Hb); [lia|]. done.
Qed.
Lemma u16_safe pos : safe (Reader.u16 bytes) pos (λ v _, (v < 2 ^ 32)%N).
Proof.
  apply owp_bind, need_safe. intros Hp.
  destruct (byte_at pos) as (b0 & -> & H0); [lia|].
  destruct (byte_at (pos + 1)) as (b1 & -> & H1); [lia|]. simpl.
  apply lor_lt; [lia|]. by apply shiftl_lt.
Qed.
Lemma u32_safe pos : safe (Reader.u32 bytes) pos (λ v _, (v < 2 ^ 32)%N).
Proof.
  apply owp_bind, need_safe. intros Hp.
  destruct (byte_at pos) as (b0 & -> & H0); [lia|].
  destruct (byte_at (pos + 1)) as (b1 & -> & H1); [lia|].
  destruct (byte_at (pos + 2)) as (b2 & -> & H2); [lia|].
  destruct (byte_at (pos + 3)) as (b3 & -> & H3); [lia|]. simpl.
  repeat apply lor_lt; [lia|by apply shiftl_lt..].
Qed.
Lemma idx_safe iw pos : safe (Reader.idx bytes iw) pos (λ v _, (v < 2 ^ 32)%N).
Proof. unfold Reader.idx. destruct (iw =? 2)%N; [apply u16_safe|apply u32_safe]. Qed.

(** Sequencing a read whose value is only known to satisfy [P]. *)
Lemma safe_bind {A B} (m : ST N A) (f : A → ST N B) pos (P : A → Prop) Q :
  safe m pos (λ a _, P a) → (∀ a pos', P a → safe (f a) pos' Q) → safe (m ≫= f) pos Q.
Proof. intros Hm Hf. apply wp_bind. eapply wp_mono; [exact Hm|]. intros a pos' Ha. by apply Hf. Qed.
Lemma safe_expecting b msg pos :
  safe (lift (expecting b msg) : ST N unit) pos (λ _ _, b = true).
Proof. by apply wp_expecting. Qed.

Lemma gate_safe iw pos : safe (Reader.gate bytes iw) pos (λ g _, gate_u32 g).
Proof.
  unfold Reader.gate.
  eapply safe_bind; [apply idx_safe|]. intros a p1 Ha.
  eapply safe_bind; [apply idx_safe|]. intros b p2 Hb.
  eapply safe_bind; [apply idx_safe|]. intros o p3 Ho.
  eapply safe_bind; [apply u8_safe|]. intros x p4 _.
  eapply safe_bind; [apply safe_expecting|]. intros _ p5 _.
  eapply safe_bind; [apply u8_safe|]. intros _ p6 _.
  eapply (safe_bind _ _ _ (λ _, True)); [|intros _ p7 _; by apply wp_ret].
  destruct (iw =? 4)%N; [|by apply wp_ret].
  eapply safe_bind; [apply u8_safe|]. intros _ p7 _.
  eapply safe_bind; [apply u8_safe|]. intros _ p8 _. by apply wp_ret.
Qed.
Lemma loop_safe {A} (rd : ST N A) (P : A → Prop) (n pos : N) :
  (∀ pos, safe rd pos (λ a _, P a)) →
  safe (foldST (λ acc (_ : N), a ← rd; mret (acc ++ [a])) [] (range 0 n)) pos
    (λ l _, Forall P l ∧ vlen l = n).
Proof.
  intros Hrd. apply wp_foldST with (P := λ don l _, Forall P l ∧ vlen l = vlen don); [done| |].
  - intros don i todo l c _ [Hl Hlen]. eapply safe_bind; [apply Hrd|]. intros a c' Ha.
    apply wp_ret. split; [apply Forall_app; by split; [|constructor]|]. by rewrite !vlen_app, Hlen.
  - intros l c [Hl Hlen]. split; [done|]. rewrite Hlen. unfold vlen. rewrite range_length. lia.
Qed.
Lemma header_safe :
  safe (load_header bytes) 0%N (λ '(p, iw, no, ng) _, (iw = 2 ∨ iw = 4)%N ∧
    (num_wires p < 2 ^ 32 ∧ num_inputs p < 2 ^ 32 ∧ no < 2 ^ 32 ∧ ng < 2 ^ 32)%N).
Proof.
  unfold load_header. eapply (safe_bind _ _ _ (λ _, True)).
  { apply wp_foldST with (P := λ _ _ _, True); [done| |done].
    intros _ m _ _ c _ _. eapply safe_bind; [apply u8_safe|]. intros b p1 _.
    by apply wp_expecting. }
  intros _ p1 _. eapply safe_bind; [apply u16_safe|]. intros v p2 _.
  eapply safe_bind; [apply safe_expecting|]. intros _ p3 _.
  eapply safe_bind; [apply u8_safe|]. intros iw p4 _.
  eapply safe_bind; [apply safe_expecting|]. intros [] p5 Hiw.
  eapply safe_bind; [apply u8_safe|]. intros fl p6 _.
  do 2 (eapply safe_bind; [apply safe_expecting|]; intros _ ? _).
  eapply safe_bind; [apply u32_safe|]. intros nw p7 Hnw.
  eapply safe_bind; [apply u32_safe|]. intros ni p8 Hni.
  eapply safe_bind; [apply u32_safe|]. intros no p9 Hno.
  eapply safe_bind; [apply u32_safe|]. intros ng p10 Hng.
  apply wp_ret. apply orb_true_iff in Hiw. rewrite !N.eqb_eq in Hiw. done.
Qed.

Lemma load_safe :
  owp (λ _, True) (load_empbc bytes) (λ p, wf_program p ∧ prog_u32 p ∧
    ∃ iw, (iw = 2 ∨ iw = 4)%N ∧
      vlen bytes = (HEADER_LEN + vlen (gates p) * (4 * iw) + vlen (outputs p) * iw)%N).
Proof.
  unfold load_empbc. apply owp_bind. eapply owp_mono; [apply header_safe|].
  intros [[[[p0 iw] no] ng] pos] (Hiw & Hnw & Hni & Hno & Hng). unfold load_body. cbv zeta.
  apply owp_bind. destruct (N.eqb_spec (u64 (HEADER_LEN + u64 (ng * (4 * iw)) + u64 (no * iw)))
    (vlen bytes)) as [Hlen|]; simpl; [|done].
  rewrite (u64_small (ng * _)), (u64_small (no * _)) in Hlen by (destruct Hiw as [->| ->]; lia).
  rewrite u64_small in Hlen by (unfold HEADER_LEN; destruct Hiw as [->| ->]; lia).
  apply owp_bind. eapply owp_mono; [apply (loop_safe _ gate_u32 ng); intros; apply gate_safe|].
  intros [gs pos1] [Hgs Hlg]. apply owp_bind.
  eapply owp_mono; [apply (loop_safe _ (λ o, o < 2 ^ 32)%N no); intros; apply idx_safe|].
  intros [outs pos2] [Hos Hlo]. simpl.
  set (p := MkProgram _ _ _ gs outs). pose proof (validate_wf p) as Hv.
  pose proof (validate_not_Undef p) as Hn. destruct (validate_program p) as [[]| |]; simpl; try done.
  split; [by apply Hv|]. split; [done|]. exists iw. split; [done|]. by rewrite Hlg, Hlo.
Qed.
End load_safe.

(** ** Properties *)

(** C28: the format round-trips.  Every well-formed program with 32-bit fields
    and fewer than 2^32 gates and outputs is saved, to bytes, and loading them
    gives exactly that program back, in either index width. *)
Theorem save_load_empbc p :
  wf_program p → prog_u32 p → (vlen (gates p) < 2 ^ 32)%N → (vlen (outputs p) < 2 ^ 32)%N →
  ∃ bytes, save_empbc p = Ret bytes ∧ load_empbc bytes = Ret p.
Proof.
  intros Hwf Hu Hg Ho. eexists. split; [by apply save_empbc_eq|].
  apply load_save; [done..|]. by apply save_empbc_eq.
Qed.

(** C29: loading is safe on hostile input.  For every byte string [load_empbc]
    either ends with a diagnostic or returns a well-formed program with 32-bit
    fields whose record counts match the file length exactly; it never reads
    outside the buffer. *)
Theorem load_empbc_safe bytes :
  Forall (λ b, (b < 2 ^ 8)%N) bytes →
  load_empbc bytes ≠ Undef ∧
  ∀ p, load_empbc bytes = Ret p → wf_program p ∧ prog_u32 p ∧
    ∃ iw, (iw = 2 ∨ iw = 4)%N ∧
      vlen bytes = (HEADER_LEN + vlen (gates p) * (4 * iw) + vlen (outputs p) * iw)%N.
Proof.
  intros Hb. pose proof (load_safe bytes Hb) as H. destruct (load_empbc bytes); simpl in H; [|done..].
  split; [done|]. by intros p [= <-].
Qed.

Definition empbc_sample : BooleanProgram :=
  MkProgram 4 2 ReuseNone [MkGate 0 1 2 And; MkGate 2 0 3 Xor] [3%N; 0%N].
Definition empbc_sample_bytes : list N :=
  [69; 77; 80; 66; 1; 0; 2; 0; 4; 0; 0; 0; 2; 0; 0; 0; 2; 0; 0; 0; 2; 0; 0; 0;
   0; 0; 1; 0; 2; 0; 0; 0; 2; 0; 0; 0; 3; 0; 1; 0; 3; 0; 0; 0]%N.
Lemma save_load_empbc_witness :
  save_empbc empbc_sample = Ret empbc_sample_bytes ∧
  ∃ bytes, save_empbc empbc_sample = Ret bytes ∧ load_empbc bytes = Ret empbc_sample.
Proof.
  split; [reflexivity|]. apply (save_load_empbc empbc_sample).
  - apply validate_wf. reflexivity.
  - repeat split; repeat constructor.
  - reflexivity.
  - reflexivity.
Defined.
Lemma load_empbc_safe_witness :
  load_empbc empbc_sample_bytes = Ret empbc_sample ∧ prog_u32 empbc_sample.
Proof.
  split; [reflexivity|].
  destruct (load_empbc_safe empbc_sample_bytes ltac:(repeat constructor)) as [_ H].
  exact (proj1 (proj2 (H empbc_sample eq_refl))).
Defined.

(** The reserved byte of a gate record is read but not checked, so two files
    can hold the same program: [save] after [load] need not give the bytes back. *)
Lemma load_empbc_ignores_padding :
  load_empbc (<[31%nat := 7%N]> empbc_sample_bytes) = Ret empbc_sample.
Proof. reflexivity. Qed.
