(* ===== verification/Bits.v ===== *)
(** * Bit vectors as numbers

    The value of a list of bits, least significant first, and its arithmetic:
    the reference meaning of the numeric kernels and value types. *)

From S2P Require Import Prelude.

Fixpoint bval (l : list bool) : N :=
  match l with [] => 0 | b :: l => N.b2n b + 2 * bval l end.
(** [2 ^ n] for a list length. *)
Definition pow2 (n : nat) : N := (2 ^ N.of_nat n)%N.
(** The low [n] bits of [v]. *)
Fixpoint bits (n : nat) (v : N) : list bool :=
  match n with O => [] | S n => N.odd v :: bits n (N.div2 v) end.

Lemma pow2_S n : pow2 (S n) = (2 * pow2 n)%N.
Proof. unfold pow2. rewrite Nat2N.inj_succ, N.pow_succ_r'. done. Qed.
Lemma pow2_0 : pow2 0 = 1%N.
Proof. done. Qed.
Lemma pow2_pos n : (0 < pow2 n)%N.
Proof. unfold pow2. pose proof (N.pow_nonzero 2 (N.of_nat n)). lia. Qed.
Lemma pow2_ne n : pow2 n ≠ 0%N.
Proof. pose proof (pow2_pos n). lia. Qed.
Lemma pow2_add n m : pow2 (n + m) = (pow2 n * pow2 m)%N.
Proof. unfold pow2. by rewrite Nat2N.inj_add, N.pow_add_r. Qed.
Lemma pow2_le n m : (n ≤ m)%nat → (pow2 n ≤ pow2 m)%N.
Proof. intros. unfold pow2. apply N.pow_le_mono_r; lia. Qed.
#[export] Hint Resolve pow2_pos pow2_ne : emp.

Lemma b2n_le b : (N.b2n b ≤ 1)%N.
Proof. destruct b; simpl; lia. Qed.
Lemma bval_lt l : (bval l < pow2 (length l))%N.
Proof.
  induction l as [|b l IH]; simpl length; [done|]. rewrite pow2_S. simpl.
  pose proof (b2n_le b). lia.
Qed.
Lemma bval_app l1 l2 : bval (l1 ++ l2) = (bval l1 + pow2 (length l1) * bval l2)%N.
Proof.
  induction l1 as [|b l1 IH]; [simpl; rewrite pow2_0; lia|].
  cbn [app bval length]. rewrite IH, pow2_S. lia.
Qed.
Lemma bval_replicate_false n : bval (replicate n false) = 0%N.
Proof. induction n; simpl; lia. Qed.
Lemma bval_replicate_true n : bval (replicate n true) = (pow2 n - 1)%N.
Proof.
  induction n as [|n IH]; [done|]. rewrite pow2_S. cbn [replicate bval]. rewrite IH.
  pose proof (pow2_pos n). simpl. lia.
Qed.
Lemma bval_inj l1 l2 : length l1 = length l2 → bval l1 = bval l2 → l1 = l2.
Proof.
  revert l2. induction l1 as [|b1 l1 IH]; intros [|b2 l2]; try done.
  cbn [bval length]. intros [= Hlen] Hv.
  assert (b1 = b2) as -> by (destruct b1, b2; simpl in *; lia).
  f_equal. apply IH; [done|lia].
Qed.

Lemma bval_take_drop i l :
  (i ≤ length l)%nat → bval l = (bval (take i l) + pow2 i * bval (drop i l))%N.
Proof.
  intros Hi. rewrite <- (take_drop i l) at 1. rewrite bval_app, length_take.
  by replace (i `min` length l)%nat with i by lia.
Qed.
Lemma bval_take_lt i l : (bval (take i l) < pow2 i)%N.
Proof.
  eapply N.lt_le_trans; [apply bval_lt|]. apply pow2_le. rewrite length_take. lia.
Qed.
Lemma bval_take i l : bval (take i l) = (bval l mod pow2 i)%N.
Proof.
  destruct (decide (i ≤ length l)%nat).
  - apply N.mod_unique with (bval (drop i l)); [apply bval_take_lt|].
    rewrite (bval_take_drop i l) at 1 by done. lia.
  - rewrite take_ge by lia. symmetry. apply N.mod_small.
    eapply N.lt_le_trans; [apply bval_lt|]. apply pow2_le. lia.
Qed.
Lemma bval_drop i l : bval (drop i l) = (bval l / pow2 i)%N.
Proof.
  destruct (decide (i ≤ length l)%nat).
  - apply N.div_unique with (bval (take i l)); [apply bval_take_lt|].
    rewrite (bval_take_drop i l) at 1 by done. lia.
  - rewrite drop_ge by lia. symmetry. apply N.div_small.
    eapply N.lt_le_trans; [apply bval_lt|]. apply pow2_le. lia.
Qed.

Lemma bval_testbit l i : N.testbit (bval l) (N.of_nat i) = default false (l !! i).
Proof.
  revert i. induction l as [|b l IH]; intros i; [by rewrite N.bits_0; destruct i|].
  cbn [bval]. replace (N.b2n b + 2 * bval l)%N with (2 * bval l + N.b2n b)%N by lia.
  destruct i as [|i]; [by rewrite N.testbit_0_r|].
  rewrite Nat2N.inj_succ, N.testbit_succ_r. apply IH.
Qed.

(** Bits above a word are added to it. *)
Lemma lor_bval l v :
  N.lor (bval l) (N.shiftl v (N.of_nat (length l))) = (bval l + pow2 (length l) * v)%N.
Proof.
  assert (N.land (bval l) (N.shiftl v (N.of_nat (length l))) = 0)%N as Hd.
  { apply N.bits_inj. intros i. rewrite N.land_spec, N.bits_0.
    destruct (N.ltb_spec i (N.of_nat (length l))).
    - rewrite (N.shiftl_spec_low _ _ i) by done. apply andb_false_r.
    - rewrite <- (N2Nat.id i) at 1. rewrite bval_testbit, lookup_ge_None_2 by lia. done. }
  rewrite <- N.lxor_lor, <- N.add_nocarry_lxor by exact Hd.
  rewrite N.shiftl_mul_pow2. unfold pow2. lia.
Qed.

Lemma length_bits n v : length (bits n v) = n.
Proof. revert v. induction n; intros v; simpl; auto. Qed.
Lemma bval_bits n v : bval (bits n v) = (v mod pow2 n)%N.
Proof.
  revert v. induction n as [|n IH]; intros v; cbn [bits bval]; [by rewrite pow2_0, N.mod_1_r|].
  rewrite IH, pow2_S. rewrite N.Div0.mod_mul_r, N.div2_div.
  rewrite <- N.bit0_mod, N.bit0_odd. done.
Qed.
Lemma bval_bits_small n v : (v < pow2 n)%N → bval (bits n v) = v.
Proof. intros. rewrite bval_bits. by apply N.mod_small. Qed.
Lemma bits_bval l : bits (length l) (bval l) = l.
Proof.
  apply bval_inj; [apply length_bits|]. rewrite bval_bits. apply N.mod_small, bval_lt.
Qed.
Lemma bits_lookup n v i :
  (i < n)%nat → bits n v !! i = Some (N.testbit v (N.of_nat i)).
Proof.
  intros Hi. destruct (lookup_lt_is_Some_2 (bits n v) i) as [b Hb]; [by rewrite length_bits|].
  rewrite Hb. f_equal. pose proof (bval_testbit (bits n v) i) as Ht. rewrite Hb in Ht. simpl in Ht.
  rewrite <- Ht, bval_bits. unfold pow2. rewrite N.mod_pow2_bits_low; [done|lia].
Qed.

(** A low bit in front of a reduced value. *)
Lemma b2n_double_mod b X m :
  (0 < m)%N → (N.b2n b + 2 * (X mod m) = (N.b2n b + 2 * X) mod (2 * m))%N.
Proof.
  intros Hm. apply N.mod_unique with (X / m)%N.
  - pose proof (N.mod_lt X m). pose proof (b2n_le b). lia.
  - pose proof (N.div_mod X m). lia.
Qed.

(** Two's complement. *)
Definition sval (l : list bool) : Z :=
  match last l with
  | Some true => (Z.of_N (bval l) - Z.of_N (pow2 (length l)))%Z
  | _ => Z.of_N (bval l)
  end.

Definition zpow (n : nat) : Z := Z.of_N (pow2 n).
(** The representative of [v] modulo [2^n] in [-2^(n-1), 2^(n-1)). *)
Definition smod (n : nat) (v : Z) : Z :=
  ((v + zpow (n - 1)) mod zpow n - zpow (n - 1))%Z.

Lemma zpow_S n : zpow (S n) = (2 * zpow n)%Z.
Proof. unfold zpow. rewrite pow2_S. lia. Qed.
Lemma zpow_pos n : (0 < zpow n)%Z.
Proof. unfold zpow. pose proof (pow2_pos n). lia. Qed.
Lemma sval_snoc l b :
  sval (l ++ [b]) = (Z.of_N (bval l) - if b then zpow (length l) else 0)%Z.
Proof.
  unfold sval. rewrite last_snoc, length_app, bval_app. simpl. rewrite Nat.add_1_r, pow2_S.
  unfold zpow. destruct b; simpl; lia.
Qed.
Lemma snoc_inv {A} (l : list A) : l ≠ [] → ∃ l' b, l = l' ++ [b].
Proof. destruct l as [|b l' _] using rev_ind; [done|eauto]. Qed.
Lemma sval_bounds l : l ≠ [] → (- zpow (length l - 1) ≤ sval l < zpow (length l - 1))%Z.
Proof.
  intros (l' & b & ->)%snoc_inv. rewrite sval_snoc, length_app. simpl.
  replace (length l' + 1 - 1)%nat with (length l') by lia.
  pose proof (bval_lt l'). unfold zpow. destruct b; lia.
Qed.
(** [bval] and [sval] agree modulo [2^n]. *)
Lemma sval_bval l : ∃ k : bool, Z.of_N (bval l) = (sval l + (if k then 1 else 0) * zpow (length l))%Z.
Proof.
  destruct (decide (l = [])) as [->|(l' & b & ->)%snoc_inv]; [by exists false|].
  exists b. rewrite sval_snoc, bval_app, length_app. simpl. rewrite Nat.add_1_r, zpow_S.
  unfold zpow. destruct b; simpl; lia.
Qed.
Lemma smod_small n v : (1 ≤ n)%nat → (- zpow (n - 1) ≤ v < zpow (n - 1))%Z → smod n v = v.
Proof.
  intros Hn Hv. unfold smod. rewrite Z.mod_small; [lia|].
  replace (zpow n) with (zpow (S (n - 1))) by (f_equal; lia). rewrite zpow_S. lia.
Qed.
Lemma smod_eqm n v w k : v = (w + k * zpow n)%Z → smod n v = smod n w.
Proof.
  intros ->. unfold smod. f_equal. replace (w + k * zpow n + zpow (n - 1))%Z
    with (w + zpow (n - 1) + k * zpow n)%Z by lia. apply Z_mod_plus_full.
Qed.
Lemma sval_unique l v k : l ≠ [] → Z.of_N (bval l) = (v + k * zpow (length l))%Z → sval l = smod (length l) v.
Proof.
  intros Hl Hv. destruct (sval_bval l) as [k' Hk].
  assert (1 ≤ length l)%nat by (destruct l; [done|simpl; lia]).
  rewrite <- (smod_small (length l) (sval l)) by (done || by apply sval_bounds).
  apply (smod_eqm _ _ _ (k - if k' then 1 else 0)). lia.
Qed.
Lemma sval_inj l1 l2 : length l1 = length l2 → sval l1 = sval l2 → l1 = l2.
Proof.
  intros Hl Hs. destruct (decide (l1 = [])) as [->|Hne]; [by destruct l2|].
  apply bval_inj; [done|]. destruct (sval_bval l1) as [k1 H1], (sval_bval l2) as [k2 H2].
  pose proof (bval_lt l1). pose proof (bval_lt l2). rewrite <- Hl in *.
  pose proof (zpow_pos (length l1)). unfold zpow in *. destruct k1, k2; lia.
Qed.

(** A pointwise description determines a list of bits. *)
Lemma bits_ext l n (f : nat → bool) :
  length l = n → (∀ i, (i < n)%nat → l !! i = Some (f i)) → l = f <$> seq 0 n.
Proof.
  intros Hn Hf. apply list_eq. intros i. destruct (decide (i < n)%nat) as [Hi|Hi].
  - rewrite Hf, list_lookup_fmap, lookup_seq_lt by lia. done.
  - rewrite !lookup_ge_None_2; [done|rewrite length_fmap, length_seq|]; lia.
Qed.

(** Bits of a word and of an exclusive or. *)
Lemma bits_testbit n v : bits n v = (λ i, N.testbit v (N.of_nat i)) <$> seq 0 n.
Proof. apply bits_ext; [apply length_bits|]. intros i Hi. by rewrite bits_lookup. Qed.
Lemma bits_lxor n a b : bits n (N.lxor a b) = zip_with xorb (bits n a) (bits n b).
Proof.
  apply list_eq. intros i. destruct (decide (i < n)%nat).
  - rewrite lookup_zip_with, !bits_lookup by done. simpl. by rewrite N.lxor_spec.
  - rewrite !lookup_ge_None_2; [done|rewrite length_zip_with, !length_bits; lia|rewrite length_bits; lia].
Qed.
Lemma lxor_lt a b n : (a < 2 ^ n → b < 2 ^ n → N.lxor a b < 2 ^ n)%N.
Proof.
  intros Ha Hb. rewrite <- (N.mod_small a (2 ^ n)), <- (N.mod_small b (2 ^ n)) by done.
  assert (2 ^ n ≠ 0)%N by (by apply N.pow_nonzero).
  replace (N.lxor (a mod 2 ^ n) (b mod 2 ^ n)) with (N.lxor (a mod 2 ^ n) (b mod 2 ^ n) mod 2 ^ n)%N.
  { by apply N.mod_lt. }
  apply N.bits_inj. intros i. destruct (N.ltb_spec i n).
  - by rewrite N.mod_pow2_bits_low.
  - by rewrite N.mod_pow2_bits_high, N.lxor_spec, !N.mod_pow2_bits_high.
Qed.
Lemma bits_ext_eq n a b :
  (∀ i, (i < N.of_nat n)%N → N.testbit a i = N.testbit b i) → bits n a = bits n b.
Proof.
  intros H. rewrite !bits_testbit. apply list_fmap_ext. intros ? i [-> Hi]%lookup_seq.
  apply H. lia.
Qed.
Lemma bits_mod n a : bits n (a mod pow2 n) = bits n a.
Proof. apply bits_ext_eq. intros i Hi. by apply N.mod_pow2_bits_low. Qed.
Lemma bits_bval_eq n l : length l = n → l = bits n (bval l).
Proof. intros <-. symmetry. apply bits_bval. Qed.
Lemma testbit_mod n a i : N.testbit (a mod pow2 n) i = (i <? N.of_nat n)%N && N.testbit a i.
Proof.
  unfold pow2. destruct (N.ltb_spec i (N.of_nat n)); [by rewrite N.mod_pow2_bits_low|].
  by rewrite N.mod_pow2_bits_high.
Qed.
