(* ===== verification/Bytes.v ===== *)
(** * Bytes as wires and numbers

    Arrays of wires read as bytes, least significant bit first: the byte at
    index [b] is the wires [8b .. 8b+7].  [unbytes] and [to_bytes] translate
    lists of byte values to bits and back; big-endian numbers over bytes. *)

From S2P Require Import Prelude Bits.

Abbreviation flatten := (mjoin (M := list)).

Definition byte_at {W} (l : list W) (b : nat) : list W := take 8 (drop (b * 8) l).
Definition array_bytes {W} (n : nat) (l : list W) : list (list W) := byte_at l <$> seq 0 n.

Definition get (s : list N) (i : nat) : N := default 0%N (s !! i).
Definition be_value (l : list N) : N := foldl (λ v b, 256 * v + b)%N 0%N l.
Definition be_bytes (n : nat) (v : N) : list N :=
  (λ i, (v / 256 ^ N.of_nat (n - 1 - i)) mod 256)%N <$> seq 0 n.
(** An array of wires carries the bits of a list of bytes. *)
Definition unbytes (bs : list N) : list bool := bs ≫= bits 8.
Definition to_bytes (l : list bool) : list N := bval <$> array_bytes (length l / 8) l.

#[global] Arguments bits : simpl never.
#[global] Arguments unbytes : simpl never.

Definition byte_list (n : nat) (l : list N) : Prop := length l = n ∧ Forall (λ v, v < 256)%N l.

Lemma unbytes_app a b : unbytes (a ++ b) = unbytes a ++ unbytes b.
Proof. apply bind_app. Qed.
Lemma length_unbytes bs : length (unbytes bs) = (8 * length bs)%nat.
Proof.
  induction bs as [|b bs IH]; [done|]. change (unbytes (b :: bs)) with (bits 8 b ++ unbytes bs).
  rewrite length_app, length_bits, IH. simpl. lia.
Qed.
Lemma drop_unbytes k bs : drop (8 * k) (unbytes bs) = unbytes (drop k bs).
Proof.
  revert bs. induction k as [|k IH]; intros bs; [done|]. destruct bs as [|b bs]; [by rewrite !drop_nil|].
  change (unbytes (b :: bs)) with (bits 8 b ++ unbytes bs).
  replace (8 * S k)%nat with (8 + 8 * k)%nat by lia. rewrite <- drop_drop.
  by rewrite drop_app_length' by (by rewrite length_bits).
Qed.
Lemma take_unbytes k bs : take (8 * k) (unbytes bs) = unbytes (take k bs).
Proof.
  revert bs. induction k as [|k IH]; intros bs; [done|]. destruct bs as [|b bs]; [by rewrite take_nil|].
  change (unbytes (b :: bs)) with (bits 8 b ++ unbytes bs).
  replace (8 * S k)%nat with (length (bits 8 b) + 8 * k)%nat by (rewrite length_bits; lia).
  rewrite take_app_add. cbn [take]. by rewrite IH.
Qed.
Lemma byte_at_unbytes bs i : (i < length bs)%nat → byte_at (unbytes bs) i = bits 8 (get bs i).
Proof.
  intros [b Hb]%lookup_lt_is_Some_2. unfold byte_at, get.
  rewrite Hb, (Nat.mul_comm i 8), drop_unbytes. change 8%nat with (8 * 1)%nat at 1.
  rewrite take_unbytes, (drop_S _ _ _ Hb). simpl. done.
Qed.
Lemma flatten_cons {A} (x : list A) l : flatten (x :: l) = x ++ flatten l.
Proof. done. Qed.
Lemma flatten_bits {A} (g : A → N) l : flatten ((λ i, bits 8 (g i)) <$> l) = unbytes (g <$> l).
Proof. induction l as [|x l IH]; [done|]. rewrite fmap_cons. exact (f_equal (app (bits 8 (g x))) IH). Qed.

Lemma array_bytes_S {W} n (l : list W) :
  array_bytes (S n) l = take 8 l :: array_bytes n (drop 8 l).
Proof.
  unfold array_bytes. cbn [seq]. rewrite fmap_cons. f_equal.
  rewrite <- fmap_S_seq, <- list_fmap_compose. apply list_fmap_ext.
  intros ? i _. unfold compose, byte_at. by rewrite drop_drop.
Qed.
Lemma to_bytes_ok n l : length l = (8 * n)%nat →
  byte_list n (to_bytes l) ∧ unbytes (to_bytes l) = l.
Proof.
  intros Hl. unfold to_bytes, array_bytes. rewrite Hl, Nat.mul_comm, Nat.div_mul by lia. fold (array_bytes n l).
  assert (∀ i, (i < n)%nat → length (byte_at l i) = 8%nat) as H8.
  { intros i Hi. unfold byte_at. rewrite length_take, length_drop. lia. }
  split; [split|].
  - unfold array_bytes. by rewrite !length_fmap, length_seq.
  - unfold array_bytes. rewrite Forall_fmap, Forall_fmap. apply Forall_forall. intros i [_ Hi]%elem_of_seq.
    simpl. pose proof (bval_lt (byte_at l i)) as Hlt. rewrite (H8 i) in Hlt by lia. done.
  - clear H8. revert l Hl. induction n as [|n IH]; intros l Hl; [by destruct l|].
    rewrite array_bytes_S, fmap_cons.
    change (bits 8 (bval (take 8 l)) ++ unbytes (bval <$> array_bytes n (drop 8 l)) = l).
    rewrite IH by (rewrite length_drop; lia).
    assert (length (take 8 l) = 8%nat) as Ht by (rewrite length_take; lia).
    pose proof (bits_bval (take 8 l)) as Hb. rewrite Ht in Hb. rewrite Hb. apply take_drop.
Qed.

Lemma get_lt l n i : byte_list n l → (get l i < 256)%N.
Proof.
  intros [_ Hf]. unfold get. destruct (l !! i) eqn:E; [|done].
  by apply (Forall_lookup_1 _ _ _ _ Hf E).
Qed.
Lemma array_bytes_unbytes n s : length s = n → array_bytes n (unbytes s) = bits 8 <$> s.
Proof.
  intros <-. unfold array_bytes. apply list_eq. intros i. rewrite !list_lookup_fmap.
  destruct (decide (i < length s)%nat) as [Hi|Hi].
  - rewrite lookup_seq_lt by done. simpl. rewrite byte_at_unbytes by done.
    unfold get. by destruct (lookup_lt_is_Some_2 s i Hi) as [b ->].
  - rewrite !lookup_ge_None_2; [done|lia|rewrite length_seq; lia].
Qed.
Lemma flatten_unbytes l : flatten (unbytes <$> l) = unbytes (flatten l).
Proof.
  induction l as [|x l IH]; [done|]. rewrite fmap_cons.
  change (unbytes x ++ flatten (unbytes <$> l) = unbytes (x ++ flatten l)).
  by rewrite unbytes_app, IH.
Qed.

Lemma byte_list_4 l : byte_list 4 l → ∃ A B C D, l = [A; B; C; D] ∧
  (A < 256 ∧ B < 256 ∧ C < 256 ∧ D < 256)%N.
Proof.
  intros [Hl Hf]. destruct l as [|A [|B [|C [|D []]]]]; try done.
  rewrite !Forall_cons in Hf. naive_solver.
Qed.
Lemma byte_list_take_drop n k m l :
  byte_list m l → (n + k ≤ m)%nat → byte_list n (take n (drop k l)).
Proof.
  intros [Hl Hf] Hm. split; [rewrite length_take, length_drop; lia|].
  by apply Forall_take, Forall_drop.
Qed.
Lemma byte_list_app n m a b : byte_list n a → byte_list m b → byte_list (n + m) (a ++ b).
Proof. intros [<- ?] [<- ?]. split; [apply length_app|]. by apply Forall_app. Qed.
Lemma flatten_byte_list n m ls :
  length ls = m → Forall (byte_list n) ls → byte_list (m * n) (flatten ls).
Proof.
  intros <-. induction 1 as [|l ls Hl _ IH]; [done|]. by apply byte_list_app.
Qed.
Lemma be_value_cons x l :
  be_value (x :: l) = (x * 256 ^ N.of_nat (length l) + be_value l)%N.
Proof.
  unfold be_value. cbn [foldl]. rewrite N.mul_0_r, N.add_0_l. revert x.
  induction l as [|y l IH] using rev_ind; intros x; [simpl; lia|].
  rewrite !foldl_app, length_app. cbn [foldl length]. rewrite IH.
  rewrite Nat.add_1_r, Nat2N.inj_succ, N.pow_succ_r'. lia.
Qed.
Lemma bval_be_value l : Forall (λ v, v < 256)%N l →
  bval (unbytes (reverse l)) = be_value l.
Proof.
  induction 1 as [|x l Hx _ IH]; [done|].
  rewrite reverse_cons, unbytes_app, bval_app, IH, be_value_cons, length_unbytes, length_reverse.
  unfold unbytes at 1. cbn [mbind list_bind]. rewrite app_nil_r, bval_bits_small by done.
  unfold pow2. rewrite Nat2N.inj_mul, N.pow_mul_r. change (2 ^ N.of_nat 8)%N with 256%N. lia.
Qed.
Lemma be_bytes_S n v :
  be_bytes (S n) v = ((v / 256 ^ N.of_nat n) mod 256)%N :: be_bytes n v.
Proof.
  unfold be_bytes. cbn [seq]. rewrite fmap_cons. f_equal.
  { by replace (S n - 1 - 0)%nat with n by lia. }
  rewrite <- fmap_S_seq, <- list_fmap_compose. apply list_fmap_ext. intros ? i _.
  unfold compose. by replace (S n - 1 - S i)%nat with (n - 1 - i)%nat by lia.
Qed.
Lemma be_value_bytes n v : be_value (be_bytes n v) = (v mod 256 ^ N.of_nat n)%N.
Proof.
  induction n as [|n IH]; [by rewrite N.mod_1_r|].
  rewrite be_bytes_S, be_value_cons, IH. unfold be_bytes. rewrite length_fmap, length_seq.
  rewrite Nat2N.inj_succ, N.pow_succ_r', (N.mul_comm 256), N.Div0.mod_mul_r. lia.
Qed.
Lemma be_bytes_mod n k v : (n ≤ k)%nat →
  be_bytes n (v mod 256 ^ N.of_nat k) = be_bytes n v.
Proof.
  intros Hn. apply list_fmap_ext. intros ? i [-> Hi]%lookup_seq. cbn [Nat.add].
  change 256%N with (2 ^ 8)%N. rewrite <- !N.pow_mul_r. apply N.bits_inj. intros j.
  destruct (N.ltb_spec j 8).
  - rewrite !N.mod_pow2_bits_low, !N.div_pow2_bits, N.mod_pow2_bits_low by lia. done.
  - by rewrite !N.mod_pow2_bits_high.
Qed.
Lemma be_bytes_value l : Forall (λ v, v < 256)%N l → be_bytes (length l) (be_value l) = l.
Proof.
  induction 1 as [|x l Hx Hl IH]; [done|]. cbn [length].
  assert (256 ^ N.of_nat (length l) ≠ 0)%N by (by apply N.pow_nonzero).
  assert (be_value l < 256 ^ N.of_nat (length l))%N as Hlt.
  { rewrite <- IH at 1. rewrite be_value_bytes. by apply N.mod_lt. }
  rewrite be_bytes_S, be_value_cons. f_equal.
  - rewrite N.div_add_l, N.div_small, N.add_0_r by done. by apply N.mod_small.
  - rewrite <- (be_bytes_mod _ (length l)), N.add_comm, N.Div0.mod_add, N.mod_small by done. done.
Qed.

Lemma byte_list_be n v : byte_list n (be_bytes n v).
Proof.
  split; [unfold be_bytes; by rewrite length_fmap, length_seq|].
  apply Forall_fmap, Forall_forall. intros i _. by apply N.mod_lt.
Qed.
Lemma byte_at_bits v i : (i < 8)%nat → (v < 2 ^ 64)%N →
  byte_at (bits 64 v) i = bits 8 ((v / 256 ^ N.of_nat i) mod 256).
Proof.
  intros Hi Hv. unfold byte_at. apply bval_inj.
  { rewrite length_take, length_drop, !length_bits. lia. }
  rewrite bval_take, bval_drop, bval_bits_small by exact Hv.
  rewrite bval_bits_small by (by apply N.mod_lt). f_equal. f_equal. unfold pow2.
  rewrite Nat2N.inj_mul, N.mul_comm, N.pow_mul_r. done.
Qed.

Lemma unbytes_lookup bs i k : (i < length bs)%nat → (k < 8)%nat →
  unbytes bs !! (8 * i + k)%nat = Some (N.testbit (get bs i) (N.of_nat k)).
Proof.
  intros Hi Hk. pose proof (byte_at_unbytes bs i Hi) as Hb. unfold byte_at in Hb.
  apply (f_equal (lookup k)) in Hb.
  rewrite lookup_take_lt, lookup_drop, bits_lookup in Hb by done.
  rewrite <- Hb. f_equal. lia.
Qed.
Lemma length_be_bytes n v : length (be_bytes n v) = n.
Proof. unfold be_bytes. by rewrite length_fmap, length_seq. Qed.
Lemma get_be_bytes n v i : (i < n)%nat →
  get (be_bytes n v) i = ((v / 256 ^ N.of_nat (n - 1 - i)) mod 256)%N.
Proof. intros Hi. unfold get, be_bytes. by rewrite list_lookup_fmap, lookup_seq_lt. Qed.
(** A bit of a big-endian number, in its bytes. *)
Lemma testbit_be_bytes n v i k : (i < n)%nat → (k < 8)%nat →
  N.testbit (get (be_bytes n v) i) (N.of_nat k) = N.testbit v (N.of_nat (8 * (n - 1 - i) + k)).
Proof.
  intros Hi Hk. rewrite get_be_bytes by done. change 256%N with (2 ^ 8)%N.
  rewrite N.mod_pow2_bits_low by lia. rewrite <- N.pow_mul_r, N.div_pow2_bits. f_equal. lia.
Qed.
Lemma flatten_length_same {A} n (ls : list (list A)) :
  Forall (λ l, length l = n) ls → length (flatten ls) = (n * length ls)%nat.
Proof.
  induction 1 as [|l ls Hl _ IH]; [simpl; lia|]. rewrite flatten_cons, length_app, IH. simpl. lia.
Qed.
