(* ===== verification/Block.v ===== *)
(** * Blocks and bool packing (runtime/core/block.hpp, utils.hpp)

    A [block] is a 128-bit vector, here the number with lane [x[0]] its low 64
    bits and lane [x[1]] its high 64 bits; memory order is little-endian.  The
    packing routines are modelled on the SSE2 path, instruction by instruction;
    the AVX2 path does the same in one step. *)

From S2P Require Import Prelude Bits Bytes.

(** ** Blocks *)
Abbreviation block := N (only parsing).
Definition lane0 (x : block) : N := (x mod 2 ^ 64)%N.
Definition lane1 (x : block) : N := (x / 2 ^ 64)%N.
Definition makeBlock (high low : N) : block := (high mod 2 ^ 64 * 2 ^ 64 + low mod 2 ^ 64)%N.
Definition getLSB (x : block) : bool := (N.land (lane0 x) 1 =? 1)%N.
Definition getBit (x : block) (i : Z) : outcome bool :=
  expecting ((0 <=? i) && (i <? 128))%Z "getBit: bit index out of range [0, 128)";;
  mret (if (i <? 64)%Z then (N.land (N.shiftr (lane0 x) (Z.to_N i)) 1 =? 1)%N
        else (N.land (N.shiftr (lane1 x) (Z.to_N (i - 64))) 1 =? 1)%N).
(** [_mm_shuffle_epi32(a, 78)] swaps the two 64-bit lanes. *)
Definition sigma (a : block) : block :=
  N.lxor (makeBlock (lane0 a) (lane1 a)) (N.land a (makeBlock 0xFFFFFFFFFFFFFFFF 0)).
Definition zero_block : block := makeBlock 0 0.
Definition all_one_block : block := makeBlock 0xFFFFFFFFFFFFFFFF 0xFFFFFFFFFFFFFFFF.
Definition select_mask (b : bool) : block := if b then all_one_block else zero_block.
Definition bit0_mask : block := makeBlock 0 1.
Definition bit1_mask : block := makeBlock 0 2.
Definition set_bit (a : block) (i : Z) : outcome block :=
  expecting ((0 <=? i) && (i <? 128))%Z "set_bit: bit index out of range [0, 128)";;
  mret (if (i <? 64)%Z then N.lor (makeBlock 0 (N.shiftl 1 (Z.to_N i))) a
        else N.lor (makeBlock (N.shiftl 1 (Z.to_N (i - 64))) 0) a).

(** The array operations; [res] and [dst] are the buffers written. *)
Definition xorBlocks_arr (x y : list block) (nblocks : Z) : outcome (list block) :=
  expecting (0 <=? nblocks)%Z "xorBlocks_arr: negative block count";;
  mret (zip_with N.lxor (take (Z.to_nat nblocks) x) y).
Definition xorBlocksTo_arr (dst src : list block) (nblocks : Z) : outcome (list block) :=
  expecting (0 <=? nblocks)%Z "xorBlocksTo_arr: negative block count";;
  mret (zip_with N.lxor (take (Z.to_nat nblocks) dst) src ++ drop (Z.to_nat nblocks) dst).
Definition xorBlocks_bcast (x : list block) (y : block) (nblocks : Z) : outcome (list block) :=
  expecting (0 <=? nblocks)%Z "xorBlocks_arr: negative block count";;
  mret ((λ b, N.lxor b y) <$> take (Z.to_nat nblocks) x).
Definition cmpBlock (x y : list block) (nblocks : Z) : outcome bool :=
  expecting (0 <=? nblocks)%Z "cmpBlock: negative block count";;
  mret (foldl (λ acc '(a, b), N.lor acc (N.lxor a b)) 0%N
    (zip (take (Z.to_nat nblocks) x) y) =? 0)%N.

Definition block_ok (x : block) : Prop := (x < 2 ^ 128)%N.

(** ** Packing bools *)
(** SSE2: compare bytes with zero, and gather the bytes' top bits. *)
Definition cmpeq_epi8_zero (v : list N) : list N := (λ b, if (b =? 0)%N then 0xff%N else 0%N) <$> v.
Definition movemask_epi8 (v : list N) : N := bval ((λ b, N.testbit b 7) <$> v).
Definition bytes_to_bits32 (v : list N) : N :=
  let lo := cmpeq_epi8_zero (take 16 v) in
  let hi := cmpeq_epi8_zero (drop 16 v) in
  N.lxor (N.lor (movemask_epi8 lo) (N.shiftl (movemask_epi8 hi) 16)) (N.ones 32).
(** Bytes in memory order. *)
Definition le_bytes (n : nat) (v : N) : list N :=
  (λ i, (v / 256 ^ N.of_nat i) mod 256)%N <$> seq 0 n.
(** Spread each byte over eight lanes, keep one bit in each, clamp to one. *)
Definition bits32_to_bytes (v : N) : list N :=
  let bytes := le_bytes 4 v in
  (λ i, N.min (N.land (get bytes (i / 8)) (2 ^ N.of_nat (i mod 8))) 1) <$> seq 0 32.

(** [memcpy] of [src] to offset [i] of [out]. *)
Definition store (out : list N) (i : nat) (src : list N) : list N :=
  take i out ++ src ++ drop (i + length src) out.
Definition store_bit (out : list N) (i : nat) (b : bool) : list N :=
  let mask := N.shiftl 1 (N.of_nat (i mod 8)) in
  alter (λ o, N.lor (N.ldiff o mask) (N.shiftl (N.b2n b) (N.of_nat (i mod 8)))) (i / 8)%nat out.
(** Elements are bytes, nonzero for true. *)
Definition bools_to_bits (out bools : list N) (len : Z) : outcome (list N) :=
  expecting (0 <=? len)%Z "bools_to_bits: negative bit count";;
  let len := Z.to_nat len in
  let full32 := (len / 32)%nat in
  let out := foldl (λ out i, store out (i * 4) (le_bytes 4 (bytes_to_bits32 (take 32 (drop (i * 32) bools)))))
               out (seq 0 full32) in
  mret (foldl (λ out i, store_bit out i (negb (get bools i =? 0)%N)) out
          (seq (full32 * 32) (len - full32 * 32))).
Definition le_value (l : list N) : N := foldr (λ b v, b + 256 * v)%N 0%N l.
(** [bools] is overwritten up to [len]. *)
Definition bits_to_bools (input : list N) (len : Z) : outcome (list N) :=
  expecting (0 <=? len)%Z "bits_to_bools: negative bit count";;
  let len := Z.to_nat len in
  let full32 := (len / 32)%nat in
  mret (flatten ((λ i, bits32_to_bytes (le_value (take 4 (drop (i * 4) input)))) <$> seq 0 full32) ++
        ((λ i, N.land (N.shiftr (get input (i / 8)) (N.of_nat (i mod 8))) 1)
           <$> seq (full32 * 32) (len - full32 * 32))).
Definition bool_to_block (data : list N) : outcome block :=
  out ← bools_to_bits (replicate 16 0%N) data 128; mret (le_value out).
(** [bits_to_bools(bits, &x, 128)]. *)
Definition block_to_bools (x : block) : outcome (list N) := bits_to_bools (le_bytes 16 x) 128.

(** ** Bytes and bits of numbers, least significant first *)
Lemma bits_S n v : bits (S n) v = N.odd v :: bits n (N.div2 v).
Proof. done. Qed.
Lemma bits_add n m v : bits (n + m) v = bits n v ++ bits m (v / pow2 n).
Proof.
  apply list_eq. intros i. destruct (decide (i < n)%nat); [|destruct (decide (i < n + m)%nat)].
  - rewrite lookup_app_l by (rewrite length_bits; lia). by rewrite !bits_lookup by lia.
  - rewrite lookup_app_r by (rewrite length_bits; lia). rewrite length_bits, !bits_lookup by lia.
    unfold pow2. rewrite N.div_pow2_bits. do 2 f_equal. lia.
  - by rewrite !lookup_ge_None_2 by (rewrite ?length_app, ?length_bits; lia).
Qed.
Lemma le_bytes_S n v : le_bytes (S n) v = (v mod 256)%N :: le_bytes n (v / 256).
Proof.
  unfold le_bytes. cbn [seq]. rewrite fmap_cons. f_equal; [by rewrite N.div_1_r|].
  rewrite <- fmap_S_seq, <- list_fmap_compose. apply list_fmap_ext. intros ? i _.
  unfold compose. rewrite Nat2N.inj_succ, N.pow_succ_r', N.Div0.div_div. done.
Qed.
Lemma unbytes_le_bytes n v : unbytes (le_bytes n v) = bits (8 * n) v.
Proof.
  revert v. induction n as [|n IH]; intros v; [done|]. rewrite le_bytes_S.
  replace (8 * S n)%nat with (8 + 8 * n)%nat by lia. rewrite bits_add, <- IH.
  unfold unbytes at 1. cbn [mbind list_bind]. f_equal. apply (bits_mod 8).
Qed.
Lemma length_le_bytes n v : length (le_bytes n v) = n.
Proof. unfold le_bytes. by rewrite length_fmap, length_seq. Qed.
Lemma le_bytes_lt n v : Forall (λ b, b < 256)%N (le_bytes n v).
Proof. apply Forall_fmap, Forall_forall. intros i _. by apply N.mod_lt. Qed.
Lemma le_value_bval l : Forall (λ b, b < 256)%N l → le_value l = bval (unbytes l).
Proof.
  induction 1 as [|b l Hb _ IH]; [done|]. change (unbytes (b :: l)) with (bits 8 b ++ unbytes l).
  rewrite bval_app, length_bits, bval_bits_small by done. simpl. rewrite IH.
  change (pow2 8) with 256%N. lia.
Qed.
Lemma le_value_bytes n v : le_value (le_bytes n v) = (v mod 256 ^ N.of_nat n)%N.
Proof.
  rewrite le_value_bval, unbytes_le_bytes, bval_bits by apply le_bytes_lt. f_equal.
  unfold pow2. rewrite Nat2N.inj_mul, N.pow_mul_r. done.
Qed.
Lemma bits_le_value l : Forall (λ b, b < 256)%N l → bits (8 * length l) (le_value l) = unbytes l.
Proof.
  intros Hl. rewrite le_value_bval by done. rewrite <- length_unbytes. apply bits_bval.
Qed.
Lemma unbytes_inj l k : Forall (λ b, b < 256)%N l → Forall (λ b, b < 256)%N k →
  unbytes l = unbytes k → l = k.
Proof.
  intros Hl. revert k. induction Hl as [|x l Hx _ IH]; intros k Hk He.
  - destruct Hk; [done|]. by apply (f_equal length) in He.
  - destruct Hk as [|y k Hy Hk]; [by apply (f_equal length) in He|].
    apply (app_inj_1 (bits 8 x) (bits 8 y)) in He as [He1 He2]; [|by rewrite !length_bits].
    f_equal; [|by apply IH]. apply (f_equal bval) in He1. by rewrite !bval_bits_small in He1.
Qed.

(** ** The 32-element steps *)
Definition truth (b : N) : bool := negb (b =? 0)%N.
Lemma movemask_zero v : movemask_epi8 (cmpeq_epi8_zero v) = bval ((λ b, negb (truth b)) <$> v).
Proof.
  unfold movemask_epi8, cmpeq_epi8_zero. rewrite <- list_fmap_compose. f_equal.
  apply list_fmap_ext. intros ? b _. unfold compose, truth. by destruct (b =? 0)%N.
Qed.
Lemma bytes_to_bits32_ok v : length v = 32%nat → bits 32 (bytes_to_bits32 v) = truth <$> v.
Proof.
  intros Hv. unfold bytes_to_bits32. rewrite !movemask_zero.
  set (z := λ b, negb (truth b)).
  assert (length (z <$> take 16 v) = 16%nat) as Ht by (rewrite length_fmap, length_take; lia).
  replace 16%N with (N.of_nat (length (z <$> take 16 v))) by (by rewrite Ht).
  rewrite lor_bval, <- bval_app, <- fmap_app, take_drop.
  rewrite bits_lxor. pose proof (bits_bval (z <$> v)) as Hb. rewrite length_fmap, Hv in Hb. rewrite Hb.
  assert (bits 32 (N.ones 32) = replicate 32 true) as -> by reflexivity. rewrite <- Hv. clear.
  induction v as [|b v IH]; [done|]. cbn [length replicate]. rewrite !fmap_cons. cbn [zip_with].
  rewrite IH. f_equal. unfold z. by rewrite xorb_true_r, negb_involutive.
Qed.
Lemma land_pow2 b k : N.land b (2 ^ k) = if N.testbit b k then (2 ^ k)%N else 0%N.
Proof.
  apply N.bits_inj. intros j. rewrite N.land_spec, N.pow2_bits_eqb.
  destruct (N.eqb_spec k j) as [->|Hne].
  - rewrite andb_true_r. destruct (N.testbit b j); [by rewrite N.pow2_bits_true|by rewrite N.bits_0].
  - rewrite andb_false_r. destruct (N.testbit b k); [by rewrite N.pow2_bits_false|by rewrite N.bits_0].
Qed.
Lemma bits32_to_bytes_ok v : bits32_to_bytes v = N.b2n <$> bits 32 v.
Proof.
  rewrite bits_testbit. unfold bits32_to_bytes. rewrite <- list_fmap_compose. apply list_fmap_ext.
  intros i ? [-> Hi]%lookup_seq. cbn [Nat.add]. unfold compose.
  pose proof (Nat.div_mod_eq i 8) as Hdm. pose proof (Nat.mod_upper_bound i 8).
  pose proof (unbytes_lookup (le_bytes 4 v) (i / 8) (i mod 8)) as Hu.
  rewrite <- Hdm, length_le_bytes in Hu. rewrite unbytes_le_bytes, bits_lookup in Hu by lia.
  apply (inj Some) in Hu; [|lia..]. rewrite Hu. clear Hu.
  rewrite land_pow2. destruct (N.testbit _ _); [|done].
  cbn [N.b2n]. apply N.min_r. assert (2 ^ N.of_nat (i mod 8) ≠ 0)%N by (by apply N.pow_nonzero). lia.
Qed.

(** ** The loops *)
Lemma unbytes_store out i n v : (i + n ≤ length out)%nat →
  unbytes (store out i (le_bytes n v)) =
    take (8 * i) (unbytes out) ++ bits (8 * n) v ++ drop (8 * (i + n)) (unbytes out).
Proof.
  intros Hi. unfold store. rewrite !unbytes_app, unbytes_le_bytes, length_le_bytes.
  by rewrite take_unbytes, drop_unbytes.
Qed.
Lemma unbytes_insert out i v : (i < length out)%nat →
  unbytes (<[i := v]> out) = take (8 * i) (unbytes out) ++ bits 8 v ++ drop (8 * S i) (unbytes out).
Proof.
  intros Hi. rewrite insert_take_drop, unbytes_app by done.
  change (unbytes (v :: drop (S i) out)) with (bits 8 v ++ unbytes (drop (S i) out)).
  by rewrite take_unbytes, drop_unbytes.
Qed.
Lemma shiftl_b2n b k i : N.testbit (N.shiftl (N.b2n b) k) i = b && (i =? k)%N.
Proof.
  destruct (N.ltb_spec i k).
  - rewrite N.shiftl_spec_low by done. destruct (N.eqb_spec i k); [lia|]. by rewrite andb_false_r.
  - rewrite N.shiftl_spec_high' by done. destruct (N.eqb_spec i k) as [->|].
    + rewrite N.sub_diag. by destruct b.
    + rewrite andb_false_r. destruct b; [|by rewrite N.bits_0]. apply (N.pow2_bits_false 0). lia.
Qed.
Lemma bits_store o k b : (k < 8)%nat →
  bits 8 (N.lor (N.ldiff o (N.shiftl 1 (N.of_nat k))) (N.shiftl (N.b2n b) (N.of_nat k))) =
    <[k := b]> (bits 8 o).
Proof.
  intros Hk. apply list_eq. intros i. destruct (decide (i < 8)%nat) as [Hi|Hi].
  2: { by rewrite !lookup_ge_None_2 by (rewrite ?length_insert, length_bits; lia). }
  rewrite bits_lookup, list_lookup_insert, bits_lookup by done. rewrite length_bits.
  rewrite N.lor_spec, N.ldiff_spec. change (N.shiftl 1 (N.of_nat k)) with (N.shiftl (N.b2n true) (N.of_nat k)).
  rewrite !shiftl_b2n. destruct (decide (i = k ∧ (i < 8)%nat)) as [[-> _]|Hne].
  - rewrite decide_True by done. rewrite N.eqb_refl. simpl. by rewrite andb_false_r, andb_true_r.
  - rewrite decide_False by naive_solver. destruct (N.eqb_spec (N.of_nat i) (N.of_nat k)); [naive_solver lia|].
    by rewrite !andb_false_r, andb_true_r, orb_false_r.
Qed.

Lemma insert_take_drop_bits (l : list bool) i k b : (8 * i + 8 ≤ length l)%nat → (k < 8)%nat →
  take (8 * i) l ++ <[k := b]> (take 8 (drop (8 * i) l)) ++ drop (8 * S i) l = <[(8 * i + k)%nat := b]> l.
Proof.
  intros Hi Hk. set (A := take (8 * i) l). set (B := take 8 (drop (8 * i) l)).
  assert (A ++ B ++ drop (8 * S i) l = l) as Hl.
  { unfold A, B. replace (8 * S i)%nat with (8 * i + 8)%nat by lia.
    by rewrite <- drop_drop, take_drop, take_drop. }
  rewrite <- Hl at 2. replace (8 * i + k)%nat with (length A + k)%nat
    by (unfold A; rewrite length_take; lia).
  rewrite insert_app_r, insert_app_l; [done|]. unfold B. rewrite length_take, length_drop. lia.
Qed.
Lemma list_alter_lookup {A} (f : A → A) (l : list A) (i : nat) x : l !! i = Some x → alter f i l = <[i := f x]> l.
Proof. intros Hx. rewrite list_insert_alter. apply list_alter_ext; [|done]. naive_solver. Qed.
Lemma unbytes_store_bit out i b : (i < 8 * length out)%nat →
  unbytes (store_bit out i b) = <[i := b]> (unbytes out).
Proof.
  intros Hi. unfold store_bit. pose proof (Nat.div_mod_eq i 8). pose proof (Nat.mod_upper_bound i 8).
  destruct (lookup_lt_is_Some_2 out (i / 8)) as [o Ho]; [lia|].
  rewrite (list_alter_lookup _ _ _ _ Ho), unbytes_insert, bits_store by lia.
  assert (bits 8 o = take 8 (drop (8 * (i / 8)) (unbytes out))) as ->.
  { rewrite drop_unbytes, (drop_S _ _ _ Ho).
    change (unbytes (o :: ?l)) with (bits 8 o ++ unbytes l). by rewrite take_app_length'. }
  rewrite insert_take_drop_bits by (rewrite ?length_unbytes; lia). f_equal. lia.
Qed.

(** Both loops of [bools_to_bits], after [n] bools. *)
Definition packed (bools : list N) (n : nat) (l : list bool) : list bool :=
  take n (truth <$> bools) ++ drop n l.
Lemma packed_32 bools i out : (32 * S i ≤ length bools)%nat → (32 * S i ≤ 8 * length out)%nat →
  unbytes (store out (i * 4) (le_bytes 4 (bytes_to_bits32 (take 32 (drop (i * 32) bools))))) =
    take (32 * i) (unbytes out) ++ (truth <$> take 32 (drop (32 * i) bools)) ++
    drop (32 * S i) (unbytes out).
Proof.
  intros Hb Ho. rewrite unbytes_store by lia.
  replace (8 * (i * 4))%nat with (32 * i)%nat by lia. replace (8 * (i * 4 + 4))%nat with (32 * S i)%nat by lia.
  replace (i * 32)%nat with (32 * i)%nat by lia. do 2 f_equal.
  apply bytes_to_bits32_ok. rewrite length_take, length_drop. lia.
Qed.
Lemma packed_step_32 bools i l : (32 * S i ≤ length bools)%nat →
  take (32 * i) (packed bools (32 * i) l) ++ (truth <$> take 32 (drop (32 * i) bools)) ++
    drop (32 * S i) (packed bools (32 * i) l) = packed bools (32 * S i) l.
Proof.
  intros Hb. unfold packed.
  assert (length (take (32 * i) (truth <$> bools)) = (32 * i)%nat) as Ht
    by (rewrite length_take, length_fmap; lia).
  rewrite take_app_length' by done. replace (32 * S i)%nat with (32 * i + 32)%nat by lia.
  rewrite <- (drop_drop _ 32 (32 * i)), drop_app_length', drop_drop by done.
  rewrite fmap_take, fmap_drop. rewrite app_assoc. f_equal. apply take_take_drop.
Qed.
Lemma packed_step bools i l : (i < length bools)%nat → (i < length l)%nat →
  <[i := truth (get bools i)]> (packed bools i l) = packed bools (S i) l.
Proof.
  intros [b Hb]%lookup_lt_is_Some_2 [x Hx]%lookup_lt_is_Some_2. unfold packed, get. rewrite Hb.
  pose proof (lookup_lt_Some _ _ _ Hb).
  replace i with (length (take i (truth <$> bools)) + 0)%nat at 1 by (rewrite length_take, length_fmap; lia).
  rewrite insert_app_r, (drop_S _ _ _ Hx).
  rewrite (take_S_r _ _ (truth b)) by (by rewrite list_lookup_fmap, Hb). by rewrite <- app_assoc.
Qed.

Lemma bools_to_bits_ok out bools (len : nat) :
  (len ≤ length bools)%nat → (len ≤ 8 * length out)%nat →
  ∃ out', bools_to_bits out bools (Z.of_nat len) = Ret out' ∧
    unbytes out' = packed bools len (unbytes out).
Proof.
  intros Hb Ho. unfold bools_to_bits.
  destruct (Z.leb_spec 0 (Z.of_nat len)); [|lia]. cbn [expecting mbind outcome_bind].
  rewrite Nat2Z.id. eexists. split; [reflexivity|].
  pose proof (Nat.div_mod_eq len 32) as Hdm. set (q := (len / 32)%nat) in *.
  match goal with |- unbytes (foldl ?F (foldl ?G out _) _) = _ =>
    assert (∀ n, (n ≤ q)%nat → unbytes (foldl G out (seq 0 n)) = packed bools (32 * n) (unbytes out)) as H1;
    [|assert (∀ n, (n ≤ len - q * 32)%nat →
      unbytes (foldl F (foldl G out (seq 0 q)) (seq (q * 32) n)) = packed bools (32 * q + n) (unbytes out)) as H2]
  end.
  - intros n. induction n as [|n IH]; intros Hn; [done|]. rewrite seq_S, foldl_app. cbn [foldl Nat.add].
    assert (∀ l, length (unbytes l) = length (packed bools (32 * n) (unbytes out)) → length l = length out) as Hlen.
    { intros l Hl. unfold packed in Hl.
      rewrite length_app, length_take, length_drop, length_fmap, !length_unbytes in Hl. lia. }
    rewrite packed_32, IH; [|lia|lia|].
    + by apply packed_step_32; lia.
    + rewrite (Hlen (foldl _ _ _)) by (by rewrite IH by lia). lia.
  - intros n. induction n as [|n IH]; intros Hn; [rewrite Nat.add_0_r; by apply H1|].
    rewrite seq_S, foldl_app. cbn [foldl].
    rewrite unbytes_store_bit, IH by (rewrite <- ?length_unbytes, ?IH by lia; unfold packed;
      rewrite ?length_app, ?length_take, ?length_drop, ?length_fmap, ?length_unbytes; lia).
    replace (q * 32 + n)%nat with (32 * q + n)%nat by lia.
    replace (32 * q + S n)%nat with (S (32 * q + n)) by lia.
    apply packed_step; [lia|rewrite length_unbytes; lia].
  - rewrite H2 by lia. f_equal. lia.
Qed.

Lemma byte_of_testbit v : (∀ i, (8 ≤ i)%N → N.testbit v i = false) → (v < 256)%N.
Proof.
  intros H. replace v with (v mod 2 ^ 8)%N; [by apply N.mod_lt|].
  apply N.bits_inj. intros i. destruct (N.ltb_spec i 8).
  - by rewrite N.mod_pow2_bits_low.
  - by rewrite N.mod_pow2_bits_high, H.
Qed.
Lemma byte_testbit_high v i : (v < 256)%N → (8 ≤ i)%N → N.testbit v i = false.
Proof.
  intros Hv Hi. rewrite <- (N.mod_small v (2 ^ 8)) by done. by rewrite N.mod_pow2_bits_high.
Qed.
Lemma store_bit_bytes out i b : Forall (λ v, v < 256)%N out → Forall (λ v, v < 256)%N (store_bit out i b).
Proof.
  intros Ho. unfold store_bit. apply Forall_alter; [done|]. intros o Hoi Hlt.
  apply byte_of_testbit. intros j Hj. pose proof (Nat.mod_upper_bound i 8).
  rewrite N.lor_spec, N.ldiff_spec, shiftl_b2n, byte_testbit_high by done.
  destruct (N.eqb_spec j (N.of_nat (i mod 8))); [lia|]. by rewrite andb_false_r.
Qed.
Lemma foldl_Forall {A B} (P : A → Prop) (f : list A → B → list A) l out :
  (∀ out b, Forall P out → Forall P (f out b)) → Forall P out → Forall P (foldl f out l).
Proof. intros Hf. revert out. induction l; simpl; auto. Qed.
Lemma bools_to_bits_bytes out bools len out' : Forall (λ v, v < 256)%N out →
  bools_to_bits out bools len = Ret out' → Forall (λ v, v < 256)%N out'.
Proof.
  intros Ho. unfold bools_to_bits. destruct (0 <=? len)%Z; [|done].
  cbn [expecting mbind outcome_bind]. intros [= <-].
  apply foldl_Forall; [intros; by apply store_bit_bytes|].
  apply foldl_Forall; [|done]. intros o i Hoi. unfold store.
  apply Forall_app. split; [by apply Forall_take|]. apply Forall_app.
  split; [apply le_bytes_lt|by apply Forall_drop].
Qed.

Lemma fmap_take_seq {A} (f : nat → A) n k : take k (f <$> seq 0 n) = f <$> seq 0 (k `min` n).
Proof. rewrite <- fmap_take. f_equal. apply take_seq. Qed.
Lemma bits_to_bools_ok input (len : nat) :
  Forall (λ v, v < 256)%N input → (len ≤ 8 * length input)%nat →
  bits_to_bools input (Z.of_nat len) = Ret (N.b2n <$> take len (unbytes input)).
Proof.
  intros Hi Hl. unfold bits_to_bools.
  destruct (Z.leb_spec 0 (Z.of_nat len)); [|lia]. cbn [expecting mbind outcome_bind].
  rewrite Nat2Z.id. cbn [mret outcome_ret]. f_equal.
  pose proof (Nat.div_mod_eq len 32) as Hdm. set (q := (len / 32)%nat) in *.
  assert (∀ n, (n ≤ q)%nat →
    flatten ((λ i, bits32_to_bytes (le_value (take 4 (drop (i * 4) input)))) <$> seq 0 n) =
      N.b2n <$> take (32 * n) (unbytes input)) as H1.
  { intros n. induction n as [|n IH]; intros Hn; [done|].
    rewrite seq_S, fmap_app, join_app, IH by lia. cbn [fmap list_fmap mjoin list_join Nat.add].
    rewrite app_nil_r, bits32_to_bytes_ok, <- fmap_app. f_equal.
    assert (length (take 4 (drop (n * 4) input)) = 4%nat) as H4 by (rewrite length_take, length_drop; lia).
    pose proof (bits_le_value (take 4 (drop (n * 4) input))) as Hb. rewrite H4 in Hb.
    change (8 * 4)%nat with 32%nat in Hb.
    rewrite Hb by (by apply Forall_take, Forall_drop).
    rewrite <- (take_unbytes 4), <- drop_unbytes. replace (8 * (n * 4))%nat with (32 * n)%nat by lia.
    replace (32 * S n)%nat with (32 * n + 32)%nat by lia. apply take_take_drop. }
  rewrite H1 by done. replace len with (32 * q + (len - q * 32))%nat at 2 by lia.
  rewrite <- take_take_drop, fmap_app. f_equal.
  apply list_eq. intros j. rewrite !list_lookup_fmap.
  destruct (decide (j < len - q * 32)%nat) as [Hj|Hj].
  2: { rewrite !lookup_ge_None_2; [done|rewrite length_take; lia|rewrite length_seq; lia]. }
  rewrite lookup_seq_lt, lookup_take_lt, lookup_drop by done. cbn [fmap option_fmap option_map].
  set (i := (q * 32 + j)%nat). replace (32 * q + j)%nat with i by (unfold i; lia).
  pose proof (Nat.div_mod_eq i 8) as Hd8. pose proof (Nat.mod_upper_bound i 8).
  pose proof (unbytes_lookup input (i / 8) (i mod 8)) as Hu. rewrite <- Hd8 in Hu.
  rewrite Hu by (unfold i in *; lia). cbn [fmap option_fmap option_map]. f_equal.
  change (N.land ?x 1) with (N.land x (N.ones 1)). rewrite N.land_ones. change (2 ^ 1)%N with 2%N.
  by rewrite <- N.bit0_mod, N.shiftr_spec'.
Qed.

(** ** Property *)

(** packing bools.  [bools_to_bits] writes the truth values of the first
    [len] elements to the first [len] bits of the buffer and keeps every other
    bit of it, and [bits_to_bools] reads them back as 0 and 1, for every length,
    the last partial byte and the 32-element fast path included. *)
Theorem bools_bits_roundtrip (out bools : list N) (len : nat) :
  Forall (λ v, v < 256)%N out → (len ≤ length bools)%nat → (len ≤ 8 * length out)%nat →
  ∃ out', bools_to_bits out bools (Z.of_nat len) = Ret out' ∧
    length out' = length out ∧
    drop len (unbytes out') = drop len (unbytes out) ∧
    bits_to_bools out' (Z.of_nat len) = Ret ((λ b, N.b2n (truth b)) <$> take len bools).
Proof.
  intros Ho Hb Hl. destruct (bools_to_bits_ok out bools len Hb Hl) as (out' & Hr & Hp).
  pose proof (bools_to_bits_bytes _ _ _ _ Ho Hr) as Ho'.
  assert (length (take len (truth <$> bools)) = len) as Ht by (rewrite length_take, length_fmap; lia).
  assert (length out' = length out) as Hlen.
  { apply (f_equal length) in Hp. unfold packed in Hp.
    rewrite length_app, Ht, length_drop, !length_unbytes in Hp. lia. }
  exists out'. split; [done|]. split; [done|]. split.
  - rewrite Hp. unfold packed. by rewrite drop_app_length'.
  - rewrite bits_to_bools_ok, Hp by (done || lia). unfold packed.
    rewrite take_app_length' by done. rewrite fmap_take, <- list_fmap_compose. by rewrite fmap_take.
Qed.
Lemma bools_bits_roundtrip_witness :
  (∃ out', bools_to_bits [0xff; 0xff; 0xff; 0xff; 0xff]%N (replicate 20 7 ++ replicate 15 0)%N (Z.of_nat 35) = Ret out' ∧
    length out' = 5%nat ∧ drop 35 (unbytes out') = drop 35 (unbytes [0xff; 0xff; 0xff; 0xff; 0xff]%N) ∧
    bits_to_bools out' (Z.of_nat 35) =
      Ret ((λ b, N.b2n (truth b)) <$> take 35 (replicate 20 7 ++ replicate 15 0)%N)).
Proof. apply (bools_bits_roundtrip [255; 255; 255; 255; 255]%N); [by repeat constructor|simpl; lia|simpl; lia]. Defined.
