(* ===== verification/NumericKernels.v ===== *)
(** * Numeric kernels (circuits/numeric_kernels.h)

    The bare-wire arithmetic kernels, written call by call in the source's
    order, least significant bit first.  A pointer with a size is the list of
    the wires it spans; an out-parameter is a result; a null out-parameter is a
    flag.  C++ leaves the order of evaluation of the two nested calls of
    [or_gate] open; the model takes them left to right. *)

From S2P Require Import Prelude Program Validate Context Execute Kernel Bits.

(** [clog2_ceil(n)] and [bits_for(n)]: the loops, with [int] widths as fuel. *)
Fixpoint clog2_loop (fuel : nat) (n b : N) : N :=
  match fuel with
  | O => b
  | S fuel => if (N.shiftl 1 b <? n)%N then clog2_loop fuel n (b + 1) else b
  end.
Definition clog2_ceil (n : N) : N := clog2_loop 31 n 0.
Fixpoint bits_for_loop (fuel : nat) (n b : N) : N :=
  match fuel with
  | O => b
  | S fuel => if (N.shiftl 1 b <=? n)%N then bits_for_loop fuel n (b + 1) else b
  end.
Definition bits_for (n : N) : N := bits_for_loop 31 n 1.


Section kernels.
Context {W : Type}.

Definition or_gate (a b : W) : Kernel W W :=
  x ← kxor a b; y ← kand a b; kxor x y.

(** The full-adder loop; with [skip_last] the top bit takes no And. *)
Fixpoint add_loop (skip_last : bool) (op1 op2 : list W) (carry : W) : Kernel W (list W * W) :=
  match op1, op2 with
  | a :: op1, b :: op2 =>
      if skip_last && is_nil op1 then
        x ← kxor carry b; d ← kxor x a; mret ([d], carry)
      else
        axc ← kxor a carry;
        bxc ← kxor b carry;
        d ← kxor a bxc;
        t ← kand axc bxc;
        carry' ← kxor carry t;
        '(dest, c) ← add_loop skip_last op1 op2 carry';
        mret (d :: dest, c)
  | _, _ => mret ([], carry)
  end.
(** [carry_in]: [None] is a null pointer.  The carry-out is [None] when it is
    not asked for, and also when it is asked for of an empty sum without a
    carry-in: the source then leaves the variable unwritten. *)
Definition add_full (want_carry : bool) (op1 op2 : list W) (carry_in : option W) :
    Kernel W (list W * option W) :=
  if is_nil op1 then mret ([], if want_carry then carry_in else None) else
  carry ← (match carry_in with Some w => mret w | None => kpub false end);
  '(dest, c) ← add_loop (negb want_carry) op1 op2 carry;
  mret (dest, if want_carry then Some c else None).

Fixpoint sub_loop (skip_last : bool) (op1 op2 : list W) (borrow : W) : Kernel W (list W * W) :=
  match op1, op2 with
  | a :: op1, b :: op2 =>
      if skip_last && is_nil op1 then
        x ← kxor a b; d ← kxor x borrow; mret ([d], borrow)
      else
        bxa ← kxor a b;
        bxc ← kxor borrow b;
        d ← kxor bxa borrow;
        t ← kand bxa bxc;
        borrow' ← kxor borrow t;
        '(dest, c) ← sub_loop skip_last op1 op2 borrow';
        mret (d :: dest, c)
  | _, _ => mret ([], borrow)
  end.
Definition sub_full (want_borrow : bool) (op1 op2 : list W) (borrow_in : option W) :
    Kernel W (list W * option W) :=
  if is_nil op1 then mret ([], if want_borrow then borrow_in else None) else
  borrow ← (match borrow_in with Some w => mret w | None => kpub false end);
  '(dest, c) ← sub_loop (negb want_borrow) op1 op2 borrow;
  mret (dest, if want_borrow then Some c else None).

Definition ripple_add (a b : list W) : Kernel W (list W) :=
  '(out, _) ← add_full false a b None; mret out.
Definition ripple_sub (a b : list W) : Kernel W (list W) :=
  '(out, _) ← sub_full false a b None; mret out.

Definition mux (sel t f : W) : Kernel W W :=
  x ← kxor t f; y ← kand sel x; kxor f y.

(** On an empty operand the source returns the unwritten [borrow]. *)
Definition less_than (a b : list W) : Kernel W W :=
  '(_, borrow) ← sub_full true a b None;
  match borrow with
  | Some w => mret w
  | None => KFatal "less_than: borrow not written"
  end.

Definition equal (a b : list W) : Kernel W W :=
  acc ← kpub true;
  kfold (λ acc '(x, y), d ← kxor x y; n ← knot d; kand acc n) acc (zip a b).

Definition if_then_else (tsrc fsrc : list W) (cond : W) : Kernel W (list W) :=
  kmap2 (λ t f, x ← kxor t f; a ← kand cond x; kxor a f) tsrc fsrc.

(** One row of the shift-add product, added at offset [i]. *)
Definition mul_row (op1 : list W) (N : nat) (sum : list W) (row : nat * W) : Kernel W (list W) :=
  let '(i, b) := row in
  tmp ← kmap (λ a, kand a b) (take (N - i) op1);
  '(s, _) ← add_full false (drop i sum) tmp None;
  mret (take i sum ++ s).
Definition mul_full (op1 op2 : list W) : Kernel W (list W) :=
  let N := length op1 in
  z ← kpub false;
  kfold (mul_row op1 N) (replicate N z) (zip (seq 0 N) op2).

(** [overflow[i]]: some bit of [op2] at or above [N - i] is set. *)
Fixpoint overflow_loop (acc : W) (bits : list W) : Kernel W (list W) :=
  match bits with
  | [] => mret [acc]
  | b :: bits => acc' ← or_gate acc b; r ← overflow_loop acc' bits; mret (acc :: r)
  end.
(** One step of restoring division; [quot] is built from the top. *)
Definition div_row (op2 : list W) (N : nat) (s : list W * list W) (row : nat * W) :
    Kernel W (list W * list W) :=
  let '(rem, quot) := s in
  let '(i, overflow) := row in
  '(tmp, b) ← sub_full true (drop i rem) (take (N - i) op2) None;
  match b with
  | None => KFatal "div_full: borrow not written"
  | Some b =>
      b ← or_gate b overflow;
      r ← if_then_else (drop i rem) tmp b;
      q ← knot b;
      mret (take i rem ++ r, q :: quot)
  end.
(** The quotient and the remainder; the caller drops a null output. *)
Definition div_full (op1 op2 : list W) : Kernel W (list W * list W) :=
  let N := length op1 in
  z ← kpub false;
  overflow ← overflow_loop z (take (N - 1) (reverse op2));
  '(rem, quot) ← kfold (div_row op2 N) (op1, []) (reverse (zip (seq 0 N) overflow));
  mret (quot, rem).
End kernels.

(** ** Parametricity *)
Section param.
Context {W1 W2 : Type}.
Implicit Types (R : wrel W1 W2).

Lemma krel_or_gate R a1 a2 b1 b2 :
  R a1 a2 → R b1 b2 → krel RW R (or_gate a1 b1) (or_gate a2 b2).
Proof. intros. unfold or_gate. kauto. Qed.
Lemma krel_mux R s1 s2 t1 t2 f1 f2 :
  R s1 s2 → R t1 t2 → R f1 f2 → krel RW R (mux s1 t1 f1) (mux s2 t2 f2).
Proof. intros. unfold mux. kauto. Qed.

Lemma krel_add_loop R skip a1 a2 b1 b2 c1 c2 :
  Forall2 R a1 a2 → Forall2 R b1 b2 → R c1 c2 →
  krel (RPair RL RW) R (add_loop skip a1 b1 c1) (add_loop skip a2 b2 c2).
Proof.
  intros Ha. revert R Ha b1 b2 c1 c2.
  induction a1 as [|x1 a1 IH] in a2 |- *; intros R Ha b1 b2 c1 c2 Hb Hc;
    inversion Ha as [|? x2 ? a2' Hx Ha']; subst; simpl; [by repeat constructor|].
  destruct Hb as [|y1 y2 b1 b2 Hy Hb]; [by repeat constructor|].
  assert (is_nil a2' = is_nil a1) as -> by (by destruct Ha').
  destruct (skip && is_nil a1); kauto.
Qed.
Lemma krel_sub_loop R skip a1 a2 b1 b2 c1 c2 :
  Forall2 R a1 a2 → Forall2 R b1 b2 → R c1 c2 →
  krel (RPair RL RW) R (sub_loop skip a1 b1 c1) (sub_loop skip a2 b2 c2).
Proof.
  intros Ha. revert R Ha b1 b2 c1 c2.
  induction a1 as [|x1 a1 IH] in a2 |- *; intros R Ha b1 b2 c1 c2 Hb Hc;
    inversion Ha as [|? x2 ? a2' Hx Ha']; subst; simpl; [by repeat constructor|].
  destruct Hb as [|y1 y2 b1 b2 Hy Hb]; [by repeat constructor|].
  assert (is_nil a2' = is_nil a1) as -> by (by destruct Ha').
  destruct (skip && is_nil a1); kauto.
Qed.
Hint Resolve krel_or_gate krel_mux krel_add_loop krel_sub_loop : kparam.

Lemma krel_opt_wire R c1 c2 :
  option_Forall2 R c1 c2 →
  krel RW R (match c1 with Some w => mret w | None => kpub false end)
    (match c2 with Some w => mret w | None => kpub false end).
Proof. intros []; kauto. Qed.
Hint Resolve krel_opt_wire : kparam.
Lemma krel_add_full R wc a1 a2 b1 b2 c1 c2 :
  Forall2 R a1 a2 → Forall2 R b1 b2 → option_Forall2 R c1 c2 →
  krel (RPair RL ROpt) R (add_full wc a1 b1 c1) (add_full wc a2 b2 c2).
Proof.
  intros Ha Hb Hc. unfold add_full.
  assert (is_nil a2 = is_nil a1) as -> by (by destruct Ha).
  destruct (is_nil a1), wc; kauto.
Qed.
Lemma krel_sub_full R wc a1 a2 b1 b2 c1 c2 :
  Forall2 R a1 a2 → Forall2 R b1 b2 → option_Forall2 R c1 c2 →
  krel (RPair RL ROpt) R (sub_full wc a1 b1 c1) (sub_full wc a2 b2 c2).
Proof.
  intros Ha Hb Hc. unfold sub_full.
  assert (is_nil a2 = is_nil a1) as -> by (by destruct Ha).
  destruct (is_nil a1), wc; kauto.
Qed.
Lemma option_none R : option_Forall2 R None None.
Proof. constructor. Qed.
Hint Resolve krel_add_full krel_sub_full option_none : kparam.

Lemma krel_ripple_add R a1 a2 b1 b2 :
  Forall2 R a1 a2 → Forall2 R b1 b2 → krel RL R (ripple_add a1 b1) (ripple_add a2 b2).
Proof. intros. unfold ripple_add. kauto. Qed.
Lemma krel_ripple_sub R a1 a2 b1 b2 :
  Forall2 R a1 a2 → Forall2 R b1 b2 → krel RL R (ripple_sub a1 b1) (ripple_sub a2 b2).
Proof. intros. unfold ripple_sub. kauto. Qed.
Lemma krel_less_than R a1 a2 b1 b2 :
  Forall2 R a1 a2 → Forall2 R b1 b2 → krel RW R (less_than a1 b1) (less_than a2 b2).
Proof.
  intros. unfold less_than. kstep.
  match goal with H : option_Forall2 _ _ _ |- _ => destruct H end; [kauto|constructor].
Qed.
Lemma Forall2_zip_pairs {A1 A2 B1 B2} (P : A1 → A2 → Prop) (Q : B1 → B2 → Prop) l1 l2 k1 k2 :
  Forall2 P l1 l2 → Forall2 Q k1 k2 →
  Forall2 (λ x y, P x.1 y.1 ∧ Q x.2 y.2) (zip l1 k1) (zip l2 k2).
Proof.
  intros Hl. revert k1 k2. induction Hl; intros k1 k2 Hk; [constructor|].
  destruct Hk; constructor; auto.
Qed.
Lemma Forall2_eq_refl {A} (l : list A) : Forall2 eq l l.
Proof. induction l; by constructor. Qed.

Lemma krel_equal R a1 a2 b1 b2 :
  Forall2 R a1 a2 → Forall2 R b1 b2 → krel RW R (equal a1 b1) (equal a2 b2).
Proof.
  intros. unfold equal. kstep. apply (krel_kfold (RPair RW RW)); [apply _|done| |].
  - by apply Forall2_zip_pairs.
  - intros R' s1 s2 [] [] Hs Hacc [Hx Hy]. simpl in *. kauto.
Qed.
Lemma krel_if_then_else R t1 t2 f1 f2 c1 c2 :
  Forall2 R t1 t2 → Forall2 R f1 f2 → R c1 c2 →
  krel RL R (if_then_else t1 f1 c1) (if_then_else t2 f2 c2).
Proof.
  intros Ht Hf Hc. apply (krel_kmap2 RW RW RW); [apply _..|done|done|].
  intros R' x y x' y' Hs Hx Hy. kmono. kauto.
Qed.
Hint Resolve krel_ripple_add krel_ripple_sub krel_less_than krel_equal krel_if_then_else : kparam.
Hint Resolve Forall2_take Forall2_drop Forall2_app Forall2_replicate : kparam.

Lemma krel_mul_row R op1 op1' N s s' i b b' :
  Forall2 R op1 op1' → Forall2 R s s' → R b b' →
  krel RL R (mul_row op1 N s (i, b)) (mul_row op1' N s' (i, b')).
Proof.
  intros. unfold mul_row. eapply krel_bind.
  - apply (krel_kmap RW RW) with (R := R); [by apply Forall2_take|].
    intros R' x y Hs Hx. kmono. kauto.
  - intros R' t t' Hs Ht. kmono. kauto.
Qed.
Lemma krel_mul_full R a1 a2 b1 b2 :
  Forall2 R a1 a2 → Forall2 R b1 b2 → krel RL R (mul_full a1 b1) (mul_full a2 b2).
Proof.
  intros Ha Hb. unfold mul_full. rewrite (Forall2_length _ _ _ Ha). kstep.
  apply (krel_kfold (RPair REq RW)); [apply _|by apply Forall2_replicate| |].
  - apply Forall2_zip_pairs; [apply Forall2_eq_refl|done].
  - intros R' s1 s2 [i x] [i' y] Hs Hsum [Hi Hx]. unfold REq, RW in *. simpl in *. subst i'.
    kmono. by apply krel_mul_row.
Qed.

Lemma krel_overflow_loop R acc1 acc2 l1 l2 :
  R acc1 acc2 → Forall2 R l1 l2 → krel RL R (overflow_loop acc1 l1) (overflow_loop acc2 l2).
Proof.
  intros Hacc Hl. revert R acc1 acc2 Hacc Hl. 
  induction l1 as [|x l1 IH] in l2 |- *; intros R acc1 acc2 Hacc Hl;
    inversion Hl as [|? y ? l2' Hx Hl']; subst; simpl; kauto.
Qed.
Lemma krel_div_row R op2 op2' N s1 s2 i o1 o2 :
  Forall2 R op2 op2' → RPair RL RL R s1 s2 → R o1 o2 →
  krel (RPair RL RL) R (div_row op2 N s1 (i, o1)) (div_row op2' N s2 (i, o2)).
Proof.
  intros Hop Hs Ho. kdestruct. unfold div_row. eapply krel_bind.
  - apply krel_sub_full; eauto with kparam.
  - intros R' [t1 b1] [t2 b2] Hs [Ht Hb]. simpl in *. kdestruct. kmono.
    destruct Hb; [|constructor]. kauto.
    split; simpl; [apply Forall2_app|]; eauto with kparam.
Qed.
Lemma krel_div_full R a1 a2 b1 b2 :
  Forall2 R a1 a2 → Forall2 R b1 b2 → krel (RPair RL RL) R (div_full a1 b1) (div_full a2 b2).
Proof.
  intros Ha Hb. unfold div_full. rewrite (Forall2_length _ _ _ Ha). kstep.
  eapply krel_bind.
  { apply krel_overflow_loop; [done|]. by apply Forall2_take, Forall2_reverse. }
  intros R' o1 o2 Hs Ho. kmono. eapply krel_bind.
  - apply (krel_kfold (RPair REq RW) (RPair RL RL)); [by split; [|constructor]| |].
    + apply Forall2_reverse, Forall2_zip_pairs; [apply Forall2_eq_refl|done].
    + intros R2 s1 s2 [i x] [i' y] Hs2 Hst [Hi Hx]. unfold REq, RW in Hi, Hx. simpl in *. subst i'.
      kmono. by apply krel_div_row.
  - intros R2 [r1 q1] [r2 q2] Hs2 [Hr Hq]. simpl in *. constructor. by split.
Qed.
End param.
#[export] Hint Resolve krel_or_gate krel_mux krel_ripple_add krel_ripple_sub krel_less_than
  krel_equal krel_if_then_else krel_mul_full krel_div_full krel_add_full krel_sub_full
  option_none : kparam.
#[export] Hint Resolve Forall2_take Forall2_drop Forall2_app Forall2_replicate : kparam.

(** ** On bits *)
Lemma keval_or_gate a b : keval (or_gate a b) = Ret (a || b).
Proof. by destruct a, b. Qed.
Lemma keval_mux s t f : keval (mux s t f) = Ret (if s then t else f).
Proof. by destruct s, t, f. Qed.

Lemma add_loop_carry a b c :
  length a = length b →
  ∃ d c', keval (add_loop false a b c) = Ret (d, c') ∧ length d = length a ∧
    (bval d + pow2 (length a) * N.b2n c' = bval a + bval b + N.b2n c)%N.
Proof.
  revert b c. induction a as [|x a IH]; intros [|y b] c Hlen; try done.
  { exists [], c. split; [done|]. split; [done|]. simpl. rewrite pow2_0. lia. }
  simpl in Hlen. injection Hlen as Hlen. simpl.
  destruct (IH b (xorb c (xorb x c && xorb y c)) Hlen) as (d & c' & Hk & Hl & Hv).
  rewrite keval_bind, Hk. simpl. eexists _, _. split; [done|]. split; [by f_equal/=|].
  rewrite pow2_S. cbn [bval]. destruct x, y, c, c'; simpl in *; lia.
Qed.
Lemma add_loop_skip a b c :
  length a = length b → a ≠ [] →
  ∃ d c', keval (add_loop true a b c) = Ret (d, c') ∧ length d = length a ∧
    bval d = ((bval a + bval b + N.b2n c) mod pow2 (length a))%N.
Proof.
  revert b c. induction a as [|x a IH]; intros [|y b] c Hlen Hne; try done.
  simpl in Hlen. injection Hlen as Hlen. destruct (is_nil a) eqn:Hnil.
  { destruct a; [|done]. destruct b; [|done]. eexists [_], _. split; [done|]. split; [done|].
    by destruct x, y, c. }
  destruct (IH b (xorb c (xorb x c && xorb y c)) Hlen) as (d & c' & Hk & Hl & Hv);
    [by intros ->|].
  simpl. rewrite Hnil. simpl. rewrite keval_bind, Hk. simpl. eexists _, _. split; [done|].
  split; [by f_equal/=|]. rewrite pow2_S. cbn [bval]. rewrite Hv, b2n_double_mod by apply pow2_pos.
  f_equal. destruct x, y, c; simpl; lia.
Qed.
Lemma sub_loop_borrow a b c :
  length a = length b →
  ∃ d c', keval (sub_loop false a b c) = Ret (d, c') ∧ length d = length a ∧
    (bval d + bval b + N.b2n c = bval a + pow2 (length a) * N.b2n c')%N.
Proof.
  revert b c. induction a as [|x a IH]; intros [|y b] c Hlen; try done.
  { exists [], c. split; [done|]. split; [done|]. simpl. rewrite pow2_0. lia. }
  simpl in Hlen. injection Hlen as Hlen. simpl.
  destruct (IH b (xorb c (xorb x y && xorb c y)) Hlen) as (d & c' & Hk & Hl & Hv).
  rewrite keval_bind, Hk. simpl. eexists _, _. split; [done|]. split; [by f_equal/=|].
  rewrite pow2_S. cbn [bval]. destruct x, y, c, c'; simpl in *; lia.
Qed.
(** Without a borrow-out: the difference modulo [2^n]. *)
Lemma sub_loop_skip a b c :
  length a = length b → a ≠ [] →
  ∃ d c', keval (sub_loop true a b c) = Ret (d, c') ∧ length d = length a ∧
    ∃ k : bool, (bval d + bval b + N.b2n c = bval a + pow2 (length a) * N.b2n k)%N.
Proof.
  revert b c. induction a as [|x a IH]; intros [|y b] c Hlen Hne; try done.
  simpl in Hlen. injection Hlen as Hlen. destruct (is_nil a) eqn:Hnil.
  { destruct a; [|done]. destruct b; [|done]. eexists [_], _. split; [done|]. split; [done|].
    exists (if x then y && c else y || c). by destruct x, y, c. }
  destruct (IH b (xorb c (xorb x y && xorb c y)) Hlen) as (d & c' & Hk & Hl & k & Hv);
    [by intros ->|].
  simpl. rewrite Hnil. simpl. rewrite keval_bind, Hk. simpl. eexists _, _. split; [done|].
  split; [by f_equal/=|]. exists k. rewrite pow2_S. cbn [bval].
  destruct x, y, c, k; simpl in *; lia.
Qed.

(** The results of [add_full] and [sub_full] in the forms their callers use. *)
Lemma keval_add_full_drop a b c :
  length a = length b →
  ∃ d, keval (add_full false a b c) = Ret (d, None) ∧ length d = length a ∧
    bval d = ((bval a + bval b + N.b2n (default false c)) mod pow2 (length a))%N.
Proof.
  intros Hlen. unfold add_full. destruct a as [|x a].
  { destruct b; [|done]. exists []. split; [done|]. split; [done|].
    simpl. by rewrite pow2_0, N.mod_1_r. }
  destruct (add_loop_skip (x :: a) b (default false c) Hlen) as (d & c' & Hk & Hl & Hv); [done|].
  exists d. split; [|done]. destruct c; simpl in Hk |- *; rewrite keval_bind, Hk; done.
Qed.
Lemma keval_add_full_carry a b c :
  length a = length b → a ≠ [] →
  ∃ d c', keval (add_full true a b c) = Ret (d, Some c') ∧ length d = length a ∧
    (bval d + pow2 (length a) * N.b2n c' = bval a + bval b + N.b2n (default false c))%N.
Proof.
  intros Hlen Hne. unfold add_full. destruct a as [|x a]; [done|].
  destruct (add_loop_carry (x :: a) b (default false c) Hlen) as (d & c' & Hk & Hl & Hv).
  exists d, c'. split; [|done]. destruct c; simpl in Hk |- *; rewrite keval_bind, Hk; done.
Qed.
Lemma keval_sub_full_drop a b c :
  length a = length b →
  ∃ d, keval (sub_full false a b c) = Ret (d, None) ∧ length d = length a ∧
    ∃ k : bool, (bval d + bval b + N.b2n (default false c) = bval a + pow2 (length a) * N.b2n k)%N ∨
      a = [].
Proof.
  intros Hlen. unfold sub_full. destruct a as [|x a].
  { destruct b; [|done]. exists []. split; [done|]. split; [done|]. exists false. by right. }
  destruct (sub_loop_skip (x :: a) b (default false c) Hlen) as (d & c' & Hk & Hl & k & Hv); [done|].
  exists d. split; [|split; [done|by exists k; left]].
  destruct c; simpl in Hk |- *; rewrite keval_bind, Hk; done.
Qed.
Lemma keval_sub_full_borrow a b c :
  length a = length b → a ≠ [] →
  ∃ d c', keval (sub_full true a b c) = Ret (d, Some c') ∧ length d = length a ∧
    (bval d + bval b + N.b2n (default false c) = bval a + pow2 (length a) * N.b2n c')%N.
Proof.
  intros Hlen Hne. unfold sub_full. destruct a as [|x a]; [done|].
  destruct (sub_loop_borrow (x :: a) b (default false c) Hlen) as (d & c' & Hk & Hl & Hv).
  exists d, c'. split; [|done]. destruct c; simpl in Hk |- *; rewrite keval_bind, Hk; done.
Qed.

Lemma keval_ripple_add a b :
  length a = length b →
  ∃ d, keval (ripple_add a b) = Ret d ∧ length d = length a ∧
    bval d = ((bval a + bval b) mod pow2 (length a))%N.
Proof.
  intros Hlen. destruct (keval_add_full_drop a b None Hlen) as (d & Hk & Hl & Hv).
  exists d. unfold ripple_add. rewrite keval_bind, Hk. split; [done|]. split; [done|].
  rewrite Hv. simpl N.b2n. f_equal. lia.
Qed.
(** The difference, as subtraction of [b mod 2^n] in [0, 2^n). *)
Lemma keval_ripple_sub a b :
  length a = length b →
  ∃ d, keval (ripple_sub a b) = Ret d ∧ length d = length a ∧
    bval d = ((bval a + pow2 (length a) - bval b) mod pow2 (length a))%N.
Proof.
  intros Hlen. destruct (keval_sub_full_drop a b None Hlen) as (d & Hk & Hl & k & Hv).
  exists d. unfold ripple_sub. rewrite keval_bind, Hk. simpl. split; [done|]. split; [done|].
  pose proof (bval_lt d) as Hd. pose proof (bval_lt b) as Hb. pose proof (bval_lt a) as Ha.
  rewrite Hl in Hd. rewrite <- Hlen in Hb. set (m := pow2 (length a)) in *. simpl in Hv.
  destruct Hv as [Hv| ->].
  - apply N.mod_unique with (if k then 0 else 1)%N; [done|]. destruct k; simpl in Hv; lia.
  - subst m. change (pow2 (length [])) with 1%N in *. rewrite N.mod_1_r. lia.
Qed.
Lemma keval_less_than a b :
  length a = length b → a ≠ [] → keval (less_than a b) = Ret (bval a <? bval b)%N.
Proof.
  intros Hlen Hne. destruct (keval_sub_full_borrow a b None Hlen Hne) as (d & c & Hk & Hl & Hv).
  unfold less_than. rewrite keval_bind, Hk. simpl. f_equal.
  pose proof (bval_lt d) as Hd. pose proof (bval_lt a) as Ha. rewrite Hl in Hd. simpl in Hv.
  destruct c; simpl in Hv; symmetry; [apply N.ltb_lt|apply N.ltb_ge]; lia.
Qed.
Lemma keval_equal a b :
  length a = length b → keval (equal a b) = Ret (bool_decide (a = b)).
Proof.
  intros Hlen. unfold equal. rewrite keval_bind. simpl keval. cbn [mbind outcome_bind].
  rewrite keval_fold.
  assert (∀ acc, foldO (λ s p, keval (let '(x, y) := p in d ← kxor x y; n ← knot d; kand s n)) acc (zip a b)
    = Ret (acc && bool_decide (a = b))) as H; [|apply (H true)].
  revert b Hlen. induction a as [|x a IH]; intros [|y b] Hlen acc; try done.
  { simpl. by rewrite andb_true_r. }
  simpl in Hlen. injection Hlen as Hlen. simpl. rewrite IH by done. f_equal.
  rewrite <- andb_assoc. f_equal. apply eq_true_iff_eq. rewrite andb_true_iff, !bool_decide_eq_true.
  destruct x, y; naive_solver.
Qed.
Lemma keval_if_then_else t f c :
  length t = length f → keval (if_then_else t f c) = Ret (if c then t else f).
Proof.
  unfold if_then_else. revert f. induction t as [|x t IH]; intros [|y f] Hlen; try done.
  { by destruct c. }
  simpl in Hlen. injection Hlen as Hlen. simpl. rewrite keval_bind, IH by done. simpl.
  by destruct c, x, y.
Qed.

(** *** Multiplication *)
Lemma keval_and_bit l b :
  ∃ t, keval (kmap (λ a, kand a b) l) = Ret t ∧ length t = length l ∧
    bval t = (N.b2n b * bval l)%N.
Proof.
  induction l as [|x l (t & Hk & Hl & Hv)]; [by exists []; simpl; rewrite N.mul_0_r|].
  exists ((x && b) :: t). simpl. rewrite keval_bind, Hk. split; [done|]. split; [by f_equal/=|].
  cbn [bval]. rewrite Hv. destruct x, b; simpl; lia.
Qed.

(** Adding [m * 2^i] to a number through its upper part. *)
Lemma add_at_offset s A i n :
  (i ≤ n)%nat →
  (s mod pow2 i + pow2 i * ((s / pow2 i + A mod pow2 (n - i)) mod pow2 (n - i)) =
   (s + pow2 i * A) mod pow2 n)%N.
Proof.
  intros Hi. replace n with (i + (n - i))%nat at 3 by lia. rewrite pow2_add.
  pose proof (pow2_ne i). pose proof (pow2_ne (n - i)).
  rewrite N.Div0.add_mod_idemp_r, N.Div0.mod_mul_r.
  rewrite (N.mul_comm (pow2 i) A), N.Div0.mod_add, N.div_add by done. done.
Qed.

Lemma mul_row_ok op1 sum i b :
  length sum = length op1 → (i ≤ length op1)%nat →
  ∃ sum', keval (mul_row op1 (length op1) sum (i, b)) = Ret sum' ∧ length sum' = length op1 ∧
    bval sum' = ((bval sum + pow2 i * (N.b2n b * bval op1)) mod pow2 (length op1))%N.
Proof.
  intros Hl Hi. unfold mul_row. set (n := length op1) in *.
  destruct (keval_and_bit (take (n - i) op1) b) as (t & Ht & Hlt & Hvt).
  rewrite length_take in Hlt.
  destruct (keval_add_full_drop (drop i sum) t None) as (d & Hd & Hld & Hvd).
  { rewrite length_drop, Hlt. unfold n in *. lia. }
  rewrite length_drop in Hld, Hvd.
  rewrite keval_bind, Ht. cbn [mbind outcome_bind]. rewrite keval_bind, Hd.
  exists (take i sum ++ d). split; [done|]. rewrite length_app, length_take.
  split; [unfold n in *; lia|].
  rewrite bval_app, length_take, bval_take, Hvd, Hvt, bval_take, bval_drop.
  change (N.b2n (default false None)) with 0%N. rewrite N.add_0_r, Hl.
  replace (i `min` n)%nat with i by lia. fold n.
  rewrite <- add_at_offset by done. do 3 f_equal.
  destruct b; simpl N.b2n; rewrite ?N.mul_1_l, ?N.mul_0_l; [done|].
  by rewrite N.Div0.mod_0_l.
Qed.

Lemma keval_mul_full a b :
  length a = length b →
  ∃ d, keval (mul_full a b) = Ret d ∧ length d = length a ∧
    bval d = ((bval a * bval b) mod pow2 (length a))%N.
Proof.
  intros Hlen. unfold mul_full. rewrite keval_bind. cbn [keval kpub mbind outcome_bind].
  rewrite keval_fold.
  destruct (foldO_inv (λ s r, keval (mul_row a (length a) s r)) (zip (seq 0 (length a)) b)
    (λ don s, length s = length a ∧
      bval s = ((bval a * bval (take (length don) b)) mod pow2 (length a))%N)
    (replicate (length a) false)) as (s & Hs & Hl & Hv).
  - rewrite length_replicate, bval_replicate_false. split; [done|]. simpl.
    rewrite N.mul_0_r, N.Div0.mod_0_l. done.
  - intros don [i x] todo s Hz [Hl Hv].
    assert (zip (seq 0 (length a)) b !! length don = Some (i, x)) as Hi
      by (rewrite Hz; by apply list_lookup_middle).
    apply lookup_zip_with_Some in Hi as (i' & x' & [= <- <-] & [-> Hlt]%lookup_seq & Hx).
    simpl in *. destruct (mul_row_ok a s (length don) x Hl) as (s' & Hk & Hl' & Hv'); [lia|].
    exists s'. split; [done|]. split; [done|].
    rewrite Hv', Hv, length_app, Nat.add_1_r, (take_S_r _ _ _ Hx), bval_app, length_take.
    pose proof (lookup_lt_Some _ _ _ Hx). replace (length don `min` length b)%nat with (length don) by lia.
    rewrite N.Div0.add_mod_idemp_l. f_equal. cbn [bval]. lia.
  - rewrite Hs. exists s. split; [done|]. split; [done|]. rewrite Hv.
    rewrite length_zip, length_seq, take_ge by lia. done.
Qed.

(** *** Division *)
Lemma keval_overflow_loop acc l :
  keval (overflow_loop acc l) =
    Ret ((λ k, acc || existsb id (take k l)) <$> seq 0 (S (length l))).
Proof.
  revert acc. induction l as [|b l IH]; intros acc.
  { simpl. by rewrite orb_false_r. }
  cbn [overflow_loop]. rewrite keval_bind, keval_or_gate. cbn [mbind outcome_bind].
  rewrite keval_bind, IH. cbn [mbind outcome_bind keval mret Kernel_ret]. f_equal.
  change (seq 0 (S (length (b :: l)))) with (0%nat :: seq 1 (S (length l))).
  rewrite fmap_cons. cbn [take existsb].
  rewrite orb_false_r. f_equal. rewrite <- fmap_S_seq, <- list_fmap_compose.
  apply list_fmap_ext. intros i k _. simpl. unfold id at 2. by rewrite orb_assoc.
Qed.

(** The overflow bits say that the divisor does not fit below bit [N - k]. *)
Lemma existsb_id_zero l : existsb id l = bool_decide (bval l ≠ 0%N).
Proof.
  induction l as [|b l IH]; [done|]. cbn [existsb bval]. rewrite IH.
  destruct b; simpl; [by rewrite bool_decide_eq_true_2 by lia|].
  apply bool_decide_ext. lia.
Qed.
Lemma bval_zero l : bval l = 0%N ↔ Forall (λ b, b = false) l.
Proof.
  induction l as [|b l IH]; [by split; [constructor|]|]. rewrite Forall_cons, <- IH. cbn [bval].
  destruct b; simpl; split; [lia|by intros [[=] _]|intros; split; [done|lia]|intros [_ ->]; lia].
Qed.
Lemma bval_reverse_zero l : bval (reverse l) ≠ 0%N ↔ bval l ≠ 0%N.
Proof. rewrite !bval_zero. by rewrite Forall_reverse. Qed.
Lemma overflow_bit op2 k :
  (k < length op2)%nat →
  existsb id (take k (take (length op2 - 1) (reverse op2))) =
    (pow2 (length op2 - k) <=? bval op2)%N.
Proof.
  intros Hk. rewrite take_take. replace (k `min` (length op2 - 1))%nat with k by lia.
  rewrite existsb_id_zero. rewrite take_reverse.
  replace (pow2 (length op2 - k) <=? bval op2)%N
    with (bool_decide (pow2 (length op2 - k) ≤ bval op2)%N)
    by (destruct (N.leb_spec (pow2 (length op2 - k)) (bval op2)); [by rewrite bool_decide_eq_true_2|
        by rewrite bool_decide_eq_false_2 by lia]).
  apply bool_decide_ext. rewrite bval_reverse_zero, bval_drop.
  pose proof (pow2_ne (length op2 - k)). split.
  - intros Hne. destruct (decide (pow2 (length op2 - k) ≤ bval op2)%N); [done|].
    destruct Hne. apply N.div_small. lia.
  - intros Hle Hz. apply N.div_small_iff in Hz; [lia|done].
Qed.

(** One row: subtract the shifted divisor when it fits. *)
Lemma div_row_ok op2 rem quot i (o : bool) :
  length rem = length op2 → (i < length op2)%nat →
  o = (pow2 (length op2 - i) <=? bval op2)%N →
  ∃ rem', let fits := (pow2 i * bval op2 <=? bval rem)%N in
    keval (div_row op2 (length op2) (rem, quot) (i, o)) = Ret (rem', fits :: quot) ∧
    length rem' = length op2 ∧
    bval rem' = (if fits then bval rem - pow2 i * bval op2 else bval rem)%N.
Proof.
  intros Hl Hi Ho. set (n := length op2) in *. unfold div_row.
  assert (length (drop i rem) = (n - i)%nat) as Hld by (rewrite length_drop; lia).
  assert (length (take (n - i) op2) = (n - i)%nat) as Hlt by (rewrite length_take; fold n; lia).
  destruct (keval_sub_full_borrow (drop i rem) (take (n - i) op2) None) as (d & c & Hk & Hd & Hv).
  { congruence. }
  { intros Hnil. rewrite Hnil in Hld. simpl in Hld. lia. }
  rewrite keval_bind, Hk. cbn [mbind outcome_bind]. rewrite keval_bind, keval_or_gate.
  cbn [mbind outcome_bind]. rewrite keval_bind, keval_if_then_else by congruence.
  cbn [mbind outcome_bind keval knot].
  change (N.b2n (default false None)) with 0%N in Hv.
  rewrite N.add_0_r, bval_take, bval_drop, Hld in Hv.
  pose proof (bval_lt d) as Hdlt. rewrite Hd, Hld in Hdlt.
  pose proof (bval_lt rem) as Hr. rewrite Hl in Hr.
  set (A := bval rem) in *. set (D := bval op2) in *. set (p := pow2 i) in *. set (m := pow2 (n - i)) in *.
  assert (0 < p)%N by apply pow2_pos. assert (0 < m)%N by apply pow2_pos.
  assert (pow2 n = p * m)%N as Hpm by (subst p m; rewrite <- pow2_add; f_equal; lia).
  rewrite Hpm in Hr. assert (A = p * (A / p) + A mod p)%N as HA by (apply N.div_mod; lia).
  assert (A mod p < p)%N by (apply N.mod_lt; lia).
  assert (A / p < m)%N as Hq by (apply N.Div0.div_lt_upper_bound; lia).
  assert ((p * D <=? A)%N = negb (c || o)) as Hfit.
  { destruct (N.leb_spec (p * D) A) as [Hle|Hgt].
    - assert (D ≤ A / p)%N by (apply N.div_le_lower_bound; lia).
      rewrite N.mod_small in Hv by lia. subst o.
      destruct (N.leb_spec m D); [lia|]. destruct c; simpl in *; [lia|done].
    - assert (A / p < D)%N by (apply N.Div0.div_lt_upper_bound; lia). subst o.
      destruct (N.leb_spec m D); [by rewrite orb_true_r|].
      rewrite N.mod_small in Hv by done. destruct c; simpl in *; [done|lia]. }
  rewrite Hfit. eexists. split; [done|].
  rewrite length_app, length_take. split; [destruct (c || o); lia|].
  rewrite bval_app, length_take, bval_take. fold A p. replace (i `min` length rem)%nat with i by lia. fold p.
  destruct (c || o) eqn:Hco; simpl.
  - rewrite bval_drop. fold A p. lia.
  - apply orb_false_iff in Hco as [-> Ho2]. rewrite Ho2 in Ho. symmetry in Ho.
    apply N.leb_gt in Ho. rewrite N.mod_small in Hv by done. simpl in Hv.
    replace (bval d) with (A / p - D)%N by lia. rewrite N.mul_sub_distr_l. 
    assert (p * D ≤ p * (A / p))%N as Hle by (apply N.mul_le_mono_l; lia).
    clear -HA Hle. revert HA Hle. generalize (p * (A / p))%N (A mod p)%N (p * D)%N. lia.
Qed.

(** The quotient and remainder the circuit computes: division by zero gives
    all ones and the dividend. *)
Definition udiv (n : nat) (a b : N) : N := if (b =? 0)%N then (pow2 n - 1)%N else (a / b)%N.
Definition urem (a b : N) : N := if (b =? 0)%N then a else (a mod b)%N.

Section division.
Context (a b : list bool) (Hlen : length a = length b) (Hne : a ≠ []).
#[local] Abbreviation n := (length b).
#[local] Abbreviation A := (bval a).
#[local] Abbreviation D := (bval b).

Record div_inv (j : nat) (s : list bool * list bool) : Prop := {
  di_rem : length s.1 = n;
  di_quot : length s.2 = j;
  di_sum : (bval s.1 + pow2 (n - j) * D * bval s.2 = A)%N;
  di_lt : D ≠ 0%N → (bval s.1 < pow2 (n - j) * D)%N;
  di_zero : D = 0%N → s.2 = replicate j true }.

Definition div_rows : list (nat * bool) :=
  reverse (zip (seq 0 n) ((λ k, (pow2 (n - k) <=? D)%N) <$> seq 0 n)).

Lemma div_rows_lookup j i o :
  div_rows !! j = Some (i, o) →
  (j < n)%nat ∧ i = (n - S j)%nat ∧ o = (pow2 (n - i) <=? D)%N.
Proof.
  unfold div_rows. intros Hj. pose proof (lookup_lt_Some _ _ _ Hj) as Hlt.
  rewrite length_reverse, length_zip, length_fmap, length_seq, Nat.min_id in Hlt.
  rewrite reverse_lookup in Hj by (rewrite length_zip, length_fmap, length_seq; lia).
  rewrite length_zip, length_fmap, length_seq, Nat.min_id in Hj.
  apply lookup_zip_with_Some in Hj as (i' & o' & [= <- <-] & [-> _]%lookup_seq & Ho).
  apply list_lookup_fmap_Some in Ho as (k & -> & [-> _]%lookup_seq). simpl. done.
Qed.

Lemma div_step j s i o todo don :
  div_rows = don ++ (i, o) :: todo → j = length don → div_inv j s →
  ∃ s', keval (div_row b n s (i, o)) = Ret s' ∧ div_inv (S j) s'.
Proof.
  intros Hz -> [Hr Hq Hs Hl Hd0]. destruct s as [rem quot]. simpl in *.
  assert (div_rows !! length don = Some (i, o)) as Hj by (rewrite Hz; by apply list_lookup_middle).
  apply div_rows_lookup in Hj as (Hj & -> & ->). set (j := length don) in *.
  destruct (div_row_ok b rem quot (n - S j) _ Hr ltac:(lia) eq_refl) as (rem' & Hk & Hl' & Hv').
  eexists. split; [exact Hk|]. clear Hk.
  replace (n - j)%nat with (S (n - S j)) in Hs, Hl by lia. rewrite pow2_S in Hs, Hl.
  set (p := pow2 (n - S j)) in *. pose proof (pow2_pos (n - S j)) as Hp. fold p in Hp.
  destruct (N.leb_spec (p * D) (bval rem)) as [Hfit|Hfit]; split; simpl; rewrite ?Hv'; fold p;
    try done; try congruence.
  - cbn [N.b2n]. nia.
  - intros HD. specialize (Hl HD). lia.
  - intros HD. by rewrite Hd0.
  - cbn [N.b2n]. nia.
  - intros HD. rewrite HD in Hfit. lia.
Qed.

Lemma keval_div_full :
  ∃ q r, keval (div_full a b) = Ret (q, r) ∧ length q = length a ∧ length r = length a ∧
    bval q = udiv (length a) A D ∧ bval r = urem A D.
Proof.
  unfold div_full. rewrite keval_bind. cbn [keval kpub mbind outcome_bind].
  assert (0 < n)%nat as Hn by (rewrite <- Hlen; destruct a; [done|simpl; lia]).
  rewrite keval_bind, keval_overflow_loop. cbn [mbind outcome_bind].
  rewrite length_take, length_reverse. replace (S ((length a - 1) `min` n)) with n by lia.
  assert ((λ k, false || existsb id (take k (take (length a - 1) (reverse b)))) <$> seq 0 n =
    (λ k, (pow2 (n - k) <=? D)%N) <$> seq 0 n) as ->.
  { apply list_fmap_ext. intros i k [-> Hk]%lookup_seq. rewrite Hlen. by apply overflow_bit. }
  rewrite Hlen. fold div_rows. rewrite keval_bind, keval_fold.
  destruct (foldO_inv (λ s r, keval (div_row b n s r)) div_rows (λ don s, div_inv (length don) s)
    (a, [])) as ([r q] & Hs & [Hr Hq Hsum Hlt H0]).
  - split; simpl; [done..| | |done]; rewrite Nat.sub_0_r.
    + lia.
    + intros HD. pose proof (bval_lt a) as Ha. rewrite Hlen in Ha. nia.
  - intros don [i o] todo s Hz Hinv. rewrite length_app, Nat.add_1_r. by eapply div_step.
  - rewrite Hs. assert (length div_rows = n) as Hdl
      by (unfold div_rows; rewrite length_reverse, length_zip, length_fmap, length_seq; lia).
    rewrite Hdl in *. rewrite Nat.sub_diag, pow2_0 in *. simpl in *. rewrite N.mul_1_l in *.
    exists q, r. split; [done|]. split; [done|]. split; [done|]. unfold udiv, urem.
    destruct (N.eqb_spec D 0) as [HD|HD].
    + rewrite (H0 HD), bval_replicate_true. rewrite HD in Hsum. split; [done|lia].
    + specialize (Hlt HD). split.
      * apply N.div_unique with (bval r); [done|lia].
      * apply N.mod_unique with (bval q); [done|lia].
Qed.
End division.
