(* ===== verification/UInt.v ===== *)
(** * Unsigned integers and bit vectors (circuits/unsigned_int.h, bit.h, bitvec.h)

    [UInt_T], [Bit_T] and [BitVec_T] values are their wires.  The operators are
    kernels, with the run-time width check of the runtime-width form (it always
    passes for the fixed-width form, whose widths agree statically).  The
    debug-only context check has no counterpart: a kernel has one context. *)

From S2P Require Import Prelude Program Validate Context Execute Kernel Bits NumericKernels.

Module UInt.
Section uint.
Context {W : Type}.
#[local] Abbreviation word := (list W).

Definition same_width (a b : word) : Kernel W unit :=
  kexpect (Nat.eqb (length a) (length b)) "UInt_T: operands have different runtime widths".
Definition validate_width (n : nat) : Kernel W unit :=
  kexpect (1 <=? n)%nat "UInt_T: runtime width must be >= 1".

(** [constant(c, v)]: bit [i] of [v] below 64, zero above. *)
Definition constant (n : nat) (v : N) : Kernel W word :=
  kmap (λ i, kpub (if (i <? 64)%nat then N.testbit v (N.of_nat i) else false)) (seq 0 n).

Definition add (a b : word) : Kernel W word := same_width a b;; ripple_add a b.
Definition sub (a b : word) : Kernel W word := same_width a b;; ripple_sub a b.
Definition and (a b : word) : Kernel W word := same_width a b;; kmap2 kand a b.
Definition xor (a b : word) : Kernel W word := same_width a b;; kmap2 kxor a b.
Definition or (a b : word) : Kernel W word := same_width a b;; kmap2 or_gate a b.
Definition not (a : word) : Kernel W word := kmap knot a.
Definition mul (a b : word) : Kernel W word := same_width a b;; mul_full a b.
Definition div (a b : word) : Kernel W word :=
  same_width a b;; '(q, _) ← div_full a b; mret q.
Definition rem (a b : word) : Kernel W word :=
  same_width a b;; '(_, r) ← div_full a b; mret r.

Definition eqb (a b : word) : Kernel W W := same_width a b;; equal a b.
Definition neb (a b : word) : Kernel W W := e ← eqb a b; knot e.
Definition ltb (a b : word) : Kernel W W := same_width a b;; less_than a b.
Definition gtb (a b : word) : Kernel W W := ltb b a.
Definition leb (a b : word) : Kernel W W := g ← gtb a b; knot g.
Definition geb (a b : word) : Kernel W W := l ← ltb a b; knot l.

(** [a.select(sel, t)]: [sel ? t : a]. *)
Definition select (a : word) (sel : W) (t : word) : Kernel W word :=
  same_width a t;; kmap2 (λ t f, mux sel t f) t a.

(** Shifts by a public amount.  The clamp [s > n] of [>>] is kept. *)
Definition shl (a : word) (s : Z) : Kernel W word :=
  kexpect (0 <=? s)%Z "UInt_T::operator<<: shift amount must be >= 0";;
  z ← kpub false;
  mret ((λ i, default z (if (s <=? Z.of_nat i)%Z then a !! Z.to_nat (Z.of_nat i - s) else None))
          <$> seq 0 (length a)).
Definition shr (a : word) (s : Z) : Kernel W word :=
  kexpect (0 <=? s)%Z "UInt_T::operator>>: shift amount must be >= 0";;
  let n := Z.of_nat (length a) in
  let s := if (n <? s)%Z then n else s in
  z ← kpub false;
  mret ((λ i, default z (if (Z.of_nat i + s <? n)%Z then a !! Z.to_nat (Z.of_nat i + s) else None))
          <$> seq 0 (length a)).
(** Rotations: [%] truncates, so the source adds [n] and reduces again. *)
Definition rot_index (n i : Z) : nat := Z.to_nat (Z.rem (Z.rem i n + n) n).
Definition rotl (a : word) (s : Z) : option word :=
  let n := Z.of_nat (length a) in
  let s := Z.rem (Z.rem s n + n) n in
  mapM (λ i, a !! rot_index n (Z.of_nat i - s)) (seq 0 (length a)).
Definition rotr (a : word) (s : Z) : option word :=
  let n := Z.of_nat (length a) in
  let s := Z.rem (Z.rem s n + n) n in
  mapM (λ i, a !! Z.to_nat (Z.rem (Z.of_nat i + s) n)) (seq 0 (length a)).

(** Shifts by a secret amount: a barrel shifter over the low
    [clog2_ceil(n)] bits, zeroed when a higher bit is set. *)
Definition used_bits (n : nat) : nat :=
  if (n <=? 1)%nat then 0 else N.to_nat (clog2_ceil (N.of_nat n)).
Definition barrel (step : word → Z → Kernel W word) (a shamt : word) : Kernel W word :=
  kfold (λ res '(i, s), t ← step res (Z.shiftl 1 (Z.of_nat i)); select res s t) a
    (zip (seq 0 (used_bits (length a))) shamt).
Definition any_set (bits : list W) : Kernel W W :=
  z ← kpub false; kfold or_gate z bits.
Definition shl_secret (a shamt : word) : Kernel W word :=
  res ← barrel shl a shamt;
  overflow ← any_set (drop (used_bits (length a)) shamt);
  zero ← constant (length a) 0;
  select res overflow zero.
Definition shr_secret (a shamt : word) : Kernel W word :=
  res ← barrel shr a shamt;
  overflow ← any_set (drop (used_bits (length a)) shamt);
  zero ← constant (length a) 0;
  select res overflow zero.

(** Bit counting in width [r]: [b] is a zero constant with bit 0 replaced. *)
Definition popcount (r : nat) (a : word) : Kernel W word :=
  acc ← constant r 0;
  kfold (λ acc w, z ← constant r 0; add acc (<[0%nat := w]> z)) acc a.
Definition hamming_weight (a : word) : Kernel W word :=
  popcount (N.to_nat (bits_for (N.of_nat (length a)))) a.
(** From the top: [sat[i] |= sat[i + 1]]; the list is most significant first. *)
Fixpoint saturate (acc : W) (l : list W) : Kernel W (list W) :=
  match l with
  | [] => mret []
  | w :: l => s ← or_gate acc w; r ← saturate s l; mret (s :: r)
  end.
Definition leading_zeros (a : word) : Kernel W word :=
  sat ← (match reverse a with
         | [] => mret []
         | top :: rest => r ← saturate top rest; mret (reverse (top :: r))
         end);
  neg ← kmap knot sat;
  hamming_weight neg.

(** Square and multiply over the bits of [p]. *)
Definition mod_exp (a p q : word) : Kernel W word :=
  one ← constant (length a) 1;
  '(_, res) ← kfold (λ '(base, res) pi,
      m ← mul res base; tmp ← rem m q;
      res' ← select res pi tmp;
      sq ← mul base base; base' ← rem sq q;
      mret (base', res')) (a, one) p;
  mret res.

(** Width-changing views. *)
Definition slice (lo hi : nat) (a : word) : word := take (hi - lo) (drop lo a).
Definition extract (base width : nat) (a : word) : word := slice base (base + width) a.
Definition concat (lo hi : word) : word := lo ++ hi.
Definition zext (m : nat) (a : word) : Kernel W word :=
  z ← kpub false; mret ((λ i, default z (a !! i)) <$> seq 0 m).
Definition trunc (m : nat) (a : word) : word := take m a.
(** [to_fixed<M>()] and [resize(m)]: zero-extend or truncate. *)
Definition to_fixed (m : nat) (a : word) : Kernel W word := zext m a.
Definition resize (a : word) (m : nat) : Kernel W word := validate_width m;; zext m a.
End uint.

(** The clear codec, for widths up to 64. *)
Definition encode (n : nat) (v : N) : list bool :=
  (λ i, N.testbit (N.shiftr v (N.of_nat i)) 0) <$> seq 0 n.
Definition decode (b : list bool) : N :=
  foldl (λ v '(i, x), N.lor v (N.shiftl (if (x : bool) then 1 else 0) (N.of_nat i))) 0%N
    (zip (seq 0 (length b)) b).
(** The runtime-width codec. *)
Definition encode_rt (v : N) (width : nat) : list N :=
  (λ i, if (i <? 64)%nat then N.land (N.shiftr v (N.of_nat i)) 1 else 0%N) <$> seq 0 width.
End UInt.

(** [BitVec_T] has the same bitwise operators; those that are its own. *)
Module BitVec.
Section bitvec.
Context {W : Type}.
Definition constant (v : list bool) : Kernel W (list W) := kmap kpub v.
Definition shl (a : list W) (s : Z) : Kernel W (list W) :=
  kexpect (0 <=? s)%Z "BitVec_T::operator<<: shift amount must be >= 0";;
  z ← kpub false;
  mret ((λ i, default z (if (s <=? Z.of_nat i)%Z then a !! Z.to_nat (Z.of_nat i - s) else None))
          <$> seq 0 (length a)).
Definition shr (a : list W) (s : Z) : Kernel W (list W) :=
  kexpect (0 <=? s)%Z "BitVec_T::operator>>: shift amount must be >= 0";;
  let n := Z.of_nat (length a) in
  let s := if (n <? s)%Z then n else s in
  z ← kpub false;
  mret ((λ i, default z (if (Z.of_nat i + s <? n)%Z then a !! Z.to_nat (Z.of_nat i + s) else None))
          <$> seq 0 (length a)).
Definition and (a b : list W) : Kernel W (list W) := kmap2 kand a b.
Definition xor (a b : list W) : Kernel W (list W) := kmap2 kxor a b.
Definition or (a b : list W) : Kernel W (list W) := kmap2 or_gate a b.
Definition not (a : list W) : Kernel W (list W) := kmap knot a.
Definition eqb (a b : list W) : Kernel W W := equal a b.
Definition neb (a b : list W) : Kernel W W := e ← eqb a b; knot e.
Definition select (a : list W) (sel : W) (t : list W) : Kernel W (list W) :=
  kmap2 (λ t f, mux sel t f) t a.
Definition slice (lo hi : nat) (a : list W) : list W := take (hi - lo) (drop lo a).
Definition concat (lo hi : list W) : list W := lo ++ hi.
End bitvec.
End BitVec.

(** [Bit_T]: one wire. *)
Module Bit.
Section bit.
Context {W : Type}.
Definition constant (v : bool) : Kernel W W := kpub v.
Definition and (a b : W) : Kernel W W := kand a b.
Definition xor (a b : W) : Kernel W W := kxor a b.
Definition or (a b : W) : Kernel W W := x ← kxor a b; y ← kand a b; kxor x y.
Definition not (a : W) : Kernel W W := knot a.
Definition eqb (a b : W) : Kernel W W := x ← kxor a b; knot x.
Definition neb (a b : W) : Kernel W W := kxor a b.
Definition select (a sel t : W) : Kernel W W := mux sel t a.
End bit.
End Bit.

(** ** Parametricity *)
Section param.
Import UInt.
Context {W1 W2 : Type}.
Implicit Types (R : wrel W1 W2).

Lemma krel_same_width R a1 a2 b1 b2 :
  Forall2 R a1 a2 → Forall2 R b1 b2 → krel REq R (same_width a1 b1) (same_width a2 b2).
Proof.
  intros Ha Hb. unfold same_width. rewrite (Forall2_length _ _ _ Ha), (Forall2_length _ _ _ Hb).
  apply krel_kexpect.
Qed.
Lemma krel_constant R n v : krel RL R (constant n v) (constant n v).
Proof.
  unfold constant. apply (krel_kmap REq RW); [apply Forall2_eq_refl|].
  intros R' i j _ Hij. unfold REq in Hij. subst. kauto.
Qed.
Lemma krel_kmap2_wires R (f1 : W1 → W1 → Kernel W1 W1) (f2 : W2 → W2 → Kernel W2 W2) a1 a2 b1 b2 :
  Forall2 R a1 a2 → Forall2 R b1 b2 →
  (∀ R' x y x' y', wsub R R' → R' x y → R' x' y' → krel RW R' (f1 x x') (f2 y y')) →
  krel RL R (kmap2 f1 a1 b1) (kmap2 f2 a2 b2).
Proof. intros. by apply (krel_kmap2 RW RW RW). Qed.
Lemma krel_kmap_wires R (f1 : W1 → Kernel W1 W1) (f2 : W2 → Kernel W2 W2) a1 a2 :
  Forall2 R a1 a2 → (∀ R' x y, wsub R R' → R' x y → krel RW R' (f1 x) (f2 y)) →
  krel RL R (kmap f1 a1) (kmap f2 a2).
Proof. intros. by apply (krel_kmap RW RW). Qed.
Lemma Forall2_wiring R z1 z2 (g1 : nat → option W1) (g2 : nat → option W2) l :
  R z1 z2 → (∀ i, option_Forall2 R (g1 i) (g2 i)) →
  Forall2 R ((λ i, default z1 (g1 i)) <$> l) ((λ i, default z2 (g2 i)) <$> l).
Proof.
  intros Hz Hg. induction l as [|i l IH]; [constructor|]. constructor; [|done].
  by destruct (Hg i).
Qed.
Lemma option_lookup R (c : bool) k a1 a2 :
  Forall2 R a1 a2 →
  option_Forall2 R (if c then a1 !! k else None) (if c then a2 !! k else None).
Proof. intros Ha. destruct c; [by apply Forall2_lookup|constructor]. Qed.
Hint Resolve krel_same_width krel_constant krel_kmap2_wires krel_kmap_wires : kparam.

Lemma krel_binop R (f1 : W1 → W1 → Kernel W1 W1) (f2 : W2 → W2 → Kernel W2 W2) a1 a2 b1 b2 :
  Forall2 R a1 a2 → Forall2 R b1 b2 →
  (∀ R' x y x' y', wsub R R' → R' x y → R' x' y' → krel RW R' (f1 x x') (f2 y y')) →
  krel RL R (same_width a1 b1;; kmap2 f1 a1 b1) (same_width a2 b2;; kmap2 f2 a2 b2).
Proof.
  intros Ha Hb Hf. eapply krel_bind; [by apply krel_same_width|]. intros R' [] [] Hs _. kmono.
  apply krel_kmap2_wires; [done..|]. intros R2 ???? Hs2. apply Hf. by etrans.
Qed.
Lemma krel_add R a1 a2 b1 b2 :
  Forall2 R a1 a2 → Forall2 R b1 b2 → krel RL R (add a1 b1) (add a2 b2).
Proof. intros. unfold add. kauto. Qed.
Lemma krel_sub R a1 a2 b1 b2 :
  Forall2 R a1 a2 → Forall2 R b1 b2 → krel RL R (sub a1 b1) (sub a2 b2).
Proof. intros. unfold sub. kauto. Qed.
Lemma krel_and R a1 a2 b1 b2 :
  Forall2 R a1 a2 → Forall2 R b1 b2 → krel RL R (and a1 b1) (and a2 b2).
Proof. intros. apply krel_binop; eauto with kparam. Qed.
Lemma krel_xor R a1 a2 b1 b2 :
  Forall2 R a1 a2 → Forall2 R b1 b2 → krel RL R (xor a1 b1) (xor a2 b2).
Proof. intros. apply krel_binop; eauto with kparam. Qed.
Lemma krel_or R a1 a2 b1 b2 :
  Forall2 R a1 a2 → Forall2 R b1 b2 → krel RL R (or a1 b1) (or a2 b2).
Proof. intros. apply krel_binop; eauto with kparam. Qed.
Lemma krel_not R a1 a2 : Forall2 R a1 a2 → krel RL R (not a1) (not a2).
Proof. intros. apply krel_kmap_wires; eauto with kparam. Qed.
Lemma krel_mul R a1 a2 b1 b2 :
  Forall2 R a1 a2 → Forall2 R b1 b2 → krel RL R (mul a1 b1) (mul a2 b2).
Proof. intros. unfold mul. kauto. Qed.
Lemma krel_div R a1 a2 b1 b2 :
  Forall2 R a1 a2 → Forall2 R b1 b2 → krel RL R (div a1 b1) (div a2 b2).
Proof. intros. unfold div. kauto. Qed.
Lemma krel_rem R a1 a2 b1 b2 :
  Forall2 R a1 a2 → Forall2 R b1 b2 → krel RL R (rem a1 b1) (rem a2 b2).
Proof. intros. unfold rem. kauto. Qed.
Hint Resolve krel_add krel_sub krel_and krel_xor krel_or krel_not krel_mul krel_div krel_rem : kparam.

Lemma krel_eqb R a1 a2 b1 b2 :
  Forall2 R a1 a2 → Forall2 R b1 b2 → krel RW R (eqb a1 b1) (eqb a2 b2).
Proof. intros. unfold eqb. kauto. Qed.
Lemma krel_ltb R a1 a2 b1 b2 :
  Forall2 R a1 a2 → Forall2 R b1 b2 → krel RW R (ltb a1 b1) (ltb a2 b2).
Proof. intros. unfold ltb. kauto. Qed.
Hint Resolve krel_eqb krel_ltb : kparam.
Lemma krel_neb R a1 a2 b1 b2 :
  Forall2 R a1 a2 → Forall2 R b1 b2 → krel RW R (neb a1 b1) (neb a2 b2).
Proof. intros. unfold neb. kauto. Qed.
Lemma krel_gtb R a1 a2 b1 b2 :
  Forall2 R a1 a2 → Forall2 R b1 b2 → krel RW R (gtb a1 b1) (gtb a2 b2).
Proof. intros. unfold gtb. kauto. Qed.
Lemma krel_geb R a1 a2 b1 b2 :
  Forall2 R a1 a2 → Forall2 R b1 b2 → krel RW R (geb a1 b1) (geb a2 b2).
Proof. intros. unfold geb. kauto. Qed.
Hint Resolve krel_gtb : kparam.
Lemma krel_leb R a1 a2 b1 b2 :
  Forall2 R a1 a2 → Forall2 R b1 b2 → krel RW R (leb a1 b1) (leb a2 b2).
Proof. intros. unfold leb. kauto. Qed.

Lemma krel_select R a1 a2 s1 s2 t1 t2 :
  Forall2 R a1 a2 → R s1 s2 → Forall2 R t1 t2 →
  krel RL R (select a1 s1 t1) (select a2 s2 t2).
Proof.
  intros Ha Hs Ht. unfold select. eapply krel_bind; [by apply krel_same_width|].
  intros R' [] [] Hsub _. kmono. apply krel_kmap2_wires; [done..|].
  intros R2 x y x' y' Hs2 Hx Hy. kmono. eauto with kparam.
Qed.
Lemma krel_shl R a1 a2 s : Forall2 R a1 a2 → krel RL R (shl a1 s) (shl a2 s).
Proof.
  intros Ha. unfold shl. do 2 kstep. kstep. unfold RL.
  match goal with H : Forall2 _ a1 a2 |- _ => rewrite (Forall2_length _ _ _ H) end.
  apply Forall2_wiring; [done|]. intros i. by apply option_lookup.
Qed.
Lemma krel_shr R a1 a2 s : Forall2 R a1 a2 → krel RL R (shr a1 s) (shr a2 s).
Proof.
  intros Ha. unfold shr. rewrite (Forall2_length _ _ _ Ha). cbv zeta. do 2 kstep. kstep.
  apply Forall2_wiring; [done|]. intros i. by apply option_lookup.
Qed.
Hint Resolve krel_neb krel_geb krel_leb krel_select krel_shl krel_shr : kparam.

Lemma krel_barrel R step1 step2 a1 a2 s1 s2 :
  (∀ R' x y s, wsub R R' → Forall2 R' x y → krel RL R' (step1 x s) (step2 y s)) →
  Forall2 R a1 a2 → Forall2 R s1 s2 →
  krel RL R (barrel step1 a1 s1) (barrel step2 a2 s2).
Proof.
  intros Hstep Ha Hs. unfold barrel. rewrite (Forall2_length _ _ _ Ha).
  apply (krel_kfold (RPair REq RW) RL); [done|apply Forall2_zip_pairs; [apply Forall2_eq_refl|done]|].
  intros R' x y [i b1] [i' b2] Hsub Hxy [Hi Hb]. unfold REq, RW in Hi, Hb. simpl in *. subst i'.
  eapply krel_bind; [by apply Hstep|]. intros R2 t1 t2 Hs2 Ht. kmono. by apply krel_select.
Qed.
Lemma krel_any_set R l1 l2 : Forall2 R l1 l2 → krel RW R (any_set l1) (any_set l2).
Proof.
  intros Hl. unfold any_set. kstep. apply (krel_kfold RW RW); [done|done|].
  intros R' x y x' y' Hs Hx Hy. by apply krel_or_gate.
Qed.
Lemma krel_secret R step1 step2 a1 a2 s1 s2 :
  (∀ R' x y s, Forall2 R' x y → krel RL R' (step1 x s) (step2 y s)) →
  Forall2 R a1 a2 → Forall2 R s1 s2 →
  krel RL R
    (res ← barrel step1 a1 s1; overflow ← any_set (drop (used_bits (length a1)) s1);
     zero ← constant (length a1) 0; select res overflow zero)
    (res ← barrel step2 a2 s2; overflow ← any_set (drop (used_bits (length a2)) s2);
     zero ← constant (length a2) 0; select res overflow zero).
Proof.
  intros Hstep Ha Hs. rewrite (Forall2_length _ _ _ Ha).
  eapply krel_bind; [by apply krel_barrel; [auto|..]|]. intros R' r1 r2 Hsub Hr. kmono.
  eapply krel_bind; [apply krel_any_set; by apply Forall2_drop|]. intros R2 o1 o2 Hs2 Ho. kmono.
  eapply krel_bind; [apply krel_constant|]. intros R3 z1 z2 Hs3 Hz. kmono. by apply krel_select.
Qed.
Lemma krel_shl_secret R a1 a2 s1 s2 :
  Forall2 R a1 a2 → Forall2 R s1 s2 → krel RL R (shl_secret a1 s1) (shl_secret a2 s2).
Proof. intros. apply krel_secret; [|done..]. intros. by apply krel_shl. Qed.
Lemma krel_shr_secret R a1 a2 s1 s2 :
  Forall2 R a1 a2 → Forall2 R s1 s2 → krel RL R (shr_secret a1 s1) (shr_secret a2 s2).
Proof. intros. apply krel_secret; [|done..]. intros. by apply krel_shr. Qed.

Lemma Forall2_insert_wires R l1 l2 k x y :
  Forall2 R l1 l2 → R x y → Forall2 R (<[k := x]> l1) (<[k := y]> l2).
Proof. intros. by apply Forall2_insert. Qed.
Hint Resolve Forall2_insert_wires : kparam.
Lemma krel_popcount R r a1 a2 : Forall2 R a1 a2 → krel RL R (popcount r a1) (popcount r a2).
Proof.
  intros Ha. unfold popcount. kstep. apply (krel_kfold RW RL); [done|done|].
  intros R' x y x' y' Hs Hx Hy. unfold RW in *. kauto.
Qed.
Lemma krel_hamming_weight R a1 a2 :
  Forall2 R a1 a2 → krel RL R (hamming_weight a1) (hamming_weight a2).
Proof.
  intros Ha. unfold hamming_weight. rewrite (Forall2_length _ _ _ Ha). by apply krel_popcount.
Qed.
Lemma krel_saturate R acc1 acc2 l1 l2 :
  R acc1 acc2 → Forall2 R l1 l2 → krel RL R (saturate acc1 l1) (saturate acc2 l2).
Proof.
  intros Hacc Hl. revert R acc1 acc2 Hacc Hl.
  induction l1 as [|x l1 IH] in l2 |- *; intros R acc1 acc2 Hacc Hl;
    inversion Hl as [|? y ? l2' Hx Hl']; subst; simpl; kauto.
Qed.
Lemma krel_leading_zeros R a1 a2 :
  Forall2 R a1 a2 → krel RL R (leading_zeros a1) (leading_zeros a2).
Proof.
  intros Ha. unfold leading_zeros. eapply (krel_bind RL).
  - apply Forall2_reverse in Ha. destruct Ha as [|x y l1 l2 Hx Hl]; [kauto|].
    eapply krel_bind; [by apply krel_saturate|]. intros R' r1 r2 Hs Hr. kmono.
    apply krel_ret. apply Forall2_reverse. by constructor.
  - intros R' s1 s2 Hs Hsat. kdestruct. kmono. eapply krel_bind.
    { apply krel_kmap_wires; [exact Hsat|]. intros. eauto with kparam. }
    intros R2 n1 n2 Hs2 Hn. kdestruct. kmono. by apply krel_hamming_weight.
Qed.
Lemma krel_zext R m a1 a2 : Forall2 R a1 a2 → krel RL R (zext m a1) (zext m a2).
Proof.
  intros Ha. unfold zext. kstep. apply krel_ret. apply Forall2_wiring; [done|].
  intros i. by apply Forall2_lookup.
Qed.
Lemma krel_resize R m a1 a2 : Forall2 R a1 a2 → krel RL R (resize a1 m) (resize a2 m).
Proof.
  intros Ha. unfold resize. eapply krel_bind; [apply krel_kexpect|].
  intros R' [] [] Hs _. kmono. by apply krel_zext.
Qed.
Lemma krel_mod_exp R a1 a2 p1 p2 q1 q2 :
  Forall2 R a1 a2 → Forall2 R p1 p2 → Forall2 R q1 q2 →
  krel RL R (mod_exp a1 p1 q1) (mod_exp a2 p2 q2).
Proof.
  intros Ha Hp Hq. unfold mod_exp. rewrite (Forall2_length _ _ _ Ha). kstep.
  eapply krel_bind.
  - apply (krel_kfold RW (RPair RL RL)); [by split|done|].
    intros R' [b1 r1] [b2 r2] x y Hs [Hb Hr] Hx. kdestruct. simpl in *. kdestruct. kauto.
  - intros R' [] [] Hs [? ?]. simpl in *. kauto.
Qed.
End param.
#[export] Hint Resolve krel_add krel_sub krel_and krel_xor krel_or krel_not krel_mul krel_div
  krel_rem krel_eqb krel_ltb krel_neb krel_gtb krel_geb krel_leb krel_select krel_shl krel_shr
  krel_shl_secret krel_shr_secret krel_popcount krel_hamming_weight krel_leading_zeros
  krel_zext krel_resize krel_mod_exp krel_constant krel_same_width : kparam.

(** ** On bits *)
Lemma bval_of_testbit l v :
  (∀ i : nat, default false (l !! i) = N.testbit v (N.of_nat i)) → bval l = v.
Proof.
  intros H. apply N.bits_inj. intros i. rewrite <- (N2Nat.id i). by rewrite bval_testbit.
Qed.
Lemma keval_kmap2 (f : bool → bool → Kernel bool bool) (g : bool → bool → bool) a b :
  (∀ x y, keval (f x y) = Ret (g x y)) → keval (kmap2 f a b) = Ret (zip_with g a b).
Proof.
  intros Hf. revert b. induction a as [|x a IH]; intros [|y b]; try done.
  simpl. rewrite keval_bind, Hf. simpl. rewrite keval_bind, IH. done.
Qed.
Lemma keval_kmap {A} (f : A → Kernel bool bool) (g : A → bool) l :
  (∀ x, keval (f x) = Ret (g x)) → keval (kmap f l) = Ret (g <$> l).
Proof.
  intros Hf. induction l as [|x l IH]; [done|].
  simpl. rewrite keval_bind, Hf. simpl. rewrite keval_bind, IH. done.
Qed.
Lemma keval_same_width a b : length a = length b → keval (UInt.same_width a b) = Ret tt.
Proof. intros H. unfold UInt.same_width. by rewrite (proj2 (Nat.eqb_eq _ _) H). Qed.
Lemma keval_guard {A} a b (m : Kernel bool A) :
  length a = length b → keval (UInt.same_width a b;; m) = keval m.
Proof. intros H. rewrite keval_bind, keval_same_width by done. done. Qed.

Section bits.
Import UInt.
Implicit Types (a b x y : list bool).

Lemma constant_ok n v : (v < 2 ^ 64)%N →
  ∃ z, keval (constant n v) = Ret z ∧ length z = n ∧ bval z = (v mod pow2 n)%N.
Proof.
  intros Hv. eexists. split; [apply keval_kmap; intros i; reflexivity|].
  rewrite length_fmap, length_seq. split; [done|]. rewrite <- bval_bits. f_equal.
  symmetry. apply bits_ext; [apply length_bits|]. intros i Hi. rewrite bits_lookup by done.
  destruct (Nat.ltb_spec i 64); [done|]. rewrite <- (N.mod_small v (2 ^ 64)) by done.
  by rewrite N.mod_pow2_bits_high by lia.
Qed.
Lemma constant_zero n : keval (constant n 0) = Ret (replicate n false).
Proof.
  unfold constant. erewrite keval_kmap by (intros i; reflexivity). f_equal.
  apply list_eq. intros i. rewrite list_lookup_fmap. destruct (decide (i < n)%nat).
  - rewrite lookup_seq_lt, lookup_replicate_2 by done. simpl. by destruct (Nat.ltb i 64).
  - rewrite !lookup_ge_None_2; [done|rewrite length_replicate; lia|rewrite length_seq; lia].
Qed.

Lemma select_ok a s t : length a = length t → keval (select a s t) = Ret (if s then t else a).
Proof.
  intros Hlen. unfold select. rewrite keval_guard by done.
  erewrite keval_kmap2 by (intros; apply keval_mux). f_equal. revert t Hlen.
  induction a as [|x a IH]; intros [|y t] Hlen; try done; [by destruct s|].
  simpl in *. rewrite IH by lia. by destruct s.
Qed.

Lemma shl_ok a (k : N) :
  ∃ z, keval (shl a (Z.of_N k)) = Ret z ∧ length z = length a ∧
    bval z = ((bval a * 2 ^ k) mod pow2 (length a))%N.
Proof.
  unfold shl. destruct (Z.leb_spec 0 (Z.of_N k)); [|lia]. simpl.
  eexists. split; [done|]. rewrite length_fmap, length_seq. split; [done|].
  apply bval_of_testbit. intros i. unfold pow2. rewrite list_lookup_fmap.
  destruct (decide (i < length a)%nat) as [Hi|Hi].
  - rewrite lookup_seq_lt, N.mod_pow2_bits_low by (done || lia). simpl.
    destruct (Z.leb_spec (Z.of_N k) (Z.of_nat i)).
    + rewrite N.mul_pow2_bits_high by lia.
      replace (N.of_nat i - k)%N with (N.of_nat (Z.to_nat (Z.of_nat i - Z.of_N k))) by lia.
      by rewrite bval_testbit.
    + by rewrite N.mul_pow2_bits_low by lia.
  - rewrite lookup_ge_None_2 by (rewrite length_seq; lia).
    by rewrite N.mod_pow2_bits_high by lia.
Qed.
Lemma shr_ok a (k : N) :
  ∃ z, keval (shr a (Z.of_N k)) = Ret z ∧ length z = length a ∧ bval z = (bval a / 2 ^ k)%N.
Proof.
  unfold shr. destruct (Z.leb_spec 0 (Z.of_N k)); [|lia]. simpl.
  eexists. split; [done|]. rewrite length_fmap, length_seq. split; [done|].
  apply bval_of_testbit. intros i. rewrite list_lookup_fmap, N.div_pow2_bits.
  replace (N.of_nat i + k)%N with (N.of_nat (i + N.to_nat k)) by lia. rewrite bval_testbit.
  set (s := if (Z.of_nat (length a) <? Z.of_N k)%Z then Z.of_nat (length a) else Z.of_N k).
  assert (s = Z.min (Z.of_nat (length a)) (Z.of_N k)) as Hs
    by (subst s; destruct (Z.ltb_spec (Z.of_nat (length a)) (Z.of_N k)); lia). clearbody s.
  destruct (decide (i < length a)%nat) as [Hi|Hi].
  - rewrite lookup_seq_lt by done. simpl.
    destruct (Z.ltb_spec (Z.of_nat i + s) (Z.of_nat (length a))).
    + by replace (Z.to_nat (Z.of_nat i + s)) with (i + N.to_nat k)%nat by lia.
    + by rewrite (lookup_ge_None_2 a) by lia.
  - rewrite !lookup_ge_None_2 by (rewrite ?length_seq; lia). done.
Qed.

(** *** Barrel shifter *)
Lemma clog2_loop_spec (fuel : nat) (n b : N) :
  (n ≤ 2 ^ (b + N.of_nat fuel) → n ≤ 2 ^ clog2_loop fuel n b)%N.
Proof.
  revert b. induction fuel as [|fuel IH]; intros b Hn; simpl.
  - by rewrite N.add_0_r in Hn.
  - rewrite N.shiftl_1_l. destruct (N.ltb_spec (2 ^ b) n); [|done].
    apply IH. replace (b + 1 + N.of_nat fuel)%N with (b + N.of_nat (S fuel))%N by lia. done.
Qed.
Lemma used_bits_spec n : (N.of_nat n ≤ 2 ^ 31)%N → (N.of_nat n ≤ pow2 (used_bits n))%N.
Proof.
  intros Hn. unfold used_bits. destruct (Nat.leb_spec n 1).
  - rewrite pow2_0. lia.
  - unfold pow2. rewrite N2Nat.id. apply clog2_loop_spec. exact Hn.
Qed.

(** For any selection that behaves as one and any description [P m] of the
    value shifted by [m]. *)
Lemma barrel_gen sel step (P : N → list bool → Prop) a sh :
  (∀ a (s : bool) t, length a = length t → keval (sel a s t) = Ret (if s then t else a)) →
  (∀ res m s, length res = length a → P m res →
     ∃ out, keval (step res (Z.of_N s)) = Ret out ∧ length out = length a ∧ P (m + s)%N out) →
  P 0%N a →
  ∃ r, keval (kfold (λ res '(i, s), t ← step res (Z.shiftl 1 (Z.of_nat i)); sel res s t) a
      (zip (seq 0 (used_bits (length a))) sh)) = Ret r ∧
    length r = length a ∧ P (bval (take (used_bits (length a)) sh)) r.
Proof.
  intros Hsel Hstep H0. set (u := used_bits (length a)). rewrite keval_fold.
  match goal with |- context [foldO ?g _ _] => set (g' := g) end.
  destruct (foldO_inv g' (zip (seq 0 u) sh) (λ don res, length res = length a ∧
    P (bval (take (length don) sh)) res) a) as (r & Hr & Hl & Hv);
    [split; [done|by simpl]| |].
  - intros don [i s] todo res Hz [Hl Hv]. unfold g'. simpl.
    assert (zip (seq 0 u) sh !! length don = Some (i, s)) as Hi
      by (rewrite Hz; by apply list_lookup_middle).
    apply lookup_zip_with_Some in Hi as (i' & s' & [= <- <-] & [-> Hlt]%lookup_seq & Hs).
    simpl. rewrite Z.shiftl_1_l.
    replace (2 ^ Z.of_nat (length don))%Z with (Z.of_N (pow2 (length don)))
      by (unfold pow2; rewrite N2Z.inj_pow; f_equal; lia).
    destruct (Hstep res _ (pow2 (length don)) Hl Hv) as (out & Ho & Hlo & Hvo).
    rewrite keval_bind, Ho. simpl. rewrite Hsel by congruence.
    eexists. split; [done|]. split; [by destruct s|].
    rewrite length_app, Nat.add_1_r, (take_S_r _ _ _ Hs), bval_app, length_take.
    pose proof (lookup_lt_Some _ _ _ Hs).
    replace (length don `min` length sh)%nat with (length don) by lia.
    destruct s; cbn [bval N.b2n].
    + by rewrite N.mul_0_r, N.add_0_r, N.mul_1_r.
    + by rewrite N.add_0_r, N.mul_0_r, N.add_0_r.
  - exists r. split; [done|]. split; [done|].
    rewrite length_zip, length_seq in Hv.
    destruct (decide (u ≤ length sh)%nat); [by rewrite Nat.min_l in Hv by lia|].
    rewrite Nat.min_r, take_ge in Hv by lia. by rewrite take_ge by lia.
Qed.
Lemma barrel_ok step (f : N → N) a sh :
  (∀ res m s, length res = length a → bval res = f m →
     ∃ out, keval (step res (Z.of_N s)) = Ret out ∧ length out = length a ∧ bval out = f (m + s)%N) →
  bval a = f 0%N →
  ∃ r, keval (barrel step a sh) = Ret r ∧ length r = length a ∧
    bval r = f (bval (take (used_bits (length a)) sh)).
Proof.
  intros. apply (barrel_gen select step (λ m r, bval r = f m)); [|done..].
  intros. by apply select_ok.
Qed.
Lemma small_shift n sh :
  (N.of_nat n ≤ 2 ^ 31)%N →
  if decide (bval (drop (used_bits n) sh) = 0%N) then bval (take (used_bits n) sh) = bval sh
  else (N.of_nat n ≤ bval sh)%N.
Proof.
  intros Hn. pose proof (used_bits_spec _ Hn) as Hu. set (u := used_bits n) in *.
  rewrite bval_drop. destruct (decide _) as [Hov|Hov].
  - apply N.div_small_iff in Hov; [|apply pow2_ne]. rewrite bval_take. by apply N.mod_small.
  - destruct (decide (pow2 u ≤ bval sh)%N); [lia|]. destruct Hov. apply N.div_small. lia.
Qed.
Lemma any_set_ok l : keval (any_set l) = Ret (bool_decide (bval l ≠ 0%N)).
Proof.
  unfold any_set. rewrite keval_bind. simpl. rewrite keval_fold, <- existsb_id_zero.
  assert (∀ acc : bool, foldO (λ s a : bool, keval (or_gate s a)) acc l = Ret (acc || existsb id l)) as H.
  { induction l as [|b l IH]; intros acc; [by rewrite orb_false_r|].
    cbn [foldO existsb]. rewrite keval_or_gate. cbn [mbind outcome_bind]. rewrite IH.
    by rewrite orb_assoc. }
  apply H.
Qed.
Lemma secret_ok step (f : N → N) a sh :
  (N.of_nat (length a) ≤ 2 ^ 31)%N →
  (∀ res m s, length res = length a → bval res = f m →
     ∃ out, keval (step res (Z.of_N s)) = Ret out ∧ length out = length a ∧ bval out = f (m + s)%N) →
  bval a = f 0%N → (∀ m, (N.of_nat (length a) ≤ m)%N → f m = 0%N) →
  ∃ r, keval (res ← barrel step a sh; overflow ← any_set (drop (used_bits (length a)) sh);
      zero ← constant (length a) 0; select res overflow zero) = Ret r ∧
    length r = length a ∧ bval r = f (bval sh).
Proof.
  intros Hn Hstep H0 Hbig. destruct (barrel_ok step f a sh Hstep H0) as (r & Hr & Hl & Hv).
  rewrite keval_bind, Hr. cbn [mbind outcome_bind].
  rewrite keval_bind, any_set_ok. cbn [mbind outcome_bind].
  rewrite keval_bind, constant_zero. cbn [mbind outcome_bind].
  rewrite select_ok by (rewrite length_replicate; done). eexists. split; [done|].
  pose proof (small_shift _ sh Hn) as Hs. case_bool_decide as Hov.
  - rewrite decide_False in Hs by done.
    rewrite length_replicate, bval_replicate_false. split; [done|]. symmetry. by apply Hbig.
  - rewrite decide_True in Hs by done. split; [done|]. by rewrite Hv, Hs.
Qed.

(** *** Bit counting *)
Definition ones (l : list bool) : N := foldr (λ (b : bool) n, (N.b2n b + n)%N) 0%N l.
Lemma ones_app l1 l2 : ones (l1 ++ l2) = (ones l1 + ones l2)%N.
Proof. unfold ones. induction l1 as [|b l1 IH]; simpl in *; [done|]. rewrite IH. lia. Qed.
Lemma ones_le l : (ones l ≤ N.of_nat (length l))%N.
Proof. induction l as [|b l IH]; simpl; [done|]. pose proof (b2n_le b). lia. Qed.

Lemma popcount_ok r a :
  ∃ z, keval (popcount r a) = Ret z ∧ length z = r ∧ bval z = (ones a mod pow2 r)%N.
Proof.
  unfold popcount. rewrite keval_bind, constant_zero. cbn [mbind outcome_bind].
  rewrite keval_fold. match goal with |- context [foldO ?g _ _] => set (g' := g) end.
  destruct (foldO_inv g' a (λ don z, length z = r ∧ bval z = (ones don mod pow2 r)%N)
    (replicate r false)) as (z & Hz & Hl & Hv); [|intros don w todo z _ [Hl Hv]|eauto].
  - rewrite length_replicate, bval_replicate_false. split; [done|]. by rewrite N.Div0.mod_0_l.
  - unfold g'. rewrite keval_bind, constant_zero. cbn [mbind outcome_bind].
    unfold add. rewrite keval_guard by (rewrite length_insert, length_replicate; done).
    destruct (keval_ripple_add z (<[0%nat:=w]> (replicate r false))) as (d & Hd & Hld & Hvd).
    { by rewrite length_insert, length_replicate. }
    exists d. split; [done|]. split; [congruence|]. rewrite Hvd, Hl, Hv, ones_app. simpl.
    rewrite N.Div0.add_mod_idemp_l. destruct r as [|r]; [by rewrite pow2_0, !N.mod_1_r|].
    simpl. rewrite bval_replicate_false. f_equal; lia.
Qed.
Lemma bits_for_loop_spec (fuel : nat) (n b : N) :
  (n < 2 ^ (b + N.of_nat fuel) → n < 2 ^ bits_for_loop fuel n b)%N.
Proof.
  revert b. induction fuel as [|fuel IH]; intros b Hn; simpl.
  - by rewrite N.add_0_r in Hn.
  - rewrite N.shiftl_1_l. destruct (N.leb_spec (2 ^ b) n); [|done].
    apply IH. replace (b + 1 + N.of_nat fuel)%N with (b + N.of_nat (S fuel))%N by lia. done.
Qed.
Lemma hamming_weight_ok a : (N.of_nat (length a) < 2 ^ 31)%N →
  ∃ z, keval (hamming_weight a) = Ret z ∧
    length z = N.to_nat (bits_for (N.of_nat (length a))) ∧ bval z = ones a.
Proof.
  intros Ha. destruct (popcount_ok (N.to_nat (bits_for (N.of_nat (length a)))) a)
    as (z & Hz & Hl & Hv).
  exists z. split; [done|]. split; [done|]. rewrite Hv. apply N.mod_small.
  unfold pow2. rewrite N2Nat.id. pose proof (ones_le a).
  assert (N.of_nat (length a) < 2 ^ bits_for (N.of_nat (length a)))%N; [|lia].
  apply bits_for_loop_spec. eapply N.lt_trans; [exact Ha|]. done.
Qed.

(** The number of leading (most significant) zeros, most significant first. *)
Fixpoint lead_zeros (l : list bool) : nat :=
  match l with false :: l => S (lead_zeros l) | _ => 0 end.
Lemma saturate_ok acc l :
  ∃ s, keval (saturate acc l) = Ret s ∧ length s = length l ∧
    ones (negb <$> s) = if acc then 0%N else N.of_nat (lead_zeros l).
Proof.
  revert acc. induction l as [|b l IH]; intros acc; [exists []; by destruct acc|].
  cbn [saturate]. rewrite keval_bind, keval_or_gate. cbn [mbind outcome_bind].
  destruct (IH (acc || b)) as (s & Hs & Hl & Ho). rewrite keval_bind, Hs.
  exists ((acc || b) :: s). split; [done|]. split; [by f_equal/=|].
  rewrite fmap_cons. cbn [ones foldr]. fold (ones (negb <$> s)). rewrite Ho.
  destruct acc, b; simpl; lia.
Qed.
Lemma lead_zeros_bound l :
  let k := lead_zeros (reverse l) in
  (k ≤ length l)%nat ∧ (bval l < pow2 (length l - k))%N ∧
  ((k < length l)%nat → pow2 (length l - k - 1) ≤ bval l)%N.
Proof.
  induction l as [|b l IH] using rev_ind; [by split; [|split; [|intros ?%Nat.nlt_0_r]]|].
  rewrite reverse_snoc, length_app, bval_app. simpl length. cbv zeta in IH |- *.
  destruct b; cbn [lead_zeros bval N.b2n].
  - split; [lia|]. pose proof (bval_lt l). replace (length l + 1 - 0)%nat with (S (length l)) by lia.
    rewrite pow2_S. split; [lia|]. intros _. replace (S (length l) - 1)%nat with (length l) by lia. lia.
  - destruct IH as (H1 & H2 & H3). set (k := lead_zeros (reverse l)) in *.
    replace (length l + 1 - S k)%nat with (length l - k)%nat by lia.
    split; [lia|]. split; [lia|]. intros. rewrite N.mul_0_r, N.add_0_r. apply H3. lia.
Qed.
Lemma ones_reverse l : ones (reverse l) = ones l.
Proof.
  induction l as [|b l IH]; [done|]. rewrite reverse_cons, ones_app, IH. simpl. lia.
Qed.
Lemma leading_zeros_ok a : (N.of_nat (length a) < 2 ^ 31)%N →
  ∃ z, keval (leading_zeros a) = Ret z ∧
    bval z = N.of_nat (lead_zeros (reverse a)).
Proof.
  intros Ha. unfold leading_zeros.
  assert (∃ s, keval (match reverse a with [] => mret [] | top :: rest =>
      r ← saturate top rest; mret (reverse (top :: r)) end) = Ret s ∧ length s = length a ∧
    ones (negb <$> s) = N.of_nat (lead_zeros (reverse a))) as (s & Hs & Hl & Ho).
  { rewrite <- (length_reverse a). destruct (reverse a) as [|t rest]; [by exists []|].
    destruct (saturate_ok t rest) as (s & Hs & Hl & Ho). rewrite keval_bind, Hs.
    exists (reverse (t :: s)). split; [done|]. split; [rewrite length_reverse; by f_equal/=|].
    rewrite fmap_reverse, ones_reverse, fmap_cons. cbn [ones foldr]. fold (ones (negb <$> s)).
    rewrite Ho. destruct t; simpl; lia. }
  rewrite keval_bind, Hs. cbn [mbind outcome_bind].
  rewrite keval_bind, (keval_kmap knot negb) by done. cbn [mbind outcome_bind].
  destruct (hamming_weight_ok (negb <$> s)) as (z & Hz & _ & Hv).
  { by rewrite length_fmap, Hl. }
  exists z. split; [done|]. by rewrite Hv.
Qed.

(** *** Modular exponentiation *)
Lemma mulmod_ok x y q (X Y Q : N) :
  length x = length q → length y = length q → q ≠ [] →
  bval x = X → bval y = Y → bval q = Q → Q ≠ 0%N → (X * Y < pow2 (length q))%N →
  ∃ m t, keval (mul x y) = Ret m ∧ keval (rem m q) = Ret t ∧ length t = length q ∧
    bval t = ((X * Y) mod Q)%N.
Proof.
  intros Hx Hy Hq <- <- <- HQ Hlt. unfold mul.
  destruct (keval_mul_full x y) as (m & Hm & Hlm & Hvm); [congruence|].
  exists m. unfold rem. rewrite keval_guard by congruence.
  destruct (keval_div_full m q) as (d & r & Hd & _ & Hlr & _ & Hvr); [congruence|
    intros ->; destruct q; [done|simpl in *; congruence]|].
  exists r. split; [done|]. rewrite keval_guard, keval_bind, Hd by congruence.
  split; [done|]. split; [congruence|]. rewrite Hvr. unfold urem.
  destruct (N.eqb_spec (bval q) 0); [done|]. rewrite Hvm, (N.mod_small _ (pow2 _)); [done|]. congruence.
Qed.
Lemma mod_exp_ok a p q (Q : N) :
  length a = length q → bval q = Q → (1 < Q)%N → (bval a < Q)%N →
  (Q * Q ≤ pow2 (length q))%N →
  ∃ z, keval (mod_exp a p q) = Ret z ∧ length z = length q ∧
    bval z = ((bval a ^ bval p) mod Q)%N.
Proof.
  intros Hlen Hq HQ Ha HQ2. unfold mod_exp.
  assert (q ≠ []) as Hne by (intros ->; simpl in Hq; lia).
  destruct (constant_ok (length a) 1) as (one & Ho & Hlo & Hvo); [done|].
  rewrite keval_bind, Ho. cbn [mbind outcome_bind]. rewrite keval_bind, keval_fold.
  match goal with |- context [foldO ?g _ _] => set (g' := g) end.
  destruct (foldO_inv g' p (λ don s, length s.1 = length q ∧ length s.2 = length q ∧
    bval s.1 = ((bval a ^ pow2 (length don)) mod Q)%N ∧
    bval s.2 = ((bval a ^ bval don) mod Q)%N) (a, one)) as ([bs r] & Hf & _ & Hlr & _ & Hvr).
  - simpl. rewrite pow2_0, N.pow_1_r, N.pow_0_r, N.mod_small, N.mod_small by done.
    split; [done|]. split; [congruence|]. split; [done|]. rewrite Hvo. apply N.mod_small.
    destruct a; [simpl in Hlen; by destruct q|]. simpl length. rewrite pow2_S.
    pose proof (pow2_pos (length a)). lia.
  - intros don b todo [base res] _ (Hlb & Hlr & Hvb & Hvr). simpl in *. unfold g'.
    assert (bval base < Q)%N as Hb1 by (rewrite Hvb; apply N.mod_lt; lia).
    assert (bval res < Q)%N as Hr1 by (rewrite Hvr; apply N.mod_lt; lia).
    assert (∀ X Y, X < Q → Y < Q → X * Y < pow2 (length q))%N as Hprod by (intros; nia).
    destruct (mulmod_ok res base q _ _ _ Hlr Hlb Hne eq_refl eq_refl Hq) as (m & t & Hm & Ht & Hlt & Hvt);
      [lia|by apply Hprod|].
    destruct (mulmod_ok base base q _ _ _ Hlb Hlb Hne eq_refl eq_refl Hq) as (m2 & t2 & Hm2 & Ht2 & Hlt2 & Hvt2);
      [lia|by apply Hprod|].
    rewrite keval_bind, Hm. cbn [mbind outcome_bind]. rewrite keval_bind, Ht. cbn [mbind outcome_bind].
    rewrite keval_bind, select_ok by congruence. cbn [mbind outcome_bind].
    rewrite keval_bind, Hm2. cbn [mbind outcome_bind]. rewrite keval_bind, Ht2.
    eexists. split; [done|]. simpl. split; [done|]. split; [by destruct b|]. split.
    + rewrite Hvt2, Hvb, <- N.Div0.mul_mod, length_app, <- N.pow_add_r. simpl.
      do 2 f_equal. rewrite Nat.add_1_r, pow2_S. lia.
    + rewrite bval_app. cbn [bval]. destruct b; cbn [N.b2n].
      * rewrite Hvt, Hvb, Hvr, <- N.Div0.mul_mod, <- N.pow_add_r. do 2 f_equal. lia.
      * rewrite Hvr. do 2 f_equal. lia.
  - rewrite Hf. exists r. done.
Qed.

(** *** Rotations *)
Lemma rot_mod (n x : Z) : (0 < n)%Z → Z.rem (Z.rem x n + n) n = (x mod n)%Z.
Proof.
  intros Hn. rewrite (Z.rem_mod_nonneg (Z.rem x n + n)); [|pose proof (Z.rem_bound_abs x n); lia|done].
  replace (Z.rem x n + n)%Z with (Z.rem x n + 1 * n)%Z by lia. rewrite Z.mod_add by lia.
  pose proof (Z.quot_rem' x n). rewrite (Z.mod_unique x n (Z.quot x n + (Z.rem x n / n)) (Z.rem x n mod n)) at 1.
  - done.
  - pose proof (Z.mod_pos_bound (Z.rem x n) n). lia.
  - pose proof (Z.div_mod (Z.rem x n) n). lia.
Qed.
Lemma mapM_seq {X} (f : nat → option X) n :
  (∀ i, (i < n)%nat → is_Some (f i)) →
  ∃ r, mapM f (seq 0 n) = Some r ∧ length r = n ∧ ∀ i, (i < n)%nat → r !! i = f i.
Proof.
  intros Hf. destruct (mapM f (seq 0 n)) as [r|] eqn:Hr.
  - exists r. split; [done|]. apply mapM_Some in Hr. pose proof (Forall2_length _ _ _ Hr) as Hl.
    rewrite length_seq in Hl. split; [done|]. intros i Hi.
    destruct (Forall2_lookup_l _ _ _ i i Hr) as (x & Hx & Hfx); [by rewrite lookup_seq_lt|].
    by rewrite Hx, Hfx.
  - exfalso. apply mapM_None in Hr. apply Exists_exists in Hr as (i & Hi & Hn).
    apply elem_of_seq in Hi. destruct (Hf i); [lia|congruence].
Qed.
Lemma rotl_ok {X} (a : list X) s : a ≠ [] →
  ∃ r, rotl a s = Some r ∧ length r = length a ∧
    ∀ i, (i < length a)%nat → r !! i = a !! Z.to_nat ((Z.of_nat i - s) mod Z.of_nat (length a)).
Proof.
  intros Ha. assert (0 < Z.of_nat (length a))%Z as Hn by (destruct a; [done|simpl; lia]).
  unfold rotl, rot_index. rewrite rot_mod by done.
  destruct (mapM_seq (λ i, a !! Z.to_nat (Z.rem (Z.rem (Z.of_nat i - s mod Z.of_nat (length a))
    (Z.of_nat (length a)) + Z.of_nat (length a)) (Z.of_nat (length a)))) (length a))
    as (r & Hr & Hl & Hi).
  - intros i Hi. rewrite rot_mod by done. apply lookup_lt_is_Some.
    pose proof (Z.mod_pos_bound (Z.of_nat i - s mod Z.of_nat (length a)) _ Hn). lia.
  - exists r. split; [done|]. split; [done|]. intros i Hlt. rewrite Hi, rot_mod by done.
    by rewrite Zminus_mod_idemp_r.
Qed.
Lemma rotr_ok {X} (a : list X) s : a ≠ [] →
  ∃ r, rotr a s = Some r ∧ length r = length a ∧
    ∀ i, (i < length a)%nat → r !! i = a !! Z.to_nat ((Z.of_nat i + s) mod Z.of_nat (length a)).
Proof.
  intros Ha. assert (0 < Z.of_nat (length a))%Z as Hn by (destruct a; [done|simpl; lia]).
  unfold rotr. rewrite rot_mod by done.
  assert (∀ i : nat, Z.rem (Z.of_nat i + s mod Z.of_nat (length a)) (Z.of_nat (length a)) =
    (Z.of_nat i + s) mod Z.of_nat (length a))%Z as Hrem.
  { intros i. pose proof (Z.mod_pos_bound s _ Hn). rewrite Z.rem_mod_nonneg by lia.
    by rewrite Zplus_mod_idemp_r. }
  destruct (mapM_seq (λ i, a !! Z.to_nat (Z.rem (Z.of_nat i + s mod Z.of_nat (length a))
    (Z.of_nat (length a)))) (length a)) as (r & Hr & Hl & Hi).
  - intros i Hi. rewrite Hrem. apply lookup_lt_is_Some.
    pose proof (Z.mod_pos_bound (Z.of_nat i + s) _ Hn). lia.
  - exists r. split; [done|]. split; [done|]. intros i Hlt. by rewrite Hi, Hrem.
Qed.

(** *** The clear codec *)
Lemma encode_ok n v : encode n v = bits n v.
Proof.
  unfold encode. symmetry. apply bits_ext; [apply length_bits|]. intros i Hi.
  rewrite bits_lookup by done. by rewrite N.shiftr_spec'.
Qed.
Lemma decode_ok b : decode b = bval b.
Proof.
  unfold decode. induction b as [|x b IH] using rev_ind; [done|].
  rewrite length_app, seq_app. simpl. rewrite zip_with_app by (by rewrite length_seq).
  rewrite foldl_app, IH. simpl. rewrite bval_app, lor_bval. cbn [bval].
  destruct x; simpl; lia.
Qed.
End bits.

(** ** Properties *)
Definition same_length (x y : list bool) : Prop := length x = length y.
Definition nonempty_pair (x y : list bool) : Prop := length x = length y ∧ x ≠ [].

(** [UInt_T] arithmetic.  On every lawful context, for operands of equal
    width [n >= 1], [+], [-] and [*] are arithmetic modulo [2^n], and [/] and
    [%] are the quotient and remainder, with the documented saturation (all ones
    and the dividend) when the divisor is zero. *)
Theorem uint_arith_correct :
  computes2 (A := list) (@RL) (@UInt.add) same_length
    (λ x y z, length z = length x ∧ bval z = ((bval x + bval y) mod pow2 (length x))%N) ∧
  computes2 (A := list) (@RL) (@UInt.sub) same_length
    (λ x y z, length z = length x ∧
       bval z = ((bval x + pow2 (length x) - bval y) mod pow2 (length x))%N) ∧
  computes2 (A := list) (@RL) (@UInt.mul) same_length
    (λ x y z, length z = length x ∧ bval z = ((bval x * bval y) mod pow2 (length x))%N) ∧
  computes2 (A := list) (@RL) (@UInt.div) nonempty_pair
    (λ x y z, length z = length x ∧ bval z = udiv (length x) (bval x) (bval y)) ∧
  computes2 (A := list) (@RL) (@UInt.rem) nonempty_pair
    (λ x y z, length z = length x ∧ bval z = urem (bval x) (bval y)).
Proof.
  split_and!; (apply computes2_intro; [intros; eauto with kparam|intros x y]).
  - intros Hlen. unfold UInt.add. rewrite keval_guard by done. by apply keval_ripple_add.
  - intros Hlen. unfold UInt.sub. rewrite keval_guard by done. by apply keval_ripple_sub.
  - intros Hlen. unfold UInt.mul. rewrite keval_guard by done. by apply keval_mul_full.
  - intros [Hlen Hne]. destruct (keval_div_full x y Hlen Hne) as (q & r & Hk & ? & ? & ? & ?).
    exists q. unfold UInt.div. by rewrite keval_guard, keval_bind, Hk.
  - intros [Hlen Hne]. destruct (keval_div_full x y Hlen Hne) as (q & r & Hk & ? & ? & ? & ?).
    exists r. unfold UInt.rem. by rewrite keval_guard, keval_bind, Hk.
Qed.

(** [UInt_T] comparisons.  On every lawful context the six comparison
    operators give the bit of the corresponding comparison of the values. *)
Theorem uint_compare_correct :
  computes2 (A := λ W, W) (@RW) (@UInt.eqb) same_length (λ x y z, z = (bval x =? bval y)%N) ∧
  computes2 (A := λ W, W) (@RW) (@UInt.neb) same_length (λ x y z, z = negb (bval x =? bval y)%N) ∧
  computes2 (A := λ W, W) (@RW) (@UInt.ltb) nonempty_pair (λ x y z, z = (bval x <? bval y)%N) ∧
  computes2 (A := λ W, W) (@RW) (@UInt.gtb) nonempty_pair (λ x y z, z = (bval y <? bval x)%N) ∧
  computes2 (A := λ W, W) (@RW) (@UInt.leb) nonempty_pair (λ x y z, z = (bval x <=? bval y)%N) ∧
  computes2 (A := λ W, W) (@RW) (@UInt.geb) nonempty_pair (λ x y z, z = (bval y <=? bval x)%N).
Proof.
  assert (∀ x y, length x = length y → bool_decide (x = y) = (bval x =? bval y)%N) as Heq.
  { intros x y Hlen. destruct (N.eqb_spec (bval x) (bval y)) as [Hv|Hv].
    - apply bool_decide_eq_true. by apply bval_inj.
    - apply bool_decide_eq_false. congruence. }
  assert (∀ x y, nonempty_pair x y → keval (UInt.ltb x y) = Ret (bval x <? bval y)%N) as Hlt.
  { intros x y [Hlen Hne]. unfold UInt.ltb. rewrite keval_guard by done. by apply keval_less_than. }
  assert (∀ x y, nonempty_pair x y → nonempty_pair y x) as Hsym.
  { intros x y [Hlen Hne]. split; [done|]. intros ->. by destruct x. }
  split_and!; (apply computes2_intro; [intros; eauto with kparam|intros x y]).
  - intros Hlen. unfold UInt.eqb. rewrite keval_guard, keval_equal by done. eauto.
  - intros Hlen. unfold UInt.neb, UInt.eqb. rewrite keval_bind, keval_guard, keval_equal by done.
    simpl. rewrite Heq by done. eauto.
  - intros Hp. rewrite Hlt by done. eauto.
  - intros Hp%Hsym. unfold UInt.gtb. rewrite Hlt by done. eauto.
  - intros Hp%Hsym. unfold UInt.leb, UInt.gtb. rewrite keval_bind, Hlt by done. simpl.
    eexists. split; [done|]. by rewrite N.ltb_antisym, negb_involutive.
  - intros Hp. unfold UInt.geb. rewrite keval_bind, Hlt by done. simpl.
    eexists. split; [done|]. by rewrite N.ltb_antisym, negb_involutive.
Qed.

(** [UInt_T] bitwise operators and selection.  On every lawful context [&],
    [|], [^], [~] act bit by bit, and [a.select(s, t)] is [t] when the selector
    bit is set and [a] otherwise. *)
Theorem uint_bitwise_correct :
  computes2 (A := list) (@RL) (@UInt.and) same_length (λ x y z, z = zip_with andb x y) ∧
  computes2 (A := list) (@RL) (@UInt.or) same_length (λ x y z, z = zip_with orb x y) ∧
  computes2 (A := list) (@RL) (@UInt.xor) same_length (λ x y z, z = zip_with xorb x y) ∧
  computes1 (A := list) (@RL) (@UInt.not) (λ _, True) (λ x z, z = negb <$> x) ∧
  computes3 (A := list) (@RL)
    (λ W a s t, match s with [s] => UInt.select a s t | _ => KFatal "one selector" end)
    (λ x s t, length x = length t ∧ length s = 1%nat)
    (λ x s t z, ∃ b, s = [b] ∧ z = if b then t else x).
Proof.
  split_and!.
  - apply computes2_intro; [intros; eauto with kparam|intros x y Hlen]. unfold UInt.and.
    rewrite keval_guard, (keval_kmap2 kand andb) by done. eauto.
  - apply computes2_intro; [intros; eauto with kparam|intros x y Hlen]. unfold UInt.or.
    rewrite keval_guard, (keval_kmap2 or_gate orb) by (done || apply keval_or_gate). eauto.
  - apply computes2_intro; [intros; eauto with kparam|intros x y Hlen]. unfold UInt.xor.
    rewrite keval_guard, (keval_kmap2 kxor xorb) by done. eauto.
  - apply computes1_intro; [intros; eauto with kparam|intros x _]. unfold UInt.not.
    rewrite (keval_kmap knot negb) by done. eauto.
  - apply computes3_intro.
    + intros W1 W2 R a1 a2 s1 s2 t1 t2 Ha Hs Ht.
      destruct Hs as [|x y s1 s2 Hx [|??????]]; try constructor. by apply krel_select.
    + intros x s t [Hlen Hs]. destruct s as [|b [|]]; try done.
      rewrite select_ok by done. eauto.
Qed.

(** [UInt_T] shifts and rotations by a public amount.  On every lawful
    context [<< s] is multiplication by [2^s] modulo [2^n] and [>> s] is division
    by [2^s], for every [s >= 0] however large; a negative amount ends with a
    diagnostic; and [rotl]/[rotr] move bit [i] to [i + s] / [i - s] modulo [n],
    for every amount of either sign. *)
Theorem uint_shift_correct (s : Z) :
  (if (0 <=? s)%Z then
     computes1 (A := list) (@RL) (λ W a, UInt.shl a s) (λ _, True)
       (λ x z, length z = length x ∧ bval z = ((bval x * 2 ^ Z.to_N s) mod pow2 (length x))%N) ∧
     computes1 (A := list) (@RL) (λ W a, UInt.shr a s) (λ _, True)
       (λ x z, length z = length x ∧ bval z = (bval x / 2 ^ Z.to_N s)%N)
   else ∀ x, keval (UInt.shl x s) = Fatal "UInt_T::operator<<: shift amount must be >= 0" ∧
             keval (UInt.shr x s) = Fatal "UInt_T::operator>>: shift amount must be >= 0") ∧
  (∀ (W : Type) (a : list W) i, (i < length a)%nat →
     let n := Z.of_nat (length a) in
     (∃ r, UInt.rotl a s = Some r ∧ length r = length a ∧
        r !! i = a !! Z.to_nat ((Z.of_nat i - s) mod n)) ∧
     (∃ r, UInt.rotr a s = Some r ∧ length r = length a ∧
        r !! i = a !! Z.to_nat ((Z.of_nat i + s) mod n))).
Proof.
  split.
  - destruct (Z.leb_spec 0 s) as [Hs|Hs].
    + assert (s = Z.of_N (Z.to_N s)) as Heq by lia. clear Hs. split.
      * apply computes1_intro; [intros; by apply krel_shl|]. intros x _.
        pose proof (shl_ok x (Z.to_N s)) as H. by rewrite <- Heq in H.
      * apply computes1_intro; [intros; by apply krel_shr|]. intros x _.
        pose proof (shr_ok x (Z.to_N s)) as H. by rewrite <- Heq in H.
    + intros x. unfold UInt.shl, UInt.shr. destruct (Z.leb_spec 0 s); [lia|]. done.
  - intros W a i Hi. assert (a ≠ []) as Ha by (intros ->; simpl in Hi; lia). split.
    + destruct (rotl_ok a s Ha) as (r & ? & ? & H). eauto.
    + destruct (rotr_ok a s Ha) as (r & ? & ? & H). eauto.
Qed.

(** [UInt_T] shifts by a secret amount.  On every lawful context the barrel
    shifter gives the same result as the public shift by the amount's value, for
    every amount, those at or above the width included. *)
Theorem uint_secret_shift_correct :
  computes2 (A := list) (@RL) (@UInt.shl_secret) (λ x _, (N.of_nat (length x) ≤ 2 ^ 31)%N)
    (λ x y z, length z = length x ∧
       bval z = ((bval x * 2 ^ bval y) mod pow2 (length x))%N) ∧
  computes2 (A := list) (@RL) (@UInt.shr_secret) (λ x _, (N.of_nat (length x) ≤ 2 ^ 31)%N)
    (λ x y z, length z = length x ∧ bval z = (bval x / 2 ^ bval y)%N).
Proof.
  split; (apply computes2_intro; [intros; eauto with kparam|intros x y Hn]).
  - apply (secret_ok UInt.shl (λ m, (bval x * 2 ^ m) mod pow2 (length x))%N); [done| | |].
    + intros res m s Hl Hv. destruct (shl_ok res s) as (z & Hz & Hlz & Hvz).
      exists z. split; [done|]. split; [congruence|].
      rewrite Hvz, Hv, Hl, N.Div0.mul_mod_idemp_l, N.pow_add_r. f_equal. lia.
    + rewrite N.pow_0_r, N.mul_1_r. symmetry. apply N.mod_small, bval_lt.
    + intros m Hm. replace m with (N.of_nat (length x) + (m - N.of_nat (length x)))%N by lia.
      rewrite N.pow_add_r. fold (pow2 (length x)).
      rewrite (N.mul_comm (pow2 _)), N.mul_assoc. apply N.Div0.mod_mul.
  - apply (secret_ok UInt.shr (λ m, bval x / 2 ^ m)%N); [done| | |].
    + intros res m s Hl Hv. destruct (shr_ok res s) as (z & Hz & Hlz & Hvz).
      exists z. split; [done|]. split; [congruence|].
      rewrite Hvz, Hv, N.Div0.div_div, N.pow_add_r. done.
    + by rewrite N.pow_0_r, N.div_1_r.
    + intros m Hm. apply N.div_small. eapply N.lt_le_trans; [apply bval_lt|].
      unfold pow2. by apply N.pow_le_mono_r.
Qed.

(** bit counting.  On every lawful context [hamming_weight] is the number of
    set bits and [leading_zeros] the length of the run of zeros at the top: with
    [k] zeros of [n] bits the value is below [2^(n-k)] and, unless it is zero, at
    least [2^(n-k-1)]. *)
Theorem uint_count_correct :
  computes1 (A := list) (@RL) (@UInt.hamming_weight)
    (λ x, (N.of_nat (length x) < 2 ^ 31)%N) (λ x z, bval z = ones x) ∧
  computes1 (A := list) (@RL) (@UInt.leading_zeros)
    (λ x, (N.of_nat (length x) < 2 ^ 31)%N)
    (λ x z, ∃ k, bval z = N.of_nat k ∧ (k ≤ length x)%nat ∧ (bval x < pow2 (length x - k))%N ∧
       ((k < length x)%nat → pow2 (length x - k - 1) ≤ bval x)%N).
Proof.
  split; (apply computes1_intro; [intros; eauto with kparam|intros x Hn]).
  - destruct (hamming_weight_ok x Hn) as (z & ? & _ & ?). eauto.
  - destruct (leading_zeros_ok x Hn) as (z & Hz & Hv). exists z. split; [done|].
    exists (lead_zeros (reverse x)). split; [done|]. apply lead_zeros_bound.
Qed.

(** Modular exponentiation is correct when products of two residues fit the
    width: for [1 < q], [base < q] and [q * q <= 2^n] it computes
    [base^p mod q].  (Without the size condition the intermediate product is
    truncated, see [mod_exp_truncates].) *)
Theorem uint_mod_exp_correct :
  computes3 (A := list) (@RL) (@UInt.mod_exp)
    (λ x p q, length x = length q ∧
       (1 < bval q ∧ bval x < bval q ∧ bval q * bval q ≤ pow2 (length q))%N)
    (λ x p q z, length z = length q ∧ bval z = ((bval x ^ bval p) mod bval q)%N).
Proof.
  apply computes3_intro; [intros; eauto with kparam|].
  intros x p q (Hl & H1 & H2 & H3). by eapply mod_exp_ok.
Qed.

(** With an 8-bit modulus of 255 the square of 200 does not fit: the circuit
    computes [64], while [200^2 mod 255] is [220]. *)
Lemma mod_exp_truncates :
  ∃ z, keval (UInt.mod_exp (bits 8 200) (bits 2 2) (bits 8 255)) = Ret z ∧
    bval z = 64%N ∧ (200 ^ 2 mod 255 = 220)%N.
Proof. eexists. split; [vm_compute; reflexivity|]. done. Qed.

(** The clear codec round-trips: decoding the encoding of a value keeps it
    modulo [2^n], and encoding a decoded bit string gives it back. *)
Theorem uint_codec_roundtrip n v b :
  UInt.decode (UInt.encode n v) = (v mod pow2 n)%N ∧ UInt.encode (length b) (UInt.decode b) = b.
Proof.
  rewrite !decode_ok, !encode_ok. split; [apply bval_bits|apply bits_bval].
Qed.

(** C30: [UInt_T].  On every lawful context and for operands of every equal width:
    arithmetic modulo [2^n] with the documented saturation on a zero divisor, the
    six comparisons, the bitwise operators and selection, and shifts and rotations
    by public amounts however large (a negative shift ends with a diagnostic). *)
Theorem uint_correct (s : Z) :
  (computes2 (A := list) (@RL) (@UInt.add) same_length
     (λ x y z, length z = length x ∧ bval z = ((bval x + bval y) mod pow2 (length x))%N) ∧
   computes2 (A := list) (@RL) (@UInt.sub) same_length
     (λ x y z, length z = length x ∧
        bval z = ((bval x + pow2 (length x) - bval y) mod pow2 (length x))%N) ∧
   computes2 (A := list) (@RL) (@UInt.mul) same_length
     (λ x y z, length z = length x ∧ bval z = ((bval x * bval y) mod pow2 (length x))%N) ∧
   computes2 (A := list) (@RL) (@UInt.div) nonempty_pair
     (λ x y z, length z = length x ∧ bval z = udiv (length x) (bval x) (bval y)) ∧
   computes2 (A := list) (@RL) (@UInt.rem) nonempty_pair
     (λ x y z, length z = length x ∧ bval z = urem (bval x) (bval y))) ∧
  (computes2 (A := λ W, W) (@RW) (@UInt.eqb) same_length (λ x y z, z = (bval x =? bval y)%N) ∧
   computes2 (A := λ W, W) (@RW) (@UInt.neb) same_length (λ x y z, z = negb (bval x =? bval y)%N) ∧
   computes2 (A := λ W, W) (@RW) (@UInt.ltb) nonempty_pair (λ x y z, z = (bval x <? bval y)%N) ∧
   computes2 (A := λ W, W) (@RW) (@UInt.gtb) nonempty_pair (λ x y z, z = (bval y <? bval x)%N) ∧
   computes2 (A := λ W, W) (@RW) (@UInt.leb) nonempty_pair (λ x y z, z = (bval x <=? bval y)%N) ∧
   computes2 (A := λ W, W) (@RW) (@UInt.geb) nonempty_pair (λ x y z, z = (bval y <=? bval x)%N)) ∧
  (computes2 (A := list) (@RL) (@UInt.and) same_length (λ x y z, z = zip_with andb x y) ∧
   computes2 (A := list) (@RL) (@UInt.or) same_length (λ x y z, z = zip_with orb x y) ∧
   computes2 (A := list) (@RL) (@UInt.xor) same_length (λ x y z, z = zip_with xorb x y) ∧
   computes1 (A := list) (@RL) (@UInt.not) (λ _, True) (λ x z, z = negb <$> x) ∧
   computes3 (A := list) (@RL)
     (λ W a s t, match s with [s] => UInt.select a s t | _ => KFatal "one selector" end)
     (λ x s t, length x = length t ∧ length s = 1%nat)
     (λ x s t z, ∃ b, s = [b] ∧ z = if b then t else x)) ∧
  (if (0 <=? s)%Z then
     computes1 (A := list) (@RL) (λ W a, UInt.shl a s) (λ _, True)
       (λ x z, length z = length x ∧ bval z = ((bval x * 2 ^ Z.to_N s) mod pow2 (length x))%N) ∧
     computes1 (A := list) (@RL) (λ W a, UInt.shr a s) (λ _, True)
       (λ x z, length z = length x ∧ bval z = (bval x / 2 ^ Z.to_N s)%N)
   else ∀ x, keval (UInt.shl x s) = Fatal "UInt_T::operator<<: shift amount must be >= 0" ∧
             keval (UInt.shr x s) = Fatal "UInt_T::operator>>: shift amount must be >= 0") ∧
  (∀ (W : Type) (a : list W) i, (i < length a)%nat →
     let n := Z.of_nat (length a) in
     (∃ r, UInt.rotl a s = Some r ∧ length r = length a ∧
        r !! i = a !! Z.to_nat ((Z.of_nat i - s) mod n)) ∧
     (∃ r, UInt.rotr a s = Some r ∧ length r = length a ∧
        r !! i = a !! Z.to_nat ((Z.of_nat i + s) mod n))).
Proof.
  split; [exact uint_arith_correct|]. split; [exact uint_compare_correct|]. split; [exact uint_bitwise_correct|].
  exact (uint_shift_correct s).
Qed.
