(* ===== verification/SInt.v ===== *)
(** * Signed integers (circuits/signed_int.h)

    [Int_T] values are their wires, two's complement, least significant bit
    first.  Reading the sign wire of an empty vector would be out of range; no
    constructor of the source makes one ([validate_width_]), and the model marks
    that case with [no_sign]. *)

From S2P Require Import Prelude Program Validate Context Execute Kernel Bits NumericKernels UInt.

Module SInt.
Section sint.
Context {W : Type}.
#[local] Abbreviation word := (list W).

Definition same_width (a b : word) : Kernel W unit :=
  kexpect (Nat.eqb (length a) (length b)) "Int_T: operands have different runtime widths".
Definition validate_width (n : nat) : Kernel W unit :=
  kexpect (1 <=? n)%nat "Int_T: runtime width must be >= 1".
(** [w[n - 1]]. *)
Definition with_sign {A} (a : word) (k : W → Kernel W A) : Kernel W A :=
  match last a with Some s => k s | None => KFatal "no_sign" end.

(** [constant(c, v)] of the bit pattern [u] of [v]: bit 63 is replicated. *)
Definition constant (n : nat) (u : N) : Kernel W word :=
  kmap (λ i, kpub (N.testbit u (N.of_nat (if (i <? 64)%nat then i else 63%nat)))) (seq 0 n).

Definition add (a b : word) : Kernel W word := same_width a b;; ripple_add a b.
Definition sub (a b : word) : Kernel W word := same_width a b;; ripple_sub a b.
Definition zeros (a : word) : Kernel W word := z ← kpub false; mret (replicate (length a) z).
Definition neg (a : word) : Kernel W word := z ← zeros a; sub z a.

Definition select (a : word) (sel : W) (t : word) : Kernel W word :=
  same_width a t;; kmap2 (λ t f, mux sel t f) t a.

(** Signed [a < b]: the sign of [a] when the signs differ, else the borrow. *)
Definition ltb (a b : word) : Kernel W W :=
  same_width a b;;
  ub ← less_than a b;
  with_sign a (λ sa, with_sign b (λ sb,
    diff ← kxor sa sb; mux diff sa ub)).
Definition gtb (a b : word) : Kernel W W := ltb b a.
Definition eqb (a b : word) : Kernel W W := same_width a b;; equal a b.
Definition neb (a b : word) : Kernel W W := e ← eqb a b; knot e.
Definition leb (a b : word) : Kernel W W := g ← gtb a b; knot g.
Definition geb (a b : word) : Kernel W W := l ← ltb a b; knot l.

Definition mul (a b : word) : Kernel W word := same_width a b;; mul_full a b.
Definition and (a b : word) : Kernel W word := same_width a b;; kmap2 kand a b.
Definition xor (a b : word) : Kernel W word := same_width a b;; kmap2 kxor a b.
Definition or (a b : word) : Kernel W word := same_width a b;; kmap2 or_gate a b.
Definition not (a : word) : Kernel W word := kmap knot a.

(** Divide the magnitudes, then fix the signs. *)
Definition magnitude (a : word) (s : W) : Kernel W word := n ← neg a; select a s n.
Definition div (a b : word) : Kernel W word :=
  same_width a b;;
  with_sign a (λ sa, with_sign b (λ sb,
    ua ← magnitude a sa; ub ← magnitude b sb;
    '(uq, _) ← div_full ua ub;
    d ← kxor sa sb; n ← neg uq;
    select uq d n)).
Definition rem (a b : word) : Kernel W word :=
  same_width a b;;
  with_sign a (λ sa, with_sign b (λ sb,
    ua ← magnitude a sa; ub ← magnitude b sb;
    '(_, ur) ← div_full ua ub;
    n ← neg ur;
    select ur sa n)).

Definition shl (a : word) (s : Z) : Kernel W word :=
  kexpect (0 <=? s)%Z "Int_T::operator<<: shift amount must be >= 0";;
  z ← kpub false;
  mret ((λ i, default z (if (s <=? Z.of_nat i)%Z then a !! Z.to_nat (Z.of_nat i - s) else None))
          <$> seq 0 (length a)).
(** Arithmetic right shift: the sign wire fills. *)
Definition shr (a : word) (s : Z) : Kernel W word :=
  kexpect (0 <=? s)%Z "Int_T::operator>>: shift amount must be >= 0";;
  let n := Z.of_nat (length a) in
  let s := if (n <? s)%Z then n else s in
  with_sign a (λ sgn,
    mret ((λ i, default sgn (if (Z.of_nat i + s <? n)%Z then a !! Z.to_nat (Z.of_nat i + s) else None))
            <$> seq 0 (length a))).

Definition barrel (step : word → Z → Kernel W word) (a shamt : word) : Kernel W word :=
  kfold (λ res '(i, s), t ← step res (Z.shiftl 1 (Z.of_nat i)); select res s t) a
    (zip (seq 0 (UInt.used_bits (length a))) shamt).
Definition shl_secret (a shamt : word) : Kernel W word :=
  res ← barrel shl a shamt;
  overflow ← UInt.any_set (drop (UInt.used_bits (length a)) shamt);
  zero ← constant (length a) 0;
  select res overflow zero.
Definition shr_secret (a shamt : word) : Kernel W word :=
  res ← barrel shr a shamt;
  overflow ← UInt.any_set (drop (UInt.used_bits (length a)) shamt);
  with_sign a (λ sgn, select res overflow (replicate (length a) sgn)).

(** Width changes: sign-extend or truncate. *)
Definition sext (m : nat) (a : word) : Kernel W word :=
  with_sign a (λ sgn, mret ((λ i, default sgn (a !! i)) <$> seq 0 m)).
Definition trunc (m : nat) (a : word) : word := take m a.
Definition resize (a : word) (m : nat) : Kernel W word := validate_width m;; sext m a.
End sint.

(** The clear codec for widths up to 64; a clear value is the bit pattern of
    an [int64_t], and [decode] extends the sign of the top bit. *)
Definition encode (n : nat) (u : N) : list bool :=
  (λ i, N.testbit (N.shiftr u (N.of_nat i)) 0) <$> seq 0 n.
Definition decode (b : list bool) : N :=
  let n := N.of_nat (length b) in
  let v := UInt.decode b in
  if (n <? 64)%N && N.testbit (N.shiftr v (n - 1)) 0
  then N.lor v (2 ^ 64 - 1 - (N.shiftl 1 n - 1))
  else v.
End SInt.


(** ** Parametricity *)
Section param.
Import SInt.
Context {W1 W2 : Type}.
Implicit Types (R : wrel W1 W2).

Lemma krel_ssame_width R a1 a2 b1 b2 :
  Forall2 R a1 a2 → Forall2 R b1 b2 → krel REq R (same_width a1 b1) (same_width a2 b2).
Proof.
  intros Ha Hb. unfold same_width. rewrite (Forall2_length _ _ _ Ha), (Forall2_length _ _ _ Hb).
  apply krel_kexpect.
Qed.
Hint Resolve krel_ssame_width krel_kmap2_wires krel_kmap_wires : kparam.
Lemma krel_sconstant R n v : krel RL R (constant n v) (constant n v).
Proof.
  unfold constant. apply (krel_kmap REq RW); [apply Forall2_eq_refl|].
  intros R' i j _ Hij. unfold REq in Hij. subst. kauto.
Qed.
Lemma krel_with_sign {A1 A2} (RA : wrel W1 W2 → A1 → A2 → Prop) R a1 a2
    (k1 : W1 → Kernel W1 A1) (k2 : W2 → Kernel W2 A2) :
  Forall2 R a1 a2 → (∀ s1 s2, R s1 s2 → krel RA R (k1 s1) (k2 s2)) →
  krel RA R (with_sign a1 k1) (with_sign a2 k2).
Proof.
  intros Ha Hk. unfold with_sign. assert (option_Forall2 R (last a1) (last a2)) as [|];
    [|by apply Hk|constructor].
  rewrite !last_lookup, (Forall2_length _ _ _ Ha). by apply Forall2_lookup.
Qed.
Lemma krel_sadd R a1 a2 b1 b2 :
  Forall2 R a1 a2 → Forall2 R b1 b2 → krel RL R (add a1 b1) (add a2 b2).
Proof. intros. unfold add. kauto. Qed.
Lemma krel_ssub R a1 a2 b1 b2 :
  Forall2 R a1 a2 → Forall2 R b1 b2 → krel RL R (sub a1 b1) (sub a2 b2).
Proof. intros. unfold sub. kauto. Qed.
Lemma krel_smul R a1 a2 b1 b2 :
  Forall2 R a1 a2 → Forall2 R b1 b2 → krel RL R (mul a1 b1) (mul a2 b2).
Proof. intros. unfold mul. kauto. Qed.
Lemma krel_seqb R a1 a2 b1 b2 :
  Forall2 R a1 a2 → Forall2 R b1 b2 → krel RW R (eqb a1 b1) (eqb a2 b2).
Proof. intros. unfold eqb. kauto. Qed.
Hint Resolve krel_sadd krel_ssub krel_smul krel_seqb : kparam.
Lemma krel_szeros R a1 a2 : Forall2 R a1 a2 → krel RL R (zeros a1) (zeros a2).
Proof.
  intros Ha. unfold zeros. rewrite (Forall2_length _ _ _ Ha). kstep. apply krel_ret.
  by apply Forall2_replicate.
Qed.
Hint Resolve krel_szeros : kparam.
Lemma krel_neg R a1 a2 : Forall2 R a1 a2 → krel RL R (neg a1) (neg a2).
Proof. intros. unfold neg. kauto. Qed.
Lemma krel_sselect R a1 a2 s1 s2 t1 t2 :
  Forall2 R a1 a2 → R s1 s2 → Forall2 R t1 t2 →
  krel RL R (select a1 s1 t1) (select a2 s2 t2).
Proof.
  intros Ha Hs Ht. unfold select. eapply krel_bind; [by apply krel_ssame_width|].
  intros R' [] [] Hsub _. kmono. apply krel_kmap2_wires; [done..|].
  intros R2 x y x' y' Hs2 Hx Hy. kmono. eauto with kparam.
Qed.
Hint Resolve krel_neg krel_sselect : kparam.
Lemma krel_magnitude R a1 a2 s1 s2 :
  Forall2 R a1 a2 → R s1 s2 → krel RL R (magnitude a1 s1) (magnitude a2 s2).
Proof. intros. unfold magnitude. kauto. Qed.
Hint Resolve krel_magnitude : kparam.
Lemma krel_sltb R a1 a2 b1 b2 :
  Forall2 R a1 a2 → Forall2 R b1 b2 → krel RW R (ltb a1 b1) (ltb a2 b2).
Proof.
  intros. unfold ltb. do 2 kstep. apply krel_with_sign; [done|]. intros.
  apply krel_with_sign; [done|]. intros. kauto.
Qed.
Hint Resolve krel_sltb : kparam.
Lemma krel_sgtb R a1 a2 b1 b2 :
  Forall2 R a1 a2 → Forall2 R b1 b2 → krel RW R (gtb a1 b1) (gtb a2 b2).
Proof. intros. unfold gtb. kauto. Qed.
Hint Resolve krel_sgtb : kparam.
Lemma krel_scmp R a1 a2 b1 b2 :
  Forall2 R a1 a2 → Forall2 R b1 b2 →
  krel RW R (leb a1 b1) (leb a2 b2) ∧ krel RW R (geb a1 b1) (geb a2 b2) ∧
  krel RW R (neb a1 b1) (neb a2 b2).
Proof. intros. unfold leb, geb, neb. split_and!; kauto. Qed.
Lemma krel_sdiv R a1 a2 b1 b2 :
  Forall2 R a1 a2 → Forall2 R b1 b2 → krel RL R (div a1 b1) (div a2 b2).
Proof.
  intros. unfold div. kstep. apply krel_with_sign; [done|]. intros.
  apply krel_with_sign; [done|]. intros. kauto.
Qed.
Lemma krel_srem R a1 a2 b1 b2 :
  Forall2 R a1 a2 → Forall2 R b1 b2 → krel RL R (rem a1 b1) (rem a2 b2).
Proof.
  intros. unfold rem. kstep. apply krel_with_sign; [done|]. intros.
  apply krel_with_sign; [done|]. intros. kauto.
Qed.
Lemma krel_sshl R a1 a2 s : Forall2 R a1 a2 → krel RL R (shl a1 s) (shl a2 s).
Proof.
  intros Ha. unfold shl. rewrite (Forall2_length _ _ _ Ha). do 2 kstep. kstep.
  apply Forall2_wiring; [done|]. intros i. by apply option_lookup.
Qed.
Lemma krel_sshr R a1 a2 s : Forall2 R a1 a2 → krel RL R (shr a1 s) (shr a2 s).
Proof.
  intros Ha. unfold shr. rewrite (Forall2_length _ _ _ Ha). cbv zeta. kstep.
  apply krel_with_sign; [done|]. intros. apply krel_ret.
  apply Forall2_wiring; [done|]. intros i. by apply option_lookup.
Qed.
Hint Resolve krel_sshl krel_sshr : kparam.
Lemma krel_sbarrel R step1 step2 a1 a2 s1 s2 :
  (∀ R' x y s, Forall2 R' x y → krel RL R' (step1 x s) (step2 y s)) →
  Forall2 R a1 a2 → Forall2 R s1 s2 →
  krel RL R (barrel step1 a1 s1) (barrel step2 a2 s2).
Proof.
  intros Hstep Ha Hs. unfold barrel. rewrite (Forall2_length _ _ _ Ha).
  apply (krel_kfold (RPair REq RW) RL); [done|apply Forall2_zip_pairs; [apply Forall2_eq_refl|done]|].
  intros R' x y [i b1] [i' b2] Hsub Hxy [Hi Hb]. unfold REq, RW in Hi, Hb. simpl in *. subst i'.
  eapply krel_bind; [by apply Hstep|]. intros R2 t1 t2 Hs2 Ht. kmono. by apply krel_sselect.
Qed.
Lemma krel_sshl_secret R a1 a2 s1 s2 :
  Forall2 R a1 a2 → Forall2 R s1 s2 → krel RL R (shl_secret a1 s1) (shl_secret a2 s2).
Proof.
  intros Ha Hs. unfold shl_secret. rewrite (Forall2_length _ _ _ Ha).
  eapply krel_bind; [by apply krel_sbarrel; [auto using krel_sshl|..]|]. intros R' r1 r2 Hsub Hr. kmono.
  eapply krel_bind; [apply krel_any_set; by apply Forall2_drop|]. intros R2 o1 o2 Hs2 Ho. kmono.
  eapply krel_bind; [apply krel_sconstant|]. intros R3 z1 z2 Hs3 Hz. kmono. by apply krel_sselect.
Qed.
Lemma krel_sshr_secret R a1 a2 s1 s2 :
  Forall2 R a1 a2 → Forall2 R s1 s2 → krel RL R (shr_secret a1 s1) (shr_secret a2 s2).
Proof.
  intros Ha Hs. unfold shr_secret. rewrite (Forall2_length _ _ _ Ha).
  eapply krel_bind; [by apply krel_sbarrel; [auto using krel_sshr|..]|]. intros R' r1 r2 Hsub Hr. kmono.
  eapply krel_bind; [apply krel_any_set; by apply Forall2_drop|]. intros R2 o1 o2 Hs2 Ho. kmono.
  apply krel_with_sign; [done|]. intros. apply krel_sselect; [done..|by apply Forall2_replicate].
Qed.
Lemma krel_sext R m a1 a2 : Forall2 R a1 a2 → krel RL R (sext m a1) (sext m a2).
Proof.
  intros Ha. unfold sext. apply krel_with_sign; [done|]. intros. apply krel_ret.
  apply Forall2_wiring; [done|]. intros i. by apply Forall2_lookup.
Qed.
Lemma krel_sresize R m a1 a2 : Forall2 R a1 a2 → krel RL R (resize a1 m) (resize a2 m).
Proof.
  intros Ha. unfold resize. eapply krel_bind; [apply krel_kexpect|].
  intros R' [] [] Hs _. kmono. by apply krel_sext.
Qed.
End param.
#[export] Hint Resolve krel_sadd krel_ssub krel_smul krel_seqb krel_neg krel_sltb krel_sgtb
  krel_sdiv krel_srem krel_sshl krel_sshr krel_sshl_secret krel_sshr_secret krel_sext krel_sresize
  krel_sselect : kparam.

(** ** On bits *)
Lemma bval_sval_mod x n : length x = n → (Z.of_N (bval x) mod zpow n = sval x mod zpow n)%Z.
Proof. intros <-. destruct (sval_bval x) as [k ->]. apply Z_mod_plus_full. Qed.
(** A result known modulo [2^n]. *)
Lemma sval_mod z n v :
  length z = n → (1 ≤ n)%nat → (Z.of_N (bval z) mod zpow n = v mod zpow n)%Z → sval z = smod n v.
Proof.
  intros <- Hn Hv. pose proof (zpow_pos (length z)).
  apply (sval_unique z v (Z.of_N (bval z) / zpow (length z) - v / zpow (length z))); [by destruct z; simpl in Hn; [lia|]|].
  pose proof (Z.div_mod (Z.of_N (bval z)) (zpow (length z))). pose proof (Z.div_mod v (zpow (length z))).
  nia.
Qed.
Lemma smod_sval x : x ≠ [] → smod (length x) (sval x) = sval x.
Proof.
  intros Hx. apply smod_small; [destruct x; [done|simpl; lia]|by apply sval_bounds].
Qed.

Section bits.
Import SInt.
Implicit Types (a b x y : list bool).

Lemma keval_sguard {A} a b (m : Kernel bool A) :
  length a = length b → keval (same_width a b;; m) = keval m.
Proof. intros H. unfold same_width. by rewrite (proj2 (Nat.eqb_eq _ _) H). Qed.
Lemma sign_split x : x ≠ [] → ∃ s, last x = Some s ∧
  Z.of_N (bval x) = (sval x + if s then zpow (length x) else 0)%Z ∧
  (if s then (sval x < 0)%Z else (0 ≤ sval x)%Z).
Proof.
  intros (l & b & ->)%snoc_inv. exists b. rewrite last_snoc, sval_snoc, bval_app, length_app.
  simpl. rewrite Nat.add_1_r, zpow_S. split; [done|]. pose proof (bval_lt l). unfold zpow.
  destruct b; simpl; lia.
Qed.
Lemma with_sign_ok {A} x s (k : bool → Kernel bool A) :
  last x = Some s → with_sign x k = k s.
Proof. intros H. unfold with_sign. by rewrite H. Qed.

Lemma sselect_ok a s t : length a = length t → keval (select a s t) = Ret (if s then t else a).
Proof.
  intros Hlen. pose proof (UInt.select_ok a s t Hlen) as H. unfold UInt.select in H.
  rewrite keval_guard in H by done. unfold select. by rewrite keval_sguard.
Qed.
Lemma szeros_ok a : keval (zeros a) = Ret (replicate (length a) false).
Proof. done. Qed.
Lemma neg_ok a :
  ∃ z, keval (neg a) = Ret z ∧ length z = length a ∧
    bval z = ((pow2 (length a) - bval a) mod pow2 (length a))%N.
Proof.
  unfold neg, sub. rewrite keval_bind, szeros_ok. cbn [mbind outcome_bind].
  rewrite keval_sguard by apply length_replicate.
  destruct (keval_ripple_sub (replicate (length a) false) a) as (z & Hz & Hl & Hv);
    [apply length_replicate|].
  rewrite length_replicate, bval_replicate_false in *. exists z. by rewrite N.add_0_l in Hv.
Qed.
Lemma neg_mod n x z : length x = n → bval z = ((pow2 n - bval x) mod pow2 n)%N →
  (Z.of_N (bval z) mod zpow n = (- sval x) mod zpow n)%Z.
Proof.
  intros <- ->. pose proof (bval_lt x). rewrite N2Z.inj_mod, N2Z.inj_sub by lia. fold (zpow (length x)).
  rewrite Zmod_mod. destruct (sval_bval x) as [k ->].
  replace (zpow (length x) - (sval x + (if k then 1 else 0) * zpow (length x)))%Z
    with (- sval x + (1 - if k then 1 else 0) * zpow (length x))%Z by lia.
  apply Z_mod_plus_full.
Qed.

(** The magnitude of a number, [2^(n-1)] for the most negative one. *)
Lemma magnitude_ok x s : last x = Some s →
  ∃ z, keval (magnitude x s) = Ret z ∧ length z = length x ∧ Z.of_N (bval z) = Z.abs (sval x).
Proof.
  intros Hs. assert (x ≠ []) as Hne by (by intros ->).
  destruct (sign_split x Hne) as (s' & Hs' & Hb & Hsg). simplify_eq.
  destruct (neg_ok x) as (z & Hz & Hl & Hv). unfold magnitude. rewrite keval_bind, Hz.
  cbn [mbind outcome_bind]. rewrite sselect_ok by done. eexists. split; [done|].
  destruct s; [|split; [done|lia]]. split; [done|]. rewrite Hv.
  pose proof (bval_lt x). pose proof (sval_bounds x Hne) as [Hlo _].
  replace (zpow (length x)) with (2 * zpow (length x - 1))%Z in Hb
    by (rewrite <- zpow_S; f_equal; destruct x; [done|simpl; lia]).
  pose proof (zpow_pos (length x - 1)).
  assert (pow2 (length x) = 2 * pow2 (length x - 1))%N as Hp
    by (rewrite <- pow2_S; f_equal; destruct x; [done|simpl; lia]).
  unfold zpow in *. rewrite N.mod_small; lia.
Qed.

Lemma sltb_ok x y : length x = length y → x ≠ [] → keval (ltb x y) = Ret (sval x <? sval y)%Z.
Proof.
  intros Hlen Hne. unfold ltb. rewrite keval_sguard, keval_bind, keval_less_than by done.
  cbn [mbind outcome_bind].
  destruct (sign_split x Hne) as (sx & Hsx & Hbx & Hx).
  destruct (sign_split y) as (sy & Hsy & Hby & Hy); [intros ->; by destruct x|].
  rewrite (with_sign_ok _ _ _ Hsx), (with_sign_ok _ _ _ Hsy), keval_bind.
  cbn [keval kxor mbind outcome_bind]. rewrite keval_mux. f_equal. rewrite <- Hlen in Hby.
  pose proof (bval_lt x). pose proof (bval_lt y). rewrite <- Hlen in *. unfold zpow in *.
  destruct (Z.ltb_spec (sval x) (sval y)), (N.ltb_spec (bval x) (bval y)), sx, sy; simpl; lia || done.
Qed.

(** Negate when the sign wire says so. *)
Lemma sign_fix u (d : bool) :
  ∃ z, keval (n ← neg u; select u d n) = Ret z ∧ length z = length u ∧
    (Z.of_N (bval z) mod zpow (length u) =
      (if d then - Z.of_N (bval u) else Z.of_N (bval u)) mod zpow (length u))%Z.
Proof.
  destruct (neg_ok u) as (z & Hz & Hl & Hv). rewrite keval_bind, Hz. cbn [mbind outcome_bind].
  rewrite sselect_ok by done. eexists. split; [done|]. destruct d; [|done]. split; [done|].
  rewrite (neg_mod (length u) u) by done. destruct (sval_bval u) as [k ->].
  rewrite Z.opp_add_distr, <- Z.mul_opp_l. symmetry. apply Z_mod_plus_full.
Qed.
(** The two signs and magnitudes that division works on. *)
Lemma div_mags_ok x y : length x = length y → x ≠ [] →
  ∃ sx sy ua ub q r, last x = Some sx ∧ last y = Some sy ∧
    keval (magnitude x sx) = Ret ua ∧ keval (magnitude y sy) = Ret ub ∧
    keval (div_full ua ub) = Ret (q, r) ∧ length q = length x ∧ length r = length x ∧
    sx = (sval x <? 0)%Z ∧ sy = (sval y <? 0)%Z ∧
    Z.of_N (bval q) = (if (sval y =? 0)%Z then zpow (length x) - 1
                       else Z.abs (sval x) / Z.abs (sval y))%Z ∧
    Z.of_N (bval r) = (if (sval y =? 0)%Z then Z.abs (sval x)
                       else Z.abs (sval x) mod Z.abs (sval y))%Z.
Proof.
  intros Hlen Hne. assert (y ≠ []) as Hney by (intros ->; by destruct x).
  destruct (sign_split x Hne) as (sx & Hsx & _ & Hx), (sign_split y Hney) as (sy & Hsy & _ & Hy).
  destruct (magnitude_ok x sx Hsx) as (ua & Hua & Hla & Hva).
  destruct (magnitude_ok y sy Hsy) as (ub & Hub & Hlb & Hvb).
  destruct (keval_div_full ua ub) as (q & r & Hd & Hlq & Hlr & Hq & Hr);
    [congruence|intros ->; by destruct x|].
  exists sx, sy, ua, ub, q, r. do 5 (split; [done|]). split; [congruence|]. split; [congruence|].
  split; [destruct sx, (Z.ltb_spec (sval x) 0); (lia || done)|].
  split; [destruct sy, (Z.ltb_spec (sval y) 0); (lia || done)|].
  rewrite Hq, Hr, Hla. unfold udiv, urem, zpow. pose proof (pow2_pos (length x)).
  destruct (N.eqb_spec (bval ub) 0), (Z.eqb_spec (sval y) 0); try lia.
  rewrite <- Hva, <- Hvb. by rewrite N2Z.inj_div, N2Z.inj_mod.
Qed.
End bits.

(** Division by zero saturates the magnitude's quotient at [2^n - 1], which the
    sign correction turns into [-1], or [1] for a negative dividend; the
    remainder is the dividend. *)
Definition sdiv (n : nat) (a b : Z) : Z :=
  if (b =? 0)%Z then smod n (if (a <? 0)%Z then 1 else -1) else smod n (Z.quot a b).
Definition srem (a b : Z) : Z := if (b =? 0)%Z then a else Z.rem a b.

Lemma quot_abs a b : b ≠ 0%Z →
  Z.quot a b = (if xorb (a <? 0) (b <? 0) then - (Z.abs a / Z.abs b) else Z.abs a / Z.abs b)%Z.
Proof.
  intros Hb. rewrite <- Z.quot_div_nonneg by lia.
  destruct (Z.ltb_spec a 0), (Z.ltb_spec b 0); cbn [xorb];
    rewrite ?(Z.abs_neq a), ?(Z.abs_neq b), ?(Z.abs_eq a), ?(Z.abs_eq b) by lia;
    rewrite ?Z.quot_opp_opp, ?Z.quot_opp_l, ?Z.quot_opp_r by lia; lia.
Qed.
Lemma rem_abs a b : b ≠ 0%Z →
  Z.rem a b = (if (a <? 0) then - (Z.abs a mod Z.abs b) else Z.abs a mod Z.abs b)%Z.
Proof.
  intros Hb. rewrite <- Z.rem_mod_nonneg, Z.rem_abs_r by lia.
  destruct (Z.ltb_spec a 0).
  - rewrite (Z.abs_neq a), Z.rem_opp_l by lia. lia.
  - by rewrite (Z.abs_eq a) by lia.
Qed.

Section bits2.
Import SInt.
Implicit Types (a b x y : list bool).
Lemma nonempty_length x : x ≠ [] → (1 ≤ length x)%nat.
Proof. destruct x; [done|simpl; lia]. Qed.
Hint Resolve nonempty_length : core.

Lemma sdiv_ok x y : length x = length y → x ≠ [] →
  ∃ z, keval (div x y) = Ret z ∧ length z = length x ∧ sval z = sdiv (length x) (sval x) (sval y).
Proof.
  intros Hlen Hne. destruct (div_mags_ok x y Hlen Hne) as
    (sx & sy & ua & ub & q & r & Hsx & Hsy & Hua & Hub & Hd & Hlq & _ & Ex & Ey & Hq & _).
  unfold div. rewrite keval_sguard, (with_sign_ok _ _ _ Hsx), (with_sign_ok _ _ _ Hsy) by done.
  rewrite keval_bind, Hua. cbn [mbind outcome_bind]. rewrite keval_bind, Hub.
  cbn [mbind outcome_bind]. rewrite keval_bind, Hd. cbn [mbind outcome_bind].
  rewrite keval_bind. cbn [keval kxor mbind outcome_bind].
  destruct (sign_fix q (xorb sx sy)) as (z & Hz & Hlz & Hvz). exists z. split; [exact Hz|].
  split; [congruence|]. rewrite Hlq in *. unfold sdiv. destruct (Z.eqb_spec (sval y) 0) as [H0|H0].
  - apply sval_mod; [done|auto|]. rewrite Hvz, Hq, Ex, Ey, H0. simpl.
    rewrite xorb_false_r. destruct (Z.ltb_spec (sval x) 0).
    + replace (- (zpow (length x) - 1))%Z with (1 + (-1) * zpow (length x))%Z by lia.
      apply Z_mod_plus_full.
    + replace (zpow (length x) - 1)%Z with (-1 + 1 * zpow (length x))%Z by lia.
      apply Z_mod_plus_full.
  - apply sval_mod; [done|auto|]. rewrite Hvz, Hq, quot_abs, Ex, Ey by done. done.
Qed.
Lemma srem_ok x y : length x = length y → x ≠ [] →
  ∃ z, keval (rem x y) = Ret z ∧ length z = length x ∧ sval z = srem (sval x) (sval y).
Proof.
  intros Hlen Hne. destruct (div_mags_ok x y Hlen Hne) as
    (sx & sy & ua & ub & q & r & Hsx & Hsy & Hua & Hub & Hd & _ & Hlr & Ex & Ey & _ & Hr).
  unfold rem. rewrite keval_sguard, (with_sign_ok _ _ _ Hsx), (with_sign_ok _ _ _ Hsy) by done.
  rewrite keval_bind, Hua. cbn [mbind outcome_bind]. rewrite keval_bind, Hub.
  cbn [mbind outcome_bind]. rewrite keval_bind, Hd. cbn [mbind outcome_bind].
  destruct (sign_fix r sx) as (z & Hz & Hlz & Hvz). exists z. split; [exact Hz|].
  split; [congruence|]. rewrite Hlr in *. unfold srem. pose proof (sval_bounds x Hne) as Hb.
  assert (∀ v, (- zpow (length x - 1) ≤ v < zpow (length x - 1))%Z →
    (Z.of_N (bval z) mod zpow (length x) = v mod zpow (length x))%Z → sval z = v) as Hfin.
  { intros v Hv Hm. rewrite <- (smod_small (length x) v) by auto. by apply sval_mod; auto. }
  destruct (Z.eqb_spec (sval y) 0) as [H0|H0].
  - apply Hfin; [done|]. rewrite Hvz, Hr, Ex. f_equal. destruct (Z.ltb_spec (sval x) 0); lia.
  - apply Hfin.
    + rewrite rem_abs by done. pose proof (Z.mod_pos_bound (Z.abs (sval x)) (Z.abs (sval y))).
      pose proof (Z.mod_le (Z.abs (sval x)) (Z.abs (sval y))).
      destruct (Z.ltb_spec (sval x) 0); lia.
    + rewrite Hvz, Hr, rem_abs, Ex by done. done.
Qed.
End bits2.

(** *** Bit views of two's complement *)
Lemma bval_negb l : (bval (negb <$> l) + bval l = pow2 (length l) - 1)%N.
Proof.
  induction l as [|b l IH]; [done|]. rewrite fmap_cons. cbn [bval length]. rewrite pow2_S.
  pose proof (pow2_pos (length l)). destruct b; cbn [negb N.b2n]; lia.
Qed.
Lemma sval_testbit l s (i : nat) : last l = Some s → Z.testbit (sval l) (Z.of_nat i) = default s (l !! i).
Proof.
  intros Hs. destruct (snoc_inv l) as (l' & b & ->); [by intros ->|].
  rewrite last_snoc in Hs. simplify_eq. rewrite sval_snoc.
  assert (default s ((l' ++ [s]) !! i) = default s (l' !! i)) as ->.
  { destruct (decide (i < length l')%nat); [by rewrite lookup_app_l|].
    rewrite lookup_app_r, (lookup_ge_None_2 l') by lia. by destruct (i - length l')%nat. }
  replace (Z.of_nat i) with (Z.of_N (N.of_nat i)) by lia. destruct s.
  - pose proof (bval_negb l') as Hn. unfold zpow. pose proof (pow2_pos (length l')).
    replace (Z.of_N (bval l') - Z.of_N (pow2 (length l')))%Z
      with (Z.lnot (Z.of_N (bval (negb <$> l')))) by (unfold Z.lnot; lia).
    rewrite Z.lnot_spec by lia. rewrite Z.testbit_of_N, bval_testbit, list_lookup_fmap.
    destruct (l' !! i) as [[]|]; done.
  - rewrite Z.sub_0_r, Z.testbit_of_N, bval_testbit. by destruct (l' !! i).
Qed.
(** A word whose wires are bits of [v] and whose sign continues it. *)
Lemma sval_of_testbit z n v :
  length z = S n → (∀ i, (i ≤ n)%nat → z !! i = Some (Z.testbit v (Z.of_nat i))) →
  (∀ i, (n ≤ i)%nat → Z.testbit v (Z.of_nat i) = Z.testbit v (Z.of_nat n)) → sval z = v.
Proof.
  intros Hl Hz Hext. assert (last z = Some (Z.testbit v (Z.of_nat n))) as Hs
    by (rewrite last_lookup, Hl; by apply Hz).
  apply Z.bits_inj'. intros i Hi. rewrite <- (Z2Nat.id i) by done.
  rewrite (sval_testbit _ _ _ Hs). destruct (decide (Z.to_nat i ≤ n)%nat).
  - by rewrite Hz.
  - rewrite lookup_ge_None_2 by lia. symmetry. apply Hext. lia.
Qed.

Section bits3.
Import SInt.
Implicit Types (a b x y : list bool).

Lemma sshl_ok x (k : N) : x ≠ [] →
  ∃ z, keval (shl x (Z.of_N k)) = Ret z ∧ length z = length x ∧
    sval z = smod (length x) (sval x * 2 ^ Z.of_N k).
Proof.
  intros Hne. destruct (UInt.shl_ok x k) as (z & Hz & Hl & Hv). exists z. split; [|split; [done|]].
  { unfold UInt.shl, shl in *. destruct (Z.leb_spec 0 (Z.of_N k)); [exact Hz|lia]. }
  apply sval_mod; [done|by apply nonempty_length|]. rewrite Hv, N2Z.inj_mod, N2Z.inj_mul, N2Z.inj_pow.
  fold (zpow (length x)). rewrite Zmod_mod. rewrite <- Z.mul_mod_idemp_l, bval_sval_mod by
    (done || (pose proof (zpow_pos (length x)); lia)).
  apply Z.mul_mod_idemp_l. pose proof (zpow_pos (length x)). lia.
Qed.
Lemma sshr_ok x (k : N) : x ≠ [] →
  ∃ z, keval (shr x (Z.of_N k)) = Ret z ∧ length z = length x ∧
    sval z = (sval x / 2 ^ Z.of_N k)%Z.
Proof.
  intros Hne. destruct (sign_split x Hne) as (s & Hs & _). unfold shr.
  destruct (Z.leb_spec 0 (Z.of_N k)); [|lia]. cbn [kexpect mbind Kernel_bind kbind].
  rewrite (with_sign_ok _ _ _ Hs). cbn [keval mret Kernel_ret]. eexists. split; [done|].
  rewrite length_fmap, length_seq. split; [done|].
  set (m := if (Z.of_nat (length x) <? Z.of_N k)%Z then Z.of_nat (length x) else Z.of_N k).
  assert (m = Z.min (Z.of_nat (length x)) (Z.of_N k)) as Hm
    by (subst m; destruct (Z.ltb_spec (Z.of_nat (length x)) (Z.of_N k)); lia). clearbody m.
  pose proof (nonempty_length x Hne).
  assert (∀ i, Z.testbit (sval x / 2 ^ Z.of_N k) (Z.of_nat i) = default s (x !! (i + N.to_nat k)%nat)) as Ht.
  { intros i. rewrite Z.div_pow2_bits by lia. rewrite <- (sval_testbit x s) by done. f_equal. lia. }
  assert (∀ i, (length x - 1 ≤ i)%nat → default s (x !! i) = s) as Hhi.
  { intros i Hi. destruct (decide (i = length x - 1)%nat) as [->|]; [|by rewrite lookup_ge_None_2 by lia].
    rewrite last_lookup in Hs. replace (Nat.pred (length x)) with (length x - 1)%nat in Hs by lia.
    by rewrite Hs. }
  apply (sval_of_testbit _ (length x - 1)); [rewrite length_fmap, length_seq; lia|..].
  - intros i Hi. rewrite list_lookup_fmap, lookup_seq_lt by lia. simpl. f_equal. rewrite Ht.
    destruct (Z.ltb_spec (Z.of_nat i + m) (Z.of_nat (length x))).
    + do 2 f_equal. lia.
    + by rewrite (lookup_ge_None_2 x (i + _)) by lia.
  - intros i Hi. rewrite !Ht, !Hhi by lia. done.
Qed.
Lemma sext_ok x m : x ≠ [] → (1 ≤ m)%nat →
  ∃ z, keval (sext m x) = Ret z ∧ length z = m ∧ sval z = smod m (sval x).
Proof.
  intros Hne Hm. destruct (sign_split x Hne) as (s & Hs & _). unfold sext.
  rewrite (with_sign_ok _ _ _ Hs). cbn [keval mret Kernel_ret]. eexists. split; [done|].
  rewrite length_fmap, length_seq. split; [done|].
  apply sval_mod; [by rewrite length_fmap, length_seq|done|].
  unfold zpow, pow2. rewrite N2Z.inj_pow, nat_N_Z. apply Z.bits_inj'. intros i Hi.
  rewrite !Z.testbit_mod_pow2 by lia. destruct (Z.ltb_spec i (Z.of_nat m)); [|done]. simpl.
  rewrite <- (Z2Nat.id i) by done. rewrite (sval_testbit x s) by done.
  replace (Z.of_nat (Z.to_nat i)) with (Z.of_N (N.of_nat (Z.to_nat i))) by lia.
  rewrite Z.testbit_of_N, bval_testbit, list_lookup_fmap, lookup_seq_lt by lia. done.
Qed.
Lemma strunc_ok x m : (1 ≤ m ≤ length x)%nat → sval (trunc m x) = smod m (sval x).
Proof.
  intros Hm. unfold trunc. apply sval_mod; [rewrite length_take; lia|lia|].
  rewrite bval_take, N2Z.inj_mod. fold (zpow m). rewrite Zmod_mod.
  destruct (sval_bval x) as [k ->].
  replace (zpow (length x)) with (zpow (length x - m) * zpow m)%Z.
  - rewrite Z.mul_assoc. apply Z_mod_plus_full.
  - unfold zpow. rewrite <- N2Z.inj_mul, <- pow2_add. do 2 f_equal. lia.
Qed.
End bits3.

Section bits4.
Import SInt.
Implicit Types (a b x y : list bool).

Lemma sbarrel_ok step (P : N → list bool → Prop) a sh :
  (∀ res m s, length res = length a → P m res →
     ∃ out, keval (step res (Z.of_N s)) = Ret out ∧ length out = length a ∧ P (m + s)%N out) →
  P 0%N a →
  ∃ r, keval (barrel step a sh) = Ret r ∧ length r = length a ∧
    P (bval (take (UInt.used_bits (length a)) sh)) r.
Proof. intros. apply (barrel_gen select); [|done..]. intros. by apply sselect_ok. Qed.
Lemma length_ne {A B} (l : list A) (l' : list B) : length l = length l' → l' ≠ [] → l ≠ [].
Proof. by destruct l, l'. Qed.

Lemma zmod_smod n v : (1 ≤ n)%nat → (smod n v mod zpow n = v mod zpow n)%Z.
Proof.
  intros Hn. unfold smod. rewrite Zminus_mod_idemp_l. f_equal. lia.
Qed.
Lemma smod_mul n v w : (1 ≤ n)%nat → smod n (smod n v * w) = smod n (v * w).
Proof.
  intros Hn. unfold smod at 1 3. f_equal. pose proof (zpow_pos n).
  rewrite <- Zplus_mod_idemp_l, <- (Z.mul_mod_idemp_l (smod n v)), zmod_smod by lia.
  by rewrite Z.mul_mod_idemp_l, Zplus_mod_idemp_l by lia.
Qed.

Lemma sshl_secret_ok x y : x ≠ [] → (N.of_nat (length x) ≤ 2 ^ 31)%N →
  ∃ z, keval (shl_secret x y) = Ret z ∧ length z = length x ∧
    sval z = smod (length x) (sval x * 2 ^ Z.of_N (bval y)).
Proof.
  intros Hne Hn. pose proof (nonempty_length x Hne) as H1.
  destruct (sbarrel_ok shl (λ m r, sval r = smod (length x) (sval x * 2 ^ Z.of_N m)) x y)
    as (r & Hr & Hl & Hv).
  - intros res m s Hl Hv. destruct (sshl_ok res s) as (z & Hz & Hlz & Hvz); [by eapply length_ne|].
    exists z. split; [done|]. split; [congruence|].
    rewrite Hvz, Hv, Hl, smod_mul by done. rewrite N2Z.inj_add, Z.pow_add_r by lia. f_equal. lia.
  - rewrite Z.mul_1_r. by rewrite smod_sval.
  - unfold shl_secret. rewrite keval_bind, Hr. cbn [mbind outcome_bind].
    rewrite keval_bind, any_set_ok. cbn [mbind outcome_bind].
    assert (keval (constant (length x) 0) = Ret (replicate (length x) false)) as Hz.
    { unfold constant. erewrite keval_kmap by (intros i; reflexivity). f_equal.
      rewrite (bits_ext (replicate (length x) false) (length x) (λ _, false)); [done|
        apply length_replicate|]. intros i Hi. by apply lookup_replicate_2. }
    rewrite keval_bind, Hz. cbn [mbind outcome_bind].
    rewrite sselect_ok by (rewrite length_replicate; done). eexists. split; [done|].
    pose proof (small_shift _ y Hn) as Hs. case_bool_decide as Hov.
    + rewrite decide_False in Hs by done. rewrite length_replicate. split; [done|].
      apply sval_mod; [apply length_replicate|done|]. rewrite bval_replicate_false.
      replace (Z.of_N (bval y)) with (Z.of_nat (length x) + (Z.of_N (bval y) - Z.of_nat (length x)))%Z by lia.
      rewrite Z.pow_add_r, (Z.mul_comm (2 ^ Z.of_nat _)), Z.mul_assoc by lia.
      unfold zpow, pow2. rewrite N2Z.inj_pow, nat_N_Z. symmetry. apply Z_mod_mult.
    + rewrite decide_True in Hs by done. split; [done|]. by rewrite Hv, Hs.
Qed.
Lemma sshr_secret_ok x y : x ≠ [] → (N.of_nat (length x) ≤ 2 ^ 31)%N →
  ∃ z, keval (shr_secret x y) = Ret z ∧ length z = length x ∧
    sval z = (sval x / 2 ^ Z.of_N (bval y))%Z.
Proof.
  intros Hne Hn. pose proof (nonempty_length x Hne) as H1.
  destruct (sign_split x Hne) as (s & Hs & _ & Hsg).
  destruct (sbarrel_ok shr (λ m r, sval r = sval x / 2 ^ Z.of_N m)%Z x y)
    as (r & Hr & Hl & Hv).
  - intros res m t Hl Hv. destruct (sshr_ok res t) as (z & Hz & Hlz & Hvz); [by eapply length_ne|].
    exists z. split; [done|]. split; [congruence|].
    rewrite Hvz, Hv, N2Z.inj_add, Z.pow_add_r by lia. apply Z.div_div; lia.
  - by rewrite Z.div_1_r.
  - unfold shr_secret. rewrite keval_bind, Hr. cbn [mbind outcome_bind].
    rewrite keval_bind, any_set_ok. cbn [mbind outcome_bind].
    rewrite (with_sign_ok _ _ _ Hs).
    rewrite sselect_ok by (rewrite length_replicate; done). eexists. split; [done|].
    pose proof (small_shift _ y Hn) as Hsm. case_bool_decide as Hov.
    + rewrite decide_False in Hsm by done. rewrite length_replicate. split; [done|].
      pose proof (sval_bounds x Hne) as Hb.
      assert (zpow (length x - 1) ≤ 2 ^ Z.of_N (bval y))%Z as Hp.
      { unfold zpow, pow2. rewrite N2Z.inj_pow. apply Z.pow_le_mono_r; lia. }
      transitivity (if s then -1 else 0)%Z.
      * replace (length x) with (S (length x - 1)) by lia.
        rewrite replicate_S_end, sval_snoc, length_replicate. destruct s.
        -- rewrite bval_replicate_true. unfold zpow. pose proof (pow2_pos (length x - 1)). lia.
        -- rewrite bval_replicate_false. lia.
      * destruct s; [|symmetry; apply Z.div_small; lia].
        apply (Z.div_unique_pos _ _ _ (sval x + 2 ^ Z.of_N (bval y))); lia.
    + rewrite decide_True in Hsm by done. split; [done|]. by rewrite Hv, Hsm.
Qed.

(** *** The clear codec *)
Lemma sencode_ok n u : encode n u = bits n u.
Proof. exact (encode_ok n u). Qed.
Lemma testbit_mod64 v (i : nat) : (i < 64)%nat →
  N.testbit (Z.to_N (v mod 2 ^ 64)) (N.of_nat i) = Z.testbit v (Z.of_nat i).
Proof.
  intros Hi. rewrite <- Z.testbit_of_N, Z2N.id, nat_N_Z by (apply Z.mod_pos_bound; lia).
  rewrite Z.testbit_mod_pow2 by lia. destruct (Z.ltb_spec (Z.of_nat i) 64); [done|lia].
Qed.
(** The clear value is the [int64_t] pattern of the word's signed value. *)
Lemma sdecode_ok b : b ≠ [] → (length b ≤ 64)%nat →
  decode b = Z.to_N (sval b mod 2 ^ 64).
Proof.
  intros Hne Hn. destruct (sign_split b Hne) as (s & Hs & Hb & Hsg).
  pose proof (nonempty_length b Hne). pose proof (bval_lt b) as Hlt.
  unfold decode. rewrite decode_ok, N.shiftr_spec', N.add_0_l.
  replace (N.of_nat (length b) - 1)%N with (N.of_nat (length b - 1)) by lia.
  rewrite bval_testbit. rewrite last_lookup in Hs.
  replace (Nat.pred (length b)) with (length b - 1)%nat in Hs by lia. rewrite Hs. simpl default.
  assert (0 ≤ Z.of_N (bval b) < 2 ^ 64)%Z.
  { split; [lia|]. eapply Z.lt_le_trans; [apply N2Z.inj_lt; exact Hlt|].
    unfold pow2. rewrite N2Z.inj_pow, nat_N_Z. apply Z.pow_le_mono_r; lia. }
  destruct (N.ltb_spec (N.of_nat (length b)) 64); cbn [andb]; [|destruct s].
  - destruct s.
    + replace (2 ^ 64 - 1 - (N.shiftl 1 (N.of_nat (length b)) - 1))%N
        with (N.shiftl (pow2 (64 - length b) - 1) (N.of_nat (length b))).
      * rewrite lor_bval, N.mul_sub_distr_l, <- pow2_add.
        replace (length b + (64 - length b))%nat with 64%nat by lia.
        assert (pow2 (length b) ≤ 2 ^ 64)%N by (apply (pow2_le (length b) 64); lia).
        change (pow2 64) with (2 ^ 64)%N. unfold zpow in Hb.
        rewrite <- (Z.mod_unique_pos (sval b) (2 ^ 64) (-1) (sval b + 2 ^ 64)); lia.
      * rewrite !N.shiftl_mul_pow2, N.mul_1_l. fold (pow2 (length b)).
        rewrite N.mul_sub_distr_r, <- pow2_add.
        replace (64 - length b + length b)%nat with 64%nat by lia.
        change (pow2 64) with (2 ^ 64)%N. pose proof (pow2_pos (length b)). lia.
    + rewrite Z.add_0_r in Hb. rewrite <- Hb, Z.mod_small by done. lia.
  - assert (length b = 64)%nat as H64 by lia. rewrite H64 in Hb.
    replace (sval b) with (Z.of_N (bval b) + (-1) * 2 ^ 64)%Z by (unfold zpow in Hb; simpl in Hb; lia).
    rewrite Z_mod_plus_full, Z.mod_small by done. lia.
  - rewrite Z.add_0_r in Hb. rewrite <- Hb, Z.mod_small by done. lia.
Qed.
End bits4.

(** ** Properties *)

(** The operands for which the documentation defines [/] and [%]: equal width,
    a nonzero divisor, and not [INT_MIN / -1]. *)
Definition quotient_defined (x y : list bool) : Prop :=
  nonempty_pair x y ∧ sval y ≠ 0%Z ∧ ¬ (sval x = (- zpow (length x - 1))%Z ∧ sval y = (-1)%Z).
Lemma sdiv_defined x y : x ≠ [] → sval y ≠ 0%Z →
  ¬ (sval x = (- zpow (length x - 1))%Z ∧ sval y = (-1)%Z) →
  sdiv (length x) (sval x) (sval y) = Z.quot (sval x) (sval y).
Proof.
  intros Hne Hz Hmin. unfold sdiv. rewrite (proj2 (Z.eqb_neq _ _) Hz).
  apply smod_small; [by apply nonempty_length|]. pose proof (sval_bounds x Hne) as Hb.
  rewrite quot_abs by done.
  remember (Z.abs (sval x) / Z.abs (sval y))%Z as q eqn:Eq. assert (0 ≤ q ≤ Z.abs (sval x))%Z as Hq.
  { subst q. split; [apply Z.div_pos; lia|]. apply Z.div_le_upper_bound; nia. }
  destruct (decide (Z.abs (sval y) = 1)%Z) as [H1|H1].
  - assert (q = Z.abs (sval x)) as E by (rewrite Eq, H1; apply Z.div_1_r).
    destruct (Z.ltb_spec (sval x) 0), (Z.ltb_spec (sval y) 0); cbn [xorb]; lia.
  - assert (2 * q ≤ Z.abs (sval x))%Z as H2.
    { pose proof (Z.mul_div_le (Z.abs (sval x)) (Z.abs (sval y))). rewrite <- Eq in *. nia. }
    destruct (xorb _ _); lia.
Qed.

(** [Int_T] arithmetic.  On every lawful context, for operands of equal
    width [n >= 1], [+], [-], unary [-] and [*] are signed arithmetic wrapped to
    [n] bits; where the documentation defines them, [/] truncates toward zero and
    [%] has the sign of the dividend. *)
Theorem sint_arith_correct :
  computes2 (A := list) (@RL) (@SInt.add) nonempty_pair
    (λ x y z, length z = length x ∧ sval z = smod (length x) (sval x + sval y)) ∧
  computes2 (A := list) (@RL) (@SInt.sub) nonempty_pair
    (λ x y z, length z = length x ∧ sval z = smod (length x) (sval x - sval y)) ∧
  computes1 (A := list) (@RL) (@SInt.neg) (λ x, x ≠ [])
    (λ x z, length z = length x ∧ sval z = smod (length x) (- sval x)) ∧
  computes2 (A := list) (@RL) (@SInt.mul) nonempty_pair
    (λ x y z, length z = length x ∧ sval z = smod (length x) (sval x * sval y)) ∧
  computes2 (A := list) (@RL) (@SInt.div) quotient_defined
    (λ x y z, length z = length x ∧ sval z = Z.quot (sval x) (sval y)) ∧
  computes2 (A := list) (@RL) (@SInt.rem) quotient_defined
    (λ x y z, length z = length x ∧ sval z = Z.rem (sval x) (sval y)).
Proof.
  split_and!; [apply computes2_intro|apply computes2_intro|apply computes1_intro
    |apply computes2_intro..]; try (intros; eauto with kparam; fail); cbv beta.
  - intros x y [Hlen Hne]. unfold SInt.add. rewrite keval_sguard by done.
    destruct (keval_ripple_add x y Hlen) as (z & ? & ? & Hv). exists z. do 2 (split; [done|]).
    apply sval_mod; [done|by apply nonempty_length|]. rewrite Hv, N2Z.inj_mod, N2Z.inj_add.
    fold (zpow (length x)). rewrite Zmod_mod, Zplus_mod, (bval_sval_mod x), (bval_sval_mod y) by done.
    by rewrite <- Zplus_mod.
  - intros x y [Hlen Hne]. unfold SInt.sub. rewrite keval_sguard by done.
    destruct (keval_ripple_sub x y Hlen) as (z & ? & ? & Hv). exists z. do 2 (split; [done|]).
    apply sval_mod; [done|by apply nonempty_length|].
    pose proof (bval_lt y) as Hy. rewrite <- Hlen in Hy.
    rewrite Hv, N2Z.inj_mod, N2Z.inj_sub, N2Z.inj_add by lia.
    fold (zpow (length x)). rewrite Zmod_mod, Zminus_mod, Zplus_mod, Z_mod_same_full, Z.add_0_r, Zmod_mod.
    by rewrite (bval_sval_mod x), (bval_sval_mod y), <- Zminus_mod by done.
  - intros x Hne. destruct (neg_ok x) as (z & ? & ? & Hv). exists z. do 2 (split; [done|]).
    apply sval_mod; [done|by apply nonempty_length|]. by apply neg_mod.
  - intros x y [Hlen Hne]. unfold SInt.mul. rewrite keval_sguard by done.
    destruct (keval_mul_full x y Hlen) as (z & ? & ? & Hv). exists z. do 2 (split; [done|]).
    apply sval_mod; [done|by apply nonempty_length|]. rewrite Hv, N2Z.inj_mod, N2Z.inj_mul.
    fold (zpow (length x)). rewrite Zmod_mod, Zmult_mod, (bval_sval_mod x), (bval_sval_mod y) by done.
    by rewrite <- Zmult_mod.
  - intros x y ([Hlen Hne] & Hz & Hmin). destruct (sdiv_ok x y Hlen Hne) as (z & ? & ? & Hs).
    exists z. do 2 (split; [done|]). rewrite Hs. by apply sdiv_defined.
  - intros x y ([Hlen Hne] & Hz & Hmin). destruct (srem_ok x y Hlen Hne) as (z & ? & ? & Hs).
    exists z. do 2 (split; [done|]). rewrite Hs. unfold srem. by rewrite (proj2 (Z.eqb_neq _ _) Hz).
Qed.

(** What the circuit does with the quotients the documentation leaves out:
    [INT_MIN / -1] wraps to [INT_MIN], with remainder zero; a zero divisor gives
    [-1], or [1] for a negative dividend, and the dividend as remainder. *)
Lemma sint_quotient_any :
  computes2 (A := list) (@RL) (@SInt.div) nonempty_pair
    (λ x y z, length z = length x ∧ sval z = sdiv (length x) (sval x) (sval y)) ∧
  computes2 (A := list) (@RL) (@SInt.rem) nonempty_pair
    (λ x y z, length z = length x ∧ sval z = srem (sval x) (sval y)).
Proof.
  split; (apply computes2_intro; [intros; eauto with kparam|intros x y [Hlen Hne]]).
  - by apply sdiv_ok.
  - by apply srem_ok.
Qed.

(** [Int_T] comparisons.  On every lawful context the six comparison
    operators give the bit of the signed comparison of the two values. *)
Theorem sint_compare_correct :
  computes2 (A := λ W, W) (@RW) (@SInt.eqb) nonempty_pair (λ x y z, z = (sval x =? sval y)%Z) ∧
  computes2 (A := λ W, W) (@RW) (@SInt.neb) nonempty_pair (λ x y z, z = negb (sval x =? sval y)%Z) ∧
  computes2 (A := λ W, W) (@RW) (@SInt.ltb) nonempty_pair (λ x y z, z = (sval x <? sval y)%Z) ∧
  computes2 (A := λ W, W) (@RW) (@SInt.gtb) nonempty_pair (λ x y z, z = (sval y <? sval x)%Z) ∧
  computes2 (A := λ W, W) (@RW) (@SInt.leb) nonempty_pair (λ x y z, z = (sval x <=? sval y)%Z) ∧
  computes2 (A := λ W, W) (@RW) (@SInt.geb) nonempty_pair (λ x y z, z = (sval y <=? sval x)%Z).
Proof.
  assert (∀ x y, nonempty_pair x y → keval (SInt.eqb x y) = Ret (sval x =? sval y)%Z) as Heq.
  { intros x y [Hlen Hne]. unfold SInt.eqb. rewrite keval_sguard, keval_equal by done. f_equal.
    destruct (Z.eqb_spec (sval x) (sval y)); [apply bool_decide_eq_true; by apply sval_inj|].
    apply bool_decide_eq_false. congruence. }
  assert (∀ x y, nonempty_pair x y → nonempty_pair y x) as Hsym.
  { intros x y [Hlen Hne]. split; [done|]. by eapply length_ne. }
  assert (∀ x y, nonempty_pair x y → keval (SInt.ltb x y) = Ret (sval x <? sval y)%Z) as Hlt
    by (intros x y []; by apply sltb_ok).
  split_and!; (apply computes2_intro; [intros; by (apply krel_scmp || eauto with kparam)|
    intros x y Hp; pose proof (Hsym _ _ Hp)]);
    unfold SInt.neb, SInt.gtb, SInt.leb, SInt.geb, SInt.gtb; rewrite ?keval_bind, ?Heq, ?Hlt by done;
    (eexists; split; [done|]); try done; by rewrite Z.ltb_antisym, negb_involutive.
Qed.

(** [Int_T] shifts.  On every lawful context, by a public amount [s >= 0] or
    by a secret amount, however large, [<<] is multiplication by [2^s] wrapped to
    the width and [>>] is the floor of division by [2^s]: the sign fills. *)
Theorem sint_shift_correct (s : N) :
  computes1 (A := list) (@RL) (λ W a, SInt.shl a (Z.of_N s)) (λ x, x ≠ [])
    (λ x z, length z = length x ∧ sval z = smod (length x) (sval x * 2 ^ Z.of_N s)) ∧
  computes1 (A := list) (@RL) (λ W a, SInt.shr a (Z.of_N s)) (λ x, x ≠ [])
    (λ x z, length z = length x ∧ sval z = (sval x / 2 ^ Z.of_N s)%Z) ∧
  computes2 (A := list) (@RL) (@SInt.shl_secret) (λ x _, x ≠ [] ∧ (N.of_nat (length x) ≤ 2 ^ 31)%N)
    (λ x y z, length z = length x ∧ sval z = smod (length x) (sval x * 2 ^ Z.of_N (bval y))) ∧
  computes2 (A := list) (@RL) (@SInt.shr_secret) (λ x _, x ≠ [] ∧ (N.of_nat (length x) ≤ 2 ^ 31)%N)
    (λ x y z, length z = length x ∧ sval z = (sval x / 2 ^ Z.of_N (bval y))%Z).
Proof.
  split_and!.
  - apply computes1_intro; [intros; by apply krel_sshl|intros x]. apply sshl_ok.
  - apply computes1_intro; [intros; by apply krel_sshr|intros x]. apply sshr_ok.
  - apply computes2_intro; [intros; eauto with kparam|intros x y []]. by apply sshl_secret_ok.
  - apply computes2_intro; [intros; eauto with kparam|intros x y []]. by apply sshr_secret_ok.
Qed.

(** [Int_T] width changes.  [sext] and the runtime [resize] to [m >= 1] wires
    keep the value wrapped to [m] bits (so exactly, when widening), [trunc] wraps
    it, and resizing to a width below 1 ends with a diagnostic. *)
Theorem sint_resize_correct (m : nat) :
  computes1 (A := list) (@RL) (λ W a, SInt.resize a m) (λ x, x ≠ [] ∧ (1 ≤ m)%nat)
    (λ x z, length z = m ∧ sval z = smod m (sval x) ∧
       ((length x ≤ m)%nat → sval z = sval x)) ∧
  (∀ x, (1 ≤ m ≤ length x)%nat → sval (SInt.trunc m x) = smod m (sval x)) ∧
  (∀ x, m = 0%nat → keval (SInt.resize x m) = Fatal "Int_T: runtime width must be >= 1").
Proof.
  split_and!; [|intros x Hm; by apply strunc_ok|by intros x ->].
  apply computes1_intro; [intros; eauto with kparam|]. intros x [Hne Hm].
  destruct (sext_ok x m Hne Hm) as (z & Hz & Hl & Hv). exists z.
  unfold SInt.resize, SInt.validate_width. destruct (Nat.leb_spec 1 m); [|lia].
  do 3 (split; [done|]). intros Hle. rewrite Hv. apply smod_small; [done|].
  pose proof (sval_bounds x Hne).
  assert (zpow (length x - 1) ≤ zpow (m - 1))%Z; [|lia].
  unfold zpow. pose proof (pow2_le (length x - 1) (m - 1)). lia.
Qed.

(** The signed codec round-trips: for widths 1 to 64, decoding the encoding of
    an [int64_t] whose value [v] fits the width gives back its 64-bit pattern, and
    decoding any word gives the pattern of its signed value. *)
Theorem sint_codec_roundtrip n v :
  (1 ≤ n ≤ 64)%nat → (- zpow (n - 1) ≤ v < zpow (n - 1))%Z →
  SInt.decode (SInt.encode n (Z.to_N (v mod 2 ^ 64))) = Z.to_N (v mod 2 ^ 64) ∧
  sval (SInt.encode n (Z.to_N (v mod 2 ^ 64))) = v.
Proof.
  intros Hn Hv. rewrite !sencode_ok. set (u := Z.to_N (v mod 2 ^ 64)).
  assert (sval (bits n u) = v) as Hs.
  { rewrite <- (smod_small n v) by (done || lia).
    apply sval_mod; [apply length_bits|lia|]. rewrite bval_bits, N2Z.inj_mod. fold (zpow n).
    rewrite Zmod_mod. unfold u. rewrite Z2N.id by (apply Z.mod_pos_bound; lia).
    replace (2 ^ 64)%Z with (zpow (64 - n) * zpow n)%Z.
    - pose proof (zpow_pos n). pose proof (zpow_pos (64 - n)).
      rewrite (Z.mod_eq v) by nia.
      replace (v - zpow (64 - n) * zpow n * (v / (zpow (64 - n) * zpow n)))%Z
        with (v + (- (zpow (64 - n) * (v / (zpow (64 - n) * zpow n)))) * zpow n)%Z by ring.
      apply Z_mod_plus_full.
    - unfold zpow. rewrite <- N2Z.inj_mul, <- pow2_add. by replace (64 - n + n)%nat with 64%nat by lia. }
  split; [|done]. rewrite sdecode_ok, Hs; [done| |by rewrite length_bits; lia].
  intros He. apply (f_equal length) in He. rewrite length_bits in He. simpl in He. lia.
Qed.

Lemma sint_codec_roundtrip_witness :
  SInt.decode (SInt.encode 8 (Z.to_N (-100 mod 2 ^ 64))) = Z.to_N (-100 mod 2 ^ 64) ∧
  sval (SInt.encode 8 (Z.to_N (-100 mod 2 ^ 64))) = (-100)%Z.
Proof. apply (sint_codec_roundtrip 8 (-100)); [lia|]. vm_compute. by split. Defined.

(** C31: [Int_T].  On every lawful context, for operands of equal width [n >= 1]:
    signed arithmetic wrapped to [n] bits; division truncating toward zero and the
    remainder with the sign of the dividend, for every nonzero divisor except in
    [INT_MIN / -1] (no claim is made for those two cases, which the documentation
    leaves to the caller); the six signed comparisons; and shifts by a public or
    a secret amount of any size, where the sign fills on the right (a secret
    amount: at most [2^31] bits of width). *)
Theorem sint_correct (s : N) :
  (computes2 (A := list) (@RL) (@SInt.add) nonempty_pair
     (λ x y z, length z = length x ∧ sval z = smod (length x) (sval x + sval y)) ∧
   computes2 (A := list) (@RL) (@SInt.sub) nonempty_pair
     (λ x y z, length z = length x ∧ sval z = smod (length x) (sval x - sval y)) ∧
   computes1 (A := list) (@RL) (@SInt.neg) (λ x, x ≠ [])
     (λ x z, length z = length x ∧ sval z = smod (length x) (- sval x)) ∧
   computes2 (A := list) (@RL) (@SInt.mul) nonempty_pair
     (λ x y z, length z = length x ∧ sval z = smod (length x) (sval x * sval y)) ∧
   computes2 (A := list) (@RL) (@SInt.div) quotient_defined
     (λ x y z, length z = length x ∧ sval z = Z.quot (sval x) (sval y)) ∧
   computes2 (A := list) (@RL) (@SInt.rem) quotient_defined
     (λ x y z, length z = length x ∧ sval z = Z.rem (sval x) (sval y))) ∧
  (computes2 (A := λ W, W) (@RW) (@SInt.eqb) nonempty_pair (λ x y z, z = (sval x =? sval y)%Z) ∧
   computes2 (A := λ W, W) (@RW) (@SInt.neb) nonempty_pair (λ x y z, z = negb (sval x =? sval y)%Z) ∧
   computes2 (A := λ W, W) (@RW) (@SInt.ltb) nonempty_pair (λ x y z, z = (sval x <? sval y)%Z) ∧
   computes2 (A := λ W, W) (@RW) (@SInt.gtb) nonempty_pair (λ x y z, z = (sval y <? sval x)%Z) ∧
   computes2 (A := λ W, W) (@RW) (@SInt.leb) nonempty_pair (λ x y z, z = (sval x <=? sval y)%Z) ∧
   computes2 (A := λ W, W) (@RW) (@SInt.geb) nonempty_pair (λ x y z, z = (sval y <=? sval x)%Z)) ∧
  (computes1 (A := list) (@RL) (λ W a, SInt.shl a (Z.of_N s)) (λ x, x ≠ [])
     (λ x z, length z = length x ∧ sval z = smod (length x) (sval x * 2 ^ Z.of_N s)) ∧
   computes1 (A := list) (@RL) (λ W a, SInt.shr a (Z.of_N s)) (λ x, x ≠ [])
     (λ x z, length z = length x ∧ sval z = (sval x / 2 ^ Z.of_N s)%Z) ∧
   computes2 (A := list) (@RL) (@SInt.shl_secret) (λ x _, x ≠ [] ∧ (N.of_nat (length x) ≤ 2 ^ 31)%N)
     (λ x y z, length z = length x ∧ sval z = smod (length x) (sval x * 2 ^ Z.of_N (bval y))) ∧
   computes2 (A := list) (@RL) (@SInt.shr_secret) (λ x _, x ≠ [] ∧ (N.of_nat (length x) ≤ 2 ^ 31)%N)
     (λ x y z, length z = length x ∧ sval z = (sval x / 2 ^ Z.of_N (bval y))%Z)).
Proof.
  split; [exact sint_arith_correct|]. split; [exact sint_compare_correct|]. exact (sint_shift_correct s).
Qed.
