(* ===== verification/Aes128.v ===== *)
(** * AES-128 (circuits/crypto/aes128.h)

    The Boolean circuits of the source, call by call, over arrays of wires as
    lists; [AesSpec] says what they compute.  The byte at index [b] of an array is its wires [8b .. 8b+7],
    least significant bit first. *)

From S2P Require Import Prelude Program Validate Context Execute Kernel Bits Bytes NumericKernels UInt.

(** ** The circuits *)
Section circuits.
Context {W : Type}.
#[local] Abbreviation wires := (list W).

(** Boyar and Peralta's S-box.  The match flips the index once on entry
    ([U[i] = U_lsb[7 - i]]), the result once on exit.  An operand that is not
    an array of eight is outside the function's type. *)
Definition aes_sbox (U_lsb : wires) : Kernel W wires :=
  match U_lsb with
  | [U7; U6; U5; U4; U3; U2; U1; U0] =>
      t1 ← kxor U3 U5; t2 ← kxor U0 U6; t3 ← kxor U0 U3; t4 ← kxor U0 U5; t5 ← kxor U1 U2;
      t6 ← kxor t5 U7; t7 ← kxor t6 U3; t8 ← kxor t2 t1; t9 ← kxor t6 U0; t10 ← kxor t6 U6;
      t11 ← kxor t10 t4; t12 ← kxor U4 t8; t13 ← kxor t12 U5; t14 ← kxor t12 U1;
      t15 ← kxor t13 U7; t16 ← kxor t13 t5; t17 ← kxor t14 t3; t18 ← kxor U7 t17;
      t19 ← kxor t16 t17; t20 ← kxor t16 t4; t21 ← kxor t5 t17; t22 ← kxor t2 t21;
      t23 ← kxor U0 t21; t24 ← kand t8 t13; t25 ← kand t11 t15; t27 ← kand t7 U7;
      t29 ← kand t2 t21; t30 ← kand t10 t6; t32 ← kand t9 t18; t34 ← kand t3 t17;
      t35 ← kand t1 t19; t37 ← kand t4 t16; t26 ← kxor t25 t24; t28 ← kxor t27 t24;
      t31 ← kxor t30 t29; t33 ← kxor t32 t29; t36 ← kxor t35 t34; t38 ← kxor t37 t34;
      t39 ← kxor t26 t14; t40 ← kxor t28 t38; t41 ← kxor t31 t36; t42 ← kxor t33 t38;
      t43 ← kxor t39 t36; t44 ← kxor t40 t20; t45 ← kxor t41 t22; t46 ← kxor t42 t23;
      t47 ← kxor t43 t44; t48 ← kand t43 t45; t49 ← kxor t46 t48; t50 ← kand t47 t49;
      t51 ← kxor t50 t44; t52 ← kxor t45 t46; t53 ← kxor t44 t48; t54 ← kand t53 t52;
      t55 ← kxor t54 t46; t56 ← kxor t45 t55; t57 ← kxor t49 t55; t58 ← kand t46 t57;
      t59 ← kxor t58 t56; t60 ← kxor t49 t58; t61 ← kand t51 t60; t62 ← kxor t47 t61;
      t63 ← kxor t62 t59; t64 ← kxor t51 t55; t65 ← kxor t51 t62; t66 ← kxor t55 t59;
      t67 ← kxor t64 t63; t68 ← kand t66 t13; t69 ← kand t59 t15; t70 ← kand t55 U7;
      t71 ← kand t65 t21; t72 ← kand t62 t6; t73 ← kand t51 t18; t74 ← kand t64 t17;
      t75 ← kand t67 t19; t76 ← kand t63 t16; t77 ← kand t66 t8; t78 ← kand t59 t11;
      t79 ← kand t55 t7; t80 ← kand t65 t2; t81 ← kand t62 t10; t82 ← kand t51 t9;
      t83 ← kand t64 t3; t84 ← kand t67 t1; t85 ← kand t63 t4; t86 ← kxor t83 t84;
      t87 ← kxor t78 t86; t88 ← kxor t77 t87; t89 ← kxor t68 t70; t90 ← kxor t69 t68;
      t91 ← kxor t71 t72; t92 ← kxor t80 t89; t93 ← kxor t75 t91; t94 ← kxor t76 t92;
      t95 ← kxor t93 t94; t96 ← kxor t91 t90; t97 ← kxor t71 t73; t98 ← kxor t81 t86;
      t99 ← kxor t89 t97; t100 ← kxor t74 t93; t101 ← kxor t82 t95; t102 ← kxor t98 t99;
      t103 ← kxor t83 t100; t104 ← kxor t87 t79; t105 ← kxor t101 t103;
      S0 ← kxor t88 t100;
      S3 ← kxor t88 t96;
      x1 ← kxor S3 t100; S1 ← knot x1;
      x2 ← kxor t105 t85; S2 ← knot x2;
      S4 ← kxor t99 S3;
      S5 ← kxor t104 t101;
      x6 ← kxor t95 t102; S6 ← knot x6;
      x7 ← kxor t80 t102; S7 ← knot x7;
      mret [S7; S6; S5; S4; S3; S2; S1; S0]
  | _ => KFatal "aes_sbox: not an array of 8 wires"
  end.

(** Multiplication by [x] modulo [x^8 + x^4 + x^3 + x + 1]. *)
Definition aes_xtime (i : wires) : Kernel W wires :=
  match i with
  | [i0; i1; i2; i3; i4; i5; i6; m] =>
      o1 ← kxor i0 m;
      o3 ← kxor i2 m;
      o4 ← kxor i3 m;
      mret [m; o1; i1; o3; o4; i4; i5; i6]
  | _ => KFatal "aes_xtime: not an array of 8 wires"
  end.

Definition Rcon : list N :=
  [0x00; 0x01; 0x02; 0x04; 0x08; 0x10; 0x20; 0x40; 0x80; 0x1b; 0x36]%N.
Definition add_rcon (r : nat) (tmp0 : wires) : Kernel W wires :=
  kmap2 (λ k w, if N.testbit (default 0%N (Rcon !! r)) (N.of_nat k) then knot w else mret w)
    (seq 0 8) tmp0.
Definition word_at (l : wires) (w : nat) : wires := take 32 (drop (w * 32) l).
(** One iteration of the loop on [r]: RotWord, SubWord, Rcon, then the words. *)
Definition key_round (prev : wires) (r : nat) : Kernel W wires :=
  tmp ← kmap aes_sbox ((λ b, byte_at prev (12 + Nat.land (b + 1) 3)) <$> seq 0 4);
  tmp0 ← add_rcon r (default [] (head tmp));
  cur0 ← kmap2 kxor (word_at prev 0) (tmp0 ++ flatten (tail tmp));
  kfold (λ cur w,
    cw ← kmap2 kxor (word_at cur (w - 1)) (word_at prev w);
    mret (cur ++ cw)) cur0 (seq 1 3).
Definition round_key (expanded : wires) (r : nat) : wires := take 128 (drop (r * 128) expanded).
Definition aes128_key_schedule (key : wires) : Kernel W wires :=
  kfold (λ expanded r,
    cur ← key_round (round_key expanded (r - 1)) r;
    mret (expanded ++ cur)) key (seq 1 10).

Definition sub_bytes (state : wires) : Kernel W wires :=
  out ← kmap aes_sbox (array_bytes 16 state); mret (flatten out).
Definition shift_rows (state : wires) : wires :=
  flatten ((λ c, flatten ((λ row, byte_at state (4 * Nat.land (c + row) 3 + row)) <$> seq 0 4))
           <$> seq 0 4).
(** One column: the first loop on [k], the four doublings, the second loop. *)
Definition column_sums (x : (W * W) * (W * W)) : Kernel W (W * ((W * W) * (W * W))) :=
  let '((a, b), (cc, d)) := x in
  x ← kxor a b; y ← kxor cc d; t ← kxor x y;
  ab ← kxor a b; bc ← kxor b cc; cd ← kxor cc d; da ← kxor d a;
  mret (t, ((ab, bc), (cd, da))).
Definition column_out (x : W * (W * W)) : Kernel W W :=
  let '(a, (t, xa)) := x in y ← kxor t xa; kxor a y.
(** The second loop does the four output bytes bit by bit. *)
Definition column_outs (x : (W * ((W * W) * (W * W))) * ((W * W) * (W * W))) :
    Kernel W ((W * W) * (W * W)) :=
  let '((t, ((xab, xbc), (xcd, xda))), ((a, b), (cc, d))) := x in
  na ← column_out (a, (t, xab)); nb ← column_out (b, (t, xbc));
  nc ← column_out (cc, (t, xcd)); nd ← column_out (d, (t, xda));
  mret ((na, nb), (nc, nd)).
Definition mix_column (col : wires) : Kernel W wires :=
  let abcd := zip (zip (byte_at col 0) (byte_at col 1)) (zip (byte_at col 2) (byte_at col 3)) in
  sums ← kmap column_sums abcd;
  xab ← aes_xtime ((λ s, s.2.1.1) <$> sums);
  xbc ← aes_xtime ((λ s, s.2.1.2) <$> sums);
  xcd ← aes_xtime ((λ s, s.2.2.1) <$> sums);
  xda ← aes_xtime ((λ s, s.2.2.2) <$> sums);
  outs ← kmap column_outs
    (zip (zip (fst <$> sums) (zip (zip xab xbc) (zip xcd xda))) abcd);
  mret (((λ o, o.1.1) <$> outs) ++ ((λ o, o.1.2) <$> outs) ++
        ((λ o, o.2.1) <$> outs) ++ ((λ o, o.2.2) <$> outs)).
Definition mix_columns (state : wires) : Kernel W wires :=
  cols ← kmap (λ c, mix_column (word_at state c)) (seq 0 4); mret (flatten cols).
Definition aes_round (expanded_key state : wires) (r : nat) : Kernel W wires :=
  state ← sub_bytes state;
  state ← (if Nat.eqb r 10 then mret (shift_rows state) else mix_columns (shift_rows state));
  kmap2 kxor state (round_key expanded_key r).
Definition aes128_encrypt_block (plaintext expanded_key : wires) : Kernel W wires :=
  state ← kmap2 kxor plaintext (round_key expanded_key 0);
  kfold (aes_round expanded_key) state (seq 1 10).
Definition aes128_encrypt (plaintext key : wires) : Kernel W wires :=
  expanded ← aes128_key_schedule key;
  aes128_encrypt_block plaintext expanded.

(** The counter is bytes 15 down to 8, packed least significant byte first. *)
Definition ctr_inc_be64 (block : wires) (delta : N) : Kernel W wires :=
  if (delta =? 0)%N then mret block else
  let ctr := flatten ((λ byte, byte_at block (15 - byte)) <$> seq 0 8) in
  d ← UInt.constant 64 delta;
  ctr ← UInt.add ctr d;
  mret (take 64 block ++ flatten ((λ dst, byte_at ctr (7 - dst)) <$> seq 0 8)).
(** The loop on [done]: [inp] is what is left of the input from there. *)
Fixpoint ctr_loop (fuel : nat) (round_keys counter inp : wires) : Kernel W wires :=
  match fuel with
  | O => mret []
  | S fuel =>
      if is_nil inp then mret [] else
      ks ← aes128_encrypt_block counter round_keys;
      out ← kmap2 kxor (take 128 inp) ks;
      let rest := drop 128 inp in
      if is_nil rest then mret out else
      counter ← ctr_inc_be64 counter 1;
      more ← ctr_loop fuel round_keys counter rest;
      mret (out ++ more)
  end.
Definition aes128_ctr (key iv inp : wires) (start_chunk : N) : Kernel W wires :=
  round_keys ← aes128_key_schedule key;
  counter ← ctr_inc_be64 iv start_chunk;
  ctr_loop (length inp) round_keys counter inp.
End circuits.

(** ** Parametricity *)
Section param.
Context {W1 W2 : Type}.
Implicit Types (R : wrel W1 W2).

Lemma krel_aes_sbox R l1 l2 : Forall2 R l1 l2 → krel RL R (aes_sbox l1) (aes_sbox l2).
Proof.
  intros Hl. unfold aes_sbox.
  do 8 (destruct Hl as [|? ? ? ? ? Hl]; [apply krel_fatal|]). destruct Hl; [|apply krel_fatal].
  repeat kstep. by repeat (constructor; [assumption|]).
Qed.
Lemma krel_aes_xtime R l1 l2 : Forall2 R l1 l2 → krel RL R (aes_xtime l1) (aes_xtime l2).
Proof.
  intros Hl. unfold aes_xtime.
  do 8 (destruct Hl as [|? ? ? ? ? Hl]; [apply krel_fatal|]). destruct Hl; [|apply krel_fatal].
  repeat kstep. by repeat (constructor; [assumption|]).
Qed.

Lemma byte_at_rel R l1 l2 b : Forall2 R l1 l2 → Forall2 R (byte_at l1 b) (byte_at l2 b).
Proof. intros. by apply Forall2_take, Forall2_drop. Qed.
Lemma word_at_rel R l1 l2 b : Forall2 R l1 l2 → Forall2 R (word_at l1 b) (word_at l2 b).
Proof. intros. by apply Forall2_take, Forall2_drop. Qed.
Lemma round_key_rel R l1 l2 b : Forall2 R l1 l2 → Forall2 R (round_key l1 b) (round_key l2 b).
Proof. intros. by apply Forall2_take, Forall2_drop. Qed.
Lemma fmap_seq_rel {A1 A2} (P : A1 → A2 → Prop) (f1 : nat → A1) (f2 : nat → A2) l :
  (∀ i, P (f1 i) (f2 i)) → Forall2 P (f1 <$> l) (f2 <$> l).
Proof. intros Hf. induction l; simpl; by constructor. Qed.
Lemma flatten_rel R l1 l2 : Forall2 (RL R) l1 l2 → Forall2 R (flatten l1) (flatten l2).
Proof. induction 1; [constructor|]. by apply Forall2_app. Qed.
Lemma Forall2_tail {A B} (P : A → B → Prop) l k : Forall2 P l k → Forall2 P (tail l) (tail k).
Proof. by destruct 1. Qed.
Hint Resolve byte_at_rel word_at_rel round_key_rel flatten_rel krel_aes_sbox krel_aes_xtime
  Forall2_eq_refl Forall2_tail krel_kmap2_wires : kparam.

Lemma krel_kmap2_xor R a1 a2 b1 b2 :
  Forall2 R a1 a2 → Forall2 R b1 b2 → krel RL R (kmap2 kxor a1 b1) (kmap2 kxor a2 b2).
Proof. intros. apply krel_kmap2_wires; auto with kparam. Qed.
Hint Resolve krel_kmap2_xor : kparam.
Lemma krel_kmap_sbox R l1 l2 :
  Forall2 (RL R) l1 l2 → krel (λ R, Forall2 (RL R)) R (kmap aes_sbox l1) (kmap aes_sbox l2).
Proof. intros. apply (krel_kmap RL RL); [done|]. intros. by apply krel_aes_sbox. Qed.
Lemma RLL_mono : Mono (W1 := W1) (W2 := W2) (λ R, Forall2 (RL R)).
Proof. intros R R' a b Hs H. eapply Forall2_impl; [exact H|]. intros ? ?. by apply RL_mono. Qed.

Lemma krel_add_rcon R r l1 l2 : Forall2 R l1 l2 → krel RL R (add_rcon r l1) (add_rcon r l2).
Proof.
  intros Hl. apply (krel_kmap2 REq RW RW); [apply Forall2_eq_refl|done|].
  intros R' x y x' y' _ Hx Hy. unfold REq, RW in *. subst. case_match; [by apply krel_knot|].
  by constructor.
Qed.
Hint Resolve krel_add_rcon : kparam.
Lemma krel_key_round R r l1 l2 : Forall2 R l1 l2 → krel RL R (key_round l1 r) (key_round l2 r).
Proof.
  intros Hl. unfold key_round. eapply krel_bind.
  { apply krel_kmap_sbox. apply fmap_seq_rel. intros. by apply byte_at_rel. }
  intros R' t1 t2 Hs Ht. kmono. eapply krel_bind.
  { apply krel_add_rcon. by destruct Ht. }
  intros R2 h1 h2 Hs2 Hh. kmono. apply (RLL_mono _ _ _ _ Hs2) in Ht. eapply krel_bind.
  { apply krel_kmap2_xor; [by apply word_at_rel|]. apply Forall2_app; [done|].
    by apply flatten_rel, Forall2_tail. }
  intros R3 c1 c2 Hs3 Hc. kmono. apply (krel_kfold REq RL); [done|apply Forall2_eq_refl|].
  intros R4 s1 s2 x y Hs4 Hst Hxy. unfold REq in Hxy. subst. kmono. kauto.
Qed.
Lemma krel_key_schedule R l1 l2 :
  Forall2 R l1 l2 → krel RL R (aes128_key_schedule l1) (aes128_key_schedule l2).
Proof.
  intros Hl. apply (krel_kfold REq RL); [done|apply Forall2_eq_refl|].
  intros R4 s1 s2 x y Hs4 Hst Hxy. unfold REq in Hxy. subst. kmono. 
  eapply krel_bind; [by apply krel_key_round, round_key_rel|]. intros. kmono. kauto.
Qed.

Lemma krel_sub_bytes R l1 l2 : Forall2 R l1 l2 → krel RL R (sub_bytes l1) (sub_bytes l2).
Proof.
  intros Hl. unfold sub_bytes. eapply krel_bind; [apply krel_kmap_sbox|].
  - apply fmap_seq_rel. intros. by apply byte_at_rel.
  - intros. constructor. by apply flatten_rel.
Qed.
Lemma shift_rows_rel R l1 l2 : Forall2 R l1 l2 → Forall2 R (shift_rows l1) (shift_rows l2).
Proof.
  intros Hl. apply flatten_rel, fmap_seq_rel. intros c. apply flatten_rel, fmap_seq_rel.
  intros r. by apply byte_at_rel.
Qed.

#[local] Abbreviation RQuad := (RPair (RPair RW RW) (RPair RW RW)).
Lemma krel_column_sums R x1 x2 :
  RQuad R x1 x2 → krel (RPair RW RQuad) R (column_sums x1) (column_sums x2).
Proof. intros H. kdestruct. unfold column_sums. repeat kstep. by repeat split. Qed.
Lemma krel_column_out R x1 x2 :
  RPair RW (RPair RW RW) R x1 x2 → krel RW R (column_out x1) (column_out x2).
Proof. intros H. kdestruct. unfold column_out. kauto. Qed.
Lemma krel_column_outs R x1 x2 :
  RPair (RPair RW RQuad) RQuad R x1 x2 → krel RQuad R (column_outs x1) (column_outs x2).
Proof.
  intros H. kdestruct. unfold column_outs.
  do 4 (eapply krel_bind; [apply krel_column_out; by repeat split|]; intros; kmono; kdestruct).
  constructor. by repeat split.
Qed.
Lemma Forall2_fmap_rel {A1 A2 B1 B2} (P : A1 → A2 → Prop) (Q : B1 → B2 → Prop) (f : A1 → B1)
    (g : A2 → B2) l k :
  Forall2 P l k → (∀ x y, P x y → Q (f x) (g y)) → Forall2 Q (f <$> l) (g <$> k).
Proof. intros Hl Hf. apply Forall2_fmap_2. by eapply Forall2_impl. Qed.
Lemma krel_mix_column R l1 l2 : Forall2 R l1 l2 → krel RL R (mix_column l1) (mix_column l2).
Proof.
  intros Hl. unfold mix_column.
  assert (∀ R, Forall2 R l1 l2 → Forall2 (RQuad R)
    (zip (zip (byte_at l1 0) (byte_at l1 1)) (zip (byte_at l1 2) (byte_at l1 3)))
    (zip (zip (byte_at l2 0) (byte_at l2 1)) (zip (byte_at l2 2) (byte_at l2 3)))) as Habcd.
  { intros R' Hl'. repeat apply Forall2_zip_pairs; by apply byte_at_rel. }
  eapply krel_bind.
  { apply (krel_kmap RQuad (RPair RW RQuad)); [by apply Habcd|]. intros. by apply krel_column_sums. }
  intros R' s1 s2 Hs Hsum. kmono.
  assert (∀ R'', wsub R' R'' → Forall2 (RPair RW RQuad R'') s1 s2) as Hsum'.
  { intros R'' Hs'. eapply Forall2_impl; [exact Hsum|]. intros x y. by apply mono. }
  clear Hs Hsum.
  do 4 (eapply krel_bind; [apply krel_aes_xtime; eapply Forall2_fmap_rel;
    [by apply Hsum'|by intros ? ? (?&(?&?)&(?&?))]|];
    let R'' := fresh "R" in let Hs := fresh "Hs" in
    intros R'' ? ? Hs ?; assert (∀ R3, wsub R'' R3 → Forall2 (RPair RW RQuad R3) s1 s2)
      by (intros; apply Hsum'; by etrans); clear Hsum'; rename select (∀ R3, wsub _ _ → _) into Hsum';
    kmono; kdestruct; clear Hs).
  eapply krel_bind.
  { apply (krel_kmap (RPair (RPair RW RQuad) RQuad) RQuad); [|by intros; apply krel_column_outs].
    repeat apply Forall2_zip_pairs; try done; try (by apply byte_at_rel).
    eapply Forall2_fmap_rel; [by apply Hsum'|]. by intros ? ? []. }
  intros R4 o1 o2 Hs Ho. constructor.
  repeat apply Forall2_app; (eapply Forall2_fmap_rel; [exact Ho|by intros ? ? ((?&?)&(?&?))]).
Qed.
Lemma krel_mix_columns R l1 l2 : Forall2 R l1 l2 → krel RL R (mix_columns l1) (mix_columns l2).
Proof.
  intros Hl. unfold mix_columns. eapply krel_bind.
  - apply (krel_kmap REq RL); [apply Forall2_eq_refl|]. intros R' x y Hs Hxy.
    unfold REq in Hxy. subst. kmono. by apply krel_mix_column, word_at_rel.
  - intros. constructor. by apply flatten_rel.
Qed.
Hint Resolve krel_sub_bytes shift_rows_rel krel_mix_columns krel_key_schedule : kparam.

Lemma krel_aes_round R e1 e2 s1 s2 r :
  Forall2 R e1 e2 → Forall2 R s1 s2 → krel RL R (aes_round e1 s1 r) (aes_round e2 s2 r).
Proof.
  intros He Hst. unfold aes_round. kstep. eapply krel_bind with (RA := RL).
  - case_match; [constructor|]; eauto with kparam.
  - intros. kmono. eauto with kparam.
Qed.
Lemma krel_encrypt_block R p1 p2 e1 e2 :
  Forall2 R p1 p2 → Forall2 R e1 e2 →
  krel RL R (aes128_encrypt_block p1 e1) (aes128_encrypt_block p2 e2).
Proof.
  intros. unfold aes128_encrypt_block. kstep.
  apply (krel_kfold REq RL); [done|apply Forall2_eq_refl|].
  intros R' s1 s2 x y Hs Hst Hxy. unfold REq in Hxy. subst. kmono. by apply krel_aes_round.
Qed.
Hint Resolve krel_encrypt_block : kparam.
Lemma krel_aes128_encrypt R p1 p2 k1 k2 :
  Forall2 R p1 p2 → Forall2 R k1 k2 →
  krel RL R (aes128_encrypt p1 k1) (aes128_encrypt p2 k2).
Proof. intros. unfold aes128_encrypt. kstep. eauto with kparam. Qed.

Lemma krel_ctr_inc R b1 b2 d :
  Forall2 R b1 b2 → krel RL R (ctr_inc_be64 b1 d) (ctr_inc_be64 b2 d).
Proof.
  intros. unfold ctr_inc_be64. case_match; [by constructor|]. kstep.
  eapply krel_bind; [apply krel_add; [|done]|].
  - apply flatten_rel, fmap_seq_rel. intros. by apply byte_at_rel.
  - intros. kmono. constructor. apply Forall2_app; [by apply Forall2_take|].
    apply flatten_rel, fmap_seq_rel. intros. by apply byte_at_rel.
Qed.
Hint Resolve krel_ctr_inc : kparam.
Lemma krel_ctr_loop fuel R k1 k2 c1 c2 i1 i2 :
  Forall2 R k1 k2 → Forall2 R c1 c2 → Forall2 R i1 i2 →
  krel RL R (ctr_loop fuel k1 c1 i1) (ctr_loop fuel k2 c2 i2).
Proof.
  revert R c1 c2 i1 i2. induction fuel as [|fuel IH]; intros R c1 c2 i1 i2 Hk Hc Hi; cbn [ctr_loop].
  { apply krel_ret. constructor. }
  assert (is_nil i2 = is_nil i1) as -> by (by destruct Hi).
  assert (is_nil (drop 128 i2) = is_nil (drop 128 i1)) as ->.
  { pose proof (Forall2_drop _ _ _ 128 Hi) as Hd. by destruct Hd. }
  destruct (is_nil i1); [apply krel_ret; constructor|]. kstep. kstep.
  destruct (is_nil (drop 128 i1)); [by apply krel_ret|]. kstep.
  eapply krel_bind; [apply IH; eauto with kparam|]. intros. kmono. constructor.
  by apply Forall2_app.
Qed.
Lemma krel_aes128_ctr R k1 k2 v1 v2 i1 i2 s :
  Forall2 R k1 k2 → Forall2 R v1 v2 → Forall2 R i1 i2 →
  krel RL R (aes128_ctr k1 v1 i1 s) (aes128_ctr k2 v2 i2 s).
Proof.
  intros Hk Hv Hi. unfold aes128_ctr. rewrite (Forall2_length _ _ _ Hi). kstep. kstep.
  by apply krel_ctr_loop.
Qed.
End param.
#[export] Hint Resolve krel_aes_sbox krel_aes_xtime krel_key_schedule krel_encrypt_block
  krel_aes128_encrypt krel_ctr_inc krel_aes128_ctr : kparam.
