(* ===== verification/AesSpec.v ===== *)
(** * What the AES-128 circuits compute

    A byte-level AES-128 (FIPS-197) and CTR mode (SP 800-38A with a 64-bit
    counter), and the equality of the circuits of [Aes128] with them. *)

From Stdlib Require Import Btauto.
From S2P Require Import Prelude Program Validate Context Execute Kernel Bits Bytes NumericKernels UInt Aes128.

(** ** Byte-level AES-128 *)
Module Fips197.
Definition xtime (b : N) : N :=
  N.lxor (N.land (N.shiftl b 1) 0xff) (if N.testbit b 7 then 0x1b else 0)%N.
(** Multiplication in GF(2^8), by the bits of [b] from the top. *)
Definition gf_mul (a b : N) : N :=
  foldl (λ acc i, N.lxor (xtime acc) (if N.testbit b i then a else 0)%N) 0%N
    [7; 6; 5; 4; 3; 2; 1; 0]%N.
Definition gf_pow (a : N) (n : nat) : N := Nat.iter n (gf_mul a) 1%N.
(** The inverse, with [0] mapped to itself: the 254th power. *)
Definition gf_inv (a : N) : N := gf_pow a 254.
Definition rotl8 (b k : N) : N := N.land (N.lor (N.shiftl b k) (N.shiftr b (8 - k))) 0xff.
Definition sbox (b : N) : N :=
  let x := gf_inv b in
  foldl N.lxor 0x63%N [x; rotl8 x 1; rotl8 x 2; rotl8 x 3; rotl8 x 4]%N.

Abbreviation bytes := (list N).
Definition xor (a b : bytes) : bytes := zip_with N.lxor a b.
Definition sub_bytes (s : bytes) : bytes := sbox <$> s.
(** Column [c], row [row] is byte [4c + row]; row [row] turns left by [row]. *)
Definition shift_rows (s : bytes) : bytes :=
  (λ i, get s (4 * ((i / 4 + i mod 4) mod 4) + i mod 4)) <$> seq 0 16.
Definition mix_row (m : list N) (col : bytes) : N :=
  foldr N.lxor 0%N (zip_with gf_mul col m).
Definition mix_column (col : bytes) : bytes :=
  (λ m, mix_row m col) <$> [[2; 3; 1; 1]; [1; 2; 3; 1]; [1; 1; 2; 3]; [3; 1; 1; 2]]%N.
Definition column (s : bytes) (c : nat) : bytes := take 4 (drop (4 * c) s).
Definition mix_columns (s : bytes) : bytes := flatten ((λ c, mix_column (column s c)) <$> seq 0 4).

(** The key schedule, word by word. *)
Definition rot_word (w : bytes) : bytes := tail w ++ take 1 w.
Definition rcon (j : nat) : bytes := [gf_pow 2 (j - 1); 0; 0; 0]%N.
Definition next_word (ws : list bytes) : bytes :=
  let i := length ws in
  let temp := default [] (ws !! (i - 1)) in
  let temp := if Nat.eqb (i mod 4) 0
              then xor (sub_bytes (rot_word temp)) (rcon (i / 4)) else temp in
  xor (default [] (ws !! (i - 4))) temp.
Definition key_words (key : bytes) : list bytes :=
  Nat.iter 40 (λ ws, ws ++ [next_word ws]) (column key <$> seq 0 4).
Definition round_key (key : bytes) (r : nat) : bytes :=
  flatten (take 4 (drop (4 * r) (key_words key))).

Definition round (key : bytes) (s : bytes) (r : nat) : bytes :=
  let s := shift_rows (sub_bytes s) in
  xor (if Nat.eqb r 10 then s else mix_columns s) (round_key key r).
Definition encrypt (pt key : bytes) : bytes :=
  foldl (round key) (xor pt (round_key key 0)) (seq 1 10).

(** SP 800-38A with a 64-bit big-endian counter in bytes 8 to 15. *)
Definition counter_block (iv : bytes) (i : N) : bytes :=
  take 8 iv ++ be_bytes 8 ((be_value (drop 8 iv) + i) mod 2 ^ 64).
End Fips197.

(** ** Arrays of bytes *)
#[local] Arguments Fips197.sbox : simpl never.
#[local] Arguments aes_sbox {W} : simpl never.
Lemma word_at_unbytes bs w : word_at (unbytes bs) w = unbytes (Fips197.column bs w).
Proof.
  unfold word_at, Fips197.column. replace (w * 32)%nat with (8 * (4 * w))%nat by lia.
  rewrite drop_unbytes. apply (take_unbytes 4).
Qed.
Lemma round_key_unbytes bs r : round_key (unbytes bs) r = unbytes (take 16 (drop (16 * r) bs)).
Proof.
  unfold round_key. replace (r * 128)%nat with (8 * (16 * r))%nat by lia.
  rewrite drop_unbytes. apply (take_unbytes 16).
Qed.
Lemma unbytes_xor a b : zip_with xorb (unbytes a) (unbytes b) = unbytes (Fips197.xor a b).
Proof.
  revert b. induction a as [|x a IH]; intros [|y b]; try done.
  change (unbytes (x :: a)) with (bits 8 x ++ unbytes a).
  change (unbytes (y :: b)) with (bits 8 y ++ unbytes b).
  rewrite zip_with_app by (by rewrite !length_bits). by rewrite IH, <- bits_lxor.
Qed.
(** ** The S-box, the column, the round *)
Definition sbox_matches (v : N) : bool :=
  match keval (aes_sbox (bits 8 v)) with
  | Ret l => bool_decide (l = bits 8 (Fips197.sbox v)) && (Fips197.sbox v <? 256)%N
  | _ => false
  end.
Definition all_bytes : list N := N.of_nat <$> seq 0 256.
Lemma sbox_table : forallb sbox_matches all_bytes = true.
Proof. vm_compute. reflexivity. Qed.
Lemma elem_all_bytes v : (v < 256)%N → v ∈ all_bytes.
Proof.
  intros Hv. apply list_elem_of_fmap. exists (N.to_nat v). split; [lia|].
  apply elem_of_seq. lia.
Qed.
Lemma sbox_matches_true v : sbox_matches v = true →
  keval (aes_sbox (bits 8 v)) = Ret (bits 8 (Fips197.sbox v)) ∧ (Fips197.sbox v < 256)%N.
Proof.
  unfold sbox_matches. generalize (keval (aes_sbox (bits 8 v))). intros [l| |] H; [|done..].
  apply andb_true_iff in H as [Hl Hlt]. apply bool_decide_eq_true in Hl. apply N.ltb_lt in Hlt.
  split; [by rewrite Hl|exact Hlt].
Qed.
Lemma sbox_ok v : (v < 256)%N →
  keval (aes_sbox (bits 8 v)) = Ret (bits 8 (Fips197.sbox v)) ∧ (Fips197.sbox v < 256)%N.
Proof.
  intros Hv. apply sbox_matches_true, (proj1 (forallb_forall _ _) sbox_table), list_elem_of_In.
  by apply elem_all_bytes.
Qed.

Lemma keval_xors a b :
  keval (kmap2 kxor (unbytes a) (unbytes b)) = Ret (unbytes (Fips197.xor a b)).
Proof.
  rewrite (keval_kmap2 _ xorb) by done. by rewrite unbytes_xor.
Qed.

Lemma byte_list_xor n a b : byte_list n a → byte_list n b → byte_list n (Fips197.xor a b).
Proof.
  intros [Ha Hfa] [Hb Hfb]. split; [unfold Fips197.xor; rewrite length_zip_with; lia|].
  apply Forall_forall. intros v (x & y & -> & Hx & Hy)%elem_of_zip_with.
  rewrite Forall_forall in Hfa, Hfb. apply (lxor_lt _ _ 8); auto.
Qed.
Lemma byte_list_sub n l : byte_list n l → byte_list n (Fips197.sub_bytes l).
Proof.
  intros [Hl Hf]. split; [by unfold Fips197.sub_bytes; rewrite length_fmap|].
  apply Forall_fmap. eapply Forall_impl; [exact Hf|]. intros v Hv. by apply sbox_ok.
Qed.

Lemma sub_bytes_ok s : byte_list 16 s →
  keval (sub_bytes (unbytes s)) = Ret (unbytes (Fips197.sub_bytes s)).
Proof.
  intros [Hl Hf]. unfold sub_bytes. rewrite array_bytes_unbytes, keval_bind by done.
  rewrite (keval_kmap_all _ _ (λ v, bits 8 (Fips197.sbox v))).
  - cbn [mbind outcome_bind keval mret Kernel_ret]. f_equal. apply (flatten_bits Fips197.sbox s).
  - eapply Forall_impl; [exact Hf|]. intros v Hv. by apply sbox_ok.
Qed.
Lemma shift_rows_ok s : length s = 16%nat →
  shift_rows (unbytes s) = unbytes (Fips197.shift_rows s).
Proof.
  intros Hl. unfold shift_rows, Fips197.shift_rows. rewrite <- flatten_bits.
  cbn [seq fmap list_fmap mjoin list_join Nat.add Nat.mul Nat.land].
  rewrite !byte_at_unbytes by (rewrite Hl; vm_compute; lia). by rewrite <- !app_assoc.
Qed.

Lemma xtime_testbit v i : (i < 8)%N →
  N.testbit (Fips197.xtime v) i =
    xorb (if (i =? 0)%N then false else N.testbit v (i - 1)) (N.testbit v 7 && N.testbit 0x1b i).
Proof.
  intros Hi. unfold Fips197.xtime. rewrite N.lxor_spec, N.land_spec. f_equal.
  - change 0xff%N with (N.ones 8). rewrite N.ones_spec_low, andb_true_r by done.
    destruct (N.eqb_spec i 0) as [->|Hne]; [by rewrite N.shiftl_spec_low|].
    rewrite N.shiftl_spec_high'; [done|lia].
  - destruct (N.testbit v 7); [done|]. by rewrite N.bits_0.
Qed.
Lemma xtime_ok v : keval (aes_xtime (bits 8 v)) = Ret (bits 8 (Fips197.xtime v)).
Proof.
  rewrite !bits_testbit. cbn [seq fmap list_fmap]. rewrite !xtime_testbit by reflexivity.
  cbn -[N.testbit]. change (N.testbit 27 0) with true. change (N.testbit 27 1) with true.
  change (N.testbit 27 2) with false. change (N.testbit 27 3) with true.
  change (N.testbit 27 4) with true. change (N.testbit 27 5) with false.
  change (N.testbit 27 6) with false. change (N.testbit 27 7) with false.
  rewrite !andb_true_r, !andb_false_r, !xorb_false_r, ?xorb_false_l. done.
Qed.

Lemma gf_mul_1 a : Fips197.gf_mul a 1 = a.
Proof. unfold Fips197.gf_mul. simpl. by destruct a. Qed.
Lemma gf_mul_2 a : Fips197.gf_mul a 2 = Fips197.xtime a.
Proof. unfold Fips197.gf_mul. simpl. by rewrite N.lxor_0_r. Qed.
Lemma gf_mul_3 a : Fips197.gf_mul a 3 = N.lxor (Fips197.xtime a) a.
Proof. unfold Fips197.gf_mul. simpl. done. Qed.
Lemma xtime_lxor a b : Fips197.xtime (N.lxor a b) = N.lxor (Fips197.xtime a) (Fips197.xtime b).
Proof.
  unfold Fips197.xtime. rewrite N.shiftl_lxor, N.lxor_spec. apply N.bits_inj. intros i.
  rewrite !N.lxor_spec, !N.land_spec, N.lxor_spec.
  destruct (N.testbit a 7), (N.testbit b 7); cbn [xorb]; rewrite ?N.bits_0;
    generalize (N.testbit 255 i) as m, (N.testbit 27 i) as p; intros [] [];
    by destruct (N.testbit (N.shiftl a 1) i), (N.testbit (N.shiftl b 1) i).
Qed.

(** A bit of each of the four bytes of a column, and the loops over the bits. *)
Definition quad (A B C D : N) (i : nat) : (bool * bool) * (bool * bool) :=
  let t v := N.testbit v (N.of_nat i) in ((t A, t B), (t C, t D)).
Lemma zip_quad A B C D :
  zip (zip (bits 8 A) (bits 8 B)) (zip (bits 8 C) (bits 8 D)) = quad A B C D <$> seq 0 8.
Proof. by rewrite !bits_testbit. Qed.
Lemma column_sums_ok A B C D l :
  keval (kmap column_sums (quad A B C D <$> l)) =
    Ret ((λ i, (N.testbit (N.lxor (N.lxor A B) (N.lxor C D)) (N.of_nat i),
      quad (N.lxor A B) (N.lxor B C) (N.lxor C D) (N.lxor D A) i)) <$> l).
Proof.
  apply keval_kmap_all, Forall_forall. intros i _. cbn. unfold quad. by rewrite !N.lxor_spec.
Qed.
Lemma column_outs_ok T A B C D A' B' C' D' l :
  keval (kmap column_outs ((λ i, ((N.testbit T (N.of_nat i), quad A' B' C' D' i), quad A B C D i)) <$> l)) =
    Ret (quad (N.lxor A (N.lxor T A')) (N.lxor B (N.lxor T B')) (N.lxor C (N.lxor T C'))
      (N.lxor D (N.lxor T D')) <$> l).
Proof.
  apply keval_kmap_all, Forall_forall. intros i _. cbn. unfold quad. by rewrite !N.lxor_spec.
Qed.

Lemma proj_bits {X} (f : nat → X) (p : X → bool) v :
  (∀ i, p (f i) = N.testbit v (N.of_nat i)) → p <$> (f <$> seq 0 8) = bits 8 v.
Proof.
  intros Hp. rewrite bits_testbit, <- list_fmap_compose. apply list_fmap_ext. intros ? i _. apply Hp.
Qed.

Lemma mix_column_ok A B C D :
  keval (mix_column (unbytes [A; B; C; D])) = Ret (unbytes (Fips197.mix_column [A; B; C; D])).
Proof.
  unfold mix_column. rewrite !byte_at_unbytes by (simpl; lia).
  cbn [get lookup list_lookup default id].
  rewrite zip_quad, keval_bind, column_sums_ok. cbn [mbind outcome_bind].
  set (T := N.lxor (N.lxor A B) (N.lxor C D)).
  rewrite (proj_bits _ (λ s, s.2.1.1) (N.lxor A B)), keval_bind, xtime_ok by done. cbn [mbind outcome_bind].
  rewrite (proj_bits _ (λ s, s.2.1.2) (N.lxor B C)), keval_bind, xtime_ok by done. cbn [mbind outcome_bind].
  rewrite (proj_bits _ (λ s, s.2.2.1) (N.lxor C D)), keval_bind, xtime_ok by done. cbn [mbind outcome_bind].
  rewrite (proj_bits _ (λ s, s.2.2.2) (N.lxor D A)), keval_bind, xtime_ok by done. cbn [mbind outcome_bind].
  rewrite (proj_bits _ _ T), zip_quad by done.
  assert (∀ f g : nat → (bool * bool) * (bool * bool), zip (zip (bits 8 T) (f <$> seq 0 8)) (g <$> seq 0 8) =
    (λ i, ((N.testbit T (N.of_nat i), f i), g i)) <$> seq 0 8) as Hz
    by (intros; by rewrite bits_testbit).
  rewrite Hz, keval_bind, column_outs_ok. cbn [mbind outcome_bind keval mret Kernel_ret]. f_equal.
  transitivity (unbytes [N.lxor A (N.lxor T (Fips197.xtime (N.lxor A B)));
    N.lxor B (N.lxor T (Fips197.xtime (N.lxor B C)));
    N.lxor C (N.lxor T (Fips197.xtime (N.lxor C D)));
    N.lxor D (N.lxor T (Fips197.xtime (N.lxor D A)))]).
  { unfold unbytes. cbn [mbind list_bind]. rewrite app_nil_r. repeat f_equal; by apply proj_bits. }
  f_equal. unfold Fips197.mix_column, Fips197.mix_row. cbn [fmap list_fmap zip_with foldr].
  rewrite !gf_mul_1, !gf_mul_2, !gf_mul_3, !xtime_lxor. subst T.
  apply (f_equal2 cons); [|apply (f_equal2 cons); [|apply (f_equal2 cons); [|apply (f_equal2 cons);
    [|done]]]]; apply N.bits_inj; intros i; rewrite !N.lxor_spec, ?N.bits_0; btauto.
Qed.

Lemma xtime_lt v : (Fips197.xtime v < 256)%N.
Proof.
  apply (lxor_lt _ _ 8); [|by destruct (N.testbit v 7)].
  change 0xff%N with (N.ones 8). rewrite N.land_ones. by apply N.mod_lt.
Qed.
Lemma byte_list_mix_column l : byte_list 4 l → byte_list 4 (Fips197.mix_column l).
Proof.
  intros (A & B & C & D & -> & HA & HB & HC & HD)%byte_list_4. split; [done|].
  unfold Fips197.mix_column, Fips197.mix_row. cbn [fmap list_fmap zip_with foldr].
  rewrite !gf_mul_1, !gf_mul_2, !gf_mul_3.
  pose proof (xtime_lt A). pose proof (xtime_lt B). pose proof (xtime_lt C). pose proof (xtime_lt D).
  repeat (constructor; [repeat (apply (lxor_lt _ _ 8); [done|]);
    repeat first [done|apply (lxor_lt _ _ 8)]|]). constructor.
Qed.
Lemma byte_list_mix_columns s : byte_list 16 s → byte_list 16 (Fips197.mix_columns s).
Proof.
  intros Hs. apply (flatten_byte_list 4 4); [done|]. apply Forall_fmap, Forall_forall.
  intros c [_ Hc]%elem_of_seq. apply byte_list_mix_column.
  apply (byte_list_take_drop _ _ 16); [done|lia].
Qed.
Lemma byte_list_shift_rows s : byte_list 16 s → byte_list 16 (Fips197.shift_rows s).
Proof.
  intros Hs. split; [done|]. apply Forall_fmap, Forall_forall. intros i _. by eapply get_lt.
Qed.
Lemma mix_columns_ok s : byte_list 16 s →
  keval (mix_columns (unbytes s)) = Ret (unbytes (Fips197.mix_columns s)).
Proof.
  intros Hs. unfold mix_columns. rewrite keval_bind.
  rewrite (keval_kmap_in _ (λ c, unbytes (Fips197.mix_column (Fips197.column s c)))).
  - cbn [mbind outcome_bind keval mret Kernel_ret]. unfold Fips197.mix_columns.
    by rewrite <- flatten_unbytes.
  - intros c [_ Hc]%elem_of_seq. rewrite word_at_unbytes.
    destruct (byte_list_4 (Fips197.column s c)) as (A & B & C & D & -> & _).
    { apply (byte_list_take_drop _ _ 16); [done|lia]. }
    apply mix_column_ok.
Qed.

(** ** The key schedule *)
Lemma rcon_table r : (1 ≤ r ≤ 10)%nat →
  Fips197.rcon r = [default 0%N (Rcon !! r); 0; 0; 0]%N ∧ (default 0 (Rcon !! r) < 256)%N.
Proof. intros [H1 H2]. do 11 (destruct r as [|r]; [try lia; by vm_compute|]). lia. Qed.
Lemma add_rcon_ok r v :
  keval (add_rcon r (bits 8 v)) = Ret (bits 8 (N.lxor v (default 0%N (Rcon !! r)))).
Proof.
  unfold add_rcon. set (k := default 0%N (Rcon !! r)). rewrite !bits_testbit.
  transitivity (keval (kmap (λ i, if N.testbit k (N.of_nat i) then knot (N.testbit v (N.of_nat i))
    else mret (N.testbit v (N.of_nat i))) (seq 0 8))); [done|].
  apply keval_kmap_in. intros i _. rewrite N.lxor_spec.
  destruct (N.testbit k (N.of_nat i)); [by rewrite xorb_true_r|by rewrite xorb_false_r].
Qed.

(** Four words from four words. *)
Definition next_four (r : nat) (a b c d : list N) : list (list N) :=
  let w0 := Fips197.xor a (Fips197.xor (Fips197.sub_bytes (Fips197.rot_word d)) (Fips197.rcon r)) in
  let w1 := Fips197.xor w0 b in
  let w2 := Fips197.xor w1 c in
  [w0; w1; w2; Fips197.xor w2 d].

Lemma column_flatten (l : list (list N)) w k :
  Forall (λ x, length x = 4%nat) l → l !! k = Some w → Fips197.column (flatten l) k = w.
Proof.
  intros Hl. revert k. induction Hl as [|x l Hx _ IH]; [done|].
  intros [|k] Hk; [injection Hk as ->|change (l !! k = Some w) in Hk].
  - unfold Fips197.column. by rewrite flatten_cons, Nat.mul_0_r, drop_0, take_app_length'.
  - unfold Fips197.column in *. rewrite <- (IH k) by done.
    replace (4 * S k)%nat with (length x + 4 * k)%nat by lia.
    by rewrite flatten_cons, drop_app_add.
Qed.

Lemma key_word_ok prev ws u v :
  Forall (λ x, length x = 4%nat) prev → Forall (λ x, length x = 4%nat) ws →
  last ws = Some u → prev !! length ws = Some v →
  keval (cw ← kmap2 kxor (word_at (unbytes (flatten ws)) (length ws - 1))
           (word_at (unbytes (flatten prev)) (length ws));
         mret (unbytes (flatten ws) ++ cw)) =
  Ret (unbytes (flatten (ws ++ [Fips197.xor u v]))).
Proof.
  intros Hp Hws Hu Hv. rewrite last_lookup in Hu.
  rewrite !word_at_unbytes, (column_flatten ws u), (column_flatten prev v) by
    (done || by rewrite <- Hu; f_equal; lia).
  rewrite keval_bind, keval_xors. cbn [mbind outcome_bind keval mret Kernel_ret]. f_equal.
  rewrite <- unbytes_app. f_equal. rewrite join_app. f_equal. symmetry. apply app_nil_r.
Qed.

Lemma key_round_ok r a b c d : (1 ≤ r ≤ 10)%nat →
  byte_list 4 a → byte_list 4 b → byte_list 4 c → byte_list 4 d →
  keval (key_round (unbytes (flatten [a; b; c; d])) r) =
    Ret (unbytes (flatten (next_four r a b c d))).
Proof.
  intros Hr Ha Hb Hc Hd. set (prev := [a; b; c; d]).
  assert (Forall (λ x, length x = 4%nat) prev) as Hp
    by (repeat (constructor; [by apply Ha || by apply Hb || by apply Hc || by apply Hd|]); constructor).
  destruct (rcon_table r Hr) as [Hrc _].
  assert (byte_list 4 (Fips197.rcon r)) as Hrb.
  { rewrite Hrc. split; [done|]. pose proof (rcon_table r Hr) as [_ ?]. by repeat constructor. }
  unfold key_round. rewrite keval_bind.
  destruct (byte_list_4 _ Hd) as (d0&d1&d2&d3&->&Hd0&Hd1&Hd2&Hd3).
  assert ((λ b, byte_at (unbytes (flatten prev)) (12 + Nat.land (b + 1) 3)) <$> seq 0 4 =
    bits 8 <$> [d1; d2; d3; d0]) as ->.
  { cbn [seq fmap list_fmap].
    destruct (byte_list_4 _ Ha) as (?&?&?&?&->&_), (byte_list_4 _ Hb) as (?&?&?&?&->&_),
      (byte_list_4 _ Hc) as (?&?&?&?&->&_).
    rewrite !byte_at_unbytes by (apply Nat.ltb_lt; reflexivity). done. }
  rewrite (keval_kmap_all _ _ (λ v, bits 8 (Fips197.sbox v)))
    by (repeat (constructor; [by apply sbox_ok|]); constructor).
  cbn [mbind outcome_bind fmap list_fmap head tail default id].
  rewrite keval_bind, add_rcon_ok. cbn [mbind outcome_bind].
  set (t := Fips197.xor (Fips197.sub_bytes (Fips197.rot_word [d0; d1; d2; d3])) (Fips197.rcon r)).
  assert (bits 8 (N.lxor (Fips197.sbox d1) (default 0%N (Rcon !! r))) ++
    flatten [bits 8 (Fips197.sbox d2); bits 8 (Fips197.sbox d3); bits 8 (Fips197.sbox d0)] =
    unbytes t) as ->.
  { subst t. rewrite Hrc. cbn. by rewrite !N.lxor_0_r. }
  rewrite keval_bind, word_at_unbytes, (column_flatten prev a) by done.
  rewrite keval_xors. cbn [mbind outcome_bind seq].
  assert (byte_list 4 t) as Ht.
  { apply byte_list_xor; [apply byte_list_sub|done]. split; [done|]. by repeat constructor. }
  set (w0 := Fips197.xor a t). assert (length w0 = 4%nat) as Hw0 by (by apply byte_list_xor).
  set (w1 := Fips197.xor w0 b). assert (length w1 = 4%nat) as Hw1.
  { unfold w1, Fips197.xor. rewrite length_zip_with. destruct Hb as [-> _]. lia. }
  set (w2 := Fips197.xor w1 c). assert (length w2 = 4%nat) as Hw2.
  { unfold w2, Fips197.xor. rewrite length_zip_with. destruct Hc as [-> _]. lia. }
  replace (unbytes w0) with (unbytes (flatten [w0]))
    by (cbn [mjoin list_join]; by rewrite app_nil_r).
  pose proof (key_word_ok prev [w0] w0 b Hp) as H1.
  pose proof (key_word_ok prev [w0; w1] w1 c Hp) as H2.
  pose proof (key_word_ok prev [w0; w1; w2] w2 [d0; d1; d2; d3] Hp) as H3.
  cbn [length app] in H1, H2, H3. fold w1 in H1. fold w2 in H2. cbn [kfold].
  rewrite keval_bind, H1 by (done || by repeat constructor). cbn [mbind outcome_bind].
  rewrite keval_bind, H2 by (done || by repeat constructor). cbn [mbind outcome_bind].
  rewrite keval_bind, H3 by (done || by repeat constructor). done.
Qed.

Lemma xor_comm a b : Fips197.xor a b = Fips197.xor b a.
Proof.
  unfold Fips197.xor. revert b. induction a as [|x a IH]; intros [|y b]; try done.
  simpl. by rewrite N.lxor_comm, IH.
Qed.
(** The word sequence of FIPS-197, four words at a time. *)
Lemma iter_next_four l a b c d r :
  length l = (4 * (r - 1))%nat → (1 ≤ r)%nat →
  Nat.iter 4 (λ ws, ws ++ [Fips197.next_word ws]) (l ++ [a; b; c; d]) =
    (l ++ [a; b; c; d]) ++ next_four r a b c d.
Proof.
  intros Hl Hr. cbn [Nat.iter nat_rect].
  assert (∀ m : list (list N), Fips197.next_word ((l ++ [a; b; c; d]) ++ m) =
    let i := (4 * r + length m)%nat in
    let temp := default [] (([a; b; c; d] ++ m) !! (3 + length m)%nat) in
    let temp := if Nat.eqb (i mod 4) 0
                then Fips197.xor (Fips197.sub_bytes (Fips197.rot_word temp)) (Fips197.rcon (i / 4))
                else temp in
    Fips197.xor (default [] (([a; b; c; d] ++ m) !! length m)) temp) as Hn.
  { intros m. unfold Fips197.next_word. rewrite <- app_assoc, !length_app, Hl.
    replace (4 * (r - 1) + (length [a; b; c; d] + length m))%nat with (4 * r + length m)%nat
      by (simpl; lia).
    rewrite (lookup_app_r l _ (4 * r + length m - 1)), (lookup_app_r l _ (4 * r + length m - 4)) by lia.
    rewrite Hl. replace (4 * r + length m - 1 - 4 * (r - 1))%nat with (3 + length m)%nat by lia.
    by replace (4 * r + length m - 4 - 4 * (r - 1))%nat with (length m) by lia. }
  assert (∀ j, (j < 4)%nat → (4 * r + j) mod 4 = j)%nat as Hmod.
  { intros j Hj. rewrite Nat.add_comm, Nat.mul_comm, Nat.Div0.mod_add. by apply Nat.mod_small. }
  assert ((4 * r + 0) / 4 = r)%nat as Hdiv by (rewrite Nat.add_0_r, Nat.mul_comm; by apply Nat.div_mul).
  pose proof (Hn []) as H0. cbn [length] in H0. rewrite app_nil_r, Hmod, Hdiv in H0 by lia.
  rewrite H0. clear H0. cbn [Nat.eqb]. set (w0 := Fips197.xor (default [] _) _).
  pose proof (Hn [w0]) as H1. cbn [length] in H1. rewrite Hmod in H1 by lia.
  rewrite H1, <- (app_assoc _ [w0]). clear H1. cbn [Nat.eqb]. set (w1 := Fips197.xor (default [] _) _).
  pose proof (Hn [w0; w1]) as H2. cbn [length] in H2. rewrite Hmod in H2 by lia.
  change ([w0] ++ [w1]) with [w0; w1].
  rewrite H2, <- (app_assoc _ [w0; w1]). clear H2. cbn [Nat.eqb]. set (w2 := Fips197.xor (default [] _) _).
  pose proof (Hn [w0; w1; w2]) as H3. cbn [length] in H3. rewrite Hmod in H3 by lia.
  change ([w0; w1] ++ [w2]) with [w0; w1; w2].
  rewrite H3, <- (app_assoc _ [w0; w1; w2]). clear H3. cbn [Nat.eqb]. f_equal.
  unfold next_four. subst w2 w1 w0. cbn -[Fips197.xor Fips197.sub_bytes Fips197.rot_word].
  by rewrite (xor_comm b), (xor_comm c), (xor_comm d).
Qed.

Lemma byte_list_next_four r a b c d : (1 ≤ r ≤ 10)%nat →
  byte_list 4 a → byte_list 4 b → byte_list 4 c → byte_list 4 d →
  Forall (byte_list 4) (next_four r a b c d).
Proof.
  intros Hr Ha Hb Hc Hd. destruct (rcon_table r Hr) as [Hrc Hlt].
  assert (byte_list 4 (Fips197.rcon r)) by (rewrite Hrc; split; [done|by repeat constructor]).
  assert (byte_list 4 (Fips197.rot_word d)).
  { destruct (byte_list_4 _ Hd) as (?&?&?&?&->&?&?&?&?). split; [done|]. by repeat constructor. }
  unfold next_four. repeat (constructor; [by repeat first [apply byte_list_xor|apply byte_list_sub]|]).
  constructor.
Qed.

(** The words after [r] rounds. *)
Definition words (key : list N) (r : nat) : list (list N) :=
  Nat.iter (4 * r) (λ ws, ws ++ [Fips197.next_word ws]) (Fips197.column key <$> seq 0 4).
Lemma key_words_eq key : Fips197.key_words key = words key 10.
Proof. unfold words. change (4 * 10)%nat with 40%nat. reflexivity. Qed.
Record words_ok (r : nat) (ws : list (list N)) : Prop := {
  wo_length : length ws = (4 * (r + 1))%nat;
  wo_bytes : Forall (byte_list 4) ws }.

Lemma words_0_ok key : byte_list 16 key → words_ok 0 (words key 0) ∧ flatten (words key 0) = key.
Proof.
  intros Hk. split; [split; [done|]|].
  - apply Forall_fmap, Forall_forall. intros c [_ Hc]%elem_of_seq.
    apply (byte_list_take_drop _ _ 16); [done|lia].
  - destruct Hk as [Hl _]. do 16 (destruct key as [|? key]; [done|]). by destruct key.
Qed.
Lemma last_four {A} (ws : list A) n : length ws = (4 * (n + 1))%nat →
  ∃ l a b c d, ws = l ++ [a; b; c; d] ∧ length l = (4 * n)%nat.
Proof.
  intros Hl. assert (length (drop (4 * n) ws) = 4%nat) as H4 by (rewrite length_drop; lia).
  destruct (drop (4 * n) ws) as [|a [|b [|c [|d []]]]] eqn:E; try done.
  exists (take (4 * n) ws), a, b, c, d. rewrite <- E, take_drop, length_take. split; [done|lia].
Qed.
Lemma words_S key r l a b c d : words key r = l ++ [a; b; c; d] → length l = (4 * r)%nat →
  words key (S r) = words key r ++ next_four (S r) a b c d.
Proof.
  intros Hw Hl. unfold words at 1. replace (4 * S r)%nat with (4 + 4 * r)%nat by lia.
  rewrite Nat.iter_add. fold (words key r). rewrite Hw. apply iter_next_four; lia.
Qed.
Lemma key_round_words key r : (r < 10)%nat → words_ok r (words key r) →
  keval (key_round (round_key (unbytes (flatten (words key r))) r) (S r)) =
    Ret (unbytes (flatten (drop (4 * (r + 1)) (words key (S r))))) ∧
  words_ok (S r) (words key (S r)) ∧ take (4 * (r + 1)) (words key (S r)) = words key r.
Proof.
  intros Hr [Hl Hf]. destruct (last_four _ _ Hl) as (l & a & b & c & d & Hw & Hll).
  rewrite (words_S _ _ _ _ _ _ _ Hw Hll), take_app_length', drop_app_length' by done.
  rewrite Hw in Hf. apply Forall_app in Hf as [Hfl Hf4]. pose proof Hf4 as Hf.
  rewrite !Forall_cons in Hf. destruct Hf as (Ha & Hb & Hc & Hd & _). split; [|split; [split|done]].
  - rewrite round_key_unbytes, Hw, join_app.
    assert (length (flatten l) = (16 * r)%nat) as Hfll.
    { destruct (flatten_byte_list 4 _ l eq_refl Hfl) as [-> _]. lia. }
    rewrite drop_app_length', take_ge by (done || destruct (flatten_byte_list 4 4 [a; b; c; d] eq_refl
      Hf4) as [-> _]; lia).
    apply key_round_ok; try done. lia.
  - rewrite length_app, Hl. simpl. lia.
  - apply Forall_app. split; [|apply byte_list_next_four; try done; lia].
    rewrite Hw. by apply Forall_app.
Qed.

Lemma key_schedule_ok key : byte_list 16 key →
  keval (aes128_key_schedule (unbytes key)) = Ret (unbytes (flatten (words key 10))) ∧
  words_ok 10 (words key 10).
Proof.
  intros Hk. destruct (words_0_ok key Hk) as [H0 Hk0]. unfold aes128_key_schedule. rewrite keval_fold.
  destruct (foldO_inv (λ expanded r, keval (cur ← key_round (round_key expanded (r - 1)) r;
      mret (expanded ++ cur))) (seq 1 10)
    (λ don e, e = unbytes (flatten (words key (length don))) ∧
      words_ok (length don) (words key (length don))) (unbytes key)) as (e & He & -> & Hw).
  - cbn [length]. by rewrite Hk0.
  - intros don r todo e Hseq [-> Hw].
    assert (seq 1 10 !! length don = Some r) as [-> Hr]%lookup_seq
      by (rewrite Hseq; by apply list_lookup_middle).
    destruct (key_round_words key (length don) Hr Hw) as (Hround & Hw' & Htake).
    eexists. rewrite length_app, Nat.add_1_r. split; [|split; [reflexivity|done]].
    rewrite keval_bind. replace (1 + length don - 1)%nat with (length don) by lia.
    change (1 + length don)%nat with (S (length don)). rewrite Hround.
    cbn [mbind outcome_bind keval mret Kernel_ret]. f_equal.
    rewrite <- Htake at 1. by rewrite <- unbytes_app, <- join_app, take_drop.
  - done.
Qed.

(** ** The cipher *)
Lemma spec_round_key key r : byte_list 16 key → (r ≤ 10)%nat →
  round_key (unbytes (flatten (words key 10))) r = unbytes (Fips197.round_key key r) ∧
  byte_list 16 (Fips197.round_key key r).
Proof.
  intros Hk Hr. destruct (key_schedule_ok key Hk) as [_ [Hl Hf]].
  unfold Fips197.round_key. rewrite key_words_eq.
  rewrite round_key_unbytes. split.
  - f_equal. rewrite <- (take_drop (4 * r) (words key 10)) at 1. rewrite join_app.
    destruct (flatten_byte_list 4 (4 * r) (take (4 * r) (words key 10))) as [Hlt _].
    { rewrite length_take. lia. }
    { by apply Forall_take. }
    rewrite drop_app_length' by lia.
    rewrite <- (take_drop 4 (drop (4 * r) (words key 10))) at 1. rewrite join_app.
    apply take_app_length'. symmetry.
    apply (flatten_byte_list 4 4); [rewrite length_take, length_drop; lia|].
    by apply Forall_take, Forall_drop.
  - apply (flatten_byte_list 4 4); [rewrite length_take, length_drop; lia|].
    by apply Forall_take, Forall_drop.
Qed.
Lemma aes_round_ok key s r : byte_list 16 key → byte_list 16 s → (r ≤ 10)%nat →
  keval (aes_round (unbytes (flatten (words key 10))) (unbytes s) r) =
    Ret (unbytes (Fips197.round key s r)) ∧ byte_list 16 (Fips197.round key s r).
Proof.
  intros Hk Hs Hr. destruct (spec_round_key key r Hk Hr) as [Hrk Hrb].
  pose proof (byte_list_shift_rows _ (byte_list_sub _ _ Hs)) as Hsr.
  unfold aes_round, Fips197.round. rewrite keval_bind, sub_bytes_ok by done.
  cbn [mbind outcome_bind]. rewrite keval_bind, shift_rows_ok by (by apply byte_list_sub).
  destruct (Nat.eqb r 10).
  - cbn [mbind outcome_bind keval mret Kernel_ret]. rewrite Hrk, keval_xors.
    split; [done|]. by apply byte_list_xor.
  - rewrite mix_columns_ok by done. cbn [mbind outcome_bind]. rewrite Hrk, keval_xors.
    split; [done|]. by apply byte_list_xor; [apply byte_list_mix_columns|].
Qed.
Lemma encrypt_block_ok key pt : byte_list 16 key → byte_list 16 pt →
  keval (aes128_encrypt_block (unbytes pt) (unbytes (flatten (words key 10)))) =
    Ret (unbytes (Fips197.encrypt pt key)) ∧ byte_list 16 (Fips197.encrypt pt key).
Proof.
  intros Hk Hp. unfold aes128_encrypt_block, Fips197.encrypt.
  destruct (spec_round_key key 0 Hk) as [Hrk Hrb]; [lia|].
  rewrite keval_bind, Hrk, keval_xors. cbn [mbind outcome_bind]. rewrite keval_fold.
  destruct (foldO_inv (λ s r, keval (aes_round (unbytes (flatten (words key 10))) s r)) (seq 1 10)
    (λ don e, let s := foldl (Fips197.round key) (Fips197.xor pt (Fips197.round_key key 0)) don in
      e = unbytes s ∧ byte_list 16 s)
    (unbytes (Fips197.xor pt (Fips197.round_key key 0)))) as (e & He & -> & Hs).
  - split; [done|]. by apply byte_list_xor.
  - intros don r todo e Hseq [-> Hs].
    assert (seq 1 10 !! length don = Some r) as [-> Hr]%lookup_seq
      by (rewrite Hseq; by apply list_lookup_middle).
    rewrite foldl_app. cbn [foldl].
    destruct (aes_round_ok key _ (1 + length don) Hk Hs) as [Hround Hb]; [lia|]. eauto.
  - done.
Qed.
Lemma aes128_encrypt_ok key pt : byte_list 16 key → byte_list 16 pt →
  keval (aes128_encrypt (unbytes pt) (unbytes key)) = Ret (unbytes (Fips197.encrypt pt key)).
Proof.
  intros Hk Hp. unfold aes128_encrypt. rewrite keval_bind.
  destruct (key_schedule_ok key Hk) as [-> _]. by apply encrypt_block_ok.
Qed.

(** ** Counter mode *)
Lemma byte_list_counter iv i : byte_list 16 iv → byte_list 16 (Fips197.counter_block iv i).
Proof.
  intros Hiv. apply (byte_list_app 8 8); [|apply byte_list_be].
  apply (byte_list_take_drop 8 0 16); [done|lia].
Qed.
Lemma counter_block_0 iv : byte_list 16 iv → Fips197.counter_block iv 0 = iv.
Proof.
  intros Hiv. destruct (byte_list_take_drop 8 8 16 iv Hiv) as [Hl Hf]; [lia|].
  rewrite take_ge in Hl, Hf by (rewrite length_drop; destruct Hiv as [-> _]; lia).
  unfold Fips197.counter_block. rewrite N.add_0_r.
  change (2 ^ 64)%N with (256 ^ N.of_nat 8)%N. rewrite be_bytes_mod by done.
  pose proof (be_bytes_value _ Hf) as Hb. rewrite Hl in Hb. rewrite Hb. apply take_drop.
Qed.
Lemma counter_block_add iv i j : byte_list 16 iv →
  Fips197.counter_block (Fips197.counter_block iv i) j = Fips197.counter_block iv (i + j).
Proof.
  intros [Hl _]. unfold Fips197.counter_block.
  assert (length (take 8 iv) = 8%nat) as Ht by (rewrite length_take; lia).
  rewrite take_app_length', drop_app_length' by done. do 2 f_equal.
  rewrite be_value_bytes. change (256 ^ N.of_nat 8)%N with (2 ^ 64)%N.
  rewrite N.Div0.mod_mod, N.Div0.add_mod_idemp_l. f_equal. lia.
Qed.

Lemma ctr_inc_ok blk delta : byte_list 16 blk → (delta < 2 ^ 64)%N →
  keval (ctr_inc_be64 (unbytes blk) delta) = Ret (unbytes (Fips197.counter_block blk delta)).
Proof.
  intros Hb Hd. unfold ctr_inc_be64. destruct (N.eqb_spec delta 0) as [->|_].
  { cbn [keval mret Kernel_ret]. by rewrite counter_block_0. }
  destruct (byte_list_take_drop 8 8 16 blk Hb) as [Hl Hf]; [lia|].
  rewrite take_ge in Hl, Hf by (rewrite length_drop; destruct Hb as [-> _]; lia).
  assert (flatten ((λ byte, byte_at (unbytes blk) (15 - byte)) <$> seq 0 8) =
    unbytes (reverse (drop 8 blk))) as ->.
  { destruct Hb as [Hb _]. cbn [seq fmap list_fmap]. rewrite !byte_at_unbytes by (rewrite Hb; lia).
    do 16 (destruct blk as [|? blk]; [done|]). destruct blk; [|done]. reflexivity. }
  destruct (constant_ok 64 delta Hd) as (z & Hz & Hlz & Hvz). rewrite keval_bind, Hz.
  cbn [mbind outcome_bind]. unfold UInt.add.
  assert (length (unbytes (reverse (drop 8 blk))) = 64%nat) as H64
    by (rewrite length_unbytes, length_reverse, Hl; done).
  destruct (keval_ripple_add (unbytes (reverse (drop 8 blk))) z) as (s & Hs & Hls & Hvs); [congruence|].
  rewrite keval_bind, keval_guard, Hs by congruence. cbn [mbind outcome_bind keval mret Kernel_ret].
  rewrite H64 in Hls, Hvs. rewrite bval_be_value, Hvz, N.Div0.add_mod_idemp_r in Hvs by done.
  assert (s = bits 64 (bval s)) as Hsb
    by (pose proof (bits_bval s) as Hbs; rewrite Hls in Hbs; by symmetry).
  f_equal. unfold Fips197.counter_block. rewrite unbytes_app. f_equal; [apply (take_unbytes 8)|].
  change (2 ^ 64)%N with (pow2 64). rewrite <- Hvs.
  assert (bval s < 2 ^ 64)%N as Hlt by (rewrite Hvs; by apply N.mod_lt).
  transitivity (flatten ((λ dst, byte_at (bits 64 (bval s)) (7 - dst)) <$> seq 0 8));
    [by rewrite <- Hsb|]. unfold be_bytes. rewrite <- flatten_bits. f_equal. apply list_fmap_ext.
  intros i ? [-> Hi]%lookup_seq. cbn [Nat.add].
  rewrite byte_at_bits by (done || lia). by replace (8 - 1 - i)%nat with (7 - i)%nat by lia.
Qed.

(** The stream of blocks [i], ..., [i + n - 1] after [iv]. *)
Definition keystream (key iv : list N) (i : N) (n : nat) : list bool :=
  unbytes (flatten ((λ k, Fips197.encrypt (Fips197.counter_block iv (i + N.of_nat k)) key) <$> seq 0 n)).
Lemma keystream_S key iv i n :
  keystream key iv i (S n) =
    unbytes (Fips197.encrypt (Fips197.counter_block iv i) key) ++ keystream key iv (i + 1) n.
Proof.
  unfold keystream. cbn [seq]. rewrite fmap_cons, flatten_cons, unbytes_app, N.add_0_r. do 3 f_equal.
  rewrite <- fmap_S_seq, <- list_fmap_compose. apply list_fmap_ext. intros ? k _. unfold compose.
  do 2 f_equal. lia.
Qed.
Lemma zip_with_app_short {A B D} (f : A → B → D) a b c :
  (length a ≤ length b)%nat → zip_with f a (b ++ c) = zip_with f a b.
Proof.
  revert b. induction a as [|x a IH]; intros [|y b] Hl; simpl in *; try done; [lia|].
  f_equal. apply IH. lia.
Qed.
Lemma ctr_loop_ok key iv fuel i inp n :
  byte_list 16 key → byte_list 16 iv → (length inp ≤ fuel)%nat → (length inp ≤ 128 * n)%nat →
  keval (ctr_loop fuel (unbytes (flatten (words key 10)))
    (unbytes (Fips197.counter_block iv i)) inp) = Ret (zip_with xorb inp (keystream key iv i n)).
Proof.
  intros Hk Hiv. revert i inp n. induction fuel as [|fuel IH]; intros i inp n Hf Hn.
  { destruct inp; [done|simpl in Hf; lia]. }
  cbn [ctr_loop]. destruct inp as [|b inp']; [done|]. set (inp := b :: inp') in *.
  change (is_nil inp) with false. cbv beta iota.
  destruct (encrypt_block_ok key (Fips197.counter_block iv i)) as [He [Hel _]];
    [done|by apply byte_list_counter|].
  rewrite keval_bind, He. cbn [mbind outcome_bind].
  rewrite keval_bind, (keval_kmap2 _ xorb) by done. cbn [mbind outcome_bind].
  assert (0 < length inp)%nat by (unfold inp; simpl; lia).
  destruct n as [|n]; [lia|]. rewrite keystream_S.
  set (ks := unbytes (Fips197.encrypt _ key)).
  assert (length ks = 128%nat) as Hks by (unfold ks; rewrite length_unbytes, Hel; done).
  assert (zip_with xorb inp (ks ++ keystream key iv (i + 1) n) =
    zip_with xorb (take 128 inp) ks ++ zip_with xorb (drop 128 inp) (keystream key iv (i + 1) n)) as ->.
  { destruct (decide (length inp ≤ 128)%nat).
    - rewrite (take_ge inp), (drop_ge inp) by done. rewrite zip_with_app_short by lia.
      by rewrite app_nil_r.
    - rewrite <- (take_drop 128 inp) at 1. apply zip_with_app. rewrite length_take. lia. }
  destruct (drop 128 inp) as [|b' rest'] eqn:Hrest; cbn [is_nil].
  { by rewrite app_nil_r. }
  rewrite <- Hrest. rewrite keval_bind, ctr_inc_ok, counter_block_add
    by (done || by apply byte_list_counter).
  cbn [mbind outcome_bind]. rewrite keval_bind, (IH _ _ n) by (rewrite length_drop; lia). done.
Qed.

(** ** Properties *)

(** C32: AES-128.  On every lawful context [aes128_encrypt] leaves wires denoting
    the FIPS-197 encryption of the plaintext under the key: the Boyar-Peralta
    S-box is inversion in GF(2^8) and the affine map, and the schedule, ShiftRows
    and MixColumns circuits are those of the standard, byte for byte. *)
Theorem aes128_encrypt_correct :
  computes2 (A := list) (@RL) (@aes128_encrypt)
    (λ pt key, length pt = 128%nat ∧ length key = 128%nat)
    (λ pt key z, z = unbytes (Fips197.encrypt (to_bytes pt) (to_bytes key))).
Proof.
  apply computes2_intro; [intros; by apply krel_aes128_encrypt|].
  intros pt key [Hp Hk]. destruct (to_bytes_ok 16 pt Hp) as [Hpb Hpu], (to_bytes_ok 16 key Hk) as [Hkb Hku].
  eexists. split; [|reflexivity]. rewrite <- Hpu at 1. rewrite <- Hku at 1.
  by apply aes128_encrypt_ok.
Qed.

(** C33: AES-128 in counter mode.  On every lawful context [aes128_ctr] leaves
    the input xored with the key stream of SP 800-38A: block [i] is the
    encryption of the initial block with its big-endian 64-bit counter (bytes 8
    to 15) advanced by [start_chunk + i] modulo [2^64], for any input length, a
    partial or absent last block included. *)
Theorem aes128_ctr_correct (start : N) :
  (start < 2 ^ 64)%N →
  computes3 (A := list) (@RL) (λ W key iv inp, aes128_ctr key iv inp start)
    (λ key iv inp, length key = 128%nat ∧ length iv = 128%nat)
    (λ key iv inp z, z = zip_with xorb inp
       (keystream (to_bytes key) (to_bytes iv) start ((length inp + 127) / 128))).
Proof.
  intros Hs. apply computes3_intro; [intros; by apply krel_aes128_ctr|].
  intros key iv inp [Hk Hv]. destruct (to_bytes_ok 16 key Hk) as [Hkb Hku], (to_bytes_ok 16 iv Hv) as [Hvb Hvu].
  eexists. split; [|reflexivity]. unfold aes128_ctr. rewrite <- Hku at 1.
  destruct (key_schedule_ok _ Hkb) as [Hks _]. rewrite keval_bind, Hks. cbn [mbind outcome_bind].
  rewrite <- Hvu at 1. rewrite keval_bind, ctr_inc_ok by done. cbn [mbind outcome_bind].
  apply ctr_loop_ok; try done.
  pose proof (Nat.div_mod_eq (length inp + 127) 128). pose proof (Nat.mod_upper_bound (length inp + 127) 128).
  lia.
Qed.
Lemma aes128_ctr_correct_witness :
  (7 < 2 ^ 64)%N ∧
  computes3 (A := list) (@RL) (λ W key iv inp, aes128_ctr key iv inp 7)
    (λ key iv inp, length key = 128%nat ∧ length iv = 128%nat)
    (λ key iv inp z, z = zip_with xorb inp
       (keystream (to_bytes key) (to_bytes iv) 7 ((length inp + 127) / 128))).
Proof. split; [reflexivity|apply (aes128_ctr_correct 7); reflexivity]. Defined.

(** The example of FIPS-197, appendix C.1. *)
Example fips197_c1 :
  Fips197.encrypt [0x00; 0x11; 0x22; 0x33; 0x44; 0x55; 0x66; 0x77;
                   0x88; 0x99; 0xaa; 0xbb; 0xcc; 0xdd; 0xee; 0xff]%N (N.of_nat <$> seq 0 16) =
  [0x69; 0xc4; 0xe0; 0xd8; 0x6a; 0x7b; 0x04; 0x30; 0xd8; 0xcd; 0xb7; 0x80; 0x70; 0xb4; 0xc5; 0x5a]%N.
Proof. vm_compute. reflexivity. Qed.
