(* ===== verification/Words.v ===== *)
(** * Words of a fixed width as numbers

    The word operations of [UInt] on the bits of a number, the rotations as
    kernels, reads of wire arrays, and the word functions of the standards the
    hash circuits implement.  A number stands for the word of its low bits. *)

From S2P Require Import Prelude Program Validate Context Execute Kernel Bits Bytes NumericKernels UInt.

(** ** Kernels *)
Section kernels.
Context {W : Type}.
(** A rotation only moves wires; of an empty word it would divide by zero. *)
Definition rot (o : option (list W)) : Kernel W (list W) :=
  match o with Some w => mret w | None => KFatal "rotation of an empty word" end.
Definition krotr (a : list W) (s : Z) : Kernel W (list W) := rot (UInt.rotr a s).
Definition krotl (a : list W) (s : Z) : Kernel W (list W) := rot (UInt.rotl a s).
(** [P[i]]. *)
Definition kget {A} (l : list A) (i : nat) : Kernel W A :=
  match l !! i with Some w => mret w | None => KFatal "array index out of range" end.
End kernels.

(** ** Parametricity *)
Section param.
Context {W1 W2 : Type}.
Implicit Types (R : wrel W1 W2).
Lemma mapM_rel R {A} (f1 : A → option W1) (f2 : A → option W2) l :
  (∀ x, option_Forall2 R (f1 x) (f2 x)) → option_Forall2 (Forall2 R) (mapM f1 l) (mapM f2 l).
Proof.
  intros Hf. induction l as [|x l IH]; [by repeat constructor|]. simpl.
  destruct (Hf x); [|constructor]. simpl. destruct IH; simpl; constructor. by constructor.
Qed.
Lemma krel_rot R o1 o2 : option_Forall2 (Forall2 R) o1 o2 → krel RL R (rot o1) (rot o2).
Proof. intros []; by constructor. Qed.
Lemma krel_krotr R a1 a2 s : Forall2 R a1 a2 → krel RL R (krotr a1 s) (krotr a2 s).
Proof.
  intros Ha. apply krel_rot. unfold UInt.rotr. rewrite (Forall2_length _ _ _ Ha).
  apply mapM_rel. intros i. by apply Forall2_lookup.
Qed.
Lemma krel_krotl R a1 a2 s : Forall2 R a1 a2 → krel RL R (krotl a1 s) (krotl a2 s).
Proof.
  intros Ha. apply krel_rot. unfold UInt.rotl. rewrite (Forall2_length _ _ _ Ha).
  apply mapM_rel. intros i. by apply Forall2_lookup.
Qed.
Lemma krel_kget {A1 A2} (RA : wrel W1 W2 → A1 → A2 → Prop) R l1 l2 i :
  Forall2 (RA R) l1 l2 → krel RA R (kget l1 i) (kget l2 i).
Proof.
  intros Hl. unfold kget. pose proof (proj1 (Forall2_lookup _ _ _) Hl i) as Hi.
  destruct Hi; by constructor.
Qed.

(** Related lists of words. *)
Definition RLL : wrel W1 W2 → list (list W1) → list (list W2) → Prop := λ R, Forall2 (RL R).
#[export] Instance RLL_mono : Mono RLL.
Proof. intros R R' a b Hs H. eapply Forall2_impl; [exact H|]. intros ? ?. by apply RL_mono. Qed.
Lemma krel_kget_word R l1 l2 i : RLL R l1 l2 → krel RL R (kget l1 i) (kget l2 i).
Proof. apply (krel_kget RL). Qed.
End param.
#[export] Hint Resolve krel_krotr krel_krotl krel_kget_word : kparam.
(** As [kmono], for lists of words; and a run of calls. *)
Ltac kmono2 := repeat match goal with
  | Hs : wsub ?R ?R', H : RLL ?R _ _ |- _ => apply (RLL_mono _ _ _ _ Hs) in H
  end; kmono.
Ltac kcalls := repeat lazymatch goal with
  | |- krel _ _ (mbind _ _) (mbind _ _) => eapply krel_bind; [solve [eauto with kparam]|
      let R' := fresh "R" in let Hs := fresh "Hs" in let Ha := fresh "Ha" in
      intros R' ? ? Hs Ha; kmono2; clear Hs; kdestruct]
  end.

(** ** Word functions on numbers *)
Definition ROTR (n : nat) (k x : N) : N :=
  N.lor (N.shiftr (x mod pow2 n) k) (N.shiftl x (N.of_nat n - k)).
Definition ROTL (n : nat) (k x : N) : N :=
  N.lor (N.shiftl x k) (N.shiftr (x mod pow2 n) (N.of_nat n - k)).
Definition SHR (n : nat) (k x : N) : N := N.shiftr (x mod pow2 n) k.
Definition NOT (n : nat) (x : N) : N := N.lxor x (N.ones (N.of_nat n)).

Lemma ROTR_testbit n k x i : (k < N.of_nat n)%N → (i < N.of_nat n)%N →
  N.testbit (ROTR n k x) i = N.testbit x ((i + k) mod N.of_nat n).
Proof.
  intros Hk Hi. unfold ROTR. rewrite N.lor_spec, N.shiftr_spec', testbit_mod.
  destruct (N.ltb_spec (i + k) (N.of_nat n)).
  - rewrite N.shiftl_spec_low, orb_false_r, N.mod_small by lia. done.
  - rewrite N.shiftl_spec_high' by lia. simpl. f_equal.
    rewrite <- (N.mod_unique (i + k) (N.of_nat n) 1 (i + k - N.of_nat n)) by lia. lia.
Qed.
Lemma ROTL_testbit n k x i : (k < N.of_nat n)%N → (i < N.of_nat n)%N →
  N.testbit (ROTL n k x) i = N.testbit x ((i + (N.of_nat n - k)) mod N.of_nat n).
Proof.
  intros Hk Hi. unfold ROTL. rewrite N.lor_spec, N.shiftr_spec', testbit_mod.
  destruct (N.ltb_spec (i + (N.of_nat n - k)) (N.of_nat n)).
  - rewrite N.shiftl_spec_low, N.mod_small by lia. done.
  - rewrite N.shiftl_spec_high' by lia. rewrite andb_false_l, orb_false_r. f_equal.
    apply (N.mod_unique _ _ 1); lia.
Qed.

(** ** The kernels on the bits of numbers *)
Section bits.
Implicit Types (a b : N).
Lemma word_xor n a b : keval (UInt.xor (bits n a) (bits n b)) = Ret (bits n (N.lxor a b)).
Proof.
  unfold UInt.xor. rewrite keval_guard by (by rewrite !length_bits).
  by rewrite (keval_kmap2 _ xorb), bits_lxor.
Qed.
Lemma bits_land n a b : bits n (N.land a b) = zip_with andb (bits n a) (bits n b).
Proof.
  apply list_eq. intros i. destruct (decide (i < n)%nat).
  - rewrite lookup_zip_with, !bits_lookup by done. simpl. by rewrite N.land_spec.
  - rewrite !lookup_ge_None_2; [done|rewrite length_zip_with, !length_bits; lia|rewrite length_bits; lia].
Qed.
Lemma word_and n a b : keval (UInt.and (bits n a) (bits n b)) = Ret (bits n (N.land a b)).
Proof.
  unfold UInt.and. rewrite keval_guard by (by rewrite !length_bits).
  by rewrite (keval_kmap2 _ andb), bits_land.
Qed.
Lemma word_not n a : keval (UInt.not (bits n a)) = Ret (bits n (NOT n a)).
Proof.
  unfold UInt.not. rewrite (keval_kmap _ negb) by done. f_equal. apply list_eq. intros i.
  rewrite list_lookup_fmap. destruct (decide (i < n)%nat).
  - rewrite !bits_lookup by done. simpl. unfold NOT. rewrite N.lxor_spec, N.ones_spec_low by lia.
    by rewrite xorb_true_r.
  - by rewrite !lookup_ge_None_2 by (rewrite length_bits; lia).
Qed.
Lemma word_add n a b : keval (UInt.add (bits n a) (bits n b)) = Ret (bits n (a + b)).
Proof.
  unfold UInt.add. rewrite keval_guard by (by rewrite !length_bits).
  destruct (keval_ripple_add (bits n a) (bits n b)) as (d & -> & Hl & Hv); [by rewrite !length_bits|].
  rewrite length_bits in Hl, Hv. f_equal. rewrite (bits_bval_eq n d Hl), Hv, !bval_bits.
  by rewrite <- N.Div0.add_mod, bits_mod.
Qed.
Lemma word_constant n v : (v < 2 ^ 64)%N → keval (UInt.constant n v) = Ret (bits n v).
Proof.
  intros Hv. destruct (constant_ok n v Hv) as (z & -> & Hl & Hz). f_equal.
  by rewrite (bits_bval_eq n z Hl), Hz, bits_mod.
Qed.
Lemma word_shr n k a : keval (UInt.shr (bits n a) (Z.of_N k)) = Ret (bits n (SHR n k a)).
Proof.
  destruct (shr_ok (bits n a) k) as (z & -> & Hl & Hz). rewrite length_bits in Hl. f_equal.
  unfold SHR. by rewrite (bits_bval_eq n z Hl), Hz, bval_bits, N.shiftr_div_pow2.
Qed.
Lemma mod_index (x : Z) (n : nat) : (0 < n)%nat → (0 ≤ x)%Z →
  (Z.to_nat (x mod Z.of_nat n) < n)%nat ∧
  N.of_nat (Z.to_nat (x mod Z.of_nat n)) = (Z.to_N x mod N.of_nat n)%N.
Proof.
  intros Hn Hx. pose proof (Z.mod_pos_bound x (Z.of_nat n)). split; [lia|].
  apply N2Z.inj. rewrite N2Z.inj_mod, nat_N_Z, Z2Nat.id, Z2N.id, nat_N_Z by lia. done.
Qed.
Lemma word_rotr n k a : (k < N.of_nat n)%N →
  keval (krotr (bits n a) (Z.of_N k)) = Ret (bits n (ROTR n k a)).
Proof.
  intros Hk. destruct (rotr_ok (bits n a) (Z.of_N k)) as (r & Hr & Hl & Hi).
  { intros Hnil. apply (f_equal length) in Hnil. rewrite length_bits in Hnil. simpl in Hnil. lia. }
  unfold krotr, rot. rewrite Hr. cbn. f_equal. rewrite length_bits in Hl, Hi.
  apply list_eq. intros i. destruct (decide (i < n)%nat).
  - destruct (mod_index (Z.of_nat i + Z.of_N k) n) as [Hlt Heq]; [lia..|].
    rewrite Hi, !bits_lookup by done. f_equal. rewrite ROTR_testbit by lia. rewrite Heq.
    do 2 f_equal. lia.
  - by rewrite !lookup_ge_None_2 by (rewrite ?length_bits; lia).
Qed.
Lemma word_rotl n k a : (k < N.of_nat n)%N →
  keval (krotl (bits n a) (Z.of_N k)) = Ret (bits n (ROTL n k a)).
Proof.
  intros Hk. destruct (rotl_ok (bits n a) (Z.of_N k)) as (r & Hr & Hl & Hi).
  { intros Hnil. apply (f_equal length) in Hnil. rewrite length_bits in Hnil. simpl in Hnil. lia. }
  unfold krotl, rot. rewrite Hr. cbn. f_equal. rewrite length_bits in Hl, Hi.
  apply list_eq. intros i. destruct (decide (i < n)%nat).
  - destruct (mod_index (Z.of_nat i - Z.of_N k + 1 * Z.of_nat n) n) as [Hlt Heq]; [lia..|].
    rewrite Z_mod_plus_full in Hlt, Heq.
    rewrite Hi, !bits_lookup by done. f_equal. rewrite ROTL_testbit by lia. rewrite Heq.
    do 2 f_equal. lia.
  - by rewrite !lookup_ge_None_2 by (rewrite ?length_bits; lia).
Qed.
Lemma kget_words n ws i : (i < length ws)%nat → keval (kget (bits n <$> ws) i) = Ret (bits n (get ws i)).
Proof.
  intros [w Hw]%lookup_lt_is_Some_2. unfold kget, get. by rewrite list_lookup_fmap, Hw.
Qed.
Lemma keval_kget {A} (l : list A) i x : l !! i = Some x → keval (A:=A) (kget l i) = Ret x.
Proof. intros H. unfold kget. by rewrite H. Qed.
End bits.
(** Run a kernel over the bits of numbers call by call. *)
Create Rewrite HintDb kword.
#[export] Hint Rewrite word_xor word_and word_not word_add : kword.
Ltac kword := repeat first
  [ rewrite keval_bind
  | progress (autorewrite with kword)
  | progress (cbn [mbind outcome_bind]) ].
