(* ===== verification/Sha256.v ===== *)
(** * SHA-256 (circuits/crypto/sha256.h)

    The hash circuit over 32-bit words, call by call; [Sha256Spec] says what it
    computes.  The operands of a C++ [^] or [+] may be
    evaluated in either order; the model takes them left to right. *)

From S2P Require Import Prelude Program Validate Context Execute Kernel Bits Bytes NumericKernels UInt Words.

Definition SHA256_K : list N :=
  [0x428A2F98; 0x71374491; 0xB5C0FBCF; 0xE9B5DBA5; 0x3956C25B; 0x59F111F1;
   0x923F82A4; 0xAB1C5ED5; 0xD807AA98; 0x12835B01; 0x243185BE; 0x550C7DC3;
   0x72BE5D74; 0x80DEB1FE; 0x9BDC06A7; 0xC19BF174; 0xE49B69C1; 0xEFBE4786;
   0x0FC19DC6; 0x240CA1CC; 0x2DE92C6F; 0x4A7484AA; 0x5CB0A9DC; 0x76F988DA;
   0x983E5152; 0xA831C66D; 0xB00327C8; 0xBF597FC7; 0xC6E00BF3; 0xD5A79147;
   0x06CA6351; 0x14292967; 0x27B70A85; 0x2E1B2138; 0x4D2C6DFC; 0x53380D13;
   0x650A7354; 0x766A0ABB; 0x81C2C92E; 0x92722C85; 0xA2BFE8A1; 0xA81A664B;
   0xC24B8B70; 0xC76C51A3; 0xD192E819; 0xD6990624; 0xF40E3585; 0x106AA070;
   0x19A4C116; 0x1E376C08; 0x2748774C; 0x34B0BCB5; 0x391C0CB3; 0x4ED8AA4A;
   0x5B9CCA4F; 0x682E6FF3; 0x748F82EE; 0x78A5636F; 0x84C87814; 0x8CC70208;
   0x90BEFFFA; 0xA4506CEB; 0xBEF9A3F7; 0xC67178F2]%N.
Definition SHA256_H0 : list N :=
  [0x6A09E667; 0xBB67AE85; 0x3C6EF372; 0xA54FF53A;
   0x510E527F; 0x9B05688C; 0x1F83D9AB; 0x5BE0CD19]%N.

(** Big-endian word, bit [b] of it, to the flat index within a block. *)
Definition sha256_word_bit_index (word b : nat) : nat := 8 * (4 * word + 3 - b / 8) + b mod 8.

(** ** The circuit *)
Section circuit.
Context {W : Type}.
#[local] Abbreviation word := (list W).

Definition sha256_ch (x y z : word) : Kernel W word :=
  t ← UInt.xor y z; t ← UInt.and x t; UInt.xor z t.
Definition sha256_maj (x y z : word) : Kernel W word :=
  a ← UInt.and x y; t ← UInt.xor x y; b ← UInt.and z t; UInt.xor a b.
Definition sha256_bsig0 (x : word) : Kernel W word :=
  a ← krotr x 2; b ← krotr x 13; t ← UInt.xor a b; c ← krotr x 22; UInt.xor t c.
Definition sha256_bsig1 (x : word) : Kernel W word :=
  a ← krotr x 6; b ← krotr x 11; t ← UInt.xor a b; c ← krotr x 25; UInt.xor t c.
Definition sha256_ssig0 (x : word) : Kernel W word :=
  a ← krotr x 7; b ← krotr x 18; t ← UInt.xor a b; c ← UInt.shr x 3; UInt.xor t c.
Definition sha256_ssig1 (x : word) : Kernel W word :=
  a ← krotr x 17; b ← krotr x 19; t ← UInt.xor a b; c ← UInt.shr x 10; UInt.xor t c.

(** [W[t]] for [t] from 16; [ws] holds [W[0 .. t-1]]. *)
Definition schedule_step (ws : list word) (t : nat) : Kernel W (list word) :=
  w2 ← kget ws (t - 2); s1 ← sha256_ssig1 w2;
  w7 ← kget ws (t - 7); x ← UInt.add s1 w7;
  w15 ← kget ws (t - 15); s0 ← sha256_ssig0 w15; x ← UInt.add x s0;
  w16 ← kget ws (t - 16); x ← UInt.add x w16;
  mret (ws ++ [x]).
(** The working variables [a .. h]. *)
Record Vars := mkVars { va : word; vb : word; vc : word; vd : word;
                        ve : word; vf : word; vg : word; vh : word }.
Definition round_step (ws : list word) (v : Vars) (t : nat) : Kernel W Vars :=
  s1 ← sha256_bsig1 (ve v); x ← UInt.add (vh v) s1;
  ch ← sha256_ch (ve v) (vf v) (vg v); x ← UInt.add x ch;
  k ← UInt.constant 32 (default 0%N (SHA256_K !! t)); x ← UInt.add x k;
  wt ← kget ws t; T1 ← UInt.add x wt;
  s0 ← sha256_bsig0 (va v); mj ← sha256_maj (va v) (vb v) (vc v); T2 ← UInt.add s0 mj;
  e ← UInt.add (vd v) T1; a ← UInt.add T1 T2;
  mret (mkVars a (va v) (vb v) (vc v) e (ve v) (vf v) (vg v)).
Definition vars_list (v : Vars) : list word := [va v; vb v; vc v; vd v; ve v; vf v; vg v; vh v].
Definition sha256_compress (state block : list word) : Kernel W (list word) :=
  ws ← kfold schedule_step block (seq 16 48);
  a ← kget state 0; b ← kget state 1; c ← kget state 2; d ← kget state 3;
  e ← kget state 4; f ← kget state 5; g ← kget state 6; h ← kget state 7;
  v ← kfold (round_step ws) (mkVars a b c d e f g h) (seq 0 64);
  kmap2 UInt.add state (vars_list v).

(** The padded message.  [L] is the message length in bits. *)
Definition pad_length (L : N) (lenpos : nat) (P : list W) : Kernel W (list W) :=
  kfold (λ P t,
    let byte := N.land (N.shiftr L (8 * (7 - N.of_nat t))) 0xff in
    kfold (λ P k,
      if N.testbit byte (N.of_nat k)
      then w ← kpub true; mret (<[(lenpos + 8 * t + k)%nat := w]> P)
      else mret P) P (seq 0 8)) P (seq 0 8).
Definition total_bits (L : nat) : nat := (L + 1 + 64 + 511) / 512 * 512.
Definition padded (inp : list W) : Kernel W (list W) :=
  let L := length inp in
  let total := total_bits L in
  z ← kpub false;
  let P := inp ++ replicate (total - L) z in
  one ← kpub true;
  pad_length (N.of_nat L) (total - 64) (<[(L + 7)%nat := one]> P).
Definition block_word (P : list W) (blk j : nat) : Kernel W word :=
  kmap (λ b, kget P (blk * 512 + sha256_word_bit_index j b)) (seq 0 32).
(** [out[index(i, b)] = state[i].w[b]]; an element left unwritten, or an index
    out of range, makes the result [None]. *)
Definition digest_wires (state : list word) : option (list W) :=
  mapM id (foldl (λ out '(i, b),
    <[sha256_word_bit_index i b := state !! i ≫= λ w, w !! b]> out) (replicate 256 None)
    (i ← seq 0 8; b ← seq 0 32; mret (i, b))).
Definition sha256_wires (inp : list W) : Kernel W (list W) :=
  P ← padded inp;
  state ← kmap (UInt.constant 32) SHA256_H0;
  state ← kfold (λ state blk,
    msg ← kmap (block_word P blk) (seq 0 16);
    sha256_compress state msg) state (seq 0 (total_bits (length inp) / 512));
  rot (digest_wires state).
End circuit.
Arguments Vars : clear implicits.

(** ** Parametricity *)
Section param.
Context {W1 W2 : Type}.
Implicit Types (R : wrel W1 W2).
Lemma krel_ch R x1 x2 y1 y2 z1 z2 : Forall2 R x1 x2 → Forall2 R y1 y2 → Forall2 R z1 z2 →
  krel RL R (sha256_ch x1 y1 z1) (sha256_ch x2 y2 z2).
Proof. intros. unfold sha256_ch. kcalls. eauto with kparam. Qed.
Lemma krel_maj R x1 x2 y1 y2 z1 z2 : Forall2 R x1 x2 → Forall2 R y1 y2 → Forall2 R z1 z2 →
  krel RL R (sha256_maj x1 y1 z1) (sha256_maj x2 y2 z2).
Proof. intros. unfold sha256_maj. kcalls. eauto with kparam. Qed.
Lemma krel_sigmas R x1 x2 : Forall2 R x1 x2 →
  krel RL R (sha256_bsig0 x1) (sha256_bsig0 x2) ∧ krel RL R (sha256_bsig1 x1) (sha256_bsig1 x2) ∧
  krel RL R (sha256_ssig0 x1) (sha256_ssig0 x2) ∧ krel RL R (sha256_ssig1 x1) (sha256_ssig1 x2).
Proof.
  intros. unfold sha256_bsig0, sha256_bsig1, sha256_ssig0, sha256_ssig1.
  split_and!; kcalls; eauto with kparam.
Qed.
Lemma krel_bsig0 R x1 x2 : Forall2 R x1 x2 → krel RL R (sha256_bsig0 x1) (sha256_bsig0 x2).
Proof. apply krel_sigmas. Qed.
Lemma krel_bsig1 R x1 x2 : Forall2 R x1 x2 → krel RL R (sha256_bsig1 x1) (sha256_bsig1 x2).
Proof. apply krel_sigmas. Qed.
Lemma krel_ssig0 R x1 x2 : Forall2 R x1 x2 → krel RL R (sha256_ssig0 x1) (sha256_ssig0 x2).
Proof. apply krel_sigmas. Qed.
Lemma krel_ssig1 R x1 x2 : Forall2 R x1 x2 → krel RL R (sha256_ssig1 x1) (sha256_ssig1 x2).
Proof. apply krel_sigmas. Qed.
Hint Resolve krel_ch krel_maj krel_bsig0 krel_bsig1 krel_ssig0 krel_ssig1 : kparam.

Lemma krel_schedule_step R ws1 ws2 t :
  RLL R ws1 ws2 → krel RLL R (schedule_step ws1 t) (schedule_step ws2 t).
Proof.
  intros Hw. unfold schedule_step. kcalls. constructor. apply Forall2_app; [done|].
  by repeat constructor.
Qed.

Record RVars R (v1 : Vars W1) (v2 : Vars W2) : Prop := {
  rva : Forall2 R (va v1) (va v2); rvb : Forall2 R (vb v1) (vb v2);
  rvc : Forall2 R (vc v1) (vc v2); rvd : Forall2 R (vd v1) (vd v2);
  rve : Forall2 R (ve v1) (ve v2); rvf : Forall2 R (vf v1) (vf v2);
  rvg : Forall2 R (vg v1) (vg v2); rvh : Forall2 R (vh v1) (vh v2) }.
Lemma krel_round_step R ws1 ws2 v1 v2 t :
  RLL R ws1 ws2 → RVars R v1 v2 → krel RVars R (round_step ws1 v1 t) (round_step ws2 v2 t).
Proof.
  intros Hw []. unfold round_step. kcalls. constructor. by split.
Qed.
Lemma krel_compress R s1 s2 b1 b2 :
  RLL R s1 s2 → RLL R b1 b2 → krel RLL R (sha256_compress s1 b1) (sha256_compress s2 b2).
Proof.
  intros Hs Hb. unfold sha256_compress. eapply (krel_bind RLL).
  { apply (krel_kfold REq RLL); [done|apply Forall2_eq_refl|].
    intros R' u1 u2 x y _ Hu Hxy. unfold REq in Hxy. subst. by apply krel_schedule_step. }
  intros R' ws1 ws2 Hs' Hws. kmono2. clear Hs'. kcalls. eapply (krel_bind RVars).
  { apply (krel_kfold REq RVars); [by split|apply Forall2_eq_refl|].
    intros Rn u1 u2 x y Hs2 Hu Hxy. unfold REq in Hxy. subst. kmono2. by apply krel_round_step. }
  intros Rn v1 v2 Hs2 []. kmono2. apply (krel_kmap2 RL RL RL); [done| |].
  - by repeat (constructor; [done|]).
  - intros. kmono2. eauto with kparam.
Qed.
Hint Resolve krel_compress : kparam.

Lemma krel_kpub_insert R P1 P2 i v :
  Forall2 R P1 P2 → krel RL R (w ← kpub v; mret (<[i := w]> P1)) (w ← kpub v; mret (<[i := w]> P2)).
Proof. intros. kcalls. constructor. by apply Forall2_insert. Qed.
Lemma krel_pad_length R L pos P1 P2 :
  Forall2 R P1 P2 → krel RL R (pad_length L pos P1) (pad_length L pos P2).
Proof.
  intros HP. apply (krel_kfold REq RL); [done|apply Forall2_eq_refl|].
  intros R2 u1 u2 x y _ Hu Hxy. unfold REq in Hxy. subst.
  apply (krel_kfold REq RL); [done|apply Forall2_eq_refl|].
  intros R3 w1 w2 x' y' _ Hw Hxy'. unfold REq in Hxy'. subst. case_match.
  - by apply krel_kpub_insert.
  - by apply krel_ret.
Qed.
Lemma krel_padded R l1 l2 : Forall2 R l1 l2 → krel RL R (padded l1) (padded l2).
Proof.
  intros Hl. unfold padded. rewrite (Forall2_length _ _ _ Hl). kcalls.
  apply krel_pad_length, Forall2_insert; [|done]. apply Forall2_app; [done|].
  by apply Forall2_replicate.
Qed.
Lemma krel_block_word R P1 P2 blk j :
  Forall2 R P1 P2 → krel RL R (block_word P1 blk j) (block_word P2 blk j).
Proof.
  intros HP. apply (krel_kmap REq RW); [apply Forall2_eq_refl|].
  intros R' x y Hs Hxy. unfold REq in Hxy. subst. kmono. by apply (krel_kget RW).
Qed.
Lemma digest_wires_rel R s1 s2 :
  RLL R s1 s2 → option_Forall2 (Forall2 R) (digest_wires s1) (digest_wires s2).
Proof.
  intros Hs. unfold digest_wires.
  assert (∀ l, Forall2 (option_Forall2 R)
    (foldl (λ out '(i, b), <[sha256_word_bit_index i b := s1 !! i ≫= λ w, w !! b]> out) (replicate 256 None) l)
    (foldl (λ out '(i, b), <[sha256_word_bit_index i b := s2 !! i ≫= λ w, w !! b]> out) (replicate 256 None) l))
    as Hf.
  { intros l. induction l as [|[i b] l IH] using rev_ind.
    - apply Forall2_replicate. constructor.
    - rewrite !foldl_app. simpl. apply Forall2_insert; [done|].
      pose proof (proj1 (Forall2_lookup _ _ _) Hs i) as Hi. destruct Hi as [x y Hxy|]; [|constructor].
      simpl. apply (proj1 (Forall2_lookup _ _ _) Hxy). }
  specialize (Hf (i ← seq 0 8; b ← seq 0 32; mret (i, b))). revert Hf.
  generalize (foldl (λ out '(i, b), <[sha256_word_bit_index i b := s1 !! i ≫= λ w, w !! b]> out)
    (replicate 256 None) (i ← seq 0 8; b ← seq 0 32; mret (i, b))).
  generalize (foldl (λ out '(i, b), <[sha256_word_bit_index i b := s2 !! i ≫= λ w, w !! b]> out)
    (replicate 256 None) (i ← seq 0 8; b ← seq 0 32; mret (i, b))).
  intros l2 l1. induction 1 as [|x y l1 l2 Hxy _ IH]; [by repeat constructor|].
  simpl. destruct Hxy; [|constructor]. simpl. destruct IH; simpl; constructor. by constructor.
Qed.
Lemma krel_sha256 R l1 l2 : Forall2 R l1 l2 → krel RL R (sha256_wires l1) (sha256_wires l2).
Proof.
  intros Hl. unfold sha256_wires. rewrite (Forall2_length _ _ _ Hl).
  eapply krel_bind; [by apply krel_padded|]. intros R1 P1 P2 Hs1 HP. kmono. clear Hs1.
  eapply (krel_bind RLL).
  { apply (krel_kmap REq RL); [apply Forall2_eq_refl|]. intros R' x y _ Hxy. unfold REq in Hxy.
    subst. apply krel_constant. }
  intros R2 s1 s2 Hs2 Hst. kmono. eapply (krel_bind RLL).
  - apply (krel_kfold REq RLL); [done|apply Forall2_eq_refl|].
    intros R' u1 u2 x y Hs' Hu Hxy. unfold REq in Hxy. subst. kmono.
    eapply (krel_bind RLL).
    + apply (krel_kmap REq RL); [apply Forall2_eq_refl|]. intros R3 i i' Hs3 Hii. unfold REq in Hii.
      subst. kmono. by apply krel_block_word.
    + intros R3 m1 m2 Hs3 Hm. kmono2. eauto with kparam.
  - intros R3 f1 f2 Hs3 Hf. by apply krel_rot, digest_wires_rel.
Qed.
End param.
