(* ===== verification/Sha256Spec.v ===== *)
(** * What the SHA-256 circuit computes

    The byte-level SHA-256 of FIPS 180-4 and the equality of the circuit of
    [Sha256] with it, for every message of whole bytes. *)

From Stdlib Require Import Btauto.
From S2P Require Import Prelude Program Validate Context Execute Kernel Bits Bytes NumericKernels UInt Words Sha256.

(** ** FIPS 180-4 *)
Module Fips180.
Definition Ch (x y z : N) : N := N.lxor (N.land x y) (N.land (NOT 32 x) z).
Definition Maj (x y z : N) : N := N.lxor (N.lxor (N.land x y) (N.land x z)) (N.land y z).
Definition Sigma0 (x : N) : N := N.lxor (N.lxor (ROTR 32 2 x) (ROTR 32 13 x)) (ROTR 32 22 x).
Definition Sigma1 (x : N) : N := N.lxor (N.lxor (ROTR 32 6 x) (ROTR 32 11 x)) (ROTR 32 25 x).
Definition sigma0 (x : N) : N := N.lxor (N.lxor (ROTR 32 7 x) (ROTR 32 18 x)) (SHR 32 3 x).
Definition sigma1 (x : N) : N := N.lxor (N.lxor (ROTR 32 17 x) (ROTR 32 19 x)) (SHR 32 10 x).
Definition add (a b : N) : N := ((a + b) mod 2 ^ 32)%N.

(** The message schedule, 64 words from the 16 of a block. *)
Definition next_word (ws : list N) : N :=
  let t := length ws in
  add (add (add (sigma1 (get ws (t - 2))) (get ws (t - 7))) (sigma0 (get ws (t - 15))))
    (get ws (t - 16)).
Definition schedule (block : list N) : list N := Nat.iter 48 (λ ws, ws ++ [next_word ws]) block.
Record vars := { a : N; b : N; c : N; d : N; e : N; f : N; g : N; h : N }.
Definition round (ws : list N) (v : vars) (t : nat) : vars :=
  let T1 := add (add (add (add (h v) (Sigma1 (e v))) (Ch (e v) (f v) (g v))) (get SHA256_K t)) (get ws t) in
  let T2 := add (Sigma0 (a v)) (Maj (a v) (b v) (c v)) in
  {| h := g v; g := f v; f := e v; e := add (d v) T1;
     d := c v; c := b v; b := a v; a := add T1 T2 |}.
Definition to_vars (s : list N) : vars :=
  {| a := get s 0; b := get s 1; c := get s 2; d := get s 3;
     e := get s 4; f := get s 5; g := get s 6; h := get s 7 |}.
Definition of_vars (v : vars) : list N := [a v; b v; c v; d v; e v; f v; g v; h v].
Definition compress (state block : list N) : list N :=
  zip_with add state (of_vars (foldl (round (schedule block)) (to_vars state) (seq 0 64))).
(** [1], zeros up to 8 bytes short of a multiple of 64, the length in bits. *)
Definition pad (msg : list N) : list N :=
  msg ++ [0x80%N] ++ replicate ((64 - (length msg + 9) mod 64) mod 64) 0%N ++
  be_bytes 8 (8 * N.of_nat (length msg)).
Definition block (P : list N) (i : nat) : list N :=
  (λ j, be_value (take 4 (drop (64 * i + 4 * j) P))) <$> seq 0 16.
Definition sha256 (msg : list N) : list N :=
  let P := pad msg in
  flatten (be_bytes 4 <$> foldl (λ s i, compress s (block P i)) SHA256_H0 (seq 0 (length P / 64))).
End Fips180.

(** ** The word functions *)
Lemma NOT_testbit n x i : (i < N.of_nat n)%N → N.testbit (NOT n x) i = negb (N.testbit x i).
Proof. intros. unfold NOT. by rewrite N.lxor_spec, N.ones_spec_low, xorb_true_r. Qed.
Lemma word_add32 a b : keval (UInt.add (bits 32 a) (bits 32 b)) = Ret (bits 32 (Fips180.add a b)).
Proof. rewrite word_add. unfold Fips180.add. by rewrite (bits_mod 32). Qed.
Lemma word_rotr32 k a : (k < 32)%N →
  keval (krotr (bits 32 a) (Z.of_N k)) = Ret (bits 32 (ROTR 32 k a)).
Proof. intros. by apply word_rotr. Qed.

Lemma ch_ok x y z : keval (sha256_ch (bits 32 x) (bits 32 y) (bits 32 z)) = Ret (bits 32 (Fips180.Ch x y z)).
Proof.
  unfold sha256_ch. kword. f_equal. apply bits_ext_eq. intros i Hi. unfold Fips180.Ch.
  rewrite !N.lxor_spec, !N.land_spec, NOT_testbit, N.lxor_spec by done. btauto.
Qed.
Lemma maj_ok x y z : keval (sha256_maj (bits 32 x) (bits 32 y) (bits 32 z)) = Ret (bits 32 (Fips180.Maj x y z)).
Proof.
  unfold sha256_maj. kword. f_equal. apply bits_ext_eq. intros i Hi. unfold Fips180.Maj.
  rewrite !N.lxor_spec, !N.land_spec, N.lxor_spec by done. btauto.
Qed.
Lemma bsig0_ok x : keval (sha256_bsig0 (bits 32 x)) = Ret (bits 32 (Fips180.Sigma0 x)).
Proof.
  unfold sha256_bsig0. rewrite keval_bind, (word_rotr32 2) by done. kword.
  rewrite (word_rotr32 13) by done. kword. rewrite (word_rotr32 22) by done. by kword.
Qed.
Lemma bsig1_ok x : keval (sha256_bsig1 (bits 32 x)) = Ret (bits 32 (Fips180.Sigma1 x)).
Proof.
  unfold sha256_bsig1. rewrite keval_bind, (word_rotr32 6) by done. kword.
  rewrite (word_rotr32 11) by done. kword. rewrite (word_rotr32 25) by done. by kword.
Qed.
Lemma ssig0_ok x : keval (sha256_ssig0 (bits 32 x)) = Ret (bits 32 (Fips180.sigma0 x)).
Proof.
  unfold sha256_ssig0. rewrite keval_bind, (word_rotr32 7) by done. kword.
  rewrite (word_rotr32 18) by done. kword. rewrite (word_shr 32 3). by kword.
Qed.
Lemma ssig1_ok x : keval (sha256_ssig1 (bits 32 x)) = Ret (bits 32 (Fips180.sigma1 x)).
Proof.
  unfold sha256_ssig1. rewrite keval_bind, (word_rotr32 17) by done. kword.
  rewrite (word_rotr32 19) by done. kword. rewrite (word_shr 32 10). by kword.
Qed.

(** ** The compression function *)
Lemma keval_kmap2_words n (f : list bool → list bool → Kernel bool (list bool)) g l k :
  (∀ a b, keval (f (bits n a) (bits n b)) = Ret (bits n (g a b))) →
  keval (kmap2 f (bits n <$> l) (bits n <$> k)) = Ret (bits n <$> zip_with g l k).
Proof.
  intros Hf. revert k. induction l as [|a l IH]; intros [|b k]; try done.
  cbn [fmap list_fmap kmap2]. rewrite keval_bind, Hf. cbn [mbind outcome_bind].
  rewrite keval_bind. change (list_fmap _ _ ?f ?l) with (f <$> l). rewrite IH. done.
Qed.

Lemma schedule_step_ok ws t : length ws = t → (16 ≤ t)%nat →
  keval (schedule_step (bits 32 <$> ws) t) = Ret (bits 32 <$> (ws ++ [Fips180.next_word ws])).
Proof.
  intros Hl Ht. unfold schedule_step.
  rewrite keval_bind, kget_words by lia. cbn [mbind outcome_bind]. rewrite keval_bind, ssig1_ok.
  cbn [mbind outcome_bind]. rewrite keval_bind, kget_words by lia. cbn [mbind outcome_bind].
  rewrite keval_bind, word_add32. cbn [mbind outcome_bind].
  rewrite keval_bind, kget_words by lia. cbn [mbind outcome_bind]. rewrite keval_bind, ssig0_ok.
  cbn [mbind outcome_bind]. rewrite keval_bind, word_add32. cbn [mbind outcome_bind].
  rewrite keval_bind, kget_words by lia. cbn [mbind outcome_bind].
  rewrite keval_bind, word_add32. cbn [mbind outcome_bind keval mret Kernel_ret].
  rewrite fmap_app. subst t. done.
Qed.
Lemma schedule_ok blk : length blk = 16%nat →
  keval (kfold schedule_step (bits 32 <$> blk) (seq 16 48)) = Ret (bits 32 <$> Fips180.schedule blk) ∧
  length (Fips180.schedule blk) = 64%nat.
Proof.
  intros Hl. set (ws n := Nat.iter n (λ ws, ws ++ [Fips180.next_word ws]) blk).
  assert (∀ n, length (ws n) = (16 + n)%nat) as Hws.
  { intros n. induction n as [|n IH]; [done|].
    change (ws (S n)) with (ws n ++ [Fips180.next_word (ws n)]). rewrite length_app, IH. simpl. lia. }
  split; [|apply (Hws 48%nat)]. rewrite keval_fold.
  destruct (foldO_inv (λ s t, keval (schedule_step s t)) (seq 16 48)
    (λ don s, s = bits 32 <$> ws (length don)) (bits 32 <$> blk)) as (s & Hs & ->).
  - done.
  - intros don t todo s Hseq ->.
    assert (seq 16 48 !! length don = Some t) as [-> Ht]%lookup_seq
      by (rewrite Hseq; by apply list_lookup_middle).
    rewrite schedule_step_ok by (apply Hws || lia). rewrite length_app, Nat.add_1_r. eauto.
  - exact Hs.
Qed.

Definition vars_bits (v : Fips180.vars) : Vars bool :=
  mkVars (bits 32 (Fips180.a v)) (bits 32 (Fips180.b v)) (bits 32 (Fips180.c v)) (bits 32 (Fips180.d v))
    (bits 32 (Fips180.e v)) (bits 32 (Fips180.f v)) (bits 32 (Fips180.g v)) (bits 32 (Fips180.h v)).
Lemma SHA256_K_lt t : (get SHA256_K t < 2 ^ 64)%N.
Proof.
  unfold get. destruct (SHA256_K !! t) as [k|] eqn:Hk; [|done]. simpl.
  assert (Forall (λ k, k < 2 ^ 64)%N SHA256_K) as HF by (unfold SHA256_K; by repeat constructor).
  by apply (Forall_lookup_1 _ _ _ _ HF Hk).
Qed.
Lemma round_step_ok ws v t : (t < length ws)%nat →
  keval (round_step (bits 32 <$> ws) (vars_bits v) t) = Ret (vars_bits (Fips180.round ws v t)).
Proof.
  intros Ht. unfold round_step, vars_bits. cbn [va vb vc vd ve vf vg vh].
  change (default 0%N (SHA256_K !! t)) with (get SHA256_K t).
  rewrite keval_bind, bsig1_ok. cbn [mbind outcome_bind].
  rewrite keval_bind, word_add32. cbn [mbind outcome_bind].
  rewrite keval_bind, ch_ok. cbn [mbind outcome_bind].
  rewrite keval_bind, word_add32. cbn [mbind outcome_bind].
  rewrite keval_bind, word_constant by apply SHA256_K_lt. cbn [mbind outcome_bind].
  rewrite keval_bind, word_add32. cbn [mbind outcome_bind].
  rewrite keval_bind, kget_words by done. cbn [mbind outcome_bind].
  rewrite keval_bind, word_add32. cbn [mbind outcome_bind].
  rewrite keval_bind, bsig0_ok. cbn [mbind outcome_bind].
  rewrite keval_bind, maj_ok. cbn [mbind outcome_bind].
  do 3 (rewrite keval_bind, word_add32; cbn [mbind outcome_bind]). done.
Qed.
Lemma compress_ok s blk : length s = 8%nat → length blk = 16%nat →
  keval (sha256_compress (bits 32 <$> s) (bits 32 <$> blk)) = Ret (bits 32 <$> Fips180.compress s blk) ∧
  length (Fips180.compress s blk) = 8%nat.
Proof.
  intros Hs Hb. destruct (schedule_ok blk Hb) as [Hk Hl]. split.
  2: { unfold Fips180.compress. rewrite length_zip_with, Hs. done. }
  unfold sha256_compress. rewrite keval_bind, Hk. cbn [mbind outcome_bind].
  do 8 (rewrite keval_bind, kget_words by lia; cbn [mbind outcome_bind]).
  rewrite keval_bind, keval_fold.
  destruct (foldO_inv (λ v t, keval (round_step (bits 32 <$> Fips180.schedule blk) v t)) (seq 0 64)
    (λ don v, v = vars_bits (foldl (Fips180.round (Fips180.schedule blk)) (Fips180.to_vars s) don))
    (vars_bits (Fips180.to_vars s))) as (v & Hv & ->).
  - done.
  - intros don t todo v Hseq ->.
    assert (seq 0 64 !! length don = Some t) as [-> Ht]%lookup_seq
      by (rewrite Hseq; by apply list_lookup_middle).
    rewrite round_step_ok by lia. rewrite foldl_app. eauto.
  - unfold vars_bits at 1 in Hv. unfold Fips180.to_vars at 1 2 3 4 5 6 7 8 in Hv.
    cbn [Fips180.a Fips180.b Fips180.c Fips180.d Fips180.e Fips180.f Fips180.g Fips180.h] in Hv.
    rewrite Hv. cbn [mbind outcome_bind]. unfold Fips180.compress.
    change (vars_list (vars_bits ?v)) with (bits 32 <$> Fips180.of_vars v).
    apply keval_kmap2_words, word_add32.
Qed.

(** ** Padding *)
Lemma be_bytes_8_bits v : unbytes (be_bytes 8 v) =
  (λ j : nat, N.testbit v (N.of_nat (8 * (7 - j / 8) + j mod 8))) <$> seq 0 64.
Proof.
  apply bits_ext.
  { rewrite length_unbytes. unfold be_bytes. by rewrite length_fmap, length_seq. }
  intros j Hj. rewrite (Nat.div_mod_eq j 8) at 1.
  pose proof (Nat.mod_upper_bound j 8). pose proof (Nat.Div0.div_lt_upper_bound j 8 8).
  rewrite unbytes_lookup; [|unfold be_bytes; rewrite length_fmap, length_seq; lia|lia].
  by rewrite testbit_be_bytes by lia.
Qed.
Lemma length_byte_testbit L t k : (t < 8)%nat → (k < 8)%nat →
  N.testbit (N.land (N.shiftr L (8 * (7 - N.of_nat t))) 0xff) (N.of_nat k) =
    N.testbit L (N.of_nat (8 * (7 - (8 * t + k) / 8) + (8 * t + k) mod 8)).
Proof.
  intros Ht Hk. rewrite N.land_spec, N.shiftr_spec'. change 0xff%N with (N.ones 8).
  rewrite N.ones_spec_low, andb_true_r by lia. f_equal.
  rewrite (Nat.mul_comm 8 t), (Nat.add_comm (t * 8)), Nat.div_add, Nat.Div0.mod_add by done.
  rewrite Nat.div_small, Nat.mod_small by done. lia.
Qed.

(** The two loops, after [n] of the 64 bits. *)
Lemma insert_next {X} (A : list X) (f : nat → X) d n x :
  (n < 64)%nat → f n = x →
  <[(length A + n)%nat := x]> (A ++ (f <$> seq 0 n) ++ replicate (64 - n) d) =
    A ++ (f <$> seq 0 (S n)) ++ replicate (64 - S n) d.
Proof.
  intros Hn Hx. rewrite insert_app_r. f_equal.
  replace n with (length (f <$> seq 0 n) + 0)%nat at 1 by (rewrite length_fmap, length_seq; lia).
  rewrite insert_app_r. replace (64 - n)%nat with (S (64 - S n)) by lia.
  rewrite seq_S, fmap_app, <- app_assoc. f_equal. simpl. by rewrite Hx.
Qed.
Lemma pad_length_ok L A :
  keval (pad_length L (length A) (A ++ replicate 64 false)) = Ret (A ++ unbytes (be_bytes 8 L)).
Proof.
  set (f j := N.testbit L (N.of_nat (8 * (7 - j / 8) + j mod 8))).
  set (st n := A ++ (f <$> seq 0 n) ++ replicate (64 - n) false).
  unfold pad_length. rewrite keval_fold.
  match goal with |- foldO ?F _ _ = _ => destruct (foldO_inv F (seq 0 8)
    (λ don P, P = st (8 * length don)%nat) (A ++ replicate 64 false)) as (P & HP & ->) end.
  - done.
  - intros don t todo P Hseq ->.
    assert (seq 0 8 !! length don = Some t) as [-> Ht]%lookup_seq
      by (rewrite Hseq; by apply list_lookup_middle).
    cbn [Nat.add]. set (t := length don) in *. rewrite keval_fold.
    match goal with |- ∃ s', foldO ?F _ _ = _ ∧ _ => destruct (foldO_inv F (seq 0 8)
      (λ don P, P = st (8 * t + length don)%nat) (st (8 * t)%nat)) as (P & HP & ->) end.
    + by rewrite Nat.add_0_r.
    + intros don' k todo' P Hseq' ->.
      assert (seq 0 8 !! length don' = Some k) as [-> Hk]%lookup_seq
        by (rewrite Hseq'; by apply list_lookup_middle).
      cbn [Nat.add]. set (k := length don') in *. rewrite length_byte_testbit by done.
      fold (f (8 * t + k)%nat). rewrite length_app. fold k. simpl length.
      replace (8 * t + (k + 1))%nat with (S (8 * t + k)) by lia.
      destruct (f (8 * t + k)%nat) eqn:Hf; eexists; (split; [reflexivity|]).
      * unfold st. rewrite <- Nat.add_assoc. apply insert_next; [lia|done].
      * unfold st. rewrite <- (insert_next A f false _ false) by (done || lia).
        symmetry. apply list_insert_id. rewrite lookup_app_r, Nat.add_comm, Nat.add_sub by lia.
        rewrite lookup_app_r by (rewrite length_fmap, length_seq; lia).
        rewrite length_fmap, length_seq, Nat.sub_diag. apply lookup_replicate. split; [done|lia].
    + rewrite HP. rewrite length_seq, length_app. eexists. split; [reflexivity|]. f_equal. simpl. fold t. lia.
  - rewrite HP. f_equal. unfold st. rewrite length_seq. simpl replicate. rewrite app_nil_r.
    by rewrite be_bytes_8_bits.
Qed.

Definition pad_zeros (m : nat) : nat := (64 - (m + 9) mod 64) mod 64.
Lemma total_bits_ok m : total_bits (8 * m) = (8 * (m + 1 + pad_zeros m + 8))%nat.
Proof.
  unfold total_bits, pad_zeros.
  pose proof (Nat.div_mod_eq (8 * m + 1 + 64 + 511) 512).
  pose proof (Nat.mod_upper_bound (8 * m + 1 + 64 + 511) 512).
  pose proof (Nat.div_mod_eq (m + 9) 64). pose proof (Nat.mod_upper_bound (m + 9) 64).
  destruct (decide ((m + 9) mod 64 = 0)%nat) as [Hz|Hz].
  - rewrite Hz. change ((64 - 0) mod 64)%nat with 0%nat. lia.
  - rewrite (Nat.mod_small (64 - _)) by lia. lia.
Qed.
Lemma replicate_bits n : replicate (8 * n) false = unbytes (replicate n 0%N).
Proof.
  induction n as [|n IH]; [done|]. replace (8 * S n)%nat with (8 + 8 * n)%nat by lia.
  rewrite replicate_add, IH. done.
Qed.
Lemma padded_ok msg :
  keval (padded (unbytes msg)) = Ret (unbytes (Fips180.pad msg)) ∧
  total_bits (length (unbytes msg)) = (8 * length (Fips180.pad msg))%nat.
Proof.
  assert (length (Fips180.pad msg) = length msg + 1 + pad_zeros (length msg) + 8)%nat as Hlp.
  { unfold Fips180.pad. rewrite !length_app, length_replicate. unfold be_bytes.
    rewrite length_fmap, length_seq. fold (pad_zeros (length msg)). cbn [length]. lia. }
  rewrite length_unbytes, total_bits_ok, Hlp. split; [|done].
  unfold padded. rewrite length_unbytes, total_bits_ok.
  set (m := length msg). set (z := pad_zeros m). cbn [mbind Kernel_bind kbind keval kpub].
  set (A := unbytes (msg ++ [0x80%N] ++ replicate z 0%N)).
  assert (<[(8 * m + 7)%nat := true]>
      (unbytes msg ++ replicate (8 * (m + 1 + z + 8) - 8 * m) false) = A ++ replicate 64 false) as ->.
  { replace (8 * (m + 1 + z + 8) - 8 * m)%nat with (8 + (8 * z + 64))%nat by lia.
    replace (8 * m)%nat with (length (unbytes msg)) by apply length_unbytes.
    rewrite insert_app_r. unfold A.
    rewrite !unbytes_app, <- !app_assoc. f_equal. rewrite !replicate_add, replicate_bits. done. }
  replace (8 * (m + 1 + z + 8) - 64)%nat with (length A)
    by (unfold A; rewrite length_unbytes, !length_app, length_replicate; fold m; simpl; lia).
  rewrite pad_length_ok. f_equal. unfold A, Fips180.pad. fold m. fold (pad_zeros m). fold z.
  rewrite !unbytes_app, <- !app_assoc. do 3 f_equal. by rewrite Nat2N.inj_mul.
Qed.

(** ** Blocks and the digest *)
Lemma be_value_testbit l b : Forall (λ v, v < 256)%N l → (b < 8 * length l)%nat →
  N.testbit (be_value l) (N.of_nat b) =
    N.testbit (get l (length l - 1 - b / 8)) (N.of_nat (b mod 8)).
Proof.
  intros Hl Hb. rewrite <- bval_be_value, bval_testbit by done.
  pose proof (Nat.div_mod_eq b 8). pose proof (Nat.mod_upper_bound b 8).
  pose proof (unbytes_lookup (reverse l) (b / 8) (b mod 8)) as Hu.
  rewrite <- Nat.div_mod_eq, length_reverse in Hu. rewrite Hu by lia. cbn [default id].
  f_equal. unfold get. rewrite reverse_lookup by lia. do 2 f_equal. lia.
Qed.
Lemma block_word_ok P blk j : Forall (λ v, v < 256)%N P → (j < 16)%nat →
  (64 * (blk + 1) ≤ length P)%nat →
  keval (block_word (unbytes P) blk j) =
    Ret (bits 32 (be_value (take 4 (drop (64 * blk + 4 * j) P)))).
Proof.
  intros HP Hj Hlen. unfold block_word. set (l := take 4 (drop (64 * blk + 4 * j) P)).
  assert (length l = 4%nat) as Hl by (unfold l; rewrite length_take, length_drop; lia).
  assert (Forall (λ v, v < 256)%N l) as Hf by (by apply Forall_take, Forall_drop).
  rewrite bits_testbit. apply keval_kmap_in. intros b [_ Hb]%elem_of_seq. unfold kget, sha256_word_bit_index.
  pose proof (Nat.mod_upper_bound b 8). pose proof (Nat.div_mod_eq b 8).
  replace (blk * 512 + (8 * (4 * j + 3 - b / 8) + b mod 8))%nat
    with (8 * (64 * blk + 4 * j + (3 - b / 8)) + b mod 8)%nat by lia.
  rewrite unbytes_lookup by lia. rewrite be_value_testbit by (done || lia).
  rewrite Hl. cbn [keval mret Kernel_ret]. do 2 f_equal. unfold get, l.
  rewrite lookup_take_lt, lookup_drop by lia. done.
Qed.

(** On any eight words of 32 wires; the wires are given as a function. *)
Lemma digest_wires_fun {W} (f : nat → nat → W) :
  digest_wires ((λ i, f i <$> seq 0 32) <$> seq 0 8) =
    Some ((λ p, f (p / 32) (8 * (3 - (p mod 32) / 8) + p mod 8)) <$> seq 0 256)%nat.
Proof. vm_compute. reflexivity. Qed.
Lemma get_flatten_be ws p : (p < 4 * length ws)%nat →
  get (flatten (be_bytes 4 <$> ws)) p = get (be_bytes 4 (get ws (p / 4))) (p mod 4).
Proof.
  revert p. induction ws as [|w ws IH]; intros p Hp; [simpl in Hp; lia|].
  rewrite fmap_cons, flatten_cons. unfold get at 1. destruct (decide (p < 4)%nat).
  - rewrite lookup_app_l by (by rewrite length_be_bytes).
    by rewrite Nat.div_small, Nat.mod_small.
  - rewrite lookup_app_r by (rewrite length_be_bytes; lia). rewrite length_be_bytes. simpl in Hp.
    change (default 0%N (flatten (be_bytes 4 <$> ws) !! (p - 4)%nat)) with
      (get (flatten (be_bytes 4 <$> ws)) (p - 4)). rewrite IH by lia.
    replace p with (p - 4 + 1 * 4)%nat at 3 4 by lia.
    rewrite Nat.div_add, Nat.Div0.mod_add by done.
    by replace ((p - 4) / 4 + 1)%nat with (S ((p - 4) / 4)) by lia.
Qed.
Lemma digest_ok ws : length ws = 8%nat →
  digest_wires (bits 32 <$> ws) = Some (unbytes (flatten (be_bytes 4 <$> ws))).
Proof.
  intros Hl.
  assert (bits 32 <$> ws =
    (λ i, (λ b, N.testbit (get ws i) (N.of_nat b)) <$> seq 0 32) <$> seq 0 8) as ->.
  { transitivity ((λ v, (λ b, N.testbit v (N.of_nat b)) <$> seq 0 32) <$> ws).
    { apply list_fmap_ext. intros. apply bits_testbit. }
    do 8 (destruct ws as [|? ws]; [done|]). by destruct ws. }
  rewrite digest_wires_fun. f_equal. symmetry.
  apply (bits_ext _ 256 (λ p, N.testbit (get ws (p / 32)) (N.of_nat (8 * (3 - p mod 32 / 8) + p mod 8)))).
  - rewrite length_unbytes, (flatten_length_same 4), length_fmap, Hl; [done|].
    apply Forall_fmap, Forall_forall. intros w _. apply length_be_bytes.
  - intros p Hp. pose proof (Nat.div_mod_eq p 8). pose proof (Nat.mod_upper_bound p 8).
    pose proof (Nat.div_mod_eq (p / 8) 4). pose proof (Nat.mod_upper_bound (p / 8) 4).
    pose proof (Nat.div_mod_eq p 32). pose proof (Nat.mod_upper_bound p 32).
    pose proof (Nat.div_mod_eq (p mod 32) 8). pose proof (Nat.mod_upper_bound (p mod 32) 8).
    pose proof (unbytes_lookup (flatten (be_bytes 4 <$> ws)) (p / 8) (p mod 8)) as Hu.
    rewrite <- Nat.div_mod_eq in Hu. rewrite Hu; [| |lia].
    + rewrite get_flatten_be by lia. rewrite testbit_be_bytes by lia. 
      replace (p / 8 / 4)%nat with (p / 32)%nat by lia.
      by replace (4 - 1 - (p / 8) mod 4)%nat with (3 - p mod 32 / 8)%nat by lia.
    + rewrite (flatten_length_same 4), length_fmap; [lia|].
      apply Forall_fmap, Forall_forall. intros w _. apply length_be_bytes.
Qed.

Lemma pad_bytes msg : Forall (λ v, v < 256)%N msg → Forall (λ v, v < 256)%N (Fips180.pad msg).
Proof.
  intros Hm. unfold Fips180.pad. apply Forall_app. split; [done|]. constructor; [done|].
  apply Forall_app. split; [by apply Forall_replicate|apply byte_list_be].
Qed.
Lemma sha256_ok msg : Forall (λ v, v < 256)%N msg →
  keval (sha256_wires (unbytes msg)) = Ret (unbytes (Fips180.sha256 msg)).
Proof.
  intros Hm. destruct (padded_ok msg) as [Hp Ht]. unfold sha256_wires.
  rewrite keval_bind, Hp. cbn [mbind outcome_bind].
  rewrite keval_bind, (keval_kmap_in _ (bits 32)).
  2: { intros k Hk. apply word_constant. revert k Hk. apply Forall_forall. by repeat constructor. }
  cbn [mbind outcome_bind]. rewrite keval_bind, keval_fold, Ht. set (P := Fips180.pad msg).
  replace (8 * length P / 512)%nat with (length P / 64)%nat
    by (change 512%nat with (8 * 64)%nat; by rewrite Nat.Div0.div_mul_cancel_l).
  match goal with |- context [foldO ?F _ _] => destruct (foldO_inv F (seq 0 (length P / 64))
    (λ don s, let ws := foldl (λ s i, Fips180.compress s (Fips180.block P i)) SHA256_H0 don in
      s = bits 32 <$> ws ∧ length ws = 8%nat) (bits 32 <$> SHA256_H0)) as (s & Hs & -> & Hl) end.
  - done.
  - intros don blk todo s Hseq [-> Hl].
    assert (seq 0 (length P / 64) !! length don = Some blk) as [-> Hb]%lookup_seq
      by (rewrite Hseq; by apply list_lookup_middle).
    cbn [Nat.add]. rewrite foldl_app. cbn [foldl]. set (ws := foldl _ SHA256_H0 don) in *.
    rewrite keval_bind, (keval_kmap_in _ (λ j, bits 32 (be_value (take 4 (drop (64 * length don + 4 * j) P))))).
    + cbn [mbind outcome_bind].
      rewrite (list_fmap_compose (λ j, be_value (take 4 (drop (64 * length don + 4 * j) P))) (bits 32)).
      destruct (compress_ok ws (Fips180.block P (length don)) Hl) as [Hc Hlc]; [done|].
      eexists. split; [exact Hc|]. split; [reflexivity|exact Hlc].
    + intros j [_ Hj]%elem_of_seq. apply block_word_ok; [by apply pad_bytes|lia|].
      pose proof (Nat.div_mod_eq (length P) 64). lia.
  - rewrite Hs. cbn [mbind outcome_bind]. by rewrite digest_ok.
Qed.

(** ** Property *)

(** C34: SHA-256.  On every lawful context, for every message of whole bytes,
    [sha256] leaves wires denoting the FIPS 180-4 digest of the message: the
    padding, the block loop, the message schedule and the 64 rounds are those of
    the standard, and no array access of the circuit is out of range. *)
Theorem sha256_correct :
  computes1 (A := list) (@RL) (@sha256_wires)
    (λ msg, length msg mod 8 = 0)%nat
    (λ msg z, z = unbytes (Fips180.sha256 (to_bytes msg))).
Proof.
  apply computes1_intro; [intros; by apply krel_sha256|].
  intros msg Hm. destruct (to_bytes_ok (length msg / 8) msg) as [[_ Hb] Hu].
  { pose proof (Nat.div_mod_eq (length msg) 8). lia. }
  eexists. split; [|reflexivity]. rewrite <- Hu at 1. by apply sha256_ok.
Qed.

(** The one-block example of the standard: "abc". *)
Example sha256_abc :
  Fips180.sha256 [0x61; 0x62; 0x63]%N =
  [0xba; 0x78; 0x16; 0xbf; 0x8f; 0x01; 0xcf; 0xea; 0x41; 0x41; 0x40; 0xde; 0x5d; 0xae; 0x22; 0x23;
   0xb0; 0x03; 0x61; 0xa3; 0x96; 0x17; 0x7a; 0x9c; 0xb4; 0x10; 0xff; 0x61; 0xf2; 0x00; 0x15; 0xad]%N.
Proof. vm_compute. reflexivity. Qed.
