(* ===== verification/Keccak.v ===== *)
(** * The Keccak-f[1600] permutation and SHA3-256 as circuits

    circuits/crypto/keccak.h over the kernel language: the permutation on 25
    lanes of 64 wires and the sponge for a message of public length. *)

From S2P Require Import Prelude Program Validate Context Execute Kernel Bits Bytes NumericKernels UInt Words.

Definition KECCAK_RHO : list (list Z) :=
  [[0; 1; 62; 28; 27]; [36; 44; 6; 55; 20]; [3; 10; 43; 25; 39]; [41; 45; 15; 21; 8];
   [18; 2; 61; 56; 14]]%Z.
Definition KECCAK_RC : list N :=
  [0x1; 0x8082; 0x800000000000808A; 0x8000000080008000; 0x808B; 0x80000001;
   0x8000000080008081; 0x8000000000008009; 0x8A; 0x88; 0x80008009; 0x8000000A;
   0x8000808B; 0x800000000000008B; 0x8000000000008089; 0x8000000000008003;
   0x8000000000008002; 0x8000000000000080; 0x800A; 0x800000008000000A;
   0x8000000080008081; 0x8000000000008080; 0x80000001; 0x8000000080008008]%N.
Definition keccak_lane (x y : nat) : nat := 5 * y + x.
Definition rho_of (x y : nat) : Z := default 0%Z (KECCAK_RHO !! y ≫= (.!! x)).
Definition sha3_state_bit_index (idx : nat) : nat :=
  let byte_j := (idx / 8)%nat in let bit_k := (idx mod 8)%nat in let lane := (byte_j / 8)%nat in
  let x := (lane mod 5)%nat in let y := (lane / 5)%nat in let z := (8 * (byte_j mod 8) + bit_k)%nat in
  64 * (5 * y + x) + z.

Section circuit.
Context {W : Type}.
#[local] Abbreviation word := (list W).

(** [C[x]], the parity of column [x]; [D[x]]; and [A[x, y] ^ D[x]], computed
    column by column. *)
Definition theta_c (A : list word) (x : nat) : Kernel W word :=
  a0 ← kget A (keccak_lane x 0); a1 ← kget A (keccak_lane x 1); t1 ← UInt.xor a0 a1;
  a2 ← kget A (keccak_lane x 2); t2 ← UInt.xor t1 a2;
  a3 ← kget A (keccak_lane x 3); t3 ← UInt.xor t2 a3;
  a4 ← kget A (keccak_lane x 4); UInt.xor t3 a4.
Definition theta_d (C : list word) (x : nat) : Kernel W word :=
  c4 ← kget C ((x + 4) mod 5); c1 ← kget C ((x + 1) mod 5); r ← krotl c1 1; UInt.xor c4 r.
Definition theta_a (A D : list word) (x y : nat) : Kernel W word :=
  a ← kget A (keccak_lane x y); d ← kget D x; UInt.xor a d.
Definition theta (A : list word) : Kernel W (list word) :=
  C ← kmap (theta_c A) (seq 0 5);
  D ← kmap (theta_d C) (seq 0 5);
  cols ← kmap (λ x, kmap (theta_a A D x) (seq 0 5)) (seq 0 5);
  kmap (λ i, col ← kget cols (i mod 5); kget col (i / 5)) (seq 0 25).
(** [B[y, 2x + 3y] = rotl(A[x, y], RHO[y][x])]. *)
Definition rho_lane (A : list word) (xy : nat * nat) : Kernel W word :=
  a ← kget A (keccak_lane xy.1 xy.2); krotl a (rho_of xy.1 xy.2).
Definition rho_pi (A : list word) : Kernel W (list word) :=
  kfold (λ B xy,
    r ← rho_lane A xy;
    mret (<[keccak_lane xy.2 ((2 * xy.1 + 3 * xy.2) mod 5) := r]> B))
    (replicate 25 []) (x ← seq 0 5; y ← seq 0 5; mret (x, y)).
(** A row is copied before it is overwritten. *)
Definition chi_lane (row : list word) (x : nat) : Kernel W word :=
  a ← kget row x; b ← kget row ((x + 1) mod 5); c ← kget row ((x + 2) mod 5);
  n ← UInt.not b; t ← UInt.and n c; UInt.xor a t.
Definition chi_row (A : list word) (y : nat) : Kernel W (list word) :=
  row ← kmap (λ x, kget A (keccak_lane x y)) (seq 0 5); kmap (chi_lane row) (seq 0 5).
Definition chi (A : list word) : Kernel W (list word) :=
  rows ← kmap (chi_row A) (seq 0 5); mret (flatten rows).
Definition iota (A : list word) (rc : N) : Kernel W (list word) :=
  a ← kget A 0; c ← UInt.constant 64 rc; x ← UInt.xor a c; mret (<[0%nat := x]> A).
Definition keccak_round (A : list word) (r : nat) : Kernel W (list word) :=
  A ← theta A; A ← rho_pi A; A ← chi A; iota A (get KECCAK_RC r).
Definition keccak_f1600 (A : list word) : Kernel W (list word) := kfold keccak_round A (seq 0 24).

(** ** The sponge *)
Definition permute (st : list W) : Kernel W (list W) :=
  A ← keccak_f1600 ((λ l, take 64 (drop (64 * l) st)) <$> seq 0 25); mret (flatten A).
Definition absorb_bit (s : list W * nat) (w : W) : Kernel W (list W * nat) :=
  let '(st, index) := s in
  let i := sha3_state_bit_index index in
  b ← kget st i; x ← kxor b w;
  if (index + 1 =? 1088)%nat then st' ← permute (<[i := x]> st); mret (st', 0%nat)
  else mret (<[i := x]> st, (index + 1)%nat).
Definition flip (st : list W) (i : nat) : Kernel W (list W) :=
  b ← kget st i; x ← knot b; mret (<[i := x]> st).
Definition sha3_256_wires (inp : list W) : Kernel W (list W) :=
  z ← kpub false;
  '(st, index) ← kfold absorb_bit (replicate 1600 z, 0%nat) inp;
  let index := (8 * ((index + 7) / 8))%nat in
  st ← flip st (sha3_state_bit_index (index + 1));
  st ← flip st (sha3_state_bit_index (index + 2));
  st ← flip st 1087;
  st ← permute st;
  kmap (λ i, kget st (sha3_state_bit_index i)) (seq 0 256).
End circuit.

(** ** Parametricity *)
Section param.
Context {W1 W2 : Type}.
Implicit Types (R : wrel W1 W2).
Lemma krel_kmap_seq {A1 A2} (RA : wrel W1 W2 → A1 → A2 → Prop) `{!Mono RA} R
    (f1 : nat → Kernel W1 A1) (f2 : nat → Kernel W2 A2) l :
  (∀ R' x, wsub R R' → krel RA R' (f1 x) (f2 x)) →
  krel (λ R, Forall2 (RA R)) R (kmap f1 l) (kmap f2 l).
Proof.
  intros Hf. apply (krel_kmap REq RA); [by apply Forall2_eq_refl|].
  intros R' x y Hs Hxy. unfold REq in Hxy. subst. by apply Hf.
Qed.
Lemma krel_theta_c R A1 A2 x : RLL R A1 A2 → krel RL R (theta_c A1 x) (theta_c A2 x).
Proof. intros. unfold theta_c. kcalls. eauto with kparam. Qed.
Lemma krel_theta_d R C1 C2 x : RLL R C1 C2 → krel RL R (theta_d C1 x) (theta_d C2 x).
Proof. intros. unfold theta_d. kcalls. eauto with kparam. Qed.
Lemma krel_theta_a R A1 A2 D1 D2 x y : RLL R A1 A2 → RLL R D1 D2 →
  krel RL R (theta_a A1 D1 x y) (theta_a A2 D2 x y).
Proof. intros. unfold theta_a. kcalls. eauto with kparam. Qed.
Lemma krel_theta R A1 A2 : RLL R A1 A2 → krel RLL R (theta A1) (theta A2).
Proof.
  intros HA. unfold theta. eapply (krel_bind RLL).
  { apply (krel_kmap_seq RL). intros. kmono2. by apply krel_theta_c. }
  intros R1 C1 C2 Hs1 HC. kmono2. clear Hs1. eapply (krel_bind RLL).
  { apply (krel_kmap_seq RL). intros. kmono2. by apply krel_theta_d. }
  intros R2 D1 D2 Hs2 HD. kmono2. clear Hs2. eapply (krel_bind (λ R, Forall2 (RLL R))).
  { apply (krel_kmap_seq RLL). intros. kmono2. apply (krel_kmap_seq RL). intros. kmono2.
    by apply krel_theta_a. }
  intros R3 c1 c2 Hs3 Hc. apply (krel_kmap_seq RL). intros R4 i Hs4.
  eapply (krel_bind RLL).
  - apply krel_kget. eapply Forall2_impl; [exact Hc|]. intros ? ?. by apply RLL_mono.
  - intros R5 x y Hs5 Hxy. by apply krel_kget_word.
Qed.
Lemma krel_rho_pi R A1 A2 : RLL R A1 A2 → krel RLL R (rho_pi A1) (rho_pi A2).
Proof.
  intros HA. apply (krel_kfold REq RLL); [by apply Forall2_replicate; constructor|by apply Forall2_eq_refl|].
  intros R' B1 B2 xy p Hs HB Hp. unfold REq in Hp. subst p. kmono2. eapply (krel_bind RL).
  - unfold rho_lane. kcalls. eauto with kparam.
  - intros R2 r1 r2 Hs2 Hr. kmono2. constructor. by apply Forall2_insert.
Qed.
Lemma krel_chi_lane R r1 r2 x : RLL R r1 r2 → krel RL R (chi_lane r1 x) (chi_lane r2 x).
Proof. intros. unfold chi_lane. kcalls. eauto with kparam. Qed.
Lemma krel_chi R A1 A2 : RLL R A1 A2 → krel RLL R (chi A1) (chi A2).
Proof.
  intros HA. unfold chi. eapply (krel_bind (λ R, Forall2 (RLL R))).
  { apply (krel_kmap_seq RLL). intros R' y Hs. kmono2. unfold chi_row. eapply (krel_bind RLL).
    - apply (krel_kmap_seq RL). intros. kmono2. by apply krel_kget_word.
    - intros R2 r1 r2 Hs2 Hr. apply (krel_kmap_seq RL). intros. kmono2. by apply krel_chi_lane. }
  intros R' r1 r2 _ Hr. constructor. induction Hr; [constructor|]. by apply Forall2_app.
Qed.
Lemma krel_iota R A1 A2 rc : RLL R A1 A2 → krel RLL R (iota A1 rc) (iota A2 rc).
Proof. intros. unfold iota. kcalls. constructor. by apply Forall2_insert. Qed.
Lemma krel_keccak_f1600 R A1 A2 : RLL R A1 A2 → krel RLL R (keccak_f1600 A1) (keccak_f1600 A2).
Proof.
  intros HA. apply (krel_kfold REq RLL); [done|by apply Forall2_eq_refl|].
  intros R' B1 B2 r r' Hs HB Hr. unfold REq in Hr. subst r'. unfold keccak_round.
  eapply (krel_bind RLL); [by apply krel_theta|]. intros. kmono2.
  eapply (krel_bind RLL); [by apply krel_rho_pi|]. intros. kmono2.
  eapply (krel_bind RLL); [by apply krel_chi|]. intros. kmono2. by apply krel_iota.
Qed.
Lemma krel_permute R S1 S2 : Forall2 R S1 S2 → krel RL R (permute S1) (permute S2).
Proof.
  intros HS. unfold permute. eapply (krel_bind RLL).
  - apply krel_keccak_f1600. set (l := seq 0 25). clearbody l.
    induction l; constructor; [|done]. by apply Forall2_take, Forall2_drop.
  - intros R' A1 A2 _ HA. constructor. induction HA; [constructor|]. by apply Forall2_app.
Qed.
Lemma krel_flip R S1 S2 i : Forall2 R S1 S2 → krel RL R (flip S1 i) (flip S2 i).
Proof.
  intros HS. unfold flip. eapply (krel_bind RW); [by apply (krel_kget RW)|]. intros. kmono.
  kcalls. constructor. by apply Forall2_insert.
Qed.
Lemma krel_absorb_bit R s1 s2 w1 w2 : RPair RL REq R s1 s2 → R w1 w2 →
  krel (RPair RL REq) R (absorb_bit s1 w1) (absorb_bit s2 w2).
Proof.
  destruct s1 as [S1 i], s2 as [S2 i']. intros [HS Hi] Hw. unfold RL, REq in HS, Hi. simpl in *. subst i'.
  unfold absorb_bit.
  eapply (krel_bind RW); [by apply (krel_kget RW)|]. intros R1 b1 b2 Hs1 Hb. kmono. clear Hs1.
  apply Kernel.krel_xor; [done..|]. intros R2 x1 x2 Hs2 Hx. kmono. clear Hs2. case_match.
  - eapply (krel_bind RL); [by apply krel_permute, Forall2_insert|]. intros R3 T1 T2 _ HT.
    constructor. by split.
  - constructor. split; [by apply Forall2_insert|done].
Qed.
Lemma krel_sha3_256 R l1 l2 : Forall2 R l1 l2 → krel RL R (sha3_256_wires l1) (sha3_256_wires l2).
Proof.
  intros Hl. unfold sha3_256_wires. kcalls. eapply (krel_bind (RPair RL REq)).
  { apply (krel_kfold RW (RPair RL REq)); [|done|intros; by apply krel_absorb_bit].
    split; [by apply Forall2_replicate|done]. }
  intros R1 [S1 i1] [S2 i2] _ [HS Hi]. unfold RL, REq in HS, Hi. simpl in HS, Hi. subst i2.
  eapply (krel_bind RL); [by apply krel_flip|]. intros R2 T1 T2 _ HT.
  eapply (krel_bind RL); [by apply krel_flip|]. intros R3 U1 U2 _ HU.
  eapply (krel_bind RL); [by apply krel_flip|]. intros R4 V1 V2 _ HV.
  eapply (krel_bind RL); [by apply krel_permute|]. intros R5 Z1 Z2 _ HZ.
  apply (krel_kmap_seq RW). intros R6 i Hs6. kmono. by apply (krel_kget RW).
Qed.
End param.
