(* ===== verification/KeccakSpec.v ===== *)
(** * What the Keccak circuit computes

    SHA3-256 of FIPS 202, from the step mappings and the rotation offsets and
    round constants as the standard generates them to the sponge with its
    padding, and the equality of the circuit of [Keccak] with it for every
    message of whole bytes. *)

From Stdlib Require Import Btauto.
From S2P Require Import Prelude Program Validate Context Execute Kernel Bits Bytes NumericKernels UInt Words Keccak.

(** ** FIPS 202 *)
Module Fips202.
(** A state is 25 lanes; lane (x, y) is entry [5 * y + x]. *)
Definition lane (A : list N) (x y : nat) : N := get A (5 * y + x).
Definition state_of (f : nat → nat → N) : list N := (λ i, f (i mod 5) (i / 5))%nat <$> seq 0 25.
Definition C (A : list N) (x : nat) : N :=
  N.lxor (N.lxor (N.lxor (N.lxor (lane A x 0) (lane A x 1)) (lane A x 2)) (lane A x 3)) (lane A x 4).
Definition D (A : list N) (x : nat) : N :=
  N.lxor (C A ((x + 4) mod 5)) (ROTL 64 1 (C A ((x + 1) mod 5))).
Definition theta (A : list N) : list N := state_of (λ x y, N.lxor (lane A x y) (D A x)).
(** Offsets: (t + 1)(t + 2) / 2 along the orbit of (1, 0) under (x, y) -> (y, 2x + 3y). *)
Definition orbit (t : nat) : nat * nat :=
  Nat.iter t (λ '(x, y), (y, (2 * x + 3 * y) mod 5)%nat) (1, 0)%nat.
Definition offset (x y : nat) : N :=
  match list_find (λ t, orbit t = (x, y)) (seq 0 24) with
  | Some (_, t) => N.of_nat ((t + 1) * (t + 2) / 2) mod 64
  | None => 0
  end.
Definition rho (A : list N) : list N := state_of (λ x y, ROTL 64 (offset x y) (lane A x y)).
Definition pi (A : list N) : list N := state_of (λ x y, lane A ((x + 3 * y) mod 5) x).
Definition chi (A : list N) : list N := state_of (λ x y,
  N.lxor (lane A x y) (N.land (NOT 64 (lane A ((x + 1) mod 5) y)) (lane A ((x + 2) mod 5) y))).
(** The round constants from the shift register of algorithm 5. *)
Definition lfsr_step (R : list bool) : list bool :=
  let r8 := default false (R !! 7%nat) in
  let R := take 8 (false :: R) in
  imap (λ i b, if decide (i ∈ [0; 4; 5; 6]%nat) then xorb b r8 else b) R.
Definition rc (t : nat) : bool :=
  default false (Nat.iter (t mod 255) lfsr_step (true :: replicate 7 false) !! 0%nat).
Definition RC (ir : nat) : N :=
  bval ((λ i, existsb (λ j, (i =? 2 ^ j - 1)%nat && rc (j + 7 * ir)) (seq 0 7)) <$> seq 0 64).
Definition iota (A : list N) (ir : nat) : list N := <[0%nat := N.lxor (lane A 0 0) (RC ir)]> A.
Definition round (A : list N) (ir : nat) : list N := iota (chi (pi (rho (theta A)))) ir.
Definition keccak_p (A : list N) : list N := foldl round A (seq 0 24).
(** On strings of 1600 bits. *)
Definition f (S : list bool) : list bool :=
  flatten (bits 64 <$> keccak_p ((λ l, bval (take 64 (drop (64 * l) S))) <$> seq 0 25)).
(** The sponge with rate 1088. *)
Definition rate : nat := 1088.
Definition pad (m : nat) : list bool :=
  [true] ++ replicate (Z.to_nat ((- Z.of_nat m - 2) mod Z.of_nat rate)) false ++ [true].
Definition absorb (S P : list bool) : list bool :=
  f (zip_with xorb S (P ++ replicate (1600 - rate) false)).
Definition blocks (P : list bool) : list (list bool) :=
  (λ i, take rate (drop (rate * i) P)) <$> seq 0 (length P / rate).
Definition sha3_256 (M : list bool) : list bool :=
  let N := M ++ [false; true] in
  take 256 (foldl absorb (replicate 1600 false) (blocks (N ++ pad (length N)))).
End Fips202.

(** ** The tables *)
Lemma rho_table : Forall (λ xy : nat * nat, rho_of xy.1 xy.2 = Z.of_N (Fips202.offset xy.1 xy.2) ∧
    (Fips202.offset xy.1 xy.2 < 64)%N) (x ← seq 0 5; y ← seq 0 5; mret (x, y)).
Proof. by repeat (constructor; [by split; vm_compute|]). Qed.
Lemma rc_table : KECCAK_RC = Fips202.RC <$> seq 0 24.
Proof. by vm_compute. Qed.
Lemma rc_lt ir : (Fips202.RC ir < 2 ^ 64)%N.
Proof. unfold Fips202.RC. eapply N.lt_le_trans; [apply bval_lt|]. by rewrite length_fmap, length_seq. Qed.

Lemma get_fmap_seq (g : nat → N) n i : (i < n)%nat → get (g <$> seq 0 n) i = g i.
Proof. intros Hi. unfold get. rewrite list_lookup_fmap, lookup_seq_lt by done. done. Qed.
Lemma length_state_of g : length (Fips202.state_of g) = 25%nat.
Proof. unfold Fips202.state_of. by rewrite length_fmap, length_seq. Qed.

(** ** The step mappings *)
Section steps.
Context (A : list N) (HA : length A = 25%nat).
Lemma lane_ok x y : (x < 5)%nat → (y < 5)%nat →
  keval (kget (bits 64 <$> A) (keccak_lane x y)) = Ret (bits 64 (Fips202.lane A x y)).
Proof. intros Hx Hy. apply kget_words. unfold keccak_lane. lia. Qed.
Lemma theta_c_ok x : (x < 5)%nat → keval (theta_c (bits 64 <$> A) x) = Ret (bits 64 (Fips202.C A x)).
Proof. intros Hx. unfold theta_c. kword. repeat (rewrite lane_ok by lia; kword). done. Qed.
Lemma theta_d_ok x : (x < 5)%nat →
  keval (theta_d (bits 64 <$> (Fips202.C A <$> seq 0 5)) x) = Ret (bits 64 (Fips202.D A x)).
Proof.
  intros Hx. unfold theta_d. pose proof (Nat.mod_upper_bound (x + 4) 5). pose proof (Nat.mod_upper_bound (x + 1) 5).
  do 2 (rewrite keval_bind, kget_words, get_fmap_seq by (rewrite ?length_fmap, ?length_seq; lia);
        cbn [mbind outcome_bind]).
  rewrite keval_bind, (word_rotl 64 1) by done. cbn [mbind outcome_bind]. by rewrite word_xor.
Qed.
Lemma theta_a_ok x y : (x < 5)%nat → (y < 5)%nat →
  keval (theta_a (bits 64 <$> A) (bits 64 <$> (Fips202.D A <$> seq 0 5)) x y) =
    Ret (bits 64 (N.lxor (Fips202.lane A x y) (Fips202.D A x))).
Proof.
  intros Hx Hy. unfold theta_a. rewrite keval_bind, lane_ok by lia. cbn [mbind outcome_bind].
  rewrite keval_bind, kget_words, get_fmap_seq by (rewrite ?length_fmap, ?length_seq; lia).
  cbn [mbind outcome_bind]. by rewrite word_xor.
Qed.
Lemma theta_ok : keval (theta (bits 64 <$> A)) = Ret (bits 64 <$> Fips202.theta A).
Proof.
  unfold theta. rewrite keval_bind.
  rewrite (keval_kmap_in _ (λ x, bits 64 (Fips202.C A x)))
    by (intros x [_ ?]%elem_of_seq; by apply theta_c_ok).
  cbn [mbind outcome_bind]. rewrite keval_bind, (list_fmap_compose (Fips202.C A) (bits 64)).
  rewrite (keval_kmap_in _ (λ x, bits 64 (Fips202.D A x)))
    by (intros x [_ ?]%elem_of_seq; by apply theta_d_ok).
  cbn [mbind outcome_bind]. rewrite keval_bind, (list_fmap_compose (Fips202.D A) (bits 64)).
  rewrite (keval_kmap_in _ (λ x, (λ y, bits 64 (N.lxor (Fips202.lane A x y) (Fips202.D A x))) <$> seq 0 5)).
  2:{ intros x [_ ?]%elem_of_seq. apply keval_kmap_in. intros y [_ ?]%elem_of_seq. by apply theta_a_ok. }
  cbn [mbind outcome_bind]. unfold Fips202.theta, Fips202.state_of. rewrite <- list_fmap_compose.
  apply keval_kmap_in. intros i [_ Hi]%elem_of_seq.
  assert (i mod 5 < 5 ∧ i / 5 < 5)%nat as [Hx Hy].
  { split; [by apply Nat.mod_upper_bound|]. by apply Nat.Div0.div_lt_upper_bound. }
  rewrite keval_bind, (keval_kget _ _ ((λ y, bits 64 (N.lxor (Fips202.lane A (i mod 5) y)
    (Fips202.D A (i mod 5)))) <$> seq 0 5)) by (by rewrite list_lookup_fmap, lookup_seq_lt).
  cbn [mbind outcome_bind]. apply keval_kget. by rewrite list_lookup_fmap, lookup_seq_lt.
Qed.
End steps.

(** The rotations, written to the positions of pi. *)
Lemma keval_kfold_pure {S B D} (g : B → Kernel bool D) (v : B → D) (h : S → B → D → S) l s :
  (∀ b, b ∈ l → keval (g b) = Ret (v b)) →
  keval (kfold (λ s b, r ← g b; mret (h s b r)) s l) = Ret (foldl (λ s b, h s b (v b)) s l).
Proof.
  revert s. induction l as [|b l IH]; intros s Hg; [done|]. cbn [kfold foldl].
  rewrite keval_bind, keval_bind, Hg by (by left). cbn [mbind outcome_bind mret Kernel_ret keval].
  apply IH. intros b' Hb. apply Hg. by right.
Qed.
Lemma rho_lane_ok A xy : length A = 25%nat → xy ∈ (x ← seq 0 5; y ← seq 0 5; mret (x, y)) →
  keval (rho_lane (bits 64 <$> A) xy) =
    Ret (bits 64 (ROTL 64 (Fips202.offset xy.1 xy.2) (Fips202.lane A xy.1 xy.2))).
Proof.
  intros HA Hxy. destruct (proj1 (Forall_forall _ _) rho_table _ Hxy) as [Hr Hlt].
  apply list_elem_of_bind in Hxy as (x & Hxy & [_ Hx]%elem_of_seq).
  apply list_elem_of_bind in Hxy as (y & Hxy & [_ Hy]%elem_of_seq).
  apply list_elem_of_singleton in Hxy as ->. unfold rho_lane. cbn [fst snd] in *.
  rewrite keval_bind, lane_ok by done. cbn [mbind outcome_bind]. rewrite Hr. by apply word_rotl.
Qed.
Lemma rho_pi_ok A : length A = 25%nat →
  keval (rho_pi (bits 64 <$> A)) = Ret (bits 64 <$> Fips202.pi (Fips202.rho A)).
Proof.
  intros HA. unfold rho_pi.
  rewrite (keval_kfold_pure _ (λ xy, bits 64 (ROTL 64 (Fips202.offset xy.1 xy.2) (Fips202.lane A xy.1 xy.2)))
    (λ B xy r, <[keccak_lane xy.2 ((2 * xy.1 + 3 * xy.2) mod 5) := r]> B))
    by (intros; by apply rho_lane_ok).
  reflexivity.
Qed.
Lemma chi_lane_ok A x y : length A = 25%nat → (x < 5)%nat → (y < 5)%nat →
  keval (chi_lane (bits 64 <$> ((λ x, Fips202.lane A x y) <$> seq 0 5)) x) =
    Ret (bits 64 (N.lxor (Fips202.lane A x y)
      (N.land (NOT 64 (Fips202.lane A ((x + 1) mod 5) y)) (Fips202.lane A ((x + 2) mod 5) y)))).
Proof.
  intros HA Hx Hy. unfold chi_lane.
  pose proof (Nat.mod_upper_bound (x + 1) 5). pose proof (Nat.mod_upper_bound (x + 2) 5).
  do 3 (rewrite keval_bind, kget_words, get_fmap_seq by (rewrite ?length_fmap, ?length_seq; lia);
        cbn [mbind outcome_bind]).
  by kword.
Qed.
Lemma chi_ok A : length A = 25%nat → keval (chi (bits 64 <$> A)) = Ret (bits 64 <$> Fips202.chi A).
Proof.
  intros HA. unfold chi. rewrite keval_bind.
  rewrite (keval_kmap_in _ (λ y, (λ x, bits 64 (N.lxor (Fips202.lane A x y)
      (N.land (NOT 64 (Fips202.lane A ((x + 1) mod 5) y)) (Fips202.lane A ((x + 2) mod 5) y))))
      <$> seq 0 5)).
  - reflexivity.
  - intros y [_ Hy]%elem_of_seq. unfold chi_row. rewrite keval_bind.
    rewrite (keval_kmap_in _ (λ x, bits 64 (Fips202.lane A x y)))
      by (intros x [_ Hx]%elem_of_seq; by apply lane_ok).
    cbn [mbind outcome_bind]. rewrite (list_fmap_compose (λ x, Fips202.lane A x y) (bits 64)).
    apply keval_kmap_in. intros x [_ Hx]%elem_of_seq. by apply chi_lane_ok.
Qed.
Lemma iota_ok A ir : length A = 25%nat → (ir < 24)%nat →
  keval (iota (bits 64 <$> A) (get KECCAK_RC ir)) = Ret (bits 64 <$> Fips202.iota A ir).
Proof.
  intros HA Hr. unfold iota. rewrite rc_table, get_fmap_seq by done.
  rewrite keval_bind, kget_words by lia. cbn [mbind outcome_bind].
  rewrite keval_bind, word_constant by apply rc_lt. cbn [mbind outcome_bind].
  rewrite keval_bind, word_xor. cbn [mbind outcome_bind mret Kernel_ret keval].
  unfold Fips202.iota. by rewrite list_fmap_insert.
Qed.
Lemma round_ok A ir : length A = 25%nat → (ir < 24)%nat →
  keval (keccak_round (bits 64 <$> A) ir) = Ret (bits 64 <$> Fips202.round A ir).
Proof.
  intros HA Hr. unfold keccak_round.
  rewrite keval_bind, theta_ok by done. cbn [mbind outcome_bind].
  rewrite keval_bind, rho_pi_ok by apply length_state_of. cbn [mbind outcome_bind].
  rewrite keval_bind, chi_ok by apply length_state_of. cbn [mbind outcome_bind].
  by apply iota_ok; [apply length_state_of|].
Qed.
Lemma length_round A ir : length (Fips202.round A ir) = 25%nat.
Proof. unfold Fips202.round, Fips202.iota. rewrite length_insert. apply length_state_of. Qed.
Lemma keccak_f1600_ok A : length A = 25%nat →
  keval (keccak_f1600 (bits 64 <$> A)) = Ret (bits 64 <$> Fips202.keccak_p A).
Proof.
  intros HA. unfold keccak_f1600, Fips202.keccak_p. rewrite keval_fold.
  destruct (foldO_inv (λ s r, keval (keccak_round s r)) (seq 0 24)
    (λ don s, length (foldl Fips202.round A don) = 25%nat ∧ s = bits 64 <$> foldl Fips202.round A don)
    (bits 64 <$> A)) as (s & Hs & _ & ->); [done| |exact Hs].
  intros don r todo s Hseq [Hl ->].
  assert (seq 0 24 !! length don = Some r) as [-> Hr]%lookup_seq
    by (rewrite Hseq; by apply list_lookup_middle).
  rewrite round_ok by done. eexists. split; [done|]. rewrite foldl_app. split; [apply length_round|done].
Qed.

(** ** The permutation on strings *)
Definition lanes_of (S : list bool) : list N := (λ l, bval (take 64 (drop (64 * l) S))) <$> seq 0 25.
Lemma permute_ok S : length S = 1600%nat → keval (permute S) = Ret (Fips202.f S).
Proof.
  intros HS. unfold permute.
  assert ((λ l, take 64 (drop (64 * l) S)) <$> seq 0 25 = bits 64 <$> lanes_of S) as ->.
  { unfold lanes_of. rewrite <- list_fmap_compose. apply list_fmap_ext.
    intros i l [-> Hl]%lookup_seq. unfold compose. simpl.
    assert (length (take 64 (drop (64 * i) S)) = 64%nat) as Hlen
      by (rewrite length_take, length_drop; lia).
    rewrite <- Hlen at 2. by rewrite bits_bval. }
  rewrite keval_bind, keccak_f1600_ok by (unfold lanes_of; by rewrite length_fmap, length_seq).
  done.
Qed.
Lemma length_f S : length (Fips202.f S) = 1600%nat.
Proof.
  unfold Fips202.f. set (A := Fips202.keccak_p _).
  assert (length A = 25%nat) as HA.
  { unfold A, Fips202.keccak_p. change (seq 0 24) with (seq 0 23 ++ [23%nat]).
    rewrite foldl_app. apply length_round. }
  clearbody A. replace 1600%nat with (64 * length A)%nat by lia. clear HA.
  induction A as [|a A IH]; [done|]. rewrite fmap_cons, flatten_cons, length_app, IH, length_bits.
  simpl. lia.
Qed.

(** ** States as functions of the position *)
Definition nthb (l : list bool) (i : nat) : bool := default false (l !! i).
Definition tab (g : nat → bool) : list bool := g <$> seq 0 1600.
Lemma tab_lookup g i : (i < 1600)%nat → tab g !! i = Some (g i).
Proof. intros Hi. unfold tab. by rewrite list_lookup_fmap, lookup_seq_lt. Qed.
Lemma length_tab g : length (tab g) = 1600%nat.
Proof. unfold tab. by rewrite length_fmap, length_seq. Qed.
Lemma tab_ext g h : (∀ k, (k < 1600)%nat → g k = h k) → tab g = tab h.
Proof. intros H. apply list_fmap_ext. intros i k [-> Hi]%lookup_seq. by apply H. Qed.
Lemma tab_nthb l : length l = 1600%nat → l = tab (nthb l).
Proof.
  intros Hl. apply list_eq. intros i. destruct (decide (i < 1600)%nat) as [Hi|Hi].
  - rewrite tab_lookup by done. unfold nthb. by destruct (lookup_lt_is_Some_2 l i) as [b ->]; [lia|].
  - rewrite !lookup_ge_None_2; [done|rewrite length_tab; lia|lia].
Qed.
Lemma nthb_tab g k : (k < 1600)%nat → nthb (tab g) k = g k.
Proof. intros Hk. unfold nthb. by rewrite tab_lookup. Qed.
Lemma tab_insert g i b : (i < 1600)%nat →
  <[i := b]> (tab g) = tab (λ k, if (k =? i)%nat then b else g k).
Proof.
  intros Hi. rewrite (tab_nthb (<[i := b]> _)) by (by rewrite length_insert, length_tab).
  apply tab_ext. intros k Hk. unfold nthb. destruct (Nat.eqb_spec k i) as [->|Hne].
  - by rewrite list_lookup_insert_eq by (by rewrite length_tab).
  - by rewrite list_lookup_insert_ne, tab_lookup by done.
Qed.
(** A state with some bits of a block mixed in. *)
Definition mixed (S r : list bool) : list bool := tab (λ k, xorb (nthb S k) (nthb r k)).
Lemma nthb_ge l k : (length l ≤ k)%nat → nthb l k = false.
Proof. intros H. unfold nthb. by rewrite lookup_ge_None_2. Qed.
Lemma nthb_snoc l b k : nthb (l ++ [b]) k = if (k =? length l)%nat then b else nthb l k.
Proof.
  unfold nthb. destruct (Nat.eqb_spec k (length l)) as [->|Hne]; [by rewrite list_lookup_middle|].
  destruct (decide (k < length l)%nat); [by rewrite lookup_app_l|].
  rewrite !lookup_ge_None_2; [done|lia|rewrite length_app; simpl; lia].
Qed.
Lemma mixed_snoc S r b : (length r < 1600)%nat →
  <[length r := xorb (nthb S (length r)) b]> (mixed S r) = mixed S (r ++ [b]).
Proof.
  intros Hr. unfold mixed. rewrite tab_insert by done. apply tab_ext. intros k Hk. rewrite nthb_snoc.
  by destruct (Nat.eqb_spec k (length r)) as [->|].
Qed.
Lemma mixed_nil S : length S = 1600%nat → mixed S [] = S.
Proof.
  intros HS. rewrite (tab_nthb S) at 2 by done. apply tab_ext. intros k Hk. apply xorb_false_r.
Qed.
Lemma absorb_mixed S P : length S = 1600%nat → length P = Fips202.rate →
  Fips202.absorb S P = Fips202.f (mixed S P).
Proof.
  intros HS HP. unfold Fips202.absorb. f_equal. unfold Fips202.rate in *.
  rewrite (tab_nthb (zip_with _ _ _)) by
    (rewrite length_zip_with, length_app, length_replicate; lia).
  apply tab_ext. intros k Hk. unfold nthb at 1.
  rewrite lookup_zip_with. unfold nthb. destruct (lookup_lt_is_Some_2 S k) as [s ->]; [lia|].
  cbn [mbind option_bind].
  destruct (decide (k < 1088)%nat).
  - rewrite lookup_app_l by lia. by destruct (lookup_lt_is_Some_2 P k) as [b ->]; [lia|].
  - rewrite lookup_app_r, lookup_replicate_2, lookup_ge_None_2 by lia. done.
Qed.
Lemma state_index_id i : (i < 1600)%nat → sha3_state_bit_index i = i.
Proof.
  intros Hi. unfold sha3_state_bit_index.
  pose proof (Nat.div_mod_eq i 8). pose proof (Nat.div_mod_eq (i / 8) 8).
  pose proof (Nat.div_mod_eq (i / 8 / 8) 5). lia.
Qed.

(** ** Blocks *)
#[local] Abbreviation rate := Fips202.rate.
Definition full (M : list bool) : list bool := take (rate * (length M / rate)) M.
Definition rest (M : list bool) : list bool := drop (rate * (length M / rate)) M.
Lemma full_rest M : full M ++ rest M = M.
Proof. apply take_drop. Qed.
Lemma rate_div (M : list bool) : ∃ q r, (length M = rate * q + r ∧ r < rate ∧ length M / rate = q)%nat.
Proof.
  exists (length M / rate)%nat, (length M mod rate)%nat. split; [apply Nat.div_mod_eq|].
  split; [by apply Nat.mod_upper_bound|done].
Qed.
Lemma length_full M : length (full M) = (rate * (length M / rate))%nat.
Proof. unfold full. rewrite length_take. destruct (rate_div M) as (q & r & -> & _ & ->). lia. Qed.
Lemma length_rest M : (length (rest M) < rate ∧ length (rest M) = length M mod rate)%nat.
Proof.
  unfold rest. rewrite length_drop. pose proof (Nat.mod_upper_bound (length M) rate).
  pose proof (Nat.div_mod_eq (length M) rate). unfold Fips202.rate in *. lia.
Qed.
Lemma blocks_app F Y q : length F = (rate * q)%nat →
  Fips202.blocks (F ++ Y) = Fips202.blocks F ++ Fips202.blocks Y.
Proof.
  intros HF. unfold Fips202.blocks. rewrite length_app, HF.
  assert ((rate * q + length Y) / rate = q + length Y / rate)%nat as ->.
  { rewrite Nat.mul_comm, Nat.div_add_l by done. done. }
  assert (rate * q / rate = q)%nat as -> by (rewrite Nat.mul_comm; by apply Nat.div_mul).
  rewrite seq_app, fmap_app. f_equal.
  - apply list_fmap_ext. intros i k [-> Hk]%lookup_seq. unfold Fips202.rate in *. simpl.
    rewrite drop_app_le, take_app_le by (rewrite ?length_drop; lia). done.
  - rewrite <- (Nat.add_0_r (0 + q)), <- fmap_add_seq, <- list_fmap_compose.
    apply list_fmap_ext. intros i k [-> Hk]%lookup_seq. unfold compose, Fips202.rate in *.
    rewrite drop_app_ge by lia. do 3 f_equal. lia.
Qed.
Lemma blocks_short P : (length P < rate)%nat → Fips202.blocks P = [].
Proof. intros H. unfold Fips202.blocks. by rewrite Nat.div_small. Qed.
Lemma blocks_one P : length P = rate → Fips202.blocks P = [P].
Proof.
  intros H. unfold Fips202.blocks. rewrite H. change (rate / rate)%nat with 1%nat. simpl.
  rewrite drop_0, take_ge by lia. done.
Qed.
Lemma blocks_full M : Fips202.blocks M = Fips202.blocks (full M).
Proof.
  rewrite <- (full_rest M) at 1. rewrite (blocks_app _ _ (length M / rate)) by apply length_full.
  by rewrite (blocks_short (rest M)), app_nil_r by apply length_rest.
Qed.
(** Extending a message: its complete blocks, then those of its rest. *)
Lemma blocks_extend M X : Fips202.blocks (M ++ X) = Fips202.blocks M ++ Fips202.blocks (rest M ++ X).
Proof.
  rewrite (blocks_full M). rewrite <- (full_rest M) at 1. rewrite <- app_assoc.
  apply (blocks_app _ _ (length M / rate)). apply length_full.
Qed.

(** ** The sponge *)
Definition absorbed (M : list bool) : list bool :=
  foldl Fips202.absorb (replicate 1600 false) (Fips202.blocks M).
Lemma absorbed_snoc M X P : Fips202.blocks (rest M ++ X) = [P] →
  absorbed (M ++ X) = Fips202.absorb (absorbed M) P.
Proof. intros H. unfold absorbed. by rewrite blocks_extend, H, foldl_app. Qed.
Lemma length_absorbed M : length (absorbed M) = 1600%nat.
Proof.
  unfold absorbed. destruct (Fips202.blocks M) as [|P l] using rev_ind; [apply length_replicate|].
  rewrite foldl_app. apply length_f.
Qed.
Lemma absorb_bit_ok S i w : length S = 1600%nat → (i < rate)%nat →
  keval (absorb_bit (S, i) w) =
    let S' := <[i := xorb (nthb S i) w]> S in
    Ret (if (i + 1 =? rate)%nat then (Fips202.f S', 0%nat) else (S', (i + 1)%nat)).
Proof.
  intros HS Hi. unfold Fips202.rate in *. unfold absorb_bit. rewrite state_index_id by lia.
  assert (S !! i = Some (nthb S i)) as Hn.
  { unfold nthb. by destruct (lookup_lt_is_Some_2 S i) as [b ->]; [lia|]. }
  rewrite keval_bind, (keval_kget _ _ _ Hn). cbn [mbind outcome_bind].
  rewrite keval_bind. cbn [kxor keval mbind outcome_bind]. change 1088%nat with rate.
  destruct (i + 1 =? rate)%nat; [|done].
  rewrite keval_bind, permute_ok by (by rewrite length_insert). done.
Qed.
Lemma absorb_loop M :
  keval (kfold absorb_bit (replicate 1600 false, 0%nat) M) =
    Ret (mixed (absorbed M) (rest M), length (rest M)).
Proof.
  rewrite keval_fold.
  destruct (foldO_inv (λ s w, keval (absorb_bit s w)) M
    (λ don s, s = (mixed (absorbed don) (rest don), length (rest don)))
    (replicate 1600 false, 0%nat)) as (s & Hs & ->); [| |exact Hs].
  - reflexivity.
  - intros don b todo s _ ->. destruct (length_rest don) as [Hlt Hmod].
    rewrite absorb_bit_ok by (apply length_tab || done).
    assert (length (rest don) < 1600)%nat as Hlt' by (unfold Fips202.rate in Hlt; lia).
    assert (nthb (mixed (absorbed don) (rest don)) (length (rest don)) =
      nthb (absorbed don) (length (rest don))) as ->.
    { unfold mixed. rewrite nthb_tab by done. by rewrite (nthb_ge (rest don)), xorb_false_r. }
    cbv zeta. rewrite mixed_snoc by done. eexists. split; [done|].
    pose proof (Nat.div_mod_eq (length don) rate) as Hdm.
    destruct (Nat.eqb_spec (length (rest don) + 1) rate) as [Heq|Hne].
    + assert (length (rest don ++ [b]) = rate) as Hl by (rewrite length_app; exact Heq).
      rewrite (absorbed_snoc don [b] (rest don ++ [b])) by (by apply blocks_one).
      rewrite absorb_mixed by (done || apply length_absorbed).
      assert (rest (don ++ [b]) = []) as ->.
      { apply length_zero_iff_nil. rewrite (proj2 (length_rest _)), length_app. cbn [length].
        replace (length don + 1)%nat with ((length don / rate + 1) * rate)%nat by lia.
        by rewrite Nat.Div0.mod_mul. }
      pose proof (length_f (mixed (absorbed don) (rest don ++ [b]))) as HZ. revert HZ.
      generalize (Fips202.f (mixed (absorbed don) (rest don ++ [b]))). intros Z HZ.
      by rewrite mixed_nil.
    + assert (rest (don ++ [b]) = rest don ++ [b]) as ->.
      { unfold rest. rewrite length_app. cbn [length].
        rewrite <- (Nat.div_unique (length don + 1) rate (length don / rate) (length don mod rate + 1)) by lia.
        by rewrite drop_app_le by lia. }
      assert (absorbed (don ++ [b]) = absorbed don) as ->.
      { unfold absorbed. rewrite blocks_extend, (blocks_short (rest don ++ [b])), app_nil_r; [done|].
        rewrite length_app. simpl. lia. }
      by rewrite length_app.
Qed.
Lemma flip_ok g i : (i < 1600)%nat →
  keval (flip (tab g) i) = Ret (tab (λ k, if (k =? i)%nat then negb (g i) else g k)).
Proof.
  intros Hi. unfold flip. rewrite keval_bind, (keval_kget _ _ _ (tab_lookup g i Hi)).
  cbn [mbind outcome_bind]. rewrite keval_bind. cbn [knot keval mbind outcome_bind mret Kernel_ret].
  by rewrite tab_insert.
Qed.
(** The last block. *)
Definition last_block (r : list bool) : list bool :=
  r ++ [false; true; true] ++ replicate (rate - length r - 4) false ++ [true].
Lemma last_block_ok r k : (length r ≤ 1080)%nat → nthb (last_block r) k =
  if decide (k < length r)%nat then nthb r k
  else ((k =? length r + 1) || (k =? length r + 2) || (k =? 1087))%nat.
Proof.
  intros Hr. unfold last_block, Fips202.rate.
  assert (∀ l m i, nthb (l ++ m) i = if decide (i < length l)%nat then nthb l i else nthb m (i - length l))
    as Happ.
  { intros l m i. unfold nthb. case_decide; [by rewrite lookup_app_l|by rewrite lookup_app_r by lia]. }
  rewrite Happ. case_decide as H1; [done|]. rewrite Happ. case_decide as H2.
  { simpl in H2. assert (k - length r = 0 ∨ k - length r = 1 ∨ k - length r = 2)%nat as Hk by lia.
    destruct (Nat.eqb_spec k (length r + 1)), (Nat.eqb_spec k (length r + 2)), (Nat.eqb_spec k 1087);
      destruct Hk as [Hk|[Hk|Hk]]; rewrite Hk; try done; lia. }
  simpl in H2. rewrite Happ, length_replicate. change (length [false; true; true]) with 3%nat.
  case_decide as H3.
  - unfold nthb. rewrite lookup_replicate_2 by done. simpl.
    destruct (Nat.eqb_spec k (length r + 1)), (Nat.eqb_spec k (length r + 2)), (Nat.eqb_spec k 1087);
      try done; lia.
  - destruct (Nat.eqb_spec k 1087) as [->|Hk].
    + replace (1087 - length r - 3 - (1088 - length r - 4))%nat with 0%nat by lia.
      by rewrite orb_true_r.
    + rewrite nthb_ge by (simpl; lia).
      destruct (Nat.eqb_spec k (length r + 1)), (Nat.eqb_spec k (length r + 2)); try done; lia.
Qed.

Lemma index_round M : (length M mod 8 = 0)%nat →
  (8 * ((length (rest M) + 7) / 8) = length (rest M) ∧ length (rest M) ≤ 1080)%nat.
Proof.
  intros HM. destruct (length_rest M) as [Hlt Hmod]. unfold Fips202.rate in *.
  pose proof (Nat.div_mod_eq (length M) 8) as H8.
  pose proof (Nat.div_mod_eq (length M) 1088) as H1088. rewrite <- Hmod in H1088.
  set (L := length (rest M)) in *. set (q := (length M / 1088)%nat) in *.
  assert (L = 8 * (length M / 8 - 136 * q))%nat as HL by lia.
  set (n := (length M / 8 - 136 * q)%nat) in *. rewrite HL.
  rewrite <- (Nat.div_unique (8 * n + 7) 8 n 7) by lia. lia.
Qed.
Lemma pad_last M : (length (rest M) ≤ 1080)%nat →
  rest M ++ [false; true] ++ Fips202.pad (length (M ++ [false; true])) = last_block (rest M).
Proof.
  intros Hr. unfold last_block, Fips202.pad. rewrite length_app.
  destruct (length_rest M) as [_ Hmod].
  pose proof (Nat.div_mod_eq (length M) rate) as Hdm. rewrite <- Hmod in Hdm.
  assert (Z.to_nat ((- Z.of_nat (length M + length [false; true]) - 2) mod Z.of_nat rate) =
    rate - length (rest M) - 4)%nat as ->; [|done].
  cbn [length]. unfold Fips202.rate in *.
  rewrite <- (Z.mod_unique _ (Z.of_nat 1088) (- Z.of_nat (length M / 1088) - 1)
    (1088 - Z.of_nat (length (rest M)) - 4)); lia.
Qed.
Lemma sha3_256_ok M : (length M mod 8 = 0)%nat → keval (sha3_256_wires M) = Ret (Fips202.sha3_256 M).
Proof.
  intros HM. destruct (index_round M HM) as [Hidx Hle]. unfold sha3_256_wires.
  rewrite keval_bind. cbn [kpub keval mbind outcome_bind].
  rewrite keval_bind, absorb_loop. cbn [mbind outcome_bind]. rewrite Hidx.
  rewrite !state_index_id by lia. unfold mixed.
  do 3 (rewrite keval_bind, flip_ok by lia; cbn [mbind outcome_bind]).
  assert (∀ g, (∀ k, (k < 1600)%nat → g k = xorb (nthb (absorbed M) k) (nthb (last_block (rest M)) k)) →
    tab g = mixed (absorbed M) (last_block (rest M))) as Hmix by (intros g Hg; by apply tab_ext).
  erewrite Hmix.
  2:{ intros k Hk. rewrite last_block_ok by done. set (r := length (rest M)) in *.
      pose proof (nthb_ge (rest M)) as Hge. fold r in Hge.
      case_decide; destruct (Nat.eqb_spec k 1087), (Nat.eqb_spec k (r + 2)), (Nat.eqb_spec k (r + 1));
        subst; cbn [orb]; try lia; rewrite ?Nat.eqb_refl;
        rewrite ?(proj2 (Nat.eqb_neq _ _)) by lia; rewrite ?Hge by lia;
        by rewrite ?xorb_false_r, ?xorb_true_r. }
  rewrite keval_bind, permute_ok by apply length_tab. cbn [mbind outcome_bind].
  assert (length (last_block (rest M)) = rate) as Hlb.
  { unfold last_block, Fips202.rate. rewrite !length_app, length_replicate. cbn [length]. lia. }
  unfold Fips202.sha3_256. cbv zeta. rewrite <- app_assoc.
  fold (absorbed (M ++ [false; true] ++ Fips202.pad (length (M ++ [false; true])))).
  rewrite (absorbed_snoc M _ (last_block (rest M))) by (rewrite pad_last by done; by apply blocks_one).
  rewrite absorb_mixed by (done || apply length_absorbed).
  pose proof (length_f (mixed (absorbed M) (last_block (rest M)))) as HZ. revert HZ.
  generalize (Fips202.f (mixed (absorbed M) (last_block (rest M)))). intros Z HZ.
  rewrite (keval_kmap_in _ (nthb Z)).
  - f_equal. apply list_eq. intros i. rewrite list_lookup_fmap. destruct (decide (i < 256)%nat).
    + rewrite lookup_seq_lt, lookup_take_lt by done. simpl. unfold nthb.
      by destruct (lookup_lt_is_Some_2 Z i) as [b ->]; [lia|].
    + rewrite !lookup_ge_None_2; [done|rewrite length_take; lia|rewrite length_seq; lia].
  - intros i [_ Hi]%elem_of_seq. rewrite state_index_id by lia. apply keval_kget. unfold nthb.
    by destruct (lookup_lt_is_Some_2 Z i) as [b ->]; [lia|].
Qed.

(** ** Properties *)

(** C35: the SHA3 circuit computes SHA3-256.  For every message of whole bytes,
    on every lawful context, the 256 output wires denote the digest of FIPS 202
    of the message the input wires denote: the step mappings with the rotation
    offsets and round constants the standard generates, the sponge with its
    domain bits and the multi-rate padding. *)
Theorem sha3_256_correct : computes1 (λ W1 W2, @RL W1 W2) (λ W, @sha3_256_wires W)
  (λ M, length M mod 8 = 0)%nat (λ M d, d = Fips202.sha3_256 M).
Proof.
  apply computes1_intro; [intros; by apply krel_sha3_256|].
  intros M HM. exists (Fips202.sha3_256 M). split; [by apply sha3_256_ok|done].
Qed.

(** The digest of the empty message, byte by byte, as published. *)
Example sha3_256_empty : Fips202.sha3_256 [] = unbytes
  [0xA7; 0xFF; 0xC6; 0xF8; 0xBF; 0x1E; 0xD7; 0x66; 0x51; 0xC1; 0x47; 0x56; 0xA0; 0x61; 0xD6; 0x62;
   0xF5; 0x80; 0xFF; 0x4D; 0xE4; 0x3B; 0x49; 0xFA; 0x82; 0xD8; 0x0A; 0x4B; 0x80; 0xF8; 0x43; 0x4A]%N.
Proof. by vm_compute. Qed.
