(* ===== verification/Crh.v ===== *)
(** * Hashing with a block cipher (runtime/crypto/aes.hpp, prp.h, ccrh.h, mitccrh.h)

    The block cipher is a parameter [aes key x]: aes.hpp computes it with the
    AES instructions, and a scheduled key stands for the key it came from.  The
    tiling of a run of blocks over the vector widths is modelled, as are the
    correlation-robust hashes built on it; [MITCCRH] is a state machine over the
    stream of gate ids. *)

From stdpp Require Import sorting.
From S2P Require Import Prelude Bits Bytes Block.

(** ** Tiles of blocks under one key *)
Section tiles.
Context (vaes256 vaes512 : bool).

(** A memory tile over the blocks from index [off] of the key's run; [f] is the
    per-block value, given the block's index in the run. *)
Definition tile (f : nat → N → N) (off : nat) (src : list N) : list N :=
  imap (λ j x, f (off + j)%nat x) src.
Fixpoint apply_grouped (fuel : nat) (f : nat → N → N) (off n_tiles : nat) (src : list N) : list N :=
  match fuel with
  | O => []
  | S fuel =>
      if (4 <? n_tiles)%nat then
        tile f off (take (4 * 4) src) ++ apply_grouped fuel f (off + 4 * 4) (n_tiles - 4) (drop (4 * 4) src)
      else if (0 <? n_tiles)%nat then tile f off (take (n_tiles * 4) src) else []
  end.
(** One key's run of [ParaEnc_mem_tiles_impl]. *)
Definition mem_tiles_run (f : nat → N → N) (numEncs : nat) (src : list N) : list N :=
  let N4 := if vaes512 then (numEncs / 4)%nat else 0%nat in
  let N2 := if vaes256 then ((numEncs - N4 * 4) / 2)%nat else 0%nat in
  let N1 := (numEncs - N4 * 4 - N2 * 2)%nat in
  apply_grouped (S N4) f 0 N4 (take (N4 * 4) src) ++
  tile f (N4 * 4) (take (N2 * 2) (drop (N4 * 4) src)) ++
  tile f (N4 * 4 + N2 * 2) (take N1 (drop (N4 * 4 + N2 * 2) src)).
Definition ParaEnc_mem_tiles_impl (f : nat → nat → N → N) (numKeys numEncs : nat) (src : list N) : list N :=
  flatten ((λ k, mem_tiles_run (f k) numEncs (take numEncs (drop (k * numEncs) src))) <$> seq 0 numKeys).

(** Every tiling computes block by block. *)
Lemma tile_app f off a b : tile f off (a ++ b) = tile f off a ++ tile f (off + length a) b.
Proof.
  unfold tile. rewrite imap_app. f_equal. apply imap_ext. intros i x _. simpl. f_equal. lia.
Qed.
Lemma apply_grouped_ok fuel f off n src : (n < fuel)%nat → (length src ≤ n * 4)%nat →
  apply_grouped fuel f off n src = tile f off src.
Proof.
  revert off n src. induction fuel as [|fuel IH]; intros off n src Hf Hl; [lia|]. cbn [apply_grouped].
  destruct (Nat.ltb_spec 4 n).
  - rewrite IH by (rewrite ?length_drop; lia).
    rewrite <- (take_drop (4 * 4) src) at 3. rewrite tile_app.
    destruct (decide (16 ≤ length src)%nat).
    + rewrite length_take. by replace ((4 * 4) `min` length src)%nat with (4 * 4)%nat by lia.
    + by rewrite (drop_ge src) by (simpl; lia).
  - destruct (Nat.ltb_spec 0 n); [by rewrite take_ge|].
    destruct src; [done|simpl in Hl; lia].
Qed.
Lemma mem_tiles_run_ok f n src : length src = n → mem_tiles_run f n src = imap f src.
Proof.
  intros Hn. unfold mem_tiles_run.
  set (N4 := if vaes512 then (n / 4)%nat else 0%nat).
  set (N2 := if vaes256 then ((n - N4 * 4) / 2)%nat else 0%nat).
  assert (N4 * 4 ≤ n)%nat as H4.
  { unfold N4. destruct vaes512; [|lia]. pose proof (Nat.div_mod_eq n 4). lia. }
  assert (N2 * 2 ≤ n - N4 * 4)%nat as H2.
  { unfold N2. destruct vaes256; [|lia]. pose proof (Nat.div_mod_eq (n - N4 * 4) 2). lia. }
  clearbody N4 N2. rewrite apply_grouped_ok by (rewrite ?length_take; lia).
  rewrite (take_ge (drop (N4 * 4 + N2 * 2) src)) by (rewrite length_drop; lia).
  rewrite <- (take_drop (N4 * 4) src) at 4. change (imap f ?l) with (tile f 0 l). rewrite tile_app.
  f_equal. rewrite length_take. replace (0 + (N4 * 4) `min` length src)%nat with (N4 * 4)%nat by lia.
  rewrite <- (take_drop (N2 * 2) (drop (N4 * 4) src)) at 2. rewrite tile_app. f_equal.
  rewrite drop_drop, length_take, length_drop.
  by replace (N4 * 4 + (N2 * 2) `min` (length src - N4 * 4))%nat with (N4 * 4 + N2 * 2)%nat by lia.
Qed.
End tiles.

(** ** The runtime ladder

    [drain_tiles] over an operation: [run W] handles [W] blocks and advances the
    operation's own cursor. *)
Section ladder.
Context (vaes512 : bool) {Op : Type} (run : nat → Op → Op).

Definition drain_left (d : Op * nat) : nat := d.2.
Definition drain_run (W : nat) (d : Op * nat) : Op * nat := (run W d.1, (d.2 - W)%nat).
Fixpoint drain_while (fuel W : nat) (d : Op * nat) : Op * nat :=
  match fuel with
  | O => d
  | S fuel => if (W <=? drain_left d)%nat then drain_while fuel W (drain_run W d) else d
  end.
Definition drain_if (W : nat) (d : Op * nat) : Op * nat :=
  if (W <=? drain_left d)%nat then drain_run W d else d.
Definition drain_tiles (op : Op) (n : nat) : Op :=
  let d := (op, n) in
  let d := if vaes512 then drain_while n 16 d else d in
  let d := drain_while n 8 d in
  (drain_if 1 (drain_if 2 (drain_if 4 d))).1.

(** When a run of [W] is [W] single steps, as long as [can] many steps remain,
    the ladder is as many steps as there are blocks. *)
Context (step : Op → Op) (can : nat → Op → Prop).
Hypothesis can_step : ∀ k op, can (S k) op → can k (step op).
Hypothesis run_steps : ∀ W k op, can (W + k) op → run W op = Nat.iter W step op.

Lemma can_iter W k op : can (W + k) op → can k (Nat.iter W step op).
Proof. revert k. induction W as [|W IH]; intros k H; [done|]. apply can_step, IH. by rewrite Nat.add_succ_r. Qed.
(** What is left to do, as the state it leads to. *)
Definition drain_rest (d : Op * nat) : Op := Nat.iter d.2 step d.1.
Definition drain_ok (d : Op * nat) : Prop := can d.2 d.1.
Lemma drain_run_rest W d : (W ≤ drain_left d)%nat → drain_ok d →
  drain_ok (drain_run W d) ∧ drain_rest (drain_run W d) = drain_rest d ∧
  drain_left (drain_run W d) = (drain_left d - W)%nat.
Proof.
  destruct d as [op n]. unfold drain_left, drain_ok, drain_rest, drain_run. cbn [fst snd]. intros HW Hn.
  replace n with (W + (n - W))%nat in Hn by lia. rewrite (run_steps W (n - W)) by done.
  split; [by apply can_iter|]. split; [|done]. rewrite <- Nat.iter_add. f_equal. lia.
Qed.
Lemma drain_while_rest fuel W d : (0 < W)%nat → drain_ok d → (drain_left d ≤ fuel)%nat →
  let d' := drain_while fuel W d in
  drain_ok d' ∧ drain_rest d' = drain_rest d ∧ (drain_left d' < W)%nat ∧ (drain_left d' ≤ drain_left d)%nat.
Proof.
  intros HW. revert d. induction fuel as [|fuel IH]; intros d Hd Hf; simpl.
  { split_and!; [done..|lia|lia]. }
  destruct (Nat.leb_spec W (drain_left d)) as [Hle|Hlt]; [|split_and!; [done..|lia|lia]].
  destruct (drain_run_rest W d Hle Hd) as (Hd' & Hr & Hl).
  destruct (IH (drain_run W d)) as (? & Hr' & ? & ?); [done|lia|].
  split; [done|]. split; [by rewrite Hr'|]. lia.
Qed.
Lemma drain_if_rest W d : drain_ok d → (drain_left d < 2 * W)%nat →
  drain_ok (drain_if W d) ∧ drain_rest (drain_if W d) = drain_rest d ∧ (drain_left (drain_if W d) < W)%nat.
Proof.
  intros Hd Hl. unfold drain_if. destruct (Nat.leb_spec W (drain_left d)); [|split_and!; [done..|lia]].
  destruct (drain_run_rest W d) as (? & ? & ?); [done..|]. split_and!; [done..|lia].
Qed.
Lemma drain_tiles_steps op n : can n op → drain_tiles op n = Nat.iter n step op.
Proof.
  intros Hn. unfold drain_tiles. set (d0 := (op, n)).
  set (d1 := if vaes512 then drain_while n 16 d0 else d0).
  assert (drain_ok d1 ∧ drain_rest d1 = Nat.iter n step op ∧ (drain_left d1 ≤ n)%nat) as (Hd1 & Hr1 & Hl1).
  { unfold d1. destruct vaes512; [|done].
    destruct (drain_while_rest n 16 d0) as (? & ? & ? & ?); [lia|done|done|].
    split; [done|]. split; [done|]. by etrans. }
  clearbody d1. destruct (drain_while_rest n 8 d1) as (Hd2 & Hr2 & Hl2 & _); [lia|done|done|].
  cbv zeta. set (d2 := drain_while n 8 d1) in *. clearbody d2.
  destruct (drain_if_rest 4 d2) as (Hd3 & Hr3 & Hl3); [done|lia|].
  destruct (drain_if_rest 2 (drain_if 4 d2)) as (Hd4 & Hr4 & Hl4); [done|lia|].
  destruct (drain_if_rest 1 (drain_if 2 (drain_if 4 d2))) as (Hd5 & Hr5 & Hl5); [done|lia|].
  rewrite <- Hr1, <- Hr2, <- Hr3, <- Hr4, <- Hr5. unfold drain_rest, drain_left in *.
  by assert ((drain_if 1 (drain_if 2 (drain_if 4 d2))).2 = 0%nat) as -> by lia.
Qed.
End ladder.

(** One key's run through memory: blocks written so far, source cursor. *)
Section mem_tiles.
Context (vaes256 vaes512 : bool).
Definition MemTileOp : Type := list N * list N.
Definition mem_run (f : N → N) (W : nat) (op : MemTileOp) : MemTileOp :=
  (op.1 ++ ParaEnc_mem_tiles_impl vaes256 vaes512 (λ _ _, f) 1 W op.2, drop W op.2).
Definition mem_drain (f : N → N) (src : list N) (n : nat) : list N :=
  (drain_tiles vaes512 (mem_run f) ([], src) n).1.
Definition ParaEnc_mem_tiles_runtime_impl (f : nat → N → N) (src : list N) (K n : nat) : list N :=
  flatten ((λ k, mem_drain (f k) (drop (k * n) src) n) <$> seq 0 K).

Definition mem_step (f : N → N) (op : MemTileOp) : MemTileOp :=
  (op.1 ++ (f <$> take 1 op.2), drop 1 op.2).
Lemma mem_iter f W out src :
  Nat.iter W (mem_step f) (out, src) = (out ++ (f <$> take W src), drop W src).
Proof.
  revert out src. induction W as [|W IH]; intros out src; [by rewrite take_0, drop_0, app_nil_r|].
  rewrite Nat.iter_succ_r. unfold mem_step at 2. cbn [fst snd]. rewrite IH, drop_drop.
  by rewrite <- app_assoc, <- fmap_app, take_take_drop.
Qed.
Lemma mem_run_steps f W k op : (W + k ≤ length op.2)%nat → mem_run f W op = Nat.iter W (mem_step f) op.
Proof.
  destruct op as [out src]. cbn [snd]. intros Hn. rewrite mem_iter.
  unfold mem_run, ParaEnc_mem_tiles_impl. cbn [seq fmap list_fmap Nat.mul fst snd].
  rewrite drop_0, flatten_cons, app_nil_r, mem_tiles_run_ok by (rewrite length_take; lia).
  change (λ _ : nat, f) with (const (B := nat) f). by rewrite imap_const.
Qed.
Lemma mem_drain_ok f src n : (n ≤ length src)%nat → mem_drain f src n = f <$> take n src.
Proof.
  intros Hn. unfold mem_drain.
  rewrite (drain_tiles_steps _ _ (mem_step f) (λ k op, k ≤ length op.2)%nat); [by rewrite mem_iter|..|done].
  - intros k op Hk. unfold mem_step. cbn [snd]. rewrite length_drop. lia.
  - intros W k op. apply mem_run_steps.
Qed.
End mem_tiles.


(** ** PRP and CCRH *)
Section prp.
Context (vaes256 vaes512 : bool) (aes : N → N → N).
Definition AES_BATCH_SIZE : nat := 64.
(** The batches of [permute_block]; each is at least one block. *)
Fixpoint permute_loop (fuel : nat) (key : N) (data : list N) (nblocks : nat) : list N :=
  match fuel with
  | O => data
  | S fuel =>
      if (0 <? nblocks)%nat then
        let n := if (nblocks <? AES_BATCH_SIZE)%nat then nblocks else AES_BATCH_SIZE in
        mem_drain vaes256 vaes512 (aes key) data n ++ permute_loop fuel key (drop n data) (nblocks - n)
      else data
  end.
(** [aligned]: the data pointer is a multiple of 16. *)
Definition permute_block (key : N) (data : list N) (nblocks : Z) (aligned : bool) : outcome (list N) :=
  expecting (0 <=? nblocks)%Z "PRP::permute_block: negative block count";;
  if (nblocks =? 0)%Z then mret data else
  expecting aligned "PRP::permute_block: data must be 16-byte aligned";;
  mret (permute_loop (Z.to_nat nblocks) key data (Z.to_nat nblocks)).

Definition crh_block (key t : N) : N := N.lxor (aes key t) t.
Definition CCRH_H (key x : N) : N := let t := sigma x in crh_block key t.
Definition CCRH_Hn (key : N) (input : list N) (length : Z) : list N :=
  if (length <=? 0)%Z then [] else
  mem_drain vaes256 vaes512 (λ x, crh_block key (sigma x)) input (Z.to_nat length).

Lemma permute_loop_ok fuel key data n : (n ≤ fuel)%nat → (n ≤ length data)%nat →
  permute_loop fuel key data n = (aes key <$> take n data) ++ drop n data.
Proof.
  revert data n. induction fuel as [|fuel IH]; intros data n Hf Hn.
  { by replace n with 0%nat by lia. }
  cbn [permute_loop]. destruct (Nat.ltb_spec 0 n); [|by replace n with 0%nat by lia].
  set (m := if (n <? AES_BATCH_SIZE)%nat then n else AES_BATCH_SIZE).
  assert (0 < m ≤ n)%nat as Hm.
  { unfold m, AES_BATCH_SIZE. destruct (Nat.ltb_spec n 64); lia. }
  rewrite mem_drain_ok, IH by (rewrite ?length_drop; lia).
  rewrite app_assoc, <- fmap_app, take_take_drop, drop_drop. do 2 f_equal; [f_equal|]; lia.
Qed.
Lemma CCRH_Hn_ok key input n : (n ≤ length input)%nat →
  CCRH_Hn key input (Z.of_nat n) = CCRH_H key <$> take n input.
Proof.
  intros Hn. unfold CCRH_Hn. destruct (Z.leb_spec (Z.of_nat n) 0).
  { by replace n with 0%nat by lia. }
  rewrite Nat2Z.id. by apply mem_drain_ok.
Qed.
End prp.

(** ** MITCCRH *)
Module MITCCRH.
Section mitccrh.
Context (vaes256 vaes512 : bool) (aes : N → N → N).
Context (BatchSize : nat) (ReuseShift : N).

Definition none_bucket : N := 0xFFFFFFFFFFFFFFFF.
Record State := mkState {
  scheduled_key : list N; keys : list N; key_used : nat; start_point : N;
  gid : N; scheduled_bucket : N; lane_gid0 : N }.
(** A new object: only the initialised members matter. *)
Definition new (sched ks : list N) (sp : N) : State := mkState sched ks BatchSize sp 0 none_bucket 0.
Definition setS (sin : N) (s : State) : State :=
  mkState (scheduled_key s) (keys s) BatchSize sin 0 none_bucket 0.

(** The first keys of the schedule are those of [ks]. *)
Definition AES_opt_key_schedule (ks sched : list N) : list N := ks ++ drop (length ks) sched.
Definition renew_ks (s : State) : State :=
  let g := gid s in
  if (ReuseShift =? 0)%N then
    let ks := (λ i, N.lxor (start_point s) (makeBlock (u64 (g + N.of_nat i)) 0)) <$> seq 0 BatchSize in
    mkState (AES_opt_key_schedule ks (scheduled_key s)) ks 0 (start_point s)
      (u64 (g + N.of_nat BatchSize)) (scheduled_bucket s) g
  else
    let first := N.shiftr g ReuseShift in
    let last := N.shiftr (u64 (g + N.of_nat BatchSize - 1)) ReuseShift in
    if (first =? last)%N then
      if (first =? scheduled_bucket s)%N then
        mkState (scheduled_key s) (keys s) 0 (start_point s) (u64 (g + N.of_nat BatchSize))
          (scheduled_bucket s) g
      else
        let k0 := N.lxor (start_point s) (makeBlock first 0) in
        mkState (AES_opt_key_schedule [k0] (scheduled_key s)) (k0 :: tail (keys s)) 0 (start_point s)
          (u64 (g + N.of_nat BatchSize)) first g
    else
      let ks := (λ i, N.lxor (start_point s)
                 (makeBlock (N.shiftr (u64 (g + N.of_nat i)) ReuseShift) 0)) <$> seq 0 BatchSize in
      mkState (AES_opt_key_schedule ks (scheduled_key s)) ks 0 (start_point s)
        (u64 (g + N.of_nat BatchSize)) none_bucket g.
Definition renew_ks_at (g : N) (s : State) : State :=
  renew_ks (mkState (scheduled_key s) (keys s) (key_used s) (start_point s) g (scheduled_bucket s) (lane_gid0 s)).

(** Addition in each 64-bit lane, and the tweak of block [b] of a run. *)
Definition add64 (a b : N) : N := makeBlock (u64 (lane1 a + lane1 b)) (u64 (lane0 a + lane0 b)).
Definition lane_offset (Span b : nat) : N := makeBlock (N.of_nat (b / Span)) 0.
(** The two tweaked tiles: [pre] is [sigma] or the identity. *)
Definition tweak_block (pre : N → N) (Span : nat) (key tb : N) (b : nat) (x : N) : N :=
  let y := N.lxor (pre x) (add64 tb (lane_offset Span b)) in N.lxor (aes key y) y.

Definition sched_key (s : State) (i : nat) : N := default 0%N (scheduled_key s !! i).
(** [consume<Tile, K, H>]: the blocks written and the new state. *)
Definition consume (pre : N → N) (K H : nat) (src : list N) (s : State) : list N * State :=
  let s := if (BatchSize <? key_used s + K)%nat then renew_ks s else s in
  let g0 := u64 (lane_gid0 s + N.of_nat (key_used s)) in
  let s' := mkState (scheduled_key s) (keys s) (key_used s + K) (start_point s) (gid s)
              (scheduled_bucket s) (lane_gid0 s) in
  if (0 <? ReuseShift)%N && negb (scheduled_bucket s =? none_bucket)%N then
    (ParaEnc_mem_tiles_impl vaes256 vaes512
       (λ _, tweak_block pre H (sched_key s 0) (makeBlock g0 0)) 1 (K * H) src, s')
  else
    (ParaEnc_mem_tiles_impl vaes256 vaes512
       (λ k, tweak_block pre H (sched_key s (key_used s + k)) (makeBlock (u64 (g0 + N.of_nat k)) 0)) K H src, s').
Definition hash_cir (K H : nat) : list N → State → list N * State := consume sigma K H.
Definition hash (K H : nat) : list N → State → list N * State := consume id K H.

(** *** What a hash computes

    The documented function of a block and a gate id, and the blocks of [K]
    consecutive ids, [H] each. *)
Definition H_spec (pre : N → N) (S i x : N) : N :=
  let y := N.lxor (pre x) (makeBlock i 0) in
  N.lxor y (aes (N.lxor S (makeBlock (N.shiftr i ReuseShift) 0)) y).
Definition stream_spec (pre : N → N) (S g : N) (H : nat) (src : list N) : list N :=
  imap (λ j x, H_spec pre S (g + N.of_nat (j / H)) x) src.

(** The schedule the state holds covers the gate ids it stands for. *)
Record Inv (s : State) : Prop := {
  inv_used : (key_used s ≤ BatchSize)%nat;
  inv_bucket : scheduled_bucket s ≠ none_bucket → ReuseShift ≠ 0%N ∧
    sched_key s 0 = N.lxor (start_point s) (makeBlock (scheduled_bucket s) 0);
  inv_lanes : (key_used s < BatchSize)%nat →
    gid s = (lane_gid0 s + N.of_nat BatchSize)%N ∧
    ∀ k, (k < BatchSize)%nat →
      if (scheduled_bucket s =? none_bucket)%N
      then sched_key s k = N.lxor (start_point s) (makeBlock (N.shiftr (lane_gid0 s + N.of_nat k) ReuseShift) 0)
      else N.shiftr (lane_gid0 s + N.of_nat k) ReuseShift = scheduled_bucket s }.
(** The gate id the next [K] lanes start at. *)
Definition next_gid (K : nat) (s : State) : N :=
  if (BatchSize <? key_used s + K)%nat then gid s else (lane_gid0 s + N.of_nat (key_used s))%N.

Lemma lane1_makeBlock h l : lane1 (makeBlock h l) = (h mod 2 ^ 64)%N.
Proof.
  unfold lane1, makeBlock. rewrite N.div_add_l by done. rewrite N.div_small, N.add_0_r; [done|].
  by apply N.mod_lt.
Qed.
Lemma lane0_makeBlock h l : lane0 (makeBlock h l) = (l mod 2 ^ 64)%N.
Proof.
  unfold lane0, makeBlock. rewrite N.add_comm, N.Div0.mod_add. apply N.Div0.mod_mod.
Qed.
Lemma add64_high a b : (a + b < 2 ^ 64)%N → add64 (makeBlock a 0) (makeBlock b 0) = makeBlock (a + b) 0.
Proof.
  intros Hab. unfold add64. rewrite !lane1_makeBlock, !lane0_makeBlock.
  rewrite !(N.mod_small _ (2 ^ 64)) by lia. by rewrite u64_small.
Qed.

Lemma sched_key_new ks s i k : ks !! i = Some k →
  default 0%N (AES_opt_key_schedule ks (scheduled_key s) !! i) = k.
Proof.
  intros Hk. unfold AES_opt_key_schedule. rewrite lookup_app_l by (by eapply lookup_lt_Some).
  by rewrite Hk.
Qed.
Definition bucket_ok (s : State) : Prop :=
  scheduled_bucket s ≠ none_bucket → ReuseShift ≠ 0%N ∧
    sched_key s 0 = N.lxor (start_point s) (makeBlock (scheduled_bucket s) 0).
Lemma renew_ok s : (0 < BatchSize)%nat → bucket_ok s → (gid s + N.of_nat BatchSize < 2 ^ 64)%N →
  let s' := renew_ks s in
  Inv s' ∧ key_used s' = 0%nat ∧ lane_gid0 s' = gid s ∧ start_point s' = start_point s ∧
  gid s' = (gid s + N.of_nat BatchSize)%N.
Proof.
  intros HB Hb Hg. unfold renew_ks. rewrite (u64_small (gid s + N.of_nat BatchSize)) by done.
  destruct (N.eqb_spec ReuseShift 0) as [HR|HR].
  { assert (scheduled_bucket s = none_bucket) as Hnone.
    { destruct (decide (scheduled_bucket s = none_bucket)) as [|Hne]; [done|]. by destruct (Hb Hne). }
    split; [|done]. split; simpl; [lia|congruence|]. intros _. split; [done|]. intros k Hk.
    rewrite Hnone, N.eqb_refl. apply (sched_key_new _ s).
    rewrite list_lookup_fmap, lookup_seq_lt by done. simpl. rewrite u64_small by lia.
    by rewrite HR, N.shiftr_0_r. }
  rewrite (u64_small (gid s + N.of_nat BatchSize - 1)) by lia.
  set (first := N.shiftr (gid s) ReuseShift).
  assert (first ≠ none_bucket) as Hfirst.
  { unfold first. rewrite N.shiftr_div_pow2. unfold none_bucket. intros Heq.
    assert (gid s / 2 ^ ReuseShift ≤ gid s / 2)%N as Hle.
    { apply N.div_le_compat_l. split; [lia|]. change 2%N with (2 ^ 1)%N at 1. apply N.pow_le_mono_r; lia. }
    assert (gid s / 2 < 2 ^ 63)%N by (apply N.Div0.div_lt_upper_bound; lia). lia. }
  destruct (N.eqb_spec first (N.shiftr (gid s + N.of_nat BatchSize - 1) ReuseShift)) as [Hsame|_].
  - assert (∀ k, (k < BatchSize)%nat → N.shiftr (gid s + N.of_nat k) ReuseShift = first) as Hall.
    { intros k Hk. unfold first in *. rewrite !N.shiftr_div_pow2 in *. apply N.le_antisymm.
      - rewrite Hsame. apply N.Div0.div_le_mono. lia.
      - apply N.Div0.div_le_mono. lia. }
    destruct (N.eqb_spec first (scheduled_bucket s)) as [Heq|_].
    + split; [|done]. split; simpl; [lia|done|]. intros _. split; [done|]. intros k Hk.
      rewrite <- Heq, (proj2 (N.eqb_neq _ _) Hfirst). by apply Hall.
    + split; [|done]. split; simpl; [lia| |].
      * intros _. split; [done|]. by apply (sched_key_new _ s).
      * intros _. split; [done|]. intros k Hk. rewrite (proj2 (N.eqb_neq _ _) Hfirst). by apply Hall.
  - split; [|done]. split; simpl; [lia|done|]. intros _. split; [done|]. intros k Hk.
    apply (sched_key_new _ s).
    rewrite list_lookup_fmap, lookup_seq_lt by done. simpl. by rewrite u64_small by lia.
Qed.

Lemma mem_tiles_impl_ok (f : nat → nat → N → N) K H src : length src = (K * H)%nat → (0 < H)%nat →
  ParaEnc_mem_tiles_impl vaes256 vaes512 f K H src = imap (λ j x, f (j / H)%nat (j mod H)%nat x) src.
Proof.
  intros Hl HH. unfold ParaEnc_mem_tiles_impl. revert f src Hl. induction K as [|K IH]; intros f src Hl.
  { by destruct src. }
  cbn [seq]. rewrite fmap_cons, flatten_cons. cbn [Nat.mul]. rewrite drop_0.
  rewrite mem_tiles_run_ok by (rewrite length_take; lia).
  transitivity (imap (λ j x, f (j / H)%nat (j mod H)%nat x) (take H src ++ drop H src));
    [|by rewrite take_drop].
  rewrite imap_app. f_equal.
  - apply imap_ext. intros i x Hi. apply lookup_lt_Some in Hi. rewrite length_take in Hi.
    by rewrite Nat.div_small, Nat.mod_small by lia.
  - rewrite <- fmap_S_seq, <- list_fmap_compose.
    transitivity (imap (λ j x, f (S (j / H))%nat (j mod H)%nat x) (drop H src)).
    2: { apply imap_ext. intros i x _. simpl. rewrite length_take.
      replace (H `min` length src + i)%nat with (i + 1 * H)%nat by lia.
      rewrite Nat.div_add, Nat.Div0.mod_add by lia. by rewrite Nat.add_1_r. }
    rewrite <- (IH (λ k, f (S k))) by (rewrite length_drop; lia). f_equal. apply list_fmap_ext.
    intros ? k _. unfold compose. do 2 f_equal. by rewrite drop_drop.
Qed.

Lemma H_spec_tweak pre H (S key tb g : N) b x j :
  key = N.lxor S (makeBlock (N.shiftr (g + N.of_nat j) ReuseShift) 0) →
  add64 tb (lane_offset H b) = makeBlock (g + N.of_nat j) 0 →
  tweak_block pre H key tb b x = H_spec pre S (g + N.of_nat j) x.
Proof. intros -> Htb. unfold tweak_block, H_spec. rewrite Htb. apply N.lxor_comm. Qed.
(** A run under one key per lane, and a run under the bucket's one key. *)
Lemma straddling_run pre K H (S g : N) (key : nat → N) src :
  (0 < H)%nat → length src = (K * H)%nat → (g + N.of_nat K < 2 ^ 64)%N →
  (∀ k, (k < K)%nat → key k = N.lxor S (makeBlock (N.shiftr (g + N.of_nat k) ReuseShift) 0)) →
  ParaEnc_mem_tiles_impl vaes256 vaes512
    (λ k, tweak_block pre H (key k) (makeBlock (u64 (g + N.of_nat k)) 0)) K H src =
  stream_spec pre S g H src.
Proof.
  intros HH Hl Hg Hkey. rewrite mem_tiles_impl_ok by done. apply imap_ext.
  intros j x Hj%lookup_lt_Some. assert (j / H < K)%nat by (apply Nat.Div0.div_lt_upper_bound; lia).
  apply H_spec_tweak; [by apply Hkey|]. rewrite u64_small by lia.
  unfold lane_offset. rewrite (Nat.div_small (j mod H)) by (apply Nat.mod_upper_bound; lia).
  rewrite add64_high by (simpl; lia). by rewrite N.add_0_r.
Qed.
Lemma uniform_run pre K H (S g key : N) src :
  (0 < K)%nat → (0 < H)%nat → length src = (K * H)%nat → (g + N.of_nat K < 2 ^ 64)%N →
  (∀ k, (k < K)%nat → key = N.lxor S (makeBlock (N.shiftr (g + N.of_nat k) ReuseShift) 0)) →
  ParaEnc_mem_tiles_impl vaes256 vaes512 (λ _, tweak_block pre H key (makeBlock g 0)) 1 (K * H) src =
  stream_spec pre S g H src.
Proof.
  intros HK HH Hl Hg Hkey.
  rewrite mem_tiles_impl_ok by (try done; nia). apply imap_ext.
  intros j x Hj%lookup_lt_Some. assert (j / H < K)%nat by (apply Nat.Div0.div_lt_upper_bound; lia).
  rewrite Nat.mod_small by lia. apply H_spec_tweak; [by apply Hkey|].
  unfold lane_offset. apply add64_high. lia.
Qed.

Lemma consume_ok pre K H src s :
  (0 < K ≤ BatchSize)%nat → (0 < H)%nat → length src = (K * H)%nat → Inv s →
  (gid s + N.of_nat BatchSize < 2 ^ 64)%N →
  let g := next_gid K s in
  let '(out, s') := consume pre K H src s in
  out = stream_spec pre (start_point s) g H src ∧ Inv s' ∧ start_point s' = start_point s ∧
  (gid s' ≤ gid s + N.of_nat BatchSize)%N ∧
  (∀ K', g + N.of_nat K ≤ next_gid K' s')%N.
Proof.
  intros HK HH Hlen Hs Hg. cbv zeta. unfold consume.
  set (s1 := if (BatchSize <? key_used s + K)%nat then renew_ks s else s).
  assert (Inv s1 ∧ (key_used s1 + K ≤ BatchSize)%nat ∧ start_point s1 = start_point s ∧
    (lane_gid0 s1 + N.of_nat (key_used s1))%N = next_gid K s ∧
    (gid s1 ≤ gid s + N.of_nat BatchSize)%N ∧ (gid s1 < 2 ^ 64)%N) as (Hs1 & Hfit & Hsp & Hnext & Hg1 & Hg1').
  { unfold s1, next_gid. destruct (Nat.ltb_spec BatchSize (key_used s + K)).
    - destruct (renew_ok s) as (? & Hk0 & Hl0 & ? & ?); [lia|exact (inv_bucket s Hs)|done|]. rewrite Hk0, Hl0.
      split_and!; [done|lia|done|lia|lia|lia].
    - split_and!; [done|lia|done|done|lia|lia]. }
  clearbody s1. destruct Hs1 as [Hu Hb Hl]. destruct Hl as [Hgid Hlanes]; [lia|].
  rewrite <- Hsp, <- Hnext. set (g := (lane_gid0 s1 + N.of_nat (key_used s1))%N).
  set (s' := mkState (scheduled_key s1) (keys s1) (key_used s1 + K) (start_point s1) (gid s1)
    (scheduled_bucket s1) (lane_gid0 s1)).
  assert (Inv s' ∧ start_point s' = start_point s1 ∧ (gid s' ≤ gid s + N.of_nat BatchSize)%N ∧
    (∀ K', g + N.of_nat K ≤ next_gid K' s')%N) as Hpost.
  { split; [split; simpl; [lia|done|by intros _]|]. split; [done|]. split; [done|].
    intros K'. unfold next_gid. simpl. destruct (_ <? _)%nat; unfold g; lia. }
  rewrite (u64_small g) by (unfold g; lia).
  assert (ReuseShift = 0%N → scheduled_bucket s1 = none_bucket) as HR0.
  { intros HR. destruct (decide (scheduled_bucket s1 = none_bucket)) as [|Hne]; [done|]. by destruct (Hb Hne). }
  destruct (N.ltb_spec 0 ReuseShift); [destruct (N.eqb_spec (scheduled_bucket s1) none_bucket) as [Hnone|Hbkt]|
    rewrite HR0 in Hlanes by lia; rewrite N.eqb_refl in Hlanes]; simpl; (split; [|exact Hpost]).
  - apply straddling_run; [done..|unfold g; lia|]. intros k Hk. rewrite Hlanes by lia.
    unfold g. do 3 f_equal. lia.
  - destruct (Hb Hbkt) as [_ Hkey]. apply uniform_run; [lia|done..|unfold g; lia|]. intros k Hk.
    rewrite Hkey. specialize (Hlanes (key_used s1 + k)%nat ltac:(lia)).
    rewrite <- Hlanes. unfold g. do 3 f_equal. lia.
  - apply straddling_run; [done..|unfold g; lia|]. intros k Hk. rewrite Hlanes by lia.
    unfold g. do 3 f_equal. lia.
Qed.

(** The states a [MITCCRH] with start point [S] goes through.  The guards are
    the counter's: a stream of [2^64] gate ids is not exhausted. *)
Inductive Reachable (S : N) : State → Prop :=
  | reach_setS s : Reachable S (setS S s)
  | reach_renew s g : Reachable S s → (g + N.of_nat BatchSize < 2 ^ 64)%N → Reachable S (renew_ks_at g s)
  | reach_consume s pre K H src : Reachable S s → (gid s + N.of_nat BatchSize < 2 ^ 64)%N →
      (0 < K ≤ BatchSize)%nat → (0 < H)%nat → length src = (K * H)%nat →
      Reachable S (consume pre K H src s).2.
Lemma setS_inv S s : Inv (setS S s).
Proof. split; simpl; [lia|done|lia]. Qed.
Lemma reachable_inv S s : (0 < BatchSize)%nat → Reachable S s → Inv s ∧ start_point s = S.
Proof.
  intros HB. induction 1 as [s|s g _ [IH Hsp] Hg|s pre K H src _ [IH Hsp] Hg HK HH Hl].
  - split; [apply setS_inv|done].
  - destruct (renew_ok (mkState (scheduled_key s) (keys s) (key_used s) (start_point s) g
      (scheduled_bucket s) (lane_gid0 s)) HB) as (? & _ & _ & Hs & _); [exact (inv_bucket s IH)|done|].
    split; [done|]. etrans; [exact Hs|done].
  - pose proof (consume_ok pre K H src s HK HH Hl IH Hg) as Hc.
    destruct (consume pre K H src s) as [out s']. destruct Hc as (_ & ? & Hs & _).
    split; [done|]. simpl. by rewrite Hs.
Qed.

(** *** A use of the stream

    Hash calls, with or without [sigma], and repositionings. *)
Record Call := mkCall { c_cir : bool; c_K : nat; c_H : nat; c_src : list N }.
Inductive Event := EHash (c : Call) | ERenew (g : N).
Definition call (c : Call) (s : State) : list N * State :=
  if c_cir c then hash_cir (c_K c) (c_H c) (c_src c) s else hash (c_K c) (c_H c) (c_src c) s.
(** The blocks each hash call wrote, and the state at the end. *)
Fixpoint run (evs : list Event) (s : State) : list (list N) * State :=
  match evs with
  | [] => ([], s)
  | EHash c :: evs => let '(out, s) := call c s in let '(outs, s) := run evs s in (out :: outs, s)
  | ERenew g :: evs => run evs (renew_ks_at g s)
  end.
(** Each hash call with the gate id of its first lane, and the ids of its lanes. *)
Fixpoint starts (evs : list Event) (s : State) : list (Call * N) :=
  match evs with
  | [] => []
  | EHash c :: evs => (c, next_gid (c_K c) s) :: starts evs (call c s).2
  | ERenew g :: evs => starts evs (renew_ks_at g s)
  end.
Definition lane_ids (cg : Call * N) : list N := (λ k, cg.2 + N.of_nat k)%N <$> seq 0 (c_K cg.1).
Definition call_spec (S : N) (cg : Call * N) : list N :=
  stream_spec (if c_cir cg.1 then sigma else id) S cg.2 (c_H cg.1) (c_src cg.1).
(** The first gate id no call has used. *)
Definition cursor (s : State) : N :=
  if (key_used s <? BatchSize)%nat then (lane_gid0 s + N.of_nat (key_used s))%N else gid s.
(** Calls of the template's shape, repositionings that go forward only, and a
    counter that stays below [2^64]. *)
Fixpoint forward (evs : list Event) (s : State) : Prop :=
  match evs with
  | [] => True
  | EHash c :: evs =>
      (0 < c_K c ≤ BatchSize)%nat ∧ (0 < c_H c)%nat ∧ length (c_src c) = (c_K c * c_H c)%nat ∧
      (gid s + N.of_nat BatchSize < 2 ^ 64)%N ∧ forward evs (call c s).2
  | ERenew g :: evs =>
      (cursor s ≤ g)%N ∧ (g + N.of_nat BatchSize < 2 ^ 64)%N ∧ forward evs (renew_ks_at g s)
  end.

Lemma StronglySorted_lane_ids cg : StronglySorted N.lt (lane_ids cg).
Proof.
  unfold lane_ids. generalize 0%nat at 1. induction (c_K cg.1) as [|n IH]; intros m; cbn [seq fmap list_fmap]; constructor; [apply IH|].
  apply Forall_forall. intros i (k & -> & Hk)%list_elem_of_fmap. apply elem_of_seq in Hk. lia.
Qed.
Lemma call_consume c s : call c s = consume (if c_cir c then sigma else id) (c_K c) (c_H c) (c_src c) s.
Proof. unfold call. by destruct (c_cir c). Qed.
Lemma next_gid_cursor K s : (0 < K)%nat → Inv s → (cursor s ≤ next_gid K s)%N.
Proof.
  intros HK Hs. unfold cursor, next_gid. destruct (Nat.ltb_spec (key_used s) BatchSize), (Nat.ltb_spec BatchSize (key_used s + K)); try lia.
  pose proof (inv_lanes s Hs ltac:(done)) as [Hg _]. lia.
Qed.
Lemma cursor_next s : (0 < BatchSize)%nat → ∃ K, cursor s = next_gid K s.
Proof.
  intros HB. unfold cursor, next_gid. destruct (Nat.ltb_spec (key_used s) BatchSize).
  - exists 0%nat. destruct (Nat.ltb_spec BatchSize (key_used s + 0)); [lia|done].
  - exists (S BatchSize). destruct (Nat.ltb_spec BatchSize (key_used s + S BatchSize)); [done|lia].
Qed.
Lemma mitccrh_run_ok S evs s : (0 < BatchSize)%nat → Reachable S s → forward evs s →
  (run evs s).1 = call_spec S <$> starts evs s ∧ Reachable S (run evs s).2 ∧
  Forall (λ i, cursor s ≤ i)%N (starts evs s ≫= lane_ids) ∧
  StronglySorted N.lt (starts evs s ≫= lane_ids).
Proof.
  intros HB. revert s. induction evs as [|[c|g] evs IH]; intros s Hr Hf; cbn [run starts].
  - cbn. split_and!; [done|done|constructor|constructor].
  - destruct Hf as (HK & HH & Hl & Hg & Hf). destruct (reachable_inv S s HB Hr) as [Hinv Hsp].
    pose proof (consume_ok (if c_cir c then sigma else id) _ _ _ s HK HH Hl Hinv Hg) as Hc.
    pose proof (reach_consume S s (if c_cir c then sigma else id) _ _ _ Hr Hg HK HH Hl) as Hr'.
    rewrite call_consume in *. destruct (consume _ _ _ _ _) as [out s1]. cbn [fst snd] in *.
    destruct Hc as (-> & _ & _ & _ & Hn). destruct (IH s1 Hr' Hf) as (Ho & Hr1 & Hge & Hsort).
    destruct (run evs s1) as [outs s2]. cbn [fst snd] in *. rewrite fmap_cons, Ho. split; [by rewrite <- Hsp|].
    split; [done|]. pose proof (next_gid_cursor (c_K c) s ltac:(lia) Hinv) as Hcur.
    destruct (cursor_next s1 HB) as [K' HK']. specialize (Hn K'). rewrite <- HK' in Hn.
    rewrite bind_cons. assert (∀ i, i ∈ lane_ids (c, next_gid (c_K c) s) →
      next_gid (c_K c) s ≤ i < next_gid (c_K c) s + N.of_nat (c_K c))%N as Hids.
    { intros i (k & -> & Hk)%list_elem_of_fmap. apply elem_of_seq in Hk. cbn [fst snd] in *. lia. }
    split.
    + apply Forall_app. split; [apply Forall_forall; intros i Hi%Hids; lia|].
      eapply Forall_impl; [exact Hge|]. cbn. lia.
    + apply StronglySorted_app. split_and!; [|apply StronglySorted_lane_ids|done].
      intros i j Hi%Hids Hj. rewrite Forall_forall in Hge. specialize (Hge j Hj). lia.
  - destruct Hf as (Hle & Hg & Hf).
    destruct (IH _ (reach_renew S s g Hr Hg) Hf) as (Ho & Hr1 & Hge & Hsort).
    do 2 (split; [done|]). split; [|done].
    destruct (reachable_inv S s HB Hr) as [Hinv _].
    destruct (renew_ok (mkState (scheduled_key s) (keys s) (key_used s) (start_point s) g
      (scheduled_bucket s) (lane_gid0 s)) HB) as (_ & Hk0 & Hl0 & _ & _); [exact (inv_bucket s Hinv)|done|].
    assert (cursor (renew_ks_at g s) = g) as Hcg.
    { unfold renew_ks_at, cursor. rewrite Hk0, Hl0, (proj2 (Nat.ltb_lt _ _) HB). cbn. lia. }
    rewrite Hcg in Hge. eapply Forall_impl; [exact Hge|]. intros i Hi. cbn in *. lia.
Qed.
End mitccrh.
End MITCCRH.

(** C16: [MITCCRH].  After any mix of hash calls and repositionings under start
    point [S], take any sequence of further [hash] and [hash_cir] calls and of
    repositionings that only go forward, whose counter stays [BatchSize] below
    [2^64].  Each call computes the documented function on consecutive gate ids:
    block [h] of lane [k] is [y xor E(S xor (i >> ReuseShift), y)] with
    [y = sigma(x) xor T(i)] for [hash_cir], [y = x xor T(i)] for [hash], and
    [i = g + k], however the batch lies in its buckets, for every batch size,
    reuse shift and vector tiling; and the gate ids the calls use strictly
    increase, so no id is hashed twice. *)
Theorem mitccrh_hash_correct vaes256 vaes512 aes BatchSize ReuseShift S s evs :
  (0 < BatchSize)%nat →
  MITCCRH.Reachable vaes256 vaes512 aes BatchSize ReuseShift S s →
  MITCCRH.forward vaes256 vaes512 aes BatchSize ReuseShift evs s →
  let '(outs, s') := MITCCRH.run vaes256 vaes512 aes BatchSize ReuseShift evs s in
  let calls := MITCCRH.starts vaes256 vaes512 aes BatchSize ReuseShift evs s in
  outs = MITCCRH.call_spec aes ReuseShift S <$> calls ∧
  StronglySorted N.lt (calls ≫= MITCCRH.lane_ids) ∧
  MITCCRH.Reachable vaes256 vaes512 aes BatchSize ReuseShift S s'.
Proof.
  intros HB Hs Hf. pose proof (MITCCRH.mitccrh_run_ok _ _ _ _ _ S evs s HB Hs Hf) as (Ho & Hr & _ & Hsort).
  by destruct (MITCCRH.run _ _ _ _ _ _ _).
Qed.
Lemma mitccrh_hash_correct_witness :
  let aes k x := N.lxor k (N.shiftr x 1) in
  let s := MITCCRH.renew_ks_at 8 3 5 (MITCCRH.setS 8 77 (MITCCRH.new 8 [] [] 0)) in
  let evs := [MITCCRH.EHash (MITCCRH.mkCall true 2 2 [10; 11; 12; 13]%N); MITCCRH.ERenew 30;
              MITCCRH.EHash (MITCCRH.mkCall false 4 1 [10; 11; 12; 13]%N)] in
  let calls := MITCCRH.starts true false aes 8 3 evs s in
  calls ≫= MITCCRH.lane_ids = [5; 6; 30; 31; 32; 33]%N ∧
  (MITCCRH.run true false aes 8 3 evs s).1 = MITCCRH.call_spec aes 3 77 <$> calls ∧
  StronglySorted N.lt (calls ≫= MITCCRH.lane_ids).
Proof.
  cbv zeta. split; [vm_compute; reflexivity|].
  pose proof (mitccrh_hash_correct true false (λ k x, N.lxor k (N.shiftr x 1)) 8 3 77
    (MITCCRH.renew_ks_at 8 3 5 (MITCCRH.setS 8 77 (MITCCRH.new 8 [] [] 0)))
    [MITCCRH.EHash (MITCCRH.mkCall true 2 2 [10; 11; 12; 13]%N); MITCCRH.ERenew 30;
     MITCCRH.EHash (MITCCRH.mkCall false 4 1 [10; 11; 12; 13]%N)]) as H.
  destruct (MITCCRH.run _ _ _ _ _ _ _) as [outs s'].
  destruct H as (? & ? & _); [lia| | |done].
  - apply MITCCRH.reach_renew; [apply MITCCRH.reach_setS|reflexivity].
  - cbn [MITCCRH.forward]. split_and!; first [exact I|reflexivity|vm_compute; discriminate|cbn; lia].
Defined.
