(* ===== verification/AesNi.v ===== *)
(** * AES on the vector unit (runtime/crypto/aes.hpp, runtime/core/simd_tier.h)

    The key schedule, the tile kernels and their lanes, instruction by
    instruction, and that they compute the AES-128 of FIPS-197 as [Fips197]
    states it.  The instructions are those of the processor manuals, a vector
    register is the list of its 128-bit blocks.  A [TileKernel] is what the
    tiling of [Crh] relies on; each memory tile is an instance. *)

From Stdlib Require Import Btauto.
From S2P Require Import Prelude Bits Bytes Kernel Block AesSpec Crh.

(** ** Instructions *)
Definition of_dwords (l : list N) : block := foldr (λ d v, d mod 2 ^ 32 + 2 ^ 32 * v)%N 0%N l.
Definition dword (a : block) (i : nat) : N := (a / 2 ^ (32 * N.of_nat i)) mod 2 ^ 32.
Definition set_epi32 (e3 e2 e1 e0 : N) : block := of_dwords [e0; e1; e2; e3].
Definition shuffle_epi8 (a m : block) : block :=
  le_value ((λ s, if N.testbit s 7 then 0%N else get (le_bytes 16 a) (N.to_nat (N.land s 15))) <$> le_bytes 16 m).
Definition slli_epi32 (a : block) (k : N) : block :=
  of_dwords ((λ i, N.shiftl (dword a i) k) <$> seq 0 4).
Definition slli_epi64 (a : block) (k : N) : block := makeBlock (N.shiftl (lane1 a) k) (N.shiftl (lane0 a) k).
Definition shuffle_epi32 (a : block) (imm : N) : block :=
  of_dwords ((λ i, dword a (N.to_nat (N.land (N.shiftr imm (2 * i)) 3))) <$> [0; 1; 2; 3]%N).
(** ShiftRows, SubBytes, MixColumns and the round key; the last round has no MixColumns. *)
Definition aesenc_si128 (s k : block) : block :=
  N.lxor (le_value (Fips197.mix_columns (Fips197.sub_bytes (Fips197.shift_rows (le_bytes 16 s))))) k.
Definition aesenclast_si128 (s k : block) : block :=
  N.lxor (le_value (Fips197.sub_bytes (Fips197.shift_rows (le_bytes 16 s)))) k.

(** The NEON pair of aarch64: the key goes in first, MixColumns is an instruction of its own. *)
Definition vaeseq_u8 (s k : block) : block :=
  le_value (Fips197.sub_bytes (Fips197.shift_rows (le_bytes 16 (N.lxor s k)))).
Definition vaesmcq_u8 (s : block) : block := le_value (Fips197.mix_columns (le_bytes 16 s)).

(** ** Key schedule *)
Abbreviation AES_KEY := (list N).
Definition ks_round (con con3 mask : block) (r : nat) (rd_key : AES_KEY) : AES_KEY :=
  let key := get rd_key (r - 1) in
  let x2 := shuffle_epi8 key mask in
  let aux := aesenclast_si128 x2 con in
  let globAux := slli_epi64 key 32 in
  let key := N.lxor globAux key in
  let globAux := shuffle_epi8 key con3 in
  let key := N.lxor globAux key in
  <[r := N.lxor aux key]> rd_key.
Definition ks_rounds (keys : list AES_KEY) (con con3 mask : block) (r : nat) : list AES_KEY :=
  ks_round con con3 mask r <$> keys.
(** [keys] is the array the schedules are written to, one per user key. *)
Definition AES_opt_key_schedule (user_key : list block) (keys : list AES_KEY) : list AES_KEY :=
  let con := set_epi32 1 1 1 1 in
  let con2 := set_epi32 0x1b 0x1b 0x1b 0x1b in
  let con3 := set_epi32 0x07060504 0x07060504 0x0ffffffff 0x0ffffffff in
  let mask := set_epi32 0x0c0f0e0d 0x0c0f0e0d 0x0c0f0e0d 0x0c0f0e0d in
  let keys := zip_with (λ k rd, <[0%nat := k]> rd) user_key keys in
  let '(keys, con) := foldl (λ '(keys, con) r, (ks_rounds keys con con3 mask r, slli_epi32 con 1))
                            (keys, con) (seq 1 8) in
  let keys := ks_rounds keys con2 con3 mask 9 in
  let con2 := slli_epi32 con2 1 in
  ks_rounds keys con2 con3 mask 10.
Definition AES_set_encrypt_key (userkey : block) (key : AES_KEY) : AES_KEY :=
  match AES_opt_key_schedule [userkey] [key] with k :: _ => k | [] => key end.

(** ** Lanes of [N] blocks *)
Module AesLane.
Section lane.
Context (N_ : nat).
Definition vec_t : Type := list block.
Definition broadcast (k : block) : vec_t := replicate N_ k.
Definition load (p : list block) : vec_t := take N_ p.
Definition xorv (a b : vec_t) : vec_t := zip_with N.lxor a b.
Definition aesenc (s k : vec_t) : vec_t := zip_with aesenc_si128 s k.
Definition aesenclast (s k : vec_t) : vec_t := zip_with aesenclast_si128 s k.
Definition ctr_xor_tweak (b0 : N) (slot : nat) (tw : vec_t) : vec_t :=
  zip_with N.lxor ((λ j, makeBlock 0 (u64 (b0 + N.of_nat (N_ * slot + j)))) <$> seq 0 N_) tw.
Definition sigma (a : vec_t) : vec_t :=
  let m := broadcast (makeBlock 0xFFFFFFFFFFFFFFFF 0) in
  zip_with N.lxor ((λ x, shuffle_epi32 x 78) <$> a) (zip_with N.land a m).
Definition add64 (a b : vec_t) : vec_t := zip_with MITCCRH.add64 a b.
Definition lane_offsets (Span b0 : nat) : vec_t := (λ j, MITCCRH.lane_offset Span (b0 + j)) <$> seq 0 N_.
(** The rounds of aarch64's one lane, in the order of the x86 instructions. *)
Definition aesenc_neon (s k : vec_t) : vec_t :=
  zip_with (λ x k, N.lxor (vaesmcq_u8 (vaeseq_u8 x 0)) k) s k.
Definition aesenclast_neon (s k : vec_t) : vec_t := zip_with (λ x k, N.lxor (vaeseq_u8 x 0) k) s k.
End lane.
End AesLane.

(** ** Tile kernels

    [src t] is tile [t]'s plaintext, [store t x pt] the vector written to the
    destination's tile [t]; the result is what the tiles leave there.  A build is for
    x86, with or without the 256- and 512-bit VAES instructions, or for aarch64, which
    has neither; nothing below needs the flags to exclude each other. *)
Section tiles.
Context (vaes256 vaes512 aarch64 : bool).
Definition rk (kk : AES_KEY) (L : nat) (r : nat) : AesLane.vec_t := AesLane.broadcast L (get kk r).
(** The rounds in step over up to four tiles. *)
Definition aes_tiles_interleaved (L n_tiles : nat) (src : nat → AesLane.vec_t)
    (store : nat → AesLane.vec_t → AesLane.vec_t → AesLane.vec_t) (kk : AES_KEY) : list block :=
  let pt := src <$> seq 0 n_tiles in
  let x := (λ p, AesLane.xorv p (rk kk L 0)) <$> pt in
  let x := foldl (λ x r, (λ v, AesLane.aesenc v (rk kk L r)) <$> x) x (seq 1 9) in
  flatten (imap (λ t v, store t (AesLane.aesenclast v (rk kk L 10)) (default [] (pt !! t))) x).
Definition aes_tiles_serial (L n_tiles : nat) (src : nat → AesLane.vec_t)
    (store : nat → AesLane.vec_t → AesLane.vec_t → AesLane.vec_t) (kk : AES_KEY) : list block :=
  flatten ((λ t,
    let pt := src t in
    if aarch64 && (L =? 1)%nat then
      let x := foldl (λ x r, vaesmcq_u8 <$> zip_with vaeseq_u8 x (rk kk L r)) pt (seq 0 9) in
      let x := zip_with vaeseq_u8 x (rk kk L 9) in
      store t (AesLane.xorv x (rk kk L 10)) pt
    else
    let x := AesLane.xorv pt (rk kk L 0) in
    let x := foldl (λ x r, AesLane.aesenc x (rk kk L r)) x (seq 1 9) in
    let x := AesLane.aesenclast x (rk kk L 10) in
    store t x pt) <$> seq 0 n_tiles).
Definition aes_tiles_src (L n_tiles : nat) (src : nat → AesLane.vec_t)
    (store : nat → AesLane.vec_t → AesLane.vec_t → AesLane.vec_t) (kk : AES_KEY) : list block :=
  if vaes512 && (L =? 4)%nat && (1 <? n_tiles)%nat && (n_tiles <=? 4)%nat
  then aes_tiles_interleaved L n_tiles src store kk
  else aes_tiles_serial L n_tiles src store kk.

Definition load_tile (L : nat) (src : list block) (t : nat) : AesLane.vec_t := AesLane.load L (drop (t * L) src).
Definition aes_tiles (L n_tiles : nat) (src : list block) (kk : AES_KEY) : list block :=
  aes_tiles_src L n_tiles (load_tile L src) (λ _ x _, x) kk.
Definition aes_tiles_xor_input (L n_tiles : nat) (src : list block) (kk : AES_KEY) : list block :=
  aes_tiles_src L n_tiles (load_tile L src) (λ _ x pt, AesLane.xorv x pt) kk.
(** The memory tiles: [apply<L, n_tiles>] from block [off] of a key's run, [tb] the key's base tweak. *)
Definition AesMemXorSigmaTile (L n_tiles : nat) (src : list block) (kk : AES_KEY) : list block :=
  aes_tiles_src L n_tiles (λ t, AesLane.sigma L (load_tile L src t)) (λ _ x pt, AesLane.xorv x pt) kk.
Definition AesMemXorInputTweakTile (Span L n_tiles off : nat) (tb : block) (src : list block) (kk : AES_KEY) : list block :=
  let base := AesLane.broadcast L tb in
  aes_tiles_src L n_tiles
    (λ t, AesLane.xorv (load_tile L src t) (AesLane.add64 base (AesLane.lane_offsets L Span (off + t * L))))
    (λ _ x pt, AesLane.xorv x pt) kk.
Definition AesMemXorSigmaTweakTile (Span L n_tiles off : nat) (tb : block) (src : list block) (kk : AES_KEY) : list block :=
  let base := AesLane.broadcast L tb in
  aes_tiles_src L n_tiles
    (λ t, AesLane.xorv (AesLane.sigma L (load_tile L src t))
            (AesLane.add64 base (AesLane.lane_offsets L Span (off + t * L))))
    (λ _ x pt, AesLane.xorv x pt) kk.

(** *** Counter fill *)
Inductive CtrStore := Plain | XorBack.
Definition aes_ctr_fill_lane (L W : nat) (St : CtrStore) (counter : N) (kk : AES_KEY) (tweak : block) : list block :=
  aes_tiles_src L (W / L)
    (λ t, AesLane.ctr_xor_tweak L counter t
            (AesLane.broadcast L (match St with XorBack => tweak | Plain => 0%N end)))
    (λ _ x pt, match St with XorBack => AesLane.xorv x pt | Plain => x end) kk.
Definition aes_ctr_fill_impl (W : nat) (St : CtrStore) (counter : N) (kk : AES_KEY) (tweak : block) : list block :=
  if vaes512 && (W mod 4 =? 0)%nat then aes_ctr_fill_lane 4 W St counter kk tweak
  else if vaes256 && (W mod 2 =? 0)%nat then aes_ctr_fill_lane 2 W St counter kk tweak
  else aes_ctr_fill_lane 1 W St counter kk tweak.
Definition aes_ctr_fill (W : nat) (counter : N) (kk : AES_KEY) : list block :=
  aes_ctr_fill_impl W Plain counter kk zero_block.
Definition aes_ctr_fill_dm (W : nat) (counter : N) (kk : AES_KEY) (tweak : block) : list block :=
  aes_ctr_fill_impl W XorBack counter kk tweak.
(** Blocks written so far, the counter. *)
Definition CtrFillOp : Type := list block * N.
Definition ctr_run (kk : AES_KEY) (W : nat) (op : CtrFillOp) : CtrFillOp :=
  (op.1 ++ aes_ctr_fill W op.2 kk, u64 (op.2 + N.of_nat W)).
Definition ParaCtrEnc (counter : N) (kk : AES_KEY) (n : nat) : list block :=
  (drain_tiles vaes512 (ctr_run kk) ([], counter) n).1.
End tiles.

(** ** Bytes of blocks *)
Lemma le_bytes_value l : Forall (λ b, b < 256)%N l → le_bytes (length l) (le_value l) = l.
Proof.
  induction 1 as [|b l Hb _ IH]; [done|]. cbn [length]. rewrite le_bytes_S. simpl.
  rewrite (N.mul_comm 256), N.Div0.mod_add, N.div_add, (N.div_small b), N.add_0_l, IH by done.
  by rewrite N.mod_small.
Qed.
Lemma le_bytes_value' n l : byte_list n l → le_bytes n (le_value l) = l.
Proof. intros [<- Hl]. by apply le_bytes_value. Qed.
Lemma byte_list_le n v : byte_list n (le_bytes n v).
Proof. split; [apply length_le_bytes|apply le_bytes_lt]. Qed.
Lemma le_bytes_lxor n a b : le_bytes n (N.lxor a b) = Fips197.xor (le_bytes n a) (le_bytes n b).
Proof.
  revert a b. induction n as [|n IH]; intros a b; [done|]. rewrite !le_bytes_S. cbn [Fips197.xor zip_with].
  f_equal.
  - change 256%N with (2 ^ 8)%N. rewrite <- !N.land_ones. apply N.bits_inj. intros i.
    rewrite !N.lxor_spec, !N.land_spec, N.lxor_spec. by destruct (N.testbit a i), (N.testbit b i), (N.testbit _ i).
  - change 256%N with (2 ^ 8)%N. rewrite <- !N.shiftr_div_pow2, N.shiftr_lxor. apply IH.
Qed.
Lemma le_bytes_app n m v : le_bytes (n + m) v = le_bytes n v ++ le_bytes m (v / 256 ^ N.of_nat n).
Proof.
  revert v. induction n as [|n IH]; intros v; [by rewrite N.div_1_r|]. cbn [Nat.add]. rewrite !le_bytes_S, IH.
  cbn [app]. by rewrite N.Div0.div_div, Nat2N.inj_succ, N.pow_succ_r'.
Qed.
Lemma le_bytes_mod n v : le_bytes n (v mod 256 ^ N.of_nat n) = le_bytes n v.
Proof.
  pose proof (le_bytes_value' n _ (byte_list_le n v)) as H. by rewrite le_value_bytes in H.
Qed.
Lemma le_bytes_shiftl k n v : le_bytes (k + n) (N.shiftl v (8 * N.of_nat k)) = replicate k 0%N ++ le_bytes n v.
Proof.
  induction k as [|k IH]; [by rewrite N.shiftl_0_r|]. cbn [Nat.add replicate app]. rewrite le_bytes_S, <- IH.
  replace (8 * N.of_nat (S k))%N with (8 * N.of_nat k + 8)%N by lia.
  rewrite <- N.shiftl_shiftl, (N.shiftl_mul_pow2 (N.shiftl v _) 8). change (2 ^ 8)%N with 256%N.
  by rewrite N.Div0.mod_mul, N.div_mul.
Qed.
Lemma le_bytes_makeBlock h l : le_bytes 16 (makeBlock h l) = le_bytes 8 l ++ le_bytes 8 h.
Proof.
  change 16%nat with (8 + 8)%nat. rewrite le_bytes_app. f_equal.
  - rewrite <- (le_bytes_mod 8 (makeBlock h l)). change (256 ^ N.of_nat 8)%N with (2 ^ 64)%N.
    change (makeBlock h l mod 2 ^ 64)%N with (lane0 (makeBlock h l)). rewrite MITCCRH.lane0_makeBlock.
    apply (le_bytes_mod 8).
  - change (makeBlock h l / 256 ^ N.of_nat 8)%N with (lane1 (makeBlock h l)). rewrite MITCCRH.lane1_makeBlock.
    apply (le_bytes_mod 8).
Qed.
Lemma le_bytes_lane0 a : le_bytes 4 (lane0 a) = take 4 (le_bytes 16 a).
Proof.
  change 16%nat with (8 + 8)%nat. rewrite le_bytes_app, <- (le_bytes_mod 8 a).
  change (a mod 256 ^ N.of_nat 8)%N with (lane0 a). change 8%nat with (4 + 4)%nat at 1.
  by rewrite le_bytes_app, <- app_assoc, take_app_length' by (by rewrite length_le_bytes).
Qed.
Lemma le_bytes_lane1 a : le_bytes 4 (lane1 a) = take 4 (drop 8 (le_bytes 16 a)).
Proof.
  change 16%nat with (8 + 8)%nat. rewrite le_bytes_app, drop_app_length' by (by rewrite length_le_bytes).
  change (a / 256 ^ N.of_nat 8)%N with (lane1 a). change 8%nat with (4 + 4)%nat.
  by rewrite le_bytes_app, take_app_length' by (by rewrite length_le_bytes).
Qed.
Lemma le_bytes_slli32 a : le_bytes 16 (slli_epi64 a 32) =
  [0; 0; 0; 0]%N ++ take 4 (le_bytes 16 a) ++ [0; 0; 0; 0]%N ++ take 4 (drop 8 (le_bytes 16 a)).
Proof.
  unfold slli_epi64. rewrite le_bytes_makeBlock. change 8%nat with (4 + 4)%nat. change 32%N with (8 * N.of_nat 4)%N.
  rewrite !le_bytes_shiftl, le_bytes_lane0, le_bytes_lane1. by rewrite <- !app_assoc.
Qed.
Lemma byte_list_shuffle a m :
  byte_list 16 ((λ s, if N.testbit s 7 then 0%N else get (le_bytes 16 a) (N.to_nat (N.land s 15))) <$> le_bytes 16 m).
Proof.
  split; [by rewrite length_fmap, length_le_bytes|]. apply Forall_fmap, Forall_true. intros s. simpl.
  destruct (N.testbit s 7); [done|]. apply (get_lt _ 16), byte_list_le.
Qed.
Lemma le_bytes_shuffle a m : le_bytes 16 (shuffle_epi8 a m) =
  (λ s, if N.testbit s 7 then 0%N else get (le_bytes 16 a) (N.to_nat (N.land s 15))) <$> le_bytes 16 m.
Proof. apply le_bytes_value', byte_list_shuffle. Qed.
Lemma le_bytes_aesenclast s k : le_bytes 16 (aesenclast_si128 s k) =
  Fips197.xor (Fips197.sub_bytes (Fips197.shift_rows (le_bytes 16 s))) (le_bytes 16 k).
Proof.
  unfold aesenclast_si128. rewrite le_bytes_lxor, le_bytes_value'; [done|].
  apply byte_list_sub, byte_list_shift_rows, byte_list_le.
Qed.
Lemma le_bytes_aesenc s k : le_bytes 16 (aesenc_si128 s k) =
  Fips197.xor (Fips197.mix_columns (Fips197.sub_bytes (Fips197.shift_rows (le_bytes 16 s)))) (le_bytes 16 k).
Proof.
  unfold aesenc_si128. rewrite le_bytes_lxor, le_bytes_value'; [done|].
  apply byte_list_mix_columns, byte_list_sub, byte_list_shift_rows, byte_list_le.
Qed.

(** ** The key schedule *)
Definition con3 : block := set_epi32 0x07060504 0x07060504 0x0ffffffff 0x0ffffffff.
Definition mask : block := set_epi32 0x0c0f0e0d 0x0c0f0e0d 0x0c0f0e0d 0x0c0f0e0d.
Definition ks_word (con key : block) : block :=
  let key' := N.lxor (slli_epi64 key 32) key in
  N.lxor (aesenclast_si128 (shuffle_epi8 key mask) con) (N.lxor (shuffle_epi8 key' con3) key').
Lemma ks_word_ok con key r a b c d :
  byte_list 4 a → byte_list 4 b → byte_list 4 c → byte_list 4 d →
  le_bytes 16 con = flatten (replicate 4 (Fips197.rcon r)) →
  le_bytes 16 key = flatten [a; b; c; d] →
  le_bytes 16 (ks_word con key) = flatten (next_four r a b c d).
Proof.
  intros (a0 & a1 & a2 & a3 & -> & _)%byte_list_4 (b0 & b1 & b2 & b3 & -> & _)%byte_list_4
    (c0 & c1 & c2 & c3 & -> & _)%byte_list_4 (d0 & d1 & d2 & d3 & -> & _)%byte_list_4 Hcon Hkey.
  unfold ks_word. cbv zeta.
  rewrite !le_bytes_lxor, le_bytes_aesenclast, !le_bytes_shuffle, le_bytes_lxor, le_bytes_slli32, Hkey, Hcon.
  replace (le_bytes 16 con3) with ([255; 255; 255; 255; 255; 255; 255; 255; 4; 5; 6; 7; 4; 5; 6; 7]%N) by done.
  replace (le_bytes 16 mask) with ([13; 14; 15; 12; 13; 14; 15; 12; 13; 14; 15; 12; 13; 14; 15; 12]%N) by done.
  cbn -[Fips197.sbox N.lxor].
  repeat match goal with |- context [get ?l (N.to_nat ?i)] => let x := eval vm_compute in (N.to_nat i) in change (N.to_nat i) with x end.
  cbn -[Fips197.sbox N.lxor].
  generalize (Fips197.sbox d0), (Fips197.sbox d1), (Fips197.sbox d2), (Fips197.sbox d3), (Fips197.gf_pow 2 (r - 1)).
  clear. intros s0 s1 s2 s3 rc. rewrite ?N.lxor_0_l, ?N.lxor_0_r.
  repeat (apply (f_equal2 (@cons N)); [apply N.bits_inj; intros i; rewrite !N.lxor_spec; btauto|]). done.
Qed.

(** The words of the specification are a prefix of the words after ten rounds. *)
Lemma words_ok_all key r : byte_list 16 key → (r ≤ 10)%nat → words_ok r (words key r).
Proof.
  intros Hk. induction r as [|r IH]; intros Hr; [by apply words_0_ok|].
  apply key_round_words; [lia|]. apply IH. lia.
Qed.
Lemma words_prefix key r k : byte_list 16 key → (r + k ≤ 10)%nat →
  take (4 * (r + 1)) (words key (r + k)) = words key r.
Proof.
  intros Hk. induction k as [|k IH]; intros Hr.
  - rewrite Nat.add_0_r. apply take_ge. by rewrite (wo_length _ _ (words_ok_all key r Hk ltac:(lia))).
  - rewrite <- IH by lia. rewrite (Nat.add_succ_r r k).
    destruct (key_round_words key (r + k)) as (_ & _ & Ht); [lia|apply words_ok_all; [done|lia]|].
    rewrite <- Ht, take_take. f_equal. lia.
Qed.
Lemma round_key_0 key : byte_list 16 key → Fips197.round_key key 0 = key.
Proof.
  intros Hk. unfold Fips197.round_key. rewrite key_words_eq, Nat.mul_0_r, drop_0.
  pose proof (words_prefix key 0 10 Hk ltac:(lia)) as H. cbn [Nat.mul Nat.add] in H. rewrite H. by apply words_0_ok.
Qed.
(** Each round key is the next four words of the one before. *)
Lemma round_key_S key r : byte_list 16 key → (r < 10)%nat → ∃ a b c d,
  Forall (byte_list 4) [a; b; c; d] ∧ Fips197.round_key key r = flatten [a; b; c; d] ∧
  Fips197.round_key key (S r) = flatten (next_four (S r) a b c d).
Proof.
  intros Hk Hr. destruct (words_ok_all key r Hk ltac:(lia)) as [Hl Hf].
  destruct (last_four _ _ Hl) as (l & a & b & c & d & Hw & Hll). exists a, b, c, d.
  assert (∀ q, (q ≤ 10)%nat → Fips197.round_key key q = flatten (drop (4 * q) (words key q))) as Hrk.
  { intros q Hq. unfold Fips197.round_key. rewrite key_words_eq, take_drop_commute. do 2 f_equal.
    replace 10%nat with (q + (10 - q))%nat by lia. replace (4 * q + 4)%nat with (4 * (q + 1))%nat by lia.
    apply words_prefix; [done|lia]. }
  split; [rewrite Hw in Hf; by apply Forall_app in Hf as [_ Hf]|]. split.
  - rewrite Hrk, Hw by lia. by rewrite drop_app_length'.
  - rewrite Hrk, (words_S _ _ _ _ _ _ _ Hw Hll) by lia. by rewrite drop_app_length' by lia.
Qed.

(** The schedule so far: round keys [0] to [r]. *)
Definition sched_upto (key : list N) (r : nat) (rd : AES_KEY) : Prop :=
  length rd = 11%nat ∧ ∀ q, (q ≤ r)%nat → le_bytes 16 (get rd q) = Fips197.round_key key q.
Lemma get_insert (l : list N) i j x : (i < length l)%nat →
  get (<[i := x]> l) j = if decide (i = j) then x else get l j.
Proof.
  intros Hi. unfold get. destruct (decide (i = j)) as [->|Hne].
  - by rewrite list_lookup_insert_eq.
  - by rewrite list_lookup_insert_ne.
Qed.
Lemma ks_round_eq con r rd : ks_round con con3 mask r rd = <[r := ks_word con (get rd (r - 1))]> rd.
Proof. unfold ks_round, ks_word. reflexivity. Qed.
Lemma ks_round_ok key con r rd : byte_list 16 key → (r < 10)%nat → sched_upto key r rd →
  le_bytes 16 con = flatten (replicate 4 (Fips197.rcon (S r))) →
  sched_upto key (S r) (ks_round con con3 mask (S r) rd).
Proof.
  intros Hk Hr [Hl Hrd] Hcon. destruct (round_key_S key r Hk Hr) as (a & b & c & d & Hf & Hkr & HkS).
  rewrite !Forall_cons in Hf. destruct Hf as (Ha & Hb & Hc & Hd & _).
  rewrite ks_round_eq.
  replace (S r - 1)%nat with r by lia. split; [by rewrite length_insert|]. intros q Hq.
  rewrite get_insert by lia. destruct (decide (S r = q)) as [<-|Hne]; [|apply Hrd; lia].
  rewrite HkS. apply ks_word_ok; try done. rewrite <- Hkr. apply Hrd. lia.
Qed.
Lemma key_schedule_one k rd : length rd = 11%nat →
  sched_upto (le_bytes 16 k) 10 (AES_set_encrypt_key k rd).
Proof.
  intros Hl. unfold AES_set_encrypt_key, AES_opt_key_schedule. fold con3 mask.
  cbn [zip_with foldl seq ks_rounds fmap list_fmap]. pose proof (byte_list_le 16 k) as Hk.
  do 10 (apply ks_round_ok; [exact Hk|lia| |vm_compute; reflexivity]).
  split; [by rewrite length_insert|]. intros q Hq. rewrite get_insert by lia.
  rewrite decide_True by lia. replace q with 0%nat by lia. by rewrite round_key_0.
Qed.
(** Every key of a batch is scheduled as on its own. *)
Lemma ks_rounds_zip {A B} (f : A → B → AES_KEY) la lb con con3 mask r :
  ks_rounds (zip_with f la lb) con con3 mask r = zip_with (λ a b, ks_round con con3 mask r (f a b)) la lb.
Proof. revert lb. induction la as [|a la IH]; intros [|b lb]; [done..|]. simpl. by f_equal. Qed.
Lemma key_schedule_batch ks rds :
  AES_opt_key_schedule ks rds = zip_with AES_set_encrypt_key ks rds.
Proof.
  unfold AES_set_encrypt_key, AES_opt_key_schedule. cbn [foldl seq]. rewrite !ks_rounds_zip.
  apply zip_with_ext; [|done..]. intros k rd. rewrite !ks_rounds_zip. cbn [zip_with].
  reflexivity.
Qed.

(** ** The rounds *)
Definition aes_block (kk : AES_KEY) (x : block) : block :=
  aesenclast_si128 (foldl (λ x r, aesenc_si128 x (get kk r)) (N.lxor x (get kk 0)) (seq 1 9)) (get kk 10).
Lemma fmap_shift (f : N → N) s : length s = 16%nat → f <$> Fips197.shift_rows s = Fips197.shift_rows (f <$> s).
Proof.
  intros Hs. unfold Fips197.shift_rows. rewrite <- list_fmap_compose.
  apply list_fmap_ext. intros i ? [-> Hi]%lookup_seq. unfold compose, get. rewrite list_lookup_fmap.
  set (j := (4 * _ + _)%nat). assert (j < length s)%nat as Hj.
  { pose proof (Nat.mod_upper_bound ((0 + i) / 4 + (0 + i) mod 4) 4). pose proof (Nat.mod_upper_bound (0 + i) 4).
    subst j. lia. }
  by destruct (lookup_lt_is_Some_2 s j Hj) as [x ->].
Qed.
Lemma sub_shift s : length s = 16%nat →
  Fips197.sub_bytes (Fips197.shift_rows s) = Fips197.shift_rows (Fips197.sub_bytes s).
Proof. intros Hs. exact (fmap_shift Fips197.sbox s Hs). Qed.
Lemma round_mid key s r : r ≠ 10%nat → Fips197.round key s r =
  Fips197.xor (Fips197.mix_columns (Fips197.shift_rows (Fips197.sub_bytes s))) (Fips197.round_key key r).
Proof. intros Hr. unfold Fips197.round. by rewrite (proj2 (Nat.eqb_neq r 10)). Qed.
Lemma round_last key s : Fips197.round key s 10 =
  Fips197.xor (Fips197.shift_rows (Fips197.sub_bytes s)) (Fips197.round_key key 10).
Proof. reflexivity. Qed.
Lemma aes_rounds_ok kk k s l : sched_upto (le_bytes 16 k) 10 kk → Forall (λ r, r < 10)%nat l →
  le_bytes 16 (foldl (λ x r, aesenc_si128 x (get kk r)) s l) = foldl (Fips197.round (le_bytes 16 k)) (le_bytes 16 s) l.
Proof.
  intros [_ Hk]. revert s. induction l as [|r l IH]; intros s; [done|]. intros [Hr Hl]%Forall_cons. cbn [foldl].
  by rewrite IH, le_bytes_aesenc, Hk, round_mid, sub_shift by (by rewrite ?length_le_bytes; try lia).
Qed.
Lemma aes_block_ok kk k x : sched_upto (le_bytes 16 k) 10 kk →
  le_bytes 16 (aes_block kk x) = Fips197.encrypt (le_bytes 16 x) (le_bytes 16 k).
Proof.
  intros Hk. unfold aes_block, Fips197.encrypt. change (seq 1 10) with (seq 1 9 ++ [10%nat]).
  rewrite foldl_app. cbn [foldl]. rewrite round_last, le_bytes_aesenclast, sub_shift by apply length_le_bytes.
  rewrite (aes_rounds_ok _ k) by (done || by repeat (constructor; [lia|])).
  destruct Hk as [_ Hk]. by rewrite le_bytes_lxor, !Hk by lia.
Qed.

(** ** Tiles *)
Lemma lane_map (op : N → N → N) L (v : AesLane.vec_t) k : length v = L →
  zip_with op v (AesLane.broadcast L k) = (λ x, op x k) <$> v.
Proof. intros <-. unfold AesLane.broadcast. induction v as [|x v IH]; [done|]. simpl. by f_equal. Qed.
Lemma foldl_fmap_swap {A B} (f : A → B → A) (x : list A) (rs : list B) :
  foldl (λ x r, (λ v, f v r) <$> x) x rs = (λ v, foldl f v rs) <$> x.
Proof.
  revert x. induction rs as [|r rs IH]; intros x; simpl; [by rewrite list_fmap_id|].
  by rewrite IH, <- list_fmap_compose.
Qed.
Lemma lane_rounds kk L (v : list block) rs : length v = L →
  foldl (λ x r, AesLane.aesenc x (rk kk L r)) v rs = (λ x, foldl (λ x r, aesenc_si128 x (get kk r)) x rs) <$> v.
Proof.
  revert v. induction rs as [|r rs IH]; intros v Hv; simpl; [by rewrite list_fmap_id|].
  unfold AesLane.aesenc at 2, rk. rewrite lane_map, IH by (by rewrite ?length_fmap).
  by rewrite <- list_fmap_compose.
Qed.
(** One block through the NEON rounds. *)
Lemma neon_round x k k' : N.lxor (vaesmcq_u8 (vaeseq_u8 x k)) k' = aesenc_si128 (N.lxor x k) k'.
Proof.
  unfold vaesmcq_u8, vaeseq_u8, aesenc_si128. by rewrite le_bytes_value' by apply byte_list_sub, byte_list_shift_rows, byte_list_le.
Qed.
Lemma neon_last x k k' : N.lxor (vaeseq_u8 x k) k' = aesenclast_si128 (N.lxor x k) k'.
Proof. unfold vaeseq_u8, aesenclast_si128. exact eq_refl. Qed.
#[local] Opaque aesenc_si128 aesenclast_si128.
Section tiles_ok.
Context (vaes512 aarch64 : bool).
Lemma interleaved_serial L n src store kk :
  aes_tiles_interleaved L n src store kk = aes_tiles_serial false L n src store kk.
Proof.
  unfold aes_tiles_interleaved, aes_tiles_serial. cbv zeta. cbn [andb]. f_equal.
  rewrite (foldl_fmap_swap (λ v r, AesLane.aesenc v (rk kk L r))).
  rewrite <- !list_fmap_compose. apply list_eq. intros i. rewrite list_lookup_imap, !list_lookup_fmap.
  destruct (decide (i < n)%nat) as [Hi|Hi]; [by rewrite lookup_seq_lt|by rewrite lookup_seq_ge by lia].
Qed.
Lemma neon_block kk x :
  N.lxor (vaeseq_u8 (foldl (λ x r, vaesmcq_u8 (vaeseq_u8 x (get kk r))) x (seq 0 9)) (get kk 9)) (get kk 10) = aes_block kk x.
Proof. unfold aes_block. cbn [foldl seq]. by rewrite neon_last, !neon_round. Qed.
Lemma lane_rounds_neon kk L (v : list block) rs : length v = L →
  foldl (λ x r, vaesmcq_u8 <$> zip_with vaeseq_u8 x (rk kk L r)) v rs =
    (λ x, foldl (λ x r, vaesmcq_u8 (vaeseq_u8 x (get kk r))) x rs) <$> v.
Proof.
  revert v. induction rs as [|r rs IH]; intros v Hv; simpl; [by rewrite list_fmap_id|].
  unfold rk at 2. rewrite lane_map by done. rewrite IH by (by rewrite !length_fmap).
  by rewrite <- !list_fmap_compose.
Qed.
Lemma aesenc_neon_ok s k : AesLane.aesenc_neon s k = AesLane.aesenc s k.
Proof.
  apply zip_with_ext; [|done..]. intros x y. rewrite neon_round. by rewrite N.lxor_0_r.
Qed.
Lemma aesenclast_neon_ok s k : AesLane.aesenclast_neon s k = AesLane.aesenclast s k.
Proof.
  apply zip_with_ext; [|done..]. intros x y. rewrite neon_last. by rewrite N.lxor_0_r.
Qed.
Lemma serial_ok arm L n src store kk : (∀ t, (t < n)%nat → length (src t) = L) →
  aes_tiles_serial arm L n src store kk =
    flatten ((λ t, store t (aes_block kk <$> src t) (src t)) <$> seq 0 n).
Proof.
  intros Hl. unfold aes_tiles_serial. f_equal. apply list_fmap_ext. intros t ? [-> Ht]%lookup_seq. cbv zeta.
  assert (length (src (0 + t)%nat) = L) as Hs by (apply Hl; lia). destruct (arm && _); f_equal.
  - rewrite lane_rounds_neon by done. unfold AesLane.xorv, rk.
    rewrite (lane_map vaeseq_u8), lane_map by (by rewrite ?length_fmap). rewrite <- !list_fmap_compose.
    apply list_fmap_ext. intros i x _. unfold compose. cbv beta. exact (neon_block kk x).
  - assert (AesLane.xorv (src (0 + t)%nat) (rk kk L 0) = (λ x, N.lxor x (get kk 0)) <$> src (0 + t)%nat) as ->
      by by apply lane_map.
    rewrite lane_rounds by (by rewrite length_fmap). unfold AesLane.aesenclast, rk.
    rewrite lane_map by (by rewrite !length_fmap). rewrite <- !list_fmap_compose.
    reflexivity.
Qed.
Lemma aes_tiles_src_ok L n src store kk : (∀ t, (t < n)%nat → length (src t) = L) →
  aes_tiles_src vaes512 aarch64 L n src store kk =
    flatten ((λ t, store t (aes_block kk <$> src t) (src t)) <$> seq 0 n).
Proof.
  intros Hl. unfold aes_tiles_src. rewrite interleaved_serial. by destruct (_ && _ && _ && _); apply serial_ok.
Qed.

(** The lanes of a load, block by block. *)
Lemma length_load_tile L n src t : (t < n)%nat → (n * L ≤ length src)%nat → length (load_tile L src t) = L.
Proof.
  intros Ht Hn. unfold load_tile, AesLane.load. rewrite length_take, length_drop.
  assert (S t * L ≤ n * L)%nat by (apply Nat.mul_le_mono_r; lia). lia.
Qed.
Lemma flatten_tiles f off L n src : (n * L ≤ length src)%nat →
  flatten ((λ t, tile f (off + t * L) (load_tile L src t)) <$> seq 0 n) = tile f off (take (n * L) src).
Proof.
  induction n as [|n IH]; intros Hn; [done|]. rewrite seq_S, fmap_app, join_app, IH by lia.
  cbn [fmap list_fmap Nat.add]. rewrite flatten_cons, app_nil_r. unfold load_tile, AesLane.load.
  replace (take (S n * L) src) with (take (n * L) src ++ take L (drop (n * L) src)).
  - rewrite tile_app, length_take. by replace ((n * L) `min` length src)%nat with (n * L)%nat by lia.
  - rewrite take_take_drop. f_equal. lia.
Qed.
End tiles_ok.

(** [sigma] with its shuffle spelled out. *)
Lemma dword_pair v : (v < 2 ^ 64)%N → v = (v mod 2 ^ 32 + 2 ^ 32 * ((v / 2 ^ 32) mod 2 ^ 32))%N.
Proof. intros Hv. rewrite <- N.Div0.mod_mul_r. symmetry. by apply N.mod_small. Qed.
Lemma of_dwords_pairs a b c d : (a < 2 ^ 32)%N → (b < 2 ^ 32)%N → (c < 2 ^ 32)%N → (d < 2 ^ 32)%N →
  of_dwords [a; b; c; d] = makeBlock (c + 2 ^ 32 * d) (a + 2 ^ 32 * b).
Proof.
  intros Ha Hb Hc Hd. unfold makeBlock, of_dwords. cbn [foldr].
  rewrite !(N.mod_small _ (2 ^ 32)), !(N.mod_small _ (2 ^ 64)) by lia. lia.
Qed.
Lemma dwords_lanes x : block_ok x →
  makeBlock (lane0 x) (lane1 x) = of_dwords [dword x 2; dword x 3; dword x 0; dword x 1].
Proof.
  intros Hx. unfold block_ok in Hx. rewrite of_dwords_pairs by (by apply N.mod_lt). f_equal.
  - unfold lane0, dword. change (32 * N.of_nat 0)%N with 0%N. change (32 * N.of_nat 1)%N with 32%N.
    rewrite N.pow_0_r, N.div_1_r. change (2 ^ 64)%N with (2 ^ 32 * 2 ^ 32)%N. apply N.Div0.mod_mul_r.
  - rewrite (dword_pair (lane1 x)) by (by apply N.Div0.div_lt_upper_bound). unfold lane1, dword.
    by rewrite N.Div0.div_div.
Qed.
Lemma shuffle_78 x : block_ok x → shuffle_epi32 x 78 = makeBlock (lane0 x) (lane1 x).
Proof. intros Hx. by rewrite dwords_lanes. Qed.
Lemma sigma_lanes L (v : list block) : length v = L → Forall block_ok v → AesLane.sigma L v = sigma <$> v.
Proof.
  intros Hl Hv. unfold AesLane.sigma. rewrite lane_map by done. rewrite zip_with_fmap_l, zip_with_fmap_r, zip_with_diag.
  apply list_fmap_ext. intros i x Hx. unfold sigma. f_equal.
  rewrite Forall_lookup in Hv. apply shuffle_78, (Hv _ _ Hx).
Qed.

(** ** Memory tiles

    What [Crh]'s tiling asks of a tile: on [n_tiles] tiles of [L] blocks from
    block [off] of the run, the per-block function [f]. *)
Class TileKernel (apply : nat → nat → nat → list block → list block) (f : nat → N → N) : Prop :=
  tile_kernel L n off src : (n * L ≤ length src)%nat → Forall block_ok src →
    apply L n off src = tile f off (take (n * L) src).

#[local] Opaque aes_block.
Section kernels.
Context (vaes512 aarch64 : bool) (kk : AES_KEY).
Lemma load_tile_ok L src t : Forall block_ok src → Forall block_ok (load_tile L src t).
Proof. intros H. by apply Forall_take, Forall_drop. Qed.
(** A tile whose source is [pre] of each block and whose store xors the source back. *)
Lemma xor_back_tiles (pre : nat → N → N) L n off src source : (n * L ≤ length src)%nat →
  (∀ t, (t < n)%nat → source t = tile pre (off + t * L) (load_tile L src t)) →
  aes_tiles_src vaes512 aarch64 L n source (λ _ x pt, AesLane.xorv x pt) kk =
    tile (λ b x, N.lxor (aes_block kk (pre b x)) (pre b x)) off (take (n * L) src).
Proof.
  intros Hn Hs. rewrite aes_tiles_src_ok.
  - rewrite <- flatten_tiles by done. f_equal. apply list_fmap_ext. intros t ? [-> Ht]%lookup_seq.
    rewrite (Hs (0 + t)%nat) by lia. unfold AesLane.xorv, tile. rewrite zip_with_fmap_l, zip_with_diag.
    apply list_eq. intros i. rewrite list_lookup_fmap, !list_lookup_imap. by rewrite <- option_fmap_compose.
  - intros t Ht. rewrite Hs by done. unfold tile. rewrite length_imap. by apply (length_load_tile L n).
Qed.
Lemma tile_const (g : N → N) off l : g <$> l = tile (λ _, g) off l.
Proof. apply list_eq. intros i. unfold tile. by rewrite list_lookup_fmap, list_lookup_imap. Qed.
Lemma tweak_lanes L Span off tb (v : list block) : length v = L →
  AesLane.xorv v (AesLane.add64 (AesLane.broadcast L tb) (AesLane.lane_offsets L Span off)) =
    tile (λ b x, N.lxor x (MITCCRH.add64 tb (MITCCRH.lane_offset Span b))) off v.
Proof.
  intros Hl. unfold AesLane.xorv, AesLane.add64, AesLane.broadcast, AesLane.lane_offsets, tile.
  rewrite zip_with_fmap_r, zip_with_replicate_l by (by rewrite length_seq).
  apply list_eq. intros i. rewrite lookup_zip_with, list_lookup_fmap, list_lookup_imap.
  destruct (v !! i) eqn:Hi; [|done]. apply lookup_lt_Some in Hi. by rewrite lookup_seq_lt by lia.
Qed.

Lemma plain_tile L n off src : (n * L ≤ length src)%nat →
  aes_tiles vaes512 aarch64 L n src kk = tile (λ _, aes_block kk) off (take (n * L) src).
Proof.
  intros Hn. unfold aes_tiles. rewrite aes_tiles_src_ok by (intros; by apply (length_load_tile L n)).
  rewrite <- flatten_tiles by done. f_equal. apply list_fmap_ext. intros t ? _. apply tile_const.
Qed.
Lemma xor_input_tile L n off src : (n * L ≤ length src)%nat →
  aes_tiles_xor_input vaes512 aarch64 L n src kk = tile (λ _ x, N.lxor (aes_block kk x) x) off (take (n * L) src).
Proof.
  intros Hn. apply (xor_back_tiles (λ _ x, x)); [done|]. intros t _.
  rewrite <- tile_const. by rewrite list_fmap_id.
Qed.
#[export] Instance plain_kernel : TileKernel (λ L n _ src, aes_tiles vaes512 aarch64 L n src kk) (λ _, aes_block kk).
Proof. intros L n off src Hn _. by apply plain_tile. Qed.
#[export] Instance xor_input_kernel : TileKernel (λ L n _ src, aes_tiles_xor_input vaes512 aarch64 L n src kk)
  (λ _ x, N.lxor (aes_block kk x) x).
Proof. intros L n off src Hn _. by apply xor_input_tile. Qed.
#[export] Instance sigma_kernel : TileKernel (λ L n _ src, AesMemXorSigmaTile vaes512 aarch64 L n src kk)
  (λ _ x, crh_block (λ _, aes_block kk) 0 (sigma x)).
Proof.
  intros L n off src Hn Hb. apply (xor_back_tiles (λ _, sigma)); [done|]. intros t Ht.
  rewrite sigma_lanes by (by apply (length_load_tile L n) || by apply load_tile_ok). apply tile_const.
Qed.
#[export] Instance input_tweak_kernel Span tb :
  TileKernel (λ L n off src, AesMemXorInputTweakTile vaes512 aarch64 Span L n off tb src kk)
    (MITCCRH.tweak_block (λ _, aes_block kk) id Span 0 tb).
Proof.
  intros L n off src Hn _. unfold AesMemXorInputTweakTile, MITCCRH.tweak_block. cbv zeta.
  apply (xor_back_tiles (λ b x, N.lxor x (MITCCRH.add64 tb (MITCCRH.lane_offset Span b)))); [done|].
  intros t Ht. by apply tweak_lanes, (length_load_tile L n).
Qed.
#[export] Instance sigma_tweak_kernel Span tb :
  TileKernel (λ L n off src, AesMemXorSigmaTweakTile vaes512 aarch64 Span L n off tb src kk)
    (MITCCRH.tweak_block (λ _, aes_block kk) sigma Span 0 tb).
Proof.
  intros L n off src Hn Hb. unfold AesMemXorSigmaTweakTile, MITCCRH.tweak_block. cbv zeta.
  apply (xor_back_tiles (λ b x, N.lxor (sigma x) (MITCCRH.add64 tb (MITCCRH.lane_offset Span b)))); [done|].
  intros t Ht. assert (length (load_tile L src t) = L) as Hl by by apply (length_load_tile L n).
  rewrite sigma_lanes by (done || by apply load_tile_ok). rewrite tweak_lanes by by rewrite length_fmap.
  unfold tile. apply list_eq. intros i. rewrite !list_lookup_imap, list_lookup_fmap. by rewrite <- option_fmap_compose.
Qed.
End kernels.

(** *** Counter fill *)
Section ctr.
Context (vaes256 vaes512 aarch64 : bool) (kk : AES_KEY).
(** Block [i] of the fill from [counter], under a tweak. *)
Definition ctr_block (St : CtrStore) (counter : N) (tweak : block) (i : nat) : block :=
  let pt := N.lxor (makeBlock 0 (u64 (counter + N.of_nat i))) (match St with XorBack => tweak | Plain => 0%N end) in
  match St with XorBack => N.lxor (aes_block kk pt) pt | Plain => aes_block kk pt end.
Lemma fmap_seq_shift {A} (f g : nat → A) a b n : (∀ i, (i < n)%nat → f (a + i)%nat = g (b + i)%nat) →
  f <$> seq a n = g <$> seq b n.
Proof.
  intros H. apply list_eq. intros i. rewrite !list_lookup_fmap. destruct (decide (i < n)%nat) as [Hi|Hi].
  - rewrite !lookup_seq_lt by done. simpl. by rewrite H.
  - by rewrite !lookup_seq_ge by lia.
Qed.
Lemma flatten_seq {A} (g : nat → A) L n :
  flatten ((λ t, (λ j, g (L * t + j)%nat) <$> seq 0 L) <$> seq 0 n) = g <$> seq 0 (n * L).
Proof.
  induction n as [|n IH]; [done|]. rewrite seq_S, fmap_app, join_app, IH. cbn [fmap list_fmap Nat.add].
  rewrite flatten_cons, app_nil_r. replace (S n * L)%nat with (n * L + L)%nat by lia.
  rewrite seq_app, fmap_app. f_equal. apply fmap_seq_shift. intros j Hj. f_equal. lia.
Qed.
Lemma ctr_fill_lane_ok L W St counter tweak : (W mod L = 0)%nat → (0 < L)%nat →
  aes_ctr_fill_lane vaes512 aarch64 L W St counter kk tweak = ctr_block St counter tweak <$> seq 0 W.
Proof.
  intros HW HL. unfold aes_ctr_fill_lane.
  assert (∀ t, AesLane.ctr_xor_tweak L counter t (AesLane.broadcast L (match St with XorBack => tweak | Plain => 0%N end)) =
    (λ j, N.lxor (makeBlock 0 (u64 (counter + N.of_nat (L * t + j)))) (match St with XorBack => tweak | Plain => 0%N end))
      <$> seq 0 L) as Hs.
  { intros t. unfold AesLane.ctr_xor_tweak. rewrite lane_map by (by rewrite length_fmap, length_seq).
    by rewrite <- list_fmap_compose. }
  rewrite aes_tiles_src_ok by (intros t _; by rewrite Hs, length_fmap, length_seq).
  replace W with (W / L * L)%nat at 2 by (pose proof (Nat.div_mod_eq W L); lia).
  rewrite <- flatten_seq. f_equal. apply list_fmap_ext. intros t ? [-> _]%lookup_seq. rewrite Hs.
  unfold ctr_block. destruct St; [by rewrite <- list_fmap_compose|].
  unfold AesLane.xorv. by rewrite zip_with_fmap_l, zip_with_diag, <- list_fmap_compose.
Qed.
Lemma ctr_fill_ok W St counter tweak :
  aes_ctr_fill_impl vaes256 vaes512 aarch64 W St counter kk tweak = ctr_block St counter tweak <$> seq 0 W.
Proof.
  unfold aes_ctr_fill_impl.
  destruct (vaes512 && _) eqn:H4.
  { apply andb_true_iff in H4 as [_ H4%Nat.eqb_eq]. apply ctr_fill_lane_ok; lia. }
  destruct (vaes256 && _) eqn:H2.
  { apply andb_true_iff in H2 as [_ H2%Nat.eqb_eq]. apply ctr_fill_lane_ok; lia. }
  apply ctr_fill_lane_ok; [apply Nat.mod_1_r|lia].
Qed.
(** The runtime fill is the key stream from the counter. *)
Definition ctr_stream (counter : N) (n : nat) : list block :=
  (λ i, aes_block kk (makeBlock 0 (u64 (counter + N.of_nat i)))) <$> seq 0 n.
Lemma u64_add_l a b : u64 (u64 a + b) = u64 (a + b).
Proof. apply N.Div0.add_mod_idemp_l. Qed.
Lemma ctr_stream_app counter n m :
  ctr_stream counter (n + m) = ctr_stream counter n ++ ctr_stream (u64 (counter + N.of_nat n)) m.
Proof.
  unfold ctr_stream. rewrite seq_app, fmap_app. apply (f_equal (app _)), fmap_seq_shift. intros i Hi. rewrite u64_add_l.
  by replace (counter + N.of_nat (0 + n + i))%N with (counter + N.of_nat n + N.of_nat (0 + i))%N by lia.
Qed.
Definition ctr_step (op : CtrFillOp) : CtrFillOp := (op.1 ++ ctr_stream op.2 1, u64 (op.2 + 1)).
Lemma ctr_iter n out counter : (counter < 2 ^ 64)%N →
  Nat.iter n ctr_step (out, counter) = (out ++ ctr_stream counter n, u64 (counter + N.of_nat n)).
Proof.
  revert out counter. induction n as [|n IH]; intros out counter Hc.
  { cbn. by rewrite app_nil_r, N.add_0_r, u64_small. }
  rewrite Nat.iter_succ_r. unfold ctr_step at 2. cbn [fst snd]. rewrite IH by apply u64_lt.
  rewrite <- app_assoc, <- ctr_stream_app. rewrite u64_add_l.
  by replace (counter + N.of_nat (S n))%N with (counter + 1 + N.of_nat n)%N by lia.
Qed.
Lemma ctr_fill_plain W counter : aes_ctr_fill vaes256 vaes512 aarch64 W counter kk = ctr_stream counter W.
Proof.
  unfold aes_ctr_fill. rewrite ctr_fill_ok. apply fmap_seq_shift. intros i _. unfold ctr_block. cbv zeta iota.
  rewrite N.lxor_0_r. reflexivity.
Qed.
Lemma ctr_run_steps W op : (op.2 < 2 ^ 64)%N → ctr_run vaes256 vaes512 aarch64 kk W op = Nat.iter W ctr_step op.
Proof.
  destruct op as [out counter]. intros Hc. rewrite ctr_iter by done. unfold ctr_run. cbn [fst snd].
  by rewrite ctr_fill_plain.
Qed.
Lemma ParaCtrEnc_ok counter n : (counter < 2 ^ 64)%N → ParaCtrEnc vaes256 vaes512 aarch64 counter kk n = ctr_stream counter n.
Proof.
  intros Hc. unfold ParaCtrEnc.
  rewrite (drain_tiles_steps _ _ ctr_step (λ _ op, op.2 < 2 ^ 64)%N); [by rewrite ctr_iter|..|done].
  - intros ? op _. apply u64_lt.
  - intros W ? op. apply ctr_run_steps.
Qed.
End ctr.

(** ** Encrypting runs of blocks

    [keys] are scheduled keys; key [k] encrypts blocks [k*n] to [k*n + n]. *)
Section para.
Context (vaes256 vaes512 aarch64 : bool).
Definition key_at (keys : list AES_KEY) (k : nat) : AES_KEY := default [] (keys !! k).
(** The tilings of [Crh] over a memory tile: [apply kk L n_tiles off src]. *)
Section mem_tile.
Context (apply : AES_KEY → nat → nat → nat → list block → list block).
Fixpoint apply_grouped_tiles (fuel : nat) (kk : AES_KEY) (off n_tiles : nat) (src : list block) : list block :=
  match fuel with
  | O => []
  | S fuel =>
      if (4 <? n_tiles)%nat then
        apply kk 4%nat 4%nat off src ++ apply_grouped_tiles fuel kk (off + 4 * 4) (n_tiles - 4) (drop (4 * 4) src)
      else if (0 <? n_tiles)%nat then apply kk 4%nat n_tiles off src else []
  end.
Definition mem_tiles_key (numEncs : nat) (kk : AES_KEY) (src : list block) : list block :=
  let N4 := if vaes512 then (numEncs / 4)%nat else 0%nat in
  let N2 := if vaes256 then ((numEncs - N4 * 4) / 2)%nat else 0%nat in
  let N1 := (numEncs - N4 * 4 - N2 * 2)%nat in
  apply_grouped_tiles (S N4) kk 0 N4 src ++
  (if (0 <? N2)%nat then apply kk 2%nat N2 (N4 * 4)%nat (drop (N4 * 4) src) else []) ++
  (if (0 <? N1)%nat then apply kk 1%nat N1 (N4 * 4 + N2 * 2)%nat (drop (N4 * 4 + N2 * 2) src) else []).
Definition ParaEnc_mem_tiles (numEncs : nat) (keys : list AES_KEY) (src : list block) : list block :=
  flatten ((λ k, mem_tiles_key numEncs (key_at keys k) (drop (k * numEncs) src)) <$> seq 0 (length keys)).
Definition mem_tile_run (kk : AES_KEY) (W : nat) (op : MemTileOp) : MemTileOp :=
  (op.1 ++ ParaEnc_mem_tiles W [kk] op.2, drop W op.2).
Definition ParaEnc_mem_tiles_runtime (keys : list AES_KEY) (src : list block) (n : nat) : list block :=
  flatten ((λ k, (drain_tiles vaes512 (mem_tile_run (key_at keys k)) ([], drop (k * n) src) n).1) <$> seq 0 (length keys)).

(** Over a tile that works block by block they are [Crh]'s. *)
Context (f : AES_KEY → nat → N → N) (Hf : ∀ kk L n off src, (n * L ≤ length src)%nat →
  apply kk L n off src = tile (f kk) off (take (n * L) src)).
Lemma apply_grouped_tiles_ok fuel kk off n src : (n < fuel)%nat → (n * 4 ≤ length src)%nat →
  apply_grouped_tiles fuel kk off n src = tile (f kk) off (take (n * 4) src).
Proof.
  revert off n src. induction fuel as [|fuel IH]; intros off n src Hfu Hl; [lia|]. cbn [apply_grouped_tiles].
  destruct (Nat.ltb_spec 4 n).
  - rewrite IH, Hf by (rewrite ?length_drop; lia).
    replace (n * 4)%nat with (4 * 4 + (n - 4) * 4)%nat by lia. rewrite <- (take_take_drop src (4 * 4)), tile_app.
    rewrite length_take. by replace ((4 * 4) `min` length src)%nat with (4 * 4)%nat by lia.
  - destruct (Nat.ltb_spec 0 n); [by apply Hf|]. by replace n with 0%nat by lia.
Qed.
Lemma if_tile (kk : AES_KEY) L n off src : (n * L ≤ length src)%nat →
  (if (0 <? n)%nat then apply kk L n off src else []) = tile (f kk) off (take (n * L) src).
Proof. intros H. destruct (Nat.ltb_spec 0 n); [by apply Hf|]. by replace n with 0%nat by lia. Qed.
Lemma mem_tiles_key_ok n kk src : (n ≤ length src)%nat → mem_tiles_key n kk src = tile (f kk) 0 (take n src).
Proof.
  intros Hl. unfold mem_tiles_key.
  set (N4 := if vaes512 then (n / 4)%nat else 0%nat).
  set (N2 := if vaes256 then ((n - N4 * 4) / 2)%nat else 0%nat).
  assert (N4 * 4 ≤ n)%nat as H4.
  { unfold N4. destruct vaes512; [|lia]. pose proof (Nat.div_mod_eq n 4). lia. }
  assert (N2 * 2 ≤ n - N4 * 4)%nat as H2.
  { unfold N2. destruct vaes256; [|lia]. pose proof (Nat.div_mod_eq (n - N4 * 4) 2). lia. }
  clearbody N4 N2. rewrite apply_grouped_tiles_ok, !if_tile by (rewrite ?length_drop; lia).
  rewrite <- (take_drop (N4 * 4) (take n src)), tile_app, length_take, take_take. f_equal; [do 2 f_equal; lia|].
  rewrite length_take. replace ((N4 * 4) `min` (n `min` length src))%nat with (N4 * 4)%nat by lia.
  rewrite <- (take_drop (N2 * 2) (drop (N4 * 4) (take n src))), tile_app, length_take, length_drop, length_take, drop_drop.
  replace ((N2 * 2) `min` (n `min` length src - N4 * 4))%nat with (N2 * 2)%nat by lia.
  rewrite !skipn_firstn_comm, take_take. f_equal; f_equal; f_equal; lia.
Qed.
Lemma ParaEnc_mem_tiles_ok n keys src : (length keys * n ≤ length src)%nat →
  ParaEnc_mem_tiles n keys src = flatten ((λ k, tile (f (key_at keys k)) 0 (take n (drop (k * n) src))) <$> seq 0 (length keys)).
Proof.
  intros Hn. unfold ParaEnc_mem_tiles. f_equal. apply list_fmap_ext. intros k ? [-> Hk]%lookup_seq.
  apply mem_tiles_key_ok. rewrite length_drop. assert (S k * n ≤ length keys * n)%nat by (apply Nat.mul_le_mono_r; lia). simpl. lia.
Qed.
Context (g : AES_KEY → N → N) (Hg : ∀ kk b, f kk b = g kk).
Lemma mem_tile_run_steps kk W k op : (W + k ≤ length op.2)%nat →
  mem_tile_run kk W op = Nat.iter W (mem_step (g kk)) op.
Proof.
  destruct op as [out src]. cbn [snd]. intros Hn. rewrite mem_iter. unfold mem_tile_run. cbn [fst snd].
  rewrite ParaEnc_mem_tiles_ok by (simpl; lia). cbn [length seq fmap list_fmap Nat.mul].
  rewrite flatten_cons, app_nil_r, drop_0. unfold tile. rewrite (imap_ext _ (λ _, g kk)) by (intros; by rewrite Hg).
  change (λ _ : nat, g kk) with (const (B := nat) (g kk)). by rewrite imap_const.
Qed.
Lemma ParaEnc_mem_tiles_runtime_ok n keys src : (length keys * n ≤ length src)%nat →
  ParaEnc_mem_tiles_runtime keys src n = flatten ((λ k, g (key_at keys k) <$> take n (drop (k * n) src)) <$> seq 0 (length keys)).
Proof.
  intros Hn. unfold ParaEnc_mem_tiles_runtime. f_equal. apply list_fmap_ext. intros k ? [-> Hk]%lookup_seq.
  assert (n ≤ length (drop (k * n) src))%nat as Hl.
  { rewrite length_drop. assert (S k * n ≤ length keys * n)%nat by (apply Nat.mul_le_mono_r; lia). simpl in *. lia. }
  rewrite (drain_tiles_steps _ _ (mem_step (g (key_at keys k))) (λ k op, k ≤ length op.2)%nat); [by rewrite mem_iter|..|done].
  - intros j op Hj. unfold mem_step. cbn [snd]. rewrite length_drop. lia.
  - intros W j op. apply mem_tile_run_steps.
Qed.
End mem_tile.

Definition AesMemPlainTile (kk : AES_KEY) (L n_tiles off : nat) (src : list block) : list block :=
  aes_tiles vaes512 aarch64 L n_tiles src kk.
Definition AesMemXorInputTile (kk : AES_KEY) (L n_tiles off : nat) (src : list block) : list block :=
  aes_tiles_xor_input vaes512 aarch64 L n_tiles src kk.
(** With both counts fixed when compiled, and with both at run time. *)
Definition ParaEnc_impl : nat → list AES_KEY → list block → list block := ParaEnc_mem_tiles AesMemPlainTile.
Definition ParaEncXorInput_impl : nat → list AES_KEY → list block → list block := ParaEnc_mem_tiles AesMemXorInputTile.
Definition ParaEnc_runtime_impl (src : list block) (keys : list AES_KEY) (n : nat) : list block :=
  ParaEnc_mem_tiles_runtime AesMemPlainTile keys src n.
Definition ParaEncXorInput_runtime_impl (src : list block) (keys : list AES_KEY) (n : nat) : list block :=
  ParaEnc_mem_tiles_runtime AesMemXorInputTile keys src n.
(** The two forms of [AES_ecb_encrypt_blks]. *)
Definition AES_ecb_encrypt_blks_N (N_ : nat) (blks : list block) (key : AES_KEY) : list block := ParaEnc_impl N_ [key] blks.
Definition AES_ecb_encrypt_blks (blks : list block) (nblks : nat) (key : AES_KEY) : list block :=
  ParaEnc_runtime_impl blks [key] nblks.

Lemma plain_tile_ok kk L n off src : (n * L ≤ length src)%nat →
  AesMemPlainTile kk L n off src = tile (λ _, aes_block kk) off (take (n * L) src).
Proof. apply plain_tile. Qed.
Lemma xor_input_tile_ok kk L n off src : (n * L ≤ length src)%nat →
  AesMemXorInputTile kk L n off src = tile (λ _ x, N.lxor (aes_block kk x) x) off (take (n * L) src).
Proof. apply xor_input_tile. Qed.
Lemma ParaEnc_impl_ok n keys src : (length keys * n ≤ length src)%nat →
  ParaEnc_impl n keys src = flatten ((λ k, aes_block (key_at keys k) <$> take n (drop (k * n) src)) <$> seq 0 (length keys)).
Proof.
  intros Hn. unfold ParaEnc_impl. rewrite (ParaEnc_mem_tiles_ok _ (λ kk _, aes_block kk)) by (done || apply plain_tile_ok).
  f_equal. apply list_fmap_ext. intros k ? _. symmetry. apply tile_const.
Qed.
Lemma ParaEncXorInput_impl_ok n keys src : (length keys * n ≤ length src)%nat →
  ParaEncXorInput_impl n keys src =
    flatten ((λ k, (λ x, N.lxor (aes_block (key_at keys k) x) x) <$> take n (drop (k * n) src)) <$> seq 0 (length keys)).
Proof.
  intros Hn. unfold ParaEncXorInput_impl.
  rewrite (ParaEnc_mem_tiles_ok _ (λ kk _ x, N.lxor (aes_block kk x) x)) by (done || apply xor_input_tile_ok).
  f_equal. apply list_fmap_ext. intros k ? _. symmetry. apply tile_const.
Qed.
Lemma ParaEnc_runtime_ok n keys src : (length keys * n ≤ length src)%nat →
  ParaEnc_runtime_impl src keys n = flatten ((λ k, aes_block (key_at keys k) <$> take n (drop (k * n) src)) <$> seq 0 (length keys)).
Proof. apply (ParaEnc_mem_tiles_runtime_ok _ (λ kk _, aes_block kk) plain_tile_ok aes_block). done. Qed.
Lemma ParaEncXorInput_runtime_ok n keys src : (length keys * n ≤ length src)%nat →
  ParaEncXorInput_runtime_impl src keys n =
    flatten ((λ k, (λ x, N.lxor (aes_block (key_at keys k) x) x) <$> take n (drop (k * n) src)) <$> seq 0 (length keys)).
Proof. apply (ParaEnc_mem_tiles_runtime_ok _ (λ kk _ x, N.lxor (aes_block kk x) x) xor_input_tile_ok (λ kk x, N.lxor (aes_block kk x) x)). done. Qed.
End para.

(** ** Properties *)

(** C17: AES with vector instructions.  Scheduling a batch of keys gives each key
    the schedule of FIPS-197: under it the instruction sequence of a tile maps
    every block to its encryption under that key.  On every build, x86 with any of the
    VAES widths or aarch64 with the NEON rounds, the tile
    kernels (plain, with the input xored back, through [sigma], and the two
    tweaked ones) compute on any number of tiles of 1, 2 or 4 blocks, also when
    four tiles go through the rounds in step, exactly the per-block functions the
    hash constructions of [Crh] are stated with, and the counter fill is the
    stream of encrypted counter blocks.  Encrypting runs under several keys, with or
    without the input xored back and with the counts known when compiled or not,
    gives every block to its own key. *)
Theorem aes_ni_correct (vaes256 vaes512 aarch64 : bool) (user_key : list block) (keys : list AES_KEY) :
  length keys = length user_key → Forall (λ rd, length rd = 11%nat) keys →
  let ks := AES_opt_key_schedule user_key keys in
  length ks = length user_key ∧
  (∀ i k kk, user_key !! i = Some k → ks !! i = Some kk →
     (∀ x, le_bytes 16 (aes_block kk x) = Fips197.encrypt (le_bytes 16 x) (le_bytes 16 k)) ∧
     TileKernel (λ L n _ src, aes_tiles vaes512 aarch64 L n src kk) (λ _, aes_block kk) ∧
     TileKernel (λ L n _ src, aes_tiles_xor_input vaes512 aarch64 L n src kk) (λ _ x, N.lxor (aes_block kk x) x) ∧
     TileKernel (λ L n _ src, AesMemXorSigmaTile vaes512 aarch64 L n src kk)
       (λ _ x, crh_block (λ _, aes_block kk) 0 (sigma x)) ∧
     (∀ Span tb,
       TileKernel (λ L n off src, AesMemXorInputTweakTile vaes512 aarch64 Span L n off tb src kk)
         (MITCCRH.tweak_block (λ _, aes_block kk) id Span 0 tb) ∧
       TileKernel (λ L n off src, AesMemXorSigmaTweakTile vaes512 aarch64 Span L n off tb src kk)
         (MITCCRH.tweak_block (λ _, aes_block kk) sigma Span 0 tb)) ∧
     (∀ W St counter tweak, aes_ctr_fill_impl vaes256 vaes512 aarch64 W St counter kk tweak =
        ctr_block kk St counter tweak <$> seq 0 W)) ∧
  (∀ src n, (length user_key * n ≤ length src)%nat →
     let runs (f : AES_KEY → block → block) :=
       flatten ((λ k, f (key_at ks k) <$> take n (drop (k * n) src)) <$> seq 0 (length user_key)) in
     ParaEnc_impl vaes256 vaes512 aarch64 n ks src = runs aes_block ∧
     ParaEnc_runtime_impl vaes256 vaes512 aarch64 src ks n = runs aes_block ∧
     ParaEncXorInput_impl vaes256 vaes512 aarch64 n ks src = runs (λ kk x, N.lxor (aes_block kk x) x) ∧
     ParaEncXorInput_runtime_impl vaes256 vaes512 aarch64 src ks n = runs (λ kk x, N.lxor (aes_block kk x) x)).
Proof.
  intros Hl Hf ks. assert (length ks = length user_key) as Hlk.
  { unfold ks. rewrite key_schedule_batch, length_zip_with. lia. }
  split; [done|]. split.
  - intros i k kk Hk Hkk. unfold ks in Hkk. rewrite key_schedule_batch, lookup_zip_with, Hk in Hkk.
    destruct (keys !! i) as [rd|] eqn:Hrd; [|done]. cbn [mbind option_bind] in Hkk. injection Hkk as <-.
    rewrite Forall_lookup in Hf. split; [intros x; by apply aes_block_ok, key_schedule_one, (Hf i)|].
    split; [exact _|]. split; [exact _|]. split; [exact _|]. split; [split; exact _|]. intros. apply ctr_fill_ok.
  - intros src n Hn. rewrite <- Hlk in *. cbv zeta.
    split; [by apply ParaEnc_impl_ok|]. split; [by apply ParaEnc_runtime_ok|].
    split; [by apply ParaEncXorInput_impl_ok|by apply ParaEncXorInput_runtime_ok].
Qed.
Lemma aes_ni_correct_witness :
  let ks := AES_opt_key_schedule [0x0f0e0d0c0b0a09080706050403020100]%N [replicate 11 0%N] in
  le_bytes 16 (aes_block (key_at ks 0) 0xffeeddccbbaa99887766554433221100) =
    [0x69; 0xc4; 0xe0; 0xd8; 0x6a; 0x7b; 0x04; 0x30; 0xd8; 0xcd; 0xb7; 0x80; 0x70; 0xb4; 0xc5; 0x5a]%N ∧
  ParaEnc_runtime_impl false false true [1; 2; 3]%N ks 3 = aes_block (key_at ks 0) <$> [1; 2; 3]%N.
Proof.
  destruct (aes_ni_correct false false true [0x0f0e0d0c0b0a09080706050403020100]%N [replicate 11 0%N]) as (_ & Hk & Hp);
    [reflexivity|by repeat constructor|]. split.
  - destruct (Hk 0%nat _ (key_at (AES_opt_key_schedule [0x0f0e0d0c0b0a09080706050403020100]%N [replicate 11 0%N]) 0)
      eq_refl) as [Hx _]; [vm_compute; reflexivity|]. rewrite Hx. vm_compute. reflexivity.
  - destruct (Hp [1; 2; 3]%N 3%nat) as (_ & -> & _); [simpl; lia|]. generalize (AES_opt_key_schedule
      [0x0f0e0d0c0b0a09080706050403020100]%N [replicate 11 0%N]). reflexivity.
Defined.
