(* ===== verification/TestMode.v ===== *)
(** * Deterministic seeds (runtime/core/test_mode.h)

    The process-wide test-mode state, its operations by a thread, and the
    interleavings of threads drawing seeds.  An operation is a composition of its
    atomic accesses, so the step relation and the operations share them. *)

From stdpp Require Import functions.
From S2P Require Import Prelude Bits.

(** ** State *)
Record TestSeedTls := mkTls { lane : N; ctr : N; child_ctr : N; epoch : N }.
Definition tls_init : TestSeedTls := mkTls 0 0 0 0.
(** One [TestSeedTls] per thread. *)
Record World := mkWorld {
  test_mode_flag : bool; test_seed_epoch : N; lane0_owner : N; tls : nat → TestSeedTls }.
Record TestSeed := mkSeed { seed_lane : N; ordinal : N }.

Definition set_test_mode (on : bool) (w : World) : World :=
  mkWorld on (test_seed_epoch w) (lane0_owner w) (tls w).
Definition is_test_mode (w : World) : bool := test_mode_flag w.
Definition set_tls (t : nat) (s : TestSeedTls) (w : World) : World :=
  mkWorld (test_mode_flag w) (test_seed_epoch w) (lane0_owner w) (<[t := s]> (tls w)).

Definition sync_test_epoch (ep : N) (s : TestSeedTls) : TestSeedTls :=
  if (epoch s =? ep)%N then s else mkTls (lane s) 0 0 ep.
Definition mix64 (x : N) : N :=
  let x := u64 (x + 0x9E3779B97F4A7C15) in
  let x := u64 (N.lxor x (N.shiftr x 30) * 0xBF58476D1CE4E5B9) in
  let x := u64 (N.lxor x (N.shiftr x 27) * 0x94D049BB133111EB) in
  N.lxor x (N.shiftr x 31).

(** ** Operations *)
Section ops.
(** [std::hash] of a thread's id. *)
Context (hash : nat → N).
Definition this_thread_token (t : nat) : N := N.lor (hash t) 1.

(** The atomic accesses of a draw: load the epoch, claim lane 0, take an ordinal. *)
Definition draw_sync (t : nat) (w : World) : World :=
  set_tls t (sync_test_epoch (test_seed_epoch w) (tls w t)) w.
(** [compare_exchange_strong] against 0: the value found, and the owner after. *)
Definition compare_exchange (owner token : N) : N * N :=
  if (owner =? 0)%N then (0%N, token) else (owner, owner).
Definition draw_claim (t : nat) (w : World) : outcome World :=
  if (lane (tls w t) =? 0)%N then
    let token := this_thread_token t in
    let '(expected, owner) := compare_exchange (lane0_owner w) token in
    expecting ((lane0_owner w =? 0)%N || (expected =? token)%N)
      "test mode: a second thread drew lane-0 randomness; run spawned work under emp::test_lane_scope (see docs/test_mode.md)";;
    mret (mkWorld (test_mode_flag w) (test_seed_epoch w) owner (tls w))
  else mret w.
Definition draw_take (t : nat) (w : World) : TestSeed * World :=
  let s := tls w t in
  (mkSeed (lane s) (ctr s), set_tls t (mkTls (lane s) (u64 (ctr s + 1)) (child_ctr s) (epoch s)) w).
Definition next_test_seed (t : nat) (w : World) : outcome (TestSeed * World) :=
  w ← draw_claim t (draw_sync t w); mret (draw_take t w).

Definition next_test_child_lane (t : nat) (w : World) : N * World :=
  let s := sync_test_epoch (test_seed_epoch w) (tls w t) in
  let l := mix64 (N.lxor (mix64 (lane s)) (child_ctr s)) in
  let l := if (l =? 0)%N then 1%N else l in
  (l, set_tls t (mkTls (lane s) (ctr s) (u64 (child_ctr s + 1)) (epoch s)) w).
(** [test_lane_scope]: construction gives the state to restore, destruction restores it. *)
Definition scope_enter (t : nat) (l : N) (w : World) : TestSeedTls * World :=
  (tls w t, set_tls t (mkTls l 0 0 (test_seed_epoch w)) w).
Definition scope_exit (t : nat) (saved : TestSeedTls) (w : World) : World := set_tls t saved w.

Definition current_test_seed_epoch (w : World) : N := test_seed_epoch w.
(** The two atomic accesses of a reset. *)
Definition reset_bump (w : World) : World :=
  mkWorld (test_mode_flag w) (u64 (test_seed_epoch w + 1)) (lane0_owner w) (tls w).
Definition reset_release (w : World) : World :=
  mkWorld (test_mode_flag w) (test_seed_epoch w) 0 (tls w).
Definition reset_test_seed_counter (w : World) : World := reset_release (reset_bump w).
End ops.
Definition init_world (env : bool) : World := mkWorld env 0 0 (λ _, tls_init).

(** ** The lane mix is a permutation of the 64-bit words *)
Lemma xorshift_inj k x y : (0 < k)%N → (x < 2 ^ 64)%N → (y < 2 ^ 64)%N →
  N.lxor x (N.shiftr x k) = N.lxor y (N.shiftr y k) → x = y.
Proof.
  intros Hk Hx Hy H.
  assert (∀ n i, (64 ≤ i + N.of_nat n)%N → N.testbit x i = N.testbit y i) as Hbits.
  { induction n as [|n IH]; intros i Hi; [by rewrite !(testbit_above 64) by (done || lia)|].
    pose proof (f_equal (λ v, N.testbit v i) H) as Hb. cbn beta in Hb.
    rewrite !N.lxor_spec, !N.shiftr_spec', (IH (i + k)%N) in Hb by lia.
    by destruct (N.testbit x i), (N.testbit y i), (N.testbit y (i + k)). }
  apply N.bits_inj. intros i. apply (Hbits 64%nat). lia.
Qed.
Lemma mul_inj c ci x y : ((c * ci) mod 2 ^ 64 = 1)%N → (x < 2 ^ 64)%N → (y < 2 ^ 64)%N →
  u64 (x * c) = u64 (y * c) → x = y.
Proof.
  intros Hc Hx Hy H. unfold u64 in H.
  assert (∀ v, (v < 2 ^ 64)%N → (((v * c) mod 2 ^ 64) * ci) mod 2 ^ 64 = v)%N as Hinv.
  { intros v Hv. rewrite N.Div0.mul_mod_idemp_l, <- N.mul_assoc, <- N.Div0.mul_mod_idemp_r, Hc, N.mul_1_r.
    by apply N.mod_small. }
  rewrite <- (Hinv x), <- (Hinv y) by done. by rewrite H.
Qed.
Lemma xorshift_lt x k : (x < 2 ^ 64)%N → (N.lxor x (N.shiftr x k) < 2 ^ 64)%N.
Proof.
  intros Hx. apply lt_pow2_bits. intros i Hi. rewrite N.lxor_spec, N.shiftr_spec'.
  by rewrite !(testbit_above 64) by (done || lia).
Qed.
Lemma mix64_lt x : (mix64 x < 2 ^ 64)%N.
Proof. apply xorshift_lt, u64_lt. Qed.
Lemma mix64_inj x y : (x < 2 ^ 64)%N → (y < 2 ^ 64)%N → mix64 x = mix64 y → x = y.
Proof.
  intros Hx Hy H. unfold mix64 in H.
  apply (xorshift_inj 31) in H; [|done|apply u64_lt..].
  apply (mul_inj _ 0x319642B2D24D8EC3) in H; [|by vm_compute|apply xorshift_lt, u64_lt..].
  apply (xorshift_inj 27) in H; [|done|apply u64_lt..].
  apply (mul_inj _ 0x96DE1B173F119089) in H; [|by vm_compute|apply xorshift_lt, u64_lt..].
  apply (xorshift_inj 30) in H; [|done|apply u64_lt..].
  unfold u64 in H. set (c := 0x9E3779B97F4A7C15%N) in *.
  assert (∀ v, (v < 2 ^ 64)%N → ((v + c) mod 2 ^ 64 + (2 ^ 64 - c)) mod 2 ^ 64 = v)%N as Hinv.
  { intros v Hv. rewrite N.Div0.add_mod_idemp_l.
    replace (v + c + (2 ^ 64 - c))%N with (v + 1 * 2 ^ 64)%N by (unfold c; lia).
    rewrite N.Div0.mod_add. by apply N.mod_small. }
  rewrite <- (Hinv x), <- (Hinv y) by done. by rewrite H.
Qed.

(** ** Threads interleaved

    A draw is three atomic steps of its thread; scopes nest on a thread's stack.
    A thread is one lifetime of a thread of the process: [std::hash] may give two
    of them the same token, and does when a thread takes the id of one that ended.
    [log] records the draws with their thread and the epoch they were made in,
    [installed] the lanes handed to scopes since the last reset. *)
Inductive Pc := Idle | Synced | Claimed.
Record Draw := mkDraw { d_thread : nat; d_epoch : N; d_seed : TestSeed }.
Record Conc := mkConc {
  world : World; saved : nat → list TestSeedTls; pc : nat → Pc; log : list Draw; installed : list N }.

Section steps.
Context (hash : nat → N).
(** The discipline of docs/test_mode.md: scopes get fresh nonzero lanes, a reset
    happens between units of work; and no counter reaches [2^64]. *)
Inductive step : Conc → Conc → Prop :=
  | SSync w sv p lg ins t : p t = Idle →
      step (mkConc w sv p lg ins) (mkConc (draw_sync t w) sv (<[t := Synced]> p) lg ins)
  | SClaim w w' sv p lg ins t : p t = Synced → draw_claim hash t w = Ret w' →
      step (mkConc w sv p lg ins) (mkConc w' sv (<[t := Claimed]> p) lg ins)
  | STake w w' sv p lg ins t seed : p t = Claimed → draw_take t w = (seed, w') →
      (ctr (tls w t) + 1 < 2 ^ 64)%N →
      step (mkConc w sv p lg ins)
        (mkConc w' sv (<[t := Idle]> p) (mkDraw t (epoch (tls w t)) seed :: lg) ins)
  | SChild w w' sv p lg ins t l : p t = Idle → next_test_child_lane t w = (l, w') →
      step (mkConc w sv p lg ins) (mkConc w' sv p lg ins)
  | SEnter w w' sv p lg ins t l s : p t = Idle → l ≠ 0%N → l ∉ ins → scope_enter t l w = (s, w') →
      step (mkConc w sv p lg ins) (mkConc w' (<[t := s :: sv t]> sv) p lg (l :: ins))
  | SExit w sv p lg ins t s rest : p t = Idle → sv t = s :: rest →
      step (mkConc w sv p lg ins) (mkConc (scope_exit t s w) (<[t := rest]> sv) p lg ins)
  | SReset w sv p lg ins : (∀ t, p t = Idle ∧ sv t = []) → (test_seed_epoch w + 1 < 2 ^ 64)%N →
      step (mkConc w sv p lg ins) (mkConc (reset_test_seed_counter w) sv p lg []).
Definition init_conc (env : bool) : Conc := mkConc (init_world env) (λ _, []) (λ _, Idle) [] [].
Definition reachable (env : bool) : Conc → Prop := rtc step (init_conc env).

(** *** The invariant *)
Definition cursors (c : Conc) (t : nat) : list TestSeedTls := tls (world c) t :: saved c t.
#[local] Arguments cursors : simpl never.
Definition drawn (c : Conc) (t : nat) (e l o : N) : Prop := mkDraw t e (mkSeed l o) ∈ log c.
(** The one way two draws can agree: on lane 0, by threads the owner token does
    not tell apart. *)
Definition merged (d1 d2 : Draw) : Prop :=
  seed_lane (d_seed d1) = 0%N ∧ d_thread d1 ≠ d_thread d2 ∧
  this_thread_token hash (d_thread d1) = this_thread_token hash (d_thread d2).
Definition repeats_merged (d1 d2 : Draw) : Prop :=
  d_epoch d1 = d_epoch d2 → d_seed d1 = d_seed d2 → merged d1 d2.
Record Inv (c : Conc) : Prop := {
  inv_scope t s : s ∈ cursors c t → lane s ≠ 0%N →
    epoch s = test_seed_epoch (world c) ∧ lane s ∈ installed c;
  inv_base t : last (lane <$> cursors c t) = Some 0%N;
  inv_nodup t : NoDup (lane <$> cursors c t);
  inv_disjoint t1 t2 l : t1 ≠ t2 → l ≠ 0%N → l ∈ lane <$> cursors c t1 → l ∉ lane <$> cursors c t2;
  inv_epoch t s : s ∈ cursors c t → (epoch s ≤ test_seed_epoch (world c))%N;
  inv_bound t s t' o : s ∈ cursors c t → epoch s = test_seed_epoch (world c) → lane s ≠ 0%N ∨ t' = t →
    drawn c t' (test_seed_epoch (world c)) (lane s) o → (o < ctr s)%N;
  inv_stale t s o : s ∈ cursors c t → lane s = 0%N → epoch s ≠ test_seed_epoch (world c) →
    ¬ drawn c t (test_seed_epoch (world c)) 0 o;
  inv_owner t o : drawn c t (test_seed_epoch (world c)) 0 o → lane0_owner (world c) = this_thread_token hash t;
  inv_fresh t l o : l ≠ 0%N → drawn c t (test_seed_epoch (world c)) l o → l ∈ installed c;
  inv_log t e l o : drawn c t e l o → (e ≤ test_seed_epoch (world c))%N;
  inv_synced t : pc c t ≠ Idle → epoch (tls (world c) t) = test_seed_epoch (world c);
  inv_claimed t : pc c t = Claimed → lane (tls (world c) t) = 0%N →
    lane0_owner (world c) = this_thread_token hash t;
  inv_repeats : ForallOrdPairs repeats_merged (log c) }.

Lemma token_nonzero t : this_thread_token hash t ≠ 0%N.
Proof. intros H. apply (f_equal (λ v, N.testbit v 0)) in H. unfold this_thread_token in H. cbn beta in H.
  by rewrite N.lor_spec, orb_true_r in H. Qed.

Lemma inv_init env : Inv (init_conc env).
Proof.
  split; unfold drawn, cursors; cbn; try set_solver.
  - intros _. apply NoDup_singleton.
  - constructor.
Qed.

Lemma cursors_set t s w sv p lg ins t' :
  cursors (mkConc (set_tls t s w) sv p lg ins) t' =
    (if decide (t = t') then s else tls w t') :: sv t'.
Proof. reflexivity. Qed.
Lemma lanes_set t s w sv p lg ins p' lg' t' : lane s = lane (tls w t) →
  lane <$> cursors (mkConc (set_tls t s w) sv p' lg' ins) t' = lane <$> cursors (mkConc w sv p lg ins) t'.
Proof.
  intros Hs. rewrite cursors_set. unfold cursors. cbn [tls world saved]. rewrite !fmap_cons.
  destruct (decide (t = t')) as [->|]; congruence.
Qed.
(** A cursor of a thread whose own state was replaced: an old one, or the new one. *)
Lemma cursor_cases w sv p lg ins t s t' s' :
  s' ∈ cursors (mkConc (set_tls t s w) sv p lg ins) t' →
  s' ∈ cursors (mkConc w sv p lg ins) t' ∧ (t' ≠ t ∨ s' ∈ sv t) ∨ t = t' ∧ s' = s.
Proof.
  rewrite cursors_set. intros [->|Hs']%elem_of_cons.
  - destruct (decide (t = t')); [by right|left; split; [by left|by left]].
  - left. split; [by right|]. destruct (decide (t' = t)) as [->|]; [by right|by left].
Qed.
(** Bringing a thread's state to the current epoch keeps the invariant. *)
Lemma inv_refresh w sv p p' lg ins t s :
  Inv (mkConc w sv p lg ins) → lane s = lane (tls w t) → epoch s = test_seed_epoch w →
  (epoch (tls w t) = test_seed_epoch w → ctr s = ctr (tls w t)) →
  (∀ t', t' ≠ t → p' t' = p t') → p' t ≠ Claimed →
  Inv (mkConc (set_tls t s w) sv p' lg ins).
Proof.
  intros I Hl He Hc Hp Ht. destruct I; unfold drawn in *; cbn in *.
  assert (∀ t', tls w t' ∈ cursors (mkConc w sv p lg ins) t') as Hhead by (intros; by left).
  pose proof (cursor_cases w sv p lg ins t s) as Hcases.
  split; unfold drawn; cbn; try done.
  - intros t' s' [[Hs' _]|[<- ->]]%Hcases Hne; [by apply inv_scope0 with t'|].
    split; [done|]. rewrite Hl in *. by apply inv_scope0 with t.
  - intros t'. by rewrite (lanes_set _ _ _ _ p lg ins).
  - intros t'. by rewrite (lanes_set _ _ _ _ p lg ins).
  - intros t1 t2 l. rewrite !(lanes_set _ _ _ _ p lg ins) by done. apply inv_disjoint0.
  - intros t' s' [[Hs' _]|[<- ->]]%Hcases; [by apply inv_epoch0 with t'|lia].
  - intros t' s' t2 o [[Hs' _]|[<- ->]]%Hcases; [by apply inv_bound0|].
    intros _ Hor Hd. rewrite Hl in *. destruct (decide (epoch (tls w t) = test_seed_epoch w)) as [Heq|Hne].
    + rewrite Hc by done. by eapply inv_bound0.
    + exfalso. destruct (decide (lane (tls w t) = 0%N)) as [H0|H0].
      * destruct Hor as [Hn| ->]; [done|]. rewrite H0 in Hd. by apply (inv_stale0 t (tls w t) o).
      * apply Hne. by apply inv_scope0 with t.
  - intros t' s' o [[Hs' _]|[<- ->]]%Hcases; [exact (inv_stale0 t' s' o Hs')|done].
  - intros t' Hne. destruct (decide (t = t')) as [<-|Hd]; [by rewrite fn_lookup_insert|].
    rewrite fn_lookup_insert_ne by done. apply inv_synced0. by rewrite <- Hp.
  - intros t' Hcl. destruct (decide (t = t')) as [<-|Hd]; [done|].
    rewrite fn_lookup_insert_ne by done. apply inv_claimed0. by rewrite <- Hp.
Qed.
Lemma sync_facts w t : let s := sync_test_epoch (test_seed_epoch w) (tls w t) in
  lane s = lane (tls w t) ∧ epoch s = test_seed_epoch w ∧
  (epoch (tls w t) = test_seed_epoch w → ctr s = ctr (tls w t)).
Proof. unfold sync_test_epoch. by destruct (N.eqb_spec (epoch (tls w t)) (test_seed_epoch w)). Qed.

(** A claim of lane 0 leaves its thread's token in the owner, which held it
    already or held none; a thread with another token is stopped. *)
Lemma claim_ok w w' t : draw_claim hash t w = Ret w' →
  test_seed_epoch w' = test_seed_epoch w ∧ tls w' = tls w ∧
  (lane (tls w t) = 0%N → lane0_owner w' = this_thread_token hash t ∧
     (lane0_owner w = 0%N ∨ lane0_owner w = this_thread_token hash t)) ∧
  (lane (tls w t) ≠ 0%N → lane0_owner w' = lane0_owner w).
Proof.
  unfold draw_claim, compare_exchange. destruct (N.eqb_spec (lane (tls w t)) 0) as [H0|H0].
  - destruct (N.eqb_spec (lane0_owner w) 0) as [Ho|Ho]; cbn; [injection 1 as <-; cbn; naive_solver|].
    destruct (N.eqb_spec (lane0_owner w) (this_thread_token hash t)) as [->|]; [|done].
    injection 1 as <-. cbn. naive_solver.
  - by injection 1 as <-.
Qed.
Lemma claim_refused w t : lane (tls w t) = 0%N → lane0_owner w ≠ 0%N →
  lane0_owner w ≠ this_thread_token hash t →
  draw_claim hash t w = Fatal "test mode: a second thread drew lane-0 randomness; run spawned work under emp::test_lane_scope (see docs/test_mode.md)".
Proof.
  intros Hl Ho Ht. unfold draw_claim, compare_exchange. rewrite Hl. cbn.
  rewrite (proj2 (N.eqb_neq _ _) Ho). cbn. by rewrite (proj2 (N.eqb_neq _ _) Ht).
Qed.
Lemma inv_claim w w' sv p lg ins t : Inv (mkConc w sv p lg ins) → p t = Synced → draw_claim hash t w = Ret w' →
  Inv (mkConc w' sv (<[t := Claimed]> p) lg ins).
Proof.
  intros I Hp Hr. destruct (claim_ok _ _ _ Hr) as (He & Htls & H0 & H1).
  set (c := mkConc w sv p lg ins) in I. set (c' := mkConc w' sv _ lg ins).
  assert (∀ t', cursors c' t' = cursors c t') as Hcur by (intros t'; unfold cursors; cbn; by rewrite Htls).
  assert (∀ t', lane0_owner w = this_thread_token hash t' → lane0_owner w' = this_thread_token hash t') as Hown.
  { intros t' Ho. destruct (decide (lane (tls w t) = 0%N)) as [Hl|Hl]; [|by rewrite H1].
    destruct (H0 Hl) as [-> [Hz|Ht]]; [|congruence]. rewrite Hz in Ho. by destruct (token_nonzero t'). }
  destruct I; unfold drawn in *.
  split; unfold drawn; cbn; try setoid_rewrite Hcur; rewrite ?He, ?Htls; cbn in *; eauto.
  - intros t' Hne. apply inv_synced0. destruct (decide (t = t')) as [<-|]; [by rewrite Hp|].
    by rewrite fn_lookup_insert_ne in Hne.
  - intros t' Hcl Hl. destruct (decide (t = t')) as [<-|]; [by apply H0|].
    rewrite fn_lookup_insert_ne in Hcl by done. by apply Hown, inv_claimed0.
Qed.

Lemma inv_child w w' sv p lg ins t l : Inv (mkConc w sv p lg ins) → p t = Idle →
  next_test_child_lane t w = (l, w') → Inv (mkConc w' sv p lg ins).
Proof.
  intros I Hp. unfold next_test_child_lane. cbv zeta. intros Hn. apply (f_equal snd) in Hn. cbn [snd] in Hn. subst w'.
  destruct (sync_facts w t) as (Hl & He & Hc).
  apply (inv_refresh w sv p); try done. by rewrite Hp.
Qed.
(** Only one cursor draws from a scope's lane, and one of a thread from lane 0. *)
Lemma cursor_unique w sv p lg ins t t' s : Inv (mkConc w sv p lg ins) →
  lane (tls w t) ≠ 0%N ∨ t' = t →
  lane s = lane (tls w t) → t' ≠ t ∨ s ∈ sv t → s ∈ tls w t' :: sv t' → False.
Proof.
  intros I Ht Hl Hor Hs. destruct (decide (t' = t)) as [->|Hne].
  - destruct Hor as [|Hsv]; [done|]. pose proof (inv_nodup _ I t) as Hnd. unfold cursors in Hnd. cbn in Hnd.
    apply NoDup_cons in Hnd as [Hnd _]. apply Hnd. rewrite <- Hl. by apply list_elem_of_fmap_2.
  - destruct Ht as [Ht|]; [|done].
    eapply (inv_disjoint _ I t' t (lane s)); [done|congruence|by apply list_elem_of_fmap_2|].
    rewrite Hl. by left.
Qed.
(** A draw repeats no seed of its epoch but one of a thread with its token. *)
Lemma draw_fresh c t d : Inv c → pc c t = Claimed → d ∈ log c →
  repeats_merged (mkDraw t (epoch (tls (world c) t))
    (mkSeed (lane (tls (world c) t)) (ctr (tls (world c) t)))) d.
Proof.
  intros I Hp Hd. destruct d as [t' e [l o]]. unfold repeats_merged, merged. cbn. intros <- [= <- <-].
  assert (epoch (tls (world c) t) = test_seed_epoch (world c)) as He by (apply (inv_synced _ I); congruence).
  assert (tls (world c) t ∈ cursors c t) as Hs by by left.
  pose proof (inv_bound _ I t (tls (world c) t) t' (ctr (tls (world c) t)) Hs He) as Hb.
  unfold drawn in Hb. rewrite He in Hd. destruct (decide (lane (tls (world c) t) = 0%N)) as [H0|H0].
  - split; [done|]. split; [intros <-; pose proof (Hb (or_intror eq_refl) Hd); lia|].
    rewrite <- (inv_claimed _ I t Hp H0). rewrite H0 in Hd. by apply (inv_owner _ I) in Hd.
  - pose proof (Hb (or_introl H0) Hd). lia.
Qed.
Lemma inv_take w w' sv p lg ins t seed : Inv (mkConc w sv p lg ins) → p t = Claimed →
  draw_take t w = (seed, w') → (ctr (tls w t) + 1 < 2 ^ 64)%N →
  Inv (mkConc w' sv (<[t := Idle]> p) (mkDraw t (epoch (tls w t)) seed :: lg) ins).
Proof.
  intros I Hp. unfold draw_take. injection 1 as <- <-. intros Hc. rewrite u64_small by done.
  pose proof (λ d, draw_fresh _ t d I Hp) as Hfresh. cbn in Hfresh.
  set (s := tls w t) in *. pose proof (inv_claimed _ I t Hp) as Hcl0. cbn in Hcl0. fold s in Hcl0.
  assert (epoch s = test_seed_epoch w) as He by (apply (inv_synced _ I); cbn; congruence).
  pose proof (cursor_unique w sv p lg ins t) as Huniq.
  assert (s ∈ cursors (mkConc w sv p lg ins) t) as Hs by by left.
  set (s1 := mkTls (lane s) (ctr s + 1) (child_ctr s) (epoch s)).
  pose proof (cursor_cases w sv p lg ins t s1) as Hcases.
  assert (∀ t' s' t2, s' ∈ cursors (mkConc w sv p lg ins) t' → t' ≠ t ∨ s' ∈ sv t →
    lane s' ≠ 0%N ∨ t2 = t' → t2 = t → lane s' ≠ lane s) as Hother.
  { intros t' s' t2 Hs' Hor Hl0 -> Hl. apply (Huniq t' s' I); try done.
    destruct Hl0 as [Hl0|]; [left; unfold s in Hl; congruence|by right]. }
  destruct I; unfold drawn in *; cbn in *. split; unfold drawn; cbn.
  - intros t' s' [[Hs' _]|[<- ->]]%Hcases Hne; [by apply inv_scope0 with t'|]. by apply (inv_scope0 t s).
  - intros t'. by rewrite (lanes_set _ _ _ _ p lg ins).
  - intros t'. by rewrite (lanes_set _ _ _ _ p lg ins).
  - intros t1 t2 l. rewrite !(lanes_set _ _ _ _ p lg ins) by done. apply inv_disjoint0.
  - intros t' s' [[Hs' _]|[<- ->]]%Hcases; [by apply inv_epoch0 with t'|]. by apply (inv_epoch0 t s).
  - intros t' s' t2 o [[Hs' Hor]|[<- ->]]%Hcases He' Hl0 [Heq|Hd]%elem_of_cons.
    + injection Heq as -> _ Hl _. by destruct (Hother t' s' t Hs' Hor Hl0 eq_refl).
    + by apply (inv_bound0 t' s' t2).
    + injection Heq as _ _ ->. cbn. lia.
    + pose proof (inv_bound0 t s t2 o Hs He Hl0 Hd). cbn. lia.
  - intros t' s' o [[Hs' Hor]|[<- ->]]%Hcases Hl' He'; [|done].
    intros [Heq|Hd]%elem_of_cons; [|by apply (inv_stale0 t' s' o)]. injection Heq as -> _ Hl _.
    apply (Hother t s' t Hs' Hor (or_intror eq_refl) eq_refl). congruence.
  - intros t' o [Heq|Hd]%elem_of_cons; [|by apply (inv_owner0 t' o)]. injection Heq as -> _ Hl _. auto.
  - intros t' l o Hl [Heq|Hd]%elem_of_cons; [|by apply inv_fresh0 with t' o]. injection Heq as _ _ -> _.
    by apply (inv_scope0 t s).
  - intros t' e l o [Heq|Hd]%elem_of_cons; [|by eapply inv_log0]. injection Heq as _ -> _ _. rewrite He. lia.
  - intros t' Hne. destruct (decide (t = t')) as [<-|Hd]; [by rewrite fn_lookup_insert|].
    rewrite fn_lookup_insert_ne in Hne by done. rewrite fn_lookup_insert_ne by done. by apply inv_synced0.
  - intros t' Hcl. destruct (decide (t = t')) as [<-|Hd]; [by rewrite fn_lookup_insert in Hcl|].
    rewrite fn_lookup_insert_ne in Hcl by done. rewrite fn_lookup_insert_ne by done. by apply inv_claimed0.
  - constructor; [|done]. by apply Forall_forall.
Qed.

Lemma inv_enter w w' sv p lg ins t l s : Inv (mkConc w sv p lg ins) → p t = Idle → l ≠ 0%N → l ∉ ins →
  scope_enter t l w = (s, w') → Inv (mkConc w' (<[t := s :: sv t]> sv) p lg (l :: ins)).
Proof.
  intros I Hp Hl Hins. unfold scope_enter. injection 1 as <- <-.
  set (s1 := mkTls l 0 0 (test_seed_epoch w)).
  set (c' := mkConc _ _ _ _ _). set (c := mkConc w sv p lg ins) in *.
  assert (∀ t', cursors c' t' = if decide (t = t') then s1 :: cursors c t else cursors c t') as Hcur.
  { intros t'. unfold c'. rewrite cursors_set. destruct (decide (t = t')) as [<-|]; [by rewrite fn_lookup_insert|].
    by rewrite fn_lookup_insert_ne. }
  assert (∀ t' s', s' ∈ cursors c' t' → s' ∈ cursors c t' ∨ t = t' ∧ s' = s1) as Hcases.
  { intros t' s'. rewrite Hcur. destruct (decide (t = t')) as [<-|]; [|by left].
    intros [->|]%elem_of_cons; auto. }
  assert (∀ t', l ∉ lane <$> cursors c t') as Hfresh.
  { intros t' (s' & -> & Hs')%list_elem_of_fmap. apply Hins. by apply (inv_scope _ I t' s'). }
  assert (∀ t' o, ¬ drawn c t' (test_seed_epoch w) l o) as Hnone.
  { intros t' o Hd. apply Hins. by apply (inv_fresh _ I t' l o). }
  destruct I; unfold drawn in *; split; unfold drawn; cbn in *.
  - intros t' s' [Hs'|[<- ->]]%Hcases Hne; [|by split; [|left]].
    destruct (inv_scope0 t' s' Hs' Hne). split; [done|by right].
  - intros t'. rewrite Hcur. destruct (decide (t = t')); [|done]. rewrite fmap_cons, last_cons. by rewrite inv_base0.
  - intros t'. rewrite Hcur. destruct (decide (t = t')) as [<-|]; [|done]. rewrite fmap_cons. by apply NoDup_cons.
  - intros t1 t2 l' Hne Hl'. rewrite !Hcur.
    destruct (decide (t = t1)) as [<-|], (decide (t = t2)) as [<-|]; try done; rewrite ?fmap_cons.
    + intros [->|Hi]%elem_of_cons; [apply Hfresh|by apply (inv_disjoint0 t t2)].
    + intros Hi [->|Hi2]%elem_of_cons; [by destruct (Hfresh t1)|by apply (inv_disjoint0 t1 t l')].
    + by apply inv_disjoint0.
  - intros t' s' [Hs'|[<- ->]]%Hcases; [by apply inv_epoch0 with t'|cbn; lia].
  - intros t' s' t2 o [Hs'|[<- ->]]%Hcases He Hl0 Hd; [by apply (inv_bound0 t' s' t2)|]. by destruct (Hnone t2 o).
  - intros t' s' o [Hs'|[<- ->]]%Hcases; [by apply (inv_stale0 t' s')|done].
  - done.
  - intros t' l' o Hl' Hd. right. by apply inv_fresh0 with t' o.
  - done.
  - intros t' Hne. destruct (decide (t = t')) as [<-|Hd]; [by rewrite fn_lookup_insert|].
    rewrite fn_lookup_insert_ne by done. by apply inv_synced0.
  - intros t' Hcl. destruct (decide (t = t')) as [<-|Hd]; [congruence|].
    rewrite fn_lookup_insert_ne by done. by apply inv_claimed0.
  - done.
Qed.
Lemma inv_exit w sv p lg ins t s rest : Inv (mkConc w sv p lg ins) → p t = Idle → sv t = s :: rest →
  Inv (mkConc (scope_exit t s w) (<[t := rest]> sv) p lg ins).
Proof.
  intros I Hp Hsv. unfold scope_exit. set (c' := mkConc _ _ _ _ _). set (c := mkConc w sv p lg ins) in *.
  assert (∀ t', cursors c' t' = if decide (t = t') then tail (cursors c t) else cursors c t') as Hcur.
  { intros t'. unfold c', c. rewrite cursors_set. unfold cursors. cbn [world saved tail].
    destruct (decide (t = t')) as [<-|]; [by rewrite fn_lookup_insert, Hsv|by rewrite fn_lookup_insert_ne]. }
  assert (∀ t', cursors c' t' `suffix_of` cursors c t') as Hsuf.
  { intros t'. rewrite Hcur. destruct (decide (t = t')) as [<-|]; [|done]. by exists [tls w t]. }
  assert (∀ t' s', s' ∈ cursors c' t' → s' ∈ cursors c t') as Hsub.
  { intros t' s' Hs'. destruct (Hsuf t') as [k ->]. apply elem_of_app. by right. }
  destruct I; unfold drawn in *; split; unfold drawn; cbn in *; eauto.
  - intros t'. rewrite Hcur. destruct (decide (t = t')) as [<-|]; [|done].
    specialize (inv_base0 t). unfold cursors in *. cbn in *. by rewrite Hsv in *.
  - intros t'. specialize (inv_nodup0 t'). destruct (Hsuf t') as [k Hk]. rewrite Hk, fmap_app in inv_nodup0.
    by apply NoDup_app in inv_nodup0 as (_ & _ & ?).
  - intros t1 t2 l Hne Hl (s1 & -> & H1%Hsub)%list_elem_of_fmap (s2 & Heq & H2%Hsub)%list_elem_of_fmap.
    apply (inv_disjoint0 t1 t2 (lane s1)); try done; [by apply list_elem_of_fmap_2|].
    rewrite Heq. by apply list_elem_of_fmap_2.
  - intros t' Hne. destruct (decide (t = t')) as [<-|Hd]; [by destruct Hne|].
    rewrite fn_lookup_insert_ne by done. by apply inv_synced0.
  - intros t' Hcl. destruct (decide (t = t')) as [<-|Hd]; [congruence|].
    rewrite fn_lookup_insert_ne by done. by apply inv_claimed0.
Qed.
Lemma inv_reset w sv p lg ins : Inv (mkConc w sv p lg ins) → (∀ t, p t = Idle ∧ sv t = []) →
  (test_seed_epoch w + 1 < 2 ^ 64)%N → Inv (mkConc (reset_test_seed_counter w) sv p lg []).
Proof.
  intros I Hq He. unfold reset_test_seed_counter, reset_release, reset_bump. cbn. rewrite u64_small by done.
  set (c' := mkConc _ _ _ _ _). set (c := mkConc w sv p lg ins) in *.
  assert (∀ t, cursors c' t = cursors c t) as Hcur by done.
  assert (∀ t l o, ¬ drawn c t (test_seed_epoch w + 1) l o) as Hnone.
  { intros t l o Hd. pose proof (inv_log _ I _ _ _ _ Hd). cbn in *. lia. }
  assert (∀ t s, s ∈ cursors c t → lane s = 0%N) as Hlane.
  { intros t s Hs. pose proof (inv_base _ I t) as Hb. unfold cursors in *. cbn in *.
    rewrite (proj2 (Hq t)) in *. apply list_elem_of_singleton in Hs as ->. by injection Hb. }
  destruct I; unfold drawn in *; split; unfold drawn; cbn in *;
    try done; try setoid_rewrite Hcur; try done.
  - intros t s Hs Hne. by destruct Hne, (Hlane t s).
  - intros t s Hs. pose proof (inv_epoch0 t s Hs). lia.
  - intros t s t2 o _ _ _ Hd. by destruct (Hnone _ _ _ Hd).
  - intros t o Hd. by destruct (Hnone _ _ _ Hd).
  - intros t l o _ Hd. by destruct (Hnone _ _ _ Hd).
  - intros t e l o Hd. pose proof (inv_log0 _ _ _ _ Hd). lia.
  - intros t Hne. by destruct Hne, (Hq t).
  - intros t Hcl. destruct (Hq t). congruence.
Qed.
Lemma seeds_reachable_inv env c : reachable env c → Inv c.
Proof.
  unfold reachable. revert c. apply (rtc_ind_r (λ c, Inv c) (init_conc env)); [apply inv_init|].
  intros c1 c2 _ Hs I. destruct Hs.
  - destruct (sync_facts w t) as (? & ? & ?). apply (inv_refresh w sv p); try done.
    + intros t' Hne. by rewrite fn_lookup_insert_ne.
    + by rewrite fn_lookup_insert.
  - by eapply inv_claim.
  - by eapply inv_take.
  - by eapply inv_child.
  - by eapply inv_enter.
  - by eapply inv_exit.
  - by eapply inv_reset.
Qed.
End steps.

(** The pairs of draws of a log, by position. *)
Lemma repeats_lookup hash (lg : list Draw) : ForallOrdPairs (repeats_merged hash) lg →
  ∀ i j d1 d2, i ≠ j → lg !! i = Some d1 → lg !! j = Some d2 → repeats_merged hash d1 d2.
Proof.
  induction 1 as [|d l Hd _ IH]; intros [|i] [|j] d1 d2 Hne H1 H2; try done; simpl in *.
  - injection H1 as <-. rewrite Forall_forall in Hd. by apply Hd, list_elem_of_lookup_2 with j.
  - injection H2 as <-. rewrite Forall_forall in Hd.
    intros He Hs. assert (d1 ∈ l) as Hin by (by apply list_elem_of_lookup_2 with i).
    destruct (Hd d1 Hin) as (? & ? & ?); [done..|]. split; [congruence|]. split; [congruence|done].
  - by eapply IH; [|done..]; congruence.
Qed.
Lemma NoDup_fmap_lookup {A B} (f : A → B) (l : list A) :
  (∀ i j x y, i ≠ j → l !! i = Some x → l !! j = Some y → f x ≠ f y) → NoDup (f <$> l).
Proof.
  intros H. apply NoDup_alt. intros i j b Hi Hj. rewrite list_lookup_fmap in Hi, Hj.
  apply fmap_Some in Hi as (x & Hx & ->). apply fmap_Some in Hj as (y & Hy & Heq).
  destruct (decide (i = j)) as [|Hne]; [done|]. by destruct (H i j x y Hne Hx Hy).
Qed.
(** A draw of a thread whose lane is 0 and whose token is not the owner's. *)
Lemma draw_refused hash w t : lane (tls w t) = 0%N → lane0_owner w ≠ 0%N →
  lane0_owner w ≠ this_thread_token hash t →
  next_test_seed hash t w = Fatal "test mode: a second thread drew lane-0 randomness; run spawned work under emp::test_lane_scope (see docs/test_mode.md)".
Proof.
  intros Hl Ho Ht. unfold next_test_seed. rewrite claim_refused; [done| |done|done].
  unfold draw_sync. cbn. rewrite fn_lookup_insert. by destruct (sync_facts w t) as (-> & _).
Qed.

(** Lanes derived from one lane never collide, the reserved 0 apart. *)
Lemma child_lanes_distinct l i j : (i < 2 ^ 64)%N → (j < 2 ^ 64)%N →
  mix64 (N.lxor (mix64 l) i) = mix64 (N.lxor (mix64 l) j) → i = j.
Proof.
  intros Hi Hj H. apply mix64_inj in H; [|apply (lxor_lt _ _ 64); [apply mix64_lt|done]..].
  apply (f_equal (N.lxor (mix64 l))) in H. by rewrite <- !N.lxor_assoc, N.lxor_nilpotent, !N.lxor_0_l in H.
Qed.

(** A reset is two stores, the epoch first.  When a thread draws from lane 0
    between them, the owner it leaves is cleared by the second, and another thread
    draws the same seed: the fail-stop on a second lane-0 thread does not cover
    draws that race with a reset. *)
Lemma reset_race : let hash := λ t, (2 * N.of_nat t)%N in
  (r1 ← next_test_seed hash 0 (init_world true);
   r2 ← next_test_seed hash 0 (reset_bump r1.2);
   r3 ← next_test_seed hash 1 (reset_release r2.2);
   mret (r2.1, r3.1, current_test_seed_epoch r3.2)) = Ret (mkSeed 0 0, mkSeed 0 0, 1%N).
Proof. vm_compute. reflexivity. Qed.

(** ** Properties *)

(** A thread that takes the id of one that has ended has its token, and may draw
    the seeds of lane 0 again: the fail-stop does not see it. *)
Lemma token_reused : let hash := λ _ : nat, 6%N in
  (r1 ← next_test_seed hash 0 (init_world true);
   r2 ← next_test_seed hash 1 r1.2;
   mret (r1.1, r2.1)) = Ret (mkSeed 0 0, mkSeed 0 0).
Proof. vm_compute. reflexivity. Qed.

(** Two draws of the main thread around one of a worker in its own lane. *)
Lemma example_run : ∃ c, reachable (λ t, (2 * N.of_nat t)%N) true c ∧
  log c = [mkDraw 0 0 (mkSeed 0 1); mkDraw 1 0 (mkSeed 7 0); mkDraw 0 0 (mkSeed 0 0)].
Proof.
  eexists. split.
  - unfold reachable, init_conc.
    eapply rtc_l; [by apply (SSync _ _ _ _ _ _ 0)|].
    eapply rtc_l; [by eapply (SEnter _ _ _ _ _ _ _ 1 7); [..|by apply not_elem_of_nil|]|].
    eapply rtc_l; [by eapply (SClaim _ _ _ _ _ _ _ 0)|].
    eapply rtc_l; [by eapply (SSync _ _ _ _ _ _ 1)|].
    eapply rtc_l; [by eapply (STake _ _ _ _ _ _ _ 0)|].
    eapply rtc_l; [by eapply (SClaim _ _ _ _ _ _ _ 1)|].
    eapply rtc_l; [by eapply (STake _ _ _ _ _ _ _ 1)|].
    eapply rtc_l; [by eapply (SSync _ _ _ _ _ _ 0)|].
    eapply rtc_l; [by eapply (SClaim _ _ _ _ _ _ _ 0)|].
    eapply rtc_l; [by eapply (STake _ _ _ _ _ _ _ 0)|]. apply rtc_refl.
  - reflexivity.
Qed.
