(* ===== verification/Hash.v ===== *)
(** * Buffered hashing and the random oracle (runtime/crypto/hash.h, ro.h)

    [HashT] in front of a streaming hash (OpenSSL's SHA-256 or BLAKE3), which is a
    parameter: [StreamHash] states what the code relies on, that the digest after
    a sequence of updates is the hash of their concatenation.  [RO] frames typed
    fields into the message it hashes. *)

From S2P Require Import Prelude Bits Bytes Block.

(** ** The streaming hash *)
Class StreamHash (St : Type) := {
  hash_init : St;
  hash_update : St → list N → St;
  hash_final : St → list N;
  hash_fn : list N → list N }.
Class LawfulHash (St : Type) `{!StreamHash St} : Prop :=
  hash_chunks chunks : hash_final (foldl hash_update hash_init chunks) = hash_fn (mjoin chunks).

Module HashT.
Section hash.
Context {St : Type} `{!StreamHash St}.

Definition DIGEST_SIZE : nat := 32.
Definition BUF_BYTES : Z := 8192.
(** The first [buf_len_] bytes of [buf_]. *)
Record State := mkState { st_ : St; buf_ : list N }.
Definition new : State := mkState hash_init [].
Definition buf_len_ (h : State) : Z := Z.of_nat (length (buf_ h)).

Definition update_ (data : list N) (h : State) : State := mkState (hash_update (st_ h) data) (buf_ h).
Definition flush_buf_ (h : State) : State :=
  if negb (buf_len_ h =? 0)%Z then mkState (hash_update (st_ h) (buf_ h)) [] else h.
(** [data] points to at least [nbyte] bytes. *)
Definition put (data : list N) (nbyte : Z) (h : State) : outcome State :=
  expecting (0 <=? nbyte)%Z "Hash::put: negative byte count";;
  if (nbyte =? 0)%Z then mret h else
  let data := take (Z.to_nat nbyte) data in
  let h := if (BUF_BYTES - buf_len_ h <? nbyte)%Z then flush_buf_ h else h in
  mret (if (BUF_BYTES <=? nbyte)%Z then update_ data h else mkState (st_ h) (buf_ h ++ data)).
Definition put_block (blk : list block) (nblock : Z) (h : State) : outcome State :=
  expecting (0 <=? nblock)%Z "Hash::put_block: negative block count";;
  expecting (nblock <=? (2 ^ 63 - 1) / 16)%Z "Hash::put_block: byte count overflow";;
  put (blk ≫= le_bytes 16) (16 * nblock) h.
(** The digest and the state after: reset, or the running hash undisturbed. *)
Definition digest (reset_after : bool) (h : State) : list N * State :=
  let h := flush_buf_ h in
  (hash_final (st_ h), if reset_after then mkState hash_init (buf_ h) else h).
Definition reset (h : State) : State := mkState hash_init [].
Definition hash_once (data : list N) (nbyte : Z) : outcome (list N) :=
  expecting (0 <=? nbyte)%Z "Hash::hash_once: negative byte count";;
  mret (hash_final (hash_update hash_init (take (Z.to_nat nbyte) data))).
Definition hash_for_block (data : list N) (nbyte : Z) : outcome block :=
  d ← hash_once data nbyte; mret (le_value (take 16 d)).

(** *** What a hash has absorbed *)
Definition absorbed (h : State) (m : list N) : Prop :=
  (∃ chunks, st_ h = foldl hash_update hash_init chunks ∧ m = mjoin chunks ++ buf_ h) ∧
  (buf_len_ h ≤ BUF_BYTES)%Z.

Lemma absorbed_new : absorbed new [].
Proof. split; [by exists []|done]. Qed.
Lemma flush_absorbed h m : absorbed h m → absorbed (flush_buf_ h) m ∧ buf_ (flush_buf_ h) = [].
Proof.
  intros [(chunks & Hs & ->) Hb]. unfold flush_buf_, buf_len_ in *.
  destruct (Z.eqb_spec (Z.of_nat (length (buf_ h))) 0) as [H0|H0]; cbn [negb].
  - assert (buf_ h = []) as Hnil by (destruct (buf_ h); [done|simpl in H0; lia]).
    split; [|done]. split; [|done]. by exists chunks.
  - split; [|done]. split; [|done]. exists (chunks ++ [buf_ h]).
    rewrite foldl_app, join_app, Hs. cbn. by rewrite !app_nil_r.
Qed.
Lemma put_absorbed data (n : nat) h m : absorbed h m → (n ≤ length data)%nat →
  ∃ h', put data (Z.of_nat n) h = Ret h' ∧ absorbed h' (m ++ take n data).
Proof.
  intros Hh Hn. unfold put. rewrite (proj2 (Z.leb_le 0 _)) by lia. cbn [expecting mbind outcome_bind].
  destruct (Z.eqb_spec (Z.of_nat n) 0) as [H0|H0].
  { replace n with 0%nat by lia. exists h. by rewrite take_0, app_nil_r. }
  rewrite Nat2Z.id. eexists. split; [reflexivity|].
  assert (length (take n data) = n) as Hl by (rewrite length_take; lia).
  set (h1 := if (BUF_BYTES - buf_len_ h <? Z.of_nat n)%Z then flush_buf_ h else h).
  assert (absorbed h1 m ∧ (Z.of_nat n ≤ BUF_BYTES - buf_len_ h1 ∨ buf_ h1 = [])%Z) as [Ha Hroom].
  { unfold h1. destruct (Z.ltb_spec (BUF_BYTES - buf_len_ h) (Z.of_nat n)); [|auto].
    destruct (flush_absorbed h m Hh). auto. }
  destruct h1 as [s b]. clear Hh h. destruct Ha as [(chunks & Hs & ->) Hb]. cbn in Hs. subst s. unfold buf_len_ in *. cbn [buf_ st_] in *.
  unfold BUF_BYTES in *. destruct (Z.leb_spec 8192 (Z.of_nat n)) as [Hbig|Hsm].
  - assert (b = []) as -> by (destruct Hroom as [?| ->]; [destruct b; [done|simpl in *; lia]|done]).
    split; [|done]. exists (chunks ++ [take n data]). unfold update_. cbn [st_ buf_].
    rewrite foldl_app, join_app. cbn. by rewrite !app_nil_r.
  - split; [exists chunks; cbn [st_ buf_]; by rewrite app_assoc|].
    unfold buf_len_, BUF_BYTES. cbn [buf_]. rewrite length_app, Hl. destruct Hroom as [?| ->]; simpl; lia.
Qed.
Lemma length_blocks (bs : list block) : length (bs ≫= le_bytes 16) = (16 * length bs)%nat.
Proof.
  induction bs as [|b bs IH]; [done|]. cbn [mbind list_bind]. rewrite length_app, IH, length_le_bytes. simpl. lia.
Qed.
Lemma take_blocks (bs : list block) n : take (16 * n) (bs ≫= le_bytes 16) = take n bs ≫= le_bytes 16.
Proof.
  revert n. induction bs as [|b bs IH]; intros [|n]; [done|cbn [mbind list_bind take]; by rewrite take_nil|done|].
  cbn [mbind list_bind take]. replace (16 * S n)%nat with (length (le_bytes 16 b) + 16 * n)%nat by (rewrite length_le_bytes; lia).
  rewrite take_app_add. by f_equal.
Qed.
Lemma digest_absorbed `{!LawfulHash St} reset_after h m : absorbed h m →
  (digest reset_after h).1 = hash_fn m ∧
  absorbed (digest reset_after h).2 (if reset_after then [] else m).
Proof.
  intros Hh. destruct (flush_absorbed h m Hh) as [[(chunks & Hs & Hm) Hb] Hnil]. unfold digest. cbn [fst snd].
  rewrite Hnil, app_nil_r in Hm. split; [by rewrite Hs, hash_chunks, Hm|]. rewrite Hnil.
  destruct reset_after; [by split; [exists []|]|]. split; [|done]. exists chunks. by rewrite Hnil, app_nil_r.
Qed.
Lemma hash_once_ok `{!LawfulHash St} data (n : nat) : hash_once data (Z.of_nat n) = Ret (hash_fn (take n data)).
Proof.
  unfold hash_once. rewrite (proj2 (Z.leb_le 0 _)) by lia. cbn [expecting mbind outcome_bind mret outcome_ret].
  rewrite Nat2Z.id. f_equal. pose proof (hash_chunks [take n data]) as H. cbn in H. by rewrite H, app_nil_r.
Qed.

(** *** Sequences of operations, against a hash of the whole message *)
Inductive Op := OPut (data : list N) | OPutBlock (blks : list block) | ODigest (reset_after : bool) | OReset.
Definition run_op (h : State) (o : Op) : outcome (list (list N) * State) :=
  match o with
  | OPut data => h ← put data (Z.of_nat (length data)) h; mret ([], h)
  | OPutBlock blks => h ← put_block blks (Z.of_nat (length blks)) h; mret ([], h)
  | ODigest r => let '(d, h) := digest r h in mret ([d], h)
  | OReset => mret ([], reset h)
  end.
Definition run_ops (h : State) (os : list Op) : outcome (list (list N) * State) :=
  foldO (λ '(out, h) o, '(out', h) ← run_op h o; mret (out ++ out', h)) ([], h) os.
Definition spec_op (m : list N) (o : Op) : list (list N) * list N :=
  match o with
  | OPut data => ([], m ++ data)
  | OPutBlock blks => ([], m ++ (blks ≫= le_bytes 16))
  | ODigest r => ([hash_fn m], if r then [] else m)
  | OReset => ([], [])
  end.
Definition spec_ops (m : list N) (os : list Op) : list (list N) * list N :=
  foldl (λ '(out, m) o, let '(out', m) := spec_op m o in (out ++ out', m)) ([], m) os.
Definition op_ok (o : Op) : Prop :=
  match o with OPutBlock blks => (Z.of_nat (length blks) ≤ (2 ^ 63 - 1) / 16)%Z | _ => True end.

Lemma run_op_ok `{!LawfulHash St} h m o : absorbed h m → op_ok o →
  ∃ h', run_op h o = Ret ((spec_op m o).1, h') ∧ absorbed h' (spec_op m o).2.
Proof.
  intros Hh Ho. destruct o as [data|blks|r|]; cbn [run_op spec_op fst snd].
  - destruct (put_absorbed data (length data) h m Hh) as (h' & -> & Ha); [done|].
    rewrite take_ge in Ha by done. by exists h'.
  - unfold put_block. rewrite !(proj2 (Z.leb_le _ _)) by (done || lia). cbn [expecting mbind outcome_bind].
    replace (16 * Z.of_nat (length blks))%Z with (Z.of_nat (16 * length blks)) by lia.
    destruct (put_absorbed (blks ≫= le_bytes 16) (16 * length blks) h m Hh) as (h' & Hp & Ha);
      [by rewrite length_blocks|]. rewrite Hp. rewrite take_ge in Ha by (by rewrite length_blocks). by exists h'.
  - destruct (digest r h) as [d h'] eqn:Hd. destruct (digest_absorbed r h m Hh) as [H1 H2].
    rewrite Hd in H1, H2. cbn [fst snd] in *. subst d. by exists h'.
  - exists (reset h). split; [done|]. apply absorbed_new.
Qed.
End hash.
End HashT.

(** ** Random oracle *)
Module RO.
(** The type ids of the absorb overloads. *)
Definition kStr : N := 1.
Definition kBytes : N := 2.
Definition kBlock : N := 3.
Definition kU64 : N := 4.
Definition kPoint : N := 5.
(** What an absorb call is given; a point comes as the bytes [to_bin] gives for it. *)
Inductive Field := FStr (s : list N) | FBytes (p : list N) | FBlock (b : block) | FU64 (v : N) | FPoint (p : list N).
Record State := mkState { buf_ : list N; domain_ : list N }.

Definition frame (type : N) (p : list N) (ro : State) : outcome State :=
  expecting (N.of_nat (length p) <=? 0xFFFFFFFF)%N "RO::absorb: field length exceeds 2^32-1";;
  mret (mkState (buf_ ro ++ le_bytes 4 type ++ le_bytes 4 (N.of_nat (length p)) ++ p) (domain_ ro)).
Definition field_type (f : Field) : N :=
  match f with FStr _ => kStr | FBytes _ => kBytes | FBlock _ => kBlock | FU64 _ => kU64 | FPoint _ => kPoint end.
Definition field_bytes (f : Field) : list N :=
  match f with FStr s => s | FBytes p => p | FBlock b => le_bytes 16 b | FU64 v => le_bytes 8 v | FPoint p => p end.
Definition absorb (f : Field) (ro : State) : outcome State := frame (field_type f) (field_bytes f) ro.
Definition new (domain : list N) (sid : block) : outcome State :=
  ro ← frame kStr domain (mkState [] domain); frame kBlock (le_bytes 16 sid) ro.
Definition absorb_all (fs : list Field) (ro : State) : outcome State := foldO (λ ro f, absorb f ro) ro fs.
Section squeeze.
Context {St : Type} `{!StreamHash St}.
Definition squeeze_digest (ro : State) : outcome (list N) := HashT.hash_once (buf_ ro) (Z.of_nat (length (buf_ ro))).
Definition squeeze_block (ro : State) : outcome block := HashT.hash_for_block (buf_ ro) (Z.of_nat (length (buf_ ro))).
End squeeze.

(** *** Reading a message back *)
Definition field_ok (f : Field) : Prop :=
  (N.of_nat (length (field_bytes f)) < 2 ^ 32)%N ∧
  match f with FBlock b => block_ok b | FU64 v => (v < 2 ^ 64)%N | _ => True end.
Definition encode (f : Field) : list N :=
  le_bytes 4 (field_type f) ++ le_bytes 4 (N.of_nat (length (field_bytes f))) ++ field_bytes f.
Lemma le_bytes_inj n a b : (a < 256 ^ N.of_nat n)%N → (b < 256 ^ N.of_nat n)%N → le_bytes n a = le_bytes n b → a = b.
Proof.
  intros Ha Hb H. apply (f_equal le_value) in H. rewrite !le_value_bytes in H. by rewrite !N.mod_small in H.
Qed.
(** A frame is a prefix code: the fields and what follows are determined. *)
Lemma encode_inj f g r s : field_ok f → field_ok g → encode f ++ r = encode g ++ s → f = g ∧ r = s.
Proof.
  intros [Hlf Hf] [Hlg Hg] H. unfold encode in H. rewrite <- !app_assoc in H.
  apply app_inj_1 in H as [Ht H]; [|by rewrite !length_le_bytes].
  apply app_inj_1 in H as [Hl H]; [|by rewrite !length_le_bytes].
  apply le_bytes_inj in Hl; [|done..]. apply Nat2N.inj in Hl. apply app_inj_1 in H as [Hb ->]; [|done].
  split; [|done].
  apply le_bytes_inj in Ht; [|by destruct f|by destruct g].
  destruct f, g; try done; cbn [field_bytes] in Hb; try congruence.
  - f_equal. by apply (le_bytes_inj 16).
  - f_equal. by apply (le_bytes_inj 8).
Qed.
Lemma encode_all_inj fs gs : Forall field_ok fs → Forall field_ok gs →
  flatten (encode <$> fs) = flatten (encode <$> gs) → fs = gs.
Proof.
  intros Hf. revert gs. induction Hf as [|f fs Hf _ IH]; intros [|g gs]; intros Hg H; rewrite ?fmap_cons, ?flatten_cons in H.
  - done.
  - by apply (f_equal length) in H.
  - by apply (f_equal length) in H.
  - apply Forall_cons in Hg as [Hg Hgs]. destruct (encode_inj f g _ _ Hf Hg H) as [-> Hr]. f_equal. by apply IH.
Qed.
Lemma frame_ok type p ro : (N.of_nat (length p) < 2 ^ 32)%N →
  frame type p ro = Ret (mkState (buf_ ro ++ le_bytes 4 type ++ le_bytes 4 (N.of_nat (length p)) ++ p) (domain_ ro)).
Proof. intros Hp. unfold frame. by rewrite (proj2 (N.leb_le _ _)) by (change 0xFFFFFFFF%N with (2 ^ 32 - 1)%N; lia). Qed.
Lemma absorb_all_ok fs ro : Forall field_ok fs →
  absorb_all fs ro = Ret (mkState (buf_ ro ++ flatten (encode <$> fs)) (domain_ ro)).
Proof.
  intros Hf. revert ro. induction Hf as [|f fs [Hf _] _ IH]; intros ro; [destruct ro; cbn; by rewrite app_nil_r|].
  unfold absorb_all in *. cbn [foldO]. change (absorb f ro) with (frame (field_type f) (field_bytes f) ro). rewrite frame_ok by done. cbn [mbind outcome_bind].
  rewrite IH. cbn [buf_ domain_]. by rewrite fmap_cons, flatten_cons, <- app_assoc.
Qed.
Definition message (domain : list N) (sid : block) (fs : list Field) : list N :=
  flatten (encode <$> (FStr domain :: FBlock sid :: fs)).
Lemma new_absorb_ok domain sid fs : (N.of_nat (length domain) < 2 ^ 32)%N → Forall field_ok fs →
  (ro ← new domain sid; absorb_all fs ro) = Ret (mkState (message domain sid fs) domain).
Proof.
  intros Hd Hf. unfold new. rewrite frame_ok by done. cbn [mbind outcome_bind].
  rewrite frame_ok by (by rewrite length_le_bytes). cbn [mbind outcome_bind]. rewrite absorb_all_ok by done.
  cbn [buf_ domain_ app]. unfold message. rewrite !fmap_cons, !flatten_cons. unfold encode at 2 3. cbn [field_type field_bytes].
  by rewrite <- !app_assoc.
Qed.
End RO.

(** ** Properties *)

(** C24: The buffered hash.  Any sequence of puts, block puts, digests (resetting or
    not) and resets gives the digests of the reference that keeps the whole message
    and hashes it: buffering, the direct path for large inputs and the flush before
    a digest never change, drop or reorder a byte; the buffer never exceeds its
    size.  The one-shot hash is the hash of the bytes it is given. *)
Theorem hash_refines {St} `{!StreamHash St} `{!LawfulHash St} (os : list HashT.Op) :
  Forall HashT.op_ok os →
  ∃ h, HashT.run_ops HashT.new os = Ret ((HashT.spec_ops [] os).1, h) ∧
    HashT.absorbed h (HashT.spec_ops [] os).2 ∧
    (∀ data n, (n ≤ length data)%nat → HashT.hash_once data (Z.of_nat n) = Ret (hash_fn (take n data))).
Proof.
  intros Ho. unfold HashT.run_ops, HashT.spec_ops.
  set (step := λ '(out, m) o, let '(out', m) := HashT.spec_op m o in (out ++ out', m)).
  destruct (foldO_inv (λ '(out, h) o, '(out', h) ← HashT.run_op h o; mret (out ++ out', h)) os
    (λ don '(out, h), out = (foldl step ([], []) don).1 ∧ HashT.absorbed h (foldl step ([], []) don).2)
    ([], HashT.new)) as ([out h] & Hr & Hout & Ha).
  - split; [done|apply HashT.absorbed_new].
  - intros don o todo [out h] -> [Hout Ha]. rewrite foldl_app. cbn [foldl].
    destruct (foldl step ([], []) don) as [out0 m] eqn:Hm. cbn [fst snd] in *. subst out0.
    apply Forall_app in Ho as [_ [Ho _]%Forall_cons].
    destruct (HashT.run_op_ok h m o Ha Ho) as (h' & -> & Ha'). cbn [mbind outcome_bind].
    eexists (_, h'). split; [reflexivity|]. unfold step. by destruct (HashT.spec_op m o).
  - exists h. rewrite Hr. split; [by rewrite Hout|]. split; [done|]. intros data n _. by apply HashT.hash_once_ok.
Qed.

(** A streaming hash for the examples: it keeps the bytes, and its digest is their
    number, little-endian, followed by the last block of them. *)
Module ToyHash.
#[global] Instance toy : StreamHash (list N) := {|
  hash_init := []; hash_update s d := s ++ d;
  hash_final s := le_bytes 32 (le_value s); hash_fn m := le_bytes 32 (le_value m) |}.
#[global] Instance toy_lawful : LawfulHash (list N).
Proof.
  intros chunks. apply (f_equal (λ s, le_bytes 32 (le_value s))). change (mjoin chunks) with ([] ++ mjoin chunks). change hash_init with (@nil N). generalize (@nil N).
  induction chunks as [|c chunks IH]; intros s; cbn; [by rewrite app_nil_r|]. rewrite IH. by rewrite <- app_assoc.
Qed.
End ToyHash.
Lemma hash_refines_witness :
  let os := [HashT.OPut [1; 2; 3]%N; HashT.ODigest false; HashT.OPut (replicate (90 * 100) 7%N);
             HashT.OPutBlock [5; 6]%N; HashT.ODigest true; HashT.ODigest true] in
  Forall HashT.op_ok os ∧
  ∃ h, HashT.run_ops (St := list N) HashT.new os = Ret ((HashT.spec_ops [] os).1, h).
Proof.
  intros os. assert (Forall HashT.op_ok os) as Ho by (repeat constructor; done). split; [exact Ho|].
  destruct (hash_refines (St := list N) os Ho) as (h & H & _). exists h. exact H.
Defined.

(** C25: The random oracle's message.  Constructing an oracle and absorbing fields
    gives the concatenation of their typed, length-framed encodings, and different
    domains, session ids or field sequences give different messages: no field's
    content can stand for a frame boundary or for a field of another type.  The
    squeezes hash exactly that message, and a field of 2^32 bytes or more ends the
    process. *)
Theorem ro_message_injective {St} `{!StreamHash St} `{!LawfulHash St} (domain domain' : list N) (sid sid' : block)
    (fs fs' : list RO.Field) :
  RO.field_ok (RO.FStr domain) → RO.field_ok (RO.FStr domain') → block_ok sid → block_ok sid' →
  Forall RO.field_ok fs → Forall RO.field_ok fs' →
  ∃ ro ro', (ro ← RO.new domain sid; RO.absorb_all fs ro) = Ret ro ∧
    (ro ← RO.new domain' sid'; RO.absorb_all fs' ro) = Ret ro' ∧
    (RO.buf_ ro = RO.buf_ ro' → domain = domain' ∧ sid = sid' ∧ fs = fs') ∧
    RO.squeeze_digest ro = Ret (hash_fn (RO.message domain sid fs)) ∧
    RO.squeeze_block ro = Ret (le_value (take 16 (hash_fn (RO.message domain sid fs)))) ∧
    (∀ p, (2 ^ 32 ≤ N.of_nat (length p))%N →
       RO.absorb (RO.FBytes p) ro = Fatal "RO::absorb: field length exceeds 2^32-1").
Proof.
  intros Hd Hd' Hs Hs' Hf Hf'.
  exists (RO.mkState (RO.message domain sid fs) domain), (RO.mkState (RO.message domain' sid' fs') domain').
  split; [by apply RO.new_absorb_ok; [apply Hd|]|]. split; [by apply RO.new_absorb_ok; [apply Hd'|]|]. cbn [RO.buf_].
  split; [|split; [|split]].
  - intros H. apply RO.encode_all_inj in H; [by injection H|constructor; [done|constructor; [by split|done]]..].
  - unfold RO.squeeze_digest. cbn [RO.buf_]. by rewrite HashT.hash_once_ok, take_ge.
  - unfold RO.squeeze_block, HashT.hash_for_block. cbn [RO.buf_]. by rewrite HashT.hash_once_ok, take_ge.
  - intros p Hp. unfold RO.absorb, RO.frame. cbn [RO.field_bytes]. rewrite (proj2 (N.leb_gt _ _)); [done|].
    change 0xFFFFFFFF%N with (2 ^ 32 - 1)%N. lia.
Qed.
(** A block and its 16 bytes are different fields. *)
Lemma ro_message_injective_witness :
  ∃ ro ro', (ro ← RO.new [97; 98]%N 5; RO.absorb_all [RO.FBlock 7] ro) = Ret ro ∧
    (ro ← RO.new [97; 98]%N 5; RO.absorb_all [RO.FBytes (le_bytes 16 7)] ro) = Ret ro' ∧ RO.buf_ ro ≠ RO.buf_ ro'.
Proof.
  destruct (ro_message_injective (St := list N) [97; 98]%N [97; 98]%N 5 5 [RO.FBlock 7] [RO.FBytes (le_bytes 16 7)])
    as (ro & ro' & H1 & H2 & H & _);
    [by split|by split|done|done|by repeat constructor|by repeat constructor|].
  exists ro, ro'. split; [exact H1|]. split; [exact H2|]. intros Hb. by destruct (H Hb) as (_ & _ & Hf).
Defined.
