(* ===== verification/Prg.v ===== *)
(** * Pseudorandom generator (runtime/crypto/prg.h)

    The generator's state machine over the counter stream of [AesNi]: block, byte,
    unaligned-byte, bool and word draws, seeking and forking, and construction
    from a seed, the test-mode seeds of [TestMode] or kernel entropy.  A draw
    returns what it writes to the caller's buffer; a pointer is represented by its
    distance from 16-byte alignment where the code looks at it. *)

From S2P Require Import Prelude Bits Bytes Kernel Block AesSpec Crh AesNi TestMode.

Section prg.
Context (vaes256 vaes512 aarch64 : bool).

(** ** State *)
Record PRG := mkPRG { key : block; aes : AES_KEY; counter : N; buffer : list N; ptr : nat }.
Definition seed (p : PRG) : block := key p.
Definition position (p : PRG) : N := counter p.
Definition set_counter (c : N) (p : PRG) : PRG := mkPRG (key p) (aes p) c (buffer p) (ptr p).

(** ** Seeding *)
Definition reseed (s : block) (id : N) (p : PRG) : PRG :=
  let v := N.lxor s (makeBlock 0 id) in
  mkPRG v (AES_set_encrypt_key v (aes p)) 0 (buffer p) (ptr p).
Definition seek (block_counter : N) (p : PRG) : PRG :=
  mkPRG (key p) (aes p) block_counter (buffer p) 32.
Definition fork_at (block_counter : N) (p : PRG) : PRG := seek block_counter p.
(** A fresh object: the arrays hold whatever the memory held. *)
Definition new_PRG (mem_aes : AES_KEY) (mem_buffer : list N) : PRG := mkPRG 0 mem_aes 0 mem_buffer 32.
Section construct.
(** The thread's id hash, and what [getentropy] returns: 0 on success, and the block. *)
Context (hash : nat → N) (getentropy : Z * block).
Definition from_urand : outcome block :=
  expecting (getentropy.1 =? 0)%Z "PRG: system entropy unavailable";; mret getentropy.2.
(** [PRG(seed, id)] by thread [t]; [id] is an [int] converted to 64 bits. *)
Definition construct (t : nat) (sd : option block) (id : Z) (mem : PRG) (w : World) : outcome (PRG * World) :=
  let id := Z.to_N (id mod 2 ^ 64) in
  match sd with
  | Some v => mret (reseed v id mem, w)
  | None =>
      '(v, w) ← (if is_test_mode w
                 then '(ts, w) ← next_test_seed hash t w; mret (makeBlock (seed_lane ts) (ordinal ts), w)
                 else v ← from_urand; mret (v, w));
      mret (reseed v id mem, w)
  end.
End construct.

(** ** Draws *)
(** The batches of [random_block]; each is at least one block. *)
Fixpoint random_block_loop (fuel : nat) (nblocks : nat) (p : PRG) : list block * PRG :=
  match fuel with
  | O => ([], p)
  | S fuel =>
      if (0 <? nblocks)%nat then
        let n := if (nblocks <? AES_BATCH_SIZE)%nat then nblocks else AES_BATCH_SIZE in
        let data := ParaCtrEnc vaes256 vaes512 aarch64 (counter p) (aes p) n in
        let '(rest, p) := random_block_loop fuel (nblocks - n) (set_counter (u64 (counter p + N.of_nat n)) p) in
        (data ++ rest, p)
      else ([], p)
  end.
Definition random_block (nblocks : Z) (aligned : bool) (p : PRG) : outcome (list block * PRG) :=
  expecting (0 <=? nblocks)%Z "PRG::random_block: negative block count";;
  if (nblocks =? 0)%Z then mret ([], p) else
  expecting aligned "PRG::random_block: data must be 16-byte aligned";;
  mret (random_block_loop (Z.to_nat nblocks) (Z.to_nat nblocks) p).

Definition block_bytes (bs : list block) : list N := bs ≫= le_bytes 16.
Definition random_data (nbytes : Z) (aligned : bool) (p : PRG) : outcome (list N * PRG) :=
  expecting (0 <=? nbytes)%Z "PRG::random_data: negative byte count";;
  if (nbytes =? 0)%Z then mret ([], p) else
  expecting aligned
    "PRG::random_data: data must be 16-byte aligned; use random_data_unaligned";;
  '(bs, p) ← random_block (nbytes / 16) true p;
  if negb (nbytes mod 16 =? 0)%Z then
    '(extra, p) ← random_block 1 true p;
    mret (block_bytes bs ++ take (Z.to_nat (nbytes mod 16)) (block_bytes extra), p)
  else mret (block_bytes bs, p).

(** The tail of the unaligned fill: each pass writes at [end - remaining_bytes]. *)
Fixpoint tail_loop (fuel : nat) (nbytes remaining_bytes : nat) (data : list N) (p : PRG) : outcome (list N * PRG) :=
  match fuel with
  | O => mret (data, p)
  | S fuel =>
      if (0 <? remaining_bytes)%nat then
        '(tmp, p) ← random_block 1 true p;
        let bytes_to_copy := (remaining_bytes `min` 16)%nat in
        tail_loop fuel nbytes (remaining_bytes - bytes_to_copy)
          (store data (nbytes - remaining_bytes) (take bytes_to_copy (block_bytes tmp))) p
      else mret (data, p)
  end.
(** [skew] is the address of [data] modulo 16; [data] what the buffer holds before. *)
Definition random_data_unaligned (skew : nat) (data : list N) (nbytes : Z) (p : PRG) : outcome (list N * PRG) :=
  expecting (0 <=? nbytes)%Z "PRG::random_data_unaligned: negative byte count";;
  if (nbytes =? 0)%Z then mret (data, p) else
  if (nbytes <=? 32)%Z then
    '(tmp, p) ← random_block ((nbytes + 16 - 1) / 16) true p;
    mret (store data 0 (take (Z.to_nat nbytes) (block_bytes tmp)), p)
  else
    let n := Z.to_nat nbytes in
    let pad := ((16 - skew) mod 16)%nat in            (* std::align *)
    let size := (16 * ((n - pad) / 16))%nat in
    let chopped := (n - size)%nat in
    '(bulk, p) ← random_data (Z.of_nat (n - chopped)) true p;
    let data := store data pad bulk in
    let data := store data 0 (take (n - chopped) (drop pad data)) in   (* memmove *)
    tail_loop chopped n chopped data p.

(** One pass of [random_bool_impl_], then the passes. *)
Definition CHUNK_B : nat := 16.
Definition bool_pass (bits_pass : nat) (bytes : list N) : list N :=
  let full32 := (bits_pass / 32)%nat in
  let tail_bits := (bits_pass - full32 * 32)%nat in
  flatten ((λ i, bits32_to_bytes (le_value (take 4 (drop (i * 4) bytes)))) <$> seq 0 full32) ++
  (let b32 := le_value (take ((tail_bits + 7) / 8) (drop (full32 * 4) bytes)) in
   (λ i, N.land (N.shiftr b32 (N.of_nat i)) 1) <$> seq 0 tail_bits).
Fixpoint bool_loop (fuel : nat) (remaining : nat) (p : PRG) : outcome (list N * PRG) :=
  match fuel with
  | O => mret ([], p)
  | S fuel =>
      if (0 <? remaining)%nat then
        let bits_pass := if (remaining <? CHUNK_B * 128)%nat then remaining else (CHUNK_B * 128)%nat in
        let blocks_pass := ((bits_pass + 127) / 128)%nat in
        '(buf, p) ← random_block (Z.of_nat blocks_pass) true p;
        '(rest, p) ← bool_loop fuel (remaining - bits_pass) p;
        mret (bool_pass bits_pass (block_bytes buf) ++ rest, p)
      else mret ([], p)
  end.
Definition random_bool (length : Z) (p : PRG) : outcome (list N * PRG) :=
  expecting (0 <=? length)%Z "PRG::random_bool: negative bit count";;
  if (length =? 0)%Z then mret ([], p) else bool_loop (Z.to_nat length) (Z.to_nat length) p.

(** [operator()]: words from the buffer, 16 blocks at a time. *)
Definition block_words (bs : list block) : list N := bs ≫= λ b, [lane0 b; lane1 b].
Definition next_word (p : PRG) : outcome (N * PRG) :=
  p ← (if (ptr p =? 32)%nat
       then '(bs, p) ← random_block 16 true p;
            mret (mkPRG (key p) (aes p) (counter p) (block_words bs) 0)
       else mret p);
  w ← (match buffer p !! ptr p with Some w => mret w | None => Undef end);
  mret (w, mkPRG (key p) (aes p) (counter p) (buffer p) (S (ptr p))).
Fixpoint next_words (n : nat) (p : PRG) : outcome (list N * PRG) :=
  match n with
  | O => mret ([], p)
  | S n => '(w, p) ← next_word p; '(ws, p) ← next_words n p; mret (w :: ws, p)
  end.

#[local] Opaque aes_block Fips197.encrypt.

(** ** The stream a generator stands for

    AES-CTR under the key, block [i] the encryption of the little-endian counter
    [c + i]. *)
Definition spec_block (k : block) (c : N) (i : nat) : list N :=
  Fips197.encrypt (le_bytes 8 (u64 (c + N.of_nat i)) ++ replicate 8 0%N) (le_bytes 16 k).
Definition spec_stream (k : block) (c : N) (n : nat) : list N := flatten (spec_block k c <$> seq 0 n).
Record Wf (p : PRG) : Prop := {
  wf_counter : (counter p < 2 ^ 64)%N;
  wf_key : sched_upto (le_bytes 16 (key p)) 10 (aes p) }.
Definition advance (k : nat) (p : PRG) : PRG := set_counter (u64 (counter p + N.of_nat k)) p.
Abbreviation blocks_of p n := (ctr_stream (aes p) (counter p) n).

Lemma length_aes_block kk x : length (le_bytes 16 (aes_block kk x)) = 16%nat.
Proof. apply length_le_bytes. Qed.
Lemma block_bytes_app a b : block_bytes (a ++ b) = block_bytes a ++ block_bytes b.
Proof. apply bind_app. Qed.
Lemma length_block_bytes bs : length (block_bytes bs) = (16 * length bs)%nat.
Proof.
  unfold block_bytes. induction bs as [|b bs IH]; [done|]. cbn [mbind list_bind]. rewrite length_app, IH, length_le_bytes.
  simpl. lia.
Qed.
Lemma block_bytes_lt bs : Forall (λ v, v < 256)%N (block_bytes bs).
Proof. apply Forall_bind, Forall_true. intros b. apply le_bytes_lt. Qed.
Lemma length_ctr_stream kk c n : length (ctr_stream kk c n) = n.
Proof. unfold ctr_stream. by rewrite length_fmap, length_seq. Qed.
Lemma spec_stream_ok p n : Wf p → block_bytes (blocks_of p n) = spec_stream (key p) (counter p) n.
Proof.
  intros [_ Hk]. unfold block_bytes, spec_stream, ctr_stream. rewrite list_fmap_bind.
  induction (seq 0 n) as [|i l IH]; [done|]. cbn [mbind list_bind fmap list_fmap]. rewrite flatten_cons, <- IH.
  unfold compose at 1. rewrite (aes_block_ok _ (key p)), le_bytes_makeBlock by done. done.
Qed.

(** *** Advancing *)
Lemma advance_0 p : Wf p → advance 0 p = p.
Proof. intros [Hc _]. unfold advance, set_counter. rewrite N.add_0_r, u64_small by done. by destruct p. Qed.
Lemma advance_add j k p : advance k (advance j p) = advance (j + k) p.
Proof.
  unfold advance, set_counter. cbn [key aes counter buffer ptr]. rewrite u64_add_l.
  by replace (counter p + N.of_nat j + N.of_nat k)%N with (counter p + N.of_nat (j + k))%N by lia.
Qed.
Lemma advance_wf k p : Wf p → Wf (advance k p).
Proof. intros [_ Hk]. split; [apply u64_lt|done]. Qed.
Lemma blocks_of_add p j k : blocks_of p (j + k) = blocks_of p j ++ blocks_of (advance j p) k.
Proof. apply ctr_stream_app. Qed.

(** *** Blocks *)
Lemma random_block_loop_ok fuel n p : Wf p → (n ≤ fuel)%nat →
  random_block_loop fuel n p = (blocks_of p n, advance n p).
Proof.
  revert n p. induction fuel as [|fuel IH]; intros n p Hp Hn.
  { replace n with 0%nat by lia. by rewrite advance_0. }
  cbn [random_block_loop]. destruct (Nat.ltb_spec 0 n); [|replace n with 0%nat by lia; by rewrite advance_0].
  set (m := if (n <? AES_BATCH_SIZE)%nat then n else AES_BATCH_SIZE).
  assert (0 < m ≤ n)%nat as Hm by (unfold m, AES_BATCH_SIZE; destruct (Nat.ltb_spec n 64); lia).
  cbv zeta. fold (advance m p). rewrite IH by (by apply advance_wf || lia).
  rewrite (ParaCtrEnc_ok vaes256 vaes512 aarch64) by apply Hp. rewrite <- blocks_of_add, advance_add.
  by replace (m + (n - m))%nat with n by lia.
Qed.
Lemma random_block_ok n p : Wf p →
  random_block (Z.of_nat n) true p = Ret (blocks_of p n, advance n p).
Proof.
  intros Hp. unfold random_block. rewrite (proj2 (Z.leb_le 0 _)) by lia. cbn [expecting mbind outcome_bind].
  destruct (Z.eqb_spec (Z.of_nat n) 0) as [H0|H0].
  - replace n with 0%nat by lia. by rewrite advance_0.
  - cbn [mret]. by rewrite Nat2Z.id, random_block_loop_ok.
Qed.

(** *** Bytes *)
Definition blocks_for (n : nat) : nat := ((n + 15) / 16)%nat.
Definition stream_bytes (p : PRG) (n : nat) : list N := take n (block_bytes (blocks_of p (blocks_for n))).
Lemma blocks_for_spec n k r : n = (16 * k + r)%nat → (0 < r ≤ 16)%nat → blocks_for n = S k.
Proof. intros -> Hr. unfold blocks_for. symmetry. apply (Nat.div_unique _ _ _ (r - 1)); lia. Qed.
Lemma blocks_for_mul k : blocks_for (16 * k) = k.
Proof. unfold blocks_for. symmetry. apply (Nat.div_unique _ _ _ 15); lia. Qed.
Lemma length_stream p n : length (block_bytes (blocks_of p n)) = (16 * n)%nat.
Proof. by rewrite length_block_bytes, length_ctr_stream. Qed.
Lemma stream_bytes_mul p k : stream_bytes p (16 * k) = block_bytes (blocks_of p k).
Proof. unfold stream_bytes. rewrite blocks_for_mul. apply take_ge. rewrite length_stream. lia. Qed.
(** The bytes after [k] whole blocks are the start of the next. *)
Lemma stream_bytes_last p k r : (0 < r ≤ 16)%nat →
  stream_bytes p (16 * k + r) = stream_bytes p (16 * k) ++ take r (block_bytes (blocks_of (advance k p) 1)).
Proof.
  intros Hr. rewrite stream_bytes_mul. unfold stream_bytes. rewrite (blocks_for_spec _ k r) by lia.
  rewrite <- (Nat.add_1_r k), blocks_of_add, block_bytes_app.
  by rewrite take_app, length_stream, take_ge by (rewrite length_stream; lia); do 2 f_equal; lia.
Qed.
Lemma length_stream_bytes p n : length (stream_bytes p n) = n.
Proof.
  unfold stream_bytes. rewrite length_take, length_stream. unfold blocks_for.
  pose proof (Nat.div_mod_eq (n + 15) 16). pose proof (Nat.mod_upper_bound (n + 15) 16). lia.
Qed.

Lemma random_data_ok n p : Wf p →
  random_data (Z.of_nat n) true p = Ret (stream_bytes p n, advance (blocks_for n) p).
Proof.
  intros Hp. unfold random_data. rewrite (proj2 (Z.leb_le 0 _)) by lia. cbn [expecting mbind outcome_bind].
  destruct (Z.eqb_spec (Z.of_nat n) 0) as [H0|H0].
  { replace n with 0%nat by lia. by rewrite advance_0. }
  cbn [mret outcome_ret mbind outcome_bind].
  change 16%Z with (Z.of_nat 16). rewrite <- (Nat2Z.inj_div n 16), <- (Nat2Z.inj_mod n 16), random_block_ok by done. cbn [mbind outcome_bind].
  pose proof (Nat.div_mod_eq n 16) as Hdm. pose proof (Nat.mod_upper_bound n 16 ltac:(done)) as Hr.
  set (q := (n / 16)%nat) in *. set (r := (n mod 16)%nat) in *. clearbody q r. subst n.
  destruct (Z.eqb_spec (Z.of_nat r) 0) as [Hz|Hz]; cbn [negb].
  - replace r with 0%nat by lia. by rewrite Nat.add_0_r, stream_bytes_mul, blocks_for_mul.
  - change 1%Z with (Z.of_nat 1). rewrite random_block_ok by by apply advance_wf. cbn [mbind outcome_bind mret].
    rewrite Nat2Z.id, advance_add, (blocks_for_spec _ q r), stream_bytes_last, stream_bytes_mul by lia.
    by rewrite Nat.add_1_r.
Qed.

(** *** Unaligned bytes *)
Lemma store_prefix data i src : (i + length src ≤ length data)%nat →
  length (store data i src) = length data ∧ take (i + length src) (store data i src) = take i data ++ src.
Proof.
  intros Hl. unfold store. rewrite !length_app, length_take, length_drop. split; [lia|].
  rewrite app_assoc. apply take_app_length'. rewrite length_app, length_take. lia.
Qed.
(** The tail loop: [n - remaining] bytes of the stream are in place, a whole
    number of blocks unless nothing remains. *)
Lemma tail_loop_ok fuel n k rem data p : Wf p → (rem ≤ fuel)%nat → n = (16 * k + rem)%nat → length data = n →
  take (16 * k) data = stream_bytes p (16 * k) →
  tail_loop fuel n rem data (advance k p) = Ret (stream_bytes p n, advance (blocks_for n) p).
Proof.
  intros Hp. revert k rem data. induction fuel as [|fuel IH]; intros k rem data Hf Hn Hd Ht.
  { assert (rem = 0%nat) as -> by lia. rewrite Nat.add_0_r in Hn. subst n. cbn [tail_loop].
    by rewrite <- Ht, blocks_for_mul, take_ge by lia. }
  cbn [tail_loop]. destruct (Nat.ltb_spec 0 rem) as [Hr|Hr].
  2: { assert (rem = 0%nat) as -> by lia. rewrite Nat.add_0_r in Hn. subst n.
    by rewrite <- Ht, blocks_for_mul, take_ge by lia. }
  change 1%Z with (Z.of_nat 1). rewrite random_block_ok by by apply advance_wf. cbn [mbind outcome_bind].
  cbv zeta. remember (rem `min` 16)%nat as m eqn:Hmin. set (tmp := block_bytes _).
  assert (length (take m tmp) = m) as Hm by (rewrite length_take; unfold tmp; rewrite length_stream; lia).
  replace (n - rem)%nat with (16 * k)%nat by lia.
  destruct (store_prefix data (16 * k) (take m tmp)) as [Hl Htk]; [lia|].
  rewrite Hm, Ht in Htk. unfold tmp in Htk. rewrite <- stream_bytes_last in Htk by lia.
  rewrite advance_add. destruct (decide (16 ≤ rem)%nat) as [Hbig|Hsmall].
  - replace m with 16%nat in * by lia. apply IH; [lia|lia|lia|].
    by replace (16 * (k + 1))%nat with (16 * k + 16)%nat by lia.
  - replace m with rem in * by lia. rewrite Nat.sub_diag. rewrite <- Hn in Htk. fold tmp in Htk. rewrite (take_ge (store _ _ _)) in Htk by lia.
    rewrite (blocks_for_spec n k rem) by lia. rewrite <- Htk, Nat.add_1_r. by destruct fuel.
Qed.
Lemma random_data_unaligned_ok skew data n p : Wf p → (skew < 16)%nat → length data = n →
  random_data_unaligned skew data (Z.of_nat n) p = Ret (stream_bytes p n, advance (blocks_for n) p).
Proof.
  intros Hp Hs Hd. unfold random_data_unaligned. rewrite (proj2 (Z.leb_le 0 _)) by lia.
  cbn [expecting mbind outcome_bind mret outcome_ret].
  destruct (Z.eqb_spec (Z.of_nat n) 0) as [H0|H0].
  { assert (n = 0%nat) as -> by lia. destruct data; [|done]. by rewrite advance_0. }
  destruct (Z.leb_spec (Z.of_nat n) 32) as [Hsm|Hbig].
  - replace ((Z.of_nat n + 16 - 1) / 16)%Z with (Z.of_nat (blocks_for n)).
    2: { unfold blocks_for. rewrite Nat2Z.inj_div. f_equal. lia. }
    rewrite random_block_ok by done. cbn [mbind outcome_bind]. rewrite Nat2Z.id. fold (stream_bytes p n).
    unfold store. rewrite length_stream_bytes, Nat.add_0_l, drop_ge, app_nil_r by lia. done.
  - cbv zeta. rewrite !Nat2Z.id. set (pad := ((16 - skew) mod 16)%nat). assert (pad < 16)%nat by by apply Nat.mod_upper_bound.
    set (q := ((n - pad) / 16)%nat).
    assert (16 * q ≤ n - pad)%nat as Hq by (pose proof (Nat.div_mod_eq (n - pad) 16); lia).
    replace (n - (n - 16 * q))%nat with (16 * q)%nat by lia.
    rewrite random_data_ok by done. cbn [mbind outcome_bind]. rewrite blocks_for_mul.
    pose proof (length_stream_bytes p (16 * q)) as Hlb. set (bulk := stream_bytes p (16 * q)) in *.
    assert (take (16 * q) (drop pad (store data pad bulk)) = bulk) as Hmv.
    { unfold store. rewrite drop_app_length' by (rewrite length_take; lia). by apply take_app_length'. }
    rewrite Hmv. destruct (store_prefix data pad bulk) as [Hl1 _]; [lia|].
    destruct (store_prefix (store data pad bulk) 0 bulk) as [Hl2 Ht]; [lia|].
    rewrite Nat.add_0_l, Hlb in Ht. apply tail_loop_ok; [done|lia|lia|lia|done].
Qed.

(** *** Bools *)
Definition stream_bits (p : PRG) (n : nat) : list bool :=
  take n (unbytes (block_bytes (blocks_of p ((n + 127) / 128)))).
Lemma bits_shift t v : (λ i, N.land (N.shiftr v (N.of_nat i)) 1) <$> seq 0 t = N.b2n <$> bits t v.
Proof.
  rewrite bits_testbit, <- list_fmap_compose. apply list_fmap_ext. intros i ? _. unfold compose.
  change 1%N with (N.ones 1) at 1. rewrite N.land_ones. change (2 ^ 1)%N with 2%N.
  by rewrite <- N.bit0_mod, N.shiftr_spec', N.add_0_l.
Qed.
Lemma bits_le_take t l : Forall (λ v, v < 256)%N l → (t ≤ 8 * length l)%nat → bits t (le_value l) = take t (unbytes l).
Proof.
  intros Hl Ht. rewrite <- bits_le_value by done. rewrite !bits_testbit, <- fmap_take, take_seq.
  by replace (t `min` (8 * length l))%nat with t by lia.
Qed.
Lemma chunks_ok bytes k : Forall (λ v, v < 256)%N bytes → (4 * k ≤ length bytes)%nat →
  flatten ((λ i, bits32_to_bytes (le_value (take 4 (drop (i * 4) bytes)))) <$> seq 0 k) =
    N.b2n <$> take (32 * k) (unbytes bytes).
Proof.
  intros Hb. induction k as [|k IH]; intros Hk; [done|].
  rewrite seq_S, fmap_app, join_app, IH by lia. cbn [fmap list_fmap Nat.add]. rewrite flatten_cons, app_nil_r.
  rewrite bits32_to_bytes_ok. rewrite bits_le_take by first [by apply Forall_take, Forall_drop|rewrite length_take, length_drop; lia].
  rewrite <- fmap_app. f_equal. replace (32 * S k)%nat with (8 * (4 * k + 4))%nat by lia.
  replace (32 * k)%nat with (8 * (4 * k))%nat by lia. rewrite !take_unbytes.
  rewrite (Nat.mul_comm k 4), <- (take_take_drop bytes (4 * k) 4), unbytes_app. f_equal.
  apply take_ge. rewrite length_unbytes, length_take, length_drop. lia.
Qed.
Lemma bool_pass_ok n bytes : Forall (λ v, v < 256)%N bytes → (n ≤ 8 * length bytes)%nat →
  bool_pass n bytes = N.b2n <$> take n (unbytes bytes).
Proof.
  intros Hb Hn. unfold bool_pass. cbv zeta. pose proof (Nat.div_mod_eq n 32) as Hdm.
  pose proof (Nat.mod_upper_bound n 32 ltac:(done)) as Hr. set (q := (n / 32)%nat) in *.
  replace (n - q * 32)%nat with (n mod 32)%nat by lia. set (r := (n mod 32)%nat) in *. clearbody q r. subst n.
  rewrite chunks_ok by (done || lia). rewrite bits_shift, <- take_take_drop, fmap_app. f_equal. f_equal.
  assert (r ≤ 8 * ((r + 7) / 8))%nat by (pose proof (Nat.div_mod_eq (r + 7) 8); pose proof (Nat.mod_upper_bound (r + 7) 8); lia).
  rewrite <- (Nat.mul_comm 4), bits_le_take.
  - rewrite <- take_unbytes, take_take. replace (r `min` (8 * ((r + 7) / 8)))%nat with r by lia.
    f_equal. replace (32 * q)%nat with (8 * (4 * q))%nat by lia. symmetry. apply drop_unbytes.
  - by apply Forall_take, Forall_drop.
  - rewrite length_take, length_drop. lia.
Qed.
Lemma length_unstream p k : length (unbytes (block_bytes (blocks_of p k))) = (128 * k)%nat.
Proof. rewrite length_unbytes, length_stream. lia. Qed.
Lemma bits_for_spec n : (n ≤ 128 * ((n + 127) / 128))%nat.
Proof. pose proof (Nat.div_mod_eq (n + 127) 128). pose proof (Nat.mod_upper_bound (n + 127) 128). lia. Qed.
Lemma bool_loop_ok fuel n p : Wf p → (n ≤ fuel)%nat →
  bool_loop fuel n p = Ret (N.b2n <$> stream_bits p n, advance ((n + 127) / 128) p).
Proof.
  revert n p. induction fuel as [|fuel IH]; intros n p Hp Hn.
  { assert (n = 0%nat) as -> by lia. change ((0 + 127) / 128)%nat with 0%nat. by rewrite advance_0. }
  cbn [bool_loop]. destruct (Nat.ltb_spec 0 n); [|assert (n = 0%nat) as -> by lia; change ((0 + 127) / 128)%nat with 0%nat; by rewrite advance_0].
  change (CHUNK_B * 128)%nat with 2048%nat. destruct (Nat.ltb_spec n 2048) as [Hlt|Hge]; cbv zeta.
  - rewrite random_block_ok by done. cbn [mbind outcome_bind].
    rewrite Nat.sub_diag. replace (bool_loop fuel 0 _) with (Ret (@nil N, advance ((n + 127) / 128) p)) by (by destruct fuel).
    cbn [mbind outcome_bind]. rewrite app_nil_r, bool_pass_ok; [done|apply block_bytes_lt|].
    rewrite length_stream. pose proof (bits_for_spec n). lia.
  - change ((2048 + 127) / 128)%nat with 16%nat. rewrite random_block_ok by done. cbn [mbind outcome_bind].
    rewrite IH by (by apply advance_wf || lia). cbn [mbind outcome_bind mret outcome_ret].
    rewrite bool_pass_ok by first [apply block_bytes_lt|rewrite length_stream; lia]. rewrite advance_add.
    replace ((n + 127) / 128)%nat with (16 + (n - 2048 + 127) / 128)%nat.
    2: { replace (n + 127)%nat with (16 * 128 + (n - 2048 + 127))%nat by lia. by rewrite Nat.div_add_l. }
    unfold stream_bits. replace ((n + 127) / 128)%nat with (16 + (n - 2048 + 127) / 128)%nat.
    2: { replace (n + 127)%nat with (16 * 128 + (n - 2048 + 127))%nat by lia. by rewrite Nat.div_add_l. }
    rewrite blocks_of_add, block_bytes_app, unbytes_app, take_app, length_unstream.
    rewrite !(take_ge (unbytes (block_bytes (blocks_of p 16)))) by (rewrite length_unstream; lia).
    rewrite <- fmap_app. by replace (n - 128 * 16)%nat with (n - 2048)%nat by lia.
Qed.
Lemma random_bool_ok n p : Wf p →
  random_bool (Z.of_nat n) p = Ret (N.b2n <$> stream_bits p n, advance ((n + 127) / 128) p).
Proof.
  intros Hp. unfold random_bool. rewrite (proj2 (Z.leb_le 0 _)) by lia. cbn [expecting mbind outcome_bind mret outcome_ret].
  destruct (Z.eqb_spec (Z.of_nat n) 0) as [H0|H0].
  - assert (n = 0%nat) as -> by lia. change ((0 + 127) / 128)%nat with 0%nat. by rewrite advance_0.
  - rewrite Nat2Z.id. by apply bool_loop_ok.
Qed.

(** *** Words *)
Definition buffered (p : PRG) : list N := drop (ptr p) (buffer p).
Lemma length_block_words bs : length (block_words bs) = (2 * length bs)%nat.
Proof. induction bs as [|b bs IH]; [done|]. cbn [block_words mbind list_bind app length] in *. unfold block_words in IH. lia. Qed.
Record Words_ok (p : PRG) : Prop := {
  wd_wf :> Wf p; wd_buffer : length (buffer p) = 32%nat; wd_ptr : (ptr p ≤ 32)%nat }.
Lemma next_word_ok p : Words_ok p → ∃ w p', next_word p = Ret (w, p') ∧ Words_ok p' ∧ aes p' = aes p ∧
  (buffered p = w :: buffered p' ∧ counter p' = counter p ∨
   buffered p = [] ∧ block_words (blocks_of p 16) = w :: buffered p' ∧ counter p' = counter (advance 16 p)).
Proof.
  intros [Hp Hb Hptr]. unfold next_word. destruct (Nat.eqb_spec (ptr p) 32) as [H32|H32].
  - rewrite (random_block_ok 16 p Hp : random_block 16 true p = _).
    assert (length (block_words (blocks_of p 16)) = 32%nat) as Hws by (by rewrite length_block_words, length_ctr_stream).
    revert Hws. generalize (blocks_of p 16). intros bs Hws. cbn [mbind outcome_bind mret outcome_ret].
    destruct (block_words bs) as [|w ws]; [done|].
    cbn [ptr buffer aes counter key lookup list_lookup mbind outcome_bind mret outcome_ret].
    eexists w, _. split; [reflexivity|]. split; [|split; [done|right]].
    + split; [split; [apply u64_lt|apply Hp]|done|cbn; lia].
    + split; [unfold buffered; apply drop_ge; lia|]. done.
  - cbn [mbind outcome_bind mret outcome_ret].
    destruct (lookup_lt_is_Some_2 (buffer p) (ptr p)) as [w Hw]; [lia|]. rewrite Hw.
    eexists w, _. split; [reflexivity|]. split; [split; [split; apply Hp|done|cbn; lia]|]. split; [done|left].
    split; [|done]. unfold buffered. by apply drop_S.
Qed.
Lemma next_words_ok n p m : Words_ok p → (n ≤ length (buffered p) + 32 * m)%nat → ∃ p',
  next_words n p = Ret (take n (buffered p ++ block_words (blocks_of p (16 * m))), p') ∧ Words_ok p'.
Proof.
  revert p m. induction n as [|n IH]; intros p m Hp Hn; [by exists p|]. cbn [next_words].
  destruct (next_word_ok p Hp) as (w & p1 & -> & Hp1 & Ha & [[Hb Hc]|(Hb & Hw & Hc)]); cbn [mbind outcome_bind].
  - rewrite Hb in *. destruct (IH p1 m) as (p' & -> & Hp'); [done|simpl in Hn; lia|].
    exists p'. split; [|done]. rewrite Ha, Hc. done.
  - rewrite Hb in *. destruct m as [|m]; [simpl in Hn; lia|].
    assert (length (w :: buffered p1) = 32%nat) as Hl by (by rewrite <- Hw, length_block_words, length_ctr_stream).
    destruct (IH p1 m) as (p' & -> & Hp'); [done|simpl in Hn, Hl; lia|]. exists p'. split; [|done].
    replace (16 * S m)%nat with (16 + 16 * m)%nat by lia. rewrite blocks_of_add. unfold block_words at 2.
    rewrite bind_app. fold (block_words (blocks_of p 16)). rewrite Hw, Ha, Hc. done.
Qed.

(** ** Construction *)
Lemma reseed_ok s id p : length (aes p) = 11%nat →
  Wf (reseed s id p) ∧ key (reseed s id p) = N.lxor s (makeBlock 0 id) ∧ counter (reseed s id p) = 0%N.
Proof. intros Hl. split; [|done]. split; [done|]. by apply key_schedule_one. Qed.
(** [reseed] keeps the buffered words of the old key: the next word is one of them. *)
Lemma reseed_stale s id p w : (ptr p < 32)%nat → buffer p !! ptr p = Some w →
  ∃ p', next_word (reseed s id p) = Ret (w, p').
Proof.
  intros Hp Hw. unfold next_word, reseed. cbn [ptr buffer aes counter key].
  rewrite (proj2 (Nat.eqb_neq _ _)) by lia. cbn [mbind outcome_bind mret outcome_ret ptr buffer].
  rewrite Hw. by eexists.
Qed.
Lemma construct_ok hash getentropy t sd id mem w : length (aes mem) = 11%nat →
  match construct hash getentropy t sd id mem w with
  | Ret (p, w') =>
      Wf p ∧ counter p = 0%N ∧ ptr p = ptr mem ∧
      ∃ v, key p = N.lxor v (makeBlock 0 (Z.to_N (id mod 2 ^ 64))) ∧
        match sd with
        | Some s => v = s ∧ w' = w
        | None => if is_test_mode w
                  then ∃ ts, next_test_seed hash t w = Ret (ts, w') ∧ v = makeBlock (seed_lane ts) (ordinal ts)
                  else getentropy.1 = 0%Z ∧ v = getentropy.2 ∧ w' = w
        end
  | Fatal _ => sd = None
  | Undef => False
  end.
Proof.
  intros Hl. unfold construct. destruct sd as [v|]; cbn [mret outcome_ret].
  { destruct (reseed_ok v (Z.to_N (id mod 2 ^ 64)) mem Hl) as (? & ? & ?). split_and!; try done. by exists v. }
  destruct (is_test_mode w) eqn:Ht.
  - unfold next_test_seed, draw_claim. destruct (lane _ =? 0)%N.
    + cbv zeta. destruct (compare_exchange _ _) as [e o]. unfold expecting. destruct (_ || _); [|done].
      cbn [mbind outcome_bind mret outcome_ret draw_take]. edestruct reseed_ok as (? & ? & ?); [exact Hl|].
      split_and!; try done. eexists. split; [done|]. by eexists.
    + cbn [mbind outcome_bind mret outcome_ret draw_take]. edestruct reseed_ok as (? & ? & ?); [exact Hl|].
      split_and!; try done. eexists. split; [done|]. by eexists.
  - unfold from_urand, expecting. destruct (Z.eqb_spec getentropy.1 0) as [He|]; [|done].
    cbn [mbind outcome_bind mret outcome_ret]. edestruct reseed_ok as (? & ? & ?); [exact Hl|].
    split_and!; try done. by eexists.
Qed.
Lemma words_bytes bs : block_words bs ≫= le_bytes 8 = block_bytes bs.
Proof.
  unfold block_bytes. induction bs as [|b bs IH]; [done|]. unfold block_words in *. cbn [mbind list_bind app] in *.
  rewrite IH, app_assoc. f_equal. change 16%nat with (8 + 8)%nat. rewrite le_bytes_app.
  by rewrite <- (le_bytes_mod 8 b).
Qed.
Lemma take_bind_bytes ws n : take (8 * n) (ws ≫= le_bytes 8) = take n ws ≫= le_bytes 8.
Proof.
  revert n. induction ws as [|w ws IH]; intros n; [cbn [mbind list_bind]; by rewrite !take_nil|]. destruct n as [|n]; [done|].
  cbn [mbind list_bind take]. replace (8 * S n)%nat with (length (le_bytes 8 w) + 8 * n)%nat by (rewrite length_le_bytes; lia).
  rewrite take_app_add. by f_equal.
Qed.
End prg.

(** ** Properties *)

(** C18: The generator's draws.  On every build (x86 with any of the VAES
    widths, or aarch64), from any seeded generator: [n]
    blocks, [n] bytes to an aligned buffer, [n] bytes to a buffer at any skew, and
    [n] bools are each the first bytes or bits of the AES-CTR stream (FIPS-197) of
    the key from the generator's position, the same bytes whatever the alignment,
    the batching or the vector width, and the position advances by the blocks
    needed, rounded up.  Words drawn after forking or seeking to a block are the
    stream from that block.  A negative count ends the process in each of the four
    draws, and so does a misaligned buffer of blocks or bytes, unless nothing is
    asked for. *)
Theorem prg_correct (vaes256 vaes512 aarch64 : bool) (p : PRG) (n : nat) : Wf p →
  let S c k := spec_stream (key p) c k in
  (∃ bs, random_block vaes256 vaes512 aarch64 (Z.of_nat n) true p = Ret (bs, advance n p) ∧ block_bytes bs = S (counter p) n) ∧
  random_data vaes256 vaes512 aarch64 (Z.of_nat n) true p =
    Ret (take n (S (counter p) (blocks_for n)), advance (blocks_for n) p) ∧
  (∀ skew data, (skew < 16)%nat → length data = n →
     random_data_unaligned vaes256 vaes512 aarch64 skew data (Z.of_nat n) p =
       Ret (take n (S (counter p) (blocks_for n)), advance (blocks_for n) p)) ∧
  random_bool vaes256 vaes512 aarch64 (Z.of_nat n) p =
    Ret (N.b2n <$> take n (unbytes (S (counter p) ((n + 127) / 128)%nat)), advance ((n + 127) / 128) p) ∧
  (∀ c m, (c < 2 ^ 64)%N → length (buffer p) = 32%nat → (n ≤ 32 * m)%nat →
     ∃ ws p', next_words vaes256 vaes512 aarch64 n (fork_at c p) = Ret (ws, p') ∧ length ws = n ∧
       ws ≫= le_bytes 8 = take (8 * n) (S c (16 * m)%nat)) ∧
  (∀ z, (z < 0)%Z →
     random_block vaes256 vaes512 aarch64 z true p = Fatal "PRG::random_block: negative block count" ∧
     random_data vaes256 vaes512 aarch64 z true p = Fatal "PRG::random_data: negative byte count" ∧
     random_bool vaes256 vaes512 aarch64 z p = Fatal "PRG::random_bool: negative bit count" ∧
     ∀ skew data, random_data_unaligned vaes256 vaes512 aarch64 skew data z p =
       Fatal "PRG::random_data_unaligned: negative byte count") ∧
  (if (n =? 0)%nat
   then random_block vaes256 vaes512 aarch64 0 false p = Ret ([], p) ∧ random_data vaes256 vaes512 aarch64 0 false p = Ret ([], p)
   else random_block vaes256 vaes512 aarch64 (Z.of_nat n) false p =
          Fatal "PRG::random_block: data must be 16-byte aligned" ∧
        random_data vaes256 vaes512 aarch64 (Z.of_nat n) false p =
          Fatal "PRG::random_data: data must be 16-byte aligned; use random_data_unaligned").
Proof.
  intros Hp S. split; [|split; [|split; [|split; [|split; [|split]]]]].
  - eexists. split; [by apply random_block_ok|]. by apply spec_stream_ok.
  - rewrite random_data_ok by done. unfold stream_bytes. by rewrite spec_stream_ok.
  - intros skew data Hs Hd. rewrite random_data_unaligned_ok by done. unfold stream_bytes. by rewrite spec_stream_ok.
  - rewrite random_bool_ok by done. unfold stream_bits. by rewrite spec_stream_ok.
  - intros c m Hc Hb Hn. set (q := fork_at c p).
    assert (Words_ok q) as Hq by (split; [split; [done|apply Hp]|done|done]).
    assert (buffered q = []) as Hnil by (unfold buffered, q; cbn; apply drop_ge; lia).
    destruct (next_words_ok vaes256 vaes512 aarch64 n q m Hq) as (p' & Hr & _); [rewrite Hnil; simpl; lia|].
    rewrite Hnil, app_nil_l in Hr. exists (take n (block_words (ctr_stream (aes q) (counter q) (16 * m)))), p'.
    split; [exact Hr|]. split; [rewrite length_take, length_block_words, length_ctr_stream; lia|].
    rewrite <- take_bind_bytes, words_bytes. f_equal. apply (spec_stream_ok q), Hq.
  - intros z Hz. unfold random_block, random_data, random_bool, random_data_unaligned. by rewrite (proj2 (Z.leb_gt 0 z)).
  - destruct (Nat.eqb_spec n 0) as [_|Hn]; [done|]. unfold random_block, random_data.
    rewrite (proj2 (Z.leb_le 0 _)), (proj2 (Z.eqb_neq _ _)) by lia. done.
Qed.
(** The generator seeded with the key of FIPS-197, appendix C.1. *)
Lemma prg_correct_witness :
  let p := reseed 0x0f0e0d0c0b0a09080706050403020100 0 (mkPRG 0 (replicate 11 0%N) 0 (replicate 32 0%N) 32) in
  Wf p ∧ random_data_unaligned true false false 5 (replicate 40 0%N) (Z.of_nat 40) p =
    Ret (take 40 (spec_stream 0x0f0e0d0c0b0a09080706050403020100 0 3), advance 3 p).
Proof.
  intros p. assert (Wf p) as Hp by (apply reseed_ok; reflexivity). split; [exact Hp|].
  destruct (prg_correct true false false p 40 Hp) as (_ & _ & H & _). apply (H 5%nat (replicate 40 0%N)); [lia|reflexivity].
Defined.
