(* ===== verification/Garble.v ===== *)
(** * Garbling an And gate (runtime/execution/half_gate.h, privacy_free.h)

    A wire label pair is [L] for 0 and [L xor delta] for 1.  The garbler makes
    the table of a gate, the evaluator opens it with one label per input.  The
    half-gates form hashes with [MITCCRH], the privacy-free form with a fixed
    key. *)

From Stdlib Require Import Btauto.
From S2P Require Import Prelude Bits Bytes Block Crh.

(** ** Half gates *)
Section half_gates.
Context (vaes256 vaes512 : bool) (aes : N → N → N) (BatchSize : nat) (ReuseShift : N).

(** The zero label, the two ciphertexts and the hash state. *)
Definition halfgates_garble (LA0 A1 LB0 B1 delta : block) (mitccrh : MITCCRH.State) :
    block * (block * block) * MITCCRH.State :=
  let pa := getLSB LA0 in
  let pb := getLSB LB0 in
  let '(H, mitccrh) := MITCCRH.hash_cir vaes256 vaes512 aes BatchSize ReuseShift 2 2 [LA0; A1; LB0; B1] mitccrh in
  let HLA0 := get H 0 in let HA1 := get H 1 in let HLB0 := get H 2 in let HB1 := get H 3 in
  let table0 := N.lxor (N.lxor HLA0 HA1) (N.land (select_mask pb) delta) in
  let W0 := N.lxor HLA0 (N.land (select_mask pa) table0) in
  let tmp := N.lxor HLB0 HB1 in
  let table1 := N.lxor tmp LA0 in
  let W0 := N.lxor W0 (N.lxor HLB0 (N.land (select_mask pb) tmp)) in
  (W0, (table0, table1), mitccrh).
Definition halfgates_eval (A B : block) (table : block * block) (mitccrh : MITCCRH.State) :
    block * MITCCRH.State :=
  let sa := getLSB A in
  let sb := getLSB B in
  let '(H, mitccrh) := MITCCRH.hash_cir vaes256 vaes512 aes BatchSize ReuseShift 2 1 [A; B] mitccrh in
  let W := N.lxor (get H 0) (get H 1) in
  let W := N.lxor W (N.land (select_mask sa) table.1) in
  let W := N.lxor W (N.land (select_mask sb) table.2) in
  let W := N.lxor W (N.land (select_mask sb) A) in
  (W, mitccrh).

(** A run of gates under one hash object, in gate order. *)
Fixpoint garble_all (delta : block) (gates : list (block * block)) (mitccrh : MITCCRH.State) :
    list (block * (block * block)) :=
  match gates with
  | [] => []
  | (LA0, LB0) :: gates =>
      let '(W0, table, mitccrh) :=
        halfgates_garble LA0 (N.lxor LA0 delta) LB0 (N.lxor LB0 delta) delta mitccrh in
      (W0, table) :: garble_all delta gates mitccrh
  end.
Fixpoint eval_all (gates : list (block * block * (block * block))) (mitccrh : MITCCRH.State) : list block :=
  match gates with
  | [] => []
  | (A, B, table) :: gates =>
      let '(W, mitccrh) := halfgates_eval A B table mitccrh in W :: eval_all gates mitccrh
  end.
End half_gates.

(** ** Privacy-free *)
Section privacy_free.
Context (aes : N → N → N).
(** Clear or set the low bit of byte 0. *)
Definition clear_lsb (x : block) : block := N.ldiff x 1.
Definition set_lsb (x : block) : block := N.lor x 1.
Definition privacy_free_garble (LA0 A1 LB0 : block) (idx key : N) : block * block :=
  let tweak := makeBlock (u64 (2 * idx)) 0 in
  let m0 := N.lxor (sigma LA0) tweak in
  let m1 := N.lxor (sigma A1) tweak in
  let HLA0 := clear_lsb (N.lxor (aes key m0) m0) in
  let HA1 := set_lsb (N.lxor (aes key m1) m1) in
  let tmp := N.lxor HLA0 HA1 in
  (HLA0, N.lxor tmp LB0).
Definition privacy_free_eval (A B table : block) (idx key : N) : block :=
  let tweak := makeBlock (u64 (2 * idx)) 0 in
  let mask := N.lxor (sigma A) tweak in
  let HA := N.lxor (aes key mask) mask in
  if getLSB A then N.lxor (N.lxor (set_lsb HA) table) B else clear_lsb HA.
End privacy_free.

(** ** Labels *)
(** The label of bit [v]. *)
Definition label (delta L : block) (v : bool) : block := if v then N.lxor L delta else L.
Lemma getLSB_testbit x : getLSB x = N.testbit x 0.
Proof.
  unfold getLSB, lane0. change 1%N with (N.ones 1) at 1. rewrite N.land_ones.
  rewrite <- (N.mod_pow2_bits_low x 64 0) by done. rewrite N.bit0_eqb. done.
Qed.
Lemma getLSB_label delta L v : getLSB delta = true → getLSB (label delta L v) = xorb (getLSB L) v.
Proof.
  rewrite !getLSB_testbit. intros Hd. destruct v; simpl; [|by rewrite xorb_false_r].
  rewrite N.lxor_spec, Hd. done.
Qed.
Lemma land_select b x : block_ok x → N.land (select_mask b) x = if b then x else 0%N.
Proof.
  intros Hx. destruct b; [|done]. change (select_mask true) with (N.ones 128).
  rewrite N.land_comm, N.land_ones. by apply N.mod_small.
Qed.
Lemma lxor_block_ok a b : block_ok a → block_ok b → block_ok (N.lxor a b).
Proof. apply lxor_lt. Qed.
Lemma label_ok delta L v : block_ok delta → block_ok L → block_ok (label delta L v).
Proof. intros. destruct v; [by apply lxor_block_ok|done]. Qed.

(** Equations between sums of blocks. *)
Ltac xor_blocks := apply N.bits_inj; intros ?; rewrite ?N.lxor_spec, ?N.bits_0; btauto.

(** The algebra of a half gate, for any four hash values. *)
Lemma half_gate_algebra (h : N → N) (hb : N → N) LA0 LB0 delta (a b : bool) :
  (∀ x, block_ok (h x)) → (∀ x, block_ok (hb x)) → block_ok LA0 → block_ok LB0 → block_ok delta →
  getLSB delta = true →
  let pa := getLSB LA0 in let pb := getLSB LB0 in
  let HLA0 := h LA0 in let HA1 := h (N.lxor LA0 delta) in
  let HLB0 := hb LB0 in let HB1 := hb (N.lxor LB0 delta) in
  let table0 := N.lxor (N.lxor HLA0 HA1) (N.land (select_mask pb) delta) in
  let W0 := N.lxor HLA0 (N.land (select_mask pa) table0) in
  let tmp := N.lxor HLB0 HB1 in
  let table1 := N.lxor tmp LA0 in
  let W0 := N.lxor W0 (N.lxor HLB0 (N.land (select_mask pb) tmp)) in
  let A := label delta LA0 a in let B := label delta LB0 b in
  let W := N.lxor (h A) (hb B) in
  let W := N.lxor W (N.land (select_mask (getLSB A)) table0) in
  let W := N.lxor W (N.land (select_mask (getLSB B)) table1) in
  let W := N.lxor W (N.land (select_mask (getLSB B)) A) in
  W = label delta W0 (a && b).
Proof.
  intros Hh Hhb Ha Hb Hd Hlsb. cbv zeta. rewrite !getLSB_label by done.
  pose proof (Hh LA0) as H1. pose proof (Hh (N.lxor LA0 delta)) as H2.
  pose proof (Hhb LB0) as H3. pose proof (Hhb (N.lxor LB0 delta)) as H4.
  rewrite (land_select (getLSB LB0) delta), (land_select _ (N.lxor (hb LB0) _)) by (by try apply lxor_block_ok).
  assert (block_ok (if getLSB LB0 then delta else 0%N)) by (by destruct (getLSB LB0)).
  rewrite !land_select by (by repeat first [done|apply lxor_block_ok|apply label_ok]).
  destruct (getLSB LA0), (getLSB LB0), a, b; cbn [xorb andb label]; xor_blocks.
Qed.

(** ** Garbler and evaluator in step *)
Section lockstep.
Context (aes : N → N → N) (ReuseShift : N).
Context (aes_range : ∀ k x, block_ok (aes k x)).

(** The object will hash gate id [g] next, and pairs of lanes fill its batches. *)
Definition Aligned (B : nat) (s : MITCCRH.State) (g : N) : Prop :=
  (MITCCRH.key_used s = B ∧ MITCCRH.gid s = g) ∨
  (Nat.Even (MITCCRH.key_used s) ∧ (MITCCRH.key_used s < B)%nat ∧
   (MITCCRH.lane_gid0 s + N.of_nat (MITCCRH.key_used s))%N = g ∧
   MITCCRH.gid s = (MITCCRH.lane_gid0 s + N.of_nat B)%N).
Lemma aligned_setS B S s : Aligned B (MITCCRH.setS B S s) 0.
Proof. by left. Qed.
Lemma aligned_next B s g : (2 ≤ B)%nat → Nat.Even B → Aligned B s g →
  MITCCRH.next_gid B 2 s = g ∧ (MITCCRH.gid s ≤ g + N.of_nat B)%N.
Proof.
  intros HB [b Hb] [[Hu Hg]|([u Hu] & Hlt & Hl & Hg)]; unfold MITCCRH.next_gid.
  - rewrite Hu. destruct (Nat.ltb_spec B (B + 2)); [split; [done|lia]|lia].
  - destruct (Nat.ltb_spec B (MITCCRH.key_used s + 2)); [lia|]. split; [done|lia].
Qed.
Lemma consume_state vaes256 vaes512 B pre K H src s :
  let s1 := if (B <? MITCCRH.key_used s + K)%nat then MITCCRH.renew_ks B ReuseShift s else s in
  (MITCCRH.consume vaes256 vaes512 aes B ReuseShift pre K H src s).2 =
    MITCCRH.mkState (MITCCRH.scheduled_key s1) (MITCCRH.keys s1) (MITCCRH.key_used s1 + K)
      (MITCCRH.start_point s1) (MITCCRH.gid s1) (MITCCRH.scheduled_bucket s1) (MITCCRH.lane_gid0 s1).
Proof. cbv zeta. unfold MITCCRH.consume. by destruct (_ && _). Qed.

(** One call hashes ids [g] and [g + 1] and leaves the object at [g + 2]. *)
Lemma hash_step vaes256 vaes512 B S s g H src : (2 ≤ B)%nat → Nat.Even B → (0 < H)%nat → length src = (2 * H)%nat →
  MITCCRH.Inv B ReuseShift s → MITCCRH.start_point s = S → Aligned B s g →
  (g + 2 * N.of_nat B < 2 ^ 64)%N →
  ∃ s', MITCCRH.hash_cir vaes256 vaes512 aes B ReuseShift 2 H src s = (MITCCRH.stream_spec aes ReuseShift sigma S g H src, s') ∧
    MITCCRH.Inv B ReuseShift s' ∧ MITCCRH.start_point s' = S ∧ Aligned B s' (g + 2).
Proof.
  intros HB Heven HH Hl Hinv Hsp Hal Hg. destruct (aligned_next B s g HB Heven Hal) as [Hn Hgid].
  pose proof (MITCCRH.consume_ok vaes256 vaes512 aes B ReuseShift sigma 2 H src s ltac:(lia) HH Hl Hinv
    ltac:(lia)) as Hc.
  pose proof (consume_state vaes256 vaes512 B sigma 2 H src s) as Hst. cbv zeta in Hc, Hst.
  unfold MITCCRH.hash_cir. destruct (MITCCRH.consume _ _ _ _ _ _ _ _ _ _) as [out s']. simpl in Hst.
  destruct Hc as (-> & Hinv' & Hsp' & _ & _). rewrite Hn, Hsp. exists s'. split; [done|].
  split; [done|]. split; [congruence|]. clear Hn. destruct Heven as [b Hb].
  destruct Hal as [[Hu Hgs]|([u Hu] & Hlt & Hl0 & Hgs)].
  - destruct (Nat.ltb_spec B (MITCCRH.key_used s + 2)); [|lia].
    destruct (MITCCRH.renew_ok B ReuseShift s) as (_ & Hk0 & Hl0 & _ & Hg'); [lia| |lia|].
    { exact (MITCCRH.inv_bucket _ _ _ Hinv). }
    subst s'. unfold Aligned. simpl. rewrite Hk0, Hl0, Hg'. destruct (decide (B = 2)%nat).
    + left. split; [done|lia].
    + right. split; [by exists 1%nat|]. split; [lia|]. split; [simpl; lia|lia].
  - destruct (Nat.ltb_spec B (MITCCRH.key_used s + 2)); [lia|].
    subst s'. unfold Aligned. simpl. destruct (decide (MITCCRH.key_used s + 2 = B)%nat).
    + left. split; [done|lia].
    + right. split; [exists (u + 1)%nat; lia|]. split; [lia|]. split; [lia|lia].
Qed.

Lemma makeBlock_ok h l : block_ok (makeBlock h l).
Proof.
  unfold block_ok, makeBlock. change (2 ^ 128)%N with (2 ^ 64 * 2 ^ 64)%N.
  assert (h mod 2 ^ 64 < 2 ^ 64)%N by (by apply N.mod_lt).
  assert (l mod 2 ^ 64 < 2 ^ 64)%N by (by apply N.mod_lt). nia.
Qed.
Lemma land_block_ok a m : block_ok m → block_ok (N.land a m).
Proof.
  intros Hm. unfold block_ok in *. rewrite <- (N.mod_small m (2 ^ 128)) by done.
  rewrite <- N.land_ones, N.land_assoc, N.land_ones. by apply N.mod_lt.
Qed.
Lemma sigma_ok x : block_ok (sigma x).
Proof. apply lxor_block_ok; [|apply land_block_ok]; apply makeBlock_ok. Qed.
Lemma H_spec_ok S i x : block_ok (MITCCRH.H_spec aes ReuseShift sigma S i x).
Proof.
  unfold MITCCRH.H_spec.
  repeat first [apply aes_range|apply sigma_ok|apply makeBlock_ok|apply lxor_block_ok].
Qed.

(** One gate: the zero label and the table, and its opening. *)
Lemma half_gate_step vG256 vG512 vE256 vE512 BG BE S g sg se LA0 LB0 delta a b :
  (2 ≤ BG)%nat → Nat.Even BG → (2 ≤ BE)%nat → Nat.Even BE →
  MITCCRH.Inv BG ReuseShift sg → MITCCRH.start_point sg = S → Aligned BG sg g →
  MITCCRH.Inv BE ReuseShift se → MITCCRH.start_point se = S → Aligned BE se g →
  (g + 2 * N.of_nat BG < 2 ^ 64)%N → (g + 2 * N.of_nat BE < 2 ^ 64)%N →
  block_ok LA0 → block_ok LB0 → block_ok delta → getLSB delta = true →
  ∃ W0 table sg' se',
    halfgates_garble vG256 vG512 aes BG ReuseShift LA0 (N.lxor LA0 delta) LB0 (N.lxor LB0 delta)
      delta sg = (W0, table, sg') ∧
    halfgates_eval vE256 vE512 aes BE ReuseShift (label delta LA0 a) (label delta LB0 b) table se =
      (label delta W0 (a && b), se') ∧
    MITCCRH.Inv BG ReuseShift sg' ∧ MITCCRH.start_point sg' = S ∧ Aligned BG sg' (g + 2) ∧
    MITCCRH.Inv BE ReuseShift se' ∧ MITCCRH.start_point se' = S ∧ Aligned BE se' (g + 2).
Proof.
  intros HBG HEG HBE HEE Hig Hsg Hag Hie Hse Hae Hgg Hge Ha Hb Hd Hlsb.
  destruct (hash_step vG256 vG512 BG S sg g 2 [LA0; N.lxor LA0 delta; LB0; N.lxor LB0 delta])
    as (sg' & Hhg & ? & ? & ?); [done..|lia|done|done|done|done|done|].
  destruct (hash_step vE256 vE512 BE S se g 1 [label delta LA0 a; label delta LB0 b])
    as (se' & Hhe & ? & ? & ?); [done..|lia|done|done|done|done|done|].
  unfold halfgates_garble, halfgates_eval. rewrite Hhg, Hhe.
  eexists _, _, sg', se'. split; [reflexivity|]. split; [|done]. cbn [fst snd]. f_equal.
  pose proof (half_gate_algebra (MITCCRH.H_spec aes ReuseShift sigma S (g + N.of_nat 0))
    (MITCCRH.H_spec aes ReuseShift sigma S (g + N.of_nat 1)) LA0 LB0 delta a b
    (H_spec_ok S _) (H_spec_ok S _) Ha Hb Hd Hlsb) as Halg.
  exact Halg.
Qed.

Lemma garble_eval_all vG256 vG512 vE256 vE512 BG BE S delta (gates : list (block * block * bool * bool)) g sg se :
  (2 ≤ BG)%nat → Nat.Even BG → (2 ≤ BE)%nat → Nat.Even BE →
  MITCCRH.Inv BG ReuseShift sg → MITCCRH.start_point sg = S → Aligned BG sg g →
  MITCCRH.Inv BE ReuseShift se → MITCCRH.start_point se = S → Aligned BE se g →
  (g + 2 * N.of_nat (length gates) + 2 * N.of_nat BG + 2 * N.of_nat BE < 2 ^ 64)%N →
  Forall (λ '(LA0, LB0, _, _), block_ok LA0 ∧ block_ok LB0) gates →
  block_ok delta → getLSB delta = true →
  let garbled := garble_all vG256 vG512 aes BG ReuseShift delta (fst ∘ fst <$> gates) sg in
  length garbled = length gates ∧
  eval_all vE256 vE512 aes BE ReuseShift
    (zip_with (λ '(LA0, LB0, a, b) '(_, table), (label delta LA0 a, label delta LB0 b, table)) gates garbled) se =
  zip_with (λ '(_, _, a, b) '(W0, _), label delta W0 (a && b)) gates garbled.
Proof.
  intros HBG HEG HBE HEE. revert g sg se.
  induction gates as [|[[[LA0 LB0] a] b] gates IH]; intros g sg se Hig Hsg Hag Hie Hse Hae Hg Hok Hd Hlsb; [done|].
  apply Forall_cons in Hok as [Hab Hok']. cbn in Hab. destruct Hab as [Ha Hb]. cbn [length] in Hg.
  destruct (half_gate_step vG256 vG512 vE256 vE512 BG BE S g sg se LA0 LB0 delta a b) as
    (W0 & table & sg' & se' & Hgar & Hev & ? & ? & ? & ? & ? & ?); [try done; lia..|].
  destruct (IH (g + 2)%N sg' se') as [Hlen Hall]; [try done; lia..|].
  cbn [fmap list_fmap compose fst snd garble_all]. rewrite Hgar. cbn [zip_with eval_all length].
  rewrite Hev. split; [by f_equal|]. f_equal. exact Hall.
Qed.
End lockstep.

(** ** Properties *)

(** C15: half gates.  A garbler and an evaluator that set the same start point
    and reuse shift, with any batch sizes and vector tilings, stay in step over
    any sequence of And gates: on the labels of [a] and [b] the evaluator opens
    every table to exactly the output label of [a && b], for every block cipher,
    global difference with low bit one, and input labels. *)
Theorem half_gates_correct vG256 vG512 vE256 vE512 aes BG BE ReuseShift S delta s0 s1
    (gates : list (block * block * bool * bool)) :
  (∀ k x, block_ok (aes k x)) →
  (2 ≤ BG)%nat → Nat.Even BG → (2 ≤ BE)%nat → Nat.Even BE →
  (2 * N.of_nat (length gates) + 2 * N.of_nat BG + 2 * N.of_nat BE < 2 ^ 64)%N →
  Forall (λ '(LA0, LB0, _, _), block_ok LA0 ∧ block_ok LB0) gates →
  block_ok delta → getLSB delta = true →
  let garbled := garble_all vG256 vG512 aes BG ReuseShift delta (fst ∘ fst <$> gates)
                   (MITCCRH.setS BG S s0) in
  length garbled = length gates ∧
  eval_all vE256 vE512 aes BE ReuseShift
    (zip_with (λ '(LA0, LB0, a, b) '(_, table), (label delta LA0 a, label delta LB0 b, table)) gates garbled)
    (MITCCRH.setS BE S s1) =
  zip_with (λ '(_, _, a, b) '(W0, _), label delta W0 (a && b)) gates garbled.
Proof.
  intros Haes HBG HEG HBE HEE Hg Hok Hd Hlsb.
  apply (garble_eval_all aes ReuseShift Haes vG256 vG512 vE256 vE512 BG BE S delta gates 0); try done.
  - apply MITCCRH.setS_inv.
  - apply aligned_setS.
  - apply MITCCRH.setS_inv.
  - apply aligned_setS.
Qed.

(** privacy-free garbling.  When the low bit of a label is its value, on the
    labels of [a] and [b] the evaluator obtains the output label of [a && b],
    and the low bit of that label is its value again. *)
Theorem privacy_free_correct aes LA0 LB0 delta idx key (a b : bool) :
  getLSB delta = true → getLSB LA0 = false →
  let '(W0, table) := privacy_free_garble aes LA0 (N.lxor LA0 delta) LB0 idx key in
  privacy_free_eval aes (label delta LA0 a) (label delta LB0 b) table idx key = label delta W0 (a && b) ∧
  getLSB (label delta W0 (a && b)) = a && b.
Proof.
  intros Hd HA. unfold privacy_free_garble, privacy_free_eval. cbv zeta.
  assert (∀ x, getLSB (clear_lsb x) = false) as Hclear.
  { intros x. rewrite getLSB_testbit. unfold clear_lsb. rewrite N.ldiff_spec. by rewrite andb_false_r. }
  split; [|rewrite getLSB_label, Hclear by done; by destruct a, b].
  rewrite getLSB_label, HA by done. destruct a, b; cbn [xorb andb label]; try done; xor_blocks.
Qed.
Lemma privacy_free_correct_witness :
  let aes k x := N.lxor k (N.shiftr x 1) in
  getLSB 9 = true ∧ getLSB 4 = false ∧
  (let '(W0, table) := privacy_free_garble aes 4 (N.lxor 4 9) 6 3 100 in
   privacy_free_eval aes (label 9 4 true) (label 9 6 true) table 3 100 = label 9 W0 (true && true) ∧
   getLSB (label 9 W0 (true && true)) = (true && true)).
Proof.
  split; [reflexivity|]. split; [reflexivity|].
  exact (privacy_free_correct (λ k x, N.lxor k (N.shiftr x 1)) 4 6 9 3 100 true true eq_refl eq_refl).
Defined.
(** Two gates, batches of 8 against batches of 4. *)
Lemma half_gates_correct_witness :
  let aes k x := N.lxor (N.land k (N.ones 128)) (N.land (N.shiftr x 1) (N.ones 128)) in
  let gates := [(10, 20, true, false); (33, 47, true, true)]%N in
  let garbled := garble_all true true aes 8 3 5 (fst ∘ fst <$> gates) (MITCCRH.setS 8 77 (MITCCRH.new 8 [] [] 0)) in
  length garbled = 2%nat ∧
  eval_all false false aes 4 3
    (zip_with (λ '(LA0, LB0, a, b) '(_, table), (label 5 LA0 a, label 5 LB0 b, table)) gates garbled)
    (MITCCRH.setS 4 77 (MITCCRH.new 4 [] [] 0)) =
  zip_with (λ '(_, _, a, b) '(W0, _), label 5 W0 (a && b)) gates garbled.
Proof.
  refine (half_gates_correct true true false false
    (λ k x, N.lxor (N.land k (N.ones 128)) (N.land (N.shiftr x 1) (N.ones 128))) 8 4 3 77 5
    (MITCCRH.new 8 [] [] 0) (MITCCRH.new 4 [] [] 0) [(10, 20, true, false); (33, 47, true, true)]%N
    _ _ _ _ _ _ _ _ _).
  - intros k x. apply lxor_block_ok; unfold block_ok; rewrite N.land_ones; by apply N.mod_lt.
  - lia.
  - by exists 4%nat.
  - lia.
  - by exists 2%nat.
  - reflexivity.
  - by repeat constructor.
  - reflexivity.
  - reflexivity.
Defined.
