(* ===== verification/Network.v ===== *)
(** * Batcher's sorting network

    [batcher_network] of circuits/sort.h: the sequence of compare-swap calls
    its four nested loops make, and the proof that it sorts any length.  The
    proof is by thresholds: an array of keys is sorted when, for every
    threshold, the array of "is at least the threshold" is, and the network
    commutes with thresholds; on arrays of booleans the loops merge sorted
    blocks of [p] into sorted blocks of [2 * p].

    Indices are below the length of a vector, so [p], [j + k] and [2 * p] never
    reach the width of [size_t]. *)

From S2P Require Import Prelude.

(** ** The loops *)
(** The body of the innermost loop: the swap, when both ends are in one block. *)
Definition swap_at (p k j i : nat) : list (nat * nat) :=
  if ((i + j) / (2 * p) =? (i + j + k) / (2 * p))%nat then [((i + j)%nat, (i + j + k)%nat)] else [].
Fixpoint i_loop (fuel n p k j i : nat) : list (nat * nat) :=
  match fuel with
  | 0 => []
  | S fuel =>
      if (i <? k)%nat && (i + j + k <? n)%nat
      then swap_at p k j i ++ i_loop fuel n p k j (S i) else []
  end.
Fixpoint j_loop (fuel n p k j : nat) : list (nat * nat) :=
  match fuel with
  | 0 => []
  | S fuel =>
      if (j + k <? n)%nat then i_loop k n p k j 0 ++ j_loop fuel n p k (j + 2 * k) else []
  end.
Fixpoint k_loop (fuel n p k : nat) : list (nat * nat) :=
  match fuel with
  | 0 => []
  | S fuel =>
      if (1 <=? k)%nat then j_loop n n p k (k mod p) ++ k_loop fuel n p (k / 2) else []
  end.
Fixpoint p_loop (fuel n p : nat) : list (nat * nat) :=
  match fuel with
  | 0 => []
  | S fuel => if (p <? n)%nat then k_loop (S p) n p p ++ p_loop fuel n (p * 2) else []
  end.
Definition batcher_network (n : nat) : list (nat * nat) := p_loop n n 1.

(** ** The fuel is enough: every loop leaves by its condition *)
Lemma i_loop_fuel n p k j : ∀ fuel fuel' i, (k - i ≤ fuel)%nat → (k - i ≤ fuel')%nat →
  i_loop fuel n p k j i = i_loop fuel' n p k j i.
Proof.
  induction fuel as [|fuel IH]; intros [|fuel'] i H H'; simpl; try done;
    try (rewrite (proj2 (Nat.ltb_ge i k)) by lia; done).
  case_match; [|done]. f_equal. apply IH; lia.
Qed.
Lemma j_loop_fuel n p k : (0 < k)%nat → ∀ fuel fuel' j, (n - j ≤ fuel)%nat → (n - j ≤ fuel')%nat →
  j_loop fuel n p k j = j_loop fuel' n p k j.
Proof.
  intros Hk. induction fuel as [|fuel IH]; intros [|fuel'] j H H'; simpl; try done;
    try (rewrite (proj2 (Nat.ltb_ge _ _)) by lia; done).
  case_match; [|done]. f_equal. apply IH; lia.
Qed.
Lemma k_loop_fuel n p : ∀ fuel fuel' k, (k ≤ fuel)%nat → (k ≤ fuel')%nat →
  k_loop fuel n p k = k_loop fuel' n p k.
Proof.
  induction fuel as [|fuel IH]; intros [|fuel'] k H H'; try done;
    try (replace k with 0%nat by lia; done).
  cbn [k_loop]. destruct (Nat.leb_spec 1 k); [|done]. f_equal.
  pose proof (Nat.div_lt k 2). apply IH; lia.
Qed.
Lemma p_loop_fuel n : ∀ fuel fuel' p, (0 < p)%nat → (n - p ≤ fuel)%nat → (n - p ≤ fuel')%nat →
  p_loop fuel n p = p_loop fuel' n p.
Proof.
  induction fuel as [|fuel IH]; intros [|fuel'] p Hp H H'; cbn [p_loop]; try done;
    try (rewrite (proj2 (Nat.ltb_ge _ _)) by lia; done).
  case_match; [|done]. f_equal. apply IH; lia.
Qed.

(** ** The swaps of one stage *)
Definition stage (n p k : nat) : list (nat * nat) := j_loop n n p k (k mod p).
Lemma i_loop_elem n p k j x y : ∀ fuel i, (k - i ≤ fuel)%nat →
  (x, y) ∈ i_loop fuel n p k j i ↔
  ∃ i', (i ≤ i' < k)%nat ∧ x = (i' + j)%nat ∧ y = (x + k)%nat ∧ (y < n)%nat ∧
        (x / (2 * p) = y / (2 * p))%nat.
Proof.
  induction fuel as [|fuel IH]; intros i Hf; cbn [i_loop].
  { split; [by intros ?%elem_of_nil|]. intros (i' & ? & _). lia. }
  destruct (Nat.ltb_spec i k), (Nat.ltb_spec (i + j + k) n); cbn [andb];
    try (split; [by intros ?%elem_of_nil|]; intros (i' & ? & ? & ? & ? & _); lia).
  rewrite elem_of_app, IH by lia. unfold swap_at. split.
  - intros [Hin|(i' & ? & H')]; [|exists i'; split; [lia|done]].
    destruct (Nat.eqb_spec ((i + j) / (2 * p)) ((i + j + k) / (2 * p))) as [Hb|];
      [|by apply elem_of_nil in Hin].
    apply list_elem_of_singleton in Hin. simplify_eq. exists i. repeat split; try lia.
  - intros (i' & Hi & -> & -> & Hn & Hb). destruct (decide (i' = i)) as [->|].
    + left. rewrite Hb, Nat.eqb_refl. by apply list_elem_of_singleton.
    + right. exists i'. repeat split; try lia.
Qed.
Lemma j_loop_elem n p k x y : (0 < k)%nat → ∀ fuel j, (n - j ≤ fuel)%nat →
  (x, y) ∈ j_loop fuel n p k j ↔
  ∃ m i, (i < k)%nat ∧ x = (i + j + 2 * k * m)%nat ∧ y = (x + k)%nat ∧ (y < n)%nat ∧
         (x / (2 * p) = y / (2 * p))%nat.
Proof.
  intros Hk. induction fuel as [|fuel IH]; intros j Hf; cbn [j_loop].
  { split; [by intros ?%elem_of_nil|]. intros (m & i & ?). nia. }
  destruct (Nat.ltb_spec (j + k) n) as [Hlt|Hge].
  2:{ split; [by intros ?%elem_of_nil|]. intros (m & i & ?). nia. }
  rewrite elem_of_app, i_loop_elem, IH by lia. split.
  - intros [(i & ? & -> & H)|(m & i & ? & -> & H)]; [exists 0%nat, i|exists (S m), i].
    + rewrite Nat.mul_0_r, Nat.add_0_r. split; [lia|]. by split; [|done].
    + split; [done|]. split; [nia|]. replace (i + j + 2 * k * S m)%nat
        with (i + (j + 2 * k) + 2 * k * m)%nat by nia. done.
  - intros ([|m] & i & ? & -> & H); [left; exists i|right; exists m, i].
    + rewrite Nat.mul_0_r, Nat.add_0_r in *. split; [lia|]. by split.
    + split; [done|]. split; [nia|]. by replace (i + (j + 2 * k) + 2 * k * m)%nat
        with (i + j + 2 * k * S m)%nat by nia.
Qed.
Lemma stage_starts n p k j fuel : (0 < k)%nat → (n - j ≤ fuel)%nat →
  NoDup (j_loop fuel n p k j).*1.
Proof.
  intros Hk. assert (∀ fuel i, (k - i ≤ fuel)%nat → ∀ j, NoDup (i_loop fuel n p k j i).*1) as Hin.
  { clear. induction fuel as [|fuel IH]; intros i Hf j; cbn [i_loop]; [constructor|].
    case_match eqn:Hc; [|constructor]. apply andb_true_iff in Hc as [Hc%Nat.ltb_lt _].
    rewrite fmap_app. apply NoDup_app.
    split; [unfold swap_at; case_match; [apply NoDup_singleton|constructor]|].
    split; [|apply IH; lia]. intros x Hx ([x' y] & -> & Hy)%list_elem_of_fmap.
    apply i_loop_elem in Hy as (i' & ? & -> & _); [|lia]. unfold swap_at in Hx.
    case_match; [|by apply elem_of_nil in Hx]. apply list_elem_of_singleton in Hx. simpl in Hx. lia. }
  revert j. induction fuel as [|fuel IH]; intros j Hf; cbn [j_loop]; [constructor|].
  case_match eqn:Hc; [|constructor]. apply Nat.ltb_lt in Hc.
  rewrite fmap_app. apply NoDup_app. split; [apply Hin; lia|]. split; [|apply IH; lia].
  intros x ([x1 y1] & -> & H1)%list_elem_of_fmap ([x2 y2] & Hx & H2)%list_elem_of_fmap.
  apply i_loop_elem in H1 as (i1 & ? & -> & _); [|lia].
  apply j_loop_elem in H2 as (m & i2 & ? & -> & _); [|lia..]. simpl in Hx. nia.
Qed.

(** ** Comparators on booleans: [false] is the smaller *)
Definition cmpf (f : nat → bool) (xy : nat * nat) : nat → bool := λ z,
  if (z =? xy.1)%nat then f xy.1 && f xy.2 else if (z =? xy.2)%nat then f xy.1 || f xy.2 else f z.

(** Comparators at distance [k] that share no end act all at once. *)
Lemma disjoint_fold (k : nat) (P : nat → Prop) U : (0 < k)%nat →
  NoDup U.*1 → (∀ x y, (x, y) ∈ U → y = (x + k)%nat ∧ P x ∧ ¬ P y) →
  ∀ f z, foldl cmpf f U z =
    if decide (z ∈ U.*1) then f z && f (z + k)%nat
    else if decide (k ≤ z ∧ (z - k)%nat ∈ U.*1)%nat then f (z - k)%nat || f z else f z.
Proof.
  intros Hk. induction U as [|[x y] U IH]; intros Hnd HU f z.
  { rewrite decide_False by apply not_elem_of_nil. rewrite decide_False; [done|].
    intros [_ ?%elem_of_nil]. done. }
  destruct (HU x y) as (-> & HPx & HPy); [by left|].
  rewrite fmap_cons in Hnd. cbn [fst] in Hnd. apply NoDup_cons in Hnd as [Hx Hnd].
  assert (∀ x', x' ∈ U.*1 → P x' ∧ ¬ P (x' + k)%nat) as HU1.
  { intros x' ([x1 y1] & -> & H1)%list_elem_of_fmap. destruct (HU x1 y1) as (-> & ?); [by right|done]. }
  assert (¬ (x + k)%nat ∈ U.*1) as Hxk by (intros ?%HU1; tauto).
  assert (∀ x', x' ∈ U.*1 → x' ≠ x ∧ x' ≠ (x + k)%nat ∧ (x' + k)%nat ≠ x ∧ (x' + k)%nat ≠ (x + k)%nat)
    as Hdis.
  { intros x' Hx'. pose proof (HU1 _ Hx') as [HP HN].
    assert (x' ≠ x) by (by intros ->). assert (x' ≠ x + k)%nat by (by intros ->).
    assert (x' + k ≠ x)%nat by (by intros Heq; rewrite Heq in HN). lia. }
  cbn [foldl]. rewrite IH; [|done|intros; apply HU; by right]. clear IH.
  assert (∀ w, w ≠ x → w ≠ (x + k)%nat → cmpf f (x, (x + k)%nat) w = f w) as Hkeep.
  { intros w H1 H2. unfold cmpf. simpl. by rewrite !(proj2 (Nat.eqb_neq _ _)). }
  rewrite fmap_cons. cbn [fst]. destruct (decide (z ∈ U.*1)) as [Hz|Hz].
  { pose proof (Hdis z Hz) as (?&?&?&?). rewrite !Hkeep by done.
    by rewrite decide_True by (apply elem_of_cons; by right). }
  destruct (decide (z = x)) as [->|Hzx].
  { rewrite (decide_False (P := (k ≤ x ∧ x - k ∈ U.*1)%nat)), (decide_True (P := x ∈ x :: U.*1))
      by (try (apply elem_of_cons; by left); intros [? Hin]; apply Hdis in Hin; lia).
    unfold cmpf. simpl. by rewrite Nat.eqb_refl. }
  rewrite (decide_False (P := z ∈ x :: U.*1)) by (rewrite elem_of_cons; tauto).
  destruct (decide (k ≤ z ∧ (z - k)%nat ∈ U.*1)%nat) as [[Hkz Hin]|Hn].
  { rewrite decide_True by (split; [done|apply elem_of_cons; by right]). pose proof (Hdis _ Hin).
    rewrite !Hkeep by lia. done. }
  destruct (decide (z = x + k)%nat) as [->|Hzk].
  { rewrite decide_True by (split; [lia|]; replace (x + k - k)%nat with x by lia; apply elem_of_cons; by left).
    unfold cmpf. simpl. rewrite Nat.eqb_refl, (proj2 (Nat.eqb_neq _ _)) by lia.
    by replace (x + k - k)%nat with x by lia. }
  rewrite decide_False; [by apply Hkeep|]. intros [? [?|?]%elem_of_cons]; [lia|tauto].
Qed.

(** ** One stage inside a block of [2 * p = 2 * (h * q)] elements
    Position [z] of block [t] is [2 * (h * q) * t + (h * m + c)]: column [c] of
    the rows of length [h].  The stage compares row [m] with row [m + 1], for
    every even [m] when [h = p] and every odd one otherwise. *)
Definition up (q m : nat) : bool :=
  (if (q =? 1)%nat then Nat.even m else Nat.odd m) && (m + 1 <? 2 * q)%nat.
Definition pos (h q t m c : nat) : nat := (2 * (h * q) * t + (h * m + c))%nat.
Lemma pos_block h q t m c : (0 < q)%nat → (c < h)%nat → (m < 2 * q)%nat →
  (pos h q t m c / (2 * (h * q)) = t)%nat.
Proof.
  intros Hq Hc Hm. unfold pos. symmetry. apply Nat.div_unique with (h * m + c)%nat; nia.
Qed.
Lemma pos_next_block h q t m c : (0 < q)%nat → (c < h)%nat → (m + 1 = 2 * q)%nat →
  ((pos h q t m c + h) / (2 * (h * q)) = t + 1)%nat.
Proof.
  intros Hq Hc Hm. unfold pos. symmetry. apply Nat.div_unique with c; nia.
Qed.
(** Which positions of the block start a comparator. *)
Lemma stage_start n h q t m c : (0 < q)%nat → (q = 1 ∨ Nat.even q = true)%nat → (c < h)%nat →
  (m < 2 * q)%nat →
  pos h q t m c ∈ (stage n (h * q) h).*1 ↔ up q m = true ∧ (pos h q t m c + h < n)%nat.
Proof.
  intros Hq Hqe Hc Hm. set (z := pos h q t m c). unfold stage.
  assert (h mod (h * q) = if (q =? 1)%nat then 0 else h)%nat as Hmod.
  { destruct (Nat.eqb_spec q 1) as [->|]; [by rewrite Nat.mul_1_r, Nat.Div0.mod_same|].
    apply Nat.mod_small. nia. }
  assert (z = h * (2 * q * t + m) + c)%nat as Hz by (subst z; unfold pos; nia).
  assert (z / (2 * (h * q)) = (z + h) / (2 * (h * q)) ↔ m + 1 < 2 * q)%nat as Hblk.
  { subst z. rewrite pos_block by done. destruct (decide (m + 1 < 2 * q)%nat) as [Hlt|Hge].
    - replace (pos h q t m c + h)%nat with (pos h q t (m + 1) c) by (unfold pos; nia).
      rewrite pos_block by lia. tauto.
    - rewrite pos_next_block by lia. lia. }
  assert (∀ A i B, (i < h)%nat → (h * A + c = h * B + i)%nat → A = B ∧ c = i) as Huniq.
  { intros A i B Hi Heq. by apply (Nat.div_mod_unique h) in Heq. }
  split.
  - intros ([x y] & Hx & Hin)%list_elem_of_fmap. simpl in Hx. subst x.
    apply j_loop_elem in Hin as (m' & i & Hi & Hzi & -> & Hn & Hb); [|lia..].
    split; [|done]. apply Hblk in Hb. unfold up. apply andb_true_iff.
    split; [|by apply Nat.ltb_lt]. rewrite Hmod in Hzi. rewrite Hz in Hzi.
    destruct (Nat.eqb_spec q 1) as [->|Hq1].
    + destruct (Huniq (2 * 1 * t + m)%nat i (2 * m')%nat Hi) as [HA _]; [lia|].
      apply Nat.even_spec. exists (m' - t)%nat. lia.
    + destruct (Huniq (2 * q * t + m)%nat i (2 * m' + 1)%nat Hi) as [HA _]; [nia|].
      apply Nat.odd_spec. exists (m' - q * t)%nat. nia.
  - intros [[Hpar Hlt%Nat.ltb_lt]%andb_true_iff Hn]. apply list_elem_of_fmap.
    exists (z, (z + h)%nat). split; [done|]. apply j_loop_elem; [lia..|].
    rewrite Hmod. destruct (Nat.eqb_spec q 1) as [->|Hq1].
    + apply Nat.even_spec in Hpar as [m' Hm']. exists (t + m')%nat, c.
      repeat split; [done|nia|done|by apply Hblk].
    + apply Nat.odd_spec in Hpar as [m' Hm']. exists (q * t + m')%nat, c.
      repeat split; [done|nia|done|by apply Hblk].
Qed.
(** Which positions end one. *)
Lemma stage_end n h q t m c : (0 < q)%nat → (q = 1 ∨ Nat.even q = true)%nat → (c < h)%nat →
  (m < 2 * q)%nat →
  (h ≤ pos h q t m c ∧ (pos h q t m c - h)%nat ∈ (stage n (h * q) h).*1)%nat ↔
  (∃ m', m = S m' ∧ up q m' = true ∧ pos h q t m c < n)%nat.
Proof.
  intros Hq Hqe Hc Hm. destruct m as [|m].
  - split; [|by intros (? & ? & _)]. intros [Hhz Hin].
    apply list_elem_of_fmap in Hin as ([x y] & Hx & Hin). simpl in Hx. subst x.
    apply j_loop_elem in Hin as (? & ? & ? & ? & -> & _ & Hb); [|lia..].
    replace (pos h q t 0 c - h + h)%nat with (pos h q t 0 c) in Hb by lia.
    rewrite pos_block in Hb by done.
    pose proof (Nat.Div0.mul_div_le (pos h q t 0 c - h) (2 * (h * q))) as Hle.
    rewrite Hb in Hle. unfold pos in *. nia.
  - assert (pos h q t (S m) c = pos h q t m c + h)%nat as Hz by (unfold pos; nia).
    rewrite Hz. replace (pos h q t m c + h - h)%nat with (pos h q t m c) by lia.
    rewrite stage_start by (done || lia). split.
    + intros [_ [Hup Hn]]. by exists m.
    + intros (m' & [= <-] & ? & ?). split; [lia|done].
Qed.
Lemma up_alternates q m : up q m = true → up q (S m) = true → False.
Proof.
  unfold up. case_match; rewrite ?Nat.even_succ, ?Nat.odd_succ, <- ?Nat.negb_even;
    by destruct (Nat.even m).
Qed.
Lemma stage_parity n h q : (0 < q)%nat → (q = 1 ∨ Nat.even q = true)%nat → (0 < h)%nat →
  ∀ x y, (x, y) ∈ stage n (h * q) h → y = (x + h)%nat ∧
    (if (q =? 1)%nat then Nat.even (x / h) else Nat.odd (x / h)) = true ∧
    ¬ (if (q =? 1)%nat then Nat.even (y / h) else Nat.odd (y / h)) = true.
Proof.
  intros Hq Hqe Hh x y Hin. apply j_loop_elem in Hin as (m & i & Hi & Hx & -> & _); [|lia..].
  split; [done|]. replace ((x + h) / h)%nat with (S (x / h)).
  2:{ replace (x + h)%nat with (x + 1 * h)%nat by lia. rewrite Nat.div_add by lia. lia. }
  rewrite Nat.even_succ, Nat.odd_succ, <- Nat.negb_even.
  destruct (Nat.eqb_spec q 1) as [->|Hq1].
  - rewrite Nat.mul_1_r, Nat.Div0.mod_same in Hx.
    rewrite <- (Nat.div_unique x h (2 * m) i) by lia. rewrite Nat.even_mul. simpl. done.
  - rewrite Nat.mod_small in Hx by nia.
    rewrite <- (Nat.div_unique x h (2 * m + 1) i) by lia. rewrite Nat.add_1_r, Nat.even_succ.
    rewrite Nat.odd_mul. done.
Qed.
(** The value at a position after the stage, for arrays that are [true] from
    [n] on. *)
Lemma stage_value n h q t m c f :
  (0 < q)%nat → (q = 1 ∨ Nat.even q = true)%nat → (c < h)%nat → (m < 2 * q)%nat →
  (∀ x, (n ≤ x)%nat → f x = true) →
  foldl cmpf f (stage n (h * q) h) (pos h q t m c) =
    if up q m then f (pos h q t m c) && f (pos h q t (m + 1) c)
    else match m with
         | S m' => if up q m' then f (pos h q t m' c) || f (pos h q t m c) else f (pos h q t m c)
         | 0 => f (pos h q t m c)
         end.
Proof.
  intros Hq Hqe Hc Hm Hbig.
  pose proof (stage_start n h q t m c Hq Hqe Hc Hm) as Hst.
  pose proof (stage_end n h q t m c Hq Hqe Hc Hm) as Hen. set (z := pos h q t m c) in *.
  assert (z + h = pos h q t (m + 1) c)%nat as Hzh by (subst z; unfold pos; nia).
  rewrite (disjoint_fold h (λ x, (if (q =? 1)%nat then Nat.even (x / h) else Nat.odd (x / h)) = true));
    [|lia|apply stage_starts; lia|apply stage_parity; [done..|lia]].
  rewrite <- Hzh. destruct (up q m) eqn:Hup.
  - rewrite (decide_False (P := (h ≤ z ∧ _)%nat)).
    + case_decide as Hd; [done|]. rewrite (Hbig (z + h)%nat), andb_true_r; [done|].
      destruct (decide (z + h < n)%nat); [by destruct Hd; apply Hst|lia].
    + intros (m' & -> & Hup' & _)%Hen. by eapply up_alternates.
  - rewrite (decide_False (P := z ∈ _)) by (intros [? _]%Hst; done).
    case_decide as Hd.
    + apply Hen in Hd as (m' & Hm' & Hup' & _).
      assert (z - h = pos h q t m' c)%nat as -> by (subst z; rewrite Hm'; unfold pos; nia).
      clearbody z. rewrite Hm'. by rewrite Hup'.
    + destruct m as [|m]; [done|]. destruct (up q m) eqn:Hup'; [|done].
      rewrite (Hbig z), orb_true_r; [done|].
      destruct (decide (z < n)%nat); [destruct Hd; apply Hen; eauto|lia].
Qed.

(** ** Merging two sorted blocks *)
(** How many of the positions below [a] are congruent to [c] modulo [k]. *)
Definition cl (a c k : nat) : nat := ((a + k - 1 - c) / k)%nat.
Lemma cl_split a c h : (c < h)%nat →
  (cl a c h = cl a c (2 * h) + cl a (c + h) (2 * h) ∧
   cl a (c + h) (2 * h) ≤ cl a c (2 * h) ≤ cl a (c + h) (2 * h) + 1)%nat.
Proof.
  intros Hc. unfold cl. set (y := (a + h - 1 - c)%nat).
  replace (a + 2 * h - 1 - (c + h))%nat with y by lia.
  replace (a + 2 * h - 1 - c)%nat with (y + h)%nat by lia.
  pose proof (Nat.div_mod_eq y (2 * h)) as Hy. pose proof (Nat.mod_upper_bound y (2 * h)).
  set (d := (y / (2 * h))%nat) in *. set (r := (y mod (2 * h))%nat) in *.
  destruct (Nat.lt_ge_cases r h).
  - rewrite <- (Nat.div_unique y h (2 * d) r) by lia.
    rewrite <- (Nat.div_unique (y + h) (2 * h) d (r + h)) by lia. lia.
  - rewrite <- (Nat.div_unique y h (2 * d + 1) (r - h)) by lia.
    rewrite <- (Nat.div_unique (y + h) (2 * h) (d + 1) (r - h)) by lia. lia.
Qed.
Lemma cl_le a c k q : (c < k)%nat → (a ≤ k * q)%nat → (cl a c k ≤ q)%nat.
Proof.
  intros Hc Ha. unfold cl. apply Nat.lt_succ_r. apply Nat.Div0.div_lt_upper_bound. nia.
Qed.
Lemma cl_whole a c p : (c < p)%nat → (a ≤ p)%nat → cl a c p = if (a <=? c)%nat then 0%nat else 1%nat.
Proof.
  intros Hc Ha. unfold cl. destruct (Nat.leb_spec a c).
  - apply Nat.div_small. lia.
  - symmetry. apply Nat.div_unique with (a - 1 - c)%nat; lia.
Qed.

(** Block [t] of size [2 * (h * q)], made of halves with [a] and [b] small
    elements: every column is sorted, and has its share of them. *)
Definition columns (h q t a b : nat) (f : nat → bool) : Prop := ∀ m c,
  (c < h)%nat → (m < 2 * q)%nat → f (pos h q t m c) = (cl a c h + cl b c h <=? m)%nat.
Definition block (p t a : nat) (f : nat → bool) : Prop :=
  (a ≤ p)%nat ∧ ∀ x, (x < p)%nat → f (p * t + x)%nat = (a <=? x)%nat.

Ltac leb_lia := repeat match goal with |- context [(?x <=? ?y)%nat] =>
  destruct (Nat.leb_spec x y) end; cbn [andb orb]; solve [done|exfalso; lia].
Lemma first_stage n p t a b f : (0 < p)%nat → (∀ x, (n ≤ x)%nat → f x = true) →
  block p (2 * t) a f → block p (2 * t + 1) b f →
  columns p 1 t a b (foldl cmpf f (stage n p p)).
Proof.
  intros Hp Hbig [Ha Hfa] [Hb Hfb] m c Hc Hm.
  rewrite <- (Nat.mul_1_r p) at 1. rewrite stage_value by (done || lia || by left).
  assert (f (pos p 1 t 0 c) = (a <=? c)%nat) as H0.
  { replace (pos p 1 t 0 c) with (p * (2 * t) + c)%nat by (unfold pos; lia). by apply Hfa. }
  assert (f (pos p 1 t 1 c) = (b <=? c)%nat) as H1.
  { replace (pos p 1 t 1 c) with (p * (2 * t + 1) + c)%nat by (unfold pos; lia). by apply Hfb. }
  rewrite !cl_whole by done. destruct m as [|[|m]]; [| |lia]; unfold up; simpl; rewrite H0, H1;
    by destruct (a <=? c)%nat, (b <=? c)%nat.
Qed.
Lemma merge_stage n h q t a b f : (0 < h)%nat → (0 < q)%nat →
  (∀ x, (n ≤ x)%nat → f x = true) → (a ≤ 2 * h * q)%nat → (b ≤ 2 * h * q)%nat →
  columns (2 * h) q t a b f → columns h (2 * q) t a b (foldl cmpf f (stage n (2 * h * q) h)).
Proof.
  intros Hh Hq Hbig Ha Hb Hcol m c Hc Hm.
  replace (2 * h * q)%nat with (h * (2 * q))%nat by lia.
  rewrite stage_value; [|lia|right; by rewrite Nat.even_mul|done..].
  assert (∀ u, (u < 2 * q)%nat → f (pos h (2 * q) t (2 * u) c)
            = (cl a c (2 * h) + cl b c (2 * h) <=? u)%nat) as Heven.
  { intros u Hu. rewrite <- Hcol by lia. f_equal. unfold pos. nia. }
  assert (∀ u, (u < 2 * q)%nat → f (pos h (2 * q) t (2 * u + 1) c)
            = (cl a (c + h) (2 * h) + cl b (c + h) (2 * h) <=? u)%nat) as Hodd.
  { intros u Hu. rewrite <- Hcol by lia. f_equal. unfold pos. nia. }
  destruct (cl_split a c h Hc) as [-> ?], (cl_split b c h Hc) as [-> ?].
  pose proof (cl_le a c (2 * h) q). pose proof (cl_le b c (2 * h) q).
  unfold up. rewrite (proj2 (Nat.eqb_neq (2 * q) 1)) by lia.
  assert (Nat.odd (2 * q) = false ∧ ∀ u, Nat.odd (2 * u) = false ∧ Nat.odd (2 * u + 1) = true)
    as [_ Hpar].
  { split; [by rewrite Nat.odd_mul|]. intros u. by rewrite Nat.add_1_r, Nat.odd_succ, Nat.even_mul, Nat.odd_mul. }
  destruct (Nat.Even_or_Odd m) as [[[|u] ->]|[u ->]].
  - rewrite (proj1 (Hpar 0%nat)), Heven by lia. change (2 * 0)%nat with 0%nat. cbn [andb]. leb_lia.
  - rewrite (proj1 (Hpar _)), Heven by lia. cbn [andb].
    replace (2 * S u)%nat with (S (2 * u + 1)) by lia.
    rewrite (proj2 (Hpar u)), Hodd, (proj2 (Nat.ltb_lt _ _)) by lia. cbn [andb]. leb_lia.
  - rewrite (proj2 (Hpar u)), Hodd by lia. cbn [andb].
    replace (2 * u + 1 + 1)%nat with (2 * (u + 1))%nat by lia.
    destruct (Nat.ltb_spec (2 * (u + 1)) (2 * (2 * q))).
    + rewrite Heven by lia. leb_lia.
    + rewrite Nat.add_1_r, (proj1 (Hpar u)). cbn [andb]. leb_lia.
Qed.

(** ** The loops sort arrays of booleans *)
Definition in_bounds (n : nat) (U : list (nat * nat)) : Prop := Forall (λ xy, xy.1 < xy.2 < n)%nat U.
Lemma foldl_bounds n U f z : in_bounds n U → (n ≤ z)%nat → foldl cmpf f U z = f z.
Proof.
  intros HU Hz. revert f. induction HU as [|[x y] U [] HU IH]; intros f; [done|].
  cbn [foldl]. rewrite IH. unfold cmpf. simpl in *. by rewrite !(proj2 (Nat.eqb_neq _ _)) by lia.
Qed.
Lemma stage_bounds n p k fuel j : (0 < k)%nat → (n - j ≤ fuel)%nat → in_bounds n (j_loop fuel n p k j).
Proof.
  intros Hk Hf. apply Forall_forall. intros [x y] (m & i & ? & _ & -> & ? & _)%j_loop_elem; simpl; lia.
Qed.
Lemma k_loop_bounds n p : ∀ fuel k, in_bounds n (k_loop fuel n p k).
Proof.
  induction fuel as [|fuel IH]; intros k; cbn [k_loop]; [constructor|].
  destruct (Nat.leb_spec 1 k); [|constructor]. apply Forall_app. split; [|apply IH].
  apply stage_bounds; lia.
Qed.
Lemma p_loop_bounds n : ∀ fuel p, in_bounds n (p_loop fuel n p).
Proof.
  induction fuel as [|fuel IH]; intros p; cbn [p_loop]; [constructor|].
  case_match; [|constructor]. apply Forall_app. split; [apply k_loop_bounds|apply IH].
Qed.

Lemma k_rest n p t a b : (a ≤ p)%nat → (b ≤ p)%nat → ∀ i q fuel f,
  p = (2 ^ i * q)%nat → (0 < q)%nat → (2 ^ i / 2 ≤ fuel)%nat →
  (∀ x, (n ≤ x)%nat → f x = true) → columns (2 ^ i) q t a b f →
  columns 1 p t a b (foldl cmpf f (k_loop fuel n p (2 ^ i / 2))).
Proof.
  intros Ha Hb. induction i as [|i IH]; intros q fuel f Hp Hq Hfuel Hbig Hcol.
  { change (2 ^ 0 / 2)%nat with 0%nat. replace p with q by (simpl in Hp; lia). by destruct fuel. }
  pose proof (Nat.pow_nonzero 2 i) as Hpos.
  assert (2 ^ S i / 2 = 2 ^ i)%nat as Hhalf.
  { rewrite Nat.pow_succ_r', Nat.mul_comm. by apply Nat.div_mul. }
  rewrite Hhalf in *. destruct fuel as [|fuel]; [lia|]. cbn [k_loop].
  rewrite (proj2 (Nat.leb_le 1 (2 ^ i))) by lia. rewrite foldl_app.
  rewrite Nat.pow_succ_r' in Hp, Hcol.
  apply (IH (2 * q)%nat); [lia|lia| |intros x Hx; rewrite (foldl_bounds n) by (done || apply stage_bounds; lia); by apply Hbig|].
  - pose proof (Nat.div_lt (2 ^ i) 2). lia.
  - subst p. apply merge_stage; [lia|done..].
Qed.
Lemma merge_blocks n e f t : (∀ x, (n ≤ x)%nat → f x = true) →
  (∀ t, ∃ a, block (2 ^ e) t a f) →
  ∃ a, block (2 ^ e * 2) t a (foldl cmpf f (k_loop (S (2 ^ e)) n (2 ^ e) (2 ^ e))).
Proof.
  intros Hbig Hblk. set (p := (2 ^ e)%nat) in *.
  assert (0 < p)%nat as Hp by (pose proof (Nat.pow_nonzero 2 e); lia).
  destruct (Hblk (2 * t)%nat) as [a Ha], (Hblk (2 * t + 1)%nat) as [b Hb].
  cbn [k_loop]. rewrite (proj2 (Nat.leb_le 1 p)) by lia. rewrite foldl_app.
  assert (columns 1 p t a b (foldl cmpf (foldl cmpf f (stage n p p)) (k_loop p n p (2 ^ e / 2))))
    as Hcol.
  { apply (k_rest n p t a b) with (q := 1%nat); [apply Ha|apply Hb|lia|lia| | |].
    - fold p. apply Nat.Div0.div_le_upper_bound. lia.
    - intros x Hx. rewrite (foldl_bounds n) by (done || apply stage_bounds; lia). by apply Hbig.
    - by apply first_stage. }
  exists (a + b)%nat. destruct Ha as [Ha _], Hb as [Hb _]. split; [lia|]. intros x Hx.
  specialize (Hcol x 0%nat). unfold cl, pos in Hcol. rewrite !Nat.div_1_r in Hcol.
  fold p in Hcol. rewrite !Nat.mul_1_l, !Nat.add_0_r in Hcol.
  replace (p * 2 * t)%nat with (2 * p * t)%nat by lia. unfold stage in Hcol. rewrite Hcol by lia.
  f_equal. lia.
Qed.
Lemma p_loop_sorts n : ∀ fuel e f, (n - 2 ^ e ≤ fuel)%nat →
  (∀ x, (n ≤ x)%nat → f x = true) → (∀ t, ∃ a, block (2 ^ e) t a f) →
  ∃ a, ∀ x, (x < n)%nat → foldl cmpf f (p_loop fuel n (2 ^ e)) x = (a <=? x)%nat.
Proof.
  induction fuel as [|fuel IH]; intros e f Hf Hbig Hblk; cbn [p_loop];
    pose proof (Nat.pow_nonzero 2 e).
  - destruct (Hblk 0%nat) as (a & _ & Ha). exists a. intros x Hx.
    rewrite Nat.mul_0_r in Ha. apply Ha. lia.
  - destruct (Nat.ltb_spec (2 ^ e) n).
    + rewrite foldl_app. rewrite Nat.mul_comm, <- Nat.pow_succ_r'.
      apply IH; [rewrite Nat.pow_succ_r'; lia| |].
      * intros x Hx. rewrite (foldl_bounds n) by (done || apply k_loop_bounds). by apply Hbig.
      * intros t. rewrite Nat.pow_succ_r', Nat.mul_comm. by apply merge_blocks.
    + destruct (Hblk 0%nat) as (a & _ & Ha). exists a. intros x Hx.
      rewrite Nat.mul_0_r in Ha. apply Ha. lia.
Qed.
Lemma network_sorts_bools n f : (∀ x, (n ≤ x)%nat → f x = true) →
  ∃ a, ∀ x, (x < n)%nat → foldl cmpf f (batcher_network n) x = (a <=? x)%nat.
Proof.
  intros Hbig. apply (p_loop_sorts n n 0); [simpl; lia|done|]. intros t.
  exists (if f t then 0 else 1)%nat. split; [destruct (f t); simpl; lia|]. intros x Hx. simpl in Hx.
  replace (2 ^ 0 * t + x)%nat with t by (simpl; lia). replace x with 0%nat by lia. by destruct (f t).
Qed.

(** ** And any array with keys *)
Section lists.
Context {A : Type} (key : A → Z).
(** One compare-swap on a vector. *)
Definition cmp_swap (v : list A) (xy : nat * nat) : list A :=
  match v !! xy.1, v !! xy.2 with
  | Some a, Some b => if (key b <? key a)%Z then <[xy.2 := a]> (<[xy.1 := b]> v) else v
  | _, _ => v
  end.
Definition at_least (t : Z) (v : list A) : nat → bool := λ x,
  match v !! x with Some a => (t <=? key a)%Z | None => true end.

Lemma cmp_swap_length v xy : length (cmp_swap v xy) = length v.
Proof. unfold cmp_swap. repeat case_match; by rewrite ?length_insert. Qed.
Lemma cmp_swap_perm v xy : cmp_swap v xy ≡ₚ v.
Proof.
  unfold cmp_swap. destruct xy as [x y]. simpl.
  destruct (v !! x) as [a|] eqn:Hx; [|done]. destruct (v !! y) as [b|] eqn:Hy; [|done].
  destruct (key b <? key a)%Z; [|done].
  pose proof (lookup_lt_Some _ _ _ Hx) as Hxl. pose proof (lookup_lt_Some _ _ _ Hy) as Hyl.
  apply Permutation_inj. split; [by rewrite !length_insert|].
  exists (λ i, if decide (i = x) then y else if decide (i = y) then x else i). split.
  - intros i j. repeat case_decide; congruence.
  - intros i. destruct (decide (i = y)) as [->|Hiy].
    + rewrite list_lookup_insert_eq by (by rewrite length_insert).
      case_decide; [congruence|]. by rewrite Hx.
    + rewrite list_lookup_insert_ne by done. case_decide; [subst|by rewrite list_lookup_insert_ne].
      by rewrite list_lookup_insert_eq, Hy.
Qed.
Lemma at_least_cmp t v x y z : (x < y < length v)%nat →
  at_least t (cmp_swap v (x, y)) z = cmpf (at_least t v) (x, y) z.
Proof.
  intros [Hxy Hy]. destruct (lookup_lt_is_Some_2 v x) as [a Ha]; [lia|].
  destruct (lookup_lt_is_Some_2 v y Hy) as [b Hb]. unfold cmp_swap, cmpf, at_least. simpl.
  rewrite Ha, Hb. destruct (Z.ltb_spec (key b) (key a)).
  - destruct (Nat.eqb_spec z x) as [->|Hzx].
    { rewrite list_lookup_insert_ne, list_lookup_insert_eq by lia.
      destruct (Z.leb_spec t (key a)), (Z.leb_spec t (key b)); try done; lia. }
    destruct (Nat.eqb_spec z y) as [->|Hzy].
    { rewrite list_lookup_insert_eq by (rewrite length_insert; lia).
      destruct (Z.leb_spec t (key a)), (Z.leb_spec t (key b)); try done; lia. }
    by rewrite !list_lookup_insert_ne by done.
  - destruct (Nat.eqb_spec z x) as [->|Hzx]; [|destruct (Nat.eqb_spec z y) as [->|Hzy]; [|done]];
      rewrite ?Ha, ?Hb; destruct (Z.leb_spec t (key a)), (Z.leb_spec t (key b)); try done; lia.
Qed.
Lemma cmpf_ext f g xy : (∀ z, f z = g z) → ∀ z, cmpf f xy z = cmpf g xy z.
Proof. intros H z. unfold cmpf. by rewrite !H. Qed.
Lemma foldl_cmpf_ext U : ∀ f g, (∀ z, f z = g z) → ∀ z, foldl cmpf f U z = foldl cmpf g U z.
Proof. induction U as [|xy U IH]; intros f g H z; [done|]. apply IH. by apply cmpf_ext. Qed.
Lemma at_least_foldl t U : ∀ v z, in_bounds (length v) U →
  at_least t (foldl cmp_swap v U) z = foldl cmpf (at_least t v) U z.
Proof.
  induction U as [|[x y] U IH]; intros v z HU; [done|]. apply Forall_cons in HU as [Hxy HU].
  cbn [foldl]. rewrite IH by (by rewrite cmp_swap_length). apply foldl_cmpf_ext.
  intros w. by apply at_least_cmp.
Qed.
Lemma foldl_cmp_perm U : ∀ v, foldl cmp_swap v U ≡ₚ v.
Proof. induction U as [|xy U IH]; intros v; [done|]. cbn [foldl]. by rewrite IH, cmp_swap_perm. Qed.

Definition sorted_by (v : list A) : Prop := ∀ i j x y,
  (i ≤ j)%nat → v !! i = Some x → v !! j = Some y → (key x ≤ key y)%Z.
Lemma network_sorts v :
  let v' := foldl cmp_swap v (batcher_network (length v)) in v' ≡ₚ v ∧ sorted_by v'.
Proof.
  split; [apply foldl_cmp_perm|]. set (v' := foldl _ _ _). intros i j x y Hij Hx Hy.
  assert (length v' = length v) as Hlen by (apply Permutation_length, foldl_cmp_perm).
  pose proof (lookup_lt_Some _ _ _ Hx) as Hi. pose proof (lookup_lt_Some _ _ _ Hy) as Hj.
  destruct (network_sorts_bools (length v) (at_least (key x) v)) as [a Ha].
  { intros z Hz. unfold at_least. by rewrite lookup_ge_None_2. }
  assert (∀ z, (z < length v)%nat → at_least (key x) v' z = (a <=? z)%nat) as Hal.
  { intros z Hz. rewrite <- Ha by done. apply at_least_foldl, p_loop_bounds. }
  pose proof (Hal i) as H1. pose proof (Hal j) as H2. unfold at_least in H1, H2.
  rewrite Hx, Hlen in *. rewrite Hy in H2. rewrite Z.leb_refl in H1.
  specialize (H1 ltac:(lia)). specialize (H2 ltac:(lia)).
  symmetry in H1. apply Nat.leb_le in H1. rewrite (proj2 (Nat.leb_le a j)) in H2 by lia.
  by apply Z.leb_le.
Qed.
End lists.
