(* ===== verification/Sort.v ===== *)
(** * Data-oblivious sorting

    circuits/sort.h over the kernel language: [compare_swap] and its key-payload
    form, [sort] and [sort_by_key] over vectors and over arrays.  The element
    type is a template parameter of the source, which uses its [operator<] and
    [select] only: the classes [Selectable] and [SortKey] state what the code
    relies on, and the value types of [UInt] and [SInt] are instances. *)

From S2P Require Import Prelude Program Validate Context Execute Kernel Bits NumericKernels UInt SInt Words Network.

(** ** The code *)
Definition less_kernel : Type := ∀ W, list W → list W → Kernel W W.
Definition select_kernel : Type := ∀ W, list W → W → list W → Kernel W (list W).

Section code.
Context {W : Type}.
#[local] Abbreviation word := (list W).
Definition out_of_order (lt : less_kernel) (a b : word) (ascending : bool) : Kernel W W :=
  if ascending then lt W b a else lt W a b.
Definition compare_swap (lt : less_kernel) (sel : select_kernel) (a b : word) (ascending : bool) :
    Kernel W (word * word) :=
  o ← out_of_order lt a b ascending; lo ← sel W a o b; hi ← sel W b o a; mret (lo, hi).
Definition compare_swap_data (lt : less_kernel) (selK selP : select_kernel)
    (ka kb pa pb : word) (ascending : bool) : Kernel W ((word * word) * (word * word)) :=
  o ← out_of_order lt ka kb ascending;
  nka ← selK W ka o kb; nkb ← selK W kb o ka;
  npa ← selP W pa o pb; npb ← selP W pb o pa;
  mret ((nka, nkb), (npa, npb)).

(** [a] and [b] are references into the vector: [a = lo; b = hi]. *)
Definition put2 (v : list word) (i j : nat) (lohi : word * word) : list word :=
  <[j := lohi.2]> (<[i := lohi.1]> v).
Definition swap_keys (lt : less_kernel) (sel : select_kernel) (ascending : bool)
    (v : list word) (ij : nat * nat) : Kernel W (list word) :=
  a ← kget v ij.1; b ← kget v ij.2;
  r ← compare_swap lt sel a b ascending; mret (put2 v ij.1 ij.2 r).
Definition sort (lt : less_kernel) (sel : select_kernel) (v : list word) (ascending : bool) :
    Kernel W (list word) :=
  kfold (swap_keys lt sel ascending) v (batcher_network (length v)).
(** The first [n] elements of an array, through a copy. *)
Definition sort_array (lt : less_kernel) (sel : select_kernel) (a : list word) (n : nat)
    (ascending : bool) : Kernel W (list word) :=
  v ← sort lt sel (take n a) ascending; mret (v ++ drop n a).

Definition swap_data (lt : less_kernel) (selK selP : select_kernel) (ascending : bool)
    (kd : list word * list word) (ij : nat * nat) : Kernel W (list word * list word) :=
  ka ← kget kd.1 ij.1; kb ← kget kd.1 ij.2; pa ← kget kd.2 ij.1; pb ← kget kd.2 ij.2;
  r ← compare_swap_data lt selK selP ka kb pa pb ascending;
  mret (put2 kd.1 ij.1 ij.2 r.1, put2 kd.2 ij.1 ij.2 r.2).
Definition sort_by_key (lt : less_kernel) (selK selP : select_kernel) (keys data : list word)
    (ascending : bool) : Kernel W (list word * list word) :=
  kexpect (length keys =? length data)%nat "sort_by_key: keys and data must have equal length";;
  kfold (swap_data lt selK selP ascending) (keys, data) (batcher_network (length keys)).
Definition sort_by_key_array (lt : less_kernel) (selK selP : select_kernel)
    (keys data : list word) (n : nat) (ascending : bool) : Kernel W (list word * list word) :=
  r ← sort_by_key lt selK selP (take n keys) (take n data) ascending;
  mret (r.1 ++ drop n keys, r.2 ++ drop n data).
End code.

(** ** What the code relies on *)
Class Selectable (n : nat) (sel : select_kernel) : Prop := {
  select_param W1 W2 (R : wrel W1 W2) a1 a2 s1 s2 b1 b2 :
    Forall2 R a1 a2 → R s1 s2 → Forall2 R b1 b2 → krel RL R (sel W1 a1 s1 b1) (sel W2 a2 s2 b2);
  select_law (a : list bool) (s : bool) (b : list bool) : length a = n → length b = n →
    keval (sel bool a s b) = Ret (if s then b else a) }.
Class SortKey (n : nat) (lt : less_kernel) (key : list bool → Z) : Prop := {
  less_param W1 W2 (R : wrel W1 W2) a1 a2 b1 b2 :
    Forall2 R a1 a2 → Forall2 R b1 b2 → krel RW R (lt W1 a1 b1) (lt W2 a2 b2);
  less_law (a b : list bool) : length a = n → length b = n →
    keval (lt bool a b) = Ret (key a <? key b)%Z }.

Definition uint_key (a : list bool) : Z := Z.of_N (bval a).
#[export] Instance uint_selectable n : Selectable n (@UInt.select).
Proof. split; [intros; by apply krel_select|]. intros a s b <- Hb. by apply select_ok. Qed.
#[export] Instance sint_selectable n : Selectable n (@SInt.select).
Proof. split; [intros; by apply krel_sselect|]. intros a s b <- Hb. by apply sselect_ok. Qed.
#[export] Instance uint_sort_key n : SortKey (S n) (@UInt.ltb) uint_key.
Proof.
  split; [intros; by apply krel_ltb|]. intros a b Ha Hb. unfold UInt.ltb.
  rewrite keval_guard, keval_less_than by (congruence || by destruct a). f_equal.
  unfold uint_key. destruct (N.ltb_spec (bval a) (bval b)), (Z.ltb_spec (Z.of_N (bval a)) (Z.of_N (bval b)));
    try done; lia.
Qed.
#[export] Instance sint_sort_key n : SortKey (S n) (@SInt.ltb) sval.
Proof.
  split; [intros; by apply krel_sltb|]. intros a b Ha Hb.
  apply sltb_ok; [congruence|by destruct a].
Qed.

(** The order of the result: by the key, or by its opposite. *)
Definition directed (ascending : bool) {A} (key : A → Z) (a : A) : Z :=
  if ascending then key a else (- key a)%Z.

(** ** Parametricity *)
Section param.
Context {n : nat} {lt : less_kernel} {key : list bool → Z} `{!SortKey n lt key}.
Context {sel : select_kernel} `{!Selectable n sel}.
Context {m : nat} {selP : select_kernel} `{!Selectable m selP}.
Context {W1 W2 : Type}.
Implicit Types (R : wrel W1 W2).

Lemma krel_out_of_order R a1 a2 b1 b2 asc : Forall2 R a1 a2 → Forall2 R b1 b2 →
  krel RW R (out_of_order lt a1 b1 asc) (out_of_order lt a2 b2 asc).
Proof. intros. unfold out_of_order. destruct asc; by apply (less_param (lt := lt)). Qed.
Lemma krel_sel_key R a1 a2 s1 s2 b1 b2 : Forall2 R a1 a2 → R s1 s2 → Forall2 R b1 b2 →
  krel RL R (sel W1 a1 s1 b1) (sel W2 a2 s2 b2).
Proof. apply select_param. Qed.
Lemma krel_sel_data R a1 a2 s1 s2 b1 b2 : Forall2 R a1 a2 → R s1 s2 → Forall2 R b1 b2 →
  krel RL R (selP W1 a1 s1 b1) (selP W2 a2 s2 b2).
Proof. apply select_param. Qed.
Hint Resolve krel_out_of_order krel_sel_key krel_sel_data : kparam.
Lemma put2_rel R v1 v2 i j (r1 : list W1 * list W1) r2 : RLL R v1 v2 → RPair RL RL R r1 r2 →
  RLL R (put2 v1 i j r1) (put2 v2 i j r2).
Proof. intros Hv [? ?]. by do 2 (apply Forall2_insert; [|done]). Qed.
Lemma krel_swap_keys R v1 v2 ij asc : RLL R v1 v2 →
  krel RLL R (swap_keys lt sel asc v1 ij) (swap_keys lt sel asc v2 ij).
Proof.
  intros Hv. unfold swap_keys, compare_swap. kcalls. eapply (krel_bind (RPair RL RL)).
  - kcalls. by constructor.
  - intros R' r1 r2 Hs Hr. kmono2. constructor. by apply put2_rel.
Qed.
Lemma krel_sort R v1 v2 asc : RLL R v1 v2 → krel RLL R (sort lt sel v1 asc) (sort lt sel v2 asc).
Proof.
  intros Hv. unfold sort. rewrite (Forall2_length _ _ _ Hv).
  apply (krel_kfold REq RLL); [done|by apply Forall2_eq_refl|].
  intros R' u1 u2 x y _ Hu Hxy. unfold REq in Hxy. subst. by apply krel_swap_keys.
Qed.
Lemma krel_swap_data R kd1 kd2 ij asc : RPair RLL RLL R kd1 kd2 →
  krel (RPair RLL RLL) R (swap_data lt sel selP asc kd1 ij) (swap_data lt sel selP asc kd2 ij).
Proof.
  intros [Hk Hd]. unfold swap_data, compare_swap_data. kcalls.
  eapply (krel_bind (RPair (RPair RL RL) (RPair RL RL))).
  - kcalls. by repeat constructor.
  - intros R' r1 r2 Hs [Hr1 Hr2]. kmono2. constructor. split; by apply put2_rel.
Qed.
Lemma krel_sort_by_key R k1 k2 d1 d2 asc : RLL R k1 k2 → RLL R d1 d2 →
  krel (RPair RLL RLL) R (sort_by_key lt sel selP k1 d1 asc) (sort_by_key lt sel selP k2 d2 asc).
Proof.
  intros Hk Hd. unfold sort_by_key.
  rewrite (Forall2_length _ _ _ Hk), (Forall2_length _ _ _ Hd). kcalls.
  apply (krel_kfold REq (RPair RLL RLL)); [done|by apply Forall2_eq_refl|].
  intros R' u1 u2 x y _ Hu Hxy. unfold REq in Hxy. subst. by apply krel_swap_data.
Qed.
End param.

(** ** Evaluation *)
Section eval.
Context {n : nat} {lt : less_kernel} {key : list bool → Z} `{!SortKey n lt key}.
Context {sel : select_kernel} `{!Selectable n sel}.
Context {m : nat} {selP : select_kernel} `{!Selectable m selP}.
Implicit Types (asc : bool).

Lemma keval_out_of_order a b asc : length a = n → length b = n →
  keval (out_of_order lt a b asc) = Ret (directed asc key b <? directed asc key a)%Z.
Proof.
  intros Ha Hb. unfold out_of_order, directed. destruct asc; rewrite less_law by done; [done|].
  f_equal. destruct (Z.ltb_spec (key a) (key b)), (Z.ltb_spec (- key b) (- key a)); try done; lia.
Qed.
Lemma keval_select_key a o b : length a = n → length b = n →
  keval (sel bool a o b) = Ret (if o then b else a).
Proof. apply select_law. Qed.
Lemma keval_select_data a o b : length a = m → length b = m →
  keval (selP bool a o b) = Ret (if o then b else a).
Proof. apply select_law. Qed.
Lemma put2_choose (v : list (list bool)) i j a b (o : bool) : v !! i = Some a → v !! j = Some b →
  put2 v i j (if o then b else a, if o then a else b) = if o then <[j := a]> (<[i := b]> v) else v.
Proof.
  intros Hi Hj. unfold put2. simpl. destruct o; [done|].
  rewrite (list_insert_id v i) by done. by apply list_insert_id.
Qed.

Lemma keval_swap_keys asc v i j : Forall (λ x, length x = n) v → (i < j < length v)%nat →
  keval (swap_keys lt sel asc v (i, j)) = Ret (cmp_swap (directed asc key) v (i, j)).
Proof.
  intros Hv [Hij Hj]. destruct (lookup_lt_is_Some_2 v i) as [a Ha]; [lia|].
  destruct (lookup_lt_is_Some_2 v j Hj) as [b Hb].
  pose proof (proj1 (Forall_lookup _ _) Hv _ _ Ha) as Hla.
  pose proof (proj1 (Forall_lookup _ _) Hv _ _ Hb) as Hlb. cbn beta in Hla, Hlb.
  unfold swap_keys, compare_swap, cmp_swap. cbn [fst snd]. rewrite Ha, Hb.
  rewrite keval_bind, (keval_kget _ _ _ Ha). cbn [mbind outcome_bind].
  rewrite keval_bind, (keval_kget _ _ _ Hb). cbn [mbind outcome_bind].
  rewrite !keval_bind, keval_out_of_order by done. cbn [mbind outcome_bind].
  rewrite keval_bind, keval_select_key by done. cbn [mbind outcome_bind].
  rewrite keval_bind, keval_select_key by done. cbn [mbind outcome_bind].
  cbn [mret Kernel_ret keval mbind outcome_bind]. by rewrite put2_choose.
Qed.
Lemma keval_swaps asc U : ∀ v, Forall (λ x, length x = n) v → in_bounds (length v) U →
  keval (kfold (swap_keys lt sel asc) v U) = Ret (foldl (cmp_swap (directed asc key)) v U).
Proof.
  induction U as [|[i j] U IH]; intros v Hv HU; [done|]. apply Forall_cons in HU as [Hij HU].
  cbn [kfold foldl]. rewrite keval_bind, keval_swap_keys by done. cbn [mbind outcome_bind].
  apply IH; [by rewrite cmp_swap_perm|by rewrite cmp_swap_length].
Qed.
Lemma keval_sort v asc : Forall (λ x, length x = n) v →
  ∃ v', keval (sort lt sel v asc) = Ret v' ∧ v' ≡ₚ v ∧ sorted_by (directed asc key) v'.
Proof.
  intros Hv. eexists. split; [apply keval_swaps; [done|apply p_loop_bounds]|].
  apply network_sorts.
Qed.

(** With the data carried along: the state as a list of pairs. *)
Definition ok_pair (kp : list bool * list bool) : Prop := length kp.1 = n ∧ length kp.2 = m.
Definition pair_key asc (kp : list bool * list bool) : Z := directed asc key kp.1.
Lemma keval_swap_data asc v i j : Forall ok_pair v → (i < j < length v)%nat →
  keval (swap_data lt sel selP asc (v.*1, v.*2) (i, j)) =
  Ret ((cmp_swap (pair_key asc) v (i, j)).*1, (cmp_swap (pair_key asc) v (i, j)).*2).
Proof.
  intros Hv [Hij Hj]. destruct (lookup_lt_is_Some_2 v i) as [[ka pa] Ha]; [lia|].
  destruct (lookup_lt_is_Some_2 v j Hj) as [[kb pb] Hb].
  pose proof (proj1 (Forall_lookup _ _) Hv _ _ Ha) as [Hka Hpa].
  pose proof (proj1 (Forall_lookup _ _) Hv _ _ Hb) as [Hkb Hpb]. simpl in Hka, Hpa, Hkb, Hpb.
  assert (∀ w x y, v !! w = Some (x, y) → v.*1 !! w = Some x ∧ v.*2 !! w = Some y) as Hproj.
  { intros w x y Hw. by rewrite !list_lookup_fmap, Hw. }
  destruct (Hproj _ _ _ Ha) as [Hka' Hpa'], (Hproj _ _ _ Hb) as [Hkb' Hpb'].
  unfold swap_data, compare_swap_data, cmp_swap. cbn [fst snd]. rewrite Ha, Hb.
  rewrite keval_bind, (keval_kget _ _ _ Hka'). cbn [mbind outcome_bind].
  rewrite keval_bind, (keval_kget _ _ _ Hkb'). cbn [mbind outcome_bind].
  rewrite keval_bind, (keval_kget _ _ _ Hpa'). cbn [mbind outcome_bind].
  rewrite keval_bind, (keval_kget _ _ _ Hpb'). cbn [mbind outcome_bind].
  rewrite !keval_bind, keval_out_of_order by done. cbn [mbind outcome_bind].
  do 2 (rewrite keval_bind, keval_select_key by done; cbn [mbind outcome_bind]).
  do 2 (rewrite keval_bind, keval_select_data by done; cbn [mbind outcome_bind]).
  cbn [mret Kernel_ret keval mbind outcome_bind fst snd]. rewrite !put2_choose by done. unfold pair_key. cbn [fst snd].
  case_match; [|done]. by rewrite !list_fmap_insert.
Qed.
Lemma keval_swaps_data asc U : ∀ v, Forall ok_pair v → in_bounds (length v) U →
  keval (kfold (swap_data lt sel selP asc) (v.*1, v.*2) U) =
  Ret ((foldl (cmp_swap (pair_key asc)) v U).*1, (foldl (cmp_swap (pair_key asc)) v U).*2).
Proof.
  induction U as [|[i j] U IH]; intros v Hv HU; [done|]. apply Forall_cons in HU as [Hij HU].
  cbn [kfold foldl]. rewrite keval_bind, keval_swap_data by done. cbn [mbind outcome_bind].
  apply IH; [by rewrite cmp_swap_perm|by rewrite cmp_swap_length].
Qed.
Lemma keval_sort_by_key v asc : Forall ok_pair v →
  ∃ v', keval (sort_by_key lt sel selP v.*1 v.*2 asc) = Ret (v'.*1, v'.*2) ∧
        v' ≡ₚ v ∧ sorted_by (pair_key asc) v'.
Proof.
  intros Hv. unfold sort_by_key. rewrite !length_fmap, Nat.eqb_refl.
  eexists. split; [|apply network_sorts].
  rewrite keval_bind. cbn [kexpect keval mbind outcome_bind].
  apply keval_swaps_data; [done|apply p_loop_bounds].
Qed.
End eval.

(** ** Correctness on every lawful context *)
Definition sorts_words (n : nat) (lt : less_kernel) (sel : select_kernel) (key : list bool → Z) : Prop :=
  ∀ (C W : Type) (HB : BooleanContext C W) (HL : LawfulContext C W) (HI : Inhabited W)
    (c : C) (v : list (list W)) (x : list (list bool)) (ascending : bool),
    ctx_wf c → Forall2 (Forall2 (denotes c)) v x → Forall (λ a, length a = n) x →
    wp ctx_err (interp (sort lt sel v ascending)) c (λ r c', ctx_wf c' ∧ ctx_ext c c' ∧
      ∃ z, Forall2 (Forall2 (denotes c')) r z ∧ z ≡ₚ x ∧ sorted_by (directed ascending key) z).
Definition sorts_pairs (n m : nat) (lt : less_kernel) (sel selP : select_kernel)
    (key : list bool → Z) : Prop :=
  ∀ (C W : Type) (HB : BooleanContext C W) (HL : LawfulContext C W) (HI : Inhabited W)
    (c : C) (keys data : list (list W)) (x : list (list bool * list bool)) (ascending : bool),
    ctx_wf c → Forall2 (Forall2 (denotes c)) keys x.*1 → Forall2 (Forall2 (denotes c)) data x.*2 →
    Forall (λ kp, length kp.1 = n ∧ length kp.2 = m) x →
    wp ctx_err (interp (sort_by_key lt sel selP keys data ascending)) c (λ r c', ctx_wf c' ∧
      ctx_ext c c' ∧ ∃ z, Forall2 (Forall2 (denotes c')) r.1 z.*1 ∧
        Forall2 (Forall2 (denotes c')) r.2 z.*2 ∧ z ≡ₚ x ∧
        sorted_by (λ kp, directed ascending key kp.1) z).

(** C36: the sorting network sorts.  For a key type whose [operator<] computes
    the order of a key, on any lawful context and for any number of elements,
    [sort] leaves a permutation of its input in ascending (or descending)
    order of the keys, and [sort_by_key] does so while every piece of data
    stays with its key. *)
Theorem sort_correct n m lt sel selP key : SortKey n lt key → Selectable n sel → Selectable m selP →
  sorts_words n lt sel key ∧ sorts_pairs n m lt sel selP key.
Proof.
  intros Hlt Hsel HselP. split.
  - intros C W HB HL HI c v x asc Hc Hv Hx. destruct (keval_sort x asc Hx) as (z & Hz & Hpost).
    eapply wp_mono; [eapply (interp_Ret RLL); [by apply krel_sort|done|exact Hz]|].
    intros r c' (? & ? & ?). eauto.
  - intros C W HB HL HI c keys data x asc Hc Hk Hd Hx.
    destruct (keval_sort_by_key x asc Hx) as (z & Hz & Hpost).
    eapply wp_mono;
      [eapply (interp_Ret (RPair RLL RLL)); [by apply krel_sort_by_key|done|exact Hz]|].
    intros r c' (? & ? & [? ?]). eauto 8.
Qed.

(** The two ways an element can be stored: in a vector, or in the first [n]
    slots of an array whose rest is untouched. *)
Lemma keval_sort_array {n lt key sel} `{!SortKey n lt key, !Selectable n sel} a k asc :
  Forall (λ x, length x = n) (take k a) →
  ∃ v', keval (sort_array lt sel a k asc) = Ret (v' ++ drop k a) ∧ v' ≡ₚ take k a ∧
        sorted_by (directed asc key) v'.
Proof.
  intros Ha. destruct (keval_sort (take k a) asc Ha) as (v' & Hv' & Hpost). exists v'.
  split; [|done]. unfold sort_array. by rewrite keval_bind, Hv'.
Qed.

Lemma sort_correct_witness :
  sorts_words 8 (@UInt.ltb) (@UInt.select) uint_key ∧
  sorts_pairs 8 16 (@UInt.ltb) (@UInt.select) (@SInt.select) uint_key ∧
  keval (sort (@UInt.ltb) (@UInt.select) (bits 8 <$> [9; 200; 3; 77; 3]%N) false) =
    Ret (bits 8 <$> [200; 77; 9; 3; 3]%N).
Proof.
  split; [apply (sort_correct 8 8 _ _ (@UInt.select)); apply _|].
  split; [apply (sort_correct 8 16); apply _|]. vm_compute. done.
Defined.
