(* ===== verification/Simd.v ===== *)
(** * SIMD-batched replay (ir/simd.h)

    One program over many independent instances: 128 instances packed in the
    lanes of a block, a replay per batch through the scheduled executor, and
    the lanes unpacked again.  The buffers are flat and instance-major. *)

From S2P Require Import Prelude Program Validate Context Execute Kernel Record Passes Schedule Bits Bytes Block.

Section code.
Context {C : Type} `{BulkBooleanContext C block, Inhabited block}.

(** [bits[t] = (t < lanes) && in[(base + t) * ni + i]], then [bool_to_block]. *)
Definition pack_lane (inp : list bool) (ni base lanes i t : N) : outcome N :=
  if (t <? lanes)%N then b ← vget inp ((base + t) * ni + i)%N; Ret (N.b2n b) else Ret 0%N.
Definition pack_input (inp : list bool) (ni base lanes i : N) : outcome block :=
  bits ← mapM (pack_lane inp ni base lanes i) (range 0 128); bool_to_block bits.
(** [bits_to_bools(bits, &outw[o], 128)], then the live lanes. *)
Definition unpack_output (outw : list block) (no base lanes : N) (out : list bool) (o : N) :
    outcome (list bool) :=
  w ← vget outw o; bits ← block_to_bools w;
  foldO (λ out t, b ← vget bits t; vset out ((base + t) * no + o)%N (truth b)) out (range 0 lanes).
Definition simd_batch (debug : bool) (p : BooleanProgram) (plan : ScheduledPlan) (inp : list bool)
    (n : N) (s : list bool * ProgramWorkspace block) (batch : N) :
    ST C (list bool * ProgramWorkspace block) :=
  let '(out, ws) := s in
  let base := (128 * batch)%N in
  let lanes := N.min 128 (n - base) in
  inbuf ← lift (mapM (pack_input inp (num_inputs p) base lanes) (range 0 (num_inputs p)));
  ws ← scheduled_execute_ws debug p plan inbuf ws;
  out ← lift (foldO (unpack_output (ws_out ws) (u32 (vlen (outputs p))) base lanes) out
                (range 0 (u32 (vlen (outputs p)))));
  mret (out, ws).
(** [for (base = 0; base < N; base += 128)]. *)
Definition simd_execute_program_ws (debug : bool) (p : BooleanProgram) (plan : ScheduledPlan)
    (inp out : list bool) (n : Z) (ws : ProgramWorkspace block) :
    ST C (list bool * ProgramWorkspace block) :=
  foldST (simd_batch debug p plan inp (Z.to_N n)) (out, ws) (range 0 (Z.to_N ((n + 127) / 128))).
Definition simd_execute_program (debug : bool) (p : BooleanProgram) (inp out : list bool) (n : Z) :
    ST C (list bool) :=
  plan ← lift (make_scheduled_plan p);
  s ← simd_execute_program_ws debug p plan inp out n empty_workspace; mret s.1.
End code.

(** ** Packing and unpacking *)
Lemma bool_to_block_ok (l : list N) : length l = 128%nat →
  ∃ w, bool_to_block l = Ret w ∧ ∀ t, (t < 128)%nat → Some (N.testbit w (N.of_nat t)) = truth <$> l !! t.
Proof.
  intros Hl. unfold bool_to_block.
  destruct (bools_to_bits_ok (replicate 16 0%N) l 128) as (out & Ho & Hp);
    [lia|rewrite length_replicate; lia|].
  change (Z.of_nat 128) with 128%Z in Ho. rewrite Ho. cbn [mbind outcome_bind mret outcome_ret].
  eexists. split; [done|]. intros t Ht.
  assert (Forall (λ v, v < 256)%N out) as Hb.
  { eapply bools_to_bits_bytes; [|exact Ho]. apply Forall_replicate. lia. }
  assert (unbytes out = truth <$> l) as Hu.
  { rewrite Hp. unfold packed. rewrite take_ge by (rewrite length_fmap; lia).
    rewrite drop_ge by (rewrite length_unbytes, length_replicate; lia). apply app_nil_r. }
  rewrite le_value_bval, bval_testbit, Hu, list_lookup_fmap by done.
  by destruct (lookup_lt_is_Some_2 l t) as [x ->]; [lia|].
Qed.
Lemma block_to_bools_ok w :
  ∃ l, block_to_bools w = Ret l ∧ length l = 128%nat ∧
    ∀ t, (t < 128)%nat → truth <$> l !! t = Some (N.testbit w (N.of_nat t)).
Proof.
  unfold block_to_bools. change 128%Z with (Z.of_nat 128).
  rewrite bits_to_bools_ok by (apply le_bytes_lt || rewrite length_le_bytes; lia).
  eexists. split; [done|]. rewrite unbytes_le_bytes. rewrite take_ge by (rewrite length_bits; lia).
  split; [by rewrite length_fmap, length_bits|]. intros t Ht.
  rewrite list_lookup_fmap, bits_lookup by lia. simpl. f_equal. by destruct (N.testbit w _).
Qed.
Lemma mapM_Ret {A B} (f : A → outcome B) l (P : A → B → Prop) :
  (∀ a, a ∈ l → ∃ b, f a = Ret b ∧ P a b) → ∃ bs, mapM f l = Ret bs ∧ Forall2 P l bs.
Proof.
  induction l as [|a l IH]; intros Hf; [by exists []|]. destruct (Hf a) as (b & Hb & HP); [by left|].
  destruct IH as (bs & Hbs & HPs); [intros; apply Hf; by right|].
  exists (b :: bs). simpl. rewrite Hb. simpl. rewrite Hbs. by split; [|constructor].
Qed.
Lemma mapM_range {B} (f : N → outcome B) n (P : N → B → Prop) :
  (∀ i, (i < n)%N → ∃ b, f i = Ret b ∧ P i b) →
  ∃ bs, mapM f (range 0 n) = Ret bs ∧ vlen bs = n ∧ ∀ i b, bs !! N.to_nat i = Some b → P i b.
Proof.
  intros Hf. destruct (mapM_Ret f (range 0 n) P) as (bs & Hbs & HP).
  { intros i Hi%elem_of_range. apply Hf. lia. }
  exists bs. split; [done|]. split.
  { unfold vlen. rewrite <- (Forall2_length _ _ _ HP), range_length. lia. }
  intros i b Hb. destruct (Forall2_lookup_r _ _ _ _ _ HP Hb) as (i' & [_ ->]%range_lookup & Hi).
  by rewrite N2Nat.id in Hi.
Qed.

(** Instance [T] of [inp] has its bits at [T * ni ..]. *)
Definition slot (l : list bool) (n T i : N) : option bool := l !! N.to_nat (T * n + i).
Lemma pack_input_ok inp ni base lanes i : (lanes ≤ 128)%N → (i < ni)%N →
  ((base + lanes) * ni ≤ vlen inp)%N →
  ∃ w, pack_input inp ni base lanes i = Ret w ∧
    ∀ t, (t < lanes)%N → slot inp ni (base + t) i = Some (N.testbit w t).
Proof.
  intros Hl Hi Hin. unfold pack_input.
  destruct (mapM_range (pack_lane inp ni base lanes i) 128
    (λ t v, (t < lanes)%N → slot inp ni (base + t) i = Some (truth v))) as (bits & -> & Hlen & Hb).
  { intros t Ht. unfold pack_lane. destruct (N.ltb_spec t lanes); [|by exists 0%N; split; [|lia]].
    destruct (vget_lt inp ((base + t) * ni + i)) as [b Hb]; [nia|]. rewrite Hb. simpl.
    exists (N.b2n b). split; [done|]. intros _. unfold slot. rewrite (proj1 (vget_Ret _ _ _) Hb).
    by destruct b. }
  cbn [mbind outcome_bind]. destruct (bool_to_block_ok bits) as (w & -> & Hw); [unfold vlen in Hlen; lia|].
  exists w. split; [done|]. intros t Ht. specialize (Hw (N.to_nat t) ltac:(lia)).
  rewrite N2Nat.id in Hw. destruct (bits !! N.to_nat t) as [v|] eqn:Hv; [|done].
  rewrite (Hb t v Hv Ht). by rewrite Hw.
Qed.

(** Output [o] of the batch is written for every live lane, nothing else. *)
Lemma unpack_output_ok outw no base lanes out o w : (lanes ≤ 128)%N → (o < no)%N →
  outw !! N.to_nat o = Some w → ((base + lanes) * no ≤ vlen out)%N →
  ∃ out', unpack_output outw no base lanes out o = Ret out' ∧ vlen out' = vlen out ∧
    (∀ t, (t < lanes)%N → slot out' no (base + t) o = Some (N.testbit w t)) ∧
    (∀ k, (∀ t, (t < lanes)%N → N.of_nat k ≠ (base + t) * no + o)%N → out' !! k = out !! k).
Proof.
  intros Hl Ho Hw Hout. unfold unpack_output. rewrite (proj2 (vget_Ret _ _ _) Hw).
  cbn [mbind outcome_bind]. destruct (block_to_bools_ok w) as (bits & -> & Hlen & Hb).
  cbn [mbind outcome_bind].
  apply (foldO_range_inv _ lanes (λ i out', vlen out' = vlen out ∧
    (∀ t, (t < i)%N → slot out' no (base + t) o = Some (N.testbit w t)) ∧
    (∀ k, (∀ t, (t < i)%N → N.of_nat k ≠ (base + t) * no + o)%N → out' !! k = out !! k))).
  { split; [done|]. split; [intros; lia|done]. }
  intros i out1 Hi (Hv & Hs & Hf).
  destruct (lookup_lt_is_Some_2 bits (N.to_nat i)) as [b Hbi]; [lia|].
  rewrite (proj2 (vget_Ret _ _ _) Hbi). cbn [mbind outcome_bind].
  rewrite vset_lt by (rewrite Hv; nia). eexists. split; [done|].
  split; [by rewrite vlen_insert|].
  pose proof (Hb (N.to_nat i) ltac:(lia)) as Hbit. rewrite Hbi, N2Nat.id in Hbit. simpl in Hbit. split.
  - intros t Ht. unfold slot. destruct (decide (t = i)) as [->|Hne].
    + rewrite list_lookup_insert_eq; [done|]. unfold vlen in *. nia.
    + rewrite list_lookup_insert_ne by nia. apply Hs. lia.
  - intros k Hk. rewrite list_lookup_insert_ne; [apply Hf; intros; apply Hk; lia|].
    specialize (Hk i ltac:(lia)). lia.
Qed.
Lemma unpack_outputs_ok outw no base lanes out : (lanes ≤ 128)%N → vlen outw = no →
  ((base + lanes) * no ≤ vlen out)%N →
  ∃ out', foldO (unpack_output outw no base lanes) out (range 0 no) = Ret out' ∧
    vlen out' = vlen out ∧
    (∀ t o w, (t < lanes)%N → outw !! N.to_nat o = Some w →
       slot out' no (base + t) o = Some (N.testbit w t)) ∧
    (∀ k, (N.of_nat k < base * no ∨ (base + lanes) * no ≤ N.of_nat k)%N → out' !! k = out !! k).
Proof.
  intros Hl Hn Hout.
  destruct (foldO_range_inv (unpack_output outw no base lanes) no (λ i out', vlen out' = vlen out ∧
    (∀ t o w, (t < lanes)%N → (o < i)%N → outw !! N.to_nat o = Some w →
       slot out' no (base + t) o = Some (N.testbit w t)) ∧
    (∀ k, (N.of_nat k < base * no ∨ (base + lanes) * no ≤ N.of_nat k)%N → out' !! k = out !! k)) out)
    as (out' & Hf & Hlen & Hs & Hk).
  - split; [done|]. split; [intros; lia|done].
  - intros i out1 Hi (Hv & Hs & Hk). destruct (lookup_lt_is_Some_2 outw (N.to_nat i)) as [w Hw].
    { unfold vlen in Hn. lia. }
    destruct (unpack_output_ok outw no base lanes out1 i w) as (out2 & Hu & Hv2 & Hs2 & Hk2);
      [done..|by rewrite Hv|].
    exists out2. split; [done|]. split; [congruence|]. split.
    + intros t o w' Ht Ho Hw'. destruct (decide (o = i)) as [->|Hne].
      { rewrite Hw' in Hw. injection Hw as ->. by apply Hs2. }
      unfold slot. rewrite Hk2; [by apply Hs; [|lia|]|]. intros t' Ht' Heq.
      rewrite N2Nat.id in Heq. rewrite (N.mul_comm (base + t)), (N.mul_comm (base + t')) in Heq.
      apply N.div_mod_unique in Heq; lia.
    + intros k Hr. rewrite Hk2; [by apply Hk|]. intros t Ht Heq. nia.
  - exists out'. split; [done|]. split; [done|]. split; [|done].
    intros t o w Ht Hw. apply Hs; [done| |done].
    apply lookup_lt_Some in Hw. unfold vlen in Hn. lia.
Qed.

(** ** Contexts whose wires are 128 lanes
    Every lane is a lawful context of its own; what the bit stored in a lane
    means may depend on the context (it is a share, in a protocol). *)
Class LaneContext (C : Type) `{BulkBooleanContext C block} : Type := {
  lane_wf : C → Prop;
  lane_ext : C → C → Prop;
  lane_err : string → Prop;
  lane_denotes : C → N → bool → bool → Prop;
  lane_preorder :: PreOrder lane_ext;
  lane_mono c c' t s b : lane_ext c c' → lane_denotes c t s b → lane_denotes c' t s b;
  lane_public_bit t c v : (t < 128)%N → lane_wf c → wp lane_err (public_bit v) c (λ w c',
    lane_wf c' ∧ lane_ext c c' ∧ lane_denotes c' t (N.testbit w t) v);
  lane_and t c a b x y : (t < 128)%N → lane_wf c →
    lane_denotes c t (N.testbit a t) x → lane_denotes c t (N.testbit b t) y →
    wp lane_err (and_gate a b) c (λ w c',
      lane_wf c' ∧ lane_ext c c' ∧ lane_denotes c' t (N.testbit w t) (x && y));
  lane_xor t c a b x y : (t < 128)%N → lane_wf c →
    lane_denotes c t (N.testbit a t) x → lane_denotes c t (N.testbit b t) y →
    wp lane_err (xor_gate a b) c (λ w c',
      lane_wf c' ∧ lane_ext c c' ∧ lane_denotes c' t (N.testbit w t) (xorb x y));
  lane_not t c a x : (t < 128)%N → lane_wf c → lane_denotes c t (N.testbit a t) x →
    wp lane_err (not_gate a) c (λ w c',
      lane_wf c' ∧ lane_ext c c' ∧ lane_denotes c' t (N.testbit w t) (negb x));
  lane_and_many t c l1 l2 xs ys : (t < 128)%N → lane_wf c →
    Forall2 (λ w, lane_denotes c t (N.testbit w t)) l1 xs →
    Forall2 (λ w, lane_denotes c t (N.testbit w t)) l2 ys → length l1 = length l2 →
    wp lane_err (and_many l1 l2) c (λ ws c', lane_wf c' ∧ lane_ext c c' ∧
      Forall2 (λ w, lane_denotes c' t (N.testbit w t)) ws (zip_with andb xs ys)) }.

Section lanes.
Context {C : Type} {HB : BooleanContext C block} {HBu : BulkBooleanContext C block}
  {HL : LaneContext C} {HI : Inhabited block}.

Definition lane_lawful (t : N) (Ht : (t < 128)%N) : LawfulContext C block := {|
  ctx_wf := lane_wf; ctx_ext := lane_ext; ctx_err := lane_err;
  denotes c w b := lane_denotes c t (N.testbit w t) b;
  ctx_ext_preorder := lane_preorder;
  denotes_mono c c' w b := lane_mono c c' t (N.testbit w t) b;
  public_bit_law c v := lane_public_bit t c v Ht;
  and_gate_law c a b x y := lane_and t c a b x y Ht;
  xor_gate_law c a b x y := lane_xor t c a b x y Ht;
  not_gate_law c a x := lane_not t c a x Ht |}.
Lemma lane_lawful_bulk t Ht : @LawfulBulk C block HB (lane_lawful t Ht) HBu.
Proof. split. intros. by apply lane_and_many. Qed.

(** A value that meets a postcondition for every lane meets them all. *)
Lemma wp_lanes {A} (m : ST C A) c (lanes : N) (Q : N → A → C → Prop) : (0 < lanes)%N →
  (∀ t, (t < lanes)%N → wp lane_err m c (Q t)) →
  wp lane_err m c (λ a c', ∀ t, (t < lanes)%N → Q t a c').
Proof.
  intros Hl Hq. unfold wp in *. pose proof (Hq 0%N Hl) as H0. destruct (m c) as [[a c']|msg|]; simpl in *.
  - intros t Ht. by apply Hq.
  - done.
  - done.
Qed.

Definition lane_of (T : N) : N := (T mod 128)%N.
(** Instance [T] of the input holds the bits [x T]. *)
Definition inputs_denote (c : C) (inp : list bool) (ni n : N) (x : N → list bool) : Prop :=
  ∀ T, (T < n)%N → vlen (x T) = ni ∧ ∀ i b, x T !! N.to_nat i = Some b →
    ∃ s, slot inp ni T i = Some s ∧ lane_denotes c (lane_of T) s b.
Definition outputs_denote (p : BooleanProgram) (c : C) (out : list bool) (n : N)
    (x : N → list bool) : Prop :=
  ∀ T, (T < n)%N → ∃ ys, eval_program p (x T) = Some ys ∧ ∀ o b, ys !! N.to_nat o = Some b →
    ∃ s, slot out (vlen (outputs p)) T o = Some s ∧ lane_denotes c (lane_of T) s b.

Context (debug : bool) (p : BooleanProgram) (wl : list N) (plan : ScheduledPlan).
Context (Hwf : wf_program p) (Hd : wire_reuse p = ReuseNone) (Hplan : plan_ok p wl plan).
Context (Ho : (vlen (outputs p) < 2 ^ 32)%N).
Context (inp : list bool) (n : N) (x : N → list bool).
Context (Hinp : (n * num_inputs p ≤ vlen inp)%N).

Lemma lane_of_batch batch t : (t < 128)%N → lane_of (128 * batch + t) = t.
Proof.
  intros Ht. unfold lane_of. rewrite N.mul_comm, N.add_comm, N.Div0.mod_add. by apply N.mod_small.
Qed.
Lemma simd_batch_ok batch out ws c : (128 * batch < n)%N → lane_wf c →
  (n * vlen (outputs p) ≤ vlen out)%N → inputs_denote c inp (num_inputs p) n x →
  outputs_denote p c out (128 * batch) x →
  wp lane_err (simd_batch debug p plan inp n (out, ws) batch) c (λ '(out', _) c',
    lane_wf c' ∧ lane_ext c c' ∧ vlen out' = vlen out ∧
    outputs_denote p c' out' (N.min n (128 * (batch + 1))) x ∧
    ∀ k, (n * vlen (outputs p) ≤ N.of_nat k)%N → out' !! k = out !! k).
Proof.
  intros Hb Hc Hout Hin Hprev. unfold simd_batch. rewrite (u32_small _ Ho).
  set (base := (128 * batch)%N) in *. set (lanes := N.min 128 (n - base)).
  assert (0 < lanes ≤ 128 ∧ base + lanes ≤ n)%N as [Hl Hbl] by lia.
  destruct (mapM_range (pack_input inp (num_inputs p) base lanes) (num_inputs p)
    (λ i w, ∀ t, (t < lanes)%N → slot inp (num_inputs p) (base + t) i = Some (N.testbit w t)))
    as (inbuf & Hpack & Hlen & Hbits).
  { intros i Hi. apply pack_input_ok; [lia|done|nia]. }
  apply wp_bind. eapply wp_lift_Ret; [exact Hpack|]. apply wp_bind.
  eapply wp_mono.
  { apply (wp_lanes _ _ lanes (λ t ws' c', lane_wf c' ∧ lane_ext c c' ∧
      ∃ outs, eval_program p (x (base + t)%N) = Some outs ∧
        Forall2 (λ w, lane_denotes c' t (N.testbit w t)) (ws_out ws') outs)); [lia|].
    intros t Ht. assert (t < 128)%N as Ht8 by lia. pose proof (lane_lawful_bulk t Ht8) as HLB.
    destruct (Hin (base + t)%N ltac:(lia)) as [Hxl Hx].
    eapply (scheduled_execute_ok (HL := lane_lawful t Ht8)); [done..|].
    simpl. apply Forall2_same_length_lookup. split; [unfold vlen in *; lia|].
    intros i w b Hw Hxb. destruct (Hx (N.of_nat i) b) as (s & Hs & Hden); [by rewrite Nat2N.id|].
    specialize (Hbits (N.of_nat i) w). rewrite Nat2N.id in Hbits. rewrite (Hbits Hw t Ht) in Hs.
    injection Hs as ->. unfold base in Hden. rewrite lane_of_batch in Hden by lia. done. }
  intros ws' c' Hall. destruct (Hall 0%N ltac:(lia)) as (Hc' & Hext & outs0 & Hev0 & Hf0).
  assert (vlen (ws_out ws') = vlen (outputs p)) as Hwl.
  { unfold vlen. rewrite (Forall2_length _ _ _ Hf0). unfold eval_program in Hev0.
    apply bind_Some in Hev0 as (e & _ & Hm). by rewrite <- (length_mapM _ _ _ Hm). }
  destruct (unpack_outputs_ok (ws_out ws') (vlen (outputs p)) base lanes out)
    as (out' & Hu & Hvl & Hs & Hfr); [lia|done|nia|].
  apply wp_bind. eapply wp_lift_Ret; [exact Hu|]. apply wp_ret.
  split; [done|]. split; [done|]. split; [done|]. split; [|intros k Hk; apply Hfr; right; nia].
  intros T HT. destruct (decide (T < base)%N) as [Hlt|Hge].
  - destruct (Hprev T Hlt) as (ys & Hys & Hyo). exists ys. split; [done|]. intros o b Hob.
    destruct (Hyo o b Hob) as (s & Hslot & Hden). exists s. split; [|by eapply lane_mono].
    unfold slot in *. rewrite Hfr; [done|]. left. apply lookup_lt_Some in Hob.
    assert (N.of_nat (length ys) = vlen (outputs p)) as Hyl.
    { unfold eval_program in Hys. apply bind_Some in Hys as (e & _ & Hm).
      unfold vlen. by rewrite (length_mapM _ _ _ Hm). }
    nia.
  - destruct (Hall (T - base)%N) as (_ & _ & ys & Hys & Hf); [lia|].
    replace (base + (T - base))%N with T in Hys by lia. exists ys. split; [done|].
    intros o b Hob. destruct (Forall2_lookup_r _ _ _ _ _ Hf Hob) as (w & Hw & Hden).
    exists (N.testbit w (T - base)). split.
    + rewrite <- (Hs (T - base)%N o w); [f_equal; lia|lia|done].
    + replace T with (128 * batch + (T - base))%N at 1 by lia. by rewrite lane_of_batch by lia.
Qed.
End lanes.

(** ** Properties *)

(** C37: SIMD-batched replay is [n] independent replays.  For a well-formed dense
    program and buffers that hold [n] instances, on every context whose 128
    lanes obey the gate laws, the batches succeed, the [outputs] of instance [T]
    denote [eval_program] of its own inputs (the padding lanes of the last batch
    reach nothing), and the output buffer beyond the [n] instances is untouched. *)
Theorem simd_execute_correct {C : Type} {HB : BooleanContext C block} {HBu : BulkBooleanContext C block}
    {HL : LaneContext C} {HI : Inhabited block} debug p inp out (n : N) (x : N → list bool) (c : C) :
  wf_program p → wire_reuse p = ReuseNone → (num_wires p < 2 ^ 32)%N →
  (vlen (gates p) < INT_MAX)%N → (vlen (outputs p) < 2 ^ 32)%N →
  (n * num_inputs p ≤ vlen inp)%N → (n * vlen (outputs p) ≤ vlen out)%N →
  lane_wf c → inputs_denote c inp (num_inputs p) n x →
  wp lane_err (simd_execute_program debug p inp out (Z.of_N n)) c (λ out' c',
    lane_wf c' ∧ lane_ext c c' ∧ vlen out' = vlen out ∧ outputs_denote p c' out' n x ∧
    ∀ k, (n * vlen (outputs p) ≤ N.of_nat k)%N → out' !! k = out !! k).
Proof.
  intros Hwf Hd Hs Hi Ho Hinp Hout Hc Hin.
  destruct (make_scheduled_plan_ok p Hwf Hd Hs Hi) as (plan & wl & Hp & Hok).
  unfold simd_execute_program, simd_execute_program_ws. rewrite N2Z.id.
  apply wp_bind. eapply wp_lift_Ret; [exact Hp|]. apply wp_bind.
  apply (wp_foldST _ _ _ (λ don '(out', _) c', lane_wf c' ∧ lane_ext c c' ∧ vlen out' = vlen out ∧
    outputs_denote p c' out' (N.min n (128 * vlen don)) x ∧
    ∀ k, (n * vlen (outputs p) ≤ N.of_nat k)%N → out' !! k = out !! k)).
  - split; [done|]. split; [reflexivity|]. split; [done|]. split; [|done].
    intros T HT. unfold vlen in HT. simpl in HT. lia.
  - intros don batch todo [out1 ws] c1 Heq (Hc1 & Hext & Hv & Hden & Hfr).
    assert (range 0 (Z.to_N ((Z.of_N n + 127) / 128)) !! length don = Some batch)
      as [Hk Hbatch]%range_lookup by (rewrite Heq; by apply list_lookup_middle).
    assert (128 * batch < n)%N.
    { pose proof (Z.mul_div_le (Z.of_N n + 127) 128). lia. }
    eapply wp_mono.
    { apply (simd_batch_ok debug p wl plan Hwf Hd Hok Ho inp n x Hinp); [done|done|by rewrite Hv| |].
      - intros T HT. destruct (Hin T HT) as [? Hx]. split; [done|]. intros i b Hb.
        destruct (Hx i b Hb) as (s & ? & ?). exists s. split; [done|]. by eapply lane_mono.
      - replace (128 * batch)%N with (N.min n (128 * vlen don)); [done|]. unfold vlen. lia. }
    intros [out2 ws2] c2 (Hc2 & Hext2 & Hv2 & Hden2 & Hfr2).
    split; [done|]. split; [by etrans|]. split; [congruence|]. split.
    + rewrite vlen_app. replace (vlen don + vlen [batch])%N with (batch + 1)%N; [done|].
      unfold vlen. simpl. lia.
    + intros k Hk'. rewrite Hfr2 by done. by apply Hfr.
  - intros [out' ws'] c' (? & ? & ? & Hden & ?). apply wp_ret. split; [done|]. split; [done|].
    split; [done|]. split; [|done]. simpl.
    replace (N.min n _) with n in Hden; [done|]. unfold vlen. rewrite range_length.
    pose proof (Z.div_mod (Z.of_N n + 127) 128). pose proof (Z.mod_pos_bound (Z.of_N n + 127) 128). lia.
Qed.

(** The bitsliced plaintext context: a lane stores its bit. *)
Module Bitsliced.
Definition all_ones : block := N.ones 128.
#[global] Instance context : BooleanContext unit block := {
  public_bit v := mret (if v then all_ones else 0%N);
  and_gate a b := mret (N.land a b);
  xor_gate a b := mret (N.lxor a b);
  not_gate a := mret (N.lxor a all_ones) }.
#[global] Instance bulk : BulkBooleanContext unit block := {
  and_many a b := mret (zip_with N.land a b) }.
#[global] Program Instance lanes : LaneContext unit := {
  lane_wf _ := True; lane_ext _ _ := True; lane_err _ := False;
  lane_denotes _ _ s b := s = b }.
Next Obligation. done. Qed.
Next Obligation.
  intros t c v Ht _. split; [done|]. split; [done|]. destruct v; [|apply N.bits_0].
  unfold all_ones. cbn beta. apply (N.ones_spec_low 128). done.
Qed.
Next Obligation. intros t c a b x y _ _ <- <-. split; [done|]. split; [done|]. apply N.land_spec. Qed.
Next Obligation. intros t c a b x y _ _ <- <-. split; [done|]. split; [done|]. apply N.lxor_spec. Qed.
Next Obligation.
  intros t c a x Ht _ <-. split; [done|]. split; [done|]. unfold all_ones.
  by rewrite N.lxor_spec, N.ones_spec_low, xorb_true_r.
Qed.
Next Obligation.
  intros t c l1 l2 xs ys _ _ H1 H2 Hlen. split; [done|]. split; [done|].
  revert l2 ys H2 Hlen. induction H1 as [|a x l1 xs Ha H1 IH]; intros [|b l2] ys H2 Hlen;
    inversion H2; simplify_eq/=; constructor; [|by apply IH]. apply N.land_spec.
Qed.
End Bitsliced.

Definition simd_sample_inputs (T : N) : list bool :=
  if (T =? 0)%N then [true; true] else if (T =? 1)%N then [false; true] else [true; false].
Definition simd_sample_in : list bool := [true; true; false; true; true; false].
Lemma simd_execute_correct_witness :
  wp (λ _, False) (simd_execute_program true sample_dense simd_sample_in (replicate 7 true) 3) tt
    (λ out' c', True ∧ True ∧ vlen out' = 7%N ∧
       outputs_denote sample_dense c' out' 3 simd_sample_inputs ∧
       ∀ k, (3 * vlen (outputs sample_dense) ≤ N.of_nat k)%N → out' !! k = replicate 7 true !! k).
Proof.
  apply (simd_execute_correct (HL := Bitsliced.lanes) true sample_dense simd_sample_in
    (replicate 7 true) 3 simd_sample_inputs tt sample_dense_wf); [done..| | |].
  - vm_compute. done.
  - done.
  - intros T HT. assert (T = 0 ∨ T = 1 ∨ T = 2)%N as [->|[->| ->]] by lia;
      (split; [done|]; intros i b Hb; exists b; split; [|done];
       destruct (N.to_nat i) as [|[|]] eqn:Hi; try done;
       (assert (i = 0 ∨ i = 1)%N as [->| ->] by lia); simplify_eq/=; done).
Defined.
