(* ===== verification/Analysis.v ===== *)
(** * Program statistics (ir/analysis.h)

    [analyze_program] reduces the passes to scalar metrics.  The theorem ties
    every field to a fact about the program: counts, depth, reachability, the
    largest number of wires alive at once and the largest fan-out. *)

From S2P Require Import Prelude Program Validate Context Execute Kernel Record Passes Transform.
#[local] Set Warnings "-clear-no-such-hyp".

Record ProgramStats : Type := MkProgramStats {
  st_wire_reuse : WireReuse;
  st_num_inputs : N; st_num_outputs : N; st_stored_num_wires : N; st_dense_num_wires : N;
  st_num_gates : N; st_num_and : N; st_num_xor : N; st_num_not : N; st_num_const : N;
  st_and_depth : N; st_max_and_per_level : N;
  st_reachable_wires : N; st_reachable_gates : N; st_reachable_and : N;
  st_peak_live_wires : N; st_max_fanout : N;
  st_stored_program_digest : N; st_dense_program_digest : N }.

Definition wire_reuse_name (reuse : WireReuse) : string :=
  match reuse with ReuseNone => "none" | ReuseLinear => "linear" | ReuseFull => "full" end.

(** ** peak_live_wires *)
Definition is_some {A} (o : option A) : bool := match o with Some _ => true | None => false end.
(** [live.last_use[w] >= 0 || is_output[w]]; the second read is skipped when
    the first decides. *)
Definition used_or_output (live : LivenessStats) (is_output : list bool) (w : N) : outcome bool :=
  lu ← vget (last_use live) w; if is_some lu then Ret true else vget is_output w.
(** [release(w)]; [--active] on a [uint64_t]. *)
Definition release (live : LivenessStats) (is_output : list bool) (gi : N) (active w : N) : outcome N :=
  o ← vget is_output w;
  if (o : bool) then Ret active else
  lu ← vget (last_use live) w;
  Ret (if bool_decide (lu = Some gi) then u64 (active + (2 ^ 64 - 1)) else active).
Definition peak_step (dense : BooleanProgram) (live : LivenessStats) (is_output : list bool)
    (s : N * N) (gi : N) : outcome (N * N) :=
  let '(active, peak) := s in
  g ← vget (gates dense) gi;
  keep ← used_or_output live is_output (out g);
  let peak := N.max peak (u64 (active + 1)) in
  let active := if (keep : bool) then u64 (active + 1) else active in
  active ← (if is_const g then Ret active else release live is_output gi active (in0 g));
  active ← (if negb (is_const g) && negb (is_not g) && negb (in1 g =? in0 g)%N
            then release live is_output gi active (in1 g) else Ret active);
  Ret (active, peak).
Definition peak_live_wires (dense : BooleanProgram) (live : LivenessStats) : outcome N :=
  is_output ← foldO (λ m w, vset m w true) (vmake (num_wires dense) false) (outputs dense);
  active ← foldO (λ active w, k ← used_or_output live is_output w;
             Ret (if (k : bool) then u64 (active + 1) else active)) 0%N (range 0 (num_inputs dense));
  '(_, peak) ← foldO (peak_step dense live is_output) (active, active) (range 0 (vlen (gates dense)));
  Ret peak.

(** ** Fan-out *)
Definition fanout_step (fanout : list N) (g : Gate) : outcome (list N) :=
  if is_const g then Ret fanout else
  f0 ← vget fanout (in0 g); fanout ← vset fanout (in0 g) (u64 (f0 + 1));
  if is_not g then Ret fanout else
  f1 ← vget fanout (in1 g); vset fanout (in1 g) (u64 (f1 + 1)).

Definition analyze_program (stored : BooleanProgram) : outcome ProgramStats :=
  validate_program stored;;
  dense ← (if decide (wire_reuse stored = ReuseNone) then Ret stored else uncompact stored);
  let count := count_pass dense in
  live ← liveness_pass dense;
  schedule ← schedule_pass dense;
  layout ← layout_pass dense live;
  let max_and := foldl (λ m level, N.max m (vlen level)) 0%N (and_gate_indices (levels schedule)) in
  peak ← peak_live_wires dense live;
  fanout ← foldO fanout_step (vmake (num_wires dense) 0%N) (gates dense);
  Ret (MkProgramStats (wire_reuse stored) (num_inputs stored) (vlen (outputs stored))
    (num_wires stored) (num_wires dense) (stat_num_gate count) (num_and count) (num_xor count)
    (num_not count) (num_const count) (depth (levels schedule)) max_and (reachable_wire layout)
    (reachable_gate layout) (reachable_and layout) peak (foldl N.max 0%N fanout)
    (DigestCtx.digest_program stored) (DigestCtx.digest_program dense)).

(** ** What the peak means *)
(** Wire [w] exists before gate [i] and is still wanted: by a gate from [i] on,
    or as an output. *)
Definition wanted (p : BooleanProgram) (i : nat) (w : N) : bool :=
  bool_decide (w ∈ outputs p) || existsb (λ g, bool_decide (w ∈ reads g)) (drop i (gates p)).
Definition exists_at (p : BooleanProgram) (i : nat) : gset N :=
  list_to_set (range 0 (num_inputs p) ++ (out <$> take i (gates p))).
Definition live_set (p : BooleanProgram) (i : nat) : gset N :=
  filter (λ w, wanted p i w = true) (exists_at p i).
Definition live_count (p : BooleanProgram) (i : nat) : N := N.of_nat (size (live_set p i)).
(** The result of a gate exists while the gate is evaluated. *)
Definition peak_spec (p : BooleanProgram) : N :=
  foldl (λ m i, N.max m (live_count p i + 1)) (live_count p 0) (seq 0 (length (gates p))).

Section peak.
Context (p : BooleanProgram) (Hwf : wf_program p).
Context (Hdense : wire_reuse p = ReuseNone) (Hsmall : (num_wires p < 2 ^ 32)%N).
Context (live : LivenessStats) (Hlive : liveness_spec p (gates p) live).
Context (m : list bool) (Hm : vspec (num_wires p) (λ w b, b = bool_decide (w ∈ outputs p)) m).

Lemma wanted_true i w : wanted p i w = true ↔
  w ∈ outputs p ∨ ∃ k g, (i ≤ k)%nat ∧ gates p !! k = Some g ∧ w ∈ reads g.
Proof.
  unfold wanted. rewrite orb_true_iff, bool_decide_eq_true, existsb_exists. split.
  - intros [?|(g & Hg & Hr%bool_decide_eq_true)]; [by left|right].
    apply list_elem_of_In, list_elem_of_lookup in Hg as [k Hk]. rewrite lookup_drop in Hk.
    exists (i + k)%nat, g. split; [lia|done].
  - intros [?|(k & g & Hk & Hg & Hr)]; [by left|right]. exists g. split; [|by apply bool_decide_eq_true].
    apply list_elem_of_In, list_elem_of_lookup. exists (k - i)%nat. rewrite lookup_drop.
    by replace (i + (k - i))%nat with k by lia.
Qed.
Lemma elem_of_exists i w : w ∈ exists_at p i ↔
  (w < num_inputs p)%N ∨ ∃ k g, (k < i)%nat ∧ gates p !! k = Some g ∧ out g = w.
Proof.
  unfold exists_at. rewrite elem_of_list_to_set, elem_of_app, elem_of_range. split.
  - intros [?|(g & -> & Hg)%list_elem_of_fmap]; [left; lia|right].
    apply list_elem_of_lookup in Hg as [k Hk]. apply lookup_take_Some in Hk as [Hk ?]. eauto.
  - intros [?|(k & g & Hk & Hg & <-)]; [left; lia|right]. apply list_elem_of_fmap. exists g.
    split; [done|]. apply list_elem_of_lookup. exists k. rewrite lookup_take_lt by done. done.
Qed.
Lemma exists_lt i w : w ∈ exists_at p i → (w < num_wires p)%N.
Proof.
  intros [?|(k & g & _ & Hg & <-)]%elem_of_exists; [pose proof (wf_inputs _ Hwf); lia|].
  apply list_elem_of_split_length in Hg as (l1 & l2 & Hg & _). by eapply gate_out_lt.
Qed.

(** The two tests of the code. *)
Lemma used_or_output_ok i w : (w < num_wires p)%N →
  (∀ k g, (k < i)%nat → gates p !! k = Some g → w ∉ reads g) →
  used_or_output live m w = Ret (wanted p i w).
Proof.
  intros Hw Hfresh. unfold used_or_output.
  destruct (vspec_get _ _ _ w (proj1 Hlive) Hw) as (lu & -> & Hlu).
  destruct (vspec_get _ _ _ w Hm Hw) as (b & Hb & ->). cbn [mbind outcome_bind].
  destruct lu as [j|]; simpl; [|rewrite Hb]; f_equal; symmetry.
  - destruct Hlu as [(g & Hg & Hr) _]. apply wanted_true. right. exists (N.to_nat j), g.
    split; [|done]. destruct (decide (i ≤ N.to_nat j)%nat); [done|]. exfalso.
    apply (Hfresh (N.to_nat j) g); [lia|done..].
  - apply eq_bool_prop_intro. rewrite Is_true_true, wanted_true, bool_decide_spec.
    split; [intros [?|(k & g & _ & Hg & Hr)]; [done|]|by left].
    exfalso. apply (Hlu g); [by apply list_elem_of_lookup; exists k|done].
Qed.
Definition released (gi : nat) (w : N) : bool := negb (wanted p (S gi) w).
Lemma release_ok gi g w active : gates p !! gi = Some g → w ∈ reads g →
  (0 < active < 2 ^ 64)%N →
  release live m (N.of_nat gi) active w = Ret (active - (if released gi w then 1 else 0))%N.
Proof.
  intros Hg Hr Ha. unfold release.
  assert (w < num_wires p)%N as Hw.
  { apply list_elem_of_split_length in Hg as (l1 & l2 & Hg & _). by eapply gate_reads_lt. }
  destruct (vspec_get _ _ _ w Hm Hw) as (b & Hb & ->). rewrite Hb. cbn [mbind outcome_bind].
  destruct (vspec_get _ _ _ w (proj1 Hlive) Hw) as (lu & Hgl & Hlu). unfold released.
  case_bool_decide as Ho.
  { rewrite (proj2 (wanted_true (S gi) w)) by (by left). simpl. f_equal. lia. }
  rewrite Hgl. cbn [mbind outcome_bind]. f_equal.
  destruct lu as [j|]; [|exfalso; apply (Hlu g); [by apply list_elem_of_lookup; exists gi|done]].
  destruct Hlu as [(g' & Hg' & Hr') Hmax]. pose proof (Hmax _ _ Hg Hr) as Hle.
  destruct (wanted p (S gi) w) eqn:Hwant; simpl.
  - rewrite bool_decide_eq_false_2; [lia|]. intros [= ->].
    apply wanted_true in Hwant as [?|(k & g2 & Hk & Hg2 & Hr2)]; [done|].
    pose proof (Hmax _ _ Hg2 Hr2). lia.
  - rewrite bool_decide_eq_true_2.
    + unfold u64. replace (active + (2 ^ 64 - 1))%N with (active - 1 + 1 * 2 ^ 64)%N by lia.
      rewrite N.Div0.mod_add. apply N.mod_small. lia.
    + f_equal. destruct (decide (N.to_nat j = gi)) as [<-|Hne]; [lia|]. exfalso.
      assert (wanted p (S gi) w = true); [|congruence].
      apply wanted_true. right. exists (N.to_nat j), g'. split; [lia|done].
Qed.

(** The live set from one gate to the next. *)
Lemma gate_reads_live gi g w : gates p !! gi = Some g → w ∈ reads g → w ∈ live_set p gi.
Proof.
  intros Hg Hr. apply elem_of_filter. split.
  - apply wanted_true. right. by exists gi, g.
  - apply elem_of_exists. pose proof Hg as (l1 & l2 & Hgs & Hl)%list_elem_of_split_length.
    destruct (wf_gates _ Hwf _ _ _ Hgs) as [_ Hdef _ _].
    destruct (Hdef w Hr) as [_ [?|Hin]]; [by left|right].
    apply list_elem_of_fmap in Hin as (g' & -> & (k & Hk)%list_elem_of_lookup).
    pose proof (lookup_lt_Some _ _ _ Hk). exists k, g'. split; [lia|].
    split; [|done]. rewrite Hgs. by apply lookup_app_l_Some.
Qed.
Lemma gate_out_new gi g : gates p !! gi = Some g → out g ∉ exists_at p gi.
Proof.
  intros Hg Hin. pose proof Hg as (l1 & l2 & Hgs & Hl)%list_elem_of_split_length.
  destruct (wf_gates _ Hwf _ _ _ Hgs) as [_ _ Ho Hn]. specialize (Hn Hdense).
  apply elem_of_exists in Hin as [?|(k & g' & Hk & Hg' & He)]; [lia|].
  apply Hn. rewrite <- He. apply list_elem_of_fmap. exists g'. split; [done|].
  apply list_elem_of_lookup. exists k. rewrite Hgs, lookup_app_l in Hg' by lia. done.
Qed.
Lemma live_set_S gi g w : gates p !! gi = Some g →
  w ∈ live_set p (S gi) ↔
  wanted p (S gi) w = true ∧ (w ∈ live_set p gi ∨ w = out g).
Proof.
  intros Hg. unfold live_set. rewrite !elem_of_filter, !elem_of_exists. split.
  - intros [Hw [?|(k & g' & Hk & Hg' & <-)]]; (split; [done|]).
    + left. split; [|by left]. apply wanted_true in Hw as [?|(j & g2 & ? & ?)];
        apply wanted_true; [by left|right; exists j, g2; split; [lia|done]].
    + destruct (decide (k = gi)) as [->|]; [right; congruence|left]. split.
      * apply wanted_true in Hw as [?|(j & g2 & ? & ?)];
          apply wanted_true; [by left|right; exists j, g2; split; [lia|done]].
      * right. exists k, g'. split; [lia|done].
  - intros [Hw [[_ [?|(k & g' & Hk & Hg' & <-)]]| ->]]; (split; [done|]).
    + by left.
    + right. exists k, g'. split; [lia|done].
    + right. exists gi, g. split; [lia|done].
Qed.

(** Sizes: removing an element when a condition holds. *)
Definition minus_if (c : bool) (w : N) (X : gset N) : gset N := if c then X ∖ {[w]} else X.
Lemma minus_if_size c w (X : gset N) : w ∈ X →
  N.of_nat (size (minus_if c w X)) = (N.of_nat (size X) - (if c then 1 else 0))%N.
Proof.
  intros Hw. destruct c; simpl; [|lia]. rewrite size_difference by set_solver.
  rewrite size_singleton. lia.
Qed.
Lemma elem_minus_if c w (X : gset N) x : x ∈ minus_if c w X ↔ x ∈ X ∧ ¬ (c = true ∧ x = w).
Proof. destruct c; simpl; set_solver. Qed.
Lemma elem_released gi w (X : gset N) x :
  x ∈ minus_if (released gi w) w X ↔ x ∈ X ∧ ¬ (released gi x = true ∧ x = w).
Proof. rewrite elem_minus_if. split; intros [? Hn]; (split; [done|]); intros [? ->]; by apply Hn. Qed.
Lemma size_pos (X : gset N) w : w ∈ X → (0 < N.of_nat (size X))%N.
Proof.
  intros Hw. assert (size X ≠ 0)%nat; [|lia]. intros H0%size_empty_inv. set_solver.
Qed.
Lemma live_count_le i : (live_count p i ≤ num_wires p)%N.
Proof.
  unfold live_count. assert (live_set p i ⊆ list_to_set (range 0 (num_wires p))) as Hsub.
  { intros w [_ Hw]%elem_of_filter. apply elem_of_list_to_set, elem_of_range.
    pose proof (exists_lt i w Hw). lia. }
  apply subseteq_size in Hsub.
  rewrite size_list_to_set in Hsub by (apply (NoDup_fmap_2 _), NoDup_seq).
  rewrite range_length in Hsub. lia.
Qed.

(** The wires kept after gate [gi]: those alive before, with its result when it
    is kept, less the operands read for the last time. *)
Definition kept (gi : nat) (g : Gate) : gset N :=
  if wanted p (S gi) (out g) then {[out g]} ∪ live_set p gi else live_set p gi.
Definition after (gi : nat) (g : Gate) : gset N :=
  let K := if is_const g then kept gi g else minus_if (released gi (in0 g)) (in0 g) (kept gi g) in
  if negb (is_const g) && negb (is_not g) && negb (in1 g =? in0 g)%N
  then minus_if (released gi (in1 g)) (in1 g) K else K.
Lemma reads_cases g w : w ∈ reads g ↔
  (is_const g = false ∧ w = in0 g) ∨ (is_const g = false ∧ is_not g = false ∧ w = in1 g).
Proof. unfold reads, is_const, is_not. destruct (op g); set_solver. Qed.
Lemma after_ok gi g : gates p !! gi = Some g → after gi g = live_set p (S gi).
Proof.
  intros Hg. apply set_eq. intros w. rewrite (live_set_S gi g w Hg).
  assert (w ∈ after gi g ↔ w ∈ kept gi g ∧ ¬ (released gi w = true ∧ w ∈ reads g)) as ->.
  { unfold after. rewrite reads_cases.
    destruct (is_const g), (is_not g), (N.eqb_spec (in1 g) (in0 g)) as [Heq|]; cbn [negb andb];
      rewrite ?elem_released, ?Heq; intuition congruence. }
  assert (w ∈ live_set p gi → released gi w = true → w ∈ reads g) as Hlast.
  { intros [Hw _]%elem_of_filter Hrel. apply negb_true_iff in Hrel.
    apply wanted_true in Hw as [Ho|(k & g' & Hk & Hg' & Hr)].
    - assert (wanted p (S gi) w = true); [apply wanted_true; by left|congruence].
    - destruct (decide (k = gi)) as [->|]; [congruence|].
      assert (wanted p (S gi) w = true); [|congruence].
      apply wanted_true. right. exists k, g'. split; [lia|done]. }
  assert (out g ∉ reads g) as Hself.
  { intros Hr. apply (gate_reads_live gi g _ Hg) in Hr as [_ Hr]%elem_of_filter.
    by eapply gate_out_new. }
  unfold kept, released in *. destruct (wanted p (S gi) w) eqn:Hww.
  - destruct (wanted p (S gi) (out g)) eqn:Hwo; [set_solver|].
    assert (w ≠ out g) by congruence. naive_solver.
  - destruct (wanted p (S gi) (out g)) eqn:Hwo; [|naive_solver].
    assert (w ≠ out g) by congruence. set_solver.
Qed.

Lemma kept_size gi g : gates p !! gi = Some g →
  N.of_nat (size (kept gi g)) = (live_count p gi + if wanted p (S gi) (out g) then 1 else 0)%N.
Proof.
  intros Hg. unfold kept, live_count. case_match; [|lia].
  rewrite size_union by (apply disjoint_singleton_l; intros [_ Hin]%elem_of_filter; by eapply gate_out_new).
  rewrite size_singleton. lia.
Qed.
Lemma kept_reads gi g w : gates p !! gi = Some g → w ∈ reads g → w ∈ kept gi g.
Proof. intros Hg Hr%(gate_reads_live gi g w Hg). unfold kept. case_match; set_solver. Qed.
(** The releases of the code on the count of a set. *)
Lemma release_size gi g w (X : gset N) : gates p !! gi = Some g → w ∈ reads g → w ∈ X →
  (N.of_nat (size X) < 2 ^ 64)%N →
  release live m (N.of_nat gi) (N.of_nat (size X)) w =
    Ret (N.of_nat (size (minus_if (released gi w) w X))).
Proof.
  intros Hg Hr Hw Hlt. rewrite (release_ok gi g) by (done || (pose proof (size_pos X w Hw); lia)).
  by rewrite minus_if_size.
Qed.
Lemma peak_step_ok gi g peak : gates p !! gi = Some g →
  peak_step p live m (live_count p gi, peak) (N.of_nat gi) =
    Ret (live_count p (S gi), N.max peak (live_count p gi + 1)).
Proof.
  intros Hg. pose proof (live_count_le gi) as Hle. unfold peak_step.
  assert (vget (gates p) (N.of_nat gi) = Ret g) as -> by (by apply vget_Ret; rewrite Nat2N.id).
  cbn [mbind outcome_bind].
  pose proof Hg as (l1 & l2 & Hgs & Hl)%list_elem_of_split_length.
  rewrite (used_or_output_ok (S gi) (out g)); [|by eapply gate_out_lt|].
  2:{ intros k g' Hk Hg' Hr. apply (dense_fresh p Hwf Hdense l1 g l2 Hgs g' (out g)); [|done..].
      rewrite Hgs in Hg'. apply list_elem_of_lookup. exists k.
      assert (k < length (l1 ++ [g]))%nat by (rewrite length_app; simpl; lia).
      rewrite cons_middle, app_assoc in Hg'. by rewrite lookup_app_l in Hg'. }
  cbn [mbind outcome_bind]. rewrite (u64_small (live_count p gi + 1)) by lia.
  pose proof (kept_size gi g Hg) as Hks.
  replace (if wanted p (S gi) (out g) then (live_count p gi + 1)%N else live_count p gi)
    with (N.of_nat (size (kept gi g))) by (rewrite Hks; destruct (wanted p (S gi) (out g)); lia).
  assert (N.of_nat (size (kept gi g)) < 2 ^ 64)%N as Hlt by (rewrite Hks; destruct (wanted p (S gi) (out g)); lia).
  assert (live_count p (S gi) = N.of_nat (size (after gi g))) as -> by (by rewrite after_ok).
  unfold after. destruct (is_const g) eqn:Hc; [done|]. cbn [negb andb].
  rewrite (release_size gi g) by (done || (try apply kept_reads; try apply reads_cases; by auto)).
  cbn [mbind outcome_bind]. destruct (is_not g) eqn:Hn; [done|]. cbn [negb andb].
  destruct (N.eqb_spec (in1 g) (in0 g)) as [Heq|Hne]; [done|]. cbn [negb].
  rewrite (release_size gi g); [done|done|apply reads_cases; auto| |].
  - apply elem_minus_if. split; [|naive_solver]. apply (kept_reads gi g _ Hg), reads_cases. auto.
  - rewrite minus_if_size by (apply (kept_reads gi g _ Hg), reads_cases; auto). lia.
Qed.

Lemma input_count_ok : foldO (λ active w, k ← used_or_output live m w;
    Ret (if (k : bool) then u64 (active + 1) else active)) 0%N (range 0 (num_inputs p)) =
  Ret (live_count p 0).
Proof.
  pose proof (wf_inputs _ Hwf) as Hni.
  destruct (foldO_range_inv (λ active w, k ← used_or_output live m w;
    Ret (if (k : bool) then u64 (active + 1) else active)) (num_inputs p)
    (λ i active, active = N.of_nat (size (filter (λ w, wanted p 0 w = true)
       (list_to_set (range 0 i) : gset N)))) 0%N) as (a & -> & ->); [done| |].
  - intros i s Hi ->. rewrite (used_or_output_ok 0 i) by lia. cbn [mbind outcome_bind].
    eexists. split; [done|].
    assert ((list_to_set (range 0 (i + 1)) : gset N) = list_to_set (range 0 i) ∪ {[i]}) as ->.
    { apply set_eq. intros w. rewrite elem_of_union, !elem_of_list_to_set, !elem_of_range, elem_of_singleton. lia. }
    set (X := list_to_set (range 0 i) : gset N).
    assert (i ∉ X) as Hnew by (unfold X; rewrite elem_of_list_to_set, elem_of_range; lia).
    assert (N.of_nat (size (filter (λ w, wanted p 0 w = true) X)) ≤ i)%N.
    { assert (size (filter (λ w, wanted p 0 w = true) X) ≤ size X)%nat as Hs
        by (apply subseteq_size; set_solver).
      unfold X in Hs at 2. rewrite size_list_to_set in Hs by (apply (NoDup_fmap_2 _), NoDup_seq).
      rewrite range_length in Hs. lia. }
    set (F := filter (λ w, wanted p 0 w = true) X) in *.
    assert (filter (λ w, wanted p 0 w = true) (X ∪ {[i]}) = if wanted p 0 i then F ∪ {[i]} else F) as ->.
    { apply set_eq. intros w. unfold F. destruct (wanted p 0 i) eqn:Hwi;
        rewrite ?elem_of_union, !elem_of_filter, elem_of_union, ?elem_of_singleton; intuition congruence. }
    destruct (wanted p 0 i); [|done]. rewrite u64_small by lia.
    rewrite size_union, size_singleton by (unfold F; set_solver). lia.
  - do 3 f_equal. unfold live_count, live_set, exists_at. cbn [take fmap list_fmap]. by rewrite app_nil_r.
Qed.
End peak.

Lemma peak_live_wires_ok p live : wf_program p → wire_reuse p = ReuseNone →
  (num_wires p < 2 ^ 32)%N → liveness_spec p (gates p) live →
  peak_live_wires p live = Ret (peak_spec p).
Proof.
  intros Hwf Hd Hs Hlive. unfold peak_live_wires.
  destruct (foldO_inv (λ (m : list bool) (w : N), vset m w true) (outputs p)
    (λ don : list N, vspec (num_wires p) (λ w b, b = bool_decide (w ∈ don)))
    (vmake (num_wires p) false)) as (m & -> & Hm).
  { apply vspec_make. intros w _. symmetry. apply bool_decide_eq_false_2, not_elem_of_nil. }
  { intros don w todo m0 Heq H0. apply (vspec_set _ _ _ _ _ _ H0).
    - pose proof (wf_outputs _ Hwf) as Ho. rewrite Heq in Ho.
      apply Forall_app in Ho as [_ Ho]. by apply Forall_cons in Ho as [[? _] _].
    - symmetry. apply bool_decide_eq_true_2. set_solver.
    - intros w' b _ Hne ->. apply bool_decide_ext. set_solver. }
  cbn [mbind outcome_bind]. rewrite (input_count_ok p) by done.
  cbn [mbind outcome_bind].
  destruct (foldO_index_inv (peak_step p live m) (gates p) (λ don s,
    s = (live_count p (length don),
         foldl (λ m i, N.max m (live_count p i + 1)) (live_count p 0) (seq 0 (length don))))
    (live_count p 0, live_count p 0)) as (s & -> & ->); [done| |done].
  intros don g todo s Hg ->. eexists. split.
  - apply (peak_step_ok p) with (g := g); [done..|].
    rewrite Hg. by apply list_lookup_middle.
  - rewrite length_app, Nat.add_1_r, seq_S, foldl_app. done.
Qed.

(** ** What the maxima mean *)
(** How many operand slots of gates read [w]. *)
Definition reads_count (gs : list Gate) (w : N) : N := vlen (filter (λ v, v = w) (gs ≫= reads)).
Definition max_of (l : list N) (m : N) : Prop := (∀ x, x ∈ l → x ≤ m)%N ∧ (m = 0%N ∨ m ∈ l).
Lemma foldl_max_of l : max_of l (foldl N.max 0%N l).
Proof.
  induction l as [|x l IH] using rev_ind; [split; [by intros x ?%elem_of_nil|by left]|].
  rewrite foldl_app. simpl. destruct IH as [Hle Hin]. split.
  - intros y [Hy|Hy%list_elem_of_singleton]%elem_of_app; [specialize (Hle y Hy); lia|subst; lia].
  - destruct (N.max_spec (foldl N.max 0%N l) x) as [[_ ->]|[_ ->]]; [right; set_solver|].
    destruct Hin; [by left|right; set_solver].
Qed.
Lemma reads_count_snoc gs g w :
  reads_count (gs ++ [g]) w = (reads_count gs w + vlen (filter (λ v, v = w) (reads g)))%N.
Proof. unfold reads_count. by rewrite bind_app, filter_app, vlen_app, bind_cons, app_nil_r. Qed.
Lemma reads_count_le gs w : (reads_count gs w ≤ 2 * vlen gs)%N.
Proof.
  induction gs as [|g gs IH] using rev_ind; [by unfold reads_count, vlen|].
  rewrite reads_count_snoc, vlen_app. unfold vlen in *. cbn [length].
  pose proof (length_filter (λ v, v = w) (reads g)).
  assert (length (reads g) ≤ 2)%nat by (unfold reads; destruct (op g); simpl; lia). lia.
Qed.
(** Counting one operand more. *)
Definition fanout_upto (p : BooleanProgram) (don : list Gate) (seen : list N) : list N → Prop :=
  vspec (num_wires p) (λ w n, n = reads_count don w + vlen (filter (λ v, v = w) seen))%N.
Lemma fanout_count p don seen w fo : (w < num_wires p)%N → (vlen don < 2 ^ 32)%N →
  (vlen seen ≤ 2)%N → fanout_upto p don seen fo →
  ∃ f0 fo', vget fo w = Ret f0 ∧ vset fo w (u64 (f0 + 1)) = Ret fo' ∧ fanout_upto p don (seen ++ [w]) fo'.
Proof.
  intros Hw Hlen Hseen Hfo. destruct (vspec_get _ _ _ w Hfo Hw) as (f0 & Hf0 & ->).
  pose proof (reads_count_le don w) as Hrc.
  assert (vlen (filter (λ v, v = w) seen) ≤ 2)%N as Hf.
  { pose proof (length_filter (λ v, v = w) seen). unfold vlen in *. lia. }
  destruct (vspec_set _ _ (λ v n, n = reads_count don v + vlen (filter (λ u, u = v) (seen ++ [w])))%N
    _ w (u64 (reads_count don w + vlen (filter (λ v, v = w) seen) + 1)) Hfo Hw) as (fo' & Hset & Hfo').
  - rewrite u64_small by lia. rewrite filter_app, vlen_app, filter_cons_True, filter_nil by done.
    unfold vlen at 3. simpl. lia.
  - intros v n _ Hne ->. rewrite filter_app, vlen_app, filter_cons_False, filter_nil by congruence.
    unfold vlen at 3. simpl. lia.
  - eauto.
Qed.
Lemma fanout_ok p : wf_program p → (vlen (gates p) < 2 ^ 32)%N →
  ∃ fo, foldO fanout_step (vmake (num_wires p) 0%N) (gates p) = Ret fo ∧
    vspec (num_wires p) (λ w n, n = reads_count (gates p) w) fo.
Proof.
  intros Hwf Hs.
  apply (foldO_inv _ _ (λ don, vspec (num_wires p) (λ w n, n = reads_count don w))).
  { by apply vspec_make. }
  intros don g todo fo Hg Hfo.
  assert (vlen don < 2 ^ 32)%N as Hlen.
  { assert (vlen don ≤ vlen (gates p))%N; [rewrite Hg, vlen_app; lia|lia]. }
  pose proof (λ w, gate_reads_lt p Hwf don g todo w Hg) as Hlt.
  assert (∀ fo', fanout_upto p don (reads g) fo' →
    vspec (num_wires p) (λ w n, n = reads_count (don ++ [g]) w) fo') as Hdone.
  { intros fo' H. eapply vspec_impl; [exact H|]. intros w n _ ->. by rewrite reads_count_snoc. }
  assert (fanout_upto p don [] fo) as H0.
  { eapply vspec_impl; [exact Hfo|]. intros w n _ ->. unfold vlen at 1. simpl. lia. }
  unfold fanout_step. unfold reads in Hlt, Hdone.
  assert (∀ a, (a < num_wires p)%N → ∃ f0 fo', vget fo a = Ret f0 ∧ vset fo a (u64 (f0 + 1)) = Ret fo' ∧
    fanout_upto p don [a] fo') as H1 by (intros a Ha; by apply (fanout_count p don [])).
  unfold is_const, is_not. destruct (op g).
  1-2: destruct (H1 (in0 g)) as (f0 & fo1 & -> & Hs1 & Hf1); [apply Hlt; set_solver|];
    cbn [mbind outcome_bind]; rewrite Hs1; cbn [mbind outcome_bind];
    destruct (fanout_count p don [in0 g] (in1 g) fo1) as (f1 & fo2 & -> & Hs2 & Hf2);
      [apply Hlt; set_solver|done|done|done|];
    cbn [mbind outcome_bind]; rewrite Hs2; exists fo2; (split; [done|]); by apply Hdone.
  - destruct (H1 (in0 g)) as (f0 & fo1 & -> & Hs1 & Hf1); [apply Hlt; set_solver|].
    cbn [mbind outcome_bind]. rewrite Hs1. exists fo1. split; [done|]. by apply Hdone.
  - exists fo. split; [done|]. by apply Hdone.
  - exists fo. split; [done|]. by apply Hdone.
Qed.

(** ** Every field of the statistics *)
Record stats_spec (stored d : BooleanProgram) (st : ProgramStats) : Prop := {
  ss_stored : st_wire_reuse st = wire_reuse stored ∧ st_num_inputs st = num_inputs stored ∧
    st_num_outputs st = vlen (outputs stored) ∧ st_stored_num_wires st = num_wires stored ∧
    st_stored_program_digest st = DigestCtx.digest_program stored;
  ss_dense : st_dense_num_wires st = num_wires d ∧ st_num_gates st = vlen (gates d) ∧
    st_dense_program_digest st = DigestCtx.digest_program d;
  ss_counts : st_num_and st = count_op is_and (gates d) ∧ st_num_xor st = count_op is_xor (gates d) ∧
    st_num_not st = count_op is_not (gates d) ∧ st_num_const st = count_op is_const (gates d);
  ss_depth : (∀ w n, and_path (gates d) w n → (n ≤ N.to_nat (st_and_depth st))%nat) ∧
    ∃ w, and_path (gates d) w (N.to_nat (st_and_depth st));
  ss_level : ∃ wl, (∀ w lv, wl !! N.to_nat w = Some lv → level_of (gates d) w lv) ∧
    max_of ((λ lv, vlen (ands_at d wl lv (vlen (gates d)))) <$> range 0 (st_and_depth st + 1))
      (st_max_and_per_level st);
  ss_reach : ∃ reach, reach_spec d reach ∧
    st_reachable_wires st = vlen (filter (λ b : bool, b = true) reach) ∧
    st_reachable_gates st = vlen (filter (λ g, reach !! N.to_nat (out g) = Some true) (gates d)) ∧
    st_reachable_and st =
      vlen (filter (λ g, is_and g = true ∧ reach !! N.to_nat (out g) = Some true) (gates d));
  ss_peak : st_peak_live_wires st = peak_spec d;
  ss_fanout : max_of (reads_count (gates d) <$> range 0 (num_wires d)) (st_max_fanout st) }.

Lemma vspec_fmap {X} (n : N) (f : N → X) v : vspec n (λ w x, x = f w) v → v = f <$> range 0 n.
Proof.
  intros [Hl Hv]. apply list_eq. intros i. rewrite list_lookup_fmap.
  destruct (decide (N.of_nat i < n)%N) as [Hi|Hi].
  - destruct (Hv (N.of_nat i) Hi) as (x & Hx%vget_Ret & ->). rewrite Nat2N.id in Hx. rewrite Hx.
    assert (range 0 n !! i = Some (N.of_nat i)) as -> by (apply range_lookup; lia). done.
  - rewrite !lookup_ge_None_2; [done|rewrite range_length; lia|unfold vlen in Hl; lia].
Qed.
Lemma foldl_max_map {A} (f : A → N) l : foldl (λ m a, N.max m (f a)) 0%N l = foldl N.max 0%N (f <$> l).
Proof.
  induction l as [|a l IH] using rev_ind; [done|]. rewrite fmap_app, !foldl_app, IH. done.
Qed.
(** The passes of [analyze_program] on the dense form. *)
Lemma analyze_dense stored d : wf_program stored →
  (wire_reuse stored = ReuseNone → d = stored) →
  (wire_reuse stored ≠ ReuseNone → uncompact stored = Ret d) →
  wf_program d → wire_reuse d = ReuseNone → (num_wires d < 2 ^ 32)%N →
  (vlen (gates d) < INT_MAX)%N →
  ∃ st, analyze_program stored = Ret st ∧ stats_spec stored d st.
Proof.
  intros Hst Hsame Hunc Hwf Hd Hs Hi. unfold analyze_program.
  rewrite (proj2 (validate_wf stored) Hst). cbn [mbind outcome_bind].
  assert ((if decide (wire_reuse stored = ReuseNone) then Ret stored else uncompact stored) = Ret d)
    as -> by (case_decide; [f_equal; symmetry|]; auto).
  cbn [mbind outcome_bind].
  destruct (liveness_pass_ok d Hwf Hd Hs) as (live & -> & Hlive). cbn [mbind outcome_bind].
  destruct (schedule_pass_ok d Hwf Hd Hs Hi) as (wl & lists & dp & -> & Hwl & (Hub & Hex & _) & Hl).
  cbn [mbind outcome_bind].
  destruct (layout_pass_ok d live Hwf Hd Hs Hlive) as (lay & reach & -> & _ & _ & Hreach & Hr).
  cbn [mbind outcome_bind]. rewrite (peak_live_wires_ok d live Hwf Hd Hs Hlive).
  cbn [mbind outcome_bind].
  destruct (fanout_ok d Hwf) as (fo & -> & Hfo); [unfold INT_MAX in Hi; lia|].
  cbn [mbind outcome_bind]. eexists. split; [done|].
  rewrite count_pass_eq. constructor; simpl; [done| |done|done| |by exists reach|done|].
  - by rewrite num_gate_dense.
  - exists wl. split; [intros w lv Hw; by apply (vspec_lookup _ _ _ _ _ Hwl) in Hw as [? _]|].
    rewrite (vspec_fmap _ _ _ Hl), foldl_max_map, <- list_fmap_compose. apply foldl_max_of.
  - rewrite (vspec_fmap _ _ _ Hfo). apply foldl_max_of.
Qed.

(** ** Properties *)

(** Program statistics mean what they are called.  [analyze_program] refuses
    exactly the ill-formed programs; on any other, stored densely or with wire
    reuse, every field is the fact it names about the dense program with the
    same function: gate counts, largest number of And gates on a path and in a
    level, reachability from the outputs, the largest number of wires wanted at
    one time (the result of a gate included while it is computed), the largest
    number of operand slots reading one wire, and the two digests. *)
Theorem analyze_program_correct stored :
  (num_inputs stored + vlen (gates stored) < 2 ^ 32)%N → (vlen (gates stored) < INT_MAX)%N →
  match analyze_program stored with
  | Ret st => wf_program stored ∧ ∃ d, wf_program d ∧ wire_reuse d = ReuseNone ∧
      num_inputs d = num_inputs stored ∧ op <$> gates d = op <$> gates stored ∧
      (wire_reuse stored = ReuseNone → d = stored) ∧
      (∀ ins, vlen ins = num_inputs stored → eval_program d ins = eval_program stored ins) ∧
      stats_spec stored d st
  | Fatal _ => ¬ wf_program stored
  | Undef => False
  end.
Proof.
  intros Hs Hi. pose proof (validate_wf stored) as Hv. pose proof (validate_not_Undef stored) as Hn.
  destruct (decide (wf_program stored)) as [Hwf|Hwf].
  2:{ unfold analyze_program. destruct (validate_program stored) as [[]| |]; simpl; [|done|done].
      by destruct Hwf; apply Hv. }
  destruct (decide (wire_reuse stored = ReuseNone)) as [Hd|Hd].
  - destruct (analyze_dense stored stored) as (st & -> & Hst); try done.
    { rewrite (dense_count stored Hwf Hd). lia. }
    split; [done|]. by exists stored.
  - destruct (uncompact_ok stored Hwf Hs) as (d & Hu & Hwd & _ & Hdd & Hni & Hop & _ & Hev).
    assert (vlen (gates d) = vlen (gates stored)) as Hlen.
    { unfold vlen. by rewrite <- (length_fmap op (gates d)), Hop, length_fmap. }
    destruct (analyze_dense stored d) as (st & -> & Hst); try done.
    { rewrite (dense_count d Hwd Hdd). lia. }
    { by rewrite Hlen. }
    split; [done|]. exists d. by split_and!.
Qed.

Lemma analyze_program_correct_witness :
  ∃ st, analyze_program sample_dense = Ret st ∧ st_and_depth st = 2%N ∧ st_peak_live_wires st = 3%N ∧
    stats_spec sample_dense sample_dense st.
Proof.
  pose proof (analyze_program_correct sample_dense eq_refl eq_refl) as H.
  destruct (analyze_program sample_dense) as [st| |] eqn:Hst; [|vm_compute in Hst; discriminate..].
  destruct H as (_ & d & _ & _ & _ & _ & Heq & _ & Hss). exists st. split; [done|].
  vm_compute in Hst. injection Hst as <-. split; [done|]. split; [done|].
  by rewrite <- (Heq eq_refl) at 2.
Defined.
