(* ===== verification/FloatTraits.v ===== *)
(** * Half-precision conversion (circuits/float_traits.h)

    [emp_float_to_half] and [emp_half_to_float] on bit patterns, and what they
    compute: rounding to nearest with ties to even, and the exact embedding.
    [memcpy] between a [float] and its pattern is the identity here, the
    patterns are the values.  Magnitudes are counted in units of 2^-149, the
    smallest positive [float], so both formats are integers. *)

From S2P Require Import Prelude.

(** ** The code *)
Definition emp_float_to_half (x : N) : N :=
  let sign := N.land (N.shiftr x 16) 0x8000 in
  let fexp := N.land (N.shiftr x 23) 0xFF in
  let mant := N.land x 0x7FFFFF in
  if (fexp =? 0xFF)%N then
    N.lor (N.lor (N.lor sign 0x7C00) (if (mant =? 0)%N then 0 else 0x200)) (N.shiftr mant 13) mod 2 ^ 16
  else
  let e := (Z.of_N fexp - 127 + 15)%Z in
  if (0x1F <=? e)%Z then N.lor sign 0x7C00
  else if (e <=? 0)%Z then
    if (e <? -10)%Z then sign else
    let mant := N.lor mant 0x800000 in
    let shift := Z.to_N (14 - e) in
    let h := N.shiftr mant shift in
    let rem := N.land mant (N.shiftl 1 shift - 1) in
    let half := N.shiftl 1 (shift - 1) in
    let h := if (half <? rem)%N || ((rem =? half)%N && N.odd h) then (h + 1)%N else h in
    N.lor sign h mod 2 ^ 16
  else
    let h := N.lor (N.lor sign (N.shiftl (Z.to_N e) 10)) (N.shiftr mant 13) in
    let rem := N.land mant 0x1FFF in
    let h := if (0x1000 <? rem)%N || ((rem =? 0x1000)%N && N.odd h) then (h + 1)%N else h in
    h mod 2 ^ 16.

(** [while (!(mant & 0x400)) { mant <<= 1; --e; }]; [None] when the fuel runs
    out, ten turns are enough for a nonzero [mant] below 0x400. *)
Fixpoint normalize (fuel : nat) (mant : N) (e : Z) : option (N * Z) :=
  if negb (N.land mant 0x400 =? 0)%N then Some (mant, e) else
  match fuel with O => None | S fuel => normalize fuel (u32 (N.shiftl mant 1)) (e - 1) end.
Definition emp_half_to_float (h : N) : option N :=
  let sign := u32 (N.shiftl (N.land h 0x8000) 16) in
  let exp := N.land (N.shiftr h 10) 0x1F in
  let mant := N.land h 0x3FF in
  if (exp =? 0)%N then
    if (mant =? 0)%N then Some sign else
    '(mant, e) ← normalize 10 mant (127 - 15 + 1);
    let mant := N.land mant 0x3FF in
    Some (N.lor (N.lor sign (u32 (N.shiftl (Z.to_N e) 23))) (u32 (N.shiftl mant 13)))
  else if (exp =? 0x1F)%N then Some (N.lor (N.lor sign 0x7F800000) (u32 (N.shiftl mant 13)))
  else Some (N.lor (N.lor sign (u32 (N.shiftl (u32 (exp + (2 ^ 32 - 15) + 127)) 23)))
              (u32 (N.shiftl mant 13))).

(** ** The values of bit patterns *)
Definition float_magnitude (x : N) : N :=
  let fexp := (x / 2 ^ 23 mod 2 ^ 8)%N in let mant := (x mod 2 ^ 23)%N in
  if (fexp =? 0)%N then mant else ((2 ^ 23 + mant) * 2 ^ (fexp - 1))%N.
(** Of a 15-bit magnitude; 0x7C00, infinity, counts as the number after the
    largest finite one. *)
Definition half_magnitude (m : N) : N :=
  let exp := (m / 2 ^ 10)%N in let mant := (m mod 2 ^ 10)%N in
  ((if (exp =? 0)%N then mant else (2 ^ 10 + mant) * 2 ^ (exp - 1)) * 2 ^ 125)%N.
Definition float_nan (x : N) : bool := (0x7F800000 <? x mod 2 ^ 31)%N.
Definition half_nan (h : N) : bool := (0x7C00 <? h mod 2 ^ 15)%N.
(** [m] is [F] rounded to the nearest half, ties to even, overflow to infinity:
    [F] lies between the midpoints on both sides of [m], on one only if [m] is even. *)
Definition nearest_even (F m : N) : Prop :=
  (m ≤ 0x7C00)%N ∧
  (0 < m → half_magnitude (m - 1) + half_magnitude m < 2 * F ∨
     half_magnitude (m - 1) + half_magnitude m = 2 * F ∧ N.even m = true)%N ∧
  (m < 0x7C00 → 2 * F < half_magnitude m + half_magnitude (m + 1) ∨
     2 * F = half_magnitude m + half_magnitude (m + 1) ∧ N.even m = true)%N.

(** ** Fields *)
Lemma land_ones_mod a n : N.land a (2 ^ n - 1) = (a mod 2 ^ n)%N.
Proof. rewrite <- N.land_ones. f_equal. by rewrite N.ones_equiv, N.sub_1_r. Qed.
Lemma lor_shifted a b n : (b < 2 ^ n)%N → N.lor (a * 2 ^ n) b = (a * 2 ^ n + b)%N.
Proof.
  intros Hb. rewrite <- N.shiftl_mul_pow2. assert (N.land (N.shiftl a n) b = 0)%N as H0;
    [|by rewrite <- N.lxor_lor, N.add_nocarry_lxor].
  apply N.bits_inj_0. intros i. rewrite N.land_spec. destruct (N.ltb_spec i n).
  - by rewrite N.shiftl_spec_low.
  - rewrite <- (N.mod_small b (2 ^ n)) by done. by rewrite N.mod_pow2_bits_high, andb_false_r.
Qed.
Lemma sign_bit x : (x < 2 ^ 32)%N → N.land (N.shiftr x 16) 0x8000 = (x / 2 ^ 31 * 2 ^ 15)%N.
Proof.
  intros Hx. apply N.bits_inj. intros i. rewrite N.land_spec, N.shiftr_spec', <- N.shiftl_mul_pow2.
  change 0x8000%N with (2 ^ 15)%N. rewrite N.pow2_bits_eqb.
  destruct (N.eqb_spec 15 i) as [<-|Hne].
  - rewrite N.shiftl_spec_high', N.div_pow2_bits by lia. by rewrite andb_true_r.
  - rewrite andb_false_r. destruct (N.ltb_spec i 15); [by rewrite N.shiftl_spec_low|].
    rewrite N.shiftl_spec_high', N.div_pow2_bits by lia.
    rewrite <- (N.mod_small x (2 ^ 32)) by done. symmetry. apply N.mod_pow2_bits_high. lia.
Qed.
Lemma half_magnitude_normal e t : (1 ≤ e)%N → (t < 2 ^ 10)%N →
  half_magnitude (e * 2 ^ 10 + t) = ((2 ^ 10 + t) * 2 ^ (e + 124))%N.
Proof.
  intros He Ht. unfold half_magnitude.
  rewrite <- (N.div_unique (e * 2 ^ 10 + t) (2 ^ 10) e t) by lia.
  rewrite <- (N.mod_unique (e * 2 ^ 10 + t) (2 ^ 10) e t) by lia.
  rewrite (proj2 (N.eqb_neq e 0)) by lia. rewrite <- N.mul_assoc, <- N.pow_add_r. do 2 f_equal. lia.
Qed.
(** The successor is one step of the exponent's size away, across exponents too. *)
Lemma half_magnitude_succ e t : (1 ≤ e)%N → (t < 2 ^ 10)%N →
  half_magnitude (e * 2 ^ 10 + t + 1) = ((2 ^ 10 + t + 1) * 2 ^ (e + 124))%N.
Proof.
  intros He Ht. destruct (N.eq_dec t (2 ^ 10 - 1)%N) as [->|Hne].
  - replace (e * 2 ^ 10 + (2 ^ 10 - 1) + 1)%N with ((e + 1) * 2 ^ 10 + 0)%N by lia.
    rewrite half_magnitude_normal by lia. replace (e + 1 + 124)%N with (N.succ (e + 124)) by lia.
    rewrite N.pow_succ_r'. lia.
  - rewrite <- N.add_assoc, half_magnitude_normal by lia. f_equal. lia.
Qed.
Lemma half_magnitude_small m : (m ≤ 2 ^ 10)%N → half_magnitude m = (m * 2 ^ 125)%N.
Proof.
  intros Hm. destruct (N.eq_dec m (2 ^ 10)%N) as [->|Hne]; [done|].
  unfold half_magnitude. rewrite N.div_small, N.mod_small by lia. done.
Qed.
Lemma half_magnitude_lt m : (half_magnitude m < half_magnitude (m + 1))%N.
Proof.
  destruct (N.lt_ge_cases m (2 ^ 10)) as [Hlt|Hge].
  { rewrite !half_magnitude_small by lia. lia. }
  pose proof (N.div_mod' m (2 ^ 10)) as Hm. pose proof (N.mod_lt m (2 ^ 10)).
  pose proof (N.div_le_lower_bound m (2 ^ 10) 1).
  set (e := (m / 2 ^ 10)%N) in *. set (t := (m mod 2 ^ 10)%N) in *.
  replace m with (e * 2 ^ 10 + t)%N by lia.
  rewrite half_magnitude_normal, half_magnitude_succ by lia.
  apply N.mul_lt_mono_pos_r; [|lia]. apply N.neq_0_lt_0, N.pow_nonzero. lia.
Qed.

(** Rounding one of the two neighbours: [F] is [rem] small units above [m], a
    step of the format is [2 * half] of them. *)
Definition round_up (half rem h : N) : bool := (half <? rem)%N || ((rem =? half)%N && N.odd h).
Lemma round_nearest F m half rem u : (m < 0x7C00)%N → (0 < u)%N → (rem < 2 * half)%N →
  F = (half_magnitude m + rem * u)%N →
  half_magnitude (m + 1) = (half_magnitude m + 2 * half * u)%N →
  nearest_even F (if round_up half rem m then m + 1 else m).
Proof.
  intros Hm Hu Hrem HF Hstep. unfold round_up. pose proof (half_magnitude_lt (m + 1)) as Hnext.
  assert (0 < m → half_magnitude (m - 1) < half_magnitude m)%N as Hprev.
  { intros H0. pose proof (half_magnitude_lt (m - 1)) as H1.
    by replace (m - 1 + 1)%N with m in H1 by lia. }
  assert (rem * u < 2 * half * u)%N as Hlt by (apply N.mul_lt_mono_pos_r; lia).
  destruct (N.ltb_spec half rem) as [Hup|Hle]; cbn [orb].
  { assert (half * u < rem * u)%N by (apply N.mul_lt_mono_pos_r; lia).
    split; [lia|]. replace (m + 1 - 1)%N with m by lia. split; left; lia. }
  destruct (N.eqb_spec rem half) as [->|Hne]; cbn [andb].
  - destruct (N.odd m) eqn:Hodd; (split; [lia|]).
    + replace (m + 1 - 1)%N with m by lia. split; [|left; lia]. right. split; [lia|].
      rewrite N.add_1_r, N.even_succ. done.
    + split; [left; lia|]. right. split; [lia|]. by rewrite <- N.negb_odd, Hodd.
  - assert (rem * u < half * u)%N by (apply N.mul_lt_mono_pos_r; lia).
    split; [lia|]. split; left; lia.
Qed.

(** The fields of a pattern. *)
Lemma float_fields x : (x < 2 ^ 32)%N → ∃ s fe mant,
  x = (s * 2 ^ 31 + fe * 2 ^ 23 + mant)%N ∧ (s < 2)%N ∧ (fe < 2 ^ 8)%N ∧ (mant < 2 ^ 23)%N ∧
  N.land (N.shiftr x 16) 0x8000 = (s * 2 ^ 15)%N ∧ N.land (N.shiftr x 23) 0xFF = fe ∧
  N.land x 0x7FFFFF = mant ∧ (x / 2 ^ 23 mod 2 ^ 8 = fe)%N ∧ (x mod 2 ^ 23 = mant)%N.
Proof.
  intros Hx. exists (x / 2 ^ 31)%N, (x / 2 ^ 23 mod 2 ^ 8)%N, (x mod 2 ^ 23)%N.
  pose proof (N.div_mod' x (2 ^ 23)) as H1. pose proof (N.div_mod' (x / 2 ^ 23) (2 ^ 8)) as H2.
  rewrite N.Div0.div_div in H2. change (2 ^ 23 * 2 ^ 8)%N with (2 ^ 31)%N in H2.
  split; [lia|]. split; [apply N.Div0.div_lt_upper_bound; lia|].
  split; [by apply N.mod_lt|]. split; [by apply N.mod_lt|].
  split; [by apply sign_bit|].
  split; [rewrite N.shiftr_div_pow2; apply (land_ones_mod _ 8)|].
  split; [apply (land_ones_mod _ 23)|]. done.
Qed.
Lemma with_sign_lor s m : (m < 2 ^ 15)%N → N.lor (s * 2 ^ 15) m = (s * 2 ^ 15 + m)%N.
Proof. apply lor_shifted. Qed.
Lemma odd_with_sign s m : N.odd (s * 2 ^ 15 + m) = N.odd m.
Proof.
  rewrite N.odd_add. replace (s * 2 ^ 15)%N with (2 * (s * 2 ^ 14))%N by lia. rewrite N.odd_mul.
  simpl. by destruct (N.odd m).
Qed.

(** The three ways a number is rounded. *)
Lemma round_normal fe mant : (113 ≤ fe < 143)%N → (mant < 2 ^ 23)%N →
  let m := ((fe - 112) * 2 ^ 10 + mant / 2 ^ 13)%N in
  nearest_even ((2 ^ 23 + mant) * 2 ^ (fe - 1))
    (if round_up 0x1000 (mant mod 2 ^ 13) m then m + 1 else m).
Proof.
  intros Hfe Hmant m. set (e := (fe - 112)%N). set (t := (mant / 2 ^ 13)%N) in *.
  pose proof (N.div_mod' mant (2 ^ 13)) as Hd. fold t in Hd.
  assert (t < 2 ^ 10)%N as Ht by (apply N.Div0.div_lt_upper_bound; lia).
  assert (e + 124 = fe - 1 + 13)%N as Hexp by lia.
  apply (round_nearest _ _ _ _ (2 ^ (fe - 1))).
  - unfold m. fold e. lia.
  - apply N.neq_0_lt_0, N.pow_nonzero. lia.
  - by apply N.mod_lt.
  - unfold m. fold e. rewrite half_magnitude_normal, Hexp, N.pow_add_r by lia.
    change 8192%N with (2 ^ 13)%N in *. nia.
  - unfold m. fold e. rewrite half_magnitude_succ, half_magnitude_normal, Hexp, N.pow_add_r by lia. nia.
Qed.
Lemma round_subnormal fe mant : (102 ≤ fe < 113)%N → (mant < 2 ^ 23)%N →
  let k := (126 - fe)%N in let m := ((2 ^ 23 + mant) / 2 ^ k)%N in
  nearest_even ((2 ^ 23 + mant) * 2 ^ (fe - 1))
    (if round_up (2 ^ (k - 1)) ((2 ^ 23 + mant) mod 2 ^ k) m then m + 1 else m) ∧ (m < 2 ^ 10)%N.
Proof.
  intros Hfe Hmant k m. set (M := (2 ^ 23 + mant)%N) in *.
  pose proof (N.div_mod' M (2 ^ k)) as Hd. fold m in Hd.
  assert (2 ^ k ≠ 0)%N as Hk by (apply N.pow_nonzero; lia).
  assert (2 ^ 14 ≤ 2 ^ k)%N as Hk14 by (apply N.pow_le_mono_r; lia).
  assert (m < 2 ^ 10)%N as Hm.
  { apply N.Div0.div_lt_upper_bound. unfold M. nia. }
  assert (2 ^ k * 2 ^ (fe - 1) = 2 ^ 125)%N as Hunit by (rewrite <- N.pow_add_r; f_equal; lia).
  assert (2 * 2 ^ (k - 1) = 2 ^ k)%N as Hhalf by (rewrite <- N.pow_succ_r'; f_equal; lia).
  split; [|done]. apply (round_nearest _ _ _ _ (2 ^ (fe - 1))).
  - lia.
  - apply N.neq_0_lt_0, N.pow_nonzero. lia.
  - rewrite Hhalf. by apply N.mod_lt.
  - rewrite half_magnitude_small, <- Hunit by lia. rewrite Hd at 1. lia.
  - rewrite !half_magnitude_small, Hhalf by lia. rewrite Hunit. lia.
Qed.

Lemma nearest_small fe mant : (fe < 102)%N → (mant < 2 ^ 23)%N →
  nearest_even (if (fe =? 0)%N then mant else ((2 ^ 23 + mant) * 2 ^ (fe - 1))%N) 0.
Proof.
  intros Hfe Hmant. split; [lia|]. split; [lia|]. intros _. left.
  assert ((if (fe =? 0)%N then mant else (2 ^ 23 + mant) * 2 ^ (fe - 1)) < 2 ^ 124)%N as H.
  { destruct (N.eqb_spec fe 0); [lia|].
    assert (2 ^ (fe - 1) ≤ 2 ^ 100)%N by (apply N.pow_le_mono_r; lia). nia. }
  change (half_magnitude 0) with 0%N. change (half_magnitude (0 + 1)) with (2 ^ 125)%N. lia.
Qed.
Lemma nearest_large fe mant : (143 ≤ fe)%N → nearest_even ((2 ^ 23 + mant) * 2 ^ (fe - 1)) 0x7C00.
Proof.
  intros Hfe. split; [lia|]. split; [|lia]. intros _. left.
  assert (2 ^ 142 ≤ 2 ^ (fe - 1))%N by (apply N.pow_le_mono_r; lia).
  change (half_magnitude (0x7C00 - 1) + half_magnitude 0x7C00)%N with (2047 * 2 ^ 154 + 2 ^ 165)%N. nia.
Qed.
Lemma mod16 s m : (s < 2)%N → (m < 2 ^ 15)%N → ((s * 2 ^ 15 + m) mod 2 ^ 16 = s * 2 ^ 15 + m)%N.
Proof. intros. apply N.mod_small. lia. Qed.

(** Infinities and NaNs, numbers below the normal range, normal numbers. *)
Lemma special_to_half s mant : (s < 2)%N → (mant < 2 ^ 23)%N → ∃ m,
  (N.lor (N.lor (N.lor (s * 2 ^ 15) 0x7C00) (if (mant =? 0)%N then 0 else 0x200)) (N.shiftr mant 13) mod 2 ^ 16 = s * 2 ^ 15 + m)%N ∧
  (m < 2 ^ 15)%N ∧
  if (0x7F800000 <? 255 * 2 ^ 23 + mant)%N then (0x7C00 < m)%N else nearest_even ((2 ^ 23 + mant) * 2 ^ (255 - 1)) m.
Proof.
  intros Hs Hm. pose proof (N.Div0.div_lt_upper_bound mant (2 ^ 13) (2 ^ 10)) as Hq.
  set (q := (if (mant =? 0)%N then 0 else 0x200)%N). set (r := N.shiftr mant 13).
  assert (r < 2 ^ 10)%N as Hr by (unfold r; rewrite N.shiftr_div_pow2; apply Hq; lia).
  assert (q < 2 ^ 10)%N as Hq' by (unfold q; case_match; lia).
  assert (N.lor q r < 2 ^ 10)%N as Hqr by (by apply lor_lt).
  exists (31 * 2 ^ 10 + N.lor q r)%N. split; [|split; [lia|]].
  - change 0x7C00%N with (31 * 2 ^ 10)%N.
    rewrite <- !N.lor_assoc, (lor_shifted 31 _ 10), with_sign_lor by lia. apply mod16; [done|lia].
  - unfold q. destruct (N.eqb_spec mant 0) as [->|Hmz].
    + change (0x7F800000 <? 255 * 2 ^ 23 + 0)%N with false. cbv iota. unfold r.
      change (31 * 2 ^ 10 + N.lor 0 (N.shiftr 0 13))%N with 0x7C00%N. by apply nearest_large.
    + rewrite (proj2 (N.ltb_lt 0x7F800000 (255 * 2 ^ 23 + mant))) by lia.
      assert (N.lor 0x200 r ≠ 0)%N by (intros [? _]%N.lor_eq_0_iff; done). lia.
Qed.
Lemma subnormal_to_half s fe mant : (s < 2)%N → (102 ≤ fe < 113)%N → (mant < 2 ^ 23)%N →
  let M := N.lor mant 0x800000 in let shift := (126 - fe)%N in let h := N.shiftr M shift in
  let rem := N.land M (N.shiftl 1 shift - 1) in let half := N.shiftl 1 (shift - 1) in ∃ m,
  (N.lor (s * 2 ^ 15) (if round_up half rem h then h + 1 else h) mod 2 ^ 16 = s * 2 ^ 15 + m)%N ∧
  (m < 2 ^ 15)%N ∧ nearest_even ((2 ^ 23 + mant) * 2 ^ (fe - 1)) m.
Proof.
  intros Hs Hfe Hm. cbv zeta. assert (N.lor mant 0x800000 = 2 ^ 23 + mant)%N as ->.
  { rewrite N.lor_comm. apply (lor_shifted 1 mant 23 Hm). }
  rewrite !N.shiftl_mul_pow2, !N.mul_1_l, land_ones_mod, N.shiftr_div_pow2.
  destruct (round_subnormal fe mant) as [Hrd Hlt]; [lia|done|].
  set (k := (126 - fe)%N) in *. set (h := ((2 ^ 23 + mant) / 2 ^ k)%N) in *.
  eexists. split; [|split; [|exact Hrd]].
  - rewrite with_sign_lor by (case_match; lia). apply mod16; [done|case_match; lia].
  - case_match; lia.
Qed.
Lemma normal_to_half s fe mant : (s < 2)%N → (113 ≤ fe < 143)%N → (mant < 2 ^ 23)%N →
  let h := N.lor (N.lor (s * 2 ^ 15) (N.shiftl (fe - 112) 10)) (N.shiftr mant 13) in ∃ m,
  ((if round_up 0x1000 (N.land mant 0x1FFF) h then h + 1 else h) mod 2 ^ 16 = s * 2 ^ 15 + m)%N ∧
  (m < 2 ^ 15)%N ∧ nearest_even ((2 ^ 23 + mant) * 2 ^ (fe - 1)) m.
Proof.
  intros Hs Hfe Hm. cbv zeta. pose proof (round_normal fe mant ltac:(lia) Hm) as Hrd. cbv zeta in Hrd.
  rewrite N.shiftl_mul_pow2, N.shiftr_div_pow2. change 0x1FFF%N with (2 ^ 13 - 1)%N. rewrite land_ones_mod.
  assert (mant / 2 ^ 13 < 2 ^ 10)%N as Ht by (apply N.Div0.div_lt_upper_bound; lia).
  rewrite <- N.lor_assoc, (lor_shifted (fe - 112) _ 10), with_sign_lor by lia.
  set (m := ((fe - 112) * 2 ^ 10 + mant / 2 ^ 13)%N) in *. assert (m < 0x7C00)%N as Hm' by (unfold m; lia).
  assert (round_up 0x1000 (mant mod 2 ^ 13) (s * 2 ^ 15 + m) = round_up 0x1000 (mant mod 2 ^ 13) m) as ->
    by (unfold round_up; by rewrite odd_with_sign).
  eexists. split; [|split; [|exact Hrd]].
  - replace (if round_up 0x1000 (mant mod 2 ^ 13) m then (s * 2 ^ 15 + m + 1)%N else (s * 2 ^ 15 + m)%N)
      with (s * 2 ^ 15 + (if round_up 0x1000 (mant mod 2 ^ 13) m then m + 1 else m))%N by (case_match; lia).
    apply mod16; [done|case_match; lia].
  - case_match; lia.
Qed.

(** Every branch: the sign is kept, and the magnitude is a NaN or the rounding. *)
Lemma float_to_half_ok x : (x < 2 ^ 32)%N → ∃ m,
  emp_float_to_half x = (x / 2 ^ 31 * 2 ^ 15 + m)%N ∧ (m < 2 ^ 15)%N ∧
  if float_nan x then (0x7C00 < m)%N else nearest_even (float_magnitude x) m.
Proof.
  intros Hx. destruct (float_fields x Hx) as (s & fe & mant & Heq & Hs & Hfe & Hm & Hl1 & Hl2 & Hl3 & Hf1 & Hf2).
  assert (x / 2 ^ 31 = s ∧ x mod 2 ^ 31 = fe * 2 ^ 23 + mant)%N as [Hxs Hxm].
  { split; symmetry; [apply N.div_unique with (fe * 2 ^ 23 + mant)%N|apply N.mod_unique with s]; lia. }
  unfold emp_float_to_half, float_nan, float_magnitude. rewrite Hl1, Hl2, Hl3, Hf1, Hf2, Hxs, Hxm.
  clear Hl1 Hl2 Hl3 Hf1 Hf2 Hxs Hxm Heq. cbv zeta.
  destruct (N.eqb_spec fe 255) as [->|Hne]; [by apply special_to_half|].
  rewrite (proj2 (N.ltb_ge 0x7F800000 (fe * 2 ^ 23 + mant))) by lia.
  destruct (Z.leb_spec 31 (Z.of_N fe - 127 + 15)).
  { exists 0x7C00%N. rewrite with_sign_lor by lia. split; [done|]. split; [lia|].
    rewrite (proj2 (N.eqb_neq fe 0)) by lia. apply nearest_large. lia. }
  destruct (Z.leb_spec (Z.of_N fe - 127 + 15) 0).
  - destruct (Z.ltb_spec (Z.of_N fe - 127 + 15) (-10)).
    { exists 0%N. split; [lia|]. split; [lia|]. apply nearest_small; lia. }
    rewrite (proj2 (N.eqb_neq fe 0)) by lia.
    replace (Z.to_N (14 - (Z.of_N fe - 127 + 15))) with (126 - fe)%N by lia. apply subnormal_to_half; lia.
  - rewrite (proj2 (N.eqb_neq fe 0)) by lia.
    replace (Z.to_N (Z.of_N fe - 127 + 15)) with (fe - 112)%N by lia. apply normal_to_half; lia.
Qed.

(** ** The way back *)
Definition half_exact (h f : N) : Prop :=
  (f < 2 ^ 32)%N ∧ (f / 2 ^ 31 = h / 2 ^ 15)%N ∧
  if half_nan h then float_nan f = true ∧ emp_float_to_half f = N.lor h 0x200
  else float_nan f = false ∧ emp_float_to_half f = h ∧
    if (h mod 2 ^ 15 =? 0x7C00)%N then (f mod 2 ^ 31 = 0x7F800000)%N
    else float_magnitude f = half_magnitude (h mod 2 ^ 15).
(** A single bit of a number that has none above it. *)
Lemma land_top x n : (x < 2 ^ (n + 1))%N → N.land x (2 ^ n) = (x / 2 ^ n * 2 ^ n)%N.
Proof.
  intros Hx. apply N.bits_inj. intros i. rewrite N.land_spec, N.pow2_bits_eqb, <- N.shiftl_mul_pow2.
  destruct (N.lt_trichotomy i n) as [Hlt|[->|Hgt]].
  - rewrite N.shiftl_spec_low by done. rewrite (proj2 (N.eqb_neq n i)) by lia. by rewrite andb_false_r.
  - rewrite N.eqb_refl, andb_true_r, N.shiftl_spec_high', N.div_pow2_bits by lia. f_equal. lia.
  - rewrite (proj2 (N.eqb_neq n i)), andb_false_r by lia. rewrite N.shiftl_spec_high', N.div_pow2_bits by lia.
    rewrite <- (N.mod_small x (2 ^ (n + 1))) by done. symmetry. apply N.mod_pow2_bits_high. lia.
Qed.
Lemma half_fields h : (h < 2 ^ 16)%N → ∃ s e t,
  h = (s * 2 ^ 15 + e * 2 ^ 10 + t)%N ∧ (s < 2)%N ∧ (e < 2 ^ 5)%N ∧ (t < 2 ^ 10)%N ∧
  N.land h 0x8000 = (s * 2 ^ 15)%N ∧ N.land (N.shiftr h 10) 0x1F = e ∧ N.land h 0x3FF = t ∧
  (h / 2 ^ 15 = s)%N ∧ (h mod 2 ^ 15 = e * 2 ^ 10 + t)%N.
Proof.
  intros Hh. exists (h / 2 ^ 15)%N, (h / 2 ^ 10 mod 2 ^ 5)%N, (h mod 2 ^ 10)%N.
  pose proof (N.div_mod' h (2 ^ 10)) as H1. pose proof (N.div_mod' (h / 2 ^ 10) (2 ^ 5)) as H2.
  rewrite N.Div0.div_div in H2. change (2 ^ 10 * 2 ^ 5)%N with (2 ^ 15)%N in H2.
  assert (h / 2 ^ 10 mod 2 ^ 5 < 2 ^ 5)%N by (by apply N.mod_lt).
  assert (h mod 2 ^ 10 < 2 ^ 10)%N by (by apply N.mod_lt).
  split; [lia|]. split; [apply N.Div0.div_lt_upper_bound; lia|]. split; [done|]. split; [done|].
  split; [by apply (land_top h 15)|]. split; [rewrite N.shiftr_div_pow2; apply (land_ones_mod _ 5)|].
  split; [apply (land_ones_mod _ 10)|]. split; [done|].
  symmetry. apply N.mod_unique with (h / 2 ^ 15)%N; lia.
Qed.
(** The pattern of its three fields. *)
Lemma pack_float s e t : (s < 2)%N → (e < 2 ^ 8)%N → (t < 2 ^ 10)%N →
  N.lor (N.lor (u32 (N.shiftl (s * 2 ^ 15) 16)) (u32 (N.shiftl e 23))) (u32 (N.shiftl t 13)) =
  (s * 2 ^ 31 + e * 2 ^ 23 + t * 2 ^ 13)%N.
Proof.
  intros Hs He Ht. rewrite !N.shiftl_mul_pow2. rewrite !u32_small by lia.
  rewrite <- N.lor_assoc, (lor_shifted e _ 23) by lia.
  replace (s * 2 ^ 15 * 2 ^ 16)%N with (s * 2 ^ 31)%N by lia. rewrite lor_shifted by lia. lia.
Qed.
Lemma float_unpack s fe mant : (s < 2)%N → (fe < 2 ^ 8)%N → (mant < 2 ^ 23)%N →
  let f := (s * 2 ^ 31 + fe * 2 ^ 23 + mant)%N in
  (f < 2 ^ 32)%N ∧ (f / 2 ^ 31 = s)%N ∧ (f mod 2 ^ 31 = fe * 2 ^ 23 + mant)%N ∧
  N.land (N.shiftr f 16) 0x8000 = (s * 2 ^ 15)%N ∧ N.land (N.shiftr f 23) 0xFF = fe ∧
  N.land f 0x7FFFFF = mant ∧ (f / 2 ^ 23 mod 2 ^ 8 = fe)%N ∧ (f mod 2 ^ 23 = mant)%N.
Proof.
  intros Hs Hfe Hm f. assert (f < 2 ^ 32)%N as Hf by (unfold f; lia).
  destruct (float_fields f Hf) as (s' & fe' & mant' & Heq & Hs' & Hfe' & Hm' & H1 & H2 & H3 & H4 & H5).
  assert (s' = s ∧ fe' = fe ∧ mant' = mant) as (-> & -> & ->) by (unfold f in Heq; lia).
  split; [done|]. split; [|split; [|done]]; symmetry.
  - apply N.div_unique with (fe * 2 ^ 23 + mant)%N; unfold f; lia.
  - apply N.mod_unique with s; unfold f; lia.
Qed.

(** The nearest half of a half is that half. *)
Lemma half_magnitude_mono a b : (a ≤ b)%N → (half_magnitude a ≤ half_magnitude b)%N.
Proof.
  intros Hab. replace b with (a + (b - a))%N by lia. generalize (b - a)%N as d. intros d.
  induction d as [|d IH] using N.peano_ind; [by rewrite N.add_0_r|].
  pose proof (half_magnitude_lt (a + d)). replace (a + N.succ d)%N with (a + d + 1)%N by lia. lia.
Qed.
Lemma nearest_exact m m' : (m ≤ 0x7C00)%N → nearest_even (half_magnitude m) m' → m' = m.
Proof.
  intros Hm (H1 & H2 & H3). destruct (N.lt_trichotomy m' m) as [Hlt|[->|Hgt]]; [|done|]; exfalso.
  - pose proof (half_magnitude_mono (m' + 1) m ltac:(lia)). pose proof (half_magnitude_lt m').
    destruct (H3 ltac:(lia)) as [?|[? _]]; lia.
  - pose proof (half_magnitude_mono m (m' - 1) ltac:(lia)). pose proof (half_magnitude_lt (m' - 1)) as Hs.
    replace (m' - 1 + 1)%N with m' in Hs by lia. destruct (H2 ltac:(lia)) as [?|[? _]]; lia.
Qed.
(** The loop doubles the mantissa up to its leading bit, a turn each. *)
Lemma normalize_ok fuel mant e : (0 < mant < 2 ^ 11)%N → (2 ^ 10 ≤ mant * 2 ^ N.of_nat fuel)%N → ∃ j,
  normalize fuel mant e = Some (mant * 2 ^ j, (e - Z.of_N j)%Z)%N ∧ (2 ^ 10 ≤ mant * 2 ^ j < 2 ^ 11)%N ∧ (j ≤ N.of_nat fuel)%N.
Proof.
  revert mant e. induction fuel as [|fuel IH]; intros mant e Hm Hf; cbn [normalize];
    change 0x400%N with (2 ^ 10)%N; rewrite (land_top mant 10) by (apply Hm).
  all: destruct (N.le_gt_cases (2 ^ 10) mant) as [Hge|Hlt].
  1,3: rewrite <- (N.div_unique mant (2 ^ 10) 1 (mant - 2 ^ 10)) by lia; exists 0%N;
    rewrite N.pow_0_r, N.mul_1_r, Z.sub_0_r; (split; [done|]); lia.
  - rewrite N.pow_0_r in Hf. lia.
  - rewrite (N.div_small mant) by done. change (negb (0 * 2 ^ 10 =? 0)%N) with false. cbv iota.
    rewrite N.shiftl_mul_pow2, u32_small by lia. change (2 ^ 1)%N with 2%N.
    rewrite Nat2N.inj_succ, N.pow_succ_r' in Hf.
    destruct (IH (mant * 2)%N (e - 1)%Z) as (j & -> & Hj & Hle); [lia..|].
    exists (j + 1)%N. rewrite N.pow_add_r. change (2 ^ 1)%N with 2%N.
    replace (mant * (2 ^ j * 2))%N with (mant * 2 * 2 ^ j)%N by lia. split; [|lia]. do 2 f_equal. lia.
Qed.

(** A finite half and the float with its sign and value. *)
Lemma finite_exact s m fe mant : (s < 2)%N → (m < 0x7C00)%N → (fe < 255)%N → (mant < 2 ^ 23)%N →
  float_magnitude (s * 2 ^ 31 + fe * 2 ^ 23 + mant) = half_magnitude m →
  half_exact (s * 2 ^ 15 + m) (s * 2 ^ 31 + fe * 2 ^ 23 + mant).
Proof.
  intros Hs Hm Hfe Hmant HF. destruct (float_unpack s fe mant Hs ltac:(lia) Hmant) as (Hf & Hd & Hmod & _).
  assert ((s * 2 ^ 15 + m) / 2 ^ 15 = s ∧ (s * 2 ^ 15 + m) mod 2 ^ 15 = m)%N as [Hhd Hhm].
  { split; symmetry; [apply N.div_unique with m|apply N.mod_unique with s]; lia. }
  unfold half_exact, half_nan. rewrite Hd, Hhd, Hhm. split; [done|]. split; [done|].
  rewrite (proj2 (N.ltb_ge 0x7C00 m)) by lia.
  assert (float_nan (s * 2 ^ 31 + fe * 2 ^ 23 + mant) = false) as Hnan
    by (unfold float_nan; rewrite Hmod; apply N.ltb_ge; lia).
  split; [done|]. destruct (float_to_half_ok _ Hf) as (m' & Hr & _ & Hnear). rewrite Hnan, HF in Hnear.
  apply nearest_exact in Hnear as ->; [|lia]. rewrite Hr, Hd. split; [done|].
  by rewrite (proj2 (N.eqb_neq m 0x7C00)) by lia.
Qed.
(** Infinity and the NaNs, whose payload is kept. *)
Lemma special_exact s t : (s < 2)%N → (t < 2 ^ 10)%N →
  half_exact (s * 2 ^ 15 + 31 * 2 ^ 10 + t) (s * 2 ^ 31 + 255 * 2 ^ 23 + t * 2 ^ 13).
Proof.
  intros Hs Ht. assert (t * 2 ^ 13 < 2 ^ 23)%N as Hm by lia.
  destruct (float_unpack s 255 (t * 2 ^ 13) Hs eq_refl Hm) as (Hf & Hd & Hmod & H1 & H2 & H3 & _).
  set (f := (s * 2 ^ 31 + 255 * 2 ^ 23 + t * 2 ^ 13)%N) in *.
  assert ((s * 2 ^ 15 + 31 * 2 ^ 10 + t) / 2 ^ 15 = s ∧ (s * 2 ^ 15 + 31 * 2 ^ 10 + t) mod 2 ^ 15 = 31 * 2 ^ 10 + t)%N as [Hhd Hhm].
  { split; symmetry; [apply N.div_unique with (31 * 2 ^ 10 + t)%N|apply N.mod_unique with s]; lia. }
  set (q := (if (t =? 0)%N then 0 else 0x200)%N).
  assert (q < 2 ^ 10)%N as Hq by (unfold q; case_match; lia).
  assert (N.lor q t < 2 ^ 10)%N as Hqt by (by apply lor_lt).
  assert (emp_float_to_half f = s * 2 ^ 15 + (31 * 2 ^ 10 + N.lor q t))%N as Hback.
  { unfold emp_float_to_half. rewrite H1, H2, H3. change (255 =? 255)%N with true. cbv zeta iota.
    replace (t * 2 ^ 13 =? 0)%N with (t =? 0)%N by (destruct (N.eqb_spec t 0), (N.eqb_spec (t * 2 ^ 13) 0); lia || done).
    fold q. rewrite N.shiftr_div_pow2, N.div_mul by done. change 0x7C00%N with (31 * 2 ^ 10)%N.
    rewrite <- !N.lor_assoc, (lor_shifted 31 _ 10), with_sign_lor by lia. apply mod16; [done|lia]. }
  unfold half_exact, half_nan, float_nan. rewrite Hd, Hhd, Hhm, Hmod, Hback. split; [done|]. split; [done|].
  unfold q in *. clear q. destruct (N.eqb_spec t 0) as [->|Hne].
  - change (0x7C00 <? 31 * 2 ^ 10 + 0)%N with false. change (0x7F800000 <? 255 * 2 ^ 23 + 0 * 2 ^ 13)%N with false. cbv iota.
    split; [done|]. split; [rewrite N.lor_0_r; lia|done].
  - rewrite (proj2 (N.ltb_lt 0x7C00 (31 * 2 ^ 10 + t))) by lia.
    rewrite (proj2 (N.ltb_lt 0x7F800000 (255 * 2 ^ 23 + t * 2 ^ 13))) by lia. split; [done|].
    rewrite <- N.add_assoc, <- with_sign_lor, <- (with_sign_lor s (31 * 2 ^ 10 + t)), <- !(lor_shifted 31 _ 10), <- !N.lor_assoc by lia.
    do 2 f_equal. apply N.lor_comm.
Qed.
(** The float of a subnormal half: [j] doublings, the exponent as many lower. *)
Lemma subnormal_exact s t j : (s < 2)%N → (t < 2 ^ 10)%N → (2 ^ 10 ≤ t * 2 ^ j < 2 ^ 11)%N → (j ≤ 10)%N →
  half_exact (s * 2 ^ 15 + t) (s * 2 ^ 31 + (113 - j) * 2 ^ 23 + (t * 2 ^ j - 2 ^ 10) * 2 ^ 13).
Proof.
  intros Hs Ht Hj Hle. apply finite_exact; [done|lia..|].
  destruct (float_unpack s (113 - j) ((t * 2 ^ j - 2 ^ 10) * 2 ^ 13)) as (_ & _ & _ & _ & _ & _ & Hfe & Hm); [lia..|].
  unfold float_magnitude. rewrite Hfe, Hm, half_magnitude_small, (proj2 (N.eqb_neq (113 - j) 0)) by lia.
  replace (2 ^ 23 + (t * 2 ^ j - 2 ^ 10) * 2 ^ 13)%N with (t * 2 ^ j * 2 ^ 13)%N by lia.
  replace 125%N with (j + (13 + (113 - j - 1)))%N by lia. rewrite !N.pow_add_r. lia.
Qed.
Lemma normal_exact s e t : (s < 2)%N → (0 < e < 31)%N → (t < 2 ^ 10)%N →
  half_exact (s * 2 ^ 15 + e * 2 ^ 10 + t) (s * 2 ^ 31 + (e + 112) * 2 ^ 23 + t * 2 ^ 13).
Proof.
  intros Hs He Ht. rewrite <- N.add_assoc. apply finite_exact; [done|lia..|].
  destruct (float_unpack s (e + 112) (t * 2 ^ 13)) as (_ & _ & _ & _ & _ & _ & Hfe & Hm); [lia..|].
  unfold float_magnitude. rewrite Hfe, Hm, half_magnitude_normal, (proj2 (N.eqb_neq (e + 112) 0)) by lia.
  replace (e + 124)%N with (13 + (e + 112 - 1))%N by lia. rewrite !N.pow_add_r. lia.
Qed.

Lemma half_to_float_ok h : (h < 2 ^ 16)%N → ∃ f, emp_half_to_float h = Some f ∧ half_exact h f.
Proof.
  intros Hh. destruct (half_fields h Hh) as (s & e & t & Heq & Hs & He & Ht & H1 & H2 & H3 & _).
  unfold emp_half_to_float. rewrite H1, H2, H3. clear H1 H2 H3 Hh. cbv zeta. destruct (N.eqb_spec e 0) as [->|He0].
  - destruct (N.eqb_spec t 0) as [->|Ht0].
    + exists (s * 2 ^ 31)%N. assert (s = 0 ∨ s = 1)%N as [->| ->] by lia; subst h; (split; [done|]); by vm_compute.
    + destruct (normalize_ok 10 t (127 - 15 + 1)) as (j & -> & Hj & Hle); [lia|change (2 ^ N.of_nat 10)%N with (2 ^ 10)%N; lia|].
      change (N.of_nat 10) with 10%N in Hle. cbn [mbind option_bind].
      eexists. split; [reflexivity|]. change 0x3FF%N with (2 ^ 10 - 1)%N. rewrite land_ones_mod.
      replace (Z.to_N (127 - 15 + 1 - Z.of_N j)) with (113 - j)%N by lia.
      rewrite <- (N.mod_unique (t * 2 ^ j) (2 ^ 10) 1 (t * 2 ^ j - 2 ^ 10)) by lia.
      rewrite pack_float by lia. subst h. rewrite N.mul_0_l, N.add_0_r. by apply subnormal_exact.
  - destruct (N.eqb_spec e 31) as [->|He31].
    + eexists. split; [reflexivity|]. change 0x7F800000%N with (u32 (N.shiftl 255 23)).
      rewrite pack_float by lia. subst h. by apply special_exact.
    + eexists. split; [reflexivity|].
      assert (u32 (e + (2 ^ 32 - 15) + 127) = e + 112)%N as ->.
      { unfold u32. symmetry. apply N.mod_unique with 1%N; lia. }
      rewrite pack_float by lia. subst h. apply normal_exact; lia.
Qed.

(** ** Properties *)

(** C38: half-precision conversion is correct.  Every [float] pattern becomes the
    half nearest to its value, ties to even, overflow to infinity, keeping the
    sign, and NaN exactly for NaN; every half becomes the [float] with its sign
    and exactly its value (its normalization loop ends within ten turns), and
    converting back returns the same half, a NaN with its quiet bit set. *)
Theorem half_conversion_correct x h : (x < 2 ^ 32)%N → (h < 2 ^ 16)%N →
  (∃ m, emp_float_to_half x = (x / 2 ^ 31 * 2 ^ 15 + m)%N ∧ (m < 2 ^ 15)%N ∧
     if float_nan x then (0x7C00 < m)%N else nearest_even (float_magnitude x) m) ∧
  ∃ f, emp_half_to_float h = Some f ∧ half_exact h f.
Proof. intros Hx Hh. split; [by apply float_to_half_ok|by apply half_to_float_ok]. Qed.
(** 1 + 2^-11, a tie, goes to 1; the smallest subnormal half goes to 2^-24. *)
Lemma half_conversion_correct_witness :
  ((∃ m, emp_float_to_half 0x3F801000 = (0x3F801000 / 2 ^ 31 * 2 ^ 15 + m)%N ∧ (m < 2 ^ 15)%N ∧
     if float_nan 0x3F801000 then (0x7C00 < m)%N else nearest_even (float_magnitude 0x3F801000) m) ∧
  ∃ f, emp_half_to_float 1 = Some f ∧ half_exact 1 f) ∧
  emp_float_to_half 0x3F801000 = 0x3C00%N ∧ emp_half_to_float 1 = Some 0x33800000%N.
Proof. split; [by apply half_conversion_correct|by vm_compute]. Defined.
