(* ===== verification/Float.v ===== *)
(** * Floating-point values (circuits/float.h)

    [Float_T<Ctx, W>]: a word of [W] wires.  Arithmetic and comparisons replay
    recorded programs, the assets that [circuit::float_circuit] loads; they are
    a parameter here, of which the code relies on the interface only
    ([FloatSuite]).  Sign operations, selection and the codec are code. *)

From S2P Require Import Prelude Program Validate Context Execute Kernel Bits NumericKernels UInt Words FloatTraits.

Section code.
Context (float_circuit : nat → string → BooleanProgram) (width : nat).
Section ops.
Context {W : Type}.
#[local] Abbreviation word := (list W).

(** The operands' wires one after the other, through [execute_program]. *)
Definition replay_ (op : string) (ops : list word) : Kernel W word :=
  krun (float_circuit width op) (mjoin ops).
(** [for i < W: r.w[i] = out[i]]. *)
Definition copy_out (out : word) : Kernel W word := kmap (kget out) (seq 0 width).
Definition unary_ (op : string) (a : word) : Kernel W word := out ← replay_ op [a]; copy_out out.
Definition binop_ (op : string) (a b : word) : Kernel W word := out ← replay_ op [a; b]; copy_out out.
Definition ternary_ (op : string) (a b c : word) : Kernel W word :=
  out ← replay_ op [a; b; c]; copy_out out.
Definition cmp_ (op : string) (a b : word) : Kernel W W := out ← replay_ op [a; b]; kget out 0.
Definition classify_ (op : string) (a : word) : Kernel W W := out ← replay_ op [a]; kget out 0.

Definition add := binop_ "add".
Definition sub := binop_ "sub".
Definition mul := binop_ "mul".
Definition div := binop_ "div".
Definition min := binop_ "min".
Definition max := binop_ "max".
Definition sqr := unary_ "square".
Definition sqrt := unary_ "sqrt".
Definition recip := unary_ "recip".
Definition rsqrt := unary_ "rsqrt".
Definition fma := ternary_ "fma".
Definition equal := cmp_ "eq".
Definition not_equal := cmp_ "ne".
Definition less_than := cmp_ "lt".
Definition less_equal := cmp_ "le".
Definition greater_than := cmp_ "gt".
Definition greater_equal := cmp_ "ge".
Definition is_nan := classify_ "isnan".
Definition is_inf := classify_ "isinf".
Definition is_zero := classify_ "iszero".

(** The sign is the last wire. *)
Definition from_bits (bits : N) : Kernel W word :=
  kmap (λ i, kpub (N.testbit bits (N.of_nat i))) (seq 0 width).
Definition abs (a : word) : Kernel W word := z ← kpub false; mret (<[(width - 1)%nat := z]> a).
Definition neg (a : word) : Kernel W word :=
  s ← kget a (width - 1); n ← knot s; mret (<[(width - 1)%nat := n]> a).
Definition copysign (a o : word) : Kernel W word :=
  s ← kget o (width - 1); mret (<[(width - 1)%nat := s]> a).
Definition select (a : word) (sel : W) (o : word) : Kernel W word :=
  kmap2 (λ t f, mux sel t f) o a.
End ops.

Definition encode_bits (bits : N) : list bool :=
  (λ i, negb (N.land (N.shiftr bits (N.of_nat i)) 1 =? 0)%N) <$> seq 0 width.
Definition decode_bits (bits : list bool) : N :=
  foldl (λ v i, N.lor v (N.shiftl (if default false (bits !! i) then 1 else 0) (N.of_nat i)))
    0%N (seq 0 width).
End code.

(** ** What the code relies on of the recorded programs *)
Definition binary_ops : list string := ["add"; "sub"; "mul"; "div"; "min"; "max"].
Definition unary_ops : list string := ["square"; "sqrt"; "recip"; "rsqrt"].
Definition compare_ops : list string := ["eq"; "ne"; "lt"; "le"; "gt"; "ge"].
Definition classify_ops : list string := ["isnan"; "isinf"; "iszero"].
(** A valid program with [k] operands and at least [n] outputs. *)
Definition suite_program (width k n : nat) (p : BooleanProgram) : Prop :=
  wf_program p ∧ num_inputs p = N.of_nat (k * width) ∧ (n ≤ length (outputs p))%nat.
Class FloatSuite (float_circuit : nat → string → BooleanProgram) (width : nat) : Prop := {
  suite_width : (0 < width)%nat;
  suite_unary op : op ∈ unary_ops → suite_program width 1 width (float_circuit width op);
  suite_binary op : op ∈ binary_ops → suite_program width 2 width (float_circuit width op);
  suite_ternary op : op ∈ ["fma"] → suite_program width 3 width (float_circuit width op);
  suite_compare op : op ∈ compare_ops → suite_program width 2 1 (float_circuit width op);
  suite_classify op : op ∈ classify_ops → suite_program width 1 1 (float_circuit width op) }.

(** The function a program of the suite computes on operands, and its result. *)
Definition program_value (p : BooleanProgram) (n : nat) (ops : list (list bool)) (z : list bool) : Prop :=
  ∃ outs, eval_program p (mjoin ops) = Some outs ∧ z = take n outs ∧ length z = n.

Section correct.
Context {fc : nat → string → BooleanProgram} {width : nat} `{!FloatSuite fc width}.

Lemma krel_copy_out {W1 W2} (R : wrel W1 W2) l1 l2 :
  Forall2 R l1 l2 → krel RL R (copy_out width l1) (copy_out width l2).
Proof.
  intros Hl. apply (krel_kmap REq RW); [by apply Forall2_eq_refl|].
  intros R' x y Hs Hxy. unfold REq in Hxy. subst. kmono. by apply (krel_kget RW).
Qed.
Lemma krel_replay {W1 W2} (R : wrel W1 W2) op k n ops1 ops2 :
  suite_program width k n (fc width op) → Forall2 (Forall2 R) ops1 ops2 →
  krel RL R (replay_ fc width op ops1) (replay_ fc width op ops2).
Proof.
  intros [Hwf _] Hops. apply krel_krun; [done|]. induction Hops; [constructor|]. by apply Forall2_app.
Qed.
Lemma krel_arith {W1 W2} (R : wrel W1 W2) op k n ops1 ops2 :
  suite_program width k n (fc width op) → Forall2 (Forall2 R) ops1 ops2 →
  krel RL R (out ← replay_ fc width op ops1; copy_out width out)
    (out ← replay_ fc width op ops2; copy_out width out).
Proof.
  intros Hp Hops. eapply krel_bind; [by eapply krel_replay|]. intros R' o1 o2 _. apply krel_copy_out.
Qed.
Lemma krel_test {W1 W2} (R : wrel W1 W2) op k n ops1 ops2 :
  suite_program width k n (fc width op) → Forall2 (Forall2 R) ops1 ops2 →
  krel RW R (out ← replay_ fc width op ops1; kget out 0) (out ← replay_ fc width op ops2; kget out 0).
Proof.
  intros Hp Hops. eapply krel_bind; [by eapply krel_replay|]. intros R' o1 o2 _ Ho.
  by apply (krel_kget RW).
Qed.
Lemma replay_ok op k n ops : suite_program width k n (fc width op) →
  length ops = k → Forall (λ a, length a = width) ops →
  ∃ outs, keval (replay_ fc width op ops) = Ret outs ∧
    eval_program (fc width op) (mjoin ops) = Some outs ∧ (n ≤ length outs)%nat.
Proof.
  intros (Hwf & Hin & Hout) Hk Hl.
  assert (length (mjoin ops) = k * width)%nat as Hlen.
  { subst k. clear Hin. induction Hl as [|a ops Ha _ IH]; [done|]. simpl. rewrite length_app. lia. }
  assert (vlen (mjoin ops) = num_inputs (fc width op)) as Hv by (unfold vlen; by rewrite Hlen).
  destruct (eval_program_total _ Hwf _ Hv) as (outs & Hev & Hol).
  exists outs. unfold replay_, krun. cbn [keval]. rewrite Hv, N.eqb_refl. cbn [expecting mbind outcome_bind].
  rewrite Hev. split; [done|]. split; [done|].
  unfold eval_program in Hev. apply bind_Some in Hev as (e & _ & Hm).
  by rewrite <- (length_mapM _ _ _ Hm).
Qed.
Lemma copy_out_ok (outs : list bool) : (width ≤ length outs)%nat →
  keval (copy_out width outs) = Ret (take width outs).
Proof.
  intros Hl. unfold copy_out. rewrite (keval_kmap_in _ (λ i, default false (outs !! i))).
  - f_equal. apply list_eq. intros i. rewrite list_lookup_fmap. destruct (decide (i < width)%nat).
    + rewrite lookup_seq_lt, lookup_take_lt by done. simpl.
      by destruct (lookup_lt_is_Some_2 outs i) as [b ->]; [lia|].
    + rewrite !lookup_ge_None_2; [done|rewrite length_take; lia|rewrite length_seq; lia].
  - intros i [_ Hi]%elem_of_seq. apply keval_kget.
    by destruct (lookup_lt_is_Some_2 outs i) as [b ->]; [lia|].
Qed.
(** A word-valued operation, of any number of operands. *)
Lemma arith_ok op k ops : suite_program width k width (fc width op) →
  length ops = k → Forall (λ a, length a = width) ops →
  ∃ z, keval (out ← replay_ fc width op ops; copy_out width out) = Ret z ∧
    program_value (fc width op) width ops z.
Proof.
  intros Hp Hk Hl. destruct (replay_ok op k width ops Hp Hk Hl) as (outs & Hr & Hev & Ho).
  exists (take width outs). rewrite keval_bind, Hr. split; [by apply copy_out_ok|].
  exists outs. split; [done|]. split; [done|]. rewrite length_take. lia.
Qed.
(** And one that keeps the first output wire. *)
Lemma test_ok op k ops : suite_program width k 1 (fc width op) →
  length ops = k → Forall (λ a, length a = width) ops →
  ∃ z, keval (out ← replay_ fc width op ops; kget out 0) = Ret z ∧
    program_value (fc width op) 1 ops [z].
Proof.
  intros Hp Hk Hl. destruct (replay_ok op k 1 ops Hp Hk Hl) as (outs & Hr & Hev & Ho).
  destruct outs as [|z outs]; [simpl in Ho; lia|]. exists z. rewrite keval_bind, Hr. split; [done|].
  by exists (z :: outs).
Qed.

Lemma krel_insert {W1 W2} (R : wrel W1 W2) i l1 l2 k1 k2 :
  krel RW R k1 k2 → Forall2 R l1 l2 →
  krel RL R (z ← k1; mret (<[i := z]> l1)) (z ← k2; mret (<[i := z]> l2)).
Proof.
  intros Hk Hl. eapply krel_bind; [exact Hk|]. intros R' z1 z2 Hs Hz. constructor.
  apply Forall2_insert; [|exact Hz]. eapply Forall2_impl; [exact Hl|]. by apply Hs.
Qed.
Lemma select_value (s : bool) (a o : list bool) : length a = length o →
  zip_with (λ t f : bool, if s then t else f) o a = if s then o else a.
Proof. revert a. induction o; intros [|] H; destruct s; simplify_eq/=; f_equal; eauto. Qed.
Lemma encode_bits_ok v : encode_bits width v = bits width v.
Proof.
  unfold encode_bits. symmetry. apply bits_ext; [apply length_bits|]. intros i Hi.
  rewrite bits_lookup by done. f_equal.
  change 1%N with (N.ones 1). rewrite N.land_ones, <- N.bit0_mod, N.shiftr_spec', N.add_0_l.
  by destruct (N.testbit v (N.of_nat i)).
Qed.

Lemma decode_bits_ok b : length b = width → decode_bits width b = bval b.
Proof.
  intros <-. unfold decode_bits.
  assert (∀ n, (n ≤ length b)%nat →
    foldl (λ v i, N.lor v (N.shiftl (if default false (b !! i) then 1 else 0) (N.of_nat i))) 0%N (seq 0 n) =
    bval (take n b)) as H; [|by rewrite H, firstn_all by done].
  induction n as [|n IH]; intros Hn; [done|]. rewrite seq_S, foldl_app, IH by lia. cbn [foldl plus].
  destruct (lookup_lt_is_Some_2 b n) as [x Hx]; [lia|]. rewrite Hx, (take_S_r _ _ _ Hx), bval_app.
  replace (N.of_nat n) with (N.of_nat (length (take n b))) by (rewrite length_take; lia).
  rewrite lor_bval. by destruct x.
Qed.
(** The sign is the top wire: the rest is the magnitude. *)
Lemma bval_set_sign x b : length x = width →
  bval (<[(width - 1)%nat := b]> x) = (bval x mod pow2 (width - 1) + pow2 (width - 1) * N.b2n b)%N.
Proof.
  intros Hl. pose proof suite_width. destruct x as [|s x _] using rev_ind; [simpl in Hl; lia|].
  rewrite length_app in Hl. simpl in Hl. assert (width - 1 = length x)%nat as -> by lia.
  rewrite insert_app_r_alt, Nat.sub_diag by lia. rewrite !bval_app. cbn [insert list_insert bval].
  rewrite (N.mul_comm (pow2 _) (N.b2n s + 2 * 0)), N.Div0.mod_add, N.mod_small by apply bval_lt.
  destruct b; simpl; lia.
Qed.
Definition sign (x : list bool) : bool := N.testbit (bval x) (N.of_nat (width - 1)).
Lemma sign_lookup x : length x = width → x !! (width - 1)%nat = Some (sign x).
Proof.
  intros Hl. pose proof suite_width. unfold sign. rewrite bval_testbit.
  by destruct (lookup_lt_is_Some_2 x (width - 1)) as [b ->]; [lia|].
Qed.
End correct.

(** [Float_T] on every lawful context, for an operation suite that keeps its
    interface.  Arithmetic leaves the first [W] outputs of the recorded program
    of that operation on the operands, comparisons and classifiers its first
    output; [abs], [-] and [copysign] keep the magnitude and clear, flip or copy
    the sign; selection takes the argument when the selector is set. *)
Theorem float_ops_correct (fc : nat → string → BooleanProgram) (width : nat) :
  FloatSuite fc width →
  let word x := length x = width in
  let words x y := length x = width ∧ length y = width in
  let magnitude x := (bval x mod pow2 (width - 1))%N in
  let signed m (s : bool) := (m + pow2 (width - 1) * N.b2n s)%N in
  (∀ op, op ∈ unary_ops → computes1 (A := list) (@RL) (λ W, unary_ fc width op) word
     (λ x, program_value (fc width op) width [x])) ∧
  (∀ op, op ∈ binary_ops → computes2 (A := list) (@RL) (λ W, binop_ fc width op) words
     (λ x y, program_value (fc width op) width [x; y])) ∧
  computes3 (A := list) (@RL) (λ W, fma fc width) (λ x y u, words x y ∧ word u)
     (λ x y u, program_value (fc width "fma") width [x; y; u]) ∧
  (∀ op, op ∈ compare_ops → computes2 (A := λ W, W) (@RW) (λ W, cmp_ fc width op) words
     (λ x y z, program_value (fc width op) 1 [x; y] [z])) ∧
  (∀ op, op ∈ classify_ops → computes1 (A := λ W, W) (@RW) (λ W, classify_ fc width op) word
     (λ x z, program_value (fc width op) 1 [x] [z])) ∧
  computes1 (A := list) (@RL) (λ W, abs width) word (λ x z, bval z = signed (magnitude x) false) ∧
  computes1 (A := list) (@RL) (λ W, neg width) word
     (λ x z, bval z = signed (magnitude x) (negb (sign (width:=width) x))) ∧
  computes2 (A := list) (@RL) (λ W, copysign width) words
     (λ x y z, bval z = signed (magnitude x) (sign (width:=width) y)) ∧
  computes3 (A := list) (@RL)
     (λ W a o s, match s with [s] => select a s o | _ => KFatal "one selector" end)
     (λ x y s, words x y ∧ length s = 1%nat) (λ x y s z, ∃ b, s = [b] ∧ z = if b then y else x) ∧
  (∀ v, keval (from_bits width v) = Ret (encode_bits width v) ∧
     decode_bits width (encode_bits width v) = (v mod pow2 width)%N).
Proof.
  intros HS word words magnitude signed. subst word words magnitude signed.
  split_and!.
  - intros op Hop. apply computes1_intro.
    + intros. eapply (krel_arith _ _ 1); [by apply suite_unary|eauto].
    + intros x Hx. eapply (arith_ok op 1); [by apply suite_unary|done|eauto].
  - intros op Hop. apply computes2_intro.
    + intros. eapply (krel_arith _ _ 2); [by apply suite_binary|eauto].
    + intros x y [Hx Hy]. eapply (arith_ok op 2); [by apply suite_binary|done|eauto].
  - apply computes3_intro.
    + intros. eapply (krel_arith _ _ 3); [apply suite_ternary; set_solver|eauto].
    + intros x y u [[Hx Hy] Hu]. eapply (arith_ok _ 3); [apply suite_ternary; set_solver|done|eauto].
  - intros op Hop. apply computes2_intro.
    + intros. eapply (krel_test _ _ 2); [by apply suite_compare|eauto].
    + intros x y [Hx Hy]. eapply (test_ok op 2); [by apply suite_compare|done|eauto].
  - intros op Hop. apply computes1_intro.
    + intros. eapply (krel_test _ _ 1); [by apply suite_classify|eauto].
    + intros x Hx. eapply (test_ok op 1); [by apply suite_classify|done|eauto].
  - apply computes1_intro; [intros; apply krel_insert; auto with kparam|].
    intros x Hx. eexists. split; [reflexivity|]. by apply bval_set_sign.
  - apply computes1_intro.
    + intros. eapply krel_bind; [by apply (krel_kget RW)|]. intros R' s1 s2 Hs Hb.
      apply krel_insert; [by apply krel_knot|]. eapply Forall2_impl; eauto.
    + intros x Hx. unfold neg. rewrite keval_bind, (keval_kget _ _ (sign x)) by by apply sign_lookup.
      eexists. split; [reflexivity|]. by apply bval_set_sign.
  - apply computes2_intro.
    + intros. apply krel_insert; [by apply (krel_kget RW)|done].
    + intros x y [Hx Hy]. unfold copysign. rewrite keval_bind, (keval_kget _ _ (sign y)) by by apply sign_lookup.
      eexists. split; [reflexivity|]. by apply bval_set_sign.
  - apply computes3_intro.
    + intros W1 W2 R a1 a2 o1 o2 s1 s2 Ha Ho Hs.
      destruct Hs as [|s1 s2 l1 l2 Hs [|??????]]; try constructor.
      apply krel_kmap2_wires; [done..|]. intros. apply krel_mux; auto.
    + intros x y s [[Hx Hy] Hs]. destruct s as [|b [|]]; try done. exists (if b then y else x).
      split; [|eauto]. unfold select. rewrite (keval_kmap2 _ (λ t f : bool, if b then t else f)).
      * by rewrite select_value by congruence.
      * intros. by rewrite keval_mux.
  - intros v. rewrite encode_bits_ok. split.
    + unfold from_bits. rewrite (keval_kmap _ (λ i, N.testbit v (N.of_nat i))) by done.
      by rewrite bits_testbit.
    + by rewrite decode_bits_ok, bval_bits by apply length_bits.
Qed.

(** A suite that hands back its operands' first wires. *)
Definition wiring_suite (width : nat) (op : string) : BooleanProgram :=
  let n := N.of_nat ((if decide (op ∈ binary_ops ++ compare_ops) then 2
                      else if decide (op = "fma") then 3 else 1) * width) in
  MkProgram n n ReuseNone [] (N.of_nat <$> seq 0 width).
#[export] Instance wiring_suite_ok : FloatSuite wiring_suite 16.
Proof.
  split; [lia|..]; intros op Hop; unfold suite_program;
    repeat (apply elem_of_cons in Hop as [->|Hop]; [split_and!; [apply validate_wf; by vm_compute|done|vm_compute; lia]|]);
    by apply elem_of_nil in Hop.
Qed.
Lemma float_ops_correct_witness :
  FloatSuite wiring_suite 16 ∧
  computes1 (A := list) (@RL) (λ W, unary_ wiring_suite 16 "sqrt") (λ x, length x = 16%nat)
    (λ x, program_value (wiring_suite 16 "sqrt") 16 [x]).
Proof.
  split; [apply wiring_suite_ok|].
  apply (float_ops_correct wiring_suite 16 wiring_suite_ok). set_solver.
Defined.
