(* ===== verification/ClearSession.v ===== *)
(** * The plaintext session (ir/session/clear_session.h, ir/wire_value.h)

    A session feeds clear values into a context and opens wires again.  A value
    family takes part through its clear codec: [Codec] is the codec half of the
    [WireValue] concept, [RtCodec] that of [RuntimeWidthValue], and the laws a
    family owes a session are the class [LawfulCodec].  [ClearSession] runs over
    [ClearCtx]. *)

From S2P Require Import Prelude Program Validate Context Execute Kernel Bits NumericKernels UInt SInt.

(** ** The codec contracts *)
Record Codec (clear_t : Type) : Type := MkCodec {
  width : nat; encode : clear_t → list bool; decode : list bool → clear_t }.
Arguments MkCodec {clear_t}. Arguments width {clear_t}.
Arguments encode {clear_t}. Arguments decode {clear_t}.
(** The runtime-width codec carries its bits in bytes. *)
Record RtCodec (clear_t : Type) : Type := MkRtCodec {
  rt_encode : clear_t → nat → list N; rt_decode : list N → clear_t }.
Arguments MkRtCodec {clear_t}. Arguments rt_encode {clear_t}. Arguments rt_decode {clear_t}.

(** What a family promises a session: its width, and that the clear values that
    fit it survive the trip. *)
Class LawfulCodec {T} (V : Codec T) (fits : T → Prop) : Prop := {
  encode_width v : fits v → length (encode V v) = width V;
  decode_encode v : fits v → decode V (encode V v) = v;
  encode_decode b : length b = width V → encode V (decode V b) = b }.

(** The codecs of the families of circuits/. *)
Definition Bit_codec : Codec bool := MkCodec 1 (λ v, [v]) (λ b, default false (b !! 0%nat)).
Definition BitVec_codec (n : nat) : Codec (list bool) :=
  MkCodec n (λ v, v) (λ b, (λ i, default false (b !! i)) <$> seq 0 n).
Definition UInt_codec (n : nat) : Codec N := MkCodec n (UInt.encode n) UInt.decode.
Definition SInt_codec (n : nat) : Codec N := MkCodec n (SInt.encode n) SInt.decode.

(** [UInt_T::decode], [Int_T::encode] and [Int_T::decode] of the runtime width. *)
Definition uint_decode_rt (bits : list N) : N :=
  foldl (λ v i, N.lor v (N.shiftl (if (default 0 (bits !! i) =? 0)%N then 0 else 1) (N.of_nat i)))
    0%N (seq 0 (length bits `min` 64)).
Definition sint_encode_rt (v : N) (width : nat) : list N :=
  (λ i, N.land (N.shiftr v (N.of_nat (if (i <? 64)%nat then i else 63))) 1) <$> seq 0 width.
Definition sint_decode_rt (bits : list N) : N :=
  let v := uint_decode_rt bits in
  let sb := N.of_nat (if (length bits <? 64)%nat then length bits else 64) in
  if (sb <? 64)%N && negb (N.land (N.shiftr v (sb - 1)) 1 =? 0)%N
  then N.lor v (2 ^ 64 - 1 - (N.shiftl 1 sb - 1)) else v.
Definition UInt_rt : RtCodec N := MkRtCodec UInt.encode_rt uint_decode_rt.
Definition SInt_rt : RtCodec N := MkRtCodec sint_encode_rt sint_decode_rt.

(** ** The session *)
Module ClearSession.
Section session.
Context {T : Type}.
Definition State : Type := ClearCtx.State.
#[local] Abbreviation Wire := ClearCtx.Wire.

Definition party : Z := 0.
Definition owner_ok (owner : Z) : outcome unit :=
  expecting (0 <=? owner)%Z "ClearSession::input: owner must be PUBLIC or a party id >= 1".
Definition recipient_ok (recipient : Z) : outcome unit :=
  expecting (0 <=? recipient)%Z
    "ClearSession::reveal: recipient must be PUBLIC or a party id >= 1 (XOR-share reveal is not a plaintext notion)".
(** [for i < n: wires[i] = ctx_.public_bit(bits[i])]. *)
Definition public_wires (bits : list bool) : ST State (list Wire) := interp (kmap kpub bits).
(** [(w & 1) != 0]. *)
Definition wire_bit (w : Wire) : bool := negb (N.land w 1 =? 0)%N.

Definition input (V : Codec T) (owner : Z) (value : T) : ST State (list Wire) :=
  lift (owner_ok owner);; public_wires (encode V value).
Definition reveal (V : Codec T) (value : list Wire) (recipient : Z) : ST State (option T) :=
  lift (recipient_ok recipient);; mret (Some (decode V (wire_bit <$> value))).
(** [reveal<T>] casts the value when there is one. *)
Definition reveal_as {U} (cast : T → U) (V : Codec T) (value : list Wire) (recipient : Z) :
    ST State (option U) :=
  r ← reveal V value recipient; mret (cast <$> r).

Definition input_rt (V : RtCodec T) (owner : Z) (value : T) (width : Z) : ST State (list Wire) :=
  lift (owner_ok owner);;
  lift (expecting (1 <=? width)%Z "ClearSession::input: runtime width must be >= 1");;
  public_wires ((λ b, negb (b =? 0)%N) <$> rt_encode V value (Z.to_nat width)).
Definition reveal_rt (V : RtCodec T) (value : list Wire) (recipient : Z) : ST State (option T) :=
  lift (recipient_ok recipient);;
  mret (Some (rt_decode V ((λ w, if wire_bit w then 1 else 0)%N <$> value))).
End session.
End ClearSession.
Import ClearSession.

(** A session program: two inputs, a circuit on them, the result opened. *)
Definition session2 {T1 T2 T3} (V1 : Codec T1) (V2 : Codec T2) (V3 : Codec T3)
    (k : ∀ W, list W → list W → Kernel W (list W)) (p q r : Z) (x : T1) (y : T2) :
    ST State (option T3) :=
  a ← input V1 p x; b ← input V2 q y; c ← interp (k ClearCtx.Wire a b); reveal V3 c r.
(** The same at a width chosen when it runs. *)
Definition session2_rt {T} (V : RtCodec T) (k : ∀ W, list W → list W → Kernel W (list W))
    (p q r : Z) (x y : T) (n : Z) : ST State (option T) :=
  a ← input_rt V p x n; b ← input_rt V q y n; c ← interp (k ClearCtx.Wire a b); reveal_rt V c r.

(** ** Lemmas *)
Lemma wire_bit_is w b : ClearCtx.wire_is w b → wire_bit w = b.
Proof. intros ->. by destruct b. Qed.
Lemma wire_bits_are ws bs : Forall2 ClearCtx.wire_is ws bs → wire_bit <$> ws = bs.
Proof. induction 1 as [|w b ws bs Hw _ IH]; [done|]. by rewrite fmap_cons, (wire_bit_is w b), IH. Qed.
Lemma public_wires_ok (bits : list bool) :
  wp (λ _, False) (public_wires bits) tt (λ ws _, Forall2 ClearCtx.wire_is ws bits).
Proof.
  assert (krel RL ClearCtx.wire_is (kmap kpub bits) (kmap kpub bits)) as Hk.
  { apply (krel_kmap REq RW); [by apply Forall2_eq_refl|]. intros R' x y _ Hxy.
    unfold REq in Hxy. subst. apply krel_kpub. }
  assert (keval (kmap kpub bits) = Ret bits) as He
    by by rewrite (keval_kmap _ (λ b, b)), list_fmap_id.
  eapply wp_mono; [exact (interp_Ret (C:=ClearCtx.State) RL _ _ tt bits Hk I He)|].
  by intros ws c' (_ & _ & H).
Qed.
Lemma wp_guard {C A} E (b : bool) msg (m : ST C A) c Q :
  b = true → wp E m c Q → wp E (lift (expecting b msg);; m) c Q.
Proof. by intros ->. Qed.


(** The families keep the contract. *)
Lemma default_seq (b : list bool) : (λ i, default false (b !! i)) <$> seq 0 (length b) = b.
Proof.
  symmetry. apply bits_ext; [done|]. intros i Hi.
  by destruct (lookup_lt_is_Some_2 b i Hi) as [x ->].
Qed.
#[export] Instance Bit_lawful : LawfulCodec Bit_codec (λ _, True).
Proof. split; [done..|]. intros [|b [|]] H; by simplify_eq/=. Qed.
#[export] Instance BitVec_lawful n : LawfulCodec (BitVec_codec n) (λ v, length v = n).
Proof. split; [done| |]; intros v Hv; simpl in *; rewrite <- Hv; apply default_seq. Qed.
#[export] Instance UInt_lawful n : LawfulCodec (UInt_codec n) (λ v, (v < pow2 n)%N).
Proof.
  split; intros v Hv; cbn [encode decode width UInt_codec] in *; rewrite ?encode_ok, ?decode_ok.
  - apply length_bits.
  - by apply bval_bits_small.
  - rewrite <- Hv. apply bits_bval.
Qed.
(** An [int64_t] that an [n]-bit signed value can hold. *)
Definition fits_signed (n : nat) (u : N) : Prop :=
  ∃ v : Z, u = Z.to_N (v mod 2 ^ 64) ∧ (- zpow (n - 1) ≤ v < zpow (n - 1))%Z.
Lemma SInt_lawful n : (1 ≤ n ≤ 64)%nat → LawfulCodec (SInt_codec n) (fits_signed n).
Proof.
  intros Hn. split; cbn [encode decode width SInt_codec].
  - intros v _. by rewrite sencode_ok, length_bits.
  - intros u (v & -> & Hv). by apply (sint_codec_roundtrip n v Hn Hv).
  - intros b Hb. assert (b ≠ []) as Hne by (intros ->; simpl in Hb; lia).
    rewrite sdecode_ok by (done || lia). apply sval_inj.
    + by rewrite sencode_ok, length_bits.
    + apply sint_codec_roundtrip; [done|]. rewrite <- Hb. by apply sval_bounds.
Qed.

(** *** The runtime-width codec *)
Lemma uint_decode_rt_ok b : uint_decode_rt ((λ x : bool, if x then 1 else 0)%N <$> b) = bval (take 64 b).
Proof.
  unfold uint_decode_rt. rewrite length_fmap.
  assert (∀ n, (n ≤ length b)%nat → foldl (λ v i, N.lor v (N.shiftl
      (if (default 0 (((λ x : bool, if x then 1 else 0)%N <$> b) !! i) =? 0)%N then 0 else 1) (N.of_nat i)))
      0%N (seq 0 n) = bval (take n b)) as H.
  { induction n as [|n IH]; intros Hn; [done|]. rewrite seq_S, foldl_app, IH by lia. cbn [foldl plus].
    destruct (lookup_lt_is_Some_2 b n) as [x Hx]; [lia|].
    rewrite list_lookup_fmap, Hx, (take_S_r _ _ _ Hx), bval_app.
    replace (N.of_nat n) with (N.of_nat (length (take n b))) by (rewrite length_take; lia).
    rewrite <- lor_bval. by destruct x. }
  rewrite H by lia. destruct (decide (length b ≤ 64)%nat).
  - by rewrite Nat.min_l, !firstn_all2 by lia.
  - by rewrite Nat.min_r by lia.
Qed.
Lemma uint_encode_rt_ok v n :
  (λ b, negb (b =? 0)%N) <$> UInt.encode_rt v n = bits n (v mod pow2 64).
Proof.
  symmetry. unfold UInt.encode_rt. rewrite <- list_fmap_compose. apply bits_ext; [apply length_bits|].
  intros i Hi. rewrite bits_lookup by done. f_equal. simpl. rewrite testbit_mod.
  destruct (Nat.ltb_spec i 64).
  - rewrite (proj2 (N.ltb_lt (N.of_nat i) (N.of_nat 64))) by lia.
    change 1%N with (N.ones 1). rewrite N.land_ones, <- N.bit0_mod, N.shiftr_spec', N.add_0_l.
    by destruct (N.testbit v (N.of_nat i)).
  - by rewrite (proj2 (N.ltb_ge (N.of_nat i) (N.of_nat 64))) by lia.
Qed.
Lemma take_mod b n : (n ≤ length b)%nat → bval (take n b) = (bval b mod pow2 n)%N.
Proof.
  intros Hn. rewrite <- (take_drop n b) at 2. rewrite bval_app, length_take_le by done.
  rewrite N.mul_comm, N.Div0.mod_add, N.mod_small; [done|].
  pose proof (bval_lt (take n b)) as H. by rewrite length_take_le in H.
Qed.
(** Decoding gives the 64-bit pattern of the word's signed value. *)
Lemma sint_decode_rt_ok b : b ≠ [] →
  sint_decode_rt ((λ x : bool, if x then 1 else 0)%N <$> b) = Z.to_N (sval b mod 2 ^ 64).
Proof.
  intros Hb. unfold sint_decode_rt. rewrite uint_decode_rt_ok, length_fmap.
  destruct (Nat.ltb_spec (length b) 64) as [Hn|Hn].
  - rewrite <- sdecode_ok, firstn_all2 by (done || lia). unfold SInt.decode. rewrite decode_ok.
    f_equal. f_equal. change 1%N with (N.ones 1) at 2.
    rewrite N.land_ones, <- N.bit0_mod. by destruct (N.testbit _ 0).
  - change (N.of_nat 64 <? 64)%N with false. cbn [andb]. rewrite take_mod by done.
    apply N2Z.inj. rewrite Z2N.id by (apply Z.mod_pos_bound; lia).
    rewrite N2Z.inj_mod. change (Z.of_N (pow2 64)) with (2 ^ 64)%Z.
    destruct (sval_bval b) as [k ->]. replace (zpow (length b)) with (zpow (length b - 64) * 2 ^ 64)%Z.
    + by rewrite Z.mul_assoc, Z_mod_plus_full.
    + unfold zpow. change (2 ^ 64)%Z with (Z.of_N (pow2 64)). rewrite <- N2Z.inj_mul, <- pow2_add.
      by replace (length b - 64 + 64)%nat with (length b) by lia.
Qed.
(** Encoding extends the sign past 64 bits, and wraps below. *)
Lemma testbit_above63 v i : (- 2 ^ 63 ≤ v < 2 ^ 63)%Z → (63 ≤ i)%Z → Z.testbit v i = Z.testbit v 63.
Proof.
  intros Hv Hi. assert (∀ j, (63 ≤ j)%Z → Z.testbit v j = (v <? 0)%Z) as H.
  { intros j Hj. apply Bool.eq_iff_eq_true.
    rewrite Z.ltb_lt, Z.testbit_true by lia.
    assert (v / 2 ^ j = if (v <? 0)%Z then -1 else 0)%Z as ->.
    { assert (2 ^ 63 ≤ 2 ^ j)%Z by (apply Z.pow_le_mono_r; lia).
      destruct (Z.ltb_spec v 0); [|by apply Z.div_small; lia].
      symmetry. apply (Z.div_unique_pos _ _ _ (v + 2 ^ j)); lia. }
    destruct (Z.ltb_spec v 0); split; intros; simpl in *; try done; lia. }
  by rewrite !H by lia.
Qed.
Lemma sint_encode_rt_ok v n : (1 ≤ n)%nat → (- 2 ^ 63 ≤ v < 2 ^ 63)%Z →
  sval ((λ b, negb (b =? 0)%N) <$> sint_encode_rt (Z.to_N (v mod 2 ^ 64)) n) = smod n v.
Proof.
  intros Hn Hv. set (z := _ <$> _).
  assert (z = (λ i, Z.testbit v (Z.of_nat i)) <$> seq 0 n) as ->.
  { subst z. unfold sint_encode_rt. rewrite <- list_fmap_compose. apply list_fmap_ext.
    intros i ? [-> Hi]%lookup_seq. simpl. set (j := if (i <? 64)%nat then i else 63%nat).
    assert (j < 64)%nat by (subst j; destruct (Nat.ltb_spec i 64); lia).
    change 1%N with (N.ones 1). rewrite N.land_ones, <- N.bit0_mod, N.shiftr_spec', N.add_0_l.
    rewrite testbit_mod64 by done.
    trans (Z.testbit v (Z.of_nat j)); [by destruct (Z.testbit v (Z.of_nat j))|].
    subst j. destruct (Nat.ltb_spec i 64); [done|]. symmetry. apply testbit_above63; [done|lia]. }
  apply sval_mod; [by rewrite length_fmap, length_seq|done|].
  rewrite (bval_of_testbit _ (Z.to_N (v mod zpow n))).
  - rewrite Z2N.id by (apply Z.mod_pos_bound, zpow_pos). apply Zmod_mod.
  - intros i. rewrite <- Z.testbit_of_N, Z2N.id, nat_N_Z by (apply Z.mod_pos_bound, zpow_pos).
    unfold zpow, pow2. rewrite N2Z.inj_pow, nat_N_Z, Z.testbit_mod_pow2 by lia.
    rewrite list_lookup_fmap. destruct (decide (i < n)%nat).
    + rewrite lookup_seq_lt by done. simpl. by rewrite (proj2 (Z.ltb_lt _ _)) by lia.
    + rewrite lookup_ge_None_2 by (rewrite length_seq; lia). simpl.
      by rewrite (proj2 (Z.ltb_ge _ _)) by lia.
Qed.

(** ** Session programs *)
Lemma total_run {A} (m : ST State A) (P : A → Prop) :
  wp (λ _, False) m tt (λ a _, P a) → ∃ a, m tt = Ret (a, tt) ∧ P a.
Proof. intros H. destruct (wp_total _ m tt _ H) as (a & [] & ? & ?); eauto. Qed.
Lemma clear_input_ok {T} (V : Codec T) p x : (0 ≤ p)%Z →
  ∃ ws, input V p x tt = Ret (ws, tt) ∧ Forall2 ClearCtx.wire_is ws (encode V x).
Proof. intros Hp. apply total_run, wp_guard; [by apply Z.leb_le|]. apply public_wires_ok. Qed.
Lemma input_rt_ok {T} (V : RtCodec T) p x n : (0 ≤ p)%Z → (1 ≤ n)%Z →
  ∃ ws, input_rt V p x n tt = Ret (ws, tt) ∧
    Forall2 ClearCtx.wire_is ws ((λ b, negb (b =? 0)%N) <$> rt_encode V x (Z.to_nat n)).
Proof.
  intros Hp Hn. apply total_run, wp_guard; [by apply Z.leb_le|].
  apply wp_guard; [by apply Z.leb_le|]. apply public_wires_ok.
Qed.
Lemma owner_fails p : (p < 0)%Z →
  owner_ok p = Fatal "ClearSession::input: owner must be PUBLIC or a party id >= 1".
Proof. intros Hp. unfold owner_ok. by rewrite (proj2 (Z.leb_gt 0 p) Hp). Qed.
Lemma input_fails {T} (V : Codec T) p x c : (p < 0)%Z →
  input V p x c = Fatal "ClearSession::input: owner must be PUBLIC or a party id >= 1".
Proof. intros Hp. unfold input, lift, mbind, ST_bind. by rewrite owner_fails. Qed.
Lemma recipient_fails r : (r < 0)%Z → recipient_ok r = Fatal
  "ClearSession::reveal: recipient must be PUBLIC or a party id >= 1 (XOR-share reveal is not a plaintext notion)".
Proof. intros Hr. unfold recipient_ok. by rewrite (proj2 (Z.leb_gt 0 r) Hr). Qed.
Lemma recipient_passes r : (0 ≤ r)%Z → recipient_ok r = Ret tt.
Proof. intros Hr. unfold recipient_ok. by rewrite (proj2 (Z.leb_le 0 r) Hr). Qed.
Lemma circuit_ok k pre post a b x y : computes2 (A := list) (@RL) k pre post →
  Forall2 ClearCtx.wire_is a x → Forall2 ClearCtx.wire_is b y → pre x y →
  ∃ ws z, interp (C:=State) (k ClearCtx.Wire a b) tt = Ret (ws, tt) ∧
    Forall2 ClearCtx.wire_is ws z ∧ post x y z.
Proof.
  intros Hk Ha Hb Hpre.
  destruct (total_run (interp (C:=State) (k ClearCtx.Wire a b))
    (λ ws, ∃ z, Forall2 ClearCtx.wire_is ws z ∧ post x y z)) as (ws & He & z & ?); [|by exists ws, z].
  eapply wp_mono; [exact (Hk ClearCtx.State ClearCtx.Wire _ _ _ tt a b x y I Ha Hb Hpre)|].
  intros ws c' (_ & _ & z & Hz & Hp). by exists z.
Qed.
(** The bytes the runtime-width codec decodes. *)
Lemma wire_bytes_are ws bs : Forall2 ClearCtx.wire_is ws bs →
  (λ w, if wire_bit w then 1 else 0)%N <$> ws = (λ b : bool, if b then 1 else 0)%N <$> bs.
Proof. intros H. rewrite <- (wire_bits_are ws bs H), <- list_fmap_compose. done. Qed.

(** What a session program leaves: the guards, in the order of the calls, and
    then the result [ok] allows. *)
Definition session_outcome {T} (p q r : Z) (ok : T → Prop) (o : outcome (option T * State)) : Prop :=
  match o with
  | Ret (v, _) => (0 ≤ p ∧ 0 ≤ q ∧ 0 ≤ r)%Z ∧ ∃ t, v = Some t ∧ ok t
  | Fatal msg =>
      ((p < 0 ∨ q < 0)%Z ∧ msg = "ClearSession::input: owner must be PUBLIC or a party id >= 1") ∨
      ((0 ≤ p ∧ 0 ≤ q ∧ r < 0)%Z ∧ msg =
        "ClearSession::reveal: recipient must be PUBLIC or a party id >= 1 (XOR-share reveal is not a plaintext notion)")
  | Undef => False
  end.

(** The plaintext session is the reference for every protocol session.  For
    any value families and any circuit on two words: a negative owner or
    recipient ends the process with its message; otherwise the program that
    feeds [x] and [y], runs the circuit and opens the result reveals to every
    recipient the decoding of a result the circuit's specification allows on the
    encodings.  For a lawful codec an input opened again is the same value. *)
Theorem clear_session_correct {T1 T2 T3} (V1 : Codec T1) (V2 : Codec T2) (V3 : Codec T3)
    (k : ∀ W, list W → list W → Kernel W (list W)) pre post p q r x y :
  computes2 (A := list) (@RL) k pre post → pre (encode V1 x) (encode V2 y) →
  session_outcome p q r (λ t, ∃ z, t = decode V3 z ∧ post (encode V1 x) (encode V2 y) z)
    (session2 V1 V2 V3 k p q r x y tt) ∧
  (∀ fits, LawfulCodec V1 fits → fits x → (0 ≤ p)%Z → (0 ≤ r)%Z →
     (a ← input V1 p x; reveal V1 a r) tt = Ret (Some x, tt)).
Proof.
  intros Hk Hpre. split.
  - unfold session2, mbind, ST_bind.
    destruct (Z.leb_spec 0 p) as [Hp|Hp].
    2:{ rewrite (input_fails _ p) by done. left; split; [by left|done]. }
    destruct (clear_input_ok V1 p x Hp) as (a & -> & Ha). cbn [mbind outcome_bind].
    destruct (Z.leb_spec 0 q) as [Hq|Hq].
    2:{ rewrite (input_fails _ q) by done. left; split; [by right|done]. }
    destruct (clear_input_ok V2 q y Hq) as (b & -> & Hb). cbn [mbind outcome_bind].
    destruct (circuit_ok k pre post a b _ _ Hk Ha Hb Hpre) as (ws & z & -> & Hw & Hz).
    cbn [mbind outcome_bind]. unfold reveal, lift, mbind, ST_bind.
    destruct (Z.leb_spec 0 r) as [Hr|Hr].
    2:{ rewrite (recipient_fails r) by done. by right. }
    rewrite (recipient_passes r) by done. split; [done|].
    rewrite (wire_bits_are ws z Hw). eauto.
  - intros fits HL Hx Hp Hr. unfold mbind, ST_bind.
    destruct (clear_input_ok V1 p x Hp) as (a & -> & Ha). cbn [mbind outcome_bind].
    unfold reveal, lift, mbind, ST_bind. rewrite (recipient_passes r) by done.
    cbn [mbind outcome_bind mret ST_ret].
    by rewrite (wire_bits_are a _ Ha), (decode_encode x) by done.
Qed.

Lemma computes_add : computes2 (A := list) (@RL) (@UInt.add) same_length
  (λ x y z, length z = length x ∧ bval z = ((bval x + bval y) mod pow2 (length x))%N).
Proof.
  apply computes2_intro; [intros; eauto with kparam|intros x y Hlen].
  unfold UInt.add. rewrite keval_guard by done. by apply keval_ripple_add.
Qed.
Lemma clear_session_correct_witness :
  session_outcome 1 2 0 (λ t, t = 44%N)
    (session2 (UInt_codec 8) (UInt_codec 8) (UInt_codec 8) (@UInt.add) 1 2 0 200%N 100%N tt).
Proof.
  destruct (clear_session_correct (UInt_codec 8) (UInt_codec 8) (UInt_codec 8) (@UInt.add) _ _
    1 2 0 200%N 100%N computes_add eq_refl) as [H _].
  revert H. destruct (session2 _ _ _ _ _ _ _ _ _ _) as [[v s]| |]; [|done..].
  intros [Hg (t & -> & z & -> & _ & Hz)]. split; [done|]. eexists. split; [reflexivity|].
  cbn [decode UInt_codec]. rewrite decode_ok, Hz. reflexivity.
Defined.

(** The same at a width chosen at run time, for both integer families: inputs
    are their 64-bit patterns (zero- or sign-extended past 64 bits) and the
    opened value keeps the low 64 bits of the result. *)
Theorem clear_session_rt_correct (V : RtCodec N)
    (k : ∀ W, list W → list W → Kernel W (list W)) pre post p q r x y n :
  computes2 (A := list) (@RL) k pre post → (0 ≤ p)%Z → (0 ≤ q)%Z → (0 ≤ r)%Z → (1 ≤ n)%Z →
  let enc v := (λ b, negb (b =? 0)%N) <$> rt_encode V v (Z.to_nat n) in
  pre (enc x) (enc y) →
  ∃ z, post (enc x) (enc y) z ∧ session2_rt V k p q r x y n tt =
    Ret (Some (rt_decode V ((λ b : bool, if b then 1 else 0)%N <$> z)), tt).
Proof.
  intros Hk Hp Hq Hr Hn enc Hpre. unfold session2_rt, mbind, ST_bind.
  destruct (input_rt_ok V p x n Hp Hn) as (a & -> & Ha). cbn [mbind outcome_bind].
  destruct (input_rt_ok V q y n Hq Hn) as (b & -> & Hb). cbn [mbind outcome_bind].
  destruct (circuit_ok k pre post a b _ _ Hk Ha Hb Hpre) as (ws & z & -> & Hw & Hz).
  cbn [mbind outcome_bind]. exists z. split; [done|].
  unfold reveal_rt, lift, mbind, ST_bind. rewrite (recipient_passes r) by done.
  cbn [mbind outcome_bind mret ST_ret]. by rewrite (wire_bytes_are ws z Hw).
Qed.
(** A runtime-width session adds modulo the width, whatever the width. *)
Lemma uint_session_add x y n : (1 ≤ n)%Z → (x < 2 ^ 64)%N → (y < 2 ^ 64)%N →
  ∃ v, session2_rt UInt_rt (@UInt.add) 1 2 0 x y n tt = Ret (Some v, tt) ∧
    v = (((x + y) mod pow2 (Z.to_nat n)) mod pow2 64)%N.
Proof.
  intros Hn Hx Hy. destruct (clear_session_rt_correct UInt_rt (@UInt.add) _ _ 1 2 0 x y n computes_add)
    as (z & [Hl Hz] & ->); [done..| |].
  - unfold same_length. cbn [rt_encode UInt_rt]. by rewrite !uint_encode_rt_ok, !length_bits.
  - eexists. split; [reflexivity|]. cbn [rt_decode rt_encode UInt_rt] in *. rewrite uint_decode_rt_ok.
    rewrite !uint_encode_rt_ok, !length_bits in *. rewrite !bval_bits in Hz.
    change (pow2 64) with (2 ^ 64)%N in Hz. rewrite !(N.mod_small _ (2 ^ 64)) in Hz by done.
    rewrite <- N.Div0.add_mod in Hz. rewrite <- Hz.
    destruct (decide (64 ≤ length z)%nat); [by apply take_mod|].
    rewrite firstn_all2, N.mod_small; [done| |lia]. eapply N.lt_le_trans; [apply bval_lt|].
    apply pow2_le. lia.
Qed.
(** A signed input opened again is wrapped to the width. *)
Lemma sint_session_roundtrip v n : (1 ≤ n)%Z → (- 2 ^ 63 ≤ v < 2 ^ 63)%Z →
  (a ← input_rt SInt_rt 1 (Z.to_N (v mod 2 ^ 64)) n; reveal_rt SInt_rt a 0) tt =
  Ret (Some (Z.to_N (smod (Z.to_nat n) v mod 2 ^ 64)), tt).
Proof.
  intros Hn Hv. unfold mbind, ST_bind.
  destruct (input_rt_ok SInt_rt 1 (Z.to_N (v mod 2 ^ 64)) n) as (a & -> & Ha); [done..|].
  cbn [mbind outcome_bind]. unfold reveal_rt, lift, mbind, ST_bind. cbn [mbind outcome_bind].
  rewrite (wire_bytes_are a _ Ha). cbn [rt_encode rt_decode SInt_rt mret ST_ret].
  rewrite sint_decode_rt_ok; [by rewrite sint_encode_rt_ok by (done || lia)|].
  intros H. apply (f_equal length) in H. unfold sint_encode_rt in H.
  rewrite !length_fmap, length_seq in H. apply (f_equal Z.of_nat) in H.
  rewrite Z2Nat.id in H by lia. change (Z.of_nat (length [])) with 0%Z in H. lia.
Qed.
