(* ===== verification/Gf2.v ===== *)
(** * Polynomials over GF(2)

    The bits of a number are the coefficients of a polynomial: addition is
    exclusive or, [pmul] the product, [pmod] the remainder modulo the polynomial
    of GF(2^128).  Functions built from shifts, masks and exclusive ors are
    additive ([Linear]), so two of them are equal when they agree on the powers
    of two. *)

From S2P Require Import Prelude Bits.
From Stdlib Require Import Btauto.

Infix "⊕" := N.lxor (at level 50, left associativity) : emp_scope.

(** Sums are equal up to order, grouping and cancellation. *)
Ltac xor_bits := apply N.bits_inj; intros ?; rewrite ?N.lxor_spec, ?N.bits_0; btauto.

(** ** Additive functions *)
Class Linear (f : N → N) : Prop := linear a b : f (a ⊕ b) = f a ⊕ f b.

Lemma lxor_swap a b c d : (a ⊕ b) ⊕ (c ⊕ d) = (a ⊕ c) ⊕ (b ⊕ d).
Proof. xor_bits. Qed.
Lemma linear_0 f : Linear f → f 0%N = 0%N.
Proof. intros H. rewrite <- (N.lxor_nilpotent 0), H. apply N.lxor_nilpotent. Qed.

#[export] Instance linear_id : Linear (λ x, x).
Proof. done. Qed.
#[export] Instance linear_zero : Linear (λ _, 0%N).
Proof. done. Qed.
#[export] Instance linear_lxor f g : Linear f → Linear g → Linear (λ x, f x ⊕ g x).
Proof. intros Hf Hg a b. rewrite Hf, Hg. apply lxor_swap. Qed.
#[export] Instance linear_shiftl f n : Linear f → Linear (λ x, N.shiftl (f x) n).
Proof. intros Hf a b. by rewrite Hf, N.shiftl_lxor. Qed.
#[export] Instance linear_shiftr f n : Linear f → Linear (λ x, N.shiftr (f x) n).
Proof. intros Hf a b. by rewrite Hf, N.shiftr_lxor. Qed.
#[export] Instance linear_land_r f m : Linear f → Linear (λ x, N.land (f x) m).
Proof.
  intros Hf a b. rewrite Hf. apply N.bits_inj. intros i. rewrite ?N.land_spec, ?N.lxor_spec, ?N.land_spec.
  by destruct (N.testbit (f a) i), (N.testbit (f b) i), (N.testbit m i).
Qed.
#[export] Instance linear_land_l f m : Linear f → Linear (λ x, N.land m (f x)).
Proof. intros Hf a b. rewrite !(N.land_comm m). by apply (linear_land_r f m). Qed.
#[export] Instance linear_ldiff f m : Linear f → Linear (λ x, N.ldiff (f x) m).
Proof.
  intros Hf a b. rewrite Hf. apply N.bits_inj. intros i. rewrite ?N.ldiff_spec, ?N.lxor_spec, ?N.ldiff_spec.
  by destruct (N.testbit (f a) i), (N.testbit (f b) i), (N.testbit m i).
Qed.
#[export] Instance linear_mod f n : Linear f → Linear (λ x, f x mod 2 ^ n)%N.
Proof.
  intros Hf a b. rewrite <- !N.land_ones. by apply (linear_land_r f (N.ones n)).
Qed.
Lemma linear_compose f g : Linear f → Linear g → Linear (λ x, f (g x)).
Proof. intros Hf Hg a b. by rewrite Hg, Hf. Qed.
#[export] Instance linear_fold {A} (f : A → N → N) (l : list A) :
  (∀ i, Linear (f i)) → Linear (λ x, foldr (λ i acc, f i x ⊕ acc) 0%N l).
Proof.
  intros Hf a b. induction l as [|i l IH]; [done|]. cbn [foldr]. rewrite Hf, IH. apply lxor_swap.
Qed.
(** Keep a bit. *)
#[export] Instance linear_bit f i v : Linear f → Linear (λ x, if N.testbit (f x) i then v else 0%N).
Proof.
  intros Hf a b. rewrite Hf, N.lxor_spec.
  destruct (N.testbit (f a) i), (N.testbit (f b) i); simpl; by rewrite ?N.lxor_0_r, ?N.lxor_nilpotent.
Qed.

(** The powers of two below [2^n] span. *)
Lemma top_bit n x : (x < 2 ^ N.succ n)%N → ∃ y, (y < 2 ^ n)%N ∧ (x = y ∨ x = y ⊕ 2 ^ n)%N.
Proof.
  intros Hx. exists (x mod 2 ^ n)%N. split; [by apply N.mod_lt, N.pow_nonzero|].
  destruct (N.testbit x n) eqn:Hb; [right|left]; apply N.bits_inj; intros i;
    rewrite ?N.lxor_spec, ?N.pow2_bits_eqb; destruct (N.lt_trichotomy i n) as [Hi|[->|Hi]].
  - rewrite N.mod_pow2_bits_low, (proj2 (N.eqb_neq n i)) by lia. by rewrite xorb_false_r.
  - by rewrite N.mod_pow2_bits_high, N.eqb_refl, Hb by lia.
  - rewrite N.mod_pow2_bits_high, (proj2 (N.eqb_neq n i)) by lia.
    by apply (testbit_above (N.succ n)); [|lia].
  - by rewrite N.mod_pow2_bits_low by lia.
  - by rewrite N.mod_pow2_bits_high, Hb by lia.
  - rewrite N.mod_pow2_bits_high by lia. by apply (testbit_above (N.succ n)); [|lia].
Qed.
Lemma linear_ext f g (n : nat) x : Linear f → Linear g →
  Forall (λ i, f (2 ^ N.of_nat i) = g (2 ^ N.of_nat i))%N (seq 0 n) → (x < 2 ^ N.of_nat n)%N → f x = g x.
Proof.
  intros Hf Hg. revert x. induction n as [|n IH]; intros x Hall Hx.
  - replace x with 0%N by (simpl in Hx; lia). by rewrite !linear_0.
  - rewrite seq_S, Forall_app, Forall_singleton in Hall. destruct Hall as [Hall Hn].
    rewrite Nat2N.inj_succ in Hx. destruct (top_bit _ _ Hx) as (y & Hy & [->| ->]); [by apply IH|].
    rewrite Hf, Hg. f_equal; [by apply IH|done].
Qed.
(** The same with the basis checked by evaluation. *)
Definition agree (n : nat) (f g : N → N) : bool :=
  forallb (λ i, f (2 ^ N.of_nat i) =? g (2 ^ N.of_nat i))%N (seq 0 n).
Lemma linear_check f g (n : nat) x : Linear f → Linear g → agree n f g = true →
  (x < 2 ^ N.of_nat n)%N → f x = g x.
Proof.
  intros Hf Hg Ha. apply linear_ext; [done..|]. apply Forall_forall. intros i Hi.
  unfold agree in Ha. rewrite forallb_forall in Ha. apply N.eqb_eq, Ha. by apply list_elem_of_In.
Qed.

(** ** The product *)
Fixpoint pmul_pos (a : N) (b : positive) : N :=
  match b with
  | xH => a
  | xO b => N.double (pmul_pos a b)
  | xI b => a ⊕ N.double (pmul_pos a b)
  end.
Definition pmul (a b : N) : N := match b with N0 => 0%N | Npos b => pmul_pos a b end.
Infix "⊗" := pmul (at level 40, left associativity) : emp_scope.

Lemma double_lxor a b : N.double (a ⊕ b) = N.double a ⊕ N.double b.
Proof. by destruct a as [|[]], b as [|[]]. Qed.
#[export] Instance linear_double f : Linear f → Linear (λ x, N.double (f x)).
Proof. intros Hf a b. rewrite Hf. apply double_lxor. Qed.
Lemma pmul_0_r a : a ⊗ 0%N = 0%N.
Proof. done. Qed.
Lemma pmul_1_r a : a ⊗ 1%N = a.
Proof. done. Qed.
Lemma pmul_double_r a b : a ⊗ N.double b = N.double (a ⊗ b).
Proof. by destruct b. Qed.
Lemma pmul_succ_double_r a b : a ⊗ N.succ_double b = a ⊕ N.double (a ⊗ b).
Proof. destruct b; [|done]. by rewrite N.lxor_0_r. Qed.
Lemma succ_double_lxor b : N.succ_double b = 1%N ⊕ N.double b.
Proof. by destruct b as [|[]]. Qed.
#[export] Instance linear_pmul_l f b : Linear f → Linear (λ a, f a ⊗ b).
Proof.
  intros Hf x y. rewrite Hf. induction b as [|b IH|b IH] using N.binary_ind; [done| |].
  - by rewrite !pmul_double_r, IH, double_lxor.
  - rewrite !pmul_succ_double_r, IH, double_lxor. apply lxor_swap.
Qed.
Lemma pmul_0_l b : 0%N ⊗ b = 0%N.
Proof. apply (linear_0 (λ a, a ⊗ b)), _. Qed.
Lemma pmul_1_l b : 1%N ⊗ b = b.
Proof.
  induction b as [|b IH|b IH] using N.binary_ind; [done| |].
  - by rewrite pmul_double_r, IH.
  - by rewrite pmul_succ_double_r, IH, succ_double_lxor.
Qed.
Lemma pmul_double_l a b : N.double a ⊗ b = N.double (a ⊗ b).
Proof.
  induction b as [|b IH|b IH] using N.binary_ind; [done| |].
  - by rewrite !pmul_double_r, IH.
  - by rewrite !pmul_succ_double_r, IH, double_lxor.
Qed.
Lemma pmul_comm a b : a ⊗ b = b ⊗ a.
Proof.
  induction b as [|b IH|b IH] using N.binary_ind; [by rewrite pmul_0_l| |].
  - by rewrite pmul_double_r, pmul_double_l, IH.
  - rewrite pmul_succ_double_r, IH, succ_double_lxor, (linear_pmul_l (λ x, x) a _ 1%N (N.double b)).
    by rewrite pmul_1_l, pmul_double_l.
Qed.
#[export] Instance linear_pmul_r f a : Linear f → Linear (λ b, a ⊗ f b).
Proof. intros Hf x y. rewrite !(pmul_comm a). by apply (linear_pmul_l f a). Qed.
Lemma pmul_lxor_l a b c : (a ⊕ b) ⊗ c = a ⊗ c ⊕ b ⊗ c.
Proof. apply (linear_pmul_l (λ x, x) c), _. Qed.
Lemma pmul_lxor_r a b c : a ⊗ (b ⊕ c) = a ⊗ b ⊕ a ⊗ c.
Proof. apply (linear_pmul_r (λ x, x) a), _. Qed.
Lemma pmul_assoc a b c : a ⊗ b ⊗ c = a ⊗ (b ⊗ c).
Proof.
  induction c as [|c IH|c IH] using N.binary_ind; [done| |].
  - by rewrite !pmul_double_r, IH.
  - by rewrite !pmul_succ_double_r, pmul_lxor_r, pmul_double_r, IH.
Qed.
Lemma pmul_pow2_r a n : a ⊗ (2 ^ n)%N = N.shiftl a n.
Proof.
  induction n as [|n IH] using N.peano_ind; [by rewrite N.shiftl_0_r|].
  by rewrite N.pow_succ_r', <- N.double_spec, pmul_double_r, IH, N.shiftl_succ_r, N.double_spec.
Qed.
Lemma pmul_shiftl_r a b n : a ⊗ N.shiftl b n = N.shiftl (a ⊗ b) n.
Proof. by rewrite <- !pmul_pow2_r, pmul_assoc. Qed.
Lemma pmul_shiftl_l a b n : N.shiftl a n ⊗ b = N.shiftl (a ⊗ b) n.
Proof. by rewrite pmul_comm, pmul_shiftl_r, pmul_comm. Qed.
Create Rewrite HintDb gf2.
#[export] Hint Rewrite N.lxor_0_l N.lxor_0_r N.lxor_nilpotent pmul_0_l pmul_0_r pmul_1_l pmul_1_r : gf2.

(** Degrees add up. *)
Lemma log2_lxor_r a b : (N.log2 a < N.log2 b)%N → N.log2 (a ⊕ b) = N.log2 b.
Proof.
  intros H. apply N.log2_bits_unique.
  - rewrite N.lxor_spec, N.bit_log2, (N.bits_above_log2 a) by (done || intros ->; simpl in H; lia). done.
  - intros m Hm. by rewrite N.lxor_spec, !N.bits_above_log2 by lia.
Qed.
Lemma pmul_log2 a b : a ≠ 0%N → b ≠ 0%N → a ⊗ b ≠ 0%N ∧ N.log2 (a ⊗ b) = (N.log2 a + N.log2 b)%N.
Proof.
  intros Ha. induction b as [|b IH|b IH] using N.binary_ind; intros Hb; [done| |].
  - assert (b ≠ 0%N) as Hb0 by (by intros ->). destruct (IH Hb0) as [Hn Hl].
    rewrite pmul_double_r, !N.double_spec, !N.log2_double by lia. split; lia.
  - rewrite pmul_succ_double_r. destruct (decide (b = 0%N)) as [->|Hb0].
    + autorewrite with gf2. split; [done|]. simpl. lia.
    + destruct (IH Hb0) as [Hn Hl].
      assert (N.log2 (N.double (a ⊗ b)) = N.succ (N.log2 a + N.log2 b)) as Hd
        by (rewrite N.double_spec, N.log2_double by lia; lia).
      assert (N.log2 (a ⊕ N.double (a ⊗ b)) = N.succ (N.log2 a + N.log2 b)) as Hx
        by (rewrite log2_lxor_r; lia).
      split; [intros He; rewrite He in Hx; simpl in Hx; lia|].
      rewrite Hx, N.succ_double_spec, N.log2_succ_double by lia. lia.
Qed.
Lemma pmul_bound a b n m : (a < 2 ^ n)%N → (b < 2 ^ m)%N → (0 < n)%N → (0 < m)%N → (a ⊗ b < 2 ^ (n + m - 1))%N.
Proof.
  intros Ha Hb Hn Hm. destruct (decide (a = 0%N)) as [->|Ha0]; [rewrite pmul_0_l; by apply N.neq_0_lt_0, N.pow_nonzero|].
  destruct (decide (b = 0%N)) as [->|Hb0]; [rewrite pmul_0_r; by apply N.neq_0_lt_0, N.pow_nonzero|].
  destruct (pmul_log2 a b Ha0 Hb0) as [Hne Hl]. apply N.log2_lt_pow2 in Ha, Hb; [|lia..].
  apply N.log2_lt_pow2; lia.
Qed.

(** ** Modulo a polynomial *)
Section modulo.
Context (d : N) (low : N).
(** [X^d + low], with [low] of a smaller degree. *)
Hypothesis (Hlow : (low < 2 ^ d)%N).
Definition modulus : N := (2 ^ d)%N ⊕ low.
Definition pcong (a b : N) : Prop := ∃ q, a = b ⊕ q ⊗ modulus.

#[export] Instance pcong_equivalence : Equivalence pcong.
Proof.
  split.
  - intros a. exists 0%N. by autorewrite with gf2.
  - intros a b [q ->]. exists q. by rewrite N.lxor_assoc, N.lxor_nilpotent, N.lxor_0_r.
  - intros a b c [q ->] [r ->]. exists (r ⊕ q). by rewrite pmul_lxor_l, N.lxor_assoc.
Qed.
#[export] Instance pcong_lxor : Proper (pcong ==> pcong ==> pcong) N.lxor.
Proof. intros a a' [q ->] b b' [r ->]. exists (q ⊕ r). by rewrite pmul_lxor_l, lxor_swap. Qed.
#[export] Instance pcong_pmul : Proper (pcong ==> pcong ==> pcong) pmul.
Proof.
  intros a a' [q ->] b b' [r ->]. exists (q ⊗ b' ⊕ a' ⊗ r ⊕ q ⊗ modulus ⊗ r).
  rewrite !pmul_lxor_l, !pmul_lxor_r, <- !pmul_assoc, !N.lxor_assoc. f_equal.
  rewrite <- !N.lxor_assoc. f_equal. rewrite N.lxor_comm. f_equal.
  by rewrite !pmul_assoc, (pmul_comm modulus).
Qed.
Lemma modulus_log2 : modulus ≠ 0%N ∧ N.log2 modulus = d.
Proof.
  assert (N.testbit modulus d = true) as Hb.
  { unfold modulus. rewrite N.lxor_spec, N.pow2_bits_true, (testbit_above d) by (done || lia). done. }
  split; [intros He; by rewrite He, N.bits_0 in Hb|]. apply N.log2_bits_unique; [done|].
  intros m Hm. unfold modulus. rewrite N.lxor_spec, N.pow2_bits_false, (testbit_above d) by (done || lia). done.
Qed.
(** Remainders are unique. *)
Lemma pcong_unique a b : pcong a b → (a < 2 ^ d)%N → (b < 2 ^ d)%N → a = b.
Proof.
  intros [q Hq] Ha Hb. destruct (decide (q = 0%N)) as [->|Hne].
  { by rewrite pmul_0_l, N.lxor_0_r in Hq. }
  exfalso. destruct modulus_log2 as [Hm Hl]. destruct (pmul_log2 q modulus Hne Hm) as [Hn Hlog].
  assert (q ⊗ modulus = a ⊕ b) as He.
  { by rewrite Hq, (N.lxor_comm b), N.lxor_assoc, N.lxor_nilpotent, N.lxor_0_r. }
  assert (q ⊗ modulus < 2 ^ d)%N as Hlt by (rewrite He; by apply lxor_lt).
  apply N.log2_lt_pow2 in Hlt; lia.
Qed.
Lemma pow2_cong : pcong (2 ^ d)%N low.
Proof. exists 1%N. rewrite pmul_1_l. unfold modulus. by rewrite (N.lxor_comm low), N.lxor_assoc, N.lxor_nilpotent, N.lxor_0_r. Qed.

(** The remainder, by clearing the high bits from the top. *)
Definition pmod_step (i : nat) (v : N) : N :=
  v ⊕ (if N.testbit v (d + N.of_nat i) then N.shiftl modulus (N.of_nat i) else 0%N).
Fixpoint pmod (n : nat) (v : N) : N :=
  match n with O => v | S n => pmod n (pmod_step n v) end.
#[export] Instance linear_pmod_step i : Linear (pmod_step i).
Proof. apply (linear_lxor (λ x, x)); [apply _|]. apply (linear_bit (λ x, x)), _. Qed.
#[export] Instance linear_pmod n : Linear (pmod n).
Proof. induction n as [|n IH]; [done|]. by apply (linear_compose (pmod n) (pmod_step n)); [|apply _]. Qed.
Lemma pmod_cong n v : pcong (pmod n v) v.
Proof.
  revert v. induction n as [|n IH]; intros v; [done|]. simpl. rewrite IH. unfold pmod_step.
  destruct (N.testbit v _); [|by rewrite N.lxor_0_r]. exists (2 ^ N.of_nat n)%N.
  by rewrite (pmul_comm _ modulus), pmul_pow2_r.
Qed.
Lemma pmod_lt n v : (v < 2 ^ (d + N.of_nat n))%N → (pmod n v < 2 ^ d)%N.
Proof.
  revert v. induction n as [|n IH]; intros v Hv; [by rewrite N.add_0_r in Hv|]. apply IH.
  apply lt_pow2_bits. intros i Hi. unfold pmod_step. rewrite N.lxor_spec.
  destruct (N.eq_dec i (d + N.of_nat n)%N) as [->|Hne].
  - destruct (N.testbit v (d + N.of_nat n)); [|done].
    rewrite N.shiftl_spec_high' by lia. replace (d + N.of_nat n - N.of_nat n)%N with d by lia.
    unfold modulus. by rewrite N.lxor_spec, N.pow2_bits_true, (testbit_above d) by (done || lia).
  - rewrite (testbit_above (d + N.of_nat (S n)) v) by (done || lia).
    destruct (N.testbit v _); [|by rewrite N.bits_0].
    rewrite N.shiftl_spec_high' by lia. unfold modulus.
    by rewrite N.lxor_spec, N.pow2_bits_false, (testbit_above d) by (done || lia).
Qed.
(** A small representative is the remainder. *)
Lemma pmod_unique n v r : (v < 2 ^ (d + N.of_nat n))%N → (r < 2 ^ d)%N → pcong r v → r = pmod n v.
Proof.
  intros Hv Hr Hc. apply pcong_unique; [|done|by apply pmod_lt]. by rewrite pmod_cong.
Qed.
End modulo.
