(* ===== verification/F2k.v ===== *)
(** * GF(2^128) (runtime/crypto/f2k.h, f2k.hpp, core/simd_tier.h)

    Multiplication, reduction, inner products, the coefficients of the universal
    hash and packing.  The vector instructions are functions on 128-bit numbers;
    wider registers are lists of blocks, the instructions act on each.  The field
    is GF(2)[X] modulo X^128 + X^7 + X^2 + X + 1. *)

From S2P Require Import Prelude Bits Bytes Block Gf2.

(** ** Instructions
    [lanes w k f]: [f] on each of [k] lanes of [w] bits. *)
Definition lane (w : N) (i : nat) (x : block) : N := (N.shiftr x (w * N.of_nat i) mod 2 ^ w)%N.
Definition lanes (w : N) (k : nat) (f : N → N) (x : block) : block :=
  foldr (λ i acc, N.shiftl (f (lane w i x)) (w * N.of_nat i) ⊕ acc) 0%N (seq 0 k).
Definition slli_epi32 (x : block) (n : N) : block := lanes 32 4 (λ l, N.shiftl l n mod 2 ^ 32)%N x.
Definition srli_epi32 (x : block) (n : N) : block := lanes 32 4 (λ l, N.shiftr l n) x.
Definition slli_epi64 (x : block) (n : N) : block := lanes 64 2 (λ l, N.shiftl l n mod 2 ^ 64)%N x.
Definition srli_epi64 (x : block) (n : N) : block := lanes 64 2 (λ l, N.shiftr l n) x.
Definition slli_si128 (x : block) (n : N) : block := (N.shiftl x (8 * n) mod 2 ^ 128)%N.
Definition srli_si128 (x : block) (n : N) : block := N.shiftr x (8 * n).
Definition shuffle_epi32 (x : block) (imm : N) : block :=
  foldr (λ i acc, N.shiftl (lane 32 (N.to_nat (lane 2 i imm)) x) (32 * N.of_nat i) ⊕ acc) 0%N (seq 0 4).
Definition andnot_si128 (m x : block) : block := N.ldiff x m.
(** Bit 0 of the immediate selects the half of [a], bit 4 that of [b]. *)
Definition clmulepi64 (a b : block) (imm : N) : block :=
  lane 64 (if N.testbit imm 0 then 1 else 0) a ⊗ lane 64 (if N.testbit imm 4 then 1 else 0) b.

(** ** Lanes of carryless products: registers of 1, 2 or 4 blocks *)
Module ClmulLane.
Definition vec_t : Type := list block.
Definition zero (n : nat) : vec_t := replicate n 0%N.
(** [loadu(p + i)]: the array must hold the register. *)
Definition loadu (n : nat) (p : list block) (i : nat) : outcome vec_t :=
  if (i + n <=? length p)%nat then Ret (take n (drop i p)) else Undef.
Definition xorv : vec_t → vec_t → vec_t := zip_with N.lxor.
Definition xor3 (a b c : vec_t) : vec_t := xorv a (xorv b c).
Definition clmul_lo_lo : vec_t → vec_t → vec_t := zip_with (λ a b, clmulepi64 a b 0x00).
Definition clmul_hi_hi : vec_t → vec_t → vec_t := zip_with (λ a b, clmulepi64 a b 0x11).
Definition clmul_hi_lo : vec_t → vec_t → vec_t := zip_with (λ a b, clmulepi64 a b 0x10).
Definition clmul_lo_hi : vec_t → vec_t → vec_t := zip_with (λ a b, clmulepi64 a b 0x01).
Definition bslli_8 (v : vec_t) : vec_t := (λ x, slli_si128 x 8) <$> v.
Definition bsrli_8 (v : vec_t) : vec_t := (λ x, srli_si128 x 8) <$> v.
(** Halving exclusive ors. *)
Definition fold_to_xmm (v : vec_t) : block :=
  match v with
  | [a] => a
  | [a; b] => a ⊕ b
  | [a; b; c; d] => (a ⊕ c) ⊕ (b ⊕ d)
  | _ => 0%N
  end.
End ClmulLane.

(** ** Multiplication *)
Definition mul128 (a b : block) : block * block :=
  let p00 := clmulepi64 a b 0x00 in
  let p11 := clmulepi64 a b 0x11 in
  let p10 := clmulepi64 a b 0x10 in
  let p01 := clmulepi64 a b 0x01 in
  let mid := p10 ⊕ p01 in
  (p00 ⊕ slli_si128 mid 8, p11 ⊕ srli_si128 mid 8).

Definition reduce_reflect (tmp3 tmp6 : block) : block :=
  let tmp7 := srli_epi32 tmp3 31 in
  let tmp8 := srli_epi32 tmp6 31 in
  let tmp3 := slli_epi32 tmp3 1 in
  let tmp6 := slli_epi32 tmp6 1 in
  let tmp9 := srli_si128 tmp7 12 in
  let tmp8 := slli_si128 tmp8 4 in
  let tmp7 := slli_si128 tmp7 4 in
  let tmp3 := N.lor tmp3 tmp7 in
  let tmp6 := N.lor tmp6 tmp8 in
  let tmp6 := N.lor tmp6 tmp9 in
  let tmp7 := slli_epi32 tmp3 31 in
  let tmp8 := slli_epi32 tmp3 30 in
  let tmp9 := slli_epi32 tmp3 25 in
  let tmp7 := tmp7 ⊕ tmp8 in
  let tmp7 := tmp7 ⊕ tmp9 in
  let tmp8 := srli_si128 tmp7 4 in
  let tmp7 := slli_si128 tmp7 12 in
  let tmp3 := tmp3 ⊕ tmp7 in
  let tmp2 := srli_epi32 tmp3 1 in
  let tmp4 := srli_epi32 tmp3 2 in
  let tmp5 := srli_epi32 tmp3 7 in
  let tmp2 := tmp2 ⊕ tmp4 in
  let tmp2 := tmp2 ⊕ tmp5 in
  let tmp2 := tmp2 ⊕ tmp8 in
  let tmp3 := tmp3 ⊕ tmp2 in
  tmp6 ⊕ tmp3.

Definition XMMMASK : block := 0xffffffff%N.
Definition reduce (tmp3 tmp6 : block) : block :=
  let tmp7 := srli_epi32 tmp6 31 in
  let tmp8 := srli_epi32 tmp6 30 in
  let tmp9 := srli_epi32 tmp6 25 in
  let tmp7 := tmp7 ⊕ tmp8 in
  let tmp7 := tmp7 ⊕ tmp9 in
  let tmp8 := shuffle_epi32 tmp7 147 in
  let tmp7 := N.land XMMMASK tmp8 in
  let tmp8 := andnot_si128 XMMMASK tmp8 in
  let tmp3 := tmp3 ⊕ tmp8 in
  let tmp6 := tmp6 ⊕ tmp7 in
  let tmp10 := slli_epi32 tmp6 1 in
  let tmp3 := tmp3 ⊕ tmp10 in
  let tmp11 := slli_epi32 tmp6 2 in
  let tmp3 := tmp3 ⊕ tmp11 in
  let tmp12 := slli_epi32 tmp6 7 in
  let tmp3 := tmp3 ⊕ tmp12 in
  tmp3 ⊕ tmp6.

Definition gfmul (a b : block) : block := let '(r1, r2) := mul128 a b in reduce r1 r2.
Definition gfmul_reflect (a b : block) : block := let '(r1, r2) := mul128 a b in reduce_reflect r1 r2.

(** ** Inner products *)
Import ClmulLane.
(** One pass of the loop of [inn_prdt_drain_lanes] over registers of [n] blocks:
    the accumulators and the index. *)
Definition Accum : Type := vec_t * vec_t * vec_t * nat.
Definition drain_step (n : nat) (a b : list block) (s : Accum) : outcome Accum :=
  let '(lo_v, hi_v, mid_v, i) := s in
  av ← loadu n a i;
  bv ← loadu n b i;
  let p00 := clmul_lo_lo av bv in
  let p11 := clmul_hi_hi av bv in
  let p10 := clmul_hi_lo av bv in
  let p01 := clmul_lo_hi av bv in
  Ret (xorv lo_v p00, xorv hi_v p11, xor3 mid_v p10 p01, (i + n)%nat).
Fixpoint drain_loop (fuel n : nat) (a b : list block) (sz : Z) (s : Accum) : outcome Accum :=
  match fuel with
  | O => Ret s
  | S fuel =>
      if (Z.of_nat (s.2 + n) <=? sz)%Z then s ← drain_step n a b s; drain_loop fuel n a b sz s
      else Ret s
  end.
Definition inn_prdt_drain_lanes (n : nat) (a b : list block) (sz : Z) (acc : block * block * nat) :
    outcome (block * block * nat) :=
  let '(lo, hi, i) := acc in
  s ← drain_loop (Z.to_nat sz) n a b sz (zero n, zero n, zero n, i);
  let '(lo_v, hi_v, mid_v, i) := s in
  let lo_v := xorv lo_v (bslli_8 mid_v) in
  let hi_v := xorv hi_v (bsrli_8 mid_v) in
  Ret (lo ⊕ fold_to_xmm lo_v, hi ⊕ fold_to_xmm hi_v, i).

(** The tiers the build can emit. *)
Record Tiers : Type := MkTiers { vpclmul512 : bool; vpclmul256 : bool }.
Definition vector_inn_prdt_sum_no_red (t : Tiers) (a b : list block) (sz : Z) : outcome (block * block) :=
  let acc := (zero_block, zero_block, 0%nat) in
  acc ← (if vpclmul512 t then inn_prdt_drain_lanes 4 a b sz acc else Ret acc);
  acc ← (if vpclmul256 t then inn_prdt_drain_lanes 2 a b sz acc else Ret acc);
  '(lo, hi, _) ← inn_prdt_drain_lanes 1 a b sz acc;
  Ret (lo, hi).
Definition vector_inn_prdt_sum_red (t : Tiers) (a b : list block) (sz : Z) : outcome block :=
  '(lo, hi) ← vector_inn_prdt_sum_no_red t a b sz; Ret (reduce lo hi).

(** [r ^ (a[i] & select_mask[b[i] != 0])]. *)
Definition masked (a : list block) (b : list N) (r : block) (i : nat) : outcome block :=
  x ← vget a (N.of_nat i); y ← vget b (N.of_nat i);
  Ret (r ⊕ N.land x (select_mask (negb (y =? 0)%N))).
Definition masked4 (a : list block) (b : list N) (r : block * block * block * block) (i : nat) :
    outcome (block * block * block * block) :=
  let '(r0, r1, r2, r3) := r in
  r0 ← masked a b r0 i; r1 ← masked a b r1 (i + 1); r2 ← masked a b r2 (i + 2);
  r3 ← masked a b r3 (i + 3); Ret (r0, r1, r2, r3).
Definition vector_inn_prdt_sum_red_bits (a : list block) (b : list N) (sz : Z) : outcome block :=
  let n := Z.to_nat sz in
  let q := (n / 4)%nat in
  '(r0, r1, r2, r3) ← foldO (masked4 a b) (zero_block, zero_block, zero_block, zero_block)
     ((λ k, 4 * k)%nat <$> seq 0 q);
  r0 ← foldO (masked a b) r0 (seq (4 * q) (n - 4 * q));
  Ret ((r0 ⊕ r1) ⊕ (r2 ⊕ r3)).

(** ** Coefficients [seed, seed^2, ...] *)
(** [gfmul(coeff[i - k], m, &coeff[i])]. *)
Definition coeff_step (m : block) (back : nat) (coeff : list block) (i : nat) : outcome (list block) :=
  x ← vget coeff (N.of_nat (i - back)); vset coeff (N.of_nat i) (gfmul x m).
Definition coeff_step4 (m : block) (coeff : list block) (i : nat) : outcome (list block) :=
  foldO (λ c j, coeff_step m 4 c (i + j)%nat) coeff (seq 0 4).
Definition uni_hash_coeff_gen (coeff : list block) (seed : block) (sz : Z) : outcome (list block) :=
  expecting (0 <? sz)%Z "uni_hash_coeff_gen: size must be positive";;
  coeff ← vset coeff 0 seed;
  if (sz =? 1)%Z then Ret coeff else
  coeff ← vset coeff 1 (gfmul seed seed);
  if (sz =? 2)%Z then Ret coeff else
  coeff ← coeff_step seed 1 coeff 2;
  if (sz =? 3)%Z then Ret coeff else
  x ← vget coeff 2;
  let multiplier := gfmul x seed in
  coeff ← vset coeff 3 multiplier;
  if (sz =? 4)%Z then Ret coeff else
  let n := Z.to_nat sz in
  coeff ← foldO (coeff_step4 multiplier) coeff ((λ k, 4 + 4 * k)%nat <$> seq 0 ((n - 4) / 4));
  let remainder := (n mod 4)%nat in
  if (remainder =? 0)%nat then Ret coeff
  else foldO (coeff_step seed 1) coeff (seq (n - remainder) remainder).

(** ** Packing: [sum data[i] X^i] *)
(** One input of [gf_pack_byte]: shifted by its bit index, with the carry across
    the 64-bit lanes. *)
Definition EMP_GF_PACK_BIT (data : list block) (base B : nat) (s : block * block) : block * block :=
  let d := get data (base + B) in
  let sh := slli_epi64 d (N.of_nat B) in
  let c := srli_epi64 d (64 - N.of_nat B) in
  (s.1 ⊕ (sh ⊕ slli_si128 c 8), s.2 ⊕ srli_si128 c 8).
Definition gf_pack_byte (data : list block) (s : block * block) (BYTE_OFF : nat) : block * block :=
  let '(lo, hi) := s in
  let '(combined_lo, combined_hi) :=
    foldl (λ c B, EMP_GF_PACK_BIT data (BYTE_OFF * 8) B c) (get data (BYTE_OFF * 8), zero_block) (seq 1 7) in
  let off := N.of_nat BYTE_OFF in
  if (BYTE_OFF =? 0)%nat then (lo ⊕ combined_lo, hi ⊕ combined_hi)
  else (lo ⊕ slli_si128 combined_lo off,
        hi ⊕ (srli_si128 combined_lo (16 - off) ⊕ slli_si128 combined_hi off)).
Definition packing (data : list block) : block :=
  let '(lo, hi) := foldl (gf_pack_byte data) (zero_block, zero_block) (seq 0 16) in reduce lo hi.
(** The overloads on bools: [bools_to_bits(res, data, 128)]. *)
Definition packing_bools (data : list N) : outcome block := bool_to_block data.

(** The wide groups: registers of [n] blocks, a shift count per block; a count
    of 64 or more clears the lane. *)
Definition pack_register (n : nat) (data : list block) (base j : nat) : vec_t * vec_t :=
  let d := take n (drop (base + j) data) in
  let s := imap (λ k x, slli_epi64 x (N.of_nat (j + k))) d in
  let c := imap (λ k x, srli_epi64 x (64 - N.of_nat (j + k))) d in
  (s, c).
Definition gf_pack_group (n : nat) (data : list block) (acc : vec_t * vec_t) (OFF : nat) : vec_t * vec_t :=
  let '(acc_lo, acc_hi) := acc in
  let regs := (λ r, pack_register n data (OFF * 8) (r * n)) <$> seq 0 (8 / n) in
  let lo := foldl (λ v r, xorv (xorv v r.1) (bslli_8 r.2)) (zero n) regs in
  let hi := foldl (λ v r, xorv v (bsrli_8 r.2)) (zero n) regs in
  let off := N.of_nat OFF in
  if (OFF =? 0)%nat then (xorv acc_lo lo, xorv acc_hi hi)
  else (xorv acc_lo ((λ x, slli_si128 x off) <$> lo),
        xorv acc_hi (xorv ((λ x, srli_si128 x (16 - off)) <$> lo) ((λ x, slli_si128 x off) <$> hi))).
Definition packing_wide (n : nat) (data : list block) : block :=
  let '(acc_lo, acc_hi) := foldl (gf_pack_group n data) (zero n, zero n) (seq 0 16) in
  reduce (fold_to_xmm acc_lo) (fold_to_xmm acc_hi).

Definition gf_pack_group_avx512 := gf_pack_group 4.
Definition gf_pack_group_avx2 := gf_pack_group 2.
Definition packing_avx512 (data : list block) : block := packing_wide 4 data.
Definition packing_avx2 (data : list block) : block := packing_wide 2 data.

(** ** Sum of an array *)
Definition self_xor4 (data : list block) (res : list block) (i : nat) : outcome (list block) :=
  foldO (λ r j, x ← vget data (N.of_nat (i + j)); y ← vget r (N.of_nat j); vset r (N.of_nat j) (x ⊕ y))
    res (seq 0 4).
Definition vector_self_xor (data : list block) (sz : Z) : outcome block :=
  let n := Z.to_nat sz in
  let q := (n / 4)%nat in
  res ← foldO (self_xor4 data) (replicate 4 zero_block) ((λ k, 4 * k)%nat <$> seq 0 q);
  res ← foldO (λ r j, x ← vget data (N.of_nat (4 * q + j)); y ← vget r (N.of_nat j);
                      vset r (N.of_nat j) (x ⊕ y)) res (seq 0 (n - 4 * q));
  a ← vget res 0; b ← vget res 1; c ← vget res 2; d ← vget res 3;
  Ret ((a ⊕ b) ⊕ (c ⊕ d)).

(** ** The instructions are additive *)
#[export] Instance linear_lane f w i : Linear f → Linear (λ x, lane w i (f x)).
Proof. intros Hf. apply linear_mod, linear_shiftr, Hf. Qed.
#[export] Instance linear_lanes w k f g : Linear f → Linear g → Linear (λ x, lanes w k f (g x)).
Proof.
  intros Hf Hg. apply (linear_fold (λ i x, N.shiftl (f (lane w i (g x))) (w * N.of_nat i))). intros i.
  apply linear_shiftl, (linear_compose f (λ x, lane w i (g x))); [done|by apply linear_lane].
Qed.
#[export] Instance linear_slli_epi32 f n : Linear f → Linear (λ x, slli_epi32 (f x) n).
Proof. intros Hf. apply linear_lanes; apply _. Qed.
#[export] Instance linear_srli_epi32 f n : Linear f → Linear (λ x, srli_epi32 (f x) n).
Proof. intros Hf. apply linear_lanes; apply _. Qed.
#[export] Instance linear_slli_epi64 f n : Linear f → Linear (λ x, slli_epi64 (f x) n).
Proof. intros Hf. apply linear_lanes; apply _. Qed.
#[export] Instance linear_srli_epi64 f n : Linear f → Linear (λ x, srli_epi64 (f x) n).
Proof. intros Hf. apply linear_lanes; apply _. Qed.
#[export] Instance linear_slli_si128 f n : Linear f → Linear (λ x, slli_si128 (f x) n).
Proof. intros Hf. apply linear_mod, linear_shiftl, Hf. Qed.
#[export] Instance linear_srli_si128 f n : Linear f → Linear (λ x, srli_si128 (f x) n).
Proof. intros Hf. apply linear_shiftr, Hf. Qed.
#[export] Instance linear_shuffle_epi32 f imm : Linear f → Linear (λ x, shuffle_epi32 (f x) imm).
Proof.
  intros Hf. apply (linear_fold (λ i x, N.shiftl (lane 32 (N.to_nat (lane 2 i imm)) (f x)) (32 * N.of_nat i))).
  intros i. apply linear_shiftl, linear_lane, Hf.
Qed.
#[export] Instance linear_andnot f m : Linear f → Linear (λ x, andnot_si128 m (f x)).
Proof. intros Hf. by apply linear_ldiff. Qed.
#[export] Instance linear_reduce f g : Linear f → Linear g → Linear (λ x, reduce (f x) (g x)).
Proof. intros Hf Hg. unfold reduce. cbv zeta. apply _. Qed.

(** ** Reduction *)
Abbreviation GF_MOD := (pmod 128 0x87).
Lemma low_ok : (0x87 < 2 ^ 128)%N.
Proof. done. Qed.
(** The two halves of a 256-bit polynomial. *)
Definition halves (lo hi : block) : N := lo ⊕ N.shiftl hi 128.
Lemma halves_lo lo hi : block_ok lo → (halves lo hi mod 2 ^ 128)%N = lo.
Proof.
  intros Hlo. unfold halves. rewrite <- N.land_ones. apply N.bits_inj. intros i.
  rewrite N.land_spec, N.lxor_spec. destruct (N.ltb_spec i 128).
  - by rewrite N.ones_spec_low, N.shiftl_spec_low, xorb_false_r, andb_true_r by lia.
  - by rewrite N.ones_spec_high, andb_false_r, (testbit_above 128 lo) by (done || lia).
Qed.
Lemma halves_hi lo hi : block_ok lo → N.shiftr (halves lo hi) 128 = hi.
Proof.
  intros Hlo. unfold halves. rewrite N.shiftr_lxor, (N.shiftr_shiftl_l hi) by lia.
  rewrite (N.shiftr_div_pow2 lo), N.div_small by done. by rewrite N.lxor_0_l, N.shiftl_0_r.
Qed.
Lemma halves_lt lo hi : block_ok lo → block_ok hi → (halves lo hi < 2 ^ 256)%N.
Proof.
  intros Hlo Hhi. apply lxor_lt; [by eapply N.lt_trans|].
  rewrite N.shiftl_mul_pow2. change (2 ^ 256)%N with (2 ^ 128 * 2 ^ 128)%N. by apply N.mul_lt_mono_pos_r.
Qed.
Lemma halves_split v : halves (v mod 2 ^ 128)%N (N.shiftr v 128) = v.
Proof.
  unfold halves. apply N.bits_inj. intros i. rewrite N.lxor_spec. destruct (N.ltb_spec i 128).
  - by rewrite N.mod_pow2_bits_low, N.shiftl_spec_low, xorb_false_r by lia.
  - rewrite N.mod_pow2_bits_high, N.shiftl_spec_high', N.shiftr_spec' by lia. simpl. f_equal. lia.
Qed.
Lemma halves_lxor a b c e : halves (a ⊕ b) (c ⊕ e) = halves a c ⊕ halves b e.
Proof. unfold halves. rewrite N.shiftl_lxor. apply lxor_swap. Qed.

Lemma reduce_ok lo hi : block_ok lo → block_ok hi → reduce lo hi = GF_MOD 128 (halves lo hi).
Proof.
  intros Hlo Hhi. pose proof (halves_lt lo hi Hlo Hhi) as Hlt.
  trans (reduce (halves lo hi mod 2 ^ 128) (N.shiftr (halves lo hi) 128));
    [by rewrite halves_lo, halves_hi|]. revert Hlt. generalize (halves lo hi). intros v.
  apply (linear_check (λ v, reduce (v mod 2 ^ 128) (N.shiftr v 128)) (GF_MOD 128) 256); [|apply _|by vm_compute].
  apply linear_reduce; apply _.
Qed.
Lemma lane_lt w i x : (lane w i x < 2 ^ w)%N.
Proof. by apply N.mod_lt, N.pow_nonzero. Qed.
Lemma clmul_lt a b imm : (clmulepi64 a b imm < 2 ^ 127)%N.
Proof. apply (pmul_bound _ _ 64 64); [apply lane_lt..|done|done]. Qed.
(** A block is its two 64-bit halves. *)
Lemma lanes64 x : block_ok x → x = lane 64 0 x ⊕ N.shiftl (lane 64 1 x) 64.
Proof.
  intros Hx. apply (linear_check (λ x, x) (λ x, lane 64 0 x ⊕ N.shiftl (lane 64 1 x) 64) 128);
    [apply _|apply _|by vm_compute|done].
Qed.
Lemma shift_halves m : block_ok m → halves (slli_si128 m 8) (srli_si128 m 8) = N.shiftl m 64.
Proof.
  intros Hm. apply (linear_check (λ m, halves (slli_si128 m 8) (srli_si128 m 8)) (λ m, N.shiftl m 64) 128);
    [|apply _|by vm_compute|done].
  apply linear_lxor, linear_shiftl; apply _.
Qed.
Lemma slli_si128_lt x n : block_ok (slli_si128 x n).
Proof. by apply N.mod_lt. Qed.
Lemma srli_si128_lt x n : block_ok x → block_ok (srli_si128 x n).
Proof.
  intros Hx. unfold block_ok, srli_si128. rewrite N.shiftr_div_pow2. eapply N.le_lt_trans; [|exact Hx].
  apply N.Div0.div_le_upper_bound. rewrite <- (N.mul_1_l x) at 1. apply N.mul_le_mono_r.
  pose proof (N.pow_nonzero 2 (8 * n)). lia.
Qed.

Lemma block_lxor a b : block_ok a → block_ok b → block_ok (a ⊕ b).
Proof. apply lxor_lt. Qed.
Lemma block_clmul a b imm : block_ok (clmulepi64 a b imm).
Proof. eapply N.lt_trans; [apply clmul_lt|done]. Qed.
#[export] Hint Resolve block_lxor block_clmul slli_si128_lt srli_si128_lt : emp.

Lemma mul128_ok a b : block_ok a → block_ok b →
  block_ok (mul128 a b).1 ∧ block_ok (mul128 a b).2 ∧ halves (mul128 a b).1 (mul128 a b).2 = a ⊗ b.
Proof.
  intros Ha Hb. unfold mul128. cbn [fst snd]. split; [auto 6 with emp|]. split; [auto 6 with emp|].
  rewrite halves_lxor, shift_halves by auto with emp.
  assert (a ⊗ b = (lane 64 0 a ⊕ N.shiftl (lane 64 1 a) 64) ⊗ (lane 64 0 b ⊕ N.shiftl (lane 64 1 b) 64)) as ->
    by by rewrite <- !lanes64.
  rewrite !pmul_lxor_l, !pmul_lxor_r, !pmul_shiftl_l, !pmul_shiftl_r, N.shiftl_shiftl.
  change (clmulepi64 a b 0x00) with (lane 64 0 a ⊗ lane 64 0 b).
  change (clmulepi64 a b 0x11) with (lane 64 1 a ⊗ lane 64 1 b).
  change (clmulepi64 a b 0x10) with (lane 64 0 a ⊗ lane 64 1 b).
  change (clmulepi64 a b 0x01) with (lane 64 1 a ⊗ lane 64 0 b).
  generalize (lane 64 0 a ⊗ lane 64 0 b), (lane 64 1 a ⊗ lane 64 1 b),
    (lane 64 0 a ⊗ lane 64 1 b), (lane 64 1 a ⊗ lane 64 0 b). intros ll hh lh hl.
  unfold halves. change (64 + 64)%N with 128%N. rewrite N.shiftl_lxor, !N.lxor_assoc. f_equal.
  by rewrite (N.lxor_comm (N.shiftl hh 128)), N.lxor_assoc.
Qed.
Lemma pmul_lt a b : block_ok a → block_ok b → (a ⊗ b < 2 ^ 255)%N.
Proof. intros Ha Hb. by apply (pmul_bound a b 128 128). Qed.
Lemma gfmul_ok a b : block_ok a → block_ok b → gfmul a b = GF_MOD 128 (a ⊗ b).
Proof.
  intros Ha Hb. destruct (mul128_ok a b Ha Hb) as (H1 & H2 & <-). unfold gfmul.
  destruct (mul128 a b) as [r1 r2]. by apply reduce_ok.
Qed.
(** The product of the field, in terms of polynomials modulo the field's. *)
Abbreviation gf_cong := (pcong 128 0x87).
Lemma GF_MOD_lt v : (v < 2 ^ 256)%N → block_ok (GF_MOD 128 v).
Proof. intros Hv. apply (pmod_lt 128 0x87 low_ok 128 v Hv). Qed.
Lemma gfmul_spec a b : block_ok a → block_ok b → block_ok (gfmul a b) ∧ gf_cong (gfmul a b) (a ⊗ b).
Proof.
  intros Ha Hb. rewrite gfmul_ok by done. split; [|apply pmod_cong].
  apply GF_MOD_lt. eapply N.lt_trans; [by apply pmul_lt|done].
Qed.
Lemma block_gfmul a b : block_ok a → block_ok b → block_ok (gfmul a b).
Proof. intros. by apply gfmul_spec. Qed.
#[export] Hint Resolve block_gfmul : emp.
Lemma gf_eq a b : block_ok a → block_ok b → gf_cong a b → a = b.
Proof. intros Ha Hb Hc. by apply (pcong_unique 128 0x87 low_ok). Qed.

(** ** Reflected operands: bit [i] is the coefficient of [X^(n-1-i)] *)
Definition reflect (n : nat) (v : N) : N :=
  foldr (λ i acc, (if N.testbit v (N.of_nat i) then 2 ^ N.of_nat (n - 1 - i) else 0) ⊕ acc)%N 0%N (seq 0 n).
#[export] Instance linear_reflect n : Linear (reflect n).
Proof.
  apply (linear_fold (λ i v, if N.testbit v (N.of_nat i) then 2 ^ N.of_nat (n - 1 - i) else 0)%N).
  intros i. by apply (linear_bit (λ x, x)).
Qed.
Lemma reflect_lt n v : (reflect n v < 2 ^ N.of_nat n)%N.
Proof.
  unfold reflect. assert (∀ l, Forall (λ i, i < n)%nat l →
    (foldr (λ i acc, (if N.testbit v (N.of_nat i) then 2 ^ N.of_nat (n - 1 - i) else 0) ⊕ acc) 0 l
      < 2 ^ N.of_nat n))%N as H; [|by apply H, Forall_seq; lia].
  induction 1 as [|i l Hi _ IH]; [by apply N.neq_0_lt_0, N.pow_nonzero|]. cbn [foldr].
  apply lxor_lt; [|done]. destruct (N.testbit v _); [apply N.pow_lt_mono_r; lia|].
  by apply N.neq_0_lt_0, N.pow_nonzero.
Qed.
(** Reflection turns products around. *)
Lemma reflect_pmul a b : block_ok a → block_ok b → reflect 255 (a ⊗ b) = reflect 128 a ⊗ reflect 128 b.
Proof.
  intros Ha Hb.
  assert (∀ k, (k < 255)%nat → reflect 255 (2 ^ N.of_nat k) = 2 ^ N.of_nat (254 - k))%N as H255.
  { intros k Hk. assert (forallb (λ k, reflect 255 (2 ^ N.of_nat k) =? 2 ^ N.of_nat (254 - k))%N (seq 0 255) = true)
      as H by by vm_compute. rewrite forallb_forall in H. apply N.eqb_eq, H, in_seq. lia. }
  assert (∀ k, (k < 128)%nat → reflect 128 (2 ^ N.of_nat k) = 2 ^ N.of_nat (127 - k))%N as H128.
  { intros k Hk. assert (forallb (λ k, reflect 128 (2 ^ N.of_nat k) =? 2 ^ N.of_nat (127 - k))%N (seq 0 128) = true)
      as H by by vm_compute. rewrite forallb_forall in H. apply N.eqb_eq, H, in_seq. lia. }
  apply (linear_ext (λ a, reflect 255 (a ⊗ b)) (λ a, reflect 128 a ⊗ reflect 128 b) 128); [| | |done].
  - by apply (linear_compose (reflect 255) (λ a, a ⊗ b)); apply _.
  - apply _.
  - apply Forall_seq. intros i Hi.
    apply (linear_ext (λ b, reflect 255 (2 ^ N.of_nat i ⊗ b)) (λ b, reflect 128 (2 ^ N.of_nat i) ⊗ reflect 128 b) 128); [| | |done].
    + by apply (linear_compose (reflect 255) (λ b, (2 ^ N.of_nat i)%N ⊗ b)); apply _.
    + apply _.
    + apply Forall_seq. intros j Hj. rewrite !H128 by lia. rewrite !pmul_pow2_r, !N.shiftl_mul_pow2.
      rewrite <- !N.pow_add_r, <- !Nat2N.inj_add, H255 by lia. do 2 f_equal. lia.
Qed.

(** The disjunctions of [reduce_reflect] join disjoint bits. *)
Lemma lor_disjoint a b m : N.land a m = a → N.ldiff b m = b → N.lor a b = a ⊕ b.
Proof.
  intros Ha Hb. apply N.bits_inj. intros i. rewrite N.lor_spec, N.lxor_spec, <- Ha, <- Hb, N.land_spec, N.ldiff_spec.
  by destruct (N.testbit a i), (N.testbit b i), (N.testbit m i).
Qed.
Lemma slli1_mask x : block_ok x → N.land (slli_epi32 x 1) 0xfffffffefffffffefffffffefffffffe = slli_epi32 x 1.
Proof. intros Hx. apply (linear_check (λ x, N.land (slli_epi32 x 1) _) (λ x, slli_epi32 x 1) 128); [apply _|apply _|by vm_compute|done]. Qed.
Lemma carry_mask y : block_ok y →
  N.ldiff (slli_si128 (srli_epi32 y 31) 4) 0xfffffffefffffffefffffffefffffffe = slli_si128 (srli_epi32 y 31) 4.
Proof.
  intros Hx. apply (linear_check (λ y, N.ldiff (slli_si128 (srli_epi32 y 31) 4) _)
    (λ y, slli_si128 (srli_epi32 y 31) 4) 128); [apply _|apply _|by vm_compute|done].
Qed.
Lemma carry_mask_high y : block_ok y →
  N.land (slli_si128 (srli_epi32 y 31) 4) 0xfffffffffffffffffffffffffffffffe = slli_si128 (srli_epi32 y 31) 4.
Proof.
  intros Hx. apply (linear_check (λ y, N.land (slli_si128 (srli_epi32 y 31) 4) _)
    (λ y, slli_si128 (srli_epi32 y 31) 4) 128); [apply _|apply _|by vm_compute|done].
Qed.
Lemma slli1_mask_high x : block_ok x → N.land (slli_epi32 x 1) 0xfffffffffffffffffffffffffffffffe = slli_epi32 x 1.
Proof. intros Hx. apply (linear_check (λ x, N.land (slli_epi32 x 1) _) (λ x, slli_epi32 x 1) 128); [apply _|apply _|by vm_compute|done]. Qed.
Lemma carry_mask_low y : block_ok y →
  N.ldiff (srli_si128 (srli_epi32 y 31) 12) 0xfffffffffffffffffffffffffffffffe = srli_si128 (srli_epi32 y 31) 12.
Proof.
  intros Hx. apply (linear_check (λ y, N.ldiff (srli_si128 (srli_epi32 y 31) 12) _)
    (λ y, srli_si128 (srli_epi32 y 31) 12) 128); [apply _|apply _|by vm_compute|done].
Qed.

(** The same reduction with exclusive ors. *)
Definition reduce_reflect_xor (lo hi : block) : block :=
  let t3 := slli_epi32 lo 1 ⊕ slli_si128 (srli_epi32 lo 31) 4 in
  let t6 := slli_epi32 hi 1 ⊕ slli_si128 (srli_epi32 hi 31) 4 ⊕ srli_si128 (srli_epi32 lo 31) 12 in
  let t7 := slli_epi32 t3 31 ⊕ slli_epi32 t3 30 ⊕ slli_epi32 t3 25 in
  let t := t3 ⊕ slli_si128 t7 12 in
  t6 ⊕ (t ⊕ (srli_epi32 t 1 ⊕ srli_epi32 t 2 ⊕ srli_epi32 t 7 ⊕ srli_si128 t7 4)).
Lemma reduce_reflect_xor_ok lo hi : block_ok lo → block_ok hi →
  reduce_reflect lo hi = reduce_reflect_xor lo hi.
Proof.
  intros Hlo Hhi. unfold reduce_reflect. cbv zeta.
  assert (N.lor (slli_epi32 lo 1) (slli_si128 (srli_epi32 lo 31) 4) =
    slli_epi32 lo 1 ⊕ slli_si128 (srli_epi32 lo 31) 4) as ->
    by (apply (lor_disjoint _ _ 0xfffffffefffffffefffffffefffffffe); [by apply slli1_mask|by apply carry_mask]).
  assert (N.lor (slli_epi32 hi 1) (slli_si128 (srli_epi32 hi 31) 4) =
    slli_epi32 hi 1 ⊕ slli_si128 (srli_epi32 hi 31) 4) as ->
    by (apply (lor_disjoint _ _ 0xfffffffefffffffefffffffefffffffe); [by apply slli1_mask|by apply carry_mask]).
  rewrite (lor_disjoint (slli_epi32 hi 1 ⊕ _) _ 0xfffffffffffffffffffffffffffffffe); [done| |by apply carry_mask_low].
  rewrite (linear_land_r (λ x, x) _ _ (slli_epi32 hi 1)). f_equal; [by apply slli1_mask_high|by apply carry_mask_high].
Qed.
#[export] Instance linear_reduce_reflect f g : Linear f → Linear g → Linear (λ x, reduce_reflect_xor (f x) (g x)).
Proof. intros Hf Hg. unfold reduce_reflect_xor. cbv zeta. apply _. Qed.
Lemma reduce_reflect_ok lo hi : block_ok lo → (hi < 2 ^ 127)%N →
  reduce_reflect lo hi = reflect 128 (GF_MOD 128 (reflect 255 (halves lo hi))).
Proof.
  intros Hlo Hhi. assert (block_ok hi) as Hhi' by (by eapply N.lt_trans).
  assert (halves lo hi < 2 ^ 255)%N as Hlt.
  { apply lxor_lt; [by eapply N.lt_trans|]. rewrite N.shiftl_mul_pow2.
    change (2 ^ 255)%N with (2 ^ 127 * 2 ^ 128)%N. by apply N.mul_lt_mono_pos_r. }
  rewrite reduce_reflect_xor_ok by done.
  trans (reduce_reflect_xor (halves lo hi mod 2 ^ 128) (N.shiftr (halves lo hi) 128));
    [by rewrite halves_lo, halves_hi|]. revert Hlt. generalize (halves lo hi). intros v.
  apply (linear_check (λ v, reduce_reflect_xor (v mod 2 ^ 128) (N.shiftr v 128))
    (λ v, reflect 128 (GF_MOD 128 (reflect 255 v))) 255); [| |by vm_compute].
  - apply linear_reduce_reflect; apply _.
  - apply (linear_compose (reflect 128) (λ v, GF_MOD 128 (reflect 255 v))); [apply _|].
    apply (linear_compose (GF_MOD 128) (reflect 255)); apply _.
Qed.

Lemma reflect_involutive x : block_ok x → reflect 128 (reflect 128 x) = x.
Proof.
  intros Hx. apply (linear_check (λ x, reflect 128 (reflect 128 x)) (λ x, x) 128); [|apply _|by vm_compute|done].
  apply (linear_compose (reflect 128) (reflect 128)); apply _.
Qed.
Lemma gfmul_reflect_ok a b : block_ok a → block_ok b →
  reflect 128 (gfmul_reflect a b) = gfmul (reflect 128 a) (reflect 128 b).
Proof.
  intros Ha Hb. destruct (mul128_ok a b Ha Hb) as (H1 & H2 & He). unfold gfmul_reflect.
  destruct (mul128 a b) as [r1 r2]. cbn [fst snd] in *.
  assert (r2 < 2 ^ 127)%N as Hr2.
  { rewrite <- (halves_hi r1 r2 H1), He, N.shiftr_div_pow2. apply N.Div0.div_lt_upper_bound.
    by apply (pmul_lt a b). }
  assert (reflect 128 a ⊗ reflect 128 b < 2 ^ 255)%N as Hp by (apply pmul_lt; apply reflect_lt).
  rewrite reduce_reflect_ok, He, reflect_pmul by done.
  rewrite reflect_involutive by (apply GF_MOD_lt; by eapply N.lt_trans).
  by rewrite gfmul_ok by apply reflect_lt.
Qed.

(** C21: Multiplication in GF(2^128).  On blocks, [gfmul] is the remainder of the
    polynomial product modulo X^128 + X^7 + X^2 + X + 1: a block, congruent to
    the product, and the only such block.  Hence it is commutative and
    associative, distributes over exclusive or and has neutral element 1.
    [gfmul_reflect] is the same multiplication of bit-reversed operands. *)
Theorem gfmul_correct a b c : block_ok a → block_ok b → block_ok c →
  (block_ok (gfmul a b) ∧ gf_cong (gfmul a b) (a ⊗ b) ∧
     ∀ r, block_ok r → gf_cong r (a ⊗ b) → r = gfmul a b) ∧
  gfmul a b = gfmul b a ∧
  gfmul (gfmul a b) c = gfmul a (gfmul b c) ∧
  gfmul a (b ⊕ c) = gfmul a b ⊕ gfmul a c ∧
  gfmul a 1 = a ∧
  reflect 128 (gfmul_reflect a b) = gfmul (reflect 128 a) (reflect 128 b).
Proof.
  intros Ha Hb Hc. pose proof (gfmul_spec a b Ha Hb) as [Hab Cab].
  split_and!; [done|done| | | | | |].
  - intros r Hr Hcr. apply gf_eq; [done..|]. by rewrite Hcr, Cab.
  - by rewrite !gfmul_ok, pmul_comm by done.
  - apply gf_eq; [auto with emp..|].
    rewrite (proj2 (gfmul_spec (gfmul a b) c Hab Hc)), Cab.
    rewrite (proj2 (gfmul_spec a (gfmul b c) Ha (block_gfmul b c Hb Hc))), (proj2 (gfmul_spec b c Hb Hc)).
    by rewrite pmul_assoc.
  - rewrite !gfmul_ok, pmul_lxor_r by auto with emp. apply linear_pmod.
  - apply gf_eq; [by apply block_gfmul|done|]. rewrite (proj2 (gfmul_spec a 1%N Ha eq_refl)). by rewrite pmul_1_r.
  - by apply gfmul_reflect_ok.
Qed.
Lemma gfmul_correct_witness :
  gfmul 0x5 0x3 = 0xF%N ∧ gf_cong (gfmul (2 ^ 127) 2) (2 ^ 127 ⊗ 2)%N ∧ gfmul (2 ^ 127) 2 = 0x87%N.
Proof.
  split; [by vm_compute|]. split; [|by vm_compute].
  apply (gfmul_correct (2 ^ 127) 2 0); reflexivity.
Defined.

(** ** Inner products *)
Definition vsum (v : list N) : N := foldr N.lxor 0%N v.
(** [sum a[i] * b[i]] as polynomials. *)
Definition inner (a b : list block) : N := vsum (zip_with pmul a b).

Lemma vsum_app u v : vsum (u ++ v) = vsum u ⊕ vsum v.
Proof. induction u as [|x u IH]; [done|]. simpl. by rewrite IH, N.lxor_assoc. Qed.
Lemma vsum_xorv u v : length u = length v → vsum (xorv u v) = vsum u ⊕ vsum v.
Proof.
  revert v. induction u as [|x u IH]; intros [|y v] Hl; simplify_eq/=; [done|].
  rewrite IH by done. apply lxor_swap.
Qed.
Lemma vsum_linear f v : Linear f → vsum (f <$> v) = f (vsum v).
Proof.
  intros Hf. unfold vsum. induction v as [|x v IH]; [by rewrite linear_0|].
  rewrite fmap_cons. cbn [foldr]. by rewrite IH, Hf.
Qed.
Lemma vsum_zero n : vsum (zero n) = 0%N.
Proof. unfold vsum, zero. induction n as [|n IH]; [done|]. exact IH. Qed.
Lemma vsum_lt v : Forall block_ok v → block_ok (vsum v).
Proof. induction 1; [done|]. by apply block_lxor. Qed.
Lemma xorv_ok u v : Forall block_ok u → Forall block_ok v → Forall block_ok (xorv u v).
Proof. intros Hu. revert v. induction Hu; intros [|y v] Hv; inversion Hv; constructor; auto with emp. Qed.
Lemma length_xorv u v : length u = length v → length (xorv u v) = length u.
Proof. intros. unfold xorv. rewrite length_zip_with. lia. Qed.
Lemma inner_app a1 a2 b1 b2 : length a1 = length b1 → inner (a1 ++ a2) (b1 ++ b2) = inner a1 b1 ⊕ inner a2 b2.
Proof. intros H. unfold inner. rewrite zip_with_app by done. apply vsum_app. Qed.
(** The register widths. *)
Definition width_ok (n : nat) : Prop := n = 1%nat ∨ n = 2%nat ∨ n = 4%nat.
Lemma fold_to_xmm_ok n v : width_ok n → length v = n → fold_to_xmm v = vsum v.
Proof.
  intros [->|[->| ->]] Hl; repeat (destruct v as [|? v]; simplify_eq/=); rewrite ?N.lxor_0_r; [done..|].
  rewrite lxor_swap. by rewrite !N.lxor_assoc.
Qed.

(** The four partial products of two blocks, and of registers of blocks. *)
Lemma clmul_parts a b : block_ok a → block_ok b →
  halves (clmulepi64 a b 0x00) (clmulepi64 a b 0x11) ⊕
    N.shiftl (clmulepi64 a b 0x10 ⊕ clmulepi64 a b 0x01) 64 = a ⊗ b.
Proof.
  intros Ha Hb. destruct (mul128_ok a b Ha Hb) as (_ & _ & <-). unfold mul128. cbn [fst snd].
  by rewrite halves_lxor, shift_halves by auto with emp.
Qed.
Lemma clmul_parts_vec av bv : length av = length bv → Forall block_ok av → Forall block_ok bv →
  halves (vsum (clmul_lo_lo av bv)) (vsum (clmul_hi_hi av bv)) ⊕
    N.shiftl (vsum (clmul_hi_lo av bv) ⊕ vsum (clmul_lo_hi av bv)) 64 = inner av bv.
Proof.
  intros Hl Ha. revert bv Hl. induction Ha as [|x av Hx _ IH]; intros [|y bv] Hl Hb;
    simplify_eq/=; [done|]. inversion Hb as [|?? Hy Hb']; subst.
  change (inner (x :: av) (y :: bv)) with (x ⊗ y ⊕ inner av bv).
  rewrite <- (IH bv) by done. rewrite <- (clmul_parts x y) by done.
  fold (clmul_lo_lo av bv). fold (clmul_hi_hi av bv). fold (clmul_hi_lo av bv). fold (clmul_lo_hi av bv).
  change (foldr N.lxor 0%N) with vsum.
  rewrite halves_lxor, (lxor_swap (clmulepi64 x y 16)), N.shiftl_lxor. apply lxor_swap.
Qed.
Lemma zip_clmul_ok imm av bv : Forall block_ok (zip_with (λ a b, clmulepi64 a b imm) av bv).
Proof. revert bv. induction av as [|x av IH]; intros [|y bv]; constructor; [apply block_clmul|apply IH]. Qed.

(** Lengths of registers. *)
Ltac lens := unfold xor3, xorv, clmul_lo_lo, clmul_hi_hi, clmul_hi_lo, clmul_lo_hi, bslli_8, bsrli_8;
  rewrite ?length_zip_with, ?length_fmap; lia.

Section inner.
Context (a b : list block) (m : nat).
Hypotheses (Ha : Forall block_ok a) (Hb : Forall block_ok b).
Hypotheses (Hla : (m ≤ length a)%nat) (Hlb : (m ≤ length b)%nat).

(** The accumulators hold the products from [i0] up to the index. *)
Definition accum_value (s : Accum) : N :=
  let '(lo_v, hi_v, mid_v, _) := s in halves (vsum lo_v) (vsum hi_v) ⊕ N.shiftl (vsum mid_v) 64.
Definition accum_ok (n i0 : nat) (s : Accum) : Prop :=
  let '(lo_v, hi_v, mid_v, i) := s in
  (length lo_v = n ∧ length hi_v = n ∧ length mid_v = n) ∧
  (Forall block_ok lo_v ∧ Forall block_ok hi_v ∧ Forall block_ok mid_v) ∧
  (i ≤ m)%nat ∧
  inner (take i0 a) (take i0 b) ⊕ accum_value s = inner (take i a) (take i b).

Lemma loadu_ok n l i : (i + n ≤ length l)%nat → loadu n l i = Ret (take n (drop i l)).
Proof. intros H. unfold loadu. by rewrite (proj2 (Nat.leb_le _ _) H). Qed.
Lemma drain_step_ok n i0 s : accum_ok n i0 s → (s.2 + n ≤ m)%nat →
  ∃ s', drain_step n a b s = Ret s' ∧ accum_ok n i0 s' ∧ s'.2 = (s.2 + n)%nat.
Proof.
  destruct s as [[[lo_v hi_v] mid_v] i]. intros ((L1 & L2 & L3) & (F1 & F2 & F3) & Hi & Hv) Hn. simpl in Hn.
  eexists. unfold drain_step. rewrite !loadu_ok by lia. cbn [mbind outcome_bind]. split; [reflexivity|].
  set (av := take n (drop i a)). set (bv := take n (drop i b)).
  assert (length av = n) as La by (unfold av; rewrite length_take, length_drop; lia).
  assert (length bv = n) as Lb by (unfold bv; rewrite length_take, length_drop; lia).
  assert (Forall block_ok av) as Fa by by apply Forall_take, Forall_drop.
  assert (Forall block_ok bv) as Fb by by apply Forall_take, Forall_drop.
  split; [|done]. split; [|split; [|split; [exact Hn|]]].
  - split_and!; lens.
  - unfold xor3. split_and!; repeat apply xorv_ok; (done || apply zip_clmul_ok).
  - rewrite <- !take_take_drop. fold av bv. rewrite inner_app by (rewrite !length_take; lia). rewrite <- Hv, N.lxor_assoc. f_equal.
    rewrite <- (clmul_parts_vec av bv) by congruence. unfold accum_value, xor3.
    rewrite !vsum_xorv by lens.
    rewrite halves_lxor, N.shiftl_lxor. apply lxor_swap.
Qed.
Context (sz : Z) (Hsz : m = Z.to_nat sz).
Lemma drain_loop_ok n i0 : width_ok n → ∀ fuel s, accum_ok n i0 s → (m ≤ s.2 + fuel)%nat →
  ∃ s', drain_loop fuel n a b sz s = Ret s' ∧ accum_ok n i0 s' ∧ (m < s'.2 + n)%nat.
Proof.
  intros Hn. assert (1 ≤ n)%nat as Hn1 by (destruct Hn as [->|[->| ->]]; lia).
  induction fuel as [|fuel IH]; intros s Hs Hf; [exists s; split; [done|]; split; [done|lia]|].
  cbn [drain_loop]. destruct (Z.leb_spec (Z.of_nat (s.2 + n)) sz) as [Hle|Hgt].
  - destruct (drain_step_ok n i0 s Hs) as (s' & -> & Hs' & Hi); [lia|]. apply IH; [done|lia].
  - exists s. split; [done|]. split; [done|]. lia.
Qed.
(** One width drained: the accumulated halves and the index stay in step. *)
Definition drained (acc : block * block * nat) : Prop :=
  let '(lo, hi, i) := acc in
  block_ok lo ∧ block_ok hi ∧ (i ≤ m)%nat ∧ halves lo hi = inner (take i a) (take i b).
Lemma drain_lanes_ok n acc : width_ok n → drained acc →
  ∃ acc', inn_prdt_drain_lanes n a b sz acc = Ret acc' ∧ drained acc' ∧ (m < acc'.2 + n)%nat.
Proof.
  intros Hn. destruct acc as [[lo hi] i]. intros (Hlo & Hhi & Hi & Hv).
  assert (accum_ok n i (zero n, zero n, zero n, i)) as H0.
  { split; [by unfold zero; rewrite !length_replicate|]. split; [by split_and!; apply Forall_replicate|].
    split; [done|]. unfold accum_value. rewrite !vsum_zero. by rewrite N.lxor_0_r. }
  unfold inn_prdt_drain_lanes. rewrite <- Hsz.
  destruct (drain_loop_ok n i Hn m _ H0) as (s' & -> & Hs & Hend); [simpl; lia|].
  destruct s' as [[[lo_v hi_v] mid_v] i']. destruct Hs as ((L1 & L2 & L3) & (F1 & F2 & F3) & Hi' & Hs).
  cbn [mbind outcome_bind]. eexists. split; [reflexivity|].
  rewrite !(fold_to_xmm_ok n) by (done || lens). rewrite !vsum_xorv by lens.
  rewrite (vsum_linear (λ x, slli_si128 x 8)), (vsum_linear (λ x, srli_si128 x 8)) by apply _.
  pose proof (vsum_lt _ F1). pose proof (vsum_lt _ F2). pose proof (vsum_lt _ F3).
  split; [|done]. split_and!; [auto 6 with emp..|done|].
  rewrite halves_lxor, halves_lxor, shift_halves, Hv by done. exact Hs.
Qed.
End inner.

(** Reduction is additive, so it can wait until the end. *)
Lemma reduce_inner a b : Forall block_ok a → Forall block_ok b →
  GF_MOD 128 (inner a b) = vsum (zip_with gfmul a b).
Proof.
  intros Fa. revert b. induction Fa as [|x a Hx Fa IH]; intros [|y b] Fb; [done..|].
  inversion Fb; subst. change (inner (x :: a) (y :: b)) with (x ⊗ y ⊕ inner a b).
  change (vsum (zip_with gfmul (x :: a) (y :: b))) with (gfmul x y ⊕ vsum (zip_with gfmul a b)).
  by rewrite (linear_pmod 128 0x87 128), IH, gfmul_ok.
Qed.

(** C22: Inner products in GF(2^128), for every combination of vector tiers.
    Over arrays of blocks that hold [sz] elements, the unreduced product is the
    sum of the polynomial products, the deferred reduction gives the sum of the
    field products, and nothing is read out of bounds; a negative or zero size
    gives zero. *)
Theorem inner_product_correct (t : Tiers) (a b : list block) (sz : Z) :
  Forall block_ok a → Forall block_ok b →
  (Z.to_nat sz ≤ length a)%nat → (Z.to_nat sz ≤ length b)%nat →
  let a' := take (Z.to_nat sz) a in
  let b' := take (Z.to_nat sz) b in
  (∃ lo hi, vector_inn_prdt_sum_no_red t a b sz = Ret (lo, hi) ∧ block_ok lo ∧ block_ok hi ∧
     halves lo hi = vsum (zip_with pmul a' b')) ∧
  vector_inn_prdt_sum_red t a b sz = Ret (vsum (zip_with gfmul a' b')).
Proof.
  intros Ha Hb Hla Hlb a' b'. set (m := Z.to_nat sz).
  assert (∃ lo hi, vector_inn_prdt_sum_no_red t a b sz = Ret (lo, hi) ∧ block_ok lo ∧ block_ok hi ∧
     halves lo hi = inner a' b') as H; [|split; [exact H|]].
  - unfold vector_inn_prdt_sum_no_red.
    pose proof (drain_lanes_ok a b m Ha Hb Hla Hlb sz eq_refl) as Hd.
    assert (∀ (use : bool) n acc, width_ok n → drained a b m acc →
      ∃ acc', (if use then inn_prdt_drain_lanes n a b sz acc else Ret acc) = Ret acc' ∧ drained a b m acc') as Hopt.
    { intros [] n acc Hn Hacc; [|by exists acc]. destruct (Hd n acc Hn Hacc) as (acc' & ? & ? & _). by exists acc'. }
    destruct (Hopt (vpclmul512 t) 4%nat (zero_block, zero_block, 0%nat)) as (acc1 & -> & H1);
      [by right; right|by split_and!; (done || lia)|]. cbn [mbind outcome_bind].
    destruct (Hopt (vpclmul256 t) 2%nat acc1) as (acc2 & -> & H2); [by right; left|done|]. cbn [mbind outcome_bind].
    destruct (Hd 1%nat acc2) as ([[lo hi] i] & -> & (? & ? & Hi & Hv) & Hend); [by left|done|].
    cbn [mbind outcome_bind]. exists lo, hi. split_and!; [done..|]. simpl in Hend.
    by replace i with m in Hv by lia.
  - destruct H as (lo & hi & Hr & Hlo & Hhi & Hv). unfold vector_inn_prdt_sum_red. rewrite Hr.
    cbn [mbind outcome_bind]. f_equal. rewrite reduce_ok, Hv by done. unfold inner.
    assert (Forall block_ok a') as Fa by by apply Forall_take.
    assert (Forall block_ok b') as Fb by by apply Forall_take.
    by apply reduce_inner.
Qed.
Lemma inner_product_correct_witness :
  vector_inn_prdt_sum_red (MkTiers true false) [1; 2; 4; 8; 16]%N [3; 3; 3; 3; 3]%N 5 =
  Ret (vsum (zip_with gfmul [1; 2; 4; 8; 16]%N [3; 3; 3; 3; 3]%N)).
Proof.
  apply (inner_product_correct (MkTiers true false) [1; 2; 4; 8; 16]%N [3; 3; 3; 3; 3]%N 5);
    [by repeat constructor..|vm_compute; lia|vm_compute; lia].
Defined.

(** ** Packing *)
Definition ssum (f : nat → N) (lo n : nat) : N := vsum (f <$> seq lo n).
Lemma ssum_app f lo n k : ssum f lo (n + k) = ssum f lo n ⊕ ssum f (lo + n) k.
Proof. unfold ssum. by rewrite seq_app, fmap_app, vsum_app. Qed.
Lemma ssum_ext f g lo n : (∀ i, (lo ≤ i < lo + n)%nat → f i = g i) → ssum f lo n = ssum g lo n.
Proof. intros H. unfold ssum. f_equal. apply list_fmap_ext. intros k i [-> Hk]%lookup_seq. apply H. lia. Qed.
Lemma ssum_fmap (h : nat → nat) f lo n : vsum ((λ i, f (h i)) <$> seq lo n) = vsum (f <$> (h <$> seq lo n)).
Proof. by rewrite <- list_fmap_compose. Qed.

(** A family of additive identities, checked for each parameter. *)
Lemma linear_check_all {A} (l : list A) (f g : A → N → N) n p x :
  (∀ i, Linear (f i)) → (∀ i, Linear (g i)) → forallb (λ i, agree n (f i) (g i)) l = true →
  p ∈ l → (x < 2 ^ N.of_nat n)%N → f p x = g p x.
Proof.
  intros Hf Hg Ha Hp Hx. apply (linear_check (f p) (g p) n); [done..| |done].
  rewrite forallb_forall in Ha. apply Ha. by apply list_elem_of_In.
Qed.
Lemma in_seq_lt B n : (B < n)%nat → B ∈ seq 0 n.
Proof. intros. apply elem_of_seq. lia. Qed.

(** A block shifted by less than a byte: the lane shift and its carries. *)
Definition bit_lo (B : nat) (d : block) : block :=
  slli_epi64 d (N.of_nat B) ⊕ slli_si128 (srli_epi64 d (64 - N.of_nat B)) 8.
Definition bit_hi (B : nat) (d : block) : block := srli_si128 (srli_epi64 d (64 - N.of_nat B)) 8.
#[export] Instance linear_bit_lo B f : Linear f → Linear (λ d, bit_lo B (f d)).
Proof. intros. unfold bit_lo. apply _. Qed.
#[export] Instance linear_bit_hi B f : Linear f → Linear (λ d, bit_hi B (f d)).
Proof. intros. unfold bit_hi. apply _. Qed.
Lemma bit_shift_ok B d : (B < 8)%nat → block_ok d →
  halves (bit_lo B d) (bit_hi B d) = N.shiftl d (N.of_nat B).
Proof.
  intros HB Hd. apply (linear_check_all (seq 0 8) (λ B d, halves (bit_lo B d) (bit_hi B d))
    (λ B d, N.shiftl d (N.of_nat B)) 128); [| |by vm_compute|by apply in_seq_lt|done].
  - intros i. apply linear_lxor, linear_shiftl; apply _.
  - apply _.
Qed.
Lemma bit_lo_ok B d : (B < 8)%nat → block_ok d → block_ok (bit_lo B d).
Proof.
  intros HB Hd. rewrite (linear_check_all (seq 0 8) bit_lo (λ B d, bit_lo B d mod 2 ^ 128)%N 128 B d);
    [by apply N.mod_lt|apply _|intros i; apply linear_mod, _|by vm_compute|by apply in_seq_lt|done].
Qed.
Lemma bit_hi_ok B d : (B < 8)%nat → block_ok d → (bit_hi B d < 2 ^ 8)%N.
Proof.
  intros HB Hd. rewrite (linear_check_all (seq 0 8) bit_hi (λ B d, bit_hi B d mod 2 ^ 8)%N 128 B d);
    [by apply N.mod_lt|apply _|intros i; apply linear_mod, _|by vm_compute|by apply in_seq_lt|done].
Qed.
(** A byte shift of a block and the byte above it. *)
Definition byte_shift (off : nat) (lo hi : block) : block * block :=
  (slli_si128 lo (N.of_nat off), srli_si128 lo (16 - N.of_nat off) ⊕ slli_si128 hi (N.of_nat off)).
Lemma byte_shift_ok off lo hi : (off < 16)%nat → block_ok lo → (hi < 2 ^ 8)%N →
  halves (byte_shift off lo hi).1 (byte_shift off lo hi).2 = N.shiftl (halves lo hi) (8 * N.of_nat off).
Proof.
  intros Hoff Hlo Hhi. unfold byte_shift. cbn [fst snd].
  assert (halves (slli_si128 lo (N.of_nat off)) (srli_si128 lo (16 - N.of_nat off)) =
    N.shiftl lo (8 * N.of_nat off)) as H1.
  { apply (linear_check_all (seq 0 16) (λ off lo, halves (slli_si128 lo (N.of_nat off)) (srli_si128 lo (16 - N.of_nat off)))
      (λ off lo, N.shiftl lo (8 * N.of_nat off)) 128); [|apply _|by vm_compute|by apply in_seq_lt|done].
    intros i. apply linear_lxor, linear_shiftl; apply _. }
  assert (halves 0 (slli_si128 hi (N.of_nat off)) = N.shiftl (N.shiftl hi 128) (8 * N.of_nat off)) as H2.
  { apply (linear_check_all (seq 0 16) (λ off hi, halves 0 (slli_si128 hi (N.of_nat off)))
      (λ off hi, N.shiftl (N.shiftl hi 128) (8 * N.of_nat off)) 8); [|apply _|by vm_compute|by apply in_seq_lt|done].
    intros i. apply linear_lxor, linear_shiftl; apply _. }
  unfold halves at 2. rewrite N.shiftl_lxor, <- H1, <- H2, <- halves_lxor. by rewrite N.lxor_0_r.
Qed.

Lemma foldl_seq {S} (f : S → nat → S) (P : nat → S → Prop) lo n s :
  P 0%nat s → (∀ i s, (i < n)%nat → P i s → P (i + 1)%nat (f s (lo + i)%nat)) → P n (foldl f s (seq lo n)).
Proof.
  intros H0 Hstep. assert (∀ k, (k ≤ n)%nat → P k (foldl f s (seq lo k))) as H; [|by apply H].
  induction k as [|k IH]; intros Hk; [done|]. rewrite seq_S, foldl_app. cbn [foldl].
  rewrite <- Nat.add_1_r. apply Hstep; [lia|]. apply IH. lia.
Qed.
Section packing.
Context (data : list block) (Hdata : Forall block_ok data) (Hlen : length data = 128%nat).
Lemma get_ok i : block_ok (get data i).
Proof.
  unfold get. destruct (data !! i) eqn:He; [|done]. by eapply Forall_lookup_1 in Hdata.
Qed.
(** The term [data[i] X^i], and the terms of a group of eight. *)
Definition term (i : nat) : N := N.shiftl (get data i) (N.of_nat i).
Definition term8 (base B : nat) : N := N.shiftl (get data (base + B)) (N.of_nat B).
Lemma group_terms off k : N.shiftl (ssum (term8 (off * 8)) 0 k) (8 * N.of_nat off) = ssum term (off * 8) k.
Proof.
  induction k as [|k IH]; [by rewrite N.shiftl_0_l|].
  replace (S k) with (k + 1)%nat by lia. rewrite !ssum_app, N.shiftl_lxor, IH. f_equal.
  unfold ssum. simpl. rewrite !N.lxor_0_r. unfold term8, term. rewrite N.shiftl_shiftl. f_equal. lia.
Qed.
Definition packed (k : nat) (s : block * block) : Prop :=
  block_ok s.1 ∧ block_ok s.2 ∧ halves s.1 s.2 = ssum term 0 (8 * k).
(** Adding a group of eight, however it was computed. *)
Lemma gf_packed_step k lo hi glo ghi : (k < 16)%nat → packed k (lo, hi) →
  block_ok glo → (ghi < 2 ^ 8)%N → halves glo ghi = ssum (term8 (k * 8)) 0 8 →
  packed (k + 1) (if (k =? 0)%nat then (lo ⊕ glo, hi ⊕ ghi)
    else (lo ⊕ (byte_shift k glo ghi).1, hi ⊕ (byte_shift k glo ghi).2)).
Proof.
  intros Hk (Hlo & Hhi & Hv) Hglo Hghi Hg. cbn [fst snd] in *.
  assert (block_ok ghi) as Hgb by (by eapply N.lt_trans).
  replace (8 * (k + 1))%nat with (8 * k + 8)%nat by lia. 
  destruct (Nat.eqb_spec k 0) as [->|Hne].
  - split_and!; cbn [fst snd]; [by apply block_lxor..|]. rewrite halves_lxor, Hv, Hg. done.
  - split_and!; cbn [fst snd].
    + apply block_lxor; [done|]. apply slli_si128_lt.
    + apply block_lxor; [done|]. apply block_lxor; [by apply srli_si128_lt|apply slli_si128_lt].
    + rewrite halves_lxor, Hv, byte_shift_ok, Hg, group_terms by done.
      replace (8 * (k + 1))%nat with (8 * k + 8)%nat by lia. rewrite ssum_app. do 2 f_equal. lia.
Qed.
Lemma gf_pack_byte_ok k s : (k < 16)%nat → packed k s → packed (k + 1) (gf_pack_byte data s k).
Proof.
  intros Hk Hs. destruct s as [lo hi]. unfold gf_pack_byte.
  set (c := foldl _ _ _).
  assert (block_ok c.1 ∧ (c.2 < 2 ^ 8)%N ∧ halves c.1 c.2 = ssum (term8 (k * 8)) 0 (7 + 1)) as (H1 & H2 & H3).
  { subst c. apply (foldl_seq _ (λ B c, block_ok c.1 ∧ (c.2 < 2 ^ 8)%N ∧
      halves c.1 c.2 = ssum (term8 (k * 8)) 0 (B + 1))).
    - cbn [fst snd]. split_and!; [apply get_ok|done|]. unfold halves, ssum, term8. simpl.
      by rewrite !Nat.add_0_r, N.shiftl_0_r, !N.lxor_0_r.
    - intros B s HB (H1 & H2 & H3).
      change (EMP_GF_PACK_BIT data (k * 8) (1 + B) s) with
        (s.1 ⊕ bit_lo (1 + B) (get data (k * 8 + (1 + B))), s.2 ⊕ bit_hi (1 + B) (get data (k * 8 + (1 + B)))).
      cbn [fst snd]. split_and!.
      + apply block_lxor; [done|]. apply bit_lo_ok; [lia|apply get_ok].
      + apply lxor_lt; [done|]. apply bit_hi_ok; [lia|apply get_ok].
      + rewrite halves_lxor, H3, bit_shift_ok by (lia || apply get_ok).
        rewrite (ssum_app _ 0 (B + 1) 1). f_equal. unfold ssum at 1. cbn [seq fmap list_fmap vsum foldr].
        rewrite N.lxor_0_r. unfold term8. by replace (0 + (B + 1))%nat with (1 + B)%nat by lia. }
  destruct c as [clo chi]. by apply gf_packed_step.
Qed.
Lemma packing_ok : packing data = GF_MOD 128 (ssum term 0 128).
Proof.
  unfold packing. assert (packed 16 (foldl (gf_pack_byte data) (zero_block, zero_block) (seq 0 16))) as H.
  { apply (foldl_seq _ packed); [done|]. intros i s Hi. by apply gf_pack_byte_ok. }
  destruct (foldl _ _ _) as [lo hi]. destruct H as (Hlo & Hhi & Hv). cbn [fst snd] in *.
  by rewrite reduce_ok, Hv.
Qed.

(** The wide groups. *)
Lemma imap_slice {A} (f : nat → N → A) n p : (p + n ≤ length data)%nat →
  imap f (take n (drop p data)) = (λ k, f k (get data (p + k))) <$> seq 0 n.
Proof.
  intros Hp. apply list_eq. intros k. rewrite list_lookup_imap, list_lookup_fmap.
  destruct (decide (k < n)%nat).
  - rewrite lookup_take_lt, lookup_drop, lookup_seq_lt by done. simpl. unfold get.
    by destruct (lookup_lt_is_Some_2 data (p + k)) as [x ->]; [lia|].
  - rewrite lookup_take_ge by lia. by rewrite (lookup_ge_None_2 (seq 0 n)) by (rewrite length_seq; lia).
Qed.
Definition regs (n k : nat) : list (vec_t * vec_t) := (λ r, pack_register n data (k * 8) (r * n)) <$> seq 0 (8 / n).
Lemma register_sums n k j : (k < 16)%nat → (j + n ≤ 8)%nat →
  let r := pack_register n data (k * 8) j in
  (length r.1 = n ∧ length r.2 = n) ∧
  vsum r.1 ⊕ vsum (bslli_8 r.2) = ssum (λ B, bit_lo B (get data (k * 8 + B))) j n ∧
  vsum (bsrli_8 r.2) = ssum (λ B, bit_hi B (get data (k * 8 + B))) j n.
Proof.
  intros Hk Hj r. subst r. unfold pack_register. rewrite !imap_slice by lia. cbn [fst snd].
  split; [by rewrite !length_fmap, !length_seq|].
  unfold bslli_8, bsrli_8. rewrite <- !list_fmap_compose. split.
  - rewrite <- vsum_xorv by by rewrite !length_fmap. unfold ssum. f_equal. unfold xorv.
    apply list_eq. intros i. rewrite lookup_zip_with, !list_lookup_fmap.
    destruct (decide (i < n)%nat); [rewrite !lookup_seq_lt by done|by rewrite !(lookup_ge_None_2 (seq _ n)) by (rewrite length_seq; lia)].
    simpl. unfold bit_lo. rewrite !Nat.add_assoc. done.
  - unfold ssum. f_equal. apply list_eq. intros i. rewrite !list_lookup_fmap.
    destruct (decide (i < n)%nat); [rewrite !lookup_seq_lt by done|by rewrite !(lookup_ge_None_2 (seq _ n)) by (rewrite length_seq; lia)].
    simpl. unfold bit_hi. rewrite !Nat.add_assoc. done.
Qed.
Lemma ssum_registers f n q : vsum ((λ r, ssum f (r * n) n) <$> seq 0 q) = ssum f 0 (q * n).
Proof.
  induction q as [|q IH]; [done|]. rewrite seq_S, fmap_app, vsum_app, IH.
  replace (S q * n)%nat with (q * n + n)%nat by lia. rewrite ssum_app. f_equal. simpl. by rewrite N.lxor_0_r.
Qed.
Lemma fold_registers n (f : vec_t * vec_t → vec_t) rs v :
  length v = n → Forall (λ r, length (f r) = n) rs →
  length (foldl (λ v r, xorv v (f r)) v rs) = n ∧
  vsum (foldl (λ v r, xorv v (f r)) v rs) = vsum v ⊕ vsum ((λ r, vsum (f r)) <$> rs).
Proof.
  intros Hv Hrs. revert v Hv. induction Hrs as [|r rs Hr _ IH]; intros v Hv.
  - split; [done|]. simpl. by rewrite N.lxor_0_r.
  - cbn [foldl]. destruct (IH (xorv v (f r))) as [H1 H2]; [rewrite length_xorv; congruence|].
    split; [done|]. rewrite H2, vsum_xorv by congruence. rewrite fmap_cons. cbn [vsum foldr]. by rewrite N.lxor_assoc.
Qed.
Lemma xorv_assoc u v w : xorv (xorv u v) w = xorv u (xorv v w).
Proof. revert v w. induction u as [|x u IH]; intros [|y v] [|z w]; simpl; f_equal; auto. apply N.lxor_assoc. Qed.
(** A group's low and high registers sum to the terms of its eight inputs. *)
Lemma group_sums n k : (k < 16)%nat → n = 2%nat ∨ n = 4%nat →
  let lo := foldl (λ v r, xorv (xorv v r.1) (bslli_8 r.2)) (zero n) (regs n k) in
  let hi := foldl (λ v r, xorv v (bsrli_8 r.2)) (zero n) (regs n k) in
  length lo = n ∧ length hi = n ∧
  vsum lo = ssum (λ B, bit_lo B (get data (k * 8 + B))) 0 8 ∧
  vsum hi = ssum (λ B, bit_hi B (get data (k * 8 + B))) 0 8.
Proof.
  intros Hk Hn lo hi. assert (8 / n * n = 8 ∧ 1 ≤ n)%nat as [H8 Hn1] by (destruct Hn as [->| ->]; cbv; lia).
  assert (∀ r, (r < 8 / n)%nat → (r * n + n ≤ 8)%nat) as Hr by (intros; nia).
  assert (∀ r, (r < 8 / n)%nat → _) as Hreg by (intros r Hlt; exact (register_sums n k (r * n) Hk (Hr r Hlt))).
  assert (lo = foldl (λ v r, xorv v (xorv r.1 (bslli_8 r.2))) (zero n) (regs n k)) as Hlo.
  { subst lo. generalize (zero n). induction (regs n k) as [|r rs IH]; intros v; [done|]. cbn [foldl].
    by rewrite IH, xorv_assoc. }
  destruct (fold_registers n (λ r, xorv r.1 (bslli_8 r.2)) (regs n k) (zero n)) as [L1 S1];
    [apply length_replicate|by apply Forall_fmap, Forall_seq; intros r [_ Hlt]; destruct (Hreg r Hlt) as ((? & ?) & _);
      unfold compose; rewrite length_xorv; unfold bslli_8; rewrite ?length_fmap; congruence|].
  destruct (fold_registers n (λ r, bsrli_8 r.2) (regs n k) (zero n)) as [L2 S2];
    [apply length_replicate|by apply Forall_fmap, Forall_seq; intros r [_ Hlt]; destruct (Hreg r Hlt) as ((? & ?) & _);
      unfold compose, bsrli_8; rewrite ?length_fmap; congruence|].
  rewrite Hlo. split; [done|]. split; [done|]. rewrite S1. subst hi. rewrite S2, vsum_zero, !N.lxor_0_l.
  assert (∀ F, ssum F 0 8 = vsum ((λ r, ssum F (r * n) n) <$> seq 0 (8 / n))) as Hs8
    by (intros F; by rewrite ssum_registers, H8).
  rewrite !Hs8. unfold regs. rewrite <- !list_fmap_compose.
  split; f_equal; apply list_fmap_ext; intros r ? [-> Hlt]%lookup_seq; unfold compose;
    change (0 + r)%nat with r; destruct (Hreg _ Hlt) as ((? & ?) & E1 & E2); [|exact E2].
  rewrite <- E1. apply vsum_xorv. unfold bslli_8. rewrite length_fmap. congruence.
Qed.
Definition packed_wide (n k : nat) (s : vec_t * vec_t) : Prop :=
  length s.1 = n ∧ length s.2 = n ∧ packed k (vsum s.1, vsum s.2).
Lemma group_halves k : (k < 16)%nat →
  let lo := ssum (λ B, bit_lo B (get data (k * 8 + B))) 0 8 in
  let hi := ssum (λ B, bit_hi B (get data (k * 8 + B))) 0 8 in
  block_ok lo ∧ (hi < 2 ^ 8)%N ∧ halves lo hi = ssum (term8 (k * 8)) 0 8.
Proof.
  intros Hk lo hi. subst lo hi.
  assert (∀ m, (m ≤ 8)%nat → let lo := ssum (λ B, bit_lo B (get data (k * 8 + B))) 0 m in
    let hi := ssum (λ B, bit_hi B (get data (k * 8 + B))) 0 m in
    block_ok lo ∧ (hi < 2 ^ 8)%N ∧ halves lo hi = ssum (term8 (k * 8)) 0 m) as H; [|by apply H].
  induction m as [|m IH]; intros Hm; [done|]. destruct IH as (H1 & H2 & H3); [lia|].
  replace (S m) with (m + 1)%nat by lia. rewrite !(ssum_app _ 0 m 1).
  assert (∀ f, ssum f (0 + m) 1 = f m) as H1m by (intros; unfold ssum; simpl; apply N.lxor_0_r).
  rewrite !H1m. split_and!.
  - apply block_lxor; [done|]. apply bit_lo_ok; [lia|apply get_ok].
  - apply lxor_lt; [done|]. apply bit_hi_ok; [lia|apply get_ok].
  - rewrite halves_lxor, H3, bit_shift_ok by (lia || apply get_ok). done.
Qed.
Lemma gf_pack_group_ok n k s : n = 2%nat ∨ n = 4%nat → (k < 16)%nat → packed_wide n k s →
  packed_wide n (k + 1) (gf_pack_group n data s k).
Proof.
  intros Hn Hk (L1 & L2 & Hp). destruct s as [acc_lo acc_hi]. cbn [fst snd] in *.
  unfold gf_pack_group. fold (regs n k). cbv zeta.
  destruct (group_sums n k Hk Hn) as (G1 & G2 & S1 & S2). destruct (group_halves k Hk) as (B1 & B2 & B3).
  set (lo := foldl _ (zero n) (regs n k)) in *.
  set (hi := foldl (λ v (r : vec_t * vec_t), xorv v (bsrli_8 r.2)) (zero n) (regs n k)) in *.
  rewrite <- S1, <- S2 in *. pose proof (gf_packed_step k _ _ _ _ Hk Hp B1 B2 B3) as Hst.
  destruct (Nat.eqb_spec k 0) as [->|Hne].
  - split_and!; cbn [fst snd]; [rewrite length_xorv; congruence..|].
    rewrite !vsum_xorv by congruence. exact Hst.
  - split_and!; cbn [fst snd].
    + rewrite length_xorv; rewrite ?length_fmap; congruence.
    + rewrite length_xorv; rewrite ?length_xorv; rewrite ?length_fmap; congruence.
    + rewrite !vsum_xorv by (rewrite ?length_xorv; rewrite ?length_fmap; congruence).
      rewrite (vsum_linear (λ x, slli_si128 x (N.of_nat k)) lo), (vsum_linear (λ x, slli_si128 x (N.of_nat k)) hi),
        (vsum_linear (λ x, srli_si128 x (16 - N.of_nat k)) lo) by apply _. exact Hst.
Qed.
Lemma packing_wide_ok n : n = 2%nat ∨ n = 4%nat → packing_wide n data = GF_MOD 128 (ssum term 0 128).
Proof.
  intros Hn. unfold packing_wide.
  assert (packed_wide n 16 (foldl (gf_pack_group n data) (zero n, zero n) (seq 0 16))) as H.
  { apply (foldl_seq _ (packed_wide n)).
    - split_and!; [apply length_replicate..|]. cbn [fst snd]. by rewrite !vsum_zero.
    - intros i s Hi. by apply gf_pack_group_ok. }
  destruct (foldl _ _ _) as [lo hi]. destruct H as (L1 & L2 & Hlo & Hhi & Hv). cbn [fst snd] in *.
  assert (width_ok n) as Hw by (destruct Hn as [->| ->]; [right; by left|by right; right]).
  by rewrite !(fold_to_xmm_ok n), reduce_ok, Hv.
Qed.
End packing.

Lemma bval_snoc_xor l x : bval (l ++ [x]) = bval l ⊕ N.shiftl (N.b2n x) (N.of_nat (length l)).
Proof.
  rewrite bval_app. cbn [bval]. replace (N.b2n x + 2 * 0)%N with (N.b2n x) by lia. rewrite <- lor_bval.
  apply (lor_disjoint _ _ (N.ones (N.of_nat (length l)))).
  - rewrite N.land_ones. apply N.mod_small, bval_lt.
  - apply N.bits_inj. intros i. rewrite N.ldiff_spec. destruct (N.ltb_spec i (N.of_nat (length l))).
    + by rewrite N.shiftl_spec_low.
    + by rewrite N.ones_spec_high, andb_true_r.
Qed.
Lemma bval_ssum l : bval l = ssum (λ i, N.shiftl (N.b2n (default false (l !! i))) (N.of_nat i)) 0 (length l).
Proof.
  induction l as [|x l IH] using rev_ind; [done|]. rewrite bval_snoc_xor, length_app. cbn [length].
  rewrite ssum_app, IH. f_equal.
  - apply ssum_ext. intros i Hi. by rewrite lookup_app_l by lia.
  - unfold ssum. cbn [seq fmap list_fmap vsum foldr]. rewrite N.lxor_0_r, list_lookup_middle by lia. done.
Qed.
Lemma GF_MOD_small v : block_ok v → GF_MOD 128 v = v.
Proof.
  intros Hv. symmetry. apply (pmod_unique 128 0x87 low_ok); [by eapply N.lt_trans|done|reflexivity].
Qed.
(** The bool overloads: byte [i] nonzero is bit [i]. *)
Lemma packing_bools_ok data : length data = 128%nat →
  packing_bools data = Ret (bval (truth <$> data)).
Proof.
  intros Hl. unfold packing_bools, bool_to_block.
  destruct (bools_to_bits_ok (replicate 16 0%N) data 128) as (out & Hr & Hp);
    [lia|rewrite length_replicate; lia|]. change (Z.of_nat 128) with 128%Z in Hr. rewrite Hr.
  cbn [mbind outcome_bind mret outcome_ret]. f_equal.
  assert (Forall (λ v, v < 256)%N out) as Hb by (eapply bools_to_bits_bytes; [|exact Hr]; by apply Forall_replicate).
  rewrite le_value_bval, Hp by done. unfold Block.packed.
  rewrite firstn_all2 by (rewrite length_fmap; lia). rewrite skipn_all2, app_nil_r by done. done.
Qed.

(** [GaloisFieldPacking].  For 128 blocks the packing is the field element
    [sum data[i] * X^i], on the byte-wise path and on both wide paths, however
    the shifts carry across the lanes.  For 128 bools or bytes it is the block
    whose bit [i] is element [i], which is the packing of the elements as field
    elements 0 and 1. *)
Theorem packing_correct (data : list block) (bools : list N) :
  Forall block_ok data → length data = 128%nat → length bools = 128%nat →
  packing data = vsum ((λ i, gfmul (get data i) (2 ^ N.of_nat i)) <$> seq 0 128) ∧
  packing_avx2 data = packing data ∧ packing_avx512 data = packing data ∧
  packing_bools bools = Ret (bval (truth <$> bools)) ∧
  packing ((λ b, N.b2n (truth b)) <$> bools) = bval (truth <$> bools).
Proof.
  intros Hd Hl Hb. unfold packing_avx2, packing_avx512. rewrite !packing_wide_ok, packing_ok by auto.
  split_and!; [|done|done|by apply packing_bools_ok|].
  - unfold ssum. rewrite <- vsum_linear, <- list_fmap_compose by apply _. f_equal.
    apply list_fmap_ext. intros i ? [-> Hi]%lookup_seq. unfold compose, term.
    rewrite gfmul_ok, pmul_pow2_r by first [by apply get_ok|apply N.pow_lt_mono_r; lia]. done.
  - set (b := (λ b, N.b2n (truth b)) <$> bools).
    assert (Forall block_ok b) as Fb by (apply Forall_fmap, Forall_true; intros x; unfold compose; by destruct (truth x)).
    assert (ssum (term b) 0 128 = bval (truth <$> bools)) as Hs.
    { rewrite bval_ssum, length_fmap, Hb. apply ssum_ext. intros i Hi. unfold term, b, get.
      rewrite !list_lookup_fmap. by destruct (bools !! i). }
    rewrite packing_ok, Hs by (try done; unfold b; by rewrite length_fmap).
    apply GF_MOD_small. unfold block_ok. change (2 ^ 128)%N with (pow2 128).
    rewrite <- Hb, <- (length_fmap truth bools). apply bval_lt.
Qed.
Lemma packing_correct_witness :
  let bools := replicate 100 1%N ++ replicate 28 0%N in
  packing_avx512 (replicate 128 3%N) = packing (replicate 128 3%N) ∧
  packing_bools bools = Ret (2 ^ 100 - 1)%N.
Proof.
  cbv zeta. destruct (packing_correct (replicate 128 3%N) (replicate 100 1%N ++ replicate 28 0%N))
    as (_ & _ & H4 & Hb & _); [by apply Forall_replicate|done|done|].
  split; [exact H4|]. rewrite Hb. by vm_compute.
Defined.

(** ** Coefficients of the universal hash, selected sums, sums *)
(** [seed^(i+1)]. *)
Fixpoint gfpow (x : block) (n : nat) : block := match n with O => x | S n => gfmul (gfpow x n) x end.
Lemma gfpow_ok x n : block_ok x → block_ok (gfpow x n).
Proof. intros Hx. induction n as [|n IH]; [done|]. by apply block_gfmul. Qed.
Lemma gfmul_assoc a b c : block_ok a → block_ok b → block_ok c → gfmul (gfmul a b) c = gfmul a (gfmul b c).
Proof.
  intros Ha Hb Hc. apply gf_eq; [auto with emp..|].
  rewrite (proj2 (gfmul_spec _ c (block_gfmul a b Ha Hb) Hc)), (proj2 (gfmul_spec a b Ha Hb)).
  rewrite (proj2 (gfmul_spec a _ Ha (block_gfmul b c Hb Hc))), (proj2 (gfmul_spec b c Hb Hc)).
  by rewrite pmul_assoc.
Qed.
Lemma gfpow_add x n m : block_ok x → gfmul (gfpow x n) (gfpow x m) = gfpow x (n + m + 1).
Proof.
  intros Hx. induction m as [|m IH]; [by rewrite Nat.add_0_r, Nat.add_1_r|].
  cbn [gfpow]. rewrite <- gfmul_assoc, IH by auto using gfpow_ok.
  by replace (n + S m + 1)%nat with (S (n + m + 1)) by lia.
Qed.

(** Loops over indices that always complete. *)
Lemma foldO_seq {S} (f : S → nat → outcome S) (P : nat → S → Prop) lo n s :
  P 0%nat s → (∀ i s, (i < n)%nat → P i s → ∃ s', f s (lo + i)%nat = Ret s' ∧ P (i + 1)%nat s') →
  ∃ s', foldO f s (seq lo n) = Ret s' ∧ P n s'.
Proof.
  intros H0 Hstep. assert (∀ k, (k ≤ n)%nat → ∃ s', foldO f s (seq lo k) = Ret s' ∧ P k s') as H; [|by apply H].
  induction k as [|k IH]; intros Hk; [by exists s|]. destruct IH as (s1 & H1 & HP); [lia|].
  destruct (Hstep k s1) as (s2 & H2 & HP2); [lia|done|]. exists s2. rewrite seq_S, foldO_app, H1.
  cbn [mbind outcome_bind foldO]. rewrite H2. rewrite Nat.add_1_r in HP2. done.
Qed.
Lemma foldO_map {S A B} (f : S → B → outcome S) (g : A → B) s l :
  foldO f s (g <$> l) = foldO (λ s x, f s (g x)) s l.
Proof.
  revert s. induction l as [|x l IH]; intros s; [done|]. rewrite fmap_cons. cbn [foldO].
  destruct (f s (g x)); cbn [mbind outcome_bind]; auto.
Qed.
Lemma vget_nat {A} (l : list A) (i : nat) x : l !! i = Some x → vget l (N.of_nat i) = Ret x.
Proof. intros H. unfold vget. by rewrite Nat2N.id, H. Qed.
Lemma vset_nat {A} (l : list A) (i : nat) x : (i < length l)%nat → vset l (N.of_nat i) x = Ret (<[i := x]> l).
Proof. intros H. unfold vset. rewrite Nat2N.id. by rewrite decide_True. Qed.

Section coeffs.
Context (coeff0 : list block) (seed : block) (Hseed : block_ok seed).
Definition filled (k : nat) (c : list block) : Prop :=
  length c = length coeff0 ∧ (∀ i, (i < k)%nat → c !! i = Some (gfpow seed i)) ∧
  (∀ i, (k ≤ i)%nat → c !! i = coeff0 !! i).
Lemma filled_insert k c : filled k c → (k < length coeff0)%nat → filled (k + 1) (<[k := gfpow seed k]> c).
Proof.
  intros (Hl & Hlt & Hge) Hk. split; [by rewrite length_insert|]. split; intros i Hi.
  - destruct (decide (i = k)) as [->|]; [by rewrite list_lookup_insert_eq by lia|].
    rewrite list_lookup_insert_ne by done. apply Hlt. lia.
  - rewrite list_lookup_insert_ne by lia. apply Hge. lia.
Qed.
Lemma coeff_step_ok back k c : filled k c → (1 ≤ back ≤ k)%nat → (k < length coeff0)%nat →
  ∃ c', coeff_step (gfpow seed (back - 1)) back c k = Ret c' ∧ filled (k + 1) c'.
Proof.
  intros Hf Hb Hk. pose proof Hf as (Hl & Hlt & _). unfold coeff_step.
  rewrite (vget_nat c (k - back) (gfpow seed (k - back))) by (apply Hlt; lia). cbn [mbind outcome_bind].
  rewrite vset_nat by lia. eexists. split; [reflexivity|].
  rewrite gfpow_add by done. replace (k - back + (back - 1) + 1)%nat with k by lia. by apply filled_insert.
Qed.
Lemma coeff_step4_ok k c : filled k c → (4 ≤ k)%nat → (k + 4 ≤ length coeff0)%nat →
  ∃ c', coeff_step4 (gfpow seed 3) c k = Ret c' ∧ filled (k + 4) c'.
Proof.
  intros Hf Hk Hn. unfold coeff_step4.
  apply (foldO_seq (λ c j, coeff_step (gfpow seed 3) 4 c (k + j)) (λ j c, filled (k + j) c)).
  - by rewrite Nat.add_0_r.
  - intros j s Hj Hs. rewrite Nat.add_0_l, Nat.add_assoc. by apply (coeff_step_ok 4); [|lia|lia].
Qed.
Lemma uni_hash_ok sz : (0 < sz)%Z → (Z.to_nat sz ≤ length coeff0)%nat →
  ∃ c, uni_hash_coeff_gen coeff0 seed sz = Ret c ∧ filled (Z.to_nat sz) c.
Proof.
  intros Hsz Hlen. unfold uni_hash_coeff_gen. rewrite (proj2 (Z.ltb_lt 0 sz) Hsz). cbn [expecting mbind outcome_bind].
  set (n := Z.to_nat sz) in *.
  assert (filled 0 coeff0) as F0 by (split_and!; [done|lia|done]).
  pose proof (filled_insert 0 _ F0 ltac:(lia)) as F1.
  rewrite (vset_nat coeff0 0) by lia. cbn [mbind outcome_bind].
  destruct (Z.eqb_spec sz 1) as [H1|H1]; [eexists; split; [done|]; by replace n with 1%nat by lia|].
  pose proof (filled_insert 1 _ F1 ltac:(lia)) as F2.
  rewrite (vset_nat _ 1) by (rewrite length_insert; lia). cbn [mbind outcome_bind].
  destruct (Z.eqb_spec sz 2) as [H2|H2]; [eexists; split; [done|]; by replace n with 2%nat by lia|].
  destruct (coeff_step_ok 1 2 _ F2) as (c3 & Hc3 & F3); [lia|lia|]. cbn [Nat.sub gfpow] in Hc3.
  rewrite Hc3. cbn [mbind outcome_bind].
  destruct (Z.eqb_spec sz 3) as [H3|H3]; [eexists; split; [done|]; by replace n with 3%nat by lia|].
  assert (vget c3 2 = Ret (gfpow seed 2)) as -> by (apply (vget_nat c3 2); apply F3; lia).
  cbn [mbind outcome_bind].
  change (gfmul (gfpow seed 2) seed) with (gfpow seed 3).
  pose proof (filled_insert 3 _ F3 ltac:(lia)) as F4.
  rewrite (vset_nat _ 3) by (destruct F3; lia). cbn [mbind outcome_bind].
  destruct (Z.eqb_spec sz 4) as [H4|H4]; [eexists; split; [done|]; by replace n with 4%nat by lia|].
  rewrite foldO_map.
  assert (4 * ((n - 4) / 4) ≤ n - 4 ∧ n mod 4 = n - 4 - 4 * ((n - 4) / 4))%nat as [Hq Hr].
  { pose proof (Nat.div_mod_eq (n - 4) 4). pose proof (Nat.mod_upper_bound (n - 4) 4).
    split; [lia|]. symmetry. apply (Nat.mod_unique _ _ ((n - 4) / 4 + 1)); lia. }
  destruct (foldO_seq (λ c k, coeff_step4 (gfpow seed 3) c (4 + 4 * k)) (λ k c, filled (4 + 4 * k) c)
    0 ((n - 4) / 4) (<[3%nat := gfpow seed 3]> c3)) as (c & -> & Fc); [done| |].
  { intros i s Hi Hs. rewrite Nat.add_0_l. replace (4 + 4 * (i + 1))%nat with (4 + 4 * i + 4)%nat by lia.
    apply coeff_step4_ok; [done|lia|]. nia. }
  cbn [mbind outcome_bind]. set (q := ((n - 4) / 4)%nat) in *.
  destruct (Nat.eqb_spec (n mod 4) 0) as [Hz|Hz].
  - exists c. split; [done|]. by replace n with (4 + 4 * q)%nat by lia.
  - destruct (foldO_seq (coeff_step seed 1) (λ i c, filled (n - n mod 4 + i) c) (n - n mod 4) (n mod 4) c)
      as (c' & Hc' & F'); [by replace (n - n mod 4 + 0)%nat with (4 + 4 * q)%nat by lia| |].
    + intros i s Hi Hs. rewrite Nat.add_assoc. apply (coeff_step_ok 1); [done|lia|lia].
    + exists c'. split; [exact Hc'|]. by replace n with (n - n mod 4 + n mod 4)%nat at 1 by lia.
Qed.
End coeffs.

Lemma ssum_1 f lo : ssum f lo 1 = f lo.
Proof. unfold ssum. cbn. apply N.lxor_0_r. Qed.
Lemma ssum_4 f lo : ssum f lo 4 = (f lo ⊕ f (lo + 1)%nat) ⊕ (f (lo + 2)%nat ⊕ f (lo + 3)%nat).
Proof.
  unfold ssum. cbn [seq fmap list_fmap vsum foldr].
  replace (S lo) with (lo + 1)%nat by lia. replace (S (lo + 1)) with (lo + 2)%nat by lia.
  replace (S (lo + 2)) with (lo + 3)%nat by lia. xor_bits.
Qed.
Lemma vget_get l i : (i < length l)%nat → vget l (N.of_nat i) = Ret (get l i).
Proof. intros Hi. unfold get. destruct (lookup_lt_is_Some_2 l i Hi) as [x Hx]. by rewrite (vget_nat l i x), Hx. Qed.
(** A sum over a prefix, in whole groups of four and a rest. *)
Lemma div4 n : (4 * (n / 4) ≤ n)%nat.
Proof. pose proof (Nat.div_mod_eq n 4). lia. Qed.

Section selected.
Context (a : list block) (b : list N) (n : nat) (Ha : Forall block_ok a).
Context (Hla : (n ≤ length a)%nat) (Hlb : (n ≤ length b)%nat).
Definition chosen (i : nat) : N := if truth (get b i) then get a i else 0%N.
Lemma masked_ok r i : (i < n)%nat → masked a b r i = Ret (r ⊕ chosen i).
Proof.
  intros Hi. unfold masked. rewrite !vget_get by lia. cbn [mbind outcome_bind]. do 2 f_equal.
  unfold chosen, truth, select_mask. destruct (negb _); [|apply N.land_0_r].
  change all_one_block with (N.ones 128). rewrite N.land_ones. apply N.mod_small. by apply get_ok.
Qed.
Lemma selected_ok sz : n = Z.to_nat sz → vector_inn_prdt_sum_red_bits a b sz = Ret (ssum chosen 0 n).
Proof.
  intros Hn. unfold vector_inn_prdt_sum_red_bits. rewrite <- Hn, foldO_map. pose proof (div4 n).
  destruct (foldO_seq (λ r k, masked4 a b r (4 * k)) (λ k r, let '(r0, r1, r2, r3) := r in
    (r0 ⊕ r1) ⊕ (r2 ⊕ r3) = ssum chosen 0 (4 * k)) 0 (n / 4) (zero_block, zero_block, zero_block, zero_block))
    as ([[[r0 r1] r2] r3] & -> & Hr); [done| |].
  { intros k [[[r0 r1] r2] r3] Hk Hr. rewrite Nat.add_0_l. unfold masked4. rewrite !masked_ok by lia.
    cbn [mbind outcome_bind]. eexists. split; [reflexivity|]. cbv beta iota.
    replace (4 * (k + 1))%nat with (4 * k + 4)%nat by lia. rewrite ssum_app, ssum_4, <- Hr, !Nat.add_0_l.
    xor_bits. }
  cbn [mbind outcome_bind].
  destruct (foldO_seq (masked a b) (λ i r, (r ⊕ r1) ⊕ (r2 ⊕ r3) = ssum chosen 0 (4 * (n / 4) + i))
    (4 * (n / 4)) (n - 4 * (n / 4)) r0) as (r & -> & Hs); [by rewrite Nat.add_0_r| |].
  { intros i r Hi Hs. rewrite masked_ok by lia. eexists. split; [reflexivity|].
    rewrite Nat.add_assoc, ssum_app, ssum_1, <- Hs.
    change (chosen (0 + (4 * (n / 4) + i))) with (chosen (4 * (n / 4) + i)). xor_bits. }
  cbn [mbind outcome_bind]. rewrite Hs. do 2 f_equal. lia.
Qed.
End selected.

Section self_xor.
Context (data : list block) (n : nat) (Hl : (n ≤ length data)%nat).
Lemma self_step base res j : length res = 4%nat → (j < 4)%nat → (base + j < n)%nat →
  ∃ res', (x ← vget data (N.of_nat (base + j)); y ← vget res (N.of_nat j); vset res (N.of_nat j) (x ⊕ y)) = Ret res' ∧
    length res' = 4%nat ∧ vsum res' = vsum res ⊕ get data (base + j).
Proof.
  intros H4 Hj Hb. rewrite vget_get by lia. cbn [mbind outcome_bind]. rewrite vget_get by lia.
  cbn [mbind outcome_bind]. rewrite vset_nat by lia. eexists. split; [reflexivity|].
  split; [by rewrite length_insert|]. generalize (get data (base + j)). intros x.
  assert (∀ l i, (i < length l)%nat → vsum (<[i := x ⊕ get l i]> l) = vsum l ⊕ x) as H; [|by apply H; lia].
  clear. induction l as [|y l IH]; intros i Hi; [simpl in Hi; lia|]. destruct i as [|i].
  - change (get (y :: l) 0) with y. change ((x ⊕ y) ⊕ vsum l = y ⊕ vsum l ⊕ x). xor_bits.
  - simpl in Hi. change (<[S i := x ⊕ get (y :: l) (S i)]> (y :: l)) with (y :: <[i := x ⊕ get l i]> l).
    change (vsum (y :: ?t)) with (y ⊕ vsum t). rewrite IH by lia. by rewrite N.lxor_assoc.
Qed.
Lemma self_xor_ok sz : n = Z.to_nat sz → vector_self_xor data sz = Ret (ssum (get data) 0 n).
Proof.
  intros Hn. unfold vector_self_xor. rewrite <- Hn, foldO_map. pose proof (div4 n).
  destruct (foldO_seq (λ res k, self_xor4 data res (4 * k))
    (λ k res, length res = 4%nat ∧ vsum res = ssum (get data) 0 (4 * k)) 0 (n / 4) (replicate 4 zero_block))
    as (res & -> & L4 & Hs); [done| |].
  { intros k res Hk [L4 Hs]. rewrite Nat.add_0_l.
    destruct (foldO_seq (λ r j, x ← vget data (N.of_nat (4 * k + j)); y ← vget r (N.of_nat j); vset r (N.of_nat j) (x ⊕ y))
      (λ j res, length res = 4%nat ∧ vsum res = ssum (get data) 0 (4 * k + j)) 0 4 res) as (res' & Hr & L' & S');
      [by rewrite Nat.add_0_r| |].
    - intros j r Hj [Lr Sr]. destruct (self_step (4 * k) r j) as (r' & He & L' & S'); [done|done|lia|].
      exists r'. split; [exact He|]. split; [done|]. by rewrite Nat.add_assoc, ssum_app, ssum_1, S', Sr.
    - exists res'. split; [exact Hr|]. split; [done|]. rewrite S'. f_equal. lia. }
  cbn [mbind outcome_bind].
  destruct (foldO_seq (λ r j, x ← vget data (N.of_nat (4 * (n / 4) + j)); y ← vget r (N.of_nat j); vset r (N.of_nat j) (x ⊕ y))
    (λ j res, length res = 4%nat ∧ vsum res = ssum (get data) 0 (4 * (n / 4) + j)) 0 (n - 4 * (n / 4)) res)
    as (res' & -> & L' & S'); [by rewrite Nat.add_0_r| |].
  { intros j r Hj [Lr Sr]. pose proof (Nat.mod_upper_bound n 4). pose proof (Nat.div_mod_eq n 4).
    destruct (self_step (4 * (n / 4)) r j) as (r' & He & L' & S'); [done|lia|lia|].
    exists r'. split; [exact He|]. split; [done|]. by rewrite Nat.add_assoc, ssum_app, ssum_1, S', Sr. }
  cbn [mbind outcome_bind]. destruct res' as [|a [|b [|c [|e [|]]]]]; try done.
  replace (4 * (n / 4) + (n - 4 * (n / 4)))%nat with n in S' by lia. rewrite <- S'.
  change (Ret ((a ⊕ b) ⊕ (c ⊕ e)) = Ret (vsum [a; b; c; e])). f_equal.
  change (vsum [a; b; c; e]) with (a ⊕ (b ⊕ (c ⊕ (e ⊕ 0%N)))). xor_bits.
Qed.
End self_xor.

(** Prefix sums as sums over lists. *)
Lemma ssum_get l n : (n ≤ length l)%nat → ssum (get l) 0 n = vsum (take n l).
Proof.
  intros Hn. unfold ssum. f_equal. apply list_eq. intros i. rewrite list_lookup_fmap.
  destruct (decide (i < n)%nat).
  - rewrite lookup_seq_lt, lookup_take_lt by done. simpl. unfold get.
    by destruct (lookup_lt_is_Some_2 l i) as [x ->]; [lia|].
  - by rewrite !lookup_ge_None_2 by (rewrite ?length_seq, ?length_take; lia).
Qed.

(** Vector operations of GF(2^128).  [uni_hash_coeff_gen] writes the powers
    [seed, seed^2, ..., seed^sz] to the first [sz] cells and leaves the others,
    ends the process when [sz <= 0], and never writes out of bounds; the inner
    product with bools or bytes is the sum of the blocks whose selector is
    nonzero, which is the field's inner product with those selectors;
    [vector_self_xor] is the sum of the first [sz] blocks. *)
Theorem f2k_vectors_correct (coeff a : list block) (b : list N) (seed : block) (sz : Z) :
  let n := Z.to_nat sz in
  block_ok seed → Forall block_ok a →
  (n ≤ length coeff)%nat → (n ≤ length a)%nat → (n ≤ length b)%nat →
  (if (0 <? sz)%Z then
     ∃ c, uni_hash_coeff_gen coeff seed sz = Ret c ∧ length c = length coeff ∧
       (∀ i, (i < n)%nat → c !! i = Some (gfpow seed i)) ∧ (∀ i, (n ≤ i)%nat → c !! i = coeff !! i)
   else uni_hash_coeff_gen coeff seed sz = Fatal "uni_hash_coeff_gen: size must be positive") ∧
  vector_inn_prdt_sum_red_bits a b sz =
    Ret (vsum (zip_with gfmul (take n a) ((λ y, N.b2n (truth y)) <$> take n b))) ∧
  vector_self_xor a sz = Ret (vsum (take n a)).
Proof.
  intros n Hseed Ha Hlc Hla Hlb. split_and!.
  - destruct (Z.ltb_spec 0 sz) as [Hsz|Hsz].
    + destruct (uni_hash_ok coeff seed Hseed sz Hsz Hlc) as (c & ? & ?). by exists c.
    + unfold uni_hash_coeff_gen. by rewrite (proj2 (Z.ltb_ge 0 sz)).
  - rewrite (selected_ok a b n) by done. f_equal. unfold ssum. f_equal. apply list_eq. intros i.
    rewrite list_lookup_fmap, lookup_zip_with, list_lookup_fmap. destruct (decide (i < n)%nat).
    + rewrite lookup_seq_lt, !lookup_take_lt by done. unfold chosen, get. cbn [fmap option_fmap option_map].
      destruct (lookup_lt_is_Some_2 a i) as [x Hx]; [lia|]. destruct (lookup_lt_is_Some_2 b i) as [y Hy]; [lia|].
      rewrite Nat.add_0_l, Hx, Hy.
      cbn [mbind option_bind fmap option_fmap option_map]. f_equal. pose proof (Forall_lookup_1 _ _ _ _ Ha Hx).
      cbv [from_option id]. destruct (truth y); cbn [N.b2n].
      * rewrite gfmul_ok by done. by rewrite pmul_1_r, GF_MOD_small.
      * rewrite gfmul_ok by done. by rewrite pmul_0_r, GF_MOD_small.
    + by rewrite !lookup_ge_None_2 by (rewrite ?length_seq, ?length_take; lia).
  - by rewrite (self_xor_ok a n), ssum_get.
Qed.
Lemma f2k_vectors_correct_witness :
  (∃ c, uni_hash_coeff_gen (replicate 9 0%N) 2 7 = Ret c ∧ c !! 6%nat = Some (gfpow 2 6) ∧ c !! 7%nat = Some 0%N) ∧
  vector_self_xor (replicate 9 5%N) 7 = Ret 5%N.
Proof.
  destruct (f2k_vectors_correct (replicate 9 0%N) (replicate 9 5%N) (replicate 9 1%N) 2 7) as ((c & Hc & _ & H1 & H2) & _ & Hs);
    [done|by apply Forall_replicate|vm_compute; lia..|]. split.
  - exists c. split; [exact Hc|]. split; [apply H1; vm_compute; lia|]. rewrite H2 by (vm_compute; lia). done.
  - rewrite Hs. by vm_compute.
Defined.
