(* ===== verification/Transpose.v ===== *)
(** * Bit-matrix transposition (runtime/core/transpose.hpp)

    The generic byte-oriented transpose and the kernels for 128 rows, instruction by
    instruction, and that all of them write the transposed matrix.  A register is
    the list of its bytes, a wide one the list of its 128-bit lanes.  A routine is
    the list of stores it makes, in its order: input and output are different
    buffers, so no load reads what a store has written. *)

From S2P Require Import Prelude Bits Bytes Block.

(** ** Instructions *)
Section unpack.
Context {A : Type}.
(** Elements of [w] bytes, alternately from [a] and from [b]. *)
Fixpoint interleave (w n : nat) (a b : list A) : list A :=
  match n with
  | O => []
  | S n => take w a ++ take w b ++ interleave w n (drop w a) (drop w b)
  end.
Definition unpacklo (w : nat) (a b : list A) : list A := interleave w (8 / w) (take 8 a) (take 8 b).
Definition unpackhi (w : nat) (a b : list A) : list A := interleave w (8 / w) (drop 8 a) (drop 8 b).
End unpack.
(** Each 64-bit half shifted left by one bit. *)
Definition slli_half (x : list N) : list N :=
  (λ i, N.lor (N.land (N.shiftl (get x i) 1) 0xff) (if (i =? 0)%nat then 0 else N.shiftr (get x (i - 1)) 7)) <$> seq 0 8.
Definition slli_epi64_1 (x : list N) : list N := slli_half (take 8 x) ++ slli_half (drop 8 x).

(** ** The 16x16 byte transpose, over any unpack instructions *)
Section byte_transpose.
Context {V : Type} (d : V) (lo hi : nat → V → V → V).
Definition reg (m : list V) (i : nat) : V := default d (m !! i).
Definition trans_16x16_byte (m : list V) : list V :=
  let t := seq 0 8 ≫= λ i, [lo 1%nat (reg m (2 * i)) (reg m (2 * i + 1)); hi 1%nat (reg m (2 * i)) (reg m (2 * i + 1))] in
  let u := seq 0 4 ≫= λ i,
    [lo 2%nat (reg t (4 * i)) (reg t (4 * i + 2)); hi 2%nat (reg t (4 * i)) (reg t (4 * i + 2));
     lo 2%nat (reg t (4 * i + 1)) (reg t (4 * i + 3)); hi 2%nat (reg t (4 * i + 1)) (reg t (4 * i + 3))] in
  let v := seq 0 2 ≫= λ i, seq 0 4 ≫= λ k,
    [lo 4%nat (reg u (8 * i + k)) (reg u (8 * i + k + 4)); hi 4%nat (reg u (8 * i + k)) (reg u (8 * i + k + 4))] in
  seq 0 8 ≫= λ k, [lo 8%nat (reg v k) (reg v (k + 8)); hi 8%nat (reg v k) (reg v (k + 8))].
End byte_transpose.
Definition sse_trans_16x16_byte {A} (m : list (list A)) : list (list A) := trans_16x16_byte [] unpacklo unpackhi m.
(** On wide registers the unpack instructions act within each lane. *)
Definition wide_trans_16x16_byte {A} (m : list (list (list A))) : list (list (list A)) :=
  trans_16x16_byte [] (λ w, zip_with (unpacklo w)) (λ w, zip_with (unpackhi w)) m.

(** ** The generic transpose *)
Abbreviation stores := (list (nat * list N)).
Definition run_stores (out : list N) (st : stores) : list N := foldl (λ out '(off, bs), store out off bs) out st.
Definition store_u16 (off : nat) (v : N) : stores := [(off, le_bytes 2 v)].
Section sse_trans.
Context (inp : list N) (nrows ncols : nat).
Definition INP (x y : nat) : N := get inp (x * ncols / 8 + y / 8).
Definition OUT (x y : nat) : nat := (y * nrows / 8 + x / 8)%nat.
Definition loadu (off : nat) : list N := (λ k, get inp (off + k)) <$> seq 0 16.

(** [for (b = 7; b >= 0; --b) { store(b, movemask(x)); x <<= 1; }] *)
Fixpoint ladder (put : nat → N → stores) (b : nat) (x : list N) : stores :=
  put (b - 1)%nat (movemask_epi8 x) ++ (match b with S (S _ as b) => ladder put b (slli_epi64_1 x) | _ => [] end).

(** Sixteen rows at a time, sixteen bytes of columns at a time. *)
Definition fast_path : stores :=
  let bpr_in := (ncols / 8)%nat in let bpr_out := (nrows / 8)%nat in
  seq 0 (nrows / 16) ≫= λ ri, let rr := (16 * ri)%nat in
  seq 0 (bpr_in / 16) ≫= λ ci, let col_byte := (16 * ci)%nat in
    let m := sse_trans_16x16_byte ((λ r, loadu ((rr + r) * bpr_in + col_byte)) <$> seq 0 16) in
    seq 0 16 ≫= λ j,
      let cc8 := ((col_byte + j) * 8)%nat in
      ladder (λ b v, store_u16 ((cc8 + b) * bpr_out + rr / 8) v) 8 (reg [] m j).
(** Strips of sixteen rows, eight columns at a time. *)
Definition strip (rr cc : nat) : stores :=
  ladder (λ i v, store_u16 (OUT rr (cc + i)) v) 8 ((λ r, INP (rr + r) cc) <$> seq 0 16).
Definition main_body : stores := seq 0 (nrows / 16) ≫= λ ri, seq 0 (ncols / 8) ≫= λ ci, strip (16 * ri) (8 * ci).
(** The last eight rows, sixteen columns at a time and then eight.  [h] is the pair
    of bytes at a column; [junk] is what the upper half of [tmp] holds. *)
Context (junk : list N).
Definition put_pair (rr cc : nat) (i : nat) (h : N) : stores :=
  [(OUT rr (cc + i), [N.land h 0xff]); (OUT rr (cc + i + 8), [N.land (N.shiftr h 8) 0xff])].
Definition load_u16 (rr cc i : nat) : N :=
  let off := ((rr + i) * ncols / 8 + cc / 8)%nat in (get inp off + 256 * get inp (off + 1))%N.
Definition pair_8x8 (rr cc : nat) : stores :=
  let h := load_u16 rr cc in
  ladder (put_pair rr cc) 8 (((λ i, N.land (h i) 0xff) <$> seq 0 8) ++ ((λ i, N.land (N.shiftr (h i) 8) 0xff) <$> seq 0 8)).
Definition pair_set_epi16 (rr cc : nat) : stores :=
  ladder (put_pair rr cc) 8 (seq 0 8 ≫= λ i, le_bytes 2 (load_u16 rr cc i)).
Definition last_8x8 (rr cc : nat) : stores :=
  ladder (λ i v, [(OUT rr (cc + i), [N.land v 0xff])]) 8 (((λ i, INP (rr + i) cc) <$> seq 0 8) ++ take 8 junk).
Definition scalar_pairs : bool :=
  (ncols mod 8 =? 0)%nat && negb (ncols mod 16 =? 0)%nat || (nrows mod 8 =? 0)%nat && negb (nrows mod 16 =? 0)%nat.
Definition remainder : stores :=
  let rr := (16 * (nrows / 16))%nat in
  if (rr =? nrows)%nat then [] else
  let cc := (16 * (ncols / 16))%nat in
  (seq 0 (ncols / 16) ≫= λ ci, (if scalar_pairs then pair_8x8 else pair_set_epi16) rr (16 * ci)%nat) ++
  (if (cc =? ncols)%nat then [] else last_8x8 rr cc).
Definition sse_trans (out : list N) : outcome (list N) :=
  expecting ((nrows mod 8 =? 0)%nat && (ncols mod 8 =? 0)%nat) "sse_trans: dimensions must be multiples of 8";;
  if (nrows mod 16 =? 0)%nat && (ncols mod 128 =? 0)%nat then mret (run_stores out fast_path)
  else mret (run_stores out (main_body ++ remainder)).
End sse_trans.

(** ** 128 rows

    [inp] has 128 rows of [bpr_in_blocks] blocks; block [i] is the sixteen bytes at
    [16 i].  A tile of [L] column blocks goes through registers of [L] lanes. *)
Section n128.
Context (inp : list N) (ncols : nat).
Definition bpr_in_blocks : nat := (ncols / 128)%nat.
Definition load_block (i : nat) : list N := (λ k, get inp (16 * i + k)) <$> seq 0 16.
Definition put_row (rr_idx cc8 b : nat) (v : N) : stores := store_u16 ((cc8 + b) * 16 + rr_idx * 2) v.
Definition sse_trans_n128_one_tile_sse2 (rr_idx col_block : nat) : stores :=
  let rr := (16 * rr_idx)%nat in
  let m := sse_trans_16x16_byte ((λ r, load_block ((rr + r) * bpr_in_blocks + col_block)) <$> seq 0 16) in
  seq 0 16 ≫= λ j, ladder (put_row rr_idx ((col_block * 16 + j) * 8)) 8 (reg [] m j).
Definition sse_trans_n128_sse2 : stores :=
  seq 0 8 ≫= λ rr_idx, seq 0 bpr_in_blocks ≫= λ col_block, sse_trans_n128_one_tile_sse2 rr_idx col_block.

(** The wide ladder: one mask of all lanes, sixteen bits of it for each. *)
Definition wide_movemask (x : list (list N)) : N := movemask_epi8 (flatten x).
Fixpoint wide_ladder (put : nat → N → stores) (b : nat) (x : list (list N)) : stores :=
  put (b - 1)%nat (wide_movemask x) ++ (match b with S (S _ as b) => wide_ladder put b (slli_epi64_1 <$> x) | _ => [] end).
Definition wide_tile (L rr_idx col_block : nat) : stores :=
  let rr := (16 * rr_idx)%nat in
  let m := wide_trans_16x16_byte
    ((λ r, (λ l, load_block ((rr + r) * bpr_in_blocks + col_block + l)) <$> seq 0 L) <$> seq 0 16) in
  seq 0 16 ≫= λ j,
    wide_ladder (λ b mask, seq 0 L ≫= λ l,
      put_row rr_idx (((col_block + l) * 16 + j) * 8) b (N.land (N.shiftr mask (16 * N.of_nat l)) 0xffff)) 8 (reg [] m j).
(** Whole tiles of [L] column blocks, and the rest one by one. *)
Definition sse_trans_n128_wide (L : nat) : stores :=
  let tiles := (bpr_in_blocks / L)%nat in let tail_start := (tiles * L)%nat in
  seq 0 8 ≫= λ rr_idx,
    (seq 0 tiles ≫= λ cb, wide_tile L rr_idx (cb * L)) ++
    (seq tail_start (bpr_in_blocks - tail_start) ≫= λ col_block, sse_trans_n128_one_tile_sse2 rr_idx col_block).
Definition sse_trans_n128_avx2 : stores := sse_trans_n128_wide 2.
Definition sse_trans_n128_avx512bw : stores := sse_trans_n128_wide 4.
End n128.

(** ** The target: byte [rb] of output row [c] is eight rows of input column [c] *)
Section target.
Context (inp : list N) (nrows ncols : nat).
Definition bit_at (r c : nat) : bool := N.testbit (get inp (r * (ncols / 8) + c / 8)) (N.of_nat (c mod 8)).
Definition column_byte (rb c : nat) : N := bval ((λ k, bit_at (8 * rb + k) c) <$> seq 0 8).
Definition target (o : nat) : N := column_byte (o mod (nrows / 8)) (o / (nrows / 8)).
Definition transposed : list N := target <$> seq 0 (ncols * (nrows / 8)).

Definition good_store (st : nat * list N) : Prop := ∀ k b, st.2 !! k = Some b →
  (st.1 + k < ncols * (nrows / 8))%nat ∧ b = target (st.1 + k).
Definition covers (st : stores) (o : nat) : Prop := ∃ off bs, (off, bs) ∈ st ∧ (off ≤ o < off + length bs)%nat.

Lemma lookup_store out off bs o : (off + length bs ≤ length out)%nat →
  store out off bs !! o = if decide (off ≤ o < off + length bs)%nat then bs !! (o - off)%nat else out !! o.
Proof.
  intros Hl. unfold store. destruct (decide _) as [Hin|Hout].
  - rewrite lookup_app_r by (rewrite length_take; lia). rewrite length_take, lookup_app_l by lia. f_equal. lia.
  - destruct (decide (o < off)%nat).
    + rewrite lookup_app_l by (rewrite length_take; lia). by rewrite lookup_take_lt.
    + rewrite lookup_app_r by (rewrite length_take; lia). rewrite length_take, lookup_app_r by lia.
      rewrite lookup_drop. f_equal. lia.
Qed.
Lemma length_store out off bs : (off + length bs ≤ length out)%nat → length (store out off bs) = length out.
Proof. intros Hl. unfold store. rewrite !length_app, length_take, length_drop. lia. Qed.
(** Stores that write what the target has there, and together everywhere, leave the target. *)
Lemma run_stores_ok st out : length out = (ncols * (nrows / 8))%nat → Forall good_store st →
  (∀ o, (o < ncols * (nrows / 8))%nat → covers st o ∨ out !! o = Some (target o)) →
  run_stores out st = transposed.
Proof.
  intros Hl Hg. revert out Hl. induction Hg as [|[off bs] st Hs Hg IH]; intros out Hl Hc.
  - apply list_eq. intros o. unfold transposed. rewrite list_lookup_fmap. cbn [run_stores foldl].
    destruct (decide (o < ncols * (nrows / 8))%nat) as [Ho|Ho].
    + rewrite lookup_seq_lt by done. destruct (Hc o Ho) as [(off & bs & Hin & _)|H]; [by apply not_elem_of_nil in Hin|done].
    + rewrite lookup_ge_None_2, lookup_seq_ge by lia. done.
  - cbn [run_stores foldl]. assert (bs = [] ∨ off + length bs ≤ length out)%nat as Hb.
    { destruct bs as [|x bs]; [by left|right]. destruct (lookup_lt_is_Some_2 (x :: bs) (length bs)) as [b Hb]; [cbn; lia|].
      destruct (Hs _ _ Hb) as [Hlt _]. cbn in *. lia. }
    destruct Hb as [->|Hb].
    { assert (store out off [] = out) as ->.
      { unfold store. cbn [app length]. by rewrite Nat.add_0_r, take_drop. }
      apply IH; [done|]. intros o Ho. destruct (Hc o Ho) as [(off' & bs' & Hin & Hr)|H]; [|by right].
      apply elem_of_cons in Hin as [[= -> ->]|Hin]; [cbn in Hr; lia|]. left. by exists off', bs'. }
    apply IH; [by rewrite length_store|]. intros o Ho. rewrite lookup_store by done. destruct (decide _) as [Hin|Hout].
    + right. destruct (lookup_lt_is_Some_2 bs (o - off)) as [b Hbo]; [lia|]. rewrite Hbo. f_equal.
      destruct (Hs _ _ Hbo) as [_ ->]. f_equal. cbn. lia.
    + destruct (Hc o Ho) as [(off' & bs' & Hin & Hr)|H]; [|by right].
      apply elem_of_cons in Hin as [[= -> ->]|Hin]; [done|]. left. by exists off', bs'.
Qed.

(** The two stores there are: two bytes of a column, or one. *)
Definition u16_at (ri c : nat) : stores :=
  store_u16 (c * (nrows / 8) + 2 * ri) (bval ((λ r, bit_at (16 * ri + r) c) <$> seq 0 16)).
Definition u8_at (rb c : nat) : stores := [((c * (nrows / 8) + rb)%nat, [column_byte rb c])].
Lemma target_at c rb : (rb < nrows / 8)%nat → target (c * (nrows / 8) + rb) = column_byte rb c.
Proof.
  intros Hr. unfold target. rewrite Nat.add_comm, Nat.Div0.mod_add, Nat.div_add, Nat.mod_small, Nat.div_small by lia. done.
Qed.
Lemma place c rb : (c < ncols)%nat → (rb < nrows / 8)%nat → (c * (nrows / 8) + rb < ncols * (nrows / 8))%nat.
Proof. intros Hc Hr. assert (S c * (nrows / 8) ≤ ncols * (nrows / 8))%nat by (apply Nat.mul_le_mono_r; lia). lia. Qed.
Lemma u16_bytes ri c : le_bytes 2 (bval ((λ r, bit_at (16 * ri + r) c) <$> seq 0 16)) =
  [column_byte (2 * ri) c; column_byte (2 * ri + 1) c].
Proof.
  apply unbytes_inj; [apply le_bytes_lt| |].
  { repeat constructor; unfold column_byte; (eapply N.lt_le_trans; [apply bval_lt|]); by rewrite length_fmap, length_seq. }
  rewrite unbytes_le_bytes. unfold unbytes. cbn [mbind list_bind]. rewrite app_nil_r. unfold column_byte.
  assert (∀ f : nat → bool, bits 8 (bval (f <$> seq 0 8)) = f <$> seq 0 8) as H8.
  { intros f. pose proof (bits_bval (f <$> seq 0 8)) as H. by rewrite length_fmap, length_seq in H. }
  pose proof (bits_bval ((λ r, bit_at (16 * ri + r) c) <$> seq 0 16)) as H. rewrite length_fmap, length_seq in H.
  change (8 * 2)%nat with 16%nat. rewrite H, !H8. cbn [seq fmap list_fmap app].
  repeat (apply f_equal2; [f_equal; lia|]). done.
Qed.
Lemma good_u16 ri c : (c < ncols)%nat → (2 * ri + 1 < nrows / 8)%nat → Forall good_store (u16_at ri c).
Proof.
  intros Hc Hr. unfold u16_at, store_u16. rewrite u16_bytes. constructor; [|done].
  intros [|[|k]] b; cbn [fst snd lookup list_lookup]; [intros [= <-]|intros [= <-]|done].
  - rewrite Nat.add_0_r. split; [apply place; lia|]. by rewrite target_at by lia.
  - rewrite <- Nat.add_assoc. split; [apply place; lia|]. by rewrite target_at by lia.
Qed.
Lemma good_u8 rb c : (c < ncols)%nat → (rb < nrows / 8)%nat → Forall good_store (u8_at rb c).
Proof.
  intros Hc Hr. constructor; [|done]. intros [|k] b; cbn [fst snd lookup list_lookup]; [intros [= <-]|done].
  rewrite Nat.add_0_r. split; [by apply place|]. by rewrite target_at.
Qed.
Lemma covers_u16 ri c st o : (∀ s, s ∈ u16_at ri c → s ∈ st) → (c * (nrows / 8) + 2 * ri ≤ o < c * (nrows / 8) + 2 * ri + 2)%nat →
  covers st o.
Proof. intros Hin Ho. eexists _, _. split; [by apply Hin, list_elem_of_singleton|]. by rewrite length_le_bytes. Qed.
Lemma covers_u8 rb c st o : (∀ s, s ∈ u8_at rb c → s ∈ st) → o = (c * (nrows / 8) + rb)%nat → covers st o.
Proof. intros Hin ->. eexists _, _. split; [by apply Hin, list_elem_of_singleton|]. cbn. lia. Qed.
End target.

(** ** The ladder takes a register apart, top bit first *)
Definition row (b : nat) (x : list N) : N := bval ((λ v, N.testbit v (N.of_nat b)) <$> x).
Lemma row_movemask x : movemask_epi8 x = row 7 x.
Proof. done. Qed.
Lemma length_slli x : length (slli_epi64_1 x) = 16%nat.
Proof. done. Qed.
Lemma slli_bit v w b : (b < 7)%nat →
  N.testbit (N.lor (N.land (N.shiftl v 1) 0xff) (N.shiftr w 7)) (N.of_nat (S b)) =
  N.testbit v (N.of_nat b) || N.testbit w (N.of_nat b + 8).
Proof.
  intros Hb. rewrite N.lor_spec, N.land_spec. change 0xff%N with (N.ones 8). rewrite N.ones_spec_low by lia.
  rewrite andb_true_r, N.shiftl_spec_high', N.shiftr_spec' by lia. f_equal; f_equal; lia.
Qed.
Lemma get_byte l j : Forall (λ v, v < 256)%N l → (get l j < 256)%N.
Proof. intros Hl. unfold get. destruct (l !! j) as [w|] eqn:Hw; [|done]. exact (Forall_lookup_1 _ _ _ _ Hl Hw). Qed.
Definition plane (b : nat) (x : list N) : list bool := (λ v, N.testbit v (N.of_nat b)) <$> x.
Lemma plane_slli b x : length x = 16%nat → Forall (λ v, v < 256)%N x → (b < 7)%nat → plane (S b) (slli_epi64_1 x) = plane b x.
Proof.
  intros Hl Hx Hb. unfold plane. apply list_eq. intros i. rewrite !list_lookup_fmap.
  destruct (decide (i < 16)%nat) as [Hi|Hi].
  2: { rewrite !lookup_ge_None_2; [done|lia|rewrite length_slli; lia]. }
  destruct (lookup_lt_is_Some_2 x i) as [v Hv]; [lia|]. rewrite Hv. cbn [fmap option_fmap option_map].
  assert (∀ h k, (k < 8)%nat → slli_half h !! k =
    Some (N.lor (N.land (N.shiftl (get h k) 1) 0xff) (if (k =? 0)%nat then 0 else N.shiftr (get h (k - 1)) 7))%N) as Hh.
  { intros h k Hk. unfold slli_half. by rewrite list_lookup_fmap, lookup_seq_lt. }
  assert (∀ j, get x j < 256)%N as Hg by (intros j; by apply get_byte).
  assert (∀ w, (w < 256)%N → N.testbit w (N.of_nat b + 8) = false) as Hhi by (intros w Hw; apply (testbit_above 8); [done|lia]).
  assert (get x i = v) as Hgi by (unfold get; by rewrite Hv).
  unfold slli_epi64_1. destruct (decide (i < 8)%nat) as [Hlo|Hlo].
  - rewrite lookup_app_l, Hh by done. cbn [fmap option_fmap option_map]. f_equal.
    assert (∀ j, (j < 8)%nat → get (take 8 x) j = get x j) as Ht by (intros j Hj; unfold get; by rewrite lookup_take_lt).
    rewrite Ht, Hgi by done. destruct (i =? 0)%nat; [|rewrite Ht by lia].
    + pose proof (slli_bit v 0 b Hb) as Hs. rewrite N.shiftr_0_l, N.bits_0, orb_false_r in Hs. exact Hs.
    + rewrite slli_bit, Hhi by done. by rewrite orb_false_r.
  - rewrite lookup_app_r, Hh by (change (length (slli_half (take 8 x))) with 8%nat; lia).
    change (length (slli_half (take 8 x))) with 8%nat. cbn [fmap option_fmap option_map]. f_equal.
    assert (∀ j, get (drop 8 x) j = get x (8 + j)) as Hd by (intros j; unfold get; by rewrite lookup_drop).
    rewrite !Hd. replace (8 + (i - 8))%nat with i by lia. rewrite Hgi. destruct (i - 8 =? 0)%nat.
    + pose proof (slli_bit v 0 b Hb) as Hs. rewrite N.shiftr_0_l, N.bits_0, orb_false_r in Hs. exact Hs.
    + rewrite slli_bit, Hhi by done. by rewrite orb_false_r.
Qed.
Lemma row_slli b x : length x = 16%nat → Forall (λ v, v < 256)%N x → (b < 7)%nat → row (S b) (slli_epi64_1 x) = row b x.
Proof. intros Hl Hx Hb. unfold row. f_equal. by apply plane_slli. Qed.
Lemma slli_bytes x : Forall (λ v, v < 256)%N x → Forall (λ v, v < 256)%N (slli_epi64_1 x).
Proof.
  intros Hx. assert (∀ h, Forall (λ v, v < 256)%N h → Forall (λ v, v < 256)%N (slli_half h)) as Hh.
  { intros h Hh. apply Forall_fmap, Forall_true. intros i. unfold compose.
    assert (∀ j, get h j < 256)%N as Hg by (intros j; by apply get_byte).
    apply (lor_lt _ _ 8).
    - change 0xff%N with (N.ones 8). rewrite N.land_ones. by apply N.mod_lt.
    - destruct (i =? 0)%nat; [done|]. rewrite N.shiftr_div_pow2. apply N.Div0.div_lt_upper_bound.
      pose proof (Hg (i - 1)%nat). lia. }
  apply Forall_app. split; apply Hh; [by apply Forall_take|by apply Forall_drop].
Qed.
(** [rows b] is [b-1, ..., 0]. *)
Fixpoint rows (b : nat) : list nat := match b with O => [] | S b => b :: rows b end.
Lemma elem_rows i b : i ∈ rows b ↔ (i < b)%nat.
Proof.
  induction b as [|b IH]; cbn [rows]; [split; [intros []%not_elem_of_nil|lia]|].
  rewrite elem_of_cons, IH. lia.
Qed.
Lemma bind_ext {A B} (f g : A → list B) l : (∀ x, x ∈ l → f x = g x) → l ≫= f = l ≫= g.
Proof.
  induction l as [|x l IH]; intros H; [done|]. cbn [mbind list_bind].
  rewrite (H x) by (by left). f_equal. apply IH. intros y Hy. apply H. by right.
Qed.
Lemma bind_bind {A B C} (f : A → list B) (g : B → list C) l : (l ≫= f) ≫= g = l ≫= λ x, f x ≫= g.
Proof. induction l as [|x l IH]; [done|]. cbn [mbind list_bind]. rewrite bind_app. f_equal. apply IH. Qed.
Lemma bind_seq_ext {B} (f g : nat → list B) n : (∀ i, (i < n)%nat → f i = g i) → seq 0 n ≫= f = seq 0 n ≫= g.
Proof. intros H. apply bind_ext. intros i [_ Hi]%elem_of_seq. by apply H. Qed.
Lemma ladder_from b put x : (b < 8)%nat → length x = 16%nat → Forall (λ v, v < 256)%N x →
  ladder put (S b) x = rows (S b) ≫= λ i, put i (row (i + (7 - b)) x).
Proof.
  revert x. induction b as [|b IH]; intros x Hb Hl Hx.
  - change (ladder put 1 x) with (put 0%nat (movemask_epi8 x) ++ []). cbn [rows mbind list_bind]. by rewrite row_movemask.
  - change (ladder put (S (S b)) x) with (put (S b) (movemask_epi8 x) ++ ladder put (S b) (slli_epi64_1 x)).
    change (rows (S (S b))) with (S b :: rows (S b)). rewrite bind_cons, row_movemask. replace (S b + (7 - S b))%nat with 7%nat by lia. f_equal.
    rewrite IH by (first [lia|apply length_slli|by apply slli_bytes]). apply bind_ext. intros i Hi%(elem_rows i (S b)). f_equal.
    replace (i + (7 - b))%nat with (S (i + (7 - S b))) by lia. by apply row_slli; [| |lia].
Qed.
Lemma ladder_ok put x : length x = 16%nat → Forall (λ v, v < 256)%N x → ladder put 8 x = rows 8 ≫= λ i, put i (row i x).
Proof.
  intros Hl Hx. rewrite ladder_from by (done || lia). apply bind_ext. intros i _. by rewrite Nat.sub_diag, Nat.add_0_r.
Qed.

(** ** The byte transpose *)
Lemma interleave_fmap {A B} (f : A → B) w n a b : interleave w n (f <$> a) (f <$> b) = f <$> interleave w n a b.
Proof.
  revert a b. induction n as [|n IH]; intros a b; [done|]. cbn [interleave].
  by rewrite <- !fmap_take, <- !fmap_drop, IH, !fmap_app.
Qed.
Lemma unpacklo_fmap {A B} (f : A → B) w a b : unpacklo w (f <$> a) (f <$> b) = f <$> unpacklo w a b.
Proof. unfold unpacklo. by rewrite <- !fmap_take, interleave_fmap. Qed.
Lemma unpackhi_fmap {A B} (f : A → B) w a b : unpackhi w (f <$> a) (f <$> b) = f <$> unpackhi w a b.
Proof. unfold unpackhi. by rewrite <- !fmap_drop, interleave_fmap. Qed.
(** What relates the registers of two executions relates their results. *)
Lemma trans_16x16_param {V1 V2} (R : V1 → V2 → Prop) d1 d2 lo1 hi1 lo2 hi2 m1 m2 :
  (∀ w a b a' b', R a a' → R b b' → R (lo1 w a b) (lo2 w a' b')) →
  (∀ w a b a' b', R a a' → R b b' → R (hi1 w a b) (hi2 w a' b')) →
  length m1 = 16%nat → Forall2 R m1 m2 →
  Forall2 R (trans_16x16_byte d1 lo1 hi1 m1) (trans_16x16_byte d2 lo2 hi2 m2).
Proof.
  intros Hlo Hhi Hl HR. pose proof (Forall2_length _ _ _ HR) as Hl2. rewrite Hl in Hl2.
  do 16 (destruct m1 as [|? m1]; [done|]; destruct m2 as [|? m2]; [done|]; inversion HR; subst; clear HR;
    match goal with H : Forall2 R m1 m2 |- _ => rename H into HR end).
  destruct m1; [|done]. destruct m2; [|done]. unfold trans_16x16_byte, reg.
  cbn [seq mbind list_bind app Nat.mul Nat.add lookup list_lookup default from_option id].
  repeat constructor; repeat first [apply Hlo|apply Hhi|assumption].
Qed.
(** The sixteen-by-sixteen matrix of positions is transposed; so is every matrix. *)
Lemma trans_positions : sse_trans_16x16_byte ((λ r, seq (16 * r) 16) <$> seq 0 16) = (λ j, (λ r, 16 * r + j)%nat <$> seq 0 16) <$> seq 0 16.
Proof. reflexivity. Qed.
Lemma trans_ok (f : nat → nat → N) :
  sse_trans_16x16_byte ((λ r, (λ k, f r k) <$> seq 0 16) <$> seq 0 16) = (λ j, (λ r, f r j) <$> seq 0 16) <$> seq 0 16.
Proof.
  set (g := λ p, f (p / 16) (p mod 16)).
  assert (∀ r j, (j < 16)%nat → g (16 * r + j)%nat = f r j) as Hg.
  { intros r j Hj. unfold g. f_equal; symmetry; [apply (Nat.div_unique _ _ _ j); lia|apply (Nat.mod_unique _ _ r); lia]. }
  assert (Forall2 (λ (x : list N) (p : list nat), x = g <$> p) ((λ r, (λ k, f r k) <$> seq 0 16) <$> seq 0 16) ((λ r, seq (16 * r) 16) <$> seq 0 16)) as HR.
  { apply Forall2_fmap, Forall_Forall2_diag, Forall_true. intros r. apply list_eq. intros k. rewrite !list_lookup_fmap.
    destruct (decide (k < 16)%nat); [|by rewrite !lookup_seq_ge by lia].
    rewrite !lookup_seq_lt by done. cbn. f_equal. symmetry. by apply Hg. }
  apply (trans_16x16_param _ [] [] unpacklo unpackhi unpacklo unpackhi) in HR; [| | |done].
  - fold (sse_trans_16x16_byte ((λ r, seq (16 * r) 16) <$> seq 0 16)) in HR. rewrite trans_positions in HR.
    fold (sse_trans_16x16_byte ((λ r, (λ k, f r k) <$> seq 0 16) <$> seq 0 16)) in HR. revert HR.
    generalize (sse_trans_16x16_byte ((λ r, (λ k, f r k) <$> seq 0 16) <$> seq 0 16)) as l. intros l HR.
    apply list_eq. intros j. rewrite list_lookup_fmap. destruct (decide (j < 16)%nat) as [Hj|Hj].
    + eapply Forall2_lookup_r in HR as (x & Hx & ->); [|rewrite list_lookup_fmap, lookup_seq_lt by done; reflexivity].
      rewrite Hx, lookup_seq_lt by done. cbn [fmap option_fmap option_map]. f_equal. rewrite <- list_fmap_compose.
      apply list_fmap_ext. intros r ? _. unfold compose. by apply Hg.
    + apply Forall2_length in HR. rewrite lookup_ge_None_2, lookup_seq_ge by (rewrite ?HR; cbn; lia). done.
  - intros w a b a' b' -> ->. apply unpacklo_fmap.
  - intros w a b a' b' -> ->. apply unpackhi_fmap.
Qed.

(** ** The routines as lists of those stores *)
Lemma good_bind {A} P (f : A → stores) l : (∀ x, x ∈ l → Forall P (f x)) → Forall P (l ≫= f).
Proof. intros H. apply Forall_bind, Forall_forall. exact H. Qed.
Lemma good_bind_seq P (f : nat → stores) a n : (∀ i, (a ≤ i < a + n)%nat → Forall P (f i)) → Forall P (seq a n ≫= f).
Proof. intros H. apply good_bind. intros i Hi%elem_of_seq. by apply H. Qed.
Lemma in_bind_seq (f : nat → stores) a n i s : (a ≤ i < a + n)%nat → s ∈ f i → s ∈ seq a n ≫= f.
Proof. intros Hi Hs. apply list_elem_of_bind. exists i. split; [done|]. by apply elem_of_seq. Qed.
Lemma in_bind_rows (f : nat → stores) b i s : (i < b)%nat → s ∈ f i → s ∈ rows b ≫= f.
Proof. intros Hi Hs. apply list_elem_of_bind. exists i. split; [done|]. by apply elem_rows. Qed.

Section routines.
Context (inp : list N) (Hinp : Forall (λ v, v < 256)%N inp) (nrows ncols : nat).
Context (Hr8 : (nrows mod 8 = 0)%nat) (Hc8 : (ncols mod 8 = 0)%nat).
Abbreviation u16_at := (u16_at inp nrows ncols).
Abbreviation bit_at := (bit_at inp ncols).
Lemma rows8 : nrows = (8 * (nrows / 8))%nat.
Proof. pose proof (Nat.div_mod_eq nrows 8). lia. Qed.
Lemma cols8 : ncols = (8 * (ncols / 8))%nat.
Proof. pose proof (Nat.div_mod_eq ncols 8). lia. Qed.
Lemma inp_row x : (x * ncols / 8 = x * (ncols / 8))%nat.
Proof. apply Nat.Lcm0.divide_div_mul_exact. by apply Nat.Lcm0.mod_divide. Qed.
Lemma out_row y : (y * nrows / 8 = y * (nrows / 8))%nat.
Proof. apply Nat.Lcm0.divide_div_mul_exact. by apply Nat.Lcm0.mod_divide. Qed.
Lemma div16 : (nrows / 16 = nrows / 8 / 2)%nat.
Proof. by rewrite Nat.Div0.div_div. Qed.
Lemma bit_at_col r q b : (b < 8)%nat → bit_at r (8 * q + b) = N.testbit (get inp (r * (ncols / 8) + q)) (N.of_nat b).
Proof.
  clear Hr8 Hc8. intros Hb. unfold bit_at. rewrite <- (Nat.div_unique (8 * q + b) 8 q b), <- (Nat.mod_unique (8 * q + b) 8 q b) by lia. done.
Qed.
(** A column of sixteen bytes taken apart. *)
Lemma ladder_column put ri q :
  ladder put 8 ((λ r, get inp ((16 * ri + r) * (ncols / 8) + q)) <$> seq 0 16) =
  rows 8 ≫= λ b, put b (bval ((λ r, bit_at (16 * ri + r) (8 * q + b)) <$> seq 0 16)).
Proof.
  rewrite ladder_ok; [|done|apply Forall_fmap, Forall_true; intros r; by apply get_byte].
  apply bind_ext. intros b Hb%(elem_rows b 8). f_equal. unfold row. f_equal. rewrite <- list_fmap_compose.
  apply list_fmap_ext. intros r ? _. unfold compose. by rewrite bit_at_col.
Qed.
Lemma put_u16 ri c off : off = (c * (nrows / 8) + 2 * ri)%nat →
  store_u16 off (bval ((λ r, bit_at (16 * ri + r) c) <$> seq 0 16)) = u16_at ri c.
Proof. by intros ->. Qed.
Lemma two_ri ri : (16 * ri / 8 = 2 * ri)%nat.
Proof. replace (16 * ri)%nat with (2 * ri * 8)%nat by lia. by rewrite Nat.div_mul. Qed.

Lemma fast_path_ok : fast_path inp nrows ncols =
  seq 0 (nrows / 16) ≫= λ ri, seq 0 (ncols / 8 / 16) ≫= λ ci, seq 0 16 ≫= λ j, rows 8 ≫= λ b, u16_at ri (8 * (16 * ci + j) + b).
Proof.
  unfold fast_path. apply bind_seq_ext. intros ri _. apply bind_seq_ext. intros ci _. cbv zeta.
  assert ((λ r, loadu inp ((16 * ri + r) * (ncols / 8) + 16 * ci)) <$> seq 0 16 =
    (λ r, (λ k, get inp ((16 * ri + r) * (ncols / 8) + (16 * ci + k))) <$> seq 0 16) <$> seq 0 16) as ->.
  { apply list_fmap_ext. intros r ? _. unfold loadu. apply list_fmap_ext. intros k ? _. f_equal. lia. }
  rewrite (trans_ok (λ r k, get inp ((16 * ri + r) * (ncols / 8) + (16 * ci + k)))).
  apply bind_seq_ext. intros j Hj. unfold reg. rewrite list_lookup_fmap, lookup_seq_lt by done.
  cbn [fmap option_fmap option_map default from_option id]. rewrite Nat.add_0_l, ladder_column.
  apply bind_ext. intros b _. apply put_u16. rewrite two_ri. lia.
Qed.
Lemma strip_ok ri ci : strip inp nrows ncols (16 * ri) (8 * ci) = rows 8 ≫= λ b, u16_at ri (8 * ci + b).
Proof.
  unfold strip. assert ((λ r, INP inp ncols (16 * ri + r) (8 * ci)) <$> seq 0 16 =
    (λ r, get inp ((16 * ri + r) * (ncols / 8) + ci)) <$> seq 0 16) as ->.
  { apply list_fmap_ext. intros r ? _. unfold INP. f_equal. rewrite inp_row. rewrite (Nat.mul_comm 8 ci), Nat.div_mul by done. done. }
  rewrite ladder_column. apply bind_ext. intros b _. apply put_u16. unfold OUT. by rewrite out_row, two_ri.
Qed.
(** The last eight rows. *)
Abbreviation u8_last := (u8_at inp nrows ncols (2 * (nrows / 16))).
Lemma bval8_lt (f : nat → bool) : (bval (f <$> seq 0 8) < 2 ^ 8)%N.
Proof. pose proof (bval_lt (f <$> seq 0 8)) as H. by rewrite length_fmap, length_seq in H. Qed.
Lemma byte_of_ladder n (f : nat → bool) rest : (n ≤ 8)%nat → n = 8%nat → N.land (bval ((f <$> seq 0 n) ++ rest)) 0xff = bval (f <$> seq 0 n).
Proof.
  intros _ ->. change 0xff%N with (N.ones 8). rewrite N.land_ones, bval_app.
  change (pow2 (length (f <$> seq 0 8))) with (2 ^ 8)%N. rewrite N.mul_comm, N.Div0.mod_add. apply N.mod_small, bval8_lt.
Qed.
Lemma second_of_ladder (f g : nat → bool) :
  N.land (N.shiftr (bval ((f <$> seq 0 8) ++ (g <$> seq 0 8))) 8) 0xff = bval (g <$> seq 0 8).
Proof.
  change 0xff%N with (N.ones 8). rewrite N.land_ones, N.shiftr_div_pow2, bval_app.
  change (pow2 (length (f <$> seq 0 8))) with (2 ^ 8)%N. rewrite N.mul_comm, N.div_add by done.
  rewrite (N.div_small (bval (f <$> seq 0 8))) by apply bval8_lt. apply N.mod_small, bval8_lt.
Qed.
Lemma rr_div : (16 * (nrows / 16) / 8 = 2 * (nrows / 16))%nat.
Proof. apply two_ri. Qed.
Lemma column_last c q b : c = (8 * q + b)%nat → (b < 8)%nat →
  bval ((λ i, N.testbit (get inp ((16 * (nrows / 16) + i) * (ncols / 8) + q)) (N.of_nat b)) <$> seq 0 8) =
  column_byte inp ncols (2 * (nrows / 16)) c.
Proof.
  intros -> Hb. unfold column_byte. f_equal. apply list_fmap_ext. intros i ? _. rewrite bit_at_col by done.
  do 2 f_equal. lia.
Qed.
Lemma pair_8x8_ok ci : pair_8x8 inp nrows ncols (16 * (nrows / 16)) (16 * ci) =
  rows 8 ≫= λ b, u8_last (16 * ci + b) ++ u8_last (16 * ci + b + 8).
Proof.
  unfold pair_8x8. set (rr := (16 * (nrows / 16))%nat).
  assert (∀ i, load_u16 inp ncols rr (16 * ci) i =
    get inp ((rr + i) * (ncols / 8) + 2 * ci) + 256 * get inp ((rr + i) * (ncols / 8) + (2 * ci + 1)))%N as Hh.
  { intros i. unfold load_u16. rewrite inp_row, two_ri. do 2 f_equal. f_equal. lia. }
  assert (∀ i, N.land (load_u16 inp ncols rr (16 * ci) i) 0xff = get inp ((rr + i) * (ncols / 8) + 2 * ci) ∧
    N.land (N.shiftr (load_u16 inp ncols rr (16 * ci) i) 8) 0xff = get inp ((rr + i) * (ncols / 8) + (2 * ci + 1)))%N as Hb.
  { intros i. rewrite Hh. change 0xff%N with (N.ones 8). rewrite !N.land_ones, N.shiftr_div_pow2. change (2 ^ 8)%N with 256%N.
    pose proof (get_byte inp ((rr + i) * (ncols / 8) + 2 * ci) Hinp). pose proof (get_byte inp ((rr + i) * (ncols / 8) + (2 * ci + 1)) Hinp).
    rewrite (N.mul_comm 256), N.Div0.mod_add, N.div_add, (N.div_small (get inp _)), N.add_0_l, !N.mod_small by done. done. }
  assert (∀ f g : nat → N, (∀ i, f i = g i) → f <$> seq 0 8 = g <$> seq 0 8) as He.
  { intros f g Hfg. apply list_fmap_ext. intros i ? _. apply Hfg. }
  rewrite (He _ _ (λ i, proj1 (Hb i))), (He _ _ (λ i, proj2 (Hb i))).
  rewrite ladder_ok; [|done|apply Forall_app; split; apply Forall_fmap, Forall_true; intros i; by apply get_byte].
  apply bind_ext. intros b Hlt%(elem_rows b 8). unfold row. rewrite fmap_app, <- !list_fmap_compose. unfold compose, put_pair.
  rewrite byte_of_ladder, second_of_ladder by done. unfold u8_at, OUT. rewrite !out_row. unfold rr. rewrite rr_div. cbn [app].
  by rewrite (column_last (16 * ci + b) (2 * ci) b), (column_last (16 * ci + b + 8) (2 * ci + 1) b) by lia.
Qed.
Lemma last_8x8_ok junk ci : Forall (λ v, v < 256)%N junk → length junk = 8%nat →
  last_8x8 inp nrows ncols junk (16 * (nrows / 16)) (16 * ci) = rows 8 ≫= λ b, u8_last (16 * ci + b).
Proof.
  intros Hj Hl. unfold last_8x8. set (rr := (16 * (nrows / 16))%nat).
  assert ((λ i, INP inp ncols (rr + i) (16 * ci)) <$> seq 0 8 = (λ i, get inp ((rr + i) * (ncols / 8) + 2 * ci)) <$> seq 0 8) as ->.
  { apply list_fmap_ext. intros i ? _. unfold INP. by rewrite inp_row, two_ri. }
  rewrite take_ge by lia.
  rewrite ladder_ok; [|by rewrite length_app, Hl|apply Forall_app; split; [|done]; apply Forall_fmap, Forall_true; intros i; by apply get_byte].
  apply bind_ext. intros b Hlt%(elem_rows b 8). unfold row. rewrite fmap_app, <- !list_fmap_compose. unfold compose.
  rewrite byte_of_ladder by done. unfold u8_at, OUT. rewrite out_row. unfold rr. rewrite rr_div.
  by rewrite (column_last (16 * ci + b) (2 * ci) b) by lia.
Qed.
(** Where output byte [o] is: in row [c], and there byte [rb]. *)
Lemma output_byte o : (o < ncols * (nrows / 8))%nat → ∃ c rb,
  (c < ncols)%nat ∧ (rb < nrows / 8)%nat ∧ o = (c * (nrows / 8) + rb)%nat.
Proof.
  intros Ho. assert (nrows / 8 ≠ 0)%nat by (intros H; rewrite H in Ho; lia).
  exists (o / (nrows / 8))%nat, (o mod (nrows / 8))%nat. split; [apply Nat.Div0.div_lt_upper_bound; lia|].
  split; [by apply Nat.mod_upper_bound|]. pose proof (Nat.div_mod_eq o (nrows / 8)). lia.
Qed.
Lemma good_bits ri q : (8 * q + 7 < ncols)%nat → (2 * ri + 1 < nrows / 8)%nat →
  Forall (good_store inp nrows ncols) (rows 8 ≫= λ b, u16_at ri (8 * q + b)).
Proof. intros Hq Hr. apply good_bind. intros b Hb%(elem_rows b 8). apply good_u16; lia. Qed.
Lemma strips_in ri : (ri < nrows / 16)%nat → (2 * ri + 1 < nrows / 8)%nat.
Proof. rewrite div16. intros H. pose proof (Nat.div_mod_eq (nrows / 8) 2). lia. Qed.
Lemma fast_good : (ncols / 8 mod 16 = 0)%nat → Forall (good_store inp nrows ncols) (fast_path inp nrows ncols).
Proof.
  intros H16. rewrite fast_path_ok. apply good_bind_seq. intros ri Hri. apply good_bind_seq. intros ci Hci.
  apply good_bind_seq. intros j Hj. apply good_bits; [|apply strips_in; lia].
  pose proof cols8. pose proof (Nat.div_mod_eq (ncols / 8) 16). lia.
Qed.
Lemma fast_covers o : (nrows mod 16 = 0)%nat → (ncols / 8 mod 16 = 0)%nat → (o < ncols * (nrows / 8))%nat →
  covers (fast_path inp nrows ncols) o.
Proof.
  intros Hr H16 (c & rb & Hc & Hrb & ->)%output_byte.
  assert (c = 8 * (16 * (c / 8 / 16) + c / 8 mod 16) + c mod 8)%nat as Hce
    by (pose proof (Nat.div_mod_eq c 8); pose proof (Nat.div_mod_eq (c / 8) 16); lia).
  pose proof cols8. pose proof (Nat.div_mod_eq (ncols / 8) 16). pose proof (Nat.div_mod_eq rb 2).
  pose proof (Nat.mod_upper_bound (c / 8) 16). pose proof (Nat.mod_upper_bound c 8). pose proof (Nat.mod_upper_bound rb 2).
  pose proof (Nat.div_mod_eq nrows 16). pose proof rows8.
  apply (covers_u16 inp nrows ncols (rb / 2) c); [|lia]. intros s Hs. rewrite fast_path_ok.
  apply (in_bind_seq _ _ _ (rb / 2)); [lia|]. apply (in_bind_seq _ _ _ (c / 8 / 16)); [lia|].
  apply (in_bind_seq _ _ _ (c / 8 mod 16)); [lia|]. apply (in_bind_rows _ _ (c mod 8)); [lia|]. by rewrite <- Hce.
Qed.
Lemma main_body_ok : main_body inp nrows ncols =
  seq 0 (nrows / 16) ≫= λ ri, seq 0 (ncols / 8) ≫= λ ci, rows 8 ≫= λ b, u16_at ri (8 * ci + b).
Proof. apply bind_seq_ext. intros ri _. apply bind_seq_ext. intros ci _. apply strip_ok. Qed.
Lemma main_good : Forall (good_store inp nrows ncols) (main_body inp nrows ncols).
Proof.
  rewrite main_body_ok. apply good_bind_seq. intros ri Hri. apply good_bind_seq. intros ci Hci.
  apply good_bits; [pose proof cols8; lia|apply strips_in; lia].
Qed.
Lemma main_covers c rb : (c < ncols)%nat → (rb < 2 * (nrows / 16))%nat →
  covers (main_body inp nrows ncols) (c * (nrows / 8) + rb).
Proof.
  intros Hc Hrb. pose proof cols8. pose proof (Nat.div_mod_eq c 8). pose proof (Nat.mod_upper_bound c 8).
  pose proof (Nat.div_mod_eq rb 2). pose proof (Nat.mod_upper_bound rb 2).
  apply (covers_u16 inp nrows ncols (rb / 2) c); [|lia]. intros s Hs. rewrite main_body_ok.
  apply (in_bind_seq _ _ _ (rb / 2)); [lia|]. apply (in_bind_seq _ _ _ (c / 8)); [lia|].
  apply (in_bind_rows _ _ (c mod 8)); [lia|]. by replace (8 * (c / 8) + c mod 8)%nat with c by lia.
Qed.
(** The remainder: it is there exactly when the rows are an odd number of bytes, and
    its pairs are always taken by the first of the two branches. *)
Lemma odd_rows : (16 * (nrows / 16))%nat ≠ nrows → (nrows / 8 = 2 * (nrows / 16) + 1)%nat ∧ scalar_pairs nrows ncols = true.
Proof.
  intros H. pose proof (Nat.div_mod_eq nrows 16). pose proof (Nat.mod_upper_bound nrows 16). pose proof rows8. split; [lia|].
  unfold scalar_pairs. rewrite Hr8. replace (nrows mod 16 =? 0)%nat with false; [apply orb_true_r|].
  symmetry. apply Nat.eqb_neq. lia.
Qed.
Lemma even_rows : (16 * (nrows / 16))%nat = nrows → (nrows / 8 = 2 * (nrows / 16))%nat.
Proof. pose proof rows8. lia. Qed.
Definition last_columns : list nat :=
  (seq 0 (ncols / 16) ≫= λ ci, rows 8 ≫= λ b, [16 * ci + b; 16 * ci + b + 8]%nat) ++
  (if (16 * (ncols / 16) =? ncols)%nat then [] else (λ b, 16 * (ncols / 16) + b)%nat <$> rows 8).
Lemma remainder_ok junk : (16 * (nrows / 16))%nat ≠ nrows → Forall (λ v, v < 256)%N junk → length junk = 8%nat →
  remainder inp nrows ncols junk = last_columns ≫= u8_last.
Proof.
  intros H Hj Hl. unfold remainder. rewrite (proj2 (Nat.eqb_neq _ _) H), (proj2 (odd_rows H)).
  unfold last_columns. rewrite bind_app. f_equal.
  - rewrite bind_bind. apply bind_seq_ext. intros ci _. rewrite pair_8x8_ok, bind_bind. by apply bind_ext.
  - destruct (_ =? ncols)%nat; [done|]. rewrite last_8x8_ok by done.
    by rewrite list_fmap_bind.
Qed.
Lemma in_last_columns c : c ∈ last_columns ↔ (c < ncols)%nat.
Proof.
  pose proof cols8. pose proof (Nat.div_mod_eq ncols 16). pose proof (Nat.mod_upper_bound ncols 16).
  unfold last_columns. rewrite elem_of_app. split.
  - intros [(ci & (b & Hc & Hb%(elem_rows b 8))%list_elem_of_bind & [_ Hci]%elem_of_seq)%list_elem_of_bind|Hc].
    + apply elem_of_cons in Hc as [->|Hc%list_elem_of_singleton]; lia.
    + destruct (Nat.eqb_spec (16 * (ncols / 16)) ncols); [by apply not_elem_of_nil in Hc|].
      apply list_elem_of_fmap in Hc as (b & -> & Hb%(elem_rows b 8)). lia.
  - intros Hc. pose proof (Nat.div_mod_eq c 16). pose proof (Nat.mod_upper_bound c 16).
    destruct (decide (c < 16 * (ncols / 16))%nat) as [Hp|Hp].
    + left. apply list_elem_of_bind. exists (c / 16)%nat. split; [|apply elem_of_seq; lia].
      apply list_elem_of_bind. exists (c mod 8)%nat. pose proof (Nat.div_mod_eq c 8). pose proof (Nat.mod_upper_bound c 8).
      split; [|apply elem_rows; lia]. rewrite elem_of_cons, list_elem_of_singleton. lia.
    + right. destruct (Nat.eqb_spec (16 * (ncols / 16)) ncols); [lia|].
      apply list_elem_of_fmap. exists (c - 16 * (ncols / 16))%nat. split; [lia|]. apply elem_rows. lia.
Qed.
Lemma generic_good junk : Forall (λ v, v < 256)%N junk → length junk = 8%nat →
  Forall (good_store inp nrows ncols) (main_body inp nrows ncols ++ remainder inp nrows ncols junk).
Proof.
  intros Hj Hl. apply Forall_app. split; [apply main_good|].
  destruct (decide (16 * (nrows / 16) = nrows)%nat) as [He|He].
  - unfold remainder. by rewrite (proj2 (Nat.eqb_eq _ _) He).
  - rewrite remainder_ok by done. apply good_bind. intros c Hc%in_last_columns. apply good_u8; [done|].
    pose proof (proj1 (odd_rows He)). lia.
Qed.
Lemma generic_covers junk o : Forall (λ v, v < 256)%N junk → length junk = 8%nat → (o < ncols * (nrows / 8))%nat →
  covers (main_body inp nrows ncols ++ remainder inp nrows ncols junk) o.
Proof.
  intros Hj Hl (c & rb & Hc & Hrb & ->)%output_byte.
  destruct (decide (rb < 2 * (nrows / 16))%nat) as [Hm|Hm].
  - destruct (main_covers c rb Hc Hm) as (off & bs & Hin & Hr). exists off, bs. split; [|done]. apply elem_of_app. by left.
  - destruct (decide (16 * (nrows / 16) = nrows)%nat) as [He|He]; [pose proof (even_rows He); lia|].
    apply (covers_u8 inp nrows ncols (2 * (nrows / 16)) c); [|pose proof (proj1 (odd_rows He)); lia].
    intros s Hs. apply elem_of_app. right. rewrite remainder_ok by done. apply list_elem_of_bind. exists c.
    split; [done|]. by apply in_last_columns.
Qed.
Lemma sse_trans_ok junk out : Forall (λ v, v < 256)%N junk → length junk = 8%nat → length out = (ncols * (nrows / 8))%nat →
  sse_trans inp nrows ncols junk out = Ret (transposed inp nrows ncols).
Proof.
  intros Hj Hl Ho. unfold sse_trans. rewrite Hr8, Hc8.
  cbn [Nat.eqb andb expecting mbind outcome_bind].
  destruct ((nrows mod 16 =? 0)%nat && (ncols mod 128 =? 0)%nat) eqn:Hf.
  - apply andb_true_iff in Hf as [H16%Nat.eqb_eq H128%Nat.eqb_eq].
    assert (ncols / 8 mod 16 = 0)%nat as Hb.
    { pose proof (Nat.div_mod_eq ncols 128). pose proof cols8.
      symmetry. apply (Nat.mod_unique _ _ (ncols / 128)); lia. }
    f_equal. apply run_stores_ok; [done|by apply fast_good|]. intros o Hlt. left. by apply fast_covers.
  - f_equal. apply run_stores_ok; [done|by apply generic_good|]. intros o Hlt. left. by apply generic_covers.
Qed.
End routines.

(** ** Wide registers: what each lane does *)
Abbreviation xmm x := (length x = 16%nat ∧ Forall (λ v, v < 256)%N x).
Lemma plane_flatten b (x : list (list N)) : plane b (flatten x) = flatten (plane b <$> x).
Proof.
  induction x as [|y x IH]; [done|]. rewrite flatten_cons. unfold plane at 1. rewrite fmap_app.
  rewrite fmap_cons, flatten_cons. f_equal. exact IH.
Qed.
Lemma wide_ladder_from b put x : (b < 8)%nat → Forall (λ y, xmm y) x →
  wide_ladder put (S b) x = rows (S b) ≫= λ i, put i (row (i + (7 - b)) (flatten x)).
Proof.
  revert x. induction b as [|b IH]; intros x Hb Hx.
  - change (wide_ladder put 1 x) with (put 0%nat (wide_movemask x) ++ []). by cbn [rows mbind list_bind].
  - change (wide_ladder put (S (S b)) x) with (put (S b) (wide_movemask x) ++ wide_ladder put (S b) (slli_epi64_1 <$> x)).
    change (rows (S (S b))) with (S b :: rows (S b)). rewrite bind_cons. replace (S b + (7 - S b))%nat with 7%nat by lia. f_equal.
    rewrite IH by (first [lia|apply Forall_fmap; eapply Forall_impl; [exact Hx|]; intros y [Hl Hy]; split; [apply length_slli|by apply slli_bytes]]).
    apply bind_ext. intros i Hi%(elem_rows i (S b)). f_equal.
    replace (i + (7 - b))%nat with (S (i + (7 - S b))) by lia. unfold row. f_equal.
    fold (plane (S (i + (7 - S b))) (flatten (slli_epi64_1 <$> x))) (plane (i + (7 - S b)) (flatten x)).
    rewrite !plane_flatten, <- list_fmap_compose. f_equal. apply Forall_fmap_ext_1. eapply Forall_impl; [exact Hx|].
    intros y [Hl Hy]. apply plane_slli; [done..|lia].
Qed.
Lemma flatten_chunk {A} n (ls : list (list A)) l y : Forall (λ x, length x = n) ls → ls !! l = Some y →
  take n (drop (n * l) (flatten ls)) = y.
Proof.
  intros H. revert l. induction H as [|x ls Hx H IH]; intros l; [done|]. rewrite flatten_cons. destruct l as [|l].
  - intros [= ->]. by rewrite Nat.mul_0_r, drop_0, take_app_length'.
  - intros Hl. replace (n * S l)%nat with (length x + n * l)%nat by lia. rewrite drop_app_add. by apply IH.
Qed.
(** Sixteen bits of the mask are the row of one lane. *)
Lemma wide_row b x l y : Forall (λ y, xmm y) x → x !! l = Some y →
  N.land (N.shiftr (row b (flatten x)) (16 * N.of_nat l)) 0xffff = row b y.
Proof.
  intros Hx Hl. unfold row. fold (plane b (flatten x)) (plane b y). rewrite plane_flatten.
  change 0xffff%N with (N.ones 16). rewrite N.land_ones, N.shiftr_div_pow2.
  replace (16 * N.of_nat l)%N with (N.of_nat (16 * l)) by lia. fold (pow2 (16 * l)). rewrite <- bval_drop.
  change (2 ^ 16)%N with (pow2 16). rewrite <- bval_take. f_equal. apply flatten_chunk.
  - apply Forall_fmap. eapply Forall_impl; [exact Hx|]. intros z [Hz _]. unfold plane, compose. by rewrite length_fmap.
  - by rewrite list_lookup_fmap, Hl.
Qed.
(** Every lane is transposed as a register of sixteen bytes is. *)
Lemma wide_trans_ok L (f : nat → nat → nat → N) : (0 < L)%nat →
  wide_trans_16x16_byte ((λ r, (λ l, (λ k, f l r k) <$> seq 0 16) <$> seq 0 L) <$> seq 0 16) =
  (λ j, (λ l, (λ r, f l r j) <$> seq 0 16) <$> seq 0 L) <$> seq 0 16.
Proof.
  intros HL. set (m := (λ r, (λ l, (λ k, f l r k) <$> seq 0 16) <$> seq 0 L) <$> seq 0 16).
  assert (∀ l, (l < L)%nat → Forall2 (λ (x : list (list N)) (y : list N), length x = L ∧ x !! l = Some y) (wide_trans_16x16_byte m)
    ((λ j, (λ r, f l r j) <$> seq 0 16) <$> seq 0 16)) as H.
  { intros l Hl. rewrite <- trans_ok. unfold wide_trans_16x16_byte, sse_trans_16x16_byte. apply trans_16x16_param; [| |done|].
    - intros w a b a' b' [Ha Hla] [Hb Hlb]. split; [rewrite length_zip_with; lia|]. by rewrite lookup_zip_with, Hla, Hlb.
    - intros w a b a' b' [Ha Hla] [Hb Hlb]. split; [rewrite length_zip_with; lia|]. by rewrite lookup_zip_with, Hla, Hlb.
    - apply Forall2_fmap, Forall_Forall2_diag, Forall_true. intros r.
      split; [by rewrite length_fmap, length_seq|]. by rewrite list_lookup_fmap, lookup_seq_lt. }
  pose proof (Forall2_length _ _ _ (H 0%nat HL)) as Hlen. rewrite length_fmap, length_seq in Hlen.
  apply list_eq. intros j. destruct (decide (j < 16)%nat) as [Hj|Hj].
  2: { rewrite !lookup_ge_None_2; [done|rewrite length_fmap, length_seq|]; lia. }
  destruct (lookup_lt_is_Some_2 (wide_trans_16x16_byte m) j) as [x Hx]; [lia|]. rewrite Hx, list_lookup_fmap, lookup_seq_lt by done.
  cbn [fmap option_fmap option_map]. f_equal. apply list_eq. intros l. rewrite list_lookup_fmap.
  assert (∀ l, (l < L)%nat → length x = L ∧ x !! l = Some ((λ r, f l r j) <$> seq 0 16)) as Hj'.
  { intros l' Hl'. destruct (Forall2_lookup_l _ _ _ _ _ (H l' Hl') Hx) as (y & Hy & Hn & Hy').
    rewrite list_lookup_fmap, lookup_seq_lt in Hy by done. injection Hy as <-. done. }
  destruct (decide (l < L)%nat) as [Hl|Hl].
  - rewrite lookup_seq_lt by done. by apply Hj'.
  - rewrite lookup_seq_ge, lookup_ge_None_2 by (rewrite ?(proj1 (Hj' 0%nat HL)); lia). done.
Qed.

(** ** The kernels for 128 rows *)
Section n128_ok.
Context (inp : list N) (Hinp : Forall (λ v, v < 256)%N inp) (ncols : nat) (Hc128 : (ncols mod 128 = 0)%nat).
Lemma blocks_cols : ncols = (128 * bpr_in_blocks ncols)%nat.
Proof. unfold bpr_in_blocks. pose proof (Nat.div_mod_eq ncols 128). lia. Qed.
Lemma bytes_blocks : (ncols / 8 = 16 * bpr_in_blocks ncols)%nat.
Proof. rewrite blocks_cols at 1. replace (128 * bpr_in_blocks ncols)%nat with (16 * bpr_in_blocks ncols * 8)%nat by lia. by rewrite Nat.div_mul. Qed.
Lemma cols_mod8 : (ncols mod 8 = 0)%nat.
Proof. rewrite blocks_cols. replace (128 * bpr_in_blocks ncols)%nat with (0 + 16 * bpr_in_blocks ncols * 8)%nat by lia. by rewrite Nat.Div0.mod_add. Qed.
Lemma load_block_ok r t : load_block inp (r * bpr_in_blocks ncols + t) = (λ k, get inp (r * (ncols / 8) + (16 * t + k))) <$> seq 0 16.
Proof. unfold load_block. rewrite bytes_blocks. apply list_fmap_ext. intros k ? _. f_equal. lia. Qed.
Lemma put_row_ok ri c b : put_row ri (8 * c) b (bval ((λ r, bit_at inp ncols (16 * ri + r) (8 * c + b)) <$> seq 0 16)) =
  u16_at inp 128 ncols ri (8 * c + b).
Proof. unfold put_row, u16_at. f_equal. change (128 / 8)%nat with 16%nat. lia. Qed.
Lemma one_tile_ok ri t : sse_trans_n128_one_tile_sse2 inp ncols ri t =
  seq 0 16 ≫= λ j, rows 8 ≫= λ b, u16_at inp 128 ncols ri (8 * (16 * t + j) + b).
Proof.
  unfold sse_trans_n128_one_tile_sse2. cbv zeta.
  rewrite (list_fmap_ext _ (λ r, (λ k, get inp ((16 * ri + r) * (ncols / 8) + (16 * t + k))) <$> seq 0 16))
    by (intros r ? _; apply load_block_ok).
  rewrite (trans_ok (λ r k, get inp ((16 * ri + r) * (ncols / 8) + (16 * t + k)))).
  apply bind_seq_ext. intros j Hj. unfold reg. rewrite list_lookup_fmap, lookup_seq_lt by done.
  cbn [fmap option_fmap option_map default from_option id]. rewrite Nat.add_0_l, (ladder_column inp Hinp ncols) by exact cols_mod8.
  apply bind_ext. intros b _. rewrite <- put_row_ok. f_equal. lia.
Qed.
Lemma wide_tile_ok L ri t : (0 < L)%nat → wide_tile inp ncols L ri t =
  seq 0 16 ≫= λ j, rows 8 ≫= λ b, seq 0 L ≫= λ l, u16_at inp 128 ncols ri (8 * (16 * (t + l) + j) + b).
Proof.
  intros HL. unfold wide_tile. cbv zeta.
  set (F := λ l r k, get inp ((16 * ri + r) * (ncols / 8) + (16 * (t + l) + k))).
  assert ((λ r, (λ l, load_block inp ((16 * ri + r) * bpr_in_blocks ncols + t + l)) <$> seq 0 L) <$> seq 0 16 =
    (λ r, (λ l, (λ k, F l r k) <$> seq 0 16) <$> seq 0 L) <$> seq 0 16) as ->.
  { apply list_fmap_ext. intros r ? _. apply list_fmap_ext. intros l ? _. rewrite <- Nat.add_assoc. apply load_block_ok. }
  rewrite wide_trans_ok by done. apply bind_seq_ext. intros j Hj. unfold reg. rewrite list_lookup_fmap, lookup_seq_lt by done.
  cbn [fmap option_fmap option_map default from_option id]. rewrite Nat.add_0_l.
  assert (Forall (λ y, xmm y) ((λ l, (λ r, F l r j) <$> seq 0 16) <$> seq 0 L)) as Hx.
  { apply Forall_fmap, Forall_true. intros l. split; [done|]. apply Forall_fmap, Forall_true. intros r. by apply get_byte. }
  rewrite wide_ladder_from by (done || lia). apply bind_ext. intros b Hb%(elem_rows b 8). apply bind_seq_ext. intros l Hl.
  rewrite Nat.sub_diag, Nat.add_0_r, (wide_row _ _ l ((λ r, F l r j) <$> seq 0 16)) by (done || by rewrite list_lookup_fmap, lookup_seq_lt).
  rewrite <- put_row_ok. unfold F, row. rewrite (Nat.mul_comm _ 8). do 2 f_equal; [f_equal; lia|].
  rewrite <- list_fmap_compose. apply list_fmap_ext. intros r ? _. unfold compose.
  symmetry. by apply bit_at_col.
Qed.

(** Whatever order the pairs of output bytes come in, all of them make the matrix. *)
Lemma u16_cover st out : length out = (ncols * 16)%nat → Forall (good_store inp 128 ncols) st →
  (∀ ri t j b, (ri < 8)%nat → (t < bpr_in_blocks ncols)%nat → (j < 16)%nat → (b < 8)%nat →
    ∀ s, s ∈ u16_at inp 128 ncols ri (8 * (16 * t + j) + b) → s ∈ st) →
  run_stores out st = transposed inp 128 ncols.
Proof.
  intros Ho Hg Hc. apply run_stores_ok; [done|done|]. intros o Ho'. left.
  destruct (output_byte 128 ncols eq_refl cols_mod8 o Ho') as (c & rb & Hcl & Hrb & ->).
  change (128 / 8)%nat with 16%nat in *. pose proof blocks_cols.
  pose proof (Nat.div_mod_eq c 8). pose proof (Nat.mod_upper_bound c 8). pose proof (Nat.div_mod_eq rb 2). pose proof (Nat.mod_upper_bound rb 2).
  pose proof (Nat.div_mod_eq (c / 8) 16). pose proof (Nat.mod_upper_bound (c / 8) 16).
  apply (covers_u16 inp 128 ncols (rb / 2) c); [|change (128 / 8)%nat with 16%nat; lia]. intros s Hs.
  apply (Hc (rb / 2) (c / 8 / 16) (c / 8 mod 16) (c mod 8))%nat; [lia..|].
  by replace (8 * (16 * (c / 8 / 16) + c / 8 mod 16) + c mod 8)%nat with c by lia.
Qed.
Lemma good_n128 ri t j b : (ri < 8)%nat → (t < bpr_in_blocks ncols)%nat → (j < 16)%nat → (b < 8)%nat →
  Forall (good_store inp 128 ncols) (u16_at inp 128 ncols ri (8 * (16 * t + j) + b)).
Proof. intros. pose proof blocks_cols. apply good_u16; [lia|change (128 / 8)%nat with 16%nat; lia]. Qed.
Lemma one_tile_good ri t : (ri < 8)%nat → (t < bpr_in_blocks ncols)%nat →
  Forall (good_store inp 128 ncols) (sse_trans_n128_one_tile_sse2 inp ncols ri t).
Proof.
  intros Hri Ht. rewrite one_tile_ok. apply good_bind_seq. intros j Hj. apply good_bind. intros b Hb%(elem_rows b 8).
  apply good_n128; lia.
Qed.
Lemma one_tile_in ri t j b s : (j < 16)%nat → (b < 8)%nat → s ∈ u16_at inp 128 ncols ri (8 * (16 * t + j) + b) →
  s ∈ sse_trans_n128_one_tile_sse2 inp ncols ri t.
Proof. intros Hj Hb Hs. rewrite one_tile_ok. apply (in_bind_seq _ _ _ j); [lia|]. by apply (in_bind_rows _ _ b). Qed.
Lemma n128_sse2_ok out : length out = (ncols * 16)%nat →
  run_stores out (sse_trans_n128_sse2 inp ncols) = transposed inp 128 ncols.
Proof.
  intros Ho. unfold sse_trans_n128_sse2. apply u16_cover; [done| |].
  - apply good_bind_seq. intros ri Hri. apply good_bind_seq. intros t Ht. apply one_tile_good; lia.
  - intros ri t j b Hri Ht Hj Hb s Hs. apply (in_bind_seq _ _ _ ri); [lia|]. apply (in_bind_seq _ _ _ t); [lia|].
    by apply (one_tile_in _ _ j b).
Qed.
Lemma n128_wide_ok L out : (0 < L)%nat → length out = (ncols * 16)%nat →
  run_stores out (sse_trans_n128_wide inp ncols L) = transposed inp 128 ncols.
Proof.
  intros HL Ho. unfold sse_trans_n128_wide. cbv zeta. set (n := bpr_in_blocks ncols).
  pose proof (Nat.div_mod_eq n L) as Hn. pose proof (Nat.mod_upper_bound n L ltac:(lia)) as Hm.
  apply u16_cover; [done| |].
  - apply good_bind_seq. intros ri Hri. apply Forall_app. split; apply good_bind_seq; intros t Ht.
    + rewrite wide_tile_ok by done. apply good_bind_seq. intros j Hj. apply good_bind. intros b Hb%(elem_rows b 8).
      apply good_bind_seq. intros l Hl. apply good_n128; try lia. fold n.
      assert (S t * L ≤ n / L * L)%nat by (apply Nat.mul_le_mono_r; lia). lia.
    + apply one_tile_good; [lia|]. fold n. lia.
  - intros ri t j b Hri Ht Hj Hb s Hs. apply (in_bind_seq _ _ _ ri); [lia|]. fold n in Ht. apply elem_of_app.
    destruct (decide (t < n / L * L)%nat) as [Hlt|Hge].
    + left. apply (in_bind_seq _ _ _ (t / L)); [split; [lia|]; rewrite Nat.add_0_l; apply Nat.Div0.div_lt_upper_bound; lia|].
      rewrite wide_tile_ok by done. apply (in_bind_seq _ _ _ j); [lia|]. apply (in_bind_rows _ _ b); [done|].
      apply (in_bind_seq _ _ _ (t mod L)); [pose proof (Nat.mod_upper_bound t L); lia|].
      replace (t / L * L + t mod L)%nat with t by (pose proof (Nat.div_mod_eq t L); lia). done.
    + right. apply (in_bind_seq _ _ _ t); [lia|]. by apply (one_tile_in _ _ j b).
Qed.
End n128_ok.
