(* ===== verification/TransposeTiers.v ===== *)
(** * The whole-tile transposes for 128 rows, and the dispatch
    (runtime/core/transpose.hpp)

    The kernels that build each output block in registers and write it once: GFNI with
    512-bit and with 256-bit registers, and NEON.  A 512-bit register is the list of
    its 64 bytes, a 256-bit one the list of its two lanes.  They write what
    [Transpose.transposed] says, and so do the other kernels [sse_trans_n128] may be
    built with. *)

From S2P Require Import Prelude Bits Bytes Block Transpose.

(** ** Byte permutations of 512-bit registers *)
Section bytes512.
Context {V : Type} (d : V).
Definition lane128 (x : list V) (i : nat) : list V := take 16 (drop (16 * i) x).
Definition zunpacklo_epi64 (a b : list V) : list V := seq 0 4 ≫= λ i, take 8 (lane128 a i) ++ take 8 (lane128 b i).
Definition zunpackhi_epi64 (a b : list V) : list V := seq 0 4 ≫= λ i, drop 8 (lane128 a i) ++ drop 8 (lane128 b i).
Definition shuffle_i64x2 (a b : list V) (imm : nat) : list V :=
  lane128 a (imm mod 4) ++ lane128 a (imm / 4 mod 4) ++ lane128 b (imm / 16 mod 4) ++ lane128 b (imm / 64 mod 4).
Definition permutex2var_epi8 (a : list V) (idx : list nat) (b : list V) : list V :=
  (λ i, default d ((a ++ b) !! (i mod 128)%nat)) <$> idx.
Definition inserti32x4 (r x : list V) (i : nat) : list V := take (16 * i) r ++ x ++ drop (16 * i + 16) r.
(** [_mm512_castsi128_si512]: the upper three lanes are undefined. *)
Definition castsi128_si512 (upper x : list V) : list V := x ++ upper.
Definition four_lanes (upper y0 y1 y2 y3 : list V) : list V :=
  inserti32x4 (inserti32x4 (inserti32x4 (castsi128_si512 upper y0) y1 1) y2 2) y3 3.

Definition qword_perm : list nat := [0; 2; 1; 3; 4; 6; 5; 7]%nat.
Definition gfni_trans_qword8 (R : list (list V)) : list (list V) :=
  let t0 := seq 0 4 ≫= λ i, [zunpacklo_epi64 (reg [] R (2 * i)) (reg [] R (2 * i + 1));
                             zunpackhi_epi64 (reg [] R (2 * i)) (reg [] R (2 * i + 1))] in
  let t1 := seq 0 2 ≫= λ i, seq 0 2 ≫= λ k,
    [shuffle_i64x2 (reg [] t0 (4 * i + k)) (reg [] t0 (4 * i + k + 2)) 0x88;
     shuffle_i64x2 (reg [] t0 (4 * i + k)) (reg [] t0 (4 * i + k + 2)) 0xdd] in
  let F := ((λ k, shuffle_i64x2 (reg [] t1 k) (reg [] t1 (k + 4)) 0x88) <$> seq 0 4) ++
           ((λ k, shuffle_i64x2 (reg [] t1 k) (reg [] t1 (k + 4)) 0xdd) <$> seq 0 4) in
  foldl (λ R r, <[default 0%nat (qword_perm !! r) := reg [] F r]> R) R (seq 0 8).

(** [make_patterns] *)
Definition patA : list nat :=
  foldl (λ P '(u, k), <[(8 * u + (7 - k))%nat := (k * 16 + u)%nat]> P) (replicate 64 0%nat)
    (seq 0 8 ≫= λ u, pair u <$> seq 0 8).
Definition patB : list nat :=
  foldl (λ P '(u, k), <[(8 * u + (7 - k))%nat := (k * 16 + 8 + u)%nat]> P) (replicate 64 0%nat)
    (seq 0 8 ≫= λ u, pair u <$> seq 0 8).
Definition pat_out (off : nat) : list nat :=
  foldl (λ P '(b, s), <[(16 * b + s)%nat := ((if (8 <=? s)%nat then 64 else 0) + 8 * (s mod 8) + b + off)%nat]> P)
    (replicate 64 0%nat) (seq 0 4 ≫= λ b, pair b <$> seq 0 16).
Definition p0 : list nat := pat_out 0.
Definition p1 : list nat := pat_out 4.
(** The stores of one tile. *)
Definition gfni_trans_emit_tile (A Bq : list (list V)) (dst : nat) : list (nat * list V) :=
  let A := gfni_trans_qword8 (take 8 A) ++ gfni_trans_qword8 (drop 8 A) in
  let Bq := gfni_trans_qword8 (take 8 Bq) ++ gfni_trans_qword8 (drop 8 Bq) in
  (seq 0 8 ≫= λ u, [((dst + (8 * u + 0) * 16)%nat, permutex2var_epi8 (reg [] A u) p0 (reg [] A (u + 8)));
                    ((dst + (8 * u + 4) * 16)%nat, permutex2var_epi8 (reg [] A u) p1 (reg [] A (u + 8)))]) ++
  (seq 0 8 ≫= λ u, [((dst + (8 * (u + 8) + 0) * 16)%nat, permutex2var_epi8 (reg [] Bq u) p0 (reg [] Bq (u + 8)));
                    ((dst + (8 * (u + 8) + 4) * 16)%nat, permutex2var_epi8 (reg [] Bq u) p1 (reg [] Bq (u + 8)))]).
End bytes512.

(** ** The affine instruction: bit [b] of a byte is the parity of matrix row [7 - b] with it *)
Definition parity8 (v : N) : bool := foldr xorb false (bits 8 v).
Definition affine_qword (x A : list N) : list N :=
  (λ i, bval ((λ b, parity8 (N.land (get A (7 - b)) (get x i))) <$> seq 0 8)) <$> seq 0 8.
Definition gf2p8affine_epi64_epi8 (x A : list N) : list N :=
  seq 0 (length A / 8) ≫= λ q, affine_qword (take 8 (drop (8 * q) x)) (take 8 (drop (8 * q) A)).
Definition set1_epi64 (n : nat) (v : N) : list N := seq 0 n ≫= λ _, le_bytes 8 v.

(** ** GFNI, 512 bits *)
Section gfni512.
Context (inp : list N) (ncols : nat) (upper : list N).
Abbreviation bpr := (bpr_in_blocks ncols).
Definition I512 : list N := set1_epi64 8 0x8040201008040201.
Definition base (s t : nat) : nat := (8 * s * bpr * 16 + t * 16)%nat.
Definition loadu256 (off : nat) : list N := (λ k, get inp (off + k)) <$> seq 0 32.
Definition slab_qwords (pat : list nat) (row : nat → list N) : list N :=
  let r0 := four_lanes upper (row 0%nat) (row 1%nat) (row 2%nat) (row 3%nat) in
  let r1 := four_lanes upper (row 4%nat) (row 5%nat) (row 6%nat) (row 7%nat) in
  gf2p8affine_epi64_epi8 I512 (permutex2var_epi8 0%N r0 pat r1).
Definition gfni_tile (row : nat → nat → list N) (dst : nat) : list (nat * list N) :=
  gfni_trans_emit_tile 0%N ((λ s, slab_qwords patA (row s)) <$> seq 0 16) ((λ s, slab_qwords patB (row s)) <$> seq 0 16) dst.
(** Two tiles off 32-byte loads, and the odd one off 16-byte loads. *)
Definition sse_trans_n128_gfni : list (nat * list N) :=
  (seq 0 (bpr / 2) ≫= λ i, let t := (2 * i)%nat in
     let y s k := loadu256 (base s t + k * bpr * 16) in
     gfni_tile (λ s k, take 16 (y s k)) (t * 128 * 16) ++ gfni_tile (λ s k, drop 16 (y s k)) ((t + 1) * 128 * 16)) ++
  (seq (2 * (bpr / 2)) (bpr - 2 * (bpr / 2)) ≫= λ t,
     gfni_tile (λ s k, loadu inp (base s t + k * bpr * 16)) (t * 128 * 16)).
End gfni512.

(** ** The zip tree of eight rows, over any unpack instructions *)
Section zip_tree.
Context {V : Type} (d : V) (lo hi : nat → V → V → V).
Definition zip_tree (r : nat → V) : list V :=
  let a0 := lo 1%nat (r 0%nat) (r 1%nat) in let a4 := hi 1%nat (r 0%nat) (r 1%nat) in
  let a1 := lo 1%nat (r 2%nat) (r 3%nat) in let a5 := hi 1%nat (r 2%nat) (r 3%nat) in
  let a2 := lo 1%nat (r 4%nat) (r 5%nat) in let a6 := hi 1%nat (r 4%nat) (r 5%nat) in
  let a3 := lo 1%nat (r 6%nat) (r 7%nat) in let a7 := hi 1%nat (r 6%nat) (r 7%nat) in
  let b0 := lo 2%nat a0 a1 in let b1 := hi 2%nat a0 a1 in
  let b2 := lo 2%nat a4 a5 in let b3 := hi 2%nat a4 a5 in
  let b4 := lo 2%nat a2 a3 in let b5 := hi 2%nat a2 a3 in
  let b6 := lo 2%nat a6 a7 in let b7 := hi 2%nat a6 a7 in
  [lo 4%nat b0 b4; hi 4%nat b0 b4; lo 4%nat b1 b5; hi 4%nat b1 b5;
   lo 4%nat b2 b6; hi 4%nat b2 b6; lo 4%nat b3 b7; hi 4%nat b3 b7].
(** Pass 1: slot [16 i + s] of the stage gets block pair [i] of slab [s]. *)
Definition stage_pass (q : nat → list V) : list V :=
  foldl (λ stage s, foldl (λ stage i, <[(i * 16 + s)%nat := reg d (q s) i]> stage) stage (seq 0 8)) (replicate 128 d) (seq 0 16).
End zip_tree.

(** ** GFNI, 256 bits: lane 0 is tile [t], lane 1 tile [t + 1] *)
Section gfni256.
Context (inp : list N) (ncols : nat).
Abbreviation bpr := (bpr_in_blocks ncols).
Definition I128 : list N := set1_epi64 2 0x8040201008040201.
Definition load_lanes (off : nat) : list (list N) := [loadu inp off; loadu inp (off + 16)].
Definition gfni256_slab (t s : nat) : list (list (list N)) :=
  let r p := load_lanes (base ncols s t + (7 - p) * bpr * 16) in
  (λ q : list (list N), gf2p8affine_epi64_epi8 I128 <$> q) <$>
    zip_tree (λ w, zip_with (unpacklo w)) (λ w, zip_with (unpackhi w)) r.
Definition gfni256_pair (t : nat) : list (nat * list N) :=
  let stage := stage_pass [] (gfni256_slab t) in
  let dstA := (t * 128 * 16)%nat in let dstB := ((t + 1) * 128 * 16)%nat in
  seq 0 8 ≫= λ i,
    let m := wide_trans_16x16_byte ((λ s, reg [] stage (i * 16 + s)) <$> seq 0 16) in
    seq 0 16 ≫= λ r, [((dstA + (16 * i + r) * 16)%nat, reg [] (reg [] m r) 0);
                      ((dstB + (16 * i + r) * 16)%nat, reg [] (reg [] m r) 1)].
Definition sse_trans_n128_gfni256 : list (nat * list N) :=
  (seq 0 (bpr / 2) ≫= λ i, gfni256_pair (2 * i)) ++
  (seq (2 * (bpr / 2)) (bpr - 2 * (bpr / 2)) ≫= λ t, seq 0 8 ≫= λ rr_idx, sse_trans_n128_one_tile_sse2 inp ncols rr_idx t).
End gfni256.

(** ** NEON *)
(** One round: [t = (x ^ (x >> k)) & m; x = x ^ t ^ (t << k)], on 64 bits. *)
Definition delta_swap (k m x : N) : N :=
  let t := N.land (N.lxor x (N.shiftr x k)) m in
  N.lxor (N.lxor x t) (N.land (N.shiftl t k) (N.ones 64)).
Definition bit_transpose8x8 (x : N) : N :=
  let x := delta_swap 7 0x00AA00AA00AA00AA x in
  let x := delta_swap 14 0x0000CCCC0000CCCC x in
  delta_swap 28 0x00000000F0F0F0F0 x.
Definition bit_transpose8x8_x2 (x : list N) : list N :=
  le_bytes 8 (bit_transpose8x8 (le_value (take 8 x))) ++ le_bytes 8 (bit_transpose8x8 (le_value (drop 8 x))).
Section neon.
Context (inp : list N) (ncols : nat).
Abbreviation bpr := (bpr_in_blocks ncols).
Definition neon_slab (t s : nat) : list (list N) :=
  bit_transpose8x8_x2 <$> zip_tree unpacklo unpackhi (λ k, loadu inp (base ncols s t + k * bpr * 16)).
Definition neon_tile (t : nat) : list (nat * list N) :=
  let stage := stage_pass [] (neon_slab t) in
  let dst := (t * 128 * 16)%nat in
  seq 0 8 ≫= λ i,
    let m := sse_trans_16x16_byte ((λ s, reg [] stage (i * 16 + s)) <$> seq 0 16) in
    seq 0 16 ≫= λ r, [((dst + (16 * i + r) * 16)%nat, reg [] m r)].
Definition sse_trans_n128_neon : list (nat * list N) := seq 0 bpr ≫= neon_tile.
End neon.

(** ** The dispatch, fixed when the program is built *)
Inductive n128_tier := GFNI512 | GFNI256 | AVX512BW | AVX2 | SSE2 | NEON | Portable.
Definition sse_trans_n128 (tier : n128_tier) (inp : list N) (ncols : nat) (junk upper out : list N) : outcome (list N) :=
  expecting (ncols mod 128 =? 0)%nat "sse_trans_n128: ncols must be a multiple of 128";;
  match tier with
  | GFNI512 => mret (run_stores out (sse_trans_n128_gfni inp ncols upper))
  | GFNI256 => mret (run_stores out (sse_trans_n128_gfni256 inp ncols))
  | AVX512BW => mret (run_stores out (sse_trans_n128_avx512bw inp ncols))
  | AVX2 => mret (run_stores out (sse_trans_n128_avx2 inp ncols))
  | SSE2 => mret (run_stores out (sse_trans_n128_sse2 inp ncols))
  | NEON => mret (run_stores out (sse_trans_n128_neon inp ncols))
  | Portable => sse_trans inp 128 ncols junk out
  end.

(** ** The byte permutations, on symbolic bytes *)
Lemma four_lanes_ok {V} (upper y0 y1 y2 y3 : list V) :
  length upper = 48%nat → length y0 = 16%nat → length y1 = 16%nat → length y2 = 16%nat → length y3 = 16%nat →
  four_lanes upper y0 y1 y2 y3 = y0 ++ y1 ++ y2 ++ y3.
Proof.
  intros Hu H0 H1 H2 H3. unfold four_lanes, castsi128_si512, inserti32x4.
  rewrite (take_app_length' y0) by lia. rewrite (drop_app_ge y0) by lia. rewrite H0.
  rewrite (app_assoc y0 y1), (take_app_length' (y0 ++ y1)) by (rewrite length_app; lia).
  rewrite (drop_app_ge (y0 ++ y1)) by (rewrite length_app; lia). rewrite length_app, H0, H1, drop_drop.
  rewrite (app_assoc _ y2), (take_app_length' ((y0 ++ y1) ++ y2)) by (rewrite !length_app; lia).
  rewrite (drop_app_ge ((y0 ++ y1) ++ y2)) by (rewrite !length_app; lia). rewrite !length_app, H0, H1, H2, drop_drop.
  rewrite drop_ge by lia. by rewrite app_nil_r, <- !app_assoc.
Qed.
Section symbolic.
Context {V : Type} (d : V) (f : nat → nat → V) (G : nat → nat → nat → V).
Definition rows4 (k : nat) : list V := (f k <$> seq 0 16) ++ (f (k + 1)%nat <$> seq 0 16) ++ (f (k + 2)%nat <$> seq 0 16) ++ (f (k + 3)%nat <$> seq 0 16).
Lemma patA_ok : permutex2var_epi8 d (rows4 0) patA (rows4 4) = seq 0 8 ≫= λ u, (λ p, f (7 - p) u)%nat <$> seq 0 8.
Proof. reflexivity. Qed.
Lemma patB_ok : permutex2var_epi8 d (rows4 0) patB (rows4 4) = seq 0 8 ≫= λ u, (λ p, f (7 - p) (8 + u))%nat <$> seq 0 8.
Proof. reflexivity. Qed.
Lemma zip_tree_ok : zip_tree unpacklo unpackhi (λ p, f p <$> seq 0 16) =
  (λ i, ((λ p, f p (2 * i)) <$> seq 0 8) ++ ((λ p, f p (2 * i + 1)) <$> seq 0 8))%nat <$> seq 0 8.
Proof. reflexivity. Qed.
Lemma zip_tree_lanes_ok : zip_tree (λ w, zip_with (unpacklo w)) (λ w, zip_with (unpackhi w)) (λ p, [G 0 p <$> seq 0 16; G 1 p <$> seq 0 16])%nat =
  (λ i, (λ l, ((λ p, G l p (2 * i)) <$> seq 0 8) ++ ((λ p, G l p (2 * i + 1)) <$> seq 0 8)) <$> seq 0 2)%nat <$> seq 0 8.
Proof. reflexivity. Qed.
Lemma stage_pass_ok : stage_pass d (λ s, f s <$> seq 0 8) = (λ n, f (n mod 16) (n / 16))%nat <$> seq 0 128.
Proof. reflexivity. Qed.
(** Byte [b] of block [(s, u)] ends up as byte [s] of row [8 u + b]. *)
Definition tile_stores (dst : nat) : list (nat * list V) :=
  seq 0 16 ≫= λ u, [(dst + (8 * u + 0) * 16, seq 0 4 ≫= λ b, (λ s, G s u b) <$> seq 0 16);
                    (dst + (8 * u + 4) * 16, seq 0 4 ≫= λ b, (λ s, G s u (b + 4)) <$> seq 0 16)]%nat.
Lemma emit_tile_ok dst : gfni_trans_emit_tile d
  ((λ s, seq 0 8 ≫= λ u, G s u <$> seq 0 8) <$> seq 0 16)
  ((λ s, seq 0 8 ≫= λ u, G s (8 + u)%nat <$> seq 0 8) <$> seq 0 16) dst = tile_stores dst.
Proof. reflexivity. Qed.
End symbolic.

(** ** The affine instruction with the identity as data transposes each qword *)
Abbreviation flip := (le_bytes 8 0x8040201008040201).
Lemma fmap_seq_ext {A} (f g : nat → A) n : (∀ i, (i < n)%nat → f i = g i) → f <$> seq 0 n = g <$> seq 0 n.
Proof. intros H. apply list_fmap_ext. intros j i [-> Hi]%lookup_seq. by apply H. Qed.
Lemma parity8_land v i : (i < 8)%nat → parity8 (N.land v (get flip i)) = N.testbit v (N.of_nat i).
Proof.
  intros Hi. assert (get flip i = 2 ^ N.of_nat i)%N as -> by (do 8 (destruct i as [|i]; [reflexivity|]); lia).
  rewrite land_pow2. destruct (N.testbit v (N.of_nat i)); [|reflexivity].
  do 8 (destruct i as [|i]; [reflexivity|]). lia.
Qed.
Lemma affine_qword_flip A :
  affine_qword flip A = (λ i, bval ((λ b, N.testbit (get A (7 - b)) (N.of_nat i)) <$> seq 0 8)) <$> seq 0 8.
Proof.
  unfold affine_qword. apply fmap_seq_ext. intros i Hi. f_equal.
  apply fmap_seq_ext. intros b _. by apply parity8_land.
Qed.
Lemma bind_flatten {A B} (g : A → list B) l : l ≫= g = flatten (g <$> l).
Proof. induction l as [|x l IH]; [done|]. rewrite fmap_cons, flatten_cons, <- IH. done. Qed.
Lemma take_drop_bind {A} n (g : nat → list A) q k : (∀ i, length (g i) = k) → (q < n)%nat →
  take k (drop (k * q) (seq 0 n ≫= g)) = g q.
Proof.
  intros Hg Hq. rewrite bind_flatten. apply flatten_chunk.
  - by apply Forall_fmap, Forall_true.
  - by rewrite list_lookup_fmap, lookup_seq_lt.
Qed.
Lemma length_bind_seq {A} n (g : nat → list A) k a : (∀ i, length (g i) = k) → length (seq a n ≫= g) = (k * n)%nat.
Proof.
  intros Hg. rewrite bind_flatten, (flatten_length_same k) by (by apply Forall_fmap, Forall_true).
  by rewrite length_fmap, length_seq.
Qed.
(** The columns of a qword that holds its rows last row first. *)
Definition columns8 (f : nat → N) : list N := (λ i, bval ((λ b, N.testbit (f b) (N.of_nat i)) <$> seq 0 8)) <$> seq 0 8.
Lemma affine_columns n (f : nat → nat → N) :
  gf2p8affine_epi64_epi8 (set1_epi64 n 0x8040201008040201) (seq 0 n ≫= λ u, (λ p, f (7 - p) u)%nat <$> seq 0 8) =
  seq 0 n ≫= λ u, columns8 (λ b, f b u).
Proof.
  unfold gf2p8affine_epi64_epi8. rewrite (length_bind_seq _ _ 8), Nat.mul_comm, Nat.div_mul by done.
  apply bind_seq_ext. intros q Hq. unfold set1_epi64. rewrite !take_drop_bind by done.
  rewrite affine_qword_flip. reflexivity.
Qed.

(** ** The delta swaps transpose a qword too *)
Lemma delta_bit k m x i : (N.land m (N.shiftl m k) = 0)%N → (i < 64)%N → N.testbit (delta_swap k m x) i =
  if N.testbit m i then N.testbit x (i + k)
  else if (k <=? i)%N && N.testbit m (i - k) then N.testbit x (i - k) else N.testbit x i.
Proof.
  intros Hm Hi. apply (f_equal (λ v, N.testbit v i)) in Hm. rewrite N.land_spec, N.bits_0 in Hm.
  unfold delta_swap. rewrite !N.lxor_spec, !N.land_spec, N.ones_spec_low, andb_true_r, N.lxor_spec, N.shiftr_spec' by done.
  destruct (N.leb_spec k i) as [Hk|Hk].
  - rewrite N.shiftl_spec_high' in Hm |- * by done. rewrite N.land_spec, N.lxor_spec, N.shiftr_spec'.
    replace (i - k + k)%N with i by lia. destruct (N.testbit m i), (N.testbit m (i - k)), (N.testbit x i), (N.testbit x (i + k)), (N.testbit x (i - k)); done.
  - rewrite !N.shiftl_spec_low by done. destruct (N.testbit m i), (N.testbit x i), (N.testbit x (i + k)); done.
Qed.
Definition delta_source (k m i : N) : N :=
  if N.testbit m i then i + k else if (k <=? i)%N && N.testbit m (i - k) then i - k else i.
Lemma delta_source_ok k m x i : (N.land m (N.shiftl m k) = 0)%N → (i < 64)%N →
  N.testbit (delta_swap k m x) i = N.testbit x (delta_source k m i).
Proof. intros Hm Hi. rewrite delta_bit by done. unfold delta_source. by destruct (N.testbit m i); [|destruct (_ && _)]. Qed.
Definition sources_transposed (i : N) : bool :=
  let a := delta_source 28 0x00000000F0F0F0F0 i in let b := delta_source 14 0x0000CCCC0000CCCC a in
  ((a <? 64) && (b <? 64) && (delta_source 7 0x00AA00AA00AA00AA b =? 8 * (i mod 8) + i / 8))%N.
Lemma sources_ok : forallb sources_transposed (N.of_nat <$> seq 0 64) = true.
Proof. vm_compute. reflexivity. Qed.
Lemma bit_transpose8x8_bit x i : (i < 64)%nat →
  N.testbit (bit_transpose8x8 x) (N.of_nat i) = N.testbit x (N.of_nat (8 * (i mod 8) + i / 8)).
Proof.
  intros Hi. pose proof (proj1 (forallb_True _ _) (Is_true_eq_left _ sources_ok)) as H.
  eapply (Forall_lookup_1 _ _ i (N.of_nat i)) in H; [|by rewrite list_lookup_fmap, lookup_seq_lt].
  unfold sources_transposed in H. apply andb_True in H as [[Ha Hb]%andb_True Hc].
  apply Is_true_eq_true in Ha, Hb, Hc. apply N.ltb_lt in Ha, Hb. apply N.eqb_eq in Hc.
  unfold bit_transpose8x8. rewrite !delta_source_ok by (reflexivity || lia || done). rewrite Hc. f_equal.
  by rewrite Nat2N.inj_add, Nat2N.inj_mul, Nat2N.inj_mod, Nat2N.inj_div.
Qed.
Lemma neon_columns (g : nat → N) : (∀ p, g p < 256)%N →
  le_bytes 8 (bit_transpose8x8 (le_value (g <$> seq 0 8))) = columns8 g.
Proof.
  intros Hg. assert (∀ h : nat → bool, bits 8 (bval (h <$> seq 0 8)) = h <$> seq 0 8) as H8.
  { intros h. pose proof (bits_bval (h <$> seq 0 8)) as H. by rewrite length_fmap, length_seq in H. }
  assert (∀ h : nat → bool, bval (h <$> seq 0 8) < 256)%N as Hlt.
  { intros h. pose proof (bval_lt (h <$> seq 0 8)) as H. by rewrite length_fmap, length_seq in H. }
  apply unbytes_inj; [apply le_bytes_lt|apply Forall_fmap, Forall_true; intros i; apply Hlt|]. rewrite unbytes_le_bytes.
  change (8 * 8)%nat with 64%nat. rewrite bits_testbit, le_value_bval by (by apply Forall_fmap, Forall_true).
  rewrite (fmap_seq_ext _ (λ i, default false (unbytes (g <$> seq 0 8) !! (8 * (i mod 8) + i / 8)%nat))).
  2: { intros i Hi. by rewrite bit_transpose8x8_bit, bval_testbit. }
  unfold columns8. rewrite <- !flatten_bits.
  rewrite (fmap_seq_ext (λ i, bits 8 (g i)) (λ p, (λ i, N.testbit (g p) (N.of_nat i)) <$> seq 0 8)) by (intros; apply bits_testbit).
  rewrite (fmap_seq_ext (λ i, bits 8 (bval _)) (λ i, (λ b, N.testbit (g b) (N.of_nat i)) <$> seq 0 8)) by (intros; apply H8).
  reflexivity.
Qed.

(** ** The stores of the tiles *)
Section tiles.
Context (inp : list N) (Hinp : Forall (λ v, v < 256)%N inp) (ncols : nat) (Hc128 : (ncols mod 128 = 0)%nat).
Abbreviation bpr := (bpr_in_blocks ncols).
Abbreviation byte := (λ s k t u, get inp ((8 * s + k) * (ncols / 8) + (16 * t + u))).
(** Rows [c], ..., [c + n - 1] of the output, written at once. *)
Definition row16 (c : nat) : list N := (λ s, column_byte inp ncols s c) <$> seq 0 16.
Definition rows_at (c n : nat) : list (nat * list N) := [((c * 16)%nat, seq 0 n ≫= λ b, row16 (c + b))].
Lemma rows_good c n : (c + n ≤ ncols)%nat → Forall (good_store inp 128 ncols) (rows_at c n).
Proof.
  intros Hc. constructor; [|done]. intros k b Hk. cbn [fst snd] in *.
  assert (length (seq 0 n ≫= λ b, row16 (c + b)) = 16 * n)%nat as Hl by (by apply length_bind_seq).
  pose proof (lookup_lt_Some _ _ _ Hk) as Hlt. rewrite Hl in Hlt.
  pose proof (Nat.div_mod_eq k 16). pose proof (Nat.mod_upper_bound k 16).
  assert (b = column_byte inp ncols (k mod 16) (c + k / 16)) as ->.
  { assert (take 16 (drop (16 * (k / 16)) (seq 0 n ≫= λ b, row16 (c + b))) = row16 (c + k / 16)) as Hr
      by (apply (take_drop_bind n (λ b, row16 (c + b))); [done|lia]).
    apply (f_equal (λ l, l !! (k mod 16)%nat)) in Hr. rewrite lookup_take_lt, lookup_drop in Hr by lia.
    rewrite <- H, Hk in Hr. unfold row16 in Hr. rewrite list_lookup_fmap, lookup_seq_lt in Hr by lia. by injection Hr. }
  replace (c * 16 + k)%nat with ((c + k / 16) * (128 / 8) + k mod 16)%nat by (change (128 / 8)%nat with 16%nat; lia).
  split; [apply (place 128); [|change (128 / 8)%nat with 16%nat]; lia|].
  symmetry. apply target_at. change (128 / 8)%nat with 16%nat. lia.
Qed.
Lemma rows_cover st out : length out = (ncols * 16)%nat → Forall (good_store inp 128 ncols) st →
  (∀ c, (c < ncols)%nat → ∃ c0 n, (c0 ≤ c < c0 + n)%nat ∧ ∀ s, s ∈ rows_at c0 n → s ∈ st) →
  run_stores out st = transposed inp 128 ncols.
Proof.
  intros Ho Hg Hc. apply run_stores_ok; [done|done|]. intros o Ho'. left. change (128 / 8)%nat with 16%nat in Ho'.
  destruct (Hc (o / 16)%nat) as (c0 & n & Hr & Hin); [apply Nat.Div0.div_lt_upper_bound; lia|].
  eexists _, _. split; [by apply Hin, list_elem_of_singleton|]. rewrite (length_bind_seq _ _ 16) by done.
  pose proof (Nat.div_mod_eq o 16). pose proof (Nat.mod_upper_bound o 16). lia.
Qed.
(** A transposed block holds eight bytes of the output. *)
Lemma block_ok s t u : columns8 (λ b, byte s b t u) = (λ b, column_byte inp ncols s (8 * (16 * t + u) + b)) <$> seq 0 8.
Proof.
  apply fmap_seq_ext. intros i Hi. unfold column_byte. f_equal. apply fmap_seq_ext. intros k Hk.
  symmetry. by apply bit_at_col.
Qed.
Lemma loadu_row s t k : loadu inp (base ncols s t + k * bpr * 16) = (λ u, byte s k t u) <$> seq 0 16.
Proof. unfold loadu, base. apply fmap_seq_ext. intros u Hu. f_equal. rewrite bytes_blocks by done. lia. Qed.

(** GFNI, 512 bits. *)
Lemma slab_ok upper row (f : nat → nat → N) : length upper = 48%nat → (∀ k, row k = f k <$> seq 0 16) →
  slab_qwords upper patA row = seq 0 8 ≫= (λ u, columns8 (λ b, f b u)) ∧
  slab_qwords upper patB row = seq 0 8 ≫= (λ u, columns8 (λ b, f b (8 + u)%nat)).
Proof.
  intros Hu Hr. unfold slab_qwords. rewrite !Hr, !four_lanes_ok by done. cbv zeta. unfold I512.
  rewrite <- (affine_columns 8 f), <- (affine_columns 8 (λ b u, f b (8 + u)%nat)), <- (patA_ok 0%N f), <- (patB_ok 0%N f). done.
Qed.
Lemma gfni_tile_ok upper row t : length upper = 48%nat →
  (∀ s k, row s k = (λ u, byte s k t u) <$> seq 0 16) →
  gfni_tile upper row (t * 128 * 16) =
  seq 0 16 ≫= λ u, rows_at (128 * t + 8 * u) 4 ++ rows_at (128 * t + 8 * u + 4) 4.
Proof.
  intros Hu Hrow. set (G := λ s u b, column_byte inp ncols s (8 * (16 * t + u) + b)).
  assert (∀ s u, columns8 (λ b, byte s b t u) = G s u <$> seq 0 8) as HG by (intros s u; apply block_ok).
  trans (tile_stores G (t * 128 * 16)).
  - unfold gfni_tile. rewrite <- (emit_tile_ok 0%N). f_equal; apply fmap_seq_ext; intros s _.
    + rewrite (proj1 (slab_ok upper (row s) (λ b u, byte s b t u) Hu (Hrow s))). apply bind_seq_ext. intros u _. apply HG.
    + rewrite (proj2 (slab_ok upper (row s) (λ b u, byte s b t u) Hu (Hrow s))). apply bind_seq_ext. intros u _. apply HG.
  - apply bind_seq_ext. intros u _. unfold rows_at. cbn [app]. unfold row16.
    f_equal; [|f_equal]; (f_equal; [lia|]); apply bind_seq_ext; intros b _; apply fmap_seq_ext; intros s _; unfold G; f_equal; lia.
Qed.
Lemma bpr_cols : ncols = (128 * bpr)%nat.
Proof. by apply blocks_cols. Qed.
(** Kernels that write whole tiles, and in a tile all its rows. *)
Lemma tiles_cover st out : length out = (ncols * 16)%nat →
  (∀ s, s ∈ st → ∃ t r n, (t < bpr)%nat ∧ (r + n ≤ 128)%nat ∧ s ∈ rows_at (128 * t + r) n) →
  (∀ t r, (t < bpr)%nat → (r < 128)%nat → ∃ r0 n, (r0 ≤ r < r0 + n)%nat ∧ ∀ s, s ∈ rows_at (128 * t + r0) n → s ∈ st) →
  run_stores out st = transposed inp 128 ncols.
Proof.
  intros Ho Hg Hc. pose proof bpr_cols. apply rows_cover; [done| |].
  - apply Forall_forall. intros s (t & r & n & Ht & Hr & Hs)%Hg.
    assert (Forall (good_store inp 128 ncols) (rows_at (128 * t + r) n)) as HF by (apply rows_good; lia).
    rewrite Forall_forall in HF. by apply HF.
  - intros c Hlt. pose proof (Nat.div_mod_eq c 128). pose proof (Nat.mod_upper_bound c 128).
    destruct (Hc (c / 128) (c mod 128))%nat as (r0 & n & Hr & Hin); [lia..|].
    exists (128 * (c / 128) + r0)%nat, n. split; [lia|done].
Qed.
(** Tiles two by two, and the odd one. *)
Lemma pair_or_last t : (t < bpr)%nat → (t < 2 * (bpr / 2) ∧ t / 2 < bpr / 2)%nat ∨ (2 * (bpr / 2) ≤ t < 2 * (bpr / 2) + (bpr - 2 * (bpr / 2)))%nat.
Proof.
  intros Ht. destruct (decide (t < 2 * (bpr / 2))%nat); [left|right; lia]. split; [done|].
  apply Nat.Div0.div_lt_upper_bound. lia.
Qed.
Lemma last_lt t : (2 * (bpr / 2) ≤ t < 2 * (bpr / 2) + (bpr - 2 * (bpr / 2)))%nat → (t < bpr)%nat.
Proof. lia. Qed.
Lemma pair_lt i : (i < bpr / 2)%nat → (2 * i + 1 < bpr)%nat.
Proof. pose proof (Nat.div_mod_eq bpr 2). lia. Qed.
Definition tile512 (t : nat) : list (nat * list N) :=
  seq 0 16 ≫= λ u, rows_at (128 * t + 8 * u) 4 ++ rows_at (128 * t + 8 * u + 4) 4.
Lemma tile512_out t s : s ∈ tile512 t → ∃ r n, (r + n ≤ 128)%nat ∧ s ∈ rows_at (128 * t + r) n.
Proof.
  intros (u & [Hs|Hs]%elem_of_app & [_ Hu]%elem_of_seq)%list_elem_of_bind.
  - exists (8 * u)%nat, 4%nat. split; [lia|done].
  - exists (8 * u + 4)%nat, 4%nat. split; [lia|]. by rewrite Nat.add_assoc.
Qed.
Lemma tile512_in t r : (r < 128)%nat → ∃ r0 n, (r0 ≤ r < r0 + n)%nat ∧ ∀ s, s ∈ rows_at (128 * t + r0) n → s ∈ tile512 t.
Proof.
  intros Hr. pose proof (Nat.div_mod_eq r 8). pose proof (Nat.mod_upper_bound r 8).
  assert (∀ s, s ∈ rows_at (128 * t + 8 * (r / 8)) 4 ++ rows_at (128 * t + 8 * (r / 8) + 4) 4 → s ∈ tile512 t) as Hin.
  { intros s Hs. apply (in_bind_seq _ _ _ (r / 8)); [|done]. split; [lia|]. apply Nat.Div0.div_lt_upper_bound. lia. }
  destruct (decide (r mod 8 < 4)%nat).
  - exists (8 * (r / 8))%nat, 4%nat. split; [lia|]. intros s Hs. apply Hin, elem_of_app. by left.
  - exists (8 * (r / 8) + 4)%nat, 4%nat. split; [lia|]. intros s Hs. apply Hin, elem_of_app. right. by rewrite <- Nat.add_assoc.
Qed.
Lemma loadu256_row s t k : loadu256 inp (base ncols s t + k * bpr * 16) =
  ((λ u, byte s k t u) <$> seq 0 16) ++ ((λ u, byte s k (t + 1)%nat u) <$> seq 0 16).
Proof.
  unfold loadu256. rewrite (seq_app 16 16 0 : seq 0 32 = _), fmap_app. f_equal.
  - apply fmap_seq_ext. intros u _. f_equal. unfold base. rewrite bytes_blocks by done. lia.
  - change (0 + 16)%nat with (16 + 0)%nat. rewrite <- (fmap_add_seq 16 0 16), <- list_fmap_compose. apply fmap_seq_ext. intros u _. unfold compose.
    f_equal. unfold base. rewrite bytes_blocks by done. lia.
Qed.
Lemma gfni_eq upper : length upper = 48%nat → sse_trans_n128_gfni inp ncols upper =
  (seq 0 (bpr / 2) ≫= λ i, tile512 (2 * i) ++ tile512 (2 * i + 1)) ++ (seq (2 * (bpr / 2)) (bpr - 2 * (bpr / 2)) ≫= tile512).
Proof.
  intros Hu. unfold sse_trans_n128_gfni. f_equal.
  - apply bind_seq_ext. intros i _. cbv zeta. f_equal; (apply gfni_tile_ok; [done|]); intros s k; rewrite loadu256_row.
    + by apply take_app_length'.
    + by apply drop_app_length'.
  - apply bind_ext. intros t _. apply gfni_tile_ok; [done|]. intros s k. apply loadu_row.
Qed.
Lemma n128_gfni_ok upper out : length upper = 48%nat → length out = (ncols * 16)%nat →
  run_stores out (sse_trans_n128_gfni inp ncols upper) = transposed inp 128 ncols.
Proof.
  intros Hu Ho. rewrite gfni_eq by done. apply tiles_cover; [done| |].
  - intros s [(i & Hs & [_ Hi%pair_lt]%elem_of_seq)%list_elem_of_bind|(t & Hs & Ht%elem_of_seq%last_lt)%list_elem_of_bind]%elem_of_app.
    + apply elem_of_app in Hs as [(r & n & Hr & Hs)%tile512_out|(r & n & Hr & Hs)%tile512_out]; eexists _, r, n; (split; [|split; [done|exact Hs]]); lia.
    + apply tile512_out in Hs as (r & n & Hr & Hs). by exists t, r, n.
  - intros t r Ht Hr. destruct (tile512_in t r Hr) as (r0 & n & Hrn & Hin). exists r0, n. split; [done|].
    intros s Hs%Hin. apply elem_of_app. apply pair_or_last in Ht as [[Ht Hi]|Ht]; [left|right].
    + apply (in_bind_seq _ _ _ (t / 2)); [lia|]. apply elem_of_app. pose proof (Nat.div_mod_eq t 2). pose proof (Nat.mod_upper_bound t 2).
      destruct (decide (t mod 2 = 0)%nat); [left|right]; [replace (2 * (t / 2))%nat with t by lia|replace (2 * (t / 2) + 1)%nat with t by lia]; done.
    + by apply (in_bind_seq _ _ _ t).
Qed.

(** Pass 1 leaves block pairs in the stage, and pass 2 turns pair [i] into sixteen rows. *)
Definition pair_bytes (t s i : nat) : list N := (λ k, column_byte inp ncols s (128 * t + 16 * i + k)) <$> seq 0 16.
Lemma pair_bytes_ok t s i : columns8 (λ b, byte s b t (2 * i)%nat) ++ columns8 (λ b, byte s b t (2 * i + 1)%nat) = pair_bytes t s i.
Proof.
  cbv beta. rewrite !block_ok. unfold pair_bytes. rewrite (seq_app 8 8 0 : seq 0 16 = _), fmap_app. f_equal.
  - apply fmap_seq_ext. intros b _. f_equal. lia.
  - change (0 + 8)%nat with (8 + 0)%nat. rewrite <- (fmap_add_seq 8 0 8), <- list_fmap_compose. apply fmap_seq_ext.
    intros b _. unfold compose. f_equal. lia.
Qed.
Lemma zip_tree_ext {V} (lo hi : nat → V → V → V) r r' : (∀ p, r p = r' p) → zip_tree lo hi r = zip_tree lo hi r'.
Proof. intros H. unfold zip_tree. by rewrite !H. Qed.
Lemma stage_slot {V} (d : V) q (v : nat → nat → V) : (∀ s, q s = v s <$> seq 0 8) →
  ∀ i s, (i < 8)%nat → (s < 16)%nat → reg d (stage_pass d q) (i * 16 + s) = v s i.
Proof.
  intros Hq i s Hi Hs. assert (stage_pass d q = stage_pass d (λ s, v s <$> seq 0 8)) as ->.
  { unfold stage_pass. generalize (replicate 128 d). induction (seq 0 16) as [|k l IH]; intros st; [done|].
    cbn [foldl]. by rewrite Hq, IH. }
  rewrite stage_pass_ok. unfold reg. rewrite list_lookup_fmap, lookup_seq_lt by lia. cbn [fmap option_fmap option_map default from_option id].
  f_equal; [symmetry; apply (Nat.mod_unique _ _ i); lia|symmetry; apply (Nat.div_unique _ _ _ s); lia].
Qed.
Lemma byte_lt s k t u : (byte s k t u < 256)%N.
Proof. by apply get_byte. Qed.
Lemma neon_slab_ok t s : neon_slab inp ncols t s = (λ i, pair_bytes t s i) <$> seq 0 8.
Proof.
  unfold neon_slab. rewrite (zip_tree_ext _ _ _ (λ p, (λ u, byte s p t u) <$> seq 0 16)) by (intros p; apply loadu_row).
  rewrite zip_tree_ok, <- list_fmap_compose. apply fmap_seq_ext. intros i _. unfold compose, bit_transpose8x8_x2.
  rewrite take_app_length', drop_app_length' by done.
  rewrite !neon_columns by (intros p; apply byte_lt). apply pair_bytes_ok.
Qed.
Definition tile128 (t : nat) : list (nat * list N) := seq 0 8 ≫= λ i, seq 0 16 ≫= λ r, rows_at (128 * t + 16 * i + r) 1.
Lemma row_store t i r : [((t * 128 * 16 + (16 * i + r) * 16)%nat, (λ s, column_byte inp ncols s (128 * t + 16 * i + r)) <$> seq 0 16)] =
  rows_at (128 * t + 16 * i + r) 1.
Proof. unfold rows_at, row16. cbn [seq mbind list_bind]. rewrite app_nil_r, Nat.add_0_r. f_equal. f_equal. lia. Qed.
Lemma neon_tile_ok t : neon_tile inp ncols t = tile128 t.
Proof.
  unfold neon_tile. cbv zeta. apply bind_seq_ext. intros i Hi.
  rewrite (fmap_seq_ext _ (λ s, (λ k, column_byte inp ncols s (128 * t + 16 * i + k)) <$> seq 0 16))
    by (intros s Hs; apply (stage_slot [] _ (pair_bytes t) (neon_slab_ok t)); done).
  rewrite (trans_ok (λ s k, column_byte inp ncols s (128 * t + 16 * i + k))).
  apply bind_seq_ext. intros r Hr. unfold reg. rewrite list_lookup_fmap, lookup_seq_lt by done. apply row_store.
Qed.
Lemma gfni256_slab_ok t s : gfni256_slab inp ncols t s = (λ i, (λ l, pair_bytes (t + l) s i) <$> seq 0 2) <$> seq 0 8.
Proof.
  unfold gfni256_slab. set (F := λ l p u, byte s (7 - p)%nat (t + l)%nat u).
  rewrite (zip_tree_ext _ _ _ (λ p, [F 0%nat p <$> seq 0 16; F 1%nat p <$> seq 0 16])).
  2: { intros p. unfold load_lanes, F. rewrite Nat.add_0_r, <- !loadu_row. do 2 f_equal. f_equal. unfold base. lia. }
  rewrite zip_tree_lanes_ok, <- list_fmap_compose. apply fmap_seq_ext. intros i _. unfold compose.
  rewrite <- list_fmap_compose. apply fmap_seq_ext. intros l _. unfold compose, F.
  pose proof (affine_columns 2 (λ b u, byte s b (t + l)%nat (2 * i + u)%nat)) as H. cbn [seq mbind list_bind] in H.
  rewrite !app_nil_r, Nat.add_0_r in H. unfold I128. rewrite <- pair_bytes_ok. exact H.
Qed.
Definition pair256 (t : nat) : list (nat * list N) :=
  seq 0 8 ≫= λ i, seq 0 16 ≫= λ r, rows_at (128 * t + 16 * i + r) 1 ++ rows_at (128 * (t + 1) + 16 * i + r) 1.
Lemma gfni256_pair_ok t : gfni256_pair inp ncols t = pair256 t.
Proof.
  unfold gfni256_pair. cbv zeta. apply bind_seq_ext. intros i Hi.
  set (F := λ l s k, column_byte inp ncols s (128 * (t + l) + 16 * i + k)).
  rewrite (fmap_seq_ext _ (λ s, (λ l, (λ k, F l s k) <$> seq 0 16) <$> seq 0 2))
    by (intros s Hs; apply (stage_slot [] _ (λ s i, (λ l, pair_bytes (t + l) s i) <$> seq 0 2) (gfni256_slab_ok t)); done).
  rewrite (wide_trans_ok 2 F) by lia. apply bind_seq_ext. intros r Hr.
  rewrite <- (row_store t i r), <- (row_store (t + 1) i r). cbn [app].
  unfold reg at 2 4. rewrite list_lookup_fmap, lookup_seq_lt by done. cbn [fmap option_fmap option_map default from_option id].
  unfold reg. rewrite !list_lookup_fmap. cbn [seq lookup list_lookup fmap option_fmap option_map default from_option id].
  unfold F. by rewrite Nat.add_0_r.
Qed.

Lemma tile128_out t s : s ∈ tile128 t → ∃ r, (r < 128)%nat ∧ s ∈ rows_at (128 * t + r) 1.
Proof.
  intros (i & (r & Hs & [_ Hr]%elem_of_seq)%list_elem_of_bind & [_ Hi]%elem_of_seq)%list_elem_of_bind.
  exists (16 * i + r)%nat. split; [lia|]. by rewrite Nat.add_assoc.
Qed.
Lemma in_tile r (f : nat → nat → list (nat * list N)) s : (r < 128)%nat → s ∈ f (r / 16)%nat (r mod 16)%nat →
  s ∈ seq 0 8 ≫= λ i, seq 0 16 ≫= f i.
Proof.
  intros Hr Hs. pose proof (Nat.mod_upper_bound r 16). apply (in_bind_seq _ _ _ (r / 16)); [|by apply (in_bind_seq _ _ _ (r mod 16)); [lia|]].
  split; [lia|]. apply Nat.Div0.div_lt_upper_bound. lia.
Qed.
Lemma tile_row t r : (128 * t + 16 * (r / 16) + r mod 16 = 128 * t + r)%nat.
Proof. pose proof (Nat.div_mod_eq r 16). lia. Qed.
Lemma n128_neon_ok out : length out = (ncols * 16)%nat → run_stores out (sse_trans_n128_neon inp ncols) = transposed inp 128 ncols.
Proof.
  intros Ho. unfold sse_trans_n128_neon. rewrite (bind_ext _ tile128) by (intros t _; apply neon_tile_ok).
  apply tiles_cover; [done| |].
  - intros s (t & (r & Hr & Hs)%tile128_out & [_ Ht]%elem_of_seq)%list_elem_of_bind. exists t, r, 1%nat. split; [lia|]. split; [lia|done].
  - intros t r Ht Hr. exists r, 1%nat. split; [lia|]. intros s Hs. apply (in_bind_seq _ _ _ t); [lia|].
    apply (in_tile r); [done|]. by rewrite tile_row.
Qed.
Lemma pair256_out t s : s ∈ pair256 t → ∃ r, (r < 128)%nat ∧ (s ∈ rows_at (128 * t + r) 1 ∨ s ∈ rows_at (128 * (t + 1) + r) 1).
Proof.
  intros (i & (r & Hs%elem_of_app & [_ Hr]%elem_of_seq)%list_elem_of_bind & [_ Hi]%elem_of_seq)%list_elem_of_bind.
  exists (16 * i + r)%nat. split; [lia|]. by rewrite !Nat.add_assoc.
Qed.
Lemma pair256_in t r s : (r < 128)%nat → s ∈ rows_at (128 * t + r) 1 ∨ s ∈ rows_at (128 * (t + 1) + r) 1 → s ∈ pair256 t.
Proof. intros Hr Hs. apply (in_tile r); [done|]. rewrite !tile_row. by apply elem_of_app. Qed.
Lemma gfni256_eq : sse_trans_n128_gfni256 inp ncols = (seq 0 (bpr / 2) ≫= λ i, pair256 (2 * i)) ++
  (seq (2 * (bpr / 2)) (bpr - 2 * (bpr / 2)) ≫= λ t, seq 0 8 ≫= λ rr_idx, sse_trans_n128_one_tile_sse2 inp ncols rr_idx t).
Proof. unfold sse_trans_n128_gfni256. f_equal. apply bind_seq_ext. intros i _. apply gfni256_pair_ok. Qed.
Lemma gfni256_good : Forall (good_store inp 128 ncols) (sse_trans_n128_gfni256 inp ncols).
Proof.
  rewrite gfni256_eq. pose proof bpr_cols. apply Forall_app. split.
  - apply good_bind_seq. intros i [_ Hi%pair_lt]. apply Forall_forall. intros s (r & Hr & Hs)%pair256_out.
    assert (∀ t, (t < bpr)%nat → Forall (good_store inp 128 ncols) (rows_at (128 * t + r) 1)) as HF by (intros t Ht; apply rows_good; lia).
    destruct Hs as [Hs|Hs]; (eapply (proj1 (Forall_forall _ _)); [|exact Hs]); apply HF; lia.
  - apply good_bind_seq. intros t Ht%last_lt. apply good_bind_seq. intros ri Hri. by apply one_tile_good; [| |lia|].
Qed.
Lemma gfni256_covers c s : (c < ncols)%nat → (s < 16)%nat → covers (sse_trans_n128_gfni256 inp ncols) (c * 16 + s).
Proof.
  intros Hc Hs. pose proof bpr_cols. pose proof (Nat.div_mod_eq c 128). pose proof (Nat.mod_upper_bound c 128).
  rewrite gfni256_eq. assert (c / 128 < bpr)%nat as [[Ht Hi]|Ht]%pair_or_last by lia.
  - exists (c * 16)%nat, (seq 0 1 ≫= λ b, row16 (c + b)).
    split; [|change (length (seq 0 1 ≫= λ b, row16 (c + b))) with 16%nat; lia].
    apply elem_of_app. left. apply (in_bind_seq _ _ _ (c / 128 / 2)); [lia|]. apply (pair256_in _ (c mod 128)); [lia|].
    pose proof (Nat.div_mod_eq (c / 128) 2). pose proof (Nat.mod_upper_bound (c / 128) 2).
    destruct (decide (c / 128 mod 2 = 0)%nat); [left|right]; apply list_elem_of_singleton; [replace (128 * (2 * (c / 128 / 2)) + c mod 128)%nat with c by lia|
      replace (128 * (2 * (c / 128 / 2) + 1) + c mod 128)%nat with c by lia]; reflexivity.
  - pose proof (Nat.div_mod_eq s 2). pose proof (Nat.mod_upper_bound s 2).
    apply (covers_u16 inp 128 ncols (s / 2) c); [|change (128 / 8)%nat with 16%nat; lia]. intros st Hst.
    apply elem_of_app. right. apply (in_bind_seq _ _ _ (c / 128)); [done|]. apply (in_bind_seq _ _ _ (s / 2)); [lia|].
    pose proof (Nat.div_mod_eq (c mod 128) 8). pose proof (Nat.mod_upper_bound (c mod 128) 8).
    apply (one_tile_in _ Hinp _ Hc128 _ _ (c mod 128 / 8) (c mod 128 mod 8)); [lia..|].
    by replace (8 * (16 * (c / 128) + c mod 128 / 8) + c mod 128 mod 8)%nat with c by lia.
Qed.
Lemma n128_gfni256_ok out : length out = (ncols * 16)%nat → run_stores out (sse_trans_n128_gfni256 inp ncols) = transposed inp 128 ncols.
Proof.
  intros Ho. apply run_stores_ok; [done|apply gfni256_good|]. intros o Ho'. left. change (128 / 8)%nat with 16%nat in Ho'.
  pose proof (Nat.div_mod_eq o 16). pose proof (Nat.mod_upper_bound o 16).
  replace o with (o / 16 * 16 + o mod 16)%nat by lia. apply gfni256_covers; [apply Nat.Div0.div_lt_upper_bound|]; lia.
Qed.
Lemma n128_ok tier junk upper out : Forall (λ v, v < 256)%N junk → length junk = 8%nat → length upper = 48%nat → length out = (ncols * 16)%nat →
  sse_trans_n128 tier inp ncols junk upper out = Ret (transposed inp 128 ncols).
Proof.
  intros Hj Hl Hu Ho. unfold sse_trans_n128. rewrite Hc128. cbn [Nat.eqb expecting mbind outcome_bind].
  destruct tier; (first [apply (f_equal Ret)|by apply sse_trans_ok; [|done|apply cols_mod8| | |]]).
  - by apply n128_gfni_ok.
  - by apply n128_gfni256_ok.
  - apply (n128_wide_ok inp Hinp ncols Hc128 4); [lia|done].
  - apply (n128_wide_ok inp Hinp ncols Hc128 2); [lia|done].
  - by apply n128_sse2_ok.
  - by apply n128_neon_ok.
Qed.
End tiles.

(** ** The matrix is transposed *)
Section matrix.
Context (inp : list N) (nrows ncols : nat) (Hr8 : (nrows mod 8 = 0)%nat) (Hc8 : (ncols mod 8 = 0)%nat).
Lemma length_transposed : length (transposed inp nrows ncols) = (ncols * (nrows / 8))%nat.
Proof. unfold transposed. by rewrite length_fmap, length_seq. Qed.
Lemma column_byte_lt rb c : (column_byte inp ncols rb c < 256)%N.
Proof. unfold column_byte. pose proof (bval_lt ((λ k, bit_at inp ncols (8 * rb + k) c) <$> seq 0 8)) as H. by rewrite length_fmap, length_seq in H. Qed.
Lemma transposed_bytes : Forall (λ v, v < 256)%N (transposed inp nrows ncols).
Proof. apply Forall_fmap, Forall_true. intros o. apply column_byte_lt. Qed.
Lemma transposed_bit r c : (r < nrows)%nat → (c < ncols)%nat →
  bit_at (transposed inp nrows ncols) nrows c r = bit_at inp ncols r c.
Proof.
  intros Hr Hc. pose proof (Nat.div_mod_eq r 8). pose proof (Nat.mod_upper_bound r 8). pose proof (Nat.div_mod_eq nrows 8).
  assert (r / 8 < nrows / 8)%nat as Hrb by lia. unfold bit_at at 1. unfold transposed, get.
  rewrite list_lookup_fmap, lookup_seq_lt by (by apply place). cbn [fmap option_fmap option_map default from_option id].
  rewrite Nat.add_0_l, target_at by done. unfold column_byte. rewrite bval_testbit, list_lookup_fmap, lookup_seq_lt by lia.
  cbn [fmap option_fmap option_map default from_option id]. rewrite Nat.add_0_l. by rewrite <- H.
Qed.
End matrix.
Lemma matrix_ext a b n m : (m mod 8 = 0)%nat → length a = (n * (m / 8))%nat → length b = (n * (m / 8))%nat →
  Forall (λ v, v < 256)%N a → Forall (λ v, v < 256)%N b →
  (∀ r c, (r < n)%nat → (c < m)%nat → bit_at a m r c = bit_at b m r c) → a = b.
Proof.
  intros Hm Hla Hlb Ha Hb Hbit. apply list_eq. intros o.
  destruct (decide (o < n * (m / 8))%nat) as [Ho|Ho]; [|by rewrite !lookup_ge_None_2 by lia].
  destruct (lookup_lt_is_Some_2 a o) as [x Hx]; [lia|]. destruct (lookup_lt_is_Some_2 b o) as [y Hy]; [lia|].
  rewrite Hx, Hy. f_equal. pose proof (Forall_lookup_1 _ _ _ _ Ha Hx) as Hx8. pose proof (Forall_lookup_1 _ _ _ _ Hb Hy) as Hy8.
  assert (m / 8 ≠ 0)%nat by (intros H0; rewrite H0 in Ho; lia).
  pose proof (Nat.div_mod_eq o (m / 8)). pose proof (Nat.mod_upper_bound o (m / 8)). pose proof (Nat.div_mod_eq m 8).
  apply N.bits_inj. intros i. destruct (N.ltb_spec i 8) as [Hi|Hi].
  2: { rewrite !(testbit_above 8 _ i); [done| | | |]; by assumption. }
  specialize (Hbit (o / (m / 8)) (8 * (o mod (m / 8)) + N.to_nat i))%nat. rewrite !bit_at_col in Hbit by (done || lia).
  replace (o / (m / 8) * (m / 8) + o mod (m / 8))%nat with o in Hbit by lia. unfold get in Hbit. rewrite Hx, Hy in Hbit.
  cbn [default from_option id] in Hbit. rewrite N2Nat.id in Hbit. apply Hbit; [apply Nat.Div0.div_lt_upper_bound|]; lia.
Qed.
Lemma transposed_twice inp nrows ncols : (nrows mod 8 = 0)%nat → (ncols mod 8 = 0)%nat → Forall (λ v, v < 256)%N inp →
  length inp = (nrows * (ncols / 8))%nat → transposed (transposed inp nrows ncols) ncols nrows = inp.
Proof.
  intros Hr Hc Hi Hl. apply (matrix_ext _ _ nrows ncols); [done|apply length_transposed|done|apply transposed_bytes|done|].
  intros r c Hrr Hcc. by rewrite !transposed_bit.
Qed.

(** C23: [sse_trans] stops unless both dimensions are multiples of eight, and then writes
    a matrix whose row [c], column [r] is row [r], column [c] of its input; transposing
    that gives the input back, whichever of its loops ran and whatever the temporary
    held.  Every kernel [sse_trans_n128] may be built with writes the same bytes. *)
Theorem transpose_correct inp nrows ncols junk upper out :
  Forall (λ v, v < 256)%N inp → Forall (λ v, v < 256)%N junk → length junk = 8%nat → length upper = 48%nat →
  length out = (ncols * (nrows / 8))%nat →
  (if ((nrows mod 8 =? 0)%nat && (ncols mod 8 =? 0)%nat) then
     ∃ o, sse_trans inp nrows ncols junk out = Ret o ∧ length o = length out ∧
       (∀ r c, (r < nrows)%nat → (c < ncols)%nat → bit_at o nrows c r = bit_at inp ncols r c) ∧
       (∀ back, length inp = (nrows * (ncols / 8))%nat → length back = length inp → sse_trans o ncols nrows junk back = Ret inp)
   else sse_trans inp nrows ncols junk out = Fatal "sse_trans: dimensions must be multiples of 8") ∧
  (nrows = 128%nat → ∀ tier, sse_trans_n128 tier inp ncols junk upper out =
     if (ncols mod 128 =? 0)%nat then sse_trans inp 128 ncols junk out
     else Fatal "sse_trans_n128: ncols must be a multiple of 128").
Proof.
  intros Hi Hj Hl Hu Ho. split.
  - destruct ((nrows mod 8 =? 0)%nat && (ncols mod 8 =? 0)%nat) eqn:H8.
    + apply andb_true_iff in H8 as [Hr%Nat.eqb_eq Hc%Nat.eqb_eq]. exists (transposed inp nrows ncols).
      split; [by apply sse_trans_ok|]. split; [by rewrite length_transposed|].
      split; [intros r c; by apply transposed_bit|]. intros back Hin Hb. rewrite sse_trans_ok; try done.
      * by rewrite transposed_twice.
      * apply transposed_bytes.
      * by rewrite Hb.
    + unfold sse_trans. by rewrite H8.
  - intros -> tier. destruct (Nat.eqb_spec (ncols mod 128) 0) as [H0|H0].
    + rewrite n128_ok, sse_trans_ok by (done || by apply cols_mod8). done.
    + unfold sse_trans_n128. by rewrite (proj2 (Nat.eqb_neq _ _) H0).
Qed.
Lemma transpose_correct_witness :
  let inp := (λ i, N.of_nat (i * i * 7 + 3) mod 256)%N <$> seq 0 72 in
  ∃ o, sse_trans inp 24 24 (replicate 8 5%N) (replicate 72 0%N) = Ret o ∧ length o = 72%nat ∧
    (∀ r c, (r < 24)%nat → (c < 24)%nat → bit_at o 24 c r = bit_at inp 24 r c) ∧
    (∀ back, length inp = 72%nat → length back = length inp → sse_trans o 24 24 (replicate 8 5%N) back = Ret inp).
Proof.
  intros inp. apply (transpose_correct inp 24 24 (replicate 8 5%N) (replicate 48 0%N) (replicate 72 0%N)).
  - apply Forall_fmap, Forall_true. intros i. by apply N.mod_lt.
  - by repeat constructor.
  - reflexivity.
  - reflexivity.
  - reflexivity.
Defined.
