(* ===== verification/SessionId.v ===== *)
(** * Session identifiers (runtime/crypto/session_id.h)

    A [SessionID] hands out child identifiers, the encryptions of a counter under
    the identifier.  Children of one session are distinct because AES under a fixed
    key is injective, which is proved here of the AES-128 of [Fips197]. *)

From S2P Require Import Prelude Bits Bytes Block AesSpec Crh AesNi Gf2.

(** ** The code

    [junk] is what the uninitialized [AES_KEY] holds. *)
Module SessionID.
Section session_id.
Context (vaes256 vaes512 aarch64 : bool) (junk : AES_KEY).
Record State := mkState { sid_ : block; counter_ : N }.
Definition new (sid : block) : State := mkState sid 0.
Definition default_ : State := new zero_block.
Definition value (s : State) : block := sid_ s.
Definition derive (s : State) : State * State :=
  let k := AES_set_encrypt_key (sid_ s) junk in
  let in_ := [makeBlock 0 (counter_ s)] in
  let out := AES_ecb_encrypt_blks_N vaes256 vaes512 aarch64 1 in_ k in
  (new (default zero_block (out !! 0%nat)), mkState (sid_ s) (u64 (counter_ s + 1))).
(** The children in the order they are constructed. *)
Fixpoint derive_many (n : nat) (s : State) : list State * State :=
  match n with
  | O => ([], s)
  | S n => let '(c, s) := derive s in let '(cs, s) := derive_many n s in (c :: cs, s)
  end.
End session_id.
End SessionID.

(** ** AES is injective *)
Module AesInjective.
Import Fips197.

(** The S-box by its inverse. *)
Definition inv_sbox : list N :=
  [0x52; 0x09; 0x6a; 0xd5; 0x30; 0x36; 0xa5; 0x38; 0xbf; 0x40; 0xa3; 0x9e; 0x81; 0xf3; 0xd7; 0xfb;
   0x7c; 0xe3; 0x39; 0x82; 0x9b; 0x2f; 0xff; 0x87; 0x34; 0x8e; 0x43; 0x44; 0xc4; 0xde; 0xe9; 0xcb;
   0x54; 0x7b; 0x94; 0x32; 0xa6; 0xc2; 0x23; 0x3d; 0xee; 0x4c; 0x95; 0x0b; 0x42; 0xfa; 0xc3; 0x4e;
   0x08; 0x2e; 0xa1; 0x66; 0x28; 0xd9; 0x24; 0xb2; 0x76; 0x5b; 0xa2; 0x49; 0x6d; 0x8b; 0xd1; 0x25;
   0x72; 0xf8; 0xf6; 0x64; 0x86; 0x68; 0x98; 0x16; 0xd4; 0xa4; 0x5c; 0xcc; 0x5d; 0x65; 0xb6; 0x92;
   0x6c; 0x70; 0x48; 0x50; 0xfd; 0xed; 0xb9; 0xda; 0x5e; 0x15; 0x46; 0x57; 0xa7; 0x8d; 0x9d; 0x84;
   0x90; 0xd8; 0xab; 0x00; 0x8c; 0xbc; 0xd3; 0x0a; 0xf7; 0xe4; 0x58; 0x05; 0xb8; 0xb3; 0x45; 0x06;
   0xd0; 0x2c; 0x1e; 0x8f; 0xca; 0x3f; 0x0f; 0x02; 0xc1; 0xaf; 0xbd; 0x03; 0x01; 0x13; 0x8a; 0x6b;
   0x3a; 0x91; 0x11; 0x41; 0x4f; 0x67; 0xdc; 0xea; 0x97; 0xf2; 0xcf; 0xce; 0xf0; 0xb4; 0xe6; 0x73;
   0x96; 0xac; 0x74; 0x22; 0xe7; 0xad; 0x35; 0x85; 0xe2; 0xf9; 0x37; 0xe8; 0x1c; 0x75; 0xdf; 0x6e;
   0x47; 0xf1; 0x1a; 0x71; 0x1d; 0x29; 0xc5; 0x89; 0x6f; 0xb7; 0x62; 0x0e; 0xaa; 0x18; 0xbe; 0x1b;
   0xfc; 0x56; 0x3e; 0x4b; 0xc6; 0xd2; 0x79; 0x20; 0x9a; 0xdb; 0xc0; 0xfe; 0x78; 0xcd; 0x5a; 0xf4;
   0x1f; 0xdd; 0xa8; 0x33; 0x88; 0x07; 0xc7; 0x31; 0xb1; 0x12; 0x10; 0x59; 0x27; 0x80; 0xec; 0x5f;
   0x60; 0x51; 0x7f; 0xa9; 0x19; 0xb5; 0x4a; 0x0d; 0x2d; 0xe5; 0x7a; 0x9f; 0x93; 0xc9; 0x9c; 0xef;
   0xa0; 0xe0; 0x3b; 0x4d; 0xae; 0x2a; 0xf5; 0xb0; 0xc8; 0xeb; 0xbb; 0x3c; 0x83; 0x53; 0x99; 0x61;
   0x17; 0x2b; 0x04; 0x7e; 0xba; 0x77; 0xd6; 0x26; 0xe1; 0x69; 0x14; 0x63; 0x55; 0x21; 0x0c; 0x7d]%N.
Definition inv_sbox_matches (v : N) : bool := (get inv_sbox (N.to_nat (sbox v)) =? v)%N.
Lemma inv_sbox_ok : forallb inv_sbox_matches all_bytes = true.
Proof. vm_compute. reflexivity. Qed.
Lemma inv_sbox_matches_true v : inv_sbox_matches v = true → get inv_sbox (N.to_nat (sbox v)) = v.
Proof. unfold inv_sbox_matches. generalize (get inv_sbox (N.to_nat (sbox v))). intros x Hx. by apply N.eqb_eq. Qed.
Lemma inv_sbox_at v : (v < 256)%N → get inv_sbox (N.to_nat (sbox v)) = v.
Proof.
  intros Hv. apply inv_sbox_matches_true, (proj1 (forallb_forall _ _) inv_sbox_ok), list_elem_of_In.
  by apply elem_all_bytes.
Qed.
Lemma sbox_inj a b : (a < 256)%N → (b < 256)%N → sbox a = sbox b → a = b.
Proof.
  intros Ha%inv_sbox_at Hb%inv_sbox_at. generalize dependent (sbox a). intros x Ha ->. by rewrite <- Ha.
Qed.

(** MixColumns by its inverse: on a column read as a number both are additive, so
    the 32 powers of two decide. *)
Lemma xtime_linear f : Linear f → Linear (λ x, xtime (f x)).
Proof. intros Hf. unfold xtime. apply _. Qed.
#[local] Instance gf_mul_linear f m : Linear f → Linear (λ x, gf_mul (f x) m).
Proof.
  intros Hf x y. unfold gf_mul. rewrite Hf.
  assert (∀ l acc acc', foldl (λ acc i, xtime acc ⊕ (if N.testbit m i then f x ⊕ f y else 0)) (acc ⊕ acc') l =
    foldl (λ acc i, xtime acc ⊕ (if N.testbit m i then f x else 0)) acc l ⊕
    foldl (λ acc i, xtime acc ⊕ (if N.testbit m i then f y else 0)) acc' l)%N as H; [|exact (H _ 0%N 0%N)].
  intros l. induction l as [|i l IH]; intros acc acc'; [done|]. cbn [foldl].
  rewrite (xtime_linear (λ x, x) _ acc acc'), <- IH. f_equal. destruct (N.testbit m i); [apply lxor_swap|].
  by rewrite !N.lxor_0_r.
Qed.
Definition byte (x : N) (k : N) : N := N.land (N.shiftr x (8 * k)) 0xff.
#[local] Instance byte_linear k : Linear (λ x, byte x k).
Proof. unfold byte. apply _. Qed.
Definition column_of (x : N) : bytes := [byte x 0; byte x 1; byte x 2; byte x 3].
Definition inv_rows : list (list N) := [[14; 11; 13; 9]; [9; 14; 11; 13]; [13; 9; 14; 11]; [11; 13; 9; 14]]%N.
Definition unmix (i : nat) (col : bytes) : N := mix_row (default [] (inv_rows !! i)) (mix_column col).
Lemma unmix_linear i : (i < 4)%nat → Linear (λ x, unmix i (column_of x)).
Proof.
  intros Hi. unfold unmix, column_of, mix_column, mix_row, inv_rows.
  destruct i as [|[|[|[|]]]]; [..|lia]; cbn [lookup list_lookup default fmap list_fmap zip_with foldr id option_bind from_option]; apply _.
Qed.
Lemma unmix_ok i x : (i < 4)%nat → (x < 2 ^ 32)%N → unmix i (column_of x) = byte x (N.of_nat i).
Proof.
  intros Hi Hx. apply (linear_check (λ x, unmix i (column_of x)) (λ x, byte x (N.of_nat i)) 32); [by apply unmix_linear|apply _| |done].
  destruct i as [|[|[|[|]]]]; [..|lia]; by vm_compute.
Qed.
Lemma column_value A B C D : (A < 256)%N → (B < 256)%N → (C < 256)%N → (D < 256)%N → ∃ x,
  (x < 2 ^ 32)%N ∧ column_of x = [A; B; C; D].
Proof.
  intros HA HB HC HD. exists (A + 256 * (B + 256 * (C + 256 * D)))%N. split; [lia|].
  unfold column_of, byte. change 0xff%N with (N.ones 8). rewrite !N.land_ones, !N.shiftr_div_pow2.
  change (2 ^ (8 * 0))%N with 1%N. change (2 ^ (8 * 1))%N with 256%N. change (2 ^ (8 * 2))%N with (256 * 256)%N.
  change (2 ^ (8 * 3))%N with (256 * (256 * 256))%N. change (2 ^ 8)%N with 256%N. rewrite <- !N.Div0.div_div, N.div_1_r.
  assert (∀ a q, (a < 256)%N → ((a + 256 * q) / 256 = q ∧ (a + 256 * q) mod 256 = a)%N) as H.
  { intros a q Ha. split; symmetry; [apply N.div_unique with a|apply N.mod_unique with q]; lia. }
  rewrite !(proj1 (H A _ HA)), !(proj1 (H B _ HB)), (proj1 (H C _ HC)), (proj2 (H A _ HA)), (proj2 (H B _ HB)), (proj2 (H C _ HC)).
  by rewrite N.mod_small.
Qed.
Lemma mix_column_inj c c' : byte_list 4 c → byte_list 4 c' → mix_column c = mix_column c' → c = c'.
Proof.
  intros (A & B & C & D & -> & HA & HB & HC & HD)%byte_list_4 (A' & B' & C' & D' & -> & HA' & HB' & HC' & HD')%byte_list_4 Heq.
  destruct (column_value A B C D) as (x & Hx & Hxc); [done..|]. destruct (column_value A' B' C' D') as (y & Hy & Hyc); [done..|].
  rewrite <- Hxc, <- Hyc in Heq. rewrite <- Hxc, <- Hyc. assert (∀ i, (i < 4)%nat → byte x (N.of_nat i) = byte y (N.of_nat i)) as H.
  { intros i Hi. rewrite <- !unmix_ok by done. unfold unmix. by rewrite Heq. }
  unfold column_of. assert (byte x 0 = byte y 0)%N as -> by (apply (H 0%nat); lia).
  assert (byte x 1 = byte y 1)%N as -> by (apply (H 1%nat); lia).
  assert (byte x 2 = byte y 2)%N as -> by (apply (H 2%nat); lia).
  by assert (byte x 3 = byte y 3)%N as -> by (apply (H 3%nat); lia).
Qed.

(** The round, step by step. *)
Lemma fmap_inj_Forall {A B} (f : A → B) (P : A → Prop) a b : (∀ x y, P x → P y → f x = f y → x = y) →
  Forall P a → Forall P b → f <$> a = f <$> b → a = b.
Proof.
  intros Hf Ha. revert b. induction Ha as [|x a Hx _ IH]; intros [|y b] Hb Heq; [done..|].
  inversion Hb; subst. rewrite !fmap_cons in Heq. injection Heq as Hxy Hab. f_equal; [by apply Hf|by apply IH].
Qed.
Lemma sub_bytes_inj n a b : byte_list n a → byte_list n b → sub_bytes a = sub_bytes b → a = b.
Proof. intros [_ Fa] [_ Fb]. apply (fmap_inj_Forall _ _ _ _ sbox_inj Fa Fb). Qed.
Lemma shift_rows_inj a b : length a = 16%nat → length b = 16%nat → shift_rows a = shift_rows b → a = b.
Proof.
  intros Ha Hb Heq. do 16 (destruct a as [|? a]; [done|]). destruct a; [|done].
  do 16 (destruct b as [|? b]; [done|]). destruct b; [|done].
  unfold shift_rows, get in Heq. cbn in Heq. by injection Heq as -> -> -> -> -> -> -> -> -> -> -> -> -> -> -> ->.
Qed.
Lemma xor_key_inj n a b k : length a = n → length b = n → length k = n → xor a k = xor b k → a = b.
Proof.
  intros <-. revert b k. induction a as [|x a IH]; intros [|y b] [|z k] Hb Hk; try done.
  cbn [xor zip_with]. intros Heq. injection Heq as Hx1 Hx2. f_equal.
  - by rewrite <- (N.lxor_0_r x), <- (N.lxor_nilpotent z), <- N.lxor_assoc, Hx1, N.lxor_assoc, N.lxor_nilpotent, N.lxor_0_r.
  - apply (IH b k); [by injection Hb|by injection Hk|done].
Qed.
Lemma columns_eq s : length s = 16%nat → s = flatten (column s <$> seq 0 4).
Proof. intros Hl. do 16 (destruct s as [|? s]; [done|]). by destruct s. Qed.
Lemma mix_columns_inj a b : byte_list 16 a → byte_list 16 b → mix_columns a = mix_columns b → a = b.
Proof.
  intros Ha Hb Heq. rewrite (columns_eq a), (columns_eq b) by first [apply Ha|apply Hb]. f_equal.
  apply list_fmap_ext. intros c ? [-> Hc]%lookup_seq.
  assert (∀ s, byte_list 16 s → byte_list 4 (column s c)) as Hcol by (intros s Hs; apply (byte_list_take_drop _ _ 16); [done|lia]).
  apply mix_column_inj; [by apply Hcol..|].
  assert (∀ s, byte_list 16 s → mix_column (column s c) = take 4 (drop (4 * c) (mix_columns s))) as Hpick.
  { intros s Hs. unfold mix_columns. cbn [seq fmap list_fmap flatten].
    assert (∀ c, length (mix_column (column s c)) = 4%nat) as Hlen by done.
    destruct c as [|[|[|[|]]]]; [reflexivity..|lia]. }
  by rewrite !Hpick, Heq.
Qed.
Lemma byte_list_round_key key r : byte_list 16 key → (r ≤ 10)%nat → byte_list 16 (round_key key r).
Proof. intros Hk Hr. exact (proj2 (spec_round_key key r Hk Hr)). Qed.
Lemma byte_list_round key s r : byte_list 16 key → byte_list 16 s → (r ≤ 10)%nat → byte_list 16 (round key s r).
Proof.
  intros Hk Hs Hr. apply byte_list_xor; [|by apply byte_list_round_key].
  assert (byte_list 16 (shift_rows (sub_bytes s))) by by apply byte_list_shift_rows, byte_list_sub.
  destruct (Nat.eqb r 10); [done|by apply byte_list_mix_columns].
Qed.
Lemma round_inj key a b r : byte_list 16 key → byte_list 16 a → byte_list 16 b → (r ≤ 10)%nat →
  round key a r = round key b r → a = b.
Proof.
  intros Hk Ha Hb Hr Heq.
  assert (∀ s, byte_list 16 s → byte_list 16 (shift_rows (sub_bytes s))) as Hsr by (intros; by apply byte_list_shift_rows, byte_list_sub).
  pose proof (Hsr a Ha) as Ha'. pose proof (Hsr b Hb) as Hb'. pose proof (byte_list_round_key key r Hk Hr) as Hrk.
  apply (sub_bytes_inj 16); [done..|]. apply shift_rows_inj; [by apply byte_list_sub..|].
  unfold round in Heq. destruct (Nat.eqb r 10).
  - by apply (xor_key_inj 16) in Heq; [|apply Ha'|apply Hb'|apply Hrk].
  - apply (xor_key_inj 16) in Heq; [|by apply byte_list_mix_columns..|apply Hrk]. by apply mix_columns_inj.
Qed.
(** For a fixed key, different plaintexts have different ciphertexts. *)
Lemma encrypt_inj key a b : byte_list 16 key → byte_list 16 a → byte_list 16 b → encrypt a key = encrypt b key → a = b.
Proof.
  intros Hk Ha Hb. unfold encrypt. pose proof (byte_list_round_key key 0 Hk ltac:(lia)) as H0.
  assert (∀ l x y, Forall (λ r, r ≤ 10)%nat l → byte_list 16 x → byte_list 16 y →
    foldl (round key) x l = foldl (round key) y l → x = y) as Hfold.
  { intros l. induction l as [|r l IH]; intros x y Hl Hx Hy; [done|]. inversion Hl; subst. cbn [foldl]. intros Heq.
    apply (round_inj key _ _ r); [done..|]. apply IH; [done|by apply byte_list_round..|done]. }
  intros Heq. apply Hfold in Heq; [|by apply Forall_forall; intros r ?%elem_of_seq; lia|by apply byte_list_xor..].
  by apply (xor_key_inj 16) in Heq; [|apply Ha|apply Hb|apply H0].
Qed.
End AesInjective.

(** ** Children *)
Import SessionID.
Section children.
Context (vaes256 vaes512 aarch64 : bool) (junk : AES_KEY) (Hjunk : length junk = 11%nat).
Abbreviation derive := (derive vaes256 vaes512 aarch64 junk).
Abbreviation derive_many := (derive_many vaes256 vaes512 aarch64 junk).

Definition child (sid : block) (i : N) : block := aes_block (AES_set_encrypt_key sid junk) (makeBlock 0 i).
Lemma derive_eq s : derive s = (new (child (sid_ s) (counter_ s)), mkState (sid_ s) (u64 (counter_ s + 1))).
Proof.
  unfold SessionID.derive, child. generalize (AES_set_encrypt_key (sid_ s) junk), (makeBlock 0 (counter_ s)). intros kk x.
  unfold AES_ecb_encrypt_blks_N. rewrite ParaEnc_impl_ok by done.
  change (key_at [kk]) with (λ k, key_at [kk] k). generalize aes_block. intros f. reflexivity.
Qed.
Lemma child_ok sid i : le_bytes 16 (child sid i) = Fips197.encrypt (le_bytes 8 i ++ le_bytes 8 0) (le_bytes 16 sid).
Proof. unfold child. rewrite (aes_block_ok _ sid) by by apply key_schedule_one. by rewrite le_bytes_makeBlock. Qed.
Lemma child_inj sid i j : (i < 2 ^ 64)%N → (j < 2 ^ 64)%N → child sid i = child sid j → i = j.
Proof.
  intros Hi Hj Heq. apply (f_equal (le_bytes 16)) in Heq. rewrite !child_ok in Heq.
  apply AesInjective.encrypt_inj in Heq; [|apply byte_list_le|apply (byte_list_app 8 8); apply byte_list_le..].
  apply app_inj_1 in Heq as [Heq _]; [|by rewrite !length_le_bytes].
  apply (f_equal le_value) in Heq. rewrite !le_value_bytes in Heq. by rewrite !N.mod_small in Heq.
Qed.
Lemma counted_S {A} (g : N → A) n k : (k < 2 ^ 64)%N →
  g k :: ((λ i, g (u64 (u64 (k + 1) + N.of_nat i))) <$> seq 0 n) = (λ i, g (u64 (k + N.of_nat i))) <$> seq 0 (S n).
Proof.
  intros Hk. cbn [seq]. rewrite fmap_cons, <- fmap_S_seq, <- list_fmap_compose. f_equal.
  - f_equal. rewrite N.add_0_r. symmetry. by apply N.mod_small.
  - apply list_fmap_ext. intros i ? _. unfold compose. f_equal. rewrite u64_add_l. f_equal. lia.
Qed.
Lemma derive_many_eq n sid k : (k < 2 ^ 64)%N → derive_many n (mkState sid k) =
  ((λ i, new (child sid (u64 (k + N.of_nat i)))) <$> seq 0 n, mkState sid (u64 (k + N.of_nat n))).
Proof.
  revert k. induction n as [|n IH]; intros k Hk.
  - cbn [SessionID.derive_many seq fmap list_fmap]. rewrite N.add_0_r. unfold u64. by rewrite N.mod_small.
  - cbn [SessionID.derive_many]. rewrite derive_eq. cbn [sid_ counter_]. rewrite IH by apply u64_lt.
    apply f_equal2; [exact (counted_S (λ i, new (child sid i)) n k Hk)|].
    apply f_equal. rewrite u64_add_l. apply f_equal. lia.
Qed.
(** What follows of that alone. *)
Lemma counted_children (ch : N → block) (E : N → list N) n : (N.of_nat n ≤ 2 ^ 64)%N → (∀ i, le_bytes 16 (ch i) = E i) →
  (∀ i j, (i < 2 ^ 64)%N → (j < 2 ^ 64)%N → ch i = ch j → i = j) →
  let cs := (λ i, new (ch (u64 (0 + N.of_nat i)))) <$> seq 0 n in
  length cs = n ∧ (∀ i c, cs !! i = Some c → counter_ c = 0%N ∧ le_bytes 16 (value c) = E (N.of_nat i)) ∧
  NoDup (value <$> cs) ∧ (le_bytes 16 ∘ value) <$> cs = (λ i, E (u64 (N.of_nat i))) <$> seq 0 n.
Proof.
  intros Hn Hok Hinj cs. unfold cs.
  assert (∀ i, (i < n)%nat → u64 (0 + N.of_nat i) = N.of_nat i) as Hu by (intros i Hi; rewrite N.add_0_l; apply N.mod_small; lia).
  split; [by rewrite length_fmap, length_seq|]. split; [|split].
  - intros i c. rewrite list_lookup_fmap. intros (j & [-> Hi]%lookup_seq & ->)%fmap_Some. split; [done|].
    rewrite Nat.add_0_l, Hu by done. apply Hok.
  - rewrite <- list_fmap_compose. apply NoDup_alt. intros i j x. rewrite !list_lookup_fmap.
    intros (i' & [-> Hi]%lookup_seq & ->)%fmap_Some (j' & [-> Hj']%lookup_seq & Heq)%fmap_Some.
    unfold compose, value in Heq. cbn [sid_ new] in Heq. rewrite !Nat.add_0_l, !Hu in Heq by done.
    apply Hinj in Heq; lia.
  - rewrite <- list_fmap_compose. apply list_fmap_ext. intros i ? _. apply Hok.
Qed.
Lemma derive_many_ok n sid : (N.of_nat n ≤ 2 ^ 64)%N → ∃ cs, derive_many n (new sid) = (cs, mkState sid (u64 (N.of_nat n))) ∧
  length cs = n ∧ (∀ i c, cs !! i = Some c → counter_ c = 0%N ∧ 
     le_bytes 16 (value c) = Fips197.encrypt (le_bytes 8 (N.of_nat i) ++ le_bytes 8 0) (le_bytes 16 sid)) ∧
  NoDup (value <$> cs) ∧ (le_bytes 16 ∘ value) <$> cs =
    (λ i, Fips197.encrypt (le_bytes 8 (u64 (N.of_nat i)) ++ le_bytes 8 0) (le_bytes 16 sid)) <$> seq 0 n.
Proof.
  intros Hn. eexists. split; [exact (derive_many_eq n sid 0 eq_refl)|].
  exact (counted_children (child sid) (λ i, Fips197.encrypt (le_bytes 8 i ++ le_bytes 8 0) (le_bytes 16 sid)) n Hn (child_ok sid) (child_inj sid)).
Qed.
End children.

(** C20: The identifiers a session hands out, on any build (x86 with any of the VAES
    widths, or aarch64) and whatever the uninitialized key held.  The [i]th child starts its own counter and is the AES-128 encryption, as
    FIPS-197 has it, of [i] under the parent's identifier; the parent keeps its identifier
    and counts.  All the children of a session are distinct, as many as its counter can
    number; two ends that derive the same number of children get the same ones. *)
Theorem session_ids_distinct vaes256 vaes512 aarch64 junk sid n :
  length junk = 11%nat → (N.of_nat n ≤ 2 ^ 64)%N →
  let '(cs, s) := derive_many vaes256 vaes512 aarch64 junk n (new sid) in
  length cs = n ∧ s = mkState sid (u64 (N.of_nat n)) ∧
  (∀ i c, cs !! i = Some c → counter_ c = 0%N ∧
     le_bytes 16 (value c) = Fips197.encrypt (le_bytes 8 (N.of_nat i) ++ le_bytes 8 0) (le_bytes 16 sid)) ∧
  NoDup (value <$> cs) ∧
  (∀ vaes256' vaes512' aarch64' junk', length junk' = 11%nat →
     (le_bytes 16 ∘ value) <$> (derive_many vaes256' vaes512' aarch64' junk' n (new sid)).1 = (le_bytes 16 ∘ value) <$> cs).
Proof.
  intros Hj Hn. destruct (derive_many_ok vaes256 vaes512 aarch64 junk Hj n sid Hn) as (cs & Heq & Hl & Hc & Hd & Hb).
  destruct (derive_many vaes256 vaes512 aarch64 junk n (new sid)) as [cs0 s0]. apply pair_eq in Heq as [Hcs Hs]. subst cs0 s0.
  split; [exact Hl|]. split; [reflexivity|]. split; [exact Hc|]. split; [exact Hd|].
  intros v2 v5 va j' Hj'. destruct (derive_many_ok v2 v5 va j' Hj' n sid Hn) as (cs' & Heq & _ & _ & _ & Hb').
  destruct (derive_many v2 v5 va j' n (new sid)) as [cs0 s0]. apply pair_eq in Heq as [Hcs _]. subst cs0. exact (eq_trans Hb' (eq_sym Hb)).
Qed.
Lemma session_ids_distinct_witness :
  let '(cs, s) := derive_many true false false (replicate 11 9%N) 3 (new 0x0f0e0d0c0b0a09080706050403020100) in
  NoDup (value <$> cs) ∧ length cs = 3%nat ∧ s = mkState 0x0f0e0d0c0b0a09080706050403020100 3.
Proof.
  assert (N.of_nat 3 ≤ 2 ^ 64)%N as H3 by done.
  pose proof (session_ids_distinct true false false (replicate 11 9%N) 0x0f0e0d0c0b0a09080706050403020100 3 eq_refl H3) as H.
  destruct (derive_many true false false (replicate 11 9%N) 3 (new 0x0f0e0d0c0b0a09080706050403020100)) as [cs s].
  destruct H as (Hl & Hs & _ & Hd & _). split; [exact Hd|]. split; [exact Hl|exact Hs].
Defined.
