(* ===== verification/Residues.v ===== *)
(** * Squares modulo a prime

    What the map to the curve rests on: modulo an odd prime half of the nonzero
    residues are squares, so the product of two that are not is one. *)

From Stdlib Require Import Zdivisibility.
From S2P Require Import Prelude.

#[local] Open Scope Z_scope.
(** [a] is a square modulo [p]. *)
Definition square (p a : Z) : Prop := ∃ y, y * y mod p = a mod p.

Section residues.
Context (p : Z) (Hp : Z.prime p) (Hodd : 2 < p).
Lemma p_pos : 0 < p.
Proof. lia. Qed.
Lemma mod_eq_divide a b : a mod p = b mod p ↔ (p | a - b).
Proof.
  split; intros H.
  - apply Z.mod_divide; [lia|]. by rewrite Zminus_mod, H, Z.sub_diag, Zmod_0_l.
  - destruct H as [k Hk]. replace a with (b + k * p) by lia. apply Z_mod_plus_full.
Qed.
Lemma divide_small a : (p | a) → - p < a < p → a = 0.
Proof. intros [k ->] Ha. assert (k = 0) as -> by nia. lia. Qed.
Lemma square_mod a b : a mod p = b mod p → square p a → square p b.
Proof. intros Hab [y Hy]. exists y. congruence. Qed.
(** A factor prime to [p] cancels. *)
Lemma mod_cancel a b c : a mod p ≠ 0 → a * b mod p = a * c mod p → b mod p = c mod p.
Proof.
  rewrite !mod_eq_divide. intros Ha H. replace (a * b - a * c) with (a * (b - c)) in H by ring.
  apply Z.divide_prime_mul in H as [H|H]; [|done|done]. destruct Ha. by apply Z.mod_divide; [lia|].
Qed.
Lemma mul_nonzero a b : a mod p ≠ 0 → b mod p ≠ 0 → a * b mod p ≠ 0.
Proof.
  intros Ha Hb H. apply Hb. rewrite <- (Zmod_0_l p). apply (mod_cancel a); [done|]. by rewrite Z.mul_0_r, Zmod_0_l.
Qed.
Lemma inverse_exists a : a mod p ≠ 0 → ∃ i, a * i mod p = 1 mod p.
Proof.
  intros Ha. assert (Z.coprime p a) as (v & u & Huv)%Z.Bezout_coprime.
  { apply Z.coprime_prime_l; [done|]. intros Hd. apply Ha. by apply Z.mod_divide; [lia|]. }
  exists u. apply mod_eq_divide. exists (- v). lia.
Qed.

(** The squares of [1], ..., [(p - 1) / 2], all different. *)
Definition half : nat := Z.to_nat ((p - 1) / 2).
Definition roots : list Z := Z.of_nat <$> seq 1 half.
Definition squares : list Z := (λ x, x * x mod p) <$> roots.
Lemma half_eq : p = 2 * Z.of_nat half + 1.
Proof.
  unfold half. rewrite Z2Nat.id by (apply Z.div_pos; lia). destruct (Zeven_odd_dec p) as [He|Ho].
  - apply Zeven_ex in He as [k ->]. assert (2 | 2 * k) as H2 by (exists k; lia).
    apply (Z.divide_prime_r _ _ Hp) in H2. lia.
  - apply Zodd_ex in Ho as [k ->]. replace (2 * k + 1 - 1) with (k * 2) by lia. rewrite Z.div_mul by lia. lia.
Qed.
Lemma elem_of_roots x : x ∈ roots ↔ 1 ≤ x ∧ 2 * x < p.
Proof.
  unfold roots. rewrite list_elem_of_fmap. pose proof half_eq. split.
  - intros (i & -> & Hi%elem_of_seq). lia.
  - intros Hx. exists (Z.to_nat x). split; [lia|]. apply elem_of_seq. lia.
Qed.
Lemma root_range x : x ∈ roots → 0 < x < p.
Proof. rewrite elem_of_roots. lia. Qed.
Lemma mod_small_ne a : 0 < a < p → a mod p ≠ 0.
Proof. intros Ha. rewrite Z.mod_small; lia. Qed.
Lemma root_inj x y : x ∈ roots → y ∈ roots → x * x mod p = y * y mod p → x = y.
Proof.
  rewrite !elem_of_roots, mod_eq_divide. intros Hx Hy H. replace (x * x - y * y) with ((x - y) * (x + y)) in H by ring.
  apply Z.divide_prime_mul in H as [H%divide_small|H%divide_small]; [lia..|done].
Qed.
Lemma NoDup_map_inj {A B} (f : A → B) l : (∀ x y, x ∈ l → y ∈ l → f x = f y → x = y) → NoDup l → NoDup (f <$> l).
Proof.
  intros Hf Hl. induction Hl as [|x l Hx Hl IH]; [constructor|]. rewrite fmap_cons. constructor.
  - intros (y & Hxy & Hy)%list_elem_of_fmap. apply Hx. rewrite (Hf x y); [done|by left|by right|done].
  - apply IH. intros a b Ha Hb. apply Hf; by right.
Qed.
Lemma NoDup_squares : NoDup squares.
Proof. apply NoDup_map_inj; [apply root_inj|]. apply NoDup_fmap_2; [intros x y; lia|apply NoDup_seq]. Qed.
Lemma length_squares : length squares = half.
Proof. unfold squares, roots. by rewrite !length_fmap, length_seq. Qed.
Lemma squares_square s : s ∈ squares → square p s ∧ 0 < s < p.
Proof.
  intros (x & -> & Hx)%list_elem_of_fmap. split; [exists x; by rewrite Zmod_mod|].
  apply root_range in Hx. pose proof (Z.mod_pos_bound (x * x) p p_pos).
  assert (x * x mod p ≠ 0) by (apply mul_nonzero; by apply mod_small_ne). lia.
Qed.
(** Half the nonzero residues are squares, so what is not a square is each multiple of one. *)
Lemma nonsquare_multiple a b : ¬ square p a → ¬ square p b → ∃ s, s ∈ squares ∧ b mod p = a * s mod p.
Proof.
  intros Ha Hb. assert (∀ c, ¬ square p c → c mod p ≠ 0) as Hnz.
  { intros c Hc H0. apply Hc. exists 0. by rewrite H0. }
  set (multiples := (λ s, a * s mod p) <$> squares).
  assert (NoDup multiples) as Hnd.
  { apply NoDup_map_inj; [|apply NoDup_squares]. intros x y [_ Hx]%squares_square [_ Hy]%squares_square H.
    apply mod_cancel in H; [|by apply Hnz]. rewrite !Z.mod_small in H by lia. done. }
  assert (∀ s, s ∈ squares → s ∈ multiples → False) as Hdis.
  { intros s Hs (s' & -> & Hs')%list_elem_of_fmap. apply squares_square in Hs as [[y Hy] _]. rewrite Zmod_mod in Hy.
    apply list_elem_of_fmap in Hs' as (x & -> & Hx%root_range). rewrite Zmult_mod_idemp_r in Hy.
    destruct (inverse_exists x) as [i Hi]; [by apply mod_small_ne|]. apply Ha. exists (y * i).
    replace (y * i * (y * i)) with (y * y * (i * i)) by ring. rewrite Zmult_mod, Hy, <- Zmult_mod.
    replace (a * (x * x) * (i * i)) with (a * ((x * i) * (x * i))) by ring.
    rewrite Zmult_mod, (Zmult_mod (x * i)), Hi, <- (Zmult_mod 1), <- Zmult_mod. f_equal. ring. }
  assert (b mod p ∈ squares ++ multiples) as Hin.
  { assert (squares ++ multiples ≡ₚ (Z.of_nat <$> seq 1 (half + half))) as ->.
    - apply submseteq_length_Permutation.
      + apply NoDup_submseteq; [apply NoDup_app; split; [apply NoDup_squares|split; [exact Hdis|exact Hnd]]|]. pose proof half_eq. intros s Hs. apply list_elem_of_fmap.
        assert (0 < s < p) as Hr.
        { apply elem_of_app in Hs as [[_ Hs]%squares_square|(s' & -> & [_ Hs']%squares_square)%list_elem_of_fmap]; [done|].
          pose proof (Z.mod_pos_bound (a * s') p p_pos).
          assert (a * s' mod p ≠ 0) by (apply mul_nonzero; [by apply Hnz|by apply mod_small_ne]). lia. }
        exists (Z.to_nat s). split; [lia|]. apply elem_of_seq. lia.
      + unfold multiples. rewrite length_app, !length_fmap, length_seq. fold squares. rewrite length_squares. lia.
    - apply list_elem_of_fmap. pose proof (Z.mod_pos_bound b p p_pos). pose proof (Hnz b Hb). pose proof half_eq.
      exists (Z.to_nat (b mod p)). split; [lia|]. apply elem_of_seq. lia. }
  apply elem_of_app in Hin as [Hin|(s & Hbs & Hs)%list_elem_of_fmap]; [|by exists s].
  destruct Hb. apply squares_square in Hin as [[y Hy] _]. exists y. by rewrite Hy, Zmod_mod.
Qed.
Lemma nonsquare_mul a b : ¬ square p a → ¬ square p b → square p (a * b).
Proof.
  intros Ha Hb. destruct (nonsquare_multiple a b Ha Hb) as (s & (x & -> & _)%list_elem_of_fmap & Hbs).
  exists (a * x). rewrite Zmult_mod_idemp_r in Hbs. rewrite (Zmult_mod a b), Hbs, <- Zmult_mod. f_equal. ring.
Qed.
End residues.
