(* ===== verification/HashToCurve.v ===== *)
(** * Hashing to the curve (runtime/crypto/ec.cpp, ro.h)

    [ECGroup::hash_to_point] and what it is made of, beside RFC 9380.  OpenSSL's big
    numbers, its SHA-256 and its curve are parameters: [LawfulBigNum] and
    [LawfulCurve] state what their documentation promises.  Memory is taken not to
    run out, so allocations and copies are assignments. *)

From S2P Require Import Prelude Bits Bytes Block Hash Residues.
From Stdlib Require Import Zdivisibility.

#[local] Open Scope Z_scope.

(** ** What OpenSSL provides: a call gives [None] where it reports failure *)
Class BigNum := {
  BN_mod_sqr : Z → Z → option Z;
  BN_mod_mul : Z → Z → Z → option Z;
  BN_mod_add : Z → Z → Z → option Z;
  BN_sub : Z → Z → option Z;
  BN_mod : Z → Z → option Z;
  BN_mod_inverse : Z → Z → option Z;
  BN_mod_sqrt : Z → Z → option Z;
  BN_bin2bn : list N → option Z }.
Class LawfulBigNum `{!BigNum} : Prop := {
  mod_sqr_law a m : 0 < m → BN_mod_sqr a m = Some (a * a mod m);
  mod_mul_law a b m : 0 < m → BN_mod_mul a b m = Some (a * b mod m);
  mod_add_law a b m : 0 < m → BN_mod_add a b m = Some ((a + b) mod m);
  sub_law a b : BN_sub a b = Some (a - b);
  mod_law a m : 0 ≤ a → 0 < m → BN_mod a m = Some (a mod m);
  (** The inverse, if there is one. *)
  mod_inverse_law a m : 1 < m →
    match BN_mod_inverse a m with
    | Some i => 0 ≤ i < m ∧ a * i mod m = 1
    | None => ∀ i, a * i mod m ≠ 1
    end;
  (** A square root modulo a prime, if there is one. *)
  mod_sqrt_law a p : Z.prime p →
    match BN_mod_sqrt a p with
    | Some y => 0 ≤ y < p ∧ y * y mod p = a mod p
    | None => ¬ square p a
    end;
  bin2bn_law l : BN_bin2bn l = Some (Z.of_N (be_value l)) }.
(** The curve [y^2 = x^3 + A x + B] over the field of [p] elements, and its points. *)
Class Curve (P : Type) := {
  EC_GROUP_get_curve : Z * Z * Z;
  EC_POINT_set_affine_coordinates : Z → Z → option P;
  EC_POINT_add : P → P → option P;
  EC_POINT_is_on_curve : P → bool }.
Definition curve_g (A B x : Z) : Z := x * x * x + A * x + B.
Class LawfulCurve (P : Type) `{!Curve P} : Prop := {
  curve_prime : Z.prime (EC_GROUP_get_curve.1.1);
  curve_large : 10 < EC_GROUP_get_curve.1.1;
  curve_A : 0 < EC_GROUP_get_curve.1.2 < EC_GROUP_get_curve.1.1;
  curve_B : 0 < EC_GROUP_get_curve.2 < EC_GROUP_get_curve.1.1;
  (** What RFC 9380 asks of [Z], which is [-10] in the suite of P-256. *)
  curve_Z_nonsquare : ¬ square (EC_GROUP_get_curve.1.1) (EC_GROUP_get_curve.1.1 - 10);
  curve_Z_exceptional x :
    x * ((EC_GROUP_get_curve.1.1 - 10) * EC_GROUP_get_curve.1.2) mod EC_GROUP_get_curve.1.1 = EC_GROUP_get_curve.2 →
    square (EC_GROUP_get_curve.1.1) (curve_g (EC_GROUP_get_curve.1.2) (EC_GROUP_get_curve.2) x);
  set_affine_law x y :
    y * y mod EC_GROUP_get_curve.1.1 = curve_g (EC_GROUP_get_curve.1.2) (EC_GROUP_get_curve.2) x mod EC_GROUP_get_curve.1.1 →
    ∃ Q, EC_POINT_set_affine_coordinates x y = Some Q ∧ EC_POINT_is_on_curve Q = true;
  add_law Q R : EC_POINT_is_on_curve Q = true → EC_POINT_is_on_curve R = true →
    ∃ S, EC_POINT_add Q R = Some S ∧ EC_POINT_is_on_curve S = true }.

(** [expecting] of a call that returns something. *)
Definition ok {A} (r : option A) (msg : string) : outcome A :=
  match r with Some x => Ret x | None => Fatal msg end.

(** ** RFC 9380 *)
Module Rfc9380.
Definition I2OSP (x n : nat) : list N := reverse (le_bytes n (N.of_nat x)).
Definition OS2IP (l : list N) : N := be_value l.
Definition strxor (a b : list N) : list N := zip_with N.lxor a b.
Definition substr (l : list N) (off n : nat) : list N := take n (drop off l).
Section suite.
Context (H : list N → list N).
Definition DST_prime (dst : list N) : list N := dst ++ I2OSP (length dst) 1.
Definition b_0 (msg dst : list N) (len : nat) : list N :=
  H (I2OSP 0 64 ++ msg ++ I2OSP len 2 ++ I2OSP 0 1 ++ DST_prime dst).
(** [b_i] for [i = k + 1]. *)
Fixpoint b (b0 dst : list N) (k : nat) : list N :=
  match k with
  | O => H (b0 ++ I2OSP 1 1 ++ DST_prime dst)
  | S k' => H (strxor b0 (b b0 dst k') ++ I2OSP (S (S k')) 1 ++ DST_prime dst)
  end.
(** 5.3.1, with a hash of 32 bytes and blocks of 64. *)
Definition expand_message_xmd (msg dst : list N) (len : nat) : option (list N) :=
  let ell := ((len + 31) / 32)%nat in
  if (255 <? ell)%nat || (65535 <? N.of_nat len)%N || (255 <? length dst)%nat then None else
  Some (substr (flatten (b (b_0 msg dst len) dst <$> seq 0 ell)) 0 len).
(** 5.2, for two elements of a prime field at 48 bytes each. *)
Definition hash_to_field (p : Z) (msg dst : list N) : option (Z * Z) :=
  uniform ← expand_message_xmd msg dst 96;
  Some (Z.of_N (OS2IP (substr uniform 0 48)) mod p, Z.of_N (OS2IP (substr uniform 48 48)) mod p).
End suite.
(** 6.6.2, as what it asks of [x] and [y]. *)
Definition sgn0 (x : Z) : bool := Z.odd x.
Definition inv0 (p v i : Z) : Prop := if decide (v mod p = 0) then i mod p = 0 else v * i mod p = 1.
Definition map_to_curve_simple_swu (p A B Z_ u x y : Z) : Prop :=
  ∃ tv1 x1 x2, inv0 p (Z_ * Z_ * (u * u * u * u) + Z_ * (u * u)) tv1 ∧
    (if decide (tv1 mod p = 0) then x1 * (Z_ * A) mod p = B mod p else x1 * A mod p = - B * (1 + tv1) mod p) ∧
    x2 mod p = Z_ * (u * u) * x1 mod p ∧
    (square p (curve_g A B x1) → x mod p = x1 mod p) ∧ (¬ square p (curve_g A B x1) → x mod p = x2 mod p) ∧
    y * y mod p = curve_g A B x mod p ∧ (y mod p = 0 ∨ sgn0 u = sgn0 y).
End Rfc9380.

(** ** The code *)
Section expand.
Context {St : Type} `{!StreamHash St}.
(** [EVP_DigestInit_ex], a run of [EVP_DigestUpdate], [EVP_DigestFinal_ex]. *)
Definition EVP_Digest (chunks : list (list N)) : list N := hash_final (foldl hash_update hash_init chunks).
Definition expand_loop (out_len : nat) (b0 dst_prime : list N) (s : list N * list N) (i : nat) : list N * list N :=
  let '(out, prev) := s in
  let tmp := (λ j, N.lxor (get b0 j) (get prev j)) <$> seq 0 32 in
  let bi := EVP_Digest [tmp; [N.of_nat i mod 256]%N; dst_prime] in
  let off := ((i - 1) * 32)%nat in
  (store out off (take (Nat.min (out_len - off) 32) bi), bi).
(** [out] holds at least [out_len] bytes. *)
Definition expand_message_xmd_sha256 (out : list N) (out_len : nat) (msg dst : list N) : outcome (list N) :=
  let b_in_bytes := 32%nat in
  expecting ((N.of_nat out_len <=? 65535)%N && (length dst <=? 255)%nat) "H2C XMD len";;
  let ell := ((out_len + b_in_bytes - 1) / b_in_bytes)%nat in
  expecting (ell <=? 255)%nat "H2C XMD ell";;
  let dst_prime := dst ++ [N.of_nat (length dst) mod 256]%N in
  let z_pad := replicate 64 0%N in
  let l_i_b_str := [N.shiftr (N.of_nat out_len) 8 mod 256; N.land (N.of_nat out_len) 0xff]%N in
  let b0 := EVP_Digest [z_pad; msg; l_i_b_str; [0%N]; dst_prime] in
  let bi := EVP_Digest [b0; [1%N]; dst_prime] in
  let out := store out 0 (take (Nat.min out_len b_in_bytes) bi) in
  mret (foldl (expand_loop out_len b0 dst_prime) (out, bi) (seq 2 (ell - 1))).1.
End expand.

Section to_curve.
Context `{!BigNum}.
Definition hash_to_field_p256 {St} `{!StreamHash St} (buf : list N) (p : Z) (msg dst : list N) : outcome (Z * Z) :=
  let L := 48%nat in
  buf ← expand_message_xmd_sha256 buf (2 * L) msg dst;
  u0 ← ok (BN_bin2bn (take L buf)) "hash_to_field: BN_bin2bn u0";
  u0 ← ok (BN_mod u0 p) "hash_to_field: BN_mod u0";
  u1 ← ok (BN_bin2bn (take L (drop L buf))) "hash_to_field: BN_bin2bn u1";
  u1 ← ok (BN_mod u1 p) "hash_to_field: BN_mod u1";
  mret (u0, u1).
(** [x^3 + A x + B], each step checked. *)
Definition sswu_rhs (p A B x1 : Z) (msg : string) : outcome Z :=
  tmp ← ok (BN_mod_sqr x1 p) msg;
  gx ← ok (BN_mod_mul tmp x1 p) msg;
  tmp ← ok (BN_mod_mul A x1 p) msg;
  gx ← ok (BN_mod_add gx tmp p) msg;
  ok (BN_mod_add gx B p) msg.
Definition sswu_x1 (p A B Z_ tv1 : Z) : outcome Z :=
  if tv1 =? 0 then
    tmp ← ok (BN_mod_mul Z_ A p) "SSWU: BN_mod_mul (Z*A)";
    tmp ← ok (BN_mod_inverse tmp p) "SSWU: Z*A not invertible";
    ok (BN_mod_mul B tmp p) "SSWU: BN_mod_mul (x1=B/(Z*A))"
  else
    inv ← ok (BN_mod_inverse tv1 p) "SSWU: tv1 not invertible";
    one_plus ← ok (BN_mod_add 1 inv p) "SSWU: BN_mod_add/sub (else-branch)";
    negB ← ok (BN_sub p B) "SSWU: BN_mod_add/sub (else-branch)";
    Ainv ← ok (BN_mod_inverse A p) "SSWU: A not invertible";
    tmp ← ok (BN_mod_mul negB Ainv p) "SSWU: BN_mod_mul (x1)";
    ok (BN_mod_mul tmp one_plus p) "SSWU: BN_mod_mul (x1)".
Definition map_to_curve_sswu_p256 (u p A B Z_ : Z) : outcome (Z * Z) :=
  u2 ← ok (BN_mod_sqr u p) "SSWU: BN_mod_* (t/tv1)";
  t ← ok (BN_mod_mul Z_ u2 p) "SSWU: BN_mod_* (t/tv1)";
  tmp ← ok (BN_mod_sqr t p) "SSWU: BN_mod_* (t/tv1)";
  tv1 ← ok (BN_mod_add tmp t p) "SSWU: BN_mod_* (t/tv1)";
  x1 ← sswu_x1 p A B Z_ tv1;
  gx ← sswu_rhs p A B x1 "SSWU: BN_mod_* (gx1)";
  '(x, y) ←
    match BN_mod_sqrt gx p with
    | Some y => Ret (x1, y)
    | None =>
        x1 ← ok (BN_mod_mul t x1 p) "SSWU: BN_mod_* (gx2)";
        gx ← sswu_rhs p A B x1 "SSWU: BN_mod_* (gx2)";
        y ← ok (BN_mod_sqrt gx p) "H2C SSWU: neither candidate square";
        Ret (x1, y)
    end;
  y ← (if Bool.eqb (Z.odd u) (Z.odd y) then Ret y else ok (BN_sub p y) "SSWU: BN_sub (sgn0)");
  mret (x, y).
(** The only suite there is; its subtraction is not checked. *)
Context (NID_X9_62_prime256v1 : Z).
Definition sswu_z_for_curve (p : Z) (curve_nid : Z) : outcome Z :=
  if curve_nid =? NID_X9_62_prime256v1 then mret (default 10 (BN_sub p 10))
  else Fatal "hash_to_point: unsupported curve (no SSWU Z table entry)".
Definition hash_to_point {P} `{!Curve P} {St} `{!StreamHash St} (curve_nid : Z) (buf msg dst : list N) : outcome P :=
  let '(p, A, B) := EC_GROUP_get_curve in
  Z_ ← sswu_z_for_curve p curve_nid;
  '(u0, u1) ← hash_to_field_p256 buf p msg dst;
  '(x0, y0) ← map_to_curve_sswu_p256 u0 p A B Z_;
  '(x1, y1) ← map_to_curve_sswu_p256 u1 p A B Z_;
  Q0 ← ok (EC_POINT_set_affine_coordinates x0 y0) "hash_to_point: EC_POINT_set_affine_coordinates";
  Q1 ← ok (EC_POINT_set_affine_coordinates x1 y1) "hash_to_point: EC_POINT_set_affine_coordinates";
  out ← ok (EC_POINT_add Q0 Q1) "H2C ADD";
  expecting (EC_POINT_is_on_curve out) "H2C result not on curve";;
  mret out.
(** [RO::squeeze_point]: the transcript under the domain as tag. *)
Definition squeeze_point {P} `{!Curve P} {St} `{!StreamHash St} (curve_nid : Z) (buf : list N) (ro : RO.State) : outcome P :=
  hash_to_point curve_nid buf (RO.buf_ ro) (RO.domain_ ro).
End to_curve.

(** ** Expanding the message *)
Section expand_ok.
Context {St : Type} `{!StreamHash St} {Hlaw : LawfulHash St} (H32 : ∀ m, length (hash_fn m) = 32%nat).
Abbreviation H := (hash_fn (St := St)).
Lemma EVP_Digest_ok chunks : EVP_Digest chunks = H (flatten chunks).
Proof. apply hash_chunks. Qed.
Lemma i2osp_1 n : (n < 256)%nat → Rfc9380.I2OSP n 1 = [N.of_nat n mod 256]%N.
Proof. intros Hn. unfold Rfc9380.I2OSP. rewrite le_bytes_S. reflexivity. Qed.
Lemma i2osp_2 n : Rfc9380.I2OSP n 2 = [N.shiftr (N.of_nat n) 8 mod 256; N.land (N.of_nat n) 0xff]%N.
Proof.
  unfold Rfc9380.I2OSP. rewrite !le_bytes_S, !reverse_cons. change (reverse (le_bytes 0 (N.of_nat n / 256 / 256))) with (@nil N). cbn [app].
  change 0xff%N with (N.ones 8). by rewrite N.land_ones, N.shiftr_div_pow2.
Qed.
Lemma b_length b0 dst k : length (Rfc9380.b H b0 dst k) = 32%nat.
Proof. destruct k; apply H32. Qed.
Lemma xor_get a b n : length a = n → length b = n → (λ j, N.lxor (get a j) (get b j)) <$> seq 0 n = zip_with N.lxor a b.
Proof.
  intros Ha Hb. apply list_eq. intros i. rewrite list_lookup_fmap, lookup_zip_with.
  destruct (decide (i < n)%nat) as [Hi|Hi].
  - rewrite lookup_seq_lt by done. destruct (lookup_lt_is_Some_2 a i) as [x Hx]; [lia|]. destruct (lookup_lt_is_Some_2 b i) as [y Hy]; [lia|].
    unfold get. cbn. by rewrite Hx, Hy.
  - rewrite lookup_seq_ge, (lookup_ge_None_2 a) by lia. done.
Qed.
(** Writing the blocks one after the other. *)
Lemma store_next n (out pre blk : list N) : length out = n → length blk = 32%nat → (length pre ≤ n)%nat →
  store (pre ++ drop (length pre) out) (length pre) (take (Nat.min (n - length pre) 32) blk) =
  take n (pre ++ blk) ++ drop (length pre + 32) out.
Proof.
  intros Hn Hb Hl. unfold store. rewrite take_app_length, (take_app_ge pre) by lia.
  rewrite drop_app_ge by (rewrite length_take; lia). rewrite drop_drop, length_take, <- app_assoc. f_equal. f_equal.
  - destruct (decide (n - length pre ≤ 32)%nat); [by rewrite Nat.min_l by lia|]. rewrite Nat.min_r, !take_ge by lia. done.
  - destruct (decide (n - length pre ≤ 32)%nat); [rewrite !drop_ge by lia; done|]. f_equal. lia.
Qed.
Lemma blocks_length b0 dst m : length (flatten (Rfc9380.b H b0 dst <$> seq 0 m)) = (32 * m)%nat.
Proof.
  rewrite (flatten_length_same 32) by (apply Forall_fmap, Forall_true; intros k; apply b_length).
  by rewrite length_fmap, length_seq.
Qed.
Lemma blocks_S b0 dst m : flatten (Rfc9380.b H b0 dst <$> seq 0 (S m)) = flatten (Rfc9380.b H b0 dst <$> seq 0 m) ++ Rfc9380.b H b0 dst m.
Proof. rewrite seq_S, fmap_app. unfold flatten. rewrite join_app. cbn. by rewrite app_nil_r. Qed.
Lemma expand_loop_ok out n b0 dst m : length out = n → length b0 = 32%nat → (length dst ≤ 255)%nat → (32 * S m ≤ n + 31)%nat → (S m ≤ 255)%nat →
  foldl (expand_loop n b0 (Rfc9380.DST_prime dst))
    (store out 0 (take (Nat.min n 32) (Rfc9380.b H b0 dst 0)), Rfc9380.b H b0 dst 0) (seq 2 m) =
  (take n (flatten (Rfc9380.b H b0 dst <$> seq 0 (S m))) ++ drop (32 * S m) out, Rfc9380.b H b0 dst m).
Proof.
  intros Hn Hb0 Hd. induction m as [|m IH]; intros Hm H255.
  - cbn [seq foldl]. f_equal. pose proof (store_next n out [] (Rfc9380.b H b0 dst 0) Hn (b_length _ _ _) ltac:(cbn; lia)) as Hs.
    cbn [length app drop] in Hs. rewrite Nat.sub_0_r, drop_0 in Hs. rewrite Hs. cbn [fmap list_fmap seq]. unfold flatten. cbn [mjoin list_join].
    by rewrite app_nil_r.
  - rewrite seq_S, foldl_app, IH by lia. cbn [foldl expand_loop].
    rewrite (xor_get b0 (Rfc9380.b H b0 dst m) 32), EVP_Digest_ok by (done || apply b_length).
    assert (H (flatten [zip_with N.lxor b0 (Rfc9380.b H b0 dst m); [(N.of_nat (2 + m) mod 256)%N]; Rfc9380.DST_prime dst]) =
      Rfc9380.b H b0 dst (S m)) as ->.
    { cbn [Rfc9380.b]. rewrite i2osp_1 by lia. unfold flatten. cbn [mjoin list_join app]. by rewrite app_nil_r. }
    f_equal. rewrite (take_ge (flatten _)) by (rewrite blocks_length; lia).
    replace ((2 + m - 1) * 32)%nat with (length (flatten (Rfc9380.b H b0 dst <$> seq 0 (S m)))) by (rewrite blocks_length; lia).
    replace (32 * S m)%nat with (length (flatten (Rfc9380.b H b0 dst <$> seq 0 (S m)))) at 1 by (rewrite blocks_length; lia).
    rewrite store_next by (done || apply b_length || rewrite blocks_length; lia). rewrite <- blocks_S, blocks_length.
    f_equal. f_equal. lia.
Qed.
Lemma expand_ok out n msg dst : length out = n →
  expand_message_xmd_sha256 out n msg dst =
    match Rfc9380.expand_message_xmd H msg dst n with
    | Some u => Ret u
    | None => Fatal (if (N.of_nat n <=? 65535)%N && (length dst <=? 255)%nat then "H2C XMD ell" else "H2C XMD len")
    end.
Proof.
  intros Hn. unfold expand_message_xmd_sha256, Rfc9380.expand_message_xmd.
  replace (n + 32 - 1)%nat with (n + 31)%nat by lia. set (ell := ((n + 31) / 32)%nat).
  pose proof (Nat.div_mod_eq (n + 31) 32) as Hdm. pose proof (Nat.mod_upper_bound (n + 31) 32 ltac:(lia)) as Hm. fold ell in Hdm.
  destruct (N.leb_spec (N.of_nat n) 65535) as [Hn16|Hn16].
  2: { rewrite (proj2 (N.ltb_lt _ _) Hn16). by rewrite !orb_true_r. }
  rewrite (proj2 (N.ltb_ge _ _) Hn16). destruct (Nat.leb_spec (length dst) 255) as [Hd|Hd].
  2: { rewrite (proj2 (Nat.ltb_lt _ _) Hd). by rewrite !orb_true_r. }
  rewrite (proj2 (Nat.ltb_ge _ _) Hd), !orb_false_r. cbn [andb expecting mbind outcome_bind].
  destruct (Nat.leb_spec ell 255) as [He|He].
  2: { by rewrite (proj2 (Nat.ltb_lt _ _) He). }
  rewrite (proj2 (Nat.ltb_ge _ _) He). cbn [expecting mbind outcome_bind]. cbv zeta. unfold mret, outcome_ret. f_equal.
  assert (dst ++ [(N.of_nat (length dst) mod 256)%N] = Rfc9380.DST_prime dst) as -> by (unfold Rfc9380.DST_prime; by rewrite i2osp_1 by lia).
  assert (EVP_Digest [replicate 64 0%N; msg; [(N.shiftr (N.of_nat n) 8 mod 256)%N; N.land (N.of_nat n) 0xff]; [0%N]; Rfc9380.DST_prime dst] =
    Rfc9380.b_0 H msg dst n) as ->.
  { rewrite EVP_Digest_ok. unfold Rfc9380.b_0. f_equal. rewrite i2osp_2, i2osp_1 by lia. unfold flatten. cbn [mjoin list_join app].
    by rewrite app_nil_r. }
  set (b0 := Rfc9380.b_0 H msg dst n).
  assert (EVP_Digest [b0; [1%N]; Rfc9380.DST_prime dst] = Rfc9380.b H b0 dst 0) as ->.
  { rewrite EVP_Digest_ok. cbn [Rfc9380.b]. rewrite i2osp_1 by lia. unfold flatten. cbn [mjoin list_join app]. by rewrite app_nil_r. }
  unfold Rfc9380.substr. rewrite drop_0. destruct ell as [|m].
  - assert (n = 0)%nat as -> by lia. destruct out; [|done]. reflexivity.
  - replace (S m - 1)%nat with m by lia. rewrite expand_loop_ok by (done || lia || apply H32). cbn [fst].
    rewrite drop_ge by lia. by rewrite app_nil_r.
Qed.
End expand_ok.

(** ** The map to the curve *)
Lemma curve_g_mod p A B x : 0 < p → curve_g A B (x mod p) mod p = curve_g A B x mod p.
Proof.
  intros Hp. set (m := x mod p). assert (p | m - x) as [k Hk].
  { exists (- (x / p)). unfold m. pose proof (Z.div_mod x p). lia. }
  replace (curve_g A B m) with (curve_g A B x + (k * (m * m + m * x + x * x + A)) * p); [apply Z_mod_plus_full|].
  unfold curve_g. replace (k * (m * m + m * x + x * x + A) * p) with (k * p * (m * m + m * x + x * x + A)) by ring.
  rewrite <- Hk. ring.
Qed.
Section sswu_ok.
Context `{!BigNum} {Hbn : LawfulBigNum} (p A B Z_ : Z) (Hp : Z.prime p) (Hodd : 2 < p).
Context (HA : A mod p ≠ 0) (HZ : ¬ square p Z_).
Context (Hexc : ∀ x, x * (Z_ * A) mod p = B mod p → square p (curve_g A B x)).
Lemma Z_nonzero : Z_ mod p ≠ 0.
Proof. intros H0. apply HZ. exists 0. by rewrite H0. Qed.
(** A linear combination of multiples of [p] is one. *)
Lemma combine c1 c2 h1 h2 d : (p | h1) → (p | h2) → d = c1 * h1 + c2 * h2 → (p | d).
Proof. intros H1 H2 ->. apply Z.divide_add_r; by apply Z.divide_mul_r. Qed.
Lemma mod_divide a : (p | a mod p - a).
Proof. apply mod_eq_divide; [lia|]. by rewrite Zmod_mod. Qed.
Lemma inverse_ok a msg : a mod p ≠ 0 → ∃ i, ok (BN_mod_inverse a p) msg = Ret i ∧ (p | a * i - 1).
Proof.
  intros Ha. pose proof (mod_inverse_law a p ltac:(lia)) as Hl. destruct (BN_mod_inverse a p) as [i|].
  - exists i. split; [done|]. apply mod_eq_divide; [lia|]. rewrite (Z.mod_small 1) by lia. apply Hl.
  - destruct (inverse_exists p Hp ltac:(lia) a Ha) as [i Hi]. destruct (Hl i). by rewrite Hi, Z.mod_small by lia.
Qed.
Lemma sswu_rhs_ok x msg : sswu_rhs p A B x msg = Ret (curve_g A B x mod p).
Proof.
  unfold sswu_rhs. rewrite mod_sqr_law by lia. cbn [ok mbind outcome_bind]. rewrite mod_mul_law by lia. cbn [ok mbind outcome_bind].
  rewrite mod_mul_law by lia. cbn [ok mbind outcome_bind]. rewrite mod_add_law by lia. cbn [ok mbind outcome_bind].
  rewrite mod_add_law by lia. cbn [ok]. f_equal. unfold curve_g.
  rewrite Zmult_mod_idemp_l, Zplus_mod_idemp_l, <- Z.add_assoc, Zplus_mod_idemp_l, (Z.add_comm (A * x mod p)), Z.add_assoc, Zplus_mod_idemp_r.
  f_equal. ring.
Qed.
(** The first candidate. *)
Definition first_candidate (tv1 x1 : Z) : Prop :=
  if decide (tv1 mod p = 0) then x1 * (Z_ * A) mod p = B mod p
  else ∃ i, (p | tv1 * i - 1) ∧ (p | x1 * A + B * (1 + i)).
Lemma sswu_x1_ok tv1 : 0 ≤ tv1 < p → ∃ x1, sswu_x1 p A B Z_ tv1 = Ret x1 ∧ first_candidate tv1 x1.
Proof.
  intros Hr. unfold sswu_x1, first_candidate. rewrite (Z.mod_small tv1) by done. destruct (Z.eqb_spec tv1 0) as [->|Hnz].
  - rewrite mod_mul_law by lia. cbn [ok mbind outcome_bind].
    destruct (inverse_ok (Z_ * A mod p) "SSWU: Z*A not invertible") as (i & -> & Hi).
    { rewrite Zmod_mod. apply mul_nonzero; [done|lia|apply Z_nonzero|done]. }
    cbn [mbind outcome_bind]. rewrite mod_mul_law by lia. eexists. split; [done|]. rewrite decide_True by done. apply mod_eq_divide; [lia|].
    apply (combine (Z_ * A) 1 (B * i mod p - B * i) (B * (Z_ * A * i - 1))); [apply mod_divide| |ring].
    apply Z.divide_mul_r. apply (combine 1 (- i) (Z_ * A mod p * i - 1) (Z_ * A mod p - Z_ * A)); [done|apply mod_divide|ring].
  - destruct (inverse_ok tv1 "SSWU: tv1 not invertible") as (i & -> & Hi); [by rewrite Z.mod_small|].
    cbn [mbind outcome_bind]. rewrite mod_add_law by lia. cbn [ok mbind outcome_bind]. rewrite sub_law. cbn [ok mbind outcome_bind].
    destruct (inverse_ok A "SSWU: A not invertible") as (a & -> & Ha); [done|]. cbn [mbind outcome_bind].
    rewrite mod_mul_law by lia. cbn [ok mbind outcome_bind]. rewrite mod_mul_law by lia. eexists. split; [done|].
    rewrite decide_False by done. exists i. split; [done|]. rewrite <- Zmult_mod.
    apply (combine A (- (B * (1 + i))) ((p - B) * a * (1 + i) mod p + B * a * (1 + i)) (A * a - 1)); [|done|ring].
    apply (combine 1 (a * (1 + i)) ((p - B) * a * (1 + i) mod p - (p - B) * a * (1 + i)) p); [apply mod_divide|apply Z.divide_refl|ring].
Qed.
(** One of the candidates lies on the curve. *)
Lemma second_candidate u t tv1 x1 : (p | t - Z_ * (u * u)) → (p | tv1 - (t * t + t)) → first_candidate tv1 x1 →
  ¬ square p (curve_g A B x1) → square p (curve_g A B (t * x1)).
Proof.
  intros Ht Htv Hf Hns. unfold first_candidate in Hf. destruct (decide (tv1 mod p = 0)) as [H0|H0].
  { destruct Hns. by apply Hexc. }
  destruct Hf as (i & Hi & Hx). assert (p | curve_g A B (t * x1) - t * t * t * curve_g A B x1) as Hg.
  { apply (combine (t - t * t * t) (- (B * (1 - t))) (x1 * A + B * (1 + i)) ((t * t + t) * i - 1)); [done| |unfold curve_g; ring].
    apply (combine 1 (- i) (tv1 * i - 1) (tv1 - (t * t + t))); [done|done|ring]. }
  destruct (nonsquare_mul p Hp Hodd Z_ (curve_g A B x1) HZ Hns) as [w Hw]. apply mod_eq_divide in Hw; [|lia].
  exists (Z_ * (u * u * u) * w). apply mod_eq_divide; [lia|].
  set (g := curve_g A B x1) in *. set (z := Z_ * (u * u)) in *.
  assert (p | t * t * t * g - z * z * z * g) as Hc.
  { replace (t * t * t * g - z * z * z * g) with ((t * t + t * z + z * z) * g * (t - z)) by ring. by apply Z.divide_mul_r. }
  apply (combine 1 (-1) ((Z_ * (u * u * u)) * (Z_ * (u * u * u)) * (w * w - Z_ * g)) (curve_g A B (t * x1) - z * z * z * g)).
  - by apply Z.divide_mul_r.
  - apply (combine 1 1 (curve_g A B (t * x1) - t * t * t * g) (t * t * t * g - z * z * z * g)); [done|done|ring].
  - unfold z. ring.
Qed.
Lemma sqrt_ok a : match BN_mod_sqrt (a mod p) p with
  | Some y => 0 ≤ y < p ∧ y * y mod p = a mod p | None => ¬ square p a end.
Proof.
  pose proof (mod_sqrt_law (a mod p) p Hp) as Hl. destruct (BN_mod_sqrt (a mod p) p); [by rewrite Zmod_mod in Hl|].
  intros Hs. apply Hl. eapply square_mod; [|exact Hs]. by rewrite Zmod_mod.
Qed.
Lemma sgn_ok u y msg : 0 ≤ y < p → ∃ y', (if Bool.eqb (Z.odd u) (Z.odd y) then Ret y else ok (BN_sub p y) msg) = Ret y' ∧
  y' * y' mod p = y * y mod p ∧ (y' mod p = 0 ∨ Z.odd u = Z.odd y').
Proof.
  intros Hy. destruct (Bool.eqb (Z.odd u) (Z.odd y)) eqn:He.
  - exists y. split; [done|]. split; [done|]. right. by apply eqb_prop.
  - rewrite sub_law. exists (p - y). split; [done|]. split.
    + apply mod_eq_divide; [lia|]. exists (p - 2 * y). ring.
    + right. rewrite Z.odd_sub. apply eqb_false_iff in He.
      assert (Z.odd p = true) as ->. { rewrite (half_eq p Hp Hodd), Z.odd_add, Z.odd_mul. done. }
      destruct (Z.odd u), (Z.odd y); done.
Qed.
Lemma map_to_curve_ok u : ∃ x y, map_to_curve_sswu_p256 u p A B Z_ = Ret (x, y) ∧
  Rfc9380.map_to_curve_simple_swu p A B Z_ u x y.
Proof.
  unfold map_to_curve_sswu_p256. rewrite mod_sqr_law by lia. cbn [ok mbind outcome_bind]. rewrite mod_mul_law by lia. cbn [ok mbind outcome_bind].
  rewrite mod_sqr_law by lia. cbn [ok mbind outcome_bind]. rewrite mod_add_law by lia. cbn [ok mbind outcome_bind].
  rewrite Zmult_mod_idemp_r. set (t := Z_ * (u * u) mod p). rewrite Zplus_mod_idemp_l. set (tv1 := (t * t + t) mod p).
  assert (p | t - Z_ * (u * u)) as Ht by apply mod_divide. assert (p | tv1 - (t * t + t)) as Htv by apply mod_divide.
  destruct (sswu_x1_ok tv1) as (x1 & -> & Hf); [by apply Z.mod_pos_bound; lia|]. cbn [mbind outcome_bind].
  rewrite sswu_rhs_ok. cbn [mbind outcome_bind].
  assert (∀ x y, (square p (curve_g A B x1) → x = x1) → (¬ square p (curve_g A B x1) → x = t * x1 mod p) → y * y mod p = curve_g A B x mod p →
    (y mod p = 0 ∨ Z.odd u = Z.odd y) → Rfc9380.map_to_curve_simple_swu p A B Z_ u x y) as Hspec.
  { intros x y Hx1 Hx2 Hy Hs. assert (p | Z_ * Z_ * (u * u * u * u) + Z_ * (u * u) - tv1) as Hv.
    { set (z := Z_ * (u * u)) in *. apply (combine (- (t + z + 1)) (-1) (t - z) (tv1 - (t * t + t))); [done|done|unfold z; ring]. }
    unfold first_candidate in Hf. destruct (decide (tv1 mod p = 0)) as [H0|H0].
    - exists 0, x1, (t * x1). unfold Rfc9380.inv0. rewrite decide_True by (apply mod_eq_divide in Hv; [congruence|lia]).
      split; [apply Zmod_0_l|]. rewrite (decide_True (P := 0 mod p = 0)) by apply Zmod_0_l. split; [done|].
      split; [unfold t; by rewrite Zmult_mod_idemp_l|]. split; [intros Hsq; by rewrite (Hx1 Hsq)|].
      split; [intros Hsq; by rewrite (Hx2 Hsq), Zmod_mod|]. done.
    - destruct Hf as (i & Hi & Hxi). exists i, x1, (t * x1). unfold Rfc9380.inv0. rewrite decide_False by (apply mod_eq_divide in Hv; [congruence|lia]).
      split.
      { rewrite <- (Z.mod_small 1 p) by lia. apply mod_eq_divide; [lia|].
        apply (combine i 1 (Z_ * Z_ * (u * u * u * u) + Z_ * (u * u) - tv1) (tv1 * i - 1)); [done|done|ring]. }
      rewrite decide_False.
      2: { intros Hi0. apply Z.mod_divide in Hi0; [|lia]. assert (p | 1) as H1%Z.divide_pos_le by (apply (combine tv1 (-1) i (tv1 * i - 1)); [done|done|ring]); lia. }
      split; [apply mod_eq_divide; [lia|]; by replace (x1 * A - - B * (1 + i)) with (x1 * A + B * (1 + i)) by ring|].
      split; [unfold t; by rewrite Zmult_mod_idemp_l|]. split; [intros Hsq; by rewrite (Hx1 Hsq)|].
      split; [intros Hsq; by rewrite (Hx2 Hsq), Zmod_mod|]. done. }
  pose proof (sqrt_ok (curve_g A B x1)) as Hs1. destruct (BN_mod_sqrt (curve_g A B x1 mod p) p) as [y|].
  - destruct Hs1 as [Hy Hyy]. cbn [mbind outcome_bind]. destruct (sgn_ok u y "SSWU: BN_sub (sgn0)" Hy) as (y' & -> & Hy' & Hsg).
    exists x1, y'. split; [done|]. apply Hspec; [done| |by rewrite Hy'|done]. intros Hn. destruct Hn. by exists y.
  - rewrite mod_mul_law by lia. cbn [ok mbind outcome_bind]. rewrite sswu_rhs_ok. cbn [mbind outcome_bind].
    pose proof (sqrt_ok (curve_g A B (t * x1 mod p))) as Hs2. destruct (BN_mod_sqrt (curve_g A B (t * x1 mod p) mod p) p) as [y|].
    + destruct Hs2 as [Hy Hyy]. cbn [ok mbind outcome_bind]. destruct (sgn_ok u y "SSWU: BN_sub (sgn0)" Hy) as (y' & -> & Hy' & Hsg).
      eexists _, y'. split; [done|]. apply Hspec; [done|done|by rewrite Hy'|done].
    + destruct Hs2. pose proof (second_candidate u t tv1 x1 Ht Htv Hf Hs1) as Hs. eapply square_mod; [|exact Hs].
      symmetry. apply curve_g_mod. lia.
Qed.
End sswu_ok.

(** ** The point *)
Section point_ok.
Context `{!BigNum} {Hbn : LawfulBigNum} {St : Type} `{!StreamHash St} {Hlaw : LawfulHash St} (H32 : ∀ m, length (hash_fn m) = 32%nat).
Lemma hash_to_field_ok buf p msg dst : length buf = 96%nat → 0 < p → hash_to_field_p256 buf p msg dst =
  match Rfc9380.hash_to_field hash_fn p msg dst with Some us => Ret us | None => Fatal "H2C XMD len" end.
Proof.
  intros Hb Hp. unfold hash_to_field_p256. cbv zeta. rewrite (expand_ok H32) by done. unfold Rfc9380.hash_to_field.
  assert (length dst ≤ 255 → Rfc9380.expand_message_xmd hash_fn msg dst (2 * 48) ≠ None)%nat as Hdef.
  { intros Hd. unfold Rfc9380.expand_message_xmd. by rewrite (proj2 (Nat.ltb_ge _ _) Hd). }
  change (Rfc9380.expand_message_xmd hash_fn msg dst 96) with (Rfc9380.expand_message_xmd hash_fn msg dst (2 * 48)).
  destruct (Rfc9380.expand_message_xmd hash_fn msg dst (2 * 48)) as [u|].
  - cbn [mbind outcome_bind option_bind]. rewrite !bin2bn_law. cbn [ok mbind outcome_bind].
    rewrite !mod_law by (done || apply N2Z.is_nonneg). cbn [ok mbind outcome_bind]. unfold Rfc9380.substr. by rewrite drop_0.
  - destruct (Nat.leb_spec (length dst) 255) as [Hd|Hd]; [by destruct (Hdef Hd)|]. by rewrite andb_false_r.
Qed.
Lemma hash_to_field_defined p msg dst : is_Some (Rfc9380.hash_to_field hash_fn p msg dst) ↔ (length dst ≤ 255)%nat.
Proof.
  unfold Rfc9380.hash_to_field, Rfc9380.expand_message_xmd. change ((255 <? (96 + 31) / 32)%nat) with false.
  change ((65535 <? N.of_nat 96)%N) with false. cbn [orb]. destruct (Nat.ltb_spec 255 (length dst)).
  - split; [by intros [? ?]|lia].
  - split; [done|intros _; eexists; reflexivity].
Qed.
End point_ok.

(** C26: Hashing to the curve is hash_to_curve of RFC 9380 with SHA-256, the simplified
    SWU map and [Z = -10].  With an honest big-number library and a curve that meets the
    conditions of the suite, a message under a tag of at most 255 bytes always gives a
    point: the sum of the images of the two field elements [hash_to_field] makes of
    them, each an affine point the map admits, with the sign of its element; no
    candidate fails and no other check can.  A longer tag, or another curve, stops the
    process.  The point oracle does the same with its transcript and domain. *)
Theorem hash_to_point_correct {P} `{!BigNum} {Hbn : LawfulBigNum} `{!Curve P} {Hcurve : LawfulCurve P}
    {St} `{!StreamHash St} {Hlaw : LawfulHash St} (NID nid : Z) (buf msg dst : list N) (ro : RO.State) :
  (∀ m, length (hash_fn m) = 32%nat) → length buf = 96%nat →
  let '(p, A, B) := EC_GROUP_get_curve in
  (if nid =? NID then
    match Rfc9380.hash_to_field hash_fn p msg dst with
    | None => (255 < length dst)%nat ∧ hash_to_point NID nid buf msg dst = Fatal "H2C XMD len"
    | Some (u0, u1) => (length dst ≤ 255)%nat ∧ ∃ x0 y0 x1 y1 Q0 Q1 R,
        Rfc9380.map_to_curve_simple_swu p A B (p - 10) u0 x0 y0 ∧ Rfc9380.map_to_curve_simple_swu p A B (p - 10) u1 x1 y1 ∧
        EC_POINT_set_affine_coordinates x0 y0 = Some Q0 ∧ EC_POINT_set_affine_coordinates x1 y1 = Some Q1 ∧
        EC_POINT_add Q0 Q1 = Some R ∧ EC_POINT_is_on_curve R = true ∧ hash_to_point NID nid buf msg dst = Ret R
    end
  else hash_to_point NID nid buf msg dst = Fatal "hash_to_point: unsupported curve (no SSWU Z table entry)") ∧
  (RO.buf_ ro = msg → RO.domain_ ro = dst → squeeze_point NID nid buf ro = hash_to_point NID nid buf msg dst).
Proof.
  intros H32 Hb. destruct EC_GROUP_get_curve as [[p A] B] eqn:Hcv.
  pose proof curve_prime as Hp. pose proof curve_large as Hl. pose proof curve_A as HA. pose proof curve_B as HB.
  pose proof curve_Z_nonsquare as HZ. pose proof curve_Z_exceptional as HE. pose proof set_affine_law as Haff.
  rewrite Hcv in Hp, Hl, HA, HB, HZ. setoid_rewrite Hcv in HE. setoid_rewrite Hcv in Haff. cbn [fst snd] in *.
  split; [|by intros <- <-]. unfold hash_to_point. rewrite Hcv. unfold sswu_z_for_curve. destruct (nid =? NID); [|done].
  rewrite sub_law. cbn [default from_option id mbind outcome_bind mret outcome_ret]. rewrite (hash_to_field_ok H32) by (done || lia).
  pose proof (hash_to_field_defined (St := St) p msg dst) as Hdef.
  destruct (Rfc9380.hash_to_field hash_fn p msg dst) as [[u0 u1]|].
  2: { split; [|done]. destruct (decide (length dst ≤ 255)%nat) as [Hd|Hd]; [|lia]. apply Hdef in Hd as [? ?]. done. }
  split; [by apply Hdef|]. cbn [mbind outcome_bind].
  assert (A mod p ≠ 0) as HA0 by (rewrite Z.mod_small; lia). assert (2 < p) as Hl2 by lia.
  assert (∀ x, x * ((p - 10) * A) mod p = B mod p → square p (curve_g A B x)) as Hexc.
  { intros x Hx. apply HE. by rewrite Hx, Z.mod_small by lia. }
  destruct (map_to_curve_ok p A B (p - 10) Hp Hl2 HA0 HZ Hexc u0) as (x0 & y0 & -> & H0). cbn [mbind outcome_bind].
  destruct (map_to_curve_ok p A B (p - 10) Hp Hl2 HA0 HZ Hexc u1) as (x1 & y1 & -> & H1). cbn [mbind outcome_bind].
  destruct (Haff x0 y0) as (Q0 & HQ0 & HC0); [by destruct H0 as (? & ? & ? & _ & _ & _ & _ & _ & Hy & _)|].
  destruct (Haff x1 y1) as (Q1 & HQ1 & HC1); [by destruct H1 as (? & ? & ? & _ & _ & _ & _ & _ & Hy & _)|].
  destruct (add_law Q0 Q1 HC0 HC1) as (R & HR & HCR). rewrite HQ0, HQ1. cbn [ok mbind outcome_bind]. rewrite HR. cbn [ok mbind outcome_bind].
  rewrite HCR. exists x0, y0, x1, y1, Q0, Q1, R. done.
Qed.

(** A small instance for the example: the big numbers by search, and the curve
    [y^2 = x^3 + x + 2] over the field of 17 elements, whose [Z = -10 = 7] is no square. *)
Module ToyCurve.
Definition residues (m : Z) : list Z := Z.of_nat <$> seq 0 (Z.to_nat m).
#[global] Instance toy_bn : BigNum := {|
  BN_mod_sqr a m := Some (a * a mod m);
  BN_mod_mul a b m := Some (a * b mod m);
  BN_mod_add a b m := Some ((a + b) mod m);
  BN_sub a b := Some (a - b);
  BN_mod a m := Some (a mod m);
  BN_mod_inverse a m := head (filter (λ i, a * i mod m = 1) (residues m));
  BN_mod_sqrt a p := head (filter (λ y, y * y mod p = a mod p) (residues p));
  BN_bin2bn l := Some (Z.of_N (be_value l)) |}.
Lemma elem_of_residues m x : 0 < m → x ∈ residues m ↔ 0 ≤ x < m.
Proof.
  intros Hm. unfold residues. rewrite list_elem_of_fmap. split.
  - intros (i & -> & Hi%elem_of_seq). lia.
  - intros Hx. exists (Z.to_nat x). split; [lia|]. apply elem_of_seq. lia.
Qed.
(** A search over the residues finds what depends on the residue only. *)
Lemma search_ok (f : Z → Z) m r : 0 < m → (∀ x, f (x mod m) = f x) →
  match head (filter (λ x, f x = r) (residues m)) with Some x => 0 ≤ x < m ∧ f x = r | None => ∀ x, f x ≠ r end.
Proof.
  intros Hm Hf. destruct (head (filter (λ x, f x = r) (residues m))) as [x|] eqn:Hx.
  - apply head_Some_elem_of, list_elem_of_filter in Hx as [Hx Hr]. split; [by apply elem_of_residues in Hr|done].
  - apply head_None in Hx. intros x Hr. apply (not_elem_of_nil (x mod m)). rewrite <- Hx. apply list_elem_of_filter.
    split; [by rewrite Hf|]. apply elem_of_residues; [done|]. by apply Z.mod_pos_bound.
Qed.
#[global] Instance toy_bn_lawful : LawfulBigNum.
Proof.
  split; try done.
  - intros a m Hm. apply (search_ok (λ i, a * i mod m)); [lia|]. intros x. by rewrite Zmult_mod_idemp_r.
  - intros a p Hp. pose proof (Z.prime_ge_2 p Hp). pose proof (search_ok (λ y, y * y mod p) p (a mod p)) as Hs.
    cbn [BN_mod_sqrt toy_bn]. destruct (head _); [apply Hs; [lia|intros x; by rewrite <- Zmult_mod]|].
    intros [y Hy]. revert y Hy. apply Hs; [lia|intros x; by rewrite <- Zmult_mod].
Qed.
Definition on_curve (Q : Z * Z) : bool := Q.2 * Q.2 mod 17 =? curve_g 1 2 Q.1 mod 17.
#[global] Instance toy_curve : Curve (Z * Z) := {|
  EC_GROUP_get_curve := (17, 1, 2);
  EC_POINT_set_affine_coordinates x y := if on_curve (x, y) then Some (x, y) else None;
  EC_POINT_add Q R := Some Q;
  EC_POINT_is_on_curve := on_curve |}.
Lemma prime_17 : Z.prime 17.
Proof.
  split; [lia|]. intros n Hn [k Hk]. assert (n = 2 ∨ n = 3 ∨ n = 4 ∨ n = 5 ∨ n = 6 ∨ n = 7 ∨ n = 8 ∨ n = 9 ∨ n = 10 ∨ n = 11 ∨ n = 12 ∨
    n = 13 ∨ n = 14 ∨ n = 15 ∨ n = 16) as Hc by lia. repeat destruct Hc as [->|Hc]; lia.
Qed.
#[global] Instance toy_curve_lawful : LawfulCurve (Z * Z).
Proof.
  split; cbn [EC_GROUP_get_curve EC_POINT_set_affine_coordinates EC_POINT_add EC_POINT_is_on_curve toy_curve fst snd].
  - apply prime_17.
  - lia.
  - lia.
  - lia.
  - intros [y Hy]. rewrite Zmult_mod in Hy. pose proof (Z.mod_pos_bound y 17 ltac:(lia)) as Hb.
    assert (forallb (λ y, negb (y * y mod 17 =? (17 - 10) mod 17)) (residues 17) = true) as Hc by reflexivity.
    pose proof (proj1 (forallb_forall _ _) Hc (y mod 17)) as Hn. cbn beta in Hn. rewrite Hy in Hn.
    assert (In (y mod 17) (residues 17)) as Hin by (apply list_elem_of_In, elem_of_residues; lia). by specialize (Hn Hin).
  - intros x Hx. apply (square_mod 17 (curve_g 1 2 (x mod 17))); [by apply curve_g_mod|].
    pose proof (Z.mod_pos_bound x 17 ltac:(lia)) as Hb. rewrite <- Zmult_mod_idemp_l in Hx. revert Hx Hb. generalize (x mod 17). clear x.
    intros x Hx Hb.
    assert (forallb (λ x, negb (x * ((17 - 10) * 1) mod 17 =? 2) || (x =? 10)) (residues 17) = true) as Hc by reflexivity.
    pose proof (proj1 (forallb_forall _ _) Hc x) as Hn. cbn beta in Hn. rewrite Hx in Hn.
    assert (x = 10) as -> by (apply Z.eqb_eq, Hn, list_elem_of_In, elem_of_residues; lia). by exists 3.
  - intros x y Hxy. exists (x, y). unfold on_curve at 1. cbn [fst snd]. rewrite (proj2 (Z.eqb_eq _ _) Hxy).
    split; [done|]. by apply Z.eqb_eq.
  - intros Q R HQ _. by exists Q.
Qed.
End ToyCurve.
Lemma hash_to_point_correct_witness :
  ∃ R : Z * Z, hash_to_point (St := list N) 415 415 (replicate 96 0%N) [1; 2; 3]%N [7]%N = Ret R ∧ EC_POINT_is_on_curve R = true.
Proof.
  assert (∀ m : list N, length (hash_fn (St := list N) m) = 32%nat) as H32 by (intros m; exact (length_le_bytes 32 (le_value m))).
  pose proof (hash_to_point_correct (P := Z * Z) (St := list N) 415 415 (replicate 96 0%N) [1; 2; 3]%N [7]%N
    (RO.mkState [1; 2; 3]%N [7]%N) H32 eq_refl) as [H _].
  cbn [EC_GROUP_get_curve ToyCurve.toy_curve Z.eqb Pos.eqb] in H.
  destruct (Rfc9380.hash_to_field hash_fn 17 [1; 2; 3]%N [7]%N) as [[u0 u1]|]; [|destruct H as [H _]; cbn in H; lia].
  destruct H as (_ & x0 & y0 & x1 & y1 & Q0 & Q1 & R & _ & _ & _ & _ & _ & HR & Hp). exists R. split; [exact Hp|exact HR].
Defined.

