(* ===== verification/Ec.v ===== *)
(** * Scalars, points and groups (runtime/crypto/ec.h, ec.cpp)

    The objects that own OpenSSL's numbers and points: their states, their guards and
    the encodings that go over the wire.  Every group is P-256, so points share one
    set of OpenSSL calls, and a group is known by its address.  Sampling of scalars in
    test mode runs over the generator of [Prg] and the epochs of [TestMode]. *)

From S2P Require Import Prelude Bits Bytes Block AesNi TestMode Prg Hash Residues HashToCurve.

#[local] Open Scope Z_scope.

(** ** What OpenSSL provides, beyond [HashToCurve] *)
Class BigNumBytes := {
  BN_num_bytes : Z → nat;
  BN_bn2bin : Z → list N;
  BN_num_bits : Z → nat;
  BN_add : Z → Z → option Z;
  BN_mul : Z → Z → option Z;
  BN_rand_range : Z → option Z }.
(** Big-endian without leading zeros. *)
Class LawfulBigNumBytes `{!BigNumBytes} : Prop := {
  num_bytes_law v n : 0 ≤ v → (BN_num_bytes v ≤ n)%nat ↔ v < 256 ^ Z.of_nat n;
  bn2bin_law v : 0 ≤ v → length (BN_bn2bin v) = BN_num_bytes v ∧ Z.of_N (be_value (BN_bn2bin v)) = v ∧
    Forall (λ b, b < 256)%N (BN_bn2bin v);
  num_bits_law v n : 0 ≤ v → (BN_num_bits v ≤ n)%nat ↔ v < 2 ^ Z.of_nat n;
  bn_add_law a b : BN_add a b = Some (a + b);
  bn_mul_law a b : BN_mul a b = Some (a * b);
  rand_range_law r v : BN_rand_range r = Some v → 0 ≤ v < r }.
(** A call on a point that has no [Some] has reported an error.  What a point holds
    before it is given a value is [EC_POINT_new]; nothing is known of it. *)
Class Points (P : Type) := {
  EC_POINT_new : P;
  EC_POINT_point2oct : P → nat → option (list N);
  EC_POINT_octsize : P → option nat;
  EC_POINT_oct2point : list N → option P;
  EC_POINT_is_at_infinity : P → bool;
  EC_POINT_mul : P → Z → option P;
  EC_POINT_mul_gen : Z → option P;
  EC_POINT_invert : P → option P;
  EC_POINT_cmp : P → P → Z;
  EC_GROUP_get0_generator : P }.
Class LawfulPoints (P : Type) `{!Curve P} `{!Points P} : Prop := {
  (** The encoding has its size, needs a buffer of that size, and is read back as an equal point. *)
  oct_law Q : EC_POINT_is_on_curve Q = true → ∃ bs, EC_POINT_octsize Q = Some (length bs) ∧
    (∀ n, EC_POINT_point2oct Q n = if (length bs <=? n)%nat then Some bs else None) ∧
    ∃ R, EC_POINT_oct2point bs = Some R ∧ EC_POINT_cmp Q R = 0 ∧ EC_POINT_is_on_curve R = true ∧
      EC_POINT_is_at_infinity R = EC_POINT_is_at_infinity Q;
  mul_law Q m : EC_POINT_is_on_curve Q = true → ∃ R, EC_POINT_mul Q m = Some R ∧ EC_POINT_is_on_curve R = true;
  mul_gen_law m : ∃ R, EC_POINT_mul_gen m = Some R ∧ EC_POINT_is_on_curve R = true;
  invert_law Q : EC_POINT_is_on_curve Q = true → ∃ R, EC_POINT_invert Q = Some R ∧ EC_POINT_is_on_curve R = true;
  cmp_law Q R : EC_POINT_is_on_curve Q = true → EC_POINT_is_on_curve R = true → EC_POINT_cmp Q R ≠ -1;
  generator_law : EC_POINT_is_on_curve EC_GROUP_get0_generator = true }.

(** ** Scalars: a number, or nothing once moved from *)
Module Scalar.
Section scalar.
Context `{!BigNum} `{!BigNumBytes}.
Record Scalar := mkScalar { n_ : option Z }.
Definition new : Scalar := mkScalar (Some 0).
Definition deref (s : Scalar) : outcome Z := match n_ s with Some v => Ret v | None => Undef end.
Definition copy (s : Scalar) : outcome Scalar := v ← deref s; mret (mkScalar (Some v)).
(** The new object, and what is left of the old one. *)
Definition move (s : Scalar) : Scalar * Scalar := (s, mkScalar None).
Definition size (s : Scalar) : outcome nat := v ← deref s; mret (BN_num_bytes v).
Definition to_bin (s : Scalar) : outcome (list N) := v ← deref s; mret (BN_bn2bin v).
Definition to_bin_padded (fixed_len : nat) (s : Scalar) : outcome (list N) :=
  v ← deref s;
  let actual := BN_num_bytes v in
  expecting (actual <=? fixed_len)%nat "Scalar::to_bin_padded: number too large";;
  mret (replicate (fixed_len - actual) 0%N ++ BN_bn2bin v).
Definition from_bin (inp : list N) (s : Scalar) : outcome Scalar :=
  expecting (N.of_nat (length inp) <=? 0x7FFFFFFF)%N "Scalar::from_bin: length exceeds INT_MAX";;
  v ← ok (BN_bin2bn inp) "Scalar::from_bin: BN_bin2bn";
  mret (mkScalar (Some v)).
Definition lift2 (f : Z → Z → option Z) (msg : string) (a b : Scalar) : outcome Scalar :=
  x ← deref a; y ← deref b; r ← ok (f x y) msg; mret (mkScalar (Some r)).
Definition add : Scalar → Scalar → outcome Scalar := lift2 BN_add "Scalar::add: BN_add".
Definition mul : Scalar → Scalar → outcome Scalar := lift2 BN_mul "Scalar::mul: BN_mul".
Definition mod_ : Scalar → Scalar → outcome Scalar := lift2 BN_mod "Scalar::mod: BN_mod".
Definition add_mod (a b m : Scalar) : outcome Scalar :=
  z ← deref m; lift2 (λ x y, BN_mod_add x y z) "Scalar::add_mod: BN_mod_add" a b.
Definition mul_mod (a b m : Scalar) : outcome Scalar :=
  z ← deref m; lift2 (λ x y, BN_mod_mul x y z) "Scalar::mul_mod: BN_mod_mul" a b.
End scalar.
End Scalar.

(** ** Points: the zombie, or a point of a group *)
Module Point.
Section point.
Context {P : Type} `{!Curve P} `{!Points P} `{!BigNum} `{!BigNumBytes}.
Record Point := mkPoint { point_ : option P; group_ : option nat }.
Definition zombie : Point := mkPoint None None.
Definition new (g : option nat) : Point :=
  match g with None => zombie | Some g => mkPoint (Some EC_POINT_new) (Some g) end.
Definition deref (p : Point) : outcome P := match point_ p with Some Q => Ret Q | None => Undef end.
Definition is_set {A} (o : option A) : bool := match o with Some _ => true | None => false end.
Definition copy (p : Point) : outcome Point :=
  if negb (is_set (group_ p)) then mret zombie else Q ← deref p; mret (mkPoint (Some Q) (group_ p)).
Definition move (p : Point) : Point * Point := (p, zombie).
Definition to_bin (buf_len : nat) (p : Point) : outcome (list N) :=
  expecting (is_set (group_ p)) "Point::to_bin on uninitialized point";;
  Q ← deref p; ok (EC_POINT_point2oct Q buf_len) "ECC TO_BIN".
Definition size (p : Point) : outcome nat :=
  expecting (is_set (group_ p)) "Point::size on uninitialized point";;
  Q ← deref p; ok (EC_POINT_octsize Q) "ECC SIZE_BIN".
Definition from_bin (g : option nat) (buf : list N) (p : Point) : outcome Point :=
  expecting (is_set g) "Point::from_bin: null group";;
  let p := if is_set (point_ p) && negb (bool_decide (group_ p = g)) then mkPoint None (group_ p) else p in
  let p := if is_set (point_ p) then p else mkPoint (Some EC_POINT_new) g in
  Q ← ok (EC_POINT_oct2point buf) "ECC FROM_BIN";
  let p := mkPoint (Some Q) (group_ p) in
  expecting (EC_POINT_is_on_curve Q) "Point::from_bin: point not on curve";;
  expecting (negb (EC_POINT_is_at_infinity Q)) "Point::from_bin: point at infinity";;
  mret p.
Definition add (rhs p : Point) : outcome Point :=
  expecting (is_set (group_ p)) "Point::add on uninitialized point";;
  expecting (bool_decide (group_ rhs = group_ p)) "Point::add: group mismatch";;
  Q ← deref p; R ← deref rhs; S ← ok (EC_POINT_add Q R) "ECC ADD"; mret (mkPoint (Some S) (group_ p)).
Definition mul (m : Scalar.Scalar) (p : Point) : outcome Point :=
  expecting (is_set (group_ p)) "Point::mul on uninitialized point";;
  Q ← deref p; v ← Scalar.deref m; S ← ok (EC_POINT_mul Q v) "ECC MUL"; mret (mkPoint (Some S) (group_ p)).
Definition inv (p : Point) : outcome Point :=
  expecting (is_set (group_ p)) "Point::inv on uninitialized point";;
  q ← copy p; Q ← deref q; S ← ok (EC_POINT_invert Q) "ECC INV"; mret (mkPoint (Some S) (group_ q)).
Definition eqb (p rhs : Point) : outcome bool :=
  expecting (is_set (group_ p) && is_set (group_ rhs)) "Point::operator== on uninitialized point";;
  expecting (bool_decide (group_ rhs = group_ p)) "Point::operator==: group mismatch";;
  Q ← deref p; R ← deref rhs;
  let ret := EC_POINT_cmp Q R in
  expecting (negb (ret =? -1)) "ECC CMP";;
  mret (ret =? 0).
End point.
Arguments Point : clear implicits.
End Point.

(** ** Groups *)
Module Group.
Section group.
Context {P : Type} `{!Curve P} `{!Points P} `{!BigNum} `{!BigNumBytes}.
(** [EC_GROUP_get_order] of the curve a number names, if OpenSSL has it. *)
Context (NID_X9_62_prime256v1 : Z) (EC_GROUP_new_by_curve_name : Z → option Z).
Record ECGroup := mkGroup { order_ : Z; scratch_size_ : nat; curve_nid_ : Z }.
Definition new (curve_nid : Z) : outcome ECGroup :=
  expecting (curve_nid =? NID_X9_62_prime256v1) "ECGroup: only NID_X9_62_prime256v1 (P-256) is supported";;
  order ← ok (EC_GROUP_new_by_curve_name curve_nid) "ECGroup: EC_GROUP_new_by_curve_name";
  mret (mkGroup order 256 curve_nid).
Definition resize_scratch (size : nat) (g : ECGroup) : ECGroup :=
  if (scratch_size_ g <? size)%nat then mkGroup (order_ g) size (curve_nid_ g) else g.
Definition get_generator (g : nat) : outcome (Point.Point P) :=
  mret (Point.mkPoint (Some EC_GROUP_get0_generator) (Some g)).
Definition mul_gen (g : nat) (m : Scalar.Scalar) : outcome (Point.Point P) :=
  v ← Scalar.deref m; R ← ok (EC_POINT_mul_gen v) "ECC GEN MUL"; mret (Point.mkPoint (Some R) (Some g)).

(** [rand_scalar]: the thread's generator and the epoch it was made in. *)
Record Rng := mkRng { prg : option PRG; prg_epoch : N }.
Definition rng_init : Rng := mkRng None (2 ^ 64 - 1)%N.
Context (vaes256 vaes512 aarch64 : bool) (hash : nat → N) (getentropy : Z * block).
Definition top_mask (n_bits : nat) : N :=
  if (n_bits mod 8 =? 0)%nat then 0xff else (N.shiftl 1 (N.of_nat (n_bits mod 8)) - 1)%N.
(** [do { ... } while (n >= order)]; [skew] is the buffer's distance from alignment. *)
Fixpoint rand_loop (fuel : nat) (order : Z) (skew : nat) (buf : list N) (p : PRG) : outcome (Z * PRG) :=
  match fuel with
  | O => Undef
  | S fuel =>
      '(buf, p) ← random_data_unaligned vaes256 vaes512 aarch64 skew buf (Z.of_nat (length buf)) p;
      let buf := alter (λ b, N.land b (top_mask (BN_num_bits order))) 0%nat buf in
      n ← ok (BN_bin2bn buf) "ECGroup::rand_scalar: BN_bin2bn";
      if (order <=? n) then rand_loop fuel order skew buf p else mret (n, p)
  end.
Definition rand_scalar (fuel t skew : nat) (mem : PRG) (g : ECGroup) (r : Rng) (w : World) : outcome (Scalar.Scalar * Rng * World) :=
  if negb (is_test_mode w) then
    n ← ok (BN_rand_range (order_ g)) "ECGroup::rand_scalar: BN_rand_range"; mret (Scalar.mkScalar (Some n), r, w)
  else
    let epoch := current_test_seed_epoch w in
    '(p, w) ← (match prg r with
               | Some p => if (prg_epoch r =? epoch)%N then mret (p, w) else construct hash getentropy t None 0 mem w
               | None => construct hash getentropy t None 0 mem w
               end);
    let n_bytes := ((BN_num_bits (order_ g) + 7) / 8)%nat in
    '(n, p) ← rand_loop fuel (order_ g) skew (replicate n_bytes 0%N) p;
    mret (Scalar.mkScalar (Some n), mkRng (Some p) epoch, w).
End group.
End Group.

(** ** Encodings of scalars *)
Section scalars.
Context `{!BigNum} {Hbn : LawfulBigNum} `{!BigNumBytes} {Hbytes : LawfulBigNumBytes}.
Import Scalar.
Lemma be_value_zeros k l : be_value (replicate k 0%N ++ l) = be_value l.
Proof. induction k as [|k IH]; [done|]. cbn [replicate app]. rewrite be_value_cons, IH. lia. Qed.
Lemma to_bin_padded_ok v n : 0 ≤ v →
  if decide (v < 256 ^ Z.of_nat n) then
    ∃ bs, to_bin_padded n (mkScalar (Some v)) = Ret bs ∧ length bs = n ∧ Forall (λ b, b < 256)%N bs ∧ Z.of_N (be_value bs) = v
  else to_bin_padded n (mkScalar (Some v)) = Fatal "Scalar::to_bin_padded: number too large".
Proof.
  intros Hv. unfold to_bin_padded. cbn [deref n_ mbind outcome_bind]. destruct (bn2bin_law v Hv) as (Hl & Hb & Hf).
  case_decide as Hn.
  - apply num_bytes_law in Hn; [|done]. rewrite (proj2 (Nat.leb_le _ _) Hn). cbn [expecting mbind outcome_bind].
    eexists. split; [done|]. rewrite length_app, length_replicate, Hl. split; [lia|]. split.
    + apply Forall_app. split; [by apply Forall_replicate|done].
    + by rewrite be_value_zeros.
  - destruct (Nat.leb_spec (BN_num_bytes v) n) as [Hle|Hle]; [|done]. destruct Hn. by apply num_bytes_law.
Qed.
Lemma from_bin_ok bs s : from_bin bs s = if (N.of_nat (length bs) <=? 0x7FFFFFFF)%N then Ret (mkScalar (Some (Z.of_N (be_value bs))))
  else Fatal "Scalar::from_bin: length exceeds INT_MAX".
Proof. unfold from_bin. destruct (_ <=? _)%N; [|done]. cbn [expecting mbind outcome_bind]. by rewrite bin2bn_law. Qed.
End scalars.

(** ** Points: what every operation keeps *)
Section points.
Context {P : Type} `{!Curve P} `{!LawfulCurve P} `{!Points P} {Hpt : LawfulPoints P}.
Import Point.
(** Hashing to the curve checks its result. *)
Lemma hash_to_point_on_curve `{!BigNum} {St : Type} `{!StreamHash St} NID nid buf msg dst (Q : P) :
  hash_to_point NID nid buf msg dst = Ret Q → EC_POINT_is_on_curve Q = true.
Proof.
  unfold hash_to_point. destruct EC_GROUP_get_curve as [[p A] B]. intros Hh.
  repeat (apply expecting_bind_Ret in Hh as [? Hh] || apply bind_Ret in Hh as (? & _ & Hh) || case_match). by injection Hh as <-.
Qed.
(** A zombie, or a point of the curve with its group. *)
Definition PointOk (p : Point P) : Prop :=
  match point_ p, group_ p with
  | None, None => True
  | Some Q, Some _ => EC_POINT_is_on_curve Q = true
  | _, _ => False
  end.
(** The points a program can have: the zombie, and every way to make one that has a
    value. *)
Inductive built : Point P → Prop :=
  | built_zombie : built zombie
  | built_copy p q : built p → copy p = Ret q → built q
  | built_moved p : built p → built (move p).2
  | built_from_bin g buf p q : target p → from_bin g buf p = Ret q → built q
  | built_add p r q : built p → built r → add r p = Ret q → built q
  | built_mul p m q : built p → mul m p = Ret q → built q
  | built_inv p q : built p → inv p = Ret q → built q
  | built_generator g q : Group.get_generator g = Ret q → built q
  | built_mul_gen g m q : Group.mul_gen g m = Ret q → built q
  | built_hash {BN : BigNum} {St : Type} {SH : StreamHash St} NID nid buf msg dst g Q :
      hash_to_point NID nid buf msg dst = Ret Q → built (mkPoint (Some Q) (Some g))
(** The objects [from_bin] may fill: those, and a point only constructed for a group
    (or a copy of one), which has no value yet. *)
with target : Point P → Prop :=
  | target_built p : built p → target p
  | target_new g : target (new g)
  | target_copy p q : target p → copy p = Ret q → target q.
Scheme built_target_ind := Induction for built Sort Prop
  with target_built_ind := Induction for target Sort Prop.
Combined Scheme built_target_mutind from built_target_ind, target_built_ind.
(** A zombie, or an object that has its group. *)
Definition TargetOk (p : Point P) : Prop := is_set (point_ p) = is_set (group_ p).
Lemma PointOk_inv p : PointOk p → p = zombie ∨ ∃ Q g, p = mkPoint (Some Q) (Some g) ∧ EC_POINT_is_on_curve Q = true.
Proof. destruct p as [[Q|] [g|]]; cbn; try done; [right; by exists Q, g|by left]. Qed.
Lemma TargetOk_inv p : TargetOk p → p = zombie ∨ ∃ Q g, p = mkPoint (Some Q) (Some g).
Proof. destruct p as [[Q|] [g|]]; cbn; try done; [right; by exists Q, g|by left]. Qed.
Lemma PointOk_target p : PointOk p → TargetOk p.
Proof. by destruct p as [[Q|] [g|]]. Qed.
Lemma from_bin_inv g buf p q : TargetOk p → from_bin g buf p = Ret q → ∃ Q g0, g = Some g0 ∧ q = mkPoint (Some Q) (Some g0) ∧
  EC_POINT_oct2point buf = Some Q ∧ EC_POINT_is_on_curve Q = true ∧ EC_POINT_is_at_infinity Q = false.
Proof.
  intros Hp. unfold from_bin. destruct g as [g|]; [|done]. cbn [is_set expecting mbind outcome_bind].
  destruct (EC_POINT_oct2point buf) as [Q|]; [|done]. cbn [ok mbind outcome_bind].
  destruct (EC_POINT_is_on_curve Q) eqn:Hc; [|done]. cbn [expecting mbind outcome_bind].
  destruct (EC_POINT_is_at_infinity Q) eqn:Hi; [done|]. cbn [negb expecting mbind outcome_bind]. intros [= <-].
  exists Q, g. split; [done|]. split; [|done].
  destruct (TargetOk_inv p Hp) as [->|(R & g' & ->)]; [done|]. cbn [point_ group_ is_set negb andb].
  by case_bool_decide as Hg; [rewrite Hg|].
Qed.
Lemma from_bin_decodes g buf p Q : TargetOk p → EC_POINT_oct2point buf = Some Q → EC_POINT_is_on_curve Q = true →
  EC_POINT_is_at_infinity Q = false → from_bin (Some g) buf p = Ret (mkPoint (Some Q) (Some g)).
Proof.
  intros Hp HQ Hc Hi. unfold from_bin. cbn [is_set expecting mbind outcome_bind]. rewrite HQ. cbn [ok mbind outcome_bind].
  rewrite Hc, Hi. cbn [negb expecting mbind outcome_bind]. unfold mret, outcome_ret. do 2 f_equal.
  destruct (TargetOk_inv p Hp) as [->|(R & g' & ->)]; [done|]. cbn [point_ group_ is_set negb andb].
  by case_bool_decide as Hg; [rewrite Hg|].
Qed.
Lemma built_target_ok : (∀ p, built p → PointOk p) ∧ (∀ p, target p → TargetOk p).
Proof.
  apply built_target_mutind; [done|intros p q _ IH Hq|done|intros g buf p q _ IH Hq|intros p r q _ IHp _ IHr Hq|intros p m q _ IH Hq
    |intros p q _ IH Hq|intros g q Hq|intros g m q Hq|intros BN St SH NID nid buf msg dst g Q HQ|intros p _; apply PointOk_target
    |by intros [g|]|intros p q _ IH Hq].
  - destruct (PointOk_inv p IH) as [->|(Q & g & -> & Hc)]; injection Hq as <-; done.
  - destruct (from_bin_inv _ _ _ _ IH Hq) as (Q & g0 & _ & -> & _ & Hc & _). exact Hc.
  - destruct (PointOk_inv p IHp) as [->|(Q & g & -> & Hc)]; [done|]. destruct (PointOk_inv r IHr) as [->|(R & g' & -> & Hr)]; [done|].
    unfold add in Hq. cbn [point_ group_ is_set deref expecting mbind outcome_bind] in Hq. case_bool_decide; [|done].
    cbn [expecting mbind outcome_bind] in Hq. destruct (add_law Q R Hc Hr) as (S & HS & HSc). rewrite HS in Hq. injection Hq as <-. exact HSc.
  - destruct (PointOk_inv p IH) as [->|(Q & g & -> & Hc)]; [done|]. unfold mul in Hq.
    cbn [point_ group_ is_set deref expecting mbind outcome_bind] in Hq. destruct (Scalar.deref m) as [v| |]; [|done..].
    cbn [mbind outcome_bind] in Hq. destruct (mul_law Q v Hc) as (S & HS & HSc). rewrite HS in Hq. injection Hq as <-. exact HSc.
  - destruct (PointOk_inv p IH) as [->|(Q & g & -> & Hc)]; [done|]. unfold inv, copy in Hq.
    cbn [point_ group_ is_set negb deref expecting mbind outcome_bind mret outcome_ret] in Hq.
    destruct (invert_law Q Hc) as (S & HS & HSc). rewrite HS in Hq. injection Hq as <-. exact HSc.
  - injection Hq as <-. apply generator_law.
  - unfold Group.mul_gen in Hq. destruct (Scalar.deref m) as [v| |]; [|done..]. cbn [mbind outcome_bind] in Hq.
    destruct (mul_gen_law v) as (S & HS & HSc). rewrite HS in Hq. injection Hq as <-. exact HSc.
  - exact (hash_to_point_on_curve _ _ _ _ _ _ HQ).
  - destruct (TargetOk_inv p IH) as [->|(Q & g & ->)]; injection Hq as <-; done.
Qed.
Lemma from_bin_undecoded g buf (t : Point P) :
  EC_POINT_oct2point buf = None → from_bin (Some g) buf t = Fatal "ECC FROM_BIN".
Proof. intros H. unfold from_bin. cbn [is_set expecting mbind outcome_bind]. by rewrite H. Qed.

(** The bytes [to_bin] writes of a point. *)
Definition encoding (Q : P) : list N := default [] (EC_POINT_point2oct Q (default 0%nat (EC_POINT_octsize Q))).
(** [q] is [p] as read back into the group [g]. *)
Definition received (g : nat) (p q : Point P) : Prop :=
  ∃ Q R, point_ p = Some Q ∧ q = mkPoint (Some R) (Some g) ∧ EC_POINT_cmp Q R = 0 ∧ built q.
Lemma encoding_ok Q g : EC_POINT_is_on_curve Q = true →
  size (mkPoint (Some Q) (Some g)) = Ret (length (encoding Q)) ∧
  to_bin (length (encoding Q)) (mkPoint (Some Q) (Some g)) = Ret (encoding Q) ∧
  ∀ g' t, target t →
    if EC_POINT_is_at_infinity Q then from_bin (Some g') (encoding Q) t = Fatal "Point::from_bin: point at infinity"
    else ∃ q, from_bin (Some g') (encoding Q) t = Ret q ∧ received g' (mkPoint (Some Q) (Some g)) q.
Proof.
  intros Hc. destruct (oct_law Q Hc) as (bs & Hsz & Hoct & R & HR & Hcmp & HRc & HRi).
  assert (encoding Q = bs) as ->.
  { unfold encoding. rewrite Hsz. cbn [default from_option id]. by rewrite Hoct, Nat.leb_refl. }
  split; [|split].
  - unfold size. cbn [is_set group_ point_ deref expecting mbind outcome_bind]. by rewrite Hsz.
  - unfold to_bin. cbn [is_set group_ point_ deref expecting mbind outcome_bind]. by rewrite Hoct, Nat.leb_refl.
  - intros g' t Ht. destruct (EC_POINT_is_at_infinity Q) eqn:Hinf.
    + unfold from_bin. cbn [is_set expecting mbind outcome_bind]. rewrite HR. cbn [ok mbind outcome_bind]. by rewrite HRc, HRi.
    + pose proof (from_bin_decodes g' bs t R (proj2 built_target_ok t Ht) HR HRc HRi) as Hf. eexists. split; [exact Hf|].
      exists Q, R. split; [done|]. split; [done|]. split; [done|]. by eapply built_from_bin.
Qed.

(** The operations on a point of the curve. *)
Section ops.
Context (Q : P) (g : nat) (Hc : EC_POINT_is_on_curve Q = true) (Hp : built (mkPoint (Some Q) (Some g))).
Abbreviation p := (mkPoint (Some Q) (Some g)).
#[local] Ltac open_op := cbn [is_set group_ point_ deref negb andb expecting mbind outcome_bind mret outcome_ret Scalar.deref Scalar.n_].
Lemma point_encode_ok (t : Point P) : target t →
  ∃ bs, size p = Ret (length bs) ∧
    (∀ n, to_bin n p = if (length bs <=? n)%nat then Ret bs else Fatal "ECC TO_BIN") ∧
    ∀ g', if EC_POINT_is_at_infinity Q then from_bin (Some g') bs t = Fatal "Point::from_bin: point at infinity"
          else ∃ q, from_bin (Some g') bs t = Ret q ∧ built q ∧ group_ q = Some g' ∧ (g' = g → eqb p q = Ret true).
Proof.
  intros Ht. destruct (oct_law Q Hc) as (bs & Hsz & Hoct & R & HR & Hcmp & HRc & HRi). exists bs. split; [|split].
  - unfold size. open_op. by rewrite Hsz.
  - intros n. unfold to_bin. open_op. rewrite Hoct. by destruct (_ <=? _)%nat.
  - intros g'. destruct (EC_POINT_is_at_infinity Q) eqn:Hinf.
    + unfold from_bin. open_op. rewrite HR. cbn [ok mbind outcome_bind]. by rewrite HRc, HRi.
    + pose proof (from_bin_decodes g' bs t R (proj2 built_target_ok t Ht) HR HRc HRi) as Hf. eexists. split; [exact Hf|].
      split; [by eapply built_from_bin|]. split; [done|]. intros ->. unfold eqb. open_op.
      rewrite bool_decide_true by done. open_op. by rewrite Hcmp.
Qed.
Lemma pair_ok r : built r →
  match point_ r, group_ r with
  | Some R, Some g' =>
      if decide (g' = g)
      then (∃ q, add r p = Ret q ∧ built q ∧ point_ q = EC_POINT_add Q R ∧ group_ q = Some g) ∧
           eqb p r = Ret (EC_POINT_cmp Q R =? 0)
      else add r p = Fatal "Point::add: group mismatch" ∧ eqb p r = Fatal "Point::operator==: group mismatch"
  | _, _ => add r p = Fatal "Point::add: group mismatch"
  end.
Proof.
  intros Hr. destruct (PointOk_inv r (proj1 built_target_ok r Hr)) as [->|(S & g' & -> & HSc)]; [done|]. cbn [point_ group_].
  case_decide as Hg.
  - subst g'. destruct (add_law Q S Hc HSc) as (T & HT & HTc).
    assert (add (mkPoint (Some S) (Some g)) p = Ret (mkPoint (Some T) (Some g))) as Hadd.
    { unfold add. open_op. rewrite bool_decide_true by done. open_op. by rewrite HT. }
    split; [eexists; split; [exact Hadd|]; split; [exact (built_add _ _ _ Hp Hr Hadd)|done]|].
    unfold eqb. open_op. rewrite bool_decide_true by done. open_op. by rewrite (proj2 (Z.eqb_neq _ _) (cmp_law Q S Hc HSc)).
  - unfold add, eqb. open_op. by rewrite bool_decide_false by congruence.
Qed.
Lemma mul_ok v : ∃ q, mul (Scalar.mkScalar (Some v)) p = Ret q ∧ built q ∧ point_ q = EC_POINT_mul Q v ∧ group_ q = Some g.
Proof.
  destruct (mul_law Q v Hc) as (T & HT & HTc).
  assert (mul (Scalar.mkScalar (Some v)) p = Ret (mkPoint (Some T) (Some g))) as Hmul.
  { unfold mul. open_op. by rewrite HT. }
  eexists. split; [exact Hmul|]. split; [exact (built_mul _ _ _ Hp Hmul)|done].
Qed.
Lemma inv_ok : ∃ q, inv p = Ret q ∧ built q ∧ point_ q = EC_POINT_invert Q ∧ group_ q = Some g.
Proof.
  destruct (invert_law Q Hc) as (T & HT & HTc).
  assert (inv p = Ret (mkPoint (Some T) (Some g))) as Hinv.
  { unfold inv, copy. open_op. by rewrite HT. }
  eexists. split; [exact Hinv|]. split; [exact (built_inv _ _ Hp Hinv)|done].
Qed.
End ops.
End points.

(** ** Sampling a scalar in test mode *)
Section rand.
Context `{!BigNum} {Hbn : LawfulBigNum} `{!BigNumBytes} {Hbytes : LawfulBigNumBytes}.
Context (vaes256 vaes512 aarch64 : bool) (hash : nat → N) (getentropy : Z * block) (g : Group.ECGroup) (Hg : 0 < Group.order_ g).
Import Group.
Abbreviation order := (order_ g).
Definition draw_bytes : nat := ((BN_num_bits order + 7) / 8)%nat.
(** The [k]th draw from a generator, masked to the bits of the order. *)
Definition mask (buf : list N) : list N := alter (λ b, N.land b (top_mask (BN_num_bits order))) 0%nat buf.
Definition draw (p : PRG) (k : nat) : Z := Z.of_N (be_value (mask (stream_bytes (advance (k * blocks_for draw_bytes) p) draw_bytes))).
Lemma rand_loop_ok k fuel skew buf p : Wf p → (skew < 16)%nat → length buf = draw_bytes → (k < fuel)%nat →
  (∀ j, (j < k)%nat → order ≤ draw p j) → draw p k < order →
  rand_loop vaes256 vaes512 aarch64 fuel order skew buf p = Ret (draw p k, advance (S k * blocks_for draw_bytes) p).
Proof.
  revert fuel buf p. induction k as [|k IH]; intros [|fuel] buf p Hp Hs Hb Hf Hlo Hhi; try lia; cbn [rand_loop];
    rewrite Hb, random_data_unaligned_ok by done; cbn [mbind outcome_bind]; rewrite bin2bn_law; cbn [ok mbind outcome_bind];
    fold (mask (stream_bytes p draw_bytes)).
  - assert (Z.of_N (be_value (mask (stream_bytes p draw_bytes))) = draw p 0) as -> by (unfold draw; by rewrite advance_0).
    rewrite (proj2 (Z.leb_gt _ _) Hhi). by rewrite Nat.mul_1_l.
  - assert (Z.of_N (be_value (mask (stream_bytes p draw_bytes))) = draw p 0) as -> by (unfold draw; by rewrite advance_0).
    rewrite (proj2 (Z.leb_le _ _) (Hlo 0%nat ltac:(lia))).
    assert (∀ j, draw (advance (blocks_for draw_bytes) p) j = draw p (S j)) as Hd.
    { intros j. unfold draw. by rewrite advance_add. }
    rewrite IH; [..|by rewrite Hd].
    + rewrite Hd, advance_add. by do 2 f_equal; lia.
    + split; [apply u64_lt|apply Hp].
    + done.
    + unfold mask. by rewrite length_alter, length_stream_bytes.
    + lia.
    + intros j Hj. rewrite Hd. apply Hlo. lia.
Qed.
(** No draw is wider than the order: with an order of [n] bits at most half are rejected. *)
Lemma be_value_lt l : Forall (λ b, b < 256)%N l → (be_value l < 256 ^ N.of_nat (length l))%N.
Proof.
  induction 1 as [|b l Hb _ IH]; [done|]. rewrite be_value_cons. cbn [length]. rewrite Nat2N.inj_succ, N.pow_succ_r'. nia.
Qed.
Lemma top_mask_ones n : top_mask n = N.ones (if (n mod 8 =? 0)%nat then 8 else N.of_nat (n mod 8)).
Proof. unfold top_mask. destruct (n mod 8 =? 0)%nat; [done|]. by rewrite N.ones_equiv, N.shiftl_1_l, N.sub_1_r. Qed.
Lemma draw_range p k : 0 ≤ draw p k < 2 * order.
Proof.
  set (nb := BN_num_bits order). assert (0 < nb)%nat as Hnb.
  { destruct (Nat.eq_dec nb 0%nat) as [Hz|]; [|lia]. assert (order < 2 ^ Z.of_nat 0%nat) as Hone by (apply num_bits_law; [lia|]; unfold nb in Hz; lia). lia. }
  assert (2 ^ Z.of_nat (nb - 1) ≤ order) as Hord.
  { destruct (Z.le_gt_cases (2 ^ Z.of_nat (nb - 1)) order) as [|Hlt]; [done|]. apply num_bits_law in Hlt; [|lia]. unfold nb in *. lia. }
  assert (2 ^ Z.of_nat nb ≤ 2 * order) as Htop.
  { replace (Z.of_nat nb) with (Z.succ (Z.of_nat (nb - 1))) by lia. rewrite Z.pow_succ_r by lia. lia. }
  split; [apply N2Z.is_nonneg|]. eapply Z.lt_le_trans; [|exact Htop]. unfold draw.
  set (l := stream_bytes _ _). assert (length l = draw_bytes) as Hl by apply length_stream_bytes.
  assert (Forall (λ b, b < 256)%N l) as Hlt by (apply Forall_take, block_bytes_lt).
  unfold draw_bytes in Hl. fold nb in Hl. destruct l as [|b l].
  { cbn [length] in Hl. symmetry in Hl. apply Nat.div_small_iff in Hl; lia. }
  unfold mask. cbn [alter list_alter]. rewrite be_value_cons, top_mask_ones. fold nb.
  apply Forall_cons in Hlt as [Hb Hlt]. pose proof (be_value_lt l Hlt) as Hrest. cbn [length] in Hl.
  pose proof (Nat.div_mod_eq nb 8) as Hdm. pose proof (Nat.mod_upper_bound nb 8 ltac:(lia)) as Hm.
  rewrite N.land_ones. set (e := if (nb mod 8 =? 0)%nat then 8%N else N.of_nat (nb mod 8)).
  assert (b mod 2 ^ e < 2 ^ e)%N as He by (apply N.mod_lt, N.pow_nonzero; done).
  assert (N.of_nat nb = e + 8 * N.of_nat (length l))%N as Hnbe.
  { unfold e. destruct (Nat.eqb_spec (nb mod 8) 0) as [Hz|Hz].
    - rewrite Hz in Hdm. replace (nb + 7)%nat with (nb / 8 * 8 + 7)%nat in Hl by lia. rewrite Nat.div_add_l in Hl by lia.
      change (7 / 8)%nat with 0%nat in Hl. lia.
    - replace (nb + 7)%nat with ((nb / 8 + 1) * 8 + (nb mod 8 - 1))%nat in Hl by lia.
      rewrite Nat.div_add_l, (Nat.div_small (nb mod 8 - 1)) in Hl by lia. lia. }
  replace (2 ^ Z.of_nat nb) with (Z.of_N (2 ^ e * 256 ^ N.of_nat (length l))); [nia|].
  change 256%N with (2 ^ 8)%N. rewrite <- N.pow_mul_r, <- N.pow_add_r, <- Hnbe, N2Z.inj_pow. f_equal. by rewrite nat_N_Z.
Qed.
(** The generator a call draws from, and what it leaves. *)
Definition current_prg (t : nat) (mem : PRG) (r : Rng) (w : World) : outcome (PRG * World) :=
  match prg r with
  | Some p => if (prg_epoch r =? current_test_seed_epoch w)%N then mret (p, w) else construct hash getentropy t None 0 mem w
  | None => construct hash getentropy t None 0 mem w
  end.
Lemma current_prg_ok t mem r w p w' : length (aes mem) = 11%nat → (∀ p, prg r = Some p → Wf p) →
  current_prg t mem r w = Ret (p, w') → Wf p.
Proof.
  intros Hm Hr. unfold current_prg. pose proof (construct_ok hash getentropy t None 0 mem w Hm) as Hc.
  assert (construct hash getentropy t None 0 mem w = Ret (p, w') → Wf p) as Hnew by (intros Heq; rewrite Heq in Hc; apply Hc).
  destruct (prg r) as [q|]; [|exact Hnew]. destruct (_ =? _)%N; [|exact Hnew]. intros [= <- <-]. by apply Hr.
Qed.
(** In test mode the scalar is the first draw of the thread's stream below the order, the
    stream starting anew in every epoch; no draw is as large as twice the order; and in
    either mode what comes back is below the order. *)
Theorem rand_scalar_correct fuel t skew mem r w :
  length (aes mem) = 11%nat → (skew < 16)%nat → (∀ p, prg r = Some p → Wf p) →
  (is_test_mode w = true → ∀ p w' k, current_prg t mem r w = Ret (p, w') → (k < fuel)%nat →
     (∀ j, (j < k)%nat → order ≤ draw p j) → draw p k < order →
     rand_scalar vaes256 vaes512 aarch64 hash getentropy fuel t skew mem g r w =
       Ret (Scalar.mkScalar (Some (draw p k)), mkRng (Some (advance (S k * blocks_for draw_bytes) p)) (current_test_seed_epoch w), w')) ∧
  (∀ p j, 0 ≤ draw p j < 2 * order) ∧
  (is_test_mode w = false → ∀ s r' w', rand_scalar vaes256 vaes512 aarch64 hash getentropy fuel t skew mem g r w = Ret (s, r', w') →
     ∃ v, s = Scalar.mkScalar (Some v) ∧ 0 ≤ v < order ∧ r' = r ∧ w' = w).
Proof.
  intros Hm Hs Hr. split; [|split; [exact draw_range|]].
  - intros Ht p w' k Hp Hk Hlo Hhi. unfold rand_scalar. rewrite Ht. cbn [negb]. fold (current_prg t mem r w). rewrite Hp.
    cbn [mbind outcome_bind]. fold draw_bytes. rewrite (rand_loop_ok k) by (done || by apply (current_prg_ok t mem r w p w') || by rewrite length_replicate).
    reflexivity.
  - intros Ht s r' w' Hret. unfold rand_scalar in Hret. rewrite Ht in Hret. cbn [negb] in Hret.
    destruct (BN_rand_range order) as [v|] eqn:Hv; [|done]. cbn [ok mbind outcome_bind] in Hret. injection Hret as <- <- <-.
    exists v. split; [done|]. split; [by apply rand_range_law|done].
Qed.
End rand.

(** ** What may be relied on of points *)
(** C27: However a program came by its points, each is a zombie or a point of the curve with
    its group (a point only constructed for a group has no value yet, and is no more than
    an object for [from_bin] to fill).  On a zombie every operation stops the process with
    its message, and so does adding or comparing points of different groups; otherwise
    sums, multiples and inverses are OpenSSL's and belong to the same group.  A point's
    encoding has the size it reports and fits any buffer of that size; reading it back into
    any point object, whatever that held and of whatever group, gives an equal point of the
    named group, unless it is the point at infinity, which is refused; a null group and
    bytes that do not decode are refused, and nothing [from_bin] accepts is off the curve
    or at infinity. *)
Theorem points_correct {P} `{!Curve P} `{!LawfulCurve P} `{!Points P} {Hpt : LawfulPoints P} (p r t : Point.Point P) :
  built p → built r → target t →
  match Point.point_ p, Point.group_ p with
  | None, None =>
      (∀ n, Point.to_bin n p = Fatal "Point::to_bin on uninitialized point") ∧
      Point.size p = Fatal "Point::size on uninitialized point" ∧
      Point.add r p = Fatal "Point::add on uninitialized point" ∧
      (∀ m, Point.mul m p = Fatal "Point::mul on uninitialized point") ∧
      Point.inv p = Fatal "Point::inv on uninitialized point" ∧
      Point.eqb p r = Fatal "Point::operator== on uninitialized point" ∧
      Point.eqb r p = Fatal "Point::operator== on uninitialized point"
  | Some Q, Some g =>
      EC_POINT_is_on_curve Q = true ∧
      (∃ bs, Point.size p = Ret (length bs) ∧
         (∀ n, Point.to_bin n p = if (length bs <=? n)%nat then Ret bs else Fatal "ECC TO_BIN") ∧
         ∀ g', if EC_POINT_is_at_infinity Q then Point.from_bin (Some g') bs t = Fatal "Point::from_bin: point at infinity"
               else ∃ q, Point.from_bin (Some g') bs t = Ret q ∧ built q ∧ Point.group_ q = Some g' ∧
                 (g' = g → Point.eqb p q = Ret true)) ∧
      match Point.point_ r, Point.group_ r with
      | Some R, Some g' =>
          if decide (g' = g)
          then (∃ q, Point.add r p = Ret q ∧ built q ∧ Point.point_ q = EC_POINT_add Q R ∧ Point.group_ q = Some g) ∧
               Point.eqb p r = Ret (EC_POINT_cmp Q R =? 0)
          else Point.add r p = Fatal "Point::add: group mismatch" ∧
               Point.eqb p r = Fatal "Point::operator==: group mismatch"
      | _, _ => Point.add r p = Fatal "Point::add: group mismatch"
      end ∧
      (∀ v, ∃ q, Point.mul (Scalar.mkScalar (Some v)) p = Ret q ∧ built q ∧
         Point.point_ q = EC_POINT_mul Q v ∧ Point.group_ q = Some g) ∧
      (∃ q, Point.inv p = Ret q ∧ built q ∧ Point.point_ q = EC_POINT_invert Q ∧ Point.group_ q = Some g)
  | _, _ => False
  end ∧
  (∀ buf, Point.from_bin None buf t = Fatal "Point::from_bin: null group") ∧
  (∀ g buf, EC_POINT_oct2point buf = None → Point.from_bin (Some g) buf t = Fatal "ECC FROM_BIN") ∧
  (∀ g buf q, Point.from_bin g buf t = Ret q → built q ∧ ∃ Q, Point.point_ q = Some Q ∧ Point.group_ q = g ∧
     EC_POINT_oct2point buf = Some Q ∧ EC_POINT_is_on_curve Q = true ∧ EC_POINT_is_at_infinity Q = false).
Proof.
  intros Hp Hr Ht. pose proof (proj1 built_target_ok p Hp) as Hpo. pose proof (proj1 built_target_ok r Hr) as Hro.
  pose proof (proj2 built_target_ok t Ht) as Hto. split; [|split; [done|split]].
  - destruct (PointOk_inv p Hpo) as [->|(Q & g & -> & Hc)].
    + split_and!; try done. unfold Point.eqb. by destruct (Point.group_ r).
    + cbn [Point.point_ Point.group_]. split; [exact Hc|]. split; [by apply point_encode_ok|].
      split; [by apply pair_ok|]. split; [intros v; by apply mul_ok|by apply inv_ok].
  - intros g buf Hn. by apply from_bin_undecoded.
  - intros g buf q Hq. split; [by eapply built_from_bin|].
    destruct (from_bin_inv g buf t q Hto Hq) as (Q & g0 & -> & -> & ? & Hc & Hi). by exists Q.
Qed.

(** The calls of a small instance, on the curve of [ToyCurve]: a point is written as its
    two residues, and the operations give back a point they were given. *)
Module ToyPoints.
Import ToyCurve.
#[global] Instance toy_points : Points (Z * Z) := {|
  EC_POINT_new := (0, 6);
  EC_POINT_point2oct Q n := if (2 <=? n)%nat then Some [Z.to_N (Q.1 mod 17); Z.to_N (Q.2 mod 17)] else None;
  EC_POINT_octsize Q := Some 2%nat;
  EC_POINT_oct2point bs := match bs with [x; y] => Some (Z.of_N x, Z.of_N y) | _ => None end;
  EC_POINT_is_at_infinity Q := false;
  EC_POINT_mul Q m := Some Q;
  EC_POINT_mul_gen m := Some (0, 6);
  EC_POINT_invert Q := Some Q;
  EC_POINT_cmp Q R := if (Q.1 mod 17 =? R.1 mod 17) && (Q.2 mod 17 =? R.2 mod 17) then 0 else 1;
  EC_GROUP_get0_generator := (0, 6) |}.
#[global] Instance toy_points_lawful : LawfulPoints (Z * Z).
Proof.
  split; cbn [EC_POINT_point2oct EC_POINT_octsize EC_POINT_oct2point EC_POINT_is_at_infinity EC_POINT_mul EC_POINT_mul_gen
    EC_POINT_invert EC_POINT_cmp EC_GROUP_get0_generator toy_points].
  - intros [x y] Hc. exists [Z.to_N (x mod 17); Z.to_N (y mod 17)]. split; [done|]. split; [done|].
    pose proof (Z.mod_pos_bound x 17 ltac:(lia)). pose proof (Z.mod_pos_bound y 17 ltac:(lia)).
    eexists. split; [done|]. cbn [fst snd]. rewrite !Z2N.id, !Zmod_mod, !Z.eqb_refl by lia. split; [done|]. split; [|done].
    cbn [EC_POINT_is_on_curve toy_curve] in *. unfold on_curve in *. cbn [fst snd] in *. apply Z.eqb_eq in Hc. apply Z.eqb_eq.
    rewrite <- Zmult_mod, curve_g_mod by lia. exact Hc.
  - intros Q m Hc. by exists Q.
  - intros m. by exists (0, 6).
  - intros Q Hc. by exists Q.
  - intros Q R _ _. by destruct (_ && _).
  - done.
Qed.
End ToyPoints.
Lemma points_correct_witness :
  let p : Point.Point (Z * Z) := Point.mkPoint (Some (0, 6)) (Some 1%nat) in
  built p ∧ ∃ bs, Point.size p = Ret (length bs) ∧ ∃ q, Point.from_bin (Some 1%nat) bs (Point.new (Some 2%nat)) = Ret q ∧ Point.eqb p q = Ret true.
Proof.
  assert (built (Point.mkPoint (P := Z * Z) (Some (0, 6)) (Some 1%nat))) as Hb.
  { by apply (built_generator 1). }
  cbv zeta. split; [exact Hb|].
  destruct (points_correct _ _ (Point.new (Some 2%nat)) Hb Hb (target_new _)) as [(_ & (bs & Hs & _ & Hq) & _) _].
  exists bs. split; [exact Hs|]. destruct (Hq 1%nat) as (q & Hr & _ & _ & He). exists q. split; [exact Hr|]. by apply He.
Defined.
