(* ===== verification/Io.v ===== *)
(** * Channels (runtime/io/io_channel.h, trace_io.h)

    [IOChannel] over an abstract transport: byte counters, rounds, the Fiat-Shamir
    transcripts, and the block, point and packed-bool helpers; points are those of [Ec].  [Transport] is what
    a subclass overrides, [LawfulTransport] what the helpers rely on; [TraceIO] is
    an instance here and [NetIO] one in [Net]. *)

From S2P Require Import Prelude Bits Bytes Block Residues HashToCurve Ec Hash.

(** ** Transports *)
Class Transport (T : Type) := {
  send_data_internal : list N → T → outcome T;
  recv_data_internal : nat → T → outcome (list N * T);
  flush : T → outcome T;
  sync : T → outcome T }.
(** What has been handed to the transport, and what it will still deliver. *)
Class LawfulTransport (T : Type) `{!Transport T} := {
  t_ok : T → Prop;
  t_sent : T → list N;
  t_inbound : T → list N;
  t_send_ok d t : t_ok t → ∃ t', send_data_internal d t = Ret t' ∧ t_ok t' ∧
    t_sent t' = t_sent t ++ d ∧ t_inbound t' = t_inbound t;
  t_recv_ok n t : t_ok t → (n ≤ length (t_inbound t))%nat → ∃ t',
    recv_data_internal n t = Ret (take n (t_inbound t), t') ∧ t_ok t' ∧
    t_sent t' = t_sent t ∧ t_inbound t' = drop n (t_inbound t);
  t_flush_ok t : t_ok t → ∃ t', flush t = Ret t' ∧ t_ok t' ∧ t_sent t' = t_sent t ∧ t_inbound t' = t_inbound t }.

(** ** Packed bits *)
Definition blen (n : nat) : nat := ((n + 7) / 8)%nat.
(** Eight bits a byte, the last byte padded with zeros. *)
Definition pack (bs : list bool) : list N :=
  to_bytes (bs ++ replicate (8 * blen (length bs) - length bs) false).
Lemma blen_spec n : (n ≤ 8 * blen n < n + 8)%nat.
Proof. unfold blen. pose proof (Nat.div_mod_eq (n + 7) 8). pose proof (Nat.mod_upper_bound (n + 7) 8). lia. Qed.
Lemma blen_mul k : blen (8 * k) = k.
Proof. unfold blen. symmetry. apply (Nat.div_unique _ _ _ 7); lia. Qed.
Lemma length_padded bs : length (bs ++ replicate (8 * blen (length bs) - length bs) false) = (8 * blen (length bs))%nat.
Proof. rewrite length_app, length_replicate. pose proof (blen_spec (length bs)). lia. Qed.
Lemma unbytes_pack bs : unbytes (pack bs) = bs ++ replicate (8 * blen (length bs) - length bs) false.
Proof. by destruct (to_bytes_ok _ _ (length_padded bs)). Qed.
Lemma byte_list_pack bs : byte_list (blen (length bs)) (pack bs).
Proof. by destruct (to_bytes_ok _ _ (length_padded bs)). Qed.
Lemma to_bytes_unbytes l : Forall (λ v, v < 256)%N l → to_bytes (unbytes l) = l.
Proof.
  intros Hl. unfold to_bytes. rewrite length_unbytes, Nat.mul_comm, Nat.div_mul, array_bytes_unbytes by done.
  rewrite <- list_fmap_compose. rewrite <- (list_fmap_id l) at 2. apply list_fmap_ext. intros i v Hv.
  rewrite Forall_lookup in Hl. unfold compose. rewrite bval_bits. apply N.mod_small. exact (Hl _ _ Hv).
Qed.
(** A packed prefix of a byte array. *)
Lemma pack_of bs l : Forall (λ v, v < 256)%N l → (blen (length bs) ≤ length l)%nat →
  take (8 * blen (length bs)) (unbytes l) = bs ++ replicate (8 * blen (length bs) - length bs) false →
  take (blen (length bs)) l = pack bs.
Proof.
  intros Hl Hk Hu. unfold pack. rewrite <- Hu, take_unbytes, to_bytes_unbytes; [done|by apply Forall_take].
Qed.
Lemma pack_app a b k : length a = (8 * k)%nat → pack (a ++ b) = pack a ++ pack b.
Proof.
  intros Ha. rewrite <- (to_bytes_unbytes (pack a ++ pack b)).
  2: { apply Forall_app. split; apply byte_list_pack. }
  rewrite unbytes_app, !unbytes_pack. unfold pack at 1. f_equal.
  rewrite length_app, Ha. replace (8 * blen (8 * k + length b) - (8 * k + length b))%nat with (8 * blen (length b) - length b)%nat.
  - by rewrite blen_mul, Nat.sub_diag, app_nil_r, <- app_assoc.
  - unfold blen. replace (8 * k + length b + 7)%nat with (k * 8 + (length b + 7))%nat by lia.
    rewrite Nat.div_add_l by done. lia.
Qed.
(** Packing into a staging array whose last byte is cleared. *)
Lemma stage_bits buf data n : Forall (λ v, v < 256)%N buf → (n ≤ length data)%nat → (0 < n)%nat → (n ≤ 8 * length buf)%nat →
  ∃ out, bools_to_bits (if negb (n mod 8 =? 0)%nat then <[((n + 7) / 8 - 1)%nat := 0%N]> buf else buf) data (Z.of_nat n) = Ret out ∧
    length out = length buf ∧ Forall (λ v, v < 256)%N out ∧ take ((n + 7) / 8) out = pack (truth <$> take n data).
Proof.
  intros Hb Hn H0 Hl. set (buf1 := if negb _ then _ else _). fold (blen n) in *.
  pose proof (blen_spec n) as Hk.
  assert (length buf1 = length buf ∧ Forall (λ v, v < 256)%N buf1 ∧
    take (8 * blen n - n) (drop n (unbytes buf1)) = replicate (8 * blen n - n) false) as (Hl1 & Hb1 & Hz).
  { unfold buf1. destruct (Nat.eqb_spec (n mod 8) 0) as [Hm|Hm]; cbn [negb].
    - split; [done|]. split; [done|]. pose proof (Nat.div_mod_eq n 8).
      assert (blen n = n / 8)%nat as -> by (rewrite <- (blen_mul (n / 8)); f_equal; lia).
      by replace (8 * (n / 8) - n)%nat with 0%nat by lia.
    - assert (blen n - 1 < length buf)%nat as Hi by lia. split; [by rewrite length_insert|].
      split; [by apply Forall_insert|]. rewrite unbytes_insert by done. pose proof (Nat.div_mod_eq n 8).
      pose proof (Nat.mod_upper_bound n 8 ltac:(done)).
      rewrite drop_app_ge by (rewrite length_take, length_unbytes; lia).
      rewrite length_take, length_unbytes.
      replace ((8 * (blen n - 1)) `min` (8 * length buf))%nat with (8 * (blen n - 1))%nat by lia.
      rewrite drop_app_le, take_app_le by (rewrite ?length_drop, length_bits; lia).
      change (bits 8 0) with (replicate 8 false). rewrite drop_replicate, take_replicate. f_equal. lia. }
  destruct (bools_to_bits_ok buf1 data n) as (out & Hr & Hu); [done|lia|].
  exists out. pose proof (f_equal length Hu) as Hlen. unfold packed in Hlen.
  rewrite length_app, length_take, length_drop, !length_unbytes, length_fmap in Hlen.
  assert (Forall (λ v, v < 256)%N out) as Hbo by (by eapply bools_to_bits_bytes).
  split; [done|]. split; [lia|]. split; [done|].
  assert (length (truth <$> take n data) = n) as Hlt by (rewrite length_fmap, length_take; lia).
  rewrite <- (pack_of (truth <$> take n data) out); rewrite ?Hlt; [done|done|lia|].
  rewrite Hu. unfold packed. rewrite <- fmap_take, take_app, length_fmap, length_take.
  replace (n `min` length data)%nat with n by lia. rewrite Hz. f_equal. apply take_ge. rewrite Hlt. lia.
Qed.

(** ** The channel *)
Module IOChannel.
Section channel.
Context {T St : Type} `{!Transport T} `{!StreamHash St}.

Inductive Dir := NONE | SEND | RECV.
#[export] Instance Dir_eq_dec : EqDecision Dir.
Proof. solve_decision. Defined.
Abbreviation Hash := (HashT.State (St := St)).
Record FsState := mkFs { fs_send : Hash; fs_recv : Hash }.
Record State := mkState {
  under : T; send_counter : N; recv_counter : N; rounds : N; last_dir_ : Dir;
  fs_ : option FsState; fs_send_first_ : bool }.
Definition new (t : T) : State := mkState t 0 0 0 NONE None false.

Definition fs_enabled (c : State) : bool := match fs_ c with Some _ => true | None => false end.
Definition enable_fs (send_first : bool) (c : State) : outcome State :=
  expecting (negb (fs_enabled c)) "IOChannel::enable_fs: called twice";;
  mret (mkState (under c) (send_counter c) (recv_counter c) (rounds c) (last_dir_ c)
    (Some (mkFs HashT.new HashT.new)) send_first).
Definition set_fs (f : option FsState) (c : State) : State :=
  mkState (under c) (send_counter c) (recv_counter c) (rounds c) (last_dir_ c) f (fs_send_first_ c).
Definition set_under (t : T) (c : State) : State :=
  mkState t (send_counter c) (recv_counter c) (rounds c) (last_dir_ c) (fs_ c) (fs_send_first_ c).

(** Opening a round when the direction changes. *)
Definition turn (d : Dir) (c : State) : State :=
  if decide (last_dir_ c = d) then c
  else mkState (under c) (send_counter c) (recv_counter c) (rounds c + 1) d (fs_ c) (fs_send_first_ c).

(** [data] points to at least [nbyte] bytes. *)
Definition send_data (data : list N) (nbyte : Z) (c : State) : outcome State :=
  expecting (0 <=? nbyte)%Z "IOChannel::send_data: negative byte count";;
  if (nbyte =? 0)%Z then mret c else
  let bytes := Z.to_N nbyte in
  let data := take (Z.to_nat nbyte) data in
  expecting (bytes <=? 2 ^ 64 - 1 - send_counter c)%N "IOChannel::send_data: send counter overflow";;
  let c := mkState (under c) (send_counter c + bytes) (recv_counter c) (rounds c) (last_dir_ c) (fs_ c) (fs_send_first_ c) in
  let c := turn SEND c in
  f ← (match fs_ c with
       | Some st => s ← HashT.put data nbyte (fs_send st); mret (Some (mkFs s (fs_recv st)))
       | None => mret None
       end);
  t ← send_data_internal data (under c);
  mret (set_under t (set_fs f c)).
Definition recv_data (nbyte : Z) (c : State) : outcome (list N * State) :=
  expecting (0 <=? nbyte)%Z "IOChannel::recv_data: negative byte count";;
  if (nbyte =? 0)%Z then mret ([], c) else
  let bytes := Z.to_N nbyte in
  expecting (bytes <=? 2 ^ 64 - 1 - recv_counter c)%N "IOChannel::recv_data: receive counter overflow";;
  let c := mkState (under c) (send_counter c) (recv_counter c + bytes) (rounds c) (last_dir_ c) (fs_ c) (fs_send_first_ c) in
  let c := turn RECV c in
  '(data, t) ← recv_data_internal (Z.to_nat nbyte) (under c);
  f ← (match fs_ c with
       | Some st => r ← HashT.put data nbyte (fs_recv st); mret (Some (mkFs (fs_send st) r))
       | None => mret None
       end);
  mret (data, set_under t (set_fs f c)).

(** *** Fiat-Shamir *)
Definition get_send_digest (c : State) : outcome (block * State) :=
  match fs_ c with
  | Some st => let '(d, s) := HashT.digest false (fs_send st) in
               mret (le_value (take 16 d), set_fs (Some (mkFs s (fs_recv st))) c)
  | None => Fatal "IOChannel::get_send_digest: enable_fs first"
  end.
Definition get_recv_digest (c : State) : outcome (block * State) :=
  match fs_ c with
  | Some st => let '(d, r) := HashT.digest false (fs_recv st) in
               mret (le_value (take 16 d), set_fs (Some (mkFs (fs_send st) r)) c)
  | None => Fatal "IOChannel::get_recv_digest: enable_fs first"
  end.
(** [buf] is the two digests in the order of the roles. *)
Definition get_digest (c : State) : outcome (block * State) :=
  match fs_ c with
  | Some st =>
      let '(ds, s) := HashT.digest false (fs_send st) in
      let '(dr, r) := HashT.digest false (fs_recv st) in
      let buf := if fs_send_first_ c then ds ++ dr else dr ++ ds in
      out_buf ← HashT.hash_once (St := St) buf (Z.of_nat (length buf));
      mret (le_value (take 16 out_buf), set_fs (Some (mkFs s r)) c)
  | None => Fatal "IOChannel::get_digest: enable_fs first"
  end.

(** *** Blocks *)
Definition send_block (data : list block) (nblock : Z) (c : State) : outcome State :=
  expecting (0 <=? nblock)%Z "IOChannel::send_block: negative block count";;
  expecting (nblock <=? (2 ^ 63 - 1) / 16)%Z "IOChannel::send_block: byte count overflow";;
  send_data (data ≫= le_bytes 16) (nblock * 16) c.
Definition recv_block (nblock : Z) (c : State) : outcome (list block * State) :=
  expecting (0 <=? nblock)%Z "IOChannel::recv_block: negative block count";;
  expecting (nblock <=? (2 ^ 63 - 1) / 16)%Z "IOChannel::recv_block: byte count overflow";;
  '(data, c) ← recv_data (nblock * 16) c;
  mret ((λ i, le_value (take 16 (drop (16 * i) data))) <$> seq 0 (Z.to_nat nblock), c).

(** *** Points

    A point goes over the wire as [to_bin] writes it, behind its length.  The group's
    scratch buffer, grown to that length first, only holds the bytes on their way. *)
Definition MAX_POINT_BYTES : N := 2048.
Section points.
Context {P : Type} `{!Curve P} `{!Points P}.
Definition send_one_pt (p : Point.Point P) (c : State) : outcome State :=
  len ← Point.size p;
  expecting (N.of_nat len <=? MAX_POINT_BYTES)%N "IOChannel::send_pt: point length exceeds MAX_POINT_BYTES";;
  let len_wire := u32 (N.of_nat len) in
  c ← send_data (le_bytes 4 len_wire) 4 c;
  tmp ← Point.to_bin len p;
  send_data tmp (Z.of_nat len) c.
Definition send_pt (A : list (Point.Point P)) (num_pts : Z) (c : State) : outcome State :=
  expecting (0 <=? num_pts)%Z "IOChannel::send_pt: negative point count";;
  foldO (λ c p, send_one_pt p c) c (take (Z.to_nat num_pts) A).
(** [p] is the object the point is read into. *)
Definition recv_one_pt (g : option nat) (p : Point.Point P) (c : State) : outcome (Point.Point P * State) :=
  '(l, c) ← recv_data 4 c;
  let len_wire := le_value l in
  expecting (len_wire <=? MAX_POINT_BYTES)%N "IOChannel::recv_pt: point length exceeds MAX_POINT_BYTES";;
  '(tmp, c) ← recv_data (Z.of_N len_wire) c;
  p ← Point.from_bin g tmp p;
  mret (p, c).
Definition recv_pt (g : option nat) (A : list (Point.Point P)) (num_pts : Z) (c : State) : outcome (list (Point.Point P) * State) :=
  expecting (0 <=? num_pts)%Z "IOChannel::recv_pt: negative point count";;
  foldO (λ '(ps, c) p, '(p, c) ← recv_one_pt g p c; mret (ps ++ [p], c)) ([], c) (take (Z.to_nat num_pts) A).
End points.

(** *** Packed bools: [buf] is the uninitialised staging array. *)
Definition IO_BOOL_CHUNK_SIZE : nat := 8 * 1024.
Fixpoint send_bool_loop (fuel : nat) (buf : list N) (data : list N) (length : nat) (c : State) : outcome State :=
  match fuel with
  | O => mret c
  | S fuel =>
      if (0 <? length)%nat then
        let batch := if (length <? IO_BOOL_CHUNK_SIZE)%nat then length else IO_BOOL_CHUNK_SIZE in
        let bytes := ((batch + 7) / 8)%nat in
        let buf := if negb (batch mod 8 =? 0)%nat then <[(bytes - 1)%nat := 0%N]> buf else buf in
        buf ← bools_to_bits buf data (Z.of_nat batch);
        c ← send_data buf (Z.of_nat bytes) c;
        send_bool_loop fuel buf (drop batch data) (length - batch) c
      else mret c
  end.
Definition send_bool (buf : list N) (data : list N) (length : Z) (c : State) : outcome State :=
  expecting (0 <=? length)%Z "IOChannel::send_bool: negative bit count";;
  if (length =? 0)%Z then mret c else send_bool_loop (Z.to_nat length) buf data (Z.to_nat length) c.
Fixpoint recv_bool_loop (fuel : nat) (length : nat) (c : State) : outcome (list N * State) :=
  match fuel with
  | O => mret ([], c)
  | S fuel =>
      if (0 <? length)%nat then
        let batch := if (length <? IO_BOOL_CHUNK_SIZE)%nat then length else IO_BOOL_CHUNK_SIZE in
        let bytes := ((batch + 7) / 8)%nat in
        '(buf, c) ← recv_data (Z.of_nat bytes) c;
        data ← bits_to_bools buf (Z.of_nat batch);
        '(rest, c) ← recv_bool_loop fuel (length - batch) c;
        mret (data ++ rest, c)
      else mret ([], c)
  end.
Definition recv_bool (length : Z) (c : State) : outcome (list N * State) :=
  expecting (0 <=? length)%Z "IOChannel::recv_bool: negative bit count";;
  if (length =? 0)%Z then mret ([], c) else recv_bool_loop (Z.to_nat length) (Z.to_nat length) c.

(** *** The abstract channel

    The bytes of each direction, the rounds, and the transcripts. *)
Record Abs := mkAbs {
  a_sent : list N; a_recv : list N; a_rounds : N; a_last : Dir; a_fs : option (list N * list N); a_first : bool }.
Definition a_new : Abs := mkAbs [] [] 0 NONE None false.
Definition a_turn (d : Dir) (a : Abs) : N := if decide (a_last a = d) then a_rounds a else (a_rounds a + 1)%N.
Definition a_send (d : list N) (a : Abs) : Abs :=
  if is_nil d then a
  else mkAbs (a_sent a ++ d) (a_recv a) (a_turn SEND a) SEND ((λ '(x, y), (x ++ d, y)) <$> a_fs a) (a_first a).
Definition a_receive (d : list N) (a : Abs) : Abs :=
  if is_nil d then a
  else mkAbs (a_sent a) (a_recv a ++ d) (a_turn RECV a) RECV ((λ '(x, y), (x, y ++ d)) <$> a_fs a) (a_first a).
Lemma a_send_app d e a : a_send (d ++ e) a = a_send e (a_send d a).
Proof.
  destruct d as [|x d]; [done|]. destruct e as [|y e]; [by rewrite app_nil_r|].
  unfold a_send, a_turn. cbn. rewrite <- app_assoc. f_equal.
  destruct (a_fs a) as [[u v]|]; [|done]. cbn. by rewrite <- app_assoc.
Qed.
Lemma a_receive_app d e a : a_receive (d ++ e) a = a_receive e (a_receive d a).
Proof.
  destruct d as [|x d]; [done|]. destruct e as [|y e]; [by rewrite app_nil_r|].
  unfold a_receive, a_turn. cbn. rewrite <- app_assoc. f_equal.
  destruct (a_fs a) as [[u v]|]; [|done]. cbn. by rewrite <- app_assoc.
Qed.

Context `{!LawfulTransport T}.
Definition fs_rel (f : option FsState) (a : option (list N * list N)) : Prop :=
  match f, a with
  | Some st, Some (x, y) => HashT.absorbed (fs_send st) x ∧ HashT.absorbed (fs_recv st) y
  | None, None => True
  | _, _ => False
  end.
(** The channel [c], over a transport that was [t0], is at [a]. *)
Record Rel (t0 : T) (c : State) (a : Abs) : Prop := {
  rel_ok : t_ok (under c);
  rel_sent : t_sent (under c) = t_sent t0 ++ a_sent a;
  rel_inbound : t_inbound t0 = a_recv a ++ t_inbound (under c);
  rel_send : send_counter c = N.of_nat (length (a_sent a));
  rel_recv : recv_counter c = N.of_nat (length (a_recv a));
  rel_rounds : rounds c = a_rounds a;
  rel_last : last_dir_ c = a_last a;
  rel_fs : fs_rel (fs_ c) (a_fs a);
  rel_first : fs_send_first_ c = a_first a }.

Lemma rel_new t : t_ok t → Rel t (new t) a_new.
Proof. intros Ht. split; try done. cbn. by rewrite app_nil_r. Qed.
Lemma turn_fields d c : under (turn d c) = under c ∧ send_counter (turn d c) = send_counter c ∧
  recv_counter (turn d c) = recv_counter c ∧ fs_ (turn d c) = fs_ c ∧ last_dir_ (turn d c) = d ∧
  rounds (turn d c) = (if decide (last_dir_ c = d) then rounds c else (rounds c + 1)%N) ∧
  fs_send_first_ (turn d c) = fs_send_first_ c.
Proof. unfold turn. by destruct (decide (last_dir_ c = d)). Qed.

Lemma send_data_ok t0 data (n : nat) c a : Rel t0 c a → (n ≤ length data)%nat →
  (N.of_nat (length (a_sent a) + n) < 2 ^ 64)%N →
  ∃ c', send_data data (Z.of_nat n) c = Ret c' ∧ Rel t0 c' (a_send (take n data) a).
Proof.
  intros R Hn Hc. unfold send_data. rewrite (proj2 (Z.leb_le 0 _)) by lia. cbn [expecting mbind outcome_bind].
  destruct (Z.eqb_spec (Z.of_nat n) 0) as [H0|H0].
  { replace n with 0%nat by lia. exists c. by rewrite take_0. }
  cbv zeta. rewrite Nat2Z.id. rewrite (proj2 (N.leb_le _ _)) by (rewrite (rel_send _ _ _ R); lia).
  cbn [expecting mbind outcome_bind].
  set (c1 := turn SEND _). destruct (turn_fields SEND (mkState (under c) (send_counter c + Z.to_N (Z.of_nat n))
    (recv_counter c) (rounds c) (last_dir_ c) (fs_ c) (fs_send_first_ c))) as (Hu & Hs & Hr & Hf & Hl & Hrd & Hff).
  fold c1 in Hu, Hs, Hr, Hf, Hl, Hrd, Hff. cbn [under send_counter recv_counter fs_ last_dir_ rounds fs_send_first_] in *.
  assert (length (take n data) = n) as Hln by (rewrite length_take; lia).
  assert (is_nil (take n data) = false) as Hnil by (destruct (take n data); [simpl in Hln; lia|done]).
  assert (∃ f, match fs_ c1 with
     | Some st => s ← HashT.put (take n data) (Z.of_nat n) (fs_send st); mret (Some (mkFs s (fs_recv st)))
     | None => mret None end = Ret f ∧ fs_rel f ((λ '(x, y), (x ++ take n data, y)) <$> a_fs a)) as (f & -> & Hfr).
  { rewrite Hf. pose proof (rel_fs _ _ _ R) as Hrf. destruct (fs_ c) as [st|], (a_fs a) as [[x y]|]; try done.
    - destruct Hrf as [Hx Hy]. destruct (HashT.put_absorbed (take n data) n (fs_send st) x Hx) as (s & -> & Hs'); [lia|].
      eexists. split; [reflexivity|]. split; [|done]. by rewrite take_idemp in Hs'.
    - by exists None. }
  cbn [mbind outcome_bind]. rewrite Hu.
  destruct (t_send_ok (take n data) (under c)) as (t & -> & Ht & Hts & Hti); [apply R|].
  cbn [mbind outcome_bind mret outcome_ret]. eexists. split; [reflexivity|]. unfold a_send. rewrite Hnil.
  destruct R. split; cbn; try done.
  - by rewrite Hts, rel_sent0, app_assoc.
  - by rewrite Hti.
  - rewrite Hs, length_app, Hln, rel_send0. lia.
  - by rewrite Hr.
  - rewrite Hrd, rel_last0, rel_rounds0. done.
  - by rewrite Hff.
Qed.
Lemma recv_data_ok t0 (n : nat) c a : Rel t0 c a → (n ≤ length (t_inbound (under c)))%nat →
  (N.of_nat (length (a_recv a) + n) < 2 ^ 64)%N →
  ∃ c', recv_data (Z.of_nat n) c = Ret (take n (t_inbound (under c)), c') ∧
    Rel t0 c' (a_receive (take n (t_inbound (under c))) a) ∧ t_inbound (under c') = drop n (t_inbound (under c)) ∧
    t_sent (under c') = t_sent (under c).
Proof.
  intros R Hn Hc. unfold recv_data. rewrite (proj2 (Z.leb_le 0 _)) by lia. cbn [expecting mbind outcome_bind].
  destruct (Z.eqb_spec (Z.of_nat n) 0) as [H0|H0].
  { replace n with 0%nat by lia. exists c. by rewrite take_0, drop_0. }
  cbv zeta. rewrite Nat2Z.id. rewrite (proj2 (N.leb_le _ _)) by (rewrite (rel_recv _ _ _ R); lia).
  cbn [expecting mbind outcome_bind].
  set (c1 := turn RECV _). destruct (turn_fields RECV (mkState (under c) (send_counter c)
    (recv_counter c + Z.to_N (Z.of_nat n)) (rounds c) (last_dir_ c) (fs_ c) (fs_send_first_ c))) as (Hu & Hs & Hr & Hf & Hl & Hrd & Hff).
  fold c1 in Hu, Hs, Hr, Hf, Hl, Hrd, Hff. cbn [under send_counter recv_counter fs_ last_dir_ rounds fs_send_first_] in *. rewrite Hu.
  destruct (t_recv_ok n (under c)) as (t & -> & Ht & Hts & Hti); [apply R|done|]. cbn [mbind outcome_bind].
  set (d := take n (t_inbound (under c))). assert (length d = n) as Hln by (unfold d; rewrite length_take; lia).
  assert (is_nil d = false) as Hnil by (destruct d; [simpl in Hln; lia|done]).
  assert (∃ f, match fs_ c1 with
     | Some st => r ← HashT.put d (Z.of_nat n) (fs_recv st); mret (Some (mkFs (fs_send st) r))
     | None => mret None end = Ret f ∧ fs_rel f ((λ '(x, y), (x, y ++ d)) <$> a_fs a)) as (f & -> & Hfr).
  { rewrite Hf. pose proof (rel_fs _ _ _ R) as Hrf. destruct (fs_ c) as [st|], (a_fs a) as [[x y]|]; try done.
    - destruct Hrf as [Hx Hy]. destruct (HashT.put_absorbed d n (fs_recv st) y Hy) as (s & -> & Hs'); [lia|].
      eexists. split; [reflexivity|]. split; [done|]. by rewrite take_ge in Hs' by lia.
    - by exists None. }
  cbn [mbind outcome_bind mret outcome_ret]. eexists. split; [reflexivity|]. unfold a_receive. rewrite Hnil.
  split; [|by split]. destruct R. split; cbn; try done.
  - by rewrite Hts.
  - rewrite Hti. unfold d. by rewrite <- app_assoc, take_drop.
  - by rewrite Hs.
  - rewrite Hr, length_app, Hln, rel_recv0. lia.
  - rewrite Hrd, rel_last0, rel_rounds0. done.
  - by rewrite Hff.
Qed.

(** *** Bools over the channel *)
Abbreviation bools data n := (truth <$> take n data).
Lemma length_pack bs : length (pack bs) = blen (length bs).
Proof. apply byte_list_pack. Qed.
Lemma chunk_size : ∃ K, (0 < K)%nat ∧ IO_BOOL_CHUNK_SIZE = (8 * K)%nat ∧ (IO_BOOL_CHUNK_SIZE / 8)%nat = K.
Proof. exists 1024%nat. split; [lia|done]. Qed.
Lemma send_bool_loop_ok fuel t0 buf data n c a : Rel t0 c a → (n ≤ fuel)%nat → (n ≤ length data)%nat →
  length buf = (IO_BOOL_CHUNK_SIZE / 8)%nat → Forall (λ v, v < 256)%N buf →
  (N.of_nat (length (a_sent a) + blen n) < 2 ^ 64)%N →
  ∃ c', send_bool_loop fuel buf data n c = Ret c' ∧ Rel t0 c' (a_send (pack (bools data n)) a).
Proof.
  revert buf data n c a. induction fuel as [|fuel IH]; intros buf data n c a R Hf Hn Hb Hbf Hc.
  { assert (n = 0%nat) as -> by lia. by exists c. }
  cbn [send_bool_loop]. destruct (Nat.ltb_spec 0 n); [|assert (n = 0%nat) as -> by lia; by exists c].
  set (batch := if (n <? IO_BOOL_CHUNK_SIZE)%nat then n else IO_BOOL_CHUNK_SIZE).
  destruct chunk_size as (K & HK & HC & HC8). rewrite HC8 in Hb.
  assert (0 < batch ≤ n ∧ batch ≤ 8 * length buf ∧ (batch = n ∨ batch = 8 * K))%nat as (Hbat & Hbl & Hcase).
  { unfold batch. rewrite HC, Hb. destruct (Nat.ltb_spec n (8 * K)); lia. }
  cbv zeta. destruct (stage_bits buf data batch) as (out & -> & Hlo & Hbo & Ht); [done|lia|lia|done|].
  cbn [mbind outcome_bind]. fold (blen batch) in *.
  assert (blen batch + blen (n - batch) = blen n)%nat as Hsum.
  { destruct Hcase as [->| ->]; [by rewrite Nat.sub_diag, Nat.add_0_r|].
    rewrite blen_mul. unfold blen. replace (n + 7)%nat with (K * 8 + (n - 8 * K + 7))%nat by lia. by rewrite Nat.div_add_l. }
  destruct (send_data_ok t0 out (blen batch) c a R) as (c1 & -> & R1); [|lia|].
  { rewrite Hlo, Hb. destruct (blen_spec batch). rewrite Hb in Hbl. lia. }
  cbn [mbind outcome_bind]. rewrite Ht in R1.
  assert (length (bools data batch) = batch) as Hlen by (rewrite length_fmap, length_take; lia).
  destruct (IH out (drop batch data) (n - batch)%nat c1 (a_send (pack (bools data batch)) a)) as (c2 & -> & R2);
    [done|lia|rewrite length_drop; lia|congruence|done| |].
  { unfold a_send. destruct (is_nil _); [lia|]. cbn [a_sent]. rewrite length_app, length_pack, Hlen. lia. }
  exists c2. split; [done|]. rewrite <- a_send_app in R2.
  replace (bools data n) with (bools data batch ++ bools (drop batch data) (n - batch)).
  2: { rewrite <- fmap_app, take_take_drop. f_equal. f_equal. lia. }
  destruct Hcase as [Hcase|Hcase]; [|by rewrite (pack_app _ _ K) by lia].
  assert (bools (drop batch data) (n - batch) = []) as Hnil by (by rewrite Hcase, Nat.sub_diag).
  rewrite Hnil in *. change (pack []) with (@nil N) in R2. by rewrite !app_nil_r in *.
Qed.
Lemma send_bool_ok t0 buf data n c a : Rel t0 c a → (n ≤ length data)%nat →
  length buf = (IO_BOOL_CHUNK_SIZE / 8)%nat → Forall (λ v, v < 256)%N buf →
  (N.of_nat (length (a_sent a) + blen n) < 2 ^ 64)%N →
  ∃ c', send_bool buf data (Z.of_nat n) c = Ret c' ∧ Rel t0 c' (a_send (pack (bools data n)) a).
Proof.
  intros R Hn Hb Hbf Hc. unfold send_bool. rewrite (proj2 (Z.leb_le 0 _)) by lia. cbn [expecting mbind outcome_bind].
  destruct (Z.eqb_spec (Z.of_nat n) 0) as [H0|H0]; [assert (n = 0%nat) as -> by lia; by exists c|].
  rewrite Nat2Z.id. by apply send_bool_loop_ok.
Qed.
Lemma recv_bool_loop_ok fuel t0 bs rest c a : Rel t0 c a → (length bs ≤ fuel)%nat →
  t_inbound (under c) = pack bs ++ rest → (N.of_nat (length (a_recv a) + blen (length bs)) < 2 ^ 64)%N →
  ∃ c', recv_bool_loop fuel (length bs) c = Ret (N.b2n <$> bs, c') ∧ Rel t0 c' (a_receive (pack bs) a) ∧
    t_inbound (under c') = rest ∧ t_sent (under c') = t_sent (under c).
Proof.
  revert bs c a. induction fuel as [|fuel IH]; intros bs c a R Hf Hin Hc.
  { destruct bs; [|simpl in Hf; lia]. by exists c. }
  cbn [recv_bool_loop]. destruct (Nat.ltb_spec 0 (length bs)) as [Hpos|]; [|destruct bs; [by exists c|simpl in *; lia]].
  set (batch := if (length bs <? IO_BOOL_CHUNK_SIZE)%nat then length bs else IO_BOOL_CHUNK_SIZE).
  destruct chunk_size as (K & HK & HC & _).
  assert (0 < batch ≤ length bs ∧ (batch = length bs ∨ batch = 8 * K))%nat as (Hbat & Hcase).
  { unfold batch. rewrite HC. destruct (Nat.ltb_spec (length bs) (8 * K)); lia. }
  cbv zeta. fold (blen batch).
  set (b1 := take batch bs). set (b2 := drop batch bs).
  assert (length b1 = batch) as Hl1 by (unfold b1; rewrite length_take; lia).
  assert (length b2 = length bs - batch)%nat as Hl2 by (unfold b2; by rewrite length_drop).
  assert (bs = b1 ++ b2) as Hbs by (unfold b1, b2; by rewrite take_drop).
  assert (pack bs = pack b1 ++ pack b2) as Hp.
  { rewrite Hbs. destruct Hcase as [Hcase|Hcase]; [|apply (pack_app _ _ K); lia].
    assert (b2 = []) as -> by (apply nil_length_inv; lia). by rewrite !app_nil_r. }
  assert (length (pack b1) = blen batch) as Hlp by (by rewrite length_pack, Hl1).
  rewrite Hp, <- app_assoc in Hin.
  assert (blen batch + blen (length b2) = blen (length bs))%nat as Hsum.
  { rewrite <- Hl1, <- !length_pack, Hp, length_app. done. }
  destruct (recv_data_ok t0 (blen batch) c a R) as (c1 & -> & R1 & Hin1 & Hs1); [rewrite Hin, length_app; lia|lia|].
  rewrite Hin, take_app_length', drop_app_length' in * by done. cbn [mbind outcome_bind].
  destruct (byte_list_pack b1) as [_ Hbytes].
  rewrite (bits_to_bools_ok (pack b1) batch) by (done || rewrite Hlp; destruct (blen_spec batch); lia).
  cbn [mbind outcome_bind]. rewrite unbytes_pack, Hl1, take_app_length' by done. rewrite <- Hl2.
  destruct (IH b2 c1 (a_receive (pack b1) a)) as (c2 & -> & R2 & Hin2 & Hs2); [done|lia|done| |].
  { unfold a_receive. destruct (is_nil _); [lia|]. cbn [a_recv]. rewrite length_app. lia. }
  cbn [mbind outcome_bind mret outcome_ret]. exists c2. rewrite <- fmap_app, <- Hbs. split; [done|].
  rewrite <- a_receive_app, <- Hp in R2. split; [done|]. split; [done|]. congruence.
Qed.
Lemma recv_bool_ok t0 bs rest c a : Rel t0 c a →
  t_inbound (under c) = pack bs ++ rest → (N.of_nat (length (a_recv a) + blen (length bs)) < 2 ^ 64)%N →
  ∃ c', recv_bool (Z.of_nat (length bs)) c = Ret (N.b2n <$> bs, c') ∧ Rel t0 c' (a_receive (pack bs) a) ∧
    t_inbound (under c') = rest ∧ t_sent (under c') = t_sent (under c).
Proof.
  intros R Hin Hc. unfold recv_bool. rewrite (proj2 (Z.leb_le 0 _)) by lia. cbn [expecting mbind outcome_bind].
  destruct (Z.eqb_spec (Z.of_nat (length bs)) 0) as [H0|H0]; [destruct bs; [by exists c|done]|].
  rewrite Nat2Z.id. by apply recv_bool_loop_ok.
Qed.

(** *** Blocks and points *)
Lemma send_block_ok t0 data (n : nat) c a : Rel t0 c a → (n ≤ length data)%nat → (Z.of_nat n ≤ (2 ^ 63 - 1) / 16)%Z →
  (N.of_nat (length (a_sent a) + 16 * n) < 2 ^ 64)%N →
  ∃ c', send_block data (Z.of_nat n) c = Ret c' ∧ Rel t0 c' (a_send (take n data ≫= le_bytes 16) a).
Proof.
  intros R Hn Hm Hc. unfold send_block. rewrite !(proj2 (Z.leb_le _ _)) by (done || lia). cbn [expecting mbind outcome_bind].
  replace (Z.of_nat n * 16)%Z with (Z.of_nat (16 * n)) by lia. rewrite <- HashT.take_blocks.
  apply send_data_ok; [done|rewrite HashT.length_blocks; lia|done].
Qed.
Lemma recv_block_ok t0 data rest c a : Rel t0 c a → Forall block_ok data →
  (Z.of_nat (length data) ≤ (2 ^ 63 - 1) / 16)%Z →
  t_inbound (under c) = (data ≫= le_bytes 16) ++ rest → (N.of_nat (length (a_recv a) + 16 * length data) < 2 ^ 64)%N →
  ∃ c', recv_block (Z.of_nat (length data)) c = Ret (data, c') ∧ Rel t0 c' (a_receive (data ≫= le_bytes 16) a) ∧
    t_inbound (under c') = rest.
Proof.
  intros R Hd Hm Hin Hc. unfold recv_block. rewrite !(proj2 (Z.leb_le _ _)) by (done || lia). cbn [expecting mbind outcome_bind].
  replace (Z.of_nat (length data) * 16)%Z with (Z.of_nat (16 * length data)) by lia.
  assert (length (data ≫= le_bytes 16) = (16 * length data)%nat) as Hl by apply HashT.length_blocks.
  destruct (recv_data_ok t0 (16 * length data) c a R) as (c1 & -> & R1 & Hin1 & _); [rewrite Hin, length_app; lia|done|].
  rewrite Hin, take_app_length', drop_app_length' in * by done. cbn [mbind outcome_bind mret outcome_ret].
  exists c1. split; [|done]. do 2 f_equal. rewrite Nat2Z.id. apply list_eq. intros i. rewrite list_lookup_fmap.
  destruct (decide (i < length data)%nat) as [Hi|Hi].
  - rewrite lookup_seq_lt by done. destruct (lookup_lt_is_Some_2 data i Hi) as [b Hb]. rewrite Hb. cbn.
    f_equal. rewrite <- (take_drop_middle data i b Hb) at 1. rewrite bind_app, drop_app_length'.
    + cbn [mbind list_bind]. rewrite take_app_length' by (by rewrite length_le_bytes).
      rewrite le_value_bytes. apply N.mod_small. rewrite Forall_lookup in Hd. exact (Hd _ _ Hb).
    + rewrite HashT.length_blocks, length_take. lia.
  - by rewrite lookup_seq_ge, lookup_ge_None_2 by lia.
Qed.
Section points_ok.
Context {P : Type} `{!Curve P} `{!LawfulCurve P} `{!Points P} {Hpt : LawfulPoints P}.
Abbreviation Point := (Point.Point P).
Definition bytes_of (p : Point) : list N := match Point.point_ p with Some Q => encoding Q | None => [] end.
Definition at_infinity (p : Point) : bool :=
  match Point.point_ p with Some Q => EC_POINT_is_at_infinity Q | None => false end.
(** The wire form of a point: its length in four bytes, then its bytes. *)
Definition point_wire (p : Point) : list N := le_bytes 4 (N.of_nat (length (bytes_of p))) ++ bytes_of p.
(** A point with a value, whose encoding fits. *)
Definition point_ok (p : Point) : Prop :=
  built p ∧ Point.group_ p ≠ None ∧ ∀ n, Point.size p = Ret n → (N.of_nat n ≤ MAX_POINT_BYTES)%N.
Lemma point_ok_inv p : point_ok p → ∃ Q g, p = Point.mkPoint (Some Q) (Some g) ∧ EC_POINT_is_on_curve Q = true ∧
  (N.of_nat (length (encoding Q)) ≤ MAX_POINT_BYTES)%N.
Proof.
  intros (Hb & Hg & Hn). destruct (PointOk_inv p (proj1 built_target_ok p Hb)) as [->|(Q & g & -> & Hc)]; [done|].
  exists Q, g. split; [done|]. split; [done|]. apply Hn. by destruct (encoding_ok Q g Hc).
Qed.
Lemma send_one_pt_ok t0 p c a : Rel t0 c a → point_ok p → (N.of_nat (length (a_sent a) + length (point_wire p)) < 2 ^ 64)%N →
  ∃ c', send_one_pt p c = Ret c' ∧ Rel t0 c' (a_send (point_wire p) a).
Proof.
  intros R (Q & g & -> & Hcu & Hp)%point_ok_inv Hc. destruct (encoding_ok Q g Hcu) as (Hs & Ht & _).
  unfold send_one_pt. rewrite Hs. cbn [mbind outcome_bind].
  rewrite (proj2 (N.leb_le _ _)) by done. cbn [expecting mbind outcome_bind]. cbv zeta.
  rewrite u32_small by (unfold MAX_POINT_BYTES in Hp; lia).
  unfold point_wire, bytes_of in *. cbn [Point.point_] in *. set (bs := encoding Q) in *.
  rewrite length_app, length_le_bytes in Hc.
  destruct (send_data_ok t0 (le_bytes 4 (N.of_nat (length bs))) 4 c a R) as (c1 & H1 & R1);
    [by rewrite length_le_bytes|lia|]. change (Z.of_nat 4) with 4%Z in H1. rewrite H1. cbn [mbind outcome_bind].
  rewrite Ht. cbn [mbind outcome_bind]. rewrite take_ge in R1 by (by rewrite length_le_bytes).
  destruct (send_data_ok t0 bs (length bs) c1 _ R1) as (c2 & H2 & R2); [done| |].
  { unfold a_send. cbn [is_nil]. destruct (is_nil _); cbn [a_sent]; rewrite ?length_app, ?length_le_bytes; lia. }
  rewrite H2. exists c2. split; [done|]. rewrite take_ge in R2 by done. by rewrite a_send_app.
Qed.
Lemma a_sent_length d a : length (a_sent (a_send d a)) = (length (a_sent a) + length d)%nat.
Proof. unfold a_send. destruct d; cbn [is_nil a_sent]; [simpl; lia|]. by rewrite length_app. Qed.
Lemma a_recv_length d a : length (a_recv (a_receive d a)) = (length (a_recv a) + length d)%nat.
Proof. unfold a_receive. destruct d; cbn [is_nil a_recv]; [simpl; lia|]. by rewrite length_app. Qed.
Definition points_wire (ps : list Point) : list N := flatten (point_wire <$> ps).
Lemma send_pt_ok t0 ps c a : Rel t0 c a → Forall point_ok ps →
  (N.of_nat (length (a_sent a) + length (points_wire ps)) < 2 ^ 64)%N →
  ∃ c', send_pt ps (Z.of_nat (length ps)) c = Ret c' ∧ Rel t0 c' (a_send (points_wire ps) a).
Proof.
  intros R Hp Hc. unfold send_pt. rewrite (proj2 (Z.leb_le 0 _)) by lia. cbn [expecting mbind outcome_bind].
  rewrite Nat2Z.id, take_ge by done. revert c a R Hc. induction Hp as [|p ps Hp _ IH]; intros c a R Hc; [by exists c|].
  unfold points_wire in *. rewrite fmap_cons, flatten_cons in *. rewrite length_app in Hc.
  destruct (send_one_pt_ok t0 p c a R Hp) as (c1 & H1 & R1); [lia|]. cbn [foldO]. rewrite H1. cbn [mbind outcome_bind].
  destruct (IH c1 _ R1) as (c2 & H2 & R2); [rewrite a_sent_length; lia|]. exists c2. split; [exact H2|].
  by rewrite a_send_app.
Qed.
Lemma recv_one_pt_ok t0 g p t rest c a : Rel t0 c a → point_ok p → target t → t_inbound (under c) = point_wire p ++ rest →
  (N.of_nat (length (a_recv a) + length (point_wire p)) < 2 ^ 64)%N →
  if at_infinity p then recv_one_pt (Some g) t c = Fatal "Point::from_bin: point at infinity"
  else ∃ q c', recv_one_pt (Some g) t c = Ret (q, c') ∧ received g p q ∧ Rel t0 c' (a_receive (point_wire p) a) ∧
    t_inbound (under c') = rest.
Proof.
  intros R (Q & gp & -> & Hcu & Hp)%point_ok_inv Ht Hin Hc. destruct (encoding_ok Q gp Hcu) as (_ & _ & Hf).
  specialize (Hf g t Ht). unfold at_infinity, recv_one_pt, point_wire, bytes_of in *. cbn [Point.point_] in *.
  set (bs := encoding Q) in *. rewrite length_app, length_le_bytes in Hc. rewrite <- app_assoc in Hin.
  destruct (recv_data_ok t0 4 c a R) as (c1 & H1 & R1 & Hin1 & _);
    [rewrite Hin, length_app, length_le_bytes; lia|lia|]. change (Z.of_nat 4) with 4%Z in H1. rewrite H1.
  rewrite Hin, take_app_length', drop_app_length' in * by (by rewrite length_le_bytes). cbn [mbind outcome_bind].
  assert (le_value (le_bytes 4 (N.of_nat (length bs))) = N.of_nat (length bs)) as Hv.
  { rewrite le_value_bytes. apply N.mod_small. unfold MAX_POINT_BYTES in Hp. change (256 ^ N.of_nat 4)%N with (2 ^ 32)%N. lia. }
  cbv zeta. rewrite Hv, (proj2 (N.leb_le _ _)) by done. cbn [expecting mbind outcome_bind]. rewrite nat_N_Z.
  destruct (recv_data_ok t0 (length bs) c1 _ R1) as (c2 & H2 & R2 & Hin2 & _);
    [rewrite Hin1, length_app; lia|rewrite a_recv_length, length_le_bytes; lia|].
  rewrite H2. rewrite Hin1, take_app_length', drop_app_length' in * by done. cbn [mbind outcome_bind].
  destruct (EC_POINT_is_at_infinity Q); [by rewrite Hf|]. destruct Hf as (q & Hq & Hrec).
  rewrite Hq. cbn [mbind outcome_bind mret outcome_ret]. exists q, c2. split; [done|]. split; [done|]. split; [|done].
  by rewrite a_receive_app.
Qed.
(** Every point of the list arrives, unless one is the point at infinity: there the
    receiving process ends. *)
Lemma recv_pt_ok t0 g ps ts rest c a : Rel t0 c a → Forall point_ok ps → Forall target ts → length ts = length ps →
  t_inbound (under c) = points_wire ps ++ rest →
  (N.of_nat (length (a_recv a) + length (points_wire ps)) < 2 ^ 64)%N →
  if existsb at_infinity ps then recv_pt (Some g) ts (Z.of_nat (length ps)) c = Fatal "Point::from_bin: point at infinity"
  else ∃ qs c', recv_pt (Some g) ts (Z.of_nat (length ps)) c = Ret (qs, c') ∧ Forall2 (received g) ps qs ∧
    Rel t0 c' (a_receive (points_wire ps) a) ∧ t_inbound (under c') = rest.
Proof.
  intros R Hp Hts Hl Hin Hc. unfold recv_pt. rewrite (proj2 (Z.leb_le 0 _)) by lia. cbn [expecting mbind outcome_bind].
  rewrite Nat2Z.id, take_ge by lia.
  assert (∀ qs0, if existsb at_infinity ps
    then foldO (λ '(ps, c) p, '(p, c) ← recv_one_pt (Some g) p c; mret (ps ++ [p], c)) (qs0, c) ts = Fatal "Point::from_bin: point at infinity"
    else ∃ qs c', foldO (λ '(ps, c) p, '(p, c) ← recv_one_pt (Some g) p c; mret (ps ++ [p], c)) (qs0, c) ts = Ret (qs0 ++ qs, c') ∧
      Forall2 (received g) ps qs ∧ Rel t0 c' (a_receive (points_wire ps) a) ∧ t_inbound (under c') = rest) as H; [|exact (H [])].
  revert ts c a R Hin Hc Hts Hl. induction Hp as [|p ps Hp _ IH]; intros ts c a R Hin Hc Hts Hl qs0.
  { destruct ts; [|done]. cbn [existsb]. exists [], c. rewrite app_nil_r. split; [done|]. split; [constructor|done]. }
  destruct ts as [|t ts]; [done|]. apply Forall_cons in Hts as [Ht Hts]. injection Hl as Hl.
  unfold points_wire in *. rewrite fmap_cons, flatten_cons in *. rewrite length_app in Hc. rewrite <- app_assoc in Hin.
  pose proof (recv_one_pt_ok t0 g p t _ c a R Hp Ht Hin ltac:(lia)) as H1. cbn [existsb foldO].
  destruct (at_infinity p); cbn [orb]; [by rewrite H1|]. destruct H1 as (q & c1 & H1 & Hq & R1 & Hin1).
  rewrite H1. cbn [mbind outcome_bind mret outcome_ret].
  specialize (IH ts c1 _ R1 Hin1 ltac:(rewrite a_recv_length; lia) Hts Hl (qs0 ++ [q])).
  destruct (existsb at_infinity ps); [done|]. destruct IH as (qs & c2 & H2 & Hqs & R2 & Hin2).
  exists (q :: qs), c2. split; [by rewrite H2, <- app_assoc|]. split; [by constructor|]. split; [by rewrite a_receive_app|done].
Qed.
End points_ok.

(** *** Transcripts *)
Lemma enable_fs_ok t0 b c a : Rel t0 c a → a_fs a = None →
  ∃ c', enable_fs b c = Ret c' ∧
    Rel t0 c' (mkAbs (a_sent a) (a_recv a) (a_rounds a) (a_last a) (Some ([], [])) b).
Proof.
  intros R Ha. pose proof (rel_fs _ _ _ R) as Hf. unfold enable_fs, fs_enabled. rewrite Ha in Hf.
  destruct (fs_ c) eqn:Hc; [done|]. cbn [negb expecting mbind outcome_bind mret outcome_ret].
  eexists. split; [done|]. destruct R. split; try done. split; apply HashT.absorbed_new.
Qed.
Lemma enable_fs_twice t0 b c a x : Rel t0 c a → a_fs a = Some x →
  enable_fs b c = Fatal "IOChannel::enable_fs: called twice".
Proof.
  intros R Ha. pose proof (rel_fs _ _ _ R) as Hf. unfold enable_fs, fs_enabled. rewrite Ha in Hf. by destruct (fs_ c).
Qed.
(** The combined digest: the A-to-B digest first, on both sides. *)
Definition fs_value (first : bool) (x y : list N) : block :=
  le_value (take 16 (hash_fn (if first then hash_fn x ++ hash_fn y else hash_fn y ++ hash_fn x))).
Context `{!LawfulHash St}.
Lemma rel_set_fs t0 c a st x y : Rel t0 c a → a_fs a = Some (x, y) →
  HashT.absorbed (fs_send st) x → HashT.absorbed (fs_recv st) y → Rel t0 (set_fs (Some st) c) a.
Proof. intros [] Ha Hx Hy. split; try done. cbn. by rewrite Ha. Qed.
Lemma get_digest_ok t0 c a x y : Rel t0 c a → a_fs a = Some (x, y) →
  ∃ c', get_digest c = Ret (fs_value (a_first a) x y, c') ∧ Rel t0 c' a.
Proof.
  intros R Ha. pose proof (rel_fs _ _ _ R) as Hf. unfold get_digest. rewrite Ha in Hf. destruct (fs_ c) as [st|]; [|done].
  destruct Hf as [Hx Hy]. destruct (HashT.digest_absorbed false _ _ Hx) as [Hd1 Ha1], (HashT.digest_absorbed false _ _ Hy) as [Hd2 Ha2].
  destruct (HashT.digest false (fs_send st)) as [ds s], (HashT.digest false (fs_recv st)) as [dr r]. cbn [fst snd] in *. subst ds dr.
  rewrite HashT.hash_once_ok, take_ge by done. cbn [mbind outcome_bind mret outcome_ret]. eexists. split.
  - rewrite (rel_first _ _ _ R). reflexivity.
  - by eapply rel_set_fs.
Qed.
Lemma get_dir_digests_ok t0 c a x y : Rel t0 c a → a_fs a = Some (x, y) →
  (∃ c', get_send_digest c = Ret (le_value (take 16 (hash_fn x)), c') ∧ Rel t0 c' a) ∧
  (∃ c', get_recv_digest c = Ret (le_value (take 16 (hash_fn y)), c') ∧ Rel t0 c' a).
Proof.
  intros R Ha. pose proof (rel_fs _ _ _ R) as Hf. unfold get_send_digest, get_recv_digest. rewrite Ha in Hf.
  destruct (fs_ c) as [st|]; [|done]. destruct Hf as [Hx Hy].
  destruct (HashT.digest_absorbed false _ _ Hx) as [Hd1 Ha1], (HashT.digest_absorbed false _ _ Hy) as [Hd2 Ha2].
  destruct (HashT.digest false (fs_send st)) as [ds s], (HashT.digest false (fs_recv st)) as [dr r]. cbn [fst snd] in *. subst ds dr.
  split; (eexists; split; [reflexivity|]; by eapply rel_set_fs).
Qed.
End channel.
End IOChannel.

(** ** Sequences of channel operations *)
Module Script.
Import IOChannel.
Inductive Op := OSend (d : list N) | ORecv (n : nat) | OEnableFs (send_first : bool) | ODigest.
Section run.
Context {T St : Type} `{!Transport T} `{!StreamHash St}.
Abbreviation Channel := (State (T := T) (St := St)).
Definition run_op (c : Channel) (o : Op) : outcome (list (list N) * Channel) :=
  match o with
  | OSend d => c ← send_data d (Z.of_nat (length d)) c; mret ([], c)
  | ORecv n => '(d, c) ← recv_data (Z.of_nat n) c; mret ([d], c)
  | OEnableFs b => c ← enable_fs b c; mret ([], c)
  | ODigest => '(b, c) ← get_digest c; mret ([le_bytes 16 b], c)
  end.
Definition run (os : list Op) (c : Channel) : outcome (list (list N) * Channel) :=
  foldO (λ '(outs, c) o, '(out, c) ← run_op c o; mret (outs ++ out, c)) ([], c) os.
End run.

(** The specification: what comes out, the abstract channel, what is left inbound. *)
Definition Spec : Type := list (list N) * Abs * list N.
Definition spec_op (H : list N → list N → bool → block) (s : Spec) (o : Op) : option Spec :=
  let '(outs, a, inb) := s in
  match o with
  | OSend d => if (N.of_nat (length (a_sent a) + length d) <? 2 ^ 64)%N then Some (outs, a_send d a, inb) else None
  | ORecv n => if (n <=? length inb)%nat && (N.of_nat (length (a_recv a) + n) <? 2 ^ 64)%N
               then Some (outs ++ [take n inb], a_receive (take n inb) a, drop n inb) else None
  | OEnableFs b => match a_fs a with
                   | None => Some (outs, mkAbs (a_sent a) (a_recv a) (a_rounds a) (a_last a) (Some ([], [])) b, inb)
                   | Some _ => None end
  | ODigest => match a_fs a with Some (x, y) => Some (outs ++ [le_bytes 16 (H x y (a_first a))], a, inb) | None => None end
  end.
Fixpoint spec (H : list N → list N → bool → block) (os : list Op) (s : Spec) : option Spec :=
  match os with [] => Some s | o :: os => s ← spec_op H s o; spec H os s end.
Definition dirs (os : list Op) : list Dir :=
  os ≫= λ o, match o with OSend (_ :: _) => [SEND] | ORecv (S _) => [RECV] | _ => [] end.
(** Maximal runs of one direction. *)
Fixpoint runs (ds : list Dir) : N :=
  match ds with
  | [] => 0
  | d :: rest => match rest with [] => 1 | e :: _ => (if decide (d = e) then 0 else 1) + runs rest end
  end%N.
Lemma runs_snoc ds d : runs (ds ++ [d]) = (if decide (last ds = Some d) then runs ds else runs ds + 1)%N.
Proof.
  induction ds as [|e ds IH]; [done|]. destruct ds as [|f ds].
  - cbn. destruct (decide (e = d)) as [->|Hne]; [by rewrite decide_True|]. rewrite decide_False by congruence. done.
  - change (runs ((e :: f :: ds) ++ [d])) with ((if decide (e = f) then 0 else 1) + runs ((f :: ds) ++ [d]))%N.
    rewrite IH. change (last (e :: f :: ds)) with (last (f :: ds)).
    change (runs (e :: f :: ds)) with ((if decide (e = f) then 0 else 1) + runs (f :: ds))%N.
    destruct (decide (last (f :: ds) = Some d)); lia.
Qed.

Section refine.
Context {T St : Type} `{!Transport T} `{!StreamHash St} `{!LawfulTransport T} `{!LawfulHash St}.
Definition H_fs (x y : list N) (b : bool) : block := fs_value (St := St) b x y.
Lemma script_op_ok t0 (c : State (T := T) (St := St)) outs a inb o s' : Rel t0 c a → t_inbound (under c) = inb →
  spec_op H_fs (outs, a, inb) o = Some s' →
  ∃ out c', run_op c o = Ret (out, c') ∧ s'.1.1 = outs ++ out ∧ Rel t0 c' s'.1.2 ∧ t_inbound (under c') = s'.2.
Proof.
  intros R Hin. destruct o as [d|n|b|]; cbn [spec_op run_op].
  - destruct (N.ltb_spec (N.of_nat (length (a_sent a) + length d)) (2 ^ 64)) as [Hlt|]; [|done]. injection 1 as <-.
    destruct (send_data_ok t0 d (length d) c a R) as (c' & -> & R'); [done|done|].
    rewrite take_ge in R' by done. exists [], c'. split; [done|]. split; [by rewrite app_nil_r|]. split; [done|].
    cbn [snd]. pose proof (rel_inbound _ _ _ R) as H1. pose proof (rel_inbound _ _ _ R') as H2.
    assert (a_recv (a_send d a) = a_recv a) as Hr by by destruct d. rewrite Hr, H1 in H2. rewrite <- Hin.
    by apply app_inv_head in H2.
  - destruct (Nat.leb_spec n (length inb)) as [Hn|]; [|done].
    destruct (N.ltb_spec (N.of_nat (length (a_recv a) + n)) (2 ^ 64)) as [Hlt|]; [|done]. cbn [andb]. injection 1 as <-.
    rewrite <- Hin in *. destruct (recv_data_ok t0 n c a R) as (c' & -> & R' & Hin' & _); [done|done|].
    by exists [take n (t_inbound (under c))], c'.
  - destruct (a_fs a) eqn:Ha; [done|]. injection 1 as <-. destruct (enable_fs_ok t0 b c a R Ha) as (c' & He & R').
    rewrite He. exists [], c'. split; [done|]. split; [by rewrite app_nil_r|]. split; [done|].
    cbn [snd]. pose proof (rel_inbound _ _ _ R) as H1. pose proof (rel_inbound _ _ _ R') as H2. cbn [a_recv] in H2.
    rewrite H1 in H2. rewrite <- Hin. by apply app_inv_head in H2.
  - destruct (a_fs a) as [[x y]|] eqn:Ha; [|done]. injection 1 as <-.
    destruct (get_digest_ok t0 c a x y R Ha) as (c' & -> & R'). exists [le_bytes 16 (fs_value (St := St) (a_first a) x y)], c'.
    split; [done|]. split; [done|]. split; [done|]. cbn [snd]. rewrite <- Hin.
    pose proof (rel_inbound _ _ _ R) as H1. pose proof (rel_inbound _ _ _ R') as H2. rewrite H1 in H2.
    by apply app_inv_head in H2.
Qed.
Lemma script_ok t0 os c outs a inb s' : Rel t0 c a → t_inbound (under c) = inb → spec H_fs os (outs, a, inb) = Some s' →
  ∃ c', foldO (λ '(outs, c) o, '(out, c) ← run_op c o; mret (outs ++ out, c)) (outs, c) os = Ret (s'.1.1, c') ∧
    Rel t0 c' s'.1.2 ∧ t_inbound (under c') = s'.2.
Proof.
  revert c outs a inb. induction os as [|o os IH]; intros c outs a inb R Hin; cbn [spec].
  { injection 1 as <-. by exists c. }
  intros ([[outs1 a1] inb1] & Ho & Hs)%bind_Some.
  destruct (script_op_ok t0 c outs a inb o _ R Hin Ho) as (out & c1 & Hr & Houts & R1 & Hin1). cbn [fst snd] in *. subst outs1.
  cbn [foldO]. rewrite Hr. cbn [mbind outcome_bind mret outcome_ret]. by apply (IH c1 _ a1 inb1).
Qed.
(** The rounds are the runs of the directions so far. *)
Definition last_dir (ds : list Dir) : Dir := default NONE (last ds).
Lemma spec_rounds os s s' ds : spec H_fs os s = Some s' → a_rounds s.1.2 = runs ds → a_last s.1.2 = last_dir ds →
  Forall (λ d, d ≠ NONE) ds → a_rounds s'.1.2 = runs (ds ++ dirs os).
Proof.
  revert s ds. induction os as [|o os IH]; intros [[outs a] inb] ds; cbn [spec fst snd].
  { intros [= <-] Hr _ _. unfold dirs. cbn. by rewrite app_nil_r. }
  intros ([[outs1 a1] inb1] & Ho & Hs)%bind_Some Hr Hl Hn.
  assert (∀ d, d ≠ NONE → a_turn d a = runs (ds ++ [d])) as Hturn.
  { intros d Hd. unfold a_turn. rewrite runs_snoc, Hr, Hl. unfold last_dir.
    destruct (last ds) as [e|]; cbn; [|by rewrite !decide_False by congruence].
    destruct (decide (e = d)) as [->|]; [by rewrite decide_True|by rewrite decide_False by congruence]. }
  assert (∀ d, last_dir (ds ++ [d]) = d) as Hlast by (intros d; unfold last_dir; by rewrite last_snoc).
  destruct o as [d|n|b|]; cbn [spec_op] in Ho.
  - destruct (_ <? _)%N; [|done]. injection Ho as <- <- <-. destruct d as [|x d]; [by apply (IH _ ds Hs)|].
    change (dirs (OSend (x :: d) :: os)) with ([SEND] ++ dirs os). rewrite app_assoc.
    apply (IH _ (ds ++ [SEND]) Hs); cbn [fst snd a_send is_nil a_rounds a_last]; [by apply Hturn|by rewrite Hlast|].
    apply Forall_app. split; [done|by constructor].
  - destruct (Nat.leb_spec n (length inb)) as [Hle|]; [|done]. destruct (_ <? _)%N; [|done]. injection Ho as <- <- <-.
    destruct n as [|n]; [by apply (IH _ ds Hs)|]. destruct inb as [|x inb]; [simpl in Hle; lia|].
    change (dirs (ORecv (S n) :: os)) with ([RECV] ++ dirs os). rewrite app_assoc.
    apply (IH _ (ds ++ [RECV]) Hs); cbn [take fst snd a_receive is_nil a_rounds a_last]; [by apply Hturn|by rewrite Hlast|].
    apply Forall_app. split; [done|by constructor].
  - destruct (a_fs a); [done|]. injection Ho as <- <- <-. by apply (IH _ ds Hs).
  - destruct (a_fs a) as [[x y]|]; [|done]. injection Ho as <- <- <-. by apply (IH _ ds Hs).
Qed.
End refine.
End Script.

(** ** TraceIO

    The files are the bytes written to them; [disk_ok] tells whether the disk takes
    them. *)
Module TraceIO.
Section trace.
Context {T : Type} `{!Transport T}.
Record State := mkState { under_ : T; send_fp_ : list N; recv_fp_ : list N; disk_ok : bool }.
(** The files open, truncated, or the process ends. *)
Definition new (opens_send opens_recv : bool) (disk : bool) (under : T) : outcome State :=
  expecting opens_send "TraceIO: cannot open .send for write";;
  expecting opens_recv "TraceIO: cannot open .recv for write";;
  mret (mkState under [] [] disk).
Definition trace_send (data : list N) (t : State) : outcome State :=
  if is_nil data then mret t else
  expecting (disk_ok t) "TraceIO: short write to .send";;
  u ← send_data_internal data (under_ t);
  mret (mkState u (send_fp_ t ++ data) (recv_fp_ t) (disk_ok t)).
Definition trace_recv (n : nat) (t : State) : outcome (list N * State) :=
  if (n =? 0)%nat then mret ([], t) else
  '(data, u) ← recv_data_internal n (under_ t);
  expecting (disk_ok t) "TraceIO: short write to .recv";;
  mret (data, mkState u (send_fp_ t) (recv_fp_ t ++ data) (disk_ok t)).
#[global] Instance trace_transport : Transport State := {|
  send_data_internal := trace_send; recv_data_internal := trace_recv;
  flush t := u ← flush (under_ t); mret (mkState u (send_fp_ t) (recv_fp_ t) (disk_ok t));
  sync t := u ← sync (under_ t); mret (mkState u (send_fp_ t) (recv_fp_ t) (disk_ok t)) |}.

(** Over a lawful transport that had sent [base] and had [input] to deliver: the
    files hold what has crossed since. *)
Context `{!LawfulTransport T} (base input : list N).
#[refine] Definition trace_lawful : LawfulTransport State := {|
  t_ok t := t_ok (under_ t) ∧ disk_ok t = true ∧ t_sent (under_ t) = base ++ send_fp_ t ∧
            input = recv_fp_ t ++ t_inbound (under_ t);
  t_sent t := send_fp_ t; t_inbound t := t_inbound (under_ t) |}.
Proof.
  - intros d t (Ht & Hd & Hs & Hi). cbn. unfold trace_send. destruct d as [|x d]; cbn [is_nil].
    { exists t. split; [done|]. split; [done|]. by rewrite app_nil_r. }
    rewrite Hd. cbn [expecting mbind outcome_bind].
    destruct (t_send_ok (x :: d) (under_ t) Ht) as (u & -> & Hu & Hus & Hui). cbn [mbind outcome_bind mret outcome_ret].
    eexists. split; [reflexivity|]. cbn. rewrite Hui. split; [|done]. split_and!; try done. by rewrite Hus, Hs, app_assoc.
  - intros n t (Ht & Hd & Hs & Hi) Hn. cbn in *. unfold trace_recv. destruct n as [|n]; cbn [Nat.eqb].
    { exists t. by rewrite take_0, drop_0. }
    destruct (t_recv_ok (S n) (under_ t) Ht Hn) as (u & -> & Hu & Hus & Hui). cbn [mbind outcome_bind]. rewrite Hd.
    cbn [expecting mbind outcome_bind mret outcome_ret]. eexists. split; [reflexivity|]. cbn. split; [|done].
    split_and!; [done|done|by rewrite Hus|]. by rewrite Hui, <- app_assoc, take_drop.
  - intros t (Ht & Hd & Hs & Hi). cbn. destruct (t_flush_ok (under_ t) Ht) as (u & -> & Hu & Hus & Hui).
    cbn [mbind outcome_bind mret outcome_ret]. eexists. split; [reflexivity|]. cbn. rewrite Hui. split; [|done].
    split_and!; try done. by rewrite Hus.
Defined.
End trace.
End TraceIO.

(** A pipe for the examples: the bytes written, and those to read. *)
Module Pipe.
Definition pipe : Type := list N * list N.
#[global] Instance pipe_transport : Transport pipe := {|
  send_data_internal d t := Ret (t.1 ++ d, t.2);
  recv_data_internal n t := if (n <=? length t.2)%nat then Ret (take n t.2, (t.1, drop n t.2)) else Fatal "closed";
  flush := Ret; sync := Ret |}.
#[global, refine] Instance pipe_lawful : LawfulTransport pipe := {|
  t_ok _ := True; t_sent := fst; t_inbound := snd |}.
Proof.
  - intros d [o i] _. by eexists.
  - intros n [o i] _ Hn. cbn in *. rewrite (proj2 (Nat.leb_le _ _)) by done. by eexists.
  - intros [o i] _. by eexists.
Defined.
End Pipe.

(** ** Properties *)

(** C13: The channel over any lawful transport.  A sequence of sends, receives,
    [enable_fs] and digests that the specification admits (enough bytes inbound,
    counters below 2^64, transcripts enabled once) returns what the specification
    says: the received bytes in order and the Fiat-Shamir values; the counters are
    the bytes of each direction, [rounds] the number of maximal runs of one
    direction, and a transfer of no bytes changes nothing. *)
Theorem channel_refines {T St} `{!Transport T} `{!StreamHash St} `{!LawfulTransport T} `{!LawfulHash St}
    (t : T) (os : list Script.Op) outs a inb :
  t_ok t → Script.spec (Script.H_fs (St := St)) os ([], IOChannel.a_new, t_inbound t) = Some (outs, a, inb) →
  ∃ c, Script.run (St := St) os (IOChannel.new t) = Ret (outs, c) ∧
    IOChannel.send_counter c = N.of_nat (length (IOChannel.a_sent a)) ∧
    IOChannel.recv_counter c = N.of_nat (length (IOChannel.a_recv a)) ∧
    IOChannel.rounds c = Script.runs (Script.dirs os) ∧
    t_sent (IOChannel.under c) = t_sent t ++ IOChannel.a_sent a ∧
    t_inbound t = IOChannel.a_recv a ++ inb.
Proof.
  intros Ht Hs. destruct (Script.script_ok t os (IOChannel.new t) [] IOChannel.a_new (t_inbound t) _
    (IOChannel.rel_new t Ht) eq_refl Hs) as (c & Hr & R & Hin). cbn [fst snd] in *.
  exists c. split; [exact Hr|]. destruct R. split; [done|]. split; [done|]. split; [|split; [done|]].
  - rewrite rel_rounds. by apply (Script.spec_rounds os _ _ [] Hs).
  - by rewrite rel_inbound, Hin.
Qed.
Lemma channel_refines_witness :
  let os := [Script.OEnableFs true; Script.OSend [1; 2]%N; Script.OSend []%N; Script.OSend [3]%N; Script.ORecv 2; Script.ODigest] in
  ∃ outs c, Script.run (T := Pipe.pipe) (St := list N) os (IOChannel.new ([], [7; 8; 9]%N)) = Ret (outs, c) ∧
    IOChannel.rounds c = 2%N ∧ IOChannel.send_counter c = 3%N.
Proof.
  intros os. eexists. destruct (channel_refines (T := Pipe.pipe) (St := list N)
    (LawfulTransport0 := Pipe.pipe_lawful) ([], [7; 8; 9]%N) os _ _ _ (I : @t_ok _ _ Pipe.pipe_lawful ([], [7; 8; 9]%N)) eq_refl)
    as (c & Hr & Hs & _ & Hrd & _). exists c. split; [exact Hr|]. split; [exact Hrd|exact Hs].
Defined.

(** C14: What two endpoints agree on.  When each has received what the other sent
    since enabling the transcripts and exactly one is the first sender, both get
    the same Fiat-Shamir digest.  Bools sent by one and received by the other,
    over any transports, arrive as the bools they stand for, for every length, and
    the bytes on the wire do not depend on what the staging array held before; so
    do blocks.  Points of the curve whose encoding is at most [MAX_POINT_BYTES]
    long, however they were made, arrive one by one as equal points of the
    receiver's group, whatever the objects they are read into held; if one of them
    is the point at infinity the receiving process ends there.  The counts of bytes
    stay below [2^64]. *)
Theorem endpoints_agree {TA TB St} `{!Transport TA} `{!Transport TB} `{!StreamHash St}
    `{!LawfulTransport TA} `{!LawfulTransport TB} `{!LawfulHash St}
    {P} `{!Curve P} `{!LawfulCurve P} `{!Points P} {Hpt : LawfulPoints P}
    tA tB (cA : IOChannel.State (T := TA) (St := St)) (cB : IOChannel.State (T := TB) (St := St)) a b :
  IOChannel.Rel tA cA a → IOChannel.Rel tB cB b →
  (∀ x y, IOChannel.a_fs a = Some (x, y) → IOChannel.a_fs b = Some (y, x) → IOChannel.a_first b = negb (IOChannel.a_first a) →
     ∃ v cA' cB', IOChannel.get_digest cA = Ret (v, cA') ∧ IOChannel.get_digest cB = Ret (v, cB')) ∧
  (∀ buf data (n : nat) rest, (n ≤ length data)%nat → length buf = 1024%nat → Forall (λ v, v < 256)%N buf →
     (N.of_nat (length (IOChannel.a_sent a) + blen n) < 2 ^ 64)%N → (N.of_nat (length (IOChannel.a_recv b) + blen n) < 2 ^ 64)%N →
     ∃ cA' w, IOChannel.send_bool buf data (Z.of_nat n) cA = Ret cA' ∧
       t_sent (IOChannel.under cA') = t_sent (IOChannel.under cA) ++ w ∧ w = pack (truth <$> take n data) ∧
       (t_inbound (IOChannel.under cB) = w ++ rest →
        ∃ cB', IOChannel.recv_bool (Z.of_nat n) cB = Ret (N.b2n <$> (truth <$> take n data), cB') ∧
          t_inbound (IOChannel.under cB') = rest)) ∧
  (∀ data rest, Forall block_ok data → (Z.of_nat (length data) ≤ (2 ^ 63 - 1) / 16)%Z →
     (N.of_nat (length (IOChannel.a_sent a) + 16 * length data) < 2 ^ 64)%N →
     (N.of_nat (length (IOChannel.a_recv b) + 16 * length data) < 2 ^ 64)%N →
     ∃ cA' w, IOChannel.send_block data (Z.of_nat (length data)) cA = Ret cA' ∧
       t_sent (IOChannel.under cA') = t_sent (IOChannel.under cA) ++ w ∧
       (t_inbound (IOChannel.under cB) = w ++ rest →
        ∃ cB', IOChannel.recv_block (Z.of_nat (length data)) cB = Ret (data, cB') ∧ t_inbound (IOChannel.under cB') = rest)) ∧
  (∀ (ps ts : list (Point.Point P)) g rest,
     Forall (λ p, built p ∧ Point.group_ p ≠ None ∧
       ∀ n, Point.size p = Ret n → (N.of_nat n ≤ IOChannel.MAX_POINT_BYTES)%N) ps →
     Forall target ts → length ts = length ps →
     (N.of_nat (length (IOChannel.a_sent a) + length (IOChannel.points_wire ps)) < 2 ^ 64)%N →
     (N.of_nat (length (IOChannel.a_recv b) + length (IOChannel.points_wire ps)) < 2 ^ 64)%N →
     ∃ cA' w, IOChannel.send_pt ps (Z.of_nat (length ps)) cA = Ret cA' ∧
       t_sent (IOChannel.under cA') = t_sent (IOChannel.under cA) ++ w ∧
       (t_inbound (IOChannel.under cB) = w ++ rest →
        if existsb IOChannel.at_infinity ps
        then IOChannel.recv_pt (Some g) ts (Z.of_nat (length ps)) cB = Fatal "Point::from_bin: point at infinity"
        else ∃ qs cB', IOChannel.recv_pt (Some g) ts (Z.of_nat (length ps)) cB = Ret (qs, cB') ∧
          Forall2 (received g) ps qs ∧ t_inbound (IOChannel.under cB') = rest)).
Proof.
  intros RA RB.
  assert (∀ cA' d, IOChannel.Rel tA cA' (IOChannel.a_send d a) →
    t_sent (IOChannel.under cA') = t_sent (IOChannel.under cA) ++ d) as Hsent.
  { intros cA' d R'. rewrite (IOChannel.rel_sent _ _ _ R'), (IOChannel.rel_sent _ _ _ RA), <- app_assoc. f_equal.
    destruct d; [by rewrite app_nil_r|done]. }
  split; [|split; [|split]].
  - intros x y Ha Hb Hf. destruct (IOChannel.get_digest_ok tA cA a x y RA Ha) as (cA' & HA & _).
    destruct (IOChannel.get_digest_ok tB cB b y x RB Hb) as (cB' & HB & _). rewrite Hf in HB.
    exists (IOChannel.fs_value (St := St) (IOChannel.a_first a) x y), cA', cB'. split; [done|]. rewrite HB.
    by destruct (IOChannel.a_first a).
  - intros buf data n rest Hn Hb Hbf HcA HcB.
    destruct (IOChannel.send_bool_ok tA buf data n cA a RA Hn Hb Hbf HcA) as (cA' & HA & RA').
    exists cA', (pack (truth <$> take n data)). split; [done|]. split; [by apply Hsent|]. split; [done|]. intros Hin.
    assert (length (truth <$> take n data) = n) as Hl by (rewrite length_fmap, length_take; lia).
    destruct (IOChannel.recv_bool_ok tB _ rest cB b RB Hin) as (cB' & HB & _ & Hr & _); [by rewrite Hl|].
    rewrite Hl in HB. by exists cB'.
  - intros data rest Hd Hm HcA HcB.
    destruct (IOChannel.send_block_ok tA data (length data) cA a RA) as (cA' & HA & RA'); [done..|].
    exists cA', (data ≫= le_bytes 16). split; [done|]. rewrite take_ge in RA' by done. split; [by apply Hsent|]. intros Hin.
    destruct (IOChannel.recv_block_ok tB data rest cB b RB) as (cB' & HB & _ & Hr); [done..|]. by exists cB'.
  - intros ps ts g rest Hp Hts Hl HcA HcB. destruct (IOChannel.send_pt_ok tA ps cA a RA Hp HcA) as (cA' & HA & RA').
    exists cA', (IOChannel.points_wire ps). split; [done|]. split; [by apply Hsent|]. intros Hin.
    pose proof (IOChannel.recv_pt_ok tB g ps ts rest cB b RB Hp Hts Hl Hin HcB) as HB.
    destruct (existsb _ ps); [done|]. destruct HB as (qs & cB' & HB & Hq & _ & Hr). by exists qs, cB'.
Qed.

(** Two endpoints over pipes, each able to hold a point of the small curve. *)
Lemma endpoints_agree_witness :
  let e := IOChannel.new (T := Pipe.pipe) (St := list N) in
  let p := Point.mkPoint (P := Z * Z) (Some (0, 6)%Z) (Some 1%nat) in
  (∃ cA' w, IOChannel.send_bool (T := Pipe.pipe) (St := list N) (replicate 1024 255%N) [1; 0; 3; 0; 0; 0; 0; 0; 1]%N 9 (e ([], [])) = Ret cA' ∧
    t_sent (IOChannel.under cA') = w ∧ w = [5; 1]%N ∧
    ∃ cB', IOChannel.recv_bool (T := Pipe.pipe) (St := list N) 9 (e ([], w ++ [77]%N)) = Ret ([1; 0; 1; 0; 0; 0; 0; 0; 1]%N, cB') ∧
      t_inbound (IOChannel.under cB') = [77]%N) ∧
  ∃ cA' qs cB', IOChannel.send_pt (T := Pipe.pipe) (St := list N) [p] 1 (e ([], [])) = Ret cA' ∧
    IOChannel.recv_pt (T := Pipe.pipe) (St := list N) (Some 2%nat) [Point.new (P := Z * Z) (Some 2%nat)] 1 (e ([], IOChannel.points_wire [p])) = Ret (qs, cB') ∧
    Forall2 (received (P := Z * Z) 2) [p] qs.
Proof.
  intros e p.
  assert (built p) as Hp by (apply (built_generator 1); vm_compute; reflexivity).
  assert (∀ inb : list N, _) as E by (intros inb; exact (endpoints_agree (TA := Pipe.pipe) (TB := Pipe.pipe)
    (LawfulTransport0 := Pipe.pipe_lawful) (LawfulTransport1 := Pipe.pipe_lawful) (St := list N) (P := Z * Z)
    ([], []) ([], inb) (e ([], [])) (e ([], inb)) IOChannel.a_new IOChannel.a_new
    (IOChannel.rel_new ([], []) (I : @t_ok _ _ Pipe.pipe_lawful ([], [])))
    (IOChannel.rel_new ([], inb) (I : @t_ok _ _ Pipe.pipe_lawful ([], inb))))).
  split.
  - destruct (E [5; 1; 77]%N) as (_ & Hb & _).
    destruct (Hb (replicate 1024 255%N) [1; 0; 3; 0; 0; 0; 0; 0; 1]%N 9%nat [77]%N) as (cA' & w & Hs & Hw & -> & Hr);
      [cbn; lia|done|by apply Forall_replicate|done|done|].
    exists cA', [5; 1]%N. split; [exact Hs|]. split; [exact Hw|]. split; [done|].
    destruct Hr as (cB' & Hr & Hi); [done|]. by exists cB'.
  - destruct (E (IOChannel.points_wire [p])) as (_ & _ & _ & Hpt).
    destruct (Hpt [p] [Point.new (Some 2%nat)] 2%nat []) as (cA' & w & Hs & Hw & Hr).
    + constructor; [|constructor]. split; [exact Hp|]. split; [discriminate|]. intros n Hn. vm_compute in Hn. by injection Hn as <-.
    + constructor; [apply target_new|constructor].
    + done.
    + done.
    + done.
    + assert (w = IOChannel.points_wire [p]) as -> by (vm_compute in Hs; injection Hs as <-; vm_compute in Hw; by rewrite <- Hw).
      destruct Hr as (qs & cB' & HB & Hq & _); [by rewrite app_nil_r|]. by exists cA', qs, cB'.
Defined.

(** Tracing is transparent.  When the files open and the disk takes the bytes,
    a channel over [TraceIO] returns for every admitted script what the channel
    would return without it, hands the same bytes to the underlying transport, and
    the two files hold exactly the bytes sent and the bytes received. *)
Theorem trace_io_transparent {T St} `{!Transport T} `{!StreamHash St} `{!LawfulTransport T} `{!LawfulHash St}
    (t : T) (os : list Script.Op) outs a inb :
  t_ok t → Script.spec (Script.H_fs (St := St)) os ([], IOChannel.a_new, t_inbound t) = Some (outs, a, inb) →
  ∃ tt c c0, TraceIO.new true true true t = Ret tt ∧
    Script.run (St := St) os (IOChannel.new tt) = Ret (outs, c) ∧
    Script.run (St := St) os (IOChannel.new t) = Ret (outs, c0) ∧
    TraceIO.send_fp_ (IOChannel.under c) = IOChannel.a_sent a ∧
    TraceIO.recv_fp_ (IOChannel.under c) = IOChannel.a_recv a ∧
    t_sent (TraceIO.under_ (IOChannel.under c)) = t_sent (IOChannel.under c0) ∧
    t_inbound (TraceIO.under_ (IOChannel.under c)) = t_inbound (IOChannel.under c0).
Proof.
  intros Ht Hs. set (tt := TraceIO.mkState t [] [] true).
  pose (TraceIO.trace_lawful (t_sent t) (t_inbound t)) as L.
  assert (@t_ok _ _ L tt) as Htt by (split_and!; try done; cbn; by rewrite app_nil_r).
  destruct (Script.script_ok (LawfulTransport0 := L) tt os (IOChannel.new tt) [] IOChannel.a_new (t_inbound t) _
    (IOChannel.rel_new (LawfulTransport0 := L) tt Htt) eq_refl Hs) as (c & Hr & R & Hin).
  destruct (Script.script_ok t os (IOChannel.new t) [] IOChannel.a_new (t_inbound t) _
    (IOChannel.rel_new t Ht) eq_refl Hs) as (c0 & Hr0 & R0 & Hin0). cbn [fst snd] in *.
  exists tt, c, c0. split; [done|]. split; [exact Hr|]. split; [exact Hr0|].
  destruct (IOChannel.rel_ok _ _ _ R) as (_ & _ & Hus & Hui).
  pose proof (IOChannel.rel_sent _ _ _ R) as Hf. change (TraceIO.send_fp_ (IOChannel.under c) = IOChannel.a_sent a) in Hf.
  pose proof (IOChannel.rel_inbound _ _ _ R0) as Hi0. rewrite Hin0 in *.
  change (t_inbound (TraceIO.under_ (IOChannel.under c)) = inb) in Hin. rewrite Hin in *.
  split; [done|]. split; [|split; [|done]].
  - rewrite Hui in Hi0. by apply app_inv_tail in Hi0.
  - by rewrite Hus, Hf, (IOChannel.rel_sent _ _ _ R0).
Qed.
Lemma trace_io_transparent_witness :
  let os := [Script.OSend [1; 2]%N; Script.ORecv 2] in
  ∃ tt c, TraceIO.new true true true (([], [7; 8; 9]%N) : Pipe.pipe) = Ret tt ∧
    Script.run (T := TraceIO.State) (St := list N) os (IOChannel.new tt) = Ret ([[7; 8]%N], c) ∧
    TraceIO.send_fp_ (IOChannel.under c) = [1; 2]%N ∧ TraceIO.recv_fp_ (IOChannel.under c) = [7; 8]%N.
Proof.
  intros os. destruct (trace_io_transparent (T := Pipe.pipe) (St := list N) (LawfulTransport0 := Pipe.pipe_lawful)
    ([], [7; 8; 9]%N) os _ _ _ (I : @t_ok _ _ Pipe.pipe_lawful ([], [7; 8; 9]%N)) eq_refl)
    as (tt & c & c0 & Hn & Hr & _ & Hs & Hv & _). exists tt, c. split; [exact Hn|]. split; [exact Hr|]. by split.
Defined.
