(* ===== verification/Net.v ===== *)
(** * Network channels (runtime/io/net_io_channel.h, tls_io_channel.h)

    [NetIO] and [TLSIO] stage their sends in a coalescing buffer and their receives
    in a read buffer; they differ in what is under it.  [Staged] is the code over a
    writer and a reader, [NetIO] and [TLSIO] the two instances.  The system calls
    and OpenSSL answer with events that the state carries, so every partial write,
    partial read and retry is a value of the model.

    [Live] runs two endpoints against each other, one step at a time. *)

From stdpp Require Import relations.
From S2P Require Import Prelude Bits Bytes Block Hash Io.

(** ** Sockets *)
Class Writer (S : Type) := {
  write_all : list N → S → outcome S;
  drain : S → outcome S }.
Class Reader (S : Type) := {
  read_some : S → outcome (list N * S) }.

Definition NETWORK_STAGING_BUFFER_SIZE : Z := 1024 * 32.

(** What a capped read leaves of a chunk for the next one. *)
Definition read_cap : nat := Z.to_nat NETWORK_STAGING_BUFFER_SIZE.
Definition leftover {E} (mk : list N → E) (bs : list N) (evs : list E) : list E :=
  if is_nil (drop read_cap bs) then evs else mk (drop read_cap bs) :: evs.
Lemma staging_pos : (0 ≤ NETWORK_STAGING_BUFFER_SIZE)%Z.
Proof. done. Qed.
Lemma read_cap_pos : (0 < read_cap)%nat.
Proof. unfold read_cap, NETWORK_STAGING_BUFFER_SIZE. lia. Qed.
Lemma is_nil_false {A} (l : list A) : l ≠ [] → is_nil l = false.
Proof. by destruct l. Qed.
Lemma leftover_ok {E} (mk : list N → E) (chunk : E → list N) (fine : E → Prop) bs evs :
  (∀ l, chunk (mk l) = l) → (∀ l, l ≠ [] → fine (mk l)) → bs ≠ [] → Forall fine evs →
  take read_cap bs ≠ [] ∧ Forall fine (leftover mk bs evs) ∧
  bs ++ (evs ≫= chunk) = take read_cap bs ++ (leftover mk bs evs ≫= chunk).
Proof.
  intros Hc Hf Hb He. split.
  { intros Hz%(f_equal length). rewrite length_take in Hz. destruct bs; [done|]. cbn [length] in Hz.
    pose proof read_cap_pos. lia. }
  unfold leftover. destruct (is_nil (drop read_cap bs)) eqn:Hd.
  - split; [done|]. f_equal. rewrite <- (take_drop read_cap bs) at 1. destruct (drop read_cap bs); [|done]. by rewrite app_nil_r.
  - split; [constructor; [|done]; apply Hf; intros Hz; by rewrite Hz in Hd|].
    rewrite bind_cons, Hc, app_assoc. by rewrite take_drop.
Qed.

(** ** The staging buffers *)
Module Staged.
Section staged.
Context {S : Type} `{!Writer S}.

(** [send_ptr] and [recv_fill] are the lengths of the two buffers. *)
Record State := mkState {
  sock : S; send_buf : list N; send_dirty : bool;
  recv_buf : list N; recv_ptr : nat; flushes_count : N }.
Definition new (s : S) : State := mkState s [] false [] 0 0.
Definition send_ptr (c : State) : Z := Z.of_nat (length (send_buf c)).
Definition recv_fill (c : State) : nat := length (recv_buf c).

(** The staged bytes, if any, to the socket. *)
Definition spill (c : State) : outcome S :=
  if is_nil (send_buf c) then mret (sock c) else write_all (send_buf c) (sock c).
Definition flush_unlocked (c : State) : outcome State :=
  if negb (send_dirty c) then mret c else
  s ← spill c;
  s ← drain s;
  mret (mkState s [] false (recv_buf c) (recv_ptr c) (u64 (flushes_count c + 1))).
Definition send_data_internal (data : list N) (c : State) : outcome State :=
  if is_nil data then mret c else
  if (Z.of_nat (length data) <=? NETWORK_STAGING_BUFFER_SIZE - send_ptr c)%Z
  then mret (mkState (sock c) (send_buf c ++ data) true (recv_buf c) (recv_ptr c) (flushes_count c))
  else
    s ← spill c;
    s ← write_all data s;
    mret (mkState s [] true (recv_buf c) (recv_ptr c) (flushes_count c)).

(** What one turn of the receive loop does: a refill when nothing is staged, then
    the bytes that are staged, at most those still wanted. *)
Definition refill (bs : list N) (c : State) : State :=
  mkState (sock c) (send_buf c) (send_dirty c) bs 0 (flushes_count c).
Definition take_staged (want : nat) (c : State) : list N * State :=
  let n := (recv_fill c - recv_ptr c) `min` want in
  (take n (drop (recv_ptr c) (recv_buf c)),
   mkState (sock c) (send_buf c) (send_dirty c) (recv_buf c) (recv_ptr c + n) (flushes_count c)).
Definition with_sock (s : S) (c : State) : State :=
  mkState s (send_buf c) (send_dirty c) (recv_buf c) (recv_ptr c) (flushes_count c).
Context `{!Reader S}.
Definition need_refill (c : State) : outcome State :=
  if (recv_ptr c =? recv_fill c)%nat then '(bs, s) ← read_some (sock c); mret (refill bs (with_sock s c)) else mret c.
(** Every turn delivers at least a byte, so the bytes wanted are fuel enough. *)
Fixpoint recv_loop (fuel want : nat) (c : State) : outcome (list N * State) :=
  if (want =? 0)%nat then mret ([], c) else
  match fuel with
  | O => Undef
  | Datatypes.S f =>
      c ← need_refill c;
      let '(d, c) := take_staged want c in
      '(rest, c) ← recv_loop f (want - length d) c;
      mret (d ++ rest, c)
  end.
Definition recv_data_internal (n : nat) (c : State) : outcome (list N * State) :=
  if (n =? 0)%nat then mret ([], c) else
  c ← flush_unlocked c;
  recv_loop n n c.
(** A byte each way; [flushes]: the answer is flushed. *)
Definition sync (flushes is_server : bool) (c : State) : outcome State :=
  if is_server then
    c ← send_data_internal [0%N] c;
    '(_, c) ← recv_data_internal 1 c;
    mret c
  else
    '(_, c) ← recv_data_internal 1 c;
    c ← send_data_internal [0%N] c;
    if flushes then flush_unlocked c else mret c.
#[global] Instance staged_transport (flushes is_server : bool) : Transport State := {|
  Io.send_data_internal := send_data_internal; Io.recv_data_internal := recv_data_internal;
  Io.flush := flush_unlocked; Io.sync := sync flushes is_server |}.
End staged.
Arguments State : clear implicits.
End Staged.

(** ** NetIO

    [fwrites] says of the coming calls of [fwrite] how many bytes each takes and how
    many pending bytes of the stream the library then writes out on its own;
    [reads] what the coming calls of [read] return. *)
Module NetIO.
Inductive SysRead := EINTR | ReadError | Chunk (bs : list N).
Record Tcp := mkTcp { stream : list N; wire : list N; fwrites : list (nat * nat); reads : list SysRead }.
Definition push (d : list N) (acc spill : nat) (s : Tcp) (evs : list (nat * nat)) : Tcp :=
  let st := stream s ++ take acc d in
  mkTcp (drop spill st) (wire s ++ take spill st) evs (reads s).
(** [send_raw]: the loop over [fwrite], along the calls to come. *)
Fixpoint send_raw_loop (evs : list (nat * nat)) (data : list N) (s : Tcp) : outcome Tcp :=
  if is_nil data then mret (mkTcp (stream s) (wire s) evs (reads s)) else
  match evs with
  | [] => mret (push data (length data) 0 s [])
  | (res, sp) :: evs =>
      expecting (0 <? res)%nat "net_send_data (peer closed or write error)";;
      send_raw_loop evs (drop res data) (push data res sp s evs)
  end.
Definition send_raw (data : list N) (s : Tcp) : outcome Tcp := send_raw_loop (fwrites s) data s.
Definition fflush (s : Tcp) : outcome Tcp := mret (mkTcp [] (wire s ++ stream s) (fwrites s) (reads s)).
(** [read], again while it is interrupted; at most a staging buffer at a time. *)
Fixpoint read_loop (evs : list SysRead) (s : Tcp) : outcome (list N * Tcp) :=
  match evs with
  | EINTR :: evs => read_loop evs s
  | Chunk bs :: evs =>
      expecting (negb (is_nil bs)) "net_recv_data (peer closed or read error)";;
      mret (take read_cap bs, mkTcp (stream s) (wire s) (fwrites s) (leftover Chunk bs evs))
  | ReadError :: _ | [] => Fatal "net_recv_data (peer closed or read error)"
  end.
#[global] Instance tcp_writer : Writer Tcp := {| write_all := send_raw; drain := fflush |}.
#[global] Instance tcp_reader : Reader Tcp := {| read_some s := read_loop (reads s) s |}.

Definition NetIO : Type := Staged.State Tcp.
Definition flush_unlocked : NetIO → outcome NetIO := Staged.flush_unlocked.
Definition send_data_internal : list N → NetIO → outcome NetIO := Staged.send_data_internal.
Definition recv_data_internal : nat → NetIO → outcome (list N * NetIO) := Staged.recv_data_internal.
Definition sync : bool → NetIO → outcome NetIO := Staged.sync true.
End NetIO.

(** ** TLSIO

    The same over TLS records: nothing is buffered under the staging buffer, and a
    call may ask to be repeated. *)
Module TLSIO.
Inductive SslWrite := WWant | Wrote (n : nat) | WError.
Inductive SslRead := RWant | Record_ (bs : list N) | ZeroReturn | RError.
Record Tls := mkTls { wire : list N; ssl_writes : list SslWrite; ssl_reads : list SslRead }.
Fixpoint ssl_write_loop (evs : list SslWrite) (data : list N) (s : Tls) : outcome Tls :=
  if is_nil data then mret (mkTls (wire s) evs (ssl_reads s)) else
  match evs with
  | [] => mret (mkTls (wire s ++ data) [] (ssl_reads s))
  | WWant :: evs => ssl_write_loop evs data s
  | Wrote n :: evs => ssl_write_loop evs (drop n data) (mkTls (wire s ++ take n data) evs (ssl_reads s))
  | WError :: _ => Fatal "TLSIO: SSL_write_ex"
  end.
Definition ssl_write_all (data : list N) (s : Tls) : outcome Tls := ssl_write_loop (ssl_writes s) data s.
(** One record at a time, no bytes when the peer has closed. *)
Fixpoint ssl_read_loop (evs : list SslRead) (s : Tls) : outcome (list N * Tls) :=
  match evs with
  | RWant :: evs => ssl_read_loop evs s
  | Record_ bs :: evs =>
      mret (take read_cap bs, mkTls (wire s) (ssl_writes s) (leftover Record_ bs evs))
  | ZeroReturn :: evs => mret ([], mkTls (wire s) (ssl_writes s) evs)
  | RError :: _ => Fatal "TLSIO: SSL_read_ex"
  | [] => mret ([], mkTls (wire s) (ssl_writes s) [])
  end.
Definition ssl_read_some (s : Tls) : outcome (list N * Tls) := ssl_read_loop (ssl_reads s) s.
Definition read_or_die (s : Tls) : outcome (list N * Tls) :=
  '(bs, s) ← ssl_read_some s;
  expecting (negb (is_nil bs)) "TLSIO: recv_data: peer closed";;
  mret (bs, s).
#[global] Instance tls_writer : Writer Tls := {| write_all := ssl_write_all; drain := Ret |}.
#[global] Instance tls_reader : Reader Tls := {| read_some := read_or_die |}.

Definition TLSIO : Type := Staged.State Tls.
Definition flush_unlocked : TLSIO → outcome TLSIO := Staged.flush_unlocked.
Definition send_data_internal : list N → TLSIO → outcome TLSIO := Staged.send_data_internal.
Definition recv_data_internal : nat → TLSIO → outcome (list N * TLSIO) := Staged.recv_data_internal.
Definition sync : bool → TLSIO → outcome TLSIO := Staged.sync false.
End TLSIO.

(** ** What the staging code relies on

    [s_out] is everything written, [s_wire] what has reached the wire, [s_in] what
    the socket will still deliver. *)
Class LawfulSocket (S : Type) `{!Writer S} `{!Reader S} := {
  s_ok : S → Prop;
  s_out : S → list N;
  s_wire : S → list N;
  s_in : S → list N;
  s_prefix s : s_ok s → s_wire s `prefix_of` s_out s;
  s_write_ok d s : s_ok s → ∃ s', write_all d s = Ret s' ∧ s_ok s' ∧ s_out s' = s_out s ++ d ∧ s_in s' = s_in s;
  s_drain_ok s : s_ok s → ∃ s', drain s = Ret s' ∧ s_ok s' ∧ s_out s' = s_out s ∧ s_wire s' = s_out s ∧ s_in s' = s_in s;
  s_read_ok s : s_ok s → s_in s ≠ [] → ∃ bs s', read_some s = Ret (bs, s') ∧ s_ok s' ∧ bs ≠ [] ∧
    s_in s = bs ++ s_in s' ∧ s_out s' = s_out s ∧ s_wire s' = s_wire s }.

(** A socket whose calls all make progress. *)
Module TcpLaws.
Import NetIO.
Definition chunk (e : SysRead) : list N := match e with Chunk bs => bs | _ => [] end.
Definition read_fine (e : SysRead) : Prop := match e with EINTR => True | Chunk bs => bs ≠ [] | ReadError => False end.
Definition ok (s : Tcp) : Prop := Forall (λ e, (0 < e.1)%nat) (fwrites s) ∧ Forall read_fine (reads s).
Lemma push_out d acc sp s evs : wire (push d acc sp s evs) ++ stream (push d acc sp s evs) = (wire s ++ stream s) ++ take acc d.
Proof. unfold push. cbn. by rewrite <- app_assoc, take_drop, app_assoc. Qed.
Lemma send_raw_loop_ok evs data s : Forall (λ e, (0 < e.1)%nat) evs → Forall read_fine (reads s) →
  ∃ s', send_raw_loop evs data s = Ret s' ∧ ok s' ∧ wire s' ++ stream s' = (wire s ++ stream s) ++ data ∧ reads s' = reads s.
Proof.
  intros Hev. revert data s. induction Hev as [|[res sp] evs Hres Hevs IH]; intros data s Hr; cbn [send_raw_loop].
  - destruct data as [|x data]; cbn [is_nil].
    + eexists. split; [reflexivity|]. split; [by split|]. cbn. by rewrite app_nil_r.
    + eexists. split; [reflexivity|]. split; [by split|]. split; [|done].
      rewrite push_out. by rewrite take_ge by done.
  - destruct data as [|x data]; cbn [is_nil].
    + eexists. split; [reflexivity|]. split; [split; [by constructor|done]|]. cbn. by rewrite app_nil_r.
    + cbn [fst] in Hres. rewrite (proj2 (Nat.ltb_lt 0 res)) by done. cbn [expecting mbind outcome_bind].
      destruct (IH (drop res (x :: data)) (push (x :: data) res sp s evs) Hr) as (s' & -> & Hok & Hout & Hrd).
      exists s'. split; [done|]. split; [done|]. split; [|done].
      by rewrite Hout, push_out, <- app_assoc, take_drop.
Qed.
Lemma read_loop_ok evs s : Forall read_fine evs → (evs ≫= chunk) ≠ [] → Forall (λ e, (0 < e.1)%nat) (fwrites s) →
  ∃ bs s', read_loop evs s = Ret (bs, s') ∧ ok s' ∧ bs ≠ [] ∧ evs ≫= chunk = bs ++ (reads s' ≫= chunk) ∧
    wire s' = wire s ∧ stream s' = stream s.
Proof.
  intros Hev Hne Hw. induction Hev as [|e evs He Hevs IH]; [done|]. destruct e as [| |bs]; [by apply IH|done|].
  cbn [read_loop]. simpl in He. rewrite is_nil_false by done. cbn [negb expecting mbind outcome_bind].
  destruct (leftover_ok Chunk chunk read_fine bs evs) as (Ht & Hl & Heq); [done..|].
  eexists _, _. split; [reflexivity|]. split; [by split|]. split; [done|]. by split.
Qed.
#[global, refine] Instance tcp_lawful : LawfulSocket Tcp := {|
  s_ok := ok; s_out s := wire s ++ stream s; s_wire := wire; s_in s := reads s ≫= chunk |}.
Proof.
  - intros s _. by exists (stream s).
  - intros d s [Hw Hr]. destruct (send_raw_loop_ok (fwrites s) d s Hw Hr) as (s' & H & Hok & Hout & Hrd).
    exists s'. split; [exact H|]. by rewrite Hrd.
  - intros s [Hw Hr]. eexists. split; [reflexivity|]. split; [by split|]. cbn. by rewrite app_nil_r.
  - intros s [Hw Hr] Hne. destruct (read_loop_ok (reads s) s Hr Hne Hw) as (bs & s' & H & Hok & Hb & Hin & H1 & H2).
    exists bs, s'. split; [exact H|]. by rewrite H1, H2.
Defined.
End TcpLaws.

Module TlsLaws.
Import TLSIO.
Definition chunk (e : SslRead) : list N := match e with Record_ bs => bs | _ => [] end.
Definition write_fine (e : SslWrite) : Prop := match e with WError => False | _ => True end.
Definition read_fine (e : SslRead) : Prop := match e with RWant => True | Record_ bs => bs ≠ [] | _ => False end.
Definition ok (s : Tls) : Prop := Forall write_fine (ssl_writes s) ∧ Forall read_fine (ssl_reads s).
Lemma ssl_write_loop_ok evs data s : Forall write_fine evs → Forall read_fine (ssl_reads s) →
  ∃ s', ssl_write_loop evs data s = Ret s' ∧ ok s' ∧ wire s' = wire s ++ data ∧ ssl_reads s' = ssl_reads s.
Proof.
  intros Hev. revert data s. induction Hev as [|e evs He Hevs IH]; intros data s Hr; cbn [ssl_write_loop].
  - destruct data as [|x data]; cbn [is_nil]; (eexists; split; [reflexivity|]); (split; [by split|]); cbn; by rewrite ?app_nil_r.
  - destruct data as [|x data]; cbn [is_nil].
    + eexists. split; [reflexivity|]. split; [split; [by constructor|done]|]. cbn. by rewrite app_nil_r.
    + destruct e as [|n|]; [by apply IH| |done].
      destruct (IH (drop n (x :: data)) (mkTls (wire s ++ take n (x :: data)) evs (ssl_reads s)) Hr) as (s' & -> & Hok & Hw & Hrd).
      exists s'. split; [done|]. split; [done|]. split; [|done]. rewrite Hw. cbn [wire]. by rewrite <- app_assoc, take_drop.
Qed.
Lemma ssl_read_loop_ok evs s : Forall read_fine evs → (evs ≫= chunk) ≠ [] → Forall write_fine (ssl_writes s) →
  ∃ bs s', ssl_read_loop evs s = Ret (bs, s') ∧ ok s' ∧ bs ≠ [] ∧ evs ≫= chunk = bs ++ (ssl_reads s' ≫= chunk) ∧
    wire s' = wire s.
Proof.
  intros Hev Hne Hw. induction Hev as [|e evs He Hevs IH]; [done|]. destruct e as [|bs| |]; [by apply IH| |done..].
  cbn [ssl_read_loop]. simpl in He.
  destruct (leftover_ok Record_ chunk read_fine bs evs) as (Ht & Hl & Heq); [done..|].
  eexists _, _. split; [reflexivity|]. split; [by split|]. split; [done|]. by split.
Qed.
#[global, refine] Instance tls_lawful : LawfulSocket Tls := {|
  s_ok := ok; s_out := wire; s_wire := wire; s_in s := ssl_reads s ≫= chunk |}.
Proof.
  - done.
  - intros d s [Hw Hr]. destruct (ssl_write_loop_ok (ssl_writes s) d s Hw Hr) as (s' & H & Hok & Hout & Hrd).
    exists s'. split; [exact H|]. by rewrite Hrd.
  - intros s Hok. by exists s.
  - intros s [Hw Hr] Hne. destruct (ssl_read_loop_ok (ssl_reads s) s Hr Hne Hw) as (bs & s' & H & Hok & Hb & Hin & H1).
    exists bs, s'. unfold read_some, tls_reader, read_or_die, ssl_read_some. rewrite H. cbn [mbind outcome_bind].
    rewrite is_nil_false by done. cbn [negb expecting mbind outcome_bind mret outcome_ret]. by rewrite H1.
Defined.
End TlsLaws.

(** ** Staging keeps the law of transports *)
Import Staged.
Section lawful.
Context {S : Type} `{!Writer S} `{!Reader S} `{!LawfulSocket S}.

Record StagedOk (c : State S) : Prop := {
  k_sock : s_ok (sock c);
  k_size : (send_ptr c ≤ NETWORK_STAGING_BUFFER_SIZE)%Z;
  k_ptr : (recv_ptr c ≤ recv_fill c)%nat;
  k_dirty : send_dirty c = false → send_buf c = [] ∧ s_wire (sock c) = s_out (sock c) }.
Definition sent (c : State S) : list N := s_out (sock c) ++ send_buf c.
Definition inbound (c : State S) : list N := drop (recv_ptr c) (recv_buf c) ++ s_in (sock c).

Lemma new_staged s : s_ok s → s_wire s = s_out s → StagedOk (new s).
Proof. intros Hs Hw. split; [done|exact staging_pos|done|done]. Qed.
Lemma spill_ok c : s_ok (sock c) → ∃ s', spill c = Ret s' ∧ s_ok s' ∧ s_out s' = sent c ∧ s_in s' = s_in (sock c).
Proof.
  intros Hs. unfold spill, sent. destruct (send_buf c) as [|x b]; cbn [is_nil].
  - exists (sock c). by rewrite app_nil_r.
  - by apply s_write_ok.
Qed.
Lemma flush_unlocked_ok c : StagedOk c → ∃ c', flush_unlocked c = Ret c' ∧ StagedOk c' ∧ sent c' = sent c ∧
  inbound c' = inbound c ∧ send_dirty c' = false ∧ recv_buf c' = recv_buf c ∧ recv_ptr c' = recv_ptr c.
Proof.
  intros [Hs Hz Hp Hd]. unfold flush_unlocked. destruct (send_dirty c) eqn:Hdirty; cbn [negb].
  - destruct (spill_ok c Hs) as (s1 & -> & Hs1 & Ho1 & Hi1). cbn [mbind outcome_bind].
    destruct (s_drain_ok s1 Hs1) as (s2 & -> & Hs2 & Ho2 & Hw2 & Hi2). cbn [mbind outcome_bind mret outcome_ret].
    eexists. split; [reflexivity|]. split; [split; [done|exact staging_pos|done|]|].
    + cbn. intros _. by rewrite Hw2, Ho2.
    + unfold sent at 1, inbound. cbn. rewrite app_nil_r, Ho2, Hi2, Hi1. done.
  - exists c. split; [done|]. split; [split; try done; by rewrite Hdirty|]. done.
Qed.
Lemma send_staged_ok d c : StagedOk c → ∃ c', Staged.send_data_internal d c = Ret c' ∧ StagedOk c' ∧
  sent c' = sent c ++ d ∧ inbound c' = inbound c.
Proof.
  intros [Hs Hz Hp Hd]. unfold Staged.send_data_internal. destruct d as [|x d]; cbn [is_nil].
  { exists c. split; [done|]. split; [by split|]. by rewrite app_nil_r. }
  destruct (Z.leb_spec (Z.of_nat (length (x :: d))) (NETWORK_STAGING_BUFFER_SIZE - send_ptr c)) as [Hle|Hgt].
  - eexists. split; [reflexivity|]. unfold send_ptr in *. split; [split; [done| |done|done]|].
    + unfold send_ptr. cbn [send_buf]. rewrite length_app, Nat2Z.inj_add. lia.
    + unfold sent. cbn. by rewrite app_assoc.
  - destruct (spill_ok c Hs) as (s1 & -> & Hs1 & Ho1 & Hi1). cbn [mbind outcome_bind].
    destruct (s_write_ok (x :: d) s1 Hs1) as (s2 & -> & Hs2 & Ho2 & Hi2). cbn [mbind outcome_bind mret outcome_ret].
    eexists. split; [reflexivity|]. split; [split; [done|exact staging_pos|done|done]|].
    unfold sent at 1, inbound. cbn. by rewrite app_nil_r, Ho2, Ho1, Hi2, Hi1.
Qed.
Lemma need_refill_ok c : StagedOk c → inbound c ≠ [] → ∃ c', need_refill c = Ret c' ∧ StagedOk c' ∧ sent c' = sent c ∧
  inbound c' = inbound c ∧ (recv_ptr c' < recv_fill c')%nat.
Proof.
  intros [Hs Hz Hp Hd] Hin. unfold need_refill. destruct (Nat.eqb_spec (recv_ptr c) (recv_fill c)) as [Heq|Hne].
  - unfold inbound in *. unfold recv_fill in Heq. rewrite drop_ge in * by lia. cbn [app] in *.
    destruct (s_read_ok (sock c) Hs Hin) as (bs & s' & -> & Hs' & Hb & Hi & Ho & Hw). cbn [mbind outcome_bind mret outcome_ret].
    eexists. split; [reflexivity|]. split; [split; [done|done|cbn; lia|]|].
    + cbn. intros Hf. rewrite Ho, Hw. by apply Hd.
    + unfold sent. cbn. rewrite Ho, Hi, drop_0. split; [done|]. split; [done|]. unfold recv_fill. cbn. destruct bs; [done|cbn; lia].
  - exists c. split; [done|]. split; [by split|]. split; [done|]. split; [done|lia].
Qed.
Lemma take_staged_ok want c : StagedOk c → let d := (take_staged want c).1 in let c' := (take_staged want c).2 in
  StagedOk c' ∧ sent c' = sent c ∧ inbound c = d ++ inbound c' ∧ length d = (recv_fill c - recv_ptr c) `min` want.
Proof.
  intros [Hs Hz Hp Hd] d c'. subst d c'. unfold take_staged. cbn [fst snd]. unfold recv_fill in *.
  split; [split; [done|done|unfold recv_fill; cbn; lia|done]|]. split; [done|]. split.
  - unfold inbound. cbn. rewrite app_assoc. f_equal. by rewrite <- drop_drop, take_drop.
  - rewrite length_take, length_drop. lia.
Qed.
Lemma recv_loop_ok fuel want c : StagedOk c → (want ≤ length (inbound c))%nat → (want ≤ fuel)%nat →
  ∃ c', recv_loop fuel want c = Ret (take want (inbound c), c') ∧ StagedOk c' ∧ sent c' = sent c ∧
    inbound c' = drop want (inbound c).
Proof.
  revert want c. induction fuel as [|fuel IH]; intros want c Hc Hw Hf; cbn [recv_loop].
  { assert (want = 0)%nat as -> by lia. cbn. by exists c. }
  destruct (Nat.eqb_spec want 0) as [->|Hne]; [by exists c|].
  destruct (need_refill_ok c Hc) as (c1 & -> & Hc1 & Hs1 & Hi1 & Hlt).
  { intros Hz. rewrite Hz in Hw. cbn in Hw. lia. }
  cbn [mbind outcome_bind]. destruct (take_staged want c1) as [d c2] eqn:Ht.
  destruct (take_staged_ok want c1 Hc1) as (Hc2 & Hs2 & Hi2 & Hl). rewrite Ht in Hc2, Hs2, Hi2, Hl. cbn [fst snd] in *.
  rewrite Hi1 in Hi2. assert (0 < length d ≤ want)%nat as Hd by lia.
  pose proof (f_equal length Hi2) as Hlen. rewrite length_app in Hlen.
  destruct (IH (want - length d)%nat c2 Hc2) as (c3 & Hr & Hc3 & Hs3 & Hi3); [lia..|].
  rewrite Hr. cbn [mbind outcome_bind mret outcome_ret]. exists c3. split; [|split; [done|split; [by rewrite Hs3, Hs2, Hs1|]]].
  - f_equal. f_equal. rewrite Hi2, take_app. by rewrite (take_ge d) by lia.
  - rewrite Hi3, Hi2, drop_app. by rewrite (drop_ge d) by lia.
Qed.
#[global, refine] Instance staged_lawful (flushes is_server : bool) :
    @LawfulTransport (State S) (staged_transport flushes is_server) := {|
  t_ok := StagedOk; t_sent := sent; t_inbound := inbound |}.
Proof.
  - apply send_staged_ok.
  - intros n c Hc Hn. cbn. unfold Staged.recv_data_internal. destruct (Nat.eqb_spec n 0) as [->|Hne]; [by exists c|].
    destruct (flush_unlocked_ok c Hc) as (c1 & -> & Hc1 & Hs1 & Hi1 & _). cbn [mbind outcome_bind].
    rewrite <- Hi1 in *. rewrite <- Hs1. by apply recv_loop_ok.
  - intros c Hc. cbn. destruct (flush_unlocked_ok c Hc) as (c1 & -> & Hc1 & Hs1 & Hi1 & _). by exists c1.
Defined.
End lawful.

(** A channel over staged sockets: the outputs are the specification's, whatever
    the socket answers, and after a flush everything is on the wire. *)
Lemma staged_channel {S St} `{!Writer S} `{!Reader S} `{!LawfulSocket S} `{!StreamHash St} `{!LawfulHash St}
    (flushes is_server : bool) (s : S) (os : list Script.Op) outs a inb :
  let T := staged_transport flushes is_server in
  s_ok s → s_wire s = s_out s → Script.spec (Script.H_fs (St := St)) os ([], IOChannel.a_new, s_in s) = Some (outs, a, inb) →
  ∃ c k, Script.run (T := State S) (St := St) os (IOChannel.new (new s)) = Ret (outs, c) ∧
    s_wire (sock (IOChannel.under c)) `prefix_of` s_out s ++ IOChannel.a_sent a ∧
    Staged.flush_unlocked (IOChannel.under c) = Ret k ∧
    s_wire (sock k) = s_out s ++ IOChannel.a_sent a ∧ inbound k = inb.
Proof.
  intros T Hs Hw Hspec.
  destruct (Script.script_ok (LawfulTransport0 := staged_lawful flushes is_server) (new s) os (IOChannel.new (new s)) []
    IOChannel.a_new (s_in s) _ (IOChannel.rel_new (LawfulTransport0 := staged_lawful flushes is_server) (new s) (new_staged s Hs Hw))
    eq_refl Hspec) as (c & Hr & R & Hin). cbn [fst snd] in *.
  pose proof (IOChannel.rel_ok _ _ _ R) as Hc. change (StagedOk (IOChannel.under c)) in Hc.
  pose proof (IOChannel.rel_sent _ _ _ R) as Hsent.
  change (sent (IOChannel.under c) = sent (new s) ++ IOChannel.a_sent a) in Hsent.
  unfold sent at 2 in Hsent. cbn [sock send_buf new] in Hsent. rewrite app_nil_r in Hsent.
  destruct (flush_unlocked_ok _ Hc) as (k & Hk & Hck & Hsk & Hik & Hd & _).
  exists c, k. split; [exact Hr|]. split; [|split; [done|split; [|by rewrite Hik]]].
  - rewrite <- Hsent. unfold sent. apply prefix_app_r, s_prefix, Hc.
  - destruct (k_dirty k Hck Hd) as [Hb Hwk]. rewrite Hwk, <- Hsent, <- Hsk. unfold sent. by rewrite Hb, app_nil_r.
Qed.

(** ** Two endpoints

    [held] is what the C library still holds of an endpoint's output ([stdio], for
    [NetIO]; TLS holds nothing) and [queue] what the kernel carries to the peer.
    An endpoint runs a list of calls; a receive flushes, then alternates refills of
    the read buffer, by any bytes the peer's queue has, with deliveries. *)
Module Live.
Inductive Op := Send (d : list N) | Recv (n : nat) | Flush.

(** A step of either side of a pair. *)
Definition swap {E} (c : E * E) : E * E := (c.2, c.1).
Inductive either {E} (R : E * E → E * E → Prop) : E * E → E * E → Prop :=
  | at_left c c' : R c c' → either R c c'
  | at_right c c' : R (swap c) (swap c') → either R c c'.
Lemma swap_swap {E} (c : E * E) : swap (swap c) = c.
Proof. by destruct c. Qed.

(** *** Unbuffered channels *)
Record AEnd := mkA { a_todo : list Op; a_in : list N; a_log : list (list N) }.
Definition feed (d : list N) (m : AEnd) : AEnd := mkA (a_todo m) (a_in m ++ d) (a_log m).
(** The endpoint after its next call, and what it sent. *)
Definition anext (m : AEnd) : option (AEnd * list N) :=
  match a_todo m with
  | Send d :: r => Some (mkA r (a_in m) (a_log m), d)
  | Flush :: r => Some (mkA r (a_in m) (a_log m), [])
  | Recv n :: r => if (n <=? length (a_in m))%nat
                   then Some (mkA r (drop n (a_in m)) (a_log m ++ [take n (a_in m)]), []) else None
  | [] => None
  end.
Inductive acall : AEnd * AEnd → AEnd * AEnd → Prop :=
  | acall_do m p m' d : anext m = Some (m', d) → acall (m, p) (m', feed d p).
Lemma acall_next m p c : acall (m, p) c → anext m ≠ None.
Proof. inversion 1. congruence. Qed.
Definition astep := either acall.
Definition a_init (sa sb : list Op) : AEnd * AEnd := (mkA sa [] [], mkA sb [] []).
Definition a_final (c : AEnd * AEnd) : Prop := a_todo c.1 = [] ∧ a_todo c.2 = [].

Lemma anext_feed e m m' d : anext m = Some (m', d) → anext (feed e m) = Some (feed e m', d).
Proof.
  unfold anext, feed. destruct m as [[|[x|n|] r] i l]; cbn; [done|by injection 1 as <- <-| |by injection 1 as <- <-].
  rewrite length_app. destruct (Nat.leb_spec n (length i)) as [Hn|]; [|done]. injection 1 as <- <-.
  rewrite (proj2 (Nat.leb_le _ _)) by lia. cbn. by rewrite take_app_le, drop_app_le by done.
Qed.
Lemma feed_nil m : feed [] m = m.
Proof. destruct m. unfold feed. cbn. by rewrite app_nil_r. Qed.
Lemma anext_todo m m' d : anext m = Some (m', d) → length (a_todo m) = S (length (a_todo m')).
Proof.
  unfold anext. destruct m as [[|[x|n|] r] i l]; cbn; [done|by injection 1 as <- <-| |by injection 1 as <- <-].
  destruct (n <=? length i)%nat; [|done]. by injection 1 as <- <-.
Qed.
Lemma sn_measure {E} (R : E → E → Prop) (P : E → Prop) (m : E → nat) :
  (∀ c c', P c → R c c' → P c' ∧ (m c' < m c)%nat) → ∀ c, P c → sn R c.
Proof.
  intros H c. remember (m c) as n eqn:Hn. revert c Hn. induction (lt_wf n) as [n _ IH]. intros c -> Hc.
  constructor. intros c' Hs. destruct (H c c' Hc Hs) as [Hc' Hlt]. by apply (IH _ Hlt).
Qed.
Lemma astep_sn c : sn astep c.
Proof.
  apply (sn_measure astep (λ _, True) (λ c, (length (a_todo c.1) + length (a_todo c.2))%nat)); [|done].
  clear c. intros c c' _ Hs. split; [done|]. destruct Hs as [c c' Hc|c c' Hc]; [|destruct c as [c1 c2], c' as [c1' c2']; unfold swap in Hc; cbn [fst snd] in *];
    inversion Hc as [m p m' d Hm]; subst; cbn [fst snd] in *; apply anext_todo in Hm; cbn [feed a_todo]; lia.
Qed.
Lemma astep_local : locally_confluent astep.
Proof.
  assert (∀ a b c1 c2, acall (a, b) c1 → acall (b, a) c2 → ∃ z, astep c1 z ∧ astep (swap c2) z) as Hlr.
  { intros a b c1 c2 H1 H2. inversion H1 as [? ? a' d Ha]. inversion H2 as [? ? b' e Hb]. subst.
    exists (feed e a', feed d b'). split.
    - apply at_right. unfold swap. cbn. apply acall_do. by apply anext_feed.
    - apply at_left. unfold swap. cbn. apply acall_do. by apply anext_feed. }
  intros c c1 c2 H1 H2. destruct H1 as [c c1 H1|c c1 H1], H2 as [c c2 H2|c c2 H2]; destruct c as [a b].
  - inversion H1; inversion H2; simplify_eq. eexists. split; reflexivity.
  - destruct (Hlr a b c1 (swap c2) H1 H2) as (z & ? & Hz). rewrite swap_swap in Hz.
    exists z. by split; apply rtc_once.
  - destruct (Hlr a b c2 (swap c1) H2 H1) as (z & ? & Hz). rewrite swap_swap in Hz.
    exists z. by split; apply rtc_once.
  - destruct c1 as [a1 b1], c2 as [a2 b2]. unfold swap in H1, H2. cbn [fst snd] in H1, H2.
    inversion H1; inversion H2; simplify_eq. eexists. split; reflexivity.
Qed.
(** One complete order of the calls: the left endpoint first. *)
Fixpoint a_run (fuel : nat) (c : AEnd * AEnd) : AEnd * AEnd :=
  match fuel with
  | O => c
  | S fuel =>
      match anext c.1, anext c.2 with
      | Some (m, d), _ => a_run fuel (m, feed d c.2)
      | None, Some (m, d) => a_run fuel (feed d c.1, m)
      | None, None => c
      end
  end.
Lemma a_run_ok fuel c : rtc astep c (a_run fuel c).
Proof.
  revert c. induction fuel as [|fuel IH]; intros [a b]; cbn [a_run fst snd]; [reflexivity|].
  destruct (anext a) as [[m d]|] eqn:Ha.
  - eapply rtc_l; [by apply at_left, acall_do|apply IH].
  - destruct (anext b) as [[m d]|] eqn:Hb; [|reflexivity].
    apply (rtc_l _ _ (feed d a, m)); [apply at_right; by apply (acall_do b a m d)|apply IH].
Qed.
Lemma a_final_nf c : a_final c → nf astep c.
Proof.
  intros [H1 H2] [c' Hs]. destruct Hs as [c c' Hc|c c' Hc]; destruct c as [a b]; inversion Hc as [? ? ? ? Ha]; subst;
    cbn [fst snd] in *; unfold anext in Ha; [by rewrite H1 in Ha|by rewrite H2 in Ha].
Qed.
(** Whatever the order of the calls, a run that can complete does. *)
Lemma a_run_unique c f c' : rtc astep c f → a_final f → rtc astep c c' → rtc astep c' f.
Proof.
  intros Hf Hfin Hc'. destruct (locally_confluent_confluent astep_sn astep_local _ _ _ Hf Hc') as (z & Hz & Hcz).
  inversion Hz as [|? y ? Hstep]; subst; [done|]. destruct (a_final_nf f Hfin). by exists y.
Qed.

(** *** Endpoints *)
Record Sock := mkSock { held : list N; queue : list N }.
Section live.
Context (stdio : bool).
#[local] Instance live_writer : Writer Sock := {|
  write_all d s := mret (if stdio then mkSock (held s ++ d) (queue s) else mkSock (held s) (queue s ++ d));
  drain s := mret (if stdio then mkSock [] (queue s ++ held s) else s) |}.
(** [want] bytes are still to be received by the call in progress, which has [acc]. *)
Record End_ := mkEnd { ch : State Sock; todo : list Op; want : nat; acc : list N; log : list (list N) }.
Definition start (s : list Op) : End_ := mkEnd (new (mkSock [] [])) s 0 [] [].
Definition deliver (d : list N) (c : State Sock) (e : End_) : End_ :=
  let w := (want e - length d)%nat in
  if (w =? 0)%nat then mkEnd c (todo e) 0 [] (log e ++ [acc e ++ d]) else mkEnd c (todo e) w (acc e ++ d) (log e).
Definition with_ch (c : State Sock) (e : End_) : End_ := mkEnd c (todo e) (want e) (acc e) (log e).

Inductive call : End_ * End_ → End_ * End_ → Prop :=
  | call_send d r c c' l p : Staged.send_data_internal d c = Ret c' →
      call (mkEnd c (Send d :: r) 0 [] l, p) (mkEnd c' r 0 [] l, p)
  | call_flush r c c' l p : flush_unlocked c = Ret c' →
      call (mkEnd c (Flush :: r) 0 [] l, p) (mkEnd c' r 0 [] l, p)
  | call_recv_none r c l p : call (mkEnd c (Recv 0 :: r) 0 [] l, p) (mkEnd c r 0 [] (l ++ [[]]), p)
  | call_recv n r c c' l p : n ≠ 0%nat → flush_unlocked c = Ret c' →
      call (mkEnd c (Recv n :: r) 0 [] l, p) (mkEnd c' r n [] l, p)
  | read_in e p bs rest : want e ≠ 0%nat → recv_ptr (ch e) = recv_fill (ch e) →
      queue (sock (ch p)) = bs ++ rest → bs ≠ [] → (length bs ≤ read_cap)%nat →
      call (e, p) (with_ch (refill bs (ch e)) e, with_ch (with_sock (mkSock (held (sock (ch p))) rest) (ch p)) p)
  | read_out e p d c' : want e ≠ 0%nat → recv_ptr (ch e) ≠ recv_fill (ch e) → take_staged (want e) (ch e) = (d, c') →
      call (e, p) (deliver d c' e, p)
  | write_out e p bs rest : held (sock (ch e)) = bs ++ rest → bs ≠ [] →
      call (e, p) (with_ch (with_sock (mkSock rest (queue (sock (ch e)) ++ bs)) (ch e)) e, p).
Definition step := either call.
Definition init (sa sb : list Op) : End_ * End_ := (start sa, start sb).
Definition final (c : End_ * End_) : Prop := (todo c.1 = [] ∧ want c.1 = 0%nat) ∧ (todo c.2 = [] ∧ want c.2 = 0%nat).

(** The flush contract: no call list ends with sends that nothing after them flushes. *)
Fixpoint drained (pending : bool) (s : list Op) : bool :=
  match s with
  | [] => negb pending
  | Send d :: r => drained (pending || negb (is_nil d)) r
  | Flush :: r => drained false r
  | Recv n :: r => drained (pending && (n =? 0)%nat) r
  end.

(** The writer is lawful; receives are steps here, so nothing is read through it. *)
#[local] Instance live_reader : Reader Sock := {| read_some _ := Undef |}.
#[local, refine] Instance live_lawful : LawfulSocket Sock := {|
  s_ok s := stdio = true ∨ held s = []; s_out s := queue s ++ held s; s_wire := queue; s_in _ := [] |}.
Proof.
  - intros s _. by exists (held s).
  - intros d s Hs. unfold write_all, live_writer. destruct stdio; (eexists; split; [reflexivity|]); cbn.
    + split; [by left|]. by rewrite app_assoc.
    + destruct Hs as [|Hs]; [done|]. rewrite Hs, !app_nil_r. split; [by right|]. done.
  - intros s Hs. unfold drain, live_writer. destruct stdio; (eexists; split; [reflexivity|]); cbn.
    + split; [by left|]. by rewrite app_nil_r.
    + destruct Hs as [|Hs]; [done|]. rewrite Hs, app_nil_r. split; [by right|]. done.
  - done.
Defined.

(** What an endpoint still keeps from the peer, and what it has ready to deliver. *)
Definition pend (c : State Sock) : list N := held (sock c) ++ send_buf c.
Definition ready (c : State Sock) : list N := drop (recv_ptr c) (recv_buf c).
Lemma sent_pend c : sent c = queue (sock c) ++ pend c.
Proof. unfold sent, pend. cbn. by rewrite app_assoc. Qed.
Lemma inbound_ready c : inbound c = ready c.
Proof. unfold inbound, ready. cbn. by rewrite app_nil_r. Qed.
Lemma clean_pend c : StagedOk c → send_dirty c = false → pend c = [].
Proof.
  intros Hc Hd. destruct (k_dirty c Hc Hd) as [Hb Hw]. cbn in Hw. unfold pend. rewrite Hb, app_nil_r.
  rewrite <- (app_nil_r (queue (sock c))) in Hw at 1. by apply app_inv_head in Hw.
Qed.
Lemma live_spill_queue c s : spill c = Ret s → ∃ x, queue s = queue (sock c) ++ x.
Proof.
  unfold spill. destruct (is_nil _); [intros [= <-]; exists []; by rewrite app_nil_r|].
  unfold write_all, live_writer. intros [= <-]. destruct stdio; [exists []; by rewrite app_nil_r|by eexists].
Qed.
Lemma live_send d c : StagedOk c → ∃ c', Staged.send_data_internal d c = Ret c' ∧ StagedOk c' ∧
  queue (sock c') ++ pend c' = queue (sock c) ++ pend c ++ d ∧ ready c' = ready c ∧
  (length (queue (sock c)) ≤ length (queue (sock c')))%nat ∧ (d = [] → c' = c).
Proof.
  intros Hc. destruct (send_staged_ok d c Hc) as (c' & Hr & Hc' & Hs & Hi). exists c'.
  rewrite !sent_pend, <- app_assoc in Hs. rewrite !inbound_ready in Hi. do 4 (split; [done|]).
  revert Hr. unfold Staged.send_data_internal. destruct d as [|x d]; cbn [is_nil]; [by intros [= <-]|].
  destruct (_ <=? _)%Z; [intros [= <-]; by split|]. destruct (spill c) as [s| |] eqn:Hsp; cbn [mbind outcome_bind]; [|done..].
  destruct (live_spill_queue c s Hsp) as [y Hy]. unfold write_all, live_writer. intros [= <-].
  split; [|done]. cbn [sock]. destruct stdio; cbn [queue]; rewrite Hy, ?length_app; lia.
Qed.
Lemma live_flush c : StagedOk c → ∃ c', flush_unlocked c = Ret c' ∧ StagedOk c' ∧
  queue (sock c') = queue (sock c) ++ pend c ∧ pend c' = [] ∧ ready c' = ready c.
Proof.
  intros Hc. destruct (flush_unlocked_ok c Hc) as (c' & Hr & Hc' & Hs & Hi & Hd & _). exists c'.
  pose proof (clean_pend c' Hc' Hd) as Hp. rewrite !sent_pend, Hp, app_nil_r in Hs. rewrite !inbound_ready in Hi.
  by split_and!.
Qed.

Record Inv (e : End_) : Prop := {
  v_ok : StagedOk (ch e);
  v_drained : drained (negb (is_nil (pend (ch e)))) (todo e) = true;
  v_want : want e ≠ 0%nat → pend (ch e) = [];
  v_acc : want e = 0%nat → acc e = [] }.
Lemma drained_mono b s : drained true s = true → drained b s = true.
Proof.
  revert b. induction s as [|[d|n|] s IH]; intros b; cbn [drained]; [done| | |done].
  - cbn [orb]. intros H. destruct (b || _); [done|by apply IH].
  - cbn [andb]. destruct (n =? 0)%nat; cbn; [by rewrite andb_true_r; apply IH|by rewrite andb_false_r].
Qed.
Lemma start_inv s : drained false s = true → Inv (start s).
Proof. intros Hs. split; [by apply new_staged; [right|]|done|done|done]. Qed.

(** *** The simulation

    An endpoint stands for the unbuffered one whose current receive, if any, has not
    happened yet and whose channel holds the bytes wherever they are. *)
Definition flight (e p : End_) : list N := acc e ++ ready (ch e) ++ queue (sock (ch p)) ++ pend (ch p).
Definition abs (e p : End_) : AEnd :=
  mkA (if (want e =? 0)%nat then todo e else Recv (want e + length (acc e)) :: todo e) (flight e p) (log e).
Definition abs2 (c : End_ * End_) : AEnd * AEnd := (abs c.1 c.2, abs c.2 c.1).
Definition same_or (R : AEnd * AEnd → AEnd * AEnd → Prop) (x y : AEnd * AEnd) : Prop := y = x ∨ R x y.

(** The bytes an endpoint's calls leave for the peer are [d] more than before. *)
Lemma flight_more d e e' p : queue (sock (ch e')) ++ pend (ch e') = queue (sock (ch e)) ++ pend (ch e) ++ d →
  abs p e' = feed d (abs p e).
Proof. intros H. unfold abs, feed, flight. cbn. by rewrite H, <- !app_assoc. Qed.
Lemma flight_same e e' p : queue (sock (ch e')) ++ pend (ch e') = queue (sock (ch e)) ++ pend (ch e) → abs p e' = abs p e.
Proof. intros H. unfold abs, flight. by rewrite H. Qed.

Definition Sim (c c' : End_ * End_) : Prop := (Inv c'.1 ∧ Inv c'.2) ∧ same_or acall (abs2 c) (abs2 c').
Lemma sim_call e p e' d : Inv e' → Inv p → anext (abs e p) = Some (abs e' p, d) → abs p e' = feed d (abs p e) →
  Sim (e, p) (e', p).
Proof. intros He Hp Ha Hf. split; [by split|]. right. unfold abs2. cbn [fst snd]. rewrite Hf. by apply acall_do. Qed.
Lemma sim_stutter e p e' : Inv e' → Inv p → abs e' p = abs e p → abs p e' = abs p e → Sim (e, p) (e', p).
Proof. intros He Hp H1 H2. split; [by split|]. left. unfold abs2. cbn [fst snd]. by rewrite H1, H2. Qed.

Lemma sim_send d r c c' l p : Inv (mkEnd c (Send d :: r) 0 [] l) → Inv p → Staged.send_data_internal d c = Ret c' →
  Sim (mkEnd c (Send d :: r) 0 [] l, p) (mkEnd c' r 0 [] l, p).
Proof.
  intros [Hc Hd _ _] Hp Hs. cbn [ch todo want acc drained] in *.
  destruct (live_send d c Hc) as (c1 & Hr & Hc1 & Hq & Hrd & _ & Hnil). rewrite Hs in Hr. injection Hr as <-.
  apply (sim_call _ _ _ d); [|done| |].
  - split; [done| |done|done]. cbn [ch todo]. destruct d as [|x d].
    + rewrite Hnil by done. cbn [is_nil negb] in Hd. by rewrite orb_false_r in Hd.
    + apply drained_mono. cbn [is_nil negb] in Hd. by rewrite orb_true_r in Hd.
  - unfold anext, abs, flight. cbn [a_todo a_in a_log want todo acc ch log Nat.eqb]. by rewrite Hrd.
  - by apply flight_more.
Qed.
Lemma sim_flush r c c' l p : Inv (mkEnd c (Flush :: r) 0 [] l) → Inv p → flush_unlocked c = Ret c' →
  Sim (mkEnd c (Flush :: r) 0 [] l, p) (mkEnd c' r 0 [] l, p).
Proof.
  intros [Hc Hd _ _] Hp Hf. cbn [ch todo want acc drained] in *.
  destruct (live_flush c Hc) as (c1 & Hr & Hc1 & Hq & Hpe & Hrd). rewrite Hf in Hr. injection Hr as <-.
  apply (sim_call _ _ _ []); [|done| |].
  - split; [done|cbn [ch todo]; by rewrite Hpe|done|done].
  - unfold anext, abs, flight. cbn [a_todo a_in a_log want todo acc ch log Nat.eqb]. by rewrite Hrd.
  - apply flight_more. cbn [ch]. by rewrite Hq, Hpe, !app_nil_r.
Qed.
Lemma sim_recv_none r c l p : Inv (mkEnd c (Recv 0 :: r) 0 [] l) → Inv p →
  Sim (mkEnd c (Recv 0 :: r) 0 [] l, p) (mkEnd c r 0 [] (l ++ [[]]), p).
Proof.
  intros [Hc Hd _ _] Hp. cbn [ch todo want acc drained] in *. apply (sim_call _ _ _ []); [|done| |].
  - split; [done|cbn [ch todo]; by rewrite andb_true_r in Hd|done|done].
  - unfold anext, abs. cbn [a_todo a_in a_log want todo acc ch log Nat.eqb Nat.leb]. by rewrite take_0, drop_0.
  - apply flight_more. cbn [ch]. by rewrite app_nil_r.
Qed.
Lemma sim_recv n r c c' l p : Inv (mkEnd c (Recv n :: r) 0 [] l) → Inv p → n ≠ 0%nat → flush_unlocked c = Ret c' →
  Sim (mkEnd c (Recv n :: r) 0 [] l, p) (mkEnd c' r n [] l, p).
Proof.
  intros [Hc Hd _ _] Hp Hn Hf. cbn [ch todo want acc drained] in *.
  destruct (live_flush c Hc) as (c1 & Hr & Hc1 & Hq & Hpe & Hrd). rewrite Hf in Hr. injection Hr as <-.
  pose proof (proj2 (Nat.eqb_neq n 0) Hn) as Hn0. rewrite Hn0, andb_false_r in Hd. apply sim_stutter; [|done| |].
  - split; [done|cbn [ch todo]; by rewrite Hpe|done|done].
  - unfold abs, flight. cbn [want todo acc ch log Nat.eqb length]. by rewrite Hn0, Nat.add_0_r, Hrd.
  - apply flight_same. cbn [ch]. by rewrite Hq, Hpe, app_nil_r.
Qed.
Lemma sim_read_in e p bs rest : Inv e → Inv p → recv_ptr (ch e) = recv_fill (ch e) → queue (sock (ch p)) = bs ++ rest →
  Sim (e, p) (with_ch (refill bs (ch e)) e, with_ch (with_sock (mkSock (held (sock (ch p))) rest) (ch p)) p).
Proof.
  intros [[Hs Hz Hr Hdi] Hd Hw Ha] [[Hs' Hz' Hr' Hdi'] Hd' Hw' Ha'] Hptr Hq.
  assert (ready (ch e) = []) as Hrd by (unfold ready; apply drop_ge; unfold recv_fill in Hptr; lia).
  split; [split|left].
  - split; [split; [done|done|unfold recv_fill; cbn; lia|done]|done|done|done].
  - split; [split; [done|done|done|]|done|done|done]. cbn. intros H. destruct (Hdi' H) as [Hsb Hh].
    split; [done|]. cbn in Hh. rewrite <- (app_nil_r (queue _)) in Hh at 1. apply app_inv_head in Hh.
    by rewrite <- Hh, app_nil_r.
  - unfold abs2. cbn [fst snd]. f_equal. unfold abs, flight. cbn [want todo acc ch log with_ch]. f_equal. f_equal.
    rewrite Hrd, Hq. unfold ready, refill, pend. cbn. by rewrite <- app_assoc.
Qed.
Lemma sim_read_out e p d c' : Inv e → Inv p → want e ≠ 0%nat → take_staged (want e) (ch e) = (d, c') →
  Sim (e, p) (deliver d c' e, p).
Proof.
  intros [Hc Hd Hw0 Ha] Hp Hw Ht. destruct (take_staged_ok (want e) (ch e) Hc) as (Hc' & _ & Hi' & Hlen).
  rewrite Ht in Hc', Hi', Hlen. cbn [fst snd] in *. rewrite !inbound_ready in Hi'.
  assert (sock c' = sock (ch e) ∧ send_buf c' = send_buf (ch e)) as [Hsk Hsb] by (unfold take_staged in Ht; by injection Ht as <- <-).
  assert (pend c' = pend (ch e)) as Hpe by (unfold pend; by rewrite Hsk, Hsb).
  pose proof (proj2 (Nat.eqb_neq (want e) 0) Hw) as Hw1.
  assert (queue (sock (ch (deliver d c' e))) ++ pend (ch (deliver d c' e)) = queue (sock (ch e)) ++ pend (ch e)) as Hq.
  { unfold deliver. cbv zeta. destruct (want e - length d =? 0)%nat; cbn [ch]; by rewrite Hpe, Hsk. }
  unfold deliver in *. destruct (Nat.eqb_spec (want e - length d) 0) as [Hz|Hz].
  - apply (sim_call _ _ _ []); [|done| |by apply flight_more; rewrite Hq, app_nil_r].
    { split; cbn [ch todo want acc]; [done|by rewrite Hpe|done|done]. }
    assert (length (acc e ++ d) = want e + length (acc e))%nat as Hl by (rewrite length_app; lia).
    assert (flight e p = (acc e ++ d) ++ ready c' ++ queue (sock (ch p)) ++ pend (ch p)) as Hfl
      by (unfold flight; by rewrite Hi', <- !app_assoc).
    unfold anext, abs. cbn [a_todo a_in a_log want todo acc ch log Nat.eqb]. rewrite Hw1, Hfl, <- Hl.
    rewrite (proj2 (Nat.leb_le _ _)) by (rewrite (length_app (acc e ++ d)); lia). by rewrite take_app_length, drop_app_length.
  - apply sim_stutter; [|done| |by apply flight_same].
    + split; cbn [ch todo want acc]; [done|by rewrite Hpe|intros _; rewrite Hpe; by apply Hw0|done].
    + unfold abs, flight. cbn [want todo acc ch log]. rewrite Hw1, (proj2 (Nat.eqb_neq _ 0)) by done.
      rewrite length_app, Hi', <- !app_assoc. f_equal. f_equal. f_equal. lia.
Qed.
Lemma sim_write_out e p bs rest : Inv e → Inv p → held (sock (ch e)) = bs ++ rest → bs ≠ [] →
  Sim (e, p) (with_ch (with_sock (mkSock rest (queue (sock (ch e)) ++ bs)) (ch e)) e, p).
Proof.
  intros [Hc Hd Hw0 Ha] Hp Hh Hb. pose proof Hc as [Hs Hz Hr Hdi].
  assert (pend (ch e) ≠ []) as Hpe by (unfold pend; rewrite Hh; by destruct bs).
  apply sim_stutter; [|done|done|].
  - split; [split; [|done|done|]| | |done].
    + cbn in *. destruct Hs as [|Hs]; [by left|]. rewrite Hh in Hs. by destruct bs.
    + cbn. intros H. by destruct (Hpe (clean_pend _ Hc H)).
    + cbn [ch todo with_ch]. rewrite is_nil_false in Hd by done. by apply drained_mono.
    + cbn [want with_ch]. intros H. by destruct (Hpe (Hw0 H)).
  - apply flight_same. unfold pend. cbn. by rewrite Hh, <- !app_assoc.
Qed.
Lemma call_sim c c' : call c c' → Inv c.1 → Inv c.2 → Sim c c'.
Proof.
  intros H He Hp. destruct H; cbn [fst snd] in *;
    [by apply sim_send|by apply sim_flush|by apply sim_recv_none|by apply sim_recv|by apply sim_read_in
    |by apply sim_read_out|by apply sim_write_out].
Qed.

(** *** Invariant, progress and termination *)
Definition Inv2 (c : End_ * End_) : Prop := Inv c.1 ∧ Inv c.2.
Lemma step_sim c c' : step c c' → Inv2 c → Inv2 c' ∧ rtc astep (abs2 c) (abs2 c').
Proof.
  intros H [H1 H2]. destruct H as [c c' Hc|c c' Hc].
  - destruct (call_sim c c' Hc H1 H2) as [Hi [->|Ha]]; (split; [done|]); [reflexivity|]. by apply rtc_once, at_left.
  - destruct (call_sim _ _ Hc H2 H1) as [[Hi1 Hi2] Ha]. split; [by split|]. destruct c as [a b], c' as [a' b'].
    unfold abs2, swap in *. cbn [fst snd] in *. destruct Ha as [Heq|Ha]; [|by apply rtc_once, at_right].
    pose proof (f_equal fst Heq) as E1. pose proof (f_equal snd Heq) as E2. cbn [fst snd] in E1, E2. by rewrite E1, E2.
Qed.
Lemma steps_sim c c' : rtc step c c' → Inv2 c → Inv2 c' ∧ rtc astep (abs2 c) (abs2 c').
Proof.
  induction 1 as [c|c c1 c' H _ IH]; [done|]. intros Hi. destruct (step_sim c c1 H Hi) as [Hi1 Ha].
  destruct (IH Hi1) as [Hi' Ha']. split; [done|]. by etrans.
Qed.

(** An endpoint that cannot move has finished, or waits with nothing left to read;
    either way it keeps nothing from its peer. *)
Lemma stuck_end e p : Inv e → (¬ ∃ c', call (e, p) c') →
  pend (ch e) = [] ∧ ((todo e = [] ∧ want e = 0%nat) ∨ (want e ≠ 0%nat ∧ ready (ch e) = [] ∧ queue (sock (ch p)) = [])).
Proof.
  intros [Hc Hd Hw Ha] Hst. destruct e as [c s w ac l]. cbn [ch todo want acc] in *.
  destruct (decide (w = 0%nat)) as [->|Hw0].
  - rewrite (Ha eq_refl) in *. destruct s as [|[d|n|] s].
    + split; [|by left]. cbn in Hd. by destruct (pend c).
    + destruct Hst. destruct (live_send d c Hc) as (c' & Hr & _). eexists. by apply (call_send d s c c').
    + destruct Hst. destruct (decide (n = 0%nat)) as [->|Hn]; [eexists; apply call_recv_none|].
      destruct (live_flush c Hc) as (c' & Hr & _). eexists. by apply (call_recv n s c c').
    + destruct Hst. destruct (live_flush c Hc) as (c' & Hr & _). eexists. by apply (call_flush s c c').
  - split; [by apply Hw|right]. destruct (decide (recv_ptr c = recv_fill c)) as [Heq|Hne].
    + split; [done|]. split; [unfold ready; apply drop_ge; unfold recv_fill in Heq; lia|].
      destruct (queue (sock (ch p))) as [|x q] eqn:Hq; [done|]. destruct Hst. eexists.
      apply (read_in (mkEnd c s w ac l) p [x] q); try done. pose proof read_cap_pos. cbn; lia.
    + destruct Hst. destruct (take_staged w c) as [d c'] eqn:Ht. eexists. by eapply (read_out (mkEnd c s w ac l)).
Qed.
(** So the unbuffered endpoint cannot move either. *)
Lemma stuck_abs e p : Inv e → Inv p → (¬ ∃ c', call (e, p) c') → pend (ch p) = [] → anext (abs e p) = None.
Proof.
  intros He Hp Hst Hpp. destruct (stuck_end e p He Hst) as [_ [[Ht Hw]|(Hw & Hr & Hq)]]; unfold anext, abs.
  - by rewrite Hw, Ht.
  - rewrite (proj2 (Nat.eqb_neq _ 0)) by done. cbn [a_todo a_in]. unfold flight. rewrite Hr, Hq, Hpp, app_nil_r.
    by rewrite (proj2 (Nat.leb_gt _ _)) by lia.
Qed.
Lemma stuck_nf c : Inv2 c → (¬ ∃ c', step c c') → nf astep (abs2 c).
Proof.
  intros [H1 H2] Hst. destruct c as [a b]. cbn [fst snd] in *.
  assert (¬ ∃ c', call (a, b) c') as Ha by (intros [c' Hc]; apply Hst; exists c'; by apply at_left).
  assert (¬ ∃ c', call (b, a) c') as Hb.
  { intros [c' Hc]. apply Hst. exists (swap c'). apply at_right. by rewrite swap_swap. }
  destruct (stuck_end a b H1 Ha) as [Hpa _]. destruct (stuck_end b a H2 Hb) as [Hpb _].
  intros [x Hx]. inversion Hx as [? ? Hc|? ? Hc]; subst; unfold abs2, swap in Hc; cbn [fst snd] in Hc;
    apply acall_next in Hc; by apply Hc, stuck_abs.
Qed.
Lemma abs_final c : Inv2 c → a_final (abs2 c) → final c.
Proof.
  intros _ [H1 H2]. destruct c as [a b]. unfold abs2, abs in *. cbn [fst snd a_todo] in *.
  destruct (Nat.eqb_spec (want a) 0), (Nat.eqb_spec (want b) 0); try done; by split.
Qed.
Lemma final_abs c : final c → a_final (abs2 c).
Proof.
  intros [[H1 H2] [H3 H4]]. destruct c as [a b]. unfold a_final, abs2, abs. cbn [fst snd a_todo] in *. by rewrite H1, H2, H3, H4.
Qed.

(** Bytes move from the calls to the staging and the library's buffers, to the
    kernel, to the read buffer and out. *)
Definition op_size (o : Op) : nat := match o with Send d => S (4 * length d) | _ => 1%nat end.
Definition ops_size (s : list Op) : nat := sum_list_with op_size s.
Definition weight (e : End_) : nat :=
  ops_size (todo e) + 3 * length (pend (ch e)) + 2 * length (queue (sock (ch e))) + length (ready (ch e)).
Lemma call_weight c c' : call c c' → Inv c.1 → Inv c.2 → (weight c'.1 + weight c'.2 < weight c.1 + weight c.2)%nat.
Proof.
  intros H He Hp. destruct H as
    [d r c c' l p Hs|r c c' l p Hf|r c l p|n r c c' l p Hn Hf|e p bs rest Hw Hptr Hq Hb Hl|e p d c' Hw Hptr Ht|e p bs rest Hh Hb];
    cbn [fst snd] in *; unfold weight, ops_size, op_size; cbn [todo ch with_ch sum_list_with].
  - destruct (live_send d c (v_ok _ He)) as (c1 & Hr & _ & Hq & Hrd & Hle & _). rewrite Hs in Hr. injection Hr as <-.
    apply (f_equal length) in Hq. rewrite !length_app in Hq. rewrite Hrd. lia.
  - destruct (live_flush c (v_ok _ He)) as (c1 & Hr & _ & Hq & Hpe & Hrd). rewrite Hf in Hr. injection Hr as <-.
    apply (f_equal length) in Hq. rewrite length_app in Hq. rewrite Hrd, Hpe. cbn [length]. lia.
  - lia.
  - destruct (live_flush c (v_ok _ He)) as (c1 & Hr & _ & Hq & Hpe & Hrd). rewrite Hf in Hr. injection Hr as <-.
    apply (f_equal length) in Hq. rewrite length_app in Hq. rewrite Hrd, Hpe. cbn [length]. lia.
  - unfold pend, ready, refill, recv_fill in *. cbn [sock send_buf recv_buf recv_ptr with_sock held queue].
    rewrite Hq, drop_0, (drop_ge (recv_buf (ch e))), !length_app by lia. destruct bs; [done|]. cbn [length]. lia.
  - destruct (take_staged_ok (want e) (ch e) (v_ok _ He)) as (_ & _ & Hi & Hlen). pose proof (k_ptr _ (v_ok _ He)) as Hk.
    rewrite Ht in Hi, Hlen. cbn [fst snd] in *. rewrite !inbound_ready in Hi. apply (f_equal length) in Hi. rewrite length_app in Hi.
    assert (sock c' = sock (ch e) ∧ send_buf c' = send_buf (ch e)) as [Hsk Hsb] by (unfold take_staged in Ht; by injection Ht as <- <-).
    unfold deliver. cbv zeta. destruct (want e - length d =? 0)%nat; cbn [todo ch]; unfold pend; rewrite Hsk, Hsb; lia.
  - unfold pend, ready. cbn [sock send_buf recv_buf recv_ptr with_sock held queue]. rewrite Hh, !length_app.
    destruct bs; [done|]. cbn [length]. lia.
Qed.
Lemma step_weight c c' : Inv2 c → step c c' → Inv2 c' ∧ (weight c'.1 + weight c'.2 < weight c.1 + weight c.2)%nat.
Proof.
  intros Hi H. split; [by apply (step_sim c c' H)|]. destruct Hi as [H1 H2]. destruct H as [c c' Hc|c c' Hc].
  - by apply call_weight.
  - pose proof (call_weight _ _ Hc H2 H1) as Hw. destruct c, c'. cbn [swap fst snd] in *. lia.
Qed.
#[export] Instance final_dec c : Decision (final c).
Proof. apply _. Defined.
Lemma nf_rtc (x y : AEnd * AEnd) : nf astep x → rtc astep x y → y = x.
Proof. intros Hn H. inversion H as [|? z ? Hs]; [done|]. destruct Hn. by exists z. Qed.
Lemma final_pend c : Inv2 c → final c → pend (ch c.1) = [] ∧ pend (ch c.2) = [].
Proof.
  assert (∀ e, Inv e → todo e = [] → pend (ch e) = []) as H.
  { intros e [_ Hd _ _] Ht. rewrite Ht in Hd. cbn in Hd. by destruct (pend (ch e)). }
  intros [H1 H2] [[T1 _] [T2 _]]. split; by apply H.
Qed.
(** Whether a state has a step is decided by its endpoints. *)
Lemma end_moves e p : Inv e → (∃ c', call (e, p) c') ∨ ¬ ∃ c', call (e, p) c'.
Proof.
  intros He. destruct e as [c s w ac l]. destruct He as [Hc Hd Hw Ha]. cbn [ch todo want acc] in *.
  destruct (decide (w = 0%nat)) as [->|Hw0].
  - rewrite (Ha eq_refl) in *. destruct s as [|[d|n|] s].
    + destruct (held (sock c)) as [|x h] eqn:Hh.
      * right. intros [c' H]. inversion H; subst; cbn [ch want] in *; try done. rewrite Hh in *. by destruct bs.
      * left. eexists. by apply (write_out (mkEnd c [] 0 [] l) p [x] h).
    + destruct (live_send d c Hc) as (c' & Hr & _). left. eexists. by apply (call_send d s c c').
    + left. destruct (decide (n = 0%nat)) as [->|Hn]; [eexists; apply call_recv_none|].
      destruct (live_flush c Hc) as (c' & Hr & _). eexists. by apply (call_recv n s c c').
    + destruct (live_flush c Hc) as (c' & Hr & _). left. eexists. by apply (call_flush s c c').
  - destruct (decide (recv_ptr c = recv_fill c)) as [Heq|Hne].
    + destruct (queue (sock (ch p))) as [|x q] eqn:Hq.
      * right. intros [c' H]. inversion H; subst; cbn [ch want] in *; try done.
        -- rewrite Hq in *. by destruct bs.
        -- pose proof (Hw Hw0) as Hpe. unfold pend in Hpe. destruct (held (sock c)); [by destruct bs|done].
      * left. eexists. apply (read_in (mkEnd c s w ac l) p [x] q); try done. pose proof read_cap_pos. cbn; lia.
    + left. destruct (take_staged w c) as [d c'] eqn:Ht. eexists. by eapply (read_out (mkEnd c s w ac l)).
Qed.
Lemma step_dec c : Inv2 c → (∃ c', step c c') ∨ ¬ ∃ c', step c c'.
Proof.
  intros [H1 H2]. destruct c as [a b]. cbn [fst snd] in *.
  destruct (end_moves a b H1) as [[c' Hc]|Ha]; [left; exists c'; by apply at_left|].
  destruct (end_moves b a H2) as [[c' Hc]|Hb]; [left; exists (swap c'); apply at_right; by rewrite swap_swap|].
  right. intros [c' Hc]. inversion Hc as [? ? H|? ? H]; subst; [apply Ha|apply Hb]; by eexists.
Qed.
End live.
End Live.

(** ** Properties *)

(** C39: Channels over the network.  Over TCP and over TLS, a script of calls that the
    specification admits returns what the specification says however the calls of
    [fwrite], [read], [SSL_write_ex] and [SSL_read_ex] split or repeat their work,
    as long as each makes progress; what has reached the wire is always a prefix of
    the bytes sent, and after [flush] it is all of them; the receives deliver the
    incoming bytes in order. *)
Theorem net_channel_correct {St} `{!StreamHash St} `{!LawfulHash St} (flushes is_server : bool) (os : list Script.Op) outs a inb :
  (∀ s : NetIO.Tcp, TcpLaws.ok s → NetIO.stream s = [] →
     Script.spec (Script.H_fs (St := St)) os ([], IOChannel.a_new, NetIO.reads s ≫= TcpLaws.chunk) = Some (outs, a, inb) →
     ∃ c k, Script.run (Transport0 := staged_transport flushes is_server) (St := St) os (IOChannel.new (Staged.new s)) = Ret (outs, c) ∧
       NetIO.wire (sock (IOChannel.under c)) `prefix_of` NetIO.wire s ++ IOChannel.a_sent a ∧
       NetIO.flush_unlocked (IOChannel.under c) = Ret k ∧
       NetIO.wire (sock k) = NetIO.wire s ++ IOChannel.a_sent a ∧ inbound k = inb) ∧
  (∀ s : TLSIO.Tls, TlsLaws.ok s →
     Script.spec (Script.H_fs (St := St)) os ([], IOChannel.a_new, TLSIO.ssl_reads s ≫= TlsLaws.chunk) = Some (outs, a, inb) →
     ∃ c k, Script.run (Transport0 := staged_transport flushes is_server) (St := St) os (IOChannel.new (Staged.new s)) = Ret (outs, c) ∧
       TLSIO.wire (sock (IOChannel.under c)) `prefix_of` TLSIO.wire s ++ IOChannel.a_sent a ∧
       TLSIO.flush_unlocked (IOChannel.under c) = Ret k ∧
       TLSIO.wire (sock k) = TLSIO.wire s ++ IOChannel.a_sent a ∧ inbound k = inb).
Proof.
  split.
  - intros s Hok Hst Hspec. assert (s_wire s = s_out s) as Hw by (cbn; by rewrite Hst, app_nil_r).
    pose proof (staged_channel flushes is_server s os outs a inb Hok Hw Hspec) as H. by rewrite <- Hw in H.
  - intros s Hok Hspec. exact (staged_channel flushes is_server s os outs a inb Hok eq_refl Hspec).
Qed.
(** Interrupted and partial calls; the second send does not fit the staging buffer. *)
Lemma net_channel_correct_witness :
  let os := [Script.OSend [1; 2]%N; Script.ORecv 3; Script.OSend [3]%N] in
  let s := NetIO.mkTcp [] [] [(1%nat, 0%nat)] [NetIO.EINTR; NetIO.Chunk [7; 8]%N; NetIO.EINTR; NetIO.Chunk [9; 10]%N] in
  ∃ outs c k, Script.run (Transport0 := staged_transport true false) (St := list N) os (IOChannel.new (Staged.new s)) = Ret (outs, c) ∧
    outs = [[7; 8; 9]%N] ∧ NetIO.flush_unlocked (IOChannel.under c) = Ret k ∧ NetIO.wire (sock k) = [1; 2; 3]%N ∧ inbound k = [10%N].
Proof.
  intros os s. destruct (proj1 (net_channel_correct (St := list N) true false os [[7; 8; 9]%N]
    (IOChannel.mkAbs [1; 2; 3]%N [7; 8; 9]%N 3 IOChannel.SEND None false) [10%N]) s) as (c & k & Hr & _ & Hk & Hw & Hi).
  - split; repeat constructor; done.
  - done.
  - reflexivity.
  - exists [[7; 8; 9]%N], c, k. split; [exact Hr|]. split; [done|]. split; [exact Hk|]. split; [exact Hw|exact Hi].
Defined.

(** C40: The flush contract is enough.  Two endpoints, over TCP or TLS, run call lists
    that obey it (nothing after the last sends leaves them unflushed).  If the lists
    can complete over unbuffered channels, then from every state the two reach,
    however the kernel splits and delays the bytes and the C library writes out its
    own buffer, every run ends; a state that is not final has a next step; and a
    final state has received what the unbuffered run receives, with nothing kept back. *)
Theorem flush_contract_live (stdio : bool) (sa sb : list Live.Op) f :
  Live.drained false sa = true → Live.drained false sb = true →
  rtc Live.astep (Live.a_init sa sb) f → Live.a_final f →
  ∀ c, rtc (Live.step stdio) (Live.init sa sb) c →
    sn (Live.step stdio) c ∧
    (Live.final c ∨ ∃ c', Live.step stdio c c') ∧
    (Live.final c → Live.log c.1 = Live.a_log f.1 ∧ Live.log c.2 = Live.a_log f.2 ∧
       Live.pend (Live.ch c.1) = [] ∧ Live.pend (Live.ch c.2) = []).
Proof.
  intros Ha Hb Hrun Hfin c Hc.
  assert (Live.Inv2 stdio (Live.init sa sb)) as Hi by (by split; apply Live.start_inv).
  destruct (Live.steps_sim stdio _ _ Hc Hi) as [Hci Hca].
  change (Live.abs2 (Live.init sa sb)) with (Live.a_init sa sb) in Hca.
  pose proof (Live.a_run_unique _ _ _ Hrun Hfin Hca) as Hf. split; [|split].
  - apply (Live.sn_measure _ (Live.Inv2 stdio) (λ c, Live.weight c.1 + Live.weight c.2)%nat); [|done].
    apply Live.step_weight.
  - destruct (Live.final_dec c) as [|Hn]; [by left|right]. destruct (Live.step_dec stdio c Hci) as [|Hst]; [done|].
    destruct Hn. apply (Live.abs_final stdio c Hci).
    pose proof (Live.stuck_nf stdio c Hci Hst) as Hnf. by rewrite (Live.nf_rtc _ _ Hnf Hf) in Hfin.
  - intros Hcf. pose proof (Live.final_abs c Hcf) as Hfa.
    rewrite (Live.nf_rtc _ _ (Live.a_final_nf _ Hfa) Hf). split; [done|]. split; [done|]. by apply (Live.final_pend stdio).
Qed.
(** A ping and its answer, flushed: every run ends, and there is a first step. *)
Lemma flush_contract_live_witness :
  let sa := [Live.Send [0%N]; Live.Recv 1] in let sb := [Live.Recv 1; Live.Send [0%N]; Live.Flush] in
  sn (Live.step true) (Live.init sa sb) ∧ ∃ c, Live.step true (Live.init sa sb) c.
Proof.
  intros sa sb.
  destruct (flush_contract_live true sa sb (Live.mkA [] [] [[0%N]], Live.mkA [] [] [[0%N]]) eq_refl eq_refl) with (c := Live.init sa sb)
    as (Hsn & Hprog & _); [exact (Live.a_run_ok 5 (Live.a_init sa sb))|by split|reflexivity|].
  split; [exact Hsn|]. destruct Hprog as [[[H _] _]|H]; [discriminate H|exact H].
Defined.

(** ** The handshakes

    What [sync] does to a channel is what its list of calls does: for [NetIO] both
    roles obey the contract; the client of [TLSIO] does not, its answer stays staged
    and the server waits. *)
Definition sync_calls (flushes is_server : bool) : list Live.Op :=
  if is_server then [Live.Send [0%N]; Live.Recv 1]
  else [Live.Recv 1; Live.Send [0%N]] ++ (if flushes then [Live.Flush] else []).
Lemma net_sync_drained b : Live.drained false (sync_calls true b) = true.
Proof. by destruct b. Qed.
Definition do_call {S} `{!Writer S} `{!Reader S} (c : State S) (o : Live.Op) : outcome (State S) :=
  match o with
  | Live.Send d => Staged.send_data_internal d c
  | Live.Recv n => '(_, c) ← Staged.recv_data_internal n c; mret c
  | Live.Flush => Staged.flush_unlocked c
  end.
Lemma sync_is_calls {S} `{!Writer S} `{!Reader S} (flushes is_server : bool) (c : State S) :
  Staged.sync flushes is_server c = foldO do_call c (sync_calls flushes is_server).
Proof.
  unfold Staged.sync, sync_calls. destruct is_server; [|destruct flushes]; cbn [foldO app do_call].
  - destruct (Staged.send_data_internal [0%N] c) as [c1| |]; cbn [mbind outcome_bind]; [|done..].
    by destruct (Staged.recv_data_internal 1 c1) as [[]| |].
  - destruct (Staged.recv_data_internal 1 c) as [[d c1]| |]; cbn [mbind outcome_bind mret outcome_ret]; [|done..].
    destruct (Staged.send_data_internal [0%N] c1) as [c2| |]; cbn [mbind outcome_bind]; [|done..].
    by destruct (Staged.flush_unlocked c2).
  - destruct (Staged.recv_data_internal 1 c) as [[d c1]| |]; cbn [mbind outcome_bind mret outcome_ret]; [|done..].
    by destruct (Staged.send_data_internal [0%N] c1).
Qed.
Lemma at_client stdio a b a' b' : Live.call stdio (b, a) (b', a') → Live.step stdio (a, b) (a', b').
Proof. intros H. by apply Live.at_right. Qed.
(** The client of [TLSIO] has answered and is done; the server waits for the answer. *)
Lemma tls_sync_stuck : ∃ c, rtc (Live.step false) (Live.init (sync_calls false true) (sync_calls false false)) c ∧
  Live.want c.1 = 1%nat ∧ Live.todo c.2 = [] ∧ send_buf (Live.ch c.2) = [0%N] ∧ ¬ ∃ c', Live.step false c c'.
Proof.
  eexists. split; [|split; [|split; [|split]]].
  - eapply rtc_l; [apply Live.at_left; eapply Live.call_send; reflexivity|].
    eapply rtc_l; [apply Live.at_left; eapply Live.call_recv; [done|reflexivity]|].
    eapply rtc_l; [apply at_client; eapply Live.call_recv; [done|reflexivity]|].
    eapply rtc_l; [apply at_client; eapply (Live.read_in _ _ _ [0%N] []); try done; apply read_cap_pos|].
    eapply rtc_l; [apply at_client; eapply Live.read_out; [done|done|reflexivity]|].
    eapply rtc_l; [apply at_client; eapply Live.call_send; reflexivity|]. reflexivity.
  - reflexivity.
  - reflexivity.
  - reflexivity.
  - intros [c' H]. inversion H as [? ? Hc|? ? Hc]; subst; inversion Hc; subst; try done; cbn in *; by destruct bs.
Qed.
